(* ===== verification/_CoqProject ===== *)
-Q . S2P
Prelude.v
Wire.v
Protocol.v
OutboundBuffer.v
CapacityLedger.v
Jansson.v
ActiveState.v
ServiceLifecycle.v
WorkerRecovery.v
RoutingSnapshot.v
WsCodec.v
ReadyProof.v
WorkerExecutor.v
GenerationPool.v
EgressPolicy.v
CapabilityPolicy.v
BindingPolicy.v
AuditRecords.v
RuntimeGates.v
IpcValidation.v
HostClient.v
HostSpawn.v
HostStartup.v
RequestNormalization.v
ListenerCors.v
ResponseStream.v
WorkerServer.v
ServerInvariants.v
ServerSteps.v
ServerAdmission.v
BindingRpc.v
BindingRoundtrip.v
PolicyCompiler.v
PolicyConfinement.v
