(* ===== verification/Prelude.v ===== *)
(** * Capsid: a verification library for the capsid runtime and host

    Capsid runs untrusted JavaScript Fetch handlers in worker processes. A Host
    process owns listeners, routes, worker pools and policy; each worker talks
    to it over a byte stream of length-prefixed FetchRPC frames. The Host keeps
    one active.json per App, which decides after a restart what is served, and
    a set of controllers that decide how failures, deploys and capacity are
    handled. This library models the parts whose logic is in the repository's
    own code (src/, src/host/) and the JSON parser it vendors
    (vendor/jansson/), translated function by function, and proves what makes
    them correct.

    ** Files

    - [Prelude] (this file): bytes, machine integers, list slices indexed by Z,
      the tactics and hint databases of the library.
    - [Wire]: the little-endian integer codecs and the frame tables of
      src/protocol.cc (types, flags, sizes).
    - [Protocol]: src/protocol.cc and .h; the frame encoders, the incremental
      parser ([Parser_append], [Parser_next]) with its buffer, read offset and
      sticky error. Theorems: every valid frame sequence, cut into arbitrary
      chunks, is parsed back; everything the parser delivers was a valid frame
      at that place of the stream; the buffer is bounded; errors are final; the
      two encoders write the same exact bytes.
    - [OutboundBuffer]: src/outbound_buffer.h and the output gate of
      src/worker_runtime.cc. write(2) is the class [Writer] with its contract.
      Theorems: what was written plus what is pending is what was accepted;
      bounds; draining; and, with [Protocol], that the Host parses exactly the
      frames the worker queued.
    - [CapacityLedger]: src/host/worker_capacity_ledger.cc. Theorems: totals
      are the sums of the entries, with 64-bit wrap-around; the worker ceiling
      under serialised deploys; and a run in which it is exceeded.
    - [Jansson]: vendor/jansson (stream, UTF-8, lexer, parser) up to
      [json_loadb]. strtod is the class [Strtod]. Theorems: it always returns,
      accepts only well-formed values, and exactly which characters survive its
      push-back; flat objects of plain strings are parsed to themselves.
    - [ActiveState]: src/host/active_state.cc. The file-system interface of the
      source is the class [ActiveStateFilesystem]; [CrashModel] adds what a
      crash can leave, with the laws of POSIX directories, and [disk] is an
      instance. Theorems: the strict parser accepts exactly the texts of valid
      documents; canonical round trip; persisting is crash-atomic; recovery
      after a crash anywhere gives the old or the new document.
    - [ServiceLifecycle]: src/host/service_lifecycle.cc, every decision and
      transition, and the relation [step] that composes them with persistence,
      crashes and restarts. Theorems: memory and disk agree, restarts continue
      the service, a stopped service stays stopped, deploy plans are exact.
    - [WorkerRecovery]: src/host/worker_recovery.cc. Theorems: the bounded
      event window decides the crash budget exactly, backoff in closed form and
      without overflow, retries, and the startup permit queue with bounded
      waiting.
    - [RoutingSnapshot]: src/host/routing_snapshot.cc and the routing step of
      src/host/managed_listener.cc. Theorems: what a snapshot serves and
      retires, and the effect of reading a name after moving it.
    - [WsCodec]: src/host/ws_codec.cc; SHA-1, base64, the handshake keys, the
      frame encoder and the incremental parser. Theorems: frames survive
      chunking, what the parser delivers was a legal frame of the stream, and
      the accept key is the base64 of the SHA-1 of key and GUID.
    - [ReadyProof]: the READY payload of src/ipc_validation.cc and its check in
      src/host/binding_compile.cc. Theorem: the host accepts a payload exactly
      when it is the encoding of the proof it expects.
    - [WorkerExecutor]: src/host/worker_executor.cc and worker_event_source.cc;
      the bridge between an owner thread and the thread that owns a Worker.
      [System] is the shared state with the worker thread's position, [Label] a
      call of the owner or a step of the thread, [run] an interleaving. The
      Runtime's answers are the environment of a step. Theorems, for every
      interleaving: one destroy and one exit event per Worker, the in-flight
      counter, silence after a request's terminal event, no lost wake-up; and a
      run in which a request's end overtakes its last chunk.
    - [GenerationPool]: src/host/generation_pool.cc over [WorkerExecutor] and
      [WorkerRecovery]; slots, replacement threads, the pump and its condition
      variable, interleaved by [pool_run]. Theorems: the drain ends exactly
      when every worker has exited and no replacement is on its way, and reports
      once; the pump loses no wake-up; the scheduler picks the least loaded
      worker; and the two ways a pool loses a worker for good.
    - [EgressPolicy]: src/egress_policy.cc; compilation of the rules, host and
      address decisions. inet_pton is the class [InetPton]. Theorems: what is
      decided about every numeric host and every host name, with a CIDR block
      and the protected ranges as numeric intervals.
    - [CapabilityPolicy]: the first half of src/capability_policy.cc; module
      visibility and resource permissions. Theorems: what compilation
      establishes ([policy_wf]), and that a path is granted exactly when the
      components it resolves to lie in an allowed and in no denied scope.
    - [BindingPolicy]: the second half; the table of binding policies, network
      targets, SHA-256 and the digest of the sandbox profiles. Theorems: a
      binding is granted what its own descriptor lists, and the digest depends
      on the set of profiles only.
    - [AuditRecords]: src/audit.cc and [emit_audit] of src/worker_runtime.cc. Theorems:
      an accepted record is decoded to itself, and no second holds more than
      128 records.
    - [RuntimeGates]: the checks src/worker_runtime.cc makes before network,
      file, stream, environment and module operations, over the policies above.
      Theorems: the network gate and the permission query agree and follow every
      governing policy; a binding passes its gates exactly for what its
      descriptor lists.
    - [IpcValidation]: src/ipc_validation.cc; what a starting worker accepts:
      HELLO, the binding descriptor and its grammars, the startup state machine,
      and the head of a request. Theorems: the accepted binding descriptors and
      request heads are exactly the encodings of the well-formed ones, and the
      startup state keeps its limits whatever frames arrive.
    - [HostClient]: the calls of src/client.cc on a running worker (loading,
      requests, bodies, credit, cancel, flush, events) and the decoder of
      src/response_headers.cc. [Contract] is what an embedder is promised about
      the order of frames and events. Theorems: every run of calls refines it,
      flow control, the timeouts, the bound on canceled ids, and that an event
      call returns.
    - [HostSpawn]: [capsid_worker_spawn] and [capsid_worker_destroy] of
      src/client.cc on Linux: validation, HELLO, the process, its descriptors
      and its cgroup (class [CgroupKernel] with laws). Theorems: what a spawn
      leaves behind, and that a cgroup is configured as a whole or not at all.
    - [HostStartup]: no code; the Host's and the worker's half of the startup
      composed through the wire. Theorems: what the Host validated and loaded
      is what the worker starts with, and the head of a request arrives.
    - [RequestNormalization]: src/host/request_normalization.cc; what a public
      request becomes before a worker sees it, and the WebSocket gate. Theorems:
      a normalized target names nothing outside its App, the fields that reach
      the worker are exactly the end-to-end ones, authorities, and that a
      request's Host does not route in the other modes.
    - [ListenerCors]: src/host/listener_cors.cc. Boost.Beast's fields are the
      class [BeastFields] with its laws. Theorems: which preflights are granted,
      and that a response grants an origin only by the listener's policy.
    - [ResponseStream]: the machine of one request in
      src/host/single_worker_server.cc (heads, bodies, write completions, credit)
      with credit_limits.h and response_body_batch.h. A handler returns a
      [Turn]: the request after it, its effects and what becomes of it.
      Theorems: what is on the stream agrees with what the worker sent, credit
      is conserved, a worker is not starved of it, and the response fields.
    - [WorkerServer]: the io thread of src/host/single_worker_server.cc around
      it: sessions, admission, the queue, timers, disconnect probes, worker
      events, drain and stop. [Impl] is its state with the operations pending on
      the streams, [ServerLabel] what completes or fires next.
    - [ServerInvariants], [ServerSteps]: no code; the mode of every session and
      that every handler keeps it. Theorem: the responses on a connection never
      interleave, and no handler uses a response that is not there.
    - [ServerAdmission]: no code. Theorem: the bounds of the table, the queue
      and the streaming permits, and that no request waits while a slot is free.
    - [BindingRpc]: src/binding_rpc.cc; the structured clone that carries binding
      calls between the App's and the binding's engine. QuickJS is the class
      [QuickJS] of its operations on values, with their laws.
    - [BindingRoundtrip]: no code. Theorems: a clone succeeds exactly on the
      acyclic plain data within the limits and gives that data, and a neutral
      value put into an engine and cloned again is itself; and what a NUL in a
      text does to both.
    - [PolicyCompiler]: src/host/policy_compiler.cc; the request of an App
      against the policy of the Host, the effective configuration with its
      document and digests, and the descriptors of the worker. Theorems: the
      outcome does not depend on the order of the request, and the documents
      carry no value of a variable.
    - [PolicyConfinement]: no code; the compiler composed with the policies the
      worker enforces. Theorem: the worker grants exactly what the App asked
      for, and nothing that the Host does not allow.

    ** Conventions

    A [uint8_t] buffer, [std::string] and [std::string_view] are lists of
    [Byte.byte]; null is [None]. Integers are Z; unsigned arithmetic is written
    with [u16], [u32] and [u64] where the source can wrap. A function that
    mutates its object returns the new record. Result structs with an ok flag
    are kept where callers can see an inconsistent one, and are sums otherwise.
    Enum constructors carry a prefix where the C++ scope distinguished them.
    Operations under a mutex are atomic transitions. Error texts are kept.

    ** Fuel

    The loops that are not structural take fuel. [Jansson.json_loadb] uses
    twice the input length plus three, and [json_loadb_total] shows it is
    enough for every input. [OutboundBuffer.flush] uses the pending length plus
    one; each successful write consumes a byte. [WorkerRecovery.backoff_loop]
    uses 64 rounds; the base at least doubles and the cap is below 2^63, and
    its closed form is proved. [WsCodec.update_loop] takes one more than the
    input length, [WsCodec.pad_loop] and [BindingPolicy.zero_fill] 64 rounds, of
    which at most 63 are used. [AuditRecords.decimal] writes up to 20 digits, enough
    for 64 bits. [HostClient.chunk_loop] takes the number of frames the source
    computes; [HostClient.next_event_loop] takes fuel as an argument, and
    [next_event_returns] shows how much is enough. [flush_loop] and [read_more]
    are structural in the kernel's answers. [WorkerServer.pump_loop] and
    [expire_loop] take the length of the queue, of which each round removes an
    entry; [next_free] takes the number of requests, one less than the
    candidates it may look at ([next_free_fresh]); [complete_drain_at] takes 1,
    since a second completion finds the server shutting down.
    [BindingRpc.clone_value] takes one level more than the depth limit and
    [clone_elements] one round more than the node limit: either is refused by
    its limit before it runs out, and [clone_exact] covers every value within
    them.

    ** Not modelled

    Sockets, processes and threads (worker_supervisor, the start and stop of
    the servers, most of worker_runtime.cc and managed_listener.cc), the
    sandbox, dynamic loading, cryptographic signatures, metrics and logs: they
    are I/O around the parts above. The documents of the Host (config.cc,
    host_config_model.cc, local_capsid_policy.cc, binding_compile.cc) are not
    modelled either: [PolicyCompiler] starts from the parsed request and policy.
    Nor are the POSIX adapter of the active-state file system and the deploy
    transaction in managed_host.cc, and the admin interface. *)
From Stdlib Require Import ZArith Lia Strings.Byte.
From stdpp Require Export prelude gmap strings list.

(** ** Bytes

    A [uint8_t] is a [Byte.byte]; a [std::vector<uint8_t>], a [std::string]
    and a [std::string_view] are lists of bytes. [bs "text"] is the byte list
    of a source literal. *)

Abbreviation byte := Byte.byte.
Abbreviation bytes := (list Byte.byte).

Definition bs (s : string) : bytes := String.list_byte_of_string s.

#[export] Instance byte_eq_dec : EqDecision Byte.byte := Byte.byte_eq_dec.

#[export] Instance byte_countable : Countable Byte.byte :=
  inj_countable Byte.to_N Byte.of_N Byte.of_to_N.

Local Open Scope Z_scope.

(** The value of a byte and the truncating cast to [uint8_t]. *)
Definition u8 (b : byte) : Z := Z.of_N (Byte.to_N b).

Definition to_u8 (z : Z) : byte :=
  match Byte.of_N (Z.to_N (z mod 256)) with
  | Some b => b
  | None => Byte.x00
  end.

#[global] Arguments u8 : simpl never.
#[global] Arguments to_u8 : simpl never.

Lemma u8_range b : 0 <= u8 b < 256.
Proof. unfold u8. pose proof (Byte.to_N_bounded b). lia. Qed.

Lemma to_u8_u8 b : to_u8 (u8 b) = b.
Proof.
  unfold to_u8. rewrite Z.mod_small by apply u8_range.
  unfold u8. rewrite N2Z.id, Byte.of_to_N. done.
Qed.

Lemma u8_to_u8 z : u8 (to_u8 z) = z mod 256.
Proof.
  unfold to_u8. pose proof (Z.mod_pos_bound z 256 ltac:(lia)) as Hr.
  destruct (Byte.of_N (Z.to_N (z mod 256))) as [b|] eqn:E.
  - apply Byte.to_of_N in E. unfold u8. rewrite E. lia.
  - apply Byte.of_N_None_iff in E. lia.
Qed.

Lemma u8_inj a b : u8 a = u8 b → a = b.
Proof. intros H. by rewrite <- (to_u8_u8 a), H, to_u8_u8. Qed.

(** ** Fixed-width unsigned integers

    A [uintN_t] is a [Z]; [u16], [u32] and [u64] are the conversions to the
    width, which is where C++ wraps around. [size_t] is 64 bits wide. *)

Definition u16 (z : Z) : Z := z mod 2 ^ 16.
Definition u32 (z : Z) : Z := z mod 2 ^ 32.
Definition u64 (z : Z) : Z := z mod 2 ^ 64.

Definition u16_max : Z := 2 ^ 16 - 1.
Definition u32_max : Z := 2 ^ 32 - 1.
Definition u64_max : Z := 2 ^ 64 - 1.

Lemma u16_small z : 0 <= z < 2 ^ 16 → u16 z = z.
Proof. apply Z.mod_small. Qed.
Lemma u32_small z : 0 <= z < 2 ^ 32 → u32 z = z.
Proof. apply Z.mod_small. Qed.
Lemma u64_small z : 0 <= z < 2 ^ 64 → u64 z = z.
Proof. apply Z.mod_small. Qed.
Lemma u64_range z : 0 <= u64 z < 2 ^ 64.
Proof. apply Z.mod_pos_bound. lia. Qed.
Lemma u64_add_l a b : u64 (u64 a + b) = u64 (a + b).
Proof. apply Zplus_mod_idemp_l. Qed.
Lemma u64_add_r a b : u64 (a + u64 b) = u64 (a + b).
Proof. apply Zplus_mod_idemp_r. Qed.
Lemma u64_sub_l a b : u64 (u64 a - b) = u64 (a - b).
Proof. apply Zminus_mod_idemp_l. Qed.
Lemma u64_sub_r a b : u64 (a - u64 b) = u64 (a - b).
Proof. apply Zminus_mod_idemp_r. Qed.
Lemma u64_u64 a : u64 (u64 a) = u64 a.
Proof. apply Zmod_mod. Qed.
Lemma u64_add_sub_l a b c : u64 (u64 a - b + c) = u64 (a - b + c).
Proof. by rewrite <- u64_add_l, u64_sub_l, u64_add_l. Qed.
Create Rewrite HintDb u64.
#[export] Hint Rewrite u64_add_sub_l u64_add_l u64_add_r u64_sub_l u64_sub_r u64_u64 : u64.
Lemma u32_range z : 0 <= u32 z < 2 ^ 32.
Proof. apply Z.mod_pos_bound. lia. Qed.

(** ** Sizes and sub-ranges

    [container.size()] is a [Z]; iterator arithmetic is [ztake]/[zdrop]. *)

Definition zlen {A} (l : list A) : Z := Z.of_nat (length l).
Definition ztake {A} (n : Z) (l : list A) : list A := take (Z.to_nat n) l.
Definition zdrop {A} (n : Z) (l : list A) : list A := drop (Z.to_nat n) l.

(** [buffer[i]] as an unsigned value; every use is under a size check. *)
Definition byte_at (l : bytes) (i : Z) : Z :=
  match l !! Z.to_nat i with Some b => u8 b | None => 0 end.

Create Rewrite HintDb zlist.

Section zlist.
Context {A : Type}.
Implicit Types l k : list A.

Lemma zlen_nonneg l : 0 <= zlen l.
Proof. unfold zlen. lia. Qed.
Lemma zlen_nil : zlen (@nil A) = 0.
Proof. done. Qed.
Lemma zlen_cons x l : zlen (x :: l) = 1 + zlen l.
Proof. unfold zlen. simpl length. lia. Qed.
Lemma zlen_app l k : zlen (l ++ k) = zlen l + zlen k.
Proof. unfold zlen. rewrite length_app. lia. Qed.
Lemma zlen_zero l : zlen l = 0 → l = [].
Proof. destruct l; [done|]. rewrite zlen_cons. pose proof (zlen_nonneg l). lia. Qed.
Lemma zlen_ztake n l : 0 <= n <= zlen l → zlen (ztake n l) = n.
Proof. unfold zlen, ztake. rewrite length_take. lia. Qed.
Lemma zlen_ztake_le n l : 0 <= n → zlen (ztake n l) <= n.
Proof. intros Hn. unfold zlen, ztake. rewrite length_take. lia. Qed.
Lemma zlen_zdrop n l : 0 <= n <= zlen l → zlen (zdrop n l) = zlen l - n.
Proof. unfold zlen, zdrop. rewrite length_drop. lia. Qed.
Lemma ztake_zdrop n l : ztake n l ++ zdrop n l = l.
Proof. apply take_drop. Qed.
Lemma zdrop_0 l : zdrop 0 l = l.
Proof. done. Qed.
Lemma ztake_0 l : ztake 0 l = [].
Proof. done. Qed.
Lemma ztake_all l : ztake (zlen l) l = l.
Proof. unfold ztake, zlen. rewrite Nat2Z.id. apply firstn_all. Qed.
Lemma zdrop_all l : zdrop (zlen l) l = [].
Proof. unfold zdrop, zlen. rewrite Nat2Z.id. apply drop_all. Qed.
Lemma ztake_app n l k : n = zlen l → ztake n (l ++ k) = l.
Proof. intros ->. unfold ztake, zlen. rewrite Nat2Z.id. apply take_app_length. Qed.
Lemma zdrop_app n l k : n = zlen l → zdrop n (l ++ k) = k.
Proof. intros ->. unfold zdrop, zlen. rewrite Nat2Z.id. apply drop_app_length. Qed.
Lemma zdrop_zdrop a b l : 0 <= a → 0 <= b → zdrop a (zdrop b l) = zdrop (b + a) l.
Proof.
  intros. unfold zdrop. rewrite drop_drop. f_equal. lia.
Qed.
Lemma zdrop_app_l n l k : 0 <= n <= zlen l → zdrop n (l ++ k) = zdrop n l ++ k.
Proof. intros. unfold zdrop, zlen in *. rewrite drop_app_le by lia. done. Qed.
Lemma ztake_app_l n l k : 0 <= n <= zlen l → ztake n (l ++ k) = ztake n l.
Proof. intros. unfold ztake, zlen in *. rewrite take_app_le by lia. done. Qed.
Lemma zdrop_app_r n l k : zlen l <= n → zdrop n (l ++ k) = zdrop (n - zlen l) k.
Proof.
  intros. unfold zdrop, zlen in *. rewrite drop_app_ge by lia. f_equal. lia.
Qed.
Lemma zdrop_none n l : zlen l <= n → zdrop n l = [].
Proof. intros. unfold zdrop, zlen in *. apply drop_ge. lia. Qed.
Lemma ztake_resume a b c l : 0 <= a → a <= b → 0 <= c →
  ztake a (zdrop c l) ++ ztake (b - a) (zdrop (c + a) l) = ztake b (zdrop c l).
Proof.
  intros. rewrite <- (zdrop_zdrop a c l) by lia. unfold ztake, zdrop.
  rewrite <- (take_drop (Z.to_nat a) (take (Z.to_nat b) _)). f_equal.
  - rewrite take_take. f_equal. lia.
  - rewrite skipn_firstn_comm. f_equal. lia.
Qed.
Lemma ztake_app_split n l k : 0 <= n → zlen l <= n → ztake n (l ++ k) = l ++ ztake (n - zlen l) k.
Proof.
  intros. unfold ztake, zlen in *. rewrite take_app, take_ge by lia. do 2 f_equal. lia.
Qed.
End zlist.

#[export] Hint Rewrite @zlen_app @zlen_cons @zlen_nil : zlist.

(** [zlen_lia] decides size goals over appends, with every length known to be
    non-negative. *)
Ltac zlen_pose :=
  repeat match goal with
  | |- context [zlen ?l] =>
      lazymatch goal with H : 0 <= zlen l |- _ => fail | _ => pose proof (zlen_nonneg l) end
  | _ : context [zlen ?l] |- _ =>
      lazymatch goal with H : 0 <= zlen l |- _ => fail | _ => pose proof (zlen_nonneg l) end
  end.
Ltac zlen_lia := autorewrite with zlist in *; zlen_pose; lia.

Lemma byte_at_range l i : 0 <= byte_at l i < 256.
Proof. unfold byte_at. case_match; [apply u8_range | lia]. Qed.

Lemma byte_at_app_l l k i : 0 <= i < zlen l → byte_at (l ++ k) i = byte_at l i.
Proof. intros. unfold byte_at, zlen in *. rewrite lookup_app_l by lia. done. Qed.

Lemma byte_at_zdrop l n i : 0 <= n → 0 <= i → byte_at (zdrop n l) i = byte_at l (n + i).
Proof.
  intros. unfold byte_at, zdrop. rewrite lookup_drop.
  by replace (Z.to_nat n + Z.to_nat i)%nat with (Z.to_nat (n + i)) by lia.
Qed.

Lemma forallb_impl {A} (p q : A → bool) l : (∀ x, p x = true → q x = true) →
  forallb p l = true → forallb q l = true.
Proof. rewrite !forallb_forall. auto. Qed.

Lemma forallb_take_le {A} (p : A → bool) n m l : (n <= m)%nat →
  forallb p (take m l) = true → forallb p (take n l) = true.
Proof.
  intros Hle. rewrite !forallb_forall. intros Hall x Hx. apply Hall.
  rewrite <- list_elem_of_In in *. apply list_elem_of_lookup in Hx as [i Hi].
  apply lookup_take_Some in Hi as [Hi Hlt].
  apply (list_elem_of_lookup_2 _ i). apply lookup_take_Some. split; [done|lia].
Qed.

(** ** Sums over maps *)

Definition msum {K A} `{Countable K} (f : A → Z) (m : gmap K A) : Z :=
  map_fold (λ _ x acc, f x + acc) 0 m.

Section msum.
Context {K A : Type} `{Countable K} (f : A → Z).
Implicit Types m : gmap K A.

Lemma msum_empty : msum f (∅ : gmap K A) = 0.
Proof. apply map_fold_empty. Qed.

Lemma msum_insert_new m i x : m !! i = None → msum f (<[i:=x]> m) = f x + msum f m.
Proof.
  intros Hi. unfold msum. rewrite map_fold_insert_L; [done| |done].
  intros. lia.
Qed.

Lemma msum_delete m i x : m !! i = Some x → msum f m = f x + msum f (delete i m).
Proof.
  intros Hi. rewrite <- (insert_delete_id m i x) at 1 by done.
  apply msum_insert_new, lookup_delete_eq.
Qed.

Lemma msum_insert m i x : msum f (<[i:=x]> m) = msum f m - from_option f 0 (m !! i) + f x.
Proof.
  destruct (m !! i) as [y|] eqn:Hi; cbn [from_option].
  - rewrite <- insert_delete_eq, msum_insert_new by apply lookup_delete_eq.
    rewrite (msum_delete m i y Hi). lia.
  - rewrite msum_insert_new by done. lia.
Qed.

Lemma msum_nonneg m : (∀ i x, m !! i = Some x → 0 <= f x) → 0 <= msum f m.
Proof.
  induction m as [|i x m Hi IH] using map_ind; intros Hm; [by rewrite msum_empty|].
  rewrite msum_insert_new by done.
  assert (0 <= f x) by (apply (Hm i); apply lookup_insert_eq).
  assert (0 <= msum f m); [|lia]. apply IH. intros j y Hj. apply (Hm j).
  rewrite lookup_insert_ne; [done|]. intros ->. congruence.
Qed.
Lemma msum_lookup_le m i x : (∀ j y, m !! j = Some y → 0 <= f y) →
  m !! i = Some x → f x <= msum f m.
Proof.
  intros Hm Hi. rewrite (msum_delete m i x Hi).
  assert (0 <= msum f (delete i m)); [|lia]. apply msum_nonneg.
  intros j y Hj. apply lookup_delete_Some in Hj as [_ Hj]. by apply (Hm j).
Qed.
End msum.

(** ** Tactics *)

(** Turns the boolean tests of the source into propositions and splits the
    conjunctions they form. *)
Ltac bool_step :=
  match goal with
  | H : (_ && _) = true |- _ => apply andb_true_iff in H as [? ?]
  | H : (_ || _) = false |- _ => apply orb_false_iff in H as [? ?]
  | H : negb _ = true |- _ => apply negb_true_iff in H
  | H : negb _ = false |- _ => apply negb_false_iff in H
  | H : (_ <? _) = true |- _ => apply Z.ltb_lt in H
  | H : (_ <? _) = false |- _ => apply Z.ltb_ge in H
  | H : (_ <=? _) = true |- _ => apply Z.leb_le in H
  | H : (_ <=? _) = false |- _ => apply Z.leb_gt in H
  | H : (_ =? _) = true |- _ => apply Z.eqb_eq in H
  | H : (_ =? _) = false |- _ => apply Z.eqb_neq in H
  | H : bool_decide _ = true |- _ => apply bool_decide_eq_true in H
  | H : bool_decide _ = false |- _ => apply bool_decide_eq_false in H
  end.
Ltac bools := repeat bool_step.

(** Case analysis on the disjunctive test outcomes. *)
Ltac andb_cases :=
  repeat (bools; match goal with
  | H : (_ && _) = false |- _ => apply andb_false_iff in H as [H|H]
  | H : (_ || _) = true |- _ => apply orb_true_iff in H as [H|H]
  end); bools.

(** Splits on the next test of a translated function body. *)
Ltac split_test :=
  match goal with
  | |- context [if ?b then _ else _] => destruct b eqn:?
  | H : context [if ?b then _ else _] |- _ => destruct b eqn:?
  end.

Lemma ltb_lt_true a b : a < b → (a <? b) = true.
Proof. apply Z.ltb_lt. Qed.
Lemma ltb_ge_false a b : b <= a → (a <? b) = false.
Proof. apply Z.ltb_ge. Qed.
Lemma eqb_ne_false a b : a ≠ b → (a =? b) = false.
Proof. apply Z.eqb_neq. Qed.
