(* ===== verification/Wire.v ===== *)
(** * Wire: the little-endian codec of src/protocol.cc

    [load_u16]/[load_u32]/[load_u64], [append_u16]/[append_u32]/[append_u64]
    and [read_u16]/[read_u32]/[read_u64]. A C++ cursor/end pointer pair is the
    list of the bytes that remain between them, so a successful read returns
    the value and the bytes after the advanced cursor. [output->push_back] and
    [output->insert] are list concatenation on the right. *)
From Stdlib Require Import ZArith Lia.
From S2P Require Import Prelude.
Local Open Scope Z_scope.

(** ** Definitions *)

Definition load_u16 (input : bytes) : Z :=
  Z.lor (byte_at input 0) (u16 (Z.shiftl (byte_at input 1) 8)).

Definition load_u32 (input : bytes) : Z :=
  Z.lor (Z.lor (Z.lor (byte_at input 0)
                      (u32 (Z.shiftl (byte_at input 1) 8)))
               (u32 (Z.shiftl (byte_at input 2) 16)))
        (u32 (Z.shiftl (byte_at input 3) 24)).

(** The loop [for (i = 0; i < 8; ++i) value |= input[i] << (i * 8)]; [n]
    counts the iterations left. *)
Fixpoint load_u64_loop (input : bytes) (i : Z) (value : Z) (n : nat) : Z :=
  match n with
  | O => value
  | S n' =>
      load_u64_loop input (i + 1)
        (Z.lor value (u64 (Z.shiftl (byte_at input i) (i * 8)))) n'
  end.

Definition load_u64 (input : bytes) : Z := load_u64_loop input 0 0 8.

Definition append_u16 (output : bytes) (value : Z) : bytes :=
  output ++ [to_u8 value] ++ [to_u8 (Z.shiftr value 8)].

Definition append_u32 (output : bytes) (value : Z) : bytes :=
  output ++ [to_u8 value] ++ [to_u8 (Z.shiftr value 8)]
    ++ [to_u8 (Z.shiftr value 16)] ++ [to_u8 (Z.shiftr value 24)].

Fixpoint append_u64_loop (output : bytes) (value i : Z) (n : nat) : bytes :=
  match n with
  | O => output
  | S n' => append_u64_loop (output ++ [to_u8 (Z.shiftr value (i * 8))]) value (i + 1) n'
  end.

Definition append_u64 (output : bytes) (value : Z) : bytes :=
  append_u64_loop output value 0 8.

Definition read_u16 (cursor : bytes) : option (Z * bytes) :=
  if zlen cursor <? 2 then None else Some (load_u16 cursor, zdrop 2 cursor).

Definition read_u32 (cursor : bytes) : option (Z * bytes) :=
  if zlen cursor <? 4 then None else Some (load_u32 cursor, zdrop 4 cursor).

Definition read_u64 (cursor : bytes) : option (Z * bytes) :=
  if zlen cursor <? 8 then None else Some (load_u64 cursor, zdrop 8 cursor).

(** ** The reference codec: [n] little-endian bytes *)

Fixpoint le_bytes (n : nat) (v : Z) : bytes :=
  match n with O => [] | S n' => to_u8 v :: le_bytes n' (v / 256) end.

Fixpoint le_value (l : bytes) : Z :=
  match l with [] => 0 | b :: l' => u8 b + 256 * le_value l' end.

Lemma zlen_le_bytes n v : zlen (le_bytes n v) = Z.of_nat n.
Proof.
  revert v; induction n as [|n IH]; intros v; cbn [le_bytes]; [done|].
  rewrite zlen_cons, IH. lia.
Qed.

Lemma le_value_bytes n v : 0 <= v < 256 ^ Z.of_nat n → le_value (le_bytes n v) = v.
Proof.
  revert v; induction n as [|n IH]; intros v Hv; cbn [le_bytes le_value].
  - change (256 ^ Z.of_nat 0) with 1 in Hv. lia.
  - rewrite Nat2Z.inj_succ, Z.pow_succ_r in Hv by lia.
    rewrite u8_to_u8, IH; [|split; [apply Z.div_pos; lia|apply Z.div_lt_upper_bound; lia]].
    pose proof (Z.div_mod v 256 ltac:(lia)). lia.
Qed.

Lemma le_value_range l : 0 <= le_value l < 256 ^ zlen l.
Proof.
  induction l as [|b l IH]; cbn [le_value]; [done|].
  rewrite zlen_cons, Z.pow_add_r by (pose proof (zlen_nonneg l); lia).
  pose proof (u8_range b). lia.
Qed.

Lemma le_bytes_value l : le_bytes (length l) (le_value l) = l.
Proof.
  induction l as [|b l IH]; cbn [le_value le_bytes length]; [done|].
  pose proof (u8_range b) as Hb. f_equal.
  - rewrite <- (to_u8_u8 b) at 2. apply u8_inj. rewrite !u8_to_u8.
    rewrite (Z.mul_comm 256), Z_mod_plus_full. done.
  - rewrite (Z.mul_comm 256), Z_div_plus_full by lia.
    rewrite (Z.div_small (u8 b)), Z.add_0_l by lia. done.
Qed.

(** ** The source's shifts and ors compute the reference codec *)

Lemma lor_shift_add a b k : 0 <= k → 0 <= a < 2 ^ k → 0 <= b →
  Z.lor a (Z.shiftl b k) = a + b * 2 ^ k.
Proof.
  intros Hk Ha Hb. rewrite <- Z.shiftl_mul_pow2 by done.
  assert (Z.land a (Z.shiftl b k) = 0) as Hdisj.
  { apply Z.bits_inj'; intros i Hi. rewrite Z.land_spec, Z.bits_0.
    destruct (Z.lt_ge_cases i k);
      [rewrite Z.shiftl_spec_low, andb_false_r by done; done|].
    rewrite <- (Z.mod_small a (2 ^ k)) by done.
    rewrite Z.mod_pow2_bits_high by lia. done. }
  rewrite <- Z.lxor_lor by done. symmetry. by apply Z.add_nocarry_lxor.
Qed.

Lemma shifted_byte_bound b k w : 0 <= b < 256 → 0 <= k → k + 8 <= w →
  0 <= Z.shiftl b k < 2 ^ w.
Proof.
  intros Hb Hk Hw. rewrite Z.shiftl_mul_pow2 by done.
  assert (2 ^ w = 2 ^ (w - k - 8) * 2 ^ 8 * 2 ^ k) as ->.
  { rewrite <- !Z.pow_add_r by lia. f_equal. lia. }
  assert (0 < 2 ^ k) by (apply Z.pow_pos_nonneg; lia).
  assert (0 < 2 ^ (w - k - 8)) by (apply Z.pow_pos_nonneg; lia).
  change (2 ^ 8) with 256. nia.
Qed.

Lemma u16_byte_shift b k : 0 <= b < 256 → 0 <= k → k + 8 <= 16 →
  u16 (Z.shiftl b k) = Z.shiftl b k.
Proof. intros. by apply u16_small, (shifted_byte_bound b k 16). Qed.

Lemma u32_byte_shift b k : 0 <= b < 256 → 0 <= k → k + 8 <= 32 →
  u32 (Z.shiftl b k) = Z.shiftl b k.
Proof. intros. by apply u32_small, (shifted_byte_bound b k 32). Qed.

Lemma u64_byte_shift b k : 0 <= b < 256 → 0 <= k → k + 8 <= 64 →
  u64 (Z.shiftl b k) = Z.shiftl b k.
Proof. intros. by apply u64_small, (shifted_byte_bound b k 64). Qed.

Lemma load_u16_le l : load_u16 l = byte_at l 0 + 256 * byte_at l 1.
Proof.
  pose proof (byte_at_range l 0). pose proof (byte_at_range l 1).
  unfold load_u16. rewrite u16_byte_shift, lor_shift_add by lia. lia.
Qed.

Lemma load_u32_le l :
  load_u32 l = byte_at l 0 + 256 * (byte_at l 1 + 256 * (byte_at l 2 + 256 * byte_at l 3)).
Proof.
  pose proof (byte_at_range l 0). pose proof (byte_at_range l 1).
  pose proof (byte_at_range l 2). pose proof (byte_at_range l 3).
  unfold load_u32. rewrite !u32_byte_shift by lia.
  rewrite (lor_shift_add (byte_at l 0)) by lia.
  rewrite (lor_shift_add (byte_at l 0 + _)) by lia.
  rewrite lor_shift_add by lia. lia.
Qed.

(** [n] reads from position [i] on accumulate the little-endian value. *)
Lemma load_u64_loop_le l n i v : 0 <= i → i + Z.of_nat n <= 8 → 0 <= v < 256 ^ i →
  i + Z.of_nat n <= zlen l →
  load_u64_loop l i v n = v + 256 ^ i * le_value (ztake (Z.of_nat n) (zdrop i l)).
Proof.
  revert i v; induction n as [|n IH]; intros i v Hi Hn Hv Hl; cbn [load_u64_loop].
  - change (ztake (Z.of_nat 0) (zdrop i l)) with (@nil byte). cbn [le_value]. lia.
  - pose proof (byte_at_range l i) as Hb.
    assert (256 ^ i = 2 ^ (i * 8)) as Hpow.
    { rewrite Z.mul_comm, Z.pow_mul_r by lia. done. }
    rewrite u64_byte_shift, lor_shift_add by lia.
    rewrite IH; [|lia|lia|rewrite Z.pow_add_r by lia; rewrite <- Hpow; nia|lia].
    assert (∃ b, l !! Z.to_nat i = Some b) as [b Hlook].
    { apply lookup_lt_is_Some_2. unfold zlen in Hl. lia. }
    replace (ztake (Z.of_nat (S n)) (zdrop i l))
      with (b :: ztake (Z.of_nat n) (zdrop (i + 1) l)).
    + cbn [le_value]. unfold byte_at. rewrite Hlook, Z.pow_add_r, <- Hpow by lia.
      change (256 ^ 1) with 256. lia.
    + unfold ztake, zdrop. rewrite !Nat2Z.id, (drop_S l b (Z.to_nat i)) by done.
      cbn [take]. by replace (Z.to_nat (i + 1)) with (S (Z.to_nat i)) by lia.
Qed.

Lemma load_u64_le l : 8 <= zlen l → load_u64 l = le_value (ztake 8 l).
Proof.
  intros. unfold load_u64. rewrite load_u64_loop_le by lia.
  rewrite zdrop_0. change (256 ^ 0) with 1. change (Z.of_nat 8) with 8. lia.
Qed.

Lemma append_u16_le out v : append_u16 out v = out ++ le_bytes 2 v.
Proof. unfold append_u16. rewrite Z.shiftr_div_pow2 by lia. done. Qed.

Lemma append_u32_le out v : append_u32 out v = out ++ le_bytes 4 v.
Proof.
  unfold append_u32. rewrite !Z.shiftr_div_pow2 by lia. cbn [le_bytes app].
  rewrite !Z.div_div by lia. done.
Qed.

Lemma append_u64_loop_le out v i n : 0 <= i →
  append_u64_loop out v i n = out ++ le_bytes n (v / 256 ^ i).
Proof.
  revert out i; induction n as [|n IH]; intros out i Hi; cbn [append_u64_loop le_bytes].
  - by rewrite app_nil_r.
  - rewrite IH by lia. rewrite <- (assoc (++)). cbn [app]. do 2 f_equal.
    + rewrite Z.shiftr_div_pow2 by lia. do 2 f_equal.
      rewrite Z.mul_comm, Z.pow_mul_r by lia. done.
    + rewrite Z.pow_add_r, Z.div_div by (try apply Z.pow_nonzero; lia). done.
Qed.

Lemma append_u64_le out v : append_u64 out v = out ++ le_bytes 8 v.
Proof. unfold append_u64. rewrite append_u64_loop_le by lia. by rewrite Z.div_1_r. Qed.

(** ** Round trips *)

Lemma le_value_take2 b0 b1 rest :
  le_value [b0; b1] = load_u16 (b0 :: b1 :: rest).
Proof.
  set (l := b0 :: b1 :: rest). rewrite load_u16_le.
  change (byte_at l 0) with (u8 b0). change (byte_at l 1) with (u8 b1).
  cbn [le_value]. lia.
Qed.

Lemma le_value_take4 b0 b1 b2 b3 rest :
  le_value [b0; b1; b2; b3] = load_u32 (b0 :: b1 :: b2 :: b3 :: rest).
Proof.
  set (l := b0 :: b1 :: b2 :: b3 :: rest). rewrite load_u32_le.
  change (byte_at l 0) with (u8 b0). change (byte_at l 1) with (u8 b1).
  change (byte_at l 2) with (u8 b2). change (byte_at l 3) with (u8 b3).
  cbn [le_value]. lia.
Qed.

Lemma read_u16_le v rest : 0 <= v < 2 ^ 16 → read_u16 (le_bytes 2 v ++ rest) = Some (v, rest).
Proof.
  intros Hv. unfold read_u16. rewrite zlen_app, zlen_le_bytes.
  rewrite ltb_ge_false by (pose proof (zlen_nonneg rest); lia).
  rewrite zdrop_app by (by rewrite zlen_le_bytes). do 2 f_equal.
  rewrite <- (le_value_bytes 2 v) at 2 by lia. cbn [le_bytes app].
  by rewrite <- (le_value_take2 _ _ rest).
Qed.

Lemma read_u32_le v rest : 0 <= v < 2 ^ 32 → read_u32 (le_bytes 4 v ++ rest) = Some (v, rest).
Proof.
  intros Hv. unfold read_u32. rewrite zlen_app, zlen_le_bytes.
  rewrite ltb_ge_false by (pose proof (zlen_nonneg rest); lia).
  rewrite zdrop_app by (by rewrite zlen_le_bytes). do 2 f_equal.
  rewrite <- (le_value_bytes 4 v) at 2 by lia. cbn [le_bytes app].
  by rewrite <- (le_value_take4 _ _ _ _ rest).
Qed.

Lemma read_u64_le v rest : 0 <= v < 2 ^ 64 → read_u64 (le_bytes 8 v ++ rest) = Some (v, rest).
Proof.
  intros Hv. unfold read_u64. rewrite zlen_app, zlen_le_bytes.
  rewrite ltb_ge_false by (pose proof (zlen_nonneg rest); lia).
  rewrite zdrop_app by (by rewrite zlen_le_bytes). do 2 f_equal.
  rewrite load_u64_le by (rewrite zlen_app, zlen_le_bytes; pose proof (zlen_nonneg rest); lia).
  rewrite ztake_app by (by rewrite zlen_le_bytes).
  apply le_value_bytes. lia.
Qed.

(** A read that succeeds consumed exactly the encoding of what it returned. *)
Lemma read_u16_inv c v rest : read_u16 c = Some (v, rest) →
  c = le_bytes 2 v ++ rest ∧ 0 <= v < 2 ^ 16.
Proof.
  unfold read_u16. split_test; [done|]. intros [= <- <-]. bools.
  destruct c as [|b0 [|b1 c]]; rewrite ?zlen_cons, ?zlen_nil in *; try lia.
  rewrite <- le_value_take2. split; [|apply (le_value_range [b0; b1])].
  by change (le_bytes 2) with (le_bytes (length [b0; b1])); rewrite le_bytes_value.
Qed.

Lemma read_u32_inv c v rest : read_u32 c = Some (v, rest) →
  c = le_bytes 4 v ++ rest ∧ 0 <= v < 2 ^ 32.
Proof.
  unfold read_u32. split_test; [done|]. intros [= <- <-]. bools.
  destruct c as [|b0 [|b1 [|b2 [|b3 c]]]]; rewrite ?zlen_cons, ?zlen_nil in *; try lia.
  rewrite <- le_value_take4. split; [|apply (le_value_range [b0; b1; b2; b3])].
  by change (le_bytes 4) with (le_bytes (length [b0; b1; b2; b3])); rewrite le_bytes_value.
Qed.

Lemma read_u64_inv c v rest : read_u64 c = Some (v, rest) →
  c = le_bytes 8 v ++ rest ∧ 0 <= v < 2 ^ 64.
Proof.
  unfold read_u64. split_test; [done|]. intros [= <- <-]. bools.
  rewrite load_u64_le by done.
  assert (length (ztake 8 c) = 8%nat) as Hlen.
  { pose proof (zlen_ztake 8 c ltac:(lia)) as Hz. unfold zlen in Hz. lia. }
  split.
  - rewrite <- Hlen at 1. rewrite le_bytes_value. by rewrite ztake_zdrop.
  - pose proof (le_value_range (ztake 8 c)) as Hr. rewrite zlen_ztake in Hr by lia. done.
Qed.

Create Rewrite HintDb wire.
#[export] Hint Rewrite append_u16_le append_u32_le append_u64_le zlen_le_bytes : wire.

(** The loads, directly on a cursor. *)
Lemma load_u16_app v rest : 0 <= v < 2 ^ 16 → load_u16 (le_bytes 2 v ++ rest) = v.
Proof. intros Hv. pose proof (read_u16_le v rest Hv) as H. unfold read_u16 in H.
  split_test; [done|]. by injection H. Qed.

Lemma load_u32_app v rest : 0 <= v < 2 ^ 32 → load_u32 (le_bytes 4 v ++ rest) = v.
Proof. intros Hv. pose proof (read_u32_le v rest Hv) as H. unfold read_u32 in H.
  split_test; [done|]. by injection H. Qed.

Lemma load_u64_app v rest : 0 <= v < 2 ^ 64 → load_u64 (le_bytes 8 v ++ rest) = v.
Proof. intros Hv. pose proof (read_u64_le v rest Hv) as H. unfold read_u64 in H.
  split_test; [done|]. by injection H. Qed.

Lemma load_u16_split l : 2 <= zlen l →
  l = le_bytes 2 (load_u16 l) ++ zdrop 2 l ∧ 0 <= load_u16 l < 2 ^ 16.
Proof. intros. apply read_u16_inv. unfold read_u16. by rewrite ltb_ge_false. Qed.

Lemma load_u32_split l : 4 <= zlen l →
  l = le_bytes 4 (load_u32 l) ++ zdrop 4 l ∧ 0 <= load_u32 l < 2 ^ 32.
Proof. intros. apply read_u32_inv. unfold read_u32. by rewrite ltb_ge_false. Qed.

Lemma load_u64_split l : 8 <= zlen l →
  l = le_bytes 8 (load_u64 l) ++ zdrop 8 l ∧ 0 <= load_u64 l < 2 ^ 64.
Proof. intros. apply read_u64_inv. unfold read_u64. by rewrite ltb_ge_false. Qed.
