(* ===== verification/Protocol.v ===== *)
(** * Protocol: FetchRPC frames (src/protocol.h, src/protocol.cc)

    Frame validity, the encoders and the incremental [Parser]. Out-parameters
    are results, so the guards on null out-pointers do not appear; the guards
    on null input pointers do ([None] is the null pointer). *)
From Stdlib Require Import ZArith Lia.
From S2P Require Import Prelude Wire.
Local Open Scope Z_scope.

(** ** Constants (src/protocol.h) *)

Definition kMagic : Z := 0x43545257.
Definition kVersion : Z := 3.
Definition kVersionV4 : Z := 4.
Definition kVersionNegotiate : Z := 0.
Definition kHeaderSize : Z := 24.
Definition kHelloLegacyFixedPayloadSize : Z := 106.
Definition kHelloFixedPayloadSize : Z := 108.
Definition kMaxPayloadSize : Z := 64 * 1024.
Definition kMaxFixedBodySize : Z := 4 * 1024.
Definition kMaxBufferedBytes : Z := 4 * 1024 * 1024.
Definition kFlagStart : Z := 1.
Definition kFlagEnd : Z := 2.
Definition kFlagBundleName : Z := 4.
Definition kFlagTrustedBytecode : Z := 8.
Definition kFlagRequestEnd : Z := 16.
Definition kFlagResponseFixedBody : Z := 1.
Definition kFlagBindingLog : Z := 1.
Definition kErrorFlagTimeout : Z := 1.
Definition kReadySandboxFeatureMask : Z := Z.shiftl 1 10 - 1.
Definition kFlagChanOutbound : Z := 1.
Definition kFlagChanText : Z := 4.
Definition kFlagRequestUpgrade : Z := 32.
Definition kFlagResponseUpgrade : Z := 32.
Definition kHelloV4TailSize : Z := 8.
Definition kCapDuplexChannel : Z := 1.
Definition kCapUpgrade : Z := 2.
Definition kCapHalfClose : Z := 4.
Definition kCapabilitiesKnownMask : Z :=
  Z.lor (Z.lor kCapDuplexChannel kCapUpgrade) kCapHalfClose.

(** [enum FrameType] *)
Definition kHello : Z := 1.
Definition kLoadBundle : Z := 2.
Definition kReady : Z := 3.
Definition kRequestHead : Z := 4.
Definition kRequestBody : Z := 5.
Definition kRequestEnd : Z := 6.
Definition kResponseHead : Z := 7.
Definition kResponseBody : Z := 8.
Definition kResponseEnd : Z := 9.
Definition kWindowUpdate : Z := 10.
Definition kCancel : Z := 11.
Definition kLog : Z := 12.
Definition kError : Z := 13.
Definition kShutdown : Z := 14.
Definition kAudit : Z := 15.
Definition kMemoryMetricsRequest : Z := 16.
Definition kMemoryMetricsResponse : Z := 17.
Definition kLoadBinding : Z := 18.
Definition kChannelOpen : Z := 19.
Definition kChannelAccept : Z := 20.
Definition kChannelReject : Z := 21.
Definition kChannelData : Z := 22.
Definition kChannelCredit : Z := 23.
Definition kChannelHalfClose : Z := 24.
Definition kChannelClose : Z := 25.
Definition kChannelCancel : Z := 26.

Record Frame := mkFrame {
  ftype : Z;
  fflags : Z;
  frequest_id : Z;
  fversion : Z;
  fpayload : bytes
}.

Inductive ParseResult :=
| kParseNeedMore
| kParseFrame (frame : Frame)
| kParseError.

Record Parser := mkParser {
  buffer_ : bytes;
  offset_ : Z;
  error_ : string;
  expected_version_ : Z
}.

(** ** Frame validity *)

(** [(flags & ~mask) == 0] on [uint32_t]. *)
Definition flags_within (flags mask : Z) : bool := Z.land flags (u32 (Z.lnot mask)) =? 0.

Definition flag_clear (flags bit : Z) : bool := Z.land flags bit =? 0.

Definition valid_type (type : Z) : bool := (kHello <=? type) && (type <=? kLoadBinding).

Definition valid_type_versioned (type version : Z) : bool :=
  if version =? kVersionV4 then (kHello <=? type) && (type <=? kChannelCancel)
  else valid_type type.

Definition valid_hello_v4_payload (payload : bytes) : bool :=
  if zlen payload <? kHelloFixedPayloadSize + kHelloV4TailSize then false
  else
    let cursor := zdrop (zlen payload - kHelloV4TailSize) payload in
    match read_u32 cursor with
    | None => false
    | Some (capabilities, cursor) =>
        match read_u32 cursor with
        | None => false
        | Some (reserved, _) =>
            flags_within capabilities kCapabilitiesKnownMask && (reserved =? 0)
        end
    end.

Definition valid_flags (type flags : Z) : bool :=
  if type =? kLoadBundle then
    flags_within flags
      (Z.lor (Z.lor (Z.lor kFlagStart kFlagEnd) kFlagBundleName) kFlagTrustedBytecode)
    && (flag_clear flags kFlagBundleName || negb (flag_clear flags kFlagStart))
    && (flag_clear flags kFlagTrustedBytecode || negb (flag_clear flags kFlagStart))
  else if type =? kLoadBinding then flags_within flags (Z.lor kFlagStart kFlagEnd)
  else if type =? kRequestHead then flags_within flags kFlagRequestEnd
  else if type =? kResponseHead then flags_within flags kFlagResponseFixedBody
  else if type =? kError then flags_within flags kErrorFlagTimeout
  else if type =? kReady then flags_within flags kReadySandboxFeatureMask
  else if type =? kLog then flags_within flags kFlagBindingLog
  else flags =? 0.

Definition valid_flags_versioned (type flags version : Z) : bool :=
  if negb (version =? kVersionV4) then valid_flags type flags
  else if type =? kRequestHead then
    flags_within flags (Z.lor kFlagRequestEnd kFlagRequestUpgrade)
  else if type =? kResponseHead then
    flags_within flags (Z.lor kFlagResponseFixedBody kFlagResponseUpgrade)
  else if type =? kChannelOpen then flags_within flags kFlagChanOutbound
  else if type =? kChannelData then
    flags_within flags (Z.lor (Z.lor kFlagStart kFlagEnd) kFlagChanText)
  else valid_flags type flags.

(** ** Parser *)

Definition new_Parser (expected_version : Z) : Parser :=
  mkParser [] 0 "" expected_version.

Definition set_error (p : Parser) (message : string) : Parser :=
  mkParser (buffer_ p) (offset_ p) message (expected_version_ p).

Definition has_error (p : Parser) : bool := negb (bool_decide (error_ p = ""%string)).

(** [Parser::append(data, size)]; [data], when not null, points to at least
    [size] bytes. *)
Definition Parser_append (p : Parser) (data : option bytes) (size : Z) : bool * Parser :=
  if has_error p then (false, p)
  else if size =? 0 then (true, p)
  else match data with
  | None => (false, set_error p "invalid parser input")
  | Some data =>
      let buffered := u64 (zlen (buffer_ p) - offset_ p) in
      if u64 (kMaxBufferedBytes - buffered) <? size then
        (false, set_error p "frame buffer limit exceeded")
      else
        let p' :=
          if negb (offset_ p =? 0)
             && ((kMaxBufferedBytes <? u64 (zlen (buffer_ p) + size))
                 || (zlen (buffer_ p) / 2 <=? offset_ p))
          then mkParser (zdrop (offset_ p) (buffer_ p)) 0 (error_ p) (expected_version_ p)
          else p in
        (true, mkParser (buffer_ p' ++ ztake size data) (offset_ p') (error_ p')
                 (expected_version_ p'))
  end.

(** The body of [Parser::next] after the version check: type, flags, payload
    size, frame extraction and HELLO capabilities. *)
Definition next_body (p : Parser) (buffered : Z) (header : bytes) : ParseResult * Parser :=
  let type := load_u16 (zdrop 6 header) in
  if negb (valid_type_versioned type (expected_version_ p)) then
    (kParseError, set_error p "invalid frame type")
  else
  let flags := load_u32 (zdrop 8 header) in
  if negb (valid_flags_versioned type flags (expected_version_ p)) then
    (kParseError, set_error p "invalid frame flags")
  else
  let payload_size := load_u32 (zdrop 20 header) in
  if kMaxPayloadSize <? payload_size then
    (kParseError, set_error p "frame payload limit exceeded")
  else
  let frame_size := u64 (kHeaderSize + payload_size) in
  if buffered <? frame_size then (kParseNeedMore, p)
  else
  let payload := ztake payload_size (zdrop (offset_ p + kHeaderSize) (buffer_ p)) in
  let frame := mkFrame type flags (load_u64 (zdrop 12 header)) (expected_version_ p) payload in
  if (expected_version_ p =? kVersionV4) && (type =? kHello)
     && negb (valid_hello_v4_payload payload) then
    (kParseError, set_error p "invalid hello capabilities")
  else
  let offset := u64 (offset_ p + frame_size) in
  (kParseFrame frame,
   if offset =? zlen (buffer_ p) then mkParser [] 0 (error_ p) (expected_version_ p)
   else mkParser (buffer_ p) offset (error_ p) (expected_version_ p)).

(** [Parser::next(frame)]. *)
Definition Parser_next (p : Parser) : ParseResult * Parser :=
  if has_error p then (kParseError, p)
  else
  let buffered := u64 (zlen (buffer_ p) - offset_ p) in
  if buffered <? kHeaderSize then (kParseNeedMore, p)
  else
  let header := zdrop (offset_ p) (buffer_ p) in
  if negb (load_u32 header =? kMagic) then
    (kParseError, set_error p "invalid frame magic")
  else
  let wire_version := load_u16 (zdrop 4 header) in
  if expected_version_ p =? kVersionNegotiate then
    if negb (wire_version =? kVersion) && negb (wire_version =? kVersionV4) then
      (kParseError, set_error p "unsupported protocol version")
    else
      next_body (mkParser (buffer_ p) (offset_ p) (error_ p) wire_version) buffered header
  else if negb (wire_version =? expected_version_ p) then
    (kParseError, set_error p "unsupported protocol version")
  else next_body p buffered header.

(** ** Encoders *)

Definition append_header (output : bytes) (version type flags request_id payload_size : Z)
    : bytes :=
  let output := append_u32 output kMagic in
  let output := append_u16 output version in
  let output := append_u16 output type in
  let output := append_u32 output flags in
  let output := append_u64 output request_id in
  append_u32 output (u32 payload_size).

(** The bytes [payload, payload + size) of a non-null pointer. *)
Definition payload_range (payload : option bytes) (payload_size : Z) : bytes :=
  match payload with Some data => ztake payload_size data | None => [] end.

(** Both encoders return [None] for [false], the new output otherwise. *)
Definition append_encoded (type flags request_id : Z) (payload : option bytes)
    (payload_size : Z) (output : bytes) : option bytes :=
  if negb (valid_type type) || negb (valid_flags type flags)
     || (kMaxPayloadSize <? payload_size)
     || (negb (payload_size =? 0) && bool_decide (payload = None))
     || (u64_max - kHeaderSize - payload_size <? zlen output)
  then None
  else
    let output := append_header output kVersion type flags request_id payload_size in
    Some (if negb (payload_size =? 0) then output ++ payload_range payload payload_size
          else output).

Definition append_encoded_versioned (version type flags request_id : Z)
    (payload : option bytes) (payload_size : Z) (output : bytes) : option bytes :=
  if (negb (version =? kVersion) && negb (version =? kVersionV4))
     || negb (valid_type_versioned type version)
     || negb (valid_flags_versioned type flags version)
     || (kMaxPayloadSize <? payload_size)
     || (negb (payload_size =? 0) && bool_decide (payload = None))
     || (u64_max - kHeaderSize - payload_size <? zlen output)
  then None
  else
    let output := append_header output version type flags request_id payload_size in
    Some (if negb (payload_size =? 0) then output ++ payload_range payload payload_size
          else output).

Definition encode (frame : Frame) : option bytes :=
  append_encoded (ftype frame) (fflags frame) (frequest_id frame)
    (if bool_decide (fpayload frame = []) then None else Some (fpayload frame))
    (zlen (fpayload frame)) [].

Definition encode_versioned (version : Z) (frame : Frame) : option bytes :=
  if negb (version =? kVersion) && negb (version =? kVersionV4) then None
  else if negb (valid_type_versioned (ftype frame) version)
          || negb (valid_flags_versioned (ftype frame) (fflags frame) version) then None
  else if (kMaxPayloadSize <? zlen (fpayload frame))
          || (negb (zlen (fpayload frame) =? 0) && bool_decide (fpayload frame = [])) then None
  else
    let output :=
      append_header [] version (ftype frame) (fflags frame) (frequest_id frame)
        (zlen (fpayload frame)) in
    Some (if negb (bool_decide (fpayload frame = [])) then output ++ fpayload frame else output).

(** ** The frame grammar: the abstract specification of the wire format *)

Definition frame_header (f : Frame) : bytes :=
  le_bytes 4 kMagic ++ le_bytes 2 (fversion f) ++ le_bytes 2 (ftype f)
    ++ le_bytes 4 (fflags f) ++ le_bytes 8 (frequest_id f) ++ le_bytes 4 (zlen (fpayload f)).

Definition frame_bytes (f : Frame) : bytes := frame_header f ++ fpayload f.

Definition frame_stream (fs : list Frame) : bytes := concat (map frame_bytes fs).

(** A frame whose fields fit their widths and which the version admits. *)
Record frame_ok (f : Frame) : Prop := {
  ok_version : fversion f = kVersion ∨ fversion f = kVersionV4;
  ok_type_width : 0 <= ftype f < 2 ^ 16;
  ok_flags_width : 0 <= fflags f < 2 ^ 32;
  ok_id_width : 0 <= frequest_id f < 2 ^ 64;
  ok_type : valid_type_versioned (ftype f) (fversion f) = true;
  ok_flags : valid_flags_versioned (ftype f) (fflags f) (fversion f) = true;
  ok_payload : zlen (fpayload f) <= kMaxPayloadSize;
  ok_hello : (fversion f =? kVersionV4) && (ftype f =? kHello)
             && negb (valid_hello_v4_payload (fpayload f)) = false
}.

Lemma zlen_frame_header f : zlen (frame_header f) = 24.
Proof. unfold frame_header. rewrite !zlen_app, !zlen_le_bytes. done. Qed.

Lemma zlen_frame_bytes f : zlen (frame_bytes f) = 24 + zlen (fpayload f).
Proof. unfold frame_bytes. by rewrite zlen_app, zlen_frame_header. Qed.

Lemma frame_stream_cons f fs : frame_stream (f :: fs) = frame_bytes f ++ frame_stream fs.
Proof. done. Qed.

Lemma frame_stream_app fs gs : frame_stream (fs ++ gs) = frame_stream fs ++ frame_stream gs.
Proof. unfold frame_stream. by rewrite map_app, concat_app. Qed.

Lemma header_size_small f x : zlen (fpayload f) <= kMaxPayloadSize →
  load_u32 (zdrop 20 (frame_header f ++ x)) = zlen (fpayload f).
Proof.
  intros Hp. unfold frame_header. rewrite 4!(assoc (++)), <- (assoc (++)).
  rewrite zdrop_app by (by rewrite !zlen_app, !zlen_le_bytes).
  apply load_u32_app. unfold kMaxPayloadSize in Hp.
  pose proof (zlen_nonneg (fpayload f)). lia.
Qed.

Section header_loads.
Context (f : Frame) (Hok : frame_ok f) (x : bytes).

Lemma header_magic : load_u32 (frame_header f ++ x) = kMagic.
Proof. unfold frame_header. rewrite <- (assoc (++)), load_u32_app; done. Qed.

Lemma header_version : load_u16 (zdrop 4 (frame_header f ++ x)) = fversion f.
Proof.
  unfold frame_header. rewrite <- (assoc (++)), zdrop_app by (by rewrite zlen_le_bytes).
  rewrite <- (assoc (++)), load_u16_app; [done|].
  destruct (ok_version f Hok) as [-> | ->]; done.
Qed.

Lemma header_type : load_u16 (zdrop 6 (frame_header f ++ x)) = ftype f.
Proof.
  unfold frame_header. rewrite (assoc (++)), <- (assoc (++)).
  rewrite zdrop_app by (by rewrite zlen_app, !zlen_le_bytes).
  rewrite <- (assoc (++)). apply load_u16_app, Hok.
Qed.

Lemma header_flags : load_u32 (zdrop 8 (frame_header f ++ x)) = fflags f.
Proof.
  unfold frame_header. rewrite 2!(assoc (++)), <- (assoc (++)).
  rewrite zdrop_app by (by rewrite !zlen_app, !zlen_le_bytes).
  rewrite <- (assoc (++)). apply load_u32_app, Hok.
Qed.

Lemma header_id : load_u64 (zdrop 12 (frame_header f ++ x)) = frequest_id f.
Proof.
  unfold frame_header. rewrite 3!(assoc (++)), <- (assoc (++)).
  rewrite zdrop_app by (by rewrite !zlen_app, !zlen_le_bytes).
  rewrite <- (assoc (++)). apply load_u64_app, Hok.
Qed.

Lemma header_size : load_u32 (zdrop 20 (frame_header f ++ x)) = zlen (fpayload f).
Proof. apply header_size_small, Hok. Qed.
End header_loads.

(** ** Parser invariant *)

(** Received and not yet delivered bytes. *)
Definition pending (p : Parser) : bytes := zdrop (offset_ p) (buffer_ p).

Record parser_wf (p : Parser) : Prop := {
  wf_offset : 0 <= offset_ p <= zlen (buffer_ p);
  wf_bound : zlen (buffer_ p) <= kMaxBufferedBytes
}.

Lemma new_Parser_wf v : parser_wf (new_Parser v).
Proof. by split. Qed.

Lemma wf_buffered p : parser_wf p →
  u64 (zlen (buffer_ p) - offset_ p) = zlen (pending p) ∧ zlen (pending p) <= kMaxBufferedBytes.
Proof.
  intros [Ho Hb]. unfold pending. rewrite zlen_zdrop by done.
  unfold kMaxBufferedBytes in *. rewrite u64_small; lia.
Qed.

Lemma has_error_false p : error_ p = ""%string → has_error p = false.
Proof. intros H. unfold has_error. by rewrite bool_decide_true. Qed.

Lemma has_error_inv p : has_error p = false → error_ p = ""%string.
Proof. intros H. unfold has_error in H. by bools. Qed.

Lemma set_error_wf p m : parser_wf p → parser_wf (set_error p m).
Proof. intros []. by split. Qed.

(** [append] either refuses, keeping the buffer, or extends the pending bytes
    by exactly the input. *)
Lemma append_spec p data size b p' : parser_wf p → 0 <= size →
  (∀ d, data = Some d → size <= zlen d) →
  Parser_append p data size = (b, p') →
  parser_wf p' ∧ expected_version_ p' = expected_version_ p ∧
  (if b then error_ p' = ""%string ∧
             pending p' = pending p ++ payload_range data size
   else pending p' = pending p).
Proof.
  intros Hwf Hsize Hdata. unfold Parser_append.
  destruct (has_error p) eqn:Herr.
  { intros [= <- <-]. done. }
  apply has_error_inv in Herr. split_test.
  { intros [= <- <-]. bools. subst size. repeat split; try apply Hwf; try done.
    destruct data; simpl; by rewrite ?ztake_0, app_nil_r. }
  destruct data as [d|]; [|intros [= <- <-]; split; [by apply set_error_wf|done]].
  destruct (wf_buffered p Hwf) as [-> Hle]. specialize (Hdata d eq_refl).
  pose proof (zlen_nonneg (pending p)). pose proof Hwf as [Ho Hb].
  unfold kMaxBufferedBytes in *. rewrite (u64_small (_ - zlen (pending p))) by lia.
  split_test; [intros [= <- <-]; split; [by apply set_error_wf|done]|]. bools.
  rewrite (u64_small (zlen (buffer_ p) + size)) by lia.
  intros [= <- <-]. split_test; bools; cbn [buffer_ offset_ error_ expected_version_ payload_range].
  - split; [|split; [done|split; [done|]]].
    + unfold pending in *. rewrite zlen_zdrop in * by lia.
      split; cbn [buffer_ offset_]; unfold kMaxBufferedBytes;
        rewrite zlen_app, zlen_zdrop, zlen_ztake by lia; lia.
    + unfold pending. cbn [buffer_ offset_]. by rewrite zdrop_0.
  - split; [|split; [done|split; [done|]]].
    + assert (zlen (buffer_ p) + size <= 4 * 1024 * 1024).
      { unfold pending in *. rewrite zlen_zdrop in * by lia.
        andb_cases; lia. }
      split; cbn [buffer_ offset_]; unfold kMaxBufferedBytes;
        rewrite zlen_app, zlen_ztake by lia; lia.
    + unfold pending. cbn [buffer_ offset_]. by rewrite zdrop_app_l by lia.
Qed.

(** The 24 header bytes are the encoding of the fields the loads return. *)
Lemma header_split h : 24 <= zlen h →
  h = (le_bytes 4 (load_u32 h) ++ le_bytes 2 (load_u16 (zdrop 4 h))
        ++ le_bytes 2 (load_u16 (zdrop 6 h)) ++ le_bytes 4 (load_u32 (zdrop 8 h))
        ++ le_bytes 8 (load_u64 (zdrop 12 h)) ++ le_bytes 4 (load_u32 (zdrop 20 h)))
      ++ zdrop 24 h ∧
  0 <= load_u16 (zdrop 6 h) < 2 ^ 16 ∧ 0 <= load_u32 (zdrop 8 h) < 2 ^ 32 ∧
  0 <= load_u64 (zdrop 12 h) < 2 ^ 64 ∧ 0 <= load_u32 (zdrop 20 h) < 2 ^ 32.
Proof.
  intros Hlen.
  assert (∀ n, 0 <= n <= 24 → zlen (zdrop n h) = zlen h - n) as Hd.
  { intros. apply zlen_zdrop. lia. }
  destruct (load_u32_split h) as [E0 _]; [lia|].
  destruct (load_u16_split (zdrop 4 h)) as [E4 _]; [rewrite Hd; lia|].
  destruct (load_u16_split (zdrop 6 h)) as [E6 R6]; [rewrite Hd; lia|].
  destruct (load_u32_split (zdrop 8 h)) as [E8 R8]; [rewrite Hd; lia|].
  destruct (load_u64_split (zdrop 12 h)) as [E12 R12]; [rewrite Hd; lia|].
  destruct (load_u32_split (zdrop 20 h)) as [E20 R20]; [rewrite Hd; lia|].
  rewrite zdrop_zdrop in E4 by lia. rewrite zdrop_zdrop in E6 by lia.
  rewrite zdrop_zdrop in E8 by lia. rewrite zdrop_zdrop in E12 by lia.
  rewrite zdrop_zdrop in E20 by lia.
  change (4 + 2) with 6 in E4. change (6 + 2) with 8 in E6. change (8 + 4) with 12 in E8.
  change (12 + 8) with 20 in E12. change (20 + 4) with 24 in E20.
  split; [|done]. rewrite E0 at 1. rewrite E4 at 1. rewrite E6 at 1. rewrite E8 at 1.
  rewrite E12 at 1. rewrite E20 at 1. by rewrite <- !(assoc (++)).
Qed.

(** What a step of [next] may do once magic and version are accepted. *)
Definition next_outcome (p : Parser) (r : ParseResult) (p' : Parser) : Prop :=
  parser_wf p' ∧
  match r with
  | kParseNeedMore => p' = p
  | kParseFrame f =>
      error_ p' = ""%string ∧ expected_version_ p' = expected_version_ p ∧
      frame_ok f ∧ fversion f = expected_version_ p ∧
      pending p = frame_bytes f ++ pending p'
  | kParseError =>
      error_ p' ≠ ""%string ∧ expected_version_ p' = expected_version_ p ∧
      buffer_ p' = buffer_ p ∧ offset_ p' = offset_ p
  end.

Lemma next_error_outcome p m : parser_wf p → m ≠ ""%string →
  next_outcome p kParseError (set_error p m).
Proof. intros. split; [by apply set_error_wf|done]. Qed.

Lemma next_body_sound p r p' : parser_wf p → error_ p = ""%string →
  kHeaderSize <= zlen (pending p) → load_u32 (pending p) = kMagic →
  load_u16 (zdrop 4 (pending p)) = expected_version_ p →
  expected_version_ p = kVersion ∨ expected_version_ p = kVersionV4 →
  next_body p (zlen (pending p)) (pending p) = (r, p') → next_outcome p r p'.
Proof.
  intros Hwf Herr H24 Hmagic Hver Hv34. unfold kHeaderSize in H24.
  destruct (header_split (pending p) H24) as (Hsplit & R6 & R8 & R12 & R20).
  unfold next_body. set (h := pending p) in *.
  destruct (wf_buffered p Hwf) as [_ Hmax]. fold h in Hmax.
  split_test; [intros [= <- <-]; by apply next_error_outcome|].
  split_test; [intros [= <- <-]; by apply next_error_outcome|].
  split_test; [intros [= <- <-]; by apply next_error_outcome|]. bools.
  set (psize := load_u32 (zdrop 20 h)) in *. unfold kHeaderSize, kMaxPayloadSize in *.
  rewrite (u64_small (24 + psize)) by lia.
  split_test; [intros [= <- <-]; by split|]. bools.
  replace (zdrop (offset_ p + 24) (buffer_ p)) with (zdrop 24 h).
  2:{ unfold h, pending. apply zdrop_zdrop; [lia|apply Hwf]. }
  assert (zlen (zdrop 24 h) = zlen h - 24) as Hz by (apply zlen_zdrop; lia).
  assert (zlen (ztake psize (zdrop 24 h)) = psize) as Hpl by (apply zlen_ztake; lia).
  split_test; [intros [= <- <-]; by apply next_error_outcome|].
  pose proof Hwf as [Ho Hb]. unfold kMaxBufferedBytes in *.
  assert (zlen h = zlen (buffer_ p) - offset_ p) as Hh by (apply zlen_zdrop; lia).
  rewrite (u64_small (offset_ p + (24 + psize))) by lia.
  intros [= <- <-]. split; [|split; [|split; [|split; [|split]]]].
  - split_test; split; cbn [buffer_ offset_]; unfold kMaxBufferedBytes;
      bools; first [done | lia].
  - by split_test.
  - by split_test.
  - split; cbn [ftype fflags frequest_id fversion fpayload]; try done.
    by rewrite Hpl.
  - done.
  - transitivity ((frame_header (mkFrame (load_u16 (zdrop 6 h)) (load_u32 (zdrop 8 h))
        (load_u64 (zdrop 12 h)) (expected_version_ p) (ztake psize (zdrop 24 h)))
        ++ ztake psize (zdrop 24 h)) ++ zdrop (24 + psize) h).
    + unfold frame_header. cbn [ftype fflags frequest_id fversion fpayload].
      rewrite Hpl, <- (assoc (++) _ (ztake _ _)), <- (zdrop_zdrop psize 24 h) by lia.
      rewrite ztake_zdrop, <- Hmagic, <- Hver. exact Hsplit.
    + f_equal. unfold pending at 1, h, pending. rewrite zdrop_zdrop by lia.
      split_test; cbn [buffer_ offset_]; [|done].
      bools. rewrite zdrop_0. apply zdrop_none. lia.
Qed.

Definition with_version (p : Parser) (v : Z) : Parser :=
  mkParser (buffer_ p) (offset_ p) (error_ p) v.

(** A connection's version either is pinned at construction, or is locked by
    the first frame header of a negotiating parser. *)
Definition version_step (v v' : Z) : Prop :=
  v' = v ∨ (v = kVersionNegotiate ∧ (v' = kVersion ∨ v' = kVersionV4)).

Definition supported_version (v : Z) : Prop :=
  v = kVersionNegotiate ∨ v = kVersion ∨ v = kVersionV4.

Lemma version_step_supported v v' :
  supported_version v → version_step v v' → supported_version v'.
Proof. unfold supported_version, version_step. intuition congruence. Qed.

Lemma with_version_same p : with_version p (expected_version_ p) = p.
Proof. by destruct p. Qed.

Lemma next_sound p r p' : parser_wf p → supported_version (expected_version_ p) →
  error_ p = ""%string → Parser_next p = (r, p') →
  ∃ v, version_step (expected_version_ p) v ∧ next_outcome (with_version p v) r p'.
Proof.
  intros Hwf Hsup Herr. unfold Parser_next. rewrite has_error_false by done.
  destruct (wf_buffered p Hwf) as [-> _]. fold (pending p).
  assert (∀ m, m ≠ ""%string → version_step (expected_version_ p) (expected_version_ p) ∧
    next_outcome (with_version p (expected_version_ p)) kParseError (set_error p m)) as Herror.
  { intros m Hm. split; [by left|]. rewrite with_version_same. by apply next_error_outcome. }
  split_test.
  { intros [= <- <-]. exists (expected_version_ p). rewrite with_version_same. by repeat split; try apply Hwf; left. }
  split_test; [intros [= <- <-]; eexists; by apply Herror|]. bools.
  split_test.
  - split_test; [intros [= <- <-]; eexists; by apply Herror|].
    intros Hbody. exists (load_u16 (zdrop 4 (pending p))). bools. andb_cases;
      (split; [right; split; [done|by (left + right)]|]);
      (eapply next_body_sound; [by destruct Hwf| | | | | |exact Hbody]; try done; by (left + right)).
  - split_test; [intros [= <- <-]; eexists; by apply Herror|]. bools.
    intros Hbody. exists (expected_version_ p). rewrite with_version_same.
    split; [by left|]. apply next_body_sound; try done.
    by destruct Hsup as [?|?].
Qed.

(** ** Reachable parser states

    [reach v0 p s fs]: a parser constructed for version [v0] can be in state
    [p] after the peer's bytes [s] were accepted and the frames [fs] were
    delivered, under any interleaving of [append] (with any input, accepted or
    refused) and [next]. *)
Inductive reach (v0 : Z) : Parser → bytes → list Frame → Prop :=
| reach_init : reach v0 (new_Parser v0) [] []
| reach_append p s fs data size b p' :
    reach v0 p s fs → 0 <= size → (∀ d, data = Some d → size <= zlen d) →
    Parser_append p data size = (b, p') →
    reach v0 p' (if b then s ++ payload_range data size else s) fs
| reach_next p s fs r p' :
    reach v0 p s fs → Parser_next p = (r, p') →
    reach v0 p' s (match r with kParseFrame f => fs ++ [f] | _ => fs end).

Record reach_inv (v0 : Z) (p : Parser) (s : bytes) (fs : list Frame) : Prop := {
  inv_wf : parser_wf p;
  inv_version : version_step v0 (expected_version_ p);
  inv_stream : s = frame_stream fs ++ pending p;
  inv_frames : Forall frame_ok fs;
  inv_locked : Forall (λ f, fversion f = expected_version_ p) fs
}.

Lemma version_step_trans v0 v v' : version_step v0 v → version_step v v' → version_step v0 v'.
Proof.
  unfold version_step, kVersionNegotiate, kVersion, kVersionV4.
  intuition lia.
Qed.

(** Frames already delivered fixed the version for good. *)
Lemma locked_step v fs v' : Forall frame_ok fs → Forall (λ f, fversion f = v) fs →
  version_step v v' → Forall (λ f, fversion f = v') fs.
Proof.
  intros Hok Hl [->|[-> Hv']]; [done|].
  eapply Forall_impl; [exact (proj2 (Forall_and _ _) (conj Hok Hl))|].
  intros f [[Hv] Hf]. unfold kVersionNegotiate, kVersion, kVersionV4 in *. lia.
Qed.

Lemma reach_invariant v0 p s fs : supported_version v0 →
  reach v0 p s fs → reach_inv v0 p s fs.
Proof.
  intros Hsup. induction 1 as [|p s fs data size b p' _ IH Hsz Hd Happ|p s fs r p' _ IH Hnext].
  - split; [apply new_Parser_wf|by left|done|constructor|constructor].
  - destruct IH as [Hwf Hv Hs Hf Hl].
    destruct (append_spec _ _ _ _ _ Hwf Hsz Hd Happ) as (Hwf' & Hver & Hpend).
    split; [done|by rewrite Hver| |done|by rewrite Hver].
    destruct b; [destruct Hpend as [_ ->]|rewrite Hpend]; rewrite Hs; [by rewrite (assoc (++))|done].
  - destruct IH as [Hwf Hv Hs Hf Hl]. destruct (has_error p) eqn:Herr.
    { unfold Parser_next in Hnext. rewrite Herr in Hnext. injection Hnext as <- <-. by split. }
    apply has_error_inv in Herr.
    destruct (next_sound p r p' Hwf (version_step_supported _ _ Hsup Hv) Herr Hnext)
      as (v & Hstep & Hwf' & Hout).
    pose proof (locked_step _ _ _ Hf Hl Hstep) as Hl'.
    pose proof (version_step_trans _ _ _ Hv Hstep) as Hv'.
    destruct r as [|f|].
    + subst p'. by split.
    + destruct Hout as (_ & Hexp & Hfok & Hfv & Hp). cbn in Hexp, Hfv.
      split; rewrite ?Hexp; try done.
      * rewrite frame_stream_app, Hs. change (pending p) with (pending (with_version p v)).
        rewrite Hp. unfold frame_stream at 3. cbn [map concat]. rewrite app_nil_r.
        by rewrite (assoc (++)).
      * by apply Forall_app_2, Forall_singleton.
      * by apply Forall_app_2, Forall_singleton.
    + destruct Hout as (_ & Hexp & Hb & Ho). cbn in Hexp, Hb, Ho.
      split; rewrite ?Hexp; try done. unfold pending. by rewrite Hb, Ho.
Qed.

(** ** Delivery: [next] on the encoding of an admissible frame *)

Definition speaks (p : Parser) (v : Z) : Prop := version_step (expected_version_ p) v.

Lemma version_test p v h : speaks p v → v = kVersion ∨ v = kVersionV4 →
  (if expected_version_ p =? kVersionNegotiate then
     if negb (v =? kVersion) && negb (v =? kVersionV4)
     then (kParseError, set_error p "unsupported protocol version")
     else next_body (mkParser (buffer_ p) (offset_ p) (error_ p) v) (zlen (pending p)) h
   else if negb (v =? expected_version_ p)
   then (kParseError, set_error p "unsupported protocol version")
   else next_body p (zlen (pending p)) h)
  = next_body (with_version p v) (zlen (pending p)) h.
Proof.
  intros Hs Hv. destruct Hs as [Heq|[Heq _]].
  - subst v. rewrite with_version_same, Z.eqb_refl.
    destruct Hv as [->| ->]; done.
  - rewrite Heq. by destruct Hv as [->| ->].
Qed.

Section next_complete.
Context (p : Parser) (f : Frame).
Context (Hwf : parser_wf p) (Herr : error_ p = ""%string).
Context (Hok : frame_ok f) (Hspeaks : speaks p (fversion f)).

(** With the whole header buffered, [next] reaches the payload test. *)
Lemma next_reads_header x : pending p = frame_header f ++ x →
  Parser_next p =
  let p1 := with_version p (fversion f) in
  if zlen (pending p) <? 24 + zlen (fpayload f) then (kParseNeedMore, p1)
  else
    let payload := ztake (zlen (fpayload f)) x in
    let frame := mkFrame (ftype f) (fflags f) (frequest_id f) (fversion f) payload in
    if (fversion f =? kVersionV4) && (ftype f =? kHello)
       && negb (valid_hello_v4_payload payload)
    then (kParseError, set_error p1 "invalid hello capabilities")
    else
      let offset := offset_ p + (24 + zlen (fpayload f)) in
      (kParseFrame frame,
       if offset =? zlen (buffer_ p) then mkParser [] 0 ""%string (fversion f)
       else mkParser (buffer_ p) offset ""%string (fversion f)).
Proof.
  intros Hp. unfold Parser_next. rewrite has_error_false by done.
  destruct (wf_buffered p Hwf) as [-> Hmax]. fold (pending p).
  assert (24 <= zlen (pending p)) as H24.
  { rewrite Hp, zlen_app, zlen_frame_header. pose proof (zlen_nonneg x). lia. }
  unfold kHeaderSize at 1. rewrite ltb_ge_false by done.
  assert (load_u32 (pending p) = kMagic) as -> by (rewrite Hp; by apply header_magic).
  assert (load_u16 (zdrop 4 (pending p)) = fversion f) as ->
    by (rewrite Hp; by apply header_version).
  change (negb (kMagic =? kMagic)) with false. cbn iota.
  rewrite version_test by (done || apply Hok).
  unfold next_body. cbn [expected_version_ buffer_ offset_ error_ with_version].
  assert (load_u16 (zdrop 6 (pending p)) = ftype f) as ->
    by (rewrite Hp; by apply header_type).
  assert (load_u32 (zdrop 8 (pending p)) = fflags f) as ->
    by (rewrite Hp; by apply header_flags).
  assert (load_u32 (zdrop 20 (pending p)) = zlen (fpayload f)) as ->
    by (rewrite Hp; by apply header_size).
  assert (load_u64 (zdrop 12 (pending p)) = frequest_id f) as ->
    by (rewrite Hp; by apply header_id).
  pose proof (ok_payload f Hok) as Hpay. pose proof (zlen_nonneg (fpayload f)).
  pose proof Hwf as [Ho Hb].
  unfold kMaxPayloadSize, kHeaderSize, kMaxBufferedBytes in *.
  rewrite (ok_type f Hok), (ok_flags f Hok), ltb_ge_false by lia. cbn [negb].
  rewrite (u64_small (24 + _)) by lia. split_test; [done|]. bools.
  assert (zlen (pending p) = zlen (buffer_ p) - offset_ p) by (apply zlen_zdrop; lia).
  replace (zdrop (offset_ p + 24) (buffer_ p)) with x.
  2:{ rewrite <- zdrop_zdrop by lia. fold (pending p). rewrite Hp.
      symmetry. apply zdrop_app. by rewrite zlen_frame_header. }
  rewrite (u64_small (offset_ p + _)) by lia. by rewrite Herr.
Qed.

Lemma next_delivers rest : pending p = frame_bytes f ++ rest →
  ∃ p', Parser_next p = (kParseFrame f, p') ∧ parser_wf p' ∧ error_ p' = ""%string ∧
        expected_version_ p' = fversion f ∧ pending p' = rest.
Proof.
  intros Hp. pose proof Hp as Hp'. unfold frame_bytes in Hp'. rewrite <- (assoc (++)) in Hp'.
  rewrite (next_reads_header _ Hp'). cbn zeta.
  pose proof (f_equal zlen Hp) as Hlen. rewrite zlen_app, zlen_frame_bytes in Hlen.
  pose proof (zlen_nonneg rest). pose proof (zlen_nonneg (fpayload f)).
  rewrite ltb_ge_false by lia. rewrite ztake_app by done.
  rewrite (ok_hello f Hok). pose proof Hwf as [Ho Hb].
  assert (zlen (pending p) = zlen (buffer_ p) - offset_ p) by (apply zlen_zdrop; lia).
  eexists. split; [by destruct f|].
  assert (zdrop (24 + zlen (fpayload f)) (pending p) = rest) as Hrest.
  { rewrite Hp. apply zdrop_app. by rewrite zlen_frame_bytes. }
  split_test; bools; (split; [split; cbn [buffer_ offset_]; first [done|lia]|]);
    (split; [done|split; [done|]]).
  - symmetry. apply zlen_zero. lia.
  - unfold pending at 1. cbn [buffer_ offset_]. rewrite <- Hrest. unfold pending.
    by rewrite zdrop_zdrop by lia.
Qed.

Lemma next_waits more rest : pending p ++ more = frame_bytes f ++ rest →
  zlen (pending p) < zlen (frame_bytes f) →
  ∃ p', Parser_next p = (kParseNeedMore, p') ∧ buffer_ p' = buffer_ p ∧
        offset_ p' = offset_ p ∧ error_ p' = ""%string ∧ speaks p' (fversion f).
Proof.
  intros Heq Hlt. rewrite zlen_frame_bytes in Hlt.
  destruct (Z.lt_ge_cases (zlen (pending p)) 24) as [Hshort|Hlong].
  - exists p. split; [|done]. unfold Parser_next. rewrite has_error_false by done.
    destruct (wf_buffered p Hwf) as [-> _]. by rewrite ltb_lt_true.
  - assert (pending p = frame_header f ++ zdrop 24 (pending p)) as Hp.
    { rewrite <- (ztake_zdrop 24 (pending p)) at 1. f_equal.
      rewrite <- (ztake_app_l 24 (pending p) more) by lia.
      rewrite Heq. unfold frame_bytes. rewrite <- (assoc (++)).
      apply ztake_app. by rewrite zlen_frame_header. }
    exists (with_version p (fversion f)). rewrite (next_reads_header _ Hp). cbn zeta.
    rewrite ltb_lt_true by lia. repeat split; try done. by left.
Qed.
End next_complete.

(** ** The receive loop

    Appends each chunk as it arrives and takes every complete frame, the way
    the event loops of src/worker_runtime.cc and src/client.cc use the parser.
    [drain] stops by itself: its fuel, the buffered byte count, is enough. *)
Fixpoint drain (fuel : nat) (p : Parser) : list Frame * Parser :=
  match fuel with
  | O => ([], p)
  | S fuel' =>
      match Parser_next p with
      | (kParseFrame f, p') => let '(fs, p'') := drain fuel' p' in (f :: fs, p'')
      | (_, p') => ([], p')
      end
  end.

Definition drain_all (p : Parser) : list Frame * Parser := drain (S (length (pending p))) p.

Fixpoint feed (p : Parser) (chunks : list bytes) : list Frame * Parser :=
  match chunks with
  | [] => ([], p)
  | chunk :: chunks' =>
      match Parser_append p (Some chunk) (zlen chunk) with
      | (true, p1) =>
          let '(fs, p2) := drain_all p1 in
          let '(gs, p3) := feed p2 chunks' in
          (fs ++ gs, p3)
      | (false, p1) => ([], p1)
      end
  end.

(** A healthy parser of version-[v] traffic. *)
Record healthy (v : Z) (p : Parser) : Prop := {
  healthy_wf : parser_wf p;
  healthy_error : error_ p = ""%string;
  healthy_speaks : speaks p v
}.

(** After draining, less than one frame is pending. *)
Definition drained (p : Parser) (fs : list Frame) : Prop :=
  match fs with
  | [] => pending p = []
  | f :: _ => zlen (pending p) < zlen (frame_bytes f)
  end.

Definition admissible (v : Z) (fs : list Frame) : Prop :=
  Forall (λ f, frame_ok f ∧ fversion f = v) fs.

Lemma drain_complete v fs p more fuel : healthy v p → admissible v fs →
  pending p ++ more = frame_stream fs → (length (pending p) < fuel)%nat →
  ∃ fs1 fs2 p', fs = fs1 ++ fs2 ∧ drain fuel p = (fs1, p') ∧ healthy v p' ∧
    pending p' ++ more = frame_stream fs2 ∧ drained p' fs2.
Proof.
  revert p fuel; induction fs as [|f fs IH]; intros p fuel [Hwf Herr Hsp] Hadm Heq Hfuel;
    (destruct fuel as [|fuel]; [lia|]); cbn [drain].
  - cbn in Heq. apply app_eq_nil in Heq as [Hp Hm]. exists [], [], p.
    assert (Parser_next p = (kParseNeedMore, p)) as ->.
    { unfold Parser_next. rewrite has_error_false by done.
      destruct (wf_buffered p Hwf) as [-> _]. by rewrite Hp. }
    repeat split; try done; try apply Hwf. by rewrite Hp, Hm.
  - apply Forall_cons in Hadm as [[Hok Hv] Hadm]. rewrite frame_stream_cons in Heq.
    destruct (Z.lt_ge_cases (zlen (pending p)) (zlen (frame_bytes f))) as [Hlt|Hge].
    + destruct (next_waits p f Hwf Herr Hok ltac:(by rewrite Hv) more _ Heq Hlt)
        as (p' & -> & Hb & Ho & He & Hs).
      exists [], (f :: fs), p'. assert (pending p' = pending p) as Hpp.
      { unfold pending. by rewrite Hb, Ho. }
      split; [done|split; [done|split; [|split]]].
      * split; [|done|by rewrite <- Hv]. destruct Hwf. split; by rewrite ?Ho, ?Hb.
      * by rewrite Hpp.
      * cbn. by rewrite Hpp.
    + assert (pending p = frame_bytes f ++ zdrop (zlen (frame_bytes f)) (pending p)) as Hp.
      { rewrite <- (ztake_zdrop (zlen (frame_bytes f)) (pending p)) at 1. f_equal.
        rewrite <- (ztake_app_l _ (pending p) more) by (pose proof (zlen_nonneg (frame_bytes f)); lia).
        rewrite Heq. by apply ztake_app. }
      destruct (next_delivers p f Hwf Herr Hok ltac:(by rewrite Hv) _ Hp)
        as (p' & -> & Hwf' & He' & Hv' & Hpend).
      rewrite Hp, <- (assoc (++)) in Heq. apply app_inv_head in Heq. rewrite <- Hpend in Heq.
      destruct (IH p' fuel) as (fs1 & fs2 & p'' & -> & -> & Hh & Hs & Hd); try done.
      { split; [done|done|]. rewrite <- Hv, <- Hv'. by left. }
      { pose proof (f_equal zlen Hp) as Hl. rewrite zlen_app, <- Hpend, zlen_frame_bytes in Hl.
        pose proof (zlen_nonneg (fpayload f)). unfold zlen in *. lia. }
      by exists (f :: fs1), fs2, p''.
Qed.

Lemma feed_complete v fs chunks p : healthy v p → admissible v fs → drained p fs →
  pending p ++ concat chunks = frame_stream fs →
  Forall (λ c, zlen c <= kMaxBufferedBytes - (kHeaderSize + kMaxPayloadSize)) chunks →
  ∃ p', feed p chunks = (fs, p') ∧ healthy v p' ∧ pending p' = [].
Proof.
  revert fs p; induction chunks as [|c chunks IH]; intros fs p Hh Hadm Hdr Heq Hsmall;
    cbn [feed concat] in *.
  - rewrite app_nil_r in Heq. exists p. destruct fs as [|f fs]; [done|exfalso].
    cbn [drained] in Hdr. rewrite Heq, frame_stream_cons, zlen_app in Hdr.
    pose proof (zlen_nonneg (frame_stream fs)). lia.
  - apply Forall_cons in Hsmall as [Hc Hsmall].
    destruct Hh as [Hwf Herr Hsp].
    destruct (Parser_append p (Some c) (zlen c)) as [b p1] eqn:Happ.
    destruct (append_spec p (Some c) (zlen c) b p1 Hwf (zlen_nonneg c)
                ltac:(by intros d [= ->]) Happ) as (Hwf1 & Hver1 & Hpend).
    assert (b = true) as ->.
    { unfold Parser_append in Happ. rewrite has_error_false in Happ by done.
      destruct (zlen c =? 0); [by injection Happ|].
      destruct (wf_buffered p Hwf) as [Hbuf Hle]. rewrite Hbuf in Happ.
      assert (zlen (pending p) < 24 + 64 * 1024 + 1) as Hp.
      { destruct fs as [|f fs]; cbn [drained] in Hdr; [rewrite Hdr; done|].
        apply Forall_cons in Hadm as [[Hok _] _]. rewrite zlen_frame_bytes in Hdr.
        pose proof (ok_payload f Hok) as Hx. unfold kMaxPayloadSize in Hx. lia. }
      pose proof (zlen_nonneg (pending p)).
      unfold kMaxBufferedBytes, kHeaderSize, kMaxPayloadSize in *.
      rewrite u64_small, ltb_ge_false in Happ by lia. by injection Happ. }
    destruct Hpend as [He1 Hpend]. cbn [payload_range] in Hpend. rewrite ztake_all in Hpend.
    assert (healthy v p1) as Hh1.
    { split; [done|done|]. unfold speaks. by rewrite Hver1. }
    rewrite (assoc (++)), <- Hpend in Heq.
    destruct (drain_complete v fs p1 (concat chunks) (S (length (pending p1))) Hh1 Hadm Heq)
      as (fs1 & fs2 & p2 & -> & Hdrain & Hh2 & Heq2 & Hdr2); [lia|].
    unfold drain_all. rewrite Hdrain. apply Forall_app in Hadm as [_ Hadm2].
    destruct (IH fs2 p2 Hh2 Hadm2 Hdr2 Heq2 Hsmall) as (p3 & -> & Hh3 & Hp3).
    by exists p3.
Qed.

(** ** Encoders produce the grammar's bytes *)

Definition set_version (v : Z) (f : Frame) : Frame :=
  mkFrame (ftype f) (fflags f) (frequest_id f) v (fpayload f).

Lemma append_header_bytes out v f : zlen (fpayload f) <= kMaxPayloadSize →
  append_header out v (ftype f) (fflags f) (frequest_id f) (zlen (fpayload f))
  = out ++ frame_header (set_version v f).
Proof.
  intros Hp. unfold append_header, frame_header. autorewrite with wire.
  cbn [fversion ftype fflags frequest_id fpayload set_version].
  pose proof (zlen_nonneg (fpayload f)). unfold kMaxPayloadSize in Hp.
  rewrite u32_small by lia. by rewrite <- !(assoc (++)).
Qed.

(** What the versioned encoder requires of a frame. *)
Definition encodable (v : Z) (f : Frame) : Prop :=
  (v = kVersion ∨ v = kVersionV4) ∧ valid_type_versioned (ftype f) v = true ∧
  valid_flags_versioned (ftype f) (fflags f) v = true ∧ zlen (fpayload f) <= kMaxPayloadSize.

#[export] Instance encodable_dec v f : Decision (encodable v f).
Proof. unfold encodable. apply _. Defined.

Lemma append_encoded_versioned_spec v f out :
  append_encoded_versioned v (ftype f) (fflags f) (frequest_id f) (Some (fpayload f))
    (zlen (fpayload f)) out =
  if bool_decide (encodable v f) && (zlen out <=? u64_max - kHeaderSize - zlen (fpayload f))
  then Some (out ++ frame_bytes (set_version v f)) else None.
Proof.
  unfold append_encoded_versioned. destruct (bool_decide_reflect (encodable v f)) as [Henc|Henc].
  - destruct Henc as (Hv & Ht & Hf & Hp). rewrite Ht, Hf, ltb_ge_false by done.
    rewrite (bool_decide_false (Some _ = None)), andb_false_r by done.
    assert (negb (v =? kVersion) && negb (v =? kVersionV4) = false) as ->.
    { by destruct Hv as [->| ->]. }
    cbn [orb negb andb]. rewrite Z.ltb_antisym. destruct (_ <=? _); [|done]. cbn [negb].
    rewrite append_header_bytes by done. unfold frame_bytes.
    change (fpayload (set_version v f)) with (fpayload f).
    destruct (zlen (fpayload f) =? 0) eqn:Hz; cbn [negb payload_range]; bools.
    + apply zlen_zero in Hz. by rewrite Hz, app_nil_r.
    + by rewrite ztake_all, (assoc (++)).
  - cbn [andb]. destruct (_ || _) eqn:Hor; [done|]. exfalso. apply Henc. bools.
    repeat split; try done. andb_cases; by (left + right).
Qed.

(** The same for a C++ pointer and length: [payload] is null or points to at
    least [size] bytes. *)
Lemma append_encoded_versioned_args v type flags id payload size out : 0 <= size →
  (∀ d, payload = Some d → size <= zlen d) →
  append_encoded_versioned v type flags id payload size out =
  let f := mkFrame type flags id v (payload_range payload size) in
  if bool_decide (encodable v f) && (zlen out <=? u64_max - kHeaderSize - size)
     && (bool_decide (size = 0) || bool_decide (payload ≠ None))
  then Some (out ++ frame_bytes f) else None.
Proof.
  intros Hsz Hd. set (f := mkFrame type flags id v (payload_range payload size)). cbn zeta.
  pose proof (append_encoded_versioned_spec v f out) as Hspec.
  change (set_version v f) with f in Hspec. change (ftype f) with type in Hspec.
  change (fflags f) with flags in Hspec. change (frequest_id f) with id in Hspec.
  change (fpayload f) with (payload_range payload size) in Hspec.
  destruct payload as [d|]; cbn [payload_range] in f, Hspec.
  - assert (zlen (fpayload f) = size) as Hl by (apply zlen_ztake; auto).
    rewrite (bool_decide_true (Some d ≠ None)), orb_true_r, andb_true_r by done.
    change (fpayload f) with (ztake size d) in Hl. rewrite Hl in Hspec. rewrite <- Hspec.
    unfold append_encoded_versioned. rewrite !(bool_decide_false (Some _ = None)) by done.
    cbn [payload_range]. unfold ztake. by rewrite take_take, Nat.min_id.
  - destruct (bool_decide_reflect (size = 0)) as [->|Hne]; cbn [orb].
    + rewrite andb_true_r. change (zlen (@nil byte)) with 0 in Hspec. by rewrite <- Hspec.
    + rewrite andb_false_r. unfold append_encoded_versioned.
      rewrite (eqb_ne_false size 0) by done. cbn [negb andb].
      rewrite (bool_decide_true (None = None)), orb_true_r by done. done.
Qed.

Lemma encode_versioned_spec v f : encode_versioned v f =
  if bool_decide (encodable v f) then Some (frame_bytes (set_version v f)) else None.
Proof.
  unfold encode_versioned. destruct (bool_decide_reflect (encodable v f)) as [Henc|Henc].
  - destruct Henc as (Hv & Ht & Hf & Hp).
    assert (negb (v =? kVersion) && negb (v =? kVersionV4) = false) as ->.
    { by destruct Hv as [->| ->]. }
    rewrite Ht, Hf, ltb_ge_false by done. cbn [orb negb].
    rewrite append_header_bytes by done. unfold frame_bytes.
    change (fpayload (set_version v f)) with (fpayload f).
    case_bool_decide as He; cbn [negb andb].
    + rewrite He. cbn. by rewrite ?app_nil_r.
    + by rewrite andb_false_r.
  - do 3 (split_test; [done|]). exfalso. apply Henc. bools. repeat split; try done. andb_cases; by (left + right).
Qed.

Lemma zlen_zero_iff {A} (l : list A) : (zlen l =? 0) = bool_decide (l = []).
Proof.
  case_bool_decide as H; [by rewrite H|]. apply eqb_ne_false. intros Hz.
  by apply H, zlen_zero.
Qed.

(** The version-3 encoders are the versioned ones at version 3. *)
Lemma append_encoded_v3 type flags id payload size out :
  append_encoded type flags id payload size out =
  append_encoded_versioned kVersion type flags id payload size out.
Proof. done. Qed.

Lemma encode_v3 f : zlen (fpayload f) <= u64_max - kHeaderSize →
  encode f = encode_versioned kVersion f.
Proof.
  intros Hroom. unfold encode. rewrite append_encoded_v3, encode_versioned_spec.
  transitivity (append_encoded_versioned kVersion (ftype f) (fflags f) (frequest_id f)
                  (Some (fpayload f)) (zlen (fpayload f)) []).
  - destruct (bool_decide_reflect (fpayload f = [])) as [He|_]; [|done].
    unfold append_encoded_versioned. by rewrite He.
  - rewrite append_encoded_versioned_spec. rewrite zlen_nil.
    replace (0 <=? u64_max - kHeaderSize - zlen (fpayload f)) with true.
    + by rewrite andb_true_r.
    + symmetry. apply Z.leb_le. lia.
Qed.

(** Fields that fit their C++ types, and HELLO capabilities the peer admits. *)
Definition well_typed (v : Z) (f : Frame) : Prop :=
  0 <= ftype f < 2 ^ 16 ∧ 0 <= fflags f < 2 ^ 32 ∧ 0 <= frequest_id f < 2 ^ 64 ∧
  (v = kVersionV4 → ftype f = kHello → valid_hello_v4_payload (fpayload f) = true).

Lemma encodable_ok v f : encodable v f → well_typed v f → frame_ok (set_version v f).
Proof.
  intros (Hv & Ht & Hf & Hp) (Wt & Wf & Wi & Wh). split; cbn; try done.
  destruct (v =? kVersionV4) eqn:E1; [|done]. destruct (ftype f =? kHello) eqn:E2; [|done].
  bools. cbn. by rewrite Wh.
Qed.

(** What a sender of [fs] puts on the wire. *)
Lemma encoded_stream v fs encoded :
  Forall2 (λ f e, encode_versioned v f = Some e ∧ well_typed v f) fs encoded →
  admissible v (map (set_version v) fs) ∧
  frame_stream (map (set_version v) fs) = concat encoded ∧
  (fs = [] ∨ v = kVersion ∨ v = kVersionV4).
Proof.
  induction 1 as [|f e fs es [He Hw] _ (IHa & IHs & _)].
  - repeat split; [constructor|by left].
  - rewrite encode_versioned_spec in He. case_bool_decide as Hable; [|done].
    injection He as <-. split; [|split].
    + constructor; [|done]. split; [by apply encodable_ok|done].
    + cbn [map concat]. by rewrite frame_stream_cons, IHs.
    + right. apply Hable.
Qed.

Lemma healthy_new v v0 : speaks (new_Parser v0) v → healthy v (new_Parser v0).
Proof. intros. split; [apply new_Parser_wf|done|done]. Qed.

Lemma drained_new v0 fs : drained (new_Parser v0) fs.
Proof.
  destruct fs as [|f fs]; [done|]. cbn [drained]. rewrite zlen_frame_bytes.
  pose proof (zlen_nonneg (fpayload f)). change (zlen (pending (new_Parser v0))) with 0. lia.
Qed.

(** ** Properties *)


Definition sample_frames : list Frame :=
  [mkFrame kRequestHead 0 7 kVersionV4 (bs "GET /"); mkFrame kResponseBody 0 7 kVersionV4 (bs "hi")].

Definition sample_wire : bytes :=
  concat (map (λ f, default [] (encode_versioned kVersionV4 f)) sample_frames).


(** A parser that accepted a whole frame and delivered it. *)
Definition sample_parser : Parser :=
  snd (Parser_next (snd (Parser_append (new_Parser kVersionNegotiate) (Some sample_wire) (zlen sample_wire)))).

Lemma sample_reach :
  reach kVersionNegotiate sample_parser sample_wire (take 1 sample_frames).
Proof.
  apply (reach_next _ (snd (Parser_append (new_Parser kVersionNegotiate) (Some sample_wire)
                              (zlen sample_wire))) _ []
           (kParseFrame (mkFrame kRequestHead 0 7 kVersionV4 (bs "GET /")))); [|reflexivity].
  apply (reach_append _ (new_Parser kVersionNegotiate) [] [] (Some sample_wire)
           (zlen sample_wire) true).
  - constructor.
  - apply zlen_nonneg.
  - intros d [= <-]. reflexivity.
  - reflexivity.
Defined.

Lemma sample_supported : supported_version kVersionNegotiate.
Proof. by left. Defined.

(** C15. Soundness of the parser for arbitrary, even hostile, input: in every
    reachable state the bytes accepted so far are exactly the encodings of the
    delivered frames, in order, followed by the pending bytes; and every
    delivered frame is admissible and carries the connection's one version. *)
Theorem parser_stream_sound v0 p s fs :
  supported_version v0 → reach v0 p s fs →
  s = frame_stream fs ++ pending p ∧
  Forall (λ f, frame_ok f ∧ fversion f = expected_version_ p) fs ∧
  version_step v0 (expected_version_ p).
Proof.
  intros Hsup Hreach. destruct (reach_invariant _ _ _ _ Hsup Hreach) as [_ Hv Hs Hf Hl].
  repeat split; try done. by apply Forall_and.
Qed.

Lemma parser_stream_sound_witness :
  sample_wire = frame_stream (take 1 sample_frames) ++ pending sample_parser ∧
  Forall (λ f, frame_ok f ∧ fversion f = expected_version_ sample_parser) (take 1 sample_frames) ∧
  version_step kVersionNegotiate (expected_version_ sample_parser).
Proof. apply parser_stream_sound; [exact sample_supported|exact sample_reach]. Defined.

(** The parser's memory is bounded by [kMaxBufferedBytes] in every
    reachable state, whatever the peer sends, and the read offset stays inside
    the buffer. *)
Theorem parser_memory_bound v0 p s fs :
  supported_version v0 → reach v0 p s fs →
  0 <= offset_ p <= zlen (buffer_ p) ∧ zlen (buffer_ p) <= kMaxBufferedBytes.
Proof. intros Hsup Hreach. by destruct (reach_invariant _ _ _ _ Hsup Hreach) as [[] _ _ _ _]. Qed.

Lemma parser_memory_bound_witness :
  0 <= offset_ sample_parser <= zlen (buffer_ sample_parser) ∧
  zlen (buffer_ sample_parser) <= kMaxBufferedBytes.
Proof. eapply parser_memory_bound; [exact sample_supported|exact sample_reach]. Defined.

(** C20. A parse error is final: it is recorded, later appends are refused
    without touching the parser, and later [next] calls keep failing. *)
Theorem parser_error_final v0 p s fs p' :
  supported_version v0 → reach v0 p s fs → Parser_next p = (kParseError, p') →
  error_ p' ≠ ""%string ∧ Parser_next p' = (kParseError, p') ∧
  ∀ data size, Parser_append p' data size = (false, p').
Proof.
  intros Hsup Hreach Hnext.
  destruct (reach_invariant _ _ _ _ Hsup Hreach) as [Hwf Hv _ _ _].
  assert (has_error p' = true) as Herr.
  { destruct (has_error p) eqn:Hp.
    - unfold Parser_next in Hnext. rewrite Hp in Hnext. by injection Hnext as <-.
    - apply has_error_inv in Hp.
      destruct (next_sound p kParseError p' Hwf (version_step_supported _ _ Hsup Hv) Hp Hnext)
        as (v & _ & _ & He & _).
      unfold has_error. by rewrite bool_decide_false. }
  split; [unfold has_error in Herr; by bools|].
  unfold Parser_next, Parser_append. by rewrite Herr.
Qed.

Lemma parser_error_final_witness :
  let p := snd (Parser_append (new_Parser kVersion) (Some (replicate 24 Byte.x58)) 24) in
  let p' := snd (Parser_next p) in
  error_ p' ≠ ""%string ∧ Parser_next p' = (kParseError, p') ∧
  ∀ data size, Parser_append p' data size = (false, p').
Proof.
  intros p p'. apply (parser_error_final kVersion p (replicate 24 Byte.x58) [] p').
  - right; by left.
  - apply (reach_append _ (new_Parser kVersion) [] [] (Some (replicate 24 Byte.x58)) 24 true);
      [constructor|lia|intros d [= <-]; reflexivity|reflexivity].
  - reflexivity.
Defined.

(** The encoders are exact: the versioned encoder accepts a frame iff its
    type and flags are valid for the version and its payload fits, and then
    emits the 24-byte header and the payload; the append form adds the same
    bytes after any prefix that leaves room for them. *)
Theorem encoders_exact v f out prefix :
  (encode_versioned v f = Some out ↔ encodable v f ∧ out = frame_bytes (set_version v f)) ∧
  append_encoded_versioned v (ftype f) (fflags f) (frequest_id f) (Some (fpayload f))
    (zlen (fpayload f)) prefix =
  (if zlen prefix <=? u64_max - kHeaderSize - zlen (fpayload f)
   then app prefix <$> encode_versioned v f else None).
Proof.
  split.
  - rewrite encode_versioned_spec. case_bool_decide as H; [|by split; [|intros []]].
    split; [intros [= <-]; done|intros [_ ->]; done].
  - rewrite append_encoded_versioned_spec, encode_versioned_spec.
    destruct (bool_decide_reflect (encodable v f)); by destruct (_ <=? _).
Qed.
