(* ===== verification/OutboundBuffer.v ===== *)
(** * OutboundBuffer: the worker's outbound wire queue

    [capsid::OutboundBuffer] (src/outbound_buffer.h) and the part of
    src/worker_runtime.cc that feeds it: the capacity gate
    ([has_output_capacity], [wire_payload_capacity], [queue_output_bytes],
    [queue_output]) and the credited fast path for response bodies
    ([queue_response_bytes_fast]).

    The writer callback and its opaque state are a type [W] with two classes:
    [Writer] gives the callback and the bytes it has put on the wire,
    [WriterContract] is the contract its header comment states. The theorems
    hold for every writer that obeys the contract: one that stalls, writes
    short or fails at any point included. *)
From Stdlib Require Import ZArith Lia.
From S2P Require Import Prelude Wire Protocol.
Local Open Scope Z_scope.

(** ** Definitions *)

Record OutboundBuffer := mkOutboundBuffer {
  storage_ : bytes;
  write_offset_ : Z;
  frame_end_ : Z;
  frame_start_ : Z
}.

Definition new_OutboundBuffer : OutboundBuffer := mkOutboundBuffer [] 0 0 0.

Definition kCompactThreshold : Z := 64 * 1024.

Definition logical_size (b : OutboundBuffer) : Z := u64 (zlen (storage_ b) - write_offset_ b).

Definition storage_size (b : OutboundBuffer) : Z := zlen (storage_ b).

Definition is_drained (b : OutboundBuffer) : bool := write_offset_ b =? zlen (storage_ b).

Definition next_frame_end (b : OutboundBuffer) (offset : Z) : Z :=
  if zlen (storage_ b) <? u64 (offset + kHeaderSize) then offset
  else
    let header := zdrop offset (storage_ b) in
    let payload_size :=
      Z.lor (Z.lor (Z.lor (byte_at header 20) (u32 (Z.shiftl (byte_at header 21) 8)))
                   (u32 (Z.shiftl (byte_at header 22) 16)))
            (u32 (Z.shiftl (byte_at header 23) 24)) in
    let frame_size := u64 (kHeaderSize + payload_size) in
    if zlen (storage_ b) <? u64 (offset + frame_size) then offset
    else u64 (offset + frame_size).

Definition compact_if_needed (b : OutboundBuffer) : OutboundBuffer :=
  if frame_start_ b =? 0 then b
  else if kCompactThreshold <=? frame_start_ b then
    mkOutboundBuffer (zdrop (frame_start_ b) (storage_ b))
      (u64 (write_offset_ b - frame_start_ b)) (u64 (frame_end_ b - frame_start_ b)) 0
  else b.

Definition Outbound_append (b : OutboundBuffer) (type flags request_id : Z)
    (payload : option bytes) (payload_size version : Z) : bool * OutboundBuffer :=
  if kMaxPayloadSize <? payload_size then (false, b)
  else
    let b := compact_if_needed b in
    match append_encoded_versioned version type flags request_id payload payload_size
            (storage_ b) with
    | Some storage =>
        (true, mkOutboundBuffer storage (write_offset_ b) (frame_end_ b) (frame_start_ b))
    | None => (false, b)
    end.

(** The writer callback with its opaque argument: what it is given, the count
    it returns, and the bytes it has put on the wire so far. *)
Class Writer (W : Type) := {
  writer : W → bytes → Z * W;
  wire : W → bytes
}.

(** "write up to [size] bytes and return the number written (>=0), 0 to stall
    (EAGAIN), or -1 for a fatal error." *)
Class WriterContract (W : Type) `{Writer W} := {
  writer_count w data : -1 <= (writer w data).1 <= zlen data;
  writer_wire w data :
    wire (writer w data).2 = wire w ++ ztake (Z.max 0 (writer w data).1) data
}.

Section flush.
Context {W : Type} `{Writer W}.

(** The loop of [flush]: [None] when the fuel runs out, otherwise whether the
    loop was left normally ([true]) or by the fatal [return false]. *)
Fixpoint flush_loop (fuel : nat) (b : OutboundBuffer) (w : W)
    : option (bool * OutboundBuffer * W) :=
  match fuel with
  | O => None
  | S fuel' =>
      if write_offset_ b <? zlen (storage_ b) then
        let at_boundary := frame_end_ b <=? write_offset_ b in
        let b1 :=
          if at_boundary then
            mkOutboundBuffer (storage_ b) (write_offset_ b)
              (next_frame_end b (write_offset_ b)) (write_offset_ b)
          else b in
        if at_boundary && (frame_end_ b1 <=? write_offset_ b1) then Some (true, b1, w)
        else
          let remaining := u64 (frame_end_ b1 - write_offset_ b1) in
          let '(count, w1) :=
            writer w (ztake remaining (zdrop (write_offset_ b1) (storage_ b1))) in
          if 0 <? count then
            flush_loop fuel'
              (mkOutboundBuffer (storage_ b1) (u64 (write_offset_ b1 + count))
                 (frame_end_ b1) (frame_start_ b1)) w1
          else if count =? 0 then Some (true, b1, w1)
          else Some (false, b1, w1)
      else Some (true, b, w)
  end.

(** [flush(writer, opaque)]; the loop sends at least one byte per iteration,
    so one more than the unsent byte count is enough fuel. *)
Definition flush (b : OutboundBuffer) (w : W) : option (bool * OutboundBuffer * W) :=
  match flush_loop (S (length (zdrop (write_offset_ b) (storage_ b)))) b w with
  | None => None
  | Some (false, b', w') => Some (false, b', w')
  | Some (true, b', w') =>
      Some (true, if write_offset_ b' =? zlen (storage_ b') then new_OutboundBuffer else b', w')
  end.
End flush.

(** *** The worker's capacity gate (src/worker_runtime.cc) *)

Definition has_output_capacity (limit : Z) (b : OutboundBuffer) (additional : Z) : bool :=
  (logical_size b <=? limit) && (additional <=? u64 (limit - logical_size b)).

Definition wire_payload_capacity (limit : Z) (b : OutboundBuffer) : Z :=
  if (limit <? logical_size b) || (u64 (limit - logical_size b) <? kHeaderSize) then 0
  else u64 (u64 (limit - logical_size b) - kHeaderSize).

Definition error_payload_capacity (limit : Z) : Z :=
  Z.min kMaxPayloadSize (if kHeaderSize <? limit then limit - kHeaderSize else 0).

Definition queue_output_bytes (limit : Z) (b : OutboundBuffer) (type flags request_id : Z)
    (payload : option bytes) (payload_size version : Z) : bool * OutboundBuffer :=
  if kMaxPayloadSize <? payload_size then (false, b)
  else if negb (has_output_capacity limit b (u64 (kHeaderSize + payload_size))) then (false, b)
  else Outbound_append b type flags request_id payload payload_size version.

Definition queue_output (limit protocol_version : Z) (b : OutboundBuffer) (frame : Frame)
    : bool * OutboundBuffer :=
  queue_output_bytes limit b (ftype frame) (fflags frame) (frequest_id frame)
    (if bool_decide (fpayload frame = []) then None else Some (fpayload frame))
    (zlen (fpayload frame))
    (if negb (fversion frame =? 0) then fversion frame else protocol_version).

(** *** Response bodies under credit *)

Inductive EnqueueResult := kQueued | kWouldBlock | kFatal.

(** The fields of [ResponseState] the body path uses. *)
Record ResponseState := mkResponseState {
  credit : Z;
  response_body_bytes_accepted : Z
}.

Definition account_response_body_bytes (state : ResponseState) (size : Z) : ResponseState :=
  if size =? 0 then state
  else if u64_max - size <? response_body_bytes_accepted state
  then mkResponseState (credit state) u64_max
  else mkResponseState (credit state) (response_body_bytes_accepted state + size).

(** The chunk the next loop iteration sends. *)
Definition next_chunk_size (limit : Z) (b : OutboundBuffer) (remaining credit : Z) : Z :=
  let chunk_size := Z.min (Z.min remaining kMaxPayloadSize) credit in
  let cap := wire_payload_capacity limit b in
  if cap <? chunk_size then cap else chunk_size.

(** The loop of [queue_response_bytes_fast]; [None] when out of fuel,
    otherwise the bytes sent, or [inr] for the fatal return. *)
Fixpoint fast_loop (fuel : nat) (limit version request_id : Z) (b : OutboundBuffer)
    (payload : bytes) (sent : Z) (state : ResponseState)
    : option ((Z + unit) * OutboundBuffer * ResponseState) :=
  match fuel with
  | O => None
  | S fuel' =>
      if (sent <? zlen payload) && (0 <? credit state) then
        let chunk_size := next_chunk_size limit b (zlen payload - sent) (credit state) in
        if chunk_size =? 0 then Some (inl sent, b, state)
        else if negb (has_output_capacity limit b (u64 (chunk_size + kHeaderSize)))
        then Some (inl sent, b, state)
        else
          match Outbound_append b kResponseBody 0 request_id (Some (zdrop sent payload))
                  chunk_size version with
          | (false, b1) => Some (inr tt, b1, state)
          | (true, b1) =>
              let state1 :=
                mkResponseState (credit state - chunk_size)
                  (response_body_bytes_accepted state) in
              fast_loop fuel' limit version request_id b1 payload (sent + chunk_size)
                (account_response_body_bytes state1 chunk_size)
          end
      else Some (inl sent, b, state)
  end.

(** [queue_response_bytes_fast]: the result, [*sent_out], and the new state.
    The fatal return does not set [*sent_out]. *)
Definition queue_response_bytes_fast (limit version request_id : Z) (b : OutboundBuffer)
    (payload : option bytes) (state : ResponseState)
    : option (EnqueueResult * option Z * OutboundBuffer * ResponseState) :=
  match payload with
  | None => Some (kFatal, None, b, state)
  | Some data =>
      if zlen data =? 0 then Some (kFatal, None, b, state)
      else
        match fast_loop (S (length data)) limit version request_id b data 0 state with
        | None => None
        | Some (inr _, b', state') => Some (kFatal, None, b', state')
        | Some (inl sent, b', state') =>
            Some (if sent =? zlen data then kQueued else kWouldBlock, Some sent, b', state')
        end
  end.

(** ** Invariant *)

Ltac ob_cbn := cbn [storage_ write_offset_ frame_start_ frame_end_].

Definition unsent (b : OutboundBuffer) : bytes := zdrop (write_offset_ b) (storage_ b).

Definition max_frame : Z := kHeaderSize + kMaxPayloadSize.

Definition framed (f : Frame) : Prop := zlen (fpayload f) <= kMaxPayloadSize.

(** From [frame_start_] on, the storage holds the frame being sent, up to
    [frame_end_], followed by whole frames; the write offset is inside the
    frame being sent. The size bound keeps [size_t] arithmetic exact. *)
Record out_wf (b : OutboundBuffer) : Prop := {
  out_start : 0 <= frame_start_ b <= write_offset_ b;
  out_offset : write_offset_ b <= frame_end_ b <= zlen (storage_ b);
  out_size : zlen (storage_ b) < 2 ^ 62;
  out_frames : ∃ cur fs, Forall framed fs ∧
    zdrop (frame_start_ b) (storage_ b) = cur ++ frame_stream fs ∧
    zlen cur = frame_end_ b - frame_start_ b ∧ zlen cur <= max_frame
}.

Lemma new_OutboundBuffer_wf : out_wf new_OutboundBuffer.
Proof. split; cbn; [done|done|done|]. by exists [], []. Qed.

Lemma zlen_unsent b : out_wf b → zlen (unsent b) = zlen (storage_ b) - write_offset_ b.
Proof. intros []. apply zlen_zdrop. lia. Qed.

Lemma logical_size_unsent b : out_wf b → logical_size b = zlen (unsent b).
Proof.
  intros Hwf. rewrite zlen_unsent by done. destruct Hwf. unfold logical_size.
  apply u64_small. lia.
Qed.

(** The part of the storage a write has already passed is at most the one
    partly sent frame beyond [frame_start_]. *)
Lemma storage_split b : out_wf b →
  zlen (storage_ b) <= frame_start_ b + max_frame + zlen (unsent b).
Proof.
  intros Hwf. rewrite zlen_unsent by done. destruct Hwf as [? ? ? (cur & fs & _ & _ & ? & ?)]. lia.
Qed.

Lemma zdrop_cut {A} n (l a k : list A) : zdrop n l = a ++ k → 0 <= n →
  zdrop (n + zlen a) l = k.
Proof.
  intros Hd Hn. rewrite <- zdrop_zdrop, Hd by (try apply zlen_nonneg; lia). by apply zdrop_app.
Qed.

Lemma next_frame_end_spec b f rest offset : framed f → 0 <= offset →
  zlen (storage_ b) < 2 ^ 62 → offset <= zlen (storage_ b) →
  zdrop offset (storage_ b) = frame_bytes f ++ rest →
  next_frame_end b offset = offset + zlen (frame_bytes f) ∧
  offset + zlen (frame_bytes f) <= zlen (storage_ b).
Proof.
  intros Hf Ho Hsz Hle Hd. pose proof (f_equal zlen Hd) as Hlen.
  rewrite zlen_zdrop, zlen_app, zlen_frame_bytes in Hlen by lia. rewrite zlen_frame_bytes.
  pose proof (zlen_nonneg rest). pose proof (zlen_nonneg (fpayload f)).
  unfold framed, kMaxPayloadSize in Hf.
  assert (load_u32 (zdrop 20 (zdrop offset (storage_ b))) = zlen (fpayload f)) as Hload.
  { rewrite Hd. unfold frame_bytes. rewrite <- (assoc (++)). by apply header_size_small. }
  unfold load_u32 in Hload. rewrite !(byte_at_zdrop _ 20) in Hload by lia.
  split; [|lia]. unfold next_frame_end, kHeaderSize.
  rewrite u64_small, ltb_ge_false by lia.
  change (20 + 0) with 20 in Hload. change (20 + 1) with 21 in Hload.
  change (20 + 2) with 22 in Hload. change (20 + 3) with 23 in Hload. cbn zeta. rewrite Hload.
  rewrite (u64_small (24 + _)), u64_small, ltb_ge_false by lia. done.
Qed.

(** At a frame boundary the next frame becomes the one being sent. *)
Definition next_current (b : OutboundBuffer) : OutboundBuffer :=
  if frame_end_ b <=? write_offset_ b
  then mkOutboundBuffer (storage_ b) (write_offset_ b) (next_frame_end b (write_offset_ b))
         (write_offset_ b)
  else b.

Lemma next_current_wf b : out_wf b → write_offset_ b < zlen (storage_ b) →
  out_wf (next_current b) ∧ write_offset_ b < frame_end_ (next_current b).
Proof.
  intros Hwf Hlt. unfold next_current. split_test; bools; [|by split].
  destruct Hwf as [Hs Ho Hz (cur & fs & Hfs & Hd & Hc & Hm)].
  assert (write_offset_ b = frame_start_ b + zlen cur) as Heq by lia.
  apply zdrop_cut in Hd; [|lia]. rewrite <- Heq in Hd.
  destruct fs as [|f fs].
  { cbn in Hd. pose proof (zlen_zdrop (write_offset_ b) (storage_ b) ltac:(lia)) as Hx.
    rewrite Hd, zlen_nil in Hx. lia. }
  apply Forall_cons in Hfs as [Hf Hfs]. rewrite frame_stream_cons in Hd.
  destruct (next_frame_end_spec b f (frame_stream fs) (write_offset_ b)) as [-> Hle]; try done; [lia|lia|].
  pose proof (zlen_frame_bytes f). pose proof (zlen_nonneg (fpayload f)).
  unfold framed in Hf.
  split; [split|]; ob_cbn; [lia|lia|done| |lia].
  exists (frame_bytes f), fs. repeat split; try done; [lia|].
  unfold max_frame, kHeaderSize. lia.
Qed.

Lemma next_current_same b :
  storage_ (next_current b) = storage_ b ∧ write_offset_ (next_current b) = write_offset_ b.
Proof. unfold next_current. by split_test. Qed.

Lemma advance_wf b n : out_wf b → 0 <= n <= frame_end_ b - write_offset_ b →
  out_wf (mkOutboundBuffer (storage_ b) (u64 (write_offset_ b + n)) (frame_end_ b) (frame_start_ b)).
Proof.
  intros [Hs Ho Hz Hf] Hn. rewrite u64_small by lia. split; ob_cbn; try done; lia.
Qed.

Lemma compact_wf b : out_wf b →
  out_wf (compact_if_needed b) ∧ unsent (compact_if_needed b) = unsent b ∧
  frame_start_ (compact_if_needed b) < kCompactThreshold.
Proof.
  intros Hwf. unfold compact_if_needed. split_test.
  { bools. split; [done|split; [done|unfold kCompactThreshold; lia]]. }
  destruct (kCompactThreshold <=? frame_start_ b) eqn:Hk; bools; [|done].
  destruct Hwf as [Hs Ho Hz (cur & fs & Hfs & Hd & Hc & Hm)].
  unfold unsent. ob_cbn.
  rewrite !u64_small by lia. split; [|split; [|done]].
  - split; ob_cbn;
      rewrite ?zlen_zdrop by lia; try lia.
    exists cur, fs. rewrite zdrop_0. repeat split; try done. lia.
  - rewrite zdrop_zdrop by lia. f_equal. lia.
Qed.

(** What an append does: refuse with the queue unchanged, or add one frame. *)
Lemma Outbound_append_spec b type flags id payload size version r b' : out_wf b →
  0 <= size → (∀ d, payload = Some d → size <= zlen d) →
  zlen (storage_ b) + max_frame < 2 ^ 62 →
  Outbound_append b type flags id payload size version = (r, b') →
  out_wf b' ∧
  let f := mkFrame type flags id version (payload_range payload size) in
  if r then encodable version f ∧ unsent b' = unsent b ++ frame_bytes f ∧
            frame_start_ b' < kCompactThreshold ∧ size <= kMaxPayloadSize
  else unsent b' = unsent b ∧ zlen (storage_ b') <= zlen (storage_ b).
Proof.
  intros Hwf Hsz Hp Hroom. unfold Outbound_append. split_test; [by intros [= <- <-]|]. bools.
  destruct (compact_wf b Hwf) as (Hwf1 & Hun & Hst).
  assert (zlen (storage_ (compact_if_needed b)) <= zlen (storage_ b)) as Hle.
  { unfold compact_if_needed. repeat split_test; ob_cbn; try lia.
    destruct Hwf. rewrite zlen_zdrop; lia. }
  set (b1 := compact_if_needed b) in *. rewrite append_encoded_versioned_args by done. cbn zeta.
  set (f := mkFrame type flags id version (payload_range payload size)).
  destruct (_ && _) eqn:Hc; intros [= <- <-]; [|done].
  apply andb_true_iff in Hc as [Hc _]. apply andb_true_iff in Hc as [Henc _].
  apply bool_decide_eq_true in Henc. pose proof (proj2 (proj2 (proj2 Henc))) as Hpay.
  pose proof (zlen_frame_bytes f). destruct Hwf1 as [Hs Ho Hz (cur & fs & Hfs & Hd & Hcur & Hm)].
  unfold unsent in *. ob_cbn.
  split; [|split; [done|split; [|done]]].
  - unfold max_frame, kHeaderSize in *. split; ob_cbn; rewrite ?zlen_app; zlen_pose; try lia.
    exists cur, (fs ++ [f]). split; [by apply Forall_app_2, Forall_singleton|].
    rewrite zdrop_app_l, Hd, frame_stream_app by lia. unfold frame_stream at 3. cbn [map concat].
    by rewrite app_nil_r, (assoc (++)).
  - rewrite zdrop_app_l by lia. by rewrite Hun.
Qed.

Lemma zlen_payload_range payload size : 0 <= size → zlen (payload_range payload size) <= size.
Proof.
  intros. destruct payload as [d|]; cbn [payload_range]; [|rewrite zlen_nil; lia].
  unfold ztake, zlen. rewrite length_take. lia.
Qed.

(** ** Flushing *)

Section flush_correct.
Context {W : Type} `{WriterContract W}.

(** A writer that never stalls or fails. *)
Definition always_writes : Prop := ∀ (w : W) data, data ≠ [] → 0 < (writer w data).1.

Lemma flush_loop_next fuel b (w : W) : out_wf b → write_offset_ b < zlen (storage_ b) →
  let b1 := next_current b in
  let data := ztake (frame_end_ b1 - write_offset_ b1) (unsent b1) in
  let '(count, w1) := writer w data in
  flush_loop (S fuel) b w =
  if 0 <? count then
    flush_loop fuel (mkOutboundBuffer (storage_ b1) (u64 (write_offset_ b1 + count))
                       (frame_end_ b1) (frame_start_ b1)) w1
  else Some (count =? 0, b1, w1).
Proof.
  intros Hwf Hlt b1 data. destruct (next_current_wf b Hwf Hlt) as [Hwf1 Hcur].
  destruct (next_current_same b) as [_ Hoff]. fold b1 in Hwf1, Hcur, Hoff.
  destruct (writer w data) as [count w1] eqn:Hw. cbn [flush_loop].
  rewrite ltb_lt_true by done. cbn zeta. fold (next_current b). fold b1.
  rewrite (proj2 (Z.leb_gt (frame_end_ b1) (write_offset_ b1))), andb_false_r
    by (by rewrite Hoff).
  destruct Hwf1. rewrite u64_small by lia. fold (unsent b1). fold data. rewrite Hw.
  split_test; [done|]. by split_test.
Qed.

Lemma flush_loop_spec fuel b (w : W) : out_wf b → (length (unsent b) < fuel)%nat →
  ∃ ok b' w', flush_loop fuel b w = Some (ok, b', w') ∧ out_wf b' ∧
    storage_ b' = storage_ b ∧ zlen (unsent b') <= zlen (unsent b) ∧
    wire w' ++ unsent b' = wire w ++ unsent b ∧
    (always_writes → ok = true ∧ unsent b' = []).
Proof.
  revert b w; induction fuel as [|fuel IH]; intros b w Hwf Hfuel; [lia|].
  destruct (Z.lt_ge_cases (write_offset_ b) (zlen (storage_ b))) as [Hlt|Hge].
  2:{ exists true, b, w. cbn [flush_loop]. rewrite ltb_ge_false by done.
      do 5 (split; [done|]). intros _. split; [done|]. by apply zdrop_none. }
  destruct (next_current_wf b Hwf Hlt) as [Hwf1 Hcur].
  destruct (next_current_same b) as [Hst Hoff].
  pose proof (flush_loop_next fuel b w Hwf Hlt) as Hloop. cbn zeta in Hloop.
  set (b1 := next_current b) in *.
  assert (unsent b1 = unsent b) as Hun by (unfold unsent; by rewrite Hst, Hoff).
  pose proof (zlen_unsent b1 Hwf1) as Hlen. pose proof Hwf1 as [Hs Ho Hz _].
  assert (zlen (ztake (frame_end_ b1 - write_offset_ b1) (unsent b1))
          = frame_end_ b1 - write_offset_ b1) as Hd by (apply zlen_ztake; lia).
  set (data := ztake (frame_end_ b1 - write_offset_ b1) (unsent b1)) in *.
  pose proof (writer_count w data) as Hcount. pose proof (writer_wire w data) as Hwire.
  assert (always_writes → 0 < (writer w data).1) as Hprog.
  { intros Hall. apply Hall. intros Hnil. rewrite Hnil, zlen_nil in Hd. lia. }
  destruct (writer w data) as [count w1]. cbn [fst snd] in *. rewrite Hloop.
  split_test; bools.
  - set (b2 := mkOutboundBuffer _ _ _ _).
    assert (unsent b2 = zdrop count (unsent b1)) as Hun2.
    { unfold unsent, b2. ob_cbn. rewrite u64_small, zdrop_zdrop by lia. done. }
    pose proof (zlen_zdrop count (unsent b1) ltac:(lia)) as Hz2.
    destruct (IH b2 w1) as (ok & b' & w' & -> & Hwf' & Hst' & Hle & Hw' & Hdone).
    { apply advance_wf; [done|lia]. }
    { rewrite Hun2. rewrite Hun in *. unfold zlen in *. lia. }
    exists ok, b', w'. split; [done|]. split; [done|]. split; [by rewrite Hst'|].
    split; [rewrite Hun2, Hun in *; lia|]. split; [|done]. rewrite Hw', Hwire, Hun2, Z.max_r by lia.
    rewrite <- (assoc (++)), Hun. f_equal. rewrite <- (ztake_zdrop count (unsent b)) at 2. f_equal.
    unfold data. rewrite Hun. unfold ztake. rewrite take_take. f_equal. lia.
  - exists (count =? 0), b1, w1. split; [done|]. split; [done|]. split; [done|].
    rewrite Hwire, Z.max_l, Hun by lia. cbn. rewrite app_nil_r.
    split; [done|]. split; [done|]. intros Hall. specialize (Hprog Hall). lia.
Qed.

(** [flush] returns for every writer, loses nothing, and empties the queue
    when the writer makes progress. *)
Lemma flush_spec b (w : W) : out_wf b →
  ∃ ok b' w', flush b w = Some (ok, b', w') ∧ out_wf b' ∧
    zlen (storage_ b') <= zlen (storage_ b) ∧ zlen (unsent b') <= zlen (unsent b) ∧
    wire w' ++ unsent b' = wire w ++ unsent b ∧
    (always_writes → ok = true ∧ b' = new_OutboundBuffer).
Proof.
  intros Hwf. unfold flush. fold (unsent b).
  destruct (flush_loop_spec (S (length (unsent b))) b w Hwf)
    as (ok & b' & w' & -> & Hwf' & Hst & Hle & Hwire & Hall); [lia|].
  pose proof (zlen_unsent b' Hwf') as Hun. destruct ok.
  - eexists _, _, _. split; [done|]. split_test; bools.
    + rewrite (zlen_zero (unsent b')) in Hwire by lia.
      split; [apply new_OutboundBuffer_wf|]. split; [apply zlen_nonneg|].
      split; [apply zlen_nonneg|]. done.
    + split; [done|]. split; [by rewrite Hst|]. split; [done|]. split; [done|]. intros Hw.
      destruct (Hall Hw) as [_ Hnil]. rewrite Hnil, zlen_nil in Hun. lia.
  - exists false, b', w'. split; [done|]. split; [done|]. split; [by rewrite Hst|].
    split; [done|]. split; [done|]. intros Hw. by destruct (Hall Hw).
Qed.
End flush_correct.

(** ** The output path of a worker

    Every interleaving of gated appends and flushes. The runtime calls
    [outbound_.append] in three places, each directly behind
    [has_output_capacity] for the frame it appends; the accepted frames and
    the writer state are recorded. *)
Section output_path.
Context {W : Type} `{WriterContract W} (limit : Z) (w0 : W).

Inductive out_reach : OutboundBuffer → W → list Frame → Prop :=
| out_init : out_reach new_OutboundBuffer w0 []
| out_append b w fs type flags id payload size version r b' :
    out_reach b w fs → 0 <= size → (∀ d, payload = Some d → size <= zlen d) →
    has_output_capacity limit b (u64 (kHeaderSize + size)) = true →
    Outbound_append b type flags id payload size version = (r, b') →
    out_reach b' w
      (if r then fs ++ [mkFrame type flags id version (payload_range payload size)] else fs)
| out_flush b w fs r b' w' :
    out_reach b w fs → flush b w = Some (r, b', w') → out_reach b' w' fs.

Record out_inv (b : OutboundBuffer) (w : W) (fs : list Frame) : Prop := {
  oinv_wf : out_wf b;
  oinv_logical : zlen (unsent b) <= limit;
  oinv_physical : zlen (storage_ b) <= limit + max_frame + kCompactThreshold;
  oinv_wire : wire w ++ unsent b = wire w0 ++ frame_stream fs;
  oinv_frames : Forall (λ f, encodable (fversion f) f) fs
}.

Hypothesis limit_range : 0 <= limit <= kMaxBufferedBytes.

Lemma capacity_room b additional : out_wf b → zlen (unsent b) <= limit →
  has_output_capacity limit b additional = (additional <=? limit - zlen (unsent b)).
Proof.
  intros Hwf Hle. unfold has_output_capacity. rewrite logical_size_unsent by done.
  unfold kMaxBufferedBytes in limit_range. pose proof (zlen_nonneg (unsent b)).
  rewrite u64_small by lia. by rewrite (proj2 (Z.leb_le _ _)).
Qed.

Lemma append_inv b w fs type flags id payload size version r b' : out_inv b w fs →
  0 <= size → (∀ d, payload = Some d → size <= zlen d) →
  has_output_capacity limit b (u64 (kHeaderSize + size)) = true →
  Outbound_append b type flags id payload size version = (r, b') →
  out_inv b' w
    (if r then fs ++ [mkFrame type flags id version (payload_range payload size)] else fs).
Proof.
  intros [Hwf Hlog Hphys Hwire Hfs] Hsz Hp Hcap Happ. rewrite capacity_room in Hcap by done. bools.
  assert (zlen (storage_ b) + max_frame < 2 ^ 62) as Hroom.
  { unfold max_frame, kCompactThreshold, kMaxBufferedBytes, kHeaderSize, kMaxPayloadSize in *. lia. }
  destruct (Outbound_append_spec _ _ _ _ _ _ _ _ _ Hwf Hsz Hp Hroom Happ) as [Hwf' Hr].
  cbn zeta in Hr. set (f := mkFrame type flags id version (payload_range payload size)) in *.
  destruct r.
  - destruct Hr as (Henc & Hun & Hst & Hmax).
    assert (zlen (unsent b') <= limit) as Hlog'.
    { rewrite Hun, zlen_app, zlen_frame_bytes. pose proof (zlen_payload_range payload size Hsz).
      change (fpayload f) with (payload_range payload size).
      unfold kHeaderSize, kMaxPayloadSize in *. rewrite u64_small in Hcap by lia. lia. }
    pose proof (storage_split b' Hwf') as Hsplit.
    split; [done|done|lia| |].
    + rewrite Hun, (assoc (++)), Hwire, frame_stream_app. unfold frame_stream at 3. cbn [map concat].
      by rewrite app_nil_r, (assoc (++)).
    + by apply Forall_app_2, Forall_singleton.
  - destruct Hr as [Hun Hle]. split; rewrite ?Hun; try done. lia.
Qed.

Lemma out_reach_inv b w fs : out_reach b w fs → out_inv b w fs.
Proof.
  induction 1 as [|b w fs ty fl id pl sz v r b' _ IH Hsz Hp Hcap Happ|b w fs r b' w' _ IH Hfl].
  - split; [apply new_OutboundBuffer_wf|apply limit_range| |done|by apply Forall_nil].
    change (zlen (storage_ new_OutboundBuffer)) with 0.
    unfold max_frame, kCompactThreshold, kHeaderSize, kMaxPayloadSize. lia.
  - by eapply append_inv.
  - destruct IH as [Hwf Hlog Hphys Hwire Hfs].
    destruct (flush_spec b w Hwf) as (ok & b1 & w1 & Heq & Hwf' & Hle & Hun & Hw & _).
    rewrite Heq in Hfl. injection Hfl as -> -> ->.
    split; [done|lia|lia|by rewrite Hw|done].
Qed.

(** [queue_output_bytes] is a gated append or a refusal, so it stays inside
    the relation above. *)
Lemma queue_output_bytes_reach b w fs type flags id payload size version r b' :
  out_reach b w fs → 0 <= size → (∀ d, payload = Some d → size <= zlen d) →
  queue_output_bytes limit b type flags id payload size version = (r, b') →
  out_reach b' w
    (if r then fs ++ [mkFrame type flags id version (payload_range payload size)] else fs).
Proof.
  intros Hr Hsz Hp. unfold queue_output_bytes. split_test; [by intros [= <- <-]|].
  destruct (has_output_capacity _ _ _) eqn:Hcap; cbn [negb]; [|by intros [= <- <-]].
  intros Happ. by eapply out_append.
Qed.

(** *** The credited body path *)

Definition body_frame (version id : Z) (chunk : bytes) : Frame :=
  mkFrame kResponseBody 0 id version chunk.

Definition body_chunks (chunks : list bytes) : Prop :=
  Forall (λ c, 0 < zlen c <= kMaxPayloadSize) chunks.

Lemma body_encodable version id chunk : version = kVersion ∨ version = kVersionV4 →
  zlen chunk <= kMaxPayloadSize → encodable version (body_frame version id chunk).
Proof. intros Hv Hl. by destruct Hv as [->| ->]; repeat split; auto. Qed.

Lemma capacity_spec b : out_wf b → zlen (unsent b) <= limit →
  wire_payload_capacity limit b = Z.max 0 (limit - zlen (unsent b) - kHeaderSize).
Proof.
  intros Hwf Hle. unfold wire_payload_capacity. rewrite logical_size_unsent by done.
  unfold kMaxBufferedBytes in limit_range. pose proof (zlen_nonneg (unsent b)). unfold kHeaderSize.
  rewrite (u64_small (limit - _)), ltb_ge_false by lia. cbn [orb].
  split_test; bools; [lia|]. rewrite u64_small by lia. lia.
Qed.

(** A chunk the loop picks fits the queue, and the append accepts it. *)
Lemma next_chunk_sent b w fs version id data chunk : out_reach b w fs →
  version = kVersion ∨ version = kVersionV4 →
  0 < chunk <= wire_payload_capacity limit b → chunk <= kMaxPayloadSize → chunk <= zlen data →
  has_output_capacity limit b (u64 (chunk + kHeaderSize)) = true ∧
  ∃ b', Outbound_append b kResponseBody 0 id (Some data) chunk version = (true, b') ∧
        out_reach b' w (fs ++ [body_frame version id (ztake chunk data)]).
Proof.
  intros Hreach Hv Hcap Hmax Hdata. pose proof (out_reach_inv _ _ _ Hreach) as Hinv.
  pose proof Hinv as [Hwf Hlog Hphys _ _]. rewrite capacity_spec in Hcap by done.
  assert (has_output_capacity limit b (u64 (chunk + kHeaderSize)) = true) as Hroom.
  { rewrite capacity_room by done. unfold kHeaderSize, kMaxPayloadSize in *.
    rewrite u64_small by lia. apply Z.leb_le. lia. }
  split; [done|].
  destruct (Outbound_append b kResponseBody 0 id (Some data) chunk version) as [r b'] eqn:Happ.
  assert (r = true) as ->.
  { revert Happ. unfold Outbound_append. rewrite ltb_ge_false by done.
    rewrite append_encoded_versioned_args; [|lia|by intros d [= <-]].
    pose proof (zlen_payload_range (Some data) chunk ltac:(lia)) as Hl.
    cbn zeta. rewrite (bool_decide_true (encodable _ _)) by (apply body_encodable; [done|lia]).
    rewrite (bool_decide_true (Some data ≠ None)), orb_true_r by done.
    destruct (compact_wf b Hwf) as [[_ _ Hz _] _].
    unfold kHeaderSize, kMaxPayloadSize, u64_max in *. rewrite (proj2 (Z.leb_le _ _)) by lia.
    cbn [andb]. by intros [= <- _]. }
  exists b'. split; [done|].
  rewrite (Z.add_comm chunk) in Hroom.
  by apply (out_append b w fs _ _ _ (Some data) chunk _ true b' Hreach ltac:(lia)
              ltac:(by intros d [= <-])).
Qed.

(** The whole body path: never fatal, sends a prefix of the payload as
    consecutive non-empty frames, charges exactly that much credit, and stops
    only when the payload is sent, the credit is spent or the queue is full. *)
Record fast_result (b : OutboundBuffer) (w : W) (fs : list Frame) (version id : Z)
    (payload : bytes) (sent : Z) (st : ResponseState)
    (sent' : Z) (b' : OutboundBuffer) (st' : ResponseState) (chunks : list bytes) : Prop := {
  fast_chunks : body_chunks chunks;
  fast_bytes : concat chunks = ztake (sent' - sent) (zdrop sent payload);
  fast_sent : sent <= sent' <= zlen payload;
  fast_credit : credit st' = credit st - (sent' - sent) ∧ 0 <= credit st';
  fast_accepted : response_body_bytes_accepted st' =
                  Z.min u64_max (response_body_bytes_accepted st + (sent' - sent));
  fast_reach : out_reach b' w (fs ++ map (body_frame version id) chunks);
  fast_stop : sent' = zlen payload ∨ credit st' = 0 ∨ wire_payload_capacity limit b' = 0
}.

Lemma account_spec st n : 0 <= n → response_body_bytes_accepted st <= u64_max →
  credit (account_response_body_bytes st n) = credit st ∧
  response_body_bytes_accepted (account_response_body_bytes st n) =
  Z.min u64_max (response_body_bytes_accepted st + n).
Proof. intros. unfold account_response_body_bytes. repeat split_test; bools; cbn; lia. Qed.

Lemma fast_loop_spec fuel version id b w fs payload sent st : out_reach b w fs →
  version = kVersion ∨ version = kVersionV4 →
  0 <= sent <= zlen payload → 0 <= credit st → response_body_bytes_accepted st <= u64_max →
  zlen payload - sent < Z.of_nat fuel →
  ∃ sent' b' st' chunks,
    fast_loop fuel limit version id b payload sent st = Some (inl sent', b', st') ∧
    fast_result b w fs version id payload sent st sent' b' st' chunks.
Proof.
  intros Hreach Hv. revert b fs sent st Hreach.
  induction fuel as [|fuel IH]; intros b fs sent st Hreach Hsent Hcr Hacc Hfuel; [lia|].
  assert (∀ s : (sent = zlen payload ∨ credit st = 0 ∨ wire_payload_capacity limit b = 0),
    fast_result b w fs version id payload sent st sent b st []) as Hstop.
  { intros s. split; cbn [map]; try done; try lia; [constructor|by rewrite Z.sub_diag|].
    by rewrite app_nil_r. }
  cbn [fast_loop]. destruct (_ && _) eqn:Hcond.
  2:{ exists sent, b, st, []. split; [done|]. apply Hstop. andb_cases; lia. }
  bools. set (chunk := next_chunk_size limit b (zlen payload - sent) (credit st)).
  destruct (out_reach_inv _ _ _ Hreach) as [Hwf Hlog _ _ _].
  assert (0 <= chunk <= wire_payload_capacity limit b ∧ chunk <= kMaxPayloadSize ∧
          chunk <= zlen payload - sent ∧ chunk <= credit st ∧
          (chunk = 0 → wire_payload_capacity limit b = 0)) as (Hc1 & Hc2 & Hc3 & Hc4 & Hc5).
  { unfold chunk, next_chunk_size. rewrite capacity_spec by done. unfold kMaxPayloadSize.
    split_test; bools; lia. }
  destruct (chunk =? 0) eqn:Hz; bools.
  { exists sent, b, st, []. split; [done|]. apply Hstop. auto. }
  destruct (next_chunk_sent b w fs version id (zdrop sent payload) chunk)
    as (-> & b1 & -> & Hreach1); try done; [lia|by rewrite zlen_zdrop by lia|]. cbn [negb].
  set (st1 := mkResponseState _ _).
  destruct (account_spec st1 chunk) as [Hcr1 Hacc1]; [lia|done|]. cbn in Hcr1, Hacc1.
  destruct (IH b1 (fs ++ [body_frame version id (ztake chunk (zdrop sent payload))])
              (sent + chunk) (account_response_body_bytes st1 chunk) Hreach1)
    as (sent' & b' & st' & chunks & -> & [Hch Hb Hs [Hcr2 Hcr3] Ha Hr Hst]); try lia.
  exists sent', b', st', (ztake chunk (zdrop sent payload) :: chunks). split; [done|].
  split; try done; try lia.
  - constructor; [|done]. rewrite zlen_ztake; [lia|]. rewrite zlen_zdrop by lia. lia.
  - cbn [concat]. rewrite Hb. replace (sent' - (sent + chunk)) with (sent' - sent - chunk) by lia.
    apply ztake_resume; lia.
  - cbn [map]. by rewrite <- (assoc (++)) in Hr.
Qed.
End output_path.

(** ** A scripted writer

    The short-write / EAGAIN writer of the unit tests: each call takes the next
    count of the script, clipped to the contract, and stalls when the script
    is over. *)
Record Script := mkScript { counts : list Z; written : bytes }.

#[export] Instance script_writer : Writer Script := {
  writer w data :=
    match counts w with
    | [] => (0, w)
    | n :: rest =>
        let n' := Z.max (-1) (Z.min n (zlen data)) in
        (n', mkScript rest (written w ++ ztake (Z.max 0 n') data))
    end;
  wire := written
}.

#[export] Instance script_writer_contract : WriterContract Script.
Proof.
  split; intros [[|n rest] wr] data; cbn [writer script_writer counts written fst snd wire].
  - pose proof (zlen_nonneg data). lia.
  - pose proof (zlen_nonneg data). lia.
  - by rewrite ztake_0, app_nil_r.
  - done.
Qed.

(** ** Properties *)

Section output_properties.
Context {W : Type} `{WriterContract W}.

(** Nothing is lost, duplicated or reordered on the way out: however
    appends and flushes interleave and whatever short writes, stalls or
    failures the writer produces, the bytes on the wire followed by the unsent
    bytes are exactly the encodings of the accepted frames, in order. *)
Theorem outbound_fidelity limit (w0 : W) b w fs : 0 <= limit <= kMaxBufferedBytes →
  out_reach limit w0 b w fs →
  wire w ++ unsent b = wire w0 ++ frame_stream fs ∧
  Forall (λ f, encodable (fversion f) f) fs.
Proof. intros Hl Hr. by destruct (out_reach_inv limit w0 Hl b w fs Hr). Qed.

(** The logical queue never exceeds the configured limit, and the physical
    storage exceeds it by at most one frame and the compaction threshold, even
    when writes keep stalling in the middle of a frame. *)
Theorem outbound_bounds limit (w0 : W) b w fs : 0 <= limit <= kMaxBufferedBytes →
  out_reach limit w0 b w fs →
  logical_size b <= limit ∧
  storage_size b <= limit + (kHeaderSize + kMaxPayloadSize) + kCompactThreshold.
Proof.
  intros Hl Hr. destruct (out_reach_inv limit w0 Hl b w fs Hr).
  by rewrite logical_size_unsent.
Qed.

(** [flush] always returns, and with a writer that makes progress it
    returns [true] with the queue empty and everything accepted on the wire. *)
Theorem flush_drains limit (w0 : W) b w fs : 0 <= limit <= kMaxBufferedBytes →
  out_reach limit w0 b w fs →
  ∃ ok b' w', flush b w = Some (ok, b', w') ∧
    (always_writes (W := W) →
     ok = true ∧ is_drained b' = true ∧ wire w' = wire w0 ++ frame_stream fs).
Proof.
  intros Hl Hr. destruct (out_reach_inv limit w0 Hl b w fs Hr) as [Hwf _ _ Hw _].
  destruct (flush_spec b w Hwf) as (ok & b' & w' & Hf & _ & _ & _ & Hwire & Hall).
  exists ok, b', w'. split; [done|]. intros Ha. destruct (Hall Ha) as [-> ->].
  repeat split. rewrite Hw in Hwire. rewrite <- Hwire. by rewrite app_nil_r.
Qed.


(** The credited body path is exact: it never fails, sends a prefix of the
    payload as consecutive non-empty BODY frames of the request, charges
    exactly the sent bytes against the credit and never more than it, and
    stops short only when the credit is spent or the wire queue is full. *)
Theorem response_body_under_credit limit version id (w0 : W) b w fs data st :
  0 <= limit <= kMaxBufferedBytes → out_reach limit w0 b w fs →
  version = kVersion ∨ version = kVersionV4 →
  data ≠ [] → 0 <= credit st → response_body_bytes_accepted st <= u64_max →
  ∃ r sent b' st' chunks,
    queue_response_bytes_fast limit version id b (Some data) st = Some (r, Some sent, b', st') ∧
    concat chunks = ztake sent data ∧ body_chunks chunks ∧
    out_reach limit w0 b' w (fs ++ map (body_frame version id) chunks) ∧
    credit st' = credit st - sent ∧ 0 <= sent <= credit st ∧
    (r = kQueued ∧ sent = zlen data ∨
     r = kWouldBlock ∧ sent < zlen data ∧
     (credit st' = 0 ∨ wire_payload_capacity limit b' = 0)).
Proof.
  intros Hl Hr Hv Hne Hc Ha. assert (zlen data ≠ 0) by (intros Hz; by apply zlen_zero in Hz).
  pose proof (zlen_nonneg data).
  destruct (fast_loop_spec limit w0 Hl (S (length data)) version id b w fs data 0 st Hr Hv)
    as (sent & b' & st' & chunks & Hloop & [Hch Hb Hs [Hcr Hcr'] _ Hreach Hstop]);
    try (unfold zlen in *; lia).
  unfold queue_response_bytes_fast. rewrite eqb_ne_false, Hloop by done.
  eexists _, sent, b', st', chunks. split; [done|].
  rewrite Z.sub_0_r, zdrop_0 in Hb. split; [done|]. do 2 (split; [done|]).
  split; [lia|split; [lia|]].
  destruct (sent =? zlen data) eqn:E; bools; [by left|right]. split; [done|split; [lia|]]. lia.
Qed.
End output_properties.

(** ** Concrete runs *)

(** Two frames queued, a short write of ten bytes, a stall, then the rest. *)
Definition run_start : Script := mkScript [10; 0; 1000; 1000] [].

Definition queued (b : OutboundBuffer) (f : Frame) : OutboundBuffer :=
  (Outbound_append b (ftype f) (fflags f) (frequest_id f) (Some (fpayload f))
     (zlen (fpayload f)) (fversion f)).2.

Definition flushed (s : OutboundBuffer * Script) : OutboundBuffer * Script :=
  match flush s.1 s.2 with Some (_, b, w) => (b, w) | None => s end.

Definition run_queued : OutboundBuffer := fold_left queued sample_frames new_OutboundBuffer.
Definition run_stalled : OutboundBuffer * Script := flushed (run_queued, run_start).
Definition run_done : OutboundBuffer * Script := flushed run_stalled.

Ltac run_append fs :=
  lazymatch goal with
  | |- out_reach ?l ?w0 (queued ?b ?f) ?w _ =>
      apply (out_append l w0 b w fs (ftype f) (fflags f) (frequest_id f) (Some (fpayload f))
               (zlen (fpayload f)) (fversion f) true (queued b f));
      [ |vm_compute; discriminate|intros ? [= <-]; reflexivity|vm_compute; reflexivity
      |vm_compute; reflexivity]
  end.

Lemma run_stalled_reach :
  out_reach 4096 run_start run_stalled.1 run_stalled.2 sample_frames.
Proof.
  apply (out_flush _ _ run_queued run_start sample_frames true); [|vm_compute; reflexivity].
  change run_queued with (queued (queued new_OutboundBuffer
    (mkFrame kRequestHead 0 7 kVersionV4 (bs "GET /"))) (mkFrame kResponseBody 0 7 kVersionV4 (bs "hi"))).
  run_append [mkFrame kRequestHead 0 7 kVersionV4 (bs "GET /")].
  run_append (@nil Frame). apply out_init.
Defined.

Lemma run_done_reach : out_reach 4096 run_start run_done.1 run_done.2 sample_frames.
Proof.
  apply (out_flush _ _ run_stalled.1 run_stalled.2 sample_frames true);
    [apply run_stalled_reach|vm_compute; reflexivity].
Defined.

Lemma outbound_fidelity_witness :
  wire run_stalled.2 ++ unsent run_stalled.1 = wire run_start ++ frame_stream sample_frames ∧
  Forall (λ f, encodable (fversion f) f) sample_frames.
Proof.
  apply (outbound_fidelity 4096 run_start run_stalled.1 run_stalled.2 sample_frames); [vm_compute; split; discriminate|].
  apply run_stalled_reach.
Defined.

Lemma outbound_bounds_witness :
  logical_size run_stalled.1 <= 4096 ∧
  storage_size run_stalled.1 <= 4096 + (kHeaderSize + kMaxPayloadSize) + kCompactThreshold.
Proof.
  apply (outbound_bounds 4096 run_start _ run_stalled.2 sample_frames);
    [vm_compute; split; discriminate|apply run_stalled_reach].
Defined.

Lemma flush_drains_witness :
  ∃ ok b' w', flush run_stalled.1 run_stalled.2 = Some (ok, b', w') ∧
    (always_writes (W := Script) →
     ok = true ∧ is_drained b' = true ∧ wire w' = wire run_start ++ frame_stream sample_frames).
Proof.
  apply (flush_drains 4096 run_start run_stalled.1 run_stalled.2 sample_frames); [vm_compute; split; discriminate|apply run_stalled_reach].
Defined.


Lemma response_body_under_credit_witness :
  ∃ r sent b' st' chunks,
    queue_response_bytes_fast 4096 kVersion 9 run_stalled.1 (Some (bs "hello"))
      (mkResponseState 3 0) = Some (r, Some sent, b', st') ∧
    concat chunks = ztake sent (bs "hello") ∧ body_chunks chunks ∧
    out_reach 4096 run_start b' run_stalled.2
      (sample_frames ++ map (body_frame kVersion 9) chunks) ∧
    credit st' = 3 - sent ∧ 0 <= sent <= 3 ∧
    (r = kQueued ∧ sent = zlen (bs "hello") ∨
     r = kWouldBlock ∧ sent < zlen (bs "hello") ∧
     (credit st' = 0 ∨ wire_payload_capacity 4096 b' = 0)).
Proof.
  apply (response_body_under_credit 4096 kVersion 9 run_start run_stalled.1 run_stalled.2
           sample_frames (bs "hello") (mkResponseState 3 0)).
  - vm_compute; split; discriminate.
  - apply run_stalled_reach.
  - by left.
  - discriminate.
  - vm_compute; discriminate.
  - vm_compute; discriminate.
Defined.
