(* ===== verification/CapacityLedger.v ===== *)
(** * CapacityLedger: the worker-count budget of src/host/worker_capacity_ledger.cc

    [WorkerCapacityLedger] is a record of its entries and counters; every
    method is a function on it. The mutex makes the methods atomic, so a run
    is a sequence of method calls ([ledger_op], [apply_op]). Counters are
    64 bits wide and wrap around as in C++. *)
From Stdlib Require Import ZArith Lia.
From S2P Require Import Prelude.
Local Open Scope Z_scope.

(** ** Definitions *)

Record Entry := mkEntry { steady : Z; surge : Z }.

Record Ledger := mkLedger {
  entries_ : gmap bytes Entry;
  steady_used_ : Z;
  surge_used_ : Z;
  workers_total_ : Z;
  surge_workers_ : Z
}.

Definition new_Ledger (workers_total activation_surge_workers : Z) : Ledger :=
  mkLedger ∅ 0 0 workers_total activation_surge_workers.

(** [entries_[application]]: the entry, created empty when missing. *)
Definition entry_of (l : Ledger) (application : bytes) : Entry :=
  default (mkEntry 0 0) (entries_ l !! application).

Definition reserve_fresh (l : Ledger) (application : bytes) (pool_size : Z) : bool * Ledger :=
  if workers_total_ l <? u64 (steady_used_ l + pool_size) then (false, l)
  else
    let e := entry_of l application in
    (true,
     mkLedger (<[application := mkEntry (u64 (steady e + pool_size)) (surge e)]> (entries_ l))
       (u64 (steady_used_ l + pool_size)) (surge_used_ l) (workers_total_ l) (surge_workers_ l)).

Definition reserve_replace (l : Ledger) (application : bytes) (new_pool_size : Z)
    : bool * Ledger :=
  match entries_ l !! application with
  | None => (false, l)
  | Some e =>
      if steady e =? 0 then (false, l)
      else
        let old_pool_size := steady e in
        if workers_total_ l <? u64 (u64 (steady_used_ l - old_pool_size) + new_pool_size)
        then (false, l)
        else
          let overlap_peak := Z.max new_pool_size old_pool_size in
          if surge_workers_ l <? u64 (surge_used_ l + overlap_peak) then (false, l)
          else
            (true,
             mkLedger
               (<[application := mkEntry (steady e) (u64 (surge e + new_pool_size))]> (entries_ l))
               (steady_used_ l) (u64 (surge_used_ l + new_pool_size))
               (workers_total_ l) (surge_workers_ l))
  end.

Definition commit_fresh (l : Ledger) (application : bytes) : Ledger := l.

Definition commit_replace (l : Ledger) (application : bytes) (new_pool_size old_pool_size : Z)
    : Ledger :=
  let e := entry_of l application in
  let surge1 := u64 (surge e - new_pool_size) in
  let surge_used1 := u64 (surge_used_ l - new_pool_size) in
  let steady_used1 := u64 (steady_used_ l - old_pool_size) in
  mkLedger
    (<[application := mkEntry new_pool_size (u64 (surge1 + old_pool_size))]> (entries_ l))
    (u64 (steady_used1 + new_pool_size)) (u64 (surge_used1 + old_pool_size))
    (workers_total_ l) (surge_workers_ l).

(** [entries_.erase(found)] when nothing is held, the update otherwise. *)
Definition settle_entry (m : gmap bytes Entry) (application : bytes) (e : Entry)
    : gmap bytes Entry :=
  if (steady e =? 0) && (surge e =? 0) then delete application m else <[application := e]> m.

Definition abort_reserve (l : Ledger) (application : bytes) (pool_size : Z) (replacement : bool)
    : Ledger :=
  match entries_ l !! application with
  | None => l
  | Some e =>
      let e' :=
        if replacement then mkEntry (steady e) (u64 (surge e - pool_size))
        else mkEntry (u64 (steady e - pool_size)) (surge e) in
      mkLedger (settle_entry (entries_ l) application e')
        (if replacement then steady_used_ l else u64 (steady_used_ l - pool_size))
        (if replacement then u64 (surge_used_ l - pool_size) else surge_used_ l)
        (workers_total_ l) (surge_workers_ l)
  end.

Definition begin_retire (l : Ledger) (application : bytes) (pool_size : Z) : Ledger :=
  let e := entry_of l application in
  mkLedger
    (<[application := mkEntry (u64 (steady e - pool_size)) (u64 (surge e + pool_size))]>
       (entries_ l))
    (u64 (steady_used_ l - pool_size)) (u64 (surge_used_ l + pool_size))
    (workers_total_ l) (surge_workers_ l).

Definition release_drained (l : Ledger) (application : bytes) (drained : Z) : Ledger :=
  match entries_ l !! application with
  | None => l
  | Some e =>
      mkLedger
        (settle_entry (entries_ l) application (mkEntry (steady e) (u64 (surge e - drained))))
        (steady_used_ l) (u64 (surge_used_ l - drained)) (workers_total_ l) (surge_workers_ l)
  end.

Definition holds (l : Ledger) (application : bytes) : bool :=
  match entries_ l !! application with None => false | Some e => 0 <? steady e end.

Definition steady_of (l : Ledger) (application : bytes) : Z :=
  match entries_ l !! application with None => 0 | Some e => steady e end.

Definition surge_of (l : Ledger) (application : bytes) : Z :=
  match entries_ l !! application with None => 0 | Some e => surge e end.

(** ** Sequences of calls *)

Inductive ledger_op :=
| ReserveFresh (application : bytes) (pool_size : Z)
| ReserveReplace (application : bytes) (new_pool_size : Z)
| CommitFresh (application : bytes)
| CommitReplace (application : bytes) (new_pool_size old_pool_size : Z)
| AbortReserve (application : bytes) (pool_size : Z) (replacement : bool)
| BeginRetire (application : bytes) (pool_size : Z)
| ReleaseDrained (application : bytes) (drained : Z).

Definition apply_op (l : Ledger) (op : ledger_op) : Ledger :=
  match op with
  | ReserveFresh a n => (reserve_fresh l a n).2
  | ReserveReplace a n => (reserve_replace l a n).2
  | CommitFresh a => commit_fresh l a
  | CommitReplace a n m => commit_replace l a n m
  | AbortReserve a n r => abort_reserve l a n r
  | BeginRetire a n => begin_retire l a n
  | ReleaseDrained a n => release_drained l a n
  end.

(** ** Accounting

    The two counters are the sums of the entries, modulo the counter width;
    entry values are in range. *)
Record accounts (l : Ledger) : Prop := {
  acc_steady : steady_used_ l = u64 (msum steady (entries_ l));
  acc_surge : surge_used_ l = u64 (msum surge (entries_ l));
  acc_range : ∀ a e, entries_ l !! a = Some e → 0 <= steady e < 2 ^ 64 ∧ 0 <= surge e < 2 ^ 64
}.

Lemma settle_msum f m a e : f (mkEntry 0 0) = 0 →
  msum f (settle_entry m a e) = msum f m - from_option f 0 (m !! a) + f e.
Proof.
  intros H0. unfold settle_entry. destruct (_ && _) eqn:Hz; [|by apply msum_insert].
  bools. assert (f e = 0) as -> by (destruct e; cbn in *; by subst).
  destruct (m !! a) as [x|] eqn:Hm; cbn [from_option].
  - rewrite (msum_delete f m a x Hm). lia.
  - rewrite delete_id by done. lia.
Qed.

Lemma settle_lookup m a e b x : settle_entry m a e !! b = Some x → x = e ∨ m !! b = Some x.
Proof.
  unfold settle_entry. destruct (_ && _).
  - rewrite lookup_delete_Some. intros [_ ?]. by right.
  - rewrite lookup_insert_Some. intros [[_ <-]|[_ ?]]; [by left|by right].
Qed.

Lemma accounts_insert l a e su sg t b : accounts l →
  0 <= steady e < 2 ^ 64 → 0 <= surge e < 2 ^ 64 →
  su = u64 (steady_used_ l - from_option steady 0 (entries_ l !! a) + steady e) →
  sg = u64 (surge_used_ l - from_option surge 0 (entries_ l !! a) + surge e) →
  accounts (mkLedger (<[a := e]> (entries_ l)) su sg t b).
Proof.
  intros [Hs Hg Hr] He1 He2 -> ->. split; cbn [entries_ steady_used_ surge_used_].
  - rewrite msum_insert, Hs. by autorewrite with u64.
  - rewrite msum_insert, Hg. by autorewrite with u64.
  - intros b' x. rewrite lookup_insert_Some. intros [[_ <-]|[_ Hx]]; [done|by eapply Hr].
Qed.

Lemma accounts_settle l a e su sg t b : accounts l →
  0 <= steady e < 2 ^ 64 → 0 <= surge e < 2 ^ 64 →
  su = u64 (steady_used_ l - from_option steady 0 (entries_ l !! a) + steady e) →
  sg = u64 (surge_used_ l - from_option surge 0 (entries_ l !! a) + surge e) →
  accounts (mkLedger (settle_entry (entries_ l) a e) su sg t b).
Proof.
  intros [Hs Hg Hr] He1 He2 -> ->. split; cbn [entries_ steady_used_ surge_used_].
  - rewrite settle_msum, Hs by done. by autorewrite with u64.
  - rewrite settle_msum, Hg by done. by autorewrite with u64.
  - intros b' x Hx. apply settle_lookup in Hx as [->|Hx]; [done|by eapply Hr].
Qed.

Lemma entry_of_steady l a : steady (entry_of l a) = from_option steady 0 (entries_ l !! a).
Proof. unfold entry_of. by destruct (entries_ l !! a). Qed.
Lemma entry_of_surge l a : surge (entry_of l a) = from_option surge 0 (entries_ l !! a).
Proof. unfold entry_of. by destruct (entries_ l !! a). Qed.

Lemma entry_range l a : accounts l →
  0 <= steady (entry_of l a) < 2 ^ 64 ∧ 0 <= surge (entry_of l a) < 2 ^ 64.
Proof.
  intros [_ _ Hr]. unfold entry_of. destruct (entries_ l !! a) eqn:He; [by eapply Hr|done].
Qed.

(** Solves the accounting of an update of one entry. *)
Ltac account :=
  cbn [steady surge from_option];
  first [apply u64_range | done | rewrite ?u64_add_l; autorewrite with u64; rewrite <- ?entry_of_steady, <- ?entry_of_surge;
         cbn [from_option]; first [f_equal; lia | rewrite u64_small; lia | symmetry; rewrite u64_small; lia]].

(** The calls whose sizes must match what is held: [commit_replace] names the
    serving pool's size. *)
Definition op_matches (l : Ledger) (op : ledger_op) : Prop :=
  match op with
  | CommitReplace a n m => m = steady_of l a ∧ 0 <= n < 2 ^ 64
  | _ => True
  end.

Lemma accounts_counters l : accounts l →
  0 <= steady_used_ l < 2 ^ 64 ∧ 0 <= surge_used_ l < 2 ^ 64.
Proof. intros [-> -> _]. split; apply u64_range. Qed.

Lemma apply_op_accounts l op : accounts l → op_matches l op → accounts (apply_op l op).
Proof.
  intros Hacc Hm. pose proof (accounts_counters l Hacc) as [Hc1 Hc2].
  destruct op as [a n|a n|a|a n m|a n r|a n|a n]; cbn [apply_op] in *;
    pose proof (entry_range l a Hacc) as [Hr1 Hr2].
  - unfold reserve_fresh. split_test; [done|]. apply accounts_insert; account.
  - unfold reserve_replace. unfold entry_of in *. destruct (entries_ l !! a) as [e|] eqn:He; [|done].
    cbn in Hr1, Hr2. repeat (split_test; [done|]). apply accounts_insert; rewrite ?He; account.
  - done.
  - destruct Hm as [-> Hn]. unfold commit_replace.
    assert (steady_of l a = steady (entry_of l a)) as ->.
    { unfold steady_of, entry_of. by destruct (entries_ l !! a). }
    apply accounts_insert; account.
  - unfold abort_reserve. unfold entry_of in *. destruct (entries_ l !! a) as [e|] eqn:He; [|done].
    cbn in Hr1, Hr2. destruct r; apply accounts_settle; rewrite ?He; account.
  - unfold begin_retire. apply accounts_insert; account.
  - unfold release_drained. unfold entry_of in *. destruct (entries_ l !! a) as [e|] eqn:He; [|done].
    cbn in Hr1, Hr2. apply accounts_settle; rewrite ?He; account.
Qed.

(** Every run: any calls, in any order, from an empty ledger. *)
Inductive ledger_run (total surge_budget : Z) : Ledger → Prop :=
| run_init : ledger_run total surge_budget (new_Ledger total surge_budget)
| run_step l op : ledger_run total surge_budget l → op_matches l op →
    ledger_run total surge_budget (apply_op l op).

Lemma run_accounts total budget l : ledger_run total budget l → accounts l.
Proof.
  induction 1; [|by apply apply_op_accounts].
  split; cbn; [by rewrite msum_empty|by rewrite msum_empty|].
  intros a e. by rewrite lookup_empty.
Qed.

(** ** Serialised transactions

    One deploy at a time holds a reserve; drains finish at any moment. The
    pending transaction is what the caller remembers between reserve and
    settle. Denied reserves change nothing and need no step. *)
Inductive pending :=
| PNone
| PFresh (application : bytes) (pool_size : Z)
| PReplace (application : bytes) (new_pool_size old_pool_size : Z).

Definition warming (p : pending) (application : bytes) : Z :=
  match p with
  | PReplace a n _ => if bool_decide (a = application) then n else 0
  | _ => 0
  end.

Inductive serial (total surge_budget : Z) : Ledger → pending → Prop :=
| serial_init : serial total surge_budget (new_Ledger total surge_budget) PNone
| serial_fresh l a n l' : serial total surge_budget l PNone → 0 <= n < 2 ^ 62 →
    reserve_fresh l a n = (true, l') → serial total surge_budget l' (PFresh a n)
| serial_replace l a n l' : serial total surge_budget l PNone → 0 <= n < 2 ^ 62 →
    reserve_replace l a n = (true, l') →
    serial total surge_budget l' (PReplace a n (steady_of l a))
| serial_commit_fresh l a n : serial total surge_budget l (PFresh a n) →
    serial total surge_budget (commit_fresh l a) PNone
| serial_commit_replace l a n m : serial total surge_budget l (PReplace a n m) →
    serial total surge_budget (commit_replace l a n m) PNone
| serial_abort_fresh l a n : serial total surge_budget l (PFresh a n) →
    serial total surge_budget (abort_reserve l a n false) PNone
| serial_abort_replace l a n m : serial total surge_budget l (PReplace a n m) →
    serial total surge_budget (abort_reserve l a n true) PNone
| serial_release l p a d : serial total surge_budget l p →
    0 <= d <= surge_of l a - warming p a →
    serial total surge_budget (release_drained l a d) p.

(** The counters are the sums, with no wrap-around. *)
Record exact (l : Ledger) : Prop := {
  ex_steady : steady_used_ l = msum steady (entries_ l);
  ex_surge : surge_used_ l = msum surge (entries_ l);
  ex_range : ∀ a e, entries_ l !! a = Some e → 0 <= steady e ∧ 0 <= surge e
}.

Lemma steady_of_entry l a : steady_of l a = from_option steady 0 (entries_ l !! a).
Proof. unfold steady_of. by destruct (entries_ l !! a). Qed.
Lemma surge_of_entry l a : surge_of l a = from_option surge 0 (entries_ l !! a).
Proof. unfold surge_of. by destruct (entries_ l !! a). Qed.

Lemma exact_bounds l a : exact l →
  0 <= steady_of l a <= steady_used_ l ∧ 0 <= surge_of l a <= surge_used_ l.
Proof.
  intros [-> -> Hr].
  assert (0 <= msum steady (entries_ l)) by (apply msum_nonneg; intros i x Hi; apply (Hr i x Hi)).
  assert (0 <= msum surge (entries_ l)) by (apply msum_nonneg; intros i x Hi; apply (Hr i x Hi)).
  rewrite steady_of_entry, surge_of_entry. destruct (entries_ l !! a) as [e|] eqn:He; cbn; [|lia].
  pose proof (Hr a e He). pose proof (msum_lookup_le steady (entries_ l) a e) as Hm1.
  pose proof (msum_lookup_le surge (entries_ l) a e) as Hm2.
  split; split; try lia; [apply Hm1|apply Hm2]; try done; intros i x Hi; apply (Hr i x Hi).
Qed.

Lemma exact_update l a e su sg t b : exact l → 0 <= steady e → 0 <= surge e →
  su = steady_used_ l - steady_of l a + steady e → sg = surge_used_ l - surge_of l a + surge e →
  exact (mkLedger (<[a := e]> (entries_ l)) su sg t b) ∧
  exact (mkLedger (settle_entry (entries_ l) a e) su sg t b).
Proof.
  intros [Hs Hg Hr] He1 He2 -> ->. rewrite steady_of_entry, surge_of_entry, Hs, Hg.
  split; split; cbn [entries_ steady_used_ surge_used_];
    rewrite ?msum_insert, ?settle_msum by done; try done.
  - intros b' x. rewrite lookup_insert_Some. intros [[_ <-]|[_ Hx]]; [done|by eapply Hr].
  - intros b' x Hx. apply settle_lookup in Hx as [->|Hx]; [done|by eapply Hr].
Qed.

Lemma settle_steady m a e t b su sg x : steady_of (mkLedger (settle_entry m a e) su sg t b) x =
  if bool_decide (a = x) then steady e else steady_of (mkLedger m su sg t b) x.
Proof.
  rewrite !steady_of_entry. cbn [entries_]. unfold settle_entry.
  case_bool_decide as Hx; [subst x|]; destruct (_ && _) eqn:Hz;
    rewrite ?lookup_delete_eq, ?lookup_insert_eq, ?lookup_delete_ne, ?lookup_insert_ne by done; try done.
  cbn. by bools.
Qed.

Lemma settle_surge m a e t b su sg x : surge_of (mkLedger (settle_entry m a e) su sg t b) x =
  if bool_decide (a = x) then surge e else surge_of (mkLedger m su sg t b) x.
Proof.
  rewrite !surge_of_entry. cbn [entries_]. unfold settle_entry.
  case_bool_decide as Hx; [subst x|]; destruct (_ && _) eqn:Hz;
    rewrite ?lookup_delete_eq, ?lookup_insert_eq, ?lookup_delete_ne, ?lookup_insert_ne by done; try done.
  cbn. by bools.
Qed.

Record serial_inv (total budget : Z) (l : Ledger) (p : pending) : Prop := {
  si_exact : exact l;
  si_total : workers_total_ l = total ∧ surge_workers_ l = budget;
  si_steady : steady_used_ l <= total;
  si_surge : surge_used_ l <= budget;
  si_pending :
    match p with
    | PNone => True
    | PFresh a n => 0 <= n <= steady_of l a
    | PReplace a n m =>
        m = steady_of l a ∧ 0 <= n <= surge_of l a ∧
        steady_used_ l - m + n <= total ∧ surge_used_ l - n + Z.max n m <= budget
    end
}.

Lemma entry_of_values l a :
  steady (entry_of l a) = steady_of l a ∧ surge (entry_of l a) = surge_of l a.
Proof. unfold entry_of, steady_of, surge_of. by destruct (entries_ l !! a). Qed.

Section serial_steps.
Context (total budget : Z) (Ht : 0 <= total < 2 ^ 62) (Hb : 0 <= budget < 2 ^ 62).

Lemma fresh_inv l a n l' : serial_inv total budget l PNone → 0 <= n < 2 ^ 62 →
  reserve_fresh l a n = (true, l') → serial_inv total budget l' (PFresh a n).
Proof.
  intros [Hex [Htot Hbud] Hst Hsu _] Hn. unfold reserve_fresh. split_test; [done|]. bools.
  intros [= <-]. destruct (exact_bounds l a Hex) as [Hb1 Hb2].
  destruct (entry_of_values l a) as [-> ->].
  rewrite !u64_small in * by lia. split; cbn [workers_total_ surge_workers_ steady_used_ surge_used_];
    try done; try lia.
  - apply exact_update; cbn; try done; lia.
  - unfold steady_of at 1. cbn [entries_]. rewrite lookup_insert_eq. cbn. lia.
Qed.

Lemma replace_inv l a n l' : serial_inv total budget l PNone → 0 <= n < 2 ^ 62 →
  reserve_replace l a n = (true, l') → serial_inv total budget l' (PReplace a n (steady_of l a)).
Proof.
  intros [Hex [Htot Hbud] Hst Hsu _] Hn. unfold reserve_replace.
  destruct (exact_bounds l a Hex) as [Hb1 Hb2].
  unfold steady_of, surge_of in *. destruct (entries_ l !! a) as [e|] eqn:He; [|done].
  do 3 (split_test; [done|]). bools. intros [= <-].
  rewrite !u64_small in * by (rewrite ?u64_small; lia).
  split; cbn [workers_total_ surge_workers_ steady_used_ surge_used_]; try done; try lia.
  - apply exact_update; unfold steady_of, surge_of; rewrite ?He; cbn; try done; lia.
  - unfold steady_of, surge_of. cbn [entries_]. rewrite lookup_insert_eq. cbn. lia.
Qed.

Lemma commit_replace_inv l a n m : serial_inv total budget l (PReplace a n m) →
  serial_inv total budget (commit_replace l a n m) PNone.
Proof.
  intros [Hex Htot Hst Hsu (-> & Hn & Hp1 & Hp2)]. destruct (exact_bounds l a Hex) as [Hb1 Hb2].
  unfold commit_replace. destruct (entry_of_values l a) as [_ ->].
  rewrite !u64_small by (rewrite ?u64_small; lia).
  split; cbn [workers_total_ surge_workers_ steady_used_ surge_used_]; try done; try lia.
  apply exact_update; cbn; try done; lia.
Qed.

Lemma abort_inv l a n r p : serial_inv total budget l p →
  match r with true => ∃ m, p = PReplace a n m | false => p = PFresh a n end →
  serial_inv total budget (abort_reserve l a n r) PNone.
Proof.
  intros [Hex Htot Hst Hsu Hp] Hpend. destruct (exact_bounds l a Hex) as [Hb1 Hb2].
  assert (0 <= n ∧ (if r then n <= surge_of l a else n <= steady_of l a)) as [Hn Hle].
  { destruct r; [destruct Hpend as [m ->]; lia|subst p; lia]. }
  unfold abort_reserve. destruct (entries_ l !! a) as [e|] eqn:He; [|by split].
  assert (steady_of l a = steady e ∧ surge_of l a = surge e) as [Es Eg].
  { unfold steady_of, surge_of. by rewrite He. }
  destruct r; rewrite !u64_small by lia;
    (split; cbn [workers_total_ surge_workers_ steady_used_ surge_used_]; try done; try lia);
    apply exact_update; cbn; try done; lia.
Qed.

Lemma release_inv l p a d : serial_inv total budget l p → 0 <= d <= surge_of l a - warming p a →
  serial_inv total budget (release_drained l a d) p.
Proof.
  intros [Hex Htot Hst Hsu Hp] Hd. unfold release_drained.
  destruct (entries_ l !! a) as [e|] eqn:He; [|by split].
  destruct (exact_bounds l a Hex) as [Hb1 Hb2].
  assert (steady_of l a = steady e ∧ surge_of l a = surge e) as [Es Eg].
  { unfold steady_of, surge_of. by rewrite He. }
  assert (0 <= warming p a) by (destruct p; cbn; [lia|lia|]; case_bool_decide; lia).
  rewrite !u64_small by lia.
  split; cbn [workers_total_ surge_workers_ steady_used_ surge_used_]; try done; try lia.
  - apply exact_update; cbn; try done; lia.
  - destruct p as [|b n|b n m]; [done| |]; rewrite ?settle_steady, ?settle_surge.
    + case_bool_decide; [subst b; cbn; lia|done].
    + cbn [warming] in Hd. destruct Hp as (-> & Hn & Hp1 & Hp2).
      case_bool_decide as Hab; [subst b; cbn|]; case_bool_decide; try done;
        repeat split; try lia; done || (unfold steady_of, surge_of in *; cbn [entries_] in *; lia).
Qed.
End serial_steps.

Lemma serial_invariant total budget l p : 0 <= total < 2 ^ 62 → 0 <= budget < 2 ^ 62 →
  serial total budget l p → serial_inv total budget l p.
Proof.
  intros Ht Hb. induction 1.
  - split; cbn; done || lia.
  - by eapply fresh_inv.
  - by eapply replace_inv.
  - destruct IHserial. by split.
  - by apply commit_replace_inv.
  - by eapply abort_inv.
  - eapply abort_inv; [done|done|done|by eexists].
  - by apply release_inv.
Qed.

(** ** Properties *)

(** C17. The counters are the books: after any sequence of calls in which a
    replace names the serving pool's size, [steady_used] and [surge_used] are
    the sums of the per-application counts, so every held worker is counted
    once, in one category. *)
Theorem ledger_accounting total budget l : ledger_run total budget l →
  steady_used_ l = u64 (msum steady (entries_ l)) ∧
  surge_used_ l = u64 (msum surge (entries_ l)).
Proof. intros Hr. by destruct (run_accounts _ _ _ Hr). Qed.

Definition app_a : bytes := bs "a".
Definition app_b : bytes := bs "b".

Lemma ledger_accounting_witness :
  let l := fold_left apply_op [ReserveFresh app_a 3; ReserveReplace app_a 2; CommitReplace app_a 2 3;
                               ReleaseDrained app_a 3] (new_Ledger 4 3) in
  steady_used_ l = u64 (msum steady (entries_ l)) ∧
  surge_used_ l = u64 (msum surge (entries_ l)).
Proof.
  cbn [fold_left]. apply (ledger_accounting 4 3).
  repeat (apply run_step; [|first [exact I|split; [vm_compute; reflexivity|lia]]]).
  apply run_init.
Defined.

(** The ceiling: when deploys are serialised and pools leave service only
    by being replaced, serving workers never exceed [workers_total], overlap
    workers never exceed the surge budget, and no counter wraps around. *)
Theorem ledger_ceiling total budget l p : 0 <= total < 2 ^ 62 → 0 <= budget < 2 ^ 62 →
  serial total budget l p →
  msum steady (entries_ l) <= total ∧ msum surge (entries_ l) <= budget ∧
  steady_used_ l = msum steady (entries_ l) ∧ surge_used_ l = msum surge (entries_ l).
Proof.
  intros Ht Hb Hs. destruct (serial_invariant _ _ _ _ Ht Hb Hs) as [[<- <- _] _ Hst Hsu _]. done.
Qed.

Lemma ledger_ceiling_witness :
  let l := commit_replace (reserve_replace (reserve_fresh (new_Ledger 4 3) app_a 3).2 app_a 2).2
             app_a 2 3 in
  msum steady (entries_ l) <= 4 ∧ msum surge (entries_ l) <= 3 ∧
  steady_used_ l = msum steady (entries_ l) ∧ surge_used_ l = msum surge (entries_ l).
Proof.
  intros l. apply (ledger_ceiling 4 3 l PNone); [lia|lia|].
  apply serial_commit_replace.
  apply (serial_replace 4 3 (reserve_fresh (new_Ledger 4 3) app_a 3).2 app_a 2);
    [|lia|vm_compute; reflexivity].
  apply (serial_commit_fresh 4 3 _ app_a 3).
  apply (serial_fresh 4 3 (new_Ledger 4 3) app_a 3); [apply serial_init|lia|vm_compute; reflexivity].
Defined.

(** The ceiling is not an invariant of the object: after a retire, a fresh
    deploy of another application is admitted while the retired workers still
    drain, and two overlapping replacements each admitted by their reserve
    commit to more serving workers than [workers_total]. Both sequences follow
    the documented call order. *)
Theorem ledger_ceiling_not_invariant :
  (∃ l, ledger_run 4 0 l ∧ holds l app_b = true ∧
        workers_total_ l + surge_workers_ l < steady_used_ l + surge_used_ l) ∧
  (∃ l, ledger_run 10 20 l ∧ workers_total_ l < steady_used_ l).
Proof.
  split.
  - exists (fold_left apply_op [ReserveFresh app_a 4; CommitFresh app_a; BeginRetire app_a 4;
                                ReserveFresh app_b 4; CommitFresh app_b] (new_Ledger 4 0)).
    split; [|split; vm_compute; reflexivity]. cbn [fold_left].
    repeat (apply run_step; [|exact I]). apply run_init.
  - exists (fold_left apply_op [ReserveFresh app_a 4; ReserveFresh app_b 4; ReserveReplace app_a 6;
                                ReserveReplace app_b 6; CommitReplace app_a 6 4;
                                CommitReplace app_b 6 4] (new_Ledger 10 20)).
    split; [|vm_compute; reflexivity]. cbn [fold_left].
    repeat (apply run_step; [|first [exact I|split; [vm_compute; reflexivity|lia]]]).
    apply run_init.
Qed.
