(* ===== verification/Jansson.v ===== *)
(** * Jansson: the vendored JSON parser (vendor/jansson/src)

    [json_loadb] of load.c with everything it runs through: the byte stream
    with its UTF-8 check and one-character push-back, the lexer, the recursive
    descent parser with its depth limit, the UTF-8 coder of utf.c, and objects
    as insertion-ordered member lists (hashtable.c keeps that order and
    replaces the value of a repeated key in place).

    Of [json_error_t] the error code is kept, and that the first error wins;
    line, column, position and message text are not. Allocation does not fail.
    [strtod] is the C library's: it is the parameter [jsonp_strtod], [None]
    where it overflows, and [real] is the type of its results.

    [json_error_t]'s code and the lexer state travel together in [lex]. Loops
    take their fuel from the number of bytes the stream can still deliver. *)
From Stdlib Require Import ZArith Lia.
From S2P Require Import Prelude.
Local Open Scope Z_scope.
Local Set Warnings "-register-all,-clear-no-such-hyp".

(** ** Characters *)

Definition in_range (lo hi : Z) (c : byte) : bool := (lo <=? u8 c) && (u8 c <=? hi).
Definition is_char (code : Z) (c : byte) : bool := u8 c =? code.

Definition l_isupper : byte → bool := in_range 65 90.
Definition l_islower : byte → bool := in_range 97 122.
Definition l_isalpha (c : byte) : bool := l_isupper c || l_islower c.
Definition l_isdigit : byte → bool := in_range 48 57.
Definition l_isxdigit (c : byte) : bool := l_isdigit c || in_range 65 70 c || in_range 97 102 c.
Definition l_isspace (c : byte) : bool :=
  is_char 32 c || is_char 9 c || is_char 10 c || is_char 13 c.

Definition QUOTE : byte := Byte.x22.
Definition BACKSLASH : byte := Byte.x5c.

(** ** utf.c *)

Definition utf8_encode (codepoint : Z) : option bytes :=
  if codepoint <? 0 then None
  else if codepoint <? 0x80 then Some [to_u8 codepoint]
  else if codepoint <? 0x800 then
    Some [to_u8 (0xC0 + Z.shiftr (Z.land codepoint 0x7C0) 6);
          to_u8 (0x80 + Z.land codepoint 0x03F)]
  else if codepoint <? 0x10000 then
    Some [to_u8 (0xE0 + Z.shiftr (Z.land codepoint 0xF000) 12);
          to_u8 (0x80 + Z.shiftr (Z.land codepoint 0x0FC0) 6);
          to_u8 (0x80 + Z.land codepoint 0x003F)]
  else if codepoint <=? 0x10FFFF then
    Some [to_u8 (0xF0 + Z.shiftr (Z.land codepoint 0x1C0000) 18);
          to_u8 (0x80 + Z.shiftr (Z.land codepoint 0x03F000) 12);
          to_u8 (0x80 + Z.shiftr (Z.land codepoint 0x000FC0) 6);
          to_u8 (0x80 + Z.land codepoint 0x00003F)]
  else None.

Definition utf8_check_first (b : byte) : Z :=
  let u := u8 b in
  if u <? 0x80 then 1
  else if u <=? 0xBF then 0
  else if (u =? 0xC0) || (u =? 0xC1) then 0
  else if u <=? 0xDF then 2
  else if u <=? 0xEF then 3
  else if u <=? 0xF4 then 4
  else 0.

(** The continuation loop of [utf8_check_full]: the code point, or [None] at a
    byte that is not a continuation byte. *)
Fixpoint utf8_continue (value : Z) (rest : bytes) : option Z :=
  match rest with
  | [] => Some value
  | b :: rest' =>
      let u := u8 b in
      if (u <? 0x80) || (0xBF <? u) then None
      else utf8_continue (Z.shiftl value 6 + Z.land u 0x3F) rest'
  end.

(** [utf8_check_full(buffer, size, &codepoint)] on the [size] bytes of
    [buffer]. *)
Definition utf8_check_full (buffer : bytes) : option Z :=
  let size := zlen buffer in
  let first :=
    if size =? 2 then Some (Z.land (byte_at buffer 0) 0x1F)
    else if size =? 3 then Some (Z.land (byte_at buffer 0) 0xF)
    else if size =? 4 then Some (Z.land (byte_at buffer 0) 0x7)
    else None in
  match first with
  | None => None
  | Some value =>
      match utf8_continue value (zdrop 1 buffer) with
      | None => None
      | Some value =>
          if 0x10FFFF <? value then None
          else if (0xD800 <=? value) && (value <=? 0xDFFF) then None
          else if ((size =? 2) && (value <? 0x80)) || ((size =? 3) && (value <? 0x800))
                  || ((size =? 4) && (value <? 0x10000)) then None
          else Some value
      end
  end.

(** [utf8_check_string]; every iteration consumes at least one byte. *)
Fixpoint utf8_check_loop (fuel : nat) (s : bytes) : bool :=
  match fuel, s with
  | _, [] => true
  | O, _ => false
  | S fuel', b :: s' =>
      let count := utf8_check_first b in
      if count =? 0 then false
      else if 1 <? count then
        if zlen s <? count then false
        else match utf8_check_full (ztake count s) with
             | None => false
             | Some _ => utf8_check_loop fuel' (zdrop count s)
             end
      else utf8_check_loop fuel' s'
  end.

Definition utf8_check_string (s : bytes) : bool := utf8_check_loop (length s) s.

(** ** Errors *)

Inductive json_error_code :=
| json_error_stack_overflow
| json_error_invalid_utf8
| json_error_premature_end_of_input
| json_error_end_of_input_expected
| json_error_invalid_syntax
| json_error_null_character
| json_error_null_byte_in_key
| json_error_duplicate_key
| json_error_numeric_overflow.

#[export] Instance json_error_code_eq_dec : EqDecision json_error_code.
Proof. solve_decision. Defined.

(** ** Values *)

Inductive json (real : Type) : Type :=
| JObject (members : list (bytes * json real))
| JArray (elements : list (json real))
| JString (value : bytes)
| JInteger (value : Z)
| JReal (value : real)
| JTrue
| JFalse
| JNull.

Arguments JObject {real} _.
Arguments JArray {real} _.
Arguments JString {real} _.
Arguments JInteger {real} _.
Arguments JReal {real} _.
Arguments JTrue {real}.
Arguments JFalse {real}.
Arguments JNull {real}.

Section objects.
Context {real : Type}.

Fixpoint object_getn (members : list (bytes * json real)) (key : bytes) : option (json real) :=
  match members with
  | [] => None
  | (k, v) :: rest => if bool_decide (k = key) then Some v else object_getn rest key
  end.

(** [hashtable_set]: replaces in place, or appends. *)
Fixpoint object_setn (members : list (bytes * json real)) (key : bytes) (value : json real)
    : list (bytes * json real) :=
  match members with
  | [] => [(key, value)]
  | (k, v) :: rest =>
      if bool_decide (k = key) then (k, value) :: rest else (k, v) :: object_setn rest key value
  end.
End objects.

(** ** The stream *)

Inductive stream_state := STREAM_STATE_OK | STREAM_STATE_EOF | STREAM_STATE_ERROR.

(** [data] is what [get] has not returned yet; [buffer] holds the current
    UTF-8 sequence, its terminating NUL implicit. *)
Record stream_t := mkStream {
  data : bytes;
  buffer : bytes;
  buffer_pos : nat;
  state : stream_state
}.

(** What [stream_get] returns: a character or a stream state. *)
Inductive schar := Char (c : byte) | SEof | SError.

(** [stream->buffer[stream->buffer_pos]] is the terminator. *)
Definition buffer_empty (s : stream_t) : bool :=
  match buffer s !! buffer_pos s with None => true | Some c => u8 c =? 0 end.

(** The bytes of a multi-byte sequence; [get] past the end yields EOF, whose
    low byte is 0xFF. *)
Definition get_byte (d : bytes) : byte * bytes :=
  match d with [] => (Byte.xff, []) | c :: d' => (c, d') end.

Fixpoint get_bytes (n : nat) (d : bytes) : bytes * bytes :=
  match n with
  | O => ([], d)
  | S n' =>
      let '(c, d1) := get_byte d in
      let '(cs, d2) := get_bytes n' d1 in (c :: cs, d2)
  end.

(** Fills the buffer with the next character: the new stream or a state. *)
Definition stream_fill (s : stream_t) : stream_t + stream_t :=
  match data s with
  | [] => inr (mkStream [] (buffer s) (buffer_pos s) STREAM_STATE_EOF)
  | c :: rest =>
      if 0x80 <=? u8 c then
        let count := utf8_check_first c in
        if count =? 0 then inr (mkStream rest [c] 0 STREAM_STATE_ERROR)
        else
          let '(cs, rest') := get_bytes (Z.to_nat (count - 1)) rest in
          match utf8_check_full (c :: cs) with
          | None => inr (mkStream rest' (c :: cs) 0 STREAM_STATE_ERROR)
          | Some _ => inl (mkStream rest' (c :: cs) 0 STREAM_STATE_OK)
          end
      else inl (mkStream rest [c] 0 STREAM_STATE_OK)
  end.

(** Delivers the character at [buffer_pos]. *)
Definition stream_take (s : stream_t) : schar * stream_t :=
  match buffer s !! buffer_pos s with
  | Some c => (Char c, mkStream (data s) (buffer s) (S (buffer_pos s)) (state s))
  | None => (SError, s)
  end.

(** [stream_get]: the character or state, the stream, and whether the
    "unable to decode byte" error is reported. *)
Definition stream_get (s : stream_t) : schar * stream_t * bool :=
  match state s with
  | STREAM_STATE_EOF => (SEof, s, false)
  | STREAM_STATE_ERROR => (SError, s, false)
  | STREAM_STATE_OK =>
      if buffer_empty s then
        match stream_fill s with
        | inr s' =>
            match state s' with
            | STREAM_STATE_ERROR => (SError, s', true)
            | _ => (SEof, s', false)
            end
        | inl s' => (stream_take s', false)
        end
      else (stream_take s, false)
  end.

Definition stream_unget (s : stream_t) (c : schar) : stream_t :=
  match c with
  | Char _ => mkStream (data s) (buffer s) (pred (buffer_pos s)) (state s)
  | _ => s
  end.

(** How many characters the stream can still deliver, at most. *)
Definition avail (s : stream_t) : nat :=
  match state s with
  | STREAM_STATE_OK => length (data s) + (length (buffer s) - buffer_pos s)
  | _ => O
  end.

(** ** The lexer *)

Record load_flags := mkFlags {
  JSON_REJECT_DUPLICATES : bool;
  JSON_DISABLE_EOF_CHECK : bool;
  JSON_DECODE_ANY : bool;
  JSON_DECODE_INT_AS_REAL : bool;
  JSON_ALLOW_NUL : bool
}.

Class Strtod (real : Type) := jsonp_strtod : bytes → option real.

Inductive token_t (real : Type) : Type :=
| TOKEN_INVALID
| TOKEN_EOF
| TOKEN_STRING (value : bytes)
| TOKEN_INTEGER (value : Z)
| TOKEN_REAL (value : real)
| TOKEN_TRUE
| TOKEN_FALSE
| TOKEN_NULL
| TOKEN_CHAR (c : byte).

Arguments TOKEN_INVALID {real}.
Arguments TOKEN_EOF {real}.
Arguments TOKEN_STRING {real} _.
Arguments TOKEN_INTEGER {real} _.
Arguments TOKEN_REAL {real} _.
Arguments TOKEN_TRUE {real}.
Arguments TOKEN_FALSE {real}.
Arguments TOKEN_NULL {real}.
Arguments TOKEN_CHAR {real} _.

Record lex_t (real : Type) := mkLex {
  stream : stream_t;
  saved_text : bytes;
  depth : Z;
  token : token_t real;
  error : option json_error_code
}.

Arguments mkLex {real} _ _ _ _ _.
Arguments stream {real} _.
Arguments saved_text {real} _.
Arguments depth {real} _.
Arguments token {real} _.
Arguments error {real} _.

Section lexer.
Context {real : Type} `{Strtod real}.
Implicit Types lx : lex_t real.

Definition with_stream lx (s : stream_t) : lex_t real :=
  mkLex s (saved_text lx) (depth lx) (token lx) (error lx).
Definition with_saved lx (t : bytes) : lex_t real :=
  mkLex (stream lx) t (depth lx) (token lx) (error lx).
Definition with_token lx (t : token_t real) : lex_t real :=
  mkLex (stream lx) (saved_text lx) (depth lx) t (error lx).
Definition with_depth lx (d : Z) : lex_t real :=
  mkLex (stream lx) (saved_text lx) d (token lx) (error lx).

(** [error_set]: the first error wins; a syntax error with no saved text is a
    premature end of input. *)
Definition error_set lx (code : json_error_code) : lex_t real :=
  match error lx with
  | Some _ => lx
  | None =>
      let no_text := match saved_text lx with [] => true | c :: _ => u8 c =? 0 end in
      mkLex (stream lx) (saved_text lx) (depth lx) (token lx)
        (Some (if no_text && bool_decide (code = json_error_invalid_syntax)
               then json_error_premature_end_of_input else code))
  end.

Definition lex_get lx : schar * lex_t real :=
  let '(c, s, bad) := stream_get (stream lx) in
  let lx1 := with_stream lx s in
  (c, if bad then error_set lx1 json_error_invalid_utf8 else lx1).

Definition lex_save lx (c : byte) : lex_t real := with_saved lx (saved_text lx ++ [c]).

Definition lex_get_save lx : schar * lex_t real :=
  let '(c, lx1) := lex_get lx in
  (c, match c with Char b => lex_save lx1 b | _ => lx1 end).

Definition lex_unget lx (c : schar) : lex_t real := with_stream lx (stream_unget (stream lx) c).

Definition lex_unget_unsave lx (c : schar) : lex_t real :=
  match c with
  | Char _ =>
      with_saved (with_stream lx (stream_unget (stream lx) c)) (removelast (saved_text lx))
  | _ => lx
  end.

(** The bytes up to the terminator. *)
Fixpoint until_nul (l : bytes) : bytes :=
  match l with [] => [] | c :: l' => if u8 c =? 0 then [] else c :: until_nul l' end.

Definition lex_save_cached lx : lex_t real :=
  let s := stream lx in
  let rest := until_nul (drop (buffer_pos s) (buffer s)) in
  with_saved
    (with_stream lx (mkStream (data s) (buffer s) (buffer_pos s + length rest) (state s)))
    (saved_text lx ++ rest).

(** [do c = get(); while (p(c))], the characters saved or not. *)
Fixpoint get_while (fuel : nat) (save : bool) (p : byte → bool) lx : schar * lex_t real :=
  match fuel with
  | O => (SEof, lx)
  | S fuel' =>
      let '(c, lx1) := if save then lex_get_save lx else lex_get lx in
      match c with
      | Char b => if p b then get_while fuel' save p lx1 else (c, lx1)
      | _ => (c, lx1)
      end
  end.

Definition lex_get_while (save : bool) (p : byte → bool) lx : schar * lex_t real :=
  get_while (S (avail (stream lx))) save p lx.

(** *** Strings *)

(** The loop over the four digits of a Unicode escape; [None] for "invalid
    escape". *)
Fixpoint scan_hex (n : nat) (c : schar) lx : option schar * lex_t real :=
  match n with
  | O => (Some c, lx)
  | S n' =>
      match c with
      | Char b =>
          if l_isxdigit b then let '(c', lx1) := lex_get_save lx in scan_hex n' c' lx1
          else (None, error_set lx json_error_invalid_syntax)
      | _ => (None, error_set lx json_error_invalid_syntax)
      end
  end.

Definition is_short_escape (b : byte) : bool :=
  is_char 34 b || is_char 92 b || is_char 47 b || is_char 98 b || is_char 102 b
  || is_char 110 b || is_char 114 b || is_char 116 b.

(** What follows a backslash: the character after the escape, or [None]. *)
Definition scan_escape lx : option schar * lex_t real :=
  let '(c, lx1) := lex_get_save lx in
  match c with
  | Char b =>
      if is_char 117 b then let '(c', lx2) := lex_get_save lx1 in scan_hex 4 c' lx2
      else if is_short_escape b then let '(c', lx2) := lex_get_save lx1 in (Some c', lx2)
      else (None, error_set lx1 json_error_invalid_syntax)
  | _ => (None, error_set lx1 json_error_invalid_syntax)
  end.

(** The first loop of [lex_scan_string]: [true] at the closing quote. *)
Fixpoint scan_string_loop (fuel : nat) (c : schar) lx : bool * lex_t real :=
  match fuel with
  | O => (false, lx)
  | S fuel' =>
      match c with
      | SError => (false, lx)
      | SEof => (false, error_set lx json_error_premature_end_of_input)
      | Char b =>
          if is_char 34 b then (true, lx)
          else if u8 b <=? 0x1F then
            (false, error_set (lex_unget_unsave lx c) json_error_invalid_syntax)
          else if is_char 92 b then
            match scan_escape lx with
            | (None, lx1) => (false, lx1)
            | (Some c', lx1) => scan_string_loop fuel' c' lx1
            end
          else let '(c', lx1) := lex_get_save lx in scan_string_loop fuel' c' lx1
      end
  end.

(** [decode_unicode_escape] on the characters after the ['u']; reading past
    the text meets its NUL, which is no digit. *)
Fixpoint decode_hex (n : nat) (value : Z) (str : bytes) : Z :=
  match n with
  | O => value
  | S n' =>
      match str with
      | [] => -1
      | c :: str' =>
          let value := Z.shiftl value 4 in
          if l_isdigit c then decode_hex n' (value + (u8 c - 48)) str'
          else if l_islower c then decode_hex n' (value + (u8 c - 97 + 10)) str'
          else if l_isupper c then decode_hex n' (value + (u8 c - 65 + 10)) str'
          else -1
      end
  end.

Definition decode_unicode_escape (str : bytes) : Z := decode_hex 4 0 str.

Definition high_surrogate (v : Z) : bool := (0xD800 <=? v) && (v <=? 0xDBFF).
Definition low_surrogate (v : Z) : bool := (0xDC00 <=? v) && (v <=? 0xDFFF).

(** A Unicode escape at [p], which points to the ['u']: the code point and the
    text after it, or [None] for one of the "invalid Unicode" errors. *)
Definition decode_escape (p : bytes) : option (Z * bytes) :=
  let value := decode_unicode_escape (zdrop 1 p) in
  if value <? 0 then None
  else
    let p := zdrop 5 p in
    if high_surrogate value then
      match p with
      | b :: u :: _ =>
          if is_char 92 b && is_char 117 u then
            let p := zdrop 1 p in
            let value2 := decode_unicode_escape (zdrop 1 p) in
            if value2 <? 0 then None
            else if low_surrogate value2 then
              Some (Z.shiftl (value - 0xD800) 10 + (value2 - 0xDC00) + 0x10000, zdrop 5 p)
            else None
          else None
      | _ => None
      end
    else if low_surrogate value then None
    else Some (value, p).

Definition short_escape (c : byte) : byte :=
  if is_char 98 c then Byte.x08 else if is_char 102 c then Byte.x0c
  else if is_char 110 c then Byte.x0a else if is_char 114 c then Byte.x0d
  else if is_char 116 c then Byte.x09 else c.

(** The second loop of [lex_scan_string]: decodes the saved text after the
    opening quote up to the closing one. The [assert(0)] of the source, on an
    escape or a code point the first loop has excluded, is [None]. *)
Fixpoint decode_string (fuel : nat) (p t : bytes) : option bytes :=
  match fuel with
  | O => None
  | S fuel' =>
      match p with
      | [] => None
      | c :: p' =>
          if is_char 34 c then Some t
          else if is_char 92 c then
            match p' with
            | [] => None
            | e :: p'' =>
                if is_char 117 e then
                  match decode_escape p' with
                  | None => None
                  | Some (value, rest) =>
                      match utf8_encode value with
                      | None => None
                      | Some enc => decode_string fuel' rest (t ++ enc)
                      end
                  end
                else if is_short_escape e then decode_string fuel' p'' (t ++ [short_escape e])
                else None
            end
          else decode_string fuel' p' (t ++ [c])
      end
  end.

Definition lex_scan_string lx : lex_t real :=
  let lx := with_token lx TOKEN_INVALID in
  let '(c, lx1) := lex_get_save lx in
  match scan_string_loop (S (S (avail (stream lx)))) c lx1 with
  | (false, lx2) => lx2
  | (true, lx2) =>
      match decode_string (S (length (saved_text lx2))) (zdrop 1 (saved_text lx2)) [] with
      | None => error_set lx2 json_error_invalid_syntax
      | Some value => with_token lx2 (TOKEN_STRING value)
      end
  end.

(** *** Numbers *)

Fixpoint digits_value (acc : Z) (l : bytes) : Z :=
  match l with [] => acc | c :: l' => digits_value (acc * 10 + (u8 c - 48)) l' end.

(** [strtoll(text, &end, 10)] on an optional minus sign and digits: [None] when
    it reports [ERANGE]. *)
Definition json_strtoint (text : bytes) : option Z :=
  let value :=
    match text with
    | c :: digits => if is_char 45 c then - digits_value 0 digits else digits_value 0 text
    | [] => 0
    end in
  if (- 2 ^ 63 <=? value) && (value <? 2 ^ 63) then Some value else None.

Definition schar_is (p : byte → bool) (c : schar) : bool :=
  match c with Char b => p b | _ => false end.

(** The integer part; [None] for [goto out]. *)
Definition scan_int (c : schar) lx : option schar * lex_t real :=
  if schar_is (is_char 48) c then
    let '(c, lx1) := lex_get_save lx in
    if schar_is l_isdigit c then (None, lex_unget_unsave lx1 c) else (Some c, lx1)
  else if schar_is l_isdigit c then
    let '(c, lx1) := lex_get_while true l_isdigit lx in (Some c, lx1)
  else (None, lex_unget_unsave lx c).

Definition scan_fraction (c : schar) lx : option schar * lex_t real :=
  if schar_is (is_char 46) c then
    let '(c, lx1) := lex_get lx in
    match c with
    | Char b =>
        if l_isdigit b then
          let '(c, lx2) := lex_get_while true l_isdigit (lex_save lx1 b) in (Some c, lx2)
        else (None, lex_unget lx1 c)
    | _ => (None, lex_unget lx1 c)
    end
  else (Some c, lx).

Definition scan_exponent (c : schar) lx : option schar * lex_t real :=
  if schar_is (λ b, is_char 69 b || is_char 101 b) c then
    let '(c, lx1) := lex_get_save lx in
    let '(c, lx2) :=
      if schar_is (λ b, is_char 43 b || is_char 45 b) c then lex_get_save lx1 else (c, lx1) in
    if schar_is l_isdigit c then
      let '(c, lx3) := lex_get_while true l_isdigit lx2 in (Some c, lx3)
    else (None, lex_unget_unsave lx2 c)
  else (Some c, lx).

Definition lex_scan_number (flags : load_flags) lx (c : schar) : lex_t real :=
  let lx := with_token lx TOKEN_INVALID in
  let '(c, lx) := if schar_is (is_char 45) c then lex_get_save lx else (c, lx) in
  match scan_int c lx with
  | (None, lx) => lx
  | (Some c, lx) =>
      if negb (JSON_DECODE_INT_AS_REAL flags)
         && negb (schar_is (λ b, is_char 46 b || is_char 69 b || is_char 101 b) c) then
        let lx := lex_unget_unsave lx c in
        match json_strtoint (saved_text lx) with
        | None => error_set lx json_error_numeric_overflow
        | Some intval => with_token lx (TOKEN_INTEGER intval)
        end
      else
        match scan_fraction c lx with
        | (None, lx) => lx
        | (Some c, lx) =>
            match scan_exponent c lx with
            | (None, lx) => lx
            | (Some c, lx) =>
                let lx := lex_unget_unsave lx c in
                match jsonp_strtod (saved_text lx) with
                | None => error_set lx json_error_numeric_overflow
                | Some value => with_token lx (TOKEN_REAL value)
                end
            end
        end
  end.

Definition is_punct (b : byte) : bool :=
  is_char 123 b || is_char 125 b || is_char 91 b || is_char 93 b || is_char 58 b || is_char 44 b.

Definition lex_scan (flags : load_flags) lx : lex_t real :=
  let '(c, lx) := lex_get_while false l_isspace (with_saved lx []) in
  match c with
  | SEof => with_token lx TOKEN_EOF
  | SError => with_token lx TOKEN_INVALID
  | Char b =>
      let lx := lex_save lx b in
      if is_punct b then with_token lx (TOKEN_CHAR b)
      else if is_char 34 b then lex_scan_string lx
      else if l_isdigit b || is_char 45 b then lex_scan_number flags lx c
      else if l_isalpha b then
        let '(c, lx) := lex_get_while true l_isalpha lx in
        let lx := lex_unget_unsave lx c in
        with_token lx
          (if bool_decide (saved_text lx = bs "true") then TOKEN_TRUE
           else if bool_decide (saved_text lx = bs "false") then TOKEN_FALSE
           else if bool_decide (saved_text lx = bs "null") then TOKEN_NULL
           else TOKEN_INVALID)
      else with_token (lex_save_cached lx) TOKEN_INVALID
  end.

(** ** The parser *)

Definition JSON_PARSER_MAX_DEPTH : Z := 64.

Definition token_char lx : option byte :=
  match token lx with TOKEN_CHAR c => Some c | _ => None end.

Definition token_is (code : Z) lx : bool :=
  match token lx with TOKEN_CHAR c => is_char code c | _ => false end.

(** The result of a parse function: the value or [NULL], and the lexer. *)
Definition parsed : Type := option (json real) * lex_t real.

Definition parse_failure (lx : lex_t real) : parsed := (None, lx).

(** [parse_value], with the loops of [parse_object] and [parse_array] as
    parameters. *)
Definition value_step (members elements : lex_t real → option parsed) (flags : load_flags) lx
    : option parsed :=
  let lx := with_depth lx (depth lx + 1) in
  if JSON_PARSER_MAX_DEPTH <? depth lx then
    Some (parse_failure (error_set lx json_error_stack_overflow))
  else
    let done (r : parsed) : parsed :=
      match r with
      | (Some v, lx) => (Some v, with_depth lx (depth lx - 1))
      | (None, lx) => (None, lx)
      end in
    match token lx with
    | TOKEN_STRING value =>
        if negb (JSON_ALLOW_NUL flags) && bool_decide (Byte.x00 ∈ value) then
          Some (parse_failure (error_set lx json_error_null_character))
        else Some (done (Some (JString value), lx))
    | TOKEN_INTEGER z => Some (done (Some (JInteger z), lx))
    | TOKEN_REAL r => Some (done (Some (JReal r), lx))
    | TOKEN_TRUE => Some (done (Some JTrue, lx))
    | TOKEN_FALSE => Some (done (Some JFalse, lx))
    | TOKEN_NULL => Some (done (Some JNull, lx))
    | TOKEN_CHAR c =>
        if is_char 123 c then
          let lx := lex_scan flags lx in
          if token_is 125 lx then Some (done (Some (JObject []), lx))
          else done <$> members lx
        else if is_char 91 c then
          let lx := lex_scan flags lx in
          if token_is 93 lx then Some (done (Some (JArray []), lx))
          else done <$> elements lx
        else Some (parse_failure (error_set lx json_error_invalid_syntax))
    | _ => Some (parse_failure (error_set lx json_error_invalid_syntax))
    end.

(** One iteration of the loop of [parse_object]. *)
Definition members_step (value : lex_t real → option parsed)
    (members : list (bytes * json real) → lex_t real → option parsed)
    (flags : load_flags) (object : list (bytes * json real)) lx : option parsed :=
  match token lx with
  | TOKEN_STRING key =>
      if bool_decide (Byte.x00 ∈ key) then
        Some (parse_failure (error_set lx json_error_null_byte_in_key))
      else if JSON_REJECT_DUPLICATES flags && bool_decide (is_Some (object_getn object key)) then
        Some (parse_failure (error_set lx json_error_duplicate_key))
      else
        let lx := lex_scan flags lx in
        if negb (token_is 58 lx) then
          Some (parse_failure (error_set lx json_error_invalid_syntax))
        else
          match value (lex_scan flags lx) with
          | None => None
          | Some (None, lx) => Some (parse_failure lx)
          | Some (Some v, lx) =>
              let object := object_setn object key v in
              let lx := lex_scan flags lx in
              if token_is 44 lx then members object (lex_scan flags lx)
              else if token_is 125 lx then Some (Some (JObject object), lx)
              else Some (parse_failure (error_set lx json_error_invalid_syntax))
          end
  | _ => Some (parse_failure (error_set lx json_error_invalid_syntax))
  end.

(** One iteration of the loop of [parse_array]. *)
Definition elements_step (value : lex_t real → option parsed)
    (elements : list (json real) → lex_t real → option parsed)
    (flags : load_flags) (array : list (json real)) lx : option parsed :=
  match token lx with
  | TOKEN_EOF => Some (parse_failure (error_set lx json_error_invalid_syntax))
  | _ =>
      match value lx with
      | None => None
      | Some (None, lx) => Some (parse_failure lx)
      | Some (Some elem, lx) =>
          let array := array ++ [elem] in
          let lx := lex_scan flags lx in
          if token_is 44 lx then elements array (lex_scan flags lx)
          else if token_is 93 lx then Some (Some (JArray array), lx)
          else Some (parse_failure (error_set lx json_error_invalid_syntax))
      end
  end.

(** The recursion; [None] means out of fuel. *)
Fixpoint parse_value (fuel : nat) (flags : load_flags) lx : option parsed :=
  match fuel with
  | O => None
  | S fuel' =>
      value_step (parse_members fuel' flags []) (parse_elements fuel' flags []) flags lx
  end
with parse_members (fuel : nat) (flags : load_flags) (object : list (bytes * json real)) lx
    : option parsed :=
  match fuel with
  | O => None
  | S fuel' => members_step (parse_value fuel' flags) (parse_members fuel' flags) flags object lx
  end
with parse_elements (fuel : nat) (flags : load_flags) (array : list (json real)) lx
    : option parsed :=
  match fuel with
  | O => None
  | S fuel' => elements_step (parse_value fuel' flags) (parse_elements fuel' flags) flags array lx
  end.

Definition parse_json (fuel : nat) (flags : load_flags) lx : option parsed :=
  let lx := lex_scan flags (with_depth lx 0) in
  if negb (JSON_DECODE_ANY flags) && negb (token_is 91 lx) && negb (token_is 123 lx) then
    Some (parse_failure (error_set lx json_error_invalid_syntax))
  else
    match parse_value fuel flags lx with
    | None => None
    | Some (None, lx) => Some (parse_failure lx)
    | Some (Some result, lx) =>
        if JSON_DISABLE_EOF_CHECK flags then Some (Some result, lx)
        else
          let lx := lex_scan flags lx in
          match token lx with
          | TOKEN_EOF => Some (Some result, lx)
          | _ => Some (parse_failure (error_set lx json_error_end_of_input_expected))
          end
    end.

Definition lex_init (input : bytes) : lex_t real :=
  mkLex (mkStream input [] 0 STREAM_STATE_OK) [] 0 TOKEN_INVALID None.

(** The value, or the error code; [None] when out of fuel. A parse step
    consumes a character, so twice the input is enough. *)
Definition json_loadb (input : bytes) (flags : load_flags)
    : option (json real + option json_error_code) :=
  match parse_json (2 * length input + 3) flags (lex_init input) with
  | None => None
  | Some (Some v, _) => Some (inl v)
  | Some (None, lx) => Some (inr (error lx))
  end.
End lexer.

(** Reals kept as their source text: an instance that executes. *)
Definition text_strtod : Strtod bytes := λ text, Some text.

(** ** Progress: every character read makes the stream shorter *)

Lemma get_bytes_spec n d cs d' : get_bytes n d = (cs, d') → d = cs ++ d' ∨ Byte.xff ∈ cs.
Proof.
  revert d cs d'; induction n as [|n IH]; intros d cs d'; cbn; [intros [= <- <-]; by left|].
  destruct (get_byte d) as [c d1] eqn:Hg. destruct (get_bytes n d1) as [cs1 d2] eqn:Hgs.
  intros [= <- <-]. destruct d as [|x d]; cbn in Hg; injection Hg as <- <-.
  - right. by left.
  - destruct (IH _ _ _ Hgs) as [->|Hin]; [by left|right; by right].
Qed.

Lemma utf8_continue_bytes v cs z : utf8_continue v cs = Some z →
  Forall (λ c, 0x80 <= u8 c <= 0xBF) cs.
Proof.
  revert v; induction cs as [|c cs IH]; intros v; cbn; [constructor|].
  destruct (_ || _) eqn:Hc; [done|]. bools. intros Hz. constructor; [lia|by eapply IH].
Qed.

Lemma check_full_bytes c cs z : utf8_check_full (c :: cs) = Some z →
  Forall (λ c, 0x80 <= u8 c <= 0xBF) cs.
Proof.
  unfold utf8_check_full. intros Hf. destruct (if _ =? 2 then _ else _) as [v|]; [|done].
  change (zdrop 1 (c :: cs)) with cs in Hf.
  destruct (utf8_continue v cs) eqn:Hc; [|done]. by eapply utf8_continue_bytes.
Qed.

Lemma get_bytes_valid n c d cs d' z : get_bytes n d = (cs, d') →
  utf8_check_full (c :: cs) = Some z → d = cs ++ d'.
Proof.
  intros Hg Hf. destruct (get_bytes_spec _ _ _ _ Hg) as [?|Hin]; [done|exfalso].
  apply check_full_bytes in Hf. rewrite Forall_forall in Hf. specialize (Hf _ Hin).
  vm_compute in Hf. destruct Hf as [_ Hf]. by apply Hf.
Qed.

Definition schar_count (c : schar) : nat := match c with Char _ => 1 | _ => 0 end.

(** Filling the buffer delivers bytes of the data only. *)
Lemma stream_fill_avail s : state s = STREAM_STATE_OK →
  match stream_fill s with
  | inl s' => ∃ c s'', stream_take s' = (Char c, s'') ∧ (avail s'' + 1 <= length (data s))%nat
  | inr s' => avail s' = O ∧ state s' ≠ STREAM_STATE_OK
  end.
Proof.
  intros Hst. unfold stream_fill. destruct (data s) as [|x d] eqn:Hd; [done|].
  destruct (0x80 <=? u8 x); [destruct (_ =? 0)|]; [done| |].
  - destruct (get_bytes _ d) as [cs d'] eqn:Hg.
    destruct (utf8_check_full (x :: cs)) as [z|] eqn:Hf; [|done].
    apply (get_bytes_valid _ _ _ _ _ _ Hg) in Hf. subst d.
    eexists _, _. split; [done|]. cbn. rewrite length_app. lia.
  - eexists _, _. split; [done|]. cbn. lia.
Qed.

Lemma stream_get_avail s c s' bad : stream_get s = (c, s', bad) →
  (avail s' + schar_count c <= avail s)%nat.
Proof.
  unfold stream_get. destruct (state s) eqn:Hst; [|by intros [= <- <- _]; cbn; lia..].
  destruct (buffer_empty s) eqn:Hb.
  - pose proof (stream_fill_avail s Hst) as Hfill. destruct (stream_fill s) as [s1|s1].
    + destruct Hfill as (x & s2 & -> & Hle). intros [= <- <- _].
      unfold avail at 2. rewrite Hst. cbn. lia.
    + destruct Hfill as [Hz _]. destruct (state s1); intros [= <- <- _]; cbn; lia.
  - unfold buffer_empty, stream_take in *.
    destruct (buffer s !! buffer_pos s) as [b|] eqn:Hl; [|done].
    apply lookup_lt_Some in Hl. intros [= <- <- _]. unfold avail; cbn. rewrite Hst. cbn. lia.
Qed.

Lemma stream_unget_avail s c : (avail (stream_unget s c) <= avail s + schar_count c)%nat.
Proof. destruct c; cbn; [|lia..]. unfold avail. cbn. destruct (state s); lia. Qed.

Section progress.
Context {real : Type} `{Strtod real}.
Implicit Types lx : lex_t real.

Definition av lx : nat := avail (stream lx).

Lemma av_error_set lx code : av (error_set lx code) = av lx.
Proof. unfold error_set. by destruct (error lx). Qed.

Lemma token_error_set lx code : token (error_set lx code) = token lx.
Proof. unfold error_set. by destruct (error lx). Qed.

Lemma lex_get_av lx c lx' : lex_get lx = (c, lx') → (av lx' + schar_count c <= av lx)%nat.
Proof.
  unfold lex_get. destruct (stream_get (stream lx)) as [[c1 s] bad] eqn:Hg.
  apply stream_get_avail in Hg. intros [= <- <-].
  by destruct bad; [rewrite av_error_set|].
Qed.

Lemma lex_get_save_av lx c lx' : lex_get_save lx = (c, lx') →
  (av lx' + schar_count c <= av lx)%nat.
Proof.
  unfold lex_get_save. destruct (lex_get lx) as [c1 lx1] eqn:Hg. apply lex_get_av in Hg.
  intros [= <- <-]. by destruct c1.
Qed.

Lemma unget_unsave_av lx c : (av (lex_unget_unsave lx c) <= av lx + schar_count c)%nat.
Proof. destruct c; cbn; [|lia..]. apply (stream_unget_avail (stream lx) (Char c)). Qed.

Lemma get_while_av fuel save p lx c lx' : get_while fuel save p lx = (c, lx') →
  (av lx' + schar_count c <= av lx)%nat.
Proof.
  revert lx; induction fuel as [|fuel IH]; intros lx; cbn [get_while]; [intros [= <- <-]; cbn; lia|].
  destruct (if save then _ else _) as [c1 lx1] eqn:Hg.
  assert (av lx1 + schar_count c1 <= av lx)%nat as Hle.
  { destruct save; [by apply lex_get_save_av|by apply lex_get_av]. }
  destruct c1 as [b| |]; [destruct (p b)|..]; [|by intros [= <- <-]..].
  intros Hw. apply IH in Hw. cbn in Hle. lia.
Qed.

Lemma lex_get_while_av save p lx c lx' : lex_get_while save p lx = (c, lx') →
  (av lx' + schar_count c <= av lx)%nat.
Proof. apply get_while_av. Qed.

Lemma scan_hex_av n c lx oc lx' : scan_hex n c lx = (oc, lx') →
  (av lx' + match oc with Some c' => schar_count c' | None => 0 end <= av lx + schar_count c)%nat.
Proof.
  revert c lx; induction n as [|n IH]; intros c lx; cbn [scan_hex]; [by intros [= <- <-]|].
  destruct c as [b| |]; [destruct (l_isxdigit b)|..];
    [|intros [= <- <-]; rewrite av_error_set; cbn; lia..].
  destruct (lex_get_save lx) as [c' lx1] eqn:Hg. apply lex_get_save_av in Hg.
  intros Hs. apply IH in Hs. cbn. lia.
Qed.

Lemma scan_escape_av lx oc lx' : scan_escape lx = (oc, lx') →
  (av lx' + match oc with Some c' => schar_count c' | None => 0 end <= av lx)%nat.
Proof.
  unfold scan_escape. destruct (lex_get_save lx) as [c lx1] eqn:Hg. apply lex_get_save_av in Hg.
  destruct c as [b| |]; [|intros [= <- <-]; rewrite av_error_set; cbn in *; lia..].
  destruct (is_char 117 b); [|destruct (is_short_escape b)].
  - destruct (lex_get_save lx1) as [c lx2] eqn:Hg2. apply lex_get_save_av in Hg2.
    intros Hs. apply scan_hex_av in Hs. cbn in *. lia.
  - destruct (lex_get_save lx1) as [c lx2] eqn:Hg2. apply lex_get_save_av in Hg2.
    intros [= <- <-]. cbn in *. lia.
  - intros [= <- <-]. rewrite av_error_set. cbn in *. lia.
Qed.

Lemma scan_string_loop_av fuel c lx ok lx' : scan_string_loop fuel c lx = (ok, lx') →
  (av lx' <= av lx + schar_count c)%nat.
Proof.
  revert c lx; induction fuel as [|fuel IH]; intros c lx; cbn [scan_string_loop];
    [intros [= <- <-]; lia|].
  destruct c as [b| |]; [|intros [= <- <-]; rewrite ?av_error_set; lia..].
  destruct (is_char 34 b); [intros [= <- <-]; lia|].
  destruct (u8 b <=? 0x1F).
  { intros [= <- <-]. rewrite av_error_set. exact (unget_unsave_av lx (Char b)). }
  destruct (is_char 92 b).
  - destruct (scan_escape lx) as [[c'|] lx1] eqn:He; apply scan_escape_av in He.
    + intros Hl. apply IH in Hl. lia.
    + intros [= <- <-]. lia.
  - destruct (lex_get_save lx) as [c' lx1] eqn:Hg. apply lex_get_save_av in Hg.
    intros Hl. apply IH in Hl. lia.
Qed.

Lemma lex_scan_string_av lx : (av (lex_scan_string lx) <= av lx)%nat.
Proof.
  unfold lex_scan_string. destruct (lex_get_save _) as [c lx1] eqn:Hg. apply lex_get_save_av in Hg.
  destruct (scan_string_loop _ c lx1) as [ok lx2] eqn:Hs. apply scan_string_loop_av in Hs.
  change (av (with_token lx TOKEN_INVALID)) with (av lx) in Hg.
  destruct ok; [|lia]. destruct (decode_string _ _ _); [cbn|rewrite av_error_set]; unfold av in *; cbn in *; lia.
Qed.

(** The integer part keeps a digit it starts with. *)
Lemma scan_int_av c lx oc lx' : scan_int c lx = (oc, lx') →
  (av lx' + match oc with Some c' => schar_count c' | None => 0 end
   <= av lx + (if schar_is l_isdigit c then 0 else schar_count c))%nat.
Proof.
  unfold scan_int. destruct (schar_is (is_char 48) c) eqn:H0.
  - assert (schar_is l_isdigit c = true) as ->.
    { destruct c as [b| |]; [|done..]. cbn in *. unfold is_char, l_isdigit, in_range in *. bools.
      by rewrite H0. }
    destruct (lex_get_save lx) as [c1 lx1] eqn:Hg. apply lex_get_save_av in Hg.
    pose proof (unget_unsave_av lx1 c1). destruct (schar_is l_isdigit c1); intros [= <- <-]; lia.
  - destruct (schar_is l_isdigit c).
    + destruct (lex_get_while _ _ lx) as [c1 lx1] eqn:Hg. apply lex_get_while_av in Hg.
      intros [= <- <-]. lia.
    + pose proof (unget_unsave_av lx c). intros [= <- <-]. lia.
Qed.

Lemma scan_fraction_av c lx oc lx' : scan_fraction c lx = (oc, lx') →
  (av lx' + match oc with Some c' => schar_count c' | None => 0 end <= av lx + schar_count c)%nat.
Proof.
  unfold scan_fraction. destruct (schar_is (is_char 46) c); [|intros [= <- <-]; lia].
  destruct (lex_get lx) as [c1 lx1] eqn:Hg. apply lex_get_av in Hg.
  pose proof (stream_unget_avail (stream lx1) c1) as Hu.
  destruct c1 as [b| |]; [destruct (l_isdigit b)|..];
    [|intros [= <- <-]; unfold av, lex_unget in *; cbn in *; lia..].
  destruct (lex_get_while _ _ _) as [c2 lx2] eqn:Hw. apply lex_get_while_av in Hw.
  intros [= <- <-]. unfold av in *. cbn in *. lia.
Qed.

Lemma scan_exponent_av c lx oc lx' : scan_exponent c lx = (oc, lx') →
  (av lx' + match oc with Some c' => schar_count c' | None => 0 end <= av lx + schar_count c)%nat.
Proof.
  unfold scan_exponent. destruct (schar_is _ c); [|intros [= <- <-]; lia].
  destruct (lex_get_save lx) as [c1 lx1] eqn:Hg. apply lex_get_save_av in Hg.
  destruct (if schar_is _ c1 then _ else _) as [c2 lx2] eqn:Hg2.
  assert (av lx2 + schar_count c2 <= av lx1 + schar_count c1)%nat.
  { destruct (schar_is _ c1); [apply lex_get_save_av in Hg2; lia|injection Hg2 as <- <-; lia]. }
  destruct (schar_is l_isdigit c2).
  - destruct (lex_get_while _ _ lx2) as [c3 lx3] eqn:Hw. apply lex_get_while_av in Hw.
    intros [= <- <-]. lia.
  - pose proof (unget_unsave_av lx2 c2). intros [= <- <-]. lia.
Qed.

Lemma lex_scan_number_av flags lx b : l_isdigit b || is_char 45 b = true →
  (av (lex_scan_number flags lx (Char b)) <= av lx)%nat.
Proof.
  intros Hb. unfold lex_scan_number. change (av lx) with (av (with_token lx TOKEN_INVALID)).
  set (lx0 := with_token lx TOKEN_INVALID).
  destruct (if schar_is _ _ then _ else _) as [c1 lx1] eqn:Hg.
  assert (av lx1 + (if schar_is l_isdigit c1 then 0 else schar_count c1) <= av lx0)%nat.
  { cbn [schar_is] in Hg. destruct (is_char 45 b).
    - apply lex_get_save_av in Hg. destruct (schar_is _ c1); lia.
    - injection Hg as <- <-. rewrite orb_false_r in Hb. cbn. rewrite Hb. lia. }
  destruct (scan_int c1 lx1) as [[c2|] lx2] eqn:Hi; apply scan_int_av in Hi; [|lia].
  pose proof (unget_unsave_av lx2 c2). destruct (_ && _).
  { destruct (json_strtoint _); [unfold av in *; cbn in *|rewrite av_error_set]; lia. }
  destruct (scan_fraction c2 lx2) as [[c3|] lx3] eqn:Hf; apply scan_fraction_av in Hf; [|lia].
  destruct (scan_exponent c3 lx3) as [[c4|] lx4] eqn:He; apply scan_exponent_av in He; [|lia].
  pose proof (unget_unsave_av lx4 c4).
  destruct (jsonp_strtod _); [unfold av in *; cbn in *|rewrite av_error_set]; lia.
Qed.

Lemma until_nul_length l : (length (until_nul l) <= length l)%nat.
Proof. induction l as [|c l IH]; cbn; [lia|]. destruct (_ =? 0); cbn; lia. Qed.

(** A scan never lengthens the stream, and one that finds a token shortens
    it. The number scanner keeps the first character it was given. *)
Lemma lex_scan_av flags lx : let lx' := lex_scan flags lx in
  (av lx' <= av lx)%nat ∧
  (token lx' = TOKEN_EOF ∨ token lx' = TOKEN_INVALID ∨ (av lx' < av lx)%nat).
Proof.
  unfold lex_scan. destruct (lex_get_while _ _ _) as [c lx1] eqn:Hg. apply lex_get_while_av in Hg.
  change (av (with_saved lx [])) with (av lx) in Hg.
  destruct c as [b| |]; [|split; [unfold av in *; cbn in *; lia|auto]..].
  cbn [schar_count] in Hg. set (lx2 := lex_save lx1 b).
  assert (av lx2 = av lx1) as E by done.
  destruct (is_punct b); [unfold av in *; cbn in *; lia|].
  destruct (is_char 34 b); [pose proof (lex_scan_string_av lx2); lia|].
  destruct (l_isdigit b || is_char 45 b) eqn:Hnum.
  { pose proof (lex_scan_number_av flags lx2 b ltac:(done)). lia. }
  destruct (l_isalpha b).
  - destruct (lex_get_while _ _ lx2) as [c lx3] eqn:Hw. apply lex_get_while_av in Hw.
    pose proof (unget_unsave_av lx3 c). unfold av in *. cbn in *. lia.
  - cbn [token with_token]. split; [|auto]. unfold av, avail, lex_save_cached in *. cbn in *.
    pose proof (until_nul_length (drop (buffer_pos (stream lx1)) (buffer (stream lx1)))).
    destruct (state (stream lx1)); lia.
Qed.

(** *** The loops' fuel is enough

    More fuel than characters left makes no difference, so each loop computes
    what the unbounded loop of the source computes. *)
Lemma get_while_fuel f1 f2 save p lx : (av lx < f1)%nat → (av lx < f2)%nat →
  get_while f1 save p lx = get_while f2 save p lx.
Proof.
  revert f2 lx; induction f1 as [|f1 IH]; intros f2 lx H1 H2; [lia|].
  destruct f2 as [|f2]; [lia|]. cbn [get_while].
  destruct (if save then _ else _) as [c lx1] eqn:Hg.
  assert (av lx1 + schar_count c <= av lx)%nat as Hle.
  { destruct save; [by apply lex_get_save_av|by apply lex_get_av]. }
  destruct c as [b| |]; [|done..]. cbn in Hle. destruct (p b); [|done]. apply IH; lia.
Qed.

Lemma scan_string_loop_fuel f1 f2 c lx : (av lx + schar_count c < f1)%nat →
  (av lx + schar_count c < f2)%nat → scan_string_loop f1 c lx = scan_string_loop f2 c lx.
Proof.
  revert f2 c lx; induction f1 as [|f1 IH]; intros f2 c lx H1 H2; [lia|].
  destruct f2 as [|f2]; [lia|]. cbn [scan_string_loop].
  destruct c as [b| |]; [|done..]. cbn in H1, H2.
  destruct (is_char 34 b); [done|]. destruct (_ <=? _); [done|]. destruct (is_char 92 b).
  - destruct (scan_escape lx) as [[c'|] lx1] eqn:He; apply scan_escape_av in He; [|done].
    apply IH; lia.
  - destruct (lex_get_save lx) as [c' lx1] eqn:Hg. apply lex_get_save_av in Hg. apply IH; lia.
Qed.

Lemma decode_escape_length p z rest : decode_escape p = Some (z, rest) →
  (length rest <= length p - 5)%nat.
Proof.
  unfold decode_escape, zdrop. destruct (_ <? 0); [done|]. destruct (high_surrogate _).
  - destruct (drop _ p) as [|b [|u q]] eqn:Hd; [done|done|].
    pose proof (f_equal length Hd) as Hl. rewrite length_drop in Hl. cbn in Hl.
    destruct (_ && _); [|done]. destruct (_ <? 0); [done|]. destruct (low_surrogate _); [|done].
    intros [= _ <-]. rewrite !length_drop. cbn. lia.
  - destruct (low_surrogate _); [done|]. intros [= _ <-]. rewrite length_drop. lia.
Qed.

Lemma decode_string_fuel f1 f2 p t : (length p < f1)%nat → (length p < f2)%nat →
  decode_string f1 p t = decode_string f2 p t.
Proof.
  revert f2 p t; induction f1 as [|f1 IH]; intros f2 p t H1 H2; [lia|].
  destruct f2 as [|f2]; [lia|]. cbn [decode_string]. destruct p as [|c p']; [done|]. cbn in H1, H2.
  destruct (is_char 34 c); [done|]. destruct (is_char 92 c); [|apply IH; lia].
  destruct p' as [|e p'']; [done|]. destruct (is_char 117 e).
  - destruct (decode_escape (e :: p'')) as [[z rest]|] eqn:Hd; [|done].
    apply decode_escape_length in Hd. cbn in *. destruct (utf8_encode z); [|done]. apply IH; lia.
  - destruct (is_short_escape e); [|done]. cbn in *. apply IH; lia.
Qed.

(** *** The parser returns

    A call with enough fuel for the characters left returns, and so does a
    call whose current token already ends it. *)
Definition no_token lx : Prop := token lx = TOKEN_EOF ∨ token lx = TOKEN_INVALID.

Definition returns (lx : lex_t real) (o : option parsed) : Prop :=
  ∃ r : parsed, o = Some r ∧ (av r.2 <= av lx)%nat.

Lemma returns_some lx r : (av r.2 <= av lx)%nat → returns lx (Some r).
Proof. intros. by exists r. Qed.

Lemma returns_mono lx lx' o : (av lx' <= av lx)%nat → returns lx' o → returns lx o.
Proof. intros Hle (r & -> & Hr). exists r. split; [done|lia]. Qed.

Lemma token_is_consumed flags lx code : token_is code (lex_scan flags lx) = true →
  (av (lex_scan flags lx) < av lx)%nat.
Proof.
  destruct (lex_scan_av flags lx) as [_ [He|[He|Hlt]]]; [| |done];
    unfold token_is; by rewrite He.
Qed.

Lemma scan_fuel flags lx fuel : (2 * av lx + 2 <= fuel)%nat →
  (2 * av (lex_scan flags lx) + 4 <= fuel)%nat ∨
  (no_token (lex_scan flags lx) ∧ (2 <= fuel)%nat).
Proof.
  intros Hf. destruct (lex_scan_av flags lx) as [_ [He|[He|Hlt]]];
    [right; split; [by left|lia]|right; split; [by right|lia]|left; lia].
Qed.

Lemma parse_value_S fuel flags lx : parse_value (S fuel) flags lx =
  value_step (parse_members fuel flags []) (parse_elements fuel flags []) flags lx.
Proof. done. Qed.
Lemma parse_members_S fuel flags object lx : parse_members (S fuel) flags object lx =
  members_step (parse_value fuel flags) (parse_members fuel flags) flags object lx.
Proof. done. Qed.
Lemma parse_elements_S fuel flags array lx : parse_elements (S fuel) flags array lx =
  elements_step (parse_value fuel flags) (parse_elements fuel flags) flags array lx.
Proof. done. Qed.

Lemma parse_returns fuel flags :
  (∀ lx, (2 * av lx + 3 <= fuel)%nat ∨ (no_token lx ∧ (1 <= fuel)%nat) →
     returns lx (parse_value fuel flags lx)) ∧
  (∀ object lx, (2 * av lx + 4 <= fuel)%nat ∨ (no_token lx ∧ (2 <= fuel)%nat) →
     returns lx (parse_members fuel flags object lx)) ∧
  (∀ array lx, (2 * av lx + 4 <= fuel)%nat ∨ (no_token lx ∧ (2 <= fuel)%nat) →
     returns lx (parse_elements fuel flags array lx)).
Proof.
  induction fuel as [|fuel (IHv & IHm & IHe)]; [repeat split; intros; lia|].
  split; [|split].
  - intros lx Hf. rewrite parse_value_S. unfold value_step. set (lx1 := with_depth lx (depth lx + 1)).
    assert (av lx1 = av lx) as E by done.
    destruct (_ <? _); [apply returns_some; cbn; rewrite av_error_set; lia|].
    change (token lx1) with (token lx).
    destruct (token lx) eqn:Ht;
      try (apply returns_some; cbn; rewrite ?av_error_set; unfold av in *; cbn in *; lia).
    + destruct (_ && _); apply returns_some; cbn; rewrite ?av_error_set; unfold av in *; cbn in *; lia.
    + destruct Hf as [Hf|[[Hn|Hn] _]]; [|by rewrite Ht in Hn..].
      pose proof (lex_scan_av flags lx1) as [Hle _].
      destruct (is_char 123 c); [|destruct (is_char 91 c)].
      * destruct (token_is 125 _); [apply returns_some; unfold av in *; cbn in *; lia|].
        destruct (IHm [] (lex_scan flags lx1)) as ([[v|] lx2] & -> & Hr);
          [apply scan_fuel; lia| |]; apply returns_some; unfold av in *; cbn in *; lia.
      * destruct (token_is 93 _); [apply returns_some; unfold av in *; cbn in *; lia|].
        destruct (IHe [] (lex_scan flags lx1)) as ([[v|] lx2] & -> & Hr);
          [apply scan_fuel; lia| |]; apply returns_some; unfold av in *; cbn in *; lia.
      * apply returns_some; cbn; rewrite av_error_set; lia.
  - intros object lx Hf. rewrite parse_members_S. unfold members_step.
    destruct (token lx) eqn:Ht; try (apply returns_some; cbn; rewrite av_error_set; lia).
    destruct Hf as [Hf|[[Hn|Hn] _]]; [|by rewrite Ht in Hn..].
    destruct (bool_decide _); [apply returns_some; cbn; rewrite av_error_set; lia|].
    destruct (_ && _); [apply returns_some; cbn; rewrite av_error_set; lia|].
    pose proof (lex_scan_av flags lx) as [Hle _].
    destruct (token_is 58 _) eqn:Hcolon; cbn [negb];
      [|apply returns_some; cbn; rewrite av_error_set; lia].
    apply token_is_consumed in Hcolon. set (lx1 := lex_scan flags lx) in *.
    pose proof (lex_scan_av flags lx1) as [Hle2 _].
    destruct (IHv (lex_scan flags lx1)) as ([[v|] lx3] & -> & Hr); [left; lia| |];
      cbn [snd] in Hr; [|apply returns_some; cbn; lia].
    pose proof (lex_scan_av flags lx3) as [Hle3 _].
    destruct (token_is 44 _) eqn:Hcomma.
    + apply token_is_consumed in Hcomma. pose proof (lex_scan_av flags (lex_scan flags lx3)) as [Hle4 _].
      apply (returns_mono _ (lex_scan flags (lex_scan flags lx3))); [lia|]. apply IHm. left. lia.
    + destruct (token_is 125 _); apply returns_some; cbn; rewrite ?av_error_set; lia.
  - intros array lx Hf. rewrite parse_elements_S. unfold elements_step.
    assert (returns lx (match parse_value fuel flags lx with
      | None => None
      | Some (None, lx) => Some (parse_failure lx)
      | Some (Some elem, lx) =>
          let lx := lex_scan flags lx in
          if token_is 44 lx then parse_elements fuel flags (array ++ [elem]) (lex_scan flags lx)
          else if token_is 93 lx then Some (Some (JArray (array ++ [elem])), lx)
          else Some (parse_failure (error_set lx json_error_invalid_syntax))
      end)) as Hgo.
    { destruct (IHv lx) as ([[v|] lx3] & Hv & Hr); [destruct Hf; [left; lia|right; split; [tauto|lia]]| |];
        rewrite Hv; cbn [snd] in Hr; [|apply returns_some; cbn; lia].
      destruct Hf as [Hf|[Hn Hge]].
      - pose proof (lex_scan_av flags lx3) as [Hle3 _]. cbn zeta.
        destruct (token_is 44 _) eqn:Hcomma.
        + apply token_is_consumed in Hcomma.
          pose proof (lex_scan_av flags (lex_scan flags lx3)) as [Hle4 _].
          apply (returns_mono _ (lex_scan flags (lex_scan flags lx3))); [lia|]. apply IHe. left. lia.
        + destruct (token_is 93 _); apply returns_some; cbn; rewrite ?av_error_set; lia.
      - exfalso. destruct fuel as [|fuel]; [lia|]. rewrite parse_value_S in Hv. unfold value_step in Hv.
        destruct (_ <? _); [done|]. cbn [token with_depth] in Hv.
        by destruct Hn as [Hn|Hn]; rewrite Hn in Hv. }
    destruct (token lx) eqn:Ht; try exact Hgo.
    apply returns_some; cbn; rewrite av_error_set; lia.
Qed.
End progress.

(** ** UTF-8 *)

(** One encoded character. *)
Inductive utf8_seq : bytes → Prop :=
| seq_ascii c : u8 c < 0x80 → utf8_seq [c]
| seq_multi c cs z : 0x80 <= u8 c → utf8_check_first c = zlen (c :: cs) →
    utf8_check_full (c :: cs) = Some z → utf8_seq (c :: cs).

Definition utf8 (s : bytes) : Prop := ∃ seqs, Forall utf8_seq seqs ∧ s = concat seqs.

Lemma utf8_nil : utf8 [].
Proof. by exists []. Qed.

Lemma utf8_app s t : utf8 s → utf8 t → utf8 (s ++ t).
Proof.
  intros (a & Ha & ->) (b & Hb & ->). exists (a ++ b). by rewrite concat_app, Forall_app.
Qed.

Lemma utf8_one q : utf8_seq q → utf8 q.
Proof. intros Hq. exists [q]. cbn. rewrite app_nil_r. split; [by constructor|done]. Qed.

Lemma utf8_ascii c : u8 c < 0x80 → utf8 [c].
Proof. intros. by apply utf8_one, seq_ascii. Qed.

Lemma utf8_cons_inv c s : utf8 (c :: s) →
  ∃ q t, utf8_seq (c :: q) ∧ s = q ++ t ∧ utf8 t.
Proof.
  intros (seqs & Hs & Heq). destruct Hs as [|q seqs Hq Hs]; [done|].
  cbn in Heq. destruct q as [|x q]; [by inversion Hq|]. injection Heq as <- ->.
  exists q, (concat seqs). split; [done|split; [done|by exists seqs]].
Qed.

Lemma utf8_tail c s : u8 c < 0x80 → utf8 (c :: s) → utf8 s.
Proof.
  intros Hc Hs. apply utf8_cons_inv in Hs as (q & t & Hq & -> & Ht).
  inversion Hq; subst; [done|lia].
Qed.

(** The bytes of a multi-byte character are all outside ASCII. *)
Lemma utf8_seq_high c q : utf8_seq (c :: q) → 0x80 <= u8 c → Forall (λ b, 0x80 <= u8 b) (c :: q).
Proof.
  intros Hq Hc. inversion Hq as [|? ? z ? ? Hf]; subst; [lia|]. constructor; [done|].
  apply check_full_bytes in Hf. eapply Forall_impl; [exact Hf|]. cbn. lia.
Qed.

Lemma utf8_seq_low c q b : utf8_seq (c :: q) → b ∈ c :: q → u8 b < 0x80 → q = [] ∧ b = c.
Proof.
  intros Hq Hb Hlow. destruct (Z.lt_ge_cases (u8 c) 0x80) as [Hc|Hc].
  - inversion Hq; subst; [|lia]. by apply list_elem_of_singleton in Hb.
  - pose proof (utf8_seq_high c q Hq Hc) as Hh. rewrite Forall_forall in Hh.
    specialize (Hh b Hb). cbn in Hh. lia.
Qed.

(** The executable check accepts every such text. *)
Lemma utf8_check_string_ok s : utf8 s → utf8_check_string s = true.
Proof.
  unfold utf8_check_string. intros (seqs & Hs & ->).
  assert (∀ fuel, (length (concat seqs) <= fuel)%nat → utf8_check_loop fuel (concat seqs) = true)
    as Hgen; [|by apply Hgen].
  induction Hs as [|q seqs Hq Hs IH]; intros fuel Hf; [by destruct fuel|].
  cbn [concat] in *. destruct Hq as [c Hc|c cs z Hc Hfirst Hfull]; cbn [app] in *;
    (destruct fuel as [|fuel]; [cbn in Hf; lia|]); cbn [utf8_check_loop].
  - unfold utf8_check_first. rewrite ltb_lt_true by done. apply IH. cbn in Hf. lia.
  - rewrite Hfirst. assert (1 < zlen (c :: cs)) as Hl.
    { destruct cs as [|? ?]; [cbv [utf8_check_full zlen] in Hfull; cbn in Hfull; done|].
      rewrite !zlen_cons. pose proof (zlen_nonneg cs). lia. }
    rewrite eqb_ne_false, ltb_lt_true by lia.
    change (c :: cs ++ concat seqs) with ((c :: cs) ++ concat seqs).
    rewrite zlen_app, ltb_ge_false by (pose proof (zlen_nonneg (concat seqs)); lia).
    rewrite ztake_app, zdrop_app, Hfull by done. apply IH. cbn in Hf. rewrite length_app in Hf. lia.
Qed.

Lemma land_mask a k : 0 <= k → Z.land a (2 ^ k - 1) = a mod 2 ^ k.
Proof. intros. rewrite <- Z.land_ones by done. f_equal. rewrite Z.ones_equiv. lia. Qed.

Lemma u8_of v : 0 <= v < 256 → u8 (to_u8 v) = v.
Proof. intros. rewrite u8_to_u8. by apply Z.mod_small. Qed.

(** A field of [k] bits at offset [n], as the source extracts it. *)
Lemma mask_field v m n k : 0 <= n → 0 <= k → m = Z.shiftl (2 ^ k - 1) n →
  Z.shiftr (Z.land v m) n = (v / 2 ^ n) mod 2 ^ k.
Proof.
  intros Hn Hk ->. rewrite Z.shiftr_land, Z.shiftr_shiftl_l, Z.sub_diag by done.
  rewrite Z.shiftl_0_r, land_mask, Z.shiftr_div_pow2 by done. done.
Qed.

Lemma continue_step v b rest : 0x80 <= b <= 0xBF →
  utf8_continue v (to_u8 b :: rest) = utf8_continue (v * 64 + b mod 64) rest.
Proof.
  intros Hb. cbn [utf8_continue]. rewrite u8_of by lia.
  rewrite ltb_ge_false, (ltb_ge_false 0xBF) by lia. cbn [orb].
  rewrite Z.shiftl_mul_pow2 by lia. change 0x3F with (2 ^ 6 - 1). by rewrite land_mask by lia.
Qed.

(** The code point tests at the end of [utf8_check_full]. *)
Definition code_point_ok (size v : Z) : Prop :=
  v <= 0x10FFFF ∧ (v < 0xD800 ∨ 0xDFFF < v) ∧
  (size = 2 ∧ 0x80 <= v ∨ size = 3 ∧ 0x800 <= v ∨ size = 4 ∧ 0x10000 <= v).

Lemma check_full_ok c cs k v : zlen (c :: cs) = k → 2 <= k <= 4 →
  utf8_continue (u8 c mod 2 ^ (7 - k)) cs = Some v → code_point_ok k v →
  utf8_check_full (c :: cs) = Some v.
Proof.
  intros Hlen Hk Hc (Hmax & Hsur & Hmin). unfold utf8_check_full. rewrite Hlen.
  change (byte_at (c :: cs) 0) with (u8 c). change (zdrop 1 (c :: cs)) with cs.
  assert ((if k =? 2 then Some (Z.land (u8 c) 0x1F) else if k =? 3 then Some (Z.land (u8 c) 0xF)
           else if k =? 4 then Some (Z.land (u8 c) 0x7) else None)
          = Some (u8 c mod 2 ^ (7 - k))) as ->.
  { change 0x1F with (2 ^ 5 - 1). change 0xF with (2 ^ 4 - 1). change 0x7 with (2 ^ 3 - 1).
    rewrite !land_mask by lia. by assert (k = 2 ∨ k = 3 ∨ k = 4) as [->|[->| ->]] by lia. }
  rewrite Hc, ltb_ge_false by lia.
  assert ((0xD800 <=? v) && (v <=? 0xDFFF) = false) as ->
    by (apply andb_false_iff; rewrite !Z.leb_gt; lia).
  destruct Hmin as [[-> ?]|[[-> ?]|[-> ?]]]; cbn [Z.eqb Pos.eqb andb orb];
    rewrite ?ltb_ge_false by lia; done.
Qed.

Lemma utf8_encode_seq v enc : 0 <= v → (v < 0xD800 ∨ 0xDFFF < v) → utf8_encode v = Some enc →
  utf8_seq enc.
Proof.
  intros Hv Hsur. unfold utf8_encode. rewrite ltb_ge_false by done.
  rewrite ?(mask_field v 0x7C0 6 5), ?(mask_field v 0xF000 12 4), ?(mask_field v 0xFC0 6 6),
    ?(mask_field v 0x1C0000 18 3), ?(mask_field v 0x3F000 12 6) by (done || lia).
  change 0x3F with (2 ^ 6 - 1). rewrite !land_mask by lia.
  change (2 ^ 6) with 64. change (2 ^ 12) with 4096. change (2 ^ 18) with 262144.
  change (2 ^ 5) with 32. change (2 ^ 4) with 16. change (2 ^ 3) with 8.
  destruct (v <? 0x80) eqn:E1; bools.
  { intros [= <-]. apply seq_ascii. rewrite u8_of; lia. }
  destruct (v <? 0x800) eqn:E2; bools; [|destruct (v <? 0x10000) eqn:E3; bools;
    [|destruct (v <=? 0x10FFFF) eqn:E4; bools; [|done]]]; intros [= <-];
    apply (seq_multi _ _ v); rewrite ?u8_of by (Z.div_mod_to_equations; lia);
    try (Z.div_mod_to_equations; lia);
    try (unfold utf8_check_first; rewrite u8_of by (Z.div_mod_to_equations; lia);
         repeat (split_test; andb_cases; try (Z.div_mod_to_equations; lia)); done).
  - apply (check_full_ok _ _ 2); [done|lia| |unfold code_point_ok; lia].
    rewrite u8_of, continue_step by (Z.div_mod_to_equations; lia). cbn [utf8_continue].
    change (2 ^ (7 - 2)) with 32. f_equal. Z.div_mod_to_equations; lia.
  - apply (check_full_ok _ _ 3); [done|lia| |unfold code_point_ok; lia].
    rewrite u8_of, !continue_step by (Z.div_mod_to_equations; lia). cbn [utf8_continue].
    change (2 ^ (7 - 3)) with 16. f_equal. Z.div_mod_to_equations; lia.
  - apply (check_full_ok _ _ 4); [done|lia| |unfold code_point_ok; lia].
    rewrite u8_of, !continue_step by (Z.div_mod_to_equations; lia). cbn [utf8_continue].
    change (2 ^ (7 - 4)) with 8. f_equal. Z.div_mod_to_equations; lia.
Qed.

(** *** Decoded strings are UTF-8 *)

Lemma decode_hex_spec n v str r : 0 <= v → decode_hex n v str = r → 0 <= r →
  ∃ pre post, str = pre ++ post ∧ length pre = n ∧ Forall (λ c, u8 c < 0x80) pre.
Proof.
  revert v str; induction n as [|n IH]; intros v str Hv; cbn [decode_hex].
  { intros _ _. by exists [], str. }
  destruct str as [|c str]; [lia|].
  assert (0 <= Z.shiftl v 4) by (by apply Z.shiftl_nonneg).
  unfold l_isdigit, l_islower, l_isupper, in_range.
  intros Hd Hr.
  assert (u8 c < 0x80 ∧ ∃ v', 0 <= v' ∧ decode_hex n v' str = r) as [Hc (v' & Hv' & Hd')].
  { repeat (split_test; bools); [| | |lia];
      (split; [lia|]; eexists; split; [|exact Hd]; lia). }
  destruct (IH v' str Hv' Hd' Hr) as (pre & post & -> & Hl & Hp).
  exists (c :: pre), post. split; [done|]. split; [by rewrite <- Hl|by constructor].
Qed.

Lemma utf8_drop_ascii pre s : Forall (λ c, u8 c < 0x80) pre → utf8 (pre ++ s) → utf8 s.
Proof.
  induction 1 as [|c pre Hc _ IH]; [done|]. cbn [app]. intros Hs.
  by apply IH, (utf8_tail c).
Qed.

Lemma decode_unicode_escape_ascii e str : u8 e < 0x80 → utf8 (e :: str) →
  0 <= decode_unicode_escape str → utf8 (zdrop 5 (e :: str)).
Proof.
  intros He Hu Hr. destruct (decode_hex_spec 4 0 str _ ltac:(lia) eq_refl Hr)
    as (pre & post & -> & Hl & Hp).
  apply utf8_tail in Hu; [|done]. apply utf8_drop_ascii in Hu; [|done].
  change (zdrop 5 (e :: pre ++ post)) with (drop 4 (pre ++ post)). by rewrite drop_app_length'.
Qed.

Lemma decode_escape_utf8 e p z rest : u8 e < 0x80 → utf8 (e :: p) →
  decode_escape (e :: p) = Some (z, rest) → utf8 rest ∧ 0 <= z ∧ (z < 0xD800 ∨ 0xDFFF < z).
Proof.
  intros He Hu. unfold decode_escape. change (zdrop 1 (e :: p)) with p.
  destruct (_ <? 0) eqn:Hneg; [done|]. bools.
  pose proof (decode_unicode_escape_ascii e p He Hu Hneg) as Hrest.
  unfold high_surrogate, low_surrogate. generalize dependent (decode_unicode_escape p). intros v Hneg.
  destruct (_ && _) eqn:Hhi.
  - destruct (zdrop 5 (e :: p)) as [|b [|u q]]; [done|done|].
    destruct (is_char 92 b && is_char 117 u) eqn:Hbu; [|done]. unfold is_char in Hbu. bools.
    change (zdrop 1 (b :: u :: q)) with (u :: q). change (zdrop 1 (u :: q)) with q.
    destruct (_ <? 0) eqn:Hneg2; [done|]. bools.
    apply utf8_tail in Hrest; [|lia].
    pose proof (decode_unicode_escape_ascii u q ltac:(lia) Hrest Hneg2) as Hrest2.
    destruct (_ && _) eqn:Hlo; [|done]. bools. intros [= <- <-]. split; [done|].
    rewrite Z.shiftl_mul_pow2 by lia. lia.
  - destruct ((0xDC00 <=? v) && (v <=? 0xDFFF)) eqn:Hlo; [done|]. intros [= -> <-]. split; [done|]. andb_cases; lia.
Qed.

(** Bytes outside ASCII are copied. *)
Lemma decode_copy fuel cs p t v : Forall (λ b, 0x80 <= u8 b) cs →
  decode_string fuel (cs ++ p) t = Some v →
  ∃ fuel', (fuel' + length cs = fuel)%nat ∧ decode_string fuel' p (t ++ cs) = Some v.
Proof.
  intros Hcs. revert fuel t; induction Hcs as [|c cs Hc Hcs IH]; intros fuel t Hd.
  - exists fuel. rewrite app_nil_r. cbn in *. split; [lia|done].
  - destruct fuel as [|fuel]; [done|]. cbn [decode_string app] in Hd. unfold is_char in Hd.
    rewrite !eqb_ne_false in Hd by lia. apply IH in Hd as (fuel' & Hf & Hd).
    exists fuel'. rewrite <- (assoc (++)) in Hd. cbn in *. split; [lia|done].
Qed.

Lemma short_escape_ascii e : is_short_escape e = true → u8 e < 0x80 ∧ u8 (short_escape e) < 0x80.
Proof. by destruct e. Qed.

Lemma decode_string_utf8 fuel p t v : utf8 p → utf8 t → decode_string fuel p t = Some v → utf8 v.
Proof.
  revert p t; induction fuel as [fuel IH] using lt_wf_ind; intros p t Hp Ht Hd.
  destruct fuel as [|fuel]; [done|]. destruct p as [|c p]; [done|].
  destruct (Z.lt_ge_cases (u8 c) 0x80) as [Hc|Hc].
  - cbn [decode_string] in Hd. pose proof (utf8_tail c p Hc Hp) as Hp'.
    destruct (is_char 34 c); [by injection Hd as <-|]. destruct (is_char 92 c).
    + destruct p as [|e p]; [done|]. destruct (is_char 117 e) eqn:Hu.
      * unfold is_char in Hu. bools.
        destruct (decode_escape (e :: p)) as [[z rest]|] eqn:Hde; [|done].
        apply decode_escape_utf8 in Hde as (Hrest & Hz & Hsur); [|lia|done].
        destruct (utf8_encode z) as [enc|] eqn:Henc; [|done].
        apply utf8_encode_seq in Henc; [|done..].
        eapply IH; [|exact Hrest| |exact Hd]; [lia|]. by apply utf8_app, utf8_one.
      * destruct (is_short_escape e) eqn:Hs; [|done].
        apply short_escape_ascii in Hs as [He Hse]. apply utf8_tail in Hp'; [|done].
        eapply IH; [|exact Hp'| |exact Hd]; [lia|]. by apply utf8_app, utf8_ascii.
    + eapply IH; [|exact Hp'| |exact Hd]; [lia|]. by apply utf8_app, utf8_ascii.
  - apply utf8_cons_inv in Hp as (q & rest & Hq & -> & Hrest).
    pose proof (utf8_seq_high c q Hq Hc) as Hh.
    destruct (decode_copy (S fuel) (c :: q) rest t v Hh Hd) as (fuel' & Hf & Hd').
    eapply IH; [|exact Hrest| |exact Hd']; [cbn in Hf; lia|]. by apply utf8_app, utf8_one.
Qed.

(** *** The stream delivers whole characters *)

Definition stream_ok (s : stream_t) : Prop :=
  state s = STREAM_STATE_OK → buffer s = [] ∨ utf8_seq (buffer s).

Lemma get_bytes_length n d cs d' : get_bytes n d = (cs, d') → length cs = n.
Proof.
  revert d cs d'; induction n as [|n IH]; intros d cs d'; cbn; [by intros [= <- _]|].
  destruct (get_byte d) as [c d1]. destruct (get_bytes n d1) as [cs1 d2] eqn:Hg.
  intros [= <- <-]. cbn. f_equal. by eapply IH.
Qed.

Lemma check_first_range c : utf8_check_first c = 0 ∨ 1 <= utf8_check_first c <= 4.
Proof. unfold utf8_check_first. repeat split_test; lia. Qed.

Lemma stream_fill_ok s s' : stream_fill s = inl s' →
  utf8_seq (buffer s') ∧ buffer_pos s' = O ∧ state s' = STREAM_STATE_OK.
Proof.
  unfold stream_fill. destruct (data s) as [|x d]; [done|].
  destruct (0x80 <=? u8 x) eqn:Hx; bools; [|intros [= <-]; by repeat split; apply seq_ascii].
  destruct (_ =? 0) eqn:Hz; [done|]. bools.
  destruct (get_bytes _ d) as [cs d'] eqn:Hg. apply get_bytes_length in Hg.
  destruct (utf8_check_full (x :: cs)) as [z|] eqn:Hf; [|done].
  intros [= <-]. split; [|done]. apply (seq_multi _ _ z); try done.
  rewrite zlen_cons. unfold zlen. rewrite Hg. pose proof (check_first_range x). lia.
Qed.

(** What a delivered character says about the stream. *)
Lemma stream_get_char s b s' bad : stream_ok s → stream_get s = (Char b, s', bad) →
  state s = STREAM_STATE_OK ∧ state s' = STREAM_STATE_OK ∧ utf8_seq (buffer s') ∧
  buffer s' !! pred (buffer_pos s') = Some b ∧
  ((buffer s' = buffer s ∧ buffer_pos s' = S (buffer_pos s)) ∨
   (buffer_empty s = true ∧ buffer_pos s' = 1%nat)).
Proof.
  unfold stream_get. intros Hok. destruct (state s) eqn:Hst; [|done..].
  destruct (buffer_empty s) eqn:He.
  - destruct (stream_fill s) as [s1|s1] eqn:Hf; [|by destruct (state s1)].
    destruct (stream_fill_ok _ _ Hf) as (Hseq & Hpos & Hst1).
    unfold stream_take. destruct (buffer s1 !! buffer_pos s1) as [c|] eqn:Hl; [|done].
    intros [= <- <- _]. cbn. rewrite Hpos in *. auto 10.
  - unfold stream_take, buffer_empty in *.
    destruct (buffer s !! buffer_pos s) as [c|] eqn:Hl; [|done].
    intros [= <- <- _]. cbn. destruct (Hok Hst) as [Hb|Hb]; [by rewrite Hb in Hl|]. auto 10.
Qed.

Lemma stream_get_other s c s' bad : stream_get s = (c, s', bad) →
  (∃ b, c = Char b) ∨ s' = s ∨ state s' ≠ STREAM_STATE_OK.
Proof.
  unfold stream_get. destruct (state s) eqn:Hst; [|intros [= <- <- _]; auto..].
  pose proof (stream_fill_avail s Hst) as Hfill. destruct (buffer_empty s).
  - destruct (stream_fill s) as [s1|s1].
    + destruct Hfill as (b & s2 & -> & _). intros [= <- _ _]. left. by exists b.
    + destruct Hfill as [_ Hne]. destruct (state s1) eqn:E; intros [= <- <- _]; right; right; congruence.
  - unfold stream_take. destruct (_ !! _) as [b|]; intros [= <- <- _]; [left; by exists b|auto].
Qed.

Lemma stream_get_ok s c s' bad : stream_ok s → stream_get s = (c, s', bad) → stream_ok s'.
Proof.
  intros Hok Hg. destruct (stream_get_other _ _ _ _ Hg) as [[b ->]|[->|Hne]]; [|done|by intros ?].
  destruct (stream_get_char s b s' bad Hok Hg) as (_ & _ & Hseq & _). intros _. by right.
Qed.

(** *** What every lexer function preserves

    [P] is any property of the stream, the current token and the depth that
    survives reading a character and moving the buffer position. *)
Section preserve.
Context {real : Type} `{Strtod real}.
Context (P : stream_t → token_t real → Z → Prop).
Context (Pget : ∀ s c s' bad t d, stream_get s = (c, s', bad) → P s t d → P s' t d).
Context (Ppos : ∀ s n t d, P s t d → P (mkStream (data s) (buffer s) n (state s)) t d).
Implicit Types lx : lex_t real.

Definition held lx : Prop := P (stream lx) (token lx) (depth lx).

Lemma error_set_held lx code : held lx → held (error_set lx code).
Proof. unfold held, error_set. by destruct (error lx). Qed.

Lemma lex_get_held lx c lx' : lex_get lx = (c, lx') → held lx → held lx'.
Proof.
  unfold lex_get. destruct (stream_get (stream lx)) as [[c1 s] bad] eqn:Hg. intros [= <- <-] Hh.
  assert (held (with_stream lx s)) by (by apply (Pget _ _ _ _ _ _ Hg)).
  destruct bad; [by apply error_set_held|done].
Qed.

Lemma lex_get_save_held lx c lx' : lex_get_save lx = (c, lx') → held lx → held lx'.
Proof.
  unfold lex_get_save. destruct (lex_get lx) as [c1 lx1] eqn:Hg. intros [= <- <-] Hh.
  apply (lex_get_held _ _ _ Hg) in Hh. by destruct c1.
Qed.

Lemma unget_unsave_held lx c : held lx → held (lex_unget_unsave lx c).
Proof. intros Hh. destruct c; [|done..]. unfold held. cbn. by apply Ppos. Qed.

Lemma unget_held lx c : held lx → held (lex_unget lx c).
Proof.
  intros Hh. unfold held, lex_unget. cbn. destruct c; cbn; [by apply Ppos|done..].
Qed.

Lemma get_while_held fuel save p lx c lx' : get_while fuel save p lx = (c, lx') →
  held lx → held lx'.
Proof.
  revert lx; induction fuel as [|fuel IH]; intros lx; cbn [get_while]; [by intros [= <- <-]|].
  destruct (if save then _ else _) as [c1 lx1] eqn:Hg. intros Hw Hh.
  assert (held lx1).
  { destruct save; [by apply (lex_get_save_held _ _ _ Hg)|by apply (lex_get_held _ _ _ Hg)]. }
  destruct c1 as [b| |]; [destruct (p b)|..]; [by apply (IH _ Hw)|by injection Hw as _ <-..].
Qed.

Lemma scan_hex_held n c lx oc lx' : scan_hex n c lx = (oc, lx') → held lx → held lx'.
Proof.
  revert c lx; induction n as [|n IH]; intros c lx; cbn [scan_hex]; [by intros [= <- <-]|].
  destruct c as [b| |]; [destruct (l_isxdigit b)|..];
    [|intros [= <- <-]; apply error_set_held..].
  destruct (lex_get_save lx) as [c' lx1] eqn:Hg. intros Hs Hh.
  by apply (IH _ _ Hs), (lex_get_save_held _ _ _ Hg).
Qed.

Lemma scan_escape_held lx oc lx' : scan_escape lx = (oc, lx') → held lx → held lx'.
Proof.
  unfold scan_escape. destruct (lex_get_save lx) as [c lx1] eqn:Hg. intros Hs Hh.
  apply (lex_get_save_held _ _ _ Hg) in Hh.
  destruct c as [b| |]; [|injection Hs as _ <-; by apply error_set_held..].
  destruct (is_char 117 b); [|destruct (is_short_escape b)].
  - destruct (lex_get_save lx1) as [c lx2] eqn:Hg2.
    by apply (scan_hex_held _ _ _ _ _ Hs), (lex_get_save_held _ _ _ Hg2).
  - destruct (lex_get_save lx1) as [c lx2] eqn:Hg2. injection Hs as _ <-.
    by apply (lex_get_save_held _ _ _ Hg2).
  - injection Hs as _ <-. by apply error_set_held.
Qed.

Lemma scan_string_loop_held fuel c lx ok lx' : scan_string_loop fuel c lx = (ok, lx') →
  held lx → held lx'.
Proof.
  revert c lx; induction fuel as [|fuel IH]; intros c lx; cbn [scan_string_loop];
    [by intros [= <- <-]|].
  destruct c as [b| |]; [|intros [= <- <-]; apply error_set_held|by intros [= <- <-]].
  destruct (is_char 34 b); [by intros [= <- <-]|].
  destruct (u8 b <=? 0x1F).
  { intros Hs Hh. injection Hs as _ <-. apply error_set_held. by apply (unget_unsave_held lx (Char b)). }
  destruct (is_char 92 b).
  - destruct (scan_escape lx) as [[c'|] lx1] eqn:He; intros Hs Hh;
      apply (scan_escape_held _ _ _ He) in Hh; [by apply (IH _ _ Hs)|by injection Hs as _ <-].
  - destruct (lex_get_save lx) as [c' lx1] eqn:Hg. intros Hs Hh.
    by apply (IH _ _ Hs), (lex_get_save_held _ _ _ Hg).
Qed.

Lemma scan_int_held c lx oc lx' : scan_int c lx = (oc, lx') → held lx → held lx'.
Proof.
  unfold scan_int. destruct (schar_is (is_char 48) c); [|destruct (schar_is l_isdigit c)].
  - destruct (lex_get_save lx) as [c1 lx1] eqn:Hg. intros Hs Hh.
    apply (lex_get_save_held _ _ _ Hg) in Hh.
    destruct (schar_is l_isdigit c1); injection Hs as _ <-; [by apply unget_unsave_held|done].
  - destruct (lex_get_while _ _ lx) as [c1 lx1] eqn:Hg. intros [= _ <-].
    by apply (get_while_held _ _ _ _ _ _ Hg).
  - intros [= _ <-]. by apply unget_unsave_held.
Qed.

Lemma scan_fraction_held c lx oc lx' : scan_fraction c lx = (oc, lx') → held lx → held lx'.
Proof.
  unfold scan_fraction. destruct (schar_is (is_char 46) c); [|by intros [= _ <-]].
  destruct (lex_get lx) as [c1 lx1] eqn:Hg. intros Hs Hh. apply (lex_get_held _ _ _ Hg) in Hh.
  destruct c1 as [b| |]; [destruct (l_isdigit b)|..];
    [|injection Hs as _ <-; by apply unget_held..].
  destruct (lex_get_while _ _ _) as [c2 lx2] eqn:Hw. injection Hs as _ <-.
  by apply (get_while_held _ _ _ _ _ _ Hw).
Qed.

Lemma scan_exponent_held c lx oc lx' : scan_exponent c lx = (oc, lx') → held lx → held lx'.
Proof.
  unfold scan_exponent. destruct (schar_is _ c); [|by intros [= _ <-]].
  destruct (lex_get_save lx) as [c1 lx1] eqn:Hg. intros Hs Hh.
  apply (lex_get_save_held _ _ _ Hg) in Hh.
  destruct (if schar_is _ c1 then _ else _) as [c2 lx2] eqn:Hg2.
  assert (held lx2).
  { destruct (schar_is _ c1); [by apply (lex_get_save_held _ _ _ Hg2)|by injection Hg2 as _ <-]. }
  destruct (schar_is l_isdigit c2).
  - destruct (lex_get_while _ _ lx2) as [c3 lx3] eqn:Hw. injection Hs as _ <-.
    by apply (get_while_held _ _ _ _ _ _ Hw).
  - injection Hs as _ <-. by apply unget_unsave_held.
Qed.
End preserve.

Section tokens.
Context {real : Type} `{Strtod real}.
Implicit Types lx : lex_t real.

(** What a token carries: UTF-8 text, a 64-bit integer. *)
Definition tok_ok (t : token_t real) : Prop :=
  match t with
  | TOKEN_STRING v => utf8 v
  | TOKEN_INTEGER z => - 2 ^ 63 <= z < 2 ^ 63
  | _ => True
  end.

Definition lex_ok (d : Z) lx : Prop :=
  stream_ok (stream lx) ∧ depth lx = d ∧ tok_ok (token lx).

(** The part of the state reading characters preserves. *)
Definition keeps (t0 : token_t real) (d0 : Z) (s : stream_t) (t : token_t real) (d : Z) : Prop :=
  stream_ok s ∧ t = t0 ∧ d = d0.

Lemma keeps_get t0 d0 s c s' bad t d : stream_get s = (c, s', bad) →
  keeps t0 d0 s t d → keeps t0 d0 s' t d.
Proof. intros Hg (Hs & -> & ->). split; [by eapply stream_get_ok|done]. Qed.

Lemma keeps_pos t0 d0 s n t d : keeps t0 d0 s t d →
  keeps t0 d0 (mkStream (data s) (buffer s) n (state s)) t d.
Proof. intros (Hs & -> & ->). by split. Qed.

Lemma keeps_ok t0 lx : held (keeps t0 (depth lx)) lx → tok_ok t0 → lex_ok (depth lx) lx.
Proof. intros (Hs & Ht & Hd) Hok. split; [done|split; [done|by rewrite Ht]]. Qed.

Lemma keeps_lex_ok t0 d lx : held (keeps t0 d) lx → tok_ok t0 → lex_ok d lx.
Proof. intros (Hs & Ht & Hd) Hok. split; [done|split; [done|by rewrite Ht]]. Qed.

Lemma lex_ok_token d lx t : lex_ok d lx → tok_ok t → lex_ok d (with_token lx t).
Proof. intros (Hs & Hd & _) Ht. by split. Qed.

Lemma lex_ok_error d lx code : lex_ok d lx → lex_ok d (error_set lx code).
Proof. unfold error_set. by destruct (error lx). Qed.

Lemma json_strtoint_range text z : json_strtoint text = Some z → - 2 ^ 63 <= z < 2 ^ 63.
Proof. unfold json_strtoint. destruct (_ && _) eqn:Hr; [|done]. bools. intros [= <-]. lia. Qed.

Lemma lex_scan_number_ok flags lx c d : stream_ok (stream lx) → depth lx = d →
  lex_ok d (lex_scan_number flags lx c).
Proof.
  intros Hs Hd. unfold lex_scan_number. set (lx0 := with_token lx TOKEN_INVALID).
  assert (held (keeps TOKEN_INVALID d) lx0) as Hh by done.
  pose proof (keeps_get TOKEN_INVALID d) as Kg. pose proof (keeps_pos TOKEN_INVALID d) as Kp.
  destruct (if schar_is _ c then _ else _) as [c1 lx1] eqn:Hg.
  assert (held (keeps TOKEN_INVALID d) lx1) as H1.
  { destruct (schar_is _ c); [by apply (lex_get_save_held _ Kg _ _ _ Hg)|by injection Hg as _ <-]. }
  destruct (scan_int c1 lx1) as [[c2|] lx2] eqn:Hi; apply (scan_int_held _ Kg Kp _ _ _ _ Hi) in H1;
    [|by eapply keeps_lex_ok].
  destruct (_ && _).
  { apply (unget_unsave_held _ Kp _ c2) in H1. apply keeps_lex_ok in H1; [|done].
    destruct (json_strtoint _) eqn:Hz; [|by apply lex_ok_error].
    apply lex_ok_token; [done|]. by apply json_strtoint_range in Hz. }
  destruct (scan_fraction c2 lx2) as [[c3|] lx3] eqn:Hf;
    apply (scan_fraction_held _ Kg Kp _ _ _ _ Hf) in H1; [|by eapply keeps_lex_ok].
  destruct (scan_exponent c3 lx3) as [[c4|] lx4] eqn:He;
    apply (scan_exponent_held _ Kg Kp _ _ _ _ He) in H1; [|by eapply keeps_lex_ok].
  apply (unget_unsave_held _ Kp _ c4) in H1. apply keeps_lex_ok in H1; [|done].
  destruct (jsonp_strtod _); [by apply lex_ok_token|by apply lex_ok_error].
Qed.

(** *** Strings

    [c] is the character just read and saved, and the saved text is whole
    characters up to the part of the current one already read. *)
Definition reading lx (c : schar) : Prop :=
  match c with
  | Char b =>
      stream_ok (stream lx) ∧ utf8_seq (buffer (stream lx)) ∧
      (∃ k, buffer_pos (stream lx) = S k ∧ buffer (stream lx) !! k = Some b) ∧
      ∃ pre, utf8 pre ∧
        saved_text lx = pre ++ take (buffer_pos (stream lx)) (buffer (stream lx))
  | _ => True
  end.

Lemma reading_ascii lx b : reading lx (Char b) → u8 b < 0x80 → utf8 (saved_text lx).
Proof.
  intros (_ & Hseq & (k & Hpos & Hl) & pre & Hpre & ->) Hb.
  destruct (buffer (stream lx)) as [|x q] eqn:Hbuf; [done|].
  destruct (utf8_seq_low x q b Hseq) as [-> ->]; [by apply list_elem_of_lookup_2 in Hl|done|].
  rewrite Hpos. cbn. rewrite take_nil. by apply utf8_app, utf8_ascii.
Qed.

Lemma lex_get_fields lx c lx' : lex_get lx = (c, lx') →
  ∃ bad, stream_get (stream lx) = (c, stream lx', bad) ∧ saved_text lx' = saved_text lx.
Proof.
  unfold lex_get. destruct (stream_get (stream lx)) as [[c1 s] bad]. intros [= <- <-].
  exists bad. destruct bad; [unfold error_set; cbn; by destruct (error lx)|done].
Qed.

Lemma reading_next lx b c lx' : reading lx (Char b) → lex_get_save lx = (c, lx') →
  reading lx' c ∧ ∃ t, saved_text lx' = saved_text lx ++ t.
Proof.
  intros (Hok & Hseq & (k & Hpos & Hl) & pre & Hpre & Hsaved). unfold lex_get_save.
  destruct (lex_get lx) as [c1 lx1] eqn:Hg. apply lex_get_fields in Hg as (bad & Hg & Hs1).
  intros [= <- <-]. destruct c1 as [x| |];
    [|by split; [|exists []; rewrite app_nil_r]..].
  destruct (stream_get_char _ _ _ _ Hok Hg) as (_ & Hst' & Hseq' & Hl' & Hcase).
  cbn [reading lex_save with_saved stream saved_text]. rewrite Hs1.
  split; [|by exists [x]]. split; [by intros _; right|]. split; [done|].
  destruct Hcase as [[Hbuf Hp]|[He Hp]].
  - split; [exists (buffer_pos (stream lx)); rewrite Hp in *; by split|].
    exists pre. split; [done|]. rewrite Hsaved, <- (assoc (++)), Hp, Hbuf. f_equal.
    rewrite Hp, Hbuf in Hl'. by rewrite (take_S_r _ _ x).
  - split; [exists O; rewrite Hp in *; by split|].
    assert (take (buffer_pos (stream lx)) (buffer (stream lx)) = buffer (stream lx)) as Htake.
    { unfold buffer_empty in He. destruct (_ !! buffer_pos (stream lx)) as [y|] eqn:Hy;
        [|by apply take_ge, lookup_ge_None_1].
      bools. destruct (buffer (stream lx)) as [|z q] eqn:Hbuf; [done|].
      destruct (utf8_seq_low z q y Hseq) as [-> _]; [by apply list_elem_of_lookup_2 in Hy|lia|].
      rewrite Hpos in Hy. by destruct k. }
    exists (saved_text lx). split.
    + rewrite Hsaved, Htake. by apply utf8_app, utf8_one.
    + rewrite Hp. destruct (buffer (stream lx1)) as [|y q] eqn:Hb1; [done|].
      rewrite Hp in Hl'. cbn in Hl'. injection Hl' as ->. cbn. by rewrite take_0.
Qed.

Lemma saved_trans (lx lx1 lx2 : lex_t real) :
  (∃ t, saved_text lx1 = saved_text lx ++ t) → (∃ t, saved_text lx2 = saved_text lx1 ++ t) →
  ∃ t, saved_text lx2 = saved_text lx ++ t.
Proof. intros [t1 ->] [t2 ->]. exists (t1 ++ t2). by rewrite (assoc (++)). Qed.

Lemma saved_refl lx : ∃ t, saved_text lx = saved_text lx ++ t.
Proof. exists []. by rewrite app_nil_r. Qed.

Lemma reading_hex n c lx c' lx' : reading lx c → scan_hex n c lx = (Some c', lx') →
  reading lx' c' ∧ ∃ t, saved_text lx' = saved_text lx ++ t.
Proof.
  revert c lx; induction n as [|n IH]; intros c lx Hr; cbn [scan_hex].
  { intros [= <- <-]. split; [done|apply saved_refl]. }
  destruct c as [b| |]; [|done..]. destruct (l_isxdigit b); [|done].
  destruct (lex_get_save lx) as [c1 lx1] eqn:Hg.
  destruct (reading_next _ _ _ _ Hr Hg) as [Hr1 Ht1]. intros Hs.
  destruct (IH _ _ Hr1 Hs) as [Hr2 Ht2]. split; [done|by eapply saved_trans].
Qed.

Lemma reading_escape lx b c' lx' : reading lx (Char b) → scan_escape lx = (Some c', lx') →
  reading lx' c' ∧ ∃ t, saved_text lx' = saved_text lx ++ t.
Proof.
  intros Hr. unfold scan_escape. destruct (lex_get_save lx) as [c1 lx1] eqn:Hg.
  destruct (reading_next _ _ _ _ Hr Hg) as [Hr1 Ht1].
  destruct c1 as [x| |]; [|done..].
  destruct (is_char 117 x); [|destruct (is_short_escape x); [|done]];
    destruct (lex_get_save lx1) as [c2 lx2] eqn:Hg2;
    destruct (reading_next _ _ _ _ Hr1 Hg2) as [Hr2 Ht2].
  - intros Hs. destruct (reading_hex _ _ _ _ _ Hr2 Hs) as [Hr3 Ht3].
    split; [done|]. by eapply saved_trans; [|eapply saved_trans].
  - intros [= <- <-]. split; [done|by eapply saved_trans].
Qed.

Lemma reading_string fuel c lx lx' : reading lx c → scan_string_loop fuel c lx = (true, lx') →
  utf8 (saved_text lx') ∧ ∃ t, saved_text lx' = saved_text lx ++ t.
Proof.
  revert c lx; induction fuel as [|fuel IH]; intros c lx Hr; cbn [scan_string_loop]; [done|].
  destruct c as [b| |]; [|done..]. destruct (is_char 34 b) eqn:Hq.
  { intros [= <-]. split; [|apply saved_refl]. apply (reading_ascii lx b Hr).
    unfold is_char in Hq. bools. lia. }
  destruct (_ <=? _); [done|]. destruct (is_char 92 b).
  - destruct (scan_escape lx) as [[c1|] lx1] eqn:He; [|done].
    destruct (reading_escape _ _ _ _ Hr He) as [Hr1 Ht1]. intros Hs.
    destruct (IH _ _ Hr1 Hs) as [Hu Ht2]. split; [done|by eapply saved_trans].
  - destruct (lex_get_save lx) as [c1 lx1] eqn:Hg.
    destruct (reading_next _ _ _ _ Hr Hg) as [Hr1 Ht1]. intros Hs.
    destruct (IH _ _ Hr1 Hs) as [Hu Ht2]. split; [done|by eapply saved_trans].
Qed.

Lemma lex_scan_string_ok lx b d : reading lx (Char b) → u8 b < 0x80 → saved_text lx = [b] →
  depth lx = d → lex_ok d (lex_scan_string lx).
Proof.
  intros Hr Hb Hsaved Hd. unfold lex_scan_string. set (lx0 := with_token lx TOKEN_INVALID).
  assert (held (keeps TOKEN_INVALID d) lx0) as Hh by (split; [apply Hr|done]).
  pose proof (keeps_get TOKEN_INVALID d) as Kg. pose proof (keeps_pos TOKEN_INVALID d) as Kp.
  destruct (lex_get_save lx0) as [c lx1] eqn:Hg.
  destruct (reading_next lx0 b c lx1 Hr Hg) as [Hr1 Ht1].
  apply (lex_get_save_held _ Kg _ _ _ Hg) in Hh.
  destruct (scan_string_loop _ c lx1) as [ok lx2] eqn:Hs.
  apply (scan_string_loop_held _ Kg Kp _ _ _ _ _ Hs) in Hh. apply keeps_lex_ok in Hh; [|done].
  destruct ok; [|done].
  destruct (reading_string _ _ _ _ Hr1 Hs) as [Hu Ht2].
  destruct (saved_trans _ _ _ Ht1 Ht2) as [t Ht]. change (saved_text lx0) with (saved_text lx) in Ht.
  rewrite Hsaved in Ht. rewrite Ht in Hu |- *. cbn [app] in Hu. apply utf8_tail in Hu; [|done].
  change (zdrop 1 ([b] ++ t)) with t.
  destruct (decode_string _ t []) as [v|] eqn:Hdec; [|by apply lex_ok_error].
  apply lex_ok_token; [done|]. by apply (decode_string_utf8 _ _ _ _ Hu utf8_nil Hdec).
Qed.

(** *** Scanning *)

Lemma get_while_last fuel p lx c lx' : stream_ok (stream lx) →
  get_while fuel false p lx = (c, lx') → stream_ok (stream lx') ∧ saved_text lx' = saved_text lx ∧
  match c with
  | Char b => utf8_seq (buffer (stream lx')) ∧
      ∃ k, buffer_pos (stream lx') = S k ∧ buffer (stream lx') !! k = Some b
  | _ => True
  end.
Proof.
  revert lx; induction fuel as [|fuel IH]; intros lx Hok; cbn [get_while]; [by intros [= <- <-]|].
  destruct (lex_get lx) as [c1 lx1] eqn:Hg. apply lex_get_fields in Hg as (bad & Hg & Hs1).
  pose proof (stream_get_ok _ _ _ _ Hok Hg) as Hok1. destruct c1 as [b| |]; [|by intros [= <- <-]..].
  destruct (p b).
  - intros Hw. destruct (IH _ Hok1 Hw) as (? & Hs & ?). by rewrite <- Hs1.
  - intros [= <- <-]. split; [done|]. split; [done|].
    destruct (stream_get_char _ _ _ _ Hok Hg) as (_ & _ & Hseq & Hl & Hcase). split; [done|].
    destruct Hcase as [[_ Hp]|[_ Hp]]; rewrite Hp in *; eauto.
Qed.

Lemma lex_scan_ok flags lx d : stream_ok (stream lx) → depth lx = d →
  lex_ok d (lex_scan flags lx).
Proof.
  intros Hok Hd. unfold lex_scan. set (lx0 := with_saved lx []).
  destruct (lex_get_while _ _ lx0) as [c lx1] eqn:Hg.
  pose proof (keeps_get (token lx) d) as Kg. pose proof (keeps_pos (token lx) d) as Kp.
  assert (held (keeps (token lx) d) lx0) as Hh by done.
  apply (get_while_held _ Kg _ _ _ _ _ _ Hg) in Hh as (Hs1 & Ht1 & Hd1).
  apply get_while_last in Hg as (Hok1 & Hsv & Hlast); [|done].
  destruct c as [b| |]; [|by split..]. set (lx2 := lex_save lx1 b).
  assert (depth lx2 = d) as Hd2 by done. assert (stream_ok (stream lx2)) as Hok2 by done.
  destruct (is_punct b); [by split|]. destruct (is_char 34 b) eqn:Hq.
  { unfold is_char in Hq. bools. apply (lex_scan_string_ok lx2 b); [|lia| |done].
    - destruct Hlast as [Hseq (k & Hp & Hl)]. split; [done|]. split; [done|].
      split; [by exists k|]. exists []. split; [apply utf8_nil|]. cbn [lex_save with_saved saved_text stream lx2].
      rewrite Hsv, Hp. cbn [app saved_text with_saved lx0].
      destruct (buffer (stream lx1)) as [|x q] eqn:Hb; [done|].
      destruct (utf8_seq_low x q b Hseq) as [-> ->]; [by apply list_elem_of_lookup_2 in Hl|lia|].
      destruct k as [|k]; [done|]. by apply lookup_lt_Some in Hl; cbn in Hl; lia.
    - cbn. by rewrite Hsv. }
  destruct (_ || _); [by apply lex_scan_number_ok|].
  destruct (l_isalpha b); [|by split].
  destruct (lex_get_while _ _ lx2) as [c lx3] eqn:Hw.
  assert (held (keeps (token lx) d) lx2) as Hh2 by done.
  apply (get_while_held _ Kg _ _ _ _ _ _ Hw), (unget_unsave_held _ Kp _ c) in Hh2 as (Hs3 & _ & Hd3).
  split; [done|]. split; [done|]. cbn [token with_token]. by repeat case_bool_decide.
Qed.
End tokens.

(** ** Accepted values

    [json_wf flags levels v]: [v] nests at most [levels] deep, its texts are
    UTF-8, its integers 64-bit, its objects have distinct keys without NUL,
    and strings contain NUL only where the flags allow it. *)
Inductive json_wf {real : Type} (flags : load_flags) : Z → json real → Prop :=
| wf_string n s : 1 <= n → utf8_check_string s = true →
    (JSON_ALLOW_NUL flags = true ∨ Byte.x00 ∉ s) → json_wf flags n (JString s)
| wf_integer n z : 1 <= n → - 2 ^ 63 <= z < 2 ^ 63 → json_wf flags n (JInteger z)
| wf_real n r : 1 <= n → json_wf flags n (JReal r)
| wf_true n : 1 <= n → json_wf flags n JTrue
| wf_false n : 1 <= n → json_wf flags n JFalse
| wf_null n : 1 <= n → json_wf flags n JNull
| wf_array n l : 1 <= n → Forall (json_wf flags (n - 1)) l → json_wf flags n (JArray l)
| wf_object n ms : 1 <= n → NoDup (map fst ms) →
    Forall (λ kv, utf8_check_string kv.1 = true ∧ (Byte.x00 ∉ kv.1) ∧ json_wf flags (n - 1) kv.2) ms →
    json_wf flags n (JObject ms).

Section accepted.
Context {real : Type} `{Strtod real} (flags : load_flags).
Implicit Types (lx : lex_t real) (ms : list (bytes * json real)).

Definition member_ok (n : Z) (kv : bytes * json real) : Prop :=
  utf8_check_string kv.1 = true ∧ (Byte.x00 ∉ kv.1) ∧ json_wf flags n kv.2.

Lemma object_setn_keys ms k v :
  map fst (object_setn ms k v) = if bool_decide (k ∈ map fst ms) then map fst ms else map fst ms ++ [k].
Proof.
  induction ms as [|[k' v'] ms IH]; cbn [object_setn map fst]; [by rewrite bool_decide_false by set_solver|].
  destruct (bool_decide_reflect (k' = k)) as [->|Hne].
  - by rewrite bool_decide_true by set_solver.
  - cbn [map fst]. rewrite IH. destruct (bool_decide_reflect (k ∈ map fst ms)).
    + by rewrite bool_decide_true by set_solver.
    + by rewrite bool_decide_false by set_solver.
Qed.

Lemma object_setn_NoDup ms k v : NoDup (map fst ms) → NoDup (map fst (object_setn ms k v)).
Proof.
  rewrite object_setn_keys. destruct (bool_decide_reflect (k ∈ map fst ms)); [done|].
  intros Hnd. apply NoDup_app. split; [done|]. split; [set_solver|apply NoDup_singleton].
Qed.

Lemma object_setn_Forall n ms k v : Forall (member_ok n) ms → member_ok n (k, v) →
  Forall (member_ok n) (object_setn ms k v).
Proof.
  intros Hms Hkv. induction Hms as [|[k' v'] ms Hx Hms IH]; cbn [object_setn]; [by constructor|].
  destruct (bool_decide_reflect (k' = k)) as [->|_]; by constructor.
Qed.

Lemma scan_after lx d : stream_ok (stream lx) → depth lx = d →
  let lx' := lex_scan flags lx in
  stream_ok (stream lx') ∧ depth lx' = d ∧ tok_ok (token lx').
Proof. apply lex_scan_ok. Qed.

Definition value_sound (d : Z) (o : option parsed) : Prop :=
  ∀ v lx, o = Some (Some v, lx) →
  json_wf flags (JSON_PARSER_MAX_DEPTH - d) v ∧ stream_ok (stream lx) ∧ depth lx = d.

Definition inner_sound (d : Z) (o : option parsed) : Prop :=
  ∀ v lx, o = Some (Some v, lx) → d <= JSON_PARSER_MAX_DEPTH →
  json_wf flags (JSON_PARSER_MAX_DEPTH - d + 1) v ∧ stream_ok (stream lx) ∧ depth lx = d.

Lemma value_step_sound members elements lx d : lex_ok d lx →
  (∀ lx, lex_ok (d + 1) lx → inner_sound (d + 1) (members lx)) →
  (∀ lx, lex_ok (d + 1) lx → inner_sound (d + 1) (elements lx)) →
  value_sound d (value_step members elements flags lx).
Proof.
  intros (Hok & Hd & Ht) Hm He v lx'. unfold value_step. cbn [depth with_depth token]. rewrite Hd.
  destruct (_ <? _) eqn:Hdeep; [done|]. bools.
  set (lx1 := with_depth lx (d + 1)).
  assert (1 <= JSON_PARSER_MAX_DEPTH - d) as Hn by lia.
  assert (depth lx1 - 1 = d) as Hd1 by (cbn; lia).
  pose proof (scan_after lx1 (d + 1) Hok eq_refl) as Hscan.
  assert (∀ o, inner_sound (d + 1) o →
    (λ r : parsed, match r with
       | (Some v, lx) => (Some v, with_depth lx (depth lx - 1))
       | (None, lx) => (None, lx) end) <$> o = Some (Some v, lx') →
    json_wf flags (JSON_PARSER_MAX_DEPTH - d) v ∧ stream_ok (stream lx') ∧ depth lx' = d) as Hinner.
  { intros [[[w|] l]|] Ho; cbn; intros Heq; try done. injection Heq as <- <-.
    destruct (Ho w l eq_refl ltac:(lia)) as (Hw & Hs & Hdl). cbn.
    replace (JSON_PARSER_MAX_DEPTH - (d + 1) + 1) with (JSON_PARSER_MAX_DEPTH - d) in Hw by lia.
    split; [done|]. split; [done|lia]. }
  destruct (token lx) as [| |s|z|r| | | |c]; try done;
    try (intros [= <- <-]; repeat split; try done; constructor; done).
  - destruct (_ && _) eqn:Hnul; [done|]. intros [= <- <-]. split; [|done].
    constructor; [done|by apply utf8_check_string_ok|].
    apply andb_false_iff in Hnul as [Hnul|Hnul]; bools; auto.
  - destruct (is_char 123 c); [|destruct (is_char 91 c); [|done]].
    + destruct (token_is 125 _).
      * intros [= <- <-]. split; [|split; [apply Hscan|cbn; destruct Hscan as (_ & -> & _); lia]].
        constructor; [done|constructor|constructor].
      * by apply Hinner, Hm.
    + destruct (token_is 93 _).
      * intros [= <- <-]. split; [|split; [apply Hscan|cbn; destruct Hscan as (_ & -> & _); lia]].
        constructor; [done|constructor].
      * by apply Hinner, He.
Qed.

Lemma members_step_sound value members ms lx d : lex_ok d lx →
  NoDup (map fst ms) → Forall (member_ok (JSON_PARSER_MAX_DEPTH - d)) ms →
  (∀ lx, lex_ok d lx → value_sound d (value lx)) →
  (∀ ms lx, lex_ok d lx → NoDup (map fst ms) → Forall (member_ok (JSON_PARSER_MAX_DEPTH - d)) ms →
     inner_sound d (members ms lx)) →
  inner_sound d (members_step value members flags ms lx).
Proof.
  intros (Hok & Hd & Ht) Hnd Hms Hv Hm v lx'. unfold members_step.
  destruct (token lx) as [| |key|z|r| | | |c]; try done. cbn [tok_ok] in Ht.
  destruct (bool_decide_reflect (Byte.x00 ∈ key)) as [|Hnul]; [done|].
  destruct (_ && _); [done|].
  destruct (scan_after lx d Hok Hd) as (Hok1 & Hd1 & _). set (lx1 := lex_scan flags lx) in *.
  destruct (token_is 58 lx1); cbn [negb]; [|done].
  pose proof (scan_after lx1 d Hok1 Hd1) as Hok2.
  destruct (value (lex_scan flags lx1)) as [[[w|] lx3]|] eqn:Hval; [|done|done].
  destruct (Hv _ Hok2 w lx3 Hval) as (Hw & Hok3 & Hd3).
  destruct (scan_after lx3 d Hok3 Hd3) as (Hok4 & Hd4 & _). set (lx4 := lex_scan flags lx3) in *.
  assert (member_ok (JSON_PARSER_MAX_DEPTH - d) (key, w)) as Hkw.
  { split; [by apply utf8_check_string_ok|done]. }
  pose proof (object_setn_NoDup ms key w Hnd) as Hnd'.
  pose proof (object_setn_Forall _ ms key w Hms Hkw) as Hms'.
  destruct (token_is 44 lx4).
  - by apply Hm; [apply scan_after| |].
  - destruct (token_is 125 lx4); [|done]. intros [= <- <-] Hle. split; [|done].
    constructor; [lia|done|]. by replace (_ + 1 - 1) with (JSON_PARSER_MAX_DEPTH - d) by lia.
Qed.

Lemma elements_step_sound value elements l lx d : lex_ok d lx →
  Forall (json_wf flags (JSON_PARSER_MAX_DEPTH - d)) l →
  (∀ lx, lex_ok d lx → value_sound d (value lx)) →
  (∀ l lx, lex_ok d lx → Forall (json_wf flags (JSON_PARSER_MAX_DEPTH - d)) l →
     inner_sound d (elements l lx)) →
  inner_sound d (elements_step value elements flags l lx).
Proof.
  intros Hlx Hl Hv He v lx'. unfold elements_step.
  assert (∀ o, o = Some (Some v, lx') → o = match value lx with
      | None => None
      | Some (None, lx) => Some (parse_failure lx)
      | Some (Some elem, lx) =>
          if token_is 44 (lex_scan flags lx)
          then elements (l ++ [elem]) (lex_scan flags (lex_scan flags lx))
          else if token_is 93 (lex_scan flags lx)
          then Some (Some (JArray (l ++ [elem])), lex_scan flags lx)
          else Some (parse_failure (error_set (lex_scan flags lx) json_error_invalid_syntax))
      end → d <= JSON_PARSER_MAX_DEPTH →
    json_wf flags (JSON_PARSER_MAX_DEPTH - d + 1) v ∧ stream_ok (stream lx') ∧ depth lx' = d) as Hgo.
  { intros o -> Heq Hle. destruct (value lx) as [[[w|] lx3]|] eqn:Hval; [|done|done].
    destruct (Hv _ Hlx w lx3 Hval) as (Hw & Hok3 & Hd3).
    destruct (scan_after lx3 d Hok3 Hd3) as (Hok4 & Hd4 & _). set (lx4 := lex_scan flags lx3) in *.
    assert (Forall (json_wf flags (JSON_PARSER_MAX_DEPTH - d)) (l ++ [w])) as Hl'
      by (by apply Forall_app_2, Forall_singleton).
    destruct (token_is 44 lx4).
    - symmetry in Heq. apply (He (l ++ [w]) (lex_scan flags lx4)); [by apply scan_after|done|done|done].
    - destruct (token_is 93 lx4); [|done]. injection Heq as -> ->. split; [|done].
      constructor; [lia|]. by replace (_ + 1 - 1) with (JSON_PARSER_MAX_DEPTH - d) by lia. }
  destruct (token lx); try done; intros Heq; by eapply Hgo.
Qed.

Lemma parse_sound fuel d :
  (∀ lx, lex_ok d lx → value_sound d (parse_value fuel flags lx)) ∧
  (∀ ms lx, lex_ok d lx → NoDup (map fst ms) →
     Forall (member_ok (JSON_PARSER_MAX_DEPTH - d)) ms →
     inner_sound d (parse_members fuel flags ms lx)) ∧
  (∀ l lx, lex_ok d lx → Forall (json_wf flags (JSON_PARSER_MAX_DEPTH - d)) l →
     inner_sound d (parse_elements fuel flags l lx)).
Proof.
  revert d; induction fuel as [|fuel IH]; intros d; [by repeat split|].
  destruct (IH d) as (IHv & IHm & IHe). destruct (IH (d + 1)) as (_ & IHm1 & IHe1).
  split; [|split].
  - intros lx Hlx. rewrite parse_value_S. apply value_step_sound; [done| |].
    + intros lx1 H1. apply IHm1; [done|constructor|constructor].
    + intros lx1 H1. apply IHe1; [done|constructor].
  - intros ms lx Hlx Hnd Hms. rewrite parse_members_S. by apply members_step_sound.
  - intros l lx Hlx Hl. rewrite parse_elements_S. by apply elements_step_sound.
Qed.
End accepted.

(** ** Reading back a flat object

    The documents the host writes itself are objects of plain string members
    without white space; [flat_object] is their text. *)
Definition plain (c : byte) : bool :=
  (0x20 <=? u8 c) && (u8 c <? 0x80) && negb (is_char 34 c) && negb (is_char 92 c).

Definition quoted (s : bytes) : bytes := QUOTE :: s ++ [QUOTE].

Definition flat_member (kv : bytes * bytes) : bytes := quoted kv.1 ++ bs ":" ++ quoted kv.2.

Fixpoint flat_members (kvs : list (bytes * bytes)) : bytes :=
  match kvs with
  | [] => []
  | [kv] => flat_member kv
  | kv :: rest => flat_member kv ++ bs "," ++ flat_members rest
  end.

Definition flat_object (kvs : list (bytes * bytes)) : bytes :=
  bs "{" ++ flat_members kvs ++ bs "}".

Definition flat_json {real} (kvs : list (bytes * bytes)) : list (bytes * json real) :=
  map (λ kv, (kv.1, JString kv.2)) kvs.

Section flat.
Context {real : Type} `{Strtod real} (flags : load_flags).
Implicit Types lx : lex_t real.

(** The stream stands before [rest]. *)
Definition before lx (rest : bytes) : Prop :=
  state (stream lx) = STREAM_STATE_OK ∧ data (stream lx) = rest ∧
  buffer_empty (stream lx) = true.

Lemma lex_get_ascii lx c rest : before lx (c :: rest) → u8 c < 0x80 →
  lex_get lx = (Char c, with_stream lx (mkStream rest [c] 1 STREAM_STATE_OK)).
Proof.
  intros (Hs & Hd & Hb) Hc. unfold lex_get, stream_get, stream_fill. rewrite Hs, Hb, Hd.
  rewrite (proj2 (Z.leb_gt _ _)) by done. done.
Qed.

Lemma before_step lx c rest : before (with_stream lx (mkStream rest [c] 1 STREAM_STATE_OK)) rest.
Proof. done. Qed.

Lemma lex_get_save_ascii lx c rest : before lx (c :: rest) → u8 c < 0x80 →
  lex_get_save lx =
  (Char c, lex_save (with_stream lx (mkStream rest [c] 1 STREAM_STATE_OK)) c).
Proof. intros Hb Hc. unfold lex_get_save. by rewrite (lex_get_ascii _ _ _ Hb Hc). Qed.

Lemma plain_spec c : plain c = true →
  0x20 <= u8 c < 0x80 ∧ is_char 34 c = false ∧ is_char 92 c = false.
Proof. unfold plain. intros Hp. apply andb_true_iff in Hp as [Hp ?]. bools. auto. Qed.

(** The string loop reads plain text up to the closing quote. *)
Lemma scan_plain s c lx rest fuel : forallb plain (c :: s) = true →
  before lx (s ++ QUOTE :: rest) → (length s + 1 < fuel)%nat →
  ∃ lx', scan_string_loop fuel (Char c) lx = (true, lx') ∧
    saved_text lx' = saved_text lx ++ s ++ [QUOTE] ∧ before lx' rest ∧
    depth lx' = depth lx ∧ token lx' = token lx ∧ error lx' = error lx.
Proof.
  revert c lx fuel; induction s as [|x s IH]; intros c lx fuel Hp Hb Hf;
    (destruct fuel as [|fuel]; [lia|]);
    cbn [forallb] in Hp; apply andb_true_iff in Hp as [Hc Hs];
    apply plain_spec in Hc as (Hr & Hq & Hbs); cbn [scan_string_loop];
    rewrite Hq, Hbs, (proj2 (Z.leb_gt _ _)) by lia; cbn [app] in *.
  - rewrite (lex_get_save_ascii _ _ _ Hb) by done.
    destruct fuel as [|fuel]; [cbn in Hf; lia|]. eexists. split; [done|]. by repeat split.
  - assert (u8 x < 0x80) by (cbn in Hs; apply andb_true_iff in Hs as [Hx _];
      apply plain_spec in Hx; lia).
    rewrite (lex_get_save_ascii _ _ _ Hb) by done.
    destruct (IH x (lex_save (with_stream lx (mkStream (s ++ QUOTE :: rest) [x] 1 STREAM_STATE_OK)) x)
                fuel Hs) as (lx' & -> & Hsv & Hb' & Hrest); [done|cbn in Hf; lia|].
    exists lx'. split; [done|]. split; [|by split].
    rewrite Hsv. cbn. by rewrite <- (assoc (++)).
Qed.

Lemma decode_plain s t fuel : forallb plain s = true → (length s < fuel)%nat →
  decode_string fuel (s ++ [QUOTE]) t = Some (t ++ s).
Proof.
  revert t fuel; induction s as [|c s IH]; intros t fuel Hp Hf;
    (destruct fuel as [|fuel]; [lia|]); cbn [app decode_string].
  - by rewrite app_nil_r.
  - cbn [forallb] in Hp. apply andb_true_iff in Hp as [Hc Hs].
    apply plain_spec in Hc as (_ & -> & ->). rewrite IH; [|done|cbn in Hf; lia].
    by rewrite <- (assoc (++)).
Qed.

(** The lexer stands before [rest] at depth [d] with current token [t]. *)
Record at_token lx (t : token_t real) (rest : bytes) (d : Z) : Prop := {
  at_before : before lx rest;
  at_tok : token lx = t;
  at_depth : depth lx = d
}.

Lemma before_avail lx rest : before lx rest → (length rest <= av lx)%nat.
Proof. intros (Hs & Hd & _). unfold av, avail. rewrite Hs, Hd. lia. Qed.

Lemma scan_string_plain lx s rest : forallb plain s = true → before lx (s ++ QUOTE :: rest) →
  saved_text lx = [QUOTE] → at_token (lex_scan_string lx) (TOKEN_STRING s) rest (depth lx).
Proof.
  intros Hs Hb Hsv. unfold lex_scan_string. set (lx0 := with_token lx TOKEN_INVALID).
  assert (before lx0 (s ++ QUOTE :: rest)) as Hb0 by done.
  pose proof (before_avail _ _ Hb) as Hav. unfold av in Hav.
  change (stream lx0) with (stream lx). destruct s as [|c s]; cbn [app] in *.
  - rewrite (lex_get_save_ascii _ _ _ Hb0) by done.
    cbn [scan_string_loop]. change (is_char 34 QUOTE) with true. cbn [lex_save with_saved saved_text].
    change (saved_text (with_stream lx0 _)) with (saved_text lx). rewrite Hsv. by split.
  - assert (u8 c < 0x80) as Hc by (cbn in Hs; apply andb_true_iff in Hs as [Hx _];
      apply plain_spec in Hx; lia).
    rewrite (lex_get_save_ascii _ _ _ Hb0) by done.
    set (lx1 := lex_save (with_stream lx0 (mkStream (s ++ QUOTE :: rest) [c] 1 STREAM_STATE_OK)) c).
    destruct (scan_plain s c lx1 rest (S (S (avail (stream lx)))) Hs)
      as (lx2 & -> & Hsv2 & Hb2 & Hd2 & Ht2 & He2); [done|cbn in Hav; rewrite length_app in Hav; lia|].
    cbn [lx1 lex_save with_saved saved_text] in Hsv2.
    change (saved_text (with_stream lx0 _)) with (saved_text lx) in Hsv2. rewrite Hsv in Hsv2.
    rewrite Hsv2. change (zdrop 1 (([QUOTE] ++ [c]) ++ s ++ [QUOTE])) with ((c :: s) ++ [QUOTE]).
    rewrite decode_plain by (try done; rewrite ?length_app; cbn; lia). by split.
Qed.

(** One scan over a character that is not white space. *)
Lemma lex_scan_first lx c rest : before lx (c :: rest) → u8 c < 0x80 → l_isspace c = false →
  lex_get_while false l_isspace (with_saved lx []) =
  (Char c, with_stream (with_saved lx []) (mkStream rest [c] 1 STREAM_STATE_OK)).
Proof.
  intros Hb Hc Hsp. unfold lex_get_while. cbn [get_while].
  by rewrite (lex_get_ascii (with_saved lx []) c rest Hb Hc), Hsp.
Qed.

Lemma lex_scan_quoted lx s rest : forallb plain s = true → before lx (quoted s ++ rest) →
  at_token (lex_scan flags lx) (TOKEN_STRING s) rest (depth lx).
Proof.
  intros Hs Hb. unfold lex_scan. unfold quoted in Hb. cbn [app] in Hb. rewrite <- (assoc (++)) in Hb.
  rewrite (lex_scan_first _ _ _ Hb) by done.
  change (is_punct QUOTE) with false. change (is_char 34 QUOTE) with true. cbn iota.
  set (lx1 := lex_save _ _). change (depth lx) with (depth lx1). by apply scan_string_plain.
Qed.

Lemma lex_scan_punct lx c rest : is_punct c = true → before lx (c :: rest) →
  at_token (lex_scan flags lx) (TOKEN_CHAR c) rest (depth lx).
Proof.
  intros Hp Hb. unfold lex_scan. rewrite (lex_scan_first _ _ _ Hb) by (by destruct c).
  rewrite Hp. by split.
Qed.

Lemma lex_scan_end lx : before lx [] → token (lex_scan flags lx) = TOKEN_EOF.
Proof.
  intros (Hs & Hd & Hb). unfold lex_scan, lex_get_while. cbn [get_while].
  unfold lex_get, stream_get, stream_fill. cbn [stream with_saved]. by rewrite Hs, Hb, Hd.
Qed.

(** *** The parser on a flat object *)

Definition flat_ok (kvs : list (bytes * bytes)) : Prop :=
  Forall (λ kv, forallb plain kv.1 = true ∧ forallb plain kv.2 = true) kvs.

Lemma plain_no_nul s : forallb plain s = true → Byte.x00 ∉ s.
Proof.
  intros Hs Hin. rewrite forallb_forall in Hs.
  apply list_elem_of_In in Hin. by apply Hs in Hin.
Qed.

Lemma object_getn_None (ms : list (bytes * json real)) k :
  k ∉ map fst ms → object_getn ms k = None.
Proof.
  induction ms as [|[k' v] ms IH]; cbn; [done|]. intros Hk.
  apply not_elem_of_cons in Hk as [Hne Hk]. rewrite bool_decide_false by congruence. by apply IH.
Qed.

Lemma object_setn_new (ms : list (bytes * json real)) k v :
  k ∉ map fst ms → object_setn ms k v = ms ++ [(k, v)].
Proof.
  induction ms as [|[k' w] ms IH]; cbn; [done|]. intros Hk.
  apply not_elem_of_cons in Hk as [Hne Hk]. rewrite bool_decide_false by congruence. by rewrite IH.
Qed.

Lemma flat_members_cons kv kvs :
  flat_members (kv :: kvs) =
  flat_member kv ++ match kvs with [] => [] | _ => bs "," ++ flat_members kvs end.
Proof. destruct kvs; cbn [flat_members]; by rewrite ?app_nil_r. Qed.

Lemma parse_flat kvs ms lx d fuel rest : flat_ok kvs → NoDup (map fst ms ++ map fst kvs) →
  match kvs with
  | [] => False
  | kv :: kvs' =>
      at_token lx (TOKEN_STRING kv.1)
        (bs ":" ++ quoted kv.2
           ++ match kvs' with [] => [] | _ => bs "," ++ flat_members kvs' end ++ bs "}" ++ rest) d
  end → d < JSON_PARSER_MAX_DEPTH → (length kvs < fuel)%nat →
  ∃ lx', parse_members fuel flags ms lx = Some (Some (JObject (ms ++ flat_json kvs)), lx') ∧
    before lx' rest ∧ depth lx' = d.
Proof.
  revert ms lx fuel; induction kvs as [|[k v] kvs IH]; intros ms lx fuel Hok Hnd Hat Hd Hf; [done|].
  destruct fuel as [|fuel]; [cbn in Hf; lia|]. destruct Hat as [Hb Ht Hdep].
  apply Forall_cons in Hok as [[Hk Hv] Hok]. cbn [fst snd] in *.
  rewrite parse_members_S. unfold members_step. rewrite Ht.
  rewrite (bool_decide_false (Byte.x00 ∈ k)) by (by apply plain_no_nul).
  assert (k ∉ map fst ms) as Hnew.
  { cbn [map fst] in Hnd. apply NoDup_app in Hnd as (_ & Hdis & _). intros Hin.
    by apply (Hdis _ Hin); left. }
  rewrite object_getn_None, bool_decide_false, andb_false_r by (done || by intros []).
  change (bs ":") with [Byte.x3a] in Hb. cbn [app] in Hb.
  destruct (lex_scan_punct lx Byte.x3a _ eq_refl Hb) as [Hb1 Ht1 Hd1].
  set (lx1 := lex_scan flags lx) in *. unfold token_is at 1. rewrite Ht1.
  change (is_char 58 Byte.x3a) with true. cbn [negb].
  destruct (lex_scan_quoted lx1 v _ Hv Hb1) as [Hb2 Ht2 Hd2].
  set (lx2 := lex_scan flags lx1) in *.
  assert (∃ lx3, parse_value fuel flags lx2 = Some (Some (JString v), lx3) ∧
    stream lx3 = stream lx2 ∧ depth lx3 = d) as (lx3 & -> & Hs3 & Hd3).
  { destruct fuel as [|fuel]; [cbn in Hf; lia|]. rewrite parse_value_S. unfold value_step.
    cbn [depth with_depth token]. rewrite Hd2, Hd1, Hdep, ltb_ge_false, Ht2 by lia.
    rewrite (bool_decide_false (Byte.x00 ∈ v)), andb_false_r by (by apply plain_no_nul).
    eexists. split; [done|]. cbn. split; [done|lia]. }
  rewrite object_setn_new by done.
  assert (before lx3 (match kvs with [] => [] | _ => bs "," ++ flat_members kvs end ++ bs "}" ++ rest))
    as Hb3 by (unfold before; by rewrite Hs3).
  destruct kvs as [|[k' v'] kvs].
  - cbn [app] in Hb3. change (bs "}") with [Byte.x7d] in Hb3. cbn [app] in Hb3.
    destruct (lex_scan_punct lx3 Byte.x7d _ eq_refl Hb3) as [Hb4 Ht4 Hd4].
    unfold token_is. rewrite Ht4. change (is_char 44 Byte.x7d) with false.
    change (is_char 125 Byte.x7d) with true. cbn iota. eexists. split; [done|]. by rewrite Hd4.
  - change (bs ",") with [Byte.x2c] in Hb3. cbn [app] in Hb3.
    destruct (lex_scan_punct lx3 Byte.x2c _ eq_refl Hb3) as [Hb4 Ht4 Hd4].
    set (lx4 := lex_scan flags lx3) in *. unfold token_is. rewrite Ht4.
    change (is_char 44 Byte.x2c) with true. cbn iota.
    rewrite flat_members_cons in Hb4. unfold flat_member in Hb4. cbn [fst snd] in Hb4.
    rewrite <- !(assoc (++)) in Hb4. pose proof Hok as Hok'. apply Forall_cons in Hok' as [[Hk' _] _].
    destruct (lex_scan_quoted lx4 k' _ Hk' Hb4) as [Hb5 Ht5 Hd5].
    destruct (IH (ms ++ [(k, JString v)]) (lex_scan flags lx4) fuel) as (lx' & -> & Hb' & Hd');
      [done| | |done|cbn in Hf |- *; lia|].
    + rewrite map_app, <- (assoc (++)). done.
    + split; [done|done|]. by rewrite Hd5, Hd4.
    + exists lx'. split; [|done]. by rewrite <- (assoc (++)).
Qed.
End flat.

(** Reading back a flat object. *)
Lemma load_flat_object {real} `{Strtod real} flags kvs : kvs ≠ [] → flat_ok kvs →
  NoDup (map fst kvs) → JSON_DISABLE_EOF_CHECK flags = false →
  json_loadb (flat_object kvs) flags = Some (inl (JObject (flat_json kvs) : json real)).
Proof.
  intros Hne Hok Hnd Heof. destruct kvs as [|kv kvs]; [done|].
  unfold json_loadb, parse_json. set (fuel := (2 * _ + 3)%nat).
  assert (length (kv :: kvs) + 2 <= fuel)%nat as Hfuel.
  { assert (∀ l, (length l <= length (flat_members l))%nat) as Hl.
    { intros l. induction l as [|x l IH]; [done|]. rewrite flat_members_cons, length_app.
      unfold flat_member, quoted. destruct l; cbn [length app] in *; [lia|].
      rewrite !length_app in *. cbn [length] in *. lia. }
    pose proof (Hl (kv :: kvs)). unfold fuel, flat_object. rewrite !length_app. cbn. cbn in *. lia. }
  assert (before (with_depth (lex_init (flat_object (kv :: kvs)) : lex_t real) 0)
            (Byte.x7b :: flat_members (kv :: kvs) ++ bs "}")) as Hb by done.
  destruct (lex_scan_punct flags _ Byte.x7b _ eq_refl Hb) as [Hb1 Ht1 Hd1].
  set (lx1 := lex_scan flags _) in *. unfold token_is. rewrite Ht1.
  change (is_char 91 Byte.x7b) with false. change (is_char 123 Byte.x7b) with true.
  cbn [negb]. rewrite andb_false_r.
  destruct fuel as [|fuel]; [lia|]. rewrite parse_value_S. unfold value_step.
  cbn [depth with_depth token]. rewrite Hd1. cbn [depth with_depth].
  rewrite (ltb_ge_false JSON_PARSER_MAX_DEPTH (0 + 1)), Ht1 by done.
  change (is_char 123 Byte.x7b) with true. cbn iota.
  set (lx2 := with_depth lx1 (0 + 1)). assert (before lx2 (flat_members (kv :: kvs) ++ bs "}")) as Hb2 by done.
  rewrite flat_members_cons in Hb2. unfold flat_member in Hb2. rewrite <- !(assoc (++)) in Hb2.
  pose proof Hok as Hok'. apply Forall_cons in Hok' as [[Hk _] _].
  destruct (lex_scan_quoted flags lx2 _ _ Hk Hb2) as [Hb3 Ht3 Hd3].
  unfold token_is at 1. rewrite Ht3.
  destruct (parse_flat flags (kv :: kvs) [] (lex_scan flags lx2) 1 fuel []) as (lx' & -> & Hb' & Hd');
    [done|done| |done|cbn in *; lia|].
  { split; [|done|done]. by rewrite app_nil_r. }
  cbn [fmap option_fmap option_map]. rewrite Heof.
  by rewrite (lex_scan_end flags (with_depth lx' (depth lx' - 1)) Hb').
Qed.

(** ** A failed parse says why *)

Section reported.
Context {real : Type} `{Strtod real} (flags : load_flags).
Implicit Types lx : lex_t real.

Definition reported (o : option (@parsed real)) : Prop :=
  ∀ lx, o = Some (None, lx) → is_Some (error lx).

Lemma error_set_some lx code : is_Some (error (error_set lx code)).
Proof. unfold error_set. destruct (error lx) eqn:He; [by rewrite He|by eexists]. Qed.

Lemma reported_failure lx code : reported (Some (parse_failure (error_set lx code))).
Proof. intros lx' [= <-]. apply error_set_some. Qed.

Lemma value_step_reported members elements lx :
  (∀ lx, reported (members lx)) → (∀ lx, reported (elements lx)) →
  reported (value_step members elements flags lx).
Proof.
  intros Hm He. unfold value_step. destruct (_ <? _); [apply reported_failure|].
  assert (∀ o, reported o → reported ((λ r : parsed, match r with
    | (Some v, lx) => (Some v, with_depth lx (depth lx - 1))
    | (None, lx) => (None, lx) end) <$> o)) as Hdone.
  { intros [[[v|] l]|] Ho lx'; cbn; intros Heq; try done. injection Heq as <-. by apply Ho. }
  destruct (token _); try apply reported_failure; try done.
  - destruct (_ && _); [apply reported_failure|done].
  - repeat split_test; try done; try apply reported_failure; apply Hdone; auto.
Qed.

Lemma members_step_reported value members ms lx :
  (∀ lx, reported (value lx)) → (∀ ms lx, reported (members ms lx)) →
  reported (members_step value members flags ms lx).
Proof.
  intros Hv Hm. unfold members_step. destruct (token lx); try apply reported_failure.
  destruct (bool_decide _); [apply reported_failure|]. destruct (_ && _); [apply reported_failure|].
  destruct (token_is 58 _); cbn [negb]; [|apply reported_failure].
  pose proof (Hv (lex_scan flags (lex_scan flags lx))) as Hval.
  destruct (value _) as [[[w|] lx3]|]; [|intros lx' [= <-]; by apply Hval|done].
  destruct (token_is 44 _); [apply Hm|]. destruct (token_is 125 _); [done|apply reported_failure].
Qed.

Lemma elements_step_reported value elements l lx :
  (∀ lx, reported (value lx)) → (∀ l lx, reported (elements l lx)) →
  reported (elements_step value elements flags l lx).
Proof.
  intros Hv He. unfold elements_step.
  assert (reported match value lx with
      | None => None
      | Some (None, lx) => Some (parse_failure lx)
      | Some (Some elem, lx) =>
          if token_is 44 (lex_scan flags lx)
          then elements (l ++ [elem]) (lex_scan flags (lex_scan flags lx))
          else if token_is 93 (lex_scan flags lx)
          then Some (Some (JArray (l ++ [elem])), lex_scan flags lx)
          else Some (parse_failure (error_set (lex_scan flags lx) json_error_invalid_syntax))
      end) as Hgo; [|destruct (token lx); try done; apply reported_failure].
  pose proof (Hv lx) as Hval.
  destruct (value lx) as [[[w|] lx3]|]; [|intros lx' [= <-]; by apply Hval|done].
  destruct (token_is 44 _); [apply He|]. destruct (token_is 93 _); [done|apply reported_failure].
Qed.

Lemma parse_reported fuel :
  (∀ lx, reported (parse_value fuel flags lx)) ∧
  (∀ ms lx, reported (parse_members fuel flags ms lx)) ∧
  (∀ l lx, reported (parse_elements fuel flags l lx)).
Proof.
  induction fuel as [|fuel (IHv & IHm & IHe)]; [by repeat split|].
  split; [|split]; intros.
  - rewrite parse_value_S. by apply value_step_reported.
  - rewrite parse_members_S. by apply members_step_reported.
  - rewrite parse_elements_S. by apply elements_step_reported.
Qed.
End reported.

(** What a load accepts is well formed. *)
Lemma loaded_wf {real} `{Strtod real} input flags (v : json real) :
  json_loadb input flags = Some (inl v) → json_wf flags JSON_PARSER_MAX_DEPTH v.
Proof.
  unfold json_loadb, parse_json. set (lx := lex_scan flags _).
  assert (lex_ok 0 lx) as Hlx.
  { apply lex_scan_ok; [|done]. intros _. by left. }
  destruct (_ && _); [done|].
  destruct (parse_sound (real := real) flags (2 * length input + 3) 0) as [Hv _].
  specialize (Hv lx Hlx). destruct (parse_value _ flags lx) as [[[w|] lx']|]; [|done|done].
  destruct (Hv w lx' eq_refl) as (Hw & _).
  destruct (JSON_DISABLE_EOF_CHECK flags); [by intros [= <-]|].
  destruct (token _); intros Heq; try done. by injection Heq as <-.
Qed.

(** ** Properties *)

(** C21. [json_loadb] returns on every input, with a value or with an error
    code: the recursion always ends within its fuel. *)
Theorem json_loadb_total {real} `{Strtod real} input flags :
  ∃ r : json real + json_error_code,
    json_loadb input flags = Some (match r with inl v => inl v | inr e => inr (Some e) end).
Proof.
  unfold json_loadb, parse_json. set (lx := lex_scan flags _).
  assert (av lx <= length input)%nat as Hav.
  { unfold lx. destruct (lex_scan_av flags (with_depth (lex_init input : lex_t real) 0)) as [Hle _].
    unfold av at 2, avail in Hle. cbn in Hle. lia. }
  assert (∀ lx : lex_t real, ∀ code, ∃ r : json real + json_error_code,
    Some (inr (error (error_set lx code))) =
    Some (match r with inl v => inl v | inr e => inr (Some e) end)) as Herr.
  { intros l code. destruct (error_set_some l code) as [e ->]. by exists (inr e). }
  destruct (_ && _); [apply Herr|].
  destruct (parse_returns (2 * length input + 3) flags) as [Hret _].
  destruct (Hret lx) as ([[v|] lx'] & Hp & _); [left; lia| |]; rewrite Hp.
  - destruct (JSON_DISABLE_EOF_CHECK flags); [by exists (inl v)|].
    destruct (token _); try apply Herr. by exists (inl v).
  - destruct (parse_reported flags (2 * length input + 3)) as [Hrep _].
    destruct (Hrep lx lx' Hp) as [e He]. cbn. rewrite He. by exists (inr e).
Qed.

(** Everything [json_loadb] accepts is safe to use: nesting is at most 64
    levels, every string and key is valid UTF-8, keys are distinct and free of
    NUL, strings contain NUL only with [JSON_ALLOW_NUL], and integers fit in
    64 bits. *)
Theorem json_loadb_wf {real} `{Strtod real} input flags (v : json real) :
  json_loadb input flags = Some (inl v) → json_wf flags JSON_PARSER_MAX_DEPTH v.
Proof. apply loaded_wf. Qed.

Definition host_flags : load_flags := mkFlags true false false false true.

Lemma json_loadb_wf_witness :
  json_wf host_flags JSON_PARSER_MAX_DEPTH (JObject [(bs "a", JArray [JInteger 1; JNull])] : json bytes).
Proof.
  apply (@json_loadb_wf bytes text_strtod (bs "{" ++ quoted (bs "a") ++ bs ": [1, null]}") host_flags).
  vm_compute. reflexivity.
Defined.

(** The one-character push-back of the stream is exact for every
    character except NUL: a NUL that is pushed back is dropped and the next
    read returns the character after it, so text with a raw NUL after a number
    is accepted. *)
Theorem pushback_loses_only_nul s c s' bad : stream_ok s → stream_get s = (Char c, s', bad) →
  (u8 c ≠ 0 → stream_get (stream_unget s' (Char c)) = (Char c, s', false)) ∧
  (u8 c = 0 → (stream_get (stream_unget s' (Char c))).1.1 = (stream_get s').1.1) ∧
  @json_loadb bytes text_strtod (bs "[1" ++ [Byte.x00] ++ bs "]") host_flags =
    Some (inl (JArray [JInteger 1])).
Proof.
  intros Hok Hg. destruct (stream_get_char _ _ _ _ Hok Hg) as (_ & Hst & Hseq & Hl & Hcase).
  assert (∃ k, buffer_pos s' = S k) as [k Hk] by (destruct Hcase as [[_ ->]|[_ ->]]; eauto).
  rewrite Hk in Hl. cbn [Nat.pred] in Hl. split; [|split; [|vm_compute; reflexivity]].
  - intros Hne. unfold stream_get, stream_unget, buffer_empty, stream_take. cbn.
    rewrite Hst, Hk. cbn. rewrite Hl, eqb_ne_false by done. destruct s'; cbn in *. by subst.
  - intros Hz. destruct (buffer s') as [|x q] eqn:Hb; [done|].
    destruct (utf8_seq_low x q c Hseq) as [-> ->]; [by apply list_elem_of_lookup_2 in Hl|lia|].
    destruct k as [|k]; [|done]. unfold stream_get, stream_unget, buffer_empty, stream_fill. cbn.
    rewrite Hst, Hk, Hb. cbn. rewrite Hz. cbn. destruct (data s') as [|y d]; [done|].
    by repeat case_match.
Qed.

Lemma pushback_loses_only_nul_witness :
  let s := mkStream (bs "7]") [] 0 STREAM_STATE_OK in
  let s' := mkStream (bs "]") (bs "7") 1 STREAM_STATE_OK in
  (u8 Byte.x37 ≠ 0 → stream_get (stream_unget s' (Char Byte.x37)) = (Char Byte.x37, s', false)) ∧
  (u8 Byte.x37 = 0 →
   (stream_get (stream_unget s' (Char Byte.x37))).1.1 = (stream_get s').1.1) ∧
  @json_loadb bytes text_strtod (bs "[1" ++ [Byte.x00] ++ bs "]") host_flags =
    Some (inl (JArray [JInteger 1])).
Proof.
  intros s s'. apply (pushback_loses_only_nul s Byte.x37 s' false); [|reflexivity].
  intros _. by left.
Defined.
