(* ===== verification/ActiveState.v ===== *)
(** * ActiveState: the persisted state of an App (src/host/active_state.cc)

    The active.json document: its grammar ([validate_document] and the ID
    checks), its canonical text ([build_canonical_json]), its strict parser on
    top of [json_loadb], the atomic persist sequence and recovery. The
    abstract class ActiveStateFilesystem of the source is the class
    [ActiveStateFilesystem] of a state type; what a crash may leave behind is
    the class [CrashModel] of such file systems. *)
From Stdlib Require Import ZArith Lia.
From S2P Require Import Prelude Jansson.
Local Open Scope Z_scope.

(** ** Data *)

Inductive ActiveServiceState := State_kActive | State_kRetired | State_kQuarantined.

#[export] Instance ActiveServiceState_eq_dec : EqDecision ActiveServiceState.
Proof. solve_decision. Defined.

Record ActiveStateDocument := mkDocument {
  doc_state : ActiveServiceState;
  application : bytes;
  version : bytes;
  generation : bytes;
  previous_version : bytes;
  previous_generation : bytes;
  reason : bytes
}.

#[export] Instance ActiveStateDocument_eq_dec : EqDecision ActiveStateDocument.
Proof. solve_decision. Defined.

Inductive ActiveStateErrorCode :=
| Active_kNone
| Active_kInvalidJson
| Active_kDuplicateKey
| Active_kUnknownField
| Active_kInvalidValue
| Active_kResourceLimit
| Active_kStorageError
| Active_kTemporaryFileExists
| Active_kGenerationNotComplete
| Active_kDurabilityUncertain.

Record ActiveStateError := mkActiveError {
  error_code : ActiveStateErrorCode;
  error_path : bytes;
  error_message : string
}.

#[export] Instance ActiveStateErrorCode_eq_dec : EqDecision ActiveStateErrorCode.
Proof. solve_decision. Defined.

(** Default-constructed values. *)
Definition no_error : ActiveStateError := mkActiveError Active_kNone [] "".
Definition no_document : ActiveStateDocument := mkDocument State_kActive [] [] [] [] [] [].

(** [ok] with the document and its canonical text, or the error. *)
Definition ActiveStateDocumentResult : Type :=
  ActiveStateDocument * bytes + ActiveStateError.

Definition kMaxActiveStateBytes : Z := 16 * 1024.
Definition kActiveStateSchema : bytes := bs "capsid-active-v1".
Definition kCrashBudgetExceededReason : bytes := bs "CRASH_BUDGET_EXCEEDED".

(** ** Grammar *)

Definition escape_pointer_component (component : bytes) : bytes :=
  flat_map (λ c, if is_char 126 c then bs "~0" else if is_char 47 c then bs "~1" else [c]) component.

Definition ascii_digit : byte → bool := in_range 48 57.
Definition ascii_lower : byte → bool := in_range 97 122.
Definition ascii_upper : byte → bool := in_range 65 90.
Definition ascii_hex_lower (c : byte) : bool := ascii_digit c || in_range 97 102 c.

Definition valid_application_id (value : bytes) : bool :=
  match value with
  | [] => false
  | first :: _ =>
      if 63 <? zlen value then false
      else if negb (ascii_lower first || ascii_digit first) then false
      else forallb (λ c, ascii_lower c || ascii_digit c || is_char 46 c || is_char 95 c
                         || is_char 45 c) value
  end.

Definition valid_version_id (value : bytes) : bool :=
  match value with
  | [] => false
  | first :: _ =>
      if 128 <? zlen value then false
      else if negb (ascii_lower first || ascii_upper first || ascii_digit first) then false
      else forallb (λ c, ascii_lower c || ascii_upper c || ascii_digit c || is_char 46 c
                         || is_char 95 c || is_char 45 c) value
  end.

Definition valid_generation (value : bytes) : bool :=
  if negb (zlen value =? 71) || negb (bool_decide (ztake 7 value = bs "sha256:")) then false
  else forallb ascii_hex_lower (zdrop 7 value).

Definition valid_operation_id (value : bytes) : bool :=
  match value with
  | [] => false
  | first :: _ =>
      if 64 <? zlen value then false
      else if negb (ascii_lower first || ascii_upper first || ascii_digit first) then false
      else forallb (λ c, ascii_lower c || ascii_upper c || ascii_digit c || is_char 95 c
                         || is_char 45 c) value
  end.

Definition kFieldNames : list bytes :=
  [bs "schema"; bs "app"; bs "state"; bs "version"; bs "generation"; bs "previousVersion";
   bs "previousGeneration"; bs "reason"].
Definition kSchemaField : nat := 0.
Definition kAppField : nat := 1.
Definition kStateField : nat := 2.
Definition kVersionField : nat := 3.
Definition kGenerationField : nat := 4.
Definition kPreviousVersionField : nat := 5.
Definition kPreviousGenerationField : nat := 6.
Definition kReasonField : nat := 7.
Definition kFieldCount : nat := 8.

Definition state_name (s : ActiveServiceState) : bytes :=
  match s with
  | State_kActive => bs "active"
  | State_kRetired => bs "retired"
  | State_kQuarantined => bs "quarantined"
  end.

Definition invalid (path : string) (message : string) : option ActiveStateError :=
  Some (mkActiveError Active_kInvalidValue (bs path) message).

(** [validate_document]: [None] when valid, the first failing field
    otherwise. *)
Definition validate_document (d : ActiveStateDocument) : option ActiveStateError :=
  if negb (valid_application_id (application d)) then invalid "/app" "invalid App ID"
  else match doc_state d with
  | State_kActive =>
      if negb (valid_version_id (version d)) then invalid "/version" "invalid Version ID"
      else if negb (valid_generation (generation d))
      then invalid "/generation" "invalid generation digest"
      else if negb (bool_decide (previous_version d = []))
      then invalid "/previousVersion" "tombstone field on an active state"
      else if negb (bool_decide (previous_generation d = []))
      then invalid "/previousGeneration" "tombstone field on an active state"
      else if negb (bool_decide (reason d = [])) then invalid "/reason" "reason on an active state"
      else None
  | State_kRetired =>
      if negb (valid_version_id (previous_version d))
      then invalid "/previousVersion" "invalid previous Version ID"
      else if negb (valid_generation (previous_generation d))
      then invalid "/previousGeneration" "invalid previous generation digest"
      else if negb (bool_decide (version d = [])) then invalid "/version" "version on a retired state"
      else if negb (bool_decide (generation d = []))
      then invalid "/generation" "generation on a retired state"
      else if negb (bool_decide (reason d = [])) then invalid "/reason" "reason on a retired state"
      else None
  | State_kQuarantined =>
      if negb (valid_version_id (version d)) then invalid "/version" "invalid Version ID"
      else if negb (valid_generation (generation d))
      then invalid "/generation" "invalid generation digest"
      else if negb (bool_decide (reason d = kCrashBudgetExceededReason))
      then invalid "/reason" "unknown quarantine reason"
      else if negb (bool_decide (previous_version d = []))
      then invalid "/previousVersion" "tombstone field on a quarantined state"
      else if negb (bool_decide (previous_generation d = []))
      then invalid "/previousGeneration" "tombstone field on a quarantined state"
      else None
  end.

Definition field_forbidden_for_state (s : ActiveServiceState) (field : nat) : bool :=
  match s with
  | State_kActive =>
      (field =? kPreviousVersionField)%nat || (field =? kPreviousGenerationField)%nat
      || (field =? kReasonField)%nat
  | State_kRetired =>
      (field =? kVersionField)%nat || (field =? kGenerationField)%nat
      || (field =? kReasonField)%nat
  | State_kQuarantined =>
      (field =? kPreviousVersionField)%nat || (field =? kPreviousGenerationField)%nat
  end.

(** A source literal, its quotes written as apostrophes. *)
Definition jq (s : string) : bytes := map (λ c, if is_char 39 c then QUOTE else c) (bs s).

Definition build_canonical_json (d : ActiveStateDocument) : bytes :=
  jq "{'schema':'" ++ kActiveStateSchema ++ jq "','app':'" ++ application d
  ++ jq "','state':'" ++ state_name (doc_state d)
  ++ match doc_state d with
     | State_kActive =>
         jq "','version':'" ++ version d ++ jq "','generation':'" ++ generation d ++ jq "'}"
     | State_kRetired =>
         jq "','previousVersion':'" ++ previous_version d ++ jq "','previousGeneration':'"
           ++ previous_generation d ++ jq "'}"
     | State_kQuarantined =>
         jq "','version':'" ++ version d ++ jq "','generation':'" ++ generation d
           ++ jq "','reason':'" ++ reason d ++ jq "'}"
     end.

Definition encode_active_state_json (d : ActiveStateDocument) : ActiveStateDocumentResult :=
  match validate_document d with
  | Some e => inr e
  | None => inl (d, build_canonical_json d)
  end.

(** ** Parsing *)

Section parse.
Context {real : Type} `{Strtod real}.

(** [for (; index < kFieldCount; ++index) if (key == kFieldNames[index]) break]. *)
Fixpoint field_index (names : list bytes) (key : bytes) : nat :=
  match names with
  | [] => O
  | n :: names' => if bool_decide (key = n) then O else S (field_index names' key)
  end.

(** The loop over the members: [present] and [values] are one list with
    [None] for an absent field. *)
Fixpoint collect_fields (members : list (bytes * json real)) (values : list (option bytes))
    : list (option bytes) + ActiveStateError :=
  match members with
  | [] => inl values
  | (key, value) :: members' =>
      if bool_decide (Byte.x00 ∈ key) then
        inr (mkActiveError Active_kInvalidValue [] "object key contains a NUL byte")
      else
        let index := field_index kFieldNames key in
        if (index =? kFieldCount)%nat then
          inr (mkActiveError Active_kUnknownField (bs "/" ++ escape_pointer_component key)
                 "unknown active state field")
        else
          match value with
          | JString s => collect_fields members' (<[index := Some s]> values)
          | _ =>
              inr (mkActiveError Active_kInvalidValue
                     (bs "/" ++ nth index kFieldNames []) "active state field must be a string")
          end
  end.

Definition field_value (values : list (option bytes)) (field : nat) : bytes :=
  default [] (default None (values !! field)).

Definition field_present (values : list (option bytes)) (field : nat) : bool :=
  match values !! field with Some (Some _) => true | _ => false end.

(** The first present field the state forbids. *)
Definition forbidden_field (s : ActiveServiceState) (values : list (option bytes)) : option nat :=
  List.find (λ field, field_present values field && field_forbidden_for_state s field)
    (seq 0 kFieldCount).

Definition document_of (s : ActiveServiceState) (values : list (option bytes)) : ActiveStateDocument :=
  mkDocument s (field_value values kAppField) (field_value values kVersionField)
    (field_value values kGenerationField) (field_value values kPreviousVersionField)
    (field_value values kPreviousGenerationField) (field_value values kReasonField).

Definition parse_state (name : bytes) : option ActiveServiceState :=
  if bool_decide (name = bs "active") then Some State_kActive
  else if bool_decide (name = bs "retired") then Some State_kRetired
  else if bool_decide (name = bs "quarantined") then Some State_kQuarantined
  else None.

(** The checks after the members are collected. *)
Definition check_fields (expected_application : bytes) (values : list (option bytes))
    : ActiveStateDocumentResult :=
  let invalid_value path message := inr (mkActiveError Active_kInvalidValue path message) in
  if negb (bool_decide (field_value values kSchemaField = kActiveStateSchema)) then
    invalid_value (bs "/schema") "unsupported active state schema"%string
  else if negb (bool_decide (field_value values kAppField = expected_application))
          || negb (valid_application_id (field_value values kAppField)) then
    invalid_value (bs "/app") "invalid App ID"%string
  else match parse_state (field_value values kStateField) with
  | None => invalid_value (bs "/state") "unknown service state"%string
  | Some s =>
      match forbidden_field s values with
      | Some field =>
          invalid_value (bs "/" ++ nth field kFieldNames []) "state-inapplicable field"%string
      | None =>
          let d := document_of s values in
          match validate_document d with
          | Some e => inr e
          | None => inl (d, build_canonical_json d)
          end
      end
  end.

Definition active_flags : load_flags := mkFlags true false false false true.

(** The parser never runs out of fuel; that branch is never taken. *)
Definition parse_active_state_json (expected_application json_text : bytes)
    : ActiveStateDocumentResult :=
  if kMaxActiveStateBytes <? zlen json_text then
    inr (mkActiveError Active_kResourceLimit [] "active state exceeds the size limit")
  else match json_loadb json_text active_flags with
  | None => inr (mkActiveError Active_kInvalidJson [] "invalid active state document")
  | Some (inr code) =>
      inr (mkActiveError
             (if bool_decide (code = Some json_error_duplicate_key) then Active_kDuplicateKey
              else Active_kInvalidJson) [] "invalid active state document")
  | Some (inl (JObject members)) =>
      match collect_fields members (replicate kFieldCount None) with
      | inr e => inr e
      | inl values => check_fields expected_application values
      end
  | Some (inl _) =>
      inr (mkActiveError Active_kInvalidJson [] "active state must be a JSON object")
  end.
End parse.

(** ** Persisting and recovering *)

Inductive ActiveStateIoStatus := Io_kOk | Io_kNotFound | Io_kAlreadyExists | Io_kError.

#[export] Instance ActiveStateIoStatus_eq_dec : EqDecision ActiveStateIoStatus.
Proof. solve_decision. Defined.

Inductive GenerationCompleteness := Gen_kComplete | Gen_kMissing | Gen_kIncomplete | Gen_kError.

#[export] Instance GenerationCompleteness_eq_dec : EqDecision GenerationCompleteness.
Proof. solve_decision. Defined.

(** The abstract class of the source, over a file-system state. *)
Class ActiveStateFilesystem (FS : Type) := {
  cleanup_stale_active_temps : FS → ActiveStateIoStatus * FS;
  read_active_file : FS → ActiveStateIoStatus * bytes * FS;
  inspect_generation : bytes → FS → GenerationCompleteness * FS;
  create_active_temp_exclusive : bytes → FS → ActiveStateIoStatus * FS;
  write_active_temp : bytes → bytes → FS → ActiveStateIoStatus * FS;
  sync_active_temp : bytes → FS → ActiveStateIoStatus * FS;
  rename_temp_over_active : bytes → FS → ActiveStateIoStatus * FS;
  sync_app_directory : FS → ActiveStateIoStatus * FS
}.

Record ActiveStatePersistResult := mkPersistResult {
  persist_ok : bool;
  active_name_replaced : bool;
  temp_name : bytes;
  persist_error : ActiveStateError
}.

Inductive ActiveStateRecoveryAction :=
| Recovery_kNone | Recovery_kActivate | Recovery_kKeepRetired | Recovery_kKeepQuarantined.

Record ActiveStateRecoveryResult := mkRecoveryResult {
  recovery_ok : bool;
  recovery_action : ActiveStateRecoveryAction;
  recovery_document : ActiveStateDocument;
  stale_temp_cleanup_failed : bool;
  recovery_error : ActiveStateError
}.

Section persistence.
Context {FS : Type} `{ActiveStateFilesystem FS} {real : Type} `{Strtod real}.

Definition persist_failed (replaced : bool) (temp : bytes) (e : ActiveStateError)
    : ActiveStatePersistResult :=
  mkPersistResult false replaced temp e.

Definition completeness_error (c : GenerationCompleteness) (incomplete : string) : ActiveStateError :=
  mkActiveError
    (if bool_decide (c = Gen_kError) then Active_kStorageError else Active_kGenerationNotComplete)
    (bs "/generation")
    (if bool_decide (c = Gen_kError) then "generation inspection failed" else incomplete).

Definition storage_error (temp : bytes) (message : string) : ActiveStateError :=
  mkActiveError Active_kStorageError (bs "/" ++ temp) message.

(** The rename and directory sync that end the sequence. *)
Definition rename_sequence (temp : bytes) (fs : FS) : ActiveStatePersistResult * FS :=
  match rename_temp_over_active temp fs with
  | (Io_kOk, fs) =>
      match sync_app_directory fs with
      | (Io_kOk, fs) => (mkPersistResult true true temp no_error, fs)
      | (_, fs) =>
          (persist_failed true temp
             (mkActiveError Active_kDurabilityUncertain []
                "active.json was replaced but the directory sync failed"), fs)
      end
  | (_, fs) =>
      (persist_failed false temp (storage_error temp "could not rename the active-state temp"), fs)
  end.

(** The create, write, sync, rename, directory-sync sequence. *)
Definition persist_sequence (temp text : bytes) (fs : FS) : ActiveStatePersistResult * FS :=
  match create_active_temp_exclusive temp fs with
  | (Io_kAlreadyExists, fs) =>
      (persist_failed false temp
         (mkActiveError Active_kTemporaryFileExists (bs "/" ++ temp)
            "exclusive active-state temp already exists"), fs)
  | (Io_kOk, fs) =>
      match write_active_temp temp text fs with
      | (Io_kOk, fs) =>
          match sync_active_temp temp fs with
          | (Io_kOk, fs) => rename_sequence temp fs
          | (_, fs) =>
              (persist_failed false temp
                 (storage_error temp "could not sync the active-state temp"), fs)
          end
      | (_, fs) =>
          (persist_failed false temp
             (storage_error temp "could not write the active-state temp"), fs)
      end
  | (_, fs) =>
      (persist_failed false temp
         (storage_error temp "could not create the active-state temp"), fs)
  end.

Definition temp_name_of (operation_id : bytes) : bytes := bs "active.json.tmp." ++ operation_id.

Definition persist_active_state (d : ActiveStateDocument) (operation_id : bytes) (fs : FS)
    : ActiveStatePersistResult * FS :=
  if negb (valid_operation_id operation_id) then
    (persist_failed false []
       (mkActiveError Active_kInvalidValue (bs "/operationId") "invalid operation ID"), fs)
  else match encode_active_state_json d with
  | inr e => (persist_failed false [] e, fs)
  | inl (_, canonical_json) =>
      if bool_decide (doc_state d = State_kActive) then
        let '(completeness, fs) := inspect_generation (generation d) fs in
        if negb (bool_decide (completeness = Gen_kComplete)) then
          (persist_failed false []
             (completeness_error completeness "generation is not complete"), fs)
        else persist_sequence (temp_name_of operation_id) canonical_json fs
      else persist_sequence (temp_name_of operation_id) canonical_json fs
  end.

Definition recover_active_state (expected_application : bytes) (fs : FS)
    : ActiveStateRecoveryResult * FS :=
  let '(cleanup, fs) := cleanup_stale_active_temps fs in
  let stale := negb (bool_decide (cleanup = Io_kOk)) in
  let '(status, content, fs) := read_active_file fs in
  match status with
  | Io_kNotFound => (mkRecoveryResult true Recovery_kNone no_document stale no_error, fs)
  | Io_kOk =>
      match parse_active_state_json expected_application content with
      | inr e => (mkRecoveryResult false Recovery_kNone no_document stale e, fs)
      | inl (d, _) =>
          match doc_state d with
          | State_kActive =>
              let '(completeness, fs) := inspect_generation (generation d) fs in
              if negb (bool_decide (completeness = Gen_kComplete)) then
                (mkRecoveryResult false Recovery_kNone d stale
                   (completeness_error completeness "active generation is not complete"), fs)
              else (mkRecoveryResult true Recovery_kActivate d stale no_error, fs)
          | State_kRetired => (mkRecoveryResult true Recovery_kKeepRetired d stale no_error, fs)
          | State_kQuarantined =>
              (mkRecoveryResult true Recovery_kKeepQuarantined d stale no_error, fs)
          end
      end
  | _ =>
      (mkRecoveryResult false Recovery_kNone no_document stale
         (mkActiveError Active_kStorageError [] "could not read active.json"), fs)
  end.
End persistence.

(** ** The grammar is plain text *)

Lemma valid_application_plain s : valid_application_id s = true →
  forallb plain s = true ∧ zlen s <= 63.
Proof.
  unfold valid_application_id. destruct s as [|c s]; [done|]. do 2 (split_test; [done|]). bools.
  intros Hall. split; [|done]. eapply forallb_impl; [|exact Hall]. by intros [].
Qed.

Lemma valid_version_plain s : valid_version_id s = true →
  forallb plain s = true ∧ zlen s <= 128.
Proof.
  unfold valid_version_id. destruct s as [|c s]; [done|]. do 2 (split_test; [done|]). bools.
  intros Hall. split; [|done]. eapply forallb_impl; [|exact Hall]. by intros [].
Qed.

Lemma valid_generation_plain s : valid_generation s = true →
  forallb plain s = true ∧ zlen s = 71.
Proof.
  unfold valid_generation. split_test; [done|]. bools. intros Hall. split; [|done].
  rewrite <- (ztake_zdrop 7 s). rewrite forallb_app, H0. cbn [andb].
  eapply forallb_impl; [|exact Hall]. by intros [].
Qed.

(** ** The fields of a document *)

(** The members of a document's canonical text. *)
Definition doc_fields (d : ActiveStateDocument) : list (bytes * bytes) :=
  [(bs "schema", kActiveStateSchema); (bs "app", application d);
   (bs "state", state_name (doc_state d))]
  ++ match doc_state d with
     | State_kActive => [(bs "version", version d); (bs "generation", generation d)]
     | State_kRetired =>
         [(bs "previousVersion", previous_version d);
          (bs "previousGeneration", previous_generation d)]
     | State_kQuarantined =>
         [(bs "version", version d); (bs "generation", generation d); (bs "reason", reason d)]
     end.

Definition doc_values (d : ActiveStateDocument) : list (option bytes) :=
  let live := negb (bool_decide (doc_state d = State_kRetired)) in
  let keep (b : bool) (v : bytes) := if b then Some v else None in
  [Some kActiveStateSchema; Some (application d); Some (state_name (doc_state d));
   keep live (version d); keep live (generation d);
   keep (negb live) (previous_version d); keep (negb live) (previous_generation d);
   keep (bool_decide (doc_state d = State_kQuarantined)) (reason d)].

(** The present fields, with their names. *)
Fixpoint present (names : list bytes) (values : list (option bytes)) : list (bytes * bytes) :=
  match names, values with
  | n :: names, Some v :: values => (n, v) :: present names values
  | _ :: names, None :: values => present names values
  | _, _ => []
  end.

Lemma canonical_flat d : build_canonical_json d = flat_object (doc_fields d).
Proof.
  destruct d as [[] a ver gen pver pgen why];
    unfold build_canonical_json, flat_object, doc_fields, flat_members, flat_member, quoted;
    cbn [doc_state application version generation previous_version previous_generation reason
         app fst snd state_name];
    cbv -[app]; cbn [app]; rewrite <- ?app_assoc; cbn [app]; rewrite <- ?app_assoc; cbn [app];
    rewrite <- ?app_assoc; cbn [app]; rewrite <- ?app_assoc; reflexivity.
Qed.

Lemma present_doc_values d : present kFieldNames (doc_values d) = doc_fields d.
Proof. by destruct d as [[] a ver gen pver pgen why]. Qed.

Lemma present_insert names values i n s : names !! i = Some n → values !! i = Some None →
  present names (<[i := Some s]> values) ≡ₚ (n, s) :: present names values.
Proof.
  revert values i; induction names as [|m names IH]; intros values i Hn Hv; [done|].
  destruct values as [|o values]; [done|]. destruct i as [|i].
  - cbn in Hn, Hv. simplify_eq. done.
  - cbn in Hn, Hv. specialize (IH values i Hn Hv). destruct o; cbn; [|exact IH].
    rewrite perm_swap. by constructor.
Qed.

Lemma present_elem names values k s : length values = length names →
  (k, s) ∈ present names values ↔ ∃ i, names !! i = Some k ∧ values !! i = Some (Some s).
Proof.
  revert values; induction names as [|m names IH]; intros [|o values] Hl; try done.
  - split; [set_solver|]. by intros (i & Hi & _).
  - injection Hl as Hl. specialize (IH values Hl).
    assert ((∃ i, (m :: names) !! i = Some k ∧ (o :: values) !! i = Some (Some s)) ↔
            (m = k ∧ o = Some s) ∨ (k, s) ∈ present names values) as ->.
    { rewrite IH. split.
      - intros ([|i] & Hi & Hv); cbn in *; [left|right]; simplify_eq; eauto.
      - intros [[-> ->]|(i & ? & ?)]; [by exists O|by exists (S i)]. }
    destruct o as [v|]; cbn; [|split; [auto|intros [[_ ?]|?]; done]].
    rewrite elem_of_cons. split; (intros [Heq|?]; [left|by right]); [by simplify_eq|].
    destruct Heq; by simplify_eq.
Qed.

(** Distinct names make the values a function of the set of present fields. *)
Lemma present_inj names values values' : NoDup names → length values = length names →
  length values' = length names → present names values ≡ₚ present names values' → values = values'.
Proof.
  intros Hnd Hl Hl' Hp. apply list_eq_same_length with (length names); [done..|].
  assert (∀ v v' : list (option bytes), length v = length names → length v' = length names →
    present names v ≡ₚ present names v' → ∀ i s, v !! i = Some (Some s) → v' !! i = Some (Some s)) as Hone.
  { intros v v' Hv Hv' Hpm i s Hi.
    destruct (lookup_lt_is_Some_2 names i) as [k Hk].
    { rewrite <- Hv. by eapply lookup_lt_Some. }
    assert ((k, s) ∈ present names v') as Hin.
    { rewrite <- Hpm. apply present_elem; eauto. }
    apply present_elem in Hin as (j & Hj & Hs); [|done].
    by rewrite (NoDup_lookup _ _ _ _ Hnd Hk Hj). }
  intros i [x|] [y|] Hi Hx Hy; try done.
  - apply (Hone values values' Hl Hl' Hp) in Hx. by simplify_eq.
  - apply (Hone values values' Hl Hl' Hp) in Hx. by simplify_eq.
  - symmetry in Hp. apply (Hone values' values Hl' Hl Hp) in Hy. by simplify_eq.
Qed.

Lemma field_index_le names key : (field_index names key <= length names)%nat.
Proof. induction names as [|n names IH]; cbn; [done|]. case_bool_decide; lia. Qed.

Lemma field_index_lookup names key : (field_index names key < length names)%nat →
  names !! field_index names key = Some key.
Proof.
  induction names as [|n names IH]; cbn; [lia|]. case_bool_decide as Heq; [by subst|].
  intros ?. apply IH. lia.
Qed.

Lemma field_index_of names key i : NoDup names → names !! i = Some key →
  field_index names key = i.
Proof.
  intros Hnd Hi. assert (field_index names key < length names)%nat as Hlt.
  { clear Hnd. revert i Hi; induction names as [|n names IH]; intros i Hi; [done|]. cbn.
    case_bool_decide as Heq; [lia|]. destruct i as [|i]; cbn in Hi; [by simplify_eq|].
    apply IH in Hi. lia. }
  apply field_index_lookup in Hlt. by eapply NoDup_lookup.
Qed.

Lemma flat_json_perm {real} kvs kvs' :
  (flat_json kvs : list (bytes * json real)) ≡ₚ flat_json kvs' → kvs ≡ₚ kvs'.
Proof.
  intros Hp. pose (back := λ kv : bytes * json real,
    (kv.1, match kv.2 with JString s => s | _ => [] end)).
  assert (∀ l, map back (flat_json l) = l) as Hinv.
  { intros l. unfold flat_json. rewrite map_map. rewrite <- (map_id l) at 2.
    apply map_ext. by intros []. }
  rewrite <- (Hinv kvs), <- (Hinv kvs'). by apply Permutation_map.
Qed.

Lemma kFieldNames_NoDup : NoDup kFieldNames.
Proof. apply (bool_decide_unpack _). vm_compute. exact I. Qed.

Lemma kFieldNames_plain : Forall (λ n, forallb plain n = true) kFieldNames.
Proof. repeat constructor. Qed.

Section fields.
Context {real : Type} `{Strtod real}.
Implicit Types members : list (bytes * json real).

(** A collected object has exactly the collected fields as members. *)
Lemma collect_present members values values' : NoDup (map fst members) →
  length values = kFieldCount →
  (∀ k i, k ∈ map fst members → kFieldNames !! i = Some k → values !! i = Some None) →
  collect_fields members values = inl values' →
  length values' = kFieldCount ∧
  flat_json (present kFieldNames values') ≡ₚ members ++ flat_json (present kFieldNames values).
Proof.
  revert values; induction members as [|[k v] members IH]; intros values Hnd Hl Hfree; cbn [collect_fields].
  { by intros [= ->]. }
  destruct (bool_decide _); [done|]. apply NoDup_cons in Hnd as [Hk Hnd]. cbn [fst] in Hk.
  destruct (_ =? _)%nat eqn:Hidx; [done|]. apply Nat.eqb_neq in Hidx.
  pose proof (field_index_le kFieldNames k) as Hle. change (length kFieldNames) with kFieldCount in Hle.
  assert (kFieldNames !! field_index kFieldNames k = Some k) as Hlk.
  { apply field_index_lookup. change (length kFieldNames) with kFieldCount. lia. }
  set (i := field_index kFieldNames k) in *. destruct v as [| |s| | | | |]; try done. intros Hc.
  assert (values !! i = Some None) as Hnone by (eapply Hfree; [left|done]).
  apply IH in Hc as [Hl' Hp]; [|done|by rewrite length_insert|].
  - split; [done|]. rewrite Hp. unfold flat_json at 1.
    rewrite (Permutation_map _ (present_insert _ _ _ _ s Hlk Hnone)). cbn [map fst snd].
    by rewrite <- Permutation_middle.
  - intros k' j Hin Hj. rewrite list_lookup_insert_ne; [eapply Hfree; [by right|done]|].
    intros ->. by simplify_eq.
Qed.

Lemma collect_total members values :
  Forall (λ kv, ∃ i s, kFieldNames !! i = Some kv.1 ∧ kv.2 = JString s) members →
  ∃ values', collect_fields members values = inl values'.
Proof.
  intros Hm. revert values; induction Hm as [|[k v] members (i & s & Hi & Hv) Hm IH]; intros values; [by eexists|].
  cbn [fst snd] in Hi, Hv. subst v. cbn [collect_fields]. rewrite (field_index_of _ _ _ kFieldNames_NoDup Hi).
  rewrite bool_decide_false.
  - destruct (i =? kFieldCount)%nat eqn:Heq; [|apply IH]. apply Nat.eqb_eq in Heq. by subst.
  - apply plain_no_nul. eapply Forall_lookup_1 in Hi; [|exact kFieldNames_plain]. done.
Qed.
End fields.

(** ** What the parser accepts *)

Lemma validate_lengths d : validate_document d = None →
  flat_ok (doc_fields d) ∧ zlen (build_canonical_json d) <= 512.
Proof.
  rewrite canonical_flat. unfold validate_document, invalid, flat_ok, doc_fields.
  destruct d as [st a ver gen pver pgen why];
    cbn [doc_state application version generation previous_version previous_generation reason].
  split_test; [done|]. destruct st; repeat (split_test; [done|]); intros _; bools; subst;
    repeat match goal with
    | Hv : valid_application_id _ = true |- _ => apply valid_application_plain in Hv as [? ?]
    | Hv : valid_version_id _ = true |- _ => apply valid_version_plain in Hv as [? ?]
    | Hv : valid_generation _ = true |- _ => apply valid_generation_plain in Hv as [? ?]
    end;
    (split; [repeat constructor; done|]);
    unfold flat_object, flat_members, flat_member, quoted; cbn [app fst snd];
    repeat rewrite ?zlen_app, ?zlen_cons;
    repeat match goal with
    | |- context [zlen (bs ?x)] =>
        let v := eval vm_compute in (zlen (bs x)) in change (zlen (bs x)) with v
    | |- context [zlen (state_name ?x)] =>
        let v := eval vm_compute in (zlen (state_name x)) in change (zlen (state_name x)) with v
    end;
    change (zlen kActiveStateSchema) with 16; change (zlen kCrashBudgetExceededReason) with 21;
    change (zlen (@nil byte)) with 0; lia.
Qed.

Lemma parse_state_iff name s : parse_state name = Some s ↔ name = state_name s.
Proof.
  unfold parse_state. split; [|intros ->; by destruct s].
  repeat (case_bool_decide; [by intros [= <-]|]). done.
Qed.

Definition doc_shape (d : ActiveStateDocument) : Prop :=
  match doc_state d with
  | State_kActive => version d ≠ [] ∧ generation d ≠ [] ∧ previous_version d = [] ∧
      previous_generation d = [] ∧ reason d = []
  | State_kRetired => previous_version d ≠ [] ∧ previous_generation d ≠ [] ∧ version d = [] ∧
      generation d = [] ∧ reason d = []
  | State_kQuarantined => version d ≠ [] ∧ generation d ≠ [] ∧ previous_version d = [] ∧
      previous_generation d = [] ∧ reason d ≠ []
  end.

Lemma validate_shape d : validate_document d = None →
  valid_application_id (application d) = true ∧ application d ≠ [] ∧ doc_shape d.
Proof.
  unfold validate_document, invalid, doc_shape. split_test; [done|].
  assert (∀ v, valid_version_id v = true → v ≠ []) as Hver by (by intros [|]).
  assert (∀ v, valid_generation v = true → v ≠ []) as Hgen by (by intros [|]).
  destruct (doc_state d); repeat (split_test; [done|]); intros _; bools;
    (split; [done|]; split; [by destruct (application d)|]); repeat split; auto.
  by match goal with Hr : reason d = _ |- _ => rewrite Hr end.
Qed.

Lemma required_present values f : field_value values f ≠ [] →
  values !! f = Some (Some (field_value values f)).
Proof. unfold field_value. by destruct (values !! f) as [[v|]|]. Qed.

Lemma forbidden_absent s values f : forbidden_field s values = None → (f < kFieldCount)%nat →
  length values = kFieldCount → field_forbidden_for_state s f = true → values !! f = Some None.
Proof.
  intros Hf Hlt Hl Hs. destruct (lookup_lt_is_Some_2 values f) as [[v|] Hv]; [by rewrite Hl| |done].
  assert (In f (seq 0 kFieldCount)) as Hin by (apply in_seq; lia).
  pose proof (find_none _ _ Hf f Hin) as Hn. cbn beta in Hn.
  unfold field_present in Hn. by rewrite Hv, Hs in Hn.
Qed.

Lemma document_of_values d : doc_shape d → document_of (doc_state d) (doc_values d) = d.
Proof.
  destruct d as [[] a ver gen pver pgen why]; unfold doc_shape;
    cbn [doc_state application version generation previous_version previous_generation reason];
    intros (? & ? & ? & ? & ?); by subst.
Qed.

Lemma forbidden_values d : forbidden_field (doc_state d) (doc_values d) = None.
Proof. by destruct d as [[] a ver gen pver pgen why]. Qed.

(** A document accepted by the checks has exactly the fields of its state. *)
Lemma checked_values s values : length values = kFieldCount →
  field_value values kSchemaField = kActiveStateSchema →
  field_value values kStateField = state_name s → forbidden_field s values = None →
  validate_document (document_of s values) = None → values = doc_values (document_of s values).
Proof.
  intros Hl Hschema Hstate Hf Hv. destruct (validate_shape _ Hv) as (_ & Happ & Hsh).
  assert (∀ f v, v ≠ [] → field_value values f = v → values !! f = Some (Some v)) as Hreq.
  { intros f v Hne <-. by apply required_present. }
  assert (∀ f, (f < kFieldCount)%nat → field_forbidden_for_state s f = true →
    values !! f = Some None) as Habs by (intros; by eapply forbidden_absent).
  assert (length values = 8%nat) as Hlen by done.
  apply (list_eq_same_length _ _ 8%nat); [by destruct s|done|].
  intros i x y Hi Hx Hy.
  enough (values !! i = doc_values (document_of s values) !! i) as Heq by congruence. clear Hx Hy x y.
  assert (state_name s ≠ []) as Hname by (by destruct s).
  destruct s; unfold doc_shape in Hsh; cbn [doc_state document_of] in Hsh;
    destruct Hsh as (? & ? & ? & ? & ?);
    do 8 (destruct i as [|i]; [first [by apply Hreq | by apply Habs; [vm_compute; lia|]]|]); lia.
Qed.

Lemma check_fields_iff app values d text : length values = kFieldCount →
  check_fields app values = inl (d, text) ↔
  values = doc_values d ∧ validate_document d = None ∧ application d = app ∧
  text = build_canonical_json d.
Proof.
  intros Hl. unfold check_fields. split.
  - split_test; [done|]. split_test; [done|]. bools.
    destruct (parse_state _) as [s|] eqn:Hs; [|done]. apply parse_state_iff in Hs.
    destruct (forbidden_field s values) eqn:Hf; [done|].
    destruct (validate_document _) eqn:Hv; [done|]. intros [= <- <-].
    split; [by apply checked_values|by repeat split].
  - intros (-> & Hv & <- & ->). destruct (validate_shape d Hv) as (Happ & _ & Hsh).
    change (field_value (doc_values d) kSchemaField) with kActiveStateSchema.
    change (field_value (doc_values d) kAppField) with (application d).
    change (field_value (doc_values d) kStateField) with (state_name (doc_state d)).
    rewrite !bool_decide_true, Happ by done. cbn [negb orb].
    rewrite (proj2 (parse_state_iff _ _) eq_refl), forbidden_values, document_of_values by done.
    by rewrite Hv.
Qed.

Section accepts.
Context {real : Type} `{Strtod real}.

Lemma parse_accepts_iff app text d canonical :
  parse_active_state_json app text = inl (d, canonical) ↔
  zlen text <= kMaxActiveStateBytes ∧ validate_document d = None ∧ application d = app ∧
  canonical = build_canonical_json d ∧
  ∃ members : list (bytes * json real),
    json_loadb text active_flags = Some (inl (JObject members)) ∧
    members ≡ₚ flat_json (doc_fields d).
Proof.
  unfold parse_active_state_json. split.
  - split_test; [done|]. bools. destruct (json_loadb _ _) as [[[members|? | | | | | |]|]|] eqn:Hload; try done.
    destruct (collect_fields _ _) as [values|] eqn:Hc; [|done]. intros Hchk.
    apply loaded_wf in Hload as Hwf. inversion Hwf as [| | | | | | |? ? _ Hnd _]; subst.
    apply collect_present in Hc as [Hl Hp]; [|done|done|].
    + apply check_fields_iff in Hchk as (-> & Hv & Happ & Hcan); [|done].
      rewrite present_doc_values in Hp. repeat split; try done. exists members.
      split; [done|]. by rewrite Hp, app_nil_r.
    + intros k i _ Hi. apply lookup_replicate_2. by apply lookup_lt_Some in Hi.
  - intros (Hlen & Hv & Happ & Hcan & members & Hload & Hp).
    rewrite (ltb_ge_false kMaxActiveStateBytes) by done. rewrite Hload.
    apply loaded_wf in Hload as Hwf. inversion Hwf as [| | | | | | |? ? _ Hnd _]; subst.
    destruct (collect_total members (replicate kFieldCount None)) as [values Hc].
    { rewrite Hp. apply Forall_map, Forall_forall. intros [k s] Hin.
      rewrite <- present_doc_values in Hin. apply present_elem in Hin as (i & Hi & _); [|done].
      by exists i, s. }
    rewrite Hc. apply collect_present in Hc as [Hl Hperm]; [|done|done|].
    + apply check_fields_iff; [done|]. repeat split; try done.
      apply (present_inj kFieldNames); [apply kFieldNames_NoDup|done|done|].
      rewrite present_doc_values. cbn [flat_json map present] in Hperm.
      rewrite app_nil_r, Hp in Hperm. by apply flat_json_perm in Hperm.
    + intros k i _ Hi. apply lookup_replicate_2. by apply lookup_lt_Some in Hi.
Qed.

Lemma parse_encoded d : validate_document d = None →
  parse_active_state_json (application d) (build_canonical_json d) =
    inl (d, build_canonical_json d).
Proof.
  intros Hv. destruct (validate_lengths d Hv) as [Hok Hlen].
  apply parse_accepts_iff. repeat split; try done; [unfold kMaxActiveStateBytes; lia|].
  exists (flat_json (doc_fields d)). split; [|done]. rewrite canonical_flat.
  apply load_flat_object; [done|done| |done].
  destruct d as [[] a ver gen pver pgen why]; apply (bool_decide_unpack _); vm_compute; exact I.
Qed.
End accepts.

(** ** Crashes

    [survives fs c]: if the machine stops in state [fs], active.json may hold
    [c] ([None]: no such file) after the restart. [visible fs] is what a read
    returns without a crash. The laws are those of a POSIX directory: only a
    rename changes active.json, it is atomic, the renamed file is whole if it
    was synced before, and a directory sync makes the visible entry the only
    survivor. *)
Class CrashModel (FS : Type) `{ActiveStateFilesystem FS} := {
  survives : FS → option bytes → Prop;
  visible : FS → option bytes;
  temp_content : FS → bytes → option bytes;
  temp_synced : FS → bytes → Prop;
  keeps fs fs' := visible fs' = visible fs ∧ ∀ c, survives fs' c → survives fs c;
  cleanup_keeps fs : keeps fs (cleanup_stale_active_temps fs).2;
  read_keeps fs : keeps fs (read_active_file fs).2;
  inspect_keeps g fs : keeps fs (inspect_generation g fs).2;
  create_keeps n fs : keeps fs (create_active_temp_exclusive n fs).2;
  write_keeps n b fs : keeps fs (write_active_temp n b fs).2;
  sync_keeps n fs : keeps fs (sync_active_temp n fs).2;
  rename_failed_keeps n fs : (rename_temp_over_active n fs).1 ≠ Io_kOk →
    keeps fs (rename_temp_over_active n fs).2;
  directory_keeps fs : keeps fs (sync_app_directory fs).2;
  read_visible fs : (read_active_file fs).1.1 = Io_kOk →
    visible fs = Some (read_active_file fs).1.2;
  create_empty n fs : (create_active_temp_exclusive n fs).1 = Io_kOk →
    temp_content (create_active_temp_exclusive n fs).2 n = Some [];
  write_whole n b fs : (write_active_temp n b fs).1 = Io_kOk → temp_content fs n = Some [] →
    temp_content (write_active_temp n b fs).2 n = Some b;
  sync_durable n fs : (sync_active_temp n fs).1 = Io_kOk →
    temp_synced (sync_active_temp n fs).2 n ∧
    temp_content (sync_active_temp n fs).2 n = temp_content fs n;
  rename_atomic n b fs : (rename_temp_over_active n fs).1 = Io_kOk → temp_content fs n = Some b →
    visible (rename_temp_over_active n fs).2 = Some b ∧
    (temp_synced fs n → ∀ c, survives (rename_temp_over_active n fs).2 c →
       survives fs c ∨ c = Some b);
  directory_durable fs : (sync_app_directory fs).1 = Io_kOk →
    ∀ c, survives (sync_app_directory fs).2 c → c = visible fs
}.

(** The same file system, recording the state after every call: the places a
    crash can happen. *)
Section traced.
Context {FS : Type} `{ActiveStateFilesystem FS}.

Definition traced_call {A} (call : FS → A * FS) (s : FS * list FS) : A * (FS * list FS) :=
  let '(a, fs') := call s.1 in (a, (fs', s.2 ++ [fs'])).

Definition traced_fs : ActiveStateFilesystem (FS * list FS) := {|
  cleanup_stale_active_temps := traced_call cleanup_stale_active_temps;
  read_active_file := traced_call read_active_file;
  inspect_generation g := traced_call (inspect_generation g);
  create_active_temp_exclusive n := traced_call (create_active_temp_exclusive n);
  write_active_temp n b := traced_call (write_active_temp n b);
  sync_active_temp n := traced_call (sync_active_temp n);
  rename_temp_over_active n := traced_call (rename_temp_over_active n);
  sync_app_directory := traced_call sync_app_directory
|}.

Definition persist_traced (d : ActiveStateDocument) (operation_id : bytes) (fs : FS)
    : ActiveStatePersistResult * (FS * list FS) :=
  @persist_active_state _ traced_fs d operation_id (fs, []).
End traced.

Section crashes.
Context {FS : Type} `{CM : CrashModel FS} {real : Type} `{Strtod real}.
Implicit Types fs : FS.

Lemma keeps_refl fs : keeps fs fs.
Proof. by split. Qed.

Lemma keeps_trans fs1 fs2 fs3 : keeps fs1 fs2 → keeps fs2 fs3 → keeps fs1 fs3.
Proof. intros [Hv Hs] [Hv' Hs']. split; [congruence|auto]. Qed.

(** Each crash point leaves what could be left before, or [new]. *)
Definition old_or_new (new : bytes) fs fs' : Prop :=
  ∀ c, survives fs' c → survives fs c ∨ c = Some new.

Lemma keeps_old_or_new new fs fs' : keeps fs fs' → old_or_new new fs fs'.
Proof. intros [_ Hs] c Hc. left. auto. Qed.

Lemma old_or_new_keeps new fs1 fs2 fs3 :
  keeps fs1 fs2 → old_or_new new fs2 fs3 → old_or_new new fs1 fs3.
Proof. intros [_ Hs] Hon c Hc. destruct (Hon c Hc); auto. Qed.

(** A failure that says nothing was renamed. *)
Definition ordinary_error (e : ActiveStateError) : bool :=
  negb (bool_decide (error_code e = Active_kNone))
  && negb (bool_decide (error_code e = Active_kDurabilityUncertain)).

Lemma validate_error_ordinary d e : validate_document d = Some e → ordinary_error e = true.
Proof.
  unfold validate_document, invalid. split_test; [by intros [= <-]|].
  destruct (doc_state d); repeat (split_test; [by intros [= <-]|]); done.
Qed.

(** What a persist of [new] from [fs] leaves. *)
Record persisted (new : bytes) fs (r : ActiveStatePersistResult) fs' (log : list FS) : Prop := {
  persisted_log : Forall (old_or_new new fs) log;
  persisted_final : old_or_new new fs fs';
  persisted_kept : active_name_replaced r = false → keeps fs fs';
  persisted_replaced : active_name_replaced r = true → visible fs' = Some new;
  persisted_ok : persist_ok r = true →
    active_name_replaced r = true ∧ ∀ c, survives fs' c → c = Some new;
  persisted_error : persist_ok r = true → persist_error r = no_error;
  persisted_failed : persist_ok r = false → active_name_replaced r = false →
    ordinary_error (persist_error r) = true;
  persisted_uncertain : persist_ok r = false → active_name_replaced r = true →
    error_code (persist_error r) = Active_kDurabilityUncertain
}.

Lemma persisted_stop new fs temp e fs' log : Forall (old_or_new new fs) log → keeps fs fs' →
  ordinary_error e = true →
  persisted new fs (persist_failed false temp e) fs' log.
Proof. intros Hl Hk. split; try done. by apply keeps_old_or_new. Qed.

(** The rename and the directory sync, from a synced temp. *)
Lemma rename_persisted fs temp new fs4 log4 r fs' log :
  keeps fs fs4 → Forall (old_or_new new fs) log4 → temp_synced fs4 temp →
  temp_content fs4 temp = Some new →
  @rename_sequence _ traced_fs temp (fs4, log4) = (r, (fs', log)) → persisted new fs r fs' log.
Proof.
  intros Hk Hl Hsynced Hcontent. unfold rename_sequence. cbn. unfold traced_call. cbn [fst snd].
  pose proof (rename_failed_keeps temp fs4) as Hfail.
  pose proof (rename_atomic temp new fs4) as Hatomic.
  destruct (rename_temp_over_active temp fs4) as [st5 fs5]. cbn [fst snd] in *.
  destruct (decide (st5 = Io_kOk)) as [->|Hne].
  - destruct (Hatomic eq_refl Hcontent) as [Hvis Hsurv]. specialize (Hsurv Hsynced).
    assert (old_or_new new fs fs5) as Hon5 by (by eapply old_or_new_keeps).
    pose proof (directory_keeps fs5) as [Hvis6 Hs6].
    pose proof (directory_durable fs5) as Hdir.
    destruct (sync_app_directory fs5) as [st6 fs6]. cbn [fst snd] in *.
    assert (old_or_new new fs fs6) as Hon6 by (intros c Hc; apply Hon5; auto).
    assert (Forall (old_or_new new fs) ((log4 ++ [fs5]) ++ [fs6])) as Hlog
      by (rewrite !Forall_app; repeat split; auto).
    rewrite Hvis in Hvis6, Hdir.
    destruct st6; intros [= <- <- <-]; split; cbn; try done; auto.
  - specialize (Hfail Hne). assert (keeps fs fs5) as Hf5 by (by eapply keeps_trans).
    destruct st5; [done| | |]; intros [= <- <- <-]; apply persisted_stop; try done;
      apply Forall_app; (split; [done|]); constructor; try done; by apply keeps_old_or_new.
Qed.

Lemma persist_sequence_persisted fs temp new fs1 log1 r fs' log :
  keeps fs fs1 → Forall (old_or_new new fs) log1 →
  @persist_sequence _ traced_fs temp new (fs1, log1) = (r, (fs', log)) →
  persisted new fs r fs' log.
Proof.
  intros Hk Hl. unfold persist_sequence. cbn. unfold traced_call. cbn [fst snd].
  pose proof (create_keeps temp fs1) as Hk2. pose proof (create_empty temp fs1) as Hempty.
  destruct (create_active_temp_exclusive temp fs1) as [st2 fs2]. cbn [fst snd] in *.
  assert (keeps fs fs2) as Hf2 by (by eapply keeps_trans).
  assert (∀ f (l : list FS), Forall (old_or_new new fs) l → keeps fs f →
    Forall (old_or_new new fs) (l ++ [f])) as Hadd.
  { intros f l Hfl Hkf. apply Forall_app. split; [done|]. constructor; [|done].
    by apply keeps_old_or_new. }
  pose proof (Hadd _ _ Hl Hf2) as Hl2.
  destruct st2; try (intros [= <- <- <-]; by apply persisted_stop).
  pose proof (write_keeps temp new fs2) as Hk3. pose proof (write_whole temp new fs2) as Hwhole.
  destruct (write_active_temp temp new fs2) as [st3 fs3]. cbn [fst snd] in *.
  assert (keeps fs fs3) as Hf3 by (by eapply keeps_trans). pose proof (Hadd _ _ Hl2 Hf3) as Hl3.
  destruct st3; try (intros [= <- <- <-]; by apply persisted_stop).
  pose proof (sync_keeps temp fs3) as Hk4. pose proof (sync_durable temp fs3) as Hsync.
  destruct (sync_active_temp temp fs3) as [st4 fs4]. cbn [fst snd] in *.
  assert (keeps fs fs4) as Hf4 by (by eapply keeps_trans). pose proof (Hadd _ _ Hl3 Hf4) as Hl4.
  destruct st4; try (intros [= <- <- <-]; by apply persisted_stop).
  destruct (Hsync eq_refl) as [Hsynced Hcontent].
  rewrite (Hwhole eq_refl (Hempty eq_refl)) in Hcontent.
  by apply rename_persisted.
Qed.

Lemma persist_persisted d op fs r fs' log : persist_traced d op fs = (r, (fs', log)) →
  persisted (build_canonical_json d) fs r fs' log.
Proof.
  unfold persist_traced, persist_active_state, encode_active_state_json.
  split_test; [intros [= <- <- <-]; apply persisted_stop; [done|apply keeps_refl|done]|].
  destruct (validate_document d) as [e|] eqn:Hv.
  { intros [= <- <- <-]. apply persisted_stop; [done|apply keeps_refl|].
    by eapply validate_error_ordinary. }
  pose proof (inspect_keeps (generation d) fs) as Hk.
  split_test; [|apply persist_sequence_persisted; [apply keeps_refl|done]].
  cbn. unfold traced_call. cbn [fst snd app].
  destruct (inspect_generation (generation d) fs) as [gc fs1]. cbn [fst snd] in *.
  assert (Forall (old_or_new (build_canonical_json d) fs) [fs1]) as Hl
    by (constructor; [by apply keeps_old_or_new|done]).
  split_test; [intros [= <- <- <-]; apply persisted_stop; [done..|by destruct gc]|].
  by apply persist_sequence_persisted.
Qed.

(** Nothing is renamed without a valid document whose generation is complete. *)
Lemma persist_guards d op fs r s : @persist_active_state FS _ d op fs = (r, s) →
  active_name_replaced r = true →
  valid_operation_id op = true ∧ validate_document d = None ∧
  (doc_state d = State_kActive → (inspect_generation (generation d) fs).1 = Gen_kComplete).
Proof.
  unfold persist_active_state, encode_active_state_json.
  split_test; [by intros [= <- <-]|]. destruct (validate_document d); [by intros [= <- <-]|]. bools.
  destruct (bool_decide_reflect (doc_state d = State_kActive)); [|done].
  destruct (inspect_generation (generation d) fs) as [gc fs1]. split_test; [by intros [= <- <-]|].
  by bools.
Qed.

Definition expected_action (s : ActiveServiceState) : ActiveStateRecoveryAction :=
  match s with
  | State_kActive => Recovery_kActivate
  | State_kRetired => Recovery_kKeepRetired
  | State_kQuarantined => Recovery_kKeepQuarantined
  end.

(** The state of the file system once active.json was read. *)
Definition after_read fs : FS := (read_active_file (cleanup_stale_active_temps fs).2).2.

(** Recovery selected [d]; it only fails to activate an incomplete generation. *)
Definition recovered_as (d : ActiveStateDocument) fs (r : ActiveStateRecoveryResult) : Prop :=
  recovery_document r = d ∧
  (recovery_ok r = true ↔ (doc_state d = State_kActive →
     (inspect_generation (generation d) (after_read fs)).1 = Gen_kComplete)) ∧
  recovery_action r = (if recovery_ok r then expected_action (doc_state d) else Recovery_kNone).

(** [c] is an active.json that reads as [d]. *)
Definition reads_as (d : ActiveStateDocument) (c : option bytes) : Prop :=
  ∃ text, c = Some text ∧ parse_active_state_json (application d) text = inl (d, build_canonical_json d).

Lemma reads_as_canonical d : validate_document d = None →
  reads_as d (Some (build_canonical_json d)).
Proof. intros Hv. eexists. split; [done|]. by apply parse_encoded. Qed.

Lemma recover_visible d fs : reads_as d (visible fs) →
  (read_active_file (cleanup_stale_active_temps fs).2).1.1 = Io_kOk →
  recovered_as d fs (recover_active_state (application d) fs).1.
Proof.
  intros (text & Hvis & Hparse) Hread. unfold recovered_as, after_read, recover_active_state.
  pose proof (cleanup_keeps fs) as [Hvis1 _].
  destruct (cleanup_stale_active_temps fs) as [st fs1]. cbn [fst snd] in *.
  pose proof (read_visible fs1 Hread) as Hb.
  destruct (read_active_file fs1) as [[st2 content] fs2]. cbn [fst snd] in *. subst st2.
  rewrite Hvis1, Hvis in Hb. injection Hb as <-. rewrite Hparse.
  destruct (doc_state d); cbn; [|by repeat split..].
  destruct (inspect_generation (generation d) fs2) as [gc fs3]. cbn.
  destruct (bool_decide_reflect (gc = Gen_kComplete)) as [->|Hne]; cbn; [by repeat split|].
  repeat split; [done|]. intros Hc. by destruct (Hne (Hc eq_refl)).
Qed.

Lemma recover_keeps app fs : keeps fs (recover_active_state app fs).2.
Proof.
  unfold recover_active_state.
  pose proof (cleanup_keeps fs) as Hk1. destruct (cleanup_stale_active_temps fs) as [st fs1].
  pose proof (read_keeps fs1) as Hk2. destruct (read_active_file fs1) as [[st2 content] fs2].
  cbn [fst snd] in *. assert (keeps fs fs2) as Hk by (by eapply keeps_trans).
  destruct st2; try done. destruct (parse_active_state_json app content) as [[d t]|]; [|done].
  destruct (doc_state d); try done. pose proof (inspect_keeps (generation d) fs2) as Hk3.
  destruct (inspect_generation (generation d) fs2) as [gc fs3].
  split_test; cbn; by eapply keeps_trans.
Qed.

(** A document that recovery acts on is the visible one. *)
Lemma recover_document app fs : recovery_action (recover_active_state app fs).1 ≠ Recovery_kNone →
  application (recovery_document (recover_active_state app fs).1) = app ∧
  reads_as (recovery_document (recover_active_state app fs).1) (visible fs).
Proof.
  unfold recover_active_state.
  pose proof (cleanup_keeps fs) as [Hk1 _]. destruct (cleanup_stale_active_temps fs) as [st fs1].
  pose proof (read_visible fs1) as Hr. destruct (read_active_file fs1) as [[st2 content] fs2].
  cbn [fst snd] in *. destruct st2; try done. specialize (Hr eq_refl). rewrite Hk1 in Hr.
  destruct (parse_active_state_json app content) as [[d t]|] eqn:Hp; [|done].
  assert (application d = app ∧ reads_as d (visible fs)) as Hd.
  { pose proof Hp as Hacc. apply parse_accepts_iff in Hacc as (_ & _ & Happ & Ht & _).
    split; [done|]. exists content. split; [done|]. by rewrite Happ, Hp, Ht. }
  destruct (doc_state d); [|done..]. destruct (inspect_generation (generation d) fs2) as [gc fs3].
  by split_test.
Qed.

Lemma recover_error_clean app fs : recovery_ok (recover_active_state app fs).1 = true →
  recovery_error (recover_active_state app fs).1 = no_error.
Proof.
  unfold recover_active_state. destruct (cleanup_stale_active_temps fs) as [st fs1].
  destruct (read_active_file fs1) as [[[] content] fs2]; try done.
  destruct (parse_active_state_json app content) as [[d t]|]; [|done].
  destruct (doc_state d); try done. destruct (inspect_generation (generation d) fs2) as [gc fs3].
  by split_test.
Qed.

(** The trace only records. *)
Lemma persist_untraced d op fs : ∃ log,
  persist_traced d op fs = ((persist_active_state d op fs).1, ((persist_active_state d op fs).2, log)).
Proof.
  assert (∀ temp s, ∃ log, @rename_sequence _ traced_fs temp s =
    ((rename_sequence temp s.1).1, ((rename_sequence temp s.1).2, log))) as Hren.
  { intros temp [f l]. unfold rename_sequence. cbn. unfold traced_call. cbn [fst snd].
    destruct (rename_temp_over_active temp f) as [[] f1]; try by eexists. cbn [fst snd].
    destruct (sync_app_directory f1) as [[] f2]; by eexists. }
  assert (∀ temp text s, ∃ log, @persist_sequence _ traced_fs temp text s =
    ((persist_sequence temp text s.1).1, ((persist_sequence temp text s.1).2, log))) as Hseq.
  { intros temp text [f l]. unfold persist_sequence. cbn. unfold traced_call. cbn [fst snd].
    destruct (create_active_temp_exclusive temp f) as [[] f1]; try by eexists. cbn [fst snd].
    destruct (write_active_temp temp text f1) as [[] f2]; try by eexists. cbn [fst snd].
    destruct (sync_active_temp temp f2) as [[] f3]; try by eexists. apply Hren. }
  unfold persist_traced, persist_active_state, encode_active_state_json.
  split_test; [by eexists|]. destruct (validate_document d); [by eexists|].
  split_test; [|apply Hseq]. cbn. unfold traced_call. cbn [fst snd].
  destruct (inspect_generation (generation d) fs) as [gc f1]. split_test; [by eexists|]. apply Hseq.
Qed.

Lemma persist_outcome d op fs : ∃ log,
  persisted (build_canonical_json d) fs (persist_active_state d op fs).1
    (persist_active_state d op fs).2 log.
Proof.
  destruct (persist_untraced d op fs) as [log Hp]. exists log. by eapply persist_persisted.
Qed.
End crashes.

(** ** A disk

    The active name with what may survive, temps with their sync state, the
    complete generations and the statuses of the coming calls. A failing call
    changes nothing; an unsynced temp may survive empty. *)
Record disk := mkDisk {
  disk_visible : option bytes;  (* may always survive *)
  disk_survivors : list (option bytes);
  disk_temps : gmap bytes (bytes * bool);
  disk_generations : list bytes;
  disk_faults : list ActiveStateIoStatus
}.

Definition next_status (k : disk) : ActiveStateIoStatus :=
  match disk_faults k with [] => Io_kOk | st :: _ => st end.

Definition disk_call (call : disk → ActiveStateIoStatus * disk) (k : disk) : ActiveStateIoStatus * disk :=
  let k' := mkDisk (disk_visible k) (disk_survivors k) (disk_temps k) (disk_generations k)
              (tail (disk_faults k)) in
  match next_status k with Io_kOk => call k' | st => (st, k') end.

Definition with_temps (k : disk) (temps : gmap bytes (bytes * bool)) : disk :=
  mkDisk (disk_visible k) (disk_survivors k) temps (disk_generations k) (disk_faults k).

Definition disk_create (n : bytes) (k : disk) : ActiveStateIoStatus * disk :=
  match disk_temps k !! n with
  | Some _ => (Io_kAlreadyExists, k)
  | None => (Io_kOk, with_temps k (<[n := ([], false)]> (disk_temps k)))
  end.

Definition disk_write (n b : bytes) (k : disk) : ActiveStateIoStatus * disk :=
  match disk_temps k !! n with
  | Some (old, _) => (Io_kOk, with_temps k (<[n := (old ++ b, false)]> (disk_temps k)))
  | None => (Io_kError, k)
  end.

Definition disk_sync (n : bytes) (k : disk) : ActiveStateIoStatus * disk :=
  match disk_temps k !! n with
  | Some (b, _) => (Io_kOk, with_temps k (<[n := (b, true)]> (disk_temps k)))
  | None => (Io_kError, k)
  end.

Definition disk_rename (n : bytes) (k : disk) : ActiveStateIoStatus * disk :=
  match disk_temps k !! n with
  | Some (b, synced) =>
      (Io_kOk,
       mkDisk (Some b) ((if (synced : bool) then [] else [Some []]) ++ disk_visible k :: disk_survivors k)
         (delete n (disk_temps k)) (disk_generations k) (disk_faults k))
  | None => (Io_kError, k)
  end.

Definition disk_sync_directory (k : disk) : ActiveStateIoStatus * disk :=
  (Io_kOk, mkDisk (disk_visible k) [] (disk_temps k) (disk_generations k) (disk_faults k)).

#[export] Instance disk_fs : ActiveStateFilesystem disk := {|
  cleanup_stale_active_temps := disk_call (λ k : disk, (Io_kOk, with_temps k ∅));
  read_active_file k :=
    match disk_visible k with Some b => (Io_kOk, b, k) | None => (Io_kNotFound, [], k) end;
  inspect_generation g k :=
    (if bool_decide (g ∈ disk_generations k) then Gen_kComplete else Gen_kMissing, k);
  create_active_temp_exclusive n := disk_call (disk_create n);
  write_active_temp n b := disk_call (disk_write n b);
  sync_active_temp n := disk_call (disk_sync n);
  rename_temp_over_active n := disk_call (disk_rename n);
  sync_app_directory := disk_call disk_sync_directory
|}.

Definition disk_survives (k : disk) (c : option bytes) : Prop :=
  c = disk_visible k ∨ c ∈ disk_survivors k.

Definition disk_keeps (k k' : disk) : Prop :=
  disk_visible k' = disk_visible k ∧ ∀ c, disk_survives k' c → disk_survives k c.

Lemma disk_call_keeps call k :
  (∀ k, (call k).1 = Io_kOk → disk_keeps k (call k).2) → (∀ k, (call k).1 ≠ Io_kOk → (call k).2 = k) →
  disk_keeps k (disk_call call k).2.
Proof.
  intros Hok Hko. unfold disk_call. destruct (next_status k); cbn; [|by split..].
  set (k' := mkDisk _ _ _ _ _). destruct (decide ((call k').1 = Io_kOk)) as [Heq|Hne].
  - destruct (Hok k' Heq) as [Hv Hs]. by split.
  - rewrite (Hko k' Hne). by split.
Qed.

Lemma disk_call_ok call k : (disk_call call k).1 = Io_kOk → ∃ k',
  disk_call call k = call k' ∧ disk_visible k' = disk_visible k ∧
  disk_survivors k' = disk_survivors k ∧ disk_temps k' = disk_temps k.
Proof. unfold disk_call. destruct (next_status k); cbn; try done. eexists; by repeat split. Qed.

#[export, refine] Instance disk_crash : CrashModel disk := {|
  survives := disk_survives;
  visible := disk_visible;
  temp_content k n := fst <$> disk_temps k !! n;
  temp_synced k n := snd <$> disk_temps k !! n = Some true
|}.
Proof.
  - intros k. apply disk_call_keeps; [by split|done].
  - intros k. cbn. destruct (disk_visible k) eqn:Hv; cbn; by rewrite ?Hv.
  - by intros g k.
  - intros n k. apply disk_call_keeps; intros k'; unfold disk_create; by destruct (_ !! n); try split.
  - intros n b k. apply disk_call_keeps; intros k'; unfold disk_write; by destruct (_ !! n) as [[]|]; try split.
  - intros n k. apply disk_call_keeps; intros k'; unfold disk_sync; by destruct (_ !! n) as [[]|]; try split.
  - intros n k Hne. cbn in *. unfold disk_call in *. destruct (next_status k); cbn in *; try by split.
    unfold disk_rename in *. cbn in *. by destruct (disk_temps k !! n) as [[]|].
  - intros k. apply disk_call_keeps; [|done]. intros k' _. split; [done|].
    unfold disk_survives. cbn. intros c [->|Hin]; [by left|set_solver].
  - intros k. cbn. by destruct (disk_visible k).
  - intros n k Hok. apply disk_call_ok in Hok as Hk. destruct Hk as (k' & Heq & _ & _ & _). cbn in *.
    rewrite Heq in *. unfold disk_create in *. destruct (disk_temps k' !! n) eqn:Ht; [done|].
    cbn. by rewrite lookup_insert_eq.
  - intros n b k Hok Hc. apply disk_call_ok in Hok as Hk. destruct Hk as (k' & Heq & _ & _ & Ht). cbn in *.
    rewrite Heq in *. rewrite <- Ht in Hc. unfold disk_write in *.
    destruct (disk_temps k' !! n) as [[old s]|]; [|done]. cbn in *. injection Hc as ->.
    by rewrite lookup_insert_eq.
  - intros n k Hok. apply disk_call_ok in Hok as Hk. destruct Hk as (k' & Heq & _ & _ & Ht). cbn in *.
    rewrite Heq in *. rewrite <- Ht. unfold disk_sync in *.
    destruct (disk_temps k' !! n) as [[b s]|]; [|done]. cbn. by rewrite lookup_insert_eq.
  - intros n b k Hok Hc. apply disk_call_ok in Hok as Hk. destruct Hk as (k' & Heq & Hv & Hs & Ht). cbn in *.
    rewrite Heq in *. rewrite <- Ht in *. unfold disk_rename in *.
    destruct (disk_temps k' !! n) as [[b' s]|] eqn:Hl; [|done]. cbn in *. injection Hc as ->.
    split; [done|]. intros [= ->] c. unfold disk_survives. cbn. rewrite Hv, Hs, elem_of_cons.
    intros [->|[->|Hin]]; auto.
  - intros k Hok. apply disk_call_ok in Hok as Hk. destruct Hk as (k' & Heq & Hv & _ & _). cbn in *.
    rewrite Heq in *. cbn. intros c [->|Hin]; [done|set_solver].
Defined.

(** ** Properties *)

Definition sample_generation : bytes := bs "sha256:" ++ replicate 64 Byte.x61.
Definition sample_active : ActiveStateDocument :=
  mkDocument State_kActive (bs "shop") (bs "v1") sample_generation [] [] [].
Definition sample_retired : ActiveStateDocument :=
  mkDocument State_kRetired (bs "shop") [] [] (bs "v1") sample_generation [].
Definition sample_disk (faults : list ActiveStateIoStatus) : disk :=
  mkDisk (Some (build_canonical_json sample_active)) [] ∅ [sample_generation] faults.

(** The strict parser accepts a text exactly when it is at most 16 KiB
    and a JSON object whose members are, in any order, the fields of one valid
    document of the expected App: no unknown, duplicate, missing,
    state-inapplicable or non-string member, and the canonical text returned is
    that document's. *)
Theorem active_state_accepts {real} `{Strtod real} app text d canonical :
  parse_active_state_json app text = inl (d, canonical) ↔
  zlen text <= kMaxActiveStateBytes ∧ validate_document d = None ∧ application d = app ∧
  canonical = build_canonical_json d ∧
  ∃ members : list (bytes * json real),
    json_loadb text active_flags = Some (inl (JObject members)) ∧
    members ≡ₚ flat_json (doc_fields d).
Proof. apply parse_accepts_iff. Qed.



(** C2. Persisting a document is crash-atomic: at every point between two
    file-system calls, what a crash can leave in active.json is what it could
    leave before or the whole new text; success means nothing else than the new
    text can survive; a failure before the rename leaves the file as it was;
    and the only failure after the rename is the uncertain-durability one, with
    the new text already visible. The name is replaced only by a valid document
    of a complete generation. *)
Theorem persist_crash_atomic {FS} `{CrashModel FS} d op (fs fs' : FS) r log :
  persist_traced d op fs = (r, (fs', log)) →
  persisted (build_canonical_json d) fs r fs' log ∧
  (active_name_replaced r = true → validate_document d = None ∧
     (doc_state d = State_kActive → (inspect_generation (generation d) fs).1 = Gen_kComplete)).
Proof.
  intros Hp. split; [by eapply persist_persisted|]. intros Hr.
  destruct (@persist_guards _ traced_fs _ _ _ _ _ Hp Hr) as (_ & Hv & Hg). split; [done|].
  intros Hst. specialize (Hg Hst). cbn in Hg. unfold traced_call in Hg. cbn in Hg.
  by destruct (inspect_generation _ fs).
Qed.

Lemma persist_crash_atomic_witness :
  let result := persist_traced sample_retired (bs "op1") (sample_disk []) in
  persist_ok result.1 = true ∧ length result.2.2 = 5%nat ∧
  persisted (build_canonical_json sample_retired) (sample_disk []) result.1 result.2.1 result.2.2.
Proof.
  intros result. split; [vm_compute; reflexivity|]. split; [vm_compute; reflexivity|].
  apply (persist_crash_atomic sample_retired (bs "op1") (sample_disk []) result.2.1 result.1 result.2.2).
  fold result. by destruct result as [? []].
Defined.


