(* ===== verification/ServiceLifecycle.v ===== *)
(** * ServiceLifecycle: the control-plane state machine (src/host/service_lifecycle.cc)

    The pure decisions on an App's in-memory state (routing, recovery plan,
    retire, quarantine, drain, explicit deploy) and their composition with the
    persistence of active.json: the relation [step] runs the operations against
    a file system with crashes, following the effects each transition asks
    for. *)
From Stdlib Require Import ZArith Lia.
From S2P Require Import Prelude Jansson ActiveState.
Local Open Scope Z_scope.

(** ** Data *)

Inductive ServiceLifecyclePhase :=
| Phase_kAbsent | Phase_kActive | Phase_kRetiring | Phase_kRetired
| Phase_kQuarantining | Phase_kQuarantined | Phase_kDurabilityUncertain | Phase_kFailedClosed.

#[export] Instance ServiceLifecyclePhase_eq_dec : EqDecision ServiceLifecyclePhase.
Proof. solve_decision. Defined.

Record ServiceLifecycleState := mkLifecycle {
  phase : ServiceLifecyclePhase;
  document : option ActiveStateDocument
}.

Inductive ServiceRouteDisposition := Route_kServeActive | Route_kNotFound | Route_kUnavailable.

Inductive ServiceLifecycleErrorCode :=
| Lifecycle_kNone | Lifecycle_kInvalidState | Lifecycle_kInvalidRecovery | Lifecycle_kNotFound
| Lifecycle_kBusy | Lifecycle_kPersistenceFailed | Lifecycle_kDurabilityUncertain
| Lifecycle_kInvalidPersistenceResult | Lifecycle_kInvalidDeployTarget
| Lifecycle_kVersionImmutabilityConflict.

Record ServiceLifecycleError := mkLifecycleError {
  lifecycle_code : ServiceLifecycleErrorCode;
  lifecycle_path : bytes;
  lifecycle_message : string
}.

Record ServiceLifecycleEffects := mkEffects {
  persist_required : bool;
  persist_document : ActiveStateDocument;
  stop_new_requests : bool;
  begin_drain : bool;
  retry_persistence : bool;
  block_state_writes : bool;
  idempotent : bool
}.

Record ServiceLifecycleTransition := mkTransition {
  transition_ok : bool;
  transition_state : ServiceLifecycleState;
  transition_effects : ServiceLifecycleEffects;
  transition_error : ServiceLifecycleError
}.

Record ServiceRecoveryPlan := mkRecoveryPlan {
  plan_ok : bool;
  plan_state : ServiceLifecycleState;
  start_pool : bool;
  publish_active_after_ready : bool;
  stale_temp_cleanup_warning : bool;
  plan_error : ServiceLifecycleError
}.

Inductive ExplicitDeployAction :=
| Deploy_kAlreadyActive | Deploy_kWarmAndActivate | Deploy_kRejectBusy
| Deploy_kRejectDurabilityUncertain | Deploy_kRejectInvalidState
| Deploy_kVersionImmutabilityConflict.

Record ExplicitDeployPlan := mkDeployPlan {
  deploy_ok : bool;
  deploy_action : ExplicitDeployAction;
  reset_instability_budget_after_activation : bool;
  deploy_error : ServiceLifecycleError
}.

(** Default-constructed values. *)
Definition no_lifecycle_error : ServiceLifecycleError := mkLifecycleError Lifecycle_kNone [] "".
Definition absent : ServiceLifecycleState := mkLifecycle Phase_kAbsent None.
Definition no_effects : ServiceLifecycleEffects :=
  mkEffects false no_document false false false false false.

Definition rejected (code : ServiceLifecycleErrorCode) (message : string)
    : ServiceLifecycleTransition :=
  mkTransition false absent no_effects (mkLifecycleError code (bs "/state") message).

(** ** Decisions *)

Definition encodes (d : ActiveStateDocument) : bool :=
  match encode_active_state_json d with inl _ => true | inr _ => false end.

Definition state_is (d : ActiveStateDocument) (s : ActiveServiceState) : bool :=
  bool_decide (doc_state d = s).

Definition document_matches_phase (p : ServiceLifecyclePhase) (document : option ActiveStateDocument)
    : bool :=
  match document with
  | None => bool_decide (p = Phase_kAbsent) || bool_decide (p = Phase_kFailedClosed)
  | Some d =>
      if negb (encodes d) then false
      else match p with
      | Phase_kAbsent => false
      | Phase_kActive => state_is d State_kActive
      | Phase_kRetired => state_is d State_kRetired
      | Phase_kQuarantined => state_is d State_kQuarantined
      | Phase_kRetiring =>
          state_is d State_kActive || state_is d State_kRetired || state_is d State_kQuarantined
      | Phase_kQuarantining => state_is d State_kActive
      | Phase_kDurabilityUncertain | Phase_kFailedClosed => true
      end
  end.

Definition matches (s : ServiceLifecycleState) : bool :=
  document_matches_phase (phase s) (document s).

Definition retired_tombstone (source : ActiveStateDocument) : ActiveStateDocument :=
  mkDocument State_kRetired (application source) [] [] (version source) (generation source) [].

Definition quarantined_document (source : ActiveStateDocument) : ActiveStateDocument :=
  mkDocument State_kQuarantined (application source) (version source) (generation source) [] []
    kCrashBudgetExceededReason.

(** The document behind [state.document->], default where there is none; every
    use is guarded by [document_matches_phase]. *)
Definition the_document (s : ServiceLifecycleState) : ActiveStateDocument :=
  default no_document (document s).

Definition service_route_disposition (s : ServiceLifecycleState) : ServiceRouteDisposition :=
  if negb (matches s) then Route_kUnavailable
  else match phase s with
  | Phase_kAbsent => Route_kNotFound
  | Phase_kActive => Route_kServeActive
  | Phase_kRetired => Route_kNotFound
  | Phase_kRetiring =>
      if state_is (the_document s) State_kRetired then Route_kNotFound else Route_kUnavailable
  | Phase_kQuarantining | Phase_kQuarantined | Phase_kDurabilityUncertain | Phase_kFailedClosed =>
      Route_kUnavailable
  end.

Definition service_allows_automatic_replacement (s : ServiceLifecycleState) : bool :=
  matches s && bool_decide (phase s = Phase_kActive).

Definition failed_closed (warning : bool) (message : string) : ServiceRecoveryPlan :=
  mkRecoveryPlan false (mkLifecycle Phase_kFailedClosed None) false false warning
    (mkLifecycleError Lifecycle_kInvalidRecovery (bs "/recovery") message).

Definition plan_service_recovery (recovery : ActiveStateRecoveryResult) : ServiceRecoveryPlan :=
  let warning := stale_temp_cleanup_failed recovery in
  let e := recovery_error recovery in
  let d := recovery_document recovery in
  let mismatch := failed_closed warning "recovery action and document mismatch" in
  if negb (recovery_ok recovery) then failed_closed warning "active state recovery failed"
  else if negb (bool_decide (error_code e = Active_kNone)) || negb (bool_decide (error_path e = []))
          || negb (bool_decide (error_message e = EmptyString)) then
    failed_closed warning "recovery success carries a contradictory error"
  else match recovery_action recovery with
  | Recovery_kNone =>
      if negb (bool_decide (d = no_document)) then mismatch
      else mkRecoveryPlan true absent false false warning no_lifecycle_error
  | Recovery_kActivate =>
      if negb (state_is d State_kActive) || negb (encodes d) then mismatch
      else mkRecoveryPlan true (mkLifecycle Phase_kActive (Some d)) true true warning no_lifecycle_error
  | Recovery_kKeepRetired =>
      if negb (state_is d State_kRetired) || negb (encodes d) then mismatch
      else mkRecoveryPlan true (mkLifecycle Phase_kRetired (Some d)) false false warning
             no_lifecycle_error
  | Recovery_kKeepQuarantined =>
      if negb (state_is d State_kQuarantined) || negb (encodes d) then mismatch
      else mkRecoveryPlan true (mkLifecycle Phase_kQuarantined (Some d)) false false warning
             no_lifecycle_error
  end.

(** ** Transitions *)

Definition request_service_retire (s : ServiceLifecycleState) : ServiceLifecycleTransition :=
  if negb (matches s) then
    rejected Lifecycle_kInvalidState "lifecycle phase and document are inconsistent"
  else match phase s with
  | Phase_kRetired =>
      mkTransition true s (mkEffects false no_document false false false false true)
        no_lifecycle_error
  | Phase_kAbsent => rejected Lifecycle_kNotFound "cannot retire an absent App"
  | Phase_kActive | Phase_kQuarantined =>
      mkTransition true (mkLifecycle Phase_kRetiring (document s))
        (mkEffects true (retired_tombstone (the_document s)) true false false false false)
        no_lifecycle_error
  | Phase_kRetiring | Phase_kQuarantining =>
      rejected Lifecycle_kBusy "a lifecycle mutation is already in progress"
  | Phase_kDurabilityUncertain =>
      rejected Lifecycle_kDurabilityUncertain "state writes are blocked by a durability incident"
  | Phase_kFailedClosed => rejected Lifecycle_kInvalidState "cannot mutate a fail-closed service"
  end.

Definition enter_service_quarantine (s : ServiceLifecycleState) : ServiceLifecycleTransition :=
  if negb (bool_decide (phase s = Phase_kActive)) || negb (matches s) then
    rejected Lifecycle_kInvalidState "quarantine requires a complete active state"
  else
    mkTransition true (mkLifecycle Phase_kQuarantining (document s))
      (mkEffects true (quarantined_document (the_document s)) true false false false false)
      no_lifecycle_error.

Definition persistence_error (code : ServiceLifecycleErrorCode) (message : string)
    : ServiceLifecycleError :=
  mkLifecycleError code (bs "/persistence") message.

Definition resolve_service_state_persistence (s : ServiceLifecycleState)
    (persistence : ActiveStatePersistResult) : ServiceLifecycleTransition :=
  let retiring := bool_decide (phase s = Phase_kRetiring) in
  let d := the_document s in
  let e := persist_error persistence in
  if (negb retiring && negb (bool_decide (phase s = Phase_kQuarantining))) || negb (matches s) then
    rejected Lifecycle_kInvalidState "persistence result without a pending mutation"
  else if state_is d State_kRetired
          || (bool_decide (phase s = Phase_kQuarantining) && negb (state_is d State_kActive)) then
    rejected Lifecycle_kInvalidState "persistence result without a pending mutation"
  else
    let clean_success :=
      persist_ok persistence && active_name_replaced persistence
      && bool_decide (error_code e = Active_kNone) && bool_decide (error_path e = [])
      && bool_decide (error_message e = EmptyString) in
    let pre_rename_failure :=
      negb (persist_ok persistence) && negb (active_name_replaced persistence)
      && negb (bool_decide (error_code e = Active_kNone))
      && negb (bool_decide (error_code e = Active_kDurabilityUncertain)) in
    let durability_unknown :=
      negb (persist_ok persistence) && active_name_replaced persistence
      && bool_decide (error_code e = Active_kDurabilityUncertain) in
    let incident := mkEffects false no_document true false false true false in
    if negb clean_success && negb pre_rename_failure && negb durability_unknown then
      mkTransition false (mkLifecycle Phase_kDurabilityUncertain (document s)) incident
        (persistence_error Lifecycle_kInvalidPersistenceResult
           "persistence result is self-contradictory")
    else if clean_success then
      mkTransition true
        (if retiring then mkLifecycle Phase_kRetiring (Some (retired_tombstone d))
         else mkLifecycle Phase_kQuarantined (Some (quarantined_document d)))
        (mkEffects false no_document false true false false false) no_lifecycle_error
    else if durability_unknown then
      mkTransition false (mkLifecycle Phase_kDurabilityUncertain (document s)) incident
        (persistence_error Lifecycle_kDurabilityUncertain
           "active.json may have been replaced without durable sync")
    else
      let failed := persistence_error Lifecycle_kPersistenceFailed
        "active state persistence failed before the rename" in
      if retiring then
        mkTransition false
          (mkLifecycle (if state_is d State_kQuarantined then Phase_kQuarantined else Phase_kActive)
             (document s)) no_effects failed
      else
        mkTransition false (mkLifecycle Phase_kQuarantining (document s))
          (mkEffects true (quarantined_document d) true false true false false) failed.

Definition complete_service_retire_drain (s : ServiceLifecycleState) : ServiceLifecycleTransition :=
  if bool_decide (phase s = Phase_kRetired) && matches s then
    mkTransition true s (mkEffects false no_document false false false false true)
      no_lifecycle_error
  else if negb (bool_decide (phase s = Phase_kRetiring)) || negb (matches s)
          || negb (state_is (the_document s) State_kRetired) then
    rejected Lifecycle_kInvalidState "retire drain requires a committed retired tombstone"
  else mkTransition true (mkLifecycle Phase_kRetired (document s)) no_effects no_lifecycle_error.

Definition deploy_rejected (action : ExplicitDeployAction) (code : ServiceLifecycleErrorCode)
    (path : bytes) (message : string) : ExplicitDeployPlan :=
  mkDeployPlan false action false (mkLifecycleError code path message).

Definition deploy_planned (action : ExplicitDeployAction) (reset : bool) : ExplicitDeployPlan :=
  mkDeployPlan true action reset no_lifecycle_error.

Definition immutability_conflict : ExplicitDeployPlan :=
  deploy_rejected Deploy_kVersionImmutabilityConflict Lifecycle_kVersionImmutabilityConflict
    (bs "/version") "Version ID is already mapped to another generation".

Definition deploy_probe (app ver gen : bytes) : ActiveStateDocument :=
  mkDocument State_kActive app ver gen [] [] [].

Definition plan_explicit_service_deploy (s : ServiceLifecycleState) (app ver gen : bytes)
    : ExplicitDeployPlan :=
  let reject := deploy_rejected Deploy_kRejectInvalidState in
  let d := the_document s in
  if negb (matches s) then
    reject Lifecycle_kInvalidState (bs "/state") "lifecycle phase and document are inconsistent"%string
  else match encode_active_state_json (deploy_probe app ver gen) with
  | inr e => reject Lifecycle_kInvalidDeployTarget (error_path e) (error_message e)
  | inl _ =>
      if bool_decide (document s ≠ None) && negb (bool_decide (application d = app)) then
        reject Lifecycle_kInvalidDeployTarget (bs "/app")
          "deploy application differs from the service application"%string
      else match phase s with
      | Phase_kAbsent => deploy_planned Deploy_kWarmAndActivate false
      | Phase_kActive =>
          if bool_decide (version d = ver) && bool_decide (generation d = gen) then
            deploy_planned Deploy_kAlreadyActive false
          else if bool_decide (version d = ver) then immutability_conflict
          else deploy_planned Deploy_kWarmAndActivate false
      | Phase_kRetired =>
          if bool_decide (previous_version d = ver) && negb (bool_decide (previous_generation d = gen))
          then immutability_conflict
          else deploy_planned Deploy_kWarmAndActivate false
      | Phase_kQuarantined =>
          if bool_decide (version d = ver) && negb (bool_decide (generation d = gen))
          then immutability_conflict
          else deploy_planned Deploy_kWarmAndActivate true
      | Phase_kRetiring | Phase_kQuarantining =>
          deploy_rejected Deploy_kRejectBusy Lifecycle_kBusy (bs "/state")
            "a lifecycle mutation is already in progress"
      | Phase_kDurabilityUncertain =>
          deploy_rejected Deploy_kRejectDurabilityUncertain Lifecycle_kDurabilityUncertain
            (bs "/state") "deploy is blocked by a durability incident"
      | Phase_kFailedClosed =>
          reject Lifecycle_kInvalidState (bs "/state") "cannot deploy a fail-closed service"%string
      end
  end.

(** ** The service on its disk

    One App: its in-memory state and its state directory. A persistence effect
    is executed with [persist_active_state] and its result resolved; [step_boot]
    is a restart after a crash, on a disk whose active.json is one the crash
    may have left; explicit deploys happen where [deploys] says so. *)
Section system.
Context {FS : Type} `{CM : CrashModel FS} {real : Type} `{Strtod real} (app : bytes).

Definition boot (fs : FS) : ServiceRecoveryPlan := plan_service_recovery (recover_active_state app fs).1.

Inductive step (deploys : bool) : ServiceLifecycleState * FS → ServiceLifecycleState * FS → Prop :=
| step_boot s fs crashed :
    survives fs (visible crashed) → (∀ c, survives crashed c → c = visible crashed) →
    step deploys (s, fs) (plan_state (boot crashed), (recover_active_state app crashed).2)
| step_retire s fs :
    transition_ok (request_service_retire s) = true →
    step deploys (s, fs) (transition_state (request_service_retire s), fs)
| step_quarantine s fs :
    transition_ok (enter_service_quarantine s) = true →
    step deploys (s, fs) (transition_state (enter_service_quarantine s), fs)
| step_persist s fs wanted op r fs' :
    (* the write a pending mutation asked for *)
    (phase s = Phase_kRetiring ∧ wanted = retired_tombstone (the_document s)) ∨
    (phase s = Phase_kQuarantining ∧ wanted = quarantined_document (the_document s)) →
    (doc_state (the_document s) ≠ State_kRetired) →
    persist_active_state wanted op fs = (r, fs') →
    step deploys (s, fs) (transition_state (resolve_service_state_persistence s r), fs')
| step_drained s fs :
    transition_ok (complete_service_retire_drain s) = true →
    step deploys (s, fs) (transition_state (complete_service_retire_drain s), fs)
| step_deploy s fs ver gen op r fs' :
    deploys = true →
    deploy_action (plan_explicit_service_deploy s app ver gen) = Deploy_kWarmAndActivate →
    persist_active_state (deploy_probe app ver gen) op fs = (r, fs') →
    active_name_replaced r = persist_ok r →
    step deploys (s, fs) (if persist_ok r then mkLifecycle Phase_kActive (Some (deploy_probe app ver gen)) else s,
                  fs').

(** Routing, replacement and restarts agree with the disk. *)
Definition durable_phase (p : ServiceLifecyclePhase) : bool :=
  match p with
  | Phase_kActive | Phase_kRetiring | Phase_kRetired | Phase_kQuarantining | Phase_kQuarantined => true
  | _ => false
  end.

Record service_inv (s : ServiceLifecycleState) (fs : FS) : Prop := {
  inv_matches : matches s = true;
  inv_app : ∀ d, document s = Some d → application d = app;
  inv_disk : durable_phase (phase s) = true → ∀ c, survives fs c → reads_as (the_document s) c
}.

Definition reachable (s : ServiceLifecycleState) (fs : FS) : Prop :=
  ∃ fs0, rtc (step true) (absent, fs0) (s, fs).

(** *** Preservation *)

Lemma encodes_valid d : encodes d = true ↔ validate_document d = None.
Proof. unfold encodes, encode_active_state_json. by destruct (validate_document d). Qed.

Lemma state_is_true d s : state_is d s = true ↔ doc_state d = s.
Proof. apply bool_decide_eq_true. Qed.

Lemma validated d : validate_document d = None ↔
  valid_application_id (application d) = true ∧
  match doc_state d with
  | State_kActive => valid_version_id (version d) = true ∧ valid_generation (generation d) = true ∧
      previous_version d = [] ∧ previous_generation d = [] ∧ reason d = []
  | State_kRetired => valid_version_id (previous_version d) = true ∧
      valid_generation (previous_generation d) = true ∧ version d = [] ∧ generation d = [] ∧ reason d = []
  | State_kQuarantined => valid_version_id (version d) = true ∧ valid_generation (generation d) = true ∧
      reason d = kCrashBudgetExceededReason ∧ previous_version d = [] ∧ previous_generation d = []
  end.
Proof.
  unfold validate_document, invalid. split.
  - split_test; [done|]. bools. destruct (doc_state d); repeat (split_test; [done|]); bools;
      by repeat split.
  - intros [Happ Hs]. rewrite Happ. cbn [negb].
    destruct (doc_state d); destruct Hs as (H1 & H2 & H3 & H4 & H5);
      rewrite H1, H2, H3, H4, H5; cbn [negb]; by rewrite !bool_decide_true.
Qed.

Lemma tombstone_valid d : validate_document d = None → doc_state d ≠ State_kRetired →
  validate_document (retired_tombstone d) = None.
Proof.
  rewrite !validated. intros [Happ Hs] Hne. split; [done|].
  destruct (doc_state d); [|done|]; by destruct Hs as (? & ? & ? & ? & ?).
Qed.

Lemma quarantined_valid d : validate_document d = None → doc_state d = State_kActive →
  validate_document (quarantined_document d) = None.
Proof.
  rewrite !validated. intros [Happ Hs] Heq. rewrite Heq in Hs. split; [done|].
  by destruct Hs as (? & ? & ? & ? & ?).
Qed.

Lemma matches_document s : matches s = true → durable_phase (phase s) = true →
  ∃ d, document s = Some d ∧ validate_document d = None.
Proof.
  unfold matches, document_matches_phase. destruct (document s) as [d|].
  - split_test; [done|]. bools. intros _ _. exists d. split; [done|]. by apply encodes_valid.
  - intros Hp Hd. by destruct (phase s).
Qed.

Definition phase_document (p : ServiceLifecyclePhase) (d : ActiveStateDocument) : Prop :=
  match p with
  | Phase_kAbsent => False
  | Phase_kActive | Phase_kQuarantining => doc_state d = State_kActive
  | Phase_kRetired => doc_state d = State_kRetired
  | Phase_kQuarantined => doc_state d = State_kQuarantined
  | Phase_kRetiring | Phase_kDurabilityUncertain | Phase_kFailedClosed => True
  end.

Lemma matches_some p d : matches (mkLifecycle p (Some d)) = true ↔
  validate_document d = None ∧ phase_document p d.
Proof.
  unfold matches, document_matches_phase, state_is. cbn [phase document].
  rewrite <- encodes_valid. destruct (encodes d); cbn [negb]; [|by split; [|intros [? _]]].
  destruct p; cbn [phase_document]; rewrite ?bool_decide_eq_true; try by split; [|intros [? ?]].
  split; [done|]. intros _. by destruct (doc_state d).
Qed.

Lemma durable_document s fs : service_inv s fs → durable_phase (phase s) = true →
  ∃ d, s = mkLifecycle (phase s) (Some d) ∧ validate_document d = None ∧
    phase_document (phase s) d ∧ application d = app ∧ ∀ c, survives fs c → reads_as d c.
Proof.
  intros [Hm Happ Hdisk] Hd. destruct (matches_document s Hm Hd) as (d & Hdoc & _).
  specialize (Hdisk Hd). destruct s as [p o]. cbn [phase document] in *. subst o.
  apply matches_some in Hm as [Hv Hp]. exists d. by repeat split; auto.
Qed.

(** A state with a document on a disk that holds it. *)
Lemma service_inv_some p d fs : validate_document d = None → phase_document p d →
  application d = app → (durable_phase p = true → ∀ c, survives fs c → reads_as d c) →
  service_inv (mkLifecycle p (Some d)) fs.
Proof.
  intros Hv Hp Happ Hdisk. split; [by apply matches_some| |done]. by intros d' [= <-].
Qed.

Lemma service_inv_none fs p : p = Phase_kAbsent ∨ p = Phase_kFailedClosed →
  service_inv (mkLifecycle p None) fs.
Proof. intros [-> | ->]; by split. Qed.

Lemma service_inv_keeps s fs fs' : service_inv s fs → keeps fs fs' → service_inv s fs'.
Proof. intros [Hm Happ Hd] [_ Hs]. split; auto. Qed.

Lemma boot_inv fs : (∀ c, survives fs c → c = visible fs) →
  service_inv (plan_state (boot fs)) (recover_active_state app fs).2.
Proof.
  intros Honly. apply service_inv_keeps with fs; [|apply recover_keeps].
  pose proof (recover_document app fs) as Hdoc. unfold boot, plan_service_recovery.
  set (r := (recover_active_state app fs).1) in *.
  assert (∀ p, recovery_action r ≠ Recovery_kNone → encodes (recovery_document r) = true →
    phase_document p (recovery_document r) →
    service_inv (mkLifecycle p (Some (recovery_document r))) fs) as Hkeep.
  { intros p Hact He Hp. destruct (Hdoc Hact) as [Happ Hreads].
    apply service_inv_some; [by apply encodes_valid|done|done|].
    intros _ c Hc. by rewrite (Honly c Hc). }
  split_test; [apply service_inv_none; auto|]. split_test; [apply service_inv_none; auto|].
  destruct (recovery_action r) eqn:Hact;
    (split_test; [apply service_inv_none; auto|]); bools; [apply service_inv_none; auto|..];
    apply Hkeep; try done; by apply state_is_true.
Qed.

Lemma retire_inv s fs : service_inv s fs → transition_ok (request_service_retire s) = true →
  service_inv (transition_state (request_service_retire s)) fs.
Proof.
  intros Hinv. pose proof (durable_document s fs Hinv) as Hdur.
  unfold request_service_retire. split_test; [done|].
  destruct (phase s) eqn:Hp; try done; intros _;
    destruct (Hdur eq_refl) as (d & Heq & Hv & _ & Happ & Hdisk); rewrite Heq;
    cbn [transition_state document]; by apply service_inv_some.
Qed.

Lemma quarantine_inv s fs : service_inv s fs → transition_ok (enter_service_quarantine s) = true →
  service_inv (transition_state (enter_service_quarantine s)) fs.
Proof.
  intros Hinv. pose proof (durable_document s fs Hinv) as Hdur.
  unfold enter_service_quarantine. split_test; [done|]. bools. intros _.
  destruct (phase s); try done.
  destruct (Hdur eq_refl) as (d & Heq & Hv & Hs & Happ & Hdisk). rewrite Heq.
  by apply service_inv_some.
Qed.

Lemma drained_inv s fs : service_inv s fs → transition_ok (complete_service_retire_drain s) = true →
  service_inv (transition_state (complete_service_retire_drain s)) fs.
Proof.
  intros Hinv. pose proof (durable_document s fs Hinv) as Hdur.
  unfold complete_service_retire_drain. split_test; [by intros _|]. split_test; [done|]. bools. intros _.
  destruct (phase s) eqn:Hp; try done.
  destruct (Hdur eq_refl) as (d & Heq & Hv & Hs & Happ & Hdisk). rewrite Heq in *.
  cbn in *. unfold the_document, state_is in *. cbn in *. bools. by apply service_inv_some.
Qed.

(** What a pending mutation of [p] asks to be written, and where its three
    outcomes lead. *)
Definition wanted_document (p : ServiceLifecyclePhase) (d : ActiveStateDocument) : ActiveStateDocument :=
  if bool_decide (p = Phase_kRetiring) then retired_tombstone d else quarantined_document d.

Definition committed_phase (p : ServiceLifecyclePhase) : ServiceLifecyclePhase :=
  if bool_decide (p = Phase_kRetiring) then Phase_kRetiring else Phase_kQuarantined.

Definition restored_phase (p : ServiceLifecyclePhase) (d : ActiveStateDocument) : ServiceLifecyclePhase :=
  if bool_decide (p = Phase_kRetiring) then
    if state_is d State_kQuarantined then Phase_kQuarantined else Phase_kActive
  else Phase_kQuarantining.

Definition pending_phase (p : ServiceLifecyclePhase) : Prop :=
  p = Phase_kRetiring ∨ p = Phase_kQuarantining.

Lemma resolve_cases new fs r fs' log p d : pending_phase p →
  matches (mkLifecycle p (Some d)) = true → doc_state d ≠ State_kRetired →
  persisted new fs r fs' log →
  let t := resolve_service_state_persistence (mkLifecycle p (Some d)) r in
  lifecycle_code (transition_error t) ≠ Lifecycle_kInvalidPersistenceResult ∧
  ((persist_ok r = true ∧
      transition_state t = mkLifecycle (committed_phase p) (Some (wanted_document p d))) ∨
   (persist_ok r = false ∧ active_name_replaced r = false ∧
      transition_state t = mkLifecycle (restored_phase p d) (Some d)) ∨
   (persist_ok r = false ∧ active_name_replaced r = true ∧
      transition_state t = mkLifecycle Phase_kDurabilityUncertain (Some d))).
Proof.
  intros Hp Hm Hret [_ _ _ _ Hok Hclean Hpre Hunc]. pose proof Hm as [Hv Hpd]%matches_some.
  unfold resolve_service_state_persistence, the_document. rewrite Hm. cbn [phase document from_option id].
  assert (state_is d State_kRetired = false) as -> by (by apply bool_decide_eq_false).
  assert (bool_decide (p = Phase_kQuarantining) && negb (state_is d State_kActive) = false) as ->.
  { destruct Hp as [-> | ->]; [done|]. cbn in Hpd. unfold state_is. by rewrite Hpd. }
  assert ((negb (bool_decide (p = Phase_kRetiring)) && negb (bool_decide (p = Phase_kQuarantining)))
    || negb true = false) as -> by (by destruct Hp as [-> | ->]).
  unfold committed_phase, wanted_document, restored_phase.
  destruct (persist_ok r) eqn:Eok; [|destruct (active_name_replaced r) eqn:Erep].
  - destruct (Hok eq_refl) as [Hrep _]. rewrite Hrep, (Hclean eq_refl). cbn.
    destruct Hp as [-> | ->]; cbn; (split; [done|]; auto).
  - rewrite (Hunc eq_refl eq_refl). cbn. split; [done|]. auto.
  - specialize (Hpre eq_refl eq_refl). unfold ordinary_error in Hpre. cbn [negb andb].
    rewrite Hpre. cbn [negb andb]. destruct Hp as [-> | ->]; cbn; (split; [done|]; auto).
Qed.

Lemma wanted_valid p d : pending_phase p → validate_document d = None → phase_document p d →
  doc_state d ≠ State_kRetired →
  validate_document (wanted_document p d) = None ∧
  phase_document (committed_phase p) (wanted_document p d) ∧
  application (wanted_document p d) = application d.
Proof.
  intros [-> | ->] Hv Hpd Hne; cbn.
  - split; [by apply tombstone_valid|done].
  - split; [by apply quarantined_valid|done].
Qed.

Lemma resolve_inv s fs op r fs' : service_inv s fs → pending_phase (phase s) →
  doc_state (the_document s) ≠ State_kRetired →
  persist_active_state (wanted_document (phase s) (the_document s)) op fs = (r, fs') →
  service_inv (transition_state (resolve_service_state_persistence s r)) fs'.
Proof.
  intros Hinv Hpend Hne Hpersist.
  destruct (durable_document s fs Hinv) as (d & Heq & Hv & Hpd & Happ & Hdisk);
    [by destruct Hpend as [-> | ->]|].
  pose proof (inv_matches _ _ Hinv) as Hm. set (p := phase s) in *. clearbody p. subst s.
  unfold the_document in *; cbn [document phase from_option id] in *.
  destruct (wanted_valid p d Hpend Hv Hpd Hne) as (Hwv & Hwp & Hwa).
  destruct (persist_outcome (wanted_document p d) op fs) as [log Hout]. rewrite Hpersist in Hout. cbn [fst snd] in Hout.
  destruct (resolve_cases _ _ _ _ _ p d Hpend Hm Hne Hout) as [_ Hcases].
  destruct Hcases as [[Hok ->]|[(_ & Hrep & ->)|(_ & _ & ->)]].
  - apply service_inv_some; [done|done|congruence|]. intros _ c Hc.
    destruct (persisted_ok _ _ _ _ _ Hout Hok) as [_ Honly]. rewrite (Honly c Hc).
    by apply reads_as_canonical.
  - destruct (persisted_kept _ _ _ _ _ Hout Hrep) as [_ Hs].
    apply service_inv_some; [done| |done|auto]. unfold restored_phase.
    destruct Hpend as [-> | ->]; cbn; [|done]. unfold state_is. by destruct (doc_state d) eqn:Hst.
  - by apply service_inv_some.
Qed.

Lemma deploy_planned_probe s ver gen :
  deploy_action (plan_explicit_service_deploy s app ver gen) = Deploy_kWarmAndActivate →
  validate_document (deploy_probe app ver gen) = None.
Proof.
  unfold plan_explicit_service_deploy. split_test; [done|].
  unfold encode_active_state_json. by destruct (validate_document (deploy_probe app ver gen)).
Qed.

Lemma step_inv deploys s fs s' fs' : service_inv s fs → step deploys (s, fs) (s', fs') → service_inv s' fs'.
Proof.
  intros Hinv Hstep. inversion Hstep as [? ? crashed Hsurv Honly|? ? Hok|? ? Hok
    |? ? wanted op r ? Hw Hne Hp|? ? Hok|? ? ver gen op r ? _ Hplan Hp Hrep]; subst.
  - by apply boot_inv.
  - by apply retire_inv.
  - by apply quarantine_inv.
  - apply (resolve_inv s fs op); [done| |done|].
    + destruct Hw as [[? _]|[? _]]; [by left|by right].
    + unfold wanted_document. by destruct Hw as [[-> ->]|[-> ->]].
  - by apply drained_inv.
  - destruct (persist_outcome (deploy_probe app ver gen) op fs) as [log Hout]. rewrite Hp in Hout.
    cbn [fst snd] in Hout.
    destruct (persist_ok r) eqn:Hok.
    + apply service_inv_some; [by eapply deploy_planned_probe|done|done|]. intros _ c Hc.
      destruct (persisted_ok _ _ _ _ _ Hout Hok) as [_ Hon]. rewrite (Hon c Hc).
      apply reads_as_canonical. by eapply deploy_planned_probe.
    + apply service_inv_keeps with fs; [done|]. by apply (persisted_kept _ _ _ _ _ Hout).
Qed.

Lemma reachable_inv s fs : reachable s fs → service_inv s fs.
Proof.
  intros [fs0 Hr]. assert (∀ x y, rtc (step true) x y → service_inv x.1 x.2 → service_inv y.1 y.2) as Hall.
  { intros x y Hxy. induction Hxy as [|[s1 f1] [s2 f2] y Hs _ IH]; [done|].
    intros Hi. apply IH. by eapply step_inv. }
  apply (Hall _ _ Hr). apply service_inv_none. by left.
Qed.

(** *** Stopped services *)

(** [c] is an active.json that recovery never activates. *)
Definition stopped_content (c : option bytes) : Prop :=
  ∃ d, application d = app ∧ doc_state d ≠ State_kActive ∧ reads_as d c.

Record stopped (s : ServiceLifecycleState) (fs : FS) : Prop := {
  stopped_disk : ∀ c, survives fs c → stopped_content c;
  stopped_memory : ∀ d, document s = Some d → doc_state d ≠ State_kActive
}.

Lemma stopped_inactive s fs : stopped s fs → matches s = true → phase s ≠ Phase_kActive.
Proof.
  intros [_ Hmem] Hm Hp. destruct (matches_document s Hm) as (d & Hd & _); [by rewrite Hp|].
  destruct s as [p o]. cbn in *. subst. apply matches_some in Hm as [_ Hpd]. by apply (Hmem d).
Qed.

Lemma reads_as_fun d d' c : application d = application d' → reads_as d c → reads_as d' c → d = d'.
Proof. intros Happ (t & -> & Hp) (t' & [= <-] & Hp'). rewrite Happ, Hp' in Hp. by injection Hp. Qed.

Lemma boot_stopped crashed : (∀ c, survives crashed c → c = visible crashed) →
  stopped_content (visible crashed) →
  stopped (plan_state (boot crashed)) (recover_active_state app crashed).2.
Proof.
  intros Honly Hst. destruct (recover_keeps app crashed) as [_ Hk]. split.
  { intros c Hc. by rewrite (Honly c (Hk c Hc)). }
  pose proof (recover_document app crashed) as Hdoc. destruct Hst as (d & Happ & Hne & Hreads).
  unfold boot, plan_service_recovery. set (r := (recover_active_state app crashed).1) in *.
  split_test; [done|]. split_test; [done|].
  assert (recovery_action r ≠ Recovery_kNone → recovery_document r = d) as Heq.
  { intros Hact. destruct (Hdoc Hact) as [Ha Hr]. eapply reads_as_fun; [|done|done]. congruence. }
  destruct (recovery_action r); (split_test; [done|]); [done|..];
    rewrite Heq by done; by intros ? [= <-].
Qed.

Lemma resolve_stopped s fs op r fs' : service_inv s fs → stopped s fs → pending_phase (phase s) →
  doc_state (the_document s) ≠ State_kRetired →
  persist_active_state (wanted_document (phase s) (the_document s)) op fs = (r, fs') →
  stopped (transition_state (resolve_service_state_persistence s r)) fs'.
Proof.
  intros Hinv [Hdsk Hmem] Hpend Hne Hpersist.
  destruct (durable_document s fs Hinv) as (d & Heq & Hv & Hpd & Happ & _);
    [by destruct Hpend as [-> | ->]|].
  pose proof (inv_matches _ _ Hinv) as Hm. set (p := phase s) in *. clearbody p. subst s.
  unfold the_document in *. cbn [document phase from_option id] in *.
  specialize (Hmem d eq_refl). destruct (wanted_valid p d Hpend Hv Hpd Hne) as (Hwv & Hwp & Hwa).
  destruct (persist_outcome (wanted_document p d) op fs) as [log Hout]. rewrite Hpersist in Hout.
  cbn [fst snd] in Hout.
  assert (doc_state (wanted_document p d) ≠ State_kActive) as Hwne
    by (unfold wanted_document; by destruct (bool_decide _)).
  split.
  - intros c Hc. destruct (persisted_final _ _ _ _ _ Hout c Hc) as [Hold| ->]; [auto|].
    exists (wanted_document p d). split; [congruence|]. split; [done|]. by apply reads_as_canonical.
  - destruct (resolve_cases _ _ _ _ _ p d Hpend Hm Hne Hout) as [_ Hcases].
    destruct Hcases as [[_ ->]|[(_ & _ & ->)|(_ & _ & ->)]]; by intros ? [= <-].
Qed.

Lemma step_stopped s fs s' fs' : service_inv s fs → stopped s fs → step false (s, fs) (s', fs') →
  stopped s' fs'.
Proof.
  intros Hinv Hst Hstep. pose proof (stopped_inactive s fs Hst (inv_matches _ _ Hinv)) as Hact.
  inversion Hstep as [? ? crashed Hsurv Honly|? ? Hok|? ? Hok
    |? ? wanted op r ? Hw Hne Hp|? ? Hok|? ? ver gen op r ? Hd Hplan Hp Hrep]; subst; [..|done].
  - apply boot_stopped; [done|]. by apply Hst.
  - revert Hok. unfold request_service_retire. split_test; [done|].
    destruct (phase s); try done; intros _; by destruct Hst.
  - revert Hok. unfold enter_service_quarantine. rewrite bool_decide_false by done. done.
  - apply (resolve_stopped s fs op); [done|done| |done|].
    + destruct Hw as [[? _]|[? _]]; [by left|by right].
    + unfold wanted_document. by destruct Hw as [[-> ->]|[-> ->]].
  - revert Hok. unfold complete_service_retire_drain. split_test; [done|]. split_test; [done|].
    intros _. by destruct Hst.
Qed.

Lemma steps_stopped s fs s' fs' : service_inv s fs → stopped s fs →
  rtc (step false) (s, fs) (s', fs') → service_inv s' fs' ∧ stopped s' fs'.
Proof.
  intros Hinv Hst Hsteps.
  enough (∀ x y, rtc (step false) x y → service_inv x.1 x.2 → stopped x.1 x.2 →
    service_inv y.1 y.2 ∧ stopped y.1 y.2) as Hall by (by apply (Hall _ _ Hsteps)).
  clear. intros x y Hxy. induction Hxy as [|[s1 f1] [s2 f2] y Hs _ IH]; [done|].
  intros Hi Ht. apply IH; [by eapply step_inv|by eapply step_stopped].
Qed.
End system.

(** ** Properties *)

Definition boot_phase (s : ActiveServiceState) : ServiceLifecyclePhase :=
  match s with
  | State_kActive => Phase_kActive
  | State_kRetired => Phase_kRetired
  | State_kQuarantined => Phase_kQuarantined
  end.

(** The Version and generation a service is bound to. *)
Definition bound_version (d : ActiveStateDocument) : bytes * bytes :=
  match doc_state d with
  | State_kRetired => (previous_version d, previous_generation d)
  | _ => (version d, generation d)
  end.

Definition settled (p : ServiceLifecyclePhase) : bool :=
  match p with
  | Phase_kAbsent | Phase_kActive | Phase_kRetired | Phase_kQuarantined => true
  | _ => false
  end.

Lemma forall_document (P : ActiveStateDocument → Prop) d : (∀ d', Some d = Some d' → P d') ↔ P d.
Proof. split; [auto|]. by intros HP d' [= <-]. Qed.

Definition empty_disk : disk := mkDisk None [] ∅ [sample_generation] [].
Definition deployed_disk : disk := (persist_active_state sample_active (bs "op1") empty_disk).2.
Definition retired_disk : disk := (persist_active_state sample_retired (bs "op2") deployed_disk).2.
Definition serving : ServiceLifecycleState := mkLifecycle Phase_kActive (Some sample_active).
Definition draining : ServiceLifecycleState := mkLifecycle Phase_kRetiring (Some sample_retired).

Definition sample_step : bool → relation (ServiceLifecycleState * disk) :=
  @step disk _ _ bytes text_strtod (bs "shop").

Lemma serving_step : sample_step true (absent, empty_disk) (serving, deployed_disk).
Proof.
  apply (step_deploy (bs "shop") true absent empty_disk (bs "v1") sample_generation (bs "op1")
           (mkPersistResult true true (bs "active.json.tmp.op1") no_error) deployed_disk);
    vm_compute; reflexivity.
Qed.

Lemma draining_steps : rtc (sample_step true) (serving, deployed_disk) (draining, retired_disk).
Proof.
  eapply rtc_l; [by apply step_retire|]. eapply rtc_l; [|apply rtc_refl].
  apply (step_persist (bs "shop") true (mkLifecycle Phase_kRetiring (Some sample_active)) deployed_disk
           sample_retired (bs "op2")
           (mkPersistResult true true (bs "active.json.tmp.op2") no_error) retired_disk).
  - left. split; reflexivity.
  - discriminate.
  - vm_compute. reflexivity.
Qed.

Lemma draining_reachable : @reachable disk _ _ bytes text_strtod (bs "shop") draining retired_disk.
Proof. exists empty_disk. eapply rtc_l; [apply serving_step|apply draining_steps]. Qed.





(** A service that was retired or quarantined stays so: whatever happens
    without an explicit deploy, restarts, failed and uncertain writes included,
    it is never routed and its pool is never replaced automatically. *)
Theorem stopped_stays_stopped {FS} `{CrashModel FS} {real} `{Strtod real} app s (fs : FS) s' fs' :
  reachable app s fs → durable_phase (phase s) = true →
  doc_state (the_document s) ≠ State_kActive → rtc (step app false) (s, fs) (s', fs') →
  service_route_disposition s' ≠ Route_kServeActive ∧
  service_allows_automatic_replacement s' = false.
Proof.
  intros Hreach Hdur Hne Hsteps. pose proof (reachable_inv app s fs Hreach) as Hinv.
  destruct (durable_document app s fs Hinv Hdur) as (d & Heq & Hv & _ & Happ & Hdisk).
  assert (stopped app s fs) as Hst.
  { rewrite Heq in Hne. split.
    - intros c Hc. exists d. by auto.
    - rewrite Heq. by intros ? [= <-]. }
  destruct (steps_stopped app s fs s' fs' Hinv Hst Hsteps) as [Hinv' Hst'].
  pose proof (inv_matches app _ _ Hinv') as Hm.
  pose proof (stopped_inactive app _ _ Hst' Hm) as Hp.
  unfold service_route_disposition, service_allows_automatic_replacement. rewrite Hm. cbn [negb].
  rewrite bool_decide_false by done. split; [|done].
  destruct (phase s'); try done. by destruct (state_is _ _).
Qed.

Lemma stopped_stays_stopped_witness :
  service_route_disposition (mkLifecycle Phase_kRetired (Some sample_retired)) ≠ Route_kServeActive.
Proof.
  apply (@stopped_stays_stopped disk _ _ bytes text_strtod (bs "shop") draining retired_disk
           (mkLifecycle Phase_kRetired (Some sample_retired)) retired_disk draining_reachable);
    [reflexivity|discriminate|].
  eapply rtc_l; [|apply rtc_refl]. by apply step_drained.
Defined.

(** An explicit deploy is planned exactly when the service is settled
    (absent, active, retired or quarantined) and consistent, the target is a
    valid App, Version and generation of the same App, and the Version is not
    bound to another generation; only the exact active target is a no-op, every
    other one warms, and only a quarantined service resets its budget. *)
Theorem deploy_plan_exact s app ver gen :
  let plan := plan_explicit_service_deploy s app ver gen in
  let active := match document s with
                | Some d => bool_decide (phase s = Phase_kActive) && bool_decide (bound_version d = (ver, gen))
                | None => false
                end in
  (deploy_ok plan = true ↔
     matches s = true ∧ validate_document (deploy_probe app ver gen) = None ∧
     settled (phase s) = true ∧
     ∀ d, document s = Some d → application d = app ∧
       ((bound_version d).1 = ver → (bound_version d).2 = gen)) ∧
  (deploy_ok plan = true →
     deploy_action plan = (if active then Deploy_kAlreadyActive else Deploy_kWarmAndActivate) ∧
     reset_instability_budget_after_activation plan = bool_decide (phase s = Phase_kQuarantined)).
Proof.
  unfold plan_explicit_service_deploy, encode_active_state_json.
  destruct (matches s) eqn:Hm; cbn [negb]; [|by split; [split; [|intros (? & _)]|]].
  destruct (validate_document (deploy_probe app ver gen)) eqn:Hv; [by split; [split; [|intros (_ & ? & _)]|]|].
  destruct s as [p [d|]]; unfold the_document; cbn [phase document from_option id].
  - rewrite (bool_decide_true (Some d ≠ None)) by done. cbn [andb].
    rewrite forall_document. destruct (bool_decide_reflect (application d = app)) as [Happ|Happ]; cbn [negb];
      [|by split; [split; [|intros (_ & _ & _ & ? & _)]|]].
    apply matches_some in Hm as [_ Hpd]. unfold bound_version, state_is.
    destruct p; cbn [phase_document settled] in *; try done; try rewrite Hpd; cbn [fst snd];
      try (by split; [split; [|intros (_ & _ & ? & _)]|]); rewrite Happ.
    + rewrite (bool_decide_ext _ _ (pair_equal_spec (version d) ver (generation d) gen)).
      destruct (bool_decide_reflect (version d = ver)), (bool_decide_reflect (generation d = gen));
        cbn; rewrite ?bool_decide_true, ?bool_decide_false by tauto; intuition done.
    + destruct (bool_decide_reflect (previous_version d = ver)),
        (bool_decide_reflect (previous_generation d = gen)); cbn; intuition done.
    + destruct (bool_decide_reflect (version d = ver)),
        (bool_decide_reflect (generation d = gen)); cbn; intuition done.
  - unfold matches in Hm. cbn in Hm. destruct p; try done; cbn.
    by split; [split; [|intros (_ & _ & ? & _)]|].
Qed.
