(* ===== verification/WorkerRecovery.v ===== *)
(** * WorkerRecovery: crash budget, backoff and startup permits (src/host/worker_recovery.cc)

    The pure controller that decides, for every worker failure, whether the
    generation is quarantined or a replacement is scheduled and with which
    delay, when the backoff resets, whether a failed request is retried, and
    the fair queue of startup permits. *)
From Stdlib Require Import ZArith Lia Sorted.
From S2P Require Import Prelude ActiveState ServiceLifecycle.
Local Open Scope Z_scope.

(** ** Data *)

Definition kMaxTrackedInstabilityEvents : Z := 1024.

Record WorkerRecoveryPolicy := mkPolicy {
  max_events : Z;                       (* uint32_t *)
  window_ms : Z;                        (* uint64_t *)
  backoff_initial_ms : Z;               (* uint64_t *)
  backoff_maximum_ms : Z;               (* uint64_t *)
  jitter_basis_points : Z;              (* uint32_t *)
  stable_reset_ms : Z;                  (* uint64_t *)
  replacements_concurrent_per_app : Z   (* uint32_t *)
}.

Inductive WorkerInstabilityKind :=
| Kind_kUnexpectedExit | Kind_kCgroupOom | Kind_kSynchronousCpuTimeout | Kind_kIpcFailure
| Kind_kProtocolFailure | Kind_kHealthRecycle | Kind_kReplacementStartupFailure
| Kind_kNormalDrain | Kind_kHostShutdown | Kind_kOperatorRetire.

#[export] Instance WorkerInstabilityKind_eq_dec : EqDecision WorkerInstabilityKind.
Proof. solve_decision. Defined.

Inductive WorkerRecoveryErrorCode :=
| Worker_kNone | Worker_kInvalidPolicy | Worker_kInvalidState | Worker_kClockRegression
| Worker_kResourceLimit | Worker_kInvalidJitter | Worker_kInvalidRequest | Worker_kQueueFull.

Record WorkerRecoveryError := mkWorkerError {
  worker_code : WorkerRecoveryErrorCode;
  worker_path : bytes;
  worker_message : string
}.

Record GenerationRecoveryState := mkGenerationState {
  recovery_application : bytes;
  recovery_generation : bytes;
  instability_events_ms : list Z;
  replacement_attempts_since_stable : Z;  (* uint32_t *)
  last_observed_ms : Z;
  has_last_observed_time : bool
}.

Record WorkerInstabilityObservation := mkObservation {
  kind : WorkerInstabilityKind;
  worker_generation : bytes;
  now_ms : Z;                             (* uint64_t *)
  ready_workers_after_removal : Z;
  target_ready_workers : Z;
  replacements_in_flight_for_app : Z;
  chosen_jitter_basis_points : Z          (* int32_t *)
}.

Inductive GenerationRecoveryDisposition :=
| Disposition_kIgnoredExpectedEvent | Disposition_kStaleGeneration | Disposition_kContinueActive
| Disposition_kBeginQuarantine | Disposition_kUnavailable.

#[export] Instance GenerationRecoveryDisposition_eq_dec : EqDecision GenerationRecoveryDisposition.
Proof. solve_decision. Defined.

Record WorkerRecoveryDecision := mkDecision {
  decision_ok : bool;
  decision_state : GenerationRecoveryState;
  instability_kind : WorkerInstabilityKind;
  disposition : GenerationRecoveryDisposition;
  event_counted : bool;
  events_in_window : Z;
  begin_quarantine : bool;
  schedule_replacement : bool;
  replacement_singleflight_exists : bool;
  acquire_startup_permit : bool;
  acquire_memory_permit : bool;
  decision_delay_ms : Z;
  decision_error : WorkerRecoveryError
}.

Record WorkerStabilityResult := mkStability {
  stability_ok : bool;
  stability_state : GenerationRecoveryState;
  backoff_reset : bool;
  stability_error : WorkerRecoveryError
}.

Record FailedRequestRetryContext := mkRetryContext {
  method : bytes;
  response_head_sent : bool;
  request_body_present_or_started : bool;
  deadline_allows_retry : bool;
  same_active_generation_worker_available : bool;
  retries_already_attempted : Z
}.

Inductive FailedRequestAction :=
| Action_kRetryOnceSameGeneration | Action_kSynthesize503 | Action_kAbortStartedResponse.

Inductive StartupPermitLane := Lane_kDeploy | Lane_kReplacement.

#[export] Instance StartupPermitLane_eq_dec : EqDecision StartupPermitLane.
Proof. solve_decision. Defined.

Record StartupPermitRequest := mkPermitRequest {
  ticket : Z;                             (* uint64_t *)
  permit_application : bytes;
  permit_generation : bytes;
  lane : StartupPermitLane
}.

#[export] Instance StartupPermitRequest_eq_dec : EqDecision StartupPermitRequest.
Proof. solve_decision. Defined.

Record FairStartupPermitQueue := mkPermitQueue {
  queued : list StartupPermitRequest;
  last_granted_application : bytes
}.

Record StartupPermitQueueResult := mkQueueResult {
  queue_ok : bool;
  queue_after : FairStartupPermitQueue;
  joined_existing : bool;
  queued_deploys : Z;
  queued_replacements : Z;
  queue_error : WorkerRecoveryError
}.

Record StartupPermitGrantResult := mkGrantResult {
  grant_ok : bool;
  grant_queue : FairStartupPermitQueue;
  granted : option StartupPermitRequest;
  grant_deploys : Z;
  grant_replacements : Z;
  grant_error : WorkerRecoveryError
}.

Definition no_worker_error : WorkerRecoveryError := mkWorkerError Worker_kNone [] "".

(** ** Helpers *)

Definition valid_policy (policy : WorkerRecoveryPolicy) : bool :=
  if (max_events policy =? 0) || (kMaxTrackedInstabilityEvents <? max_events policy) then false
  else if window_ms policy =? 0 then false
  else if (backoff_initial_ms policy =? 0) || (backoff_maximum_ms policy <? backoff_initial_ms policy)
  then false
  else if 10000 <? jitter_basis_points policy then false
  else if stable_reset_ms policy =? 0 then false
  else if replacements_concurrent_per_app policy =? 0 then false
  else
    let max_factor := 10000 + jitter_basis_points policy in
    let max_scaled := 2 ^ 63 - 1 in
    if max_scaled / max_factor <? backoff_maximum_ms policy then false else true.

Definition lifecycle_consistent (lifecycle : ServiceLifecycleState) : bool :=
  match document lifecycle with
  | None =>
      bool_decide (phase lifecycle = Phase_kAbsent) || bool_decide (phase lifecycle = Phase_kFailedClosed)
  | Some d =>
      if negb (encodes d) then false
      else match phase lifecycle with
      | Phase_kAbsent => false
      | Phase_kActive => state_is d State_kActive
      | Phase_kRetired => state_is d State_kRetired
      | Phase_kQuarantined => state_is d State_kQuarantined
      | Phase_kRetiring =>
          state_is d State_kActive || state_is d State_kRetired || state_is d State_kQuarantined
      | Phase_kQuarantining => state_is d State_kActive
      | Phase_kDurabilityUncertain | Phase_kFailedClosed => true
      end
  end.

Fixpoint events_sorted (events : list Z) : bool :=
  match events with
  | a :: ((b :: _) as rest) => if b <? a then false else events_sorted rest
  | _ => true
  end.

Definition instability_kind_is_expected (k : WorkerInstabilityKind) : bool :=
  match k with
  | Kind_kNormalDrain | Kind_kHostShutdown | Kind_kOperatorRetire => true
  | _ => false
  end.

Definition request_identifiers_valid (app gen : bytes) : bool :=
  encodes (mkDocument State_kActive app (bs "v0") gen [] [] []).

Definition kProbeGeneration : bytes := bs "sha256:" ++ replicate 64 Byte.x30.

Definition valid_permit_application (app : bytes) : bool :=
  request_identifiers_valid app kProbeGeneration.

Definition request_is_valid (r : StartupPermitRequest) : bool :=
  (bool_decide (lane r = Lane_kDeploy) || bool_decide (lane r = Lane_kReplacement))
  && request_identifiers_valid (permit_application r) (permit_generation r).

(** The inner loop: [request] against one earlier entry. *)
Definition requests_conflict (other request : StartupPermitRequest) : bool :=
  (ticket other =? ticket request)
  || (bool_decide (lane other = Lane_kReplacement) && bool_decide (lane request = Lane_kReplacement)
      && bool_decide (permit_application other = permit_application request)
      && bool_decide (permit_generation other = permit_generation request)).

Fixpoint queue_entries_ok (before after : list StartupPermitRequest) : bool :=
  match after with
  | [] => true
  | request :: rest =>
      if negb (request_is_valid request) then false
      else if existsb (λ other, requests_conflict other request) before then false
      else queue_entries_ok (before ++ [request]) rest
  end.

Definition queue_invariants_ok (q : FairStartupPermitQueue) : bool :=
  if negb (bool_decide (last_granted_application q = []))
     && negb (valid_permit_application (last_granted_application q)) then false
  else queue_entries_ok [] (queued q).

(** [for (i = 0; i < attempts && base < cap; ++i)]: the base at least doubles
    in every round and the cap is below 2^63, so 64 rounds are enough. *)
Fixpoint backoff_loop (fuel : nat) (remaining base cap : Z) : Z :=
  match fuel with
  | O => base
  | S fuel' =>
      if (0 <? remaining) && (base <? cap) then
        if cap / 2 <? base then cap
        else backoff_loop fuel' (remaining - 1) (u64 (base * 2)) cap
      else base
  end.

(** Two's complement; the source's signed product must not wrap. *)
Definition s64 (z : Z) : Z := (z + 2 ^ 63) mod 2 ^ 64 - 2 ^ 63.

Definition replacement_delay_ms (policy : WorkerRecoveryPolicy) (attempts jitter : Z) : Z :=
  let base := backoff_loop 64 attempts (backoff_initial_ms policy) (backoff_maximum_ms policy) in
  let scaled := s64 (s64 base * (10000 + jitter)) in
  u64 (Z.quot scaled 10000).

(** ** The crash budget *)

(** [decision] as constructed at the entry. *)
Definition initial_decision (st : GenerationRecoveryState) (k : WorkerInstabilityKind)
    : WorkerRecoveryDecision :=
  mkDecision false st k Disposition_kUnavailable false 0 false false false false false 0
    no_worker_error.

Definition decision_failed (st : GenerationRecoveryState) (k : WorkerInstabilityKind)
    (code : WorkerRecoveryErrorCode) (path message : string) : WorkerRecoveryDecision :=
  mkDecision false st k Disposition_kUnavailable false 0 false false false false false 0
    (mkWorkerError code (bs path) message).

(** The observed time, and a result that counts nothing. *)
Definition observed (st : GenerationRecoveryState) (now : Z) : GenerationRecoveryState :=
  mkGenerationState (recovery_application st) (recovery_generation st) (instability_events_ms st)
    (replacement_attempts_since_stable st) now true.

Definition uncounted (st : GenerationRecoveryState) (k : WorkerInstabilityKind)
    (d : GenerationRecoveryDisposition) : WorkerRecoveryDecision :=
  mkDecision true st k d false 0 false false false false false 0 no_worker_error.

Definition with_events (st : GenerationRecoveryState) (events : list Z) : GenerationRecoveryState :=
  mkGenerationState (recovery_application st) (recovery_generation st) events
    (replacement_attempts_since_stable st) (last_observed_ms st) (has_last_observed_time st).

Definition with_attempts (st : GenerationRecoveryState) (attempts : Z) : GenerationRecoveryState :=
  mkGenerationState (recovery_application st) (recovery_generation st) (instability_events_ms st)
    attempts (last_observed_ms st) (has_last_observed_time st).

Definition window_of (policy : WorkerRecoveryPolicy) (now : Z) (events : list Z) : list Z :=
  List.filter (λ e, u64 (now - e) <? window_ms policy) events ++ [now].

(** Erases the oldest entries beyond the hard bound. *)
Definition bounded_window (window : list Z) : list Z :=
  if kMaxTrackedInstabilityEvents <? zlen window
  then zdrop (zlen window - kMaxTrackedInstabilityEvents) window else window.

Definition saturating_increment (attempts : Z) : Z :=
  if attempts =? 2 ^ 32 - 1 then attempts else attempts + 1.

(** From the counted event on: [st] has the observed time. *)
Definition count_event (st : GenerationRecoveryState) (policy : WorkerRecoveryPolicy)
    (o : WorkerInstabilityObservation) : WorkerRecoveryDecision :=
  let window := window_of policy (now_ms o) (instability_events_ms st) in
  let count := zlen window in
  let st := with_events st (bounded_window window) in
  if max_events policy <? count then
    mkDecision true st (kind o) Disposition_kBeginQuarantine true count true false false false false 0
      no_worker_error
  else if target_ready_workers o <=? ready_workers_after_removal o then
    mkDecision true st (kind o) Disposition_kContinueActive true count false false false false false 0
      no_worker_error
  else if replacements_concurrent_per_app policy <=? replacements_in_flight_for_app o then
    mkDecision true st (kind o) Disposition_kContinueActive true count false false true false false 0
      no_worker_error
  else
    let attempts := replacement_attempts_since_stable st in
    mkDecision true (with_attempts st (saturating_increment attempts)) (kind o)
      Disposition_kContinueActive true count false true false true true
      (replacement_delay_ms policy attempts (chosen_jitter_basis_points o)) no_worker_error.

(** The validation of the recovery state shared by both observers; the order
    of the tests differs between the two callers. *)
Definition future_event (now : Z) (events : list Z) : bool := existsb (λ e, now <? e) events.

Definition clock_regressed (st : GenerationRecoveryState) (now : Z) : bool :=
  has_last_observed_time st && (now <? last_observed_ms st).

Definition record_worker_instability (st : GenerationRecoveryState) (policy : WorkerRecoveryPolicy)
    (lifecycle : ServiceLifecycleState) (o : WorkerInstabilityObservation)
    : WorkerRecoveryDecision :=
  let failed := decision_failed st (kind o) in
  let jitter := chosen_jitter_basis_points o in
  let d := the_document lifecycle in
  if negb (valid_policy policy) then
    failed Worker_kInvalidPolicy "/policy" "recovery policy is invalid"
  else if negb (lifecycle_consistent lifecycle) then
    failed Worker_kInvalidState "/state" "lifecycle phase and document are inconsistent"
  else if (jitter <? - jitter_basis_points policy) || (jitter_basis_points policy <? jitter) then
    failed Worker_kInvalidJitter "/jitter" "chosen jitter exceeds the policy jitter"
  else if negb (events_sorted (instability_events_ms st)) then
    failed Worker_kInvalidState "/state" "instability events are not sorted"
  else if kMaxTrackedInstabilityEvents <? zlen (instability_events_ms st) then
    failed Worker_kResourceLimit "/state" "instability event state exceeds the tracked limit"
  else if future_event (now_ms o) (instability_events_ms st) then
    failed Worker_kClockRegression "/state" "instability event lies in the future"
  else if clock_regressed st (now_ms o) then
    failed Worker_kClockRegression "/state" "monotonic clock regressed"
  else if negb (request_identifiers_valid (recovery_application st) (recovery_generation st)) then
    failed Worker_kInvalidState "/state" "recovery state identity is invalid"
  else if negb (bool_decide (phase lifecycle = Phase_kActive)) then
    uncounted (observed st (now_ms o)) (kind o) Disposition_kUnavailable
  else if negb (bool_decide (recovery_application st = application d)) then
    failed Worker_kInvalidState "/state" "recovery state does not match the active application"
  else if negb (instability_kind_is_expected (kind o))
          && negb (bool_decide (worker_generation o = generation d))
          && negb (request_identifiers_valid (recovery_application st) (worker_generation o)) then
    failed Worker_kInvalidState "/worker-generation" "worker generation is malformed"
  else if instability_kind_is_expected (kind o) then
    uncounted (observed st (now_ms o)) (kind o) Disposition_kIgnoredExpectedEvent
  else if negb (bool_decide (recovery_generation st = generation d)) then
    uncounted (observed st (now_ms o)) (kind o) Disposition_kStaleGeneration
  else if negb (bool_decide (worker_generation o = generation d)) then
    uncounted (observed st (now_ms o)) (kind o) Disposition_kStaleGeneration
  else count_event (observed st (now_ms o)) policy o.

Definition observe_worker_stability (st : GenerationRecoveryState) (policy : WorkerRecoveryPolicy)
    (continuously_ready_since_ms now : Z) : WorkerStabilityResult :=
  let failed code (path message : string) :=
    mkStability false st false (mkWorkerError code (bs path) message) in
  if negb (valid_policy policy) then
    failed Worker_kInvalidPolicy "/policy"%string "recovery policy is invalid"%string
  else if negb (request_identifiers_valid (recovery_application st) (recovery_generation st)) then
    failed Worker_kInvalidState "/state"%string "recovery state identity is invalid"%string
  else if negb (events_sorted (instability_events_ms st)) then
    failed Worker_kInvalidState "/state"%string "instability events are not sorted"%string
  else if kMaxTrackedInstabilityEvents <? zlen (instability_events_ms st) then
    failed Worker_kResourceLimit "/state"%string
      "instability event state exceeds the tracked limit"%string
  else if future_event now (instability_events_ms st) then
    failed Worker_kClockRegression "/state"%string "instability event lies in the future"%string
  else if clock_regressed st now then
    failed Worker_kClockRegression "/state"%string "monotonic clock regressed"%string
  else if now <? continuously_ready_since_ms then
    failed Worker_kClockRegression "/state"%string "READY timestamp lies in the future"%string
  else if stable_reset_ms policy <=? u64 (now - continuously_ready_since_ms) then
    mkStability true (with_attempts (observed st now) 0) true no_worker_error
  else mkStability true (observed st now) false no_worker_error.

Definition decide_failed_request_action (recovery : WorkerRecoveryDecision)
    (request : FailedRequestRetryContext) : FailedRequestAction :=
  if response_head_sent request then Action_kAbortStartedResponse
  else if negb (decision_ok recovery) || begin_quarantine recovery
          || negb (bool_decide (disposition recovery = Disposition_kContinueActive)) then
    Action_kSynthesize503
  else match instability_kind recovery with
  | Kind_kUnexpectedExit | Kind_kIpcFailure | Kind_kProtocolFailure =>
      if (negb (bool_decide (method request = bs "GET")) && negb (bool_decide (method request = bs "HEAD")))
         || request_body_present_or_started request || negb (deadline_allows_retry request)
         || negb (same_active_generation_worker_available request)
         || (0 <? retries_already_attempted request) then
        Action_kSynthesize503
      else Action_kRetryOnceSameGeneration
  | _ => Action_kSynthesize503
  end.

(** ** Startup permits *)

Definition count_lane (l : StartupPermitLane) (q : list StartupPermitRequest) : Z :=
  zlen (List.filter (λ r, bool_decide (lane r = l)) q).

Definition enqueue_startup_permit_request (q : FairStartupPermitQueue) (request : StartupPermitRequest)
    (maximum_queued : Z) : StartupPermitQueueResult :=
  let failed code (path message : string) :=
    mkQueueResult false q false 0 0 (mkWorkerError code (bs path) message) in
  let accepted q' joined :=
    mkQueueResult true q' joined (count_lane Lane_kDeploy (queued q'))
      (count_lane Lane_kReplacement (queued q')) no_worker_error in
  if negb (queue_invariants_ok q) then
    failed Worker_kInvalidState "/queue"%string "existing permit queue is malformed"%string
  else if negb (request_identifiers_valid (permit_application request) (permit_generation request)) then
    failed Worker_kInvalidRequest "/request"%string "invalid App ID or generation"%string
  else if existsb (λ other, ticket other =? ticket request) (queued q) then
    failed Worker_kInvalidRequest "/ticket"%string "duplicate startup permit ticket"%string
  else if bool_decide (lane request = Lane_kReplacement)
          && existsb (λ other, bool_decide (lane other = Lane_kReplacement)
                 && bool_decide (permit_application other = permit_application request)
                 && bool_decide (permit_generation other = permit_generation request)) (queued q) then
    accepted q true
  else if maximum_queued <=? zlen (queued q) then
    mkQueueResult false q false 0 0
      (mkWorkerError Worker_kQueueFull (bs "/queue") "startup permit queue is full")
  else accepted (mkPermitQueue (queued q ++ [request]) (last_granted_application q)) false.

(** The first index whose App differs from the last granted one, else 0. *)
Fixpoint first_other (last : bytes) (q : list StartupPermitRequest) : option nat :=
  match q with
  | [] => None
  | r :: q' =>
      if negb (bool_decide (permit_application r = last)) then Some O else S <$> first_other last q'
  end.

Definition grant_index (q : FairStartupPermitQueue) : nat :=
  default O (first_other (last_granted_application q) (queued q)).

Definition grant_next_startup_permit (q : FairStartupPermitQueue) (permit_available : bool)
    : StartupPermitGrantResult :=
  let finish q' g :=
    mkGrantResult true q' g (count_lane Lane_kDeploy (queued q'))
      (count_lane Lane_kReplacement (queued q')) no_worker_error in
  if negb (queue_invariants_ok q) then
    mkGrantResult false q None 0 0
      (mkWorkerError Worker_kInvalidState (bs "/queue") "existing permit queue is malformed")
  else if permit_available then
    match queued q !! grant_index q with
    | Some r =>
        finish (mkPermitQueue (delete (grant_index q) (queued q)) (permit_application r)) (Some r)
    | None => finish q None
    end
  else finish q None.

(** ** The window is exact *)

Definition u64_range (z : Z) : Prop := 0 <= z < 2 ^ 64.
Definition u32_range (z : Z) : Prop := 0 <= z < 2 ^ 32.

Record policy_typed (p : WorkerRecoveryPolicy) : Prop := {
  typed_max : u32_range (max_events p);
  typed_window : u64_range (window_ms p);
  typed_initial : u64_range (backoff_initial_ms p);
  typed_maximum : u64_range (backoff_maximum_ms p);
  typed_jitter : u32_range (jitter_basis_points p)
}.

(** Events of [h] younger than the window at [now]. *)
Definition in_window (policy : WorkerRecoveryPolicy) (now e : Z) : bool := now - e <? window_ms policy.

Definition live_events (policy : WorkerRecoveryPolicy) (now : Z) (h : list Z) : Z :=
  zlen (List.filter (in_window policy now) h).

Lemma events_sorted_iff l : events_sorted l = true ↔ StronglySorted Z.le l.
Proof.
  induction l as [|a [|b l] IH]; [split; [constructor|done]|split; [repeat constructor|done]|].
  change (events_sorted (a :: b :: l)) with (if b <? a then false else events_sorted (b :: l)).
  destruct (b <? a) eqn:Hba; bools; [split; [done|]|].
  - intros Hs. apply StronglySorted_inv in Hs as [_ Hall]. inversion Hall; lia.
  - rewrite IH. split; intros Hs; [|by apply StronglySorted_inv in Hs as [? _]].
    constructor; [done|]. apply StronglySorted_inv in Hs as [_ Hall].
    constructor; [done|]. eapply Forall_impl; [done|]. cbn. lia.
Qed.

Lemma sorted_app_inv (l k : list Z) : StronglySorted Z.le (l ++ k) →
  StronglySorted Z.le l ∧ StronglySorted Z.le k ∧ ∀ x y, x ∈ l → y ∈ k → x <= y.
Proof.
  induction l as [|a l IH]; cbn; intros Hs; [split; [constructor|split; [done|set_solver]]|].
  apply StronglySorted_inv in Hs as [Hs Hall]. apply Forall_app in Hall as [Hl Hk].
  destruct (IH Hs) as (H1 & H2 & H3). split; [by constructor|]. split; [done|].
  intros x y [->|Hx]%elem_of_cons Hy; [|auto]. rewrite Forall_forall in Hk. auto.
Qed.

Lemma sorted_snoc (l : list Z) x : StronglySorted Z.le l → Forall (λ e, e <= x) l →
  StronglySorted Z.le (l ++ [x]).
Proof.
  induction l as [|a l IH]; cbn; intros Hs Hall; [repeat constructor|].
  apply StronglySorted_inv in Hs as [Hs Ha]. inversion Hall; subst.
  constructor; [auto|]. apply Forall_app. split; [done|]. by constructor.
Qed.

(** An upward-closed filter of a sorted list drops a prefix. *)
Lemma filter_suffix p now (l : list Z) : StronglySorted Z.le l →
  ∃ pre, l = pre ++ List.filter (in_window p now) l ∧ Forall (λ e, in_window p now e = false) pre.
Proof.
  induction l as [|a l IH]; intros Hs; [by exists []|].
  apply StronglySorted_inv in Hs as [Hs Ha]. destruct (IH Hs) as (pre & Heq & Hpre). cbn.
  destruct (in_window p now a) eqn:Hin.
  - exists []. cbn. split; [|done]. f_equal. clear Heq Hpre IH. induction l as [|b l IHl]; [done|].
    inversion Ha; subst. apply StronglySorted_inv in Hs as [Hs _]. cbn.
    assert (in_window p now b = true) as ->; [|f_equal; auto].
    unfold in_window in *. bools. apply ltb_lt_true. lia.
  - exists (a :: pre). cbn. split; [by rewrite <- Heq|]. by constructor.
Qed.

Lemma filter_all_live p now (l : list Z) : Forall (λ e, in_window p now e = true) l →
  List.filter (in_window p now) l = l.
Proof. induction 1 as [|x l Hx _ IH]; cbn; [done|]. by rewrite Hx, IH. Qed.

Lemma filter_none_live p now (l : list Z) : Forall (λ e, in_window p now e = false) l →
  List.filter (in_window p now) l = [].
Proof. induction 1 as [|x l Hx _ IH]; cbn; [done|]. by rewrite Hx, IH. Qed.

Lemma window_of_filter p now l : u64_range now → Forall (λ e, 0 <= e <= now) l →
  window_of p now l = List.filter (in_window p now) l ++ [now].
Proof.
  intros Hn Hl. unfold window_of. f_equal. apply List.filter_ext_in. intros e He.
  apply list_elem_of_In in He. rewrite Forall_forall in Hl. specialize (Hl e He).
  unfold in_window. by rewrite u64_small by (unfold u64_range in *; lia).
Qed.

(** The tracked events are the newest of the counted ones; what was dropped has
    expired, or the tracked list is full. *)
Record tracks (policy : WorkerRecoveryPolicy) (h : list Z) (st : GenerationRecoveryState) : Prop := {
  tracks_sorted : StronglySorted Z.le h;
  tracks_times : Forall (λ e, 0 <= e <= last_observed_ms st) h;
  tracks_seen : has_last_observed_time st = false → h = [];
  tracks_split : ∃ old, h = old ++ instability_events_ms st ∧
    (zlen (instability_events_ms st) = kMaxTrackedInstabilityEvents ∨
     Forall (λ e, in_window policy (last_observed_ms st) e = false) old);
  tracks_bound : zlen (instability_events_ms st) <= kMaxTrackedInstabilityEvents
}.

Lemma bounded_window_split w : ∃ drop, w = drop ++ bounded_window w ∧
  zlen (bounded_window w) <= kMaxTrackedInstabilityEvents ∧
  (zlen (bounded_window w) = kMaxTrackedInstabilityEvents ∨ drop = []).
Proof.
  unfold bounded_window, kMaxTrackedInstabilityEvents. destruct (1024 <? zlen w) eqn:Hlt; bools.
  - exists (ztake (zlen w - 1024) w). rewrite ztake_zdrop, zlen_zdrop by lia.
    split; [done|]. lia.
  - exists []. split; [done|]. split; [done|]. by right.
Qed.

Lemma expired_later p t now e : t <= now → in_window p t e = false → in_window p now e = false.
Proof. unfold in_window. intros Hle He. bools. apply Z.ltb_ge. lia. Qed.

Lemma tracks_expired p h st now old : tracks p h st → h = old ++ instability_events_ms st →
  last_observed_ms st <= now →
  (zlen (instability_events_ms st) = kMaxTrackedInstabilityEvents ∨
     Forall (λ e, in_window p (last_observed_ms st) e = false) old) →
  Forall (λ e, in_window p now e = false) old ∨
  zlen (instability_events_ms st) = kMaxTrackedInstabilityEvents ∧
  List.filter (in_window p now) (instability_events_ms st) = instability_events_ms st.
Proof.
  intros [Hs _ _ _ _] Heq Hle [Hfull|Hold];
    [|left; eapply Forall_impl; [exact Hold|]; cbn; intros; by eapply expired_later].
  rewrite Heq in Hs. apply sorted_app_inv in Hs as (_ & Hev & Hcross).
  destruct (filter_suffix p now _ Hev) as ([|x pre] & Hsplit & Hpre); [by right|].
  left. apply Forall_forall. intros e He. inversion Hpre as [|? ? Hx _]; subst.
  assert (e <= x) by (apply Hcross; [done|rewrite Hsplit; left]).
  unfold in_window in *. bools. apply Z.ltb_ge. lia.
Qed.

Lemma count_tracks p h st now : 0 < window_ms p → max_events p <= kMaxTrackedInstabilityEvents →
  u64_range now → last_observed_ms st <= now → tracks p h st →
  let w := window_of p now (instability_events_ms st) in
  tracks p (h ++ [now]) (with_events (observed st now) (bounded_window w)) ∧
  (max_events p < zlen w ↔ max_events p < live_events p now (h ++ [now])).
Proof.
  intros Hwin Hmax Hnow Hle Htr. pose proof Htr as [Hs Htimes _ (old & Heq & Hcase) Hbound].
  destruct (tracks_expired p h st now old Htr Heq Hle Hcase) as [Hexp|[Hfull Hall]];
    set (ev := instability_events_ms st) in *; cbv zeta.
  all: assert (Forall (λ e, 0 <= e <= now) h) as Hh
    by (eapply Forall_impl; [exact Htimes|]; cbn; lia).
  all: rewrite window_of_filter by (done || (rewrite Heq in Hh; by apply Forall_app in Hh as [_ ?])).
  all: assert (StronglySorted Z.le (h ++ [now])) as Hs'
    by (apply sorted_snoc; [done|]; eapply Forall_impl; [exact Hh|]; cbn; lia).
  all: assert (Forall (λ e, 0 <= e <= now) (h ++ [now])) as Hh'
    by (apply Forall_app; split; [done|]; constructor; [unfold u64_range in *; lia|done]).
  all: assert (in_window p now now = true) as Hself by (unfold in_window; apply ltb_lt_true; lia).
  all: destruct (bounded_window_split (List.filter (in_window p now) ev ++ [now]))
    as (drop & Hw & Hbw & Hdrop).
  - destruct (filter_suffix p now ev) as (pre & Hpre & Hdead).
    { rewrite Heq in Hs. by apply sorted_app_inv in Hs as (_ & ? & _). }
    split.
    + split; try done. exists ((old ++ pre) ++ drop). cbn [with_events instability_events_ms observed].
      rewrite <- !app_assoc, <- Hw. rewrite Heq, Hpre at 1. rewrite <- !app_assoc. split; [done|].
      destruct Hdrop as [?| ->]; [by left|]. right. rewrite app_nil_r. by apply Forall_app.
    + unfold live_events. rewrite Heq, !List.filter_app, !zlen_app. cbn. rewrite Hself.
      rewrite (filter_none_live p now old Hexp), zlen_nil. done.
  - rewrite Hall in *. split.
    + split; try done. exists (old ++ drop). cbn [with_events instability_events_ms observed].
      rewrite <- !app_assoc, <- Hw, Heq, <- app_assoc. split; [done|]. left.
      destruct Hdrop as [?| ->]; [done|]. cbn [app] in Hw. rewrite <- Hw, zlen_app in Hbw.
      rewrite zlen_cons, zlen_nil in Hbw. unfold kMaxTrackedInstabilityEvents in *. lia.
    + unfold live_events. rewrite Heq, !List.filter_app, !zlen_app, Hall. cbn. rewrite Hself.
      rewrite !zlen_cons, zlen_nil. pose proof (zlen_nonneg (List.filter (in_window p now) old)). lia.
Qed.

(** ** Runs of the controller *)

Lemma record_shape st p lc o :
  let d := record_worker_instability st p lc o in
  (∃ code path message, d = decision_failed st (kind o) code path message) ∨
  (clock_regressed st (now_ms o) = false ∧ ∃ disp, d = uncounted (observed st (now_ms o)) (kind o) disp ∧
     disp ≠ Disposition_kContinueActive) ∨
  (clock_regressed st (now_ms o) = false ∧ valid_policy p = true ∧
   - jitter_basis_points p <= chosen_jitter_basis_points o <= jitter_basis_points p ∧
   lifecycle_consistent lc = true ∧ phase lc = Phase_kActive ∧
   instability_kind_is_expected (kind o) = false ∧
   recovery_generation st = generation (the_document lc) ∧
   worker_generation o = generation (the_document lc) ∧
   d = count_event (observed st (now_ms o)) p o).
Proof.
  unfold record_worker_instability. cbv zeta.
  do 8 (split_test; [left; by eauto|]).
  split_test; [right; left; bools; by eauto|].
  do 2 (split_test; [left; by eauto|]).
  do 3 (split_test; [right; left; bools; by eauto|]).
  right; right. bools. repeat split; auto; lia.
Qed.

Lemma count_event_state st p o :
  instability_events_ms (decision_state (count_event st p o)) =
    bounded_window (window_of p (now_ms o) (instability_events_ms st)) ∧
  last_observed_ms (decision_state (count_event st p o)) = last_observed_ms st ∧
  has_last_observed_time (decision_state (count_event st p o)) = has_last_observed_time st ∧
  event_counted (count_event st p o) = true ∧
  begin_quarantine (count_event st p o) =
    (max_events p <? zlen (window_of p (now_ms o) (instability_events_ms st))).
Proof.
  unfold count_event. cbv zeta. destruct (max_events p <? _) eqn:Hm; [done|].
  destruct (_ <=? ready_workers_after_removal o); [done|].
  by destruct (_ <=? replacements_in_flight_for_app o).
Qed.

Lemma count_event_decision st p o :
  decision_ok (count_event st p o) = true ∧ instability_kind (count_event st p o) = kind o ∧
  disposition (count_event st p o) =
    (if begin_quarantine (count_event st p o) then Disposition_kBeginQuarantine
     else Disposition_kContinueActive).
Proof. unfold count_event. cbv zeta. by repeat (split_test; [done|]). Qed.

(** Every call on one generation's recovery state, with the times of the
    counted events. *)
Inductive recovers (p : WorkerRecoveryPolicy) : list Z → GenerationRecoveryState → Prop :=
| recovers_fresh app gen : recovers p [] (mkGenerationState app gen [] 0 0 false)
| recovers_record h st lc o :
    recovers p h st → u64_range (now_ms o) →
    let d := record_worker_instability st p lc o in
    recovers p (if event_counted d then h ++ [now_ms o] else h) (decision_state d)
| recovers_stability h st since now :
    recovers p h st → u64_range now →
    recovers p h (stability_state (observe_worker_stability st p since now)).

Lemma valid_policy_facts p : valid_policy p = true → policy_typed p →
  1 <= max_events p <= kMaxTrackedInstabilityEvents ∧ 0 < window_ms p ∧
  1 <= backoff_initial_ms p <= backoff_maximum_ms p ∧ 0 <= jitter_basis_points p <= 10000 ∧
  backoff_maximum_ms p * (10000 + jitter_basis_points p) <= 2 ^ 63 - 1.
Proof.
  intros Hv [Hmax Hwin Hini Hbm Hj]. unfold valid_policy in Hv. unfold u32_range, u64_range in *.
  repeat (split_test; [done|]). bools. repeat split; try lia.
  match goal with Hq : backoff_maximum_ms p <= _ / _ |- _ =>
    apply (Z.mul_le_mono_nonneg_r _ _ (10000 + jitter_basis_points p)) in Hq; [|lia] end.
  pose proof (Z.mul_div_le (2 ^ 63 - 1) (10000 + jitter_basis_points p)). lia.
Qed.

Lemma tracks_ext p h st st' : instability_events_ms st' = instability_events_ms st →
  last_observed_ms st' = last_observed_ms st →
  has_last_observed_time st' = has_last_observed_time st → tracks p h st → tracks p h st'.
Proof. intros He Hl Hh [H1 H2 H3 H4 H5]. by split; rewrite ?He, ?Hl, ?Hh. Qed.

Lemma tracks_observed p h st now : u64_range now → clock_regressed st now = false →
  tracks p h st → tracks p h (observed st now).
Proof.
  unfold clock_regressed, u64_range. intros Hn Hc [Hs Ht Hseen (old & Heq & Hcase) Hb].
  destruct (has_last_observed_time st) eqn:Hhas.
  - cbn in Hc. bools. split; try done; cbn.
    + eapply Forall_impl; [exact Ht|]. cbn. lia.
    + exists old. split; [done|]. destruct Hcase as [?|Hold]; [by left|right].
      eapply Forall_impl; [exact Hold|]. cbn. intros. by eapply expired_later.
  - specialize (Hseen eq_refl). rewrite Hseen in Heq. symmetry in Heq.
    apply app_eq_nil in Heq as [-> Hev]. subst h. split; try done; cbn. exists []. rewrite Hev. split; [done|]. by right.
Qed.

Lemma recovers_tracks p h st : policy_typed p → recovers p h st → tracks p h st.
Proof.
  intros Hty. induction 1 as [app gen|h st lc o Hr IH Hn d|h st since now Hr IH Hn].
  - split; cbn; try done; [constructor|]. exists []. split; [done|]. by right.
  - destruct (record_shape st p lc o) as [(? & ? & ? & Heq)|[(Hc & ? & Heq & _)
      |(Hc & Hv & _ & _ & _ & _ & _ & _ & Heq)]]; fold d in Heq; rewrite Heq.
    + done.
    + by apply tracks_observed.
    + destruct (count_event_state (observed st (now_ms o)) p o) as (He & Hl & Hh & -> & _).
      destruct (valid_policy_facts p Hv Hty) as (Hmax & Hwin & _).
      destruct (count_tracks p h (observed st (now_ms o)) (now_ms o)) as [Htr _];
        [lia|lia|done|cbn; lia|by apply tracks_observed|].
      eapply tracks_ext; [| | |exact Htr]; by rewrite ?He, ?Hl, ?Hh.
  - unfold observe_worker_stability. cbv zeta. do 5 (split_test; [done|]). split_test; [done|].
    split_test; [done|]. split_test; [eapply tracks_ext|]; try apply tracks_observed; done.
Qed.

(** ** Backoff *)

Lemma s64_small z : - 2 ^ 63 <= z < 2 ^ 63 → s64 z = z.
Proof. intros Hz. unfold s64. rewrite Z.mod_small; lia. Qed.

Lemma backoff_loop_closed fuel remaining base cap : 1 <= base <= cap → cap < 2 ^ 63 →
  0 <= remaining → cap <= base * 2 ^ Z.of_nat fuel →
  backoff_loop fuel remaining base cap = Z.min cap (base * 2 ^ remaining).
Proof.
  revert remaining base; induction fuel as [|fuel IH]; intros remaining base Hb Hc Hr Hf; cbn [backoff_loop].
  { cbn in Hf. pose proof (Z.pow_pos_nonneg 2 remaining ltac:(lia) Hr). nia. }
  destruct (0 <? remaining) eqn:Hrem; cbn [andb]; bools.
  - assert (2 ^ remaining = 2 * 2 ^ (remaining - 1)) as Hpow.
    { rewrite <- Z.pow_succ_r by lia. f_equal. lia. }
    pose proof (Z.pow_pos_nonneg 2 (remaining - 1) ltac:(lia) ltac:(lia)).
    pose proof (Z.div_mod cap 2 ltac:(lia)). pose proof (Z.mod_pos_bound cap 2 ltac:(lia)).
    destruct (base <? cap) eqn:Hlt; bools; [|nia].
    destruct (cap / 2 <? base) eqn:Hhalf; bools; [nia|].
    rewrite (u64_small (base * 2)) by lia. rewrite IH; [|lia|lia|lia|].
    + rewrite Hpow. f_equal. lia.
    + rewrite Nat2Z.inj_succ, Z.pow_succ_r in Hf by lia. lia.
  - assert (remaining = 0) as -> by lia. cbn. lia.
Qed.

Lemma delay_closed p attempts jitter : valid_policy p = true → policy_typed p →
  0 <= attempts → - jitter_basis_points p <= jitter <= jitter_basis_points p →
  replacement_delay_ms p attempts jitter =
    Z.min (backoff_maximum_ms p) (backoff_initial_ms p * 2 ^ attempts) * (10000 + jitter) / 10000 ∧
  0 <= Z.min (backoff_maximum_ms p) (backoff_initial_ms p * 2 ^ attempts) * (10000 + jitter) < 2 ^ 63.
Proof.
  intros Hv Hty Ha Hj. destruct (valid_policy_facts p Hv Hty) as (_ & _ & Hini & Hjit & Hprod).
  unfold replacement_delay_ms. cbv zeta.
  assert (backoff_maximum_ms p < 2 ^ 63) as Hcap by nia.
  rewrite backoff_loop_closed; [|lia|done|done|].
  2: { change (Z.of_nat 64) with 64. nia. }
  set (base := Z.min _ _).
  assert (1 <= base <= backoff_maximum_ms p) as Hbase.
  { pose proof (Z.pow_pos_nonneg 2 attempts ltac:(lia) Ha). unfold base. nia. }
  assert (0 <= base * (10000 + jitter) < 2 ^ 63) as Hs by nia.
  split; [|done]. rewrite (s64_small base), s64_small by lia.
  rewrite Z.quot_div_nonneg by lia. apply u64_small.
  split; [apply Z.div_pos; lia|]. apply Z.div_lt_upper_bound; lia.
Qed.

(** ** The permit queue *)

Definition compatible (x y : StartupPermitRequest) : Prop := requests_conflict x y = false.

Lemma queue_entries_iff before after : queue_entries_ok before after = true ↔
  Forall (λ r, request_is_valid r = true) after ∧ (∀ x y, x ∈ before → y ∈ after → compatible x y) ∧
  ForallOrdPairs compatible after.
Proof.
  revert before; induction after as [|r after IH]; intros before; cbn [queue_entries_ok].
  { split; [|done]. intros _. repeat split; [constructor|set_solver|constructor]. }
  destruct (request_is_valid r) eqn:Hv; cbn [negb];
    [|split; [done|]; intros (Hall & _); inversion Hall; congruence].
  destruct (existsb _ before) eqn:Hex.
  - split; [done|]. intros (_ & Hcross & _). apply existsb_exists in Hex as (x & Hx & Hc).
    apply list_elem_of_In in Hx. specialize (Hcross x r Hx ltac:(left)). unfold compatible in *. congruence.
  - assert (∀ x, x ∈ before → compatible x r) as Hb.
    { intros x Hx. unfold compatible. destruct (requests_conflict x r) eqn:Hc; [|done].
      rewrite <- Hex. symmetry. apply existsb_exists. exists x. by rewrite <- list_elem_of_In. }
    rewrite IH. split.
    + intros (Hall & Hcross & Hpairs). repeat split.
      * by constructor.
      * intros x y Hx [->|Hy]%elem_of_cons; [auto|].
        apply Hcross; [apply elem_of_app; by left|done].
      * constructor; [|done]. apply Forall_forall. intros y Hy.
        apply Hcross; [apply elem_of_app; right; apply list_elem_of_here|done].
    + intros (Hall & Hcross & Hpairs). inversion Hall; inversion Hpairs as [|? ? Hr Hp]; subst.
      repeat split; [done| |done]. intros x y [Hx|Hx]%elem_of_app Hy.
      * apply Hcross; [done|by right].
      * apply list_elem_of_singleton in Hx as ->. rewrite Forall_forall in Hr. auto.
Qed.

Definition fair_app (a : bytes) : Prop := a = [] ∨ valid_permit_application a = true.

Lemma queue_invariants_iff q : queue_invariants_ok q = true ↔
  fair_app (last_granted_application q) ∧ Forall (λ r, request_is_valid r = true) (queued q) ∧
  ForallOrdPairs compatible (queued q).
Proof.
  unfold queue_invariants_ok, fair_app.
  destruct (bool_decide_reflect (last_granted_application q = [])) as [He|He]; cbn [negb andb].
  - rewrite queue_entries_iff. split; [intros (? & _ & ?)|intros (_ & ? & ?)]; repeat split; auto.
    by intros x y ?%not_elem_of_nil.
  - destruct (valid_permit_application _); cbn [negb andb].
    + rewrite queue_entries_iff. split; [intros (? & _ & ?)|intros (_ & ? & ?)]; repeat split; auto.
      by intros x y ?%not_elem_of_nil.
    + split; [done|]. by intros ([?|?] & _).
Qed.

Lemma pairs_delete {A} (R : A → A → Prop) (l : list A) i : ForallOrdPairs R l →
  ForallOrdPairs R (delete i l).
Proof.
  intros Hl. revert i; induction Hl as [|x l Hx Hl IH]; intros [|i]; cbn; [constructor|constructor|done|].
  constructor; [|auto]. clear -Hx. revert i; induction Hx as [|y l Hy Hx IH]; intros [|i]; cbn; auto.
Qed.

Lemma pairs_snoc {A} (R : A → A → Prop) (l : list A) y : ForallOrdPairs R l →
  Forall (λ x, R x y) l → ForallOrdPairs R (l ++ [y]).
Proof.
  induction 1 as [|x l Hx Hl IH]; cbn; intros Hy; [repeat constructor|].
  inversion Hy; subst. constructor; [|auto]. apply Forall_app. split; [done|]. by constructor.
Qed.

Lemma valid_request_app r : request_is_valid r = true → valid_permit_application (permit_application r) = true.
Proof.
  unfold request_is_valid, valid_permit_application, request_identifiers_valid.
  intros Hr. apply andb_true_iff in Hr as [_ Hr]. apply encodes_valid, validated in Hr as [Happ _].
  apply encodes_valid, validated. by repeat split.
Qed.

Lemma grant_keeps_invariants q available : queue_invariants_ok q = true →
  queue_invariants_ok (grant_queue (grant_next_startup_permit q available)) = true.
Proof.
  intros Hq. unfold grant_next_startup_permit. rewrite Hq. cbn [negb]. destruct available; [|done].
  destruct (queued q !! grant_index q) as [r|] eqn:Hr; [|done]. cbn.
  apply queue_invariants_iff in Hq as (Hlast & Hall & Hpairs). apply queue_invariants_iff. cbn.
  split; [|split].
  - right. apply valid_request_app. by eapply Forall_lookup_1 in Hr; [|exact Hall].
  - by apply Forall_delete.
  - by apply pairs_delete.
Qed.

Lemma enqueue_keeps_invariants q r maximum : queue_invariants_ok q = true →
  queue_invariants_ok (queue_after (enqueue_startup_permit_request q r maximum)) = true.
Proof.
  intros Hq. unfold enqueue_startup_permit_request. cbv zeta. rewrite Hq. cbn [negb].
  destruct (request_identifiers_valid _ _) eqn:Hid; cbn [negb]; [|done].
  destruct (existsb _ (queued q)) eqn:Htick; [done|].
  destruct (bool_decide _ && _) eqn:Hjoin; [done|]. destruct (_ <=? _); [done|]. cbn.
  apply queue_invariants_iff in Hq as (Hlast & Hall & Hpairs). apply queue_invariants_iff. cbn.
  split; [done|split].
  - apply Forall_app. split; [done|]. constructor; [|done]. unfold request_is_valid. rewrite Hid.
    by destruct (lane r).
  - apply pairs_snoc; [done|]. apply Forall_forall. intros x Hx. unfold compatible, requests_conflict.
    apply list_elem_of_In in Hx. apply orb_false_iff. split.
    + destruct (ticket x =? ticket r) eqn:Ht; [|done]. rewrite <- Htick. symmetry.
      apply existsb_exists. by exists x.
    + destruct (bool_decide (lane r = _)) eqn:Hl; [|by rewrite andb_false_r].
      cbn [andb] in Hjoin. rewrite andb_true_r.
      match goal with |- ?b = false => destruct b eqn:Hb; [|done] end.
      rewrite <- Hjoin. symmetry. apply existsb_exists. exists x. split; [done|exact Hb].
Qed.

(** ** Waiting is bounded *)

Inductive permit_op := EnqueueOp (r : StartupPermitRequest) (maximum : Z) | GrantOp.

(** Runs the operations, collecting what was granted. *)
Fixpoint run_permits (ops : list permit_op) (q : FairStartupPermitQueue)
    : FairStartupPermitQueue * list StartupPermitRequest :=
  match ops with
  | [] => (q, [])
  | EnqueueOp r maximum :: ops' =>
      run_permits ops' (queue_after (enqueue_startup_permit_request q r maximum))
  | GrantOp :: ops' =>
      let g := grant_next_startup_permit q true in
      let '(q', granted_later) := run_permits ops' (grant_queue g) in
      (q', option_list (granted g) ++ granted_later)
  end.

Definition grants (ops : list permit_op) : nat :=
  length (List.filter (λ op, match op with GrantOp => true | _ => false end) ops).

Definition same_app (a : bytes) (r : StartupPermitRequest) : bool :=
  bool_decide (permit_application r = a).

(** Upper bound on the grants before the request at index [k] is served. *)
Definition potential (q : FairStartupPermitQueue) (k : nat) : nat :=
  2 * k + (if forallb (same_app (last_granted_application q)) (take (S k) (queued q)) then 2 else 1).

Lemma first_other_none last q : first_other last q = None → forallb (same_app last) q = true.
Proof.
  induction q as [|r q IH]; cbn; [done|]. unfold same_app. destruct (bool_decide _); cbn; [|done].
  intros Hn. apply IH. by destruct (first_other last q).
Qed.

Lemma first_other_some last q i : first_other last q = Some i → ∃ r, q !! i = Some r ∧
  permit_application r ≠ last ∧ forallb (same_app last) (take i q) = true.
Proof.
  revert i; induction q as [|r q IH]; intros i; cbn; [done|].
  destruct (bool_decide_reflect (permit_application r = last)) as [Ha|Ha]; cbn.
  - destruct (first_other last q) as [j|]; [|done]. intros [= <-].
    destruct (IH j eq_refl) as (x & Hx & Hne & Hall). exists x. cbn. split; [done|]. split; [done|].
    unfold same_app at 1. by rewrite bool_decide_true.
  - intros [= <-]. by exists r.
Qed.

Lemma potential_bounds q k : (2 * k < potential q k <= 2 * k + 2)%nat.
Proof. unfold potential. destruct (forallb _ _); lia. Qed.

(** A grant serves the request at [k] or brings it closer. *)
Lemma grant_progress q k r : queue_invariants_ok q = true → queued q !! k = Some r →
  let g := grant_next_startup_permit q true in
  granted g = Some r ∨
  ∃ k', queued (grant_queue g) !! k' = Some r ∧ (potential (grant_queue g) k' < potential q k)%nat.
Proof.
  intros Hq Hk. cbv zeta. unfold grant_next_startup_permit. rewrite Hq. cbn [negb].
  set (last := last_granted_application q). unfold grant_index. fold last.
  destruct (first_other last (queued q)) as [i|] eqn:Hf; cbn [from_option id].
  - apply first_other_some in Hf as (x & Hx & Hne & Hpre). rewrite Hx. cbn [granted grant_queue queued].
    destruct (lt_eq_lt_dec i k) as [[Hlt| ->]|Hgt].
    + right. exists (pred k). rewrite list_lookup_delete_ge by lia.
      replace (S (pred k)) with k by lia. split; [done|].
      eapply Nat.le_lt_trans; [apply potential_bounds|]. pose proof (potential_bounds q k). lia.
    + left. congruence.
    + right. exists k. rewrite list_lookup_delete_lt by done. split; [done|]. unfold potential.
      cbn [queued last_granted_application]. fold last.
      rewrite (forallb_take_le (same_app last) (S k) i (queued q)) by (done || lia).
      assert (forallb (same_app (permit_application x)) (take (S k) (delete i (queued q))) = false) as ->;
        [|lia].
      apply not_true_iff_false. intros Hall. rewrite forallb_forall in Hall.
      assert (permit_application r = permit_application x) as Hrx.
      { specialize (Hall r). unfold same_app in Hall. rewrite bool_decide_eq_true in Hall. apply Hall.
        apply list_elem_of_In, (list_elem_of_lookup_2 _ k). rewrite lookup_take_lt by lia.
        by rewrite list_lookup_delete_lt. }
      apply Hne. rewrite <- Hrx. rewrite forallb_forall in Hpre. specialize (Hpre r).
      unfold same_app in Hpre. rewrite bool_decide_eq_true in Hpre. apply Hpre.
      apply list_elem_of_In, (list_elem_of_lookup_2 _ k). by rewrite lookup_take_lt by lia.
  - apply first_other_none in Hf. destruct (queued q !! 0%nat) as [x|] eqn:Hx.
    2: { destruct (queued q); [done|done]. }
    cbn [granted grant_queue queued]. destruct k as [|k]; [left; congruence|right].
    exists k. rewrite list_lookup_delete_ge by lia. split; [done|].
    eapply Nat.le_lt_trans; [apply potential_bounds|]. pose proof (potential_bounds q (S k)). lia.
Qed.

(** The granted request: the oldest of its App, another App's if one waits. *)
Lemma granted_split q :
  (queued q = [] ∧ queued q !! grant_index q = None) ∨
  ∃ x before after, queued q !! grant_index q = Some x ∧ queued q = before ++ x :: after ∧
    delete (grant_index q) (queued q) = before ++ after ∧
    (∀ y, y ∈ before → permit_application y ≠ permit_application x) ∧
    (permit_application x = last_granted_application q →
       ∀ y, y ∈ queued q → permit_application y = last_granted_application q).
Proof.
  unfold grant_index. set (last := last_granted_application q).
  destruct (first_other last (queued q)) as [i|] eqn:Hf; cbn [from_option id].
  - right. apply first_other_some in Hf as (x & Hx & Hne & Hpre).
    exists x, (take i (queued q)), (drop (S i) (queued q)).
    split; [done|]. split; [symmetry; by apply take_drop_middle|]. split; [apply delete_take_drop|].
    split; [|done]. intros y Hy Heq. apply Hne. rewrite <- Heq. rewrite forallb_forall in Hpre.
    apply list_elem_of_In, Hpre in Hy. by apply bool_decide_eq_true in Hy.
  - apply first_other_none in Hf. destruct (queued q) as [|x after]; [by left|right].
    exists x, [], after. repeat split; try done; [by intros y ?%not_elem_of_nil|].
    intros _ y Hy. rewrite forallb_forall in Hf. apply list_elem_of_In, Hf in Hy.
    by apply bool_decide_eq_true in Hy.
Qed.

(** Enqueueing appends or changes nothing. *)
Lemma enqueue_prefix q r maximum k x : queued q !! k = Some x →
  let q' := queue_after (enqueue_startup_permit_request q r maximum) in
  queued q' !! k = Some x ∧ potential q' k = potential q k.
Proof.
  intros Hk. cbv zeta. unfold enqueue_startup_permit_request. cbv zeta.
  do 5 (split_test; [done|]). cbn [queue_after queued]. split; [by apply lookup_app_l_Some|].
  unfold potential. cbn [queued last_granted_application].
  apply lookup_lt_Some in Hk. rewrite (take_app_le (queued q) [r]); [done|exact Hk].
Qed.

Lemma waiting_bounded ops q k r : queue_invariants_ok q = true → queued q !! k = Some r →
  (potential q k <= grants ops)%nat → r ∈ (run_permits ops q).2.
Proof.
  revert q k; induction ops as [|[x maximum|] ops IH]; intros q k Hq Hk Hp.
  - pose proof (potential_bounds q k). change (grants []) with O in Hp. lia.
  - cbn [run_permits]. destruct (enqueue_prefix q x maximum k r Hk) as [Hk' Hpot].
    apply (IH _ k); [by apply enqueue_keeps_invariants|done|]. rewrite Hpot. exact Hp.
  - change (grants (GrantOp :: ops)) with (S (grants ops)) in Hp. cbn [run_permits].
    pose proof (grant_keeps_invariants q true Hq) as Hq'.
    destruct (grant_progress q k r Hq Hk) as [Hg|(k' & Hk' & Hpot)].
    + rewrite Hg. destruct (run_permits ops _). cbn. apply list_elem_of_here.
    + specialize (IH _ k' Hq' Hk' ltac:(lia)).
      destruct (run_permits ops _) as [q'' later]. cbn in *. apply elem_of_app. by right.
Qed.

(** The conditions on the request itself. *)
Lemma retry_conditions k request :
  match k with
  | Kind_kUnexpectedExit | Kind_kIpcFailure | Kind_kProtocolFailure =>
      if (negb (bool_decide (method request = bs "GET")) && negb (bool_decide (method request = bs "HEAD")))
         || request_body_present_or_started request || negb (deadline_allows_retry request)
         || negb (same_active_generation_worker_available request)
         || (0 <? retries_already_attempted request) then
        Action_kSynthesize503
      else Action_kRetryOnceSameGeneration
  | _ => Action_kSynthesize503
  end = Action_kRetryOnceSameGeneration ↔
  (k = Kind_kUnexpectedExit ∨ k = Kind_kIpcFailure ∨ k = Kind_kProtocolFailure) ∧
  (method request = bs "GET" ∨ method request = bs "HEAD") ∧
  request_body_present_or_started request = false ∧ deadline_allows_retry request = true ∧
  same_active_generation_worker_available request = true ∧ retries_already_attempted request <= 0.
Proof.
  set (refused := _ || (0 <? _)).
  assert (refused = false ↔ (method request = bs "GET" ∨ method request = bs "HEAD") ∧
    request_body_present_or_started request = false ∧ deadline_allows_retry request = true ∧
    same_active_generation_worker_available request = true ∧ retries_already_attempted request <= 0)
    as Href.
  { unfold refused. rewrite !orb_false_iff, !andb_false_iff, !negb_false_iff, !bool_decide_eq_true,
      Z.ltb_ge. tauto. }
  destruct refused; destruct k; rewrite <- ?Href; intuition done.
Qed.

(** ** Properties *)

Definition sample_policy : WorkerRecoveryPolicy := mkPolicy 2 60000 100 5000 1000 30000 1.
Definition sample_fresh : GenerationRecoveryState :=
  mkGenerationState (bs "shop") sample_generation [] 0 0 false.
Definition sample_failure (now : Z) : WorkerInstabilityObservation :=
  mkObservation Kind_kUnexpectedExit sample_generation now 0 1 0 500.
Definition after_failures (times : list Z) : GenerationRecoveryState :=
  fold_left (λ st t, decision_state (record_worker_instability st sample_policy serving (sample_failure t)))
    times sample_fresh.

Lemma sample_typed : policy_typed sample_policy.
Proof. split; vm_compute; split; congruence. Qed.

Lemma sample_recovers : recovers sample_policy [1000; 2000] (after_failures [1000; 2000]).
Proof.
  apply (recovers_record sample_policy [1000] (after_failures [1000]) serving (sample_failure 2000));
    [|vm_compute; split; congruence].
  apply (recovers_record sample_policy [] sample_fresh serving (sample_failure 1000));
    [constructor|vm_compute; split; congruence].
Qed.

(** C3. The crash budget is exact although at most 1024 timestamps are kept:
    over any history of calls, a counted failure begins quarantine exactly when
    more than [max_events] of all the failures counted so far, this one
    included, are younger than the window. *)
Theorem crash_budget_exact p h st lc o : policy_typed p → recovers p h st →
  u64_range (now_ms o) →
  let d := record_worker_instability st p lc o in
  event_counted d = true →
  begin_quarantine d = true ↔ max_events p < live_events p (now_ms o) (h ++ [now_ms o]).
Proof.
  intros Hty Hrec Hn. cbv zeta. pose proof (recovers_tracks p h st Hty Hrec) as Htr.
  destruct (record_shape st p lc o) as [(? & ? & ? & ->)|[(_ & ? & -> & _)
    |(Hc & Hv & _ & _ & _ & _ & _ & _ & ->)]]; [done|done|].
  destruct (count_event_state (observed st (now_ms o)) p o) as (_ & _ & _ & -> & ->).
  intros _. rewrite Z.ltb_lt. destruct (valid_policy_facts p Hv Hty) as (Hmax & Hwin & _).
  apply (count_tracks p h (observed st (now_ms o)) (now_ms o));
    [lia|lia|done|cbn; lia|by apply tracks_observed].
Qed.

Lemma crash_budget_exact_witness :
  begin_quarantine (record_worker_instability (after_failures [1000; 2000]) sample_policy serving
    (sample_failure 3000)) = true.
Proof.
  apply (crash_budget_exact sample_policy [1000; 2000] (after_failures [1000; 2000]) serving
           (sample_failure 3000) sample_typed sample_recovers); vm_compute; try split; congruence.
Defined.

(** A decision is never both a quarantine and a replacement, nothing is
    scheduled outside a consistent active lifecycle or for another generation's
    worker, and a scheduled replacement waits exactly the capped exponential
    backoff scaled by the jitter, computed without overflow of the 64-bit
    product. *)
Theorem replacement_schedule p st lc o : policy_typed p →
  u32_range (replacement_attempts_since_stable st) →
  let d := record_worker_instability st p lc o in
  schedule_replacement d = true →
  let base := Z.min (backoff_maximum_ms p)
                (backoff_initial_ms p * 2 ^ replacement_attempts_since_stable st) in
  begin_quarantine d = false ∧ disposition d = Disposition_kContinueActive ∧
  matches lc = true ∧ phase lc = Phase_kActive ∧
  worker_generation o = generation (the_document lc) ∧
  ready_workers_after_removal o < target_ready_workers o ∧
  replacements_in_flight_for_app o < replacements_concurrent_per_app p ∧
  events_in_window d <= max_events p ∧
  decision_delay_ms d = base * (10000 + chosen_jitter_basis_points o) / 10000 ∧
  0 <= base * (10000 + chosen_jitter_basis_points o) < 2 ^ 63 ∧
  replacement_attempts_since_stable (decision_state d) =
    Z.min (2 ^ 32 - 1) (replacement_attempts_since_stable st + 1).
Proof.
  intros Hty Hatt. cbv zeta.
  destruct (record_shape st p lc o) as [(? & ? & ? & ->)|[(_ & ? & -> & _)
    |(Hc & Hv & Hj & Hcons & Hphase & _ & _ & Hwg & ->)]]; [done|done|].
  unfold count_event. cbv zeta.
  destruct (max_events p <? _) eqn:Hm; [done|]. destruct (_ <=? ready_workers_after_removal o) eqn:Hr; [done|].
  destruct (_ <=? replacements_in_flight_for_app o) eqn:Hf; [done|]. bools. intros _.
  destruct (delay_closed p (replacement_attempts_since_stable st) (chosen_jitter_basis_points o))
    as [Hdelay Hbound]; [done|done|unfold u32_range in *; lia|lia|].
  repeat (split; [done || lia|]). cbn. unfold saturating_increment, u32_range in *. destruct (_ =? _) eqn:He; bools; lia.
Qed.

Lemma replacement_schedule_witness :
  decision_delay_ms (record_worker_instability (after_failures [1000]) sample_policy serving
    (sample_failure 2000)) = 210.
Proof.
  destruct (replacement_schedule sample_policy (after_failures [1000]) serving (sample_failure 2000)
    sample_typed ltac:(vm_compute; split; congruence) ltac:(vm_compute; reflexivity))
    as (_ & _ & _ & _ & _ & _ & _ & _ & Hdelay & _).
  rewrite Hdelay. vm_compute. reflexivity.
Defined.

(** A failed request is retried only when that cannot amplify a failure:
    at most once, for GET or HEAD without a body and before any response head,
    after a counted exit, IPC or protocol failure of the active generation that
    did not exhaust the crash budget. *)
Theorem retry_is_safe p st lc o request :
  let d := record_worker_instability st p lc o in
  decide_failed_request_action d request = Action_kRetryOnceSameGeneration ↔
  event_counted d = true ∧ begin_quarantine d = false ∧
  kind o ∈ [Kind_kUnexpectedExit; Kind_kIpcFailure; Kind_kProtocolFailure] ∧
  method request ∈ [bs "GET"; bs "HEAD"] ∧ response_head_sent request = false ∧
  request_body_present_or_started request = false ∧ deadline_allows_retry request = true ∧
  same_active_generation_worker_available request = true ∧ retries_already_attempted request <= 0.
Proof.
  cbv zeta. unfold decide_failed_request_action.
  destruct (record_shape st p lc o) as [(? & ? & ? & ->)|[(_ & disp & -> & Hd)
    |(_ & _ & _ & _ & _ & _ & _ & _ & ->)]].
  - cbn. by destruct (response_head_sent request); split; [|intros (? & _)| |intros (? & _)].
  - cbn. rewrite bool_decide_false by done. cbn.
    by destruct (response_head_sent request); split; [|intros (? & _)| |intros (? & _)].
  - set (st' := observed st (now_ms o)).
    destruct (count_event_decision st' p o) as (-> & -> & ->).
    destruct (count_event_state st' p o) as (_ & _ & _ & -> & _).
    destruct (response_head_sent request); [by split; [|intros (_ & _ & _ & _ & ? & _)]|].
    destruct (begin_quarantine (count_event st' p o)); [by split; [|intros (_ & ? & _)]|].
    cbn [negb orb]. rewrite bool_decide_true by done. cbn [negb]. rewrite retry_conditions.
    rewrite !elem_of_cons, !elem_of_nil. destruct (kind o); intuition done.
Qed.

(** The startup queue stays well formed and loses nothing: enqueueing
    appends a valid request with a fresh ticket, joins an identical queued
    replacement, or changes nothing and reports an error; granting removes
    exactly the granted request, which is the oldest of its App and is not of
    the last served App while another App waits. *)
Theorem permit_queue_safe q r maximum : queue_invariants_ok q = true →
  let e := enqueue_startup_permit_request q r maximum in
  let g := grant_next_startup_permit q true in
  queue_invariants_ok (queue_after e) = true ∧
  (queued (queue_after e) = queued q ∨
   queue_ok e = true ∧ joined_existing e = false ∧ queued (queue_after e) = queued q ++ [r]) ∧
  queue_invariants_ok (grant_queue g) = true ∧ (granted g = None ↔ queued q = []) ∧
  ∀ x, granted g = Some x → ∃ before after,
    queued q = before ++ x :: after ∧ queued (grant_queue g) = before ++ after ∧
    (∀ y, y ∈ before → permit_application y ≠ permit_application x) ∧
    (permit_application x = last_granted_application q →
       ∀ y, y ∈ queued q → permit_application y = last_granted_application q).
Proof.
  intros Hq. cbv zeta. split; [by apply enqueue_keeps_invariants|].
  split; [|split; [by apply grant_keeps_invariants|]].
  - unfold enqueue_startup_permit_request. cbv zeta. do 4 (split_test; [by left|]).
    split_test; [by left|]. by right.
  - unfold grant_next_startup_permit. rewrite Hq. cbn [negb].
    destruct (granted_split q) as [[Hnil Hnone]|(x & before & after & Hx & Hsplit & Hdel & Hold & Happ)].
    + rewrite Hnone, Hnil. done.
    + rewrite Hx. cbn. split; [split; [done|rewrite Hsplit; by destruct before]|].
      intros y [= <-]. exists before, after. by rewrite Hdel.
Qed.

Definition sample_request (n : Z) (app : bytes) : StartupPermitRequest :=
  mkPermitRequest n app sample_generation Lane_kDeploy.
Definition sample_queue : FairStartupPermitQueue :=
  mkPermitQueue [sample_request 1 (bs "a"); sample_request 2 (bs "a"); sample_request 3 (bs "b")] (bs "a").

Lemma permit_queue_safe_witness :
  queue_invariants_ok (grant_queue (grant_next_startup_permit sample_queue true)) = true.
Proof.
  apply (permit_queue_safe sample_queue (sample_request 4 (bs "a")) 8). vm_compute. reflexivity.
Defined.

(** C16. No request starves: however many other requests are enqueued in
    between, the request at position [k] is granted within [2 * k + 2] grants. *)
Theorem permit_waiting_bounded ops q k r : queue_invariants_ok q = true →
  queued q !! k = Some r → (2 * k + 2 <= grants ops)%nat → r ∈ (run_permits ops q).2.
Proof.
  intros Hq Hk Hg. apply (waiting_bounded ops q k r); [done|done|].
  pose proof (potential_bounds q k). lia.
Qed.

Lemma permit_waiting_bounded_witness :
  sample_request 1 (bs "a") ∈
    (run_permits [GrantOp; EnqueueOp (sample_request 5 (bs "c")) 8; GrantOp] sample_queue).2.
Proof.
  apply (permit_waiting_bounded _ sample_queue 0);
    [vm_compute; reflexivity|reflexivity|vm_compute; lia].
Defined.
