(* ===== verification/RoutingSnapshot.v ===== *)
(** * RoutingSnapshot: the published App routes (src/host/routing_snapshot.cc)

    The immutable map of App names to live pools, with the tombstones of
    retired Apps, the cell it is published in, and the listener's answer for a
    request (managed_listener.cc). A shared pointer to a pool is a value of an
    abstract type, null is [None]. The build moves each live route's name into
    the map and then reads it again: what a moved-from string holds is
    unspecified, so it is the parameter [moved_from]. *)
From Stdlib Require Import ZArith Lia.
From S2P Require Import Prelude.
Local Open Scope Z_scope.

Section routing.
Context {pool : Type}.

Record RoutingSnapshot := mkSnapshot {
  routes_ : gmap bytes pool;
  tombstones_ : gset bytes
}.

Definition add_tombstone (t : gset bytes) (route : bytes * option pool) : gset bytes :=
  match route.2 with
  | None => if bool_decide (route.1 = []) then t else {[route.1]} ∪ t
  | Some _ => t
  end.

Lemma tombstones_collected routes t a : a ∈ fold_left add_tombstone routes t ↔
  a ∈ t ∨ (a ≠ [] ∧ (a, None) ∈ routes).
Proof.
  revert t; induction routes as [|[n [p|]] routes IH]; intros t; cbn [fold_left].
  - rewrite elem_of_nil. tauto.
  - rewrite IH, elem_of_cons. cbn. split; [tauto|]. intros [?|[? [?|?]]]; [tauto|done|tauto].
  - rewrite IH, elem_of_cons. unfold add_tombstone. cbn [fst snd].
    destruct (bool_decide_reflect (n = [])) as [->|Hn].
    + split; [tauto|]. intros [?|[Hne [[= ->]|?]]]; [tauto|done|tauto].
    + rewrite elem_of_union, elem_of_singleton. split.
      * intros [[->|?]|?]; tauto.
      * intros [?|[Hne [[= ->]|?]]]; tauto.
Qed.

(** The pool of the first live route of [a]. *)
Fixpoint first_live (routes : list (bytes * option pool)) (a : bytes) : option pool :=
  match routes with
  | [] => None
  | (n, Some p) :: routes' => if bool_decide (n = a) then Some p else first_live routes' a
  | (_, None) :: routes' => first_live routes' a
  end.

Lemma first_live_elem routes a p : first_live routes a = Some p → (a, Some p) ∈ routes.
Proof.
  induction routes as [|[n [q|]] routes IH]; cbn; [done| |right; auto].
  destruct (bool_decide_reflect (n = a)) as [->|?]; [intros [= ->]; left|right; auto].
Qed.
Context (moved_from : bytes → bytes).

Definition add_route (s : RoutingSnapshot) (route : bytes * option pool) : RoutingSnapshot :=
  match route.2 with
  | None => s
  | Some p =>
      match routes_ s !! route.1 with
      | Some _ => s
      | None =>
          mkSnapshot (<[route.1 := p]> (routes_ s)) (tombstones_ s ∖ {[moved_from route.1]})
      end
  end.

Definition Snapshot_build (routes : list (bytes * option pool)) : RoutingSnapshot :=
  fold_left add_route routes (mkSnapshot ∅ (fold_left add_tombstone routes ∅)).

Definition Snapshot_find (s : RoutingSnapshot) (application : bytes) : option pool :=
  routes_ s !! application.

Definition Snapshot_retired (s : RoutingSnapshot) (application : bytes) : bool :=
  bool_decide (application ∈ tombstones_ s).

Definition Snapshot_size (s : RoutingSnapshot) : nat :=
  (size (routes_ s) + size (tombstones_ s))%nat.

(** The published cell. *)
Record RoutingTable := mkTable {
  snapshot_ : option RoutingSnapshot;
  generation_ : Z  (* uint64_t *)
}.

Definition publish (t : RoutingTable) (s : RoutingSnapshot) : RoutingTable :=
  mkTable (Some s) (u64 (generation_ t + 1)).

Definition load (t : RoutingTable) : option RoutingSnapshot := snapshot_ t.

(** The listener's routing step for a normalized request: 404 for a retired
    App, 503 without a pool, else the pool the request is pinned to. *)
Inductive route_answer := AppRetired | AppNotFound | RouteTo (p : pool).

Definition route_request (t : RoutingTable) (application : bytes) : route_answer :=
  let snapshot := load t in
  let retired := match snapshot with Some s => Snapshot_retired s application | None => false end in
  let found := match snapshot with Some s => Snapshot_find s application | None => None end in
  if retired then AppRetired
  else match found with None => AppNotFound | Some p => RouteTo p end.

(** ** What a build contains *)

Lemma routes_built routes s a :
  routes_ (fold_left add_route routes s) !! a =
    match routes_ s !! a with Some p => Some p | None => first_live routes a end.
Proof.
  revert s; induction routes as [|[n [p|]] routes IH]; intros s; cbn [fold_left first_live].
  - by destruct (routes_ s !! a).
  - rewrite IH. unfold add_route. cbn [fst snd].
    destruct (routes_ s !! n) eqn:Hn.
    + destruct (bool_decide_reflect (n = a)) as [->|?]; [by rewrite Hn|done].
    + cbn. destruct (bool_decide_reflect (n = a)) as [->|Hne].
      * by rewrite lookup_insert_eq, Hn.
      * by rewrite lookup_insert_ne.
  - apply IH.
Qed.

(** A tombstone goes away only through the name read after the move. *)
Lemma tombstones_built routes s a :
  a ∈ tombstones_ (fold_left add_route routes s) ↔
  a ∈ tombstones_ s ∧
  ∀ n p, (n, Some p) ∈ routes → routes_ s !! n = None → moved_from n ≠ a.
Proof.
  revert s; induction routes as [|[n [p|]] routes IH]; intros s; cbn [fold_left].
  - split; [|by intros [? _]]. intros Ha. split; [done|]. by intros n p ?%not_elem_of_nil.
  - rewrite IH. unfold add_route. cbn [fst snd]. destruct (routes_ s !! n) as [p0|] eqn:Hn.
    + split; intros [Ha Hall]; (split; [done|]); intros n' p' Hin Hnone.
      * apply elem_of_cons in Hin as [[= -> ->]|Hin]; [congruence|eauto].
      * eapply Hall; [by right|done].
    + cbn. rewrite elem_of_difference, elem_of_singleton. split.
      * intros [[Ha Hne] Hall]. split; [done|]. intros n' p' Hin Hnone.
        apply elem_of_cons in Hin as [[= -> ->]|Hin]; [auto|].
        destruct (decide (n' = n)) as [->|Hd]; [auto|].
        eapply Hall; [done|]. by rewrite lookup_insert_ne.
      * intros [Ha Hall]. split; [split; [done|]|].
        { intros ->. by eapply (Hall n p); [left|done|]. }
        intros n' p' Hin Hnone. eapply Hall; [by right|].
        destruct (decide (n' = n)) as [->|Hd]; [done|]. by rewrite lookup_insert_ne in Hnone.
  - rewrite IH. split; intros [Ha Hall]; (split; [done|]); intros n' p' Hin Hnone.
    + apply elem_of_cons in Hin as [[=]|Hin]. eauto.
    + eapply Hall; [by right|done].
Qed.

End routing.

Arguments RoutingSnapshot : clear implicits.
Arguments RoutingTable : clear implicits.
Arguments route_answer : clear implicits.

(** ** Properties *)

(** A snapshot serves each App from its first live route, and keeps an
    App as retired exactly when it has a tombstone that no live route's name,
    read after it was moved into the map, erases: with names that survive the
    move, a live route always beats the tombstone of its App. *)
Theorem snapshot_build_exact {pool} moved_from (routes : list (bytes * option pool)) a :
  let s := Snapshot_build moved_from routes in
  Snapshot_find s a = first_live routes a ∧
  (Snapshot_retired s a = true ↔ a ≠ [] ∧ (a, None) ∈ routes ∧
     ∀ n p, (n, Some p) ∈ routes → moved_from n ≠ a) ∧
  ((∀ n, moved_from n = n) → is_Some (Snapshot_find s a) → Snapshot_retired s a = false).
Proof.
  cbv zeta. unfold Snapshot_find, Snapshot_retired, Snapshot_build.
  assert (∀ x, x ∈ tombstones_ (fold_left (add_route moved_from) routes
      (mkSnapshot ∅ (fold_left add_tombstone routes ∅))) ↔
    x ≠ [] ∧ (x, None) ∈ routes ∧ ∀ n p, (n, Some p) ∈ routes → moved_from n ≠ x) as Htomb.
  { intros x. rewrite tombstones_built. cbn [tombstones_ routes_]. rewrite tombstones_collected. split.
    - intros [[?|[? ?]] Hall]; [set_solver|]. repeat split; [done..|]. intros n p Hin.
      by eapply Hall; [|apply lookup_empty].
    - intros (? & ? & Hall). split; [by right|]. intros n p Hin _. by eapply Hall. }
  rewrite routes_built. cbn [routes_]. rewrite lookup_empty. split; [done|]. split.
  - by rewrite bool_decide_eq_true.
  - intros Hmv [p Hp]. apply bool_decide_eq_false. rewrite Htomb. intros (_ & _ & Hall).
    apply (Hall a p); [by apply first_live_elem|done].
Qed.

(** Where a moved-from string is left empty, as the standard libraries
    do, no live route ever erases a tombstone: an App with a live pool and an
    old tombstone stays retired in the snapshot, and the listener answers 404
    although a pool serves it. *)
Theorem moved_name_keeps_tombstone {pool} moved_from (routes : list (bytes * option pool)) a p t :
  (∀ n, moved_from n = []) → a ≠ [] → (a, None) ∈ routes → first_live routes a = Some p →
  let s := Snapshot_build moved_from routes in
  Snapshot_find s a = Some p ∧ route_request (publish t s) a = AppRetired.
Proof.
  intros Hmv Ha Htomb Hlive. cbv zeta.
  unfold route_request, publish, load, Snapshot_find, Snapshot_retired, Snapshot_build. cbn.
  rewrite routes_built. cbn. rewrite lookup_empty. split; [done|].
  rewrite bool_decide_true; [done|]. apply tombstones_built. cbn [tombstones_ routes_].
  rewrite tombstones_collected.
  split; [by right|]. intros n q _ _. rewrite Hmv. by intros <-.
Qed.

Lemma moved_name_keeps_tombstone_witness :
  let s := Snapshot_build (λ _, []) [(bs "shop", Some 1%nat); (bs "shop", None)] in
  Snapshot_find s (bs "shop") = Some 1%nat ∧
  route_request (publish (mkTable None 0) s) (bs "shop") = AppRetired.
Proof.
  apply (moved_name_keeps_tombstone (λ _, []) [(bs "shop", Some 1%nat); (bs "shop", None)] (bs "shop")
           1%nat (mkTable None 0)); [reflexivity|discriminate|right; left|reflexivity].
Defined.
