(* ===== verification/WsCodec.v ===== *)
(** * WsCodec: WebSocket framing (src/host/ws_codec.cc)

    The RFC 6455 frame encoder and incremental parser of both roles, and the
    handshake's accept key with its own SHA-1 and base64. The 64-byte block of
    the SHA-1 state is the list of its used bytes. *)
From Stdlib Require Import ZArith Lia.
From S2P Require Import Prelude Wire.
Local Open Scope Z_scope.

(** ** SHA-1 *)

Record Sha1 := mkSha1 {
  sha_h : list Z;      (* uint32_t h[5] *)
  sha_total : Z;       (* uint64_t *)
  sha_block : bytes    (* block[0 .. used) *)
}.

Definition new_Sha1 : Sha1 :=
  mkSha1 [0x67452301; 0xEFCDAB89; 0x98BADCFE; 0x10325476; 0xC3D2E1F0] 0 [].

Definition rol (value bits : Z) : Z :=
  Z.lor (u32 (Z.shiftl value bits)) (Z.shiftr value (32 - bits)).

Definition chunk_word (chunk : bytes) (i : Z) : Z :=
  Z.lor (Z.lor (Z.lor (u32 (Z.shiftl (byte_at chunk (i * 4)) 24))
                      (u32 (Z.shiftl (byte_at chunk (i * 4 + 1)) 16)))
               (u32 (Z.shiftl (byte_at chunk (i * 4 + 2)) 8)))
        (byte_at chunk (i * 4 + 3)).

Definition word_at (w : list Z) (i : Z) : Z := nth (Z.to_nat i) w 0.

(** [for (i = 16; i < 80; ++i)], [n] rounds left. *)
Fixpoint extend_words (n : nat) (i : Z) (w : list Z) : list Z :=
  match n with
  | O => w
  | S n' =>
      extend_words n' (i + 1)
        (w ++ [rol (Z.lxor (Z.lxor (Z.lxor (word_at w (i - 3)) (word_at w (i - 8)))
                                   (word_at w (i - 14))) (word_at w (i - 16))) 1])
  end.

Definition sha_f (i b c d : Z) : Z :=
  if i <? 20 then Z.lor (Z.land b c) (Z.land (u32 (Z.lnot b)) d)
  else if i <? 40 then Z.lxor (Z.lxor b c) d
  else if i <? 60 then Z.lor (Z.lor (Z.land b c) (Z.land b d)) (Z.land c d)
  else Z.lxor (Z.lxor b c) d.

Definition sha_k (i : Z) : Z :=
  if i <? 20 then 0x5A827999 else if i <? 40 then 0x6ED9EBA1
  else if i <? 60 then 0x8F1BBCDC else 0xCA62C1D6.

(** [for (i = 0; i < 80; ++i)], [n] rounds left. *)
Fixpoint sha_rounds (n : nat) (i : Z) (w : list Z) (a b c d e : Z) : list Z :=
  match n with
  | O => [a; b; c; d; e]
  | S n' =>
      let temp := u32 (rol a 5 + sha_f i b c d + e + sha_k i + word_at w i) in
      sha_rounds n' (i + 1) w temp a (rol b 30) c d
  end.

Definition sha_process (h : list Z) (chunk : bytes) : list Z :=
  let w := extend_words 64 16 (map (chunk_word chunk) (seqZ 0 16)) in
  let r := sha_rounds 80 0 w (word_at h 0) (word_at h 1) (word_at h 2) (word_at h 3) (word_at h 4) in
  zip_with (λ x y, u32 (x + y)) h r.

(** [while (size > 0)]: every round takes at least one byte. *)
Fixpoint update_loop (fuel : nat) (s : Sha1) (data : bytes) : Sha1 :=
  match fuel with
  | O => s
  | S fuel' =>
      if 0 <? zlen data then
        let used := zlen (sha_block s) in
        let take := if 64 - used <? zlen data then 64 - used else zlen data in
        let block := sha_block s ++ ztake take data in
        update_loop fuel'
          (if zlen block =? 64 then mkSha1 (sha_process (sha_h s) block) (sha_total s) []
           else mkSha1 (sha_h s) (sha_total s) block)
          (zdrop take data)
      else s
  end.

Definition sha_update (s : Sha1) (data : bytes) : Sha1 :=
  update_loop (S (length data)) (mkSha1 (sha_h s) (u64 (sha_total s + zlen data)) (sha_block s)) data.

(** [while (used != 56) update(&zero, 1)]: at most 63 rounds. *)
Fixpoint pad_loop (fuel : nat) (s : Sha1) : Sha1 :=
  match fuel with
  | O => s
  | S fuel' => if negb (zlen (sha_block s) =? 56) then pad_loop fuel' (sha_update s [Byte.x00]) else s
  end.

Definition length_bytes (bits : Z) : bytes :=
  map (λ i, to_u8 (Z.shiftr bits (56 - i * 8))) (seqZ 0 8).

Definition word_bytes (w : Z) : bytes :=
  [to_u8 (Z.shiftr w 24); to_u8 (Z.shiftr w 16); to_u8 (Z.shiftr w 8); to_u8 w].

Definition sha_digest (s : Sha1) : bytes :=
  let bits := u64 (sha_total s * 8) in
  let s := sha_update s [Byte.x80] in
  let s := pad_loop 64 s in
  let s := sha_update s (length_bytes bits) in
  flat_map word_bytes (sha_h s).

(** ** base64 *)

Definition kBase64Alphabet : bytes :=
  bs "ABCDEFGHIJKLMNOPQRSTUVWXYZabcdefghijklmnopqrstuvwxyz0123456789+/".

Definition sextet (v shift : Z) : byte :=
  nth (Z.to_nat (Z.land (Z.shiftr v shift) 63)) kBase64Alphabet Byte.x00.

Definition EQUALS : byte := Byte.x3d.

Fixpoint base64_encode (data : bytes) : bytes :=
  match data with
  | a :: b :: c :: rest =>
      let v := Z.lor (Z.lor (u32 (Z.shiftl (u8 a) 16)) (u32 (Z.shiftl (u8 b) 8))) (u8 c) in
      sextet v 18 :: sextet v 12 :: sextet v 6 :: sextet v 0 :: base64_encode rest
  | [a] =>
      let v := u32 (Z.shiftl (u8 a) 16) in
      [sextet v 18; sextet v 12; EQUALS; EQUALS]
  | [a; b] =>
      let v := Z.lor (u32 (Z.shiftl (u8 a) 16)) (u32 (Z.shiftl (u8 b) 8)) in
      [sextet v 18; sextet v 12; sextet v 6; EQUALS]
  | [] => []
  end.

Definition kGuid : bytes := bs "258EAFA5-E914-47DA-95CA-C5AB0DC85B11".

Definition compute_accept_key (client_key : bytes) : bytes :=
  base64_encode (sha_digest (sha_update (sha_update new_Sha1 client_key) kGuid)).

Definition char_in (lo hi : Z) (c : byte) : bool := (lo <=? u8 c) && (u8 c <=? hi).

Definition validate_client_key (key : bytes) : bool :=
  if negb (zlen key =? 24) || negb (byte_at key 22 =? 61) || negb (byte_at key 23 =? 61) then false
  else forallb (λ c, char_in 65 90 c || char_in 97 122 c || char_in 48 57 c || (u8 c =? 43)
                     || (u8 c =? 47)) (ztake 22 key).

(** ** Frames *)

Definition kContinuation : Z := 0.
Definition kText : Z := 1.
Definition kBinary : Z := 2.
Definition kClose : Z := 8.
Definition kPing : Z := 9.
Definition kPong : Z := 10.

Inductive Role := kServer | kClient.

#[export] Instance Role_eq_dec : EqDecision Role.
Proof. solve_decision. Defined.

Record WsFrame := mkWsFrame {
  fin : bool;
  opcode : Z;       (* uint8_t *)
  ws_payload : bytes
}.

Definition is_control (opcode : Z) : bool := 8 <=? opcode.

Definition valid_opcode (opcode : Z) : bool :=
  (opcode =? kContinuation) || (opcode =? kText) || (opcode =? kBinary) || (opcode =? kClose)
  || (opcode =? kPing) || (opcode =? kPong).

Definition append_u16_be (out : bytes) (value : Z) : bytes :=
  out ++ [to_u8 (Z.shiftr value 8)] ++ [to_u8 value].

Definition append_u64_be (out : bytes) (value : Z) : bytes :=
  out ++ map (λ i, to_u8 (Z.shiftr value ((7 - i) * 8))) (seqZ 0 8).

Definition byte_xor (a b : byte) : byte := to_u8 (Z.lxor (u8 a) (u8 b)).

Definition mask_byte (mask k : Z) : byte := to_u8 (Z.shiftr mask (24 - k * 8)).

(** The encoder; [None] for [false]. [output] is the caller's vector, [None]
    where the pointer is null. *)
Definition encode (frame : WsFrame) (role : Role) (mask : Z) (output : option bytes) : option bytes :=
  let size := zlen (ws_payload frame) in
  match output with
  | None => None
  | Some _ =>
      if negb (valid_opcode (opcode frame)) then None
      else if is_control (opcode frame) && (negb (fin frame) || (125 <? size)) then None
      else if bool_decide (role = kClient) && (mask =? 0) then None
      else if bool_decide (role = kServer) && negb (mask =? 0) then None
      else
        let head0 := Z.lor (if fin frame then 0x80 else 0) (Z.land (opcode frame) 15) in
        let masked := bool_decide (role = kClient) in
        let head1 := if masked then 0x80 else 0 in
        let output := [to_u8 head0] in
        let output :=
          if size <=? 125 then output ++ [to_u8 (Z.lor head1 size)]
          else if size <=? 0xFFFF then append_u16_be (output ++ [to_u8 (Z.lor head1 126)]) (u16 size)
          else append_u64_be (output ++ [to_u8 (Z.lor head1 127)]) size in
        Some
          (if masked then
             output ++ [to_u8 (Z.shiftr mask 24)] ++ [to_u8 (Z.shiftr mask 16)]
               ++ [to_u8 (Z.shiftr mask 8)] ++ [to_u8 mask]
               ++ imap (λ i b, byte_xor b (mask_byte mask (Z.of_nat i mod 4))) (ws_payload frame)
           else output ++ ws_payload frame)
  end.

(** ** The parser *)

Definition kMaxFrameBytes : Z := 64 * 1024 * 1024.

Record WsParser := mkWsParser {
  role_ : Role;
  ws_buffer_ : bytes;
  ws_offset_ : Z;
  ws_error_ : string
}.

Definition new_WsParser (role : Role) : WsParser := mkWsParser role [] 0 "".

Definition ws_set_error (p : WsParser) (message : string) : WsParser :=
  mkWsParser (role_ p) (ws_buffer_ p) (ws_offset_ p) message.

Definition ws_has_error (p : WsParser) : bool := negb (bool_decide (ws_error_ p = ""%string)).

Definition WsParser_append (p : WsParser) (data : option bytes) (size : Z) : bool * WsParser :=
  if ws_has_error p then (false, p)
  else if size =? 0 then (true, p)
  else match data with
  | None => (false, ws_set_error p "invalid parser input")
  | Some data =>
      let p := mkWsParser (role_ p) (ws_buffer_ p ++ ztake size data) (ws_offset_ p) (ws_error_ p) in
      if kMaxFrameBytes <? u64 (zlen (ws_buffer_ p) - ws_offset_ p) then
        (false, ws_set_error p "frame buffer limit exceeded")
      else (true, p)
  end.

Inductive WsParseResult := kWsNeedMore | kWsFrame (f : WsFrame) | kWsError.

(** What [next] decides from the buffered bytes: more is needed, an error, or
    a frame and its size. *)
Inductive frame_view := ViewMore | ViewError (message : string) | ViewFrame (f : WsFrame) (size : Z).

(** [for (i = 2; i < 10; ++i) length = (length << 8) | header[i]]. *)
Definition length64 (header : bytes) : Z :=
  fold_left (λ length i, Z.lor (u64 (Z.shiftl length 8)) (byte_at header i)) (seqZ 2 8) 0.

(** The length field: its value and the header size, unless bytes are missing. *)
Definition read_length (header : bytes) : option (Z * Z) :=
  let length := Z.land (byte_at header 1) 127 in
  if length =? 126 then
    if zlen header <? 4 then None
    else Some (Z.lor (u64 (Z.shiftl (byte_at header 2) 8)) (byte_at header 3), 4)
  else if length =? 127 then
    if zlen header <? 10 then None else Some (length64 header, 10)
  else Some (length, 2).

Definition unmask (mask_bytes payload : bytes) : bytes :=
  imap (λ i b, byte_xor b (nth (i mod 4) mask_bytes Byte.x00)) payload.

Definition read_frame (role : Role) (header : bytes) : frame_view :=
  let buffered := zlen header in
  if buffered <? 2 then ViewMore
  else
    let fin := negb (Z.land (byte_at header 0) 0x80 =? 0) in
    let opcode := Z.land (byte_at header 0) 15 in
    let masked := negb (Z.land (byte_at header 1) 0x80 =? 0) in
    if negb (Z.land (byte_at header 0) 0x70 =? 0) then ViewError "reserved bits set"
    else if negb (valid_opcode opcode) then ViewError "reserved opcode"
    else if is_control opcode && negb fin then ViewError "fragmented control frame"
    else if bool_decide (role = kServer) && negb masked then ViewError "client frame not masked"
    else if bool_decide (role = kClient) && masked then ViewError "server frame must not be masked"
    else match read_length header with
    | None => ViewMore
    | Some (length, header_size) =>
        if is_control opcode && (125 <? length) then ViewError "control frame payload limit"
        else if kMaxFrameBytes <? length then ViewError "frame payload limit exceeded"
        else
          let mask_size := if masked then 4 else 0 in
          let frame_size := header_size + mask_size + length in
          if buffered <? frame_size then ViewMore
          else
            let payload := ztake length (zdrop (header_size + mask_size) header) in
            ViewFrame
              (mkWsFrame fin opcode
                 (if masked then unmask (ztake 4 (zdrop header_size header)) payload else payload))
              frame_size
    end.

Definition WsParser_next (p : WsParser) : WsParseResult * WsParser :=
  if ws_has_error p then (kWsError, p)
  else match read_frame (role_ p) (zdrop (ws_offset_ p) (ws_buffer_ p)) with
  | ViewMore => (kWsNeedMore, p)
  | ViewError message => (kWsError, ws_set_error p message)
  | ViewFrame f size =>
      let offset := u64 (ws_offset_ p + size) in
      (kWsFrame f,
       if offset =? zlen (ws_buffer_ p) then mkWsParser (role_ p) [] 0 (ws_error_ p)
       else mkWsParser (role_ p) (ws_buffer_ p) offset (ws_error_ p))
  end.

(** ** Bytes of the header *)

Lemma byte_high b : (Z.land (u8 b) 0x80 =? 0) = (u8 b <? 128).
Proof. by destruct b. Qed.

Lemma byte_low b : Z.land (u8 b) 127 = u8 b mod 128.
Proof. change 127 with (Z.ones 7). by rewrite Z.land_ones. Qed.

Lemma byte_or_length (h1 s : Z) : h1 = 0 ∨ h1 = 128 → 0 <= s < 128 →
  u8 (to_u8 (Z.lor h1 s)) = h1 + s.
Proof.
  intros Hh Hs. assert (Z.lor h1 s = h1 + s) as ->.
  { destruct Hh as [-> | ->]; [by rewrite Z.lor_0_l|].
    rewrite Z.lor_comm. change (Z.lor s 128) with (Z.lor s (Z.shiftl 1 7)).
    rewrite (lor_shift_add s 1 7) by lia. lia. }
  rewrite u8_to_u8, Z.mod_small by lia. done.
Qed.

Lemma lxor_byte a b : 0 <= a < 256 → 0 <= b < 256 → 0 <= Z.lxor a b < 256.
Proof.
  intros Ha Hb. assert (0 <= Z.lxor a b) as Hnn by (apply Z.lxor_nonneg; lia). split; [done|].
  destruct (Z.eq_dec (Z.lxor a b) 0) as [->|Hne]; [lia|].
  apply (Z.log2_lt_pow2 _ 8); [lia|]. pose proof (Z.log2_lxor a b ltac:(lia) ltac:(lia)).
  assert (∀ x, 0 <= x < 256 → Z.log2 x < 8) as Hlog.
  { intros x Hx. destruct (Z.eq_dec x 0) as [->|]; [done|]. apply Z.log2_lt_pow2; lia. }
  pose proof (Hlog a Ha). pose proof (Hlog b Hb). lia.
Qed.

Lemma byte_xor_twice b m : byte_xor (byte_xor b m) m = b.
Proof.
  unfold byte_xor. rewrite u8_to_u8.
  pose proof (u8_range b). pose proof (u8_range m).
  rewrite Z.mod_small by (apply lxor_byte; lia).
  rewrite Z.lxor_assoc, Z.lxor_nilpotent, Z.lxor_0_r. apply to_u8_u8.
Qed.

Definition mask_bytes (mask : Z) : bytes :=
  [to_u8 (Z.shiftr mask 24)] ++ [to_u8 (Z.shiftr mask 16)] ++ [to_u8 (Z.shiftr mask 8)] ++ [to_u8 mask].

Lemma mask_bytes_nth mask i : nth (i mod 4) (mask_bytes mask) Byte.x00 = mask_byte mask (Z.of_nat i mod 4).
Proof.
  assert (i mod 4 < 4)%nat as Hlt by (apply Nat.mod_upper_bound; lia).
  change (Z.of_nat i mod 4) with (Z.of_nat i mod Z.of_nat 4). rewrite <- Nat2Z.inj_mod. unfold mask_byte, mask_bytes.
  destruct (i mod 4)%nat as [|[|[|[|k]]]]; [..|lia]; cbn; by rewrite ?Z.shiftr_0_r.
Qed.

Lemma unmask_masked mask payload :
  unmask (mask_bytes mask) (imap (λ i b, byte_xor b (mask_byte mask (Z.of_nat i mod 4))) payload) = payload.
Proof.
  unfold unmask. apply list_eq. intros i. rewrite !list_lookup_imap.
  destruct (payload !! i) as [b|]; cbn [fmap option_fmap option_map]; [|done].
  f_equal. rewrite mask_bytes_nth. apply byte_xor_twice.
Qed.

(** One step of the big-endian accumulation. *)
Lemma be_step v j k : 0 <= v < 2 ^ 64 → 0 <= k <= 56 → j = k + 8 →
  Z.lor (u64 (Z.shiftl (v / 2 ^ j) 8)) (u8 (to_u8 (Z.shiftr v k))) = v / 2 ^ k.
Proof.
  intros Hv Hk ->. rewrite u8_to_u8, Z.shiftr_div_pow2 by lia.
  assert (v / 2 ^ (k + 8) = v / 2 ^ k / 256) as ->.
  { rewrite Z.pow_add_r by lia. change (2 ^ 8) with 256. by rewrite Z.div_div by lia. }
  set (w := v / 2 ^ k). assert (0 <= w < 2 ^ 64) as Hw.
  { split; [apply Z.div_pos; lia|]. apply Z.div_lt_upper_bound; [lia|].
    pose proof (Z.pow_pos_nonneg 2 k ltac:(lia) ltac:(lia)). nia. }
  pose proof (Z.div_mod w 256 ltac:(lia)). pose proof (Z.mod_pos_bound w 256 ltac:(lia)).
  rewrite u64_small by (rewrite Z.shiftl_mul_pow2 by lia; change (2 ^ 8) with 256; lia).
  rewrite Z.lor_comm, lor_shift_add; lia.
Qed.

Lemma length64_be a b v rest : 0 <= v < 2 ^ 64 →
  length64 (a :: b :: map (λ i, to_u8 (Z.shiftr v ((7 - i) * 8))) (seqZ 0 8) ++ rest) = v.
Proof.
  intros Hv. set (header := _ :: _).
  assert (byte_at header 2 = u8 (to_u8 (Z.shiftr v 56)) ∧ byte_at header 3 = u8 (to_u8 (Z.shiftr v 48)) ∧
    byte_at header 4 = u8 (to_u8 (Z.shiftr v 40)) ∧ byte_at header 5 = u8 (to_u8 (Z.shiftr v 32)) ∧
    byte_at header 6 = u8 (to_u8 (Z.shiftr v 24)) ∧ byte_at header 7 = u8 (to_u8 (Z.shiftr v 16)) ∧
    byte_at header 8 = u8 (to_u8 (Z.shiftr v 8)) ∧ byte_at header 9 = u8 (to_u8 (Z.shiftr v 0)))
    as (H2 & H3 & H4 & H5 & H6 & H7 & H8 & H9) by (by repeat split).
  unfold length64. change (seqZ 2 8) with [2; 3; 4; 5; 6; 7; 8; 9]. cbn [fold_left].
  rewrite H2, H3, H4, H5, H6, H7, H8, H9. clearbody header.
  assert (Z.lor (u64 (Z.shiftl 0 8)) (u8 (to_u8 (Z.shiftr v 56))) = v / 2 ^ 56) as ->.
  { rewrite <- (be_step v 64 56) by lia. by rewrite (Z.div_small v (2 ^ 64)) by lia. }
  rewrite (be_step v 56 48), (be_step v 48 40), (be_step v 40 32), (be_step v 32 24), (be_step v 24 16),
    (be_step v 16 8), (be_step v 8 0) by lia.
  apply Z.div_1_r.
Qed.

Lemma length16_be a b v rest : 0 <= v < 2 ^ 16 →
  let header := a :: b :: to_u8 (Z.shiftr v 8) :: to_u8 v :: rest in
  Z.lor (u64 (Z.shiftl (byte_at header 2) 8)) (byte_at header 3) = v.
Proof.
  intros Hv. cbv zeta.
  change (byte_at _ 2) with (u8 (to_u8 (Z.shiftr v 8))). change (byte_at _ 3) with (u8 (to_u8 v)).
  pose proof (be_step v 8 0 ltac:(lia) ltac:(lia) eq_refl) as Hb.
  rewrite Z.shiftr_0_r, Z.div_1_r in Hb. rewrite <- Hb at 3. f_equal. do 2 f_equal.
  rewrite u8_to_u8, Z.shiftr_div_pow2, Z.mod_small; [done| |lia].
  split; [apply Z.div_pos; lia|apply Z.div_lt_upper_bound; lia].
Qed.

(** ** Decisions are stable *)

Lemma read_length_mono x y r : 2 <= zlen x → read_length x = Some r → read_length (x ++ y) = Some r.
Proof.
  intros Hx. unfold read_length. rewrite (byte_at_app_l x y 1) by lia. rewrite zlen_app.
  pose proof (zlen_nonneg y).
  destruct (_ =? 126); [|destruct (_ =? 127); [|done]].
  - destruct (zlen x <? 4) eqn:Hl; [done|]. bools. rewrite ltb_ge_false by lia.
    by rewrite !byte_at_app_l by lia.
  - destruct (zlen x <? 10) eqn:Hl; [done|]. bools. rewrite ltb_ge_false by lia.
    intros <-. do 2 f_equal. unfold length64. change (seqZ 2 8) with [2; 3; 4; 5; 6; 7; 8; 9].
    cbn [fold_left]. by rewrite !byte_at_app_l by lia.
Qed.

Lemma lor_byte_nonneg header i a : 0 <= Z.lor (u64 a) (byte_at header i).
Proof. apply Z.lor_nonneg. split; [apply Z.mod_pos_bound; lia|apply byte_at_range]. Qed.

Lemma length64_nonneg header : 0 <= length64 header.
Proof.
  unfold length64. change (seqZ 2 8) with ([2; 3; 4; 5; 6; 7; 8] ++ [9]). rewrite fold_left_app.
  apply lor_byte_nonneg.
Qed.

Lemma read_length_nonneg header length size : read_length header = Some (length, size) →
  0 <= length ∧ 2 <= size <= 10 ∧ (zlen header < 2 ∨ size <= zlen header).
Proof.
  unfold read_length. destruct (_ =? 126); [|destruct (_ =? 127)].
  - destruct (zlen header <? 4) eqn:Hl; [done|]. bools. intros [= <- <-].
    split; [apply lor_byte_nonneg|lia].
  - destruct (zlen header <? 10) eqn:Hl; [done|]. bools. pose proof (length64_nonneg header).
    intros [= Heq <-]. rewrite <- Heq. split; [done|lia].
  - intros [= <- <-]. split; [apply Z.land_nonneg; right; lia|lia].
Qed.

(** More bytes never change a decision already taken. *)
Lemma read_frame_mono role x y : read_frame role x ≠ ViewMore →
  read_frame role (x ++ y) = read_frame role x.
Proof.
  unfold read_frame. cbv zeta. rewrite zlen_app. pose proof (zlen_nonneg y).
  destruct (zlen x <? 2) eqn:H2; [done|]. bools. rewrite ltb_ge_false by lia.
  rewrite !byte_at_app_l by lia. do 5 (split_test; [done|]).
  destruct (read_length x) as [[length size]|] eqn:Hl; [|done].
  rewrite (read_length_mono x y _ ltac:(lia) Hl).
  destruct (read_length_nonneg _ _ _ Hl) as (Hlen & Hsize & Hsz).
  do 2 (split_test; [done|]).
  set (masked := negb (Z.land (byte_at x 1) 128 =? 0)). set (mask_size := if masked then 4 else 0).
  assert (0 <= mask_size <= 4) as Hms by (unfold mask_size; destruct masked; lia).
  destruct (zlen x <? _) eqn:Hfit; [done|]. bools. intros _. rewrite ltb_ge_false by lia.
  rewrite (zdrop_app_l (size + mask_size)), (ztake_app_l length) by (rewrite ?zlen_zdrop; lia).
  destruct masked; [|done]. unfold mask_size in *.
  rewrite (zdrop_app_l size), (ztake_app_l 4) by (rewrite ?zlen_zdrop; lia). done.
Qed.

(** What is delivered is a frame the protocol admits. *)
Definition ws_frame_ok (f : WsFrame) : Prop :=
  valid_opcode (opcode f) = true ∧
  (is_control (opcode f) = true → fin f = true ∧ zlen (ws_payload f) <= 125) ∧
  zlen (ws_payload f) <= kMaxFrameBytes.

Lemma zlen_unmask m p : zlen (unmask m p) = zlen p.
Proof. unfold unmask, zlen. by rewrite length_imap. Qed.

Lemma read_frame_sound role x f size : read_frame role x = ViewFrame f size →
  ws_frame_ok f ∧ zlen (ws_payload f) + 2 <= size <= zlen x ∧
  negb (Z.land (byte_at x 1) 0x80 =? 0) = bool_decide (role = kServer).
Proof.
  unfold read_frame. cbv zeta. destruct (zlen x <? 2) eqn:H2; [done|]. bools.
  destruct (negb (Z.land (byte_at x 0) 0x70 =? 0)); [done|].
  destruct (valid_opcode _) eqn:Hop; cbn [negb]; [|done].
  set (op := Z.land (byte_at x 0) 15) in *.
  set (fin0 := negb (Z.land (byte_at x 0) 128 =? 0)).
  destruct (is_control op && negb fin0) eqn:Hctl; [done|].
  set (masked := negb (Z.land (byte_at x 1) 128 =? 0)).
  assert (∀ v, (if bool_decide (role = kServer) && negb masked then ViewError "client frame not masked"
    else if bool_decide (role = kClient) && masked then ViewError "server frame must not be masked" else v)
    = ViewFrame f size → masked = bool_decide (role = kServer) ∧ v = ViewFrame f size) as Hmask.
  { intros v. by destruct role, masked. }
  intros Hv. apply Hmask in Hv as [Hm Hv]. clear Hmask. revert Hv.
  destruct (read_length x) as [[length hsize]|] eqn:Hl; [|done].
  destruct (read_length_nonneg _ _ _ Hl) as (Hlen & Hsize & Hsz).
  destruct (is_control op && (125 <? length)) eqn:Hcl; [done|].
  destruct (kMaxFrameBytes <? length) eqn:Hmax; [done|]. bools.
  set (mask_size := if masked then 4 else 0).
  assert (0 <= mask_size <= 4) as Hms by (unfold mask_size; destruct masked; lia).
  destruct (zlen x <? _) eqn:Hfit; [done|]. bools. intros [= <- <-].
  assert (zlen (ztake length (zdrop (hsize + mask_size) x)) = length) as Hpl.
  { apply zlen_ztake. rewrite zlen_zdrop; lia. }
  assert (zlen (if masked then unmask (ztake 4 (zdrop hsize x)) (ztake length (zdrop (hsize + mask_size) x))
    else ztake length (zdrop (hsize + mask_size) x)) = length) as Hbody
    by (destruct masked; rewrite ?zlen_unmask; done).
  split; [|split; [cbn [ws_payload]; rewrite Hbody; lia|done]].
  split; [done|split]; cbn [opcode fin ws_payload]; rewrite Hbody; [|lia].
  intros Hc. rewrite Hc in *. cbn [andb] in *. bools. split; [by destruct fin0|lia].
Qed.

(** ** Reading what was encoded *)

Definition opposite (role : Role) : Role := match role with kServer => kClient | kClient => kServer end.

Definition length_part (h1 size : Z) : bytes :=
  if size <=? 125 then [to_u8 (Z.lor h1 size)]
  else if size <=? 0xFFFF then
    to_u8 (Z.lor h1 126) :: [to_u8 (Z.shiftr size 8); to_u8 size]
  else to_u8 (Z.lor h1 127) :: map (λ i, to_u8 (Z.shiftr size ((7 - i) * 8))) (seqZ 0 8).

Definition role_bit (role : Role) : Z := if bool_decide (role = kClient) then 0x80 else 0.

Definition head_byte (f : WsFrame) : byte :=
  to_u8 (Z.lor (if fin f then 0x80 else 0) (Z.land (opcode f) 15)).

Definition encoded_body (role : Role) (mask : Z) (payload : bytes) : bytes :=
  if bool_decide (role = kClient)
  then mask_bytes mask ++ imap (λ i b, byte_xor b (mask_byte mask (Z.of_nat i mod 4))) payload
  else payload.

Lemma encode_shape f role mask o w : encode f role mask o = Some w →
  valid_opcode (opcode f) = true ∧
  (is_control (opcode f) = true → fin f = true ∧ zlen (ws_payload f) <= 125) ∧
  w = head_byte f :: length_part (role_bit role) (zlen (ws_payload f))
        ++ encoded_body role mask (ws_payload f).
Proof.
  unfold encode. cbv zeta. destruct o as [o|]; [|done].
  destruct (valid_opcode (opcode f)) eqn:Hop; cbn [negb]; [|done].
  destruct (is_control (opcode f) && _) eqn:Hctl; [done|].
  destruct (bool_decide (role = kClient) && _); [done|].
  destruct (bool_decide (role = kServer) && _); [done|]. intros [= <-].
  split; [done|]. split.
  { intros Hc. rewrite Hc in Hctl. cbn [andb] in Hctl. bools. split; [by destruct (fin f)|lia]. }
  unfold length_part, encoded_body, role_bit, head_byte, append_u16_be, append_u64_be, mask_bytes.
  pose proof (zlen_nonneg (ws_payload f)).
  destruct (zlen (ws_payload f) <=? 125) eqn:H1; [|destruct (zlen (ws_payload f) <=? 0xFFFF) eqn:H2].
  - by destruct role; cbn.
  - bools. rewrite (u16_small (zlen (ws_payload f))) by lia. by destruct role; cbn.
  - destruct role; cbn -[seqZ]; by rewrite <- ?app_assoc.
Qed.

Lemma read_length_part b0 h1 size rest : h1 = 0 ∨ h1 = 128 → 0 <= size < 2 ^ 64 →
  let header := b0 :: length_part h1 size ++ rest in
  read_length header = Some (size, 1 + zlen (length_part h1 size)) ∧
  negb (Z.land (byte_at header 1) 0x80 =? 0) = (h1 =? 128).
Proof.
  intros Hh Hs. cbv zeta. unfold length_part, read_length.
  assert (∀ s k, 0 <= s < 128 → let header := b0 :: to_u8 (Z.lor h1 s) :: k in
    Z.land (byte_at header 1) 127 = s ∧ negb (Z.land (byte_at header 1) 128 =? 0) = (h1 =? 128)) as Hb1.
  { intros s k Hr. cbv zeta. change (byte_at _ 1) with (u8 (to_u8 (Z.lor h1 s))).
    rewrite byte_low, byte_high, byte_or_length by done. split.
    - destruct Hh as [-> | ->]; [apply Z.mod_small; lia|].
      rewrite <- (Z.mod_small s 128) at 2 by lia. rewrite <- (Z_mod_plus_full s 1 128). f_equal. lia.
    - destruct Hh as [-> | ->]; cbn; [by rewrite ltb_lt_true by lia|by rewrite ltb_ge_false by lia]. }
  destruct (size <=? 125) eqn:H1; [|destruct (size <=? 0xFFFF) eqn:H2]; bools.
  - destruct (Hb1 size rest ltac:(lia)) as [Hlow Hhigh]. cbn [app] in *. rewrite Hlow.
    rewrite (eqb_ne_false size 126), (eqb_ne_false size 127) by lia. done.
  - cbn [app] in *. destruct (Hb1 126 (to_u8 (Z.shiftr size 8) :: to_u8 size :: rest) ltac:(lia)) as [Hlow Hhigh].
    rewrite Hlow. split; [|done]. rewrite Z.eqb_refl, ltb_ge_false.
    + do 2 f_equal. apply length16_be. lia.
    + rewrite !zlen_cons. pose proof (zlen_nonneg rest). lia.
  - set (be := map _ (seqZ 0 8)). cbn [app]. destruct (Hb1 127 (be ++ rest) ltac:(lia)) as [Hlow Hhigh].
    rewrite Hlow. split; [|done]. rewrite (eqb_ne_false 127 126), Z.eqb_refl by done.
    rewrite ltb_ge_false.
    + do 2 f_equal. apply length64_be. lia.
    + rewrite !zlen_cons, zlen_app. pose proof (zlen_nonneg rest). change (zlen be) with 8. lia.
Qed.

Lemma head_byte_reads f : valid_opcode (opcode f) = true →
  negb (Z.land (u8 (head_byte f)) 0x80 =? 0) = fin f ∧ Z.land (u8 (head_byte f)) 15 = opcode f ∧
  (Z.land (u8 (head_byte f)) 0x70 =? 0) = true.
Proof.
  unfold valid_opcode, head_byte. intros Hop. andb_cases; subst;
    match goal with Ho : opcode f = _ |- _ => rewrite Ho end; by destruct (fin f).
Qed.

Lemma read_encoded f role mask o w rest : encode f role mask o = Some w →
  zlen (ws_payload f) <= kMaxFrameBytes →
  read_frame (opposite role) (w ++ rest) = ViewFrame f (zlen w).
Proof.
  intros Henc Hmax. apply encode_shape in Henc as (Hop & Hctl & ->).
  set (size := zlen (ws_payload f)) in *. set (lp := length_part (role_bit role) size).
  set (body := encoded_body role mask (ws_payload f)).
  assert (0 <= size) by apply zlen_nonneg. unfold kMaxFrameBytes in *.
  destruct (read_length_part (head_byte f) (role_bit role) size (body ++ rest)) as [Hlen Hmasked];
    [destruct role; cbn; auto|lia|]. fold lp in Hlen, Hmasked.
  destruct (head_byte_reads f Hop) as (Hfin & Hopc & Hrsv).
  cbn [app]. rewrite <- app_assoc. unfold read_frame. cbv zeta.
  change (byte_at (head_byte f :: lp ++ body ++ rest) 0) with (u8 (head_byte f)).
  rewrite Hfin, Hopc, Hrsv, Hmasked, Hlen, Hop. cbn [negb].
  assert (1 <= zlen lp) as Hlp.
  { unfold lp, length_part. repeat case_match; rewrite zlen_cons; zlen_pose; lia. }
  change (head_byte f :: lp ++ body ++ rest) with ((head_byte f :: lp) ++ body ++ rest).
  change (head_byte f :: lp ++ body) with ((head_byte f :: lp) ++ body).
  set (P := head_byte f :: lp). assert (1 + zlen lp = zlen P) as HP by (unfold P; by rewrite zlen_cons).
  rewrite HP, !zlen_app. pose proof (zlen_nonneg rest). pose proof (zlen_nonneg body).
  rewrite (ltb_ge_false (zlen P + _) 2) by lia.
  assert (is_control (opcode f) && negb (fin f) = false ∧ is_control (opcode f) && (125 <? size) = false)
    as [-> ->].
  { destruct (is_control (opcode f)); [|done]. destruct (Hctl eq_refl) as [-> ?].
    split; [done|]. cbn. apply ltb_ge_false. lia. }
  rewrite (ltb_ge_false kMaxFrameBytes) by (unfold kMaxFrameBytes; lia).
  destruct role;
    [change (role_bit kServer =? 128) with false; change (bool_decide (opposite kServer = kServer)) with false;
     change (bool_decide (opposite kServer = kClient)) with true
    |change (role_bit kClient =? 128) with true; change (bool_decide (opposite kClient = kServer)) with true;
     change (bool_decide (opposite kClient = kClient)) with false];
    cbn [andb negb].
  - change body with (ws_payload f) in *. rewrite !Z.add_0_r. change (zlen (ws_payload f)) with size. rewrite ltb_ge_false by lia.
    rewrite (zdrop_app (zlen P)), ztake_app by done. by destruct f.
  - unfold body, encoded_body in *. change (bool_decide (kClient = kClient)) with true in *. cbn match in *.
    rewrite !zlen_app in *. change (zlen (mask_bytes mask)) with 4 in *.
    assert (zlen (imap (λ i b, byte_xor b (mask_byte mask (Z.of_nat i mod 4))) (ws_payload f)) = size) as Hm.
    { unfold zlen. by rewrite length_imap. }
    rewrite Hm. rewrite ltb_ge_false by lia. rewrite (zdrop_app (zlen P)) by done.
    rewrite <- (zdrop_zdrop 4 (zlen P)) by (lia || apply zlen_nonneg).
    rewrite (zdrop_app (zlen P)), <- app_assoc by done. rewrite (zdrop_app 4), !ztake_app by done.
    rewrite unmask_masked. f_equal; [by destruct f|lia].
Qed.

(** ** The parser's state *)

Definition ws_pending (p : WsParser) : bytes := zdrop (ws_offset_ p) (ws_buffer_ p).

Record ws_wf (p : WsParser) : Prop := {
  ws_offset_ok : 0 <= ws_offset_ p <= zlen (ws_buffer_ p);
  ws_memory : zlen (ws_buffer_ p) < 2 ^ 63
}.

Lemma ws_no_error p : ws_error_ p = ""%string → ws_has_error p = false.
Proof. intros He. unfold ws_has_error. by rewrite He. Qed.

(** An accepted append adds to what is pending. *)
Lemma ws_append_spec p c b p' : ws_wf p → zlen (ws_buffer_ p) + zlen c < 2 ^ 63 →
  WsParser_append p (Some c) (zlen c) = (b, p') →
  ws_wf p' ∧ role_ p' = role_ p ∧ (ws_error_ p = ""%string → ws_pending p' = ws_pending p ++ c) ∧
  (b = true → ws_error_ p = ""%string ∧ ws_error_ p' = ""%string) ∧
  (ws_error_ p = ""%string → zlen (ws_pending p) + zlen c <= kMaxFrameBytes → b = true) ∧
  zlen (ws_buffer_ p') <= zlen (ws_buffer_ p) + zlen c.
Proof.
  intros [Hoff Hmem] Htotal. unfold WsParser_append. pose proof (zlen_nonneg c) as Hc.
  destruct (ws_has_error p) eqn:He.
  { intros [= <- <-]. unfold ws_has_error in He. bools. repeat split; try done; lia. }
  unfold ws_has_error in He. bools.
  destruct (zlen c =? 0) eqn:H0; bools.
  { intros [= <- <-]. apply zlen_zero in H0. subst c.
    split; [done|]. split; [done|]. split; [intros _; by rewrite app_nil_r|].
    repeat split; try done. rewrite zlen_nil. lia. }
  cbv zeta. cbn [ws_buffer_ ws_offset_]. rewrite ztake_all, zlen_app.
  rewrite u64_small by lia.
  assert (zdrop (ws_offset_ p) (ws_buffer_ p ++ c) = ws_pending p ++ c) as Hpend
    by (apply zdrop_app_l; lia).
  assert (zlen (ws_pending p) = zlen (ws_buffer_ p) - ws_offset_ p) as Hlen by (apply zlen_zdrop; lia).
  destruct (kMaxFrameBytes <? _) eqn:Hlim; bools; intros [= <- <-];
    repeat split; cbn; rewrite ?zlen_app; try done; try lia.
Qed.

Lemma ws_next_spec p : ws_wf p → ws_error_ p = ""%string →
  match read_frame (role_ p) (ws_pending p) with
  | ViewMore => WsParser_next p = (kWsNeedMore, p)
  | ViewError m => WsParser_next p = (kWsError, ws_set_error p m)
  | ViewFrame f size => ∃ p', WsParser_next p = (kWsFrame f, p') ∧ ws_wf p' ∧ role_ p' = role_ p ∧
      ws_error_ p' = ""%string ∧ ws_pending p' = zdrop size (ws_pending p) ∧
      (ws_buffer_ p' = ws_buffer_ p ∨ ws_buffer_ p' = [] ∧ ws_pending p' = [])
  end.
Proof.
  intros [Hoff Hmem] He. unfold WsParser_next. rewrite (ws_no_error p He).
  fold (ws_pending p). destruct (read_frame (role_ p) (ws_pending p)) as [| |f size] eqn:Hr; [done|done|].
  apply read_frame_sound in Hr as (_ & Hsize & _).
  assert (zlen (ws_pending p) = zlen (ws_buffer_ p) - ws_offset_ p) as Hlen by (apply zlen_zdrop; lia).
  pose proof (zlen_nonneg (ws_payload f)). cbv zeta. rewrite u64_small by lia.
  eexists. split; [reflexivity|].
  destruct (ws_offset_ p + size =? zlen (ws_buffer_ p)) eqn:Hend; bools.
  - repeat split; cbn; try done; try lia; [|by right].
    unfold ws_pending. cbn. rewrite zdrop_zdrop by lia. by rewrite Hend, zdrop_all.
  - repeat split; cbn; try done; try lia; [|by left].
    unfold ws_pending. cbn. by rewrite zdrop_zdrop by lia.
Qed.

(** ** Reception *)

(** [while (parser.next(&frame) == kParseFrame)]. *)
Fixpoint ws_drain (fuel : nat) (p : WsParser) : list WsFrame * WsParser :=
  match fuel with
  | O => ([], p)
  | S fuel' =>
      match WsParser_next p with
      | (kWsFrame f, p') => let '(fs, p'') := ws_drain fuel' p' in (f :: fs, p'')
      | (_, p') => ([], p')
      end
  end.

Fixpoint ws_feed (p : WsParser) (chunks : list bytes) : list WsFrame * WsParser :=
  match chunks with
  | [] => ([], p)
  | c :: chunks' =>
      match WsParser_append p (Some c) (zlen c) with
      | (true, p1) =>
          let '(fs, p2) := ws_drain (S (length (ws_pending p1))) p1 in
          let '(gs, p3) := ws_feed p2 chunks' in
          (fs ++ gs, p3)
      | (false, p1) => ([], p1)
      end
  end.

(** [w] is [f] on the wire, for a parser of role [r]. *)
Definition carries (r : Role) (f : WsFrame) (w : bytes) : Prop :=
  ∀ rest, read_frame r (w ++ rest) = ViewFrame f (zlen w).

Lemma carries_waits r f w x more : carries r f w → x ++ more = w → more ≠ [] →
  read_frame r x = ViewMore.
Proof.
  intros Hw Heq Hmore. destruct (read_frame r x) as [|m|g size] eqn:Hr; [done|exfalso..].
  - pose proof (read_frame_mono r x more) as Hmono. rewrite Hr, Heq in Hmono.
    specialize (Hw []). rewrite app_nil_r in Hw. by rewrite Hmono in Hw.
  - pose proof (read_frame_mono r x more) as Hmono. rewrite Hr, Heq in Hmono.
    specialize (Hw []). rewrite app_nil_r in Hw. rewrite Hmono in Hw by done. injection Hw as <- ->.
    apply read_frame_sound in Hr as (_ & Hsize & _). rewrite <- Heq, zlen_app in Hsize.
    destruct more; [done|]. rewrite zlen_cons in Hsize. pose proof (zlen_nonneg more). lia.
Qed.

Definition ws_stream (ws : list bytes) : bytes := concat ws.

Record ws_ready (r : Role) (p : WsParser) : Prop := {
  ready_wf : ws_wf p;
  ready_role : role_ p = r;
  ready_error : ws_error_ p = ""%string
}.

(** What is pending is a strict prefix of the next frame. *)
Definition ws_partial (p : WsParser) (ws : list bytes) : Prop :=
  match ws with [] => ws_pending p = [] | w :: _ => zlen (ws_pending p) < zlen w end.

Lemma carries_nonempty r f w : carries r f w → 2 <= zlen w.
Proof.
  intros Hw. specialize (Hw []). rewrite app_nil_r in Hw.
  apply read_frame_sound in Hw as (_ & Hs & _). pose proof (zlen_nonneg (ws_payload f)). lia.
Qed.

Lemma ws_drain_complete r fs ws p more fuel : ws_ready r p → Forall2 (carries r) fs ws →
  ws_pending p ++ more = ws_stream ws → (length (ws_pending p) < fuel)%nat →
  ∃ fs1 fs2 ws2 p', fs = fs1 ++ fs2 ∧ ws_drain fuel p = (fs1, p') ∧ ws_ready r p' ∧
    Forall2 (carries r) fs2 ws2 ∧ (∃ ws1, ws = ws1 ++ ws2) ∧
    ws_pending p' ++ more = ws_stream ws2 ∧ ws_partial p' ws2 ∧
    zlen (ws_buffer_ p') <= zlen (ws_buffer_ p).
Proof.
  intros Hready Hall. revert p fuel Hready.
  induction Hall as [|f w fs ws Hw Hall IH]; intros p fuel [Hwf Hrole Herr] Heq Hfuel;
    (destruct fuel as [|fuel]; [lia|]); cbn [ws_drain]; pose proof (ws_next_spec p Hwf Herr) as Hnext.
  - cbn in Heq. apply app_eq_nil in Heq as [Hp Hm]. rewrite Hp in Hnext. cbn in Hnext. rewrite Hnext.
    exists [], [], [], p. repeat split; try done; try apply Hwf; [by exists []|by rewrite Hp, Hm].
  - cbn [ws_stream concat] in Heq. pose proof (carries_nonempty r f w Hw) as Hw2. rewrite Hrole in Hnext.
    destruct (Z.lt_ge_cases (zlen (ws_pending p)) (zlen w)) as [Hlt|Hge].
    + assert (w = ws_pending p ++ ztake (zlen w - zlen (ws_pending p)) more) as Hsplit.
      { rewrite <- (ztake_app_split (zlen w)) by lia. rewrite Heq. by rewrite ztake_app. }
      assert (read_frame r (ws_pending p) = ViewMore) as Hmore.
      { eapply carries_waits; [exact Hw|symmetry; exact Hsplit|]. intros Hnil.
        rewrite Hnil, app_nil_r in Hsplit. rewrite <- Hsplit in Hlt. lia. }
      rewrite Hmore in Hnext. rewrite Hnext.
      exists [], (f :: fs), (w :: ws), p. repeat split; try done; try apply Hwf; [by constructor|by exists []].
    + assert (ws_pending p = w ++ zdrop (zlen w) (ws_pending p)) as Hp.
      { rewrite <- (ztake_zdrop (zlen w) (ws_pending p)) at 1. f_equal.
        rewrite <- (ztake_app_l (zlen w) (ws_pending p) more) by lia. rewrite Heq. by apply ztake_app. }
      assert (read_frame r (ws_pending p) = ViewFrame f (zlen w)) as Hrd by (rewrite Hp; apply Hw).
      rewrite Hrd in Hnext.
      destruct Hnext as (p' & -> & Hwf' & Hrole' & He' & Hpend & Hbuf).
      rewrite Hp, <- (assoc (++)) in Heq. apply app_inv_head in Heq. rewrite <- Hpend in Heq.
      destruct (IH p' fuel) as (fs1 & fs2 & ws2 & p'' & -> & -> & Hr2 & Hc2 & [ws1 ->] & Hs & Hpart & Hlen);
        [split; [done|congruence|done]|done| |].
      { pose proof (f_equal zlen Hp) as Hl. rewrite zlen_app, <- Hpend in Hl. unfold zlen in *. lia. }
      exists (f :: fs1), fs2, ws2, p''. repeat split; try done; try apply Hr2; [by exists (w :: ws1)|].
      destruct Hbuf as [<-|[Hnil _]]; [done|]. rewrite Hnil, zlen_nil in Hlen.
      pose proof (zlen_nonneg (ws_buffer_ p)). lia.
Qed.

Lemma ws_feed_complete r limit fs ws chunks p : ws_ready r p → Forall2 (carries r) fs ws →
  ws_partial p ws → ws_pending p ++ concat chunks = ws_stream ws →
  Forall (λ w, zlen w <= limit) ws → Forall (λ c, zlen c <= kMaxFrameBytes - limit) chunks →
  0 <= limit <= kMaxFrameBytes → zlen (ws_buffer_ p) + zlen (concat chunks) < 2 ^ 63 →
  ∃ p', ws_feed p chunks = (fs, p') ∧ ws_ready r p' ∧ ws_pending p' = [].
Proof.
  revert fs ws p; induction chunks as [|c chunks IH]; intros fs ws p Hready Hall Hpart Heq Hlim Hsmall Hl Hmem;
    cbn [ws_feed concat] in *.
  - rewrite app_nil_r in Heq. exists p. destruct Hall as [|f w fs ws Hw Hall]; [done|exfalso].
    cbn [ws_partial ws_stream concat] in *. rewrite Heq, zlen_app in Hpart.
    pose proof (zlen_nonneg (concat ws)). lia.
  - apply Forall_cons in Hsmall as [Hc Hsmall]. destruct Hready as [Hwf Hrole Herr].
    rewrite zlen_app in Hmem. pose proof (zlen_nonneg (concat chunks)).
    destruct (WsParser_append p (Some c) (zlen c)) as [b p1] eqn:Happ.
    destruct (ws_append_spec p c b p1 Hwf ltac:(lia) Happ) as (Hwf1 & Hrole1 & Hpend & Hb & Hroom & Hbuf).
    assert (zlen (ws_pending p) <= limit) as Hpl.
    { destruct Hall as [|f w fs ws Hw Hall]; cbn [ws_partial] in Hpart; [rewrite Hpart; rewrite zlen_nil; lia|].
      apply Forall_cons in Hlim as [? _]. lia. }
    rewrite (Hroom Herr ltac:(lia)) in *. destruct (Hb eq_refl) as [_ Herr1].
    specialize (Hpend Herr). rewrite (assoc (++)), <- Hpend in Heq.
    destruct (ws_drain_complete r fs ws p1 (concat chunks) (S (length (ws_pending p1))))
      as (fs1 & fs2 & ws2 & p2 & -> & -> & Hr2 & Hall2 & [ws1 ->] & Heq2 & Hpart2 & Hbuf2);
      [split; [done|congruence|done]|done|done|lia|].
    apply Forall_app in Hlim as [_ Hlim2].
    destruct (IH fs2 ws2 p2 Hr2 Hall2 Hpart2 Heq2 Hlim2 Hsmall Hl ltac:(lia)) as (p3 & -> & Hr3 & Hp3).
    by exists p3.
Qed.

(** ** SHA-1 against the padded message *)

(** The blocks of a message: the state after the whole 64-byte blocks, and
    the rest. *)
Fixpoint absorb (fuel : nat) (h : list Z) (data : bytes) : list Z * bytes :=
  match fuel with
  | O => (h, data)
  | S fuel' =>
      if zlen data <? 64 then (h, data)
      else absorb fuel' (sha_process h (ztake 64 data)) (zdrop 64 data)
  end.

Definition absorbed (h : list Z) (data : bytes) : list Z * bytes := absorb (length data) h data.

Lemma absorb_fuel fuel fuel' h data : (length data <= fuel)%nat → (length data <= fuel')%nat →
  absorb fuel h data = absorb fuel' h data.
Proof.
  revert fuel' h data; induction fuel as [|fuel IH]; intros fuel' h data Hf Hf'.
  - destruct data; [|cbn in Hf; lia]. by destruct fuel'.
  - destruct fuel' as [|fuel']; [destruct data; [done|cbn in Hf'; lia]|]. cbn [absorb].
    destruct (zlen data <? 64) eqn:Hl; [done|]. bools. unfold zlen in Hl.
    apply IH; unfold zdrop; rewrite length_drop; lia.
Qed.

Lemma absorbed_short h data : zlen data < 64 → absorbed h data = (h, data).
Proof.
  intros Hl. unfold absorbed. destruct (length data) as [|n] eqn:Hn; [done|]. cbn [absorb].
  by rewrite ltb_lt_true.
Qed.

Lemma absorbed_block h block data : zlen block = 64 →
  absorbed h (block ++ data) = absorbed (sha_process h block) data.
Proof.
  intros Hb. unfold absorbed. rewrite length_app. unfold zlen in Hb.
  destruct (length block + length data)%nat as [|n] eqn:Hn; [lia|]. cbn [absorb].
  rewrite ltb_ge_false by (rewrite zlen_app; unfold zlen; lia).
  rewrite ztake_app, zdrop_app by (unfold zlen; lia). apply absorb_fuel; lia.
Qed.

Lemma absorbed_app h x y : absorbed h (x ++ y) = let '(h', r) := absorbed h x in absorbed h' (r ++ y).
Proof.
  remember (length x) as n eqn:Hn. revert h x Hn.
  induction n as [n IH] using lt_wf_ind; intros h x Hn.
  destruct (Z.lt_ge_cases (zlen x) 64) as [Hlt|Hge]; [by rewrite (absorbed_short h x)|].
  rewrite <- (ztake_zdrop 64 x), <- (assoc (++)).
  assert (zlen (ztake 64 x) = 64) as Hb by (apply zlen_ztake; lia).
  rewrite !(absorbed_block _ _ _ Hb).
  eapply IH; [|reflexivity]. unfold zdrop, zlen in *. rewrite length_drop. lia.
Qed.

Lemma update_loop_absorbs fuel s data : (length data < fuel)%nat → zlen (sha_block s) < 64 →
  update_loop fuel s data =
    let '(h, r) := absorbed (sha_h s) (sha_block s ++ data) in mkSha1 h (sha_total s) r.
Proof.
  revert s data; induction fuel as [|fuel IH]; intros s data Hf Hb; [lia|]. cbn [update_loop].
  destruct (0 <? zlen data) eqn:Hd; bools.
  2: { assert (data = []) as -> by (apply zlen_zero; pose proof (zlen_nonneg data); lia).
       rewrite app_nil_r, absorbed_short by done. by destruct s. }
  cbv zeta. set (take := if _ <? _ then _ else _).
  assert (0 < take <= zlen data ∧ zlen (sha_block s) + take <= 64 ∧
    (take = 64 - zlen (sha_block s) ∨ take = zlen data)) as (Ht & Hfit & Hcase).
  { unfold take. destruct (_ <? zlen data) eqn:Hlt; bools; lia. }
  pose proof (zlen_nonneg (sha_block s)).
  assert (sha_block s ++ data = (sha_block s ++ ztake take data) ++ zdrop take data) as ->
    by (by rewrite <- (assoc (++)), ztake_zdrop).
  assert (zlen (sha_block s ++ ztake take data) = zlen (sha_block s) + take) as Hlen
    by (rewrite zlen_app, zlen_ztake by lia; done).
  assert (length (zdrop take data) < fuel)%nat as Hf'
    by (unfold zdrop, zlen in *; rewrite length_drop; lia).
  destruct (zlen (sha_block s ++ ztake take data) =? 64) eqn:H64; bools; rewrite IH; cbn; try done.
  - by rewrite (absorbed_block _ _ _ H64).
  - lia.
Qed.

(** The state after absorbing [m]. *)
Definition sha_of (m : bytes) : Sha1 :=
  let '(h, r) := absorbed (sha_h new_Sha1) m in mkSha1 h (u64 (zlen m)) r.

Lemma absorbed_rest h m : zlen (absorbed h m).2 = zlen m mod 64.
Proof.
  remember (length m) as n eqn:Hn. revert h m Hn. induction n as [n IH] using lt_wf_ind; intros h m Hn.
  destruct (Z.lt_ge_cases (zlen m) 64) as [Hlt|Hge].
  { rewrite absorbed_short by done. cbn. rewrite Z.mod_small; [done|]. pose proof (zlen_nonneg m). lia. }
  assert (zlen (ztake 64 m) = 64) as Hb by (apply zlen_ztake; lia).
  rewrite <- (ztake_zdrop 64 m) at 1. rewrite (absorbed_block _ _ _ Hb).
  rewrite (IH (length (zdrop 64 m))); [|unfold zdrop, zlen in *; rewrite length_drop; lia|done].
  rewrite zlen_zdrop by lia. rewrite <- (Z_mod_plus_full (zlen m - 64) 1 64). f_equal. lia.
Qed.

Lemma sha_of_block m : zlen (sha_block (sha_of m)) = zlen m mod 64.
Proof.
  unfold sha_of. pose proof (absorbed_rest (sha_h new_Sha1) m) as Hr.
  by destruct (absorbed _ m).
Qed.

Lemma sha_update_of m data : sha_update (sha_of m) data = sha_of (m ++ data).
Proof.
  unfold sha_update. pose proof (sha_of_block m) as Hb.
  rewrite update_loop_absorbs; cbn [sha_block sha_h sha_total].
  - unfold sha_of. rewrite (absorbed_app _ m data). destruct (absorbed (sha_h new_Sha1) m) as [h r].
    cbn [sha_h sha_block sha_total]. destruct (absorbed h (r ++ data)). f_equal. by rewrite zlen_app, u64_add_l.
  - lia.
  - rewrite Hb. pose proof (Z.mod_pos_bound (zlen m) 64 ltac:(lia)). lia.
Qed.

Definition zero_count (m : bytes) : Z := (56 - zlen m) mod 64.

Lemma pad_loop_of fuel m : (Z.to_nat (zero_count m) <= fuel)%nat →
  pad_loop fuel (sha_of m) = sha_of (m ++ replicate (Z.to_nat (zero_count m)) Byte.x00).
Proof.
  revert m; induction fuel as [|fuel IH]; intros m Hf.
  { assert (Z.to_nat (zero_count m) = O) as -> by lia. cbn. by rewrite app_nil_r. }
  cbn [pad_loop]. rewrite sha_of_block. unfold zero_count in *.
  pose proof (Z.mod_pos_bound (zlen m) 64 ltac:(lia)).
  destruct (zlen m mod 64 =? 56) eqn:H56; bools; cbn [negb].
  - assert ((56 - zlen m) mod 64 = 0) as ->; [|cbn; by rewrite app_nil_r].
    rewrite Zminus_mod, H56. done.
  - rewrite sha_update_of. assert ((56 - zlen m) mod 64 = (56 - (zlen m + 1)) mod 64 + 1) as Hz.
    { pose proof (Z.div_mod (zlen m) 64 ltac:(lia)). set (q := zlen m / 64) in *. set (c := zlen m mod 64) in *.
      destruct (Z.lt_ge_cases c 56).
      - rewrite <- (Z.mod_unique_pos (56 - zlen m) 64 (- q) (56 - c)) by lia.
        rewrite <- (Z.mod_unique_pos (56 - (zlen m + 1)) 64 (- q) (55 - c)) by lia. lia.
      - rewrite <- (Z.mod_unique_pos (56 - zlen m) 64 (- q - 1) (120 - c)) by lia.
        rewrite <- (Z.mod_unique_pos (56 - (zlen m + 1)) 64 (- q - 1) (119 - c)) by lia. lia. }
    pose proof (Z.mod_pos_bound (56 - (zlen m + 1)) 64 ltac:(lia)).
    rewrite IH; rewrite zlen_app, zlen_cons, zlen_nil, Z.add_0_r.
    + rewrite Hz, Z2Nat.inj_add by lia. change (Z.to_nat 1) with 1%nat. rewrite Nat.add_1_r.
      cbn [replicate]. by rewrite <- (assoc (++)).
    + lia.
Qed.

(** The padded message of RFC 3174 and the digest of its blocks. *)
Definition sha1_padded (m : bytes) : bytes :=
  let m1 := m ++ [Byte.x80] in
  m1 ++ replicate (Z.to_nat (zero_count m1)) Byte.x00 ++ length_bytes (u64 (zlen m * 8)).

Definition sha1_reference (m : bytes) : bytes :=
  flat_map word_bytes (absorbed (sha_h new_Sha1) (sha1_padded m)).1.

Lemma sha_digest_of m : sha_digest (sha_of m) = sha1_reference m.
Proof.
  unfold sha_digest. cbv zeta.
  assert (u64 (sha_total (sha_of m) * 8) = u64 (zlen m * 8)) as ->.
  { unfold sha_of. destruct (absorbed _ m). cbn. unfold u64. by rewrite Zmult_mod_idemp_l. }
  rewrite sha_update_of, pad_loop_of, sha_update_of.
  - unfold sha1_reference, sha1_padded. rewrite <- (assoc (++)). unfold sha_of at 1.
    by destruct (absorbed _ _).
  - unfold zero_count. pose proof (Z.mod_pos_bound (56 - zlen (m ++ [Byte.x80])) 64 ltac:(lia)). lia.
Qed.

Lemma sha1_padded_blocks m : zlen (sha1_padded m) mod 64 = 0 ∧
  (absorbed (sha_h new_Sha1) (sha1_padded m)).2 = [].
Proof.
  assert (zlen (sha1_padded m) mod 64 = 0) as Hz.
  { unfold sha1_padded. cbv zeta. rewrite !zlen_app. set (n := zlen m + zlen [Byte.x80]).
    change (zlen (length_bytes _)) with 8. unfold zlen at 1. rewrite length_replicate.
    unfold zero_count. rewrite zlen_app. fold n. pose proof (Z.mod_pos_bound (56 - n) 64 ltac:(lia)).
    rewrite Z2Nat.id by lia. rewrite Z.add_assoc, <- Zplus_mod_idemp_l.
    rewrite (Zplus_mod_idemp_r (56 - n) n 64). replace (n + (56 - n)) with 56 by lia. done. }
  split; [done|]. apply zlen_zero. by rewrite absorbed_rest.
Qed.

Lemma sha_process_length h chunk : length h = 5%nat → length (sha_process h chunk) = 5%nat.
Proof.
  intros Hh. unfold sha_process. cbv zeta. rewrite length_zip_with, Hh.
  assert (∀ n i w a b c d e, length (sha_rounds n i w a b c d e) = 5%nat) as ->; [|done].
  induction n as [|n IH]; intros; cbn; [done|]. apply IH.
Qed.

Lemma absorbed_length h m : length h = 5%nat → length (absorbed h m).1 = 5%nat.
Proof.
  unfold absorbed. generalize (length m) as fuel. intros fuel. revert h m.
  induction fuel as [|fuel IH]; intros h m Hh; cbn [absorb]; [done|].
  destruct (zlen m <? 64); [done|]. apply IH. by apply sha_process_length.
Qed.

Lemma sha1_reference_length m : length (sha1_reference m) = 20%nat.
Proof.
  unfold sha1_reference. pose proof (absorbed_length (sha_h new_Sha1) (sha1_padded m) eq_refl) as Hl.
  destruct (absorbed _ _) as [h r]. cbn in Hl |- *. do 5 (destruct h as [|? h]; [done|]). by destruct h.
Qed.

(** ** A base64 decoder *)

Fixpoint alphabet_index (alphabet : bytes) (c : byte) : option Z :=
  match alphabet with
  | [] => None
  | a :: rest => if bool_decide (a = c) then Some 0 else Z.succ <$> alphabet_index rest c
  end.

Definition base64_value (c : byte) : option Z := alphabet_index kBase64Alphabet c.

Fixpoint base64_decode (s : bytes) : option bytes :=
  match s with
  | [] => Some []
  | a :: b :: c :: d :: rest =>
      x ← base64_value a; y ← base64_value b;
      if bool_decide (d = EQUALS) then
        if bool_decide (c = EQUALS) then Some [to_u8 ((x * 64 + y) / 16)]
        else z ← base64_value c;
          Some [to_u8 ((x * 4096 + y * 64 + z) / 1024); to_u8 ((x * 4096 + y * 64 + z) / 4)]
      else
        z ← base64_value c; w ← base64_value d; more ← base64_decode rest;
        let v := x * 262144 + y * 4096 + z * 64 + w in
        Some (to_u8 (v / 65536) :: to_u8 (v / 256) :: to_u8 v :: more)
  | _ => None
  end.

Lemma sextet_value v shift : 0 <= v → 0 <= shift →
  base64_value (sextet v shift) = Some ((v / 2 ^ shift) mod 64) ∧ sextet v shift ≠ EQUALS.
Proof.
  intros Hv Hs. unfold sextet. change 63 with (Z.ones 6). rewrite Z.land_ones, Z.shiftr_div_pow2 by lia.
  change (2 ^ 6) with 64. set (i := (v / 2 ^ shift) mod 64).
  assert (0 <= i < 64) as Hi by (apply Z.mod_pos_bound; lia).
  assert (∀ n, (n < 64)%nat → base64_value (nth n kBase64Alphabet Byte.x00) = Some (Z.of_nat n) ∧
    nth n kBase64Alphabet Byte.x00 ≠ EQUALS) as Hall.
  { intros n Hn. do 64 (destruct n as [|n]; [split; [vm_compute; reflexivity|discriminate]|]). lia. }
  specialize (Hall (Z.to_nat i) ltac:(lia)). by rewrite Z2Nat.id in Hall by lia.
Qed.

Lemma shift_byte a k : 0 <= k <= 16 → u32 (Z.shiftl (u8 a) k) = u8 a * 2 ^ k.
Proof.
  intros Hk. pose proof (u8_range a). rewrite Z.shiftl_mul_pow2 by lia. apply Z.mod_small.
  assert (1 <= 2 ^ k <= 2 ^ 16) by (split; [change 1 with (2 ^ 0)|]; apply Z.pow_le_mono_r; lia). nia.
Qed.

(** Bytes in disjoint positions. *)
Lemma group_lor x y j : 0 <= x < 2 ^ j → 0 <= y → 0 <= j →
  Z.lor (y * 2 ^ j) x = y * 2 ^ j + x.
Proof.
  intros Hx Hy Hj. rewrite Z.lor_comm, <- Z.shiftl_mul_pow2 by lia.
  rewrite lor_shift_add by lia. rewrite Z.shiftl_mul_pow2 by lia. lia.
Qed.

Lemma to_u8_eq z a : z mod 256 = u8 a → to_u8 z = a.
Proof. intros Hz. apply u8_inj. by rewrite u8_to_u8. Qed.

Lemma base64_round_trip data : base64_decode (base64_encode data) = Some data.
Proof.
  remember (length data) as n eqn:Hn. revert data Hn. induction n as [n IH] using lt_wf_ind; intros data Hn.
  destruct data as [|a [|b [|c rest]]]; [done|..]; cbn [base64_encode base64_decode];
    pose proof (u8_range a) as Ha.
  - rewrite shift_byte by lia. set (v := u8 a * 2 ^ 16).
    destruct (sextet_value v 18) as [E1 _], (sextet_value v 12) as [E2 _]; [lia..|].
    rewrite E1. cbn [mbind option_bind]. rewrite E2. cbn [mbind option_bind].
    rewrite !bool_decide_true by done. do 2 f_equal. apply to_u8_eq. unfold v.
    Z.to_euclidean_division_equations; lia.
  - pose proof (u8_range b) as Hb. rewrite !shift_byte by lia.
    rewrite (group_lor (u8 b * 2 ^ 8) (u8 a) 16) by lia. set (v := u8 a * 2 ^ 16 + u8 b * 2 ^ 8).
    destruct (sextet_value v 18) as [E1 _], (sextet_value v 12) as [E2 _],
      (sextet_value v 6) as [E3 N3]; [lia..|].
    rewrite E1. cbn [mbind option_bind]. rewrite E2. cbn [mbind option_bind].
    rewrite bool_decide_true, bool_decide_false, E3 by done. cbn [mbind option_bind].
    unfold v. do 2 f_equal; [|f_equal]; apply to_u8_eq; Z.to_euclidean_division_equations; lia.
  - pose proof (u8_range b) as Hb. pose proof (u8_range c) as Hc. rewrite !shift_byte by lia.
    rewrite (group_lor (u8 b * 2 ^ 8) (u8 a) 16) by lia.
    replace (u8 a * 2 ^ 16 + u8 b * 2 ^ 8) with ((u8 a * 256 + u8 b) * 2 ^ 8) by lia.
    rewrite (group_lor (u8 c) (u8 a * 256 + u8 b) 8) by lia. set (v := (u8 a * 256 + u8 b) * 2 ^ 8 + u8 c).
    destruct (sextet_value v 18) as [E1 _], (sextet_value v 12) as [E2 _], (sextet_value v 6) as [E3 _],
      (sextet_value v 0) as [E4 N4]; [lia..|].
    rewrite E1. cbn [mbind option_bind]. rewrite E2. cbn [mbind option_bind].
    rewrite bool_decide_false by done. rewrite E3. cbn [mbind option_bind]. rewrite E4. cbn [mbind option_bind].
    rewrite (IH (length rest)); [|subst n; cbn; lia|done]. cbn [mbind option_bind]. cbv zeta.
    assert ((v / 2 ^ 18) mod 64 * 262144 + (v / 2 ^ 12) mod 64 * 4096 + (v / 2 ^ 6) mod 64 * 64
      + (v / 2 ^ 0) mod 64 = v) as ->.
    { assert (0 <= v < 2 ^ 24) as Hv by (unfold v; lia). clearbody v.
      Z.to_euclidean_division_equations; lia. }
    f_equal. f_equal; [|f_equal; [|f_equal]]; apply to_u8_eq; unfold v;
      Z.to_euclidean_division_equations; lia.
Qed.

(** ** Runs of the parser *)

(** [ws_reach r p s fs]: after some appends and calls of [next], the parser is
    [p], was given [s] and has delivered [fs]. *)
Inductive ws_reach (r : Role) : WsParser → bytes → list WsFrame → Prop :=
| ws_reach_new : ws_reach r (new_WsParser r) [] []
| ws_reach_append p s fs c b p' :
    ws_reach r p s fs → zlen s + zlen c < 2 ^ 63 →
    WsParser_append p (Some c) (zlen c) = (b, p') →
    ws_reach r p' (if ws_has_error p then s else s ++ c) fs
| ws_reach_frame p s fs f p' :
    ws_reach r p s fs → WsParser_next p = (kWsFrame f, p') → ws_reach r p' s (fs ++ [f])
| ws_reach_none p s fs res p' :
    ws_reach r p s fs → WsParser_next p = (res, p') → (∀ f, res ≠ kWsFrame f) → ws_reach r p' s fs.

(** [seg] holds [f]. *)
Definition holds_frame (r : Role) (f : WsFrame) (seg : bytes) : Prop :=
  ∃ rest, read_frame r (seg ++ rest) = ViewFrame f (zlen seg).

Record ws_inv (r : Role) (p : WsParser) (s : bytes) (fs : list WsFrame) : Prop := {
  inv_wf : ws_wf p;
  inv_role : role_ p = r;
  inv_held : zlen (ws_buffer_ p) <= zlen s;
  inv_split : ∃ segs, s = concat segs ++ ws_pending p ∧ Forall2 (holds_frame r) fs segs;
  inv_unread : ws_error_ p = ""%string → zlen (ws_pending p) <= kMaxFrameBytes
}.

Lemma ws_append_inv r p s fs c b p' : ws_inv r p s fs → zlen s + zlen c < 2 ^ 63 →
  WsParser_append p (Some c) (zlen c) = (b, p') →
  ws_inv r p' (if ws_has_error p then s else s ++ c) fs.
Proof.
  intros [Hwf Hrole Hheld (segs & Hs & Hsegs) Hun] Hmem Happ.
  destruct (ws_append_spec p c b p' Hwf ltac:(lia) Happ) as (Hwf' & Hr' & Hpend & _ & _ & Hbuf).
  destruct (ws_has_error p) eqn:He.
  - unfold WsParser_append in Happ. rewrite He in Happ. injection Happ as <- <-.
    split; try done. by exists segs.
  - unfold ws_has_error in He. bools. specialize (Hpend He). split; [done|congruence|rewrite zlen_app; lia| |].
    + exists segs. split; [|done]. by rewrite Hpend, Hs, <- (assoc (++)).
    + intros He'. revert Happ. unfold WsParser_append. rewrite (ws_no_error p He).
      destruct (zlen c =? 0); [intros [= <- <-]; auto|]. cbv zeta.
      cbn [ws_buffer_ ws_offset_]. destruct Hwf as [Hoff Hm]. rewrite ztake_all, zlen_app.
      pose proof (zlen_nonneg c). rewrite u64_small by lia.
      destruct (kMaxFrameBytes <? _) eqn:Hlim; intros [= <- <-]; [done|]. bools.
      unfold ws_pending. cbn [ws_buffer_ ws_offset_]. rewrite zlen_zdrop, zlen_app; [lia|].
      rewrite zlen_app. lia.
Qed.

Lemma ws_next_inv r p s fs res p' : ws_inv r p s fs → WsParser_next p = (res, p') →
  match res with kWsFrame f => ws_frame_ok f ∧ ws_inv r p' s (fs ++ [f]) | _ => ws_inv r p' s fs end.
Proof.
  intros [Hwf Hrole Hheld (segs & Hs & Hsegs) Hun] Hnext.
  destruct (ws_has_error p) eqn:He.
  { unfold WsParser_next in Hnext. rewrite He in Hnext. injection Hnext as <- <-.
    split; try done. by exists segs. }
  unfold ws_has_error in He. bools. pose proof (ws_next_spec p Hwf He) as Hspec.
  destruct (read_frame (role_ p) (ws_pending p)) as [|m|f size] eqn:Hr.
  - rewrite Hnext in Hspec. injection Hspec as -> ->. split; try done. by exists segs.
  - rewrite Hnext in Hspec. injection Hspec as -> ->. split; try done; [by destruct Hwf|by exists segs|].
    cbn. intros Hm. specialize (Hun He). done.
  - destruct Hspec as (p1 & Heq & Hwf1 & Hr1 & He1 & Hpend & Hbuf). rewrite Hnext in Heq.
    injection Heq as -> ->. destruct (read_frame_sound _ _ _ _ Hr) as (Hok & Hsize & _). split; [done|].
    pose proof (zlen_nonneg (ws_payload f)). specialize (Hun He).
    split; [done|congruence| | |].
    + destruct Hbuf as [->|[-> _]]; [done|]. rewrite zlen_nil. apply zlen_nonneg.
    + exists (segs ++ [ztake size (ws_pending p)]). split.
      * rewrite concat_app, <- (assoc (++)). cbn [concat]. rewrite app_nil_r, Hpend, ztake_zdrop. done.
      * apply Forall2_app; [done|]. constructor; [|done]. exists (zdrop size (ws_pending p)).
        rewrite ztake_zdrop, zlen_ztake by lia. by rewrite <- Hrole.
    + intros _. rewrite Hpend, zlen_zdrop by lia. lia.
Qed.

Lemma ws_reach_inv r p s fs : ws_reach r p s fs → ws_inv r p s fs ∧ Forall ws_frame_ok fs.
Proof.
  induction 1 as [|p s fs c b p' Hr [IH Hok] Hmem Happ|p s fs f p' Hr [IH Hok] Hn
    |p s fs res p' Hr [IH Hok] Hn Hres].
  - split; [|done]. split; cbn; try done. by exists [].
  - split; [by eapply ws_append_inv|done].
  - apply (ws_next_inv r p s fs _ _ IH) in Hn as [Hf Hi]. split; [done|].
    apply Forall_app. split; [done|]. by constructor.
  - apply (ws_next_inv r p s fs _ _ IH) in Hn. destruct res as [|f|]; [done|by destruct (Hres f)|done].
Qed.

Lemma encoded_carries f role mask o w : encode f role mask o = Some w → zlen w <= kMaxFrameBytes →
  carries (opposite role) f w.
Proof.
  intros Henc Hw rest. eapply read_encoded; [exact Henc|].
  apply encode_shape in Henc as (_ & _ & ->). rewrite zlen_cons, zlen_app in Hw.
  assert (zlen (ws_payload f) <= zlen (encoded_body role mask (ws_payload f))).
  { unfold encoded_body. case_match; [|done]. rewrite zlen_app. unfold zlen at 3. rewrite length_imap.
    pose proof (zlen_nonneg (mask_bytes mask)). unfold zlen in *. lia. }
  pose proof (zlen_nonneg (length_part (role_bit role) (zlen (ws_payload f)))). lia.
Qed.

(** ** Properties *)


Definition sample_ws_frames : list WsFrame :=
  [mkWsFrame true kText (bs "hello"); mkWsFrame true kPing []].
Definition sample_ws_wire : list bytes :=
  map (λ f, default [] (encode f kClient 0x01020304 (Some []))) sample_ws_frames.


(** What a WebSocket parser delivers was received: the input is the
    delivered frames' bytes followed by the unread bytes, every frame has a
    defined opcode and at most 64 MiB, control frames are whole and short, and
    without an error at most 64 MiB are unread. *)
Theorem ws_parser_sound r p s fs : ws_reach r p s fs →
  Forall ws_frame_ok fs ∧ (ws_error_ p = ""%string → zlen (ws_pending p) <= kMaxFrameBytes) ∧
  ∃ segs, s = concat segs ++ ws_pending p ∧ Forall2 (holds_frame r) fs segs.
Proof.
  intros Hr. destruct (ws_reach_inv r p s fs Hr) as [[_ _ _ Hsplit Hun] Hok]. done.
Qed.

Lemma ws_parser_sound_witness :
  let p1 := (WsParser_append (new_WsParser kServer) (Some (concat sample_ws_wire))
               (zlen (concat sample_ws_wire))).2 in
  Forall ws_frame_ok [mkWsFrame true kText (bs "hello")].
Proof.
  intros p1. apply (ws_parser_sound kServer (WsParser_next p1).2 (concat sample_ws_wire)).
  apply (ws_reach_frame kServer p1 (concat sample_ws_wire) []); [|vm_compute; reflexivity].
  apply (ws_reach_append kServer (new_WsParser kServer) [] [] (concat sample_ws_wire) true p1);
    [constructor|vm_compute; reflexivity|vm_compute; reflexivity].
Defined.

(** The handshake answer is the one of RFC 6455: for every client key,
    the streaming SHA-1 gives the digest of the padded message of key and GUID,
    whose length is a whole number of blocks, and the accept key is its base64
    text of 28 characters, which decodes back to that digest. *)
Theorem accept_key_exact key :
  let digest := sha1_reference (key ++ kGuid) in
  compute_accept_key key = base64_encode digest ∧ zlen (sha1_padded (key ++ kGuid)) mod 64 = 0 ∧
  zlen (compute_accept_key key) = 28 ∧ base64_decode (compute_accept_key key) = Some digest ∧
  compute_accept_key (bs "dGhlIHNhbXBsZSBub25jZQ==") = bs "s3pPLMBiTxaQ9kYGzzhZRbK+xOo=".
Proof.
  cbv zeta. assert (compute_accept_key key = base64_encode (sha1_reference (key ++ kGuid))) as Heq.
  { unfold compute_accept_key. change new_Sha1 with (sha_of []). rewrite !sha_update_of. cbn [app].
    by rewrite sha_digest_of. }
  split; [done|]. split; [apply sha1_padded_blocks|]. rewrite Heq, base64_round_trip.
  split; [|split; [done|vm_compute; reflexivity]].
  pose proof (sha1_reference_length (key ++ kGuid)) as Hl.
  destruct (sha1_reference (key ++ kGuid)) as [|b0 [|b1 [|b2 [|b3 [|b4 [|b5 [|b6 [|b7 [|b8 [|b9 [|b10
    [|b11 [|b12 [|b13 [|b14 [|b15 [|b16 [|b17 [|b18 [|b19 [|]]]]]]]]]]]]]]]]]]]]]; done.
Qed.
