(* ===== verification/ReadyProof.v ===== *)
(** * ReadyProof: the READY payload of a worker (src/ipc_validation.cc, src/host/binding_compile.cc)

    A worker announces READY with its 71-byte compatibility id, followed, when
    it has bindings, by the sandbox proof. [append_ready_proof] is the worker's
    encoder, [parse_ready_proof] the Host's decoder and [verify_worker_ready]
    the comparison with what the Host expects. An [std::string *error] is an
    optional text, [None] where the function returned true. *)
From Stdlib Require Import ZArith Lia.
From S2P Require Import Prelude Wire.
Local Open Scope Z_scope.

Record WorkerReadyProof := mkReadyProof {
  extended : bool;
  applied_feature_bits : Z;             (* uint32_t *)
  seccomp_mode : Z;                     (* uint32_t *)
  landlock_abi : Z;                     (* uint32_t *)
  network_namespace_identity : bytes;
  sandbox_profile_digest : bytes
}.

Definition no_proof : WorkerReadyProof := mkReadyProof false 0 0 0 [] [].

(** [text.rfind("sha256:", 0) == 0]. *)
Definition starts_sha256 (text : bytes) : bool := bool_decide (ztake 7 text = bs "sha256:").

Definition append_ready_proof (payload : bytes) (feature_bits mode abi : Z)
    (namespace_identity digest : bytes) : option bytes :=
  if negb (bool_decide (digest = []))
     && (negb (zlen digest =? 71) || negb (starts_sha256 digest)) then None
  else if bool_decide (digest = []) then Some payload
  else if 65535 <? zlen namespace_identity then None
  else
    let payload := append_u32 payload feature_bits in
    let payload := append_u32 payload mode in
    let payload := append_u32 payload abi in
    let payload := append_u16 payload (u16 (zlen namespace_identity)) in
    Some (payload ++ namespace_identity ++ digest).

(** The out-parameters keep what was assigned before a failure. *)
Definition parse_ready_proof (payload : bytes)
    : option string * bytes * WorkerReadyProof :=
  if zlen payload <? 71 then (Some "truncated READY payload"%string, [], no_proof)
  else
    let compatibility_id := ztake 71 payload in
    if zlen payload =? 71 then (None, compatibility_id, no_proof)
    else match read_u32 (zdrop 71 payload) with
    | None => (Some "truncated READY proof"%string, compatibility_id, no_proof)
    | Some (bits, cursor) =>
    match read_u32 cursor with
    | None => (Some "truncated READY proof"%string, compatibility_id, mkReadyProof false bits 0 0 [] [])
    | Some (mode, cursor) =>
    match read_u32 cursor with
    | None =>
        (Some "truncated READY proof"%string, compatibility_id, mkReadyProof false bits mode 0 [] [])
    | Some (abi, cursor) =>
        let partial ns digest := mkReadyProof false bits mode abi ns digest in
        match read_u16 cursor with
        | None =>
            (Some "truncated READY namespace identity"%string, compatibility_id, partial [] [])
        | Some (namespace_size, cursor) =>
            if zlen cursor <? namespace_size + 71 then
              (Some "truncated READY namespace identity"%string, compatibility_id, partial [] [])
            else
              let ns := ztake namespace_size cursor in
              let cursor := zdrop namespace_size cursor in
              if negb (zlen cursor =? 71) then
                (Some "invalid READY profile digest length"%string, compatibility_id, partial ns [])
              else
                let digest := ztake 71 cursor in
                if negb (starts_sha256 digest) then
                  (Some "invalid READY profile digest"%string, compatibility_id, partial ns digest)
                else (None, compatibility_id, mkReadyProof true bits mode abi ns digest)
        end
    end end end.

Definition verify_worker_ready (payload compatibility_id : bytes) (expected : WorkerReadyProof)
    : option string :=
  match parse_ready_proof payload with
  | (Some proof_error, _, _) =>
      Some ("worker READY payload is malformed: " +:+ proof_error)%string
  | (None, reported_compat, proof) =>
      if negb (bool_decide (reported_compat = compatibility_id)) then
        Some "worker compatibility mismatch"%string
      else if negb (eqb (extended proof) (extended expected)) then
        Some (if extended expected then "binding worker READY lacks the sandbox proof"
              else "zero-binding worker reported an extended READY")%string
      else if negb (extended expected) then None
      else if negb (applied_feature_bits proof =? applied_feature_bits expected) then
        Some "worker READY applied sandbox features mismatch"%string
      else if negb (bool_decide (sandbox_profile_digest proof = sandbox_profile_digest expected)) then
        Some "worker READY profile digest mismatch"%string
      else if negb (seccomp_mode proof =? seccomp_mode expected) then
        Some "worker READY seccomp mode mismatch"%string
      else if negb (landlock_abi proof =? landlock_abi expected) then
        Some "worker READY Landlock ABI mismatch"%string
      else if negb (bool_decide
          (network_namespace_identity proof = network_namespace_identity expected)) then
        Some "worker READY network namespace identity mismatch"%string
      else None
  end.

(** What the fields of an expected proof can hold: [expected_ready_proof] sets
    [extended] with the digest, and the integers are 32-bit. *)
Record proof_typed (p : WorkerReadyProof) : Prop := {
  typed_extended : extended p = negb (bool_decide (sandbox_profile_digest p = []));
  typed_bits : 0 <= applied_feature_bits p < 2 ^ 32;
  typed_mode : 0 <= seccomp_mode p < 2 ^ 32;
  typed_abi : 0 <= landlock_abi p < 2 ^ 32
}.

(** The worker's payload for a proof. *)
Definition ready_payload (compatibility_id : bytes) (p : WorkerReadyProof) : option bytes :=
  append_ready_proof compatibility_id (applied_feature_bits p) (seccomp_mode p) (landlock_abi p)
    (network_namespace_identity p) (sandbox_profile_digest p).

(** The bytes of an extended payload. *)
Lemma ready_payload_extended compat p payload : extended p = true → proof_typed p →
  ready_payload compat p = Some payload ↔
    zlen (sandbox_profile_digest p) = 71 ∧ starts_sha256 (sandbox_profile_digest p) = true
    ∧ zlen (network_namespace_identity p) <= 65535
    ∧ payload = compat ++ le_bytes 4 (applied_feature_bits p) ++ le_bytes 4 (seccomp_mode p)
        ++ le_bytes 4 (landlock_abi p) ++ le_bytes 2 (zlen (network_namespace_identity p))
        ++ network_namespace_identity p ++ sandbox_profile_digest p.
Proof.
  intros Hx Ht. pose proof (typed_extended p Ht) as Hd. rewrite Hx in Hd.
  unfold ready_payload, append_ready_proof. zlen_pose.
  destruct (bool_decide (_ = [])); [done|]. cbn [negb andb].
  destruct (zlen (sandbox_profile_digest p) =? 71) eqn:H1; cbn [negb orb]; bools;
    [|split; [done|intros (? & _); lia]].
  destruct (starts_sha256 _); cbn [negb]; [|split; [done|intros (_ & ? & _); done]].
  destruct (65535 <? _) eqn:H2; bools; [split; [done|intros (_ & _ & ? & _); lia]|].
  rewrite u16_small by lia. autorewrite with wire. rewrite <- !(assoc (++)).
  split; [intros [= <-]; done|by intros (_ & _ & _ & ->)].
Qed.

(** What the decoder accepts, as the fields it decoded. *)
Lemma parse_ready_inv payload compat p : parse_ready_proof payload = (None, compat, p) →
  zlen compat = 71 ∧ proof_typed p ∧ ready_payload compat p = Some payload
  ∧ (extended p = false → p = no_proof).
Proof.
  unfold parse_ready_proof. destruct (zlen payload <? 71) eqn:H0; [done|]. bools.
  assert (zlen (ztake 71 payload) = 71) as Hc by (apply zlen_ztake; lia).
  destruct (zlen payload =? 71) eqn:H1; bools.
  { intros [= <- <-]. split; [done|]. split; [by split|].
    pose proof (ztake_all payload) as Ha. rewrite H1 in Ha. by rewrite Ha. }
  destruct (read_u32 _) as [[bits c1]|] eqn:E1; [|done].
  destruct (read_u32 c1) as [[mode c2]|] eqn:E2; [|done].
  destruct (read_u32 c2) as [[abi c3]|] eqn:E3; [|done].
  destruct (read_u16 c3) as [[n c4]|] eqn:E4; [|done].
  apply read_u32_inv in E1 as [E1 ?]. apply read_u32_inv in E2 as [-> ?].
  apply read_u32_inv in E3 as [-> ?]. apply read_u16_inv in E4 as [-> ?].
  destruct (zlen c4 <? n + 71) eqn:H5; [done|].
  destruct (zlen (zdrop n c4) =? 71) eqn:H6; [|done]. cbn [negb].
  destruct (starts_sha256 (ztake 71 (zdrop n c4))) eqn:H7; [|done].
  intros [= <- <-]. bools.
  assert (ztake 71 (zdrop n c4) = zdrop n c4) as Hd by (rewrite <- H6 at 1; apply ztake_all).
  rewrite Hd in *. split; [done|].
  assert (proof_typed (mkReadyProof true bits mode abi (ztake n c4) (zdrop n c4))) as Ht.
  { split; try done. cbn. destruct (zdrop n c4); done. }
  split; [done|]. split; [|done]. apply ready_payload_extended; [done|done|].
  cbn [applied_feature_bits seccomp_mode landlock_abi network_namespace_identity
    sandbox_profile_digest].
  rewrite zlen_ztake by lia. split; [done|]. split; [done|]. split; [lia|].
  rewrite ztake_zdrop, <- E1. by rewrite ztake_zdrop.
Qed.

Lemma parse_ready_payload compat p payload : zlen compat = 71 → proof_typed p →
  ready_payload compat p = Some payload →
  parse_ready_proof payload = (None, compat, if extended p then p else no_proof).
Proof.
  intros Hc Ht Hp. unfold parse_ready_proof. destruct (extended p) eqn:Hx.
  - apply ready_payload_extended in Hp as (Hd & Hs & Hn & ->); [|done|done]. zlen_pose.
    rewrite ltb_ge_false by (autorewrite with zlist wire; lia).
    rewrite eqb_ne_false by (autorewrite with zlist wire; lia).
    rewrite ztake_app, zdrop_app by done. destruct Ht.
    rewrite !read_u32_le by done. rewrite read_u16_le by lia.
    rewrite ltb_ge_false by (rewrite zlen_app; lia).
    rewrite zdrop_app, ztake_app by done. rewrite Hd. cbn [negb Z.eqb Pos.eqb].
    replace (ztake 71 (sandbox_profile_digest p)) with (sandbox_profile_digest p)
      by (rewrite <- Hd; by rewrite ztake_all).
    rewrite Hs. cbn [negb]. rewrite <- Hx. by destruct p.
  - unfold ready_payload, append_ready_proof in Hp. rewrite (typed_extended p Ht) in Hx.
    destruct (bool_decide (sandbox_profile_digest p = [])); [|done].
    cbn [negb andb] in Hp. injection Hp as <-. rewrite Hc. cbn.
    by rewrite <- Hc, ztake_all.
Qed.

(** ** Properties *)

(** A worker is accepted as READY exactly when its payload is, byte for
    byte, what [append_ready_proof] writes for the proof the Host expects after
    the Host's compatibility id: no field can be missing, different, or hidden
    behind another encoding, and the payload an honest worker sends is
    accepted. *)
Theorem ready_accepts_exactly payload compat expected :
  zlen compat = 71 → proof_typed expected →
  verify_worker_ready payload compat expected = None
    ↔ ready_payload compat expected = Some payload.
Proof.
  intros Hc Ht. split.
  - unfold verify_worker_ready.
    destruct (parse_ready_proof payload) as [[[e|] rc] p] eqn:Ep; [done|].
    apply parse_ready_inv in Ep as (_ & Htp & Hp & Hbase).
    destruct (bool_decide (rc = compat)) eqn:H1; [|done]. bools. subst rc. cbn [negb].
    destruct (eqb _ _) eqn:Hx; [|done]. apply eqb_prop in Hx. cbn [negb].
    destruct (extended expected) eqn:Hxe; cbn [negb].
    + repeat (case_match; [done|]). bools. intros _. rewrite <- Hp. unfold ready_payload.
      congruence.
    + intros _. rewrite Hbase in Hp by done. rewrite <- Hp. rewrite (typed_extended _ Ht) in Hxe.
      unfold ready_payload, append_ready_proof. by destruct (bool_decide (sandbox_profile_digest expected = [])).
  - intros Hp. unfold verify_worker_ready.
    rewrite (parse_ready_payload compat expected payload) by done.
    rewrite bool_decide_true by done. cbn [negb].
    destruct (extended expected) eqn:Hx; [|done]. rewrite Hx. cbn [eqb negb].
    by rewrite !Z.eqb_refl, !bool_decide_true by done.
Qed.

Definition sample_compat : bytes := bs "sha256:" ++ replicate 64 Byte.x61.
Definition sample_proof : WorkerReadyProof :=
  mkReadyProof true 7 2 3 (bs "net:[1]") (bs "sha256:" ++ replicate 64 Byte.x30).

Lemma ready_accepts_exactly_witness :
  zlen sample_compat = 71 ∧ proof_typed sample_proof
  ∧ (verify_worker_ready
       (default [] (ready_payload sample_compat sample_proof)) sample_compat sample_proof = None
     ↔ ready_payload sample_compat sample_proof
         = Some (default [] (ready_payload sample_compat sample_proof))).
Proof.
  assert (zlen sample_compat = 71) as Hc by done.
  assert (proof_typed sample_proof) as Ht by (by split).
  split; [exact Hc|]. split; [exact Ht|]. exact (ready_accepts_exactly _ _ _ Hc Ht).
Defined.
