(* ===== verification/WorkerExecutor.v ===== *)
(** * WorkerExecutor: one worker process behind two threads (src/host/worker_executor.cc)

    The owner thread submits commands and drains events; the worker thread owns
    the Runtime handle, executes the commands, decodes the Runtime's events and
    reaps the worker. Both are modelled: the owner's calls as functions on the
    executor, the worker thread as a program counter [Pc] with one step per
    critical section of [worker_thread_main], and an interleaving of the two as
    a list of labels ([run]).

    The Runtime's C functions are the environment: [answer] gives the result of
    a call, [incoming] that of [capsid_worker_next_event], both chosen freely at
    every step. [calls] records the calls that were made. Payload decoding
    beyond this file (response header lists, json_dumps) and the build's
    compatibility id are the record [Externals]. Metrics and stderr output are
    left out; the notifier is counted. *)
From Stdlib Require Import ZArith Lia.
From S2P Require Import Prelude Wire Protocol Jansson ReadyProof.
Local Open Scope Z_scope.

(** ** Data of worker_executor.h and runtime.h *)

Definition kReadyTimeout : Z := 10000.
Definition kShutdownGrace : Z := 2000.
Definition kProbeRequestIdBase : Z := Z.shiftl 1 62.
Definition kProbeResponseBodyCap : Z := 4096.

Inductive CommandType :=
| Command_kBeginRequest | Command_kWriteRequest | Command_kEndRequest | Command_kCancel
| Command_kGrantResponseCredit | Command_kShutdown | Command_kProbeRequest | Command_kProbeCancel.

#[export] Instance CommandType_eq_dec : EqDecision CommandType.
Proof. solve_decision. Defined.

Record Command := mkCommand {
  command_type : CommandType;
  command_id : Z;                         (* request_id *)
  command_method : bytes;
  command_url : bytes;
  command_headers : list (bytes * bytes);
  command_body : bytes;
  command_credit : Z;
  end_request : bool;
  command_probe_id : Z
}.

(** The default-constructed command with its type and request id. *)
Definition new_Command (t : CommandType) (id : Z) : Command :=
  mkCommand t id [] [] [] [] 0 false 0.

Record ProbeState := mkProbeState {
  in_flight : bool;
  complete : bool;
  healthy : bool;
  probe_state_status : Z;
  probe_state_body_bytes : Z
}.

Inductive EventType :=
| Event_kRequestCredit | Event_kResponseHead | Event_kResponseBody | Event_kResponseEnd
| Event_kLog | Event_kError | Event_kExit | Event_kRequestTimeout | Event_kRequestFailure.

#[export] Instance EventType_eq_dec : EqDecision EventType.
Proof. solve_decision. Defined.

Record WorkerEvent := mkWorkerEvent {
  event_type : EventType;
  event_id : Z;                           (* request_id *)
  event_credit : Z;
  event_status : Z;                       (* uint16_t *)
  fixed_body : bool;
  fixed_body_size : Z;
  event_headers : list (bytes * bytes);
  event_body : bytes;
  event_text : bytes;
  binding_log : bool;
  log_level : bytes;
  binding_id : bytes;
  log_fields_json : bytes;
  event_application_id : bytes;
  event_generation_digest : bytes
}.

Definition new_WorkerEvent (t : EventType) (id : Z) : WorkerEvent :=
  mkWorkerEvent t id 0 0 false 0 [] [] [] false [] [] [] [] [].

Inductive capsid_result :=
| CAPSID_OK | CAPSID_WOULD_BLOCK | CAPSID_CLOSED | CAPSID_INVALID_ARGUMENT
| CAPSID_PROTOCOL_ERROR | CAPSID_SYSTEM_ERROR | CAPSID_CHILD_ERROR | CAPSID_OUT_OF_MEMORY
| CAPSID_INTERNAL_ERROR.

#[export] Instance capsid_result_eq_dec : EqDecision capsid_result.
Proof. solve_decision. Defined.

Inductive capsid_event_type :=
| CAPSID_EVENT_NONE | CAPSID_EVENT_READY | CAPSID_EVENT_REQUEST_CREDIT
| CAPSID_EVENT_RESPONSE_HEAD | CAPSID_EVENT_RESPONSE_BODY | CAPSID_EVENT_RESPONSE_END
| CAPSID_EVENT_LOG | CAPSID_EVENT_ERROR | CAPSID_EVENT_EXIT | CAPSID_EVENT_REQUEST_TIMEOUT
| CAPSID_EVENT_AUDIT | CAPSID_EVENT_MEMORY_METRICS.

#[export] Instance capsid_event_type_eq_dec : EqDecision capsid_event_type.
Proof. solve_decision. Defined.

(** [payload] is [None] for a null pointer with a non-zero size. *)
Record capsid_event := mkCapsidEvent {
  type : capsid_event_type;
  request_id : Z;                         (* uint64_t *)
  flags : Z;                              (* uint32_t *)
  status : Z;                             (* uint32_t *)
  credit : Z;                             (* uint32_t *)
  payload : option bytes
}.

Definition payload_bytes (event : capsid_event) : bytes := default [] (payload event).

Definition CAPSID_RESPONSE_HEAD_FLAG_FIXED_BODY : Z := 1.

(** The calls of the Runtime API the executor makes. *)
Inductive ApiCall :=
| call_begin_request (bodyless : bool) (id : Z) (method url : bytes) (headers : list (bytes * bytes))
| call_write_request (id : Z) (body : bytes)
| call_end_request (id : Z)
| call_cancel (id : Z)
| call_grant_response_credit (id credit : Z)
| call_shutdown
| call_flush
| call_terminate
| call_destroy.

(** What the executor's functions use of code outside this file. *)
Record Externals (real : Type) := mkExternals {
  (** json_dumps with COMPACT, ENSURE_ASCII and SORT_KEYS; [None] is null. *)
  json_dumps : json real → option bytes;
  (** capsid_response_header_count and _at: [None] where the count fails, and
      [None] for an entry that cannot be read. *)
  response_headers : capsid_event → option (list (option (bytes * bytes)));
  (** capsid_runtime_build_info: [None] where it fails or has no id. *)
  build_compatibility_id : option bytes
}.

Arguments json_dumps {real} _ _.
Arguments response_headers {real} _ _.
Arguments build_compatibility_id {real} _.
Arguments mkExternals {real} _ _ _.

(** ** The executor

    The fields of the class, grouped. *)

(** [wake_byte] is that the wake pipe of the event source holds a byte. *)
Record Bridge := mkBridge {
  commands : list Command;
  events : list WorkerEvent;
  canceled : gset Z;
  retire_pending : gset Z;
  wake_byte : bool
}.

Record InflightCount := mkInflight {
  inflight_ids : gset Z;
  inflight_ : Z                           (* uint64_t *)
}.

Record Probe := mkProbe {
  next_probe_id : Z;
  probe_in_flight : bool;
  probe_complete : bool;
  probe_healthy : bool;
  probe_status : Z;
  probe_body_bytes : Z;
  probe_id : Z
}.

Record Readiness := mkReadiness {
  ready : bool;
  ready_match : bool;
  ready_error : string;
  expected_ready : WorkerReadyProof;
  ready_proof : WorkerReadyProof
}.

Record Life := mkLife {
  started : bool;
  shutdown_requested : bool;
  destroying : bool;
  exited_ : bool;
  exit_event_queued : bool;
  worker_ : bool;                         (* worker_ != nullptr *)
  shutdown_deadline : option Z            (* ms *)
}.

Record WorkerExecutor := mkExecutor {
  bridge : Bridge;
  inflight_count : InflightCount;
  probe : Probe;
  readiness : Readiness;
  life : Life;
  log_application_id : bytes;
  log_generation_digest : bytes;
  notifications : Z;                      (* calls of notifier_ so far *)
  calls : list ApiCall                    (* Runtime calls so far, oldest first *)
}.

Definition new_WorkerExecutor : WorkerExecutor :=
  mkExecutor (mkBridge [] [] ∅ ∅ false) (mkInflight ∅ 0)
    (mkProbe kProbeRequestIdBase false false false 0 0 0)
    (mkReadiness false false "" no_proof no_proof)
    (mkLife false false false false false false None) [] [] 0 [].

Definition set_bridge (e : WorkerExecutor) (b : Bridge) : WorkerExecutor :=
  mkExecutor b (inflight_count e) (probe e) (readiness e) (life e) (log_application_id e)
    (log_generation_digest e) (notifications e) (calls e).
Definition set_inflight (e : WorkerExecutor) (i : InflightCount) : WorkerExecutor :=
  mkExecutor (bridge e) i (probe e) (readiness e) (life e) (log_application_id e)
    (log_generation_digest e) (notifications e) (calls e).
Definition set_probe (e : WorkerExecutor) (p : Probe) : WorkerExecutor :=
  mkExecutor (bridge e) (inflight_count e) p (readiness e) (life e) (log_application_id e)
    (log_generation_digest e) (notifications e) (calls e).
Definition set_readiness (e : WorkerExecutor) (r : Readiness) : WorkerExecutor :=
  mkExecutor (bridge e) (inflight_count e) (probe e) r (life e) (log_application_id e)
    (log_generation_digest e) (notifications e) (calls e).
Definition set_life (e : WorkerExecutor) (l : Life) : WorkerExecutor :=
  mkExecutor (bridge e) (inflight_count e) (probe e) (readiness e) l (log_application_id e)
    (log_generation_digest e) (notifications e) (calls e).
Definition notify (e : WorkerExecutor) : WorkerExecutor :=
  mkExecutor (bridge e) (inflight_count e) (probe e) (readiness e) (life e) (log_application_id e)
    (log_generation_digest e) (notifications e + 1) (calls e).
Definition called (e : WorkerExecutor) (c : ApiCall) : WorkerExecutor :=
  mkExecutor (bridge e) (inflight_count e) (probe e) (readiness e) (life e) (log_application_id e)
    (log_generation_digest e) (notifications e) (calls e ++ [c]).

Definition set_commands (e : WorkerExecutor) (cs : list Command) : WorkerExecutor :=
  let b := bridge e in
  set_bridge e (mkBridge cs (events b) (canceled b) (retire_pending b) (wake_byte b)).
Definition set_events (e : WorkerExecutor) (evs : list WorkerEvent) : WorkerExecutor :=
  let b := bridge e in
  set_bridge e (mkBridge (commands b) evs (canceled b) (retire_pending b) (wake_byte b)).
Definition set_canceled (e : WorkerExecutor) (c : gset Z) : WorkerExecutor :=
  let b := bridge e in
  set_bridge e (mkBridge (commands b) (events b) c (retire_pending b) (wake_byte b)).
Definition set_wake (e : WorkerExecutor) (w : bool) : WorkerExecutor :=
  let b := bridge e in
  set_bridge e (mkBridge (commands b) (events b) (canceled b) (retire_pending b) w).

(** ** Decoding a log event *)

Definition valid_binding_id (value : bytes) : bool :=
  if bool_decide (value = []) || (63 <? zlen value) then false
  else if (byte_at value 0 <? 97) || (122 <? byte_at value 0) then false
  else forallb (λ c, ((97 <=? u8 c) && (u8 c <=? 122)) || ((48 <=? u8 c) && (u8 c <=? 57))
                     || (u8 c =? 45)) value.

(** The two length-prefixed readers. *)
Definition read_string16 (cursor : bytes) : option (bytes * bytes) :=
  match read_u16 cursor with
  | None => None
  | Some (size, cursor) =>
      if zlen cursor <? size then None else Some (ztake size cursor, zdrop size cursor)
  end.

Definition read_string32 (cursor : bytes) : option (bytes * bytes) :=
  match read_u32 cursor with
  | None => None
  | Some (size, cursor) =>
      if zlen cursor <? size then None else Some (ztake size cursor, zdrop size cursor)
  end.

Definition kMaxLogText : Z := 16 * 1024.

Definition valid_log_level (level : bytes) : bool :=
  bool_decide (level = bs "debug") || bool_decide (level = bs "info")
  || bool_decide (level = bs "warn") || bool_decide (level = bs "error").

(** The four strings of an envelope, which must use up the payload. *)
Definition read_envelope (cursor : bytes) : option (bytes * bytes * bytes * bytes) :=
  match read_string16 cursor with
  | None => None
  | Some (id, cursor) =>
  match read_string16 cursor with
  | None => None
  | Some (level, cursor) =>
  match read_string32 cursor with
  | None => None
  | Some (text, cursor) =>
  match read_string32 cursor with
  | None => None
  | Some (fields, cursor) =>
      if bool_decide (cursor = []) then Some (id, level, text, fields) else None
  end end end end.

Definition log_fields_flags : load_flags := mkFlags true false true false false.

Section executor.
Context {real : Type} `{Strtod real} (x : Externals real).
Implicit Types e : WorkerExecutor.

(** The error text, or the decoded event. *)
Definition decode_worker_log_event (event : capsid_event) : string + WorkerEvent :=
  if negb (bool_decide (type event = CAPSID_EVENT_LOG)) then inl ""%string
  else if flags event =? 0 then
    match payload event with
    | None => inl "invalid application log payload"%string
    | Some text =>
        inr (mkWorkerEvent Event_kLog (request_id event) 0 0 false 0 [] [] text false [] [] [] [] [])
    end
  else if negb (flags event =? kFlagBindingLog) || bool_decide (payload_bytes event = []) then
    inl "invalid Binding log flags or payload"%string
  else match read_envelope (payload_bytes event) with
  | None => inl "invalid Binding log envelope"%string
  | Some (id, level, text, fields) =>
      if negb (valid_binding_id id) || negb (valid_log_level level) || (kMaxLogText <? zlen text)
         || (kMaxLogText <? zlen fields) || (zlen fields <? 2)
         || negb (bool_decide (head fields = Some Byte.x7b))
         || negb (bool_decide (last fields = Some Byte.x7d)) then
        inl "invalid Binding log envelope"%string
      else match json_loadb fields log_fields_flags with
      | Some (inl (JObject members)) =>
          match json_dumps x (JObject members) with
          | None => inl "cannot canonicalize Binding log fields"%string
          | Some canonical =>
              if kMaxLogText <? zlen canonical then
                inl "canonical Binding log fields exceed the size limit"%string
              else inr (mkWorkerEvent Event_kLog (request_id event) 0 0 false 0 [] [] text true level
                          id canonical [] [])
          end
      | _ => inl "invalid Binding log fields"%string
      end
  end.

(** ** The owner's calls *)

Definition submit e (command : Command) : WorkerExecutor :=
  let i := inflight_count e in
  let e :=
    if bool_decide (command_type command = Command_kBeginRequest)
       && bool_decide (command_id command ∉ inflight_ids i)
    then set_inflight e (mkInflight ({[command_id command]} ∪ inflight_ids i) (u64 (inflight_ i + 1)))
    else e in
  let was_empty := bool_decide (commands (bridge e) = []) in
  let e := set_commands e (commands (bridge e) ++ [command]) in
  if was_empty then set_wake e true else e.

Definition request_shutdown e : WorkerExecutor :=
  let l := life e in
  if shutdown_requested l then e
  else submit (set_life e (mkLife (started l) true (destroying l) (exited_ l) (exit_event_queued l)
                             (worker_ l) (shutdown_deadline l)))
         (new_Command Command_kShutdown 0).

Definition submit_probe e (url : bytes) : WorkerExecutor :=
  let p := probe e in
  let command := mkCommand Command_kProbeRequest 0 [] url [] [] 0 false (next_probe_id p) in
  submit (set_probe e (mkProbe (u64 (next_probe_id p + 1)) true false (probe_healthy p)
                         (probe_status p) (probe_body_bytes p) (probe_id p)))
    command.

Definition cancel_probe e : WorkerExecutor := submit e (new_Command Command_kProbeCancel 0).

Definition probe_state e : ProbeState :=
  let p := probe e in
  mkProbeState (probe_in_flight p) (probe_complete p) (probe_healthy p) (probe_status p)
    (probe_body_bytes p).

(** [if (inflight_ids_.erase(request_id) == 1) inflight_.fetch_sub(1)]. *)
Definition release_inflight e (id : Z) : WorkerExecutor :=
  let i := inflight_count e in
  if bool_decide (id ∈ inflight_ids i)
  then set_inflight e (mkInflight (inflight_ids i ∖ {[id]}) (u64 (inflight_ i - 1)))
  else e.

Definition mark_canceled e (id : Z) : WorkerExecutor :=
  release_inflight (set_canceled e ({[id]} ∪ canceled (bridge e))) id.

Definition retire_terminal_request e (id : Z) : WorkerExecutor :=
  let e := mark_canceled e id in
  let b := bridge e in
  set_bridge e (mkBridge (List.filter (λ c, negb (command_id c =? id)) (commands b)) (events b)
                  (canceled b) ({[id]} ∪ retire_pending b) (wake_byte b)).

Definition set_log_identity e (application_id generation_digest : bytes) : WorkerExecutor :=
  if started (life e) then e
  else mkExecutor (bridge e) (inflight_count e) (probe e) (readiness e) (life e) application_id
         generation_digest (notifications e) (calls e).

Definition drain_events e : list WorkerEvent * WorkerExecutor :=
  (events (bridge e), set_events e []).

Definition available e : bool := ready (readiness e) && negb (exited_ (life e)).
Definition exited e : bool := exited_ (life e).
Definition inflight e : Z := inflight_ (inflight_count e).
Definition worker e : bool := if destroying (life e) then false else worker_ (life e).

(** ** The worker thread's side *)

(** One step's environment: the clock, the Runtime's answers, what
    [capsid_worker_next_event] returns, and the state of the IPC descriptor. *)
Record Env := mkEnv {
  now : Z;                                (* ms *)
  answer : ApiCall → capsid_result;
  incoming : capsid_result * capsid_event;
  ipc_readable : bool;
  poll_error : bool
}.

Definition queue_worker_event e (event : WorkerEvent) : WorkerExecutor :=
  let need_notify := bool_decide (events (bridge e) = []) in
  let e := set_events e (events (bridge e) ++ [event]) in
  if need_notify then notify e else e.

Definition set_exit_queued e : WorkerExecutor :=
  let l := life e in
  set_life e (mkLife (started l) (shutdown_requested l) (destroying l) (exited_ l) true (worker_ l)
                (shutdown_deadline l)).

Definition queue_worker_exit_event e : WorkerExecutor :=
  if exit_event_queued (life e) then e
  else notify (set_exit_queued
                 (set_events e (events (bridge e) ++ [new_WorkerEvent Event_kExit 0]))).

(** [false] takes the exit path. *)
Definition report_runtime_failure e (id : Z) (result : capsid_result) : bool * WorkerExecutor :=
  if bool_decide (result = CAPSID_CLOSED) then (false, e)
  else (true, queue_worker_event e (new_WorkerEvent Event_kRequestFailure id)).

(** The tombstone check at the top of [execute_command]. *)
Definition dropped e (command : Command) : bool :=
  match command_type command with
  | Command_kBeginRequest | Command_kShutdown | Command_kCancel | Command_kProbeRequest
  | Command_kProbeCancel => false
  | _ => bool_decide (command_id command ∈ canceled (bridge e))
  end.

Definition push_front e (command : Command) : WorkerExecutor :=
  set_commands e (command :: commands (bridge e)).

Definition set_probe_in_flight e (f c : bool) : WorkerExecutor :=
  let p := probe e in
  set_probe e (mkProbe (next_probe_id p) f c (probe_healthy p) (probe_status p)
                 (probe_body_bytes p) (probe_id p)).

(** The switch of [execute_command]. *)
Definition run_command (env : Env) e (command : Command) : bool * WorkerExecutor :=
  let id := command_id command in
  match command_type command with
  | Command_kBeginRequest =>
      let c := call_begin_request (end_request command) id (command_method command)
                 (command_url command) (command_headers command) in
      let e := called e c in
      if negb (bool_decide (answer env c = CAPSID_OK)) then report_runtime_failure e id (answer env c)
      else (true, e)
  | Command_kWriteRequest =>
      let c := call_write_request id (command_body command) in
      let e := called e c in
      if bool_decide (answer env c = CAPSID_WOULD_BLOCK) then (true, push_front e command)
      else if negb (bool_decide (answer env c = CAPSID_OK)) then
        report_runtime_failure e id (answer env c)
      else (true, e)
  | Command_kEndRequest =>
      let c := call_end_request id in
      let e := called e c in
      if negb (bool_decide (answer env c = CAPSID_OK)) then report_runtime_failure e id (answer env c)
      else (true, e)
  | Command_kCancel =>
      let c := call_cancel id in
      let e := called e c in
      if bool_decide (answer env c = CAPSID_CLOSED) then (false, e)
      else if negb (bool_decide (answer env c = CAPSID_OK)) then (true, e)
      else (true, set_canceled e (canceled (bridge e) ∖ {[id]}))
  | Command_kGrantResponseCredit =>
      let c := call_grant_response_credit id (command_credit command) in
      let e := called e c in
      if bool_decide (answer env c = CAPSID_WOULD_BLOCK) then (true, push_front e command)
      else if negb (bool_decide (answer env c = CAPSID_OK)) then
        report_runtime_failure e id (answer env c)
      else (true, e)
  | Command_kShutdown =>
      let l := life e in
      (true, set_life (called e call_shutdown)
               (mkLife (started l) (shutdown_requested l) (destroying l) (exited_ l)
                  (exit_event_queued l) (worker_ l) (Some (now env + kShutdownGrace))))
  | Command_kProbeRequest =>
      let c := call_begin_request true (command_probe_id command) (bs "GET") (command_url command) [] in
      let e := called e c in
      let p := probe e in
      let e := set_probe e (mkProbe (next_probe_id p) true false (probe_healthy p) 0 0
                              (command_probe_id command)) in
      if negb (bool_decide (answer env c = CAPSID_OK)) then
        let e := set_probe_in_flight e false (probe_complete (probe e)) in
        if bool_decide (answer env c = CAPSID_CLOSED) then (false, e) else (true, e)
      else (true, e)
  | Command_kProbeCancel =>
      let outstanding := probe_in_flight (probe e) in
      let e := set_probe_in_flight e false false in
      (true, if outstanding then called e (call_cancel (probe_id (probe e))) else e)
  end.

Definition execute_command (env : Env) e (command : Command) : bool * WorkerExecutor :=
  if dropped e command then (true, e) else run_command env e command.

(** [capsid_worker_flush]; [WOULD_BLOCK] is not a failure. *)
Definition batch_flush (env : Env) e : bool * WorkerExecutor :=
  let e := called e call_flush in
  match answer env call_flush with
  | CAPSID_OK | CAPSID_WOULD_BLOCK => (true, e)
  | _ => (false, e)
  end.

(** The cast to [int32_t]. *)
Definition s32 (z : Z) : Z := (z + 2 ^ 31) mod 2 ^ 32 - 2 ^ 31.

(** A probe event folded into the probe state. *)
Definition fold_probe_event (p : Probe) (event : capsid_event) : Probe :=
  match type event with
  | CAPSID_EVENT_RESPONSE_HEAD =>
      mkProbe (next_probe_id p) (probe_in_flight p) (probe_complete p) (probe_healthy p)
        (s32 (status event)) (probe_body_bytes p) (probe_id p)
  | CAPSID_EVENT_RESPONSE_BODY =>
      let bytes := u64 (probe_body_bytes p + zlen (payload_bytes event)) in
      if kProbeResponseBodyCap <? bytes
      then mkProbe (next_probe_id p) (probe_in_flight p) true false (probe_status p) bytes (probe_id p)
      else mkProbe (next_probe_id p) (probe_in_flight p) (probe_complete p) (probe_healthy p)
             (probe_status p) bytes (probe_id p)
  | CAPSID_EVENT_RESPONSE_END =>
      mkProbe (next_probe_id p) (probe_in_flight p) true
        ((200 <=? probe_status p) && (probe_status p <=? 299)
         && (probe_body_bytes p <=? kProbeResponseBodyCap))
        (probe_status p) (probe_body_bytes p) (probe_id p)
  | CAPSID_EVENT_REQUEST_TIMEOUT =>
      mkProbe (next_probe_id p) (probe_in_flight p) true false (probe_status p) (probe_body_bytes p)
        (probe_id p)
  | _ => p
  end.

(** The READY event: decoded, compared with the expected proof, recorded. *)
Definition handle_ready e (event : capsid_event) : WorkerExecutor :=
  let r := readiness e in
  let '(proof_error, _, proof) := parse_ready_proof (payload_bytes event) in
  let verdict :=
    match proof_error, build_compatibility_id x with
    | None, Some id => verify_worker_ready (payload_bytes event) id (expected_ready r)
    | Some text, _ => Some text
    | None, None => Some ""%string
    end in
  set_readiness e
    (mkReadiness true (bool_decide (verdict = None)) (default ""%string verdict)
       (expected_ready r) proof).

Definition response_head e (event : capsid_event) : WorkerEvent :=
  let fixed := negb (Z.land (flags event) CAPSID_RESPONSE_HEAD_FLAG_FIXED_BODY =? 0) in
  mkWorkerEvent Event_kResponseHead (request_id event) 0 (u16 (status event)) fixed
    (if fixed then credit event else 0)
    (match response_headers x event with Some hs => omap id hs | None => [] end)
    [] [] false [] [] [] [] [].

(** [false] takes the exit path. *)
Definition handle_worker_protocol_event e (event : capsid_event) : bool * WorkerExecutor :=
  if probe_in_flight (probe e) && (request_id event =? probe_id (probe e)) then
    (true, set_probe e (fold_probe_event (probe e) event))
  else match type event with
  | CAPSID_EVENT_READY => (true, handle_ready e event)
  | CAPSID_EVENT_REQUEST_CREDIT =>
      (true, queue_worker_event e
               (mkWorkerEvent Event_kRequestCredit (request_id event) (credit event) 0 false 0 [] [] []
                  false [] [] [] [] []))
  | CAPSID_EVENT_RESPONSE_HEAD => (true, queue_worker_event e (response_head e event))
  | CAPSID_EVENT_RESPONSE_BODY =>
      (true, queue_worker_event e
               (mkWorkerEvent Event_kResponseBody (request_id event) 0 0 false 0 []
                  (payload_bytes event) [] false [] [] [] [] []))
  | CAPSID_EVENT_RESPONSE_END =>
      (true, queue_worker_event (mark_canceled e (request_id event))
               (new_WorkerEvent Event_kResponseEnd (request_id event)))
  | CAPSID_EVENT_LOG =>
      match decode_worker_log_event event with
      | inl _ => (false, e)
      | inr log =>
          (true, queue_worker_event e
                   (mkWorkerEvent (event_type log) (event_id log) (event_credit log)
                      (event_status log) (fixed_body log) (fixed_body_size log) (event_headers log)
                      (event_body log) (event_text log) (binding_log log) (log_level log)
                      (binding_id log) (log_fields_json log) (log_application_id e)
                      (log_generation_digest e)))
      end
  | CAPSID_EVENT_ERROR =>
      (true, queue_worker_event e
               (mkWorkerEvent Event_kError (request_id event) 0 0 false 0 [] [] (payload_bytes event)
                  false [] [] [] [] []))
  | CAPSID_EVENT_REQUEST_TIMEOUT =>
      (true, queue_worker_event (mark_canceled e (request_id event))
               (new_WorkerEvent Event_kRequestTimeout (request_id event)))
  | CAPSID_EVENT_EXIT => (false, queue_worker_exit_event e)
  | CAPSID_EVENT_NONE | CAPSID_EVENT_AUDIT | CAPSID_EVENT_MEMORY_METRICS => (true, e)
  end.

(** [wait_for_ready] after its wait: the error, if any. *)
Definition wait_for_ready e : bool :=
  let r := readiness e in
  if negb (ready r || exited_ (life e)) then false
  else if exited_ (life e) then false
  else ready_match r.

(** The event source's poll: [None] while it blocks. *)
Inductive PollResult := Poll_kWorker | Poll_kWake | Poll_kTimeout | Poll_kError.

Definition poll_worker (env : Env) e (until : option Z) : option PollResult :=
  if poll_error env then Some Poll_kError
  else if ipc_readable env then Some Poll_kWorker
  else if wake_byte (bridge e) then Some Poll_kWake
  else match until with
  | Some deadline => if deadline <=? now env then Some Poll_kTimeout else None
  | None => None
  end.

(** The worker thread's position in [worker_thread_main]. *)
Inductive Pc :=
| Pc_none                                               (* no thread *)
| Pc_drain                                              (* top of the loop *)
| Pc_swap
| Pc_batch (local : list Command)
| Pc_execute (command : Command) (local : list Command) (* past the tombstone check *)
| Pc_flush
| Pc_retire
| Pc_events
| Pc_wait
| Pc_exit                                               (* the label worker_exit *)
| Pc_destroy
| Pc_store
| Pc_notify
| Pc_done.

Definition exit_path e : Pc * WorkerExecutor := (Pc_exit, queue_worker_exit_event e).

Definition worker_step (env : Env) (pc : Pc) e : Pc * WorkerExecutor :=
  let b := bridge e in
  let l := life e in
  match pc with
  | Pc_none | Pc_done => (pc, e)
  | Pc_drain => (Pc_swap, set_wake e false)
  | Pc_swap =>
      let e' := set_commands e [] in
      (Pc_batch (commands b),
       match shutdown_deadline l with
       | Some deadline =>
           if (deadline <=? now env) && worker_ l then called e' call_terminate else e'
       | None => e'
       end)
  | Pc_batch [] => (Pc_flush, e)
  | Pc_batch (command :: local) =>
      if dropped e command then (Pc_batch local, e) else (Pc_execute command local, e)
  | Pc_execute command local =>
      let '(ok, e) := run_command env e command in
      if ok then (Pc_batch local, e) else exit_path e
  | Pc_flush =>
      let '(ok, e) := batch_flush env e in
      if ok then (Pc_retire, e) else exit_path e
  | Pc_retire =>
      (Pc_events,
       set_bridge e (mkBridge (commands b) (events b) (canceled b ∖ retire_pending b) ∅ (wake_byte b)))
  | Pc_events =>
      match incoming env with
      | (CAPSID_OK, event) =>
          let '(ok, e) := handle_worker_protocol_event e event in
          if ok then (Pc_events, e) else (Pc_exit, e)
      | (CAPSID_WOULD_BLOCK, _) => (Pc_wait, e)
      | _ => exit_path e
      end
  | Pc_wait =>
      match poll_worker env e (shutdown_deadline l) with
      | None => (Pc_wait, e)
      | Some Poll_kError => exit_path e
      | Some _ => (Pc_drain, e)
      end
  | Pc_exit =>
      (Pc_destroy,
       set_probe_in_flight
         (set_life e (mkLife (started l) (shutdown_requested l) true (exited_ l) (exit_event_queued l)
                        (worker_ l) (shutdown_deadline l))) false false)
  | Pc_destroy =>
      (Pc_store,
       set_inflight
         (set_life (called e call_destroy)
            (mkLife (started l) (shutdown_requested l) false true (exit_event_queued l) false
               (shutdown_deadline l)))
         (mkInflight ∅ (inflight_ (inflight_count e))))
  | Pc_store => (Pc_notify, set_inflight e (mkInflight (inflight_ids (inflight_count e)) 0))
  | Pc_notify => (Pc_done, notify e)
  end.

(** ** Both threads *)

Record System := mkSystem {
  pc : Pc;
  executor : WorkerExecutor;
  drained : list WorkerEvent              (* handed out by drain_events so far *)
}.

Definition new_System : System := mkSystem Pc_none new_WorkerExecutor [].

Definition set_started e (handle : bool) (expected : WorkerReadyProof) : WorkerExecutor :=
  let l := life e in
  let r := readiness e in
  let e := set_life e (mkLife true (shutdown_requested l) (destroying l) (exited_ l)
                         (exit_event_queued l) (handle || worker_ l) (shutdown_deadline l)) in
  if handle then set_readiness e (mkReadiness (ready r) (ready_match r) (ready_error r) expected
                                    (ready_proof r)) else e.

(** [start] up to the creation of the thread; [spawned] is the factory's
    answer. After it the caller waits for [wait_for_ready]. *)
Definition start (s : System) (spawned : bool) (expected : WorkerReadyProof) : bool * System :=
  let e := executor s in
  if started (life e) then (false, s)
  else if negb spawned then (false, mkSystem (pc s) (set_started e false expected) (drained s))
  else (true, mkSystem Pc_drain (set_started e true expected) (drained s)).

(** The rest of [start], after the wait: on failure the shutdown is requested
    and the thread joined (the caller returns once [pc] is [Pc_done]). *)
Definition finish_start (s : System) : bool * System :=
  if wait_for_ready (executor s) then (true, s)
  else (false, mkSystem (pc s) (request_shutdown (executor s)) (drained s)).

Definition adopt (s : System) (handle : bool) : bool * System :=
  let e := executor s in
  if started (life e) then (false, s)
  else if negb handle then (false, mkSystem (pc s) (set_started e false no_proof) (drained s))
  else
    let e := set_started e true (expected_ready (readiness e)) in
    let r := readiness e in
    (true, mkSystem Pc_drain
             (set_readiness e (mkReadiness true true (ready_error r) (expected_ready r) (ready_proof r)))
             (drained s)).

Inductive OwnerOp :=
| Op_start (spawned : bool) (expected : WorkerReadyProof)
| Op_finish_start
| Op_adopt (handle : bool)
| Op_submit (command : Command)
| Op_request_shutdown
| Op_submit_probe (url : bytes)
| Op_cancel_probe
| Op_mark_canceled (id : Z)
| Op_retire_terminal_request (id : Z)
| Op_drain_events.

Inductive Label := Owner (op : OwnerOp) | Worker (env : Env).

Definition owner_step (op : OwnerOp) (s : System) : System :=
  let with_e e := mkSystem (pc s) e (drained s) in
  match op with
  | Op_start spawned expected => (start s spawned expected).2
  | Op_finish_start => (finish_start s).2
  | Op_adopt handle => (adopt s handle).2
  | Op_submit command => with_e (submit (executor s) command)
  | Op_request_shutdown => with_e (request_shutdown (executor s))
  | Op_submit_probe url => with_e (submit_probe (executor s) url)
  | Op_cancel_probe => with_e (cancel_probe (executor s))
  | Op_mark_canceled id => with_e (mark_canceled (executor s) id)
  | Op_retire_terminal_request id => with_e (retire_terminal_request (executor s) id)
  | Op_drain_events =>
      let '(batch, e) := drain_events (executor s) in mkSystem (pc s) e (drained s ++ batch)
  end.

Definition step (s : System) (label : Label) : System :=
  match label with
  | Owner op => owner_step op s
  | Worker env =>
      let '(pc', e) := worker_step env (pc s) (executor s) in mkSystem pc' e (drained s)
  end.

Definition run (labels : list Label) (s : System) : System := fold_left step labels s.
End executor.

(** ** Growth

    Every operation but the drain and the reaper only appends to the events
    and to the calls, never an exit event or a destroy. *)

Definition no_exit (evs : list WorkerEvent) : Prop := Forall (λ ev, event_type ev ≠ Event_kExit) evs.
Definition no_destroy (cs : list ApiCall) : Prop := Forall (λ c, c ≠ call_destroy) cs.

Record grows (e e' : WorkerExecutor) : Prop := {
  grows_events : ∃ evs, events (bridge e') = events (bridge e) ++ evs ∧ no_exit evs;
  grows_calls : ∃ cs, calls e' = calls e ++ cs ∧ no_destroy cs;
  grows_queued : exit_event_queued (life e') = exit_event_queued (life e);
  grows_exited : exited_ (life e') = exited_ (life e);
  grows_worker : worker_ (life e') = worker_ (life e);
  grows_started : started (life e') = started (life e);
  grows_notified : notifications e <= notifications e'
}.

Create HintDb executor.

Lemma grows_refl e : grows e e.
Proof. split; try done; exists []; rewrite app_nil_r; by split; [|constructor]. Qed.

Lemma grows_trans e1 e2 e3 : grows e1 e2 → grows e2 e3 → grows e1 e3.
Proof.
  intros [(v1 & Hv1 & Nv1) (c1 & Hc1 & Nc1)] [(v2 & Hv2 & Nv2) (c2 & Hc2 & Nc2)].
  split; try congruence; try lia.
  - exists (v1 ++ v2). rewrite Hv2, Hv1, (assoc (++)). split; [done|by apply Forall_app].
  - exists (c1 ++ c2). rewrite Hc2, Hc1, (assoc (++)). split; [done|by apply Forall_app].
Qed.

(** Operations that leave events, calls and life alone. *)
Lemma grows_same e e' : events (bridge e') = events (bridge e) → calls e' = calls e →
  life e' = life e → notifications e' = notifications e → grows e e'.
Proof.
  intros Hv Hc Hl Hn. split; rewrite ?Hn; rewrite ?Hl; try done; [exists []; rewrite Hv|exists []; rewrite Hc];
    rewrite app_nil_r; by split; [|constructor].
Qed.

Lemma grows_called e c : c ≠ call_destroy → grows e (called e c).
Proof.
  intros Hc. split; try done; [exists []; by rewrite app_nil_r; split; [|constructor]|].
  exists [c]. split; [done|]. by repeat constructor.
Qed.

Lemma grows_queue_event e ev : event_type ev ≠ Event_kExit → grows e (queue_worker_event e ev).
Proof.
  intros Hev. unfold queue_worker_event. split; case_match; try done; try (cbn; lia).
  all: first [exists [ev]; split; [done|by repeat constructor]
             |exists []; rewrite app_nil_r; by split; [|constructor]].
Qed.

#[export] Hint Resolve grows_refl grows_called grows_queue_event : executor.
#[export] Hint Extern 2 (grows _ _) => apply grows_same; reflexivity : executor.
#[export] Hint Extern 3 (_ ≠ _) => discriminate : executor.

Lemma grows_submit e c : grows e (submit e c).
Proof. unfold submit. repeat case_match; by apply grows_same. Qed.

Lemma grows_set_life e l : exit_event_queued l = exit_event_queued (life e) →
  exited_ l = exited_ (life e) → worker_ l = worker_ (life e) → started l = started (life e) →
  grows e (set_life e l).
Proof. intros. split; try done; exists []; rewrite app_nil_r; by split; [|constructor]. Qed.

Lemma grows_request_shutdown e : grows e (request_shutdown e).
Proof.
  unfold request_shutdown. case_match; [apply grows_refl|].
  eapply grows_trans; [|apply grows_submit]. by apply grows_set_life.
Qed.

Lemma grows_mark_canceled e id : grows e (mark_canceled e id).
Proof. unfold mark_canceled, release_inflight. case_match; by apply grows_same. Qed.

#[export] Hint Resolve grows_submit grows_request_shutdown grows_mark_canceled : executor.

Lemma grows_report e id r : grows e (report_runtime_failure e id r).2.
Proof. unfold report_runtime_failure. case_match; cbn [snd]; auto with executor. Qed.

Lemma grows_call_then e c e' : c ≠ call_destroy → grows (called e c) e' → grows e e'.
Proof. intros. eapply grows_trans; [by apply grows_called|done]. Qed.

Lemma grows_run_command env e c : grows e (run_command env e c).2.
Proof.
  unfold run_command. destruct (command_type c).
  all: cbn [snd]; repeat (case_match; cbn [snd]).
  all: first [eapply grows_call_then; cycle 1; [apply grows_report|discriminate]
             |apply grows_called; discriminate
             |eapply (grows_call_then e); cycle 1; [by apply grows_same|discriminate]
             |eapply grows_call_then; cycle 1; [by apply grows_set_life|discriminate]
             |eapply grows_trans; [|apply grows_called; discriminate]; by apply grows_same
             |by apply grows_same].
Qed.

Section growth.
Context {real : Type} `{Strtod real} (x : Externals real).

Lemma decode_log_type event log :
  decode_worker_log_event x event = inr log → event_type log = Event_kLog.
Proof.
  unfold decode_worker_log_event. intros Hd. repeat (case_match; try discriminate).
  all: by injection Hd as <-.
Qed.

(** The handler takes the exit path in two ways only. *)
Lemma handle_event_grows e event ok e' :
  handle_worker_protocol_event x e event = (ok, e') →
  (grows e e' ∧ (ok = false → type event = CAPSID_EVENT_LOG
                             ∧ ∃ text, decode_worker_log_event x event = inl text))
  ∨ (ok = false ∧ e' = queue_worker_exit_event e).
Proof.
  unfold handle_worker_protocol_event. case_match; [intros [= <- <-]; left; split; auto with executor; done|].
  destruct (type event) eqn:Ht; intros He.
  all: try (injection He as <- <-; left; split; [|done];
    first [auto with executor; fail
          |eapply grows_trans; [|apply grows_queue_event; discriminate]; auto with executor]).
  - injection He as <- <-. left. split; [|done]. unfold handle_ready.
    destruct (parse_ready_proof _) as [[? ?] ?]. by apply grows_same.
  - destruct (decode_worker_log_event x event) as [text|log] eqn:Hd; injection He as <- <-; left.
    + split; [auto with executor|]. intros _. split; [done|]. by eexists.
    + split; [|done]. apply grows_queue_event. cbn. apply decode_log_type in Hd. congruence.
  - injection He as <- <-. by right.
Qed.
End growth.

(** ** Runs *)

Section runs.
Context {real : Type} `{Strtod real} (x : Externals real).

Lemma run_app l1 l2 s : run x (l1 ++ l2) s = run x l2 (run x l1 s).
Proof. apply fold_left_app. Qed.

Lemma run_snoc labels l s : run x (labels ++ [l]) s = step x (run x labels s) l.
Proof. by rewrite run_app. Qed.

(** Invariants of runs, by induction on the last step. *)
Lemma run_invariant (I : list Label → System → Prop) s0 : I [] s0 →
  (∀ labels s l, I labels s → I (labels ++ [l]) (step x s l)) →
  ∀ labels, I labels (run x labels s0).
Proof.
  intros H0 Hstep labels. induction labels as [|l labels IH] using rev_ind; [done|].
  rewrite run_snoc. by apply Hstep.
Qed.

(** ** The reaper *)

Definition all_events (s : System) : list WorkerEvent := drained s ++ events (bridge (executor s)).

(** A step that decodes a log event the executor rejects. *)
Definition malformed_log (l : Label) : Prop :=
  match l with
  | Worker env => (incoming env).1 = CAPSID_OK ∧ type (incoming env).2 = CAPSID_EVENT_LOG
      ∧ ∃ text, decode_worker_log_event x (incoming env).2 = inl text
  | Owner _ => False
  end.

(** The positions from the exit label on, and from the destroyed handle on. *)
Definition exiting (p : Pc) : bool :=
  match p with Pc_exit | Pc_destroy | Pc_store | Pc_notify | Pc_done => true | _ => false end.
Definition reaped (p : Pc) : bool :=
  match p with Pc_store | Pc_notify | Pc_done => true | _ => false end.

Record reaper_inv (labels : list Label) (s : System) : Prop := {
  ri_events : ∃ evs, no_exit evs
    ∧ all_events s = evs ++ (if exit_event_queued (life (executor s))
                             then [new_WorkerEvent Event_kExit 0] else []);
  ri_calls : ∃ cs, no_destroy cs
    ∧ calls (executor s) = cs ++ (if exited (executor s) then [call_destroy] else []);
  ri_queued : exit_event_queued (life (executor s)) = true → exiting (pc s) = true;
  ri_silent : exiting (pc s) = true → exit_event_queued (life (executor s)) = false →
    Exists malformed_log labels;
  ri_exited : exited (executor s) = reaped (pc s);
  ri_worker : reaped (pc s) = true → worker_ (life (executor s)) = false;
  ri_started : pc s ≠ Pc_none → started (life (executor s)) = true
}.

(** Steps that only grow the executor and do not enter the exit path. *)
Lemma reaper_inv_grows labels l s p e : reaper_inv labels s →
  grows (executor s) e → (exiting (pc s) = false ∨ calls e = calls (executor s)
     ∧ events (bridge e) = events (bridge (executor s))) →
  exiting p = exiting (pc s) → reaped p = reaped (pc s) → (p ≠ Pc_none → pc s ≠ Pc_none) →
  reaper_inv (labels ++ [l]) (mkSystem p e (drained s)).
Proof.
  intros [(evs & Hne & Hev) (cs & Hnd & Hcs) Hq Hs Hx Hw Hst] [(ve & Gv & Nv) (ce & Gc & Nc) Gq Gx Gw Gs]
    Hcase He Hr Hn.
  unfold all_events, exited in *. split; unfold all_events, exited; cbn [pc executor drained];
    rewrite ?Gq, ?Gx, ?Gw, ?Gs, ?He, ?Hr; try done.
  - destruct Hcase as [Hne'|(_ & Hse)].
    + destruct (exit_event_queued _); [by rewrite Hq in Hne'|]. exists (evs ++ ve).
      rewrite app_nil_r in *. rewrite Gv, (assoc (++)), Hev. split; [by apply Forall_app|done].
    + exists evs. by rewrite Hse.
  - destruct Hcase as [Hne'|(Hsc & _)].
    + destruct (exited_ _); [destruct (pc s); done|]. exists (cs ++ ce).
      rewrite app_nil_r in *. rewrite Gc, Hcs. split; [by apply Forall_app|done].
    + exists cs. by rewrite Hsc.
  - intros H1 H2. apply Exists_app. left. by apply Hs.
  - intros Hp. apply Hst, Hn, Hp.
Qed.

(** The owner's calls append nothing. *)
Lemma submit_quiet e c : calls (submit e c) = calls e
  ∧ events (bridge (submit e c)) = events (bridge e).
Proof. unfold submit. by repeat case_match. Qed.

Lemma request_shutdown_quiet e : calls (request_shutdown e) = calls e
  ∧ events (bridge (request_shutdown e)) = events (bridge e).
Proof. unfold request_shutdown. case_match; [done|]. exact (submit_quiet (set_life e _) _). Qed.

Lemma mark_canceled_quiet e id : calls (mark_canceled e id) = calls e
  ∧ events (bridge (mark_canceled e id)) = events (bridge e).
Proof. unfold mark_canceled, release_inflight. by case_match. Qed.

Lemma reaper_inv_started labels l s h p r : reaper_inv labels s →
  started (life (executor s)) = false →
  let e := set_started (executor s) h p in
  let next e := mkSystem (if h : bool then Pc_drain else pc s) e (drained s) in
  reaper_inv (labels ++ [l]) (next (set_readiness e r)) ∧ reaper_inv (labels ++ [l]) (next e).
Proof.
  intros [Hev Hcs Hq Hsi Hx Hw Hst] Hn e next.
  assert (pc s = Pc_none) as Hp by (destruct (pc s); try done; rewrite Hst in Hn; done).
  rewrite Hp in *. unfold exited in *. cbn in Hq, Hx.
  destruct (exit_event_queued (life (executor s))) eqn:Eq; [by specialize (Hq eq_refl)|].
  assert (∀ r', reaper_inv (labels ++ [l]) (next (set_readiness e r'))) as Hr.
  { intros r'. split; unfold next, e, set_started, all_events, exited in *; cbn; rewrite ?Hp, ?Eq, ?Hx in *;
      destruct h; try done. }
  split; [done|]. replace e with (set_readiness e (readiness e)) by (by destruct e). apply Hr.
Qed.

Lemma reaper_inv_drain labels l s : reaper_inv labels s →
  reaper_inv (labels ++ [l]) (owner_step Op_drain_events s).
Proof.
  intros [(evs & Hne & Hev) Hcs Hq Hsi Hx Hw Hst]. split; try done.
  - exists evs. split; [done|]. unfold all_events in *. cbn. by rewrite app_nil_r.
  - intros. apply Exists_app. left. by apply Hsi.
Qed.

Lemma reaper_inv_owner labels op s : reaper_inv labels s →
  reaper_inv (labels ++ [Owner op]) (owner_step op s).
Proof.
  intros Hi.
  assert (∀ e, grows (executor s) e → calls e = calls (executor s)
      ∧ events (bridge e) = events (bridge (executor s)) →
      reaper_inv (labels ++ [Owner op]) (mkSystem (pc s) e (drained s))) as Hquiet.
  { intros e Hg Hsame. apply reaper_inv_grows; auto. }
  destruct op; cbn [owner_step].
  - unfold start. destruct (started _) eqn:Hs; [by destruct s; apply Hquiet; auto with executor|].
    pose proof (λ h, proj2 (reaper_inv_started labels (Owner (Op_start spawned expected)) s h expected
      (readiness (executor s)) Hi Hs)) as Hr.
    destruct spawned; [exact (Hr true)|exact (Hr false)].
  - unfold finish_start. case_match; [by destruct s; apply Hquiet; auto with executor|].
    apply Hquiet; [auto with executor|apply request_shutdown_quiet].
  - unfold adopt. destruct (started _) eqn:Hs; [by destruct s; apply Hquiet; auto with executor|].
    destruct handle; [exact (proj1 (reaper_inv_started labels _ s true _ _ Hi Hs))|].
    exact (proj2 (reaper_inv_started labels _ s false no_proof (readiness (executor s)) Hi Hs)).
  - apply Hquiet; [auto with executor|apply submit_quiet].
  - apply Hquiet; [auto with executor|apply request_shutdown_quiet].
  - apply Hquiet; [|exact (submit_quiet (set_probe _ _) _)].
    eapply grows_trans; [|apply grows_submit]. by apply grows_same.
  - apply Hquiet; [apply grows_submit|apply submit_quiet].
  - apply Hquiet; [auto with executor|apply mark_canceled_quiet].
  - apply Hquiet; [|exact (mark_canceled_quiet _ _)].
    eapply grows_trans; [apply (grows_mark_canceled _ id)|]. by apply grows_same.
  - apply reaper_inv_drain, Hi.
Qed.

(** Entering the exit path, with the exit event or after a rejected log. *)
Lemma reaper_inv_exit labels l s e : reaper_inv labels s → exiting (pc s) = false → pc s ≠ Pc_none →
  grows (executor s) e →
  reaper_inv (labels ++ [l]) (mkSystem Pc_exit (queue_worker_exit_event e) (drained s))
  ∧ (malformed_log l → reaper_inv (labels ++ [l]) (mkSystem Pc_exit e (drained s))).
Proof.
  intros [(evs & Hne & Hev) (cs & Hnd & Hcs) Hq Hs Hx Hw Hst] Hp Hn
    [(ve & Gv & Nv) (ce & Gc & Nc) Gq Gx Gw Gs].
  assert (exit_event_queued (life (executor s)) = false) as Eq.
  { destruct (exit_event_queued _); [by rewrite Hq in Hp|done]. }
  assert (exited_ (life (executor s)) = false) as Ex
    by (unfold exited in Hx; rewrite Hx; by destruct (pc s)).
  unfold all_events, exited in *. rewrite Eq, Ex, app_nil_r in *.
  assert (no_exit (evs ++ ve) ∧ no_destroy (cs ++ ce)) as [He' Hc']
    by (by split; apply Forall_app).
  split; [unfold queue_worker_exit_event; rewrite Gq|intros Hm]; split;
    unfold all_events, exited; cbn; rewrite ?Gq, ?Gx, ?Gs; try done.
  - exists (evs ++ ve). by rewrite Gv, !(assoc (++)), Hev.
  - exists (cs ++ ce). by rewrite Gc, Hcs, app_nil_r.
  - intros _. by apply Hst.
  - exists (evs ++ ve). by rewrite Gv, !(assoc (++)), Hev, app_nil_r.
  - exists (cs ++ ce). by rewrite Gc, Hcs, app_nil_r.
  - intros _ _. apply Exists_app. right. by constructor.
  - intros _. by apply Hst.
Qed.

Lemma reaper_inv_reap labels l s : reaper_inv labels s → exiting (pc s) = true → ∀ env,
  reaper_inv (labels ++ [l])
    (let '(p, e) := worker_step x env (pc s) (executor s) in mkSystem p e (drained s)).
Proof.
  intros [(evs & Hne & Hev) (cs & Hnd & Hcs) Hq Hs Hx Hw Hst] Hp env.
  assert (true = true → exit_event_queued (life (executor s)) = false →
      Exists malformed_log (labels ++ [l])) as Hsil.
  { intros _ Hf. apply Exists_app. left. by apply Hs. }
  unfold all_events, exited in *.
  destruct (pc s) eqn:Ep; try done; cbn [worker_step]; split; unfold all_events, exited in *; cbn in *;
    rewrite ?Hx in *; try done; eauto.
  exists cs. by rewrite Hcs, app_nil_r.
Qed.

Lemma reaper_inv_worker labels env s : reaper_inv labels s →
  reaper_inv (labels ++ [Worker env]) (step x s (Worker env)).
Proof.
  intros Hi. cbn [step]. destruct (exiting (pc s)) eqn:Hp; [by apply reaper_inv_reap|].
  assert (∀ p e, grows (executor s) e → exiting p = false → pc s ≠ Pc_none →
      reaper_inv (labels ++ [Worker env]) (mkSystem p e (drained s))) as Hg.
  { intros p e Hge He Hn. apply reaper_inv_grows; auto; [by rewrite Hp|].
    destruct p, (pc s); done. }
  assert (∀ e, grows (executor s) e → pc s ≠ Pc_none →
      reaper_inv (labels ++ [Worker env]) (mkSystem Pc_exit (queue_worker_exit_event e) (drained s)))
    as Hx by (intros e Hge Hn; by destruct (reaper_inv_exit labels (Worker env) s e Hi Hp Hn Hge)).
  destruct (pc s) as [| | |[|c local]|c local| | | | | | | | |] eqn:Ep; try done; cbn [worker_step].
  - apply (reaper_inv_grows labels _ s); rewrite ?Ep; auto with executor.
  - apply Hg; auto with executor.
  - apply Hg; [|done..]. repeat case_match; try (by apply grows_same).
    eapply grows_trans; [|by apply grows_called]. by apply grows_same.
  - apply Hg; auto with executor.
  - destruct (dropped _ _); (apply Hg; [apply grows_refl|done|done]).
  - pose proof (grows_run_command env (executor s) c) as G.
    destruct (run_command env (executor s) c) as [[] e]; [by apply Hg|by apply Hx].
  - unfold batch_flush. destruct (answer env call_flush); first [by apply Hg; auto with executor
      |by apply Hx; auto with executor].
  - apply Hg; auto with executor.
  - destruct (incoming env) as [r event] eqn:Ei.
    destruct r; try (by apply Hx; auto with executor); [|by apply Hg; auto with executor].
    destruct (handle_worker_protocol_event x (executor s) event) as [ok e] eqn:Eh.
    apply handle_event_grows in Eh as [[G Hlog]|[-> ->]]; [|by apply Hx; auto with executor].
    destruct ok; [by apply Hg|]. apply (reaper_inv_exit labels _ s); [done|by rewrite Ep..|done|].
    unfold malformed_log. rewrite Ei. by destruct Hlog as [? ?].
  - destruct (poll_worker _ _ _) as [[]|]; first [by apply Hg; auto with executor
      |by apply Hx; auto with executor].
Qed.

Lemma reaper_inv_run labels : reaper_inv labels (run x labels new_System).
Proof.
  apply (run_invariant reaper_inv).
  - split; try done; exists []; by split; [constructor|].
  - intros ls s [op|env] Hi; [by apply reaper_inv_owner|by apply reaper_inv_worker].
Qed.

(** ** The inflight counter *)

(** No request begins between the two halves of the reaper's bookkeeping: the
    ids are cleared under the mutex, the counter is stored outside it. *)
Fixpoint calm (labels : list Label) (s : System) : Prop :=
  match labels with
  | [] => True
  | l :: labels =>
      (pc s = Pc_store → ∀ c, l = Owner (Op_submit c) → command_type c ≠ Command_kBeginRequest)
      ∧ calm labels (step x s l)
  end.

Definition counted (s : System) : Prop :=
  let i := inflight_count (executor s) in
  match pc s with
  | Pc_store => inflight_ids i = ∅
  | _ => inflight_ i = u64 (Z.of_nat (size (inflight_ids i)))
  end.

Definition count_exact (i : InflightCount) : Prop := inflight_ i = u64 (Z.of_nat (size (inflight_ids i))).

Lemma submit_count e c : count_exact (inflight_count e) → count_exact (inflight_count (submit e c)).
Proof.
  unfold submit, count_exact. intros Hc. destruct (bool_decide (command_type c = _) && _) eqn:Hb.
  - bools. case_match; cbn; rewrite size_union, size_singleton by set_solver;
      rewrite Hc, u64_add_l; f_equal; lia.
  - by case_match.
Qed.

Lemma submit_other e c : command_type c ≠ Command_kBeginRequest →
  inflight_count (submit e c) = inflight_count e.
Proof.
  intros Hc. unfold submit. rewrite (bool_decide_false (command_type c = _)) by done.
  by case_match.
Qed.

Lemma request_shutdown_inflight e : inflight_count (request_shutdown e) = inflight_count e.
Proof. unfold request_shutdown. case_match; [done|]. by rewrite submit_other. Qed.

Lemma mark_canceled_count e id : count_exact (inflight_count e) →
  count_exact (inflight_count (mark_canceled e id)).
Proof.
  unfold mark_canceled, release_inflight, count_exact. cbn. intros Hc. case_match; bools; [|done].
  cbn. rewrite size_difference, size_singleton by set_solver.
  assert (size (inflight_ids (inflight_count e)) ≠ 0)%nat.
  { rewrite size_empty_iff. set_solver. }
  rewrite Hc, u64_sub_l. f_equal. lia.
Qed.

Lemma mark_canceled_empty e id : inflight_ids (inflight_count e) = ∅ →
  inflight_ids (inflight_count (mark_canceled e id)) = ∅.
Proof.
  unfold mark_canceled, release_inflight. cbn. intros Hc. destruct (bool_decide _); [|done]. cbn.
  rewrite Hc. apply subseteq_empty_difference_L, empty_subseteq.
Qed.

Lemma queue_event_inflight e ev : inflight_count (queue_worker_event e ev) = inflight_count e.
Proof. unfold queue_worker_event. by case_match. Qed.

Lemma exit_event_inflight e : inflight_count (queue_worker_exit_event e) = inflight_count e.
Proof. unfold queue_worker_exit_event. by case_match. Qed.

Lemma run_command_inflight env e c : inflight_count (run_command env e c).2 = inflight_count e.
Proof.
  unfold run_command, report_runtime_failure. destruct (command_type c); cbn [snd];
    repeat (case_match; cbn [snd]); by rewrite ?queue_event_inflight.
Qed.

Lemma handle_event_count e event : count_exact (inflight_count e) →
  count_exact (inflight_count (handle_worker_protocol_event x e event).2).
Proof.
  intros Hc. unfold handle_worker_protocol_event. case_match; [done|].
  destruct (type event); cbn [snd]; rewrite ?queue_event_inflight, ?exit_event_inflight; try done.
  - unfold handle_ready. by destruct (parse_ready_proof _) as [[? ?] ?].
  - by apply mark_canceled_count.
  - case_match; cbn [snd]; by rewrite ?queue_event_inflight.
  - by apply mark_canceled_count.
Qed.

Lemma counted_worker env s : counted s → counted (step x s (Worker env)).
Proof.
  unfold counted. cbn [step]. intros Hc.
  destruct (pc s) as [| | |[|c local]|c local| | | | | | | | |] eqn:Ep; cbn [worker_step]; try done.
  - cbn. by repeat case_match.
  - by destruct (dropped _ _).
  - pose proof (run_command_inflight env (executor s) c) as Hr.
    destruct (run_command env (executor s) c) as [[] e]; cbn in *; by rewrite ?exit_event_inflight, Hr.
  - unfold batch_flush. destruct (answer env call_flush); cbn; by rewrite ?exit_event_inflight.
  - destruct (incoming env) as [[] event]; cbn; rewrite ?exit_event_inflight; try done.
    pose proof (handle_event_count (executor s) event Hc) as Hh.
    by destruct (handle_worker_protocol_event x (executor s) event) as [[] e].
  - destruct (poll_worker _ _ _) as [[]|]; cbn; by rewrite ?exit_event_inflight.
  - cbn. by rewrite Hc.
Qed.

(** An operation that keeps the count exact and empty ids empty. *)
Lemma counted_change s e : counted s →
  (count_exact (inflight_count (executor s)) → count_exact (inflight_count e)) →
  (inflight_ids (inflight_count (executor s)) = ∅ → inflight_ids (inflight_count e) = ∅) →
  counted (mkSystem (pc s) e (drained s)).
Proof. unfold counted, count_exact. cbn. intros Hc H1 H2. destruct (pc s); auto. Qed.

Lemma counted_owner op s : counted s → (pc s ≠ Pc_none → started (life (executor s)) = true) →
  (pc s = Pc_store → ∀ c, Owner op = Owner (Op_submit c) → command_type c ≠ Command_kBeginRequest) →
  counted (owner_step op s).
Proof.
  intros Hc Hst Hcalm.
  assert (∀ e, inflight_count e = inflight_count (executor s) →
    counted (mkSystem (pc s) e (drained s))) as Hsame.
  { intros e He. by apply counted_change; rewrite ?He. }
  assert (started (life (executor s)) = false → ∀ e, inflight_count e = inflight_count (executor s) →
    counted (mkSystem Pc_drain e (drained s))) as Hdrain.
  { intros Hs e He. unfold counted in *. cbn. rewrite He. destruct (pc s); try done.
    rewrite Hst in Hs; done. }
  destruct op; cbn [owner_step].
  - unfold start. destruct (started _); [by destruct s|].
    destruct spawned; cbn; [by apply Hdrain|by apply Hsame].
  - unfold finish_start. case_match; [by destruct s|]. apply Hsame, request_shutdown_inflight.
  - unfold adopt. destruct (started _); [by destruct s|].
    destruct handle; cbn; [by apply Hdrain|by apply Hsame].
  - destruct (decide (command_type command = Command_kBeginRequest)) as [Hb|Hb];
      [|by apply Hsame, submit_other].
    unfold counted in *. cbn. destruct (pc s) eqn:Ep; try by apply submit_count.
    by destruct (Hcalm eq_refl command).
  - apply Hsame, request_shutdown_inflight.
  - apply Hsame. unfold submit_probe. by rewrite submit_other.
  - by apply Hsame, submit_other.
  - apply counted_change; [done|apply mark_canceled_count|apply mark_canceled_empty].
  - apply counted_change; [done|apply mark_canceled_count|apply mark_canceled_empty].
  - by apply counted_change.
Qed.

Lemma calm_snoc labels l s : calm (labels ++ [l]) s →
  calm labels s ∧ (pc (run x labels s) = Pc_store →
    ∀ c, l = Owner (Op_submit c) → command_type c ≠ Command_kBeginRequest).
Proof.
  revert s. induction labels as [|l' labels IH]; intros s; cbn [calm app]; [by intros [? _]|].
  intros [H1 H2]. destruct (IH _ H2) as [H3 H4]. split; [by split|done].
Qed.

Lemma counted_run labels : calm labels new_System → counted (run x labels new_System).
Proof.
  induction labels as [|l labels IH] using rev_ind; [done|].
  intros [Hc Hl]%calm_snoc. rewrite run_snoc. specialize (IH Hc).
  destruct l as [op|env]; [|by apply counted_worker].
  apply counted_owner; [done| |done]. apply (ri_started labels _ (reaper_inv_run labels)).
Qed.

(** ** What the operations do to the command queue and the tombstones *)

(** The commands the tombstone check can drop. *)
Definition is_frame (c : Command) : bool :=
  match command_type c with
  | Command_kWriteRequest | Command_kEndRequest | Command_kGrantResponseCredit => true
  | _ => false
  end.

Definition is_cancel (c : Command) : bool := bool_decide (command_type c = Command_kCancel).

(** The Runtime takes every chunk and grant at once. *)
Definition never_blocks (env : Env) : Prop :=
  ∀ c, (∃ id body, c = call_write_request id body) ∨ (∃ id n, c = call_grant_response_credit id n) →
    answer env c ≠ CAPSID_WOULD_BLOCK.

Lemma queue_event_bridge e ev : let b := bridge (queue_worker_event e ev) in
  commands b = commands (bridge e) ∧ canceled b = canceled (bridge e)
  ∧ retire_pending b = retire_pending (bridge e) ∧ wake_byte b = wake_byte (bridge e).
Proof. unfold queue_worker_event. by case_match. Qed.

Lemma exit_event_bridge e : let b := bridge (queue_worker_exit_event e) in
  commands b = commands (bridge e) ∧ canceled b = canceled (bridge e)
  ∧ retire_pending b = retire_pending (bridge e) ∧ wake_byte b = wake_byte (bridge e).
Proof. unfold queue_worker_exit_event. by case_match. Qed.

Lemma mark_canceled_bridge e id : let b := bridge (mark_canceled e id) in
  commands b = commands (bridge e) ∧ canceled b = {[id]} ∪ canceled (bridge e)
  ∧ retire_pending b = retire_pending (bridge e) ∧ wake_byte b = wake_byte (bridge e)
  ∧ events b = events (bridge e).
Proof. unfold mark_canceled, release_inflight. by case_match. Qed.

Lemma report_bridge e id r : let b := bridge (report_runtime_failure e id r).2 in
  commands b = commands (bridge e) ∧ canceled b = canceled (bridge e)
  ∧ retire_pending b = retire_pending (bridge e) ∧ wake_byte b = wake_byte (bridge e).
Proof. unfold report_runtime_failure. case_match; [done|]. apply queue_event_bridge. Qed.

Record command_effect (env : Env) (e : WorkerExecutor) (c : Command) (b : Bridge) : Prop := {
  ce_commands : commands b = commands (bridge e)
    ∨ commands b = c :: commands (bridge e) ∧ is_frame c = true ∧ ¬ never_blocks env;
  ce_canceled : canceled b = canceled (bridge e)
    ∨ canceled b = canceled (bridge e) ∖ {[command_id c]} ∧ is_cancel c = true;
  ce_pending : retire_pending b = retire_pending (bridge e);
  ce_wake : wake_byte b = wake_byte (bridge e)
}.

Lemma run_command_effect env e c : command_effect env e c (bridge (run_command env e c).2).
Proof.
  assert (∀ a, command_effect env e c (bridge (called e a))) as Hcall by (by split; auto).
  assert (∀ a id r, command_effect env e c (bridge (report_runtime_failure (called e a) id r).2)) as Hrep.
  { intros a id r. destruct (report_bridge (called e a) id r) as (H1 & H2 & H3 & H4). by split; auto. }
  unfold run_command, is_frame, is_cancel.
  destruct (command_type c) eqn:Ht; cbn [snd];
    repeat (match goal with |- context [if ?b then _ else _] => destruct b eqn:? end; cbn [snd]);
    try done; try (by split; auto).
  all: split; try (by auto); unfold is_frame, is_cancel; rewrite Ht; cbn; auto.
  all: right; split_and!; [done|done|]; bools; intros Hn; eapply Hn; [|eassumption]; eauto.
Qed.

Lemma handle_event_bridge e event : let b := bridge (handle_worker_protocol_event x e event).2 in
  commands b = commands (bridge e) ∧ canceled (bridge e) ⊆ canceled b
  ∧ retire_pending b = retire_pending (bridge e) ∧ wake_byte b = wake_byte (bridge e).
Proof.
  cbn zeta. unfold handle_worker_protocol_event. case_match; [done|].
  assert (∀ ev e', commands (bridge e') = commands (bridge e) → canceled (bridge e) ⊆ canceled (bridge e') →
    retire_pending (bridge e') = retire_pending (bridge e) → wake_byte (bridge e') = wake_byte (bridge e) →
    let b := bridge (queue_worker_event e' ev) in
    commands b = commands (bridge e) ∧ canceled (bridge e) ⊆ canceled b
    ∧ retire_pending b = retire_pending (bridge e) ∧ wake_byte b = wake_byte (bridge e)) as Hq.
  { intros ev e' ????. cbn zeta. destruct (queue_event_bridge e' ev) as (-> & -> & -> & ->). done. }
  destruct (mark_canceled_bridge e (request_id event)) as (M1 & M2 & M3 & M4 & _).
  destruct (type event); cbn [snd]; try done; try (by apply Hq).
  - unfold handle_ready. by destruct (parse_ready_proof _) as [[? ?] ?].
  - apply Hq; [done| |done|done]. rewrite M2. apply union_subseteq_r.
  - case_match; cbn [snd]; [done|by apply Hq].
  - destruct (exit_event_bridge e) as (-> & -> & -> & ->). done.
  - apply Hq; [done| |done|done]. rewrite M2. apply union_subseteq_r.
Qed.

(** ** Wake-ups *)

Definition unblocked (l : Label) : Prop :=
  match l with Worker env => never_blocks env | Owner _ => True end.

(** A queued command has its wake byte, or the thread is about to swap. *)
Definition woken (s : System) : Prop :=
  commands (bridge (executor s)) ≠ [] → wake_byte (bridge (executor s)) = true ∨ pc s = Pc_swap.

Lemma submit_wakes e c : (commands (bridge e) ≠ [] → wake_byte (bridge e) = true) →
  wake_byte (bridge (submit e c)) = true.
Proof.
  intros Hw. unfold submit. case_match; cbn; case_match; bools; cbn; auto.
Qed.

Lemma woken_submit s c : woken s → woken (mkSystem (pc s) (submit (executor s) c) (drained s)).
Proof.
  unfold woken. cbn. intros Hw _.
  destruct (decide (commands (bridge (executor s)) = [])) as [Hn|Hn].
  - left. by apply submit_wakes.
  - destruct (Hw Hn) as [Hb|]; [|by right]. left. by apply submit_wakes.
Qed.

Lemma woken_shutdown s : woken s → woken (mkSystem (pc s) (request_shutdown (executor s)) (drained s)).
Proof.
  intros Hw. unfold request_shutdown. case_match; [by destruct s|].
  by apply (woken_submit (mkSystem (pc s) (set_life (executor s) _) (drained s))).
Qed.

Lemma woken_same s p e : woken s → commands (bridge e) = commands (bridge (executor s)) →
  wake_byte (bridge e) = wake_byte (bridge (executor s)) → pc s ≠ Pc_swap →
  woken (mkSystem p e (drained s)).
Proof. unfold woken. cbn. intros Hw -> -> Hp Hc. destruct (Hw Hc); [by left|done]. Qed.

Lemma woken_owner op s : (pc s ≠ Pc_none → started (life (executor s)) = true) → woken s →
  woken (owner_step op s).
Proof.
  intros Hst Hw. destruct op; cbn [owner_step].
  - unfold start. destruct (started _) eqn:Es; [by destruct s|].
    assert (pc s ≠ Pc_swap) by (intros Hp; rewrite Hp in Hst; by specialize (Hst ltac:(done))).
    destruct spawned; by apply woken_same.
  - unfold finish_start. case_match; [by destruct s|]. by apply woken_shutdown.
  - unfold adopt. destruct (started _) eqn:Es; [by destruct s|].
    assert (pc s ≠ Pc_swap) by (intros Hp; rewrite Hp in Hst; by specialize (Hst ltac:(done))).
    destruct handle; by apply woken_same.
  - by apply woken_submit.
  - by apply woken_shutdown.
  - by apply (woken_submit (mkSystem (pc s) (set_probe (executor s) _) (drained s))).
  - by apply woken_submit.
  - destruct (mark_canceled_bridge (executor s) id) as (H1 & _ & _ & H4 & _).
    unfold woken in *. cbn. by rewrite H1, H4.
  - destruct (mark_canceled_bridge (executor s) id) as (H1 & _ & _ & H4 & _).
    unfold woken in *. cbn. rewrite H1, H4. intros Hf. apply Hw. intros E. by rewrite E in Hf.
  - done.
Qed.

Lemma woken_worker env s : never_blocks env → woken s → woken (step x s (Worker env)).
Proof.
  intros Hn Hw. cbn [step].
  assert (∀ e, commands (bridge e) = commands (bridge (executor s)) →
    wake_byte (bridge e) = wake_byte (bridge (executor s)) → pc s ≠ Pc_swap →
    woken (mkSystem Pc_exit (queue_worker_exit_event e) (drained s))) as Hx.
  { intros e H1 H2 H3. destruct (exit_event_bridge e) as (E1 & _ & _ & E4).
    apply woken_same; [done|congruence|congruence|done]. }
  destruct (pc s) as [| | |[|c local]|c local| | | | | | | | |] eqn:Ep; cbn [worker_step];
    try (by apply woken_same; rewrite ?Ep).
  - by right.
  - repeat case_match; unfold woken; cbn; done.
  - destruct (dropped _ _); by apply woken_same; rewrite ?Ep.
  - destruct (run_command_effect env (executor s) c) as [[H1|(_ & _ & ?)] _ _ H4]; [|done].
    destruct (run_command env (executor s) c) as [[] e]; cbn in *; [|by apply Hx].
    by apply woken_same; rewrite ?Ep.
  - unfold batch_flush. destruct (answer env call_flush); first [by apply Hx|by apply woken_same; rewrite ?Ep].
  - destruct (incoming env) as [[] event]; try (by apply Hx); [|by apply woken_same; rewrite ?Ep].
    destruct (handle_event_bridge (executor s) event) as (H1 & _ & _ & H4).
    destruct (handle_worker_protocol_event x (executor s) event) as [[] e]; cbn in *;
      by apply woken_same; rewrite ?Ep.
  - destruct (poll_worker _ _ _) as [[]|]; first [by apply Hx|by apply woken_same; rewrite ?Ep].
Qed.

Lemma woken_run labels : Forall unblocked labels → woken (run x labels new_System).
Proof.
  induction labels as [|l labels IH] using rev_ind; [by intros _ Hc; destruct Hc|].
  intros [Hu Hl]%Forall_app. apply Forall_inv in Hl. rewrite run_snoc. specialize (IH Hu).
  destruct l as [op|env]; [|apply woken_worker; [exact Hl|exact IH]].
  apply woken_owner; [|done]. apply (ri_started labels _ (reaper_inv_run labels)).
Qed.
End runs.

(** ** Terminal requests

    [silent r] is what holds of request [r] at every point: [m] and [t] say that
    the owner has marked it canceled or retired it, [T] that its terminal event
    was queued; the rest is the command being executed, the thread's batch, the
    queue, the tombstones and the retirements. *)

Definition frame_for (r : Z) (c : Command) : Prop := is_frame c = true ∧ command_id c = r.
Definition cancel_for (r : Z) (c : Command) : Prop := is_cancel c = true ∧ command_id c = r.
Definition no_frame (r : Z) (cs : list Command) : Prop := Forall (λ c, ¬ frame_for r c) cs.

Definition exec_list (ex : option Command) : list Command :=
  match ex with Some c => [c] | None => [] end.

(** No frame of [r] comes after a cancel of [r]. *)
Inductive ordered (r : Z) : list Command → Prop :=
| ordered_nil : ordered r []
| ordered_cons c cs : (cancel_for r c → no_frame r cs) → ordered r cs → ordered r (c :: cs).

Record silent (r : Z) (m t : bool) (T : Prop) (ex : option Command) (loc cmds : list Command)
    (canc pend : gset Z) : Prop := {
  si_tomb : T ∨ m = true → r ∈ canc ∨ no_frame r (exec_list ex ++ loc ++ cmds);
  si_exec : T → no_frame r (exec_list ex);
  si_cancel : Exists (cancel_for r) (exec_list ex ++ loc ++ cmds) → m = true;
  si_open : T → m = false → t = false → r ∈ canc;
  si_pend : r ∈ pend → t = true;
  si_retired : t = true → T ∧ no_frame r cmds;
  si_order : ordered r (loc ++ cmds);
  si_running : Exists (cancel_for r) (exec_list ex) → no_frame r (loc ++ cmds);
  si_batch : Exists (cancel_for r) loc → no_frame r (exec_list ex)
}.

Lemma frame_not_cancel r c : frame_for r c → ¬ cancel_for r c.
Proof.
  intros [Hf _] [Hc _]. unfold is_frame, is_cancel in *. bools. by rewrite Hc in Hf.
Qed.

Lemma no_frame_sublist r l k : l `sublist_of` k → no_frame r k → no_frame r l.
Proof.
  unfold no_frame. rewrite !Forall_forall. intros Hs Hn c Hc. apply Hn. by eapply elem_of_sublist.
Qed.

Lemma cancel_sublist r l k : l `sublist_of` k → Exists (cancel_for r) l → Exists (cancel_for r) k.
Proof.
  intros Hs. rewrite !Exists_exists. intros (c & Hc & Hp). exists c. split; [|done].
  by eapply elem_of_sublist.
Qed.

Lemma ordered_sublist r l k : l `sublist_of` k → ordered r k → ordered r l.
Proof.
  induction 1 as [|c l k Hs IH|c l k Hs IH]; intros Ho; [done| |];
    inversion Ho as [|? ? Hc Ho']; subst.
  - constructor; [|by apply IH]. intros Hr. by eapply no_frame_sublist; [|apply Hc].
  - by apply IH.
Qed.

Lemma ordered_insert_end r l c : (frame_for r c → Forall (λ d, ¬ cancel_for r d) l) →
  ordered r l → ordered r (l ++ [c]).
Proof.
  intros Hf. induction l as [|d l IH]; cbn; intros Ho.
  - constructor; [by intros; constructor|constructor].
  - inversion Ho as [|? ? Hd Ho']; subst. constructor.
    + intros Hr. apply Forall_app. split; [by apply Hd|]. constructor; [|done].
      intros Hfc. specialize (Hf Hfc). by inversion Hf.
    + apply IH; [|done]. intros Hfc. specialize (Hf Hfc). by inversion Hf.
Qed.

(** Inserting a frame behind commands none of which cancels it, or inserting a
    command that is neither. *)
Lemma ordered_insert r l c k : (frame_for r c → Forall (λ d, ¬ cancel_for r d) l) →
  ¬ cancel_for r c → ordered r (l ++ k) → ordered r (l ++ c :: k).
Proof.
  intros Hf Hc. induction l as [|d l IH]; cbn; intros Ho; [by constructor|].
  inversion Ho as [|? ? Hd Ho']; subst. constructor.
  - intros Hr. specialize (Hd Hr). apply Forall_app in Hd as [H1 H2]. apply Forall_app.
    split; [done|]. constructor; [|done]. intros Hfc. specialize (Hf Hfc).
    by inversion Hf.
  - apply IH; [|done]. intros Hfc. specialize (Hf Hfc). by inversion Hf.
Qed.

Section silent.
Context (r : Z) (m t : bool) (T : Prop) (ex : option Command) (loc cmds : list Command)
  (canc pend : gset Z).
Hypothesis Hs : silent r m t T ex loc cmds canc pend.

(** Dropping commands; the tombstones may grow. *)
Lemma silent_shrink ex' loc' cmds' canc' :
  exec_list ex' `sublist_of` exec_list ex →
  loc' `sublist_of` loc → cmds' `sublist_of` cmds → canc ⊆ canc' →
  silent r m t T ex' loc' cmds' canc' pend.
Proof.
  intros H1 H2 H3 H4. destruct Hs.
  assert (loc' ++ cmds' `sublist_of` loc ++ cmds) by (by apply sublist_app).
  assert (exec_list ex' ++ loc' ++ cmds' `sublist_of` exec_list ex ++ loc ++ cmds)
    by (by apply sublist_app).
  split; eauto using no_frame_sublist, cancel_sublist, ordered_sublist.
  - intros HT. destruct (si_tomb0 HT); [left; by apply H4|right; by eapply no_frame_sublist].
  - intros Ht. destruct (si_retired0 Ht). split; [done|by eapply no_frame_sublist].
Qed.

Lemma silent_submit c : (frame_for r c → m = false ∧ t = false) → (cancel_for r c → m = true) →
  silent r m t T ex loc (cmds ++ [c]) canc pend.
Proof.
  intros Hf Hc. destruct Hs.
  assert (frame_for r c → ¬ Exists (cancel_for r) (exec_list ex ++ loc ++ cmds)) as Hnc.
  { intros Hfc He. destruct (Hf Hfc). rewrite si_cancel0 in *; done. }
  assert (¬ frame_for r c → no_frame r [c]) as Hnf by (intros; by constructor).
  split; auto.
  - intros HT. destruct (decide (is_frame c = true ∧ command_id c = r)) as [Hfc|Hfc].
    + left. destruct (Hf Hfc) as [Hm Ht]. destruct HT as [HT|HT]; [auto|congruence].
    + destruct (si_tomb0 HT); [by left|right].
      rewrite !(assoc (++)) in *. apply Forall_app. auto.
  - rewrite !(assoc (++)). intros [He|He]%Exists_app; [rewrite <- (assoc (++)) in He; auto|].
    apply Exists_cons in He as [He|He]; [auto|by inversion He].
  - intros Ht. destruct (si_retired0 Ht). split; [done|]. apply Forall_app. split; [done|].
    apply Hnf. intros [_ Hf']%Hf. congruence.
  - rewrite (assoc (++)). apply (ordered_insert_end r); [|done].
    intros Hfc. apply Forall_forall. intros d Hd Hcd. apply (Hnc Hfc).
    apply Exists_app. right. apply Exists_exists. by exists d.
  - intros He. rewrite (assoc (++)). apply Forall_app. split; [by apply si_running0|].
    apply Hnf. intros Hfc. apply (Hnc Hfc). apply Exists_app. by left.
Qed.

(** The owner marks or retires the request. *)
Lemma silent_mark canc' : r ∈ canc' → silent r true t T ex loc cmds canc' pend.
Proof. intros Hr. destruct Hs. split; auto. Qed.

Lemma silent_retire cmds' canc' pend' : T → r ∈ canc' → no_frame r cmds' → cmds' `sublist_of` cmds →
  silent r m true T ex loc cmds' canc' pend'.
Proof.
  intros HT Hr Hn Hsub. destruct Hs.
  assert (loc ++ cmds' `sublist_of` loc ++ cmds) by (by apply sublist_app).
  assert (exec_list ex ++ loc ++ cmds' `sublist_of` exec_list ex ++ loc ++ cmds)
    by (by apply sublist_app).
  split; eauto using no_frame_sublist, cancel_sublist, ordered_sublist.
Qed.

(** The thread takes the queue. *)
Lemma silent_swap : ex = None → loc = [] → silent r m t T None cmds [] canc pend.
Proof.
  intros -> ->. destruct Hs. cbn [exec_list app] in *.
  split; cbn [exec_list app]; rewrite ?app_nil_r; auto; try (by constructor).
  intros Ht. destruct (si_retired0 Ht). split; [done|constructor].
Qed.

(** The head of the batch passes the tombstone check. *)
Lemma silent_take c loc' : ex = None → loc = c :: loc' → (is_frame c = true → command_id c ∉ canc) →
  silent r m t T (Some c) loc' cmds canc pend.
Proof.
  intros -> -> Hd. destruct Hs. cbn [exec_list app] in *.
  assert (r ∉ canc ∨ ¬ frame_for r c) as Hcase.
  { destruct (decide (is_frame c = true ∧ command_id c = r)) as [[Hf <-]|Hn]; [left; auto|by right]. }
  assert (T ∨ m = true → ¬ frame_for r c) as Hnf.
  { intros HT Hf. destruct (si_tomb0 HT) as [Hr|Hn]; [by destruct Hcase|]. by inversion Hn. }
  split; cbn [exec_list app]; auto.
  - intros HT. constructor; [auto|constructor].
  - by inversion si_order0.
  - intros He. apply Exists_cons in He as [He|He]; [|inversion He]. inversion si_order0; auto.
  - intros He. constructor; [|constructor]. apply Hnf. right. apply si_cancel0.
    apply Exists_cons. right. apply Exists_app. by left.
Qed.

(** A blocked frame goes back to the front of the queue. *)
Lemma silent_push_back c : ex = Some c → is_frame c = true →
  silent r m t T None loc (c :: cmds) canc pend.
Proof.
  intros -> Hf. destruct Hs. cbn [exec_list app] in *.
  assert (¬ cancel_for r c) as Hnc.
  { intros [Hc _]. unfold is_frame, is_cancel in *. bools. by rewrite Hc in Hf. }
  assert (no_frame r [c] ∨ frame_for r c) as Hcase.
  { destruct (decide (is_frame c = true ∧ command_id c = r)); [by right|left]. by constructor. }
  split; cbn [exec_list app]; auto; try (by intros; constructor).
  - intros HT. destruct (si_tomb0 HT) as [|Hn]; [by left|right].
    inversion Hn as [|? ? H1 H2]; subst. apply Forall_app in H2 as [H2 H3].
    apply Forall_app. split; [done|by constructor].
  - intros He. apply si_cancel0. apply Exists_app in He as [He|He].
    + apply Exists_cons. right. apply Exists_app. by left.
    + apply Exists_cons in He as [He|He]; [done|]. apply Exists_cons. right. apply Exists_app. by right.
  - intros Ht. destruct (si_retired0 Ht) as [HT Hn]. split; [done|].
    constructor; [|done]. specialize (si_exec0 HT). by inversion si_exec0.
  - apply ordered_insert; [|done|done]. intros Hfc. apply Forall_forall. intros d Hd Hcd.
    assert (no_frame r [c]) as Hn by (apply si_batch0, Exists_exists; by exists d).
    by inversion Hn.
  - intros He. inversion He.
Qed.

(** The executed command leaves; a delivered cancel takes its tombstone. *)
Lemma silent_done c canc' : ex = Some c →
  (canc' = canc ∨ canc' = canc ∖ {[command_id c]} ∧ is_cancel c = true) →
  silent r m t T None loc cmds canc' pend.
Proof.
  intros Hx Hc.
  assert (silent r m t T None loc cmds canc pend) as H1.
  { apply silent_shrink; try done. apply sublist_nil_l. }
  destruct Hc as [->|[-> Hc]]; [done|].
  destruct (decide (command_id c = r)) as [Hr|Hr].
  - destruct Hs. subst ex. cbn [exec_list app] in *.
    assert (no_frame r (loc ++ cmds)) as Hn by (apply si_running0, Exists_cons; by left).
    assert (m = true) as Hm by (apply si_cancel0, Exists_cons; by left).
    destruct H1. split; auto. by rewrite Hm.
  - assert (r ∈ canc → r ∈ canc ∖ {[command_id c]}) as Hk.
    { intros. apply elem_of_difference. rewrite elem_of_singleton. auto. }
    destruct H1. split; auto. intros HT. destruct (si_tomb0 HT); auto.
Qed.

(** The retirement point. *)
Lemma silent_retirement : ex = None → loc = [] → silent r m t T None [] cmds (canc ∖ pend) ∅.
Proof.
  intros -> ->. destruct Hs. cbn [exec_list app] in *.
  assert (r ∉ pend → r ∈ canc → r ∈ canc ∖ pend) as Hk by (intros; by apply elem_of_difference).
  split; cbn [exec_list app]; auto.
  - intros HT. destruct (decide (r ∈ pend)) as [Hp|Hp].
    + right. by apply si_retired0, si_pend0.
    + destruct (si_tomb0 HT); auto.
  - intros HT Hm Ht. destruct (decide (r ∈ pend)) as [Hp|Hp]; [by rewrite si_pend0 in Ht|]. auto.
  - intros He. by apply elem_of_empty in He.
Qed.

(** The terminal event itself: the thread marked the request first. *)
Lemma silent_terminal (T' : Prop) canc' : ex = None → (T → T') → canc ⊆ canc' → (T' → T ∨ r ∈ canc') →
  silent r m t T' None loc cmds canc' pend.
Proof.
  intros -> HTT Hsub Hnew. destruct Hs. cbn [exec_list app] in *.
  split; cbn [exec_list app]; auto.
  - intros HT. destruct HT as [HT|HT]; [destruct (Hnew HT) as [HT0|]; [|by left]|].
    + destruct (si_tomb0 (or_introl HT0)); [left; by apply Hsub|by right].
    + destruct (si_tomb0 (or_intror HT)); [left; by apply Hsub|by right].
  - intros _. constructor.
  - intros HT Hm Ht. destruct (Hnew HT); [|done]. apply Hsub. auto.
  - intros Ht. destruct (si_retired0 Ht). auto.
Qed.
End silent.

Section protocol.
Context {real : Type} `{Strtod real} (x : Externals real) (r : Z).

Definition terminal_event (ev : WorkerEvent) : Prop :=
  event_id ev = r ∧ (event_type ev = Event_kResponseEnd ∨ event_type ev = Event_kRequestTimeout).

Definition terminal_queued (s : System) : Prop := Exists terminal_event (all_events s).

Definition marks (l : Label) : bool :=
  match l with Owner (Op_mark_canceled id) => id =? r | _ => false end.
Definition retires (l : Label) : bool :=
  match l with Owner (Op_retire_terminal_request id) => id =? r | _ => false end.

(** What the listener promises for [r], given the labels so far: once it has
    canceled or retired the request it submits no further frame for it, it
    cancels only what it marked, and it retires only what has ended. *)
Definition owner_ok (labels : list Label) (l : Label) : Prop :=
  match l with
  | Owner (Op_submit c) =>
      (frame_for r c → existsb marks labels = false ∧ existsb retires labels = false)
      ∧ (cancel_for r c → existsb marks labels = true)
  | Owner (Op_retire_terminal_request id) => id = r → terminal_queued (run x labels new_System)
  | _ => True
  end.

Inductive follows_protocol : list Label → Prop :=
| protocol_nil : follows_protocol []
| protocol_snoc labels l :
    follows_protocol labels → owner_ok labels l → follows_protocol (labels ++ [l]).

Definition executing (p : Pc) : option Command :=
  match p with Pc_execute c _ => Some c | _ => None end.
Definition batch_of (p : Pc) : list Command :=
  match p with Pc_batch l | Pc_execute _ l => l | _ => [] end.

Definition silent_at (m t : bool) (s : System) : Prop :=
  let b := bridge (executor s) in
  silent r m t (terminal_queued s) (executing (pc s)) (batch_of (pc s)) (commands b) (canceled b)
    (retire_pending b).

(** The terminal event is what the parts of a step can change. *)
Lemma terminal_same s s' : all_events s' = all_events s → terminal_queued s' ↔ terminal_queued s.
Proof. unfold terminal_queued. by intros ->. Qed.

Lemma silent_T m t T T' ex loc cmds canc pend : (T ↔ T') →
  silent r m t T ex loc cmds canc pend → silent r m t T' ex loc cmds canc pend.
Proof. intros HT []. split; rewrite <- ?HT; auto. Qed.

Lemma submit_bridge e c : let b := bridge (submit e c) in
  commands b = commands (bridge e) ++ [c] ∧ canceled b = canceled (bridge e)
  ∧ retire_pending b = retire_pending (bridge e) ∧ events b = events (bridge e).
Proof. unfold submit. repeat case_match; done. Qed.

Lemma silent_at_submit m t s e c : silent_at m t s → bridge e = bridge (executor s) →
  (frame_for r c → m = false ∧ t = false) → (cancel_for r c → m = true) →
  silent_at m t (mkSystem (pc s) (submit e c) (drained s)).
Proof.
  intros Hs He Hf Hc. unfold silent_at in *. cbn [pc executor drained].
  destruct (submit_bridge e c) as (-> & -> & -> & Hev). rewrite He in *.
  apply (silent_T _ _ (terminal_queued s)); [|by apply silent_submit].
  symmetry. apply terminal_same. unfold all_events. cbn. by rewrite Hev.
Qed.

Lemma silent_at_shutdown m t s : silent_at m t s →
  silent_at m t (mkSystem (pc s) (request_shutdown (executor s)) (drained s)).
Proof.
  intros Hs. unfold request_shutdown. case_match; [by destruct s|].
  by apply silent_at_submit; [| |intros [[=] _]..].
Qed.

(** Moves of the thread outside a batch, with the executor's queue unchanged. *)
Lemma silent_at_idle m t s p e : silent_at m t s →
  executing p = None → batch_of p = [] → bridge e = bridge (executor s) →
  silent_at m t (mkSystem p e (drained s)).
Proof.
  intros Hs H1 H2 He. unfold silent_at in *. cbn [pc executor drained]. rewrite H1, H2, He.
  apply (silent_T _ _ (terminal_queued s)).
  { symmetry. apply terminal_same. unfold all_events. cbn. by rewrite He. }
  eapply silent_shrink; [done|..]; try apply sublist_nil_l; done.
Qed.

Lemma marked_snoc f labels (l : Label) : existsb f (labels ++ [l]) = existsb f labels || f l.
Proof. by rewrite existsb_app; cbn; rewrite orb_false_r. Qed.

Lemma silent_at_mark m t s id : silent_at m t s →
  silent_at (m || (id =? r)) t (mkSystem (pc s) (mark_canceled (executor s) id) (drained s)).
Proof.
  intros Hs. unfold silent_at in *. cbn [pc executor drained].
  destruct (mark_canceled_bridge (executor s) id) as (-> & -> & -> & _ & Hev).
  apply (silent_T _ _ (terminal_queued s)).
  { symmetry. apply terminal_same. unfold all_events. cbn. by rewrite Hev. }
  destruct (id =? r) eqn:Er; bools.
  - rewrite orb_true_r. eapply silent_mark; [done|]. apply elem_of_union_l. by apply elem_of_singleton.
  - rewrite orb_false_r. eapply silent_shrink; [done..|]. apply union_subseteq_r.
Qed.

Lemma filter_sublist {A} (f : A → bool) (l : list A) : List.filter f l `sublist_of` l.
Proof.
  induction l as [|a l IH]; cbn; [done|]. case_match; by constructor.
Qed.

Lemma silent_at_retire m t s id : silent_at m t s → (id = r → terminal_queued s) →
  silent_at m (t || (id =? r)) (mkSystem (pc s) (retire_terminal_request (executor s) id) (drained s)).
Proof.
  intros Hs HT. unfold silent_at, retire_terminal_request in *. cbn [pc executor drained].
  destruct (mark_canceled_bridge (executor s) id) as (E1 & E2 & E3 & _ & Hev).
  cbn [bridge set_bridge commands canceled retire_pending]. rewrite E1, E2, E3.
  apply (silent_T _ _ (terminal_queued s)).
  { symmetry. apply terminal_same. unfold all_events. cbn. by rewrite Hev. }
  pose proof (filter_sublist (λ c, negb (command_id c =? id)) (commands (bridge (executor s)))) as Hsub.
  destruct (id =? r) eqn:Er; bools.
  - rewrite orb_true_r. subst id. eapply silent_retire; [done|by apply HT| | |done].
    + apply elem_of_union_l. by apply elem_of_singleton.
    + apply Forall_forall. intros c Hc [_ Hr]. apply list_elem_of_In, filter_In in Hc as [_ Hc]. bools.
      done.
  - rewrite orb_false_r. destruct (silent_shrink r m t _ _ _ _ _ _ Hs _ _ _ _ (reflexivity _)
      (reflexivity _) Hsub (union_subseteq_r {[id]} _)). split; auto.
    intros [Hp|Hp]%elem_of_union; [apply elem_of_singleton in Hp; congruence|auto].
Qed.

Lemma silent_owner labels op s : s = run x labels new_System → owner_ok labels (Owner op) →
  silent_at (existsb marks labels) (existsb retires labels) s →
  silent_at (existsb marks (labels ++ [Owner op])) (existsb retires (labels ++ [Owner op]))
    (owner_step op s).
Proof.
  intros -> Hok Hs. rewrite !marked_snoc. set (s := run x labels new_System) in *.
  pose proof (ri_started x labels _ (reaper_inv_run x labels)) as Hst. fold s in Hst.
  assert (∀ e h, started (life (executor s)) = false → bridge e = bridge (executor s) →
    silent_at (existsb marks labels) (existsb retires labels)
      (mkSystem (if h : bool then Pc_drain else pc s) e (drained s))) as Hstart.
  { intros e h Hn He.
    assert (pc s = Pc_none) as Hp by (destruct (pc s); try done; rewrite Hst in Hn; done).
    apply silent_at_idle; [done| | |done]; destruct h; by rewrite ?Hp. }
  destruct op; cbn [owner_step marks retires]; rewrite ?orb_false_r.
  - unfold start. destruct (started _); [by destruct s|].
    destruct spawned; [by apply (Hstart _ true)|by apply (Hstart _ false)].
  - unfold finish_start. case_match; [by destruct s|]. by apply silent_at_shutdown.
  - unfold adopt. destruct (started _); [by destruct s|].
    destruct handle; [by apply (Hstart _ true)|by apply (Hstart _ false)].
  - destruct Hok. by apply silent_at_submit.
  - by apply silent_at_shutdown.
  - by apply silent_at_submit; [| |intros [[=] _]..].
  - by apply silent_at_submit; [| |intros [[=] _]..].
  - by apply silent_at_mark.
  - by apply silent_at_retire.
  - unfold silent_at in *. cbn. eapply silent_T; [|exact Hs]. symmetry. apply terminal_same.
    unfold all_events. cbn. by rewrite app_nil_r.
Qed.

(** Events that are not terminal leave [terminal_queued] alone. *)
Definition adds_events (e e' : WorkerExecutor) : Prop :=
  ∃ evs, events (bridge e') = events (bridge e) ++ evs ∧ Forall (λ ev, ¬ terminal_event ev) evs.

Lemma terminal_adds s p e : adds_events (executor s) e →
  terminal_queued (mkSystem p e (drained s)) ↔ terminal_queued s.
Proof.
  intros (evs & Hev & Hn). unfold terminal_queued, all_events. cbn. rewrite Hev, (assoc (++)).
  rewrite Exists_app. split; [|by left]. intros [?|He]; [done|].
  apply Exists_exists in He as (ev & Hin & Ht). rewrite Forall_forall in Hn. by destruct (Hn ev Hin).
Qed.

Lemma adds_nothing e e' : events (bridge e') = events (bridge e) → adds_events e e'.
Proof. intros He. exists []. by rewrite app_nil_r. Qed.

Lemma adds_one e e' ev : events (bridge e') = events (bridge e) →
  event_type ev ≠ Event_kResponseEnd → event_type ev ≠ Event_kRequestTimeout →
  adds_events e (queue_worker_event e' ev).
Proof.
  intros He H1 H2. exists [ev]. rewrite <- He. unfold queue_worker_event.
  split; [by case_match|]. constructor; [|constructor]. by intros [_ [?|?]].
Qed.

Lemma adds_exit e e' : adds_events e e' → adds_events e (queue_worker_exit_event e').
Proof.
  intros (evs & He & Hn). unfold queue_worker_exit_event. case_match; [by exists evs|].
  exists (evs ++ [new_WorkerEvent Event_kExit 0]). cbn. rewrite He, (assoc (++)). split; [done|].
  apply Forall_app. split; [done|]. constructor; [|constructor]. by intros [_ [?|?]].
Qed.

Lemma run_command_adds env e c : adds_events e (run_command env e c).2.
Proof.
  unfold run_command, report_runtime_failure. destruct (command_type c); cbn [snd];
    repeat (case_match; cbn [snd]); first [by apply adds_nothing|by apply adds_one].
Qed.

(** Any exit path: the batch is forgotten. *)
Lemma silent_at_exit m t s e : silent_at m t (mkSystem Pc_exit e (drained s)) →
  silent_at m t (mkSystem Pc_exit (queue_worker_exit_event e) (drained s)).
Proof.
  intros Hs. unfold silent_at in *. cbn [pc executor executing batch_of] in *.
  destruct (exit_event_bridge e) as (-> & -> & -> & _).
  eapply silent_T; [|exact Hs]. symmetry.
  apply (terminal_adds (mkSystem Pc_exit e (drained s)) Pc_exit), adds_exit. by apply adds_nothing.
Qed.

Lemma silent_execute m t s env c loc : pc s = Pc_execute c loc → silent_at m t s →
  let e := (run_command env (executor s) c).2 in
  silent_at m t (mkSystem (Pc_batch loc) e (drained s))
  ∧ silent_at m t (mkSystem Pc_exit e (drained s)).
Proof.
  intros Ep Hs e.
  assert (silent_at m t (mkSystem (Pc_batch loc) e (drained s))) as Hb.
  { unfold silent_at in *. cbn [pc executor drained executing batch_of] in *.
    rewrite Ep in Hs. cbn [executing batch_of] in Hs.
    eapply silent_T; [symmetry; apply terminal_adds, run_command_adds|].
    destruct (run_command_effect env (executor s) c) as [Hc1 Hc2 Hc3 _]. fold e in Hc1, Hc2, Hc3.
    rewrite Hc3. destruct Hc1 as [->|(-> & Hf & _)]; [by eapply silent_done|].
    destruct Hc2 as [->|[_ Hc]]; [by eapply silent_push_back|].
    unfold is_frame, is_cancel in *. bools. by rewrite Hc in Hf. }
  split; [done|]. unfold silent_at in *. cbn [pc executor drained executing batch_of] in *.
  eapply silent_shrink; [eapply silent_T; [|exact Hb]; by apply terminal_same|..]; try done.
  apply sublist_nil_l.
Qed.

(** What the handler queues is terminal only for a request it has marked. *)
Lemma handle_terminal s event p : let e := (handle_worker_protocol_event x (executor s) event).2 in
  (terminal_queued s → terminal_queued (mkSystem p e (drained s)))
  ∧ (terminal_queued (mkSystem p e (drained s)) → terminal_queued s ∨ r ∈ canceled (bridge e)).
Proof.
  cbn zeta. unfold handle_worker_protocol_event.
  assert (∀ e, adds_events (executor s) e →
    (terminal_queued s → terminal_queued (mkSystem p e (drained s)))
    ∧ (terminal_queued (mkSystem p e (drained s)) → terminal_queued s ∨ r ∈ canceled (bridge e))) as Ha.
  { intros e He. rewrite (terminal_adds s p e He). auto. }
  assert (∀ k, let e := queue_worker_event (mark_canceled (executor s) (request_id event))
                 (new_WorkerEvent k (request_id event)) in
    (terminal_queued s → terminal_queued (mkSystem p e (drained s)))
    ∧ (terminal_queued (mkSystem p e (drained s)) → terminal_queued s ∨ r ∈ canceled (bridge e))) as Hm.
  { intros k. cbn zeta. destruct (mark_canceled_bridge (executor s) (request_id event)) as (_ & M2 & _ & _ & M5).
    set (ev := new_WorkerEvent k _). set (e0 := mark_canceled _ _) in *.
    destruct (queue_event_bridge e0 ev) as (_ & -> & _ & _). rewrite M2.
    assert (events (bridge (queue_worker_event e0 ev)) = events (bridge (executor s)) ++ [ev]) as Hev.
    { unfold queue_worker_event. rewrite M5. by case_match. }
    unfold terminal_queued, all_events. cbn. rewrite Hev, (assoc (++)).
    split; [intros ?; apply Exists_app; by left|]. intros [?|He]%Exists_app; [by left|]. right. apply Exists_cons in He as [[Hr _]|He]; [|inversion He].
    apply elem_of_union_l, elem_of_singleton. done. }
  case_match; [by apply Ha, adds_nothing|].
  destruct (type event); cbn [snd]; try apply Hm; try (apply Ha; by apply adds_one);
    try (by apply Ha, adds_nothing).
  - apply Ha, adds_nothing. unfold handle_ready. by destruct (parse_ready_proof _) as [[? ?] ?].
  - destruct (decode_worker_log_event x event) as [|log] eqn:Hd; [by apply Ha, adds_nothing|].
    apply decode_log_type in Hd. cbn [snd]. apply Ha, adds_one; [done|cbn; by rewrite Hd..].
  - by apply Ha, adds_exit, adds_nothing.
Qed.

Lemma silent_worker m t env s : silent_at m t s → silent_at m t (step x s (Worker env)).
Proof.
  intros Hs. cbn [step].
  assert (∀ p e, executing p = None → batch_of p = [] → bridge e = bridge (executor s) →
    silent_at m t (mkSystem p e (drained s))) as Hi by (intros; by apply silent_at_idle).
  assert (∀ e, bridge e = bridge (executor s) →
    silent_at m t (mkSystem Pc_exit (queue_worker_exit_event e) (drained s))) as Hx.
  { intros e He. apply (silent_at_exit _ _ s e). by apply Hi. }
  destruct (pc s) as [| | |[|c local]|c local| | | | | | | | |] eqn:Ep; cbn [worker_step];
    try (by apply Hi).
  - unfold silent_at in *. by rewrite Ep in Hs.
  - unfold silent_at in *. rewrite Ep in Hs.
    match goal with |- context [mkSystem _ ?e _] => set (e' := e) end.
    assert (bridge e' = bridge (set_commands (executor s) [])) as He by (unfold e'; by repeat case_match).
    cbn [pc executor]. rewrite He. eapply silent_T; [|by eapply silent_swap].
    symmetry. apply terminal_same. unfold all_events. cbn [executor drained]. by rewrite He.
  - unfold silent_at in *. rewrite Ep in Hs. cbn [executing batch_of] in Hs.
    destruct (dropped (executor s) c) eqn:Hd; unfold dropped in Hd; cbn.
    + eapply silent_shrink; [exact Hs|done|by apply sublist_cons|done|done].
    + eapply silent_take; [exact Hs|done|done|]. intros Hf. unfold is_frame in Hf.
      by destruct (command_type c); bools.
  - destruct (silent_execute m t s env c local Ep Hs) as [Hb He].
    destruct (run_command env (executor s) c) as [[] e]; [done|by apply silent_at_exit].
  - unfold batch_flush. destruct (answer env call_flush); first [by apply Hi|by apply Hx].
  - unfold silent_at in *. rewrite Ep in Hs. cbn in *. by eapply silent_retirement.
  - destruct (incoming env) as [[] event]; try (by apply Hx); [|by apply Hi].
    destruct (handle_event_bridge x (executor s) event) as (H1 & H2 & H3 & _).
    pose proof (handle_terminal s event) as Ht.
    destruct (handle_worker_protocol_event x (executor s) event) as [ok e]; cbn [snd] in *.
    unfold silent_at in *. rewrite Ep in Hs.
    destruct ok; cbn in *; rewrite H1, H3; (eapply silent_terminal; [exact Hs|done|apply Ht|done|apply Ht]).
  - destruct (poll_worker _ _ _) as [[]|]; first [by apply Hi|by apply Hx].
Qed.

Lemma silent_run labels : follows_protocol labels →
  silent_at (existsb marks labels) (existsb retires labels) (run x labels new_System).
Proof.
  induction 1 as [|labels l Hp IH Hok].
  - unfold silent_at. cbn. split; cbn; try done; try (by intros ?%elem_of_empty); try (by constructor).
    + intros [Ht|]; [by apply Exists_nil in Ht|done].
    + by intros ?%Exists_nil.
    + by intros ?%Exists_nil.
  - rewrite run_snoc. destruct l as [op|env]; [by apply silent_owner|].
    rewrite !marked_snoc. cbn [marks retires]. rewrite !orb_false_r. by apply silent_worker.
Qed.
End protocol.

(** ** Properties *)

Section properties.
Context {real : Type} `{Strtod real} (x : Externals real).

(** For every interleaving of the two threads and every behaviour of the
    Runtime: the exit event is queued at most once and is the last event the
    executor ever hands out; the Runtime handle is destroyed at most once and
    no Runtime call is made after it; and an executor that exited without an
    exit event did so on a log event that failed to decode (the one exit path
    that queues none). *)
Theorem executor_reaps_once labels : let s := run x labels new_System in
  (∃ evs, no_exit evs ∧ all_events s = evs ++ (if exit_event_queued (life (executor s))
                                               then [new_WorkerEvent Event_kExit 0] else []))
  ∧ (∃ cs, no_destroy cs ∧ calls (executor s) = cs ++ (if exited (executor s) then [call_destroy] else []))
  ∧ (exited (executor s) = true → worker (executor s) = false ∧ available (executor s) = false)
  ∧ (exited (executor s) = true → exit_event_queued (life (executor s)) = false →
       Exists (malformed_log x) labels).
Proof.
  cbn zeta. destruct (reaper_inv_run x labels) as [Hev Hcs _ Hs Hx Hw _].
  split_and!; [done|done| |].
  - intros He. rewrite Hx in He. unfold worker, available. rewrite Hw by done.
    unfold exited in Hx. rewrite Hx, He, andb_false_r. by destruct (destroying _).
  - intros He. apply Hs. rewrite Hx in He. by destruct (pc _).
Qed.


(** The calls the tombstones guard. *)
Definition frame_call (r : Z) (c : ApiCall) : Prop :=
  match c with
  | call_write_request id _ | call_end_request id | call_grant_response_credit id _ => id = r
  | _ => False
  end.

Definition no_frame_call (r : Z) (cs : list ApiCall) : Prop := Forall (λ c, ¬ frame_call r c) cs.

Lemma report_calls e id res : calls (report_runtime_failure e id res).2 = calls e.
Proof. unfold report_runtime_failure, queue_worker_event. by repeat case_match. Qed.

Lemma run_command_calls r env e c : ¬ frame_for r c →
  ∃ new, calls (run_command env e c).2 = calls e ++ new ∧ no_frame_call r new.
Proof.
  intros Hn. unfold frame_for, is_frame in Hn. unfold run_command.
  assert (∀ a e', calls e' = calls (called e a) → ¬ frame_call r a →
    ∃ new, calls e' = calls e ++ new ∧ no_frame_call r new) as H1.
  { intros a e' He Ha. exists [a]. split; [done|]. by constructor. }
  assert (∀ e', calls e' = calls e → ∃ new, calls e' = calls e ++ new ∧ no_frame_call r new) as H0.
  { intros e' He. exists []. rewrite app_nil_r. by split; [|constructor]. }
  destruct (command_type c); cbn [snd]; repeat (case_match; cbn [snd]);
    first [by apply H0|eapply H1; [rewrite ?report_calls; reflexivity|cbn; try tauto; auto]].
Qed.

Lemma handle_event_calls e event : calls (handle_worker_protocol_event x e event).2 = calls e.
Proof.
  unfold handle_worker_protocol_event.
  assert (∀ e' ev, calls (queue_worker_event e' ev) = calls e') as Hq
    by (intros; unfold queue_worker_event; by case_match).
  case_match; [done|]. destruct (type event); cbn [snd]; rewrite ?Hq; try done;
    try (by destruct (mark_canceled_quiet e (request_id event))).
  - unfold handle_ready. by destruct (parse_ready_proof _) as [[? ?] ?].
  - case_match; cbn [snd]; by rewrite ?Hq.
  - unfold queue_worker_exit_event. by case_match.
Qed.

Lemma owner_quiet op s : all_events (owner_step op s) = all_events s
  ∧ calls (executor (owner_step op s)) = calls (executor s).
Proof.
  unfold all_events. destruct op; cbn [owner_step]; unfold start, finish_start, adopt.
  - repeat case_match; unfold set_started; by repeat case_match.
  - case_match; [done|]. cbn. by destruct (request_shutdown_quiet (executor s)) as [-> ->].
  - repeat case_match; unfold set_started; by repeat case_match.
  - cbn. by destruct (submit_quiet (executor s) command) as [-> ->].
  - cbn. by destruct (request_shutdown_quiet (executor s)) as [-> ->].
  - cbn. unfold submit_probe. by rewrite !(proj1 (submit_quiet _ _)), !(proj2 (submit_quiet _ _)).
  - cbn. unfold cancel_probe. by rewrite !(proj1 (submit_quiet _ _)), !(proj2 (submit_quiet _ _)).
  - cbn. by destruct (mark_canceled_quiet (executor s) id) as [-> ->].
  - cbn. by destruct (mark_canceled_quiet (executor s) id) as [-> ->].
  - cbn. by rewrite app_nil_r.
Qed.

(** A step makes no frame call for a request whose terminal event is queued. *)
Lemma silent_step r m t s l : silent_at r m t s → terminal_queued r s →
  ∃ new, calls (executor (step x s l)) = calls (executor s) ++ new ∧ no_frame_call r new.
Proof.
  intros Hs HT.
  assert (∀ e, calls e = calls (executor s) →
    ∃ new, calls e = calls (executor s) ++ new ∧ no_frame_call r new) as H0.
  { intros e He. exists []. rewrite app_nil_r. by split; [|constructor]. }
  assert (∀ e, calls (queue_worker_exit_event e) = calls e) as Hx
    by (intros; unfold queue_worker_exit_event; by case_match).
  destruct l as [op|env]; cbn [step].
  - apply H0, owner_quiet.
  - destruct (pc s) as [| | |[|c local]|c local| | | | | | | | |] eqn:Ep; cbn [worker_step];
      try (by apply H0).
    + repeat case_match; try (by apply H0). exists [call_terminate]. split; [done|].
      constructor; [cbn; tauto|constructor].
    + destruct (dropped _ _); by apply H0.
    + assert (¬ frame_for r c) as Hn.
      { pose proof (si_exec _ _ _ _ _ _ _ _ _ Hs HT) as Hn. rewrite Ep in Hn. by inversion Hn. }
      destruct (run_command_calls r env (executor s) c Hn) as (new & Hc & Hf). exists new.
      destruct (run_command env (executor s) c) as [[] e]; cbn in *; by rewrite ?Hx.
    + exists [call_flush]. unfold batch_flush. split; [|by constructor; [cbn; tauto|constructor]].
      destruct (answer env call_flush); cbn; by rewrite ?Hx.
    + destruct (incoming env) as [[] event]; try (apply H0; by cbn; rewrite ?Hx).
      pose proof (handle_event_calls (executor s) event) as Hc.
      destruct (handle_worker_protocol_event x (executor s) event) as [[] e]; cbn in *; by apply H0.
    + destruct (poll_worker _ _ _) as [[]|]; apply H0; by cbn; rewrite ?Hx.
    + exists [call_destroy]. split; [done|]. by constructor; [cbn; tauto|constructor].
Qed.

Lemma protocol_prefix r l1 l2 : follows_protocol x r (l1 ++ l2) → follows_protocol x r l1.
Proof.
  induction l2 as [|l l2 IH] using rev_ind; [by rewrite app_nil_r|].
  rewrite (assoc (++)). inversion 1 as [Hn|labels l' Hp Hok Heq].
  - symmetry in Hn. by apply app_eq_nil in Hn as [_ ?].
  - apply app_inj_tail in Heq as [-> ->]. auto.
Qed.

(** Events are only ever appended. *)
Lemma step_events s l : ∃ evs, all_events (step x s l) = all_events s ++ evs.
Proof.
  assert (∀ p e, events (bridge e) = events (bridge (executor s)) →
    ∃ evs, all_events (mkSystem p e (drained s)) = all_events s ++ evs) as H0.
  { intros p e He. exists []. unfold all_events. cbn. by rewrite He, app_nil_r. }
  assert (∀ p e, grows (executor s) e →
    ∃ evs, all_events (mkSystem p e (drained s)) = all_events s ++ evs) as Hg.
  { intros p e [(evs & He & _) _ _ _ _ _]. exists evs. unfold all_events. cbn. by rewrite He, (assoc (++)). }
  assert (∀ p e, grows (executor s) e →
    ∃ evs, all_events (mkSystem p (queue_worker_exit_event e) (drained s)) = all_events s ++ evs) as Hx.
  { intros p e He. unfold queue_worker_exit_event. case_match; [by apply Hg|].
    destruct (Hg p e He) as [evs Hev]. eexists (evs ++ _). unfold all_events in *. cbn in *.
    by rewrite (assoc (++)), Hev, (assoc (++)). }
  destruct l as [op|env]; cbn [step].
  - exists []. rewrite app_nil_r. apply owner_quiet.
  - destruct (pc s) as [| | |[|c local]|c local| | | | | | | | |] eqn:Ep; cbn [worker_step];
      try (by apply H0).
    + repeat case_match; by apply H0.
    + destruct (dropped _ _); by apply H0.
    + pose proof (grows_run_command env (executor s) c).
      destruct (run_command env (executor s) c) as [[] e]; [by apply Hg|by apply Hx].
    + unfold batch_flush. destruct (answer env call_flush); first [by apply H0
        |apply Hx, grows_called; discriminate].
    + destruct (incoming env) as [[] event]; try (apply Hx; apply grows_refl); [|by apply H0].
      destruct (handle_worker_protocol_event x (executor s) event) as [ok e] eqn:Eh.
      apply handle_event_grows in Eh as [[G _]|[-> ->]]; [by destruct ok; apply Hg|].
      apply Hx, grows_refl.
    + destruct (poll_worker _ _ _) as [[]|]; first [by apply H0|apply Hx, grows_refl].
Qed.

Lemma silent_suffix r labels post : follows_protocol x r (labels ++ post) →
  terminal_queued r (run x labels new_System) →
  terminal_queued r (run x (labels ++ post) new_System)
  ∧ ∃ new, calls (executor (run x (labels ++ post) new_System))
           = calls (executor (run x labels new_System)) ++ new ∧ no_frame_call r new.
Proof.
  intros Hp HT. induction post as [|l post IH] using rev_ind.
  { rewrite app_nil_r. split; [done|]. exists []. rewrite app_nil_r. by split; [|constructor]. }
  rewrite (assoc (++)) in Hp. pose proof (protocol_prefix _ _ _ Hp) as Hp'.
  destruct (IH Hp') as [HT' (new & Hc & Hn)].
  replace (labels ++ post ++ [l]) with ((labels ++ post) ++ [l]) by (by rewrite (assoc (++))).
  rewrite !run_snoc. split.
  - destruct (step_events (run x (labels ++ post) new_System) l) as [evs He].
    unfold terminal_queued in *. rewrite He. apply Exists_app. by left.
  - destruct (silent_step r _ _ _ l (silent_run x r _ Hp') HT') as (new' & Hc' & Hn').
    exists (new ++ new'). rewrite Hc', Hc, (assoc (++)). split; [done|by apply Forall_app].
Qed.

(** Once the terminal event of a request is queued (the Runtime has
    forgotten the request), the executor makes no further write, end or credit
    call for it, whatever the interleaving, provided the owner keeps its side:
    no frame after it canceled or retired the request, a cancel only after the
    mark, a retirement only after the terminal event. *)
Theorem terminal_request_silent r labels post :
  follows_protocol x r (labels ++ post) →
  terminal_queued r (run x labels new_System) →
  ∃ new, calls (executor (run x (labels ++ post) new_System))
         = calls (executor (run x labels new_System)) ++ new ∧ no_frame_call r new.
Proof. intros Hp HT. by apply (silent_suffix r labels post). Qed.

(** C27. A worker thread never sleeps on a queued command while the Runtime
    takes every chunk and grant at once: with a command in the queue, the poll
    of a waiting thread returns. *)
Theorem waiting_thread_is_woken labels env : Forall unblocked labels →
  let s := run x labels new_System in
  pc s = Pc_wait → commands (bridge (executor s)) ≠ [] →
  poll_worker env (executor s) (shutdown_deadline (life (executor s))) ≠ None.
Proof.
  intros Hu. cbn zeta. intros Hp Hc.
  destruct (woken_run x labels Hu Hc) as [Hw|]; [|congruence].
  unfold poll_worker. rewrite Hw. by repeat case_match.
Qed.
End properties.

(** ** Examples *)

Lemma protocol_app {real} `{Strtod real} (x : Externals real) r pre post : follows_protocol x r pre →
  (∀ l1 l l2, post = l1 ++ l :: l2 → owner_ok x r (pre ++ l1) l) → follows_protocol x r (pre ++ post).
Proof.
  intros Hp Hok. induction post as [|l post IH] using rev_ind; [by rewrite app_nil_r|].
  rewrite (assoc (++)). constructor.
  - apply IH. intros l1 l' l2 ->. apply (Hok l1 l' (l2 ++ [l])). by rewrite <- (assoc (++)).
  - by apply (Hok post l []).
Qed.

Definition sample_externals : Externals bytes := mkExternals (λ _, None) (λ _, None) None.

Definition sample_event (t : capsid_event_type) (id : Z) : capsid_event :=
  mkCapsidEvent t id 0 0 0 (Some []).

(** A Runtime that accepts everything and has the given event, or none. *)
Definition idle_env : Env :=
  mkEnv 0 (λ _, CAPSID_OK) (CAPSID_WOULD_BLOCK, sample_event CAPSID_EVENT_NONE 0) false false.
Definition event_env (t : capsid_event_type) (id : Z) : Env :=
  mkEnv 0 (λ _, CAPSID_OK) (CAPSID_OK, sample_event t id) false false.
(** One that has no room for a body chunk. *)
Definition full_env : Env :=
  mkEnv 0 (λ c, match c with call_write_request _ _ => CAPSID_WOULD_BLOCK | _ => CAPSID_OK end)
    (CAPSID_WOULD_BLOCK, sample_event CAPSID_EVENT_NONE 0) false false.

Definition write_command (id : Z) (body : bytes) : Command :=
  mkCommand Command_kWriteRequest id [] [] [] body 0 false 0.

Abbreviation sample_run labels := (run (H := text_strtod) sample_externals labels new_System).

(** A request with one chunk and its end, submitted together, over a Runtime
    without room for the chunk; then a full round of the thread. *)
Definition blocked_upload : list Label :=
  [Owner (Op_adopt true); Owner (Op_submit (new_Command Command_kBeginRequest 1));
   Owner (Op_submit (write_command 1 (bs "last"))); Owner (Op_submit (new_Command Command_kEndRequest 1))]
  ++ replicate 12 (Worker full_env).

(** A chunk the Runtime has no room for is put back at the front of the
    queue, but the rest of its batch still runs: the end of the request is sent
    before its last chunk, and the thread then sleeps with the chunk queued.
    Commands submitted afterwards, the shutdown included, find a non-empty
    queue and wake nobody: until the worker itself sends something, the thread
    stays in its poll. *)
Theorem blocked_chunk_overtaken : let s := sample_run blocked_upload in
  calls (executor s) = [call_begin_request false 1 [] [] []; call_write_request 1 (bs "last");
                        call_end_request 1; call_flush]
  ∧ pc s = Pc_wait ∧ commands (bridge (executor s)) = [write_command 1 (bs "last")]
  ∧ ∀ env, poll_error env = false → ipc_readable env = false →
      let s' := owner_step Op_request_shutdown s in
      commands (bridge (executor s')) = [write_command 1 (bs "last"); new_Command Command_kShutdown 0]
      ∧ step (H := text_strtod) sample_externals s' (Worker env) = s'.
Proof.
  set (s := sample_run blocked_upload). vm_compute in s. split_and!; try reflexivity.
  intros env He Hr. split; [reflexivity|]. cbn. unfold poll_worker. by rewrite He, Hr.
Qed.

(** The race behind the hypothesis of [inflight_exact]: a request that begins
    inside the reaper's window and is canceled later wraps the counter. *)
Lemma inflight_race :
  inflight (executor (sample_run
    ([Owner (Op_adopt true); Worker idle_env; Worker idle_env; Worker idle_env; Worker idle_env;
      Worker idle_env; Worker (event_env CAPSID_EVENT_EXIT 0); Worker idle_env; Worker idle_env;
      Owner (Op_submit (new_Command Command_kBeginRequest 1)); Worker idle_env;
      Owner (Op_mark_canceled 1)]))) = 2 ^ 64 - 1.
Proof. by vm_compute. Qed.

(** A malformed log envelope ends the worker without an exit event. *)
Lemma malformed_log_exits_silently :
  let log := mkCapsidEvent CAPSID_EVENT_LOG 0 1 0 0 (Some [Byte.x00]) in
  let s := sample_run
    ([Owner (Op_adopt true)] ++ replicate 5 (Worker idle_env)
     ++ [Worker (mkEnv 0 (λ _, CAPSID_OK) (CAPSID_OK, log) false false)]
     ++ replicate 4 (Worker idle_env)) in
  pc s = Pc_done ∧ exited (executor s) = true ∧ all_events s = [].
Proof. by vm_compute. Qed.


Definition ended_request : list Label :=
  [Owner (Op_adopt true); Owner (Op_submit (new_Command Command_kBeginRequest 7))]
  ++ replicate 7 (Worker idle_env) ++ [Worker (event_env CAPSID_EVENT_RESPONSE_END 7)].
Definition late_grant : list Label :=
  [Owner (Op_submit (new_Command Command_kGrantResponseCredit 7)); Worker idle_env]
  ++ replicate 4 (Worker idle_env).

Lemma terminal_request_silent_witness :
  follows_protocol (H := text_strtod) sample_externals 7 (ended_request ++ late_grant)
  ∧ terminal_queued 7 (sample_run ended_request)
  ∧ ∃ new, calls (executor (sample_run (ended_request ++ late_grant)))
           = calls (executor (sample_run ended_request)) ++ new ∧ no_frame_call 7 new.
Proof.
  assert (follows_protocol (H := text_strtod) sample_externals 7 (ended_request ++ late_grant)) as Hp.
  { apply (protocol_app _ _ []); [constructor|]. intros l1 l l2 Heq.
    assert (In l (l1 ++ l :: l2)) as Hin by (apply in_app_iff; right; by left).
    rewrite <- Heq in Hin.
    assert (existsb (marks 7) l1 = false ∧ existsb (retires 7) l1 = false) as [Hm Hr].
    { assert (∀ f, existsb f (ended_request ++ late_grant) = false → existsb f l1 = false) as Hf.
      { intros f Hf. assert (existsb f (l1 ++ l :: l2) = false) as Ha by (by rewrite <- Heq).
        rewrite existsb_app in Ha. by apply orb_false_iff in Ha as [? _]. }
      split; by apply Hf. }
    unfold ended_request, late_grant in Hin. cbn [app replicate In] in Hin.
    repeat (destruct Hin as [<-|Hin]; [try exact I|]); [| |done].
    - split; [by intros [[=] _]|]. intros [Hc _]. by vm_compute in Hc.
    - split; [done|]. intros [Hc _]. by vm_compute in Hc. }
  assert (terminal_queued 7 (sample_run ended_request)) as HT.
  { unfold terminal_queued. set (evs := all_events _). vm_compute in evs. subst evs.
    constructor. split; [done|by left]. }
  split; [exact Hp|]. split; [exact HT|].
  exact (terminal_request_silent (H := text_strtod) sample_externals 7 ended_request late_grant Hp HT).
Defined.

Lemma waiting_thread_is_woken_witness :
  let labels := [Owner (Op_adopt true)] ++ replicate 6 (Worker idle_env)
    ++ [Owner (Op_submit (new_Command Command_kBeginRequest 7))] in
  Forall unblocked labels ∧ pc (sample_run labels) = Pc_wait
  ∧ commands (bridge (executor (sample_run labels))) ≠ []
  ∧ poll_worker idle_env (executor (sample_run labels))
      (shutdown_deadline (life (executor (sample_run labels)))) ≠ None.
Proof.
  set (labels := _ ++ _).
  assert (Forall unblocked labels) as Hu by (by repeat constructor).
  assert (pc (sample_run labels) = Pc_wait) as Hp by done.
  assert (commands (bridge (executor (sample_run labels))) ≠ []) as Hc by done.
  split; [exact Hu|]. split; [exact Hp|]. split; [exact Hc|].
  exact (waiting_thread_is_woken (H := text_strtod) sample_externals labels idle_env Hu Hp Hc).
Defined.
