(* ===== verification/GenerationPool.v ===== *)
(** * GenerationPool: one generation's worker fleet (src/host/generation_pool.cc)

    The slots with their executors, scheduling, replacement under the recovery
    controller, and the drain. Executors are shared objects: the pool keeps them
    in a store ([members], one [System] each) and a slot, a retired entry or a
    caller holds an index into it. The pool's mutex makes each function below an
    atomic transition; the pump thread is its loop cut into phases
    ([PumpPc]; the code holds the mutex from one condition wait to the next, so
    cutting there only adds interleavings), a replacement thread is [run_replacement] cut at its critical
    sections ([ThreadPc]), and the condition variable is the flag [notified].
    A notifier runs on the executor's thread some time after the event it
    announces: [delivered] counts the calls that have reached the pool.

    Logs and metrics are left out; the observer callbacks are the list
    [observed] and the event sink the list [forwarded]. *)
From Stdlib Require Import ZArith Lia.
From S2P Require Import Prelude ActiveState ServiceLifecycle WorkerRecovery ReadyProof WorkerExecutor.
From S2P Require Import Jansson.
Local Open Scope Z_scope.

(** ** Data *)

Definition kNoDue : Z := 0.

Record GenerationPoolOptions := mkPoolOptions {
  application_id : bytes;
  pool_version : bytes;
  generation_digest : bytes;
  workers : Z;                            (* uint32_t *)
  has_factory : bool;
  recovery : WorkerRecoveryPolicy;
  has_startup_permits : bool              (* startup_permits != nullptr *)
}.

Inductive PoolState := Pool_kPrepared | Pool_kActive | Pool_kDraining | Pool_kDead.

#[export] Instance PoolState_eq_dec : EqDecision PoolState.
Proof. solve_decision. Defined.

Record Slot := mkSlot {
  slot_executor : nat;
  slot_ready : bool;
  replacement_in_flight : bool;
  shutdown_issued : bool;
  replacement_reason : string
}.

(** An executor of the store: [raw_owner] is whether its notifier falls back
    to the pool's address when the last shared pointer is gone. *)
Record Member := mkMember {
  system : System;
  delivered : Z;
  raw_owner : bool
}.

Inductive Observation :=
| Observed_started (e : nat)
| Observed_exited (e : nat)
| Observed_quarantine
| Observed_drain_complete.

(** A replacement thread, at its next critical section. *)
Inductive ThreadPc :=
| Thread_begin
| Thread_permit
| Thread_spawn
| Thread_failed                           (* about to release its bookkeeping *)
| Thread_record                           (* about to record the failure *)
| Thread_install (e : nat)                (* READY, about to be installed *)
| Thread_done.

Record Thread := mkThread { thread_slot : nat; thread_pc : ThreadPc }.

(** The pump's position in its loop. [Pump_sleep] is inside the condition
    wait, with the deadline it waits for. *)
Inductive PumpPc :=
| Pump_none
| Pump_sweep
| Pump_stability
| Pump_launch
| Pump_wait
| Pump_sleep (deadline : option Z)
| Pump_collect
| Pump_exits (exited : list nat)
| Pump_finalize
| Pump_done.

Record Fleet := mkFleet {
  slots : list Slot;
  retired : list nat;
  replacements_scheduled : Z;             (* uint64_t *)
  replacements_in_flight : Z;             (* uint64_t *)
  replacement_due_ms : list Z
}.

Record Control := mkControl {
  state : PoolState;
  active_flag : bool;
  events_pending : bool;
  stable_since_ms : Z;
  recovery_state : GenerationRecoveryState
}.

Record Threads := mkThreads {
  members : list Member;
  threads : list Thread;
  pump : PumpPc;
  notified : bool;
  unreferenced : bool                     (* the last shared_ptr is gone *)
}.

(** [stray_access] is that a slot was indexed beyond the vector, which the C++
    does not define. *)
Record Trace := mkTrace {
  forwarded : list (nat * WorkerEvent);
  observed : list Observation;
  stray_access : bool
}.

Record GenerationPool := mkPool {
  options : GenerationPoolOptions;
  fleet : Fleet;
  control : Control;
  running : Threads;
  trace : Trace
}.

Definition set_fleet (p : GenerationPool) (f : Fleet) : GenerationPool :=
  mkPool (options p) f (control p) (running p) (trace p).
Definition set_control (p : GenerationPool) (c : Control) : GenerationPool :=
  mkPool (options p) (fleet p) c (running p) (trace p).
Definition set_running (p : GenerationPool) (t : Threads) : GenerationPool :=
  mkPool (options p) (fleet p) (control p) t (trace p).
Definition set_trace (p : GenerationPool) (t : Trace) : GenerationPool :=
  mkPool (options p) (fleet p) (control p) (running p) t.

Definition set_slots (p : GenerationPool) (s : list Slot) : GenerationPool :=
  let f := fleet p in
  set_fleet p (mkFleet s (retired f) (replacements_scheduled f) (replacements_in_flight f)
                 (replacement_due_ms f)).
Definition set_stable (p : GenerationPool) (since : Z) : GenerationPool :=
  let c := control p in
  set_control p (mkControl (state c) (active_flag c) (events_pending c) since (recovery_state c)).
Definition set_recovery (p : GenerationPool) (r : GenerationRecoveryState) : GenerationPool :=
  let c := control p in
  set_control p (mkControl (state c) (active_flag c) (events_pending c) (stable_since_ms c) r).
Definition set_members (p : GenerationPool) (ms : list Member) : GenerationPool :=
  let t := running p in
  set_running p (mkThreads ms (threads t) (pump t) (notified t) (unreferenced t)).
Definition set_threads (p : GenerationPool) (ts : list Thread) : GenerationPool :=
  let t := running p in
  set_running p (mkThreads (members t) ts (pump t) (notified t) (unreferenced t)).
Definition set_pump (p : GenerationPool) (pc : PumpPc) : GenerationPool :=
  let t := running p in
  set_running p (mkThreads (members t) (threads t) pc (notified t) (unreferenced t)).
Definition set_notified (p : GenerationPool) (n : bool) : GenerationPool :=
  let t := running p in
  set_running p (mkThreads (members t) (threads t) (pump t) n (unreferenced t)).

(** [cv_.notify_all()]. *)
Definition notify_all (p : GenerationPool) : GenerationPool := set_notified p true.

Definition observe (p : GenerationPool) (o : Observation) : GenerationPool :=
  set_trace p (mkTrace (forwarded (trace p)) (observed (trace p) ++ [o]) (stray_access (trace p))).

(** The lifecycle the constructor builds. *)
Definition pool_lifecycle (o : GenerationPoolOptions) : ServiceLifecycleState :=
  mkLifecycle Phase_kActive
    (Some (mkDocument State_kActive (application_id o) (pool_version o) (generation_digest o) [] [] [])).

Definition new_GenerationPool (o : GenerationPoolOptions) : GenerationPool :=
  mkPool o (mkFleet [] [] 0 0 [])
    (mkControl Pool_kPrepared true false 0
       (mkGenerationState (application_id o) (generation_digest o) [] 0 0 false))
    (mkThreads [] [] Pump_none false false) (mkTrace [] [] false).

(** ** Access to the executors *)

Definition no_member : Member := mkMember new_System 0 false.

Definition member (p : GenerationPool) (e : nat) : Member :=
  default no_member (members (running p) !! e).

Definition executor_of (p : GenerationPool) (e : nat) : WorkerExecutor := executor (system (member p e)).

Definition alter_member (f : Member → Member) (p : GenerationPool) (e : nat) : GenerationPool :=
  set_members p (alter f e (members (running p))).

(** A call of one of the executor's owner functions. *)
Definition call_executor (op : OwnerOp) (p : GenerationPool) (e : nat) : GenerationPool :=
  alter_member (λ m, mkMember (owner_step op (system m)) (delivered m) (raw_owner m)) p e.

Definition shutdown_executor (p : GenerationPool) (e : nat) : GenerationPool :=
  call_executor Op_request_shutdown p e.

(** [slots_[index]], written. *)
Definition update_slot (p : GenerationPool) (index : nat) (f : Slot → Slot) : GenerationPool :=
  if bool_decide (index < length (slots (fleet p)))%nat
  then set_slots p (alter f index (slots (fleet p)))
  else set_trace p (mkTrace (forwarded (trace p)) (observed (trace p)) true).

(** ** Readers *)

Definition ready_workers (p : GenerationPool) : Z :=
  zlen (List.filter slot_ready (slots (fleet p))).

Definition pool_inflight (p : GenerationPool) : Z :=
  let add total e := u64 (total + inflight (executor_of p e)) in
  fold_left add (retired (fleet p)) (fold_left add (map slot_executor (slots (fleet p))) 0).

Definition fleet_exited (p : GenerationPool) : bool :=
  forallb (λ s, exited (executor_of p (slot_executor s))) (slots (fleet p)).

Definition due_pending (p : GenerationPool) : bool :=
  existsb (λ due, negb (due =? kNoDue)) (replacement_due_ms (fleet p)).

(** The scheduling loop: the best candidate so far and its load. *)
Definition pick_step (p : GenerationPool) (loader : option (nat → Z)) (best : option nat * Z)
    (s : Slot) : option nat * Z :=
  if negb (slot_ready s) then best
  else if negb (available (executor_of p (slot_executor s))) then best
  else
    let load := inflight (executor_of p (slot_executor s)) in
    let load :=
      match loader with Some bytes => u64 (load + bytes (slot_executor s)) | None => load end in
    if load <? best.2 then (Some (slot_executor s), load) else best.

Definition pick_worker (p : GenerationPool) (loader : option (nat → Z)) : option nat :=
  if negb (bool_decide (state (control p) = Pool_kActive)) then None
  else (fold_left (pick_step p loader) (slots (fleet p)) (None, u64_max)).1.

Definition current_worker (p : GenerationPool) : option nat :=
  if negb (bool_decide (state (control p) = Pool_kActive)) then None
  else match List.find (λ s, slot_ready s && available (executor_of p (slot_executor s)))
               (slots (fleet p)) with
  | Some s => Some (slot_executor s)
  | None => None
  end.

(** ** Scheduling of replacements *)

Definition set_ready (r : bool) (s : Slot) : Slot :=
  mkSlot (slot_executor s) r (replacement_in_flight s) (shutdown_issued s) (replacement_reason s).
Definition set_covered (c : bool) (s : Slot) : Slot :=
  mkSlot (slot_executor s) (slot_ready s) c (shutdown_issued s) (replacement_reason s).
Definition set_issued (s : Slot) : Slot :=
  mkSlot (slot_executor s) (slot_ready s) (replacement_in_flight s) true (replacement_reason s).

Definition set_scheduled (p : GenerationPool) (n : Z) : GenerationPool :=
  let f := fleet p in
  set_fleet p (mkFleet (slots f) (retired f) n (replacements_in_flight f) (replacement_due_ms f)).
Definition set_in_flight (p : GenerationPool) (n : Z) : GenerationPool :=
  let f := fleet p in
  set_fleet p (mkFleet (slots f) (retired f) (replacements_scheduled f) n (replacement_due_ms f)).
Definition set_due (p : GenerationPool) (index : nat) (due : Z) : GenerationPool :=
  let f := fleet p in
  set_fleet p (mkFleet (slots f) (retired f) (replacements_scheduled f) (replacements_in_flight f)
                 (<[index := due]> (replacement_due_ms f))).

(** Marks every slot and asks every executor to shut down. *)
Definition shutdown_slots (p : GenerationPool) : GenerationPool :=
  let p := set_slots p (map set_issued (slots (fleet p))) in
  fold_left shutdown_executor (map slot_executor (slots (fleet p))) p.

Definition enter_draining (p : GenerationPool) : GenerationPool :=
  let c := control p in
  set_control p (mkControl Pool_kDraining false (events_pending c) 0 (recovery_state c)).

Definition request_drain (p : GenerationPool) : GenerationPool :=
  match state (control p) with
  | Pool_kDraining | Pool_kDead => p
  | _ => notify_all (shutdown_slots (enter_draining p))
  end.

Definition begin_quarantine (p : GenerationPool) : GenerationPool :=
  let p := shutdown_slots (observe p Observed_quarantine) in
  let p := if bool_decide (state (control p) = Pool_kActive) then enter_draining p else p in
  notify_all p.

Definition record_instability (p : GenerationPool) (index : nat) (o : WorkerInstabilityObservation)
    (reason : string) : GenerationPool :=
  let decision := record_worker_instability (recovery_state (control p)) (recovery (options p))
                    (pool_lifecycle (options p)) o in
  if negb (decision_ok decision) then p
  else
    let p := set_recovery p (decision_state decision) in
    if WorkerRecovery.begin_quarantine decision then begin_quarantine p
    else if schedule_replacement decision then
      let p := update_slot p index (λ s, mkSlot (slot_executor s) (slot_ready s) true
                                            (shutdown_issued s) reason) in
      let p := set_scheduled p (u64 (replacements_scheduled (fleet p) + 1)) in
      let p := set_due p index (u64 (now_ms o + decision_delay_ms decision)) in
      notify_all p
    else p.

Definition observation (p : GenerationPool) (k : WorkerInstabilityKind) (now : Z)
    : WorkerInstabilityObservation :=
  mkObservation k (generation_digest (options p)) now (u32 (ready_workers p)) (workers (options p))
    (u32 (replacements_scheduled (fleet p))) 0.

Definition handle_executor_exit (p : GenerationPool) (index : nat) (now : Z) : GenerationPool :=
  match slots (fleet p) !! index with
  | None => set_trace p (mkTrace (forwarded (trace p)) (observed (trace p)) true)
  | Some s =>
      if negb (slot_ready s) then p
      else
        let p := set_stable (update_slot p index (set_ready false)) 0 in
        let p := observe p (Observed_exited (slot_executor s)) in
        if shutdown_issued s then p
        else record_instability p index (observation p Kind_kUnexpectedExit now) "crashed"
  end.

(** The first READY slot that holds the target. *)
Fixpoint find_ready (target : nat) (index : nat) (ss : list Slot) : option nat :=
  match ss with
  | [] => None
  | s :: ss =>
      if bool_decide (slot_executor s = target) && slot_ready s then Some index
      else find_ready target (S index) ss
  end.

Definition recycle_worker (p : GenerationPool) (target : nat) (now : Z) : bool * GenerationPool :=
  if negb (bool_decide (state (control p) = Pool_kActive)) then (false, p)
  else match find_ready target 0 (slots (fleet p)) with
  | None => (false, p)
  | Some index =>
      let p := update_slot p index (λ s, set_ready false (set_issued s)) in
      let p := record_instability p index (observation p Kind_kHealthRecycle now) "unhealthy" in
      (true, shutdown_executor p target)
  end.

(** ** Replacement threads *)

(** The body of [abandon], and of the release in [install_replacement]. *)
Definition release_replacement (p : GenerationPool) (index : nat) : GenerationPool :=
  let p := update_slot p index (set_covered false) in
  let n := replacements_scheduled (fleet p) in
  let p := if 0 <? n then set_scheduled p (n - 1) else p in
  set_in_flight p (u64 (replacements_in_flight (fleet p) - 1)).

Definition abandon (p : GenerationPool) (index : nat) : GenerationPool :=
  notify_all (release_replacement p index).

(** Every dead slot without a replacement gets one at once. *)
Fixpoint cover_dead_slots (now : Z) (index : nat) (ss : list Slot) (p : GenerationPool)
    : GenerationPool :=
  match ss with
  | [] => p
  | s :: ss =>
      let p :=
        if negb (slot_ready s) && negb (replacement_in_flight s) then
          let p := update_slot p index (set_covered true) in
          let p := set_scheduled p (u64 (replacements_scheduled (fleet p) + 1)) in
          set_due p index now
        else p in
      cover_dead_slots now (S index) ss p
  end.

Definition install_replacement (p : GenerationPool) (index replacement : nat) (now : Z)
    : GenerationPool :=
  match slots (fleet p) !! index with
  | None => set_trace p (mkTrace (forwarded (trace p)) (observed (trace p)) true)
  | Some s =>
      let f := fleet p in
      let p := set_fleet p (mkFleet (slots f) (retired f ++ [slot_executor s])
                              (replacements_scheduled f) (replacements_in_flight f)
                              (replacement_due_ms f)) in
      let p := update_slot p index (λ s, mkSlot replacement true (replacement_in_flight s)
                                            (shutdown_issued s) (replacement_reason s)) in
      let p := if bool_decide (state (control p) = Pool_kDraining)
               then shutdown_executor p replacement else p in
      let p := release_replacement p index in
      let p := update_slot p index (λ s, mkSlot (slot_executor s) (slot_ready s)
                 (replacement_in_flight s) (shutdown_issued s) "") in
      let p := if ready_workers p =? workers (options p) then set_stable p now else p in
      let p := if bool_decide (state (control p) = Pool_kActive)
               then cover_dead_slots now 0 (slots (fleet p)) p else p in
      observe (notify_all p) (Observed_started replacement)
  end.

(** What a thread's step gets from outside the pool: whether the permit was
    granted, the executor if its start succeeded, and the clock. *)
Record ThreadInput := mkThreadInput {
  granted : bool;
  spawned : option System;
  thread_now : Z
}.

Definition set_thread (p : GenerationPool) (k : nat) (pc : ThreadPc) : GenerationPool :=
  set_threads p (alter (λ t, mkThread (thread_slot t) pc) k (threads (running p))).

Definition thread_step (p : GenerationPool) (k : nat) (i : ThreadInput) : GenerationPool :=
  match threads (running p) !! k with
  | None => p
  | Some (mkThread index pc) =>
      match pc with
      | Thread_begin =>
          if negb (active_flag (control p)) then set_thread (abandon p index) k Thread_done
          else set_thread p k (if has_startup_permits (options p) then Thread_permit else Thread_spawn)
      | Thread_permit =>
          if granted i then set_thread p k Thread_spawn else set_thread (abandon p index) k Thread_done
      | Thread_spawn =>
          match spawned i with
          | None => set_thread p k Thread_failed
          | Some sys =>
              let ms := members (running p) in
              set_thread (set_members p (ms ++ [mkMember sys 0 false])) k (Thread_install (length ms))
          end
      | Thread_failed => set_thread (abandon p index) k Thread_record
      | Thread_record =>
          let p := record_instability p index
                     (observation p Kind_kReplacementStartupFailure (thread_now i)) "crashed" in
          set_thread (notify_all p) k Thread_done
      | Thread_install e => set_thread (install_replacement p index e (thread_now i)) k Thread_done
      | Thread_done => p
      end
  end.

(** ** The pump

    The clock is in nanoseconds; [steady_ms] truncates it. *)

Definition steady_ms (now_ns : Z) : Z := now_ns / 1000000.

Definition drain_complete (p : GenerationPool) : bool :=
  bool_decide (state (control p) = Pool_kDraining) && fleet_exited p
  && (replacements_in_flight (fleet p) =? 0).

Definition pump_sweep (p : GenerationPool) : GenerationPool :=
  if bool_decide (state (control p) = Pool_kDraining) then
    let p := fold_left (λ p e, if exited (executor_of p e) then p else shutdown_executor p e)
               (map slot_executor (slots (fleet p))) p in
    if fleet_exited p && (replacements_in_flight (fleet p) =? 0)
    then set_pump p Pump_finalize else set_pump p Pump_stability
  else set_pump p Pump_stability.

Definition pump_stability (p : GenerationPool) (now : Z) : GenerationPool :=
  let since := stable_since_ms (control p) in
  let reset := stable_reset_ms (recovery (options p)) in
  if negb (since =? 0) && negb (reset =? 0) then
    if reset <=? u64 (now - since) then
      let r := observe_worker_stability (recovery_state (control p)) (recovery (options p)) since now in
      set_stable (if stability_ok r then set_recovery p (stability_state r) else p) 0
    else p
  else p.

(** The launch loop, from slot [index] on. *)
Fixpoint launch_due (now : Z) (index : nat) (dues : list Z) (p : GenerationPool) : GenerationPool :=
  match dues with
  | [] => p
  | due :: dues =>
      let p :=
        if negb (due =? kNoDue) && (due <=? now) then
          let p := set_due p index kNoDue in
          let p := set_in_flight p (u64 (replacements_in_flight (fleet p) + 1)) in
          set_threads p (threads (running p) ++ [mkThread index Thread_begin])
        else p in
      launch_due now (S index) dues p
  end.

Definition pump_launch (p : GenerationPool) (now : Z) : GenerationPool :=
  if bool_decide (state (control p) = Pool_kActive)
  then launch_due now 0 (replacement_due_ms (fleet p)) p else p.

Definition next_due (p : GenerationPool) : Z :=
  fold_left (λ next due, if negb (due =? kNoDue) && (due <? next) then due else next)
    (replacement_due_ms (fleet p)) u64_max.

(** The condition wait: its predicate, and whether it returns. A deadline is
    the [next_due] count of milliseconds taken as a count of clock ticks. *)
Definition wake_predicate (p : GenerationPool) (deadline : option Z) : bool :=
  match deadline with
  | None => events_pending (control p) || due_pending p || drain_complete p
  | Some _ => events_pending (control p) || drain_complete p
  end.

Definition pump_wait (p : GenerationPool) : GenerationPool :=
  if negb (events_pending (control p)) && negb (drain_complete p) then
    let deadline := if next_due p =? u64_max then None else Some (next_due p) in
    if wake_predicate p deadline then set_pump p Pump_collect
    else set_notified (set_pump p (Pump_sleep deadline)) false
  else set_pump p Pump_collect.

Definition pump_sleep (p : GenerationPool) (deadline : option Z) (now_ns : Z) : GenerationPool :=
  let expired := match deadline with Some ticks => ticks <=? now_ns | None => false end in
  if expired then set_pump p Pump_collect
  else if notified (running p) then
    if wake_predicate p deadline then set_pump p Pump_collect else set_notified p false
  else p.

(** Drains one executor's queue into the sink; counts its exit events. *)
Definition collect_events (p : GenerationPool) (e : nat) : nat * GenerationPool :=
  let batch := (drain_events (executor_of p e)).1 in
  let p := call_executor Op_drain_events p e in
  (length (List.filter (λ ev, bool_decide (event_type ev = Event_kExit)) batch),
   set_trace p (mkTrace (forwarded (trace p) ++ map (pair e) batch) (observed (trace p))
                  (stray_access (trace p)))).

Fixpoint collect_slots (index : nat) (es : list nat) (p : GenerationPool) : list nat * GenerationPool :=
  match es with
  | [] => ([], p)
  | e :: es =>
      let '(n, p) := collect_events p e in
      let '(l, p) := collect_slots (S index) es p in (replicate n index ++ l, p)
  end.

Definition clear_pending (p : GenerationPool) : GenerationPool :=
  let c := control p in
  set_control p (mkControl (state c) (active_flag c) false (stable_since_ms c) (recovery_state c)).

Definition pump_collect (p : GenerationPool) : GenerationPool :=
  let p := clear_pending p in
  let '(exits, p) := collect_slots 0 (map slot_executor (slots (fleet p))) p in
  let p := fold_left (λ p e, (collect_events p e).2) (retired (fleet p)) p in
  set_pump p (Pump_exits exits).

Definition finalize_drain (p : GenerationPool) : GenerationPool :=
  let c := control p in
  let f := fleet p in
  let p := set_control p (mkControl Pool_kDead (active_flag c) (events_pending c) (stable_since_ms c)
                            (recovery_state c)) in
  let p := set_fleet p (mkFleet [] [] (replacements_scheduled f) (replacements_in_flight f)
                          (replacement_due_ms f)) in
  observe (notify_all p) Observed_drain_complete.

Definition pump_step (p : GenerationPool) (now_ns : Z) : GenerationPool :=
  let now := steady_ms now_ns in
  match pump (running p) with
  | Pump_none | Pump_done => p
  | Pump_sweep => pump_sweep p
  | Pump_stability => set_pump (pump_stability p now) Pump_launch
  | Pump_launch => set_pump (pump_launch p now) Pump_wait
  | Pump_wait => pump_wait p
  | Pump_sleep deadline => pump_sleep p deadline now_ns
  | Pump_collect => pump_collect p
  | Pump_exits [] => set_pump p Pump_sweep
  | Pump_exits (index :: rest) => set_pump (handle_executor_exit p index now) (Pump_exits rest)
  | Pump_finalize => set_pump (finalize_drain p) Pump_done
  end.

(** ** Creation *)

Inductive CreateError :=
| Create_no_workers | Create_identity | Create_policy | Create_factory | Create_start (index : nat)
| Create_warmed.

Definition policy_gate (policy : WorkerRecoveryPolicy) : bool :=
  negb ((max_events policy =? 0) || (window_ms policy =? 0) || (backoff_initial_ms policy =? 0)
        || (backoff_maximum_ms policy <? backoff_initial_ms policy)
        || (10000 <? jitter_basis_points policy) || (stable_reset_ms policy =? 0)
        || (replacements_concurrent_per_app policy =? 0)).

Definition create_gate (o : GenerationPoolOptions) : option CreateError :=
  if bool_decide (application_id o = []) || bool_decide (generation_digest o = [])
     || bool_decide (pool_version o = []) then Some Create_identity
  else if negb (policy_gate (recovery o)) then Some Create_policy
  else if negb (has_factory o) then Some Create_factory
  else None.

(** One started or adopted executor becomes a READY slot. *)
Definition add_slot (p : GenerationPool) (sys : System) : GenerationPool :=
  let ms := members (running p) in
  let p := set_members p (ms ++ [mkMember sys 0 true]) in
  let p := set_slots p (slots (fleet p) ++ [mkSlot (length ms) true false false ""]) in
  observe p (Observed_started (length ms)).

(** The failure path of both loops: what was started is stopped. *)
Definition reap_started (p : GenerationPool) : GenerationPool :=
  let p := fold_left shutdown_executor (map slot_executor (slots (fleet p))) p in
  let c := control p in
  set_control p (mkControl Pool_kDead (active_flag c) (events_pending c) (stable_since_ms c)
                   (recovery_state c)).

Definition start_pool (p : GenerationPool) (now : Z) : GenerationPool :=
  let f := fleet p in
  let c := control p in
  let p := set_fleet p (mkFleet (slots f) (retired f) (replacements_scheduled f)
                          (replacements_in_flight f) (replicate (length (slots f)) kNoDue)) in
  let p := set_control p (mkControl Pool_kActive (active_flag c) (events_pending c) now
                            (recovery_state c)) in
  set_pump p Pump_sweep.

(** [outcomes] are the answers of [executor->start], slot by slot: the executor
    once READY, [None] where it failed. *)
Fixpoint create_loop (outcomes : list (option System)) (index : nat) (p : GenerationPool)
    : CreateError * GenerationPool + GenerationPool :=
  match outcomes with
  | [] => inr p
  | None :: _ => inl (Create_start index, reap_started p)
  | Some sys :: outcomes => create_loop outcomes (S index) (add_slot p sys)
  end.

Definition create (o : GenerationPoolOptions) (outcomes : nat → option System) (now : Z)
    : option CreateError * GenerationPool :=
  let p := new_GenerationPool o in
  if workers o =? 0 then (Some Create_no_workers, p)
  else match create_gate o with
  | Some error => (Some error, p)
  | None =>
      match create_loop (map outcomes (seq 0 (Z.to_nat (workers o)))) 0 p with
      | inl (error, p) => (Some error, p)
      | inr p => (None, start_pool p now)
      end
  end.

(** The warmed workers are handles; [false] is null. The second result is the
    indices of the handles destroyed directly. *)
Fixpoint adopt_loop (handles : list bool) (index : nat) (p : GenerationPool)
    : CreateError * list nat * GenerationPool + GenerationPool :=
  match handles with
  | [] => inr p
  | h :: handles =>
      match adopt new_System h with
      | (false, _) => inl (Create_start index, [index], reap_started p)
      | (true, sys) => adopt_loop handles (S index) (add_slot p sys)
      end
  end.

Definition create_adopted (o : GenerationPoolOptions) (warmed : list bool) (now : Z)
    : option CreateError * list nat * GenerationPool :=
  let p := new_GenerationPool o in
  let all := seq 0 (length warmed) in
  if (workers o =? 0) || negb (zlen warmed =? workers o) then (Some Create_warmed, all, p)
  else match create_gate o with
  | Some error => (Some error, all, p)
  | None =>
      match adopt_loop warmed 0 p with
      | inl (error, destroyed, p) => (Some error, destroyed, p)
      | inr p => (None, [], start_pool p now)
      end
  end.

(** ** Runs

    [Pool_executor e l] is a step of executor [e] of its own thread or of the
    session layer; [Pool_deliver e] its notifier reaching the pool. *)

Inductive PoolLabel :=
| Pool_drain
| Pool_recycle (target : nat) (now : Z)
| Pool_pump (now_ns : Z)
| Pool_thread (k : nat) (i : ThreadInput)
| Pool_executor (e : nat) (l : Label)
| Pool_deliver (e : nat)
| Pool_unreference.

(** The notifier: it does nothing once the weak pointer is dead, unless the
    executor has the raw fallback. *)
Definition deliver (p : GenerationPool) (e : nat) : GenerationPool :=
  let m := member p e in
  if notifications (executor (system m)) <=? delivered m then p
  else
    let p := alter_member (λ m, mkMember (system m) (delivered m + 1) (raw_owner m)) p e in
    if unreferenced (running p) && negb (raw_owner m) then p
    else
      let c := control p in
      notify_all (set_control p (mkControl (state c) (active_flag c) true (stable_since_ms c)
                                   (recovery_state c))).

Section runs.
Context {real : Type} `{Strtod real} (x : Externals real).

Definition pool_step (p : GenerationPool) (l : PoolLabel) : GenerationPool :=
  match l with
  | Pool_drain => request_drain p
  | Pool_recycle target now => (recycle_worker p target now).2
  | Pool_pump now_ns => pump_step p now_ns
  | Pool_thread k i => thread_step p k i
  | Pool_executor e l =>
      alter_member (λ m, mkMember (step x (system m) l) (delivered m) (raw_owner m)) p e
  | Pool_deliver e => deliver p e
  | Pool_unreference =>
      let t := running p in
      request_drain (set_running p (mkThreads (members t) (threads t) (pump t) (notified t) true))
  end.

Definition pool_run (labels : list PoolLabel) (p : GenerationPool) : GenerationPool :=
  fold_left pool_step labels p.
End runs.

(** ** What the folds over executors change

    Calls to executors change the store only, and no executor's exit flag. *)

Record evolved (m m' : Member) : Prop := {
  ev_calls : ∃ ops, system m' = fold_left (λ s op, owner_step op s) ops (system m);
  ev_delivered : delivered m' <= Z.max (delivered m) (notifications (executor (system m')))
}.

Definition same_exits (ms ms' : list Member) : Prop :=
  length ms' = length ms
  ∧ (∀ e, exited (executor (system (default no_member (ms' !! e))))
          = exited (executor (system (default no_member (ms !! e)))))
  ∧ Forall2 evolved ms ms'.

(** The owner's calls leave a started thread's position and the notifier alone. *)
Lemma owner_notice op s : (pc s ≠ Pc_none → started (life (executor s)) = true) →
  pc s ≠ Pc_none → pc (owner_step op s) = pc s.
Proof.
  intros Hs Hn. specialize (Hs Hn).
  destruct op; cbn [owner_step]; unfold start, finish_start, adopt; rewrite ?Hs; try done.
  by case_match.
Qed.

Lemma owner_notifications op s : notifications (executor s) <= notifications (executor (owner_step op s)).
Proof.
  assert (∀ e c, notifications e <= notifications (submit e c)) as Hs by (intros; apply grows_submit).
  destruct op; cbn [owner_step]; unfold start, finish_start, adopt, set_started; try apply Hs;
    try (repeat case_match; done).
  - case_match; [done|]. apply grows_request_shutdown.
  - apply grows_request_shutdown.
  - apply (Hs (set_probe _ _)).
  - apply grows_mark_canceled.
  - apply (grows_mark_canceled (executor s)).
  - done.
Qed.

Lemma calls_notifications ops s :
  notifications (executor s) <= notifications (executor (fold_left (λ s op, owner_step op s) ops s)).
Proof.
  revert s. induction ops as [|op ops IH]; intros s; cbn [fold_left]; [done|].
  etransitivity; [apply owner_notifications|apply IH].
Qed.

#[export] Instance evolved_preorder : PreOrder evolved.
Proof.
  split; [intros m; split; [by exists []|lia]|].
  intros a b c [[o1 H1] D1] [[o2 H2] D2]. split.
  - exists (o1 ++ o2). by rewrite fold_left_app, <- H1.
  - pose proof (calls_notifications o2 (system b)) as Hn. rewrite <- H2 in Hn. lia.
Qed.

Lemma evolved_alter (f : Member → Member) e ms : (∀ m, ms !! e = Some m → evolved m (f m)) →
  Forall2 evolved ms (alter f e ms).
Proof.
  revert e. induction ms as [|m ms IH]; intros [|e] Hf; cbn; constructor; auto; done.
Qed.

Lemma same_exits_refl ms : same_exits ms ms.
Proof.
  by split; [|split].
Qed.

Lemma same_exits_trans a b c : same_exits a b → same_exits b c → same_exits a c.
Proof.
  intros (H1 & H2 & H5) (H3 & H4 & H6). split; [congruence|]. split; [intros e; by rewrite H4|].
  by transitivity b.
Qed.

Lemma owner_exited op s : exited (executor (owner_step op s)) = exited (executor s).
Proof.
  assert (∀ e c, exited (submit e c) = exited e) as Hsub
    by (intros; unfold submit; by repeat case_match).
  assert (∀ e, exited (request_shutdown e) = exited e) as Hreq
    by (intros; unfold request_shutdown; case_match; [done|by rewrite Hsub]).
  assert (∀ e id, exited (mark_canceled e id) = exited e) as Hmark
    by (intros; unfold mark_canceled, release_inflight; by case_match).
  destruct op; cbn [owner_step]; unfold start, finish_start, adopt, set_started.
  - by repeat case_match.
  - case_match; [done|apply Hreq].
  - by repeat case_match.
  - apply Hsub.
  - apply Hreq.
  - cbn. unfold submit_probe. by rewrite Hsub.
  - apply Hsub.
  - apply Hmark.
  - apply (Hmark (executor s)).
  - done.
Qed.

Lemma same_exits_call op (ms : list Member) e : same_exits ms
  (alter (λ m, mkMember (owner_step op (system m)) (delivered m) (raw_owner m)) e ms).
Proof.
  split; [apply length_alter|]. split.
  - intros e'. destruct (decide (e' = e)) as [->|Hn].
    + rewrite list_lookup_alter_eq. destruct (ms !! e); cbn; [apply owner_exited|done].
    + by rewrite list_lookup_alter_ne.
  - apply evolved_alter. intros m _. split; cbn; [by exists [op]|lia].
Qed.

Lemma shutdown_fold es p : ∃ ms, fold_left shutdown_executor es p = set_members p ms
  ∧ same_exits (members (running p)) ms.
Proof.
  revert p. induction es as [|e es IH]; intros p; cbn [fold_left].
  - exists (members (running p)). split; [by destruct p as [? ? ? [] ?]|apply same_exits_refl].
  - destruct (IH (shutdown_executor p e)) as (ms & -> & Hs). exists ms. split; [done|].
    eapply same_exits_trans; [apply same_exits_call|exact Hs].
Qed.

Lemma sweep_fold es p : ∃ ms,
  fold_left (λ p e, if exited (executor_of p e) then p else shutdown_executor p e) es p
    = set_members p ms
  ∧ same_exits (members (running p)) ms.
Proof.
  revert p. induction es as [|e es IH]; intros p; cbn [fold_left].
  - exists (members (running p)). split; [by destruct p as [? ? ? [] ?]|apply same_exits_refl].
  - case_match; [apply IH|].
    destruct (IH (shutdown_executor p e)) as (ms & -> & Hs). exists ms. split; [done|].
    eapply same_exits_trans; [apply same_exits_call|exact Hs].
Qed.

Lemma collect_events_shape p e : ∃ ms fw, (collect_events p e).2
    = set_trace (set_members p ms) (mkTrace fw (observed (trace p)) (stray_access (trace p)))
  ∧ same_exits (members (running p)) ms.
Proof. unfold collect_events. cbn. do 2 eexists. split; [done|]. apply same_exits_call. Qed.

(** The two shapes of the collecting loops. *)
Definition collected (p p' : GenerationPool) : Prop := ∃ ms fw,
  p' = set_trace (set_members p ms) (mkTrace fw (observed (trace p)) (stray_access (trace p)))
  ∧ same_exits (members (running p)) ms.

Lemma collected_refl p : collected p p.
Proof.
  exists (members (running p)), (forwarded (trace p)).
  split; [by destruct p as [? ? ? [] []]|apply same_exits_refl].
Qed.

Lemma collected_trans p q r : collected p q → collected q r → collected p r.
Proof.
  intros (m1 & f1 & -> & H1) (m2 & f2 & -> & H2). exists m2, f2. split; [done|].
  by eapply same_exits_trans.
Qed.

Lemma collect_slots_shape index es p : collected p (collect_slots index es p).2.
Proof.
  revert index p. induction es as [|e es IH]; intros index p; cbn [collect_slots]; [apply collected_refl|].
  destruct (collect_events_shape p e) as (ms & fw & He & Hs).
  destruct (collect_events p e) as [n q]. cbn in He.
  specialize (IH (S index) q). destruct (collect_slots (S index) es q) as [l r]. cbn in *.
  eapply collected_trans; [|exact IH]. exists ms, fw. done.
Qed.

Lemma collect_retired_shape es p : collected p (fold_left (λ p e, (collect_events p e).2) es p).
Proof.
  revert p. induction es as [|e es IH]; intros p; cbn [fold_left]; [apply collected_refl|].
  eapply collected_trans; [|apply IH]. apply collect_events_shape.
Qed.

Lemma pump_collect_shape p : ∃ q exits, collected (clear_pending p) q
  ∧ pump_collect p = set_pump q (Pump_exits exits).
Proof.
  unfold pump_collect. pose proof (collect_slots_shape 0 (map slot_executor (slots (fleet (clear_pending p))))
    (clear_pending p)) as H1.
  destruct (collect_slots 0 _ (clear_pending p)) as [exits q]. cbn in H1.
  eexists _, exits. split; [|done]. eapply collected_trans; [exact H1|apply collect_retired_shape].
Qed.

(** ** Changes that leave the drain's bookkeeping alone

    [touched p p'] relates the pool before and after an operation that neither
    moves a thread or the pump nor changes which executors the slots hold. *)

Definition is_drain_complete (o : Observation) : bool :=
  match o with Observed_drain_complete => true | _ => false end.
Definition drains (p : GenerationPool) : Z := zlen (List.filter is_drain_complete (observed (trace p))).

Record touched (p p' : GenerationPool) : Prop := {
  to_options : options p' = options p;
  to_pump : pump (running p') = pump (running p);
  to_threads : threads (running p') = threads (running p);
  to_unreferenced : unreferenced (running p') = unreferenced (running p);
  to_in_flight : replacements_in_flight (fleet p') = replacements_in_flight (fleet p);
  to_retired : retired (fleet p') = retired (fleet p);
  to_slots : map slot_executor (slots (fleet p')) = map slot_executor (slots (fleet p));
  to_due : length (replacement_due_ms (fleet p')) = length (replacement_due_ms (fleet p));
  to_state : (state (control p') = state (control p) ∧ active_flag (control p') = active_flag (control p))
    ∨ (state (control p) ≠ Pool_kDead ∧ state (control p') = Pool_kDraining
       ∧ active_flag (control p') = false);
  to_drains : drains p' = drains p;
  to_members : same_exits (members (running p)) (members (running p'))
}.

Lemma touched_refl p : touched p p.
Proof. split; try done; auto using same_exits_refl. Qed.

Lemma touched_trans p q r : touched p q → touched q r → touched p r.
Proof.
  intros [] []. split; try congruence; [|by eapply same_exits_trans].
  destruct to_state0 as [[E1 E2]|(? & ? & ?)], to_state1 as [[E3 E4]|(? & ? & ?)].
  - left. split; congruence.
  - right. split; [congruence|done].
  - right. split; [done|]. split; congruence.
  - right. done.
Qed.

Create HintDb pool.
#[export] Hint Resolve touched_refl same_exits_refl : pool.

Ltac touch := split; cbn; auto using same_exits_refl.

Lemma touched_notify p : touched p (notify_all p).
Proof. touch. Qed.

Lemma touched_recovery p r : touched p (set_recovery p r).
Proof. touch. Qed.

Lemma touched_stable p n : touched p (set_stable p n).
Proof. touch. Qed.

Lemma touched_scheduled p n : touched p (set_scheduled p n).
Proof. touch. Qed.

Lemma touched_due p i d : touched p (set_due p i d).
Proof. touch. apply length_insert. Qed.

Lemma touched_observe p o : is_drain_complete o = false → touched p (observe p o).
Proof.
  intros Ho. touch. unfold drains. cbn. rewrite List.filter_app. cbn. by rewrite Ho, app_nil_r.
Qed.

Lemma map_alter_executor f i ss : (∀ s, slot_executor (f s) = slot_executor s) →
  map slot_executor (alter f i ss) = map slot_executor ss.
Proof.
  intros Hf. revert i. induction ss as [|s ss IH]; intros [|i]; cbn; try done.
  - by rewrite Hf.
  - f_equal. apply IH.
Qed.

Lemma touched_slot p i f : (∀ s, slot_executor (f s) = slot_executor s) → touched p (update_slot p i f).
Proof.
  intros Hf. unfold update_slot. case_match; touch. by apply map_alter_executor.
Qed.

Lemma touched_members p ms : same_exits (members (running p)) ms → touched p (set_members p ms).
Proof. intros. touch. Qed.

Lemma touched_call op p e : touched p (call_executor op p e).
Proof. apply touched_members, same_exits_call. Qed.

#[export] Hint Resolve touched_notify touched_recovery touched_stable touched_scheduled touched_due
  touched_slot touched_call : pool.

(** Removes the outermost such change. *)
Ltac peel_one :=
  lazymatch goal with
  | |- touched _ (notify_all _) => eapply touched_trans; [|apply touched_notify]
  | |- touched _ (set_recovery _ _) => eapply touched_trans; [|apply touched_recovery]
  | |- touched _ (set_stable _ _) => eapply touched_trans; [|apply touched_stable]
  | |- touched _ (set_scheduled _ _) => eapply touched_trans; [|apply touched_scheduled]
  | |- touched _ (set_due _ _ _) => eapply touched_trans; [|apply touched_due]
  | |- touched _ (update_slot _ _ _) => eapply touched_trans; [|by apply touched_slot]
  | |- touched _ (call_executor _ _ _) => eapply touched_trans; [|apply touched_call]
  | |- touched _ (shutdown_executor _ _) => eapply touched_trans; [|apply touched_call]
  | |- touched _ (observe _ _) => eapply touched_trans; [|by apply touched_observe]
  | |- touched ?p ?p => apply touched_refl
  end.
Ltac peel := repeat peel_one.

Lemma touched_shutdown_slots p : touched p (shutdown_slots p).
Proof.
  unfold shutdown_slots.
  match goal with |- context [fold_left _ ?es ?q] => destruct (shutdown_fold es q) as (ms & -> & Hs) end.
  eapply touched_trans; [|by apply touched_members].
  touch. rewrite map_map. done.
Qed.

Lemma touched_draining p : state (control p) ≠ Pool_kDead → touched p (enter_draining p).
Proof. intros. touch. Qed.

Lemma touched_request_drain p : touched p (request_drain p).
Proof.
  unfold request_drain. destruct (state (control p)) eqn:Es; peel.
  all: eapply touched_trans; [apply touched_draining; congruence|apply touched_shutdown_slots].
Qed.

Lemma touched_quarantine p : touched p (begin_quarantine p).
Proof.
  unfold begin_quarantine. peel.
  assert (touched p (shutdown_slots (observe p Observed_quarantine))) as Hs.
  { eapply touched_trans; [|apply touched_shutdown_slots]. peel. }
  destruct (bool_decide _) eqn:Hb; bools; [|done].
  eapply touched_trans; [exact Hs|]. apply touched_draining. congruence.
Qed.

Lemma touched_record p i o reason : touched p (record_instability p i o reason).
Proof.
  unfold record_instability. case_match; [peel|]. case_match; [|case_match; peel].
  eapply touched_trans; [|apply touched_quarantine]. peel.
Qed.

Lemma touched_exit p i now : touched p (handle_executor_exit p i now).
Proof.
  unfold handle_executor_exit. destruct (slots (fleet p) !! i) as [s|]; [|touch].
  destruct (slot_ready s); cbn [negb]; [|peel]. cbn zeta. destruct (shutdown_issued s); [peel|].
  eapply touched_trans; [|apply touched_record]. peel.
Qed.

Lemma touched_recycle p target now : touched p (recycle_worker p target now).2.
Proof.
  unfold recycle_worker. destruct (negb _); cbn [snd]; [peel|].
  destruct (find_ready _ _ _) as [i|]; cbn [snd]; peel.
  eapply touched_trans; [|apply touched_record]. peel.
Qed.

Lemma touched_deliver p e : touched p (deliver p e).
Proof.
  unfold deliver. case_match; [peel|].
  set (q := alter_member _ _ _).
  assert (touched p q) as Hq.
  { apply touched_members. split; [apply length_alter|]. split.
    - intros e'.
      destruct (decide (e' = e)) as [->|Hn]; [rewrite list_lookup_alter_eq|by rewrite list_lookup_alter_ne].
      by destruct (members (running p) !! e).
    - apply evolved_alter. intros m Hm. split; [by exists []|]. cbn. unfold member in *.
      rewrite Hm in *. cbn in *. bools. lia. }
  case_match; [done|]. peel. eapply touched_trans; [exact Hq|]. touch.
Qed.

Lemma touched_stability p now : touched p (pump_stability p now).
Proof. unfold pump_stability. repeat case_match; peel. Qed.

Lemma touched_cover now i ss p : touched p (cover_dead_slots now i ss p).
Proof.
  revert i p. induction ss as [|s ss IH]; intros i p; cbn [cover_dead_slots]; [peel|].
  eapply touched_trans; [|apply IH]. case_match; peel.
Qed.

(** ** The drain *)

(** A thread that still holds its replacement. *)
Definition live (t : Thread) : bool :=
  match thread_pc t with Thread_record | Thread_done => false | _ => true end.

Definition live_threads (p : GenerationPool) : Z := zlen (List.filter live (threads (running p))).

Record drain_inv (p : GenerationPool) : Prop := {
  di_finalize : pump (running p) = Pump_finalize → drain_complete p = true;
  di_dead : state (control p) = Pool_kDead ↔ pump (running p) = Pump_done;
  di_drains : drains p = if bool_decide (state (control p) = Pool_kDead) then 1 else 0;
  di_flight : replacements_in_flight (fleet p) = u64 (live_threads p);
  di_flag : active_flag (control p) = bool_decide (state (control p) = Pool_kActive);
  di_created : state (control p) ≠ Pool_kPrepared;
  di_due : state (control p) ≠ Pool_kDead →
    length (replacement_due_ms (fleet p)) = length (slots (fleet p));
  di_slots : ∀ t, t ∈ threads (running p) → live t = true →
    (thread_slot t < length (slots (fleet p)))%nat
}.

Lemma fleet_exited_same p p' : map slot_executor (slots (fleet p')) = map slot_executor (slots (fleet p)) →
  same_exits (members (running p)) (members (running p')) → fleet_exited p' = fleet_exited p.
Proof.
  intros Hm (_ & He & _). unfold fleet_exited.
  assert (∀ q, forallb (λ s, exited (executor_of q (slot_executor s))) (slots (fleet q))
    = forallb (λ e, exited (executor_of q e)) (map slot_executor (slots (fleet q)))) as Hmap.
  { intros q. induction (slots (fleet q)) as [|s ss IH]; [done|]. cbn. by rewrite IH. }
  rewrite !Hmap, Hm. generalize (map slot_executor (slots (fleet p))) as es.
  intros es. induction es as [|e es IH]; [done|]. cbn. rewrite IH. f_equal. apply He.
Qed.

Lemma length_slots_same p p' : map slot_executor (slots (fleet p')) = map slot_executor (slots (fleet p)) →
  length (slots (fleet p')) = length (slots (fleet p)).
Proof. intros Hm. by rewrite <- (length_map slot_executor), Hm, length_map. Qed.

Lemma drain_complete_touched p p' : touched p p' → drain_complete p = true → drain_complete p' = true.
Proof.
  intros [] Hd. unfold drain_complete in *. bools.
  rewrite (fleet_exited_same p p') by done. rewrite to_in_flight0.
  destruct to_state0 as [[-> _]|(_ & -> & _)].
  - rewrite bool_decide_true by done. cbn. apply andb_true_iff. split; [done|by apply Z.eqb_eq].
  - cbn. apply andb_true_iff. split; [done|by apply Z.eqb_eq].
Qed.

Lemma drain_inv_touched p p' : touched p p' → drain_inv p → drain_inv p'.
Proof.
  intros Ht []. pose proof (drain_complete_touched p p' Ht) as Hdc. destruct Ht.
  pose proof (length_slots_same p p' to_slots0) as Hlen. unfold live_threads in *.
  split; rewrite ?to_pump0, ?to_in_flight0, ?to_drains0, ?to_due0, ?Hlen, ?to_threads0; unfold live_threads;
    rewrite ?to_threads0; auto.
  - destruct to_state0 as [[-> _]|(Hn & -> & _)]; [done|]. rewrite <- di_dead0. split; [done|].
    by intros.
  - rewrite di_drains0. destruct to_state0 as [[-> _]|(Hn & -> & _)]; [done|].
    by rewrite bool_decide_false.
  - destruct to_state0 as [[-> ->]|(Hn & -> & ->)]; [done|]. done.
  - destruct to_state0 as [[-> _]|(Hn & -> & _)]; done.
  - intros Hn. apply di_due0. by destruct to_state0 as [[<- _]|(? & _)].
Qed.

(** A move of the pump to a position other than the last two. *)
Lemma drain_inv_pump p pc : drain_inv p → pump (running p) ≠ Pump_done →
  pc ≠ Pump_done → (pc = Pump_finalize → drain_complete p = true) → drain_inv (set_pump p pc).
Proof.
  intros [] Hn Hpc Hf. split; cbn; auto.
  split; [|done]. intros Hd. by apply di_dead0 in Hd.
Qed.

Lemma filter_alter_live (f : Thread → Thread) k ts t : ts !! k = Some t →
  zlen (List.filter live (alter f k ts))
  = zlen (List.filter live ts) + (if live (f t) then 1 else 0) - (if live t then 1 else 0).
Proof.
  revert k. induction ts as [|u ts IH]; intros [|k] Hk; cbn in *; try done.
  - injection Hk as ->. destruct (live (f t)), (live t); rewrite ?zlen_cons; lia.
  - specialize (IH k Hk). destruct (live u); rewrite ?zlen_cons; lia.
Qed.

(** A thread moves on; if it released its replacement, the counter follows. *)
Lemma drain_inv_thread p k t pc : drain_inv p → threads (running p) !! k = Some t →
  live (mkThread (thread_slot t) pc) = live t → drain_inv (set_thread p k pc).
Proof.
  intros [] Hk Hl. unfold live_threads in *. split; cbn; auto.
  - rewrite di_flight0. unfold live_threads. cbn. rewrite (filter_alter_live _ k _ t Hk). cbn.
    rewrite Hl. f_equal. lia.
  - intros u Hu Hlu. apply list_elem_of_lookup in Hu as [j Hj].
    destruct (decide (j = k)) as [->|Hn].
    + rewrite list_lookup_alter_eq, Hk in Hj. injection Hj as <-. cbn.
      apply (di_slots0 t); [by eapply list_elem_of_lookup_2|]. by rewrite <- Hl.
    + rewrite list_lookup_alter_ne in Hj by done. apply (di_slots0 u); [|done].
      by eapply list_elem_of_lookup_2.
Qed.

(** With fewer than 2^64 threads the counter is exact. *)
Definition few_threads (p : GenerationPool) : Prop := zlen (threads (running p)) < 2 ^ 64.

Lemma live_bound p : 0 <= live_threads p <= zlen (threads (running p)).
Proof.
  unfold live_threads. induction (threads (running p)) as [|t ts IH]; cbn; [done|].
  destruct (live t); rewrite ?zlen_cons; lia.
Qed.

Lemma live_positive p k t : threads (running p) !! k = Some t → live t = true → 0 < live_threads p.
Proof.
  intros Hk Hl. unfold live_threads. assert (t ∈ threads (running p)) as Hin by (by eapply list_elem_of_lookup_2).
  assert (In t (List.filter live (threads (running p)))) as Hf
    by (apply filter_In; split; [by apply list_elem_of_In|done]).
  destruct (List.filter live _); [done|]. rewrite zlen_cons. zlen_pose. lia.
Qed.

Lemma live_not_complete p k t : drain_inv p → few_threads p → threads (running p) !! k = Some t →
  live t = true → drain_complete p = false.
Proof.
  intros Hi Hf Hk Hl. pose proof (live_bound p). pose proof (live_positive p k t Hk Hl).
  unfold drain_complete, few_threads in *. rewrite (di_flight p Hi), u64_small by lia.
  rewrite (eqb_ne_false (live_threads p) 0) by lia. apply andb_false_r.
Qed.

(** The same without the slots' executors: what an installation leaves alone. *)
Record moved (p p' : GenerationPool) : Prop := {
  mo_pump : pump (running p') = pump (running p);
  mo_threads : threads (running p') = threads (running p);
  mo_in_flight : replacements_in_flight (fleet p') = replacements_in_flight (fleet p);
  mo_slots : length (slots (fleet p')) = length (slots (fleet p));
  mo_due : length (replacement_due_ms (fleet p')) = length (replacement_due_ms (fleet p));
  mo_state : (state (control p') = state (control p) ∧ active_flag (control p') = active_flag (control p))
    ∨ (state (control p) ≠ Pool_kDead ∧ state (control p') = Pool_kDraining
       ∧ active_flag (control p') = false);
  mo_drains : drains p' = drains p
}.

Lemma touched_moved p p' : touched p p' → moved p p'.
Proof. intros []. split; auto. by apply length_slots_same. Qed.

Lemma moved_trans p q r : moved p q → moved q r → moved p r.
Proof.
  intros [] []. split; try congruence.
  destruct mo_state0 as [[E1 E2]|(? & ? & ?)], mo_state1 as [[E3 E4]|(? & ? & ?)].
  - left. split; congruence.
  - right. split; [congruence|done].
  - right. split; [done|]. split; congruence.
  - right. done.
Qed.

Lemma drain_inv_moved p q : moved p q → pump (running p) ≠ Pump_finalize → drain_inv p → drain_inv q.
Proof.
  intros [] Hf []. unfold live_threads in *.
  split; rewrite ?mo_pump0, ?mo_in_flight0, ?mo_drains0, ?mo_due0, ?mo_slots0, ?mo_threads0;
    unfold live_threads; rewrite ?mo_threads0; auto.
  - destruct mo_state0 as [[-> _]|(Hn & -> & _)]; [done|]. rewrite <- di_dead0. split; [done|].
    by intros.
  - rewrite di_drains0. destruct mo_state0 as [[-> _]|(Hn & -> & _)]; [done|].
    by rewrite bool_decide_false.
  - destruct mo_state0 as [[-> ->]|(Hn & -> & ->)]; [done|]. done.
  - destruct mo_state0 as [[-> _]|(Hn & -> & _)]; done.
  - intros Hn. apply di_due0. by destruct mo_state0 as [[<- _]|(? & _)].
Qed.

Lemma drain_inv_release p q k t pc : drain_inv p → few_threads p → moved p q →
  threads (running p) !! k = Some t → live t = true → live (mkThread (thread_slot t) pc) = false →
  drain_inv (set_thread (set_in_flight q (u64 (replacements_in_flight (fleet q) - 1))) k pc).
Proof.
  intros Hp Hfew Hq Hk Hl Hd. pose proof (live_not_complete p k t Hp Hfew Hk Hl) as Hnc.
  assert (pump (running p) ≠ Pump_finalize) as Hnf.
  { intros Hf. apply (di_finalize p Hp) in Hf. congruence. }
  pose proof (drain_inv_moved p q Hq Hnf Hp) as []. rewrite <- (mo_pump _ _ Hq) in Hnf.
  rewrite <- (mo_threads _ _ Hq) in Hk. unfold live_threads in *. split; cbn; auto.
  - rewrite di_flight0, u64_sub_l. unfold live_threads. cbn. rewrite (filter_alter_live _ k _ t Hk).
    rewrite Hl, Hd. f_equal. lia.
  - intros u Hu Hlu. apply list_elem_of_lookup in Hu as [j Hj].
    destruct (decide (j = k)) as [->|Hn].
    + rewrite list_lookup_alter_eq, Hk in Hj. injection Hj as <-. congruence.
    + rewrite list_lookup_alter_ne in Hj by done. apply (di_slots0 u); [|done].
      by eapply list_elem_of_lookup_2.
Qed.

Lemma touched_set_thread p q k pc : touched p q → touched (set_thread p k pc) (set_thread q k pc).
Proof. intros []. unfold set_thread. split; cbn; auto. by rewrite to_threads0. Qed.

(** [release_replacement] is a touch followed by the decrement. *)
Lemma release_shape p i : ∃ q, touched p q
  ∧ release_replacement p i = set_in_flight q (u64 (replacements_in_flight (fleet q) - 1)).
Proof.
  unfold release_replacement. cbn zeta. eexists. split; [|done]. case_match; peel.
Qed.

Lemma drain_inv_abandon p k t pc : drain_inv p → few_threads p →
  threads (running p) !! k = Some t → live t = true → live (mkThread (thread_slot t) pc) = false →
  drain_inv (set_thread (abandon p (thread_slot t)) k pc).
Proof.
  intros Hp Hfew Hk Hl Hd. unfold abandon. destruct (release_shape p (thread_slot t)) as (q & Hq & ->).
  apply (drain_inv_touched (set_thread (set_in_flight q (u64 (replacements_in_flight (fleet q) - 1))) k pc)).
  - apply touched_set_thread. peel.
  - eapply drain_inv_release; eauto. by apply touched_moved.
Qed.

Lemma touched_cover_if p q (c : bool) now ss : touched p q →
  touched p (if c then cover_dead_slots now 0 ss q else q).
Proof. intros Hq. destruct c; [|done]. eapply touched_trans; [exact Hq|apply touched_cover]. Qed.

(** An installation, up to the decrement and after it. *)
Lemma install_shape p i e now s : slots (fleet p) !! i = Some s → ∃ q r, moved p q
  ∧ touched (set_in_flight q (u64 (replacements_in_flight (fleet q) - 1))) r
  ∧ install_replacement p i e now = r.
Proof.
  intros Hs. unfold install_replacement. rewrite Hs. cbn zeta.
  match goal with |- context [release_replacement ?a i] => set (p2 := a) end.
  assert (moved p p2) as Hm.
  { unfold p2. match goal with |- moved p (if _ then shutdown_executor ?a _ else _) => set (p1 := a) end.
    assert (moved p p1) as H1.
    { unfold p1, update_slot. cbn. case_match; split; cbn; auto. by rewrite length_alter. }
    eapply moved_trans; [exact H1|]. apply touched_moved. case_match; peel. }
  clearbody p2. destruct (release_shape p2 i) as (q & Hq & Hr). rewrite Hr.
  exists q. eexists. split; [by eapply moved_trans; [exact Hm|apply touched_moved]|]. split; [|done].
  peel.
  apply touched_cover_if. destruct (_ =? _); peel.
Qed.

Lemma drain_inv_thread_step p k i : drain_inv p → few_threads p → drain_inv (thread_step p k i).
Proof.
  intros Hp Hfew. unfold thread_step.
  destruct (threads (running p) !! k) as [[index pc]|] eqn:Hk; [|done].
  destruct pc.
  - case_match; [exact (drain_inv_abandon p k _ Thread_done Hp Hfew Hk eq_refl eq_refl)|].
    eapply drain_inv_thread; [done|exact Hk|]. by case_match.
  - case_match; [by eapply drain_inv_thread|].
    exact (drain_inv_abandon p k _ Thread_done Hp Hfew Hk eq_refl eq_refl).
  - case_match; [|by eapply drain_inv_thread].
    eapply drain_inv_thread; [|exact Hk|done]. pose proof (live_not_complete p k _ Hp Hfew Hk eq_refl).
    eapply drain_inv_moved; [| |exact Hp]; [split; cbn; auto|].
    intros Hf. apply (di_finalize p Hp) in Hf. congruence.
  - exact (drain_inv_abandon p k _ Thread_record Hp Hfew Hk eq_refl eq_refl).
  - set (q := record_instability _ _ _ _). assert (touched p q) as Hq by apply touched_record.
    apply (drain_inv_thread _ k (mkThread index Thread_record)); [| |done].
    + eapply drain_inv_touched; [|exact Hp]. eapply touched_trans; [exact Hq|apply touched_notify].
    + cbn. by rewrite (to_threads _ _ Hq).
  - assert (is_Some (slots (fleet p) !! index)) as [s Hs].
    { apply lookup_lt_is_Some_2. apply (di_slots p Hp (mkThread index (Thread_install e))); [|done].
      by eapply list_elem_of_lookup_2. }
    destruct (install_shape p index e (thread_now i) s Hs) as (q & r & Hm & Ht & ->).
    eapply drain_inv_touched; [by apply touched_set_thread, Ht|].
    by eapply drain_inv_release.
  - done.
Qed.

Lemma launch_due_inv now index dues p : drain_inv p → state (control p) = Pool_kActive →
  (index + length dues <= length (slots (fleet p)))%nat →
  drain_inv (launch_due now index dues p).
Proof.
  revert index p. induction dues as [|due dues IH]; intros index p Hp Ha Hlen; cbn [launch_due]; [done|].
  cbn in Hlen. case_match; [|apply IH; [done|done|lia]].
  apply IH; [|done|cbn; lia]. destruct Hp. unfold live_threads in *.
  split; cbn; auto.
  - intros Hf. specialize (di_finalize0 Hf). unfold drain_complete in di_finalize0.
    by rewrite Ha in di_finalize0.
  - rewrite di_flight0, u64_add_l. unfold live_threads. cbn. rewrite List.filter_app, zlen_app. done.
  - intros Hn. by rewrite length_insert, di_due0.
  - intros t [Ht|Ht]%elem_of_app Hl; [auto|]. apply list_elem_of_singleton in Ht as ->. cbn. lia.
Qed.

Lemma drain_inv_pump_step p now_ns : drain_inv p → few_threads p → drain_inv (pump_step p now_ns).
Proof.
  intros Hp Hfew. unfold pump_step. cbn zeta.
  assert (∀ q pc, touched p q → pump (running p) ≠ Pump_done → pc ≠ Pump_done → pc ≠ Pump_finalize →
    drain_inv (set_pump q pc)) as Hmove.
  { intros q pc Hq Hn Hpc Hf. apply drain_inv_pump; [by eapply drain_inv_touched| |done|done].
    by rewrite (to_pump _ _ Hq). }
  destruct (pump (running p)) eqn:Epump; try done.
  - unfold pump_sweep. destruct (bool_decide _) eqn:Hd; [|by apply Hmove; [apply touched_refl|..]].
    match goal with |- context [fold_left _ ?es p] => destruct (sweep_fold es p) as (ms & -> & Hms) end.
    pose proof (touched_members p ms Hms) as Ht.
    destruct (fleet_exited _ && _) eqn:Hfe; [|by apply Hmove].
    apply drain_inv_pump; [by eapply drain_inv_touched|by rewrite (to_pump _ _ Ht), Epump|done|].
    intros _. unfold drain_complete. cbn [control set_members set_running]. by rewrite Hd.
  - apply Hmove; [apply touched_stability|done..].
  - unfold pump_launch. destruct (bool_decide _) eqn:Ha; bools; [|by apply Hmove; [apply touched_refl|..]].
    assert (drain_inv (launch_due (steady_ms now_ns) 0 (replacement_due_ms (fleet p)) p)) as Hl.
    { apply launch_due_inv; [done|done|]. rewrite (di_due p Hp); [done|congruence]. }
    apply drain_inv_pump; [done| |done|done]. rewrite <- (di_dead _ Hl).
    assert (∀ n i l q, state (control (launch_due n i l q)) = state (control q)) as Hst.
    { intros n i l. revert i. induction l as [|d l IH]; intros i q; cbn; [done|]. rewrite IH. by case_match. }
    rewrite Hst. congruence.
  - unfold pump_wait. case_match; [case_match|]; try (by apply Hmove; [apply touched_refl|..]).
    eapply drain_inv_touched; [|apply (Hmove p (Pump_sleep (if next_due p =? u64_max then None
      else Some (next_due p)))); [apply touched_refl|done..]]. touch.
  - unfold pump_sleep. repeat case_match; try (by apply Hmove; [apply touched_refl|..]); try done.
    all: eapply drain_inv_touched; [|exact Hp]; touch.
  - destruct (pump_collect_shape p) as (q & exits & (ms & fw & -> & Hms) & ->).
    apply Hmove; [|done..]. cbn in Hms. touch.
  - destruct exited as [|i rest]; [by apply Hmove; [apply touched_refl|..]|].
    apply Hmove; [apply touched_exit|done..].
  - pose proof (di_finalize p Hp Epump) as Hc. destruct Hp.
    assert (state (control p) = Pool_kDraining ∧ live_threads p = 0) as [Hs Hl].
    { unfold drain_complete in Hc. bools. split; [done|]. pose proof (live_bound p).
      unfold few_threads in Hfew. rewrite di_flight0, u64_small in *; lia. }
    split; cbn; auto; try done.
    + unfold drains. cbn. rewrite List.filter_app, zlen_app. unfold drains in di_drains0.
      rewrite di_drains0, Hs. done.
    + rewrite di_flag0, Hs. done.
    + intros t Ht Hlt. exfalso. apply list_elem_of_lookup in Ht as [k Hk].
      pose proof (live_positive p k t Hk Hlt). lia.
Qed.

(** An executor step can only raise its exit flag. *)
Lemma step_exited {real} `{Strtod real} (x : Externals real) s l :
  exited (executor s) = true → exited (executor (step x s l)) = true.
Proof.
  destruct l as [op|env]; cbn [step]; [by rewrite owner_exited|]. intros He.
  assert (∀ e, exited (queue_worker_exit_event e) = exited e) as Hq
    by (intros; unfold queue_worker_exit_event; by case_match).
  destruct (pc s) as [| | |[|c local]|c local| | | | | | | | |]; cbn [worker_step]; try done.
  - cbn. by repeat case_match.
  - by destruct (dropped _ _).
  - pose proof (grows_exited _ _ (grows_run_command env (executor s) c)) as Hr.
    destruct (run_command env (executor s) c) as [[] e]; cbn in *; unfold exit_path, exited in *; cbn;
      rewrite ?Hq; congruence.
  - unfold batch_flush. destruct (answer env call_flush); cbn; by rewrite ?Hq.
  - destruct (incoming env) as [[] event]; cbn; rewrite ?Hq; try done.
    destruct (handle_worker_protocol_event x (executor s) event) as [ok e] eqn:Eh.
    apply handle_event_grows in Eh as [[G _]|[-> ->]]; [|cbn; by rewrite Hq].
    pose proof (grows_exited _ _ G). unfold exited in *. destruct ok; cbn; congruence.
  - destruct (poll_worker _ _ _) as [[]|]; cbn; by rewrite ?Hq.
Qed.

Lemma drain_inv_executor {real} `{Strtod real} (x : Externals real) p e l : drain_inv p →
  drain_inv (alter_member (λ m, mkMember (step x (system m) l) (delivered m) (raw_owner m)) p e).
Proof.
  intros []. split; cbn; auto. intros Hf. specialize (di_finalize0 Hf).
  unfold drain_complete in *. bools. cbn. apply andb_true_iff. split; [|by apply Z.eqb_eq].
  apply andb_true_iff. split; [by rewrite bool_decide_true|].
  unfold fleet_exited in *. cbn. rewrite forallb_forall in *. intros s Hs.
  match goal with Hx : ∀ _, _ → _ |- _ => specialize (Hx s Hs); revert Hx end.
  unfold executor_of, member, alter_member. cbn.
  destruct (decide (slot_executor s = e)) as [->|Hn].
  - rewrite list_lookup_alter_eq. destruct (members (running p) !! e); cbn; [apply step_exited|done].
  - by rewrite list_lookup_alter_ne.
Qed.

Section reachable.
Context {real : Type} `{Strtod real} (x : Externals real).

Lemma drain_inv_step p l : drain_inv p → few_threads p → drain_inv (pool_step x p l).
Proof.
  intros Hp Hfew. destruct l; cbn [pool_step].
  - eapply drain_inv_touched; [apply touched_request_drain|done].
  - eapply drain_inv_touched; [apply touched_recycle|done].
  - by apply drain_inv_pump_step.
  - by apply drain_inv_thread_step.
  - by apply drain_inv_executor.
  - eapply drain_inv_touched; [apply touched_deliver|done].
  - eapply drain_inv_touched; [apply touched_request_drain|].
    destruct Hp. split; cbn; auto.
Qed.

(** The threads vector only grows. *)
Lemma threads_step p l :
  (length (threads (running p)) <= length (threads (running (pool_step x p l))))%nat.
Proof.
  assert (∀ q, touched p q → (length (threads (running p)) <= length (threads (running q)))%nat) as Ht
    by (intros q Hq; by rewrite (to_threads _ _ Hq)).
  destruct l; cbn [pool_step].
  - apply Ht, touched_request_drain.
  - apply Ht, touched_recycle.
  - unfold pump_step. destruct (pump (running p)) as [| | | | | | |[|]| |]; cbn; try done.
    + unfold pump_sweep. case_match; [|done].
      match goal with |- context [fold_left _ ?es p] => destruct (sweep_fold es p) as (ms & -> & Hms) end.
      by case_match.
    + apply (Ht (pump_stability p _)), touched_stability.
    + unfold pump_launch. case_match; [|done]. generalize 0%nat as i, (replacement_due_ms (fleet p)) as dues.
      intros i dues. revert i p Ht H0. induction dues as [|d dues IH]; intros i p _ Ha; cbn [launch_due]; [done|].
      case_match; [|apply IH; [|done]; intros q Hq; by rewrite (to_threads _ _ Hq)].
      etransitivity; [|apply IH; [|done]; intros q Hq; by rewrite (to_threads _ _ Hq)].
      cbn. rewrite length_app. lia.
    + unfold pump_wait. by repeat case_match.
    + unfold pump_sleep. by repeat case_match.
    + destruct (pump_collect_shape p) as (q & exits & (ms & fw & -> & Hms) & ->). done.
    + apply (Ht (handle_executor_exit p _ _)), touched_exit.
  - unfold thread_step. destruct (threads (running p) !! k) as [[index pc]|]; [|done].
    assert (∀ q pc, length (threads (running p)) = length (threads (running q)) →
      (length (threads (running p)) <= length (threads (running (set_thread q k pc))))%nat) as Hs.
    { intros q pc' Hq. cbn. rewrite length_alter. lia. }
    assert (length (threads (running p)) = length (threads (running (abandon p index)))) as Ha.
    { unfold abandon. destruct (release_shape p index) as (q & Hq & ->). cbn. by rewrite (to_threads _ _ Hq). }
    destruct pc; try (by apply Hs); try (case_match; by apply Hs); try done.
    + apply Hs. cbn. by rewrite (to_threads _ _ (touched_record _ _ _ _)).
    + apply Hs. destruct (slots (fleet p) !! index) as [s|] eqn:Es.
      * destruct (install_shape p index e (thread_now i) s Es) as (q & r & Hm & Hr & ->).
        rewrite (to_threads _ _ Hr). cbn. by rewrite (mo_threads _ _ Hm).
      * unfold install_replacement. by rewrite Es.
  - done.
  - apply Ht, touched_deliver.
  - by rewrite (to_threads _ _ (touched_request_drain _)).
Qed.

Lemma pool_run_snoc labels l p : pool_run x (labels ++ [l]) p = pool_step x (pool_run x labels p) l.
Proof. unfold pool_run. by rewrite fold_left_app. Qed.

Lemma drain_inv_run labels p : drain_inv p → few_threads (pool_run x labels p) →
  drain_inv (pool_run x labels p).
Proof.
  intros Hp. induction labels as [|l labels IH] using rev_ind; [done|]. rewrite pool_run_snoc.
  intros Hfew. pose proof (threads_step (pool_run x labels p) l) as Hle.
  assert (few_threads (pool_run x labels p)) by (unfold few_threads, zlen in *; lia).
  apply drain_inv_step; auto.
Qed.
End reachable.

(** ** Created pools *)

Definition ready_slot (e : nat) : Slot := mkSlot e true false false "".

(** The pool under construction, with [n] slots. *)
Record fresh (o : GenerationPoolOptions) (n : nat) (p : GenerationPool) : Prop := {
  fr_options : options p = o;
  fr_fleet : fleet p = mkFleet (map ready_slot (seq 0 n)) [] 0 0 [];
  fr_control : control p = control (new_GenerationPool o);
  fr_running : threads (running p) = [] ∧ pump (running p) = Pump_none
    ∧ notified (running p) = false ∧ unreferenced (running p) = false;
  fr_members : length (members (running p)) = n
    ∧ Forall (λ m, raw_owner m = true ∧ delivered m = 0) (members (running p));
  fr_trace : drains p = 0 ∧ stray_access (trace p) = false
    ∧ Forall (λ o, o ≠ Observed_quarantine) (observed (trace p))
}.

Lemma fresh_new o : fresh o 0 (new_GenerationPool o).
Proof. by split; repeat split. Qed.

Lemma fresh_add o n p sys : fresh o n p → fresh o (S n) (add_slot p sys).
Proof.
  intros [Ho Hf Hc Hr [Hm Hraw] (Hd & Hs & Hq)]. unfold add_slot. split.
  - done.
  - rewrite seq_S, map_app. cbn -[seq]. by rewrite Hf, Hm.
  - done.
  - done.
  - cbn. rewrite length_app, Hm. cbn. split; [lia|]. apply Forall_app. by repeat constructor.
  - unfold drains. cbn. rewrite List.filter_app. cbn. rewrite app_nil_r. split; [done|].
    split; [done|]. apply Forall_app. by repeat constructor.
Qed.

Lemma fresh_create o n outcomes i p q : fresh o n p → create_loop outcomes i p = inr q →
  fresh o (n + length outcomes) q.
Proof.
  revert n i p. induction outcomes as [|[sys|] outcomes IH]; intros n i p Hp; cbn [create_loop length].
  - intros [= <-]. by rewrite Nat.add_0_r.
  - intros Hq. replace (n + S (length outcomes))%nat with (S n + length outcomes)%nat by lia.
    eapply IH; [|exact Hq]. by apply fresh_add.
  - done.
Qed.

Lemma fresh_adopt o n handles i p q : fresh o n p → adopt_loop handles i p = inr q →
  fresh o (n + length handles) q.
Proof.
  revert n i p. induction handles as [|h handles IH]; intros n i p Hp; cbn [adopt_loop length].
  - intros [= <-]. by rewrite Nat.add_0_r.
  - destruct (adopt new_System h) as [[] sys]; [|done].
    intros Hq. replace (n + S (length handles))%nat with (S n + length handles)%nat by lia.
    eapply IH; [|exact Hq]. by apply fresh_add.
Qed.

(** A pool handed out by one of the two constructors. *)
Inductive created (o : GenerationPoolOptions) (now : Z) : GenerationPool → Prop :=
| by_create outcomes p : create o outcomes now = (None, p) → created o now p
| by_adoption warmed destroyed p : create_adopted o warmed now = (None, destroyed, p) → created o now p.

Lemma created_fresh o now p : 0 <= workers o → created o now p →
  0 < workers o ∧ policy_gate (recovery o) = true
  ∧ ∃ q, fresh o (Z.to_nat (workers o)) q ∧ p = start_pool q now.
Proof.
  intros Hw [outcomes q Hc|warmed destroyed q Hc].
  - unfold create in Hc. destruct (workers o =? 0) eqn:H0; [done|]. bools.
    destruct (create_gate o) eqn:Hg; [done|].
    destruct (create_loop _ _ _) as [[]|r] eqn:Hl; [done|]. injection Hc as <-.
    split; [lia|]. split; [unfold create_gate in Hg; by repeat case_match; bools|].
    exists r. split; [|done]. apply (fresh_create o 0) in Hl; [|apply fresh_new].
    by rewrite length_map, length_seq in Hl.
  - unfold create_adopted in Hc. destruct ((workers o =? 0) || _) eqn:H0; [done|]. bools.
    destruct (create_gate o) eqn:Hg; [done|].
    destruct (adopt_loop _ _ _) as [[[]]|r] eqn:Hl; [done|]. injection Hc as <- <-.
    split; [lia|]. split; [unfold create_gate in Hg; by repeat case_match; bools|].
    exists r. split; [|done]. apply (fresh_adopt o 0) in Hl; [|apply fresh_new].
    cbn in Hl. unfold zlen in *. by replace (length warmed) with (Z.to_nat (workers o)) in Hl by lia.
Qed.

Lemma created_drain_inv o now p : 0 <= workers o → created o now p → drain_inv p.
Proof.
  intros Hw Hc.
  destruct (created_fresh o now p Hw Hc) as (_ & _ & q & [Ho Hf Hct (Hr & _) Hm (Hd & _ & _)] & ->).
  unfold start_pool. split; cbn; rewrite ?Hf, ?Hct, ?Hr; cbn; try done.
  - unfold live_threads. cbn. by rewrite Hr.
  - intros _. by rewrite length_replicate.
  - by intros t ?%elem_of_nil.
Qed.

(** ** Executors have one holder

    Every executor of the store is held by one slot, by the retired list or by
    the thread about to install it, and by one only. *)

Definition thread_holds (t : Thread) : option nat :=
  match thread_pc t with Thread_install e => Some e | _ => None end.

Definition held (p : GenerationPool) : list nat :=
  map slot_executor (slots (fleet p)) ++ retired (fleet p) ++ omap thread_holds (threads (running p)).

Record held_inv (p : GenerationPool) : Prop := {
  hi_nodup : NoDup (held p);
  hi_range : Forall (λ e, e < length (members (running p)))%nat (held p)
}.

Lemma held_touched p q : touched p q → held_inv p → held_inv q.
Proof.
  intros [] []. destruct to_members0 as [Hlen _].
  assert (held q = held p) as He.
  { unfold held. by rewrite to_slots0, to_retired0, to_threads0. }
  split; by rewrite He, ?Hlen.
Qed.

Lemma omap_alter_same (f : Thread → Thread) k (ts : list Thread) :
  (∀ t, ts !! k = Some t → thread_holds (f t) = thread_holds t) →
  omap thread_holds (alter f k ts) = omap thread_holds ts.
Proof.
  revert k. induction ts as [|t ts IH]; intros [|k] Hf; cbn; try done.
  - by rewrite (Hf t eq_refl).
  - rewrite IH; [done|]. intros u Hu. by apply Hf.
Qed.

(** Thread moves that hold nothing before and after. *)
Lemma held_set_thread p k t pc : held_inv p → threads (running p) !! k = Some t →
  thread_holds t = None → thread_holds (mkThread (thread_slot t) pc) = None → held_inv (set_thread p k pc).
Proof.
  intros [] Hk H1 H2. assert (held (set_thread p k pc) = held p) as He.
  { unfold held. cbn. rewrite omap_alter_same; [done|]. intros u Hu. rewrite Hk in Hu.
    injection Hu as <-. congruence. }
  split; rewrite He; auto.
Qed.

Lemma omap_take_out k (ts : list Thread) t e pc : ts !! k = Some t → thread_holds t = Some e →
  thread_holds (mkThread (thread_slot t) pc) = None →
  omap thread_holds ts ≡ₚ e :: omap thread_holds (alter (λ t, mkThread (thread_slot t) pc) k ts).
Proof.
  revert k. induction ts as [|u ts IH]; intros [|k] Hk H1 H2; cbn in *; try done.
  - injection Hk as ->. by rewrite H1, H2.
  - destruct (thread_holds u); [|by apply IH]. rewrite (IH k) by done. apply Permutation_swap.
Qed.

Lemma omap_put_in k (ts : list Thread) t e : ts !! k = Some t → thread_holds t = None →
  omap thread_holds (alter (λ t, mkThread (thread_slot t) (Thread_install e)) k ts)
  ≡ₚ e :: omap thread_holds ts.
Proof.
  revert k. induction ts as [|u ts IH]; intros [|k] Hk H1; cbn in *; try done.
  - injection Hk as ->. by rewrite H1.
  - destruct (thread_holds u); [|by apply IH]. rewrite (IH k) by done. apply Permutation_swap.
Qed.

Lemma held_perm p q : held q ≡ₚ held p → (length (members (running p)) <= length (members (running q)))%nat →
  held_inv p → held_inv q.
Proof.
  intros Hp Hl []. split; [by rewrite Hp|]. rewrite Hp. eapply Forall_impl; [exact hi_range0|].
  cbn. lia.
Qed.

(** The slots after an installation. *)
Lemma map_insert_executor i e (ss : list Slot) s (f : Slot → Slot) : ss !! i = Some s →
  (∀ s, slot_executor (f s) = e) →
  slot_executor s :: map slot_executor (alter f i ss) ≡ₚ e :: map slot_executor ss.
Proof.
  intros Hi Hf. revert i Hi. induction ss as [|u ss IH]; intros [|i] Hi; cbn in *; try done.
  - injection Hi as ->. rewrite Hf. apply Permutation_swap.
  - rewrite Permutation_swap, (IH i) by done. apply Permutation_swap.
Qed.

(** What only moves state around keeps the holders. *)
Definition same_held (p q : GenerationPool) : Prop :=
  held q = held p ∧ length (members (running q)) = length (members (running p))
  ∧ threads (running q) = threads (running p).

Lemma same_held_touched p q : touched p q → same_held p q.
Proof.
  intros []. destruct to_members0 as [Hlen _]. unfold same_held, held.
  by rewrite to_slots0, to_retired0, to_threads0.
Qed.

Lemma same_held_trans p q r : same_held p q → same_held q r → same_held p r.
Proof. intros (? & ? & ?) (? & ? & ?). split; [|split]; congruence. Qed.

Lemma same_held_release p i : same_held p (release_replacement p i).
Proof. destruct (release_shape p i) as (q & Hq & ->). by apply same_held_touched in Hq. Qed.

Lemma same_held_abandon p i : same_held p (abandon p i).
Proof. apply (same_held_release p i). Qed.

Lemma held_install p i e now s q : slots (fleet p) !! i = Some s → q = install_replacement p i e now →
  held q ≡ₚ e :: held p ∧ length (members (running q)) = length (members (running p))
  ∧ threads (running q) = threads (running p).
Proof.
  intros Hs Hq. unfold install_replacement in Hq. rewrite Hs in Hq. cbn zeta in Hq. revert Hq.
  match goal with |- context [update_slot (set_fleet p ?f) i ?g] =>
    set (p1 := update_slot (set_fleet p f) i g) end.
  assert (held p1 ≡ₚ e :: held p ∧ length (members (running p1)) = length (members (running p))
    ∧ threads (running p1) = threads (running p)) as (H1 & H2 & H3).
  { unfold p1, update_slot. cbn. rewrite bool_decide_true by (by eapply lookup_lt_Some).
    split; [|done]. unfold held. cbn.
    assert (∀ (a b c d : list nat) u v, u :: a ≡ₚ v :: b → a ++ (c ++ [u]) ++ d ≡ₚ v :: b ++ c ++ d) as Hp.
    { intros a b c d u v Huv.
      transitivity ((u :: a) ++ c ++ d); [|by rewrite Huv].
      rewrite <- (assoc (++) c). cbn. rewrite <- Permutation_middle. by rewrite <- Permutation_middle. }
    apply Hp. by apply map_insert_executor. }
  match goal with |- context [release_replacement ?a i] => set (p2 := a) end.
  assert (same_held p1 p2) as H12 by (apply same_held_touched; unfold p2; case_match; peel).
  intros ->. match goal with |- held ?a ≡ₚ _ ∧ _ => set (r := a) end.
  enough (same_held p1 r) as (-> & -> & ->) by done.
  eapply same_held_trans; [exact H12|]. eapply same_held_trans; [apply (same_held_release p2 i)|].
  apply same_held_touched. unfold r. peel. apply touched_cover_if. case_match; peel.
Qed.

Lemma held_spawn p k t sys : held_inv p → threads (running p) !! k = Some t → thread_holds t = None →
  held_inv (set_thread (set_members p (members (running p) ++ [mkMember sys 0 false])) k
              (Thread_install (length (members (running p))))).
Proof.
  intros [Hn Hr] Hk Ht. set (q := set_thread _ _ _).
  assert (held q ≡ₚ length (members (running p)) :: held p) as Hq.
  { unfold held, q. cbn. rewrite (omap_put_in k _ t) by done. by rewrite <- !Permutation_middle. }
  split; rewrite Hq.
  - constructor; [|done]. intros Hin. rewrite Forall_forall in Hr. apply Hr in Hin. lia.
  - unfold q. cbn. rewrite length_app. cbn. constructor; [lia|].
    eapply Forall_impl; [exact Hr|]. cbn. lia.
Qed.

Lemma held_same p q : same_held p q → held_inv p → held_inv q.
Proof. intros (He & Hl & _) []. split; by rewrite He, ?Hl. Qed.

Lemma held_thread_step p k i : drain_inv p → held_inv p → held_inv (thread_step p k i).
Proof.
  intros Hd Hp. unfold thread_step.
  destruct (threads (running p) !! k) as [[index pc]|] eqn:Hk; [|done].
  assert (∀ q pc', same_held p q → thread_holds (mkThread index pc) = None →
    thread_holds (mkThread index pc') = None → held_inv (set_thread q k pc')) as Hmove.
  { intros q pc' Hq H1 H2. eapply held_set_thread; [by eapply held_same| |exact H1|exact H2].
    by destruct Hq as (_ & _ & ->). }
  pose proof (same_held_abandon p index) as Hab.
  assert (same_held p p) as Hpp by done.
  destruct pc; try (case_match; by apply Hmove); try (by apply Hmove); try done.
  - case_match; [by apply Hmove|]. apply Hmove; [done..|by case_match].
  - case_match; [|by apply Hmove]. by eapply held_spawn.
  - apply Hmove; [|done..]. apply same_held_touched. eapply touched_trans; [apply touched_record|apply touched_notify].
  - assert (is_Some (slots (fleet p) !! index)) as [s Hs].
    { apply lookup_lt_is_Some_2. apply (di_slots p Hd (mkThread index (Thread_install e))); [|done].
      by eapply list_elem_of_lookup_2. }
    destruct (held_install p index e (thread_now i) s _ Hs eq_refl) as (H1 & H2 & H3).
    set (q := install_replacement _ _ _ _) in *.
    apply (held_perm p); [|cbn; by rewrite H2|done].
    apply (Permutation_cons_inv (a := e)). etransitivity; [|exact H1]. symmetry.
    unfold held. cbn. rewrite (omap_take_out k (threads (running q)) (mkThread index (Thread_install e)) e Thread_done);
      [|by rewrite H3|done|done]. by rewrite <- !Permutation_middle.
Qed.

Lemma held_pump p pc : held_inv p → held_inv (set_pump p pc).
Proof. apply held_same. done. Qed.

Lemma launch_due_held now i dues p : held_inv p → held_inv (launch_due now i dues p).
Proof.
  revert i p. induction dues as [|d dues IH]; intros i p Hp; cbn [launch_due]; [done|].
  apply IH. case_match; [|done]. apply (held_perm p); [|done|exact Hp].
  unfold held. cbn. by rewrite omap_app, app_nil_r.
Qed.

Lemma held_pump_step p now_ns : held_inv p → held_inv (pump_step p now_ns).
Proof.
  intros Hp. unfold pump_step. cbn zeta.
  assert (∀ q pc, touched p q → held_inv (set_pump q pc)) as Hmove.
  { intros q pc Hq. apply held_pump. by eapply held_touched. }
  destruct (pump (running p)) as [| | | | | | |[|]| |]; try done; try (by apply Hmove).
  - unfold pump_sweep. case_match; [|by apply held_pump].
    match goal with |- context [fold_left _ ?es p] => destruct (sweep_fold es p) as (ms & -> & Hms) end.
    pose proof (touched_members p ms Hms). case_match; by apply Hmove.
  - apply Hmove, touched_stability.
  - unfold pump_launch. case_match; [|by apply held_pump]. by apply held_pump, launch_due_held.
  - unfold pump_wait. repeat case_match; by apply (held_same p).
  - unfold pump_sleep. repeat case_match; by apply (held_same p).
  - destruct (pump_collect_shape p) as (q & exits & (ms & fw & -> & Hms) & ->). cbn in Hms.
    apply Hmove. touch.
  - by apply held_pump.
  - apply Hmove, touched_exit.
  - destruct Hp as [Hn Hr]. unfold finalize_drain. split; cbn.
    all: unfold held in *; cbn in *.
    + by apply NoDup_app in Hn as (_ & _ & [_ [_ Hn]]%NoDup_app).
    + by apply Forall_app in Hr as [_ [_ Hr]%Forall_app].
Qed.

Lemma held_step {real} `{Strtod real} (x : Externals real) p l : drain_inv p → held_inv p →
  held_inv (pool_step x p l).
Proof.
  intros Hd Hp. destruct l; cbn [pool_step].
  - eapply held_touched; [apply touched_request_drain|done].
  - eapply held_touched; [apply touched_recycle|done].
  - by apply held_pump_step.
  - by apply held_thread_step.
  - apply (held_same p); [|done]. split; [done|]. cbn. by rewrite length_alter.
  - eapply held_touched; [apply touched_deliver|done].
  - eapply held_touched; [apply touched_request_drain|]. by apply (held_same p).
Qed.

(** ** The pump's wake-up

    A notifier that has run, or is about to, before the pool has seen it. *)

Definition noticing (m : Member) : Prop :=
  pc (system m) = Pc_store ∨ pc (system m) = Pc_notify
  ∨ delivered m < notifications (executor (system m)).

Definition pending_notice (p : GenerationPool) : Prop :=
  ∃ e m, members (running p) !! e = Some m ∧ noticing m.

Section notices.
Context {real : Type} `{Strtod real} (x : Externals real).

Lemma queue_exit_notifications e : notifications e <= notifications (queue_worker_exit_event e).
Proof. unfold queue_worker_exit_event. case_match; cbn; lia. Qed.

Lemma step_notifications s l : notifications (executor s) <= notifications (executor (step x s l)).
Proof.
  destruct l as [op|env]; cbn [step]; [apply owner_notifications|].
  destruct (pc s) as [| | |[|c local]|c local| | | | | | | | |]; cbn [worker_step]; try done.
  - cbn. by repeat case_match.
  - by destruct (dropped _ _).
  - pose proof (grows_notified _ _ (grows_run_command env (executor s) c)) as Hr.
    destruct (run_command env (executor s) c) as [[] e]; cbn in *; [done|].
    etransitivity; [exact Hr|apply queue_exit_notifications].
  - unfold batch_flush. destruct (answer env call_flush); cbn; try done; apply (queue_exit_notifications (called _ _)).
  - destruct (incoming env) as [[] event]; cbn; try done; try apply queue_exit_notifications.
    destruct (handle_worker_protocol_event x (executor s) event) as [ok e] eqn:Eh.
    apply handle_event_grows in Eh as [[G _]|[-> ->]]; [|apply queue_exit_notifications].
    destruct ok; apply G.
  - destruct (poll_worker _ _ _) as [[]|]; cbn; try done; apply queue_exit_notifications.
  - cbn. lia.
Qed.

Lemma step_exit_pc s l : exited (executor s) = false → exited (executor (step x s l)) = true →
  pc (step x s l) = Pc_store.
Proof.
  destruct l as [op|env]; cbn [step]; [rewrite owner_exited; congruence|]. intros He.
  assert (∀ e, exited (queue_worker_exit_event e) = exited e) as Hq
    by (intros; unfold queue_worker_exit_event; by case_match).
  assert (∀ (P : Prop) b, b = false → b = true → P) as Hno by (intros; congruence).
  destruct (pc s) as [| | |[|c local]|c local| | | | | | | | |]; cbn [worker_step]; try done;
    try (by apply Hno).
  - cbn. repeat case_match; by apply Hno.
  - destruct (dropped _ _); by apply Hno.
  - pose proof (grows_exited _ _ (grows_run_command env (executor s) c)) as Hr. unfold exit_path.
    destruct (run_command env (executor s) c) as [[] e]; cbn in *; rewrite ?Hq; apply Hno;
      unfold exited in *; by rewrite Hr.
  - unfold batch_flush. destruct (answer env call_flush); cbn; rewrite ?Hq; by apply Hno.
  - destruct (incoming env) as [[] event]; cbn; rewrite ?Hq; try (by apply Hno).
    destruct (handle_worker_protocol_event x (executor s) event) as [ok e] eqn:Eh.
    apply handle_event_grows in Eh as [[G _]|[-> ->]]; [|cbn; rewrite Hq; by apply Hno].
    pose proof (grows_exited _ _ G) as Hr. destruct ok; apply Hno; unfold exited in *; cbn; by rewrite Hr.
  - destruct (poll_worker _ _ _) as [[]|]; cbn; rewrite ?Hq; by apply Hno.
Qed.

(** Executors as the pool may hold them. *)
Definition reachable (sys : System) : Prop := ∃ labels, sys = run x labels new_System.

Lemma reachable_step s l : reachable s → reachable (step x s l).
Proof. intros [labels ->]. exists (labels ++ [l]). unfold run. by rewrite fold_left_app. Qed.

Lemma reachable_started s : reachable s → pc s ≠ Pc_none → started (life (executor s)) = true.
Proof. intros [labels ->]. apply (ri_started x labels), reaper_inv_run. Qed.

Lemma reachable_notifications s : reachable s → 0 <= notifications (executor s).
Proof.
  intros [labels ->]. induction labels as [|l labels IH] using rev_ind; [done|].
  unfold run. rewrite fold_left_app. cbn [fold_left]. etransitivity; [exact IH|apply step_notifications].
Qed.

Record member_ok (m : Member) : Prop := {
  mk_delivered : delivered m <= notifications (executor (system m));
  mk_reachable : reachable (system m)
}.

Lemma member_ok_step m l d : member_ok m → d <= notifications (executor (system m)) →
  member_ok (mkMember (step x (system m) l) d (raw_owner m)).
Proof.
  intros [Hd Hr] Hle. split; cbn; [|by apply reachable_step].
  etransitivity; [exact Hle|apply step_notifications].
Qed.

(** A notice survives every step of the executor. *)
Lemma noticing_step m l : member_ok m → noticing m →
  noticing (mkMember (step x (system m) l) (delivered m) (raw_owner m)).
Proof.
  intros [Hd Hr] Hn. unfold noticing in *. cbn. pose proof (step_notifications (system m) l) as Hs.
  pose proof (reachable_started _ Hr) as Hst.
  destruct Hn as [Hp|[Hp|Hn]]; [| |right; right; lia]; destruct l as [op|env]; cbn [step] in *.
  - left. rewrite (owner_notice op (system m) Hst); [done|by rewrite Hp].
  - right. left. by rewrite Hp.
  - right. left. rewrite (owner_notice op (system m) Hst); [done|by rewrite Hp].
  - right. right. rewrite Hp. cbn. lia.
Qed.

Lemma member_ok_evolved m m' : member_ok m → evolved m m' → member_ok m'.
Proof.
  intros [Hd Hr] [[ops Hops] Hd']. pose proof (calls_notifications ops (system m)) as Hn.
  rewrite <- Hops in Hn. split; [lia|]. rewrite Hops. clear -Hr.
  revert Hr. generalize (system m). induction ops as [|op ops IH]; intros s Hr; cbn [fold_left]; [done|].
  apply IH. by apply (reachable_step s (Owner op)).
Qed.

Lemma members_ok_evolved ms ms' : same_exits ms ms' → Forall member_ok ms → Forall member_ok ms'.
Proof.
  intros (_ & _ & He). induction He; [done|]. intros [Hm Hms]%Forall_cons.
  constructor; eauto using member_ok_evolved.
Qed.

(** The pump asleep: its predicate holds only with a wake-up on the way. *)
Record wake_inv (p : GenerationPool) : Prop := {
  wi_members : Forall member_ok (members (running p));
  wi_sleep deadline : unreferenced (running p) = false →
    pump (running p) = Pump_sleep deadline → wake_predicate p deadline = true →
    notified (running p) = true ∨ pending_notice p
}.

(** Inputs: a replacement is handed over as some run of its executor left it. *)
Definition sound_input (l : PoolLabel) : Prop :=
  match l with
  | Pool_thread _ i => ∀ sys, spawned i = Some sys → reachable sys
  | _ => True
  end.

Lemma members_ok_touched p q : touched p q → Forall member_ok (members (running p)) →
  Forall member_ok (members (running q)).
Proof. intros Ht. apply members_ok_evolved, Ht. Qed.

Lemma members_ok_pump p now_ns : Forall member_ok (members (running p)) →
  Forall member_ok (members (running (pump_step p now_ns))).
Proof.
  intros Hp. unfold pump_step. cbn zeta.
  destruct (pump (running p)) as [| | | | | | |[|]| |]; cbn; try done.
  - unfold pump_sweep. case_match; [|done].
    match goal with |- context [fold_left _ ?es p] => destruct (sweep_fold es p) as (ms & -> & Hms) end.
    case_match; by eapply members_ok_evolved.
  - by apply (members_ok_touched p (pump_stability p _)), Hp; apply touched_stability.
  - unfold pump_launch. case_match; [|done].
    assert (∀ n i l q, members (running (launch_due n i l q)) = members (running q)) as Hl.
    { intros n i l. revert i. induction l as [|d l IH]; intros i q; cbn; [done|]. rewrite IH. by case_match. }
    by rewrite Hl.
  - unfold pump_wait. by repeat case_match.
  - unfold pump_sleep. by repeat case_match.
  - destruct (pump_collect_shape p) as (q & exits & (ms & fw & -> & Hms) & ->).
    by eapply members_ok_evolved.
  - apply (members_ok_touched p (handle_executor_exit p _ _)), Hp; apply touched_exit.
Qed.

Lemma abandon_members p i : same_exits (members (running p)) (members (running (abandon p i))).
Proof. unfold abandon. destruct (release_shape p i) as (q & Hq & ->). apply Hq. Qed.

Lemma install_members p i e now :
  same_exits (members (running p)) (members (running (install_replacement p i e now))).
Proof.
  unfold install_replacement. destruct (slots (fleet p) !! i) as [s|]; [|apply same_exits_refl]. cbn zeta.
  match goal with |- context [release_replacement ?a i] => set (p2 := a) end.
  assert (same_exits (members (running p)) (members (running p2))) as H2.
  { unfold p2. destruct (bool_decide _); unfold update_slot; cbn; case_match; cbn;
      first [apply same_exits_refl|apply (same_exits_call Op_request_shutdown)]. }
  clearbody p2. destruct (release_shape p2 i) as (q & Hq & ->).
  eapply same_exits_trans; [exact H2|]. eapply same_exits_trans; [apply Hq|].
  match goal with |- same_exits _ (members (running ?r)) =>
    enough (touched (set_in_flight q (u64 (replacements_in_flight (fleet q) - 1))) r) as Ht by apply Ht end.
  peel. apply touched_cover_if. destruct (_ =? _); peel.
Qed.

Lemma members_ok_step p l : sound_input l → Forall member_ok (members (running p)) →
  Forall member_ok (members (running (pool_step x p l))).
Proof.
  intros Hl Hp. destruct l; cbn [pool_step].
  - by eapply members_ok_touched; [apply touched_request_drain|].
  - by eapply members_ok_touched; [apply touched_recycle|].
  - by apply members_ok_pump.
  - unfold thread_step. destruct (threads (running p) !! k) as [[index pc]|]; [|done].
    destruct pc; cbn; try done.
    + case_match; [|done]. eapply members_ok_evolved, Hp. apply abandon_members.
    + case_match; [done|]. eapply members_ok_evolved, Hp. apply abandon_members.
    + case_match; [|done]. apply Forall_app. split; [done|]. constructor; [|constructor].
      cbn in Hl. split; cbn; [by apply reachable_notifications, Hl|by apply Hl].
    + eapply members_ok_evolved, Hp. apply abandon_members.
    + eapply members_ok_touched, Hp. apply touched_record.
    + eapply members_ok_evolved, Hp. apply install_members.
  - cbn. apply Forall_alter; [done|]. intros m _ Hok.
    apply member_ok_step; [done|apply Hok].
  - by eapply members_ok_touched; [apply touched_deliver|].
  - by eapply members_ok_touched; [apply touched_request_drain|].
Qed.

(** What the recording does to the condition variable. *)
Lemma record_cases p i o reason : notified (running (record_instability p i o reason)) = true
  ∨ ∃ r, record_instability p i o reason = set_recovery p r.
Proof.
  unfold record_instability. case_match; [right; exists (recovery_state (control p)); by destruct p as [? ? [] ? ?]|].
  case_match; [by left|]. case_match; [by left|]. right. by eexists.
Qed.

Lemma pending_alter p e (f : Member → Member) :
  (∀ m, members (running p) !! e = Some m → noticing m → noticing (f m)) →
  pending_notice p → pending_notice (alter_member f p e).
Proof.
  intros Hf (e' & m & Hm & Hn). destruct (decide (e' = e)) as [->|Hne].
  - exists e, (f m). cbn. rewrite list_lookup_alter_eq, Hm. auto.
  - exists e', m. cbn. by rewrite list_lookup_alter_ne.
Qed.

Lemma sleep_recycle p target now : wake_inv p → wake_inv (recycle_worker p target now).2.
Proof.
  intros Hp. split; [eapply members_ok_touched, Hp; apply touched_recycle|].
  intros deadline Hu Hs Hw. unfold recycle_worker in *.
  destruct (bool_decide _) eqn:Ha; cbn [negb] in *; [|by eapply Hp]. bools.
  destruct (find_ready _ _ _) as [i|]; cbn [snd] in *; [|by eapply Hp].
  set (p1 := update_slot _ _ _) in *.
  assert (running p1 = running p ∧ control p1 = control p
    ∧ replacement_due_ms (fleet p1) = replacement_due_ms (fleet p)) as (H1 & H2 & H3).
  { unfold p1, update_slot. by case_match. }
  destruct (record_cases p1 i (observation p1 Kind_kHealthRecycle now) "unhealthy") as [Hn|[r Hr]];
    [by left|]. rewrite Hr in *. clear Hr.
  destruct (wi_sleep p Hp deadline) as [Hn|Hn].
  - by rewrite <- Hu, <- H1.
  - by rewrite <- Hs, <- H1.
  - revert Hw. unfold wake_predicate, drain_complete, due_pending. cbn. rewrite H2, H3, Ha. done.
  - left. cbn. by rewrite H1.
  - right. apply pending_alter.
    + intros m Hm. apply (noticing_step m (Owner Op_request_shutdown)). cbn in Hm. rewrite H1 in Hm.
      eapply Forall_lookup_1; [apply Hp|exact Hm].
    + destruct Hn as (e & m & Hm & Hn). exists e, m. cbn. by rewrite H1.
Qed.

(** A thread's quiet moves: the store may grow at its end. *)
Lemma sleep_thread p k pc ms : held_inv p → wake_inv p →
  Forall member_ok (members (running p) ++ ms) →
  wake_inv (set_thread (set_members p (members (running p) ++ ms)) k pc).
Proof.
  intros [_ Hh] Hp Hms. split; [done|]. intros deadline Hu Hs Hw.
  destruct (wi_sleep p Hp deadline Hu Hs) as [Hn|(e & m & Hm & Hn)].
  - revert Hw. unfold wake_predicate, drain_complete, due_pending, fleet_exited. cbn.
    assert (forallb (λ s, exited (executor_of (set_thread (set_members p (members (running p) ++ ms)) k pc)
      (slot_executor s))) (slots (fleet p)) = forallb (λ s, exited (executor_of p (slot_executor s))) (slots (fleet p))) as ->.
    { unfold held in Hh. apply Forall_app in Hh as [Hh _].
      induction (slots (fleet p)) as [|s ss IH]; [done|]. cbn in *. apply Forall_cons in Hh as [H1 H2].
      rewrite IH by done. f_equal. unfold executor_of, member. cbn. by rewrite lookup_app_l. }
    done.
  - by left.
  - right. exists e, m. cbn. split; [|done]. by apply lookup_app_l_Some.
Qed.

Lemma wake_thread_step p k i : sound_input (Pool_thread k i) → held_inv p → wake_inv p →
  wake_inv (thread_step p k i).
Proof.
  intros Hl Hh Hp. pose proof (members_ok_step p (Pool_thread k i) Hl (wi_members p Hp)) as Hms.
  split; [done|]. cbn [pool_step] in Hms. intros deadline.
  assert (∀ pc, wake_inv (set_thread p k pc)) as Hq.
  { intros pc. pose proof (sleep_thread p k pc [] Hh Hp) as Hs. rewrite app_nil_r in Hs.
    destruct p as [? ? ? [] ?]. apply Hs, Hp. }
  assert (∀ q, notified (running q) = true → notified (running q) = true ∨ pending_notice q) as Hn by auto.
  unfold thread_step in *. destruct (threads (running p) !! k) as [[index pc]|]; [|apply Hp].
  destruct pc.
  - case_match; [intros; by apply Hn|apply Hq].
  - case_match; [apply Hq|intros; by apply Hn].
  - case_match; [|apply Hq]. apply (sleep_thread p k _ _ Hh Hp). exact Hms.
  - intros; by apply Hn.
  - intros; by apply Hn.
  - unfold install_replacement. destruct (slots (fleet p) !! index); [intros; by apply Hn|]. apply Hq.
  - apply Hp.
Qed.

(** The store's exits and the predicate. *)
Lemma sleep_executor p e l : wake_inv p → wake_inv (pool_step x p (Pool_executor e l)).
Proof.
  intros Hp. pose proof (members_ok_step p (Pool_executor e l) I (wi_members p Hp)) as Hms.
  split; [done|]. cbn [pool_step] in *. intros deadline Hu Hs Hw.
  assert (pending_notice p → pending_notice (pool_step x p (Pool_executor e l))) as Hpend.
  { apply pending_alter. intros m Hm. apply noticing_step.
    eapply Forall_lookup_1; [apply Hp|exact Hm]. }
  destruct (wake_predicate p deadline) eqn:Hw0;
    [destruct (wi_sleep p Hp deadline Hu Hs Hw0); auto|]. right.
  set (q := alter_member _ _ _) in *.
  assert (fleet_exited p = false ∧ fleet_exited q = true) as [Hf Hf'].
  { revert Hw Hw0. unfold wake_predicate, drain_complete. change (due_pending q) with (due_pending p).
    change (control q) with (control p). change (fleet q) with (fleet p).
    destruct deadline, (events_pending _), (due_pending p), (bool_decide _), (_ =? 0), (fleet_exited p),
      (fleet_exited q); cbn; done. }
  unfold fleet_exited in *. rewrite forallb_forall in Hf'.
  assert (∃ s, s ∈ slots (fleet p) ∧ exited (executor_of p (slot_executor s)) = false) as (s & Hin & Hx).
  { clear -Hf. induction (slots (fleet p)) as [|s ss IH]; [done|]. cbn in Hf.
    destruct (exited (executor_of p (slot_executor s))) eqn:He; [|exists s; by split; [left|]].
    destruct (IH Hf) as (s' & ? & ?). exists s'. by split; [right|]. }
  apply list_elem_of_In, Hf' in Hin. unfold q, executor_of, member, alter_member in Hx, Hin. cbn in Hin.
  destruct (decide (slot_executor s = e)) as [<-|Hne]; [|rewrite list_lookup_alter_ne in Hin by done; congruence].
  rewrite list_lookup_alter_eq in Hin.
  destruct (members (running p) !! slot_executor s) as [m|] eqn:Hm; [|done]. cbn in Hin, Hx.
  exists (slot_executor s), (mkMember (step x (system m) l) (delivered m) (raw_owner m)). split.
  - unfold q. cbn. by rewrite list_lookup_alter_eq, Hm.
  - left. by apply step_exit_pc.
Qed.

Lemma sleep_deliver p e : wake_inv p → wake_inv (deliver p e).
Proof.
  intros Hp. split; [eapply members_ok_touched, Hp; apply touched_deliver|]. intros deadline.
  unfold deliver. case_match; [apply Hp|]. case_match; [|intros; by left].
  bools. intros Hu. cbn in *. congruence.
Qed.

Lemma sleep_pump p now_ns : wake_inv p → wake_inv (pump_step p now_ns).
Proof.
  intros Hp. split; [apply members_ok_pump, Hp|]. intros deadline Hu Hs Hw.
  unfold pump_step in *. cbn zeta in *. pose proof (wi_sleep p Hp) as Hsl.
  destruct (pump (running p)) as [| | | | |d| |[|]| |] eqn:Ep; try (cbn in Hs; congruence).
  - exfalso. revert Hs. unfold pump_sweep. destruct (bool_decide _); [|done]. cbn zeta. by destruct (_ && _).
  - unfold pump_wait in *. destruct (_ && _); [|done].
    destruct (wake_predicate p _) eqn:Ew; [done|]. injection Hs as Hs. rewrite Hs in Ew.
    change (wake_predicate p deadline = true) in Hw. congruence.
  - unfold pump_sleep in *. destruct (match d with Some _ => _ | None => _ end); [done|].
    destruct (notified (running p)) eqn:En; [|by rewrite En; apply (Hsl deadline); [|congruence|]].
    destruct (wake_predicate p d) eqn:Ew; [done|]. cbn in Hs. rewrite Ep in Hs. injection Hs as ->.
    change (wake_predicate p deadline = true) in Hw. congruence.
  - destruct (pump_collect_shape p) as (q & exits & Hq & He). rewrite He in Hs. done.
Qed.

Lemma wake_step p l : sound_input l → held_inv p → wake_inv p → wake_inv (pool_step x p l).
Proof.
  intros Hl Hh Hp. destruct l; cbn [pool_step].
  - split; [eapply members_ok_touched, Hp; apply touched_request_drain|]. intros d.
    unfold request_drain. case_match; try (intros; by left); apply Hp.
  - by apply sleep_recycle.
  - by apply sleep_pump.
  - by apply wake_thread_step.
  - by apply sleep_executor.
  - by apply sleep_deliver.
  - split; [eapply members_ok_touched; [apply touched_request_drain|apply Hp]|]. intros d Hu.
    rewrite (to_unreferenced _ _ (touched_request_drain _)) in Hu. done.
Qed.

(** The invariants together, along a run. *)
Record pool_inv (p : GenerationPool) : Prop := {
  pi_drain : drain_inv p;
  pi_held : held_inv p;
  pi_wake : wake_inv p
}.

Lemma pool_inv_run labels p : pool_inv p → Forall sound_input labels →
  few_threads (pool_run x labels p) → pool_inv (pool_run x labels p).
Proof.
  intros Hp. induction labels as [|l labels IH] using rev_ind; [done|].
  intros [Hls Hl%Forall_inv]%Forall_app. rewrite pool_run_snoc. intros Hfew.
  pose proof (threads_step x (pool_run x labels p) l) as Hle.
  assert (few_threads (pool_run x labels p)) as Hf by (unfold few_threads, zlen in *; lia).
  destruct (IH Hls Hf). split; auto using drain_inv_step, held_step, wake_step.
Qed.

Lemma created_pool_inv o now p : 0 <= workers o → created o now p →
  Forall (λ m, reachable (system m)) (members (running p)) → pool_inv p.
Proof.
  intros Hw Hc Hr. pose proof (created_drain_inv o now p Hw Hc) as Hd.
  destruct (created_fresh o now p Hw Hc) as (_ & _ & q & [Ho Hf Hct (Ht & _) [Hm Hraw] _] & ->).
  split; [done| |].
  - split; unfold held; cbn; rewrite Hf, Ht; cbn.
    all: rewrite map_map, app_nil_r, map_id.
    + apply NoDup_seq.
    + apply Forall_forall. intros e He%elem_of_seq. lia.
  - split; [|done]. cbn in *. rewrite Forall_forall in *. intros m Hin.
    split; [|by apply Hr]. destruct (Hraw m Hin) as [_ ->]. by apply reachable_notifications, Hr.
Qed.
End notices.

(** ** Steps that leave the pump in place *)

Lemma pump_elsewhere {real} `{Strtod real} (x : Externals real) p l :
  (∀ now_ns, l ≠ Pool_pump now_ns) → pump (running (pool_step x p l)) = pump (running p).
Proof.
  intros Hl. destruct l; cbn [pool_step]; try done.
  - apply (to_pump _ _ (touched_request_drain p)).
  - apply (to_pump _ _ (touched_recycle p target now)).
  - by destruct (Hl now_ns).
  - unfold thread_step. destruct (threads (running p) !! k) as [[index pc]|]; [|done].
    assert (∀ j, pump (running (abandon p j)) = pump (running p)) as Ha.
    { intros j. unfold abandon. destruct (release_shape p j) as (q & Hq & ->). apply Hq. }
    assert (∀ q pc, pump (running (set_thread q k pc)) = pump (running q)) as Hs by done.
    destruct pc; rewrite ?Hs; auto; try (case_match; by rewrite Hs, ?Ha).
    + apply (to_pump _ _ (touched_record _ _ _ _)).
    + destruct (slots (fleet p) !! index) as [s|] eqn:Es.
      * destruct (install_shape p index e (thread_now i) s Es) as (q & r & Hm & Hr & ->).
        rewrite (to_pump _ _ Hr). cbn. apply Hm.
      * unfold install_replacement. by rewrite Es.
  - apply (to_pump _ _ (touched_deliver p e)).
  - by rewrite (to_pump _ _ (touched_request_drain _)).
Qed.

(** Only the last step of the pump ends the pool. *)
Lemma step_to_done {real} `{Strtod real} (x : Externals real) p l :
  pump (running (pool_step x p l)) = Pump_done → pump (running p) ≠ Pump_done →
  pump (running p) = Pump_finalize.
Proof.
  intros Hd Hn. destruct l; try (by rewrite pump_elsewhere in Hd).
  cbn [pool_step] in Hd. unfold pump_step in Hd. cbn zeta in Hd.
  destruct (pump (running p)) as [| | | | | | |[|]| |] eqn:Ep; try done; try congruence; exfalso; revert Hd.
  - unfold pump_sweep. destruct (bool_decide _); [|done]. cbn zeta. by destruct (_ && _).
  - unfold pump_wait. destruct (_ && _); [|done]. cbn zeta. by destruct (wake_predicate _ _).
  - unfold pump_sleep. destruct (match deadline with Some _ => _ | None => _ end); [done|].
    destruct (notified _); [destruct (wake_predicate _ _); [done|]|]; cbn; congruence.
  - destruct (pump_collect_shape p) as (q & exits & Hq & ->). done.
Qed.

(** No step starts a replacement thread once the pool has left [kActive]. *)
Lemma no_launch {real} `{Strtod real} (x : Externals real) p l : state (control p) ≠ Pool_kActive →
  length (threads (running (pool_step x p l))) = length (threads (running p)).
Proof.
  intros Ha. destruct l; cbn [pool_step]; try done.
  - by rewrite (to_threads _ _ (touched_request_drain p)).
  - by rewrite (to_threads _ _ (touched_recycle p target now)).
  - unfold pump_step. cbn zeta. destruct (pump (running p)) as [| | | | | | |[|]| |]; try done.
    + unfold pump_sweep. destruct (bool_decide _); [|done].
      match goal with |- context [fold_left _ ?es p] => destruct (sweep_fold es p) as (ms & -> & Hms) end.
      by destruct (_ && _).
    + cbn. by rewrite (to_threads _ _ (touched_stability p _)).
    + unfold pump_launch. by rewrite bool_decide_false.
    + unfold pump_wait. destruct (_ && _); [|done]. by destruct (wake_predicate _ _).
    + unfold pump_sleep. destruct (match deadline with Some _ => _ | None => _ end); [done|].
      destruct (notified _); [by destruct (wake_predicate _ _)|done].
    + destruct (pump_collect_shape p) as (q & exits & (ms & fw & -> & _) & ->). done.
    + cbn. by rewrite (to_threads _ _ (touched_exit p _ _)).
  - unfold thread_step. destruct (threads (running p) !! k) as [[index pc]|]; [|done].
    assert (∀ q pc, threads (running q) = threads (running p) →
      length (threads (running (set_thread q k pc))) = length (threads (running p))) as Hs.
    { intros q pc' Hq. cbn. by rewrite length_alter, Hq. }
    destruct (same_held_abandon p index) as (_ & _ & Hab).
    destruct pc; try (case_match; by apply Hs); try (by apply Hs); try done.
    + apply Hs. cbn. by rewrite (to_threads _ _ (touched_record _ _ _ _)).
    + apply Hs. destruct (slots (fleet p) !! index) as [s|] eqn:Es.
      * by apply (held_install p index e (thread_now i) s).
      * unfold install_replacement. by rewrite Es.
  - by rewrite (to_threads _ _ (touched_deliver p e)).
  - by rewrite (to_threads _ _ (touched_request_drain _)).
Qed.

(** ** The scheduling loop *)

Definition candidate (p : GenerationPool) (s : Slot) : bool :=
  slot_ready s && available (executor_of p (slot_executor s)).

Definition slot_load (p : GenerationPool) (loader : option (nat → Z)) (s : Slot) : Z :=
  let load := inflight (executor_of p (slot_executor s)) in
  match loader with Some bytes => u64 (load + bytes (slot_executor s)) | None => load end.

Lemma pick_step_spec p loader best s : pick_step p loader best s
  = if candidate p s && (slot_load p loader s <? best.2)
    then (Some (slot_executor s), slot_load p loader s) else best.
Proof.
  unfold pick_step, candidate, slot_load. destruct (slot_ready s); [|done]. cbn [negb andb].
  destruct (available _); [|done]. cbn [negb andb]. by destruct (_ <? _).
Qed.

(** The fold keeps the first of the least loaded. *)
Lemma pick_fold p loader ss b : 
  (∃ l1 s l2, ss = l1 ++ s :: l2 ∧ candidate p s = true ∧ slot_load p loader s < b.2
     ∧ Forall (λ t, candidate p t = true → slot_load p loader s < slot_load p loader t) l1
     ∧ Forall (λ t, candidate p t = true → slot_load p loader s <= slot_load p loader t) l2
     ∧ fold_left (pick_step p loader) ss b = (Some (slot_executor s), slot_load p loader s))
  ∨ (Forall (λ t, candidate p t = true → b.2 <= slot_load p loader t) ss
     ∧ fold_left (pick_step p loader) ss b = b).
Proof.
  induction ss as [|t ss IH] using rev_ind; [by right; split; [constructor|]|].
  rewrite fold_left_app. cbn [fold_left]. rewrite pick_step_spec.
  destruct IH as [(l1 & s & l2 & -> & Hc & Hb & H1 & H2 & ->)|[Hf ->]]; cbn [snd].
  - destruct (candidate p t && _) eqn:E; bools; left.
    + exists (l1 ++ s :: l2), t, []. split; [done|]. split; [done|]. split; [lia|].
      split; [|by split; [constructor|]]. apply Forall_app. split; [|constructor].
      * eapply Forall_impl; [exact H1|]. cbn. intros u Hu Hcu. specialize (Hu Hcu). lia.
      * intros _. lia.
      * eapply Forall_impl; [exact H2|]. cbn. intros u Hu Hcu. specialize (Hu Hcu). lia.
    + exists l1, s, (l2 ++ [t]). split; [by rewrite <- (assoc (++))|]. do 3 (split; [done|]).
      split; [|done]. apply Forall_app. split; [done|]. constructor; [|constructor]. intros Hct.
      rewrite Hct in E. cbn in E. bools. lia.
  - destruct (candidate p t && _) eqn:E; bools.
    + left. exists ss, t, []. do 2 (split; [done|]). split; [lia|]. split; [|by split; [constructor|]].
      eapply Forall_impl; [exact Hf|]. cbn. intros u Hu Hcu. specialize (Hu Hcu). lia.
    + right. split; [|done]. apply Forall_app. split; [done|]. constructor; [|constructor]. intros Hct.
      rewrite Hct in E. cbn in E. bools. lia.
Qed.

(** ** Pools without a worker and without a replacement

    Nothing but a drain moves such a pool any more. *)

Definition settled (m : Member) : Prop :=
  pc (system m) = Pc_done ∧ started (life (executor (system m))) = true
  ∧ notifications (executor (system m)) <= delivered m.

Record stranded (p : GenerationPool) : Prop := {
  st_state : state (control p) = Pool_kActive;
  st_slots : Forall (λ s, slot_ready s = false) (slots (fleet p));
  st_pump : pump (running p) = Pump_sleep None;
  st_quiet : events_pending (control p) = false ∧ due_pending p = false;
  st_threads : Forall (λ t, thread_pc t = Thread_done) (threads (running p));
  st_members : Forall settled (members (running p))
}.

Definition no_drain (l : PoolLabel) : Prop :=
  match l with Pool_drain | Pool_unreference => False | _ => True end.

Lemma settled_step {real} `{Strtod real} (x : Externals real) m l : settled m →
  settled (mkMember (step x (system m) l) (delivered m) (raw_owner m)).
Proof.
  intros (Hp & Hs & Hn). unfold settled in *. cbn. destruct l as [op|env]; cbn [step].
  - assert (∀ e c, notifications (submit e c) = notifications e ∧ started (life (submit e c)) = started (life e)) as Hsub.
    { intros e c. unfold submit. by repeat case_match. }
    assert (∀ e, notifications (request_shutdown e) = notifications e
      ∧ started (life (request_shutdown e)) = started (life e)) as Hr.
    { intros e. unfold request_shutdown. case_match; [done|]. by destruct (Hsub (set_life e
        (mkLife (started (life e)) true (destroying (life e)) (exited_ (life e)) (exit_event_queued (life e))
           (worker_ (life e)) (shutdown_deadline (life e)))) (new_Command Command_kShutdown 0)) as [-> ->]. }
    assert (∀ e id, notifications (mark_canceled e id) = notifications e
      ∧ started (life (mark_canceled e id)) = started (life e)) as Hm.
    { intros e id. unfold mark_canceled, release_inflight. by case_match. }
    destruct op; cbn [owner_step]; unfold start, finish_start, adopt; rewrite ?Hs; try done; cbn.
    + case_match; [done|]. cbn. destruct (Hr (executor (system m))) as [-> ->]. done.
    + destruct (Hsub (executor (system m)) command) as [-> ->]. done.
    + destruct (Hr (executor (system m))) as [-> ->]. done.
    + unfold submit_probe. match goal with |- context [submit ?e ?c] => destruct (Hsub e c) as [-> ->] end. by cbn; split_and!.
    + unfold cancel_probe. match goal with |- context [submit ?e ?c] => destruct (Hsub e c) as [-> ->] end. by cbn; split_and!.
    + destruct (Hm (executor (system m)) id) as [-> ->]. done.
    + destruct (Hm (executor (system m)) id) as [-> ->]. done.
  - by rewrite Hp.
Qed.

Lemma stranded_step {real} `{Strtod real} (x : Externals real) p l : no_drain l → stranded p →
  stranded (pool_step x p l).
Proof.
  intros Hl Hp. pose proof Hp as [Hs Hsl Hpu [He Hd] Ht Hm]. destruct l; cbn [pool_step]; try done.
  - unfold recycle_worker. rewrite bool_decide_true by done. cbn [negb].
    assert (∀ i, find_ready target i (slots (fleet p)) = None) as ->; [|done].
    clear -Hsl. induction Hsl as [|s ss Hr _ IH]; intros i; cbn; [done|].
    by rewrite Hr, andb_false_r.
  - unfold pump_step. rewrite Hpu. unfold pump_sleep. destruct (notified _); [|done].
    assert (wake_predicate p None = false) as ->; [|by split].
    unfold wake_predicate, drain_complete. by rewrite He, Hd, Hs.
  - unfold thread_step. destruct (threads (running p) !! k) as [[index pc]|] eqn:Hk; [|done].
    pose proof (Forall_lookup_1 _ _ _ _ Ht Hk) as Hpc. cbn in Hpc. by subst pc.
  - split; cbn; auto. apply Forall_alter; [done|]. intros m _. apply settled_step.
  - unfold deliver. destruct (_ <=? _) eqn:Hn; [done|]. bools. exfalso. revert Hn. unfold member.
    destruct (members (running p) !! e) as [m|] eqn:Hme; cbn; [|lia].
    destruct (Forall_lookup_1 _ _ _ _ Hm Hme) as (_ & _ & ?). lia.
Qed.

Lemma stranded_run {real} `{Strtod real} (x : Externals real) labels p : Forall no_drain labels →
  stranded p → state (control (pool_run x labels p)) = Pool_kActive
    ∧ ready_workers (pool_run x labels p) = 0 ∧ ∀ loader, pick_worker (pool_run x labels p) loader = None.
Proof.
  intros Hl Hp. assert (stranded (pool_run x labels p)) as [Hs Hr _ _ _ _].
  { clear -Hl Hp. induction labels as [|l labels IH] using rev_ind; [done|].
    apply Forall_app in Hl as [Hl Hl'%Forall_inv]. rewrite pool_run_snoc. apply stranded_step; auto. }
  split; [done|]. split.
  - unfold ready_workers. induction Hr as [|s ss Hs' _ IH]; [done|]. cbn. by rewrite Hs'.
  - intros loader. unfold pick_worker. rewrite bool_decide_true by done. cbn [negb].
    assert (∀ b, fold_left (pick_step (pool_run x labels p) loader) (slots (fleet (pool_run x labels p))) b = b) as ->;
      [|done].
    intros b. destruct (pick_fold (pool_run x labels p) loader (slots (fleet (pool_run x labels p))) b)
      as [(l1 & s & l2 & Heq & Hc & _)|[_ ->]]; [|done].
    rewrite Heq in Hr. apply Forall_app in Hr as [_ Hr%Forall_inv]. unfold candidate in Hc. by rewrite Hr in Hc.
Qed.
(** ** Properties *)

Section properties.
Context {real : Type} `{Strtod real} (x : Externals real).


(** C29. The pump loses no wake-up: while the pool is referenced and the pump
    sleeps in its condition wait with the awaited condition true, a
    notification of the condition variable is pending, or an executor's
    notifier has been called or is about to be and has yet to reach the pool,
    and every delivery of one signals the condition variable. *)
Theorem pump_wakeup_kept o now p0 labels p deadline : 0 <= workers o → created o now p0 →
  Forall (λ m, reachable x (system m)) (members (running p0)) → Forall (sound_input x) labels →
  p = pool_run x labels p0 → few_threads p → unreferenced (running p) = false →
  pump (running p) = Pump_sleep deadline → wake_predicate p deadline = true →
  (notified (running p) = true ∨ pending_notice p)
  ∧ ∀ e, delivered (member p e) < notifications (executor_of p e) →
      notified (running (deliver p e)) = true ∧ events_pending (control (deliver p e)) = true.
Proof.
  intros Hw Hc Hr Hl -> Hfew Hu Hs Hp.
  pose proof (pool_inv_run x labels p0 (created_pool_inv x o now p0 Hw Hc Hr) Hl Hfew) as [_ _ Hi].
  split; [by eapply (wi_sleep x)|]. intros e He. unfold deliver, executor_of in *.
  rewrite (proj2 (Z.leb_gt _ _)) by lia. cbn. by rewrite Hu.
Qed.

(** The scheduler: an active pool hands out the first slot of least load
    among the READY ones whose executor is available, and none exactly when
    there is no such slot with a load below 2^64 - 1. *)
Theorem pick_worker_least_loaded p loader :
  match pick_worker p loader with
  | Some e => state (control p) = Pool_kActive ∧ ∃ l1 s l2, slots (fleet p) = l1 ++ s :: l2
      ∧ e = slot_executor s ∧ candidate p s = true
      ∧ (∀ t, t ∈ l1 → candidate p t = true → slot_load p loader s < slot_load p loader t)
      ∧ (∀ t, t ∈ l2 → candidate p t = true → slot_load p loader s <= slot_load p loader t)
  | None => state (control p) = Pool_kActive →
      ∀ t, t ∈ slots (fleet p) → candidate p t = true → u64_max <= slot_load p loader t
  end.
Proof.
  unfold pick_worker. destruct (bool_decide _) eqn:Ha; bools; cbn [negb]; [|done].
  destruct (pick_fold p loader (slots (fleet p)) (None, u64_max))
    as [(l1 & s & l2 & Heq & Hc & Hb & H1 & H2 & ->)|[Hf ->]]; cbn.
  - split; [done|]. exists l1, s, l2. rewrite !Forall_forall in *. by split_and!.
  - intros _. by rewrite Forall_forall in Hf.
Qed.
End properties.

(** ** Sample runs *)

Definition sample_options (max_events : Z) (permits : bool) : GenerationPoolOptions :=
  mkPoolOptions (bs "shop") (bs "v1") sample_generation 1 true
    (mkPolicy max_events 60000 100 5000 1000 30000 1) permits.

(** A one-worker pool that adopted a warmed worker, its pump asleep. *)
Definition sample_pool (max_events : Z) (permits : bool) : GenerationPool :=
  (create_adopted (sample_options max_events permits) [true] 1000).2.

Definition warm_system : System := (adopt new_System true).2.

Definition crash_env : Env :=
  mkEnv 0 (λ _, CAPSID_OK) (CAPSID_SYSTEM_ERROR, sample_event CAPSID_EVENT_NONE 0) false false.

(** Executor [e] runs its loop until its Worker dies and is reaped. *)
Definition crash (e : nat) : list PoolLabel :=
  replicate 12 (Pool_executor e (Worker crash_env)) ++ [Pool_deliver e; Pool_deliver e].

(** [n] steps of the pump at [ms] milliseconds. *)
Definition pumps (n : nat) (ms : Z) : list PoolLabel := replicate n (Pool_pump (ms * 1000000)).

Abbreviation sample_pool_run labels p := (pool_run (H := text_strtod) sample_externals labels p).

(** The replacement thread [k] runs [n] steps. *)
Definition thread_runs (n k : nat) (i : ThreadInput) : list PoolLabel := replicate n (Pool_thread k i).
Definition starts : ThreadInput := mkThreadInput true (Some warm_system) 2600.
Definition fails : ThreadInput := mkThreadInput true None 2600.
Definition refused : ThreadInput := mkThreadInput false None 2600.

Definition recycled : list PoolLabel :=
  [Pool_recycle 0 2000] ++ crash 0 ++ pumps 14 2500 ++ thread_runs 3 0 starts.

(** A crash at 2 s, and the pump until the replacement thread is launched. *)
Definition crashed : list PoolLabel := crash 0 ++ pumps 14 2000 ++ pumps 14 2500.

(** Two ways an active pool loses a worker for good. A recycled slot keeps
    its shutdown mark when the replacement is installed, so the replacement's
    own crash counts as asked for and is not replaced. And a replacement that
    is refused its startup permit releases the slot without a new due time,
    although its worker's exit has been handled already. In both cases a
    one-worker pool stays active without a worker in every continuation that
    does not drain it. *)
Theorem unreplaced_worker labels : Forall no_drain labels →
  let after pre p := sample_pool_run (pre ++ labels) p in
  let recycled := after (recycled ++ pumps 20 2700 ++ crash 1 ++ pumps 20 3000) (sample_pool 3 false) in
  let refused := after (crashed ++ thread_runs 2 0 refused ++ pumps 20 2700) (sample_pool 3 true) in
  (state (control recycled) = Pool_kActive ∧ ready_workers recycled = 0)
  ∧ state (control refused) = Pool_kActive ∧ ready_workers refused = 0.
Proof.
  intros Hl. cbv beta zeta.
  assert (∀ pre p, sample_pool_run (pre ++ labels) p = sample_pool_run labels (sample_pool_run pre p)) as Happ
    by (intros; apply fold_left_app). rewrite !Happ.
  match goal with |- (_ ∧ ready_workers (pool_run _ _ ?a) = _) ∧ _ ∧ ready_workers (pool_run _ _ ?b) = _ =>
    set (p1 := a); set (p2 := b) end.
  assert (stranded p1) as H1 by (vm_compute; split; repeat constructor; done).
  assert (stranded p2) as H2 by (vm_compute; split; repeat constructor; done).
  destruct (stranded_run (H := text_strtod) sample_externals labels p1 Hl H1) as (? & ? & _).
  by destruct (stranded_run (H := text_strtod) sample_externals labels p2 Hl H2) as (? & ? & _).
Qed.

Lemma unreplaced_worker_witness : Forall no_drain (pumps 3 4000)
  ∧ ready_workers (sample_pool_run ((crashed ++ thread_runs 2 0 refused ++ pumps 20 2700) ++ pumps 3 4000)
      (sample_pool 3 true)) = 0.
Proof.
  assert (Forall no_drain (pumps 3 4000)) as Hl by (repeat constructor).
  split; [exact Hl|]. exact (proj2 (proj2 (unreplaced_worker (pumps 3 4000) Hl))).
Defined.

(** A replacement that fails to start releases its bookkeeping and records the
    failure in two critical sections. Between them the drain can finish: the
    dead pool then begins a quarantine after its drain callback, or indexes the
    slots it has cleared. *)
Lemma late_failure :
  let run n := sample_pool_run (crashed ++ thread_runs 3 0 fails ++ [Pool_drain] ++ pumps 20 2700
                                ++ thread_runs 1 0 fails) (sample_pool n false) in
  observed (trace (run 1)) = [Observed_started 0; Observed_exited 0; Observed_drain_complete; Observed_quarantine]
  ∧ state (control (run 3)) = Pool_kDead ∧ stray_access (trace (run 3)) = true.
Proof. cbn zeta. split_and!; vm_compute; reflexivity. Qed.

(** A replacement's notifier has no fallback for an unreferenced pool: the
    destructor, which joins the pump, waits for a pump nobody will wake. *)
Lemma unreferenced_pool_sleeps :
  let p := sample_pool_run (crashed ++ thread_runs 3 0 starts ++ pumps 20 2700 ++ [Pool_unreference]
                            ++ pumps 20 2800 ++ crash 1) (sample_pool 3 false) in
  pump (running p) = Pump_sleep None ∧ wake_predicate p None = true ∧ notified (running p) = false
  ∧ map (λ m, (pc (system m), delivered m - notifications (executor (system m)))) (members (running p))
    = [(Pc_done, 0); (Pc_done, 0)].
Proof. cbn zeta. split_and!; vm_compute; reflexivity. Qed.

Lemma sample_created : created (sample_options 3 false) 1000 (sample_pool 3 false).
Proof. apply by_adoption with [true] []. vm_compute. reflexivity. Qed.

Lemma sample_reachable : Forall (λ m, reachable (H := text_strtod) sample_externals (system m))
  (members (running (sample_pool 3 false))).
Proof. constructor; [by exists [Owner (Op_adopt true)]|constructor]. Qed.

(** A drain, up to the last step of the pump. *)
Definition drained_run : list PoolLabel :=
  pumps 5 1500 ++ [Pool_drain] ++ crash 0 ++ pumps 5 2000.


(** The drain's last exit, before its notifier has reached the sleeping pump. *)
Definition unnoticed_exit : list PoolLabel :=
  pumps 5 1500 ++ [Pool_drain] ++ pumps 8 1600 ++ replicate 10 (Pool_executor 0 (Worker crash_env)).

Lemma pump_wakeup_kept_witness :
  let p := sample_pool_run unnoticed_exit (sample_pool 3 false) in
  pump (running p) = Pump_sleep None ∧ wake_predicate p None = true
  ∧ (notified (running p) = true ∨ pending_notice p).
Proof.
  intros p. assert (few_threads p) as Hf by (vm_compute; reflexivity).
  assert (unreferenced (running p) = false) as Hu by (vm_compute; reflexivity).
  assert (pump (running p) = Pump_sleep None) as Hs by (vm_compute; reflexivity).
  assert (wake_predicate p None = true) as Hw by (vm_compute; reflexivity).
  assert (Forall (sound_input (H := text_strtod) sample_externals) unnoticed_exit) as Hl by (repeat constructor).
  split; [exact Hs|]. split; [exact Hw|].
  exact (proj1 (pump_wakeup_kept (H := text_strtod) sample_externals (sample_options 3 false) 1000
    (sample_pool 3 false) unnoticed_exit p None ltac:(cbn; lia) sample_created
    sample_reachable Hl eq_refl Hf Hu Hs Hw)).
Defined.

(** Between the same two critical sections another slot's installation can give
    the slot a new worker. The record then schedules a second replacement, which
    evicts the READY worker: it is retired alive and never asked to shut down. *)
Definition two_workers : GenerationPool :=
  (create_adopted (mkPoolOptions (bs "shop") (bs "v1") sample_generation 2 true
     (mkPolicy 9 60000 100 5000 1000 30000 2) false) [true; true] 1000).2.

Definition evicting : list PoolLabel :=
  crash 0 ++ crash 1 ++ pumps 20 2000 ++ pumps 14 2500
  ++ thread_runs 3 0 fails ++ thread_runs 3 1 starts
  ++ pumps 20 2600 ++ thread_runs 3 2 starts ++ crash 2 ++ pumps 20 2600
  ++ thread_runs 1 0 fails ++ pumps 20 9000 ++ thread_runs 3 3 starts ++ thread_runs 3 4 starts.

Lemma ready_worker_evicted : let p := sample_pool_run evicting two_workers in
  retired (fleet p) = [1; 0; 3; 2]%nat ∧ available (executor_of p 3) = true
  ∧ shutdown_requested (life (executor_of p 3)) = false.
Proof. cbn zeta. split_and!; vm_compute; reflexivity. Qed.
