(* ===== verification/EgressPolicy.v ===== *)
(** * EgressPolicy: which hosts and addresses a worker may reach (src/egress_policy.cc)

    Rule compilation, host-name normalization, CIDR matching and the decisions
    for host names, numeric hosts and resolved addresses. [inet_pton] is the
    class [InetPton]; [strtoul] is written out. Sizes of the public structures
    are those of an LP64 target, and a [const char *] is the text up to its
    NUL. An address is its bytes in network order. *)
From Stdlib Require Import ZArith Lia.
From S2P Require Import Prelude Wire Jansson.
Local Open Scope Z_scope.

(** ** Data *)

Inductive capsid_egress_action := CAPSID_EGRESS_DENY | CAPSID_EGRESS_ALLOW.

#[export] Instance egress_action_eq_dec : EqDecision capsid_egress_action.
Proof. solve_decision. Defined.

(** The public descriptors; an action is any 32-bit value there. *)
Record capsid_egress_rule := mkEgressRule {
  rule_struct_size : Z;
  rule_action_value : Z;
  target : option bytes;
  source_port_start : Z;                  (* uint16_t *)
  source_port_end : Z;                    (* uint16_t *)
  source_rule_id : Z;                     (* uint32_t *)
  rule_reserved : Z
}.

Record capsid_egress_policy := mkEgressDescriptor {
  policy_struct_size : Z;
  default_action_value : Z;
  policy_rules : option (list capsid_egress_rule);
  rule_count : Z;                         (* uint32_t *)
  policy_reserved : Z
}.

Definition sizeof_egress_rule : Z := 32.
Definition sizeof_egress_policy : Z := 24.

Definition capsid_egress_rule_init : capsid_egress_rule :=
  mkEgressRule sizeof_egress_rule 0 None 0 0 0 0.
Definition capsid_egress_policy_init : capsid_egress_policy :=
  mkEgressDescriptor sizeof_egress_policy 0 None 0 0.

Inductive Family := AF_UNSPEC | AF_INET | AF_INET6.

#[export] Instance Family_eq_dec : EqDecision Family.
Proof. solve_decision. Defined.

Inductive EgressDenyReason := Deny_kNone | Deny_kNoMatch | Deny_kExplicitDeny | Deny_kProtected.

Record EgressDecision := mkDecision {
  allowed : bool;
  decided_rule : Z;
  deny_reason : EgressDenyReason
}.

(** [EgressDecision()]. *)
Definition no_decision : EgressDecision := mkDecision false 0 Deny_kNone.

Record Rule := mkRule {
  action : capsid_egress_action;
  address : bool;
  wildcard : bool;
  family : Family;
  network : bytes;                        (* 16 bytes *)
  prefix : Z;                             (* uint8_t *)
  port_start : Z;
  port_end : Z;
  rule_id : Z;
  host : bytes
}.

Record EgressPolicy := mkEgressPolicy {
  default_action : capsid_egress_action;
  rules : list Rule
}.

Definition new_EgressPolicy : EgressPolicy := mkEgressPolicy CAPSID_EGRESS_DENY [].

(** [inet_pton] for the two families: the address of a text, if it is one. *)
Class InetPton := {
  pton4 : bytes → option bytes;
  pton6 : bytes → option bytes
}.

Class InetPtonLaws (P : InetPton) : Prop := {
  pton4_length s b : pton4 s = Some b → length b = 4%nat;
  pton6_length s b : pton6 s = Some b → length b = 16%nat
}.

(** ** Text helpers *)

(** [std::string(s.c_str())]. *)
Fixpoint cut_nul (s : bytes) : bytes :=
  match s with
  | [] => []
  | c :: s => if bool_decide (c = Byte.x00) then [] else c :: cut_nul s
  end.

Definition starts_with (s p : bytes) : bool := bool_decide (take (length p) s = p).

Definition last_is (s : bytes) (c : byte) : bool := bool_decide (last s = Some c).

(** [s.find(c)] as the text before and after the first [c]. *)
Fixpoint split_at (c : byte) (s : bytes) : option (bytes * bytes) :=
  match s with
  | [] => None
  | d :: s =>
      if bool_decide (d = c) then Some ([], s)
      else match split_at c s with Some (a, b) => Some (d :: a, b) | None => None end
  end.

(** The pieces between the separators. *)
Fixpoint split_on (c : byte) (s acc : bytes) : list bytes :=
  match s with
  | [] => [acc]
  | d :: s => if bool_decide (d = c) then acc :: split_on c s [] else split_on c s (acc ++ [d])
  end.

Definition is_space (c : byte) : bool := (u8 c =? 32) || in_range 9 13 c.

Fixpoint skip_spaces (s : bytes) : bytes :=
  match s with
  | c :: rest => if is_space c then skip_spaces rest else s
  | [] => []
  end.

(** Value of the leading decimal digits, and the rest. *)
Fixpoint digits (acc : Z) (s : bytes) : Z * bytes :=
  match s with
  | c :: rest => if l_isdigit c then digits (acc * 10 + (u8 c - 48)) rest else (acc, s)
  | [] => (acc, s)
  end.

(** [strtoul(s, &end, 10)]: the value, what is left at [end], and whether
    [errno] is [ERANGE]. *)
Definition strtoul (s : bytes) : Z * bytes * bool :=
  let t := skip_spaces s in
  let '(negative, t) :=
    match t with
    | c :: rest =>
        if bool_decide (c = Byte.x2d) then (true, rest)
        else if bool_decide (c = Byte.x2b) then (false, rest) else (false, t)
    | [] => (false, t)
    end in
  match t with
  | c :: _ =>
      if l_isdigit c then
        let '(value, rest) := digits 0 t in
        if u64_max <? value then (u64_max, rest, true)
        else (if negative then u64 (- value) else value, rest, false)
      else (0, s, false)
  | [] => (0, s, false)
  end.

(** ** Pure checks *)

Definition valid_port_range (first last : Z) : bool :=
  ((first =? 0) && (last =? 0)) || (negb (first =? 0) && (first <=? last)).

Definition port_matches (first last port : Z) : bool :=
  (first =? 0) || ((first <=? port) && (port <=? last)).

Definition host_char (c : byte) : bool := l_islower c || l_isdigit c || (u8 c =? 45).

Definition bad_label (label : bytes) : bool :=
  (zlen label =? 0) || (63 <? zlen label) || starts_with label [Byte.x2d] || last_is label Byte.x2d.

(** The loop over the characters; [label] is the current label so far. *)
Fixpoint host_loop (rest label : bytes) : option bytes :=
  match rest with
  | [] => if bad_label label then None else Some []
  | c :: rest =>
      if bool_decide (c = Byte.x2e) then
        if bad_label label then None else cons c <$> host_loop rest []
      else if l_isupper c then
        let c := to_u8 (u8 c - 65 + 97) in cons c <$> host_loop rest (label ++ [c])
      else if host_char c then cons c <$> host_loop rest (label ++ [c])
      else None
  end.

Definition drop_final_dot (s : bytes) : bytes :=
  if (1 <? zlen s) && last_is s Byte.x2e then ztake (zlen s - 1) s else s.

Definition normalize_hostname (input : bytes) (allow_wildcard : bool) : option (bytes * bool) :=
  if bool_decide (input = []) then None
  else
    let value := drop_final_dot input in
    let is_wildcard := starts_with value (bs "*.") in
    if is_wildcard && negb allow_wildcard then None
    else
      let value := if is_wildcard then zdrop 2 value else value in
      if bool_decide (value = []) || (253 <? zlen value) || bool_decide (Byte.x2a ∈ value) then None
      else match host_loop value [] with
      | Some host => Some (host, is_wildcard)
      | None => None
      end.

Definition prefix_matches (addr net : bytes) (len : Z) : bool :=
  let whole := len / 8 in
  let remaining := len mod 8 in
  if negb (whole =? 0) && negb (bool_decide (ztake whole addr = ztake whole net)) then false
  else if remaining =? 0 then true
  else
    let mask := Z.land (Z.shiftl 255 (8 - remaining)) 255 in
    Z.land (byte_at addr whole) mask =? Z.land (byte_at net whole) mask.

Definition network_is_canonical (addr : bytes) (size len : Z) : bool :=
  let whole := len / 8 in
  let remaining := len mod 8 in
  let host_mask := Z.shiftl 1 (8 - remaining) - 1 in
  if negb (remaining =? 0) && negb (Z.land (byte_at addr whole) host_mask =? 0) then false
  else
    let tail := whole + (if remaining =? 0 then 0 else 1) in
    forallb (λ b, u8 b =? 0) (zdrop tail (ztake size addr)).

Definition mapped_prefix : bytes := replicate 10 Byte.x00 ++ [Byte.xff; Byte.xff].

Definition is_ipv4_mapped (addr : bytes) : bool := bool_decide (ztake 12 addr = mapped_prefix).

Definition be32 (b : bytes) : Z :=
  Z.lor (Z.lor (Z.shiftl (byte_at b 0) 24) (Z.shiftl (byte_at b 1) 16))
    (Z.lor (Z.shiftl (byte_at b 2) 8) (byte_at b 3)).

(** The tests, in order: mask and value. *)
Definition protected_ipv4_tests : list (Z * Z) :=
  [(0xff000000, 0x00000000); (0xff000000, 0x0a000000); (0xffc00000, 0x64400000);
   (0xff000000, 0x7f000000); (0xffff0000, 0xa9fe0000); (0xfff00000, 0xac100000);
   (0xffffff00, 0xc0000000); (0xffffff00, 0xc0000200); (0xffff0000, 0xc0a80000);
   (0xfffe0000, 0xc6120000); (0xffffff00, 0xc6336400); (0xffffff00, 0xcb007100);
   (0xf0000000, 0xe0000000); (0xf0000000, 0xf0000000)].

Definition is_protected_ipv4 (addr : bytes) : bool :=
  existsb (λ t, Z.land (be32 addr) t.1 =? t.2) protected_ipv4_tests.

Definition is_protected_ipv6 (addr : bytes) : bool :=
  if is_ipv4_mapped addr then is_protected_ipv4 (zdrop 12 addr)
  else if bool_decide (ztake 12 addr = replicate 12 Byte.x00) then true
  else if (Z.land (byte_at addr 0) 0xfe =? 0xfc)
          || ((byte_at addr 0 =? 0xfe) && (Z.land (byte_at addr 1) 0xc0 =? 0x80))
          || (byte_at addr 0 =? 0xff) then true
  else if bool_decide (ztake 8 addr = Byte.x01 :: replicate 7 Byte.x00) then true
  else bool_decide (ztake 4 addr = [Byte.x20; Byte.x01; Byte.x0d; Byte.xb8]).

Definition host_rule_matches (name rule : bytes) (is_wildcard : bool) : bool :=
  if negb is_wildcard then bool_decide (name = rule)
  else (zlen rule + 1 <? zlen name) && (byte_at name (zlen name - zlen rule - 1) =? 46)
       && bool_decide (zdrop (zlen name - zlen rule) name = rule).

(** ** The policy *)

Section policy.
Context `{InetPton}.

Definition parse_numeric (input : bytes) : option (Family * bytes) :=
  let value :=
    if (2 <=? zlen input) && starts_with input [Byte.x5b] && last_is input Byte.x5d
    then ztake (zlen input - 2) (zdrop 1 input) else input in
  match pton4 (cut_nul value) with
  | Some b => Some (AF_INET, b)
  | None => match pton6 (cut_nul value) with Some b => Some (AF_INET6, b) | None => None end
  end.

Definition family_size (f : Family) : Z := if bool_decide (f = AF_INET) then 4 else 16.

(** [memcpy] of an address into the zeroed [network]. *)
Definition to_network (b : bytes) : bytes := b ++ replicate (16 - length b) Byte.x00.

Definition action_of (value : Z) : capsid_egress_action :=
  if value =? 1 then CAPSID_EGRESS_ALLOW else CAPSID_EGRESS_DENY.

Definition compile_cidr (base : Rule) (before after : bytes) : string + Rule :=
  if bool_decide (Byte.x2f ∈ after) || bool_decide (before = []) || bool_decide (after = []) then
    inl "invalid egress CIDR"%string
  else
    let bad := "invalid or non-canonical egress CIDR"%string in
    let '(value, rest, range_error) := strtoul (cut_nul after) in
    if range_error || negb (bool_decide (rest = [])) then inl bad
    else match parse_numeric before with
    | None => inl bad
    | Some (fam, b) =>
        if (bool_decide (fam = AF_INET) && (32 <? value))
           || (bool_decide (fam = AF_INET6) && (128 <? value))
           || (bool_decide (fam = AF_INET6) && is_ipv4_mapped b)
           || negb (network_is_canonical b (family_size fam) (value mod 256)) then inl bad
        else inr (mkRule (action base) true (wildcard base) fam (to_network b) (value mod 256)
                    (port_start base) (port_end base) (rule_id base) (host base))
    end.

Definition compile_target (base : Rule) (text : bytes) : string + Rule :=
  match split_at Byte.x2f text with
  | Some (before, after) => compile_cidr base before after
  | None =>
      match parse_numeric text with
      | Some (fam, b) =>
          let '(fam, b) :=
            if bool_decide (fam = AF_INET6) && is_ipv4_mapped b then (AF_INET, zdrop 12 b) else (fam, b) in
          inr (mkRule (action base) true (wildcard base) fam (to_network b)
                 (if bool_decide (fam = AF_INET) then 32 else 128)
                 (port_start base) (port_end base) (rule_id base) (host base))
      | None =>
          match normalize_hostname text true with
          | None => inl "invalid egress hostname pattern"%string
          | Some (name, is_wildcard) =>
              inr (mkRule (action base) (address base) is_wildcard (family base) (network base)
                     (prefix base) (port_start base) (port_end base) (rule_id base) name)
          end
      end
  end.

(** One round of the loop; [ids] are the explicit rule ids seen so far. *)
Definition compile_rule (index : Z) (ids : gset Z) (source : capsid_egress_rule)
    : string + gset Z * Rule :=
  match target source with
  | Some text =>
      if negb (rule_struct_size source =? sizeof_egress_rule) || (1 <? rule_action_value source)
         || negb (rule_reserved source =? 0)
         || negb (valid_port_range (source_port_start source) (source_port_end source)) then
        inl "invalid egress rule descriptor"%string
      else
        let text := cut_nul text in
        if (zlen text =? 0) || (253 <? zlen text) then inl "invalid egress rule target length"%string
        else
          let id := source_rule_id source in
          if negb (id =? 0) && bool_decide (id ∈ ids) then inl "duplicate egress rule_id"%string
          else
            let ids := if id =? 0 then ids else ids ∪ {[ id ]} in
            let base :=
              mkRule (action_of (rule_action_value source)) false false AF_UNSPEC
                (replicate 16 Byte.x00) 0 (source_port_start source) (source_port_end source)
                (if id =? 0 then u32 (index + 1) else id) [] in
            match compile_target base text with
            | inl error => inl error
            | inr rule => inr (ids, rule)
            end
  | None => inl "invalid egress rule descriptor"%string
  end.

Fixpoint compile_rules (index : Z) (ids : gset Z) (sources : list capsid_egress_rule)
    : string + list Rule :=
  match sources with
  | [] => inr []
  | source :: sources =>
      match compile_rule index ids source with
      | inl error => inl error
      | inr (ids, rule) =>
          match compile_rules (index + 1) ids sources with
          | inl error => inl error
          | inr compiled => inr (rule :: compiled)
          end
      end
  end.

(** [policy->rules] holds at least [rule_count] rules; the rest is not read.
    On an error the caller's policy is left as it is. *)
Definition configure (policy : option capsid_egress_policy) : string + EgressPolicy :=
  match policy with
  | None => inr new_EgressPolicy
  | Some d =>
      if negb (policy_struct_size d =? sizeof_egress_policy) then
        inl "invalid egress policy struct_size"%string
      else if (1 <? default_action_value d) || negb (policy_reserved d =? 0) || (256 <? rule_count d)
              || (negb (rule_count d =? 0) && bool_decide (policy_rules d = None)) then
        inl "invalid egress policy descriptor"%string
      else match compile_rules 0 ∅ (ztake (rule_count d) (default [] (policy_rules d))) with
      | inl error => inl error
      | inr compiled => inr (mkEgressPolicy (action_of (default_action_value d)) compiled)
      end
  end.

(** ** Decisions *)

(** The rule loop of both decisions: a matching deny ends it; otherwise whether
    an allow matched, and its id. *)
Fixpoint scan (matches : Rule → bool) (rs : list Rule) (found : bool) (allow_id : Z)
    : EgressDecision + bool * Z :=
  match rs with
  | [] => inr (found, allow_id)
  | r :: rs =>
      if negb (matches r) then scan matches rs found allow_id
      else if bool_decide (action r = CAPSID_EGRESS_DENY) then
        inl (mkDecision false (rule_id r) Deny_kExplicitDeny)
      else scan matches rs true (if allow_id =? 0 then rule_id r else allow_id)
  end.

Definition default_decision (p : EgressPolicy) : EgressDecision :=
  if bool_decide (default_action p = CAPSID_EGRESS_ALLOW)
  then mkDecision true 0 Deny_kNone else mkDecision false 0 Deny_kNoMatch.

Definition address_rule (addr : bytes) (fam : Family) (port : Z) (r : Rule) : bool :=
  address r && bool_decide (family r = fam) && port_matches (port_start r) (port_end r) port
  && prefix_matches addr (network r) (prefix r).

Definition decide_address (p : EgressPolicy) (addr : bytes) (fam : Family) (port : Z)
    (apply_default protect_unmatched : bool) : EgressDecision :=
  match scan (address_rule addr fam port) (rules p) false 0 with
  | inl decision => decision
  | inr (true, id) => mkDecision true id Deny_kNone
  | inr (false, _) =>
      if protect_unmatched
         && ((bool_decide (fam = AF_INET) && is_protected_ipv4 addr)
             || (bool_decide (fam = AF_INET6) && is_protected_ipv6 addr)) then
        mkDecision false 0 Deny_kProtected
      else
        let default_allows := bool_decide (default_action p = CAPSID_EGRESS_ALLOW) in
        mkDecision (if apply_default then default_allows else true) 0
          (if apply_default && negb default_allows then Deny_kNoMatch else Deny_kNone)
  end.

Definition host_rule (name : bytes) (port : Z) (r : Rule) : bool :=
  negb (address r) && port_matches (port_start r) (port_end r) port
  && host_rule_matches name (host r) (wildcard r).

Definition decide_host (p : EgressPolicy) (input : bytes) (port : Z) : EgressDecision :=
  if port =? 0 then no_decision
  else match parse_numeric input with
  | Some (fam, b) =>
      if bool_decide (fam = AF_INET6) && is_ipv4_mapped b
      then decide_address p (zdrop 12 b) AF_INET port true true
      else decide_address p b fam port true true
  | None =>
      match normalize_hostname input false with
      | None => no_decision
      | Some (name, _) =>
          match scan (host_rule name port) (rules p) false 0 with
          | inl decision => decision
          | inr (true, id) => mkDecision true id Deny_kNone
          | inr (false, _) => default_decision p
          end
      end
  end.

Definition decide_host_any_port (p : EgressPolicy) (input : bytes) : EgressDecision :=
  let decide (matches : Rule → bool) :=
    match List.find (λ r, bool_decide (action r = CAPSID_EGRESS_ALLOW) && matches r) (rules p) with
    | Some r => mkDecision true (rule_id r) Deny_kNone
    | None => default_decision p
    end in
  match parse_numeric input with
  | Some (fam, b) =>
      let '(fam, b) :=
        if bool_decide (fam = AF_INET6) && is_ipv4_mapped b then (AF_INET, zdrop 12 b) else (fam, b) in
      decide (λ r, address r && bool_decide (family r = fam) && prefix_matches b (network r) (prefix r))
  | None =>
      match normalize_hostname input false with
      | None => no_decision
      | Some (name, _) =>
          decide (λ r, negb (address r) && host_rule_matches name (host r) (wildcard r))
      end
  end.

(** A socket address: [sa_port] is the port after [ntohs], [sa_bytes] the
    [sin_addr] or [sin6_addr] field. *)
Record sockaddr := mkSockaddr {
  sa_family : Family;
  sa_port : Z;
  sa_bytes : bytes
}.

Definition sizeof_sockaddr_in : Z := 16.
Definition sizeof_sockaddr_in6 : Z := 28.

Definition decide_resolved_address_impl (p : EgressPolicy) (addr : option sockaddr)
    (address_size expected_port : Z) (protect_unmatched : bool) : EgressDecision :=
  match addr with
  | None => no_decision
  | Some a =>
      if expected_port =? 0 then no_decision
      else if bool_decide (sa_family a = AF_INET) && (sizeof_sockaddr_in <=? address_size) then
        if negb (sa_port a =? expected_port) then no_decision
        else decide_address p (sa_bytes a) AF_INET expected_port false protect_unmatched
      else if bool_decide (sa_family a = AF_INET6) && (sizeof_sockaddr_in6 <=? address_size) then
        if negb (sa_port a =? expected_port) then no_decision
        else if is_ipv4_mapped (sa_bytes a)
        then decide_address p (zdrop 12 (sa_bytes a)) AF_INET expected_port false protect_unmatched
        else decide_address p (sa_bytes a) AF_INET6 expected_port false protect_unmatched
      else no_decision
  end.

Definition decide_resolved_address (p : EgressPolicy) addr address_size expected_port : EgressDecision :=
  decide_resolved_address_impl p addr address_size expected_port true.

Definition decide_resolved_address_authoritative (p : EgressPolicy) addr address_size expected_port
    : EgressDecision :=
  decide_resolved_address_impl p addr address_size expected_port false.

Inductive capsid_permission_state := State_DENIED | State_GRANTED | State_PARTIAL | State_UNAVAILABLE.

Definition query_state (p : EgressPolicy) : capsid_permission_state :=
  let has a := bool_decide (default_action p = a) || existsb (λ r, bool_decide (action r = a)) (rules p) in
  if has CAPSID_EGRESS_ALLOW && has CAPSID_EGRESS_DENY then State_PARTIAL
  else if has CAPSID_EGRESS_ALLOW then State_GRANTED else State_DENIED.
End policy.

(** ** Splitting at a character *)

Lemma split_at_none c s : split_at c s = None ↔ c ∉ s.
Proof.
  induction s as [|d s IH]; cbn [split_at].
  { split; [intros _; apply not_elem_of_nil|done]. }
  rewrite not_elem_of_cons. destruct (decide (d = c)) as [->|H].
  - rewrite bool_decide_true by done. split; [done|]. by intros [? _].
  - rewrite bool_decide_false by done. destruct (split_at c s) as [[a b]|].
    + split; [done|]. intros [_ Hs]. by apply IH in Hs.
    + split; [|done]. intros _. split; [done|]. by apply IH.
Qed.

Lemma split_at_some c s a b : split_at c s = Some (a, b) → s = a ++ c :: b ∧ c ∉ a.
Proof.
  revert a. induction s as [|d s IH]; intros a; cbn [split_at]; [done|].
  destruct (decide (d = c)) as [->|H].
  - rewrite bool_decide_true by done. intros [= <- <-]. split; [done|apply not_elem_of_nil].
  - rewrite bool_decide_false by done. destruct (split_at c s) as [[a' b']|]; [|done].
    intros [= <- <-]. destruct (IH a' eq_refl) as [-> Hn]. split; [done|].
    apply not_elem_of_cons. done.
Qed.

Lemma split_at_app c a s : c ∉ a →
  split_at c (a ++ s) = match split_at c s with Some (x, y) => Some (a ++ x, y) | None => None end.
Proof.
  induction a as [|d a IH]; cbn [app split_at]; [by destruct (split_at c s) as [[]|]|].
  intros [Hd Ha]%not_elem_of_cons. rewrite bool_decide_false, IH by done.
  by destruct (split_at c s) as [[]|].
Qed.

(** ** Addresses as numbers *)

Fixpoint be (b : bytes) : Z :=
  match b with
  | [] => 0
  | c :: b => u8 c * 256 ^ zlen b + be b
  end.

Lemma be_range b : 0 <= be b < 256 ^ zlen b.
Proof.
  induction b as [|c b IH]; cbn [be]; [done|]. rewrite zlen_cons.
  pose proof (u8_range c). pose proof (zlen_nonneg b).
  rewrite Z.pow_add_r by lia. change (256 ^ 1) with 256. nia.
Qed.

Lemma be_app a b : be (a ++ b) = be a * 256 ^ zlen b + be b.
Proof.
  induction a as [|c a IH]; cbn [be app]; [lia|]. rewrite IH, zlen_app.
  rewrite Z.pow_add_r by apply zlen_nonneg. lia.
Qed.

Lemma be_inj a b : length a = length b → be a = be b → a = b.
Proof.
  revert b. induction a as [|x a IH]; intros [|y b] Hl He; cbn in Hl; try done.
  assert (zlen a = zlen b) as Hz by (unfold zlen; lia). cbn [be] in He. rewrite Hz in He.
  pose proof (be_range a) as Ha. pose proof (be_range b) as Hb. rewrite Hz in Ha.
  assert (u8 x = u8 y) as Hx.
  { rewrite (Z.div_unique (be (x :: a)) (256 ^ zlen b) (u8 x) (be a)), (Z.div_unique (be (y :: b)) (256 ^ zlen b) (u8 y) (be b)).
    - cbn [be]. by rewrite Hz, He.
    - by left.
    - cbn [be]. lia.
    - by left.
    - cbn [be]. rewrite Hz. lia. }
  apply u8_inj in Hx as ->. f_equal. apply IH; [lia|]. lia.
Qed.

(** The leading bits of a byte. *)
Lemma mask_byte_spec x r : 0 <= x < 256 → 0 < r < 8 →
  Z.land x (Z.land (Z.shiftl 255 (8 - r)) 255) = x / 2 ^ (8 - r) * 2 ^ (8 - r).
Proof.
  intros Hx Hr.
  assert (forallb (λ r, forallb (λ x,
    Z.land x (Z.land (Z.shiftl 255 (8 - r)) 255) =? x / 2 ^ (8 - r) * 2 ^ (8 - r))
    (map Z.of_nat (seq 0 256))) (map Z.of_nat (seq 1 7)) = true) as Hall by (vm_compute; reflexivity).
  rewrite forallb_forall in Hall. specialize (Hall r). rewrite forallb_forall in Hall.
  apply Z.eqb_eq, Hall; apply in_map_iff.
  - exists (Z.to_nat r). rewrite in_seq. lia.
  - exists (Z.to_nat x). rewrite in_seq. lia.
Qed.

Lemma host_mask_spec x r : 0 <= x < 256 → 0 < r < 8 →
  Z.land x (Z.shiftl 1 (8 - r) - 1) = x mod 2 ^ (8 - r).
Proof.
  intros Hx Hr.
  replace (Z.shiftl 1 (8 - r) - 1) with (Z.ones (8 - r)); [apply Z.land_ones; lia|].
  rewrite Z.ones_equiv, Z.shiftl_1_l. lia.
Qed.

(** The quotient by a power of two keeps the leading bytes, and the leading
    bits of the next one. *)
Lemma be_div_whole a w : 0 <= w <= zlen a → be a / 2 ^ (8 * (zlen a - w)) = be (ztake w a).
Proof.
  intros Hw. rewrite <- (ztake_zdrop w a) at 1. rewrite be_app, zlen_zdrop by lia.
  pose proof (be_range (zdrop w a)) as Hr. rewrite zlen_zdrop in Hr by lia.
  replace (2 ^ (8 * (zlen a - w))) with (256 ^ (zlen a - w)) by (rewrite Z.pow_mul_r by lia; done).
  symmetry. apply (Z.div_unique _ _ _ (be (zdrop w a))); lia.
Qed.

Lemma ztake_succ (a : bytes) w : 0 <= w < zlen a → be (ztake (w + 1) a) = be (ztake w a) * 256 + byte_at a w.
Proof.
  intros Hw. unfold ztake, byte_at. replace (Z.to_nat (w + 1)) with (S (Z.to_nat w)) by lia.
  unfold zlen in Hw. destruct (lookup_lt_is_Some_2 a (Z.to_nat w)) as [c Hc]; [lia|]. rewrite Hc.
  rewrite (take_S_r _ _ c) by done. rewrite be_app. cbn [be]. change (zlen [c]) with 1.
  change (zlen (@nil byte)) with 0. lia.
Qed.

Lemma be_div_bits a w r : 0 <= w < zlen a → 0 < r < 8 →
  be a / 2 ^ (8 * zlen a - (8 * w + r)) = be (ztake w a) * 2 ^ r + byte_at a w / 2 ^ (8 - r).
Proof.
  intros Hw Hr. replace (8 * zlen a - (8 * w + r)) with (8 * (zlen a - (w + 1)) + (8 - r)) by lia.
  rewrite Z.pow_add_r, <- Z.div_div by lia. rewrite be_div_whole, ztake_succ by lia.
  replace (be (ztake w a) * 256 + byte_at a w) with (byte_at a w + be (ztake w a) * 2 ^ r * 2 ^ (8 - r)).
  - rewrite Z.div_add by lia. lia.
  - rewrite <- Z.mul_assoc, <- Z.pow_add_r by lia. replace (r + (8 - r)) with 8 by lia. lia.
Qed.

Lemma byte_bits x r : 0 <= x < 256 → 0 < r < 8 → 0 <= x / 2 ^ (8 - r) < 2 ^ r.
Proof.
  intros Hx Hr. split; [apply Z.div_pos; lia|]. apply Z.div_lt_upper_bound; [lia|].
  rewrite <- Z.pow_add_r by lia. replace (8 - r + r) with 8 by lia. lia.
Qed.

Lemma be_ztake_inj (a n : bytes) w : length a = length n → 0 <= w <= zlen a →
  be (ztake w a) = be (ztake w n) ↔ ztake w a = ztake w n.
Proof.
  intros Hl Hw. split; [|congruence]. apply be_inj. unfold ztake, zlen in *. rewrite !length_take. lia.
Qed.

(** A prefix match is equality of the leading [len] bits. *)
Lemma prefix_matches_spec a n len : length a = length n → 0 <= len <= 8 * zlen a →
  prefix_matches a n len = true
  ↔ be a / 2 ^ (8 * zlen a - len) = be n / 2 ^ (8 * zlen a - len).
Proof.
  intros Hl Hlen. assert (zlen n = zlen a) as Hz by (unfold zlen; lia).
  pose proof (Z.div_mod len 8 ltac:(lia)) as Hdm. pose proof (Z.mod_pos_bound len 8 ltac:(lia)) as Hm.
  unfold prefix_matches. cbn zeta. set (w := len / 8) in *. set (r := len mod 8) in *.
  assert (0 <= w) as Hw by (apply Z.div_pos; lia).
  assert ((negb (w =? 0) && negb (bool_decide (ztake w a = ztake w n))) = false ↔ ztake w a = ztake w n) as Hhead.
  { destruct (w =? 0) eqn:E0; bools; [by rewrite E0|]. cbn [negb andb].
    rewrite negb_false_iff, bool_decide_eq_true. done. }
  destruct (r =? 0) eqn:Er; bools.
  - replace (8 * zlen a - len) with (8 * (zlen a - w)) by lia.
    rewrite be_div_whole, <- Hz, be_div_whole by lia. rewrite be_ztake_inj by lia.
    destruct (negb (w =? 0) && _) eqn:Eh; split; intros Hx; try done; [|by apply Hhead].
    by apply Hhead in Hx.
  - replace (8 * zlen a - len) with (8 * zlen a - (8 * w + r)) by lia.
    rewrite be_div_bits by lia. rewrite <- Hz. rewrite be_div_bits by lia.
    pose proof (byte_bits (byte_at a w) r (byte_at_range a w) ltac:(lia)) as Ba.
    pose proof (byte_bits (byte_at n w) r (byte_at_range n w) ltac:(lia)) as Bn.
    destruct (negb (w =? 0) && _) eqn:Eh.
    + split; [done|]. intros He. exfalso. assert (ztake w a = ztake w n) as Hx; [|by apply Hhead in Hx].
      apply be_ztake_inj; [done|lia|]. nia.
    + rewrite (proj1 Hhead eq_refl). rewrite !mask_byte_spec by (try apply byte_at_range; lia).
      rewrite Z.eqb_eq. split; intros He; [|lia].
      assert (0 < 2 ^ (8 - r)) by (apply Z.pow_pos_nonneg; lia). nia.
Qed.

(** Trailing zeros are a zero remainder. *)
Lemma be_zeros b : forallb (λ c, u8 c =? 0) b = true ↔ be b = 0.
Proof.
  induction b as [|c b IH]; [done|]. cbn [forallb be]. rewrite andb_true_iff, IH, Z.eqb_eq.
  pose proof (u8_range c). pose proof (be_range b) as Hb.
  assert (0 < 256 ^ zlen b) by (apply Z.pow_pos_nonneg; [lia|apply zlen_nonneg]).
  split; [intros [-> ->]; lia|]. intros He. nia.
Qed.

Lemma be_mod_whole a w : 0 <= w <= zlen a → be a mod 2 ^ (8 * (zlen a - w)) = be (zdrop w a).
Proof.
  intros Hw. rewrite <- (ztake_zdrop w a) at 1. rewrite be_app, zlen_zdrop by lia.
  pose proof (be_range (zdrop w a)) as Hr. rewrite zlen_zdrop in Hr by lia.
  replace (2 ^ (8 * (zlen a - w))) with (256 ^ (zlen a - w)) by (rewrite Z.pow_mul_r by lia; done).
  symmetry. apply (Z.mod_unique _ _ (be (ztake w a))); lia.
Qed.

Lemma zdrop_byte a w : 0 <= w < zlen a → be (zdrop w a) = byte_at a w * 2 ^ (8 * (zlen a - (w + 1))) + be (zdrop (w + 1) a).
Proof.
  intros Hw. unfold zdrop at 1. unfold byte_at. destruct (lookup_lt_is_Some_2 a (Z.to_nat w)) as [c Hc].
  { unfold zlen in Hw. lia. }
  rewrite Hc, (drop_S _ c) by done. cbn [be]. replace (S (Z.to_nat w)) with (Z.to_nat (w + 1)) by lia.
  change (drop (Z.to_nat (w + 1)) a) with (zdrop (w + 1) a). rewrite zlen_zdrop by lia.
  by rewrite Z.pow_mul_r by lia.
Qed.

(** A canonical network has no host bits. *)
Lemma canonical_spec a len : 0 <= len <= 8 * zlen a →
  network_is_canonical a (zlen a) len = true ↔ be a mod 2 ^ (8 * zlen a - len) = 0.
Proof.
  intros Hlen. unfold network_is_canonical. cbn zeta. rewrite ztake_all.
  pose proof (Z.div_mod len 8 ltac:(lia)) as Hdm. pose proof (Z.mod_pos_bound len 8 ltac:(lia)) as Hm.
  set (w := len / 8) in *. set (r := len mod 8) in *.
  assert (0 <= w) as Hw by (apply Z.div_pos; lia).
  destruct (r =? 0) eqn:Er; bools; cbn [negb andb].
  - replace (8 * zlen a - len) with (8 * (zlen a - w)) by lia. rewrite be_mod_whole by lia.
    rewrite be_zeros. by replace (w + 0) with w by lia.
  - rewrite host_mask_spec by (try apply byte_at_range; lia).
    set (k := 8 * (zlen a - (w + 1))). assert (0 <= k) by lia.
    replace (8 * zlen a - len) with (8 - r + k) by lia.
    assert (be a mod 2 ^ (8 - r + k) = byte_at a w mod 2 ^ (8 - r) * 2 ^ k + be (zdrop (w + 1) a)) as ->.
    { pose proof (be_range (zdrop (w + 1) a)) as Hr. rewrite zlen_zdrop in Hr by lia.
      replace (256 ^ (zlen a - (w + 1))) with (2 ^ k) in Hr by (unfold k; by rewrite Z.pow_mul_r by lia).
      assert (2 ^ (8 - r + k) = 2 ^ (8 - r) * 2 ^ k) as Hp by (apply Z.pow_add_r; lia).
      pose proof (Z.mod_pos_bound (byte_at a w) (2 ^ (8 - r)) ltac:(lia)) as Hb.
      pose proof (be_mod_whole a w ltac:(lia)) as Hwh. pose proof (zdrop_byte a w ltac:(lia)) as Hzb.
      fold k in Hzb.
      symmetry. apply (Z.mod_unique _ _ (be a / 2 ^ (8 * (zlen a - w)) * 2 ^ r + byte_at a w / 2 ^ (8 - r))).
      - left. rewrite Hp. nia.
      - pose proof (Z.div_mod (be a) (2 ^ (8 * (zlen a - w))) ltac:(apply Z.pow_nonzero; lia)) as Hd.
        rewrite Hwh, Hzb in Hd. set (q := be a / 2 ^ (8 * (zlen a - w))) in *. pose proof (Z.div_mod (byte_at a w) (2 ^ (8 - r)) ltac:(lia)) as Hd2.
        assert (2 ^ (8 * (zlen a - w)) = 2 ^ (8 - r + k) * 2 ^ r) as Hq.
        { rewrite <- Z.pow_add_r by lia. f_equal. lia. }
        rewrite Hq, Hp in Hd. rewrite Hp.
        assert (byte_at a w * 2 ^ k = 2 ^ (8 - r) * (byte_at a w / 2 ^ (8 - r)) * 2 ^ k
          + byte_at a w mod 2 ^ (8 - r) * 2 ^ k) as Hx by (rewrite Hd2 at 1; ring).
        rewrite Hd, Hx. ring. }
    pose proof (Z.mod_pos_bound (byte_at a w) (2 ^ (8 - r)) ltac:(lia)) as Hb.
    pose proof (be_range (zdrop (w + 1) a)) as Hr.
    assert (0 < 2 ^ k) by (apply Z.pow_pos_nonneg; lia).
    destruct (byte_at a w mod 2 ^ (8 - r) =? 0) eqn:E0; bools; cbn [negb].
    + rewrite E0, be_zeros. lia.
    + split; [done|]. intros He. nia.
Qed.

Lemma div_eq_range x y d : 0 < d → y mod d = 0 → x / d = y / d ↔ y <= x < y + d.
Proof.
  intros Hd Hy. pose proof (Z.div_mod x d ltac:(lia)) as Hx. pose proof (Z.mod_pos_bound x d Hd) as Hm.
  pose proof (Z.div_mod y d ltac:(lia)) as Hyd. rewrite Hy, Z.add_0_r in Hyd. split.
  - intros He. rewrite He in Hx. lia.
  - intros Hr. assert (d * (x / d) < d * (y / d + 1)) by lia. assert (d * (y / d) < d * (x / d + 1)) by lia.
    apply Z.mul_lt_mono_pos_l in H, H0; lia.
Qed.

Lemma prefix_matches_app a n z len : zlen a = zlen n → 0 <= len <= 8 * zlen n →
  prefix_matches a (n ++ z) len = prefix_matches a n len.
Proof.
  intros Hz Hlen. unfold prefix_matches. cbn zeta.
  pose proof (Z.div_mod len 8 ltac:(lia)) as Hdm. pose proof (Z.mod_pos_bound len 8 ltac:(lia)) as Hm.
  set (w := len / 8) in *. set (r := len mod 8) in *.
  assert (0 <= w) as Hw by (apply Z.div_pos; lia). rewrite ztake_app_l by lia.
  destruct (_ && _); [done|]. destruct (r =? 0) eqn:Er; [done|]. bools.
  by rewrite byte_at_app_l by lia.
Qed.

(** Membership of an address in a canonical block. *)
Definition in_block (a n : bytes) (len : Z) : Prop :=
  be n <= be a < be n + 2 ^ (8 * zlen a - len).

Lemma block_spec a n z len : length a = length n → 0 <= len <= 8 * zlen a →
  be n mod 2 ^ (8 * zlen a - len) = 0 → prefix_matches a (n ++ z) len = true ↔ in_block a n len.
Proof.
  intros Hl Hlen Hc. assert (zlen n = zlen a) as Hz by (unfold zlen; lia).
  rewrite prefix_matches_app, prefix_matches_spec by lia. apply div_eq_range; [|done].
  apply Z.pow_pos_nonneg; lia.
Qed.

(** ** The protected ranges *)

Definition block (text : list Z) (len : Z) : bytes * Z := (map to_u8 text, len).

Definition protected_blocks (fam : Family) : list (bytes * Z) :=
  match fam with
  | AF_INET =>
      [block [0; 0; 0; 0] 8; block [10; 0; 0; 0] 8; block [100; 64; 0; 0] 10; block [127; 0; 0; 0] 8;
       block [169; 254; 0; 0] 16; block [172; 16; 0; 0] 12; block [192; 0; 0; 0] 24;
       block [192; 0; 2; 0] 24; block [192; 168; 0; 0] 16; block [198; 18; 0; 0] 15;
       block [198; 51; 100; 0] 24; block [203; 0; 113; 0] 24; block [224; 0; 0; 0] 4;
       block [240; 0; 0; 0] 4]
  | AF_INET6 =>
      [block (repeat 0 16) 96; block (0xfc :: repeat 0 15) 7; block (0xfe :: 0x80 :: repeat 0 14) 10;
       block (0xff :: repeat 0 15) 8; block (0x01 :: repeat 0 15) 64;
       block (0x20 :: 0x01 :: 0x0d :: 0xb8 :: repeat 0 12) 32]
  | AF_UNSPEC => []
  end.

Definition protected (fam : Family) (a : bytes) : Prop :=
  Exists (λ b, in_block a b.1 b.2) (protected_blocks fam).

Lemma be32_be a : length a = 4%nat → be32 a = be a.
Proof.
  intros Hl. destruct a as [|a [|b [|c [|d [|]]]]]; try done. unfold be32.
  change (byte_at _ 0) with (u8 a). change (byte_at _ 1) with (u8 b). change (byte_at _ 2) with (u8 c).
  change (byte_at _ 3) with (u8 d).
  pose proof (u8_range a). pose proof (u8_range b). pose proof (u8_range c). pose proof (u8_range d).
  rewrite (Z.lor_comm (Z.shiftl (u8 a) 24)), (Z.lor_comm (Z.shiftl (u8 c) 8)).
  rewrite (lor_shift_add (u8 d)) by lia.
  rewrite (Z.shiftl_mul_pow2 (u8 b)) by lia.
  rewrite (lor_shift_add (u8 b * 2 ^ 16)) by lia.
  replace (u8 b * 2 ^ 16 + u8 a * 2 ^ 24) with (Z.shiftl (u8 b + u8 a * 2 ^ 8) 16)
    by (rewrite Z.shiftl_mul_pow2 by lia; lia).
  rewrite Z.lor_comm, lor_shift_add by lia. cbn [be].
  change (zlen [b; c; d]) with 3. change (zlen [c; d]) with 2. change (zlen [d]) with 1.
  change (zlen (@nil byte)) with 0. lia.
Qed.

Lemma land_high v k : 0 <= v < 2 ^ 32 → 0 <= k <= 32 → Z.land v (2 ^ 32 - 2 ^ k) = v / 2 ^ k * 2 ^ k.
Proof.
  intros Hv Hk. rewrite <- Z.shiftl_mul_pow2, <- Z.shiftr_div_pow2 by lia.
  replace (2 ^ 32 - 2 ^ k) with (Z.shiftl (Z.ones (32 - k)) k).
  2:{ rewrite Z.shiftl_mul_pow2, Z.ones_equiv by lia.
      replace (2 ^ 32) with (2 ^ (32 - k) * 2 ^ k) by (rewrite <- Z.pow_add_r by lia; f_equal; lia). lia. }
  apply Z.bits_inj'. intros i Hi. rewrite Z.land_spec, !Z.shiftl_spec by lia.
  destruct (Z_lt_le_dec i k) as [Hlt|Hge].
  - rewrite !(Z.testbit_neg_r _ (i - k)) by lia. apply andb_false_r.
  - rewrite Z.shiftr_spec by lia. replace (i - k + k) with i by lia.
    destruct (Z_lt_le_dec i 32) as [Hlt|Hge'].
    + rewrite Z.ones_spec_low by lia. apply andb_true_r.
    + rewrite Z.ones_spec_high by lia. rewrite andb_false_r. symmetry.
      destruct (decide (v = 0)) as [->|Hn]; [apply Z.bits_0|].
      apply Z.bits_above_log2; [lia|]. apply Z.log2_lt_pow2; [lia|].
      eapply Z.lt_le_trans; [apply Hv|]. apply Z.pow_le_mono_r; lia.
Qed.

Lemma mask_test v m n k : 0 <= v < 2 ^ 32 → 0 <= k <= 32 → m = 2 ^ 32 - 2 ^ k → n mod 2 ^ k = 0 →
  (Z.land v m =? n) = true ↔ n <= v < n + 2 ^ k.
Proof.
  intros Hv Hk -> Hn. rewrite Z.eqb_eq, land_high by done.
  rewrite <- div_eq_range; [|apply Z.pow_pos_nonneg; lia|done].
  assert (n = n / 2 ^ k * 2 ^ k) as Hd by (pose proof (Z.div_mod n (2 ^ k) ltac:(apply Z.pow_nonzero; lia)); lia).
  assert (0 < 2 ^ k) by (apply Z.pow_pos_nonneg; lia). split; intros He; [nia|congruence].
Qed.

Lemma protected_ipv4_spec a : length a = 4%nat → is_protected_ipv4 a = true ↔ protected AF_INET a.
Proof.
  intros Hl. unfold is_protected_ipv4, protected. rewrite existsb_exists, be32_be by done.
  pose proof (be_range a) as Hr. assert (zlen a = 4) as Hz by (unfold zlen; lia). rewrite Hz in Hr.
  rewrite Exists_exists.
  set (tests := zip protected_ipv4_tests (protected_blocks AF_INET)).
  assert (forallb (λ t, (be t.2.1 =? t.1.2) && (t.1.1 =? 2 ^ 32 - 2 ^ (32 - t.2.2)) && (0 <=? t.2.2)
    && (t.2.2 <=? 32) && (t.1.2 mod 2 ^ (32 - t.2.2) =? 0)) tests = true) as Ht by (vm_compute; reflexivity).
  assert (∀ t, t ∈ tests → ((Z.land (be a) t.1.1 =? t.1.2) = true ↔ in_block a t.2.1 t.2.2)) as Heq.
  { intros t Hin%list_elem_of_In. rewrite forallb_forall in Ht. apply Ht in Hin. bools.
    match goal with H1 : be _ = _ |- _ => rename H1 into Hbe end.
    rewrite (mask_test _ _ _ (32 - t.2.2)) by (try done; lia). unfold in_block. by rewrite Hz, Hbe. }
  clear Ht. split.
  - intros (t & Hin & Hm). apply list_elem_of_In, list_elem_of_lookup in Hin as [i Hi].
    assert (i < 14)%nat as Hlt by (apply lookup_lt_Some in Hi; done).
    destruct (lookup_lt_is_Some_2 (protected_blocks AF_INET) i) as [b Hb]; [done|].
    exists b. split; [by eapply list_elem_of_lookup_2|]. apply (Heq (t, b)); [|done].
    apply (list_elem_of_lookup_2 _ i). by apply lookup_zip_Some.
  - intros (b & Hin & Hm). apply list_elem_of_lookup in Hin as [i Hi].
    assert (i < 14)%nat as Hlt by (apply lookup_lt_Some in Hi; done).
    destruct (lookup_lt_is_Some_2 protected_ipv4_tests i) as [t Ht]; [done|].
    exists t. split; [apply list_elem_of_In; by eapply list_elem_of_lookup_2|]. apply (Heq (t, b)); [|done].
    apply (list_elem_of_lookup_2 _ i). by apply lookup_zip_Some.
Qed.

Lemma prefix_matches_eq a n w r : 0 <= w → 0 <= r < 8 → prefix_matches a n (8 * w + r)
  = bool_decide (ztake w a = ztake w n)
    && ((r =? 0) || (Z.land (byte_at a w) (Z.land (Z.shiftl 255 (8 - r)) 255)
                     =? Z.land (byte_at n w) (Z.land (Z.shiftl 255 (8 - r)) 255))).
Proof.
  intros Hw Hr. unfold prefix_matches.
  replace ((8 * w + r) / 8) with w by (apply (Z.div_unique _ _ _ r); lia).
  replace ((8 * w + r) mod 8) with r by (apply (Z.mod_unique _ _ w); lia).
  assert (w = 0 → bool_decide (ztake w a = ztake w n) = true) as H0 by (intros ->; done).
  destruct (w =? 0) eqn:E; bools; [rewrite (H0 E)|]; cbn [negb andb].
  - by destruct (r =? 0).
  - destruct (bool_decide _); cbn [negb andb]; [|done]. by destruct (r =? 0).
Qed.

Lemma ztake_1 a (c : byte) : length a = 16%nat → bool_decide (ztake 1 a = [c]) = (byte_at a 0 =? u8 c).
Proof.
  destruct a as [|a0 a]; [done|]. intros _. change (ztake 1 (a0 :: a)) with [a0].
  change (byte_at (a0 :: a) 0) with (u8 a0).
  apply eq_true_iff_eq. rewrite bool_decide_eq_true, Z.eqb_eq. split; [by intros [= ->]|].
  by intros ->%u8_inj.
Qed.

Lemma protected_ipv6_spec a : length a = 16%nat → is_ipv4_mapped a = false →
  is_protected_ipv6 a = true ↔ protected AF_INET6 a.
Proof.
  intros Hl Hm. unfold is_protected_ipv6. rewrite Hm.
  assert (zlen a = 16) as Hz by (unfold zlen; lia).
  assert (∀ n len, length n = 16%nat → 0 <= len <= 128 → (be n mod 2 ^ (128 - len) =? 0) = true →
    (in_block a n len ↔ prefix_matches a n len = true)) as Hb.
  { intros n len Hn Hlen Hc. bools. rewrite <- (app_nil_r n) at 2. symmetry.
    apply block_spec; [lia|lia|by rewrite Hz]. }
  unfold protected, protected_blocks. rewrite !Exists_cons, Exists_nil. cbn [fst snd block].
  rewrite !Hb by first [done|vm_compute; reflexivity|lia]. clear Hb.
  assert (∀ n w net, 0 <= w → ztake w net = n →
    prefix_matches a net (8 * w + 0) = bool_decide (ztake w a = n)) as Hwhole.
  { intros n w net Hw <-. rewrite prefix_matches_eq by lia. by rewrite andb_true_r. }
  rewrite (Hwhole (replicate 12 Byte.x00) 12), (Hwhole (Byte.x01 :: replicate 7 Byte.x00) 8),
    (Hwhole [Byte.x20; Byte.x01; Byte.x0d; Byte.xb8] 4), (Hwhole [Byte.xff] 1) by first [lia|vm_compute; reflexivity].
  rewrite (prefix_matches_eq a _ 0 7), (prefix_matches_eq a _ 1 2) by lia.
  change (ztake 1 (map to_u8 (0xfe :: 0x80 :: repeat 0 14))) with [Byte.xfe].
  rewrite !ztake_1, (bool_decide_eq_true_2 (ztake 0 a = _)) by done.
  change (Z.land (Z.shiftl 255 (8 - 7)) 255) with 0xfe. change (Z.land (Z.shiftl 255 (8 - 2)) 255) with 0xc0.
  match goal with |- context [Z.land (byte_at (map _ (252 :: _)) 0) 0xfe] =>
    change (Z.land (byte_at (map to_u8 (252 :: repeat 0 15)) 0) 0xfe) with 0xfc end.
  change (Z.land (byte_at (map to_u8 (254 :: 128 :: repeat 0 14)) 1) 0xc0) with 0x80.
  change (u8 Byte.xfe) with 254. change (u8 Byte.xff) with 255. cbn [Z.eqb orb andb].
  destruct (bool_decide (ztake 12 a = _)), (Z.land (byte_at a 0) 254 =? 252), (byte_at a 0 =? 254),
    (Z.land (byte_at a 1) 192 =? 128), (byte_at a 0 =? 255), (bool_decide (ztake 8 a = _)),
    (bool_decide (ztake 4 a = _)); cbn; tauto.
Qed.

(** ** Compiled rules *)

Definition width (fam : Family) : Z := 8 * family_size fam.

Definition block_of (r : Rule) : bytes := ztake (family_size (family r)) (network r).

Record rule_wf (r : Rule) : Prop := {
  wf_id : rule_id r ≠ 0;
  wf_family : address r = true → family r ≠ AF_UNSPEC;
  wf_length : address r = true → length (network r) = 16%nat;
  wf_prefix : address r = true → 0 <= prefix r <= width (family r);
  wf_canonical : address r = true → be (block_of r) mod 2 ^ (width (family r) - prefix r) = 0
}.

Lemma digits_nonneg acc s : 0 <= acc → 0 <= (digits acc s).1.
Proof.
  revert acc. induction s as [|c s IH]; intros acc Ha; cbn; [done|]. case_match; [|done].
  apply IH. unfold l_isdigit, in_range in *. bools. lia.
Qed.

Lemma strtoul_nonneg s : 0 <= (strtoul s).1.1.
Proof.
  unfold strtoul. destruct (match skip_spaces s with [] => _ | _ => _ end) as [neg t].
  destruct t as [|c t]; [done|]. case_match; [|done].
  pose proof (digits_nonneg 0 (c :: t) ltac:(lia)) as Hd. destruct (digits 0 (c :: t)) as [v rest]. cbn in Hd.
  case_match; [done|]. cbn. case_match; [apply u64_range|done].
Qed.

Section compiled.
Context `{P : InetPton} `{!InetPtonLaws P}.

Lemma parse_numeric_length input fam b : parse_numeric input = Some (fam, b) →
  zlen b = family_size fam ∧ fam ≠ AF_UNSPEC.
Proof.
  unfold parse_numeric, zlen. destruct (pton4 _) as [b4|] eqn:E4.
  - intros [= <- <-]. apply pton4_length in E4. rewrite E4. done.
  - destruct (pton6 _) as [b6|] eqn:E6; [|done]. intros [= <- <-]. apply pton6_length in E6. by rewrite E6.
Qed.

Lemma to_network_length b : (length b <= 16)%nat → length (to_network b) = 16%nat.
Proof. intros. unfold to_network. rewrite length_app, length_replicate. lia. Qed.

Lemma family_size_cases fam : fam ≠ AF_UNSPEC → (fam = AF_INET ∧ family_size fam = 4) ∨ (fam = AF_INET6 ∧ family_size fam = 16).
Proof. destruct fam; [done|by left|by right]. Qed.

(** An address rule built from a canonical block is well formed. *)
Lemma address_rule_wf a w fam b len ps pe id h : id ≠ 0 → fam ≠ AF_UNSPEC → zlen b = family_size fam →
  0 <= len <= width fam → be b mod 2 ^ (width fam - len) = 0 →
  rule_wf (mkRule a true w fam (to_network b) len ps pe id h).
Proof.
  intros Hid Hf Hb Hlen Hc. split; cbn; auto.
  - intros _. apply to_network_length. unfold zlen in Hb. destruct (family_size_cases fam Hf) as [[_ E]|[_ E]]; lia.
  - intros _. unfold block_of, to_network. cbn [family network]. by rewrite ztake_app.
Qed.

Lemma compile_cidr_wf base before after r : rule_id base ≠ 0 →
  compile_cidr base before after = inr r → rule_wf r.
Proof.
  intros Hid. unfold compile_cidr. destruct (_ || _); [done|].
  pose proof (strtoul_nonneg (cut_nul after)) as Hn. destruct (strtoul _) as [[v rest] err]. cbn in Hn.
  destruct (err || _); [done|]. destruct (parse_numeric before) as [[fam b]|] eqn:Ep; [|done].
  apply parse_numeric_length in Ep as [Hb Hf]. destruct (_ || _) eqn:Hchk; [done|]. intros [= <-].
  bools. match goal with H : network_is_canonical _ _ _ = true |- _ => rename H into Hcan end.
  assert (v <= width fam) as Hv.
  { unfold width. destruct (family_size_cases fam Hf) as [[-> ->]|[-> ->]].
    all: repeat match goal with H : (bool_decide (?x = ?x) && _) = false |- _ =>
      rewrite bool_decide_eq_true_2 in H by done; cbn in H end; bools; lia. }
  assert (width fam <= 128) by (unfold width; destruct (family_size_cases fam Hf) as [[_ ->]|[_ ->]]; lia).
  rewrite Z.mod_small in * by lia.
  apply address_rule_wf; try done. rewrite <- Hb in Hcan. apply canonical_spec in Hcan; [|unfold width in *; lia].
  unfold width. by rewrite <- Hb.
Qed.

Lemma compile_target_wf base text r : rule_id base ≠ 0 → address base = false →
  compile_target base text = inr r → rule_wf r.
Proof.
  intros Hid Ha. unfold compile_target. destruct (split_at _ _) as [[before after]|]; [by apply compile_cidr_wf|].
  destruct (parse_numeric text) as [[fam b]|] eqn:Ep.
  - apply parse_numeric_length in Ep as [Hb Hf].
    destruct (bool_decide (fam = AF_INET6) && is_ipv4_mapped b) eqn:Em; intros [= <-].
    + bools. subst fam. apply address_rule_wf; try done.
      * rewrite zlen_zdrop by (rewrite Hb; done). by rewrite Hb.
      * change (2 ^ (width AF_INET - 32)) with 1. apply Z.mod_1_r.
    + assert ((if bool_decide (fam = AF_INET) then 32 else 128) = width fam) as ->
        by (unfold width; by destruct (family_size_cases fam Hf) as [[-> ->]|[-> ->]]).
      apply address_rule_wf; try done.
      * unfold width. destruct (family_size_cases fam Hf) as [[_ ->]|[_ ->]]; lia.
      * rewrite Z.sub_diag. apply Z.mod_1_r.
  - destruct (normalize_hostname _ _) as [[name w]|]; [|done]. intros [= <-].
    split; cbn; try done; by rewrite Ha.
Qed.

Lemma compile_rule_wf index ids source ids' r : 0 <= index < 2 ^ 32 - 1 →
  compile_rule index ids source = inr (ids', r) → rule_wf r.
Proof.
  intros Hi. unfold compile_rule. destruct (target source) as [text|]; [|done].
  destruct (_ || _ || _ || _); [done|]. destruct (_ || _); [done|]. destruct (_ && _); [done|].
  destruct (compile_target _ _) as [|r'] eqn:Ec; [done|]. intros [= <- <-].
  eapply compile_target_wf; [| |exact Ec]; [|done]. cbn.
  destruct (source_rule_id source =? 0) eqn:E; bools; [|done]. rewrite u32_small by lia. lia.
Qed.

Lemma compile_rules_wf index ids sources rs : 0 <= index → index + zlen sources < 2 ^ 32 →
  compile_rules index ids sources = inr rs → Forall rule_wf rs.
Proof.
  revert index ids rs. induction sources as [|s sources IH]; intros index ids rs Hi Hl; cbn [compile_rules].
  - by intros [= <-].
  - rewrite zlen_cons in Hl. zlen_pose. destruct (compile_rule _ _ _) as [|[ids' r]] eqn:Er; [done|].
    destruct (compile_rules _ _ _) as [|rs'] eqn:Ers; [done|]. intros [= <-]. constructor.
    + eapply compile_rule_wf; [|exact Er]. lia.
    + eapply IH; [| |exact Ers]; lia.
Qed.

(** A compiled rule comes from its target text, with the source's action and
    ports. *)
Definition compiled_rule (source : capsid_egress_rule) (r : Rule) : Prop :=
  ∃ text base, target source = Some text ∧ compile_target base (cut_nul text) = inr r
    ∧ action base = action_of (rule_action_value source) ∧ address base = false
    ∧ port_start base = source_port_start source ∧ port_end base = source_port_end source.

Lemma compile_rules_sources index ids sources rs : compile_rules index ids sources = inr rs →
  Forall2 compiled_rule sources rs.
Proof.
  revert index ids rs. induction sources as [|s sources IH]; intros index ids rs; cbn [compile_rules].
  { intros [= <-]. constructor. }
  destruct (compile_rule _ _ _) as [|[ids' r]] eqn:Er; [done|].
  destruct (compile_rules _ _ _) as [|rs'] eqn:Ers; [done|]. intros [= <-]. constructor; [|by eapply IH].
  revert Er. unfold compile_rule. destruct (target s) as [text|] eqn:Ht; [|done].
  destruct (_ || _ || _ || _); [done|]. destruct (_ || _); [done|]. destruct (_ && _); [done|].
  destruct (compile_target _ _) as [|r'] eqn:Ec; [done|]. intros [= _ <-].
  exists text. eexists. by split_and!.
Qed.

(** The target keeps the action and the ports. *)
Lemma compile_target_keeps base text r : compile_target base text = inr r →
  action r = action base ∧ port_start r = port_start base ∧ port_end r = port_end base.
Proof.
  unfold compile_target, compile_cidr. intros Hc. repeat (case_match; simplify_eq; try done).
Qed.

(** A rule about a name comes from a target that is neither a block nor an
    address. *)
Lemma compile_target_host base text r : compile_target base text = inr r → address base = false →
  address r = false ↔ ∃ name w, split_at Byte.x2f text = None ∧ parse_numeric text = None
    ∧ normalize_hostname text true = Some (name, w) ∧ host r = name ∧ wildcard r = w.
Proof.
  unfold compile_target. intros Hc Hb. destruct (split_at Byte.x2f text) as [[before after]|].
  { split; [|by intros (? & ? & ? & _)]. unfold compile_cidr in Hc. intros Ha.
    repeat (case_match; simplify_eq; try done). }
  destruct (parse_numeric text) as [[fam b]|].
  { split; [|by intros (? & ? & _ & ? & _)]. intros Ha. destruct (_ && _); by simplify_eq. }
  destruct (normalize_hostname text true) as [[name w]|]; [|done]. injection Hc as <-. cbn.
  split; [intros _; by exists name, w|done].
Qed.

Lemma configure_wf d p : configure d = inr p → Forall rule_wf (rules p).
Proof.
  destruct d as [d|]; cbn [configure]; [|by intros [= <-]]. destruct (negb _); [done|].
  destruct (_ || _) eqn:Hc; [done|]. bools.
  destruct (compile_rules _ _ _) as [|rs] eqn:Er; [done|]. intros [= <-]. cbn.
  eapply compile_rules_wf; [| |exact Er]; [lia|].
  unfold ztake, zlen. rewrite length_take. lia.
Qed.
End compiled.

(** ** What a decision is *)

(** The decision over an ordered rule list in which [applies] says which rules
    speak about the destination: the first deny if there is one, else the first
    allow, else the fallback. *)
Inductive decided (applies : Rule → Prop) (rs : list Rule) (fallback : EgressDecision)
    : EgressDecision → Prop :=
| by_deny l1 r l2 : rs = l1 ++ r :: l2 → applies r → action r = CAPSID_EGRESS_DENY →
    (∀ t, t ∈ l1 → applies t → action t = CAPSID_EGRESS_ALLOW) →
    decided applies rs fallback (mkDecision false (rule_id r) Deny_kExplicitDeny)
| by_allow l1 r l2 : rs = l1 ++ r :: l2 → applies r → (∀ t, t ∈ l1 → ¬ applies t) →
    (∀ t, t ∈ rs → applies t → action t = CAPSID_EGRESS_ALLOW) →
    decided applies rs fallback (mkDecision true (rule_id r) Deny_kNone)
| by_default : (∀ t, t ∈ rs → ¬ applies t) → decided applies rs fallback fallback.

Lemma not_deny (r : Rule) : action r ≠ CAPSID_EGRESS_DENY → action r = CAPSID_EGRESS_ALLOW.
Proof. by destruct (action r). Qed.

(** The loop, with [found] and [id] from the rules before. *)
Lemma scan_spec (m : Rule → bool) rs found id : Forall (λ r, rule_id r ≠ 0) rs →
  match scan m rs found id with
  | inl d => ∃ l1 r l2, rs = l1 ++ r :: l2 ∧ m r = true ∧ action r = CAPSID_EGRESS_DENY
      ∧ (∀ t, t ∈ l1 → m t = true → action t = CAPSID_EGRESS_ALLOW)
      ∧ d = mkDecision false (rule_id r) Deny_kExplicitDeny
  | inr (found', id') =>
      (∀ t, t ∈ rs → m t = true → action t = CAPSID_EGRESS_ALLOW)
      ∧ ((found' = found ∧ id' = id ∧ ∀ t, t ∈ rs → m t = false)
         ∨ (found' = true ∧ ∃ l1 r l2, rs = l1 ++ r :: l2 ∧ m r = true ∧ (∀ t, t ∈ l1 → m t = false)
            ∧ id' = if id =? 0 then rule_id r else id))
  end.
Proof.
  intros Hids. revert found id. induction Hids as [|r rs Hr _ IH]; intros found id; cbn [scan].
  - split; [by intros ? ?%elem_of_nil|]. left. do 2 (split; [done|]). by intros ? ?%elem_of_nil.
  - destruct (m r) eqn:Em; cbn [negb].
    + destruct (bool_decide _) eqn:Ea; bools.
      * exists [], r, rs. do 3 (split; [done|]). split; [|done]. by intros ? ?%elem_of_nil.
      * specialize (IH true (if id =? 0 then rule_id r else id)).
        destruct (scan _ _ _ _) as [d|[found' id']].
        -- destruct IH as (l1 & s & l2 & -> & Hm & Hs & Hl & ->). exists (r :: l1), s, l2.
           do 3 (split; [done|]). split; [|done]. intros t [->|Ht]%elem_of_cons Hmt; [by apply not_deny|auto].
        -- destruct IH as [Hall Hf]. split.
           { intros t [->|Ht]%elem_of_cons Hmt; [by apply not_deny|auto]. }
           right. split; [by destruct Hf as [(-> & _)|[-> _]]|]. exists [], r, rs. do 2 (split; [done|]).
           split; [by intros ? ?%elem_of_nil|].
           destruct Hf as [(_ & -> & _)|(_ & l1 & s & l2 & -> & _ & _ & ->)]; [done|].
           destruct (id =? 0) eqn:E0; [|by rewrite E0]. by rewrite eqb_ne_false.
    + specialize (IH found id). destruct (scan _ _ _ _) as [d|[found' id']].
      * destruct IH as (l1 & s & l2 & -> & Hm & Hs & Hl & ->). exists (r :: l1), s, l2.
        do 3 (split; [done|]). split; [|done]. intros t [->|Ht]%elem_of_cons Hmt; [congruence|auto].
      * destruct IH as [Hall Hf]. split; [intros t [->|Ht]%elem_of_cons Hmt; [congruence|auto]|].
        destruct Hf as [(-> & -> & Hn)|(-> & l1 & s & l2 & -> & Hs & Hl & ->)]; [left|right].
        -- do 2 (split; [done|]). intros t [->|Ht]%elem_of_cons; auto.
        -- split; [done|]. exists (r :: l1), s, l2. do 2 (split; [done|]). split; [|done].
           intros t [->|Ht]%elem_of_cons; auto.
Qed.

(** Both deciding loops, for a test that reflects [applies]. *)
Lemma scan_decided (m : Rule → bool) (applies : Rule → Prop) rs fallback :
  Forall rule_wf rs → (∀ r, r ∈ rs → m r = true ↔ applies r) →
  decided applies rs fallback
    match scan m rs false 0 with
    | inl d => d
    | inr (true, id) => mkDecision true id Deny_kNone
    | inr (false, _) => fallback
    end.
Proof.
  intros Hwf Hm.
  assert (Forall (λ r, rule_id r ≠ 0) rs) as Hids by (eapply Forall_impl; [exact Hwf|apply wf_id]).
  pose proof (scan_spec m rs false 0 Hids) as Hs. destruct (scan m rs false 0) as [d|[found id]].
  - destruct Hs as (l1 & r & l2 & -> & Hr & Ha & Hl & ->). eapply by_deny; [done| |done|].
    + apply Hm; [|done]. apply elem_of_app; right; by left.
    + intros t Ht. rewrite <- Hm; [auto|]. apply elem_of_app; by left.
  - destruct Hs as [Hall [(-> & _ & Hn)|(-> & l1 & r & l2 & -> & Hr & Hl & ->)]].
    + apply by_default. intros t Ht. rewrite <- Hm by done. rewrite Hn by done. done.
    + eapply by_allow; [done| | |].
      * apply Hm; [|done]. apply elem_of_app; right; by left.
      * intros t Ht. rewrite <- Hm by (apply elem_of_app; by left). by rewrite Hl.
      * intros t Ht. rewrite <- Hm by done. auto.
Qed.

Definition covers_port (r : Rule) (port : Z) : Prop :=
  port_start r = 0 ∨ port_start r <= port <= port_end r.

(** The rules about an address: its block holds the address. *)
Definition address_applies (fam : Family) (a : bytes) (port : Z) (r : Rule) : Prop :=
  address r = true ∧ family r = fam ∧ covers_port r port ∧ in_block a (block_of r) (prefix r).

(** The rules about a host name: the name itself, or a name below it. *)
Definition host_applies (name : bytes) (port : Z) (r : Rule) : Prop :=
  address r = false ∧ covers_port r port
  ∧ if wildcard r then ∃ labels, labels ≠ [] ∧ name = labels ++ Byte.x2e :: host r else name = host r.

Lemma port_matches_spec r port : port_matches (port_start r) (port_end r) port = true ↔ covers_port r port.
Proof. unfold port_matches, covers_port. rewrite orb_true_iff, andb_true_iff, Z.eqb_eq, !Z.leb_le. done. Qed.

Lemma address_rule_spec fam a port r : rule_wf r → zlen a = family_size fam →
  address_rule a fam port r = true ↔ address_applies fam a port r.
Proof.
  intros Hwf Ha. unfold address_rule, address_applies.
  rewrite !andb_true_iff, bool_decide_eq_true, port_matches_spec.
  destruct (address r) eqn:Er; [|by split; intros (((? & _) & _) & _) || intros (? & _)].
  assert (family r = fam → (prefix_matches a (network r) (prefix r) = true ↔ in_block a (block_of r) (prefix r))) as Hb.
  { intros <-. pose proof (wf_prefix r Hwf Er) as Hp. pose proof (wf_length r Hwf Er) as Hl.
    pose proof (wf_canonical r Hwf Er) as Hc. unfold width in *.
    assert (family_size (family r) <= 16) as Hs
      by (destruct (family_size_cases (family r) (wf_family r Hwf Er)) as [[_ ->]|[_ ->]]; lia).
    assert (0 <= family_size (family r)) as Hs0 by (rewrite <- Ha; apply zlen_nonneg).
    rewrite <- (ztake_zdrop (family_size (family r)) (network r)) at 1.
    apply block_spec; [|lia|by rewrite Ha].
    unfold block_of, ztake, zlen in *. rewrite length_take. lia. }
  split.
  - intros (((_ & Hf) & Hp) & Hm). split_and!; try done. by apply Hb.
  - intros (_ & Hf & Hp & Hm). split_and!; try done. by apply Hb.
Qed.

Lemma host_rule_matches_spec name rule is_wildcard : host_rule_matches name rule is_wildcard = true ↔
  if is_wildcard then ∃ labels, labels ≠ [] ∧ name = labels ++ Byte.x2e :: rule else name = rule.
Proof.
  unfold host_rule_matches. destruct is_wildcard; cbn [negb]; [|apply bool_decide_eq_true].
  rewrite !andb_true_iff, Z.ltb_lt, Z.eqb_eq, bool_decide_eq_true. split.
  - intros [[Hlen Hdot] Hrule]. zlen_pose. set (k := zlen name - zlen rule - 1) in *.
    exists (ztake k name). split; [intros He; apply (f_equal zlen) in He; rewrite zlen_ztake in He by lia; unfold zlen in He; cbn in He; lia|].
    rewrite <- (ztake_zdrop k name) at 1. f_equal.
    unfold byte_at in Hdot. destruct (name !! Z.to_nat k) as [c|] eqn:Hc; [|done].
    unfold zdrop at 1. rewrite (drop_S _ c) by done.
    assert (c = Byte.x2e) as -> by (by apply u8_inj). f_equal. etransitivity; [|exact Hrule].
    unfold zdrop. f_equal. lia.
  - intros (labels & Hne & ->). rewrite zlen_app, zlen_cons.
    assert (0 < zlen labels) by (destruct labels; [done|rewrite zlen_cons; zlen_pose; lia]).
    split_and!; [lia| |].
    + replace (zlen labels + (1 + zlen rule) - zlen rule - 1) with (zlen labels) by lia.
      unfold byte_at, zlen. rewrite Nat2Z.id, list_lookup_middle by done. done.
    + change (Byte.x2e :: rule) with ([Byte.x2e] ++ rule). rewrite (assoc (++)). apply zdrop_app.
      rewrite zlen_app. change (zlen [Byte.x2e]) with 1. lia.
Qed.

Lemma host_rule_spec name port r : host_rule name port r = true ↔ host_applies name port r.
Proof.
  unfold host_rule, host_applies. rewrite !andb_true_iff, negb_true_iff, port_matches_spec, host_rule_matches_spec.
  tauto.
Qed.

(** ** Properties *)

(** Numeric addresses are judged in their shortest family. *)
Definition canonical_address (fam : Family) (b : bytes) : Family * bytes :=
  if bool_decide (fam = AF_INET6) && is_ipv4_mapped b then (AF_INET, zdrop 12 b) else (fam, b).

(** What is decided about an address no rule speaks about. *)
Definition unmatched (fam : Family) (a : bytes) (protect : bool) (otherwise d : EgressDecision) : Prop :=
  (protect = true ∧ protected fam a ∧ d = mkDecision false 0 Deny_kProtected)
  ∨ (¬ (protect = true ∧ protected fam a) ∧ d = otherwise).

Section properties.
Context `{P : InetPton} `{!InetPtonLaws P}.

Lemma canonical_length fam0 b0 fam a : zlen b0 = family_size fam0 → fam0 ≠ AF_UNSPEC →
  canonical_address fam0 b0 = (fam, a) →
  zlen a = family_size fam ∧ (fam = AF_INET ∨ (fam = AF_INET6 ∧ is_ipv4_mapped a = false)).
Proof.
  intros Hb Hf. unfold canonical_address. destruct (bool_decide _) eqn:E6; bools; cbn [andb].
  - subst fam0. destruct (is_ipv4_mapped b0) eqn:Em; intros [= <- <-]; [|auto].
    rewrite zlen_zdrop by (rewrite Hb; done). rewrite Hb. auto.
  - intros [= <- <-]. split; [done|]. destruct fam0; auto; done.
Qed.

(** The address decision with its fallback. *)
Lemma decide_address_spec p fam a port (apply_default protect : bool) : Forall rule_wf (rules p) →
  zlen a = family_size fam → (fam = AF_INET ∨ (fam = AF_INET6 ∧ is_ipv4_mapped a = false)) →
  ∃ fallback, unmatched fam a protect
                (if apply_default then default_decision p else mkDecision true 0 Deny_kNone) fallback
    ∧ decided (address_applies fam a port) (rules p) fallback
        (decide_address p a fam port apply_default protect).
Proof.
  intros Hwf Ha Hfam. unfold decide_address.
  cbn zeta. match goal with |- context [mkDecision (if apply_default then ?x else true) 0 ?y] =>
    set (o := mkDecision (if apply_default then x else true) 0 y) end.
  assert (o = if apply_default then default_decision p else mkDecision true 0 Deny_kNone) as Ho.
  { unfold o, default_decision. destruct apply_default; [|done]. by destruct (bool_decide _). }
  set (prot := (bool_decide (fam = AF_INET) && is_protected_ipv4 a) || (bool_decide (fam = AF_INET6) && is_protected_ipv6 a)).
  assert (prot = true ↔ protected fam a) as Hprot.
  { unfold prot, zlen in *. destruct Hfam as [->|[-> Hm]]; cbn in Ha.
    - rewrite <- protected_ipv4_spec by (change (family_size AF_INET) with 4 in Ha; lia).
      rewrite (bool_decide_eq_true_2 (AF_INET = AF_INET)), (bool_decide_eq_false_2 (AF_INET = AF_INET6)) by done.
      cbn [andb orb]. by rewrite orb_false_r.
    - rewrite <- protected_ipv6_spec by (try done; change (family_size AF_INET6) with 16 in Ha; lia).
      rewrite (bool_decide_eq_false_2 (AF_INET6 = AF_INET)), (bool_decide_eq_true_2 (AF_INET6 = AF_INET6)) by done.
      done. }
  exists (if protect && prot then mkDecision false 0 Deny_kProtected else o). split.
  - rewrite <- Ho. unfold unmatched. rewrite <- Hprot.
    destruct protect, prot; cbn [andb]; [by left|right; split; [by intros []|done]..].
  - pose proof (scan_decided (address_rule a fam port) (address_applies fam a port) (rules p)
      (if protect && prot then mkDecision false 0 Deny_kProtected else o) Hwf) as Hd.
    destruct (scan _ _ _ _) as [d|[[] id]]; apply Hd; intros r Hr; rewrite Forall_forall in Hwf;
      by apply address_rule_spec; [apply Hwf|].
Qed.

Lemma host_decided p input port name w : Forall rule_wf (rules p) → port ≠ 0 →
  parse_numeric input = None → normalize_hostname input false = Some (name, w) →
  decided (host_applies name port) (rules p) (default_decision p) (decide_host p input port).
Proof.
  intros Hp Hport Hn Hname. unfold decide_host. rewrite (eqb_ne_false port 0), Hn, Hname by done.
  apply (scan_decided _ _ _ _ Hp). intros r _. apply host_rule_spec.
Qed.

(** Numeric hosts. For every spelling of an address (dotted, bracketed,
    IPv4-mapped) and every configured policy, the decision is the first deny
    rule whose block holds the address and whose ports hold the port, else the
    first such allow rule, else a denial when the address lies in a protected
    range, else the default. A block is the numeric range of its CIDR. *)
Theorem numeric_host_exact d p input port fam0 b0 fam a : configure d = inr p → port ≠ 0 →
  parse_numeric input = Some (fam0, b0) → canonical_address fam0 b0 = (fam, a) →
  ∃ fallback, unmatched fam a true (default_decision p) fallback
    ∧ decided (address_applies fam a port) (rules p) fallback (decide_host p input port).
Proof.
  intros Hp Hport Hn Hc. apply configure_wf in Hp.
  destruct (parse_numeric_length input fam0 b0 Hn) as [Hb Hf].
  destruct (canonical_length fam0 b0 fam a Hb Hf Hc) as [Ha Hfam].
  destruct (decide_address_spec p fam a port true true Hp Ha Hfam) as (fallback & Hu & Hd).
  exists fallback. split; [done|]. unfold decide_host. rewrite (eqb_ne_false port 0), Hn by done.
  unfold canonical_address in Hc. destruct (_ && _); by injection Hc as <- <-.
Qed.

(** Host names: the decision is the first deny rule for the normalized
    name or a parent wildcard, else the first such allow rule, else the default;
    and at the connect stage an address is denied exactly when an explicit deny
    rule holds it, unlike at the strict stage, which also protects the protected
    ranges. *)
Theorem hostname_exact d p input port name w fam a size : configure d = inr p → port ≠ 0 →
  parse_numeric input = None → normalize_hostname input false = Some (name, w) →
  zlen a = family_size fam → (fam = AF_INET ∨ fam = AF_INET6 ∧ is_ipv4_mapped a = false) →
  sizeof_sockaddr_in6 <= size →
  decided (host_applies name port) (rules p) (default_decision p) (decide_host p input port)
  ∧ decided (address_applies fam a port) (rules p) (mkDecision true 0 Deny_kNone)
      (decide_resolved_address_authoritative p (Some (mkSockaddr fam port a)) size port)
  ∧ ∃ fallback, unmatched fam a true (mkDecision true 0 Deny_kNone) fallback
      ∧ decided (address_applies fam a port) (rules p) fallback
          (decide_resolved_address p (Some (mkSockaddr fam port a)) size port).
Proof.
  intros Hp Hport Hn Hname Ha Hfam Hsize. apply configure_wf in Hp.
  assert (∀ protect, decide_resolved_address_impl p (Some (mkSockaddr fam port a)) size port protect
    = decide_address p a fam port false protect) as Hres.
  { intros protect. unfold decide_resolved_address_impl. rewrite (eqb_ne_false port 0) by done. cbn.
    rewrite Z.eqb_refl. cbn [negb]. unfold sizeof_sockaddr_in, sizeof_sockaddr_in6 in *.
    rewrite !(proj2 (Z.leb_le _ size)) by lia.
    destruct Hfam as [->|[-> ->]].
    - by rewrite (bool_decide_eq_true_2 (AF_INET = AF_INET)) by done.
    - rewrite (bool_decide_eq_false_2 (AF_INET6 = AF_INET)) by done.
      by rewrite (bool_decide_eq_true_2 (AF_INET6 = AF_INET6)) by done. }
  split_and!.
  - by eapply host_decided.
  - unfold decide_resolved_address_authoritative. rewrite Hres.
    destruct (decide_address_spec p fam a port false false Hp Ha Hfam) as (fallback & [(? & _)|[_ ->]] & Hd); [done|].
    exact Hd.
  - unfold decide_resolved_address. rewrite Hres.
    exact (decide_address_spec p fam a port false true Hp Ha Hfam).
Qed.
End properties.

(** ** Normalized names *)

Lemma lowered c : l_isupper c = true →
  host_char (to_u8 (u8 c - 65 + 97)) = true ∧ l_isupper (to_u8 (u8 c - 65 + 97)) = false
  ∧ to_u8 (u8 c - 65 + 97) ≠ Byte.x2e.
Proof. by destruct c. Qed.

Lemma host_char_plain c : host_char c = true → l_isupper c = false ∧ c ≠ Byte.x2e ∧ c ≠ Byte.x2a.
Proof. by destruct c. Qed.

Lemma host_loop_stable rest label name : host_loop rest label = Some name →
  host_loop name label = Some name ∧ ¬ (Byte.x2a ∈ name) ∧ zlen name = zlen rest
  ∧ (name ≠ [] → last name ≠ Some Byte.x2e).
Proof.
  revert label name. induction rest as [|c rest IH]; intros label name Hl; cbn [host_loop] in Hl.
  { destruct (bad_label label) eqn:Hb; [done|]. injection Hl as <-. cbn [host_loop]. rewrite Hb.
    split_and!; try done. by intros ?%elem_of_nil. }
  assert (∀ c' label', host_loop rest label' = Some (tail name) → name = c' :: tail name →
    c' ≠ Byte.x2a → (c' = Byte.x2e → label' = []) →
    (host_loop (tail name) label' = Some (tail name) → host_loop name label = Some name) →
    host_loop name label = Some name ∧ ¬ (Byte.x2a ∈ name) ∧ zlen name = zlen (c :: rest)
    ∧ (name ≠ [] → last name ≠ Some Byte.x2e)) as Hstep.
  { intros c' label' Hr Hn Hs Hd Hloop. destruct (IH _ _ Hr) as (H1 & H2 & H3 & H4).
    split; [auto|]. rewrite Hn. split; [by intros [?|?]%elem_of_cons|]. split; [by rewrite !zlen_cons, H3|].
    intros _. destruct (tail name) as [|d t] eqn:Et; [|rewrite last_cons_cons; by apply H4].
    cbn. intros [= ->]. rewrite (Hd eq_refl) in H1. done. }
  destruct (bool_decide (c = Byte.x2e)) eqn:Ed; bools.
  - subst c. destruct (bad_label label) eqn:Hb; [done|]. apply fmap_Some in Hl as (t & Hr & ->).
    apply (Hstep Byte.x2e []); try done. cbn [tail]. intros Ht. cbn. by rewrite Hb, Ht.
  - destruct (l_isupper c) eqn:Eu.
    + apply fmap_Some in Hl as (t & Hr & ->). destruct (lowered c Eu) as (H1 & H2 & H3).
      destruct (host_char_plain _ H1) as (_ & _ & H4).
      apply (Hstep (to_u8 (u8 c - 65 + 97)) (label ++ [to_u8 (u8 c - 65 + 97)])); try done.
      cbn [tail]. intros Ht. cbn [host_loop]. by rewrite bool_decide_false, H2, H1, Ht.
    + destruct (host_char c) eqn:Eh; [|done]. apply fmap_Some in Hl as (t & Hr & ->).
      destruct (host_char_plain _ Eh) as (_ & _ & H4).
      apply (Hstep c (label ++ [c])); try done.
      cbn [tail]. intros Ht. cbn [host_loop]. by rewrite bool_decide_false, Eu, Eh, Ht.
Qed.

(** Normalization is idempotent, so a name is compared in one form. *)
Lemma normalize_idempotent input allow name w : normalize_hostname input allow = Some (name, w) →
  normalize_hostname name false = Some (name, false).
Proof.
  unfold normalize_hostname at 1. destruct (bool_decide (input = [])); [done|]. cbn zeta.
  destruct (_ && negb allow); [done|]. set (v := if starts_with _ _ then _ else _).
  destruct (_ || _) eqn:Hv; [done|]. bools. destruct (host_loop v []) as [h|] eqn:Hl; [|done].
  intros [= -> _]. destruct (host_loop_stable _ _ _ Hl) as (Hs1 & Hs2 & Hs3 & Hs4).
  assert (name ≠ []) as Hne by (intros ->; cbn in Hs3; by destruct v).
  unfold normalize_hostname. rewrite bool_decide_false by done. cbn zeta.
  assert (drop_final_dot name = name) as ->.
  { unfold drop_final_dot, last_is. by rewrite (bool_decide_false (last name = _)), andb_false_r by auto. }
  assert (starts_with name (bs "*.") = false) as ->.
  { unfold starts_with. apply bool_decide_eq_false. destruct name as [|c t]; [done|]. cbn.
    intros [= -> _]. apply Hs2. by left. }
  cbn [andb]. rewrite (bool_decide_false (name = [])), (bool_decide_false (Byte.x2a ∈ name)), Hs1 by done.
  by rewrite Hs3, (ltb_ge_false 253) by lia.
Qed.

(** A text form of addresses: dotted decimal octets without leading zeros, and
    hexadecimal groups with at most one [::]. *)
Definition octet (s : bytes) : option byte :=
  match s with
  | [] => None
  | c :: rest =>
      if forallb l_isdigit s && (zlen s <=? 3) && ((zlen s =? 1) || negb (u8 c =? 48)) then
        let v := (digits 0 s).1 in if v <=? 255 then Some (to_u8 v) else None
      else None
  end.

Definition hex_value (c : byte) : Z :=
  if l_isdigit c then u8 c - 48 else if in_range 97 102 c then u8 c - 87 else u8 c - 55.

Definition group (s : bytes) : option bytes :=
  if forallb l_isxdigit s && (1 <=? zlen s) && (zlen s <=? 4) then
    let v := fold_left (λ acc c, acc * 16 + hex_value c) s 0 in Some [to_u8 (v / 256); to_u8 v]
  else None.

Definition groups (s : bytes) : option bytes :=
  if bool_decide (s = []) then Some []
  else option_map (@List.concat byte) (mapM group (split_on Byte.x3a s [])).

Fixpoint split_double (s acc : bytes) : option (bytes * bytes) :=
  match s with
  | a :: s' =>
      match s' with
      | b :: rest =>
          if bool_decide (a = Byte.x3a) && bool_decide (b = Byte.x3a) then Some (acc, rest)
          else split_double s' (acc ++ [a])
      | [] => None
      end
  | [] => None
  end.

Definition sized (n : nat) (b : bytes) : option bytes := if bool_decide (length b = n) then Some b else None.

#[export] Instance text_pton : InetPton := {|
  pton4 s := mapM octet (split_on Byte.x2e s []) ≫= sized 4;
  pton6 s :=
    match split_double s [] with
    | Some (a, b) =>
        match groups a, groups b with
        | Some x, Some y => sized 16 (x ++ replicate (16 - length x - length y) Byte.x00 ++ y)
        | _, _ => None
        end
    | None => groups s ≫= sized 16
    end
|}.

Lemma sized_length n b b' : sized n b = Some b' → length b' = n.
Proof. unfold sized. case_match; [|done]. bools. by intros [= <-]. Qed.

#[export] Instance text_pton_laws : InetPtonLaws text_pton.
Proof.
  split; cbn.
  - intros s b Hb. apply bind_Some in Hb as (x & _ & Hx). by apply sized_length in Hx.
  - intros s b. destruct (split_double s []) as [[u v]|].
    + destruct (groups u), (groups v); try done. apply sized_length.
    + intros Hb. apply bind_Some in Hb as (x & _ & Hx). by apply sized_length in Hx.
Qed.

Definition allow_rule (text : string) (port : Z) : capsid_egress_rule :=
  mkEgressRule sizeof_egress_rule 1 (Some (bs text)) port port 0 0.
Definition sample_descriptor : capsid_egress_policy :=
  mkEgressDescriptor sizeof_egress_policy 1
    (Some [allow_rule "*.example.com" 443; allow_rule "10.1.0.0/16" 0;
           mkEgressRule sizeof_egress_rule 0 (Some (bs "10.1.2.0/24")) 0 0 7 0]) 3 0.

(** Numbers the resolver takes for addresses are host names here: under a
    default allow, [127.1] passes the host stage, which protects [127.0.0.1]. *)
Lemma short_form_unprotected :
  let p := mkEgressPolicy CAPSID_EGRESS_ALLOW [] in
  decide_host p (bs "127.0.0.1") 80 = mkDecision false 0 Deny_kProtected
  ∧ decide_host p (bs "[::ffff:7f00:1]") 80 = mkDecision false 0 Deny_kProtected
  ∧ decide_host p (bs "127.1") 80 = mkDecision true 0 Deny_kNone.
Proof. cbn zeta. split_and!; vm_compute; reflexivity. Qed.

(** The prefix length goes through strtoul: signs and spaces are accepted. *)
Lemma loose_prefix_length :
  let rule text := compile_target (mkRule CAPSID_EGRESS_ALLOW false false AF_UNSPEC [] 0 0 0 1 []) (bs text) in
  rule "10.0.0.0/ +8" = rule "10.0.0.0/8"
  ∧ rule "10.0.0.0/-18446744073709551608" = rule "10.0.0.0/8".
Proof. cbn zeta. split; vm_compute; reflexivity. Qed.

Lemma numeric_host_exact_witness : ∃ p fallback, configure (Some sample_descriptor) = inr p
  ∧ decided (address_applies AF_INET (map to_u8 [10; 1; 2; 3]) 80) (rules p) fallback
      (decide_host p (bs "::ffff:a01:203") 80)
  ∧ decide_host p (bs "::ffff:a01:203") 80 = mkDecision false 7 Deny_kExplicitDeny.
Proof.
  destruct (configure (Some sample_descriptor)) as [|p] eqn:Hp; [vm_compute in Hp; discriminate|].
  destruct (numeric_host_exact (Some sample_descriptor) p (bs "::ffff:a01:203") 80 AF_INET6
    (mapped_prefix ++ map to_u8 [10; 1; 2; 3]) AF_INET (map to_u8 [10; 1; 2; 3]) Hp
    ltac:(lia) ltac:(vm_compute; reflexivity) ltac:(vm_compute; reflexivity)) as (fallback & _ & Hd).
  exists p, fallback. split; [reflexivity|]. split; [exact Hd|].
  vm_compute in Hp. injection Hp as <-. vm_compute. reflexivity.
Defined.

Lemma hostname_exact_witness : ∃ p, configure (Some sample_descriptor) = inr p
  ∧ decided (host_applies (bs "api.example.com") 443) (rules p) (default_decision p)
      (decide_host p (bs "API.Example.com.") 443)
  ∧ decide_host p (bs "API.Example.com.") 443 = mkDecision true 1 Deny_kNone.
Proof.
  destruct (configure (Some sample_descriptor)) as [|p] eqn:Hp; [vm_compute in Hp; discriminate|].
  destruct (hostname_exact (Some sample_descriptor) p (bs "API.Example.com.") 443 (bs "api.example.com") false
    AF_INET (map to_u8 [10; 1; 2; 3]) 28 Hp ltac:(lia) ltac:(vm_compute; reflexivity)
    ltac:(vm_compute; reflexivity) ltac:(vm_compute; reflexivity) ltac:(left; reflexivity)
    ltac:(vm_compute; discriminate)) as (Hd & _ & _).
  exists p. split; [reflexivity|]. split; [exact Hd|].
  vm_compute in Hp. injection Hp as <-. vm_compute. reflexivity.
Defined.
