(* ===== verification/CapabilityPolicy.v ===== *)
(** * CapabilityPolicy: module and resource permissions (src/capability_policy.cc)

    The worker's capability policy: compilation of the public descriptor, module
    visibility, permission decisions on paths, environment names and fixed
    resources, and the separate policy table of the bindings with the digest of
    their sandbox profiles. The POSIX variant of [normalize_path] is modelled.
    A [const char *] is the text up to its NUL; sizes are those of LP64. *)
From Stdlib Require Import ZArith Lia.
From S2P Require Import Prelude Wire Jansson EgressPolicy.
Local Open Scope Z_scope.

(** ** Data *)

Inductive capsid_permission_name :=
| PERMISSION_NONE | PERMISSION_READ | PERMISSION_WRITE | PERMISSION_NET | PERMISSION_ENV
| PERMISSION_SYS | PERMISSION_FFI | PERMISSION_RAW_SOCKET | PERMISSION_STDIO | PERMISSION_STORAGE
| PERMISSION_ENGINE.

#[export] Instance permission_name_eq_dec : EqDecision capsid_permission_name.
Proof. solve_decision. Defined.

Inductive capsid_permission_action := PERMISSION_DENY | PERMISSION_ALLOW.

#[export] Instance permission_action_eq_dec : EqDecision capsid_permission_action.
Proof. solve_decision. Defined.

#[export] Instance permission_state_eq_dec : EqDecision capsid_permission_state.
Proof. solve_decision. Defined.

Inductive ModuleDecision := kModuleGranted | kModuleDenied | kModuleUnavailable | kModuleForbidden.

#[export] Instance ModuleDecision_eq_dec : EqDecision ModuleDecision.
Proof. solve_decision. Defined.

Record PermissionDecision := mkPermission {
  perm_state : capsid_permission_state;
  perm_rule : Z;
  perm_resource : bytes
}.

(** [PermissionDecision()]. *)
Definition denied : PermissionDecision := mkPermission State_DENIED 0 [].

(** The public descriptors. *)
Record capsid_permission_rule := mkPermissionRule {
  prule_struct_size : Z;
  prule_action : Z;                       (* any 32-bit value *)
  prule_permission : Z;                   (* any 32-bit value *)
  prule_resource : option bytes;
  prule_id : Z;
  prule_reserved : Z
}.

Record capsid_env_entry := mkEnvEntry {
  env_struct_size : Z;
  env_name : option bytes;
  env_text : option bytes;
  env_entry_reserved : Z
}.

Record capsid_capability_policy := mkCapabilityDescriptor {
  cap_struct_size : Z;
  cap_version : Z;
  cap_identity : option bytes;
  cap_modules : option (list (option bytes));
  cap_module_count : Z;
  cap_rules : option (list capsid_permission_rule);
  cap_rule_count : Z;
  cap_net_policy : option capsid_egress_policy;
  cap_reserved : Z;
  cap_env_entries : option (list capsid_env_entry);
  cap_env_count : Z;
  cap_env_reserved : Z
}.

Definition sizeof_permission_rule : Z := 32.
Definition sizeof_env_entry : Z := 32.
Definition sizeof_capability_policy : Z := 80.
Definition offsetof_env_entries : Z := 64.

Definition capsid_permission_rule_init : capsid_permission_rule :=
  mkPermissionRule sizeof_permission_rule 0 0 None 0 0.
Definition capsid_capability_policy_init : capsid_capability_policy :=
  mkCapabilityDescriptor sizeof_capability_policy 2 None None 0 None 0 None 0 None 0 0.

(** A compiled rule, and the policy. *)
Record PermRule := mkPermRule {
  r_action : capsid_permission_action;
  r_permission : capsid_permission_name;
  r_resource : bytes;
  r_id : Z
}.

Record CapabilityPolicy := mkCapabilityPolicy {
  enabled : bool;
  version : Z;
  application_identity : bytes;
  allowed_modules : list bytes;
  perm_rules : list PermRule;
  env_entries : list (bytes * bytes);
  has_net_policy : bool;
  net_policy : EgressPolicy
}.

Definition new_CapabilityPolicy : CapabilityPolicy :=
  mkCapabilityPolicy false 0 [] [] [] [] false new_EgressPolicy.

(** ** Modules *)

Definition kAvailableModules : list bytes :=
  [bs "capsid:assert"; bs "capsid:env"; bs "capsid:fs"; bs "capsid:getopts"; bs "capsid:hashing";
   bs "capsid:ipaddr"; bs "capsid:permissions"; bs "capsid:stdio"; bs "capsid:storage";
   bs "capsid:system"; bs "capsid:utils"; bs "capsid:uuid"].

Definition kOptionalCapsidModules : list bytes :=
  [bs "capsid:ffi"; bs "capsid:net"; bs "capsid:path"; bs "capsid:raw-socket"; bs "capsid:readline";
   bs "capsid:sqlite"; bs "capsid:websocket"].

Definition kForbiddenCapsidModules : list bytes :=
  [bs "capsid:process"; bs "capsid:worker"; bs "capsid:http-server"; bs "capsid:ipc"; bs "capsid:wasi"].

Definition contains (values : list bytes) (wanted : bytes) : bool := bool_decide (wanted ∈ values).

Definition module_forbidden (name : bytes) : bool :=
  bool_decide (name = []) || bool_decide (name = bs "tjs:internal") || starts_with name (bs "tjs:internal/")
  || bool_decide (name = bs "capsid:internal") || starts_with name (bs "capsid:internal/")
  || starts_with name (bs "http:") || starts_with name (bs "https:") || starts_with name (bs "file:")
  || starts_with name (bs "data:") || starts_with name (bs "node:") || starts_with name (bs "/")
  || starts_with name (bs "./") || starts_with name (bs "../") || contains kForbiddenCapsidModules name
  || starts_with name (bs "tjs:").

Definition module_known (name : bytes) : bool :=
  contains kAvailableModules name || contains kOptionalCapsidModules name.

Definition module_available (name : bytes) : bool := contains kAvailableModules name.

(** ** Resources *)

Definition valid_identity (identity : bytes) : bool :=
  (zlen identity <=? 128) && forallb (λ c, negb ((u8 c <? 0x20) || (u8 c =? 0x7f))) identity.

(** [component] by [component]; the stack is kept with its top first. *)
Fixpoint path_loop (components : list bytes) (stack : list bytes) : option (list bytes) :=
  match components with
  | [] => Some (rev stack)
  | c :: components =>
      if bool_decide (c = []) || bool_decide (c = bs ".") then path_loop components stack
      else if bool_decide (c = bs "..") then
        match stack with [] => None | _ :: stack => path_loop components stack end
      else path_loop components (c :: stack)
  end.

(** The text put together again. *)
Definition path_join (components : list bytes) : bytes :=
  let text := fold_left (λ out c, (if negb (last_is out Byte.x2f) then out ++ [Byte.x2f] else out) ++ c)
                components (bs "/") in
  if (1 <? zlen text) && last_is text Byte.x2f then ztake (zlen text - 1) text else text.

Definition normalize_path (input : bytes) : option bytes :=
  if bool_decide (input = []) || (4096 <? zlen input) then None
  else if negb (byte_at input 0 =? 47) then None
  else path_join <$> path_loop (split_on Byte.x2f (zdrop 1 input) []) [].

Definition is_alnum (c : byte) : bool := l_isalpha c || l_isdigit c.
Definition env_char (c : byte) : bool := is_alnum c || (u8 c =? 95).

Definition valid_env_pattern (resource : bytes) : bool :=
  if bool_decide (resource = []) || (256 <? zlen resource) then false
  else
    let limit := if last_is resource Byte.x2a then zlen resource - 1 else zlen resource in
    if limit =? 0 then bool_decide (resource = bs "*")
    else
      let first := to_u8 (byte_at resource 0) in
      if negb (l_isalpha first || (u8 first =? 95)) then false
      else if negb (forallb env_char (ztake limit resource)) then false
      else
        match split_at Byte.x2a resource with
        | None => true
        | Some (_, after) => bool_decide (after = [])
        end.

Definition valid_env_name (name : bytes) : bool :=
  negb (bool_decide (Byte.x2a ∈ name)) && valid_env_pattern name.

Definition valid_storage_namespace (value : bytes) : bool :=
  if bool_decide (value = []) || (128 <? zlen value) then false
  else forallb (λ c, is_alnum c || (u8 c =? 95) || (u8 c =? 45) || (u8 c =? 46)) value.

Definition sys_values : list bytes :=
  map bs ["cpus"; "availableParallelism"; "loadAvg"; "uptime"; "runtimeVersion"; "featureFlags";
          "memoryUsage"; "hostname"; "networkInterfaces"; "userInfo"; "homedir"; "osRelease";
          "systemMemoryInfo"; "uid"; "gid"; "username"]%string.
Definition stdio_values : list bytes := [bs "stdin"; bs "stdout"; bs "stderr"].
Definition engine_values : list bytes := [bs "gc"; bs "snapshot"; bs "profiler"].

Definition keep_if (b : bool) (value : bytes) : option bytes := if b then Some value else None.

Definition normalize_rule_resource (permission : capsid_permission_name) (input : option bytes)
    : option bytes :=
  if bool_decide (permission = PERMISSION_RAW_SOCKET) then
    match input with
    | None => Some []
    | Some text => keep_if (bool_decide (cut_nul text = [])) []
    end
  else match input with
  | None => None
  | Some text =>
      let value := cut_nul text in
      if bool_decide (value = []) || (4096 <? zlen value) then None
      else match permission with
      | PERMISSION_READ | PERMISSION_WRITE | PERMISSION_FFI =>
          keep_if (bool_decide (normalize_path value = Some value)) value
      | PERMISSION_ENV => keep_if (valid_env_pattern value) value
      | PERMISSION_SYS => keep_if (contains sys_values value) value
      | PERMISSION_STDIO => keep_if (contains stdio_values value) value
      | PERMISSION_STORAGE => keep_if (valid_storage_namespace value) value
      | PERMISSION_ENGINE => keep_if (contains engine_values value) value
      | PERMISSION_NONE | PERMISSION_NET | PERMISSION_RAW_SOCKET => None
      end
  end.

Definition normalize_query_resource (permission : capsid_permission_name) (input : bytes)
    : option bytes :=
  match permission with
  | PERMISSION_RAW_SOCKET => keep_if (bool_decide (input = [])) []
  | PERMISSION_READ | PERMISSION_WRITE | PERMISSION_FFI => normalize_path input
  | PERMISSION_ENV => keep_if (valid_env_name input) input
  | PERMISSION_STORAGE => keep_if (valid_storage_namespace input) input
  | _ => keep_if (negb (bool_decide (input = []) || (4096 <? zlen input))) input
  end.

Definition path_matches (resource scope : bytes) : bool :=
  bool_decide (scope = bs "/") || bool_decide (resource = scope)
  || ((zlen scope <? zlen resource) && (byte_at resource (zlen scope) =? 47)
      && bool_decide (ztake (zlen scope) resource = scope)).

Definition rule_matches (rule : PermRule) (resource : bytes) : bool :=
  let scope := r_resource rule in
  match r_permission rule with
  | PERMISSION_READ | PERMISSION_WRITE | PERMISSION_FFI => path_matches resource scope
  | PERMISSION_ENV =>
      bool_decide (scope = bs "*")
      || (if last_is scope Byte.x2a
          then bool_decide (ztake (zlen scope - 1) resource = ztake (zlen scope - 1) scope)
          else bool_decide (resource = scope))
  | PERMISSION_RAW_SOCKET => true
  | PERMISSION_SYS | PERMISSION_STDIO | PERMISSION_STORAGE | PERMISSION_ENGINE =>
      bool_decide (resource = scope)
  | PERMISSION_NONE | PERMISSION_NET => false
  end.

Definition generic_permission (permission : capsid_permission_name) : bool :=
  negb (bool_decide (permission = PERMISSION_NONE)) && negb (bool_decide (permission = PERMISSION_NET)).

(** ** Decisions *)

Definition module_decision (p : CapabilityPolicy) (name : bytes) : ModuleDecision :=
  if module_forbidden name then kModuleForbidden
  else if negb (contains (allowed_modules p) name) then
    if module_known name then kModuleDenied else kModuleUnavailable
  else if module_available name then kModuleGranted else kModuleUnavailable.

(** The loop's [allow] and [deny]: the first of the longest matching scopes. *)
Definition longer (best : option PermRule) (r : PermRule) : option PermRule :=
  match best with
  | None => Some r
  | Some b => if zlen (r_resource b) <? zlen (r_resource r) then Some r else best
  end.

Fixpoint evaluate_loop (permission : capsid_permission_name) (resource : bytes) (rs : list PermRule)
    (allow deny : option PermRule) : option PermRule * option PermRule :=
  match rs with
  | [] => (allow, deny)
  | r :: rs =>
      if negb (bool_decide (r_permission r = permission)) || negb (rule_matches r resource)
      then evaluate_loop permission resource rs allow deny
      else if bool_decide (r_action r = PERMISSION_DENY)
      then evaluate_loop permission resource rs allow (longer deny r)
      else evaluate_loop permission resource rs (longer allow r) deny
  end.

Definition evaluate (p : CapabilityPolicy) (permission : capsid_permission_name) (input : bytes)
    : PermissionDecision :=
  if negb (enabled p) || negb (generic_permission permission) then denied
  else match normalize_query_resource permission input with
  | None => denied
  | Some resource =>
      match evaluate_loop permission resource (perm_rules p) None None with
      | (_, Some r) => mkPermission State_DENIED (r_id r) resource
      | (Some r, None) => mkPermission State_GRANTED (r_id r) resource
      | (None, None) => mkPermission State_DENIED 0 resource
      end
  end.

Definition env_value (p : CapabilityPolicy) (name : bytes) : option bytes :=
  snd <$> List.find (λ e, bool_decide (e.1 = name)) (env_entries p).

Section policy.
Context `{InetPton}.

Definition query (p : CapabilityPolicy) (permission : capsid_permission_name) (resource : bytes)
    (port : Z) : PermissionDecision :=
  let unavailable := mkPermission State_UNAVAILABLE 0 resource in
  match permission with
  | PERMISSION_NET =>
      if negb (enabled p) || negb (has_net_policy p) then denied
      else if bool_decide (resource = []) || (port =? 0) then
        mkPermission (query_state (net_policy p)) 0 resource
      else
        let d := decide_host (net_policy p) resource port in
        mkPermission (if allowed d then State_GRANTED else State_DENIED) (decided_rule d) resource
  | PERMISSION_ENV | PERMISSION_STORAGE => evaluate p permission resource
  | PERMISSION_STDIO =>
      if bool_decide (resource = bs "stdout") || bool_decide (resource = bs "stderr")
      then evaluate p permission resource else unavailable
  | PERMISSION_READ => evaluate p permission resource
  | PERMISSION_SYS =>
      if bool_decide (resource = bs "runtimeVersion") || bool_decide (resource = bs "featureFlags")
      then evaluate p permission resource else unavailable
  | _ => unavailable
  end.

(** ** Compilation *)

Fixpoint compile_modules (names : list (option bytes)) (seen : gset bytes) : string + list bytes :=
  match names with
  | [] => inr []
  | None :: _ => inl "NULL allowed module"%string
  | Some text :: names =>
      let name := cut_nul text in
      if (128 <? zlen name) || module_forbidden name || negb (module_known name) || bool_decide (name ∈ seen)
      then inl "invalid or duplicate allowed module"%string
      else match compile_modules names (seen ∪ {[ name ]}) with
      | inl error => inl error
      | inr rest => inr (name :: rest)
      end
  end.

(** The enum of a value between [CAPSID_PERMISSION_READ] and
    [CAPSID_PERMISSION_ENGINE]. *)
Definition permission_of (value : Z) : capsid_permission_name :=
  nth (Z.to_nat value)
    [PERMISSION_NONE; PERMISSION_READ; PERMISSION_WRITE; PERMISSION_NET; PERMISSION_ENV; PERMISSION_SYS;
     PERMISSION_FFI; PERMISSION_RAW_SOCKET; PERMISSION_STDIO; PERMISSION_STORAGE; PERMISSION_ENGINE]
    PERMISSION_NONE.

Definition permission_action_of (value : Z) : capsid_permission_action :=
  if value =? 1 then PERMISSION_ALLOW else PERMISSION_DENY.

Fixpoint compile_permission_rules (sources : list capsid_permission_rule) (ids : gset Z)
    : string + list PermRule :=
  match sources with
  | [] => inr []
  | source :: sources =>
      if negb (prule_struct_size source =? sizeof_permission_rule) || (1 <? prule_action source)
         || (prule_permission source <? 1) || (10 <? prule_permission source) || (prule_permission source =? 3)
         || (prule_id source =? 0) || negb (prule_reserved source =? 0) || bool_decide (prule_id source ∈ ids)
      then inl "invalid permission rule descriptor"%string
      else
        let permission := permission_of (prule_permission source) in
        match normalize_rule_resource permission (prule_resource source) with
        | None => inl "invalid permission rule resource"%string
        | Some resource =>
            match compile_permission_rules sources (ids ∪ {[ prule_id source ]}) with
            | inl error => inl error
            | inr rest =>
                inr (mkPermRule (permission_action_of (prule_action source)) permission resource
                       (prule_id source) :: rest)
            end
        end
  end.

(** [p] is the policy compiled so far; only its rules are read. *)
Fixpoint compile_env (p : CapabilityPolicy) (sources : list capsid_env_entry) (names : gset bytes)
    (size : Z) : string + list (bytes * bytes) :=
  match sources with
  | [] => inr []
  | source :: sources =>
      match env_name source, env_text source with
      | Some name, Some value =>
          if negb (env_struct_size source =? sizeof_env_entry) || negb (env_entry_reserved source =? 0)
          then inl "invalid environment entry descriptor"%string
          else
            let name := cut_nul name in
            let value := cut_nul value in
            if negb (valid_env_name name) || (16384 <? zlen value) || bool_decide (name ∈ names)
               || negb (bool_decide (perm_state (evaluate p PERMISSION_ENV name) = State_GRANTED))
            then inl "invalid, duplicate, or unauthorized environment entry"%string
            else
              let size := size + zlen name + zlen value in
              if 48 * 1024 <? size then inl "environment snapshot is too large"%string
              else match compile_env p sources (names ∪ {[ name ]}) size with
              | inl error => inl error
              | inr rest => inr ((name, value) :: rest)
              end
      | _, _ => inl "invalid environment entry descriptor"%string
      end
  end.

(** On an error the caller's policy is left as it is. *)
Definition configure_capability (policy : option capsid_capability_policy) : string + CapabilityPolicy :=
  match policy with
  | None => inr new_CapabilityPolicy
  | Some d =>
      let version_1 := (cap_version d =? 1) && (cap_struct_size d =? offsetof_env_entries) in
      let version_2 := (cap_version d =? 2) && (cap_struct_size d =? sizeof_capability_policy) in
      if (negb version_1 && negb version_2) || negb (cap_reserved d =? 0)
         || (version_2 && negb (cap_env_reserved d =? 0)) || (64 <? cap_module_count d)
         || (negb (cap_module_count d =? 0) && bool_decide (cap_modules d = None))
         || (256 <? cap_rule_count d) || (negb (cap_rule_count d =? 0) && bool_decide (cap_rules d = None))
         || (version_2 && (256 <? cap_env_count d))
         || (version_2 && negb (cap_env_count d =? 0) && bool_decide (cap_env_entries d = None))
      then inl "invalid capability policy descriptor"%string
      else
        let identity := match cap_identity d with Some text => cut_nul text | None => [] end in
        if negb (valid_identity identity) then inl "invalid application identity"%string
        else match compile_modules (ztake (cap_module_count d) (default [] (cap_modules d))) ∅ with
        | inl error => inl error
        | inr modules =>
            match compile_permission_rules (ztake (cap_rule_count d) (default [] (cap_rules d))) ∅ with
            | inl error => inl error
            | inr rs =>
                let net := match cap_net_policy d with None => inr None | Some n =>
                  match configure (Some n) with inl _ => inl tt | inr e => inr (Some e) end end in
                match net with
                | inl _ => inl "invalid capability net policy"%string
                | inr net =>
                    let p := mkCapabilityPolicy true (cap_version d) identity modules rs []
                               (bool_decide (is_Some net)) (default new_EgressPolicy net) in
                    let count := if version_2 then cap_env_count d else 0 in
                    if negb (count =? 0)
                       && negb (bool_decide (module_decision p (bs "capsid:env") = kModuleGranted))
                    then inl "environment entries require an authorized capsid:env module"%string
                    else match compile_env p (ztake count (default [] (cap_env_entries d))) ∅ 0 with
                    | inl error => inl error
                    | inr entries =>
                        inr (mkCapabilityPolicy true (cap_version d) identity modules rs entries
                               (has_net_policy p) (net_policy p))
                    end
                end
            end
        end
  end.
End policy.

(** ** Paths

    [body] spells a list of components, each after its slash. A path resolves
    to the directory stack its segments leave, and never climbs past the root. *)

Definition body (cs : list bytes) : bytes := List.concat (map (cons Byte.x2f) cs).
Definition text_of (cs : list bytes) : bytes := match cs with [] => bs "/" | _ => body cs end.
Definition plain (c : bytes) : Prop := ¬ (Byte.x2f ∈ c).
Definition ordinary (c : bytes) : Prop := plain c ∧ c ≠ [] ∧ c ≠ bs "." ∧ c ≠ bs "..".

Inductive resolves : list bytes → list bytes → Prop :=
| resolves_nil : resolves [] []
| resolves_stay segs cs c : resolves segs cs → c = [] ∨ c = bs "." → resolves (segs ++ [c]) cs
| resolves_up segs cs d : resolves segs (cs ++ [d]) → resolves (segs ++ [bs ".."]) cs
| resolves_down segs cs c : resolves segs cs → ordinary c → resolves (segs ++ [c]) (cs ++ [c]).

(** [cs] are the components of the absolute path [input]. *)
Definition names (input : bytes) (cs : list bytes) : Prop :=
  ∃ segs, input = body segs ∧ segs ≠ [] ∧ Forall plain segs ∧ resolves segs cs.

Lemma body_app a b : body (a ++ b) = body a ++ body b.
Proof. unfold body. by rewrite map_app, concat_app. Qed.

Lemma body_cons c cs : body (c :: cs) = Byte.x2f :: c ++ body cs.
Proof. done. Qed.

Lemma body_head cs : body cs = [] ∨ ∃ rest, body cs = Byte.x2f :: rest.
Proof. destruct cs as [|c cs]; [by left|]. right. by exists (c ++ body cs). Qed.

Lemma split_on_spec s acc : plain acc →
  let segs := split_on Byte.x2f s acc in
  Forall plain segs ∧ segs ≠ [] ∧ body segs = Byte.x2f :: acc ++ s.
Proof.
  revert acc. induction s as [|d s IH]; intros acc Hacc; cbn [split_on].
  { split_and!; [by repeat constructor|done|]. by rewrite body_cons. }
  destruct (decide (d = Byte.x2f)) as [->|Hd].
  - rewrite (bool_decide_eq_true_2 _ eq_refl).
    destruct (IH [] (not_elem_of_nil _)) as (Hp & Hne & Hb). split_and!; [by constructor|done|].
    by rewrite body_cons, Hb.
  - rewrite (bool_decide_eq_false_2 _ Hd).
    destruct (IH (acc ++ [d])) as (Hp & Hne & Hb).
    { unfold plain. rewrite elem_of_app, list_elem_of_singleton. intros [Hin|Hin]; [by apply Hacc|by apply Hd]. }
    split_and!; [done|done|]. by rewrite Hb, <- app_assoc.
Qed.

(** Text up to the next slash is determined by the whole. *)
Lemma piece_unique a b x y : plain a → plain b →
  (x = [] ∨ ∃ r, x = Byte.x2f :: r) → (y = [] ∨ ∃ r, y = Byte.x2f :: r) →
  a ++ x = b ++ y → a = b ∧ x = y.
Proof.
  unfold plain. revert b. induction a as [|c a IH]; intros [|d b] Ha Hb Hx Hy Heq; cbn in Heq.
  - done.
  - destruct Hx as [->|[r ->]]; simplify_eq. exfalso. apply Hb. by left.
  - destruct Hy as [->|[r ->]]; simplify_eq. exfalso. apply Ha. by left.
  - simplify_eq. assert (¬ (Byte.x2f ∈ a)) as Ha' by (intros Hin; apply Ha; by right).
    assert (¬ (Byte.x2f ∈ b)) as Hb' by (intros Hin; apply Hb; by right).
    by destruct (IH b Ha' Hb' Hx Hy) as [-> ->].
Qed.

Lemma body_inj a b : Forall plain a → Forall plain b → body a = body b → a = b.
Proof.
  revert b. induction a as [|c a IH]; intros [|d b] Ha Hb Heq; try done.
  rewrite !body_cons in Heq. injection Heq as Heq. inversion_clear Ha as [|? ? Hc Ha']. inversion_clear Hb as [|? ? Hd Hb'].
  destruct (piece_unique c d (body a) (body b) Hc Hd (body_head a) (body_head b) Heq) as [-> Heq'].
  by rewrite (IH b).
Qed.

Lemma path_loop_snoc segs c stack :
  path_loop (segs ++ [c]) stack = path_loop segs stack ≫= λ out, path_loop [c] (rev out).
Proof.
  revert stack. induction segs as [|d segs IH]; intros stack.
  { transitivity (path_loop [c] (rev (rev stack))); [by rewrite rev_involutive|done]. }
  cbn [path_loop app].
  destruct (bool_decide (d = []) || bool_decide (d = bs ".")); [apply IH|].
  destruct (bool_decide (d = bs "..")); [|apply IH]. destruct stack; [done|apply IH].
Qed.

Lemma path_loop_resolves segs cs : Forall plain segs → path_loop segs [] = Some cs ↔ resolves segs cs.
Proof.
  intros Hp. split.
  - revert cs. induction segs as [|c segs IH] using rev_ind; intros cs Hl.
    { cbn in Hl. simplify_eq. constructor. }
    apply Forall_app in Hp as [Hp Hc]. inversion_clear Hc as [|? ? Hplain _].
    rewrite path_loop_snoc in Hl. destruct (path_loop segs []) as [out|] eqn:E; [|done].
    specialize (IH Hp out eq_refl). cbn [mbind option_bind path_loop] in Hl.
    destruct (bool_decide (c = []) || bool_decide (c = bs ".")) eqn:Hs.
    { rewrite rev_involutive in Hl. simplify_eq. apply resolves_stay; [done|].
      apply orb_true_iff in Hs as [Hs|Hs]; apply bool_decide_eq_true_1 in Hs; auto. }
    apply orb_false_iff in Hs as [Hs1 Hs2]. apply bool_decide_eq_false_1 in Hs1, Hs2.
    destruct (decide (c = bs "..")) as [->|Hup].
    + rewrite (bool_decide_eq_true_2 _ eq_refl) in Hl. destruct (rev out) as [|d st] eqn:Hr; [done|].
      simplify_eq. apply (resolves_up _ _ d).
      rewrite <- (rev_involutive out), Hr in IH. exact IH.
    + rewrite (bool_decide_eq_false_2 _ Hup) in Hl. cbn [rev] in Hl. rewrite rev_involutive in Hl.
      simplify_eq. by apply resolves_down.
  - induction 1 as [|segs cs c H IH Hc|segs cs d H IH|segs cs c H IH Hc]; [done|..];
      apply Forall_app in Hp as [Hp _]; rewrite path_loop_snoc, IH by done; cbn [mbind option_bind path_loop].
    + destruct Hc as [->| ->]; cbn; by rewrite rev_involutive.
    + rewrite rev_app_distr. cbn. by rewrite rev_involutive.
    + destruct Hc as (_ & H1 & H2 & H3). rewrite !bool_decide_eq_false_2 by done. cbn.
      by rewrite rev_involutive.
Qed.

Lemma resolves_ordinary segs cs : resolves segs cs → Forall ordinary cs.
Proof.
  induction 1 as [|segs cs c H IH Hc|segs cs d H IH|segs cs c H IH Hc]; [constructor|done|..].
  - by apply Forall_app in IH as [IH _].
  - apply Forall_app. split; [done|by apply Forall_singleton].
Qed.

Lemma ordinary_plain cs : Forall ordinary cs → Forall plain cs.
Proof. intros Hall. apply (Forall_impl _ _ _ Hall). by intros c []. Qed.

Lemma resolves_self cs : Forall ordinary cs → resolves cs cs.
Proof.
  induction cs as [|c cs IH] using rev_ind; intros Hall; [constructor|].
  apply Forall_app in Hall as [Hall Hc]. inversion_clear Hc. apply resolves_down; auto.
Qed.

Lemma last_is_app s c d : last_is (s ++ [c]) d = bool_decide (c = d).
Proof.
  unfold last_is. rewrite last_snoc. destruct (decide (c = d)) as [->|Hne].
  - by rewrite !bool_decide_eq_true_2.
  - rewrite !bool_decide_eq_false_2; [done| |]; congruence.
Qed.

Lemma last_is_ordinary s c : ordinary c → last_is (s ++ c) Byte.x2f = false.
Proof.
  intros (Hp & Hne & _). destruct c as [|d c _] using rev_ind; [done|].
  rewrite app_assoc, last_is_app. apply bool_decide_eq_false_2. intros ->. apply Hp.
  apply elem_of_app. right. by left.
Qed.

Lemma path_join_text cs : Forall ordinary cs → path_join cs = text_of cs.
Proof.
  intros Hall. unfold path_join.
  assert (∀ done, Forall ordinary done → ∀ out, out = text_of done →
    fold_left (λ out c, (if negb (last_is out Byte.x2f) then out ++ [Byte.x2f] else out) ++ c) cs out
    = text_of (done ++ cs)) as Hfold.
  { clear -Hall. induction Hall as [|c cs Hc Hall IH]; intros dn Hd out ->; cbn [fold_left].
    { by rewrite app_nil_r. }
    rewrite (IH (dn ++ [c])); [by rewrite <- app_assoc|apply Forall_app; split; [done|by apply Forall_singleton]|].
    destruct dn as [|d dn] using rev_ind; [by cbn; rewrite app_nil_r|clear IHdn].
    apply Forall_app in Hd as [_ Hd]. inversion_clear Hd as [|? ? Hdd _].
    assert (∀ x l, text_of (l ++ [x]) = body l ++ Byte.x2f :: x) as Ht.
    { intros x l. transitivity (body (l ++ [x])); [by destruct l|].
      rewrite body_app. cbn. by rewrite app_nil_r. }
    rewrite !Ht, body_app. cbn [negb]. replace (body dn ++ Byte.x2f :: d) with ((body dn ++ [Byte.x2f]) ++ d)
      by by rewrite <- app_assoc.
    rewrite last_is_ordinary by done. cbn. rewrite app_nil_r, <- !app_assoc. done. }
  rewrite (Hfold [] (Forall_nil_2 _) (bs "/") eq_refl). cbn [app].
  destruct cs as [|c cs _] using rev_ind; [done|].
  apply Forall_app in Hall as [_ Hc]. inversion_clear Hc as [|? ? Hc' _].
  replace (text_of (cs ++ [c])) with ((body cs ++ [Byte.x2f]) ++ c).
  { rewrite last_is_ordinary by done. by rewrite andb_false_r. }
  transitivity (body (cs ++ [c])); [|by destruct cs].
  rewrite body_app, <- app_assoc. cbn. by rewrite app_nil_r.
Qed.

Lemma names_unique input a b : names input a → names input b → a = b.
Proof.
  intros (sa & -> & _ & Ha & Hra) (sb & Heq & _ & Hb & Hrb).
  apply body_inj in Heq as ->; [|done..]. apply path_loop_resolves in Hra, Hrb; [|done..]. congruence.
Qed.

Lemma names_ordinary input cs : names input cs → Forall ordinary cs.
Proof. intros (segs & _ & _ & _ & Hr). by eapply resolves_ordinary. Qed.

Lemma names_text cs : Forall ordinary cs → names (text_of cs) cs.
Proof.
  intros Hall. destruct cs as [|c cs].
  - exists [[]]. split_and!; [done|done|by apply Forall_singleton, not_elem_of_nil|].
    apply (resolves_stay [] [] []); [constructor|by left].
  - exists (c :: cs). split_and!; [done|done|by apply ordinary_plain|by apply resolves_self].
Qed.

Lemma normalize_path_spec input v :
  normalize_path input = Some v ↔ zlen input <= 4096 ∧ ∃ cs, names input cs ∧ v = text_of cs.
Proof.
  unfold normalize_path. destruct input as [|c input]; cbn [byte_at].
  { split; [done|]. intros (_ & cs & ([|s segs] & Heq & Hne & _) & _); done. }
  rewrite bool_decide_eq_false_2 by done. cbn [orb]. destruct (Z.ltb_spec 4096 (zlen (c :: input))).
  { split; [done|lia]. }
  change (byte_at (c :: input) 0) with (u8 c). destruct (Z.eqb_spec (u8 c) 47) as [Hc|Hc]; cbn [negb].
  2:{ split; [done|]. intros (_ & cs & ([|s segs] & Heq & Hne & _) & _); [done|].
      rewrite body_cons in Heq. by simplify_eq. }
  assert (c = Byte.x2f) as -> by (apply u8_inj; exact Hc). change (zdrop 1 (Byte.x2f :: input)) with input.
  destruct (split_on_spec input [] (not_elem_of_nil _)) as (Hp & Hne & Hb). cbn [app] in Hb.
  rewrite fmap_Some. split.
  - intros (cs & Hl & ->). apply path_loop_resolves in Hl; [|done]. split; [done|]. exists cs.
    split; [by eexists|]. eapply path_join_text, resolves_ordinary, Hl.
  - intros (_ & cs & Hn & ->). exists cs. split.
    + destruct Hn as (segs & Heq & _ & Hs & Hr). rewrite <- Hb in Heq. apply body_inj in Heq as ->; [|done..].
      by apply path_loop_resolves.
    + symmetry. by eapply path_join_text, names_ordinary.
Qed.

Lemma text_of_cons c cs : text_of (c :: cs) = body (c :: cs).
Proof. done. Qed.

Lemma body_prefix a b rest : Forall plain a → Forall plain b →
  body a = body b ++ rest → (rest = [] ∨ ∃ r, rest = Byte.x2f :: r) → b `prefix_of` a.
Proof.
  intros Ha Hb. revert a Ha. induction Hb as [|d b Hd Hb IH]; intros a Ha Heq Hr; [apply prefix_nil|].
  destruct Ha as [|c a Hc Ha]; [done|]. rewrite !body_cons in Heq. cbn [app] in Heq.
  injection Heq as Heq. rewrite <- app_assoc in Heq.
  apply piece_unique in Heq as [-> Heq]; [|done|done|apply body_head|].
  - apply prefix_cons. by apply (IH a).
  - destruct (body_head b) as [->|[r ->]]; [done|]. right. by eexists.
Qed.

(** The textual test of a scope is the prefix order on components. *)
Lemma path_matches_spec a b : Forall ordinary a → Forall ordinary b →
  path_matches (text_of a) (text_of b) = true ↔ b `prefix_of` a.
Proof.
  intros Ha Hb. pose proof (ordinary_plain _ Ha) as Hpa. pose proof (ordinary_plain _ Hb) as Hpb.
  destruct b as [|d b].
  { unfold path_matches. rewrite bool_decide_eq_true_2 by done. split; [intros _; apply prefix_nil|done]. }
  assert (text_of (d :: b) ≠ bs "/") as Hroot.
  { rewrite text_of_cons, body_cons. inversion_clear Hb as [|? ? (_ & Hd & _) _]. by destruct d. }
  unfold path_matches. rewrite (bool_decide_eq_false_2 _ Hroot). cbn [orb]. rewrite orb_true_iff, bool_decide_eq_true.
  split.
  - intros [Heq|Hm].
    + destruct a as [|c a]; [by rewrite <- Heq in Hroot|]. apply body_inj in Heq; [|done..]. by rewrite Heq.
    + apply andb_true_iff in Hm as [Hm Ht]. apply andb_true_iff in Hm as [Hl Hs].
      apply Z.ltb_lt in Hl. apply Z.eqb_eq in Hs. apply bool_decide_eq_true_1 in Ht.
      destruct a as [|c a].
      { exfalso. rewrite text_of_cons, body_cons in Hl. inversion_clear Hb as [|? ? (_ & Hd & _) _].
        destruct d; [done|]. change (zlen (text_of [])) with 1 in Hl. autorewrite with zlist in Hl. zlen_pose. lia. }
      change (text_of (c :: a)) with (body (c :: a)) in *. change (text_of (d :: b)) with (body (d :: b)) in *.
      set (x := body (c :: a)) in *. set (y := body (d :: b)) in *.
      apply (body_prefix _ _ (zdrop (zlen y) x)); [done..| |].
      * fold x y. transitivity (ztake (zlen y) x ++ zdrop (zlen y) x); [by rewrite ztake_zdrop|by rewrite Ht].
      * right. zlen_pose.
        pose proof (byte_at_zdrop x (zlen y) 0 ltac:(lia) ltac:(lia)) as Hat.
        rewrite Z.add_0_r in Hat.
        rewrite Hs in Hat. destruct (zdrop (zlen y) x) as [|e rest]; [done|].
        exists rest. f_equal. by apply u8_inj.
  - intros [k Hk]. destruct a as [|c a]; [done|]. rewrite text_of_cons, Hk. rewrite text_of_cons. rewrite body_app.
    destruct k as [|e k]; [left; by rewrite app_nil_r|]. right. rewrite (body_cons e k).
    rewrite ztake_app by done. rewrite bool_decide_eq_true_2 by done. rewrite andb_true_r.
    set (y := body (d :: b)). apply andb_true_iff. split.
    + apply Z.ltb_lt. rewrite zlen_app, zlen_cons. pose proof (zlen_nonneg (e ++ body k)). lia.
    + apply Z.eqb_eq. transitivity (byte_at (zdrop (zlen y) (y ++ Byte.x2f :: e ++ body k)) 0).
      * rewrite byte_at_zdrop by (pose proof (zlen_nonneg y); lia). by rewrite Z.add_0_r.
      * by rewrite zdrop_app.
Qed.

(** ** What compilation establishes *)

(** A resource in the form a rule of the permission carries. *)
Definition scope_ok (permission : capsid_permission_name) (resource : bytes) : Prop :=
  normalize_rule_resource permission (Some resource) = Some resource.

Definition rule_ok (r : PermRule) : Prop :=
  r_id r ≠ 0 ∧ generic_permission (r_permission r) = true ∧ scope_ok (r_permission r) (r_resource r).

Definition module_ok (name : bytes) : Prop :=
  zlen name <= 128 ∧ module_forbidden name = false ∧ module_known name = true.

Definition entry_ok (p : CapabilityPolicy) (e : bytes * bytes) : Prop :=
  valid_env_name e.1 = true ∧ zlen e.2 <= 16384 ∧ perm_state (evaluate p PERMISSION_ENV e.1) = State_GRANTED.

Definition payload (es : list (bytes * bytes)) : Z :=
  foldr (λ e n, zlen e.1 + zlen e.2 + n) 0 es.

Record policy_wf (p : CapabilityPolicy) : Prop := {
  wf_enabled : enabled p = true;
  wf_version : version p = 1 ∨ version p = 2;
  wf_identity : valid_identity (application_identity p) = true;
  wf_modules : NoDup (allowed_modules p) ∧ Forall module_ok (allowed_modules p)
               ∧ zlen (allowed_modules p) <= 64;
  wf_rules : NoDup (map r_id (perm_rules p)) ∧ Forall rule_ok (perm_rules p) ∧ zlen (perm_rules p) <= 256;
  wf_env : NoDup (map fst (env_entries p)) ∧ Forall (entry_ok p) (env_entries p)
           ∧ payload (env_entries p) <= 48 * 1024;
  wf_env_module : env_entries p ≠ [] → version p = 2 ∧ module_decision p (bs "capsid:env") = kModuleGranted
}.

Lemma cut_nul_idem s : cut_nul (cut_nul s) = cut_nul s.
Proof.
  induction s as [|c s IH]; [done|]. cbn [cut_nul]. destruct (bool_decide (c = Byte.x00)) eqn:E; [done|].
  cbn [cut_nul]. by rewrite E, IH.
Qed.

Lemma normalize_rule_scope permission input resource :
  normalize_rule_resource permission input = Some resource → scope_ok permission resource.
Proof.
  unfold scope_ok, normalize_rule_resource. destruct (decide (permission = PERMISSION_RAW_SOCKET)) as [->|Hp].
  { rewrite !bool_decide_eq_true_2 by done. destruct input as [text|]; unfold keep_if; [|by intros [= <-]].
    split_test; [|done]. by intros [= <-]. }
  rewrite !bool_decide_eq_false_2 by done. destruct input as [text|]; [|done].
  destruct (bool_decide (cut_nul text = []) || (4096 <? zlen (cut_nul text))) eqn:E; [done|].
  intros Heq. assert (resource = cut_nul text) as ->.
  { unfold keep_if in Heq. destruct permission; try done; split_test; by simplify_eq. }
  by rewrite cut_nul_idem, E.
Qed.

Lemma compile_modules_spec names seen ms : compile_modules names seen = inr ms →
  NoDup ms ∧ Forall module_ok ms ∧ zlen ms = zlen names ∧ (∀ m, m ∈ ms → m ∉ seen).
Proof.
  revert seen ms. induction names as [|[text|] names IH]; intros seen ms; cbn [compile_modules]; [|..|done].
  { intros [= <-]. split_and!; [constructor|constructor|done|]. intros m Hm. by apply not_elem_of_nil in Hm. }
  destruct (_ || _ || _ || _) eqn:E; [done|]. bools.
  destruct (compile_modules names _) as [|rest] eqn:Hr; [done|]. intros [= <-].
  destruct (IH _ _ Hr) as (Hnd & Hall & Hlen & Hseen). split_and!.
  - constructor; [|done]. intros Hin. apply Hseen in Hin. by apply not_elem_of_union in Hin as [_ []%not_elem_of_singleton].
  - constructor; [by split_and!|done].
  - rewrite !zlen_cons. lia.
  - intros m [->|Hm]%elem_of_cons; [done|]. apply Hseen in Hm. by apply not_elem_of_union in Hm as [Hm _].
Qed.

Lemma permission_of_generic v : 1 <= v → v <= 10 → v ≠ 3 → generic_permission (permission_of v) = true.
Proof.
  intros H1 H2 H3. assert (v = 1 ∨ v = 2 ∨ v = 4 ∨ v = 5 ∨ v = 6 ∨ v = 7 ∨ v = 8 ∨ v = 9 ∨ v = 10) as Hv by lia.
  by destruct_or!; subst.
Qed.

Lemma compile_rules_spec sources ids rs : compile_permission_rules sources ids = inr rs →
  NoDup (map r_id rs) ∧ Forall rule_ok rs ∧ zlen rs = zlen sources ∧ (∀ r, r ∈ rs → r_id r ∉ ids).
Proof.
  revert ids rs. induction sources as [|src sources IH]; intros ids rs; cbn [compile_permission_rules].
  { intros [= <-]. split_and!; [constructor|constructor|done|]. intros r Hr. by apply not_elem_of_nil in Hr. }
  destruct (_ || _ || _ || _ || _ || _ || _ || _) eqn:E; [done|]. bools.
  destruct (normalize_rule_resource _ _) as [resource|] eqn:Hn; [|done].
  destruct (compile_permission_rules sources _) as [|rest] eqn:Hr; [done|]. intros [= <-].
  destruct (IH _ _ Hr) as (Hnd & Hall & Hlen & Hseen). split_and!.
  - cbn [map r_id]. constructor; [|done]. intros (r & Hid & Hin)%list_elem_of_fmap.
    apply Hseen in Hin. rewrite <- Hid in Hin. by apply not_elem_of_union in Hin as [_ []%not_elem_of_singleton].
  - constructor; [|done]. split_and!; [done|by apply permission_of_generic|by eapply normalize_rule_scope].
  - rewrite !zlen_cons. lia.
  - intros r [->|Hin]%elem_of_cons; [done|]. apply Hseen in Hin. by apply not_elem_of_union in Hin as [Hin _].
Qed.

(** Each compiled rule carries its source's fields. *)
Definition compiled_from (source : capsid_permission_rule) (r : PermRule) : Prop :=
  r_action r = permission_action_of (prule_action source)
  ∧ r_permission r = permission_of (prule_permission source)
  ∧ normalize_rule_resource (r_permission r) (prule_resource source) = Some (r_resource r)
  ∧ r_id r = prule_id source.

Lemma compile_rules_from sources ids rs : compile_permission_rules sources ids = inr rs →
  Forall2 compiled_from sources rs.
Proof.
  revert ids rs. induction sources as [|src sources IH]; intros ids rs; cbn [compile_permission_rules].
  { intros [= <-]. constructor. }
  destruct (_ || _ || _ || _ || _ || _ || _ || _); [done|].
  destruct (normalize_rule_resource _ _) as [resource|] eqn:Hn; [|done].
  destruct (compile_permission_rules sources _) as [|rest] eqn:Hr; [done|]. intros [= <-].
  constructor; [by split_and!|by eapply IH].
Qed.

Lemma compile_env_spec p sources names size es : 0 <= size <= 48 * 1024 →
  compile_env p sources names size = inr es →
  NoDup (map fst es) ∧ Forall (entry_ok p) es ∧ size + payload es <= 48 * 1024
  ∧ (∀ e, e ∈ es → e.1 ∉ names) ∧ zlen es = zlen sources.
Proof.
  revert names size es. induction sources as [|src sources IH]; intros names size es Hsz; cbn [compile_env].
  { intros [= <-]. split_and!; [constructor|constructor|cbn; lia| |done]. intros e He. by apply not_elem_of_nil in He. }
  destruct (env_name src) as [name|]; [|done]. destruct (env_text src) as [value|]; [|done].
  destruct (_ || _); [done|]. cbv zeta. destruct (_ || _ || _ || _) eqn:E; [done|]. bools.
  destruct (48 * 1024 <? _) eqn:El; [done|]. bools.
  destruct (compile_env p sources _ _) as [|rest] eqn:Hr; [done|]. intros [= <-].
  pose proof (zlen_nonneg (cut_nul name)). pose proof (zlen_nonneg (cut_nul value)).
  destruct (IH _ (size + zlen (cut_nul name) + zlen (cut_nul value)) _ ltac:(lia) Hr) as (Hnd & Hall & Hpay & Hseen & Hlen). split_and!.
  - cbn [map fst]. constructor; [|done]. intros (e & Hid & Hin)%list_elem_of_fmap.
    apply Hseen in Hin. rewrite <- Hid in Hin. by apply not_elem_of_union in Hin as [_ []%not_elem_of_singleton].
  - constructor; [|done]. by split_and!.
  - cbn [payload foldr fst snd]. fold (payload rest). lia.
  - intros e [->|Hin]%elem_of_cons; [done|]. apply Hseen in Hin. by apply not_elem_of_union in Hin as [Hin _].
  - rewrite !zlen_cons. lia.
Qed.

(** ** What a decision means *)

(** The longest of the candidates, when there is one. *)
Definition best_of (C : PermRule → Prop) (best : option PermRule) : Prop :=
  match best with
  | None => ∀ r, ¬ C r
  | Some b => C b ∧ ∀ r, C r → zlen (r_resource r) <= zlen (r_resource b)
  end.

Definition candidate (p : CapabilityPolicy) (permission : capsid_permission_name) (resource : bytes)
    (action : capsid_permission_action) (r : PermRule) : Prop :=
  r ∈ perm_rules p ∧ r_permission r = permission ∧ rule_matches r resource = true ∧ r_action r = action.

Lemma best_of_proper (C D : PermRule → Prop) best : (∀ r, C r ↔ D r) → best_of C best → best_of D best.
Proof.
  intros Hiff. destruct best as [b|]; cbn.
  - intros [Hb Hmax]. split; [by apply Hiff|]. intros r Hr. by apply Hmax, Hiff.
  - intros Hno r Hr. by apply (Hno r), Hiff.
Qed.

Lemma best_of_longer C best r : best_of C best → best_of (λ x, C x ∨ x = r) (longer best r).
Proof.
  destruct best as [b|]; cbn.
  - intros [Hb Hmax]. destruct (Z.ltb_spec (zlen (r_resource b)) (zlen (r_resource r))); cbn;
      (split; [by auto|]); intros x [Hx| ->]; try lia; apply Hmax in Hx; lia.
  - intros Hno. split; [by right|]. intros x [Hx| ->]; [by apply Hno in Hx|lia].
Qed.

Lemma evaluate_loop_spec permission resource rs Ca Cd allow deny :
  best_of Ca allow → best_of Cd deny →
  let added := λ action r, r ∈ rs ∧ r_permission r = permission ∧ rule_matches r resource = true
                           ∧ r_action r = action in
  let result := evaluate_loop permission resource rs allow deny in
  best_of (λ r, Ca r ∨ added PERMISSION_ALLOW r) result.1
  ∧ best_of (λ r, Cd r ∨ added PERMISSION_DENY r) result.2.
Proof.
  cbn zeta. revert Ca Cd allow deny. induction rs as [|r rs IH]; intros Ca Cd allow deny Ha Hd; cbn [evaluate_loop].
  { split; [eapply (best_of_proper Ca); [|done]|eapply (best_of_proper Cd); [|done]]; intros x;
      rewrite elem_of_nil; tauto. }
  destruct (decide (r_permission r = permission ∧ rule_matches r resource = true)) as [[Hp Hm]|Hno].
  - rewrite (bool_decide_eq_true_2 _ Hp), Hm. cbn [negb orb]. destruct (r_action r) eqn:Hact.
    + rewrite bool_decide_eq_true_2 by done.
      destruct (IH _ _ _ _ Ha (best_of_longer _ _ r Hd)) as [H1 H2].
      split; [eapply best_of_proper; [|exact H1]|eapply best_of_proper; [|exact H2]]; cbn beta; intros x;
        rewrite elem_of_cons; intuition (subst; (congruence || tauto)).
    + rewrite bool_decide_eq_false_2 by done.
      destruct (IH _ _ _ _ (best_of_longer _ _ r Ha) Hd) as [H1 H2].
      split; [eapply best_of_proper; [|exact H1]|eapply best_of_proper; [|exact H2]]; cbn beta; intros x;
        rewrite elem_of_cons; intuition (subst; (congruence || tauto)).
  - replace (negb (bool_decide (r_permission r = permission)) || negb (rule_matches r resource)) with true.
    + destruct (IH _ _ _ _ Ha Hd) as [H1 H2].
      split; [eapply best_of_proper; [|exact H1]|eapply best_of_proper; [|exact H2]]; cbn beta; intros x;
        rewrite elem_of_cons; intuition (subst; tauto).
    + symmetry. destruct (decide (r_permission r = permission)) as [Hp|Hp].
      * destruct (rule_matches r resource); [tauto|]. by rewrite orb_true_r.
      * by rewrite bool_decide_eq_false_2.
Qed.

(** A decision names the longest matching rule of the side that decided, and a
    deny rule decides whenever one matches. *)
Lemma evaluate_spec p permission input resource : enabled p = true → generic_permission permission = true →
  normalize_query_resource permission input = Some resource →
  ∃ allow deny, best_of (candidate p permission resource PERMISSION_ALLOW) allow
    ∧ best_of (candidate p permission resource PERMISSION_DENY) deny
    ∧ evaluate p permission input = match deny, allow with
      | Some r, _ => mkPermission State_DENIED (r_id r) resource
      | None, Some r => mkPermission State_GRANTED (r_id r) resource
      | None, None => mkPermission State_DENIED 0 resource
      end.
Proof.
  intros He Hg Hn. unfold evaluate. rewrite He, Hg, Hn. cbn [negb orb].
  destruct (evaluate_loop_spec permission resource (perm_rules p) (λ _, False) (λ _, False) None None)
    as [Ha Hd]; [by intros ? []..|].
  destruct (evaluate_loop _ _ _ _ _) as [allow deny]. cbn [fst snd] in Ha, Hd. exists allow, deny.
  split; [eapply best_of_proper; [|exact Ha]; unfold candidate; tauto|].
  split; [eapply best_of_proper; [|exact Hd]; unfold candidate; tauto|].
  by destruct deny, allow.
Qed.

Lemma evaluate_granted p permission input : enabled p = true → generic_permission permission = true →
  perm_state (evaluate p permission input) = State_GRANTED ↔
  ∃ resource, normalize_query_resource permission input = Some resource
    ∧ (∃ r, candidate p permission resource PERMISSION_ALLOW r)
    ∧ (∀ r, ¬ candidate p permission resource PERMISSION_DENY r).
Proof.
  intros He Hg. destruct (normalize_query_resource permission input) as [resource|] eqn:Hn.
  - destruct (evaluate_spec p permission input resource He Hg Hn) as (allow & deny & Ha & Hd & ->).
    destruct deny as [d|]; cbn in Hd.
    + split; [done|]. intros (x & [= <-] & _ & Hno). by destruct (Hno d), Hd.
    + destruct allow as [a|]; cbn in Ha.
      * split; [|done]. intros _. exists resource. split_and!; [done|exists a; by apply Ha|done].
      * split; [done|]. intros (x & [= <-] & [r Hr] & _). by destruct (Ha r).
  - unfold evaluate. rewrite He, Hg, Hn. cbn. split; [done|]. by intros (x & ? & _).
Qed.

Section theorems.
Context `{InetPton}.

Lemma configured_wf d p : 0 <= cap_module_count d → 0 <= cap_rule_count d →
  configure_capability (Some d) = inr p → policy_wf p.
Proof.
  intros Hm Hr. unfold configure_capability. cbv zeta.
  set (v1 := (cap_version d =? 1) && (cap_struct_size d =? offsetof_env_entries)).
  set (v2 := (cap_version d =? 2) && (cap_struct_size d =? sizeof_capability_policy)).
  destruct ((negb v1 && negb v2) || _ || _ || _ || _ || _ || _ || _ || _) eqn:E; [done|].
  repeat match type of E with _ || _ = false => apply orb_false_iff in E as [E ?] end.
  destruct (negb (valid_identity _)) eqn:Hi; [done|]. apply negb_false_iff in Hi.
  destruct (compile_modules _ _) as [|ms] eqn:Hms; [done|].
  destruct (compile_permission_rules _ _) as [|rs] eqn:Hrs; [done|].
  destruct (match cap_net_policy d with None => _ | Some _ => _ end) as [|net]; [done|].
  destruct (_ && negb (bool_decide (module_decision _ _ = _))) eqn:Hem; [done|].
  destruct (compile_env _ _ _ _) as [|es] eqn:Hes; [done|]. intros [= <-].
  apply compile_modules_spec in Hms as (Hm1 & Hm2 & Hm3 & _).
  apply compile_rules_spec in Hrs as (Hr1 & Hr2 & Hr3 & _).
  apply compile_env_spec in Hes as (He1 & He2 & He3 & _ & He5); [|lia].
  pose proof (zlen_ztake_le (cap_module_count d) (default [] (cap_modules d)) Hm).
  pose proof (zlen_ztake_le (cap_rule_count d) (default [] (cap_rules d)) Hr).
  bools. split; cbn [enabled version application_identity allowed_modules perm_rules env_entries]; try done.
  - destruct v1 eqn:Ev1, v2 eqn:Ev2; subst v1 v2; bools; auto; discriminate.
  - split_and!; [done|done|]. lia.
  - split_and!; [done|done|]. lia.
  - intros Hne. destruct v2 eqn:Ev2.
    + subst v2. bools. split; [done|]. apply andb_false_iff in Hem as [Hc|Hc]; bools; [|done].
      exfalso. apply Hne, zlen_zero. rewrite He5. pose proof (zlen_nonneg es). rewrite Hc in *. done.
    + exfalso. apply Hne, zlen_zero. by rewrite He5.
Qed.

Lemma configured_rules d p : configure_capability (Some d) = inr p →
  Forall2 compiled_from (ztake (cap_rule_count d) (default [] (cap_rules d))) (perm_rules p).
Proof.
  unfold configure_capability. cbv zeta.
  destruct (_ || _ || _ || _ || _ || _ || _ || _ || _); [done|]. destruct (negb _); [done|].
  destruct (compile_modules _ _) as [|ms]; [done|].
  destruct (compile_permission_rules _ _) as [|rs] eqn:Hrs; [done|].
  destruct (match cap_net_policy d with None => _ | Some _ => _ end) as [|net]; [done|].
  destruct (_ && negb (bool_decide (module_decision _ _ = _))); [done|].
  destruct (compile_env _ _ _ _) as [|es]; [done|]. intros [= <-]. by eapply compile_rules_from.
Qed.

Definition path_permission (permission : capsid_permission_name) : Prop :=
  permission = PERMISSION_READ ∨ permission = PERMISSION_WRITE ∨ permission = PERMISSION_FFI.

Lemma scope_names permission resource : path_permission permission → scope_ok permission resource →
  ∃ cs, names resource cs ∧ resource = text_of cs.
Proof.
  intros Hp Hs. assert (normalize_path resource = Some resource) as Hn.
  { revert Hs. unfold scope_ok, normalize_rule_resource. rewrite bool_decide_eq_false_2
      by (destruct Hp as [->|[->| ->]]; done).
    destruct (_ || _); [done|]. intros Hk.
    assert (keep_if (bool_decide (normalize_path (cut_nul resource) = Some (cut_nul resource))) (cut_nul resource)
      = Some resource) as Hk' by (destruct Hp as [->|[->| ->]]; done).
    unfold keep_if in Hk'. case_bool_decide as Hb; [|done]. injection Hk' as Hc. by rewrite Hc in Hb. }
  apply normalize_path_spec in Hn as (_ & cs & Hcs & Heq). by exists cs.
Qed.

(** The rule's scope holds the path: its components begin the path's. *)
Definition covers (p : CapabilityPolicy) (permission : capsid_permission_name)
    (action : capsid_permission_action) (cs : list bytes) : Prop :=
  ∃ r scope, r ∈ perm_rules p ∧ r_permission r = permission ∧ r_action r = action
    ∧ names (r_resource r) scope ∧ scope `prefix_of` cs.

Lemma candidate_covers p permission action cs : Forall rule_ok (perm_rules p) →
  path_permission permission → Forall ordinary cs →
  (∃ r, candidate p permission (text_of cs) action r) ↔ covers p permission action cs.
Proof.
  intros Hok Hp Hcs.
  assert (∀ r, r ∈ perm_rules p → r_permission r = permission → ∃ sc, names (r_resource r) sc
    ∧ (rule_matches r (text_of cs) = true ↔ sc `prefix_of` cs)) as Hrule.
  { intros r Hin Hr. rewrite Forall_forall in Hok. destruct (Hok r Hin) as (_ & _ & Hs). rewrite Hr in Hs.
    destruct (scope_names _ _ Hp Hs) as (sc & Hn & Heq). exists sc. split; [done|].
    rewrite <- path_matches_spec; [|done|by eapply names_ordinary]. rewrite <- Heq.
    unfold rule_matches. rewrite Hr. by destruct Hp as [->|[->| ->]]. }
  split.
  - intros (r & Hin & Hr & Hm & Ha). destruct (Hrule r Hin Hr) as (sc & Hn & Hiff).
    exists r, sc. split_and!; [done..|by apply Hiff].
  - intros (r & sc & Hin & Hr & Ha & Hn & Hpre). destruct (Hrule r Hin Hr) as (sc' & Hn' & Hiff).
    exists r. split_and!; try done. apply Hiff. by rewrite (names_unique _ _ _ Hn' Hn).
Qed.

(** Access to a path under a well-formed policy. *)
Lemma path_access p permission input : policy_wf p → path_permission permission →
  perm_state (evaluate p permission input) = State_GRANTED ↔
  zlen input <= 4096 ∧ ∃ cs, names input cs
    ∧ covers p permission PERMISSION_ALLOW cs ∧ ¬ covers p permission PERMISSION_DENY cs.
Proof.
  intros Hwf Hp. destruct (wf_rules p Hwf) as (_ & Hok & _).
  rewrite evaluate_granted; [|by apply wf_enabled|by destruct Hp as [->|[->| ->]]].
  assert (normalize_query_resource permission input = normalize_path input) as ->
    by (by destruct Hp as [->|[->| ->]]).
  split.
  - intros (v & Hn & Ha & Hd). apply normalize_path_spec in Hn as (Hl & cs & Hcs & ->). split; [done|].
    pose proof (names_ordinary _ _ Hcs) as Ho. exists cs. split_and!; [done| |].
    + by apply candidate_covers.
    + intros Hc. apply candidate_covers in Hc as [r Hr]; [|done..]. by destruct (Hd r).
  - intros (Hl & cs & Hcs & Ha & Hd). pose proof (names_ordinary _ _ Hcs) as Ho. exists (text_of cs). split_and!.
    + apply normalize_path_spec. by eauto.
    + by apply candidate_covers in Ha.
    + intros r Hr. apply Hd, candidate_covers; [done..|]. by exists r.
Qed.

(** C32. A path access is decided on the directory the path leads to. Under a
    compiled policy a read, write or FFI permission is granted exactly when the
    path is absolute, no longer than 4096 bytes, never climbs above the root,
    and its components, with the dot segments resolved, begin with those of
    some allow rule and of no deny rule; otherwise the decision is denied. *)
Theorem path_access_exact d p permission input :
  0 <= cap_module_count d → 0 <= cap_rule_count d →
  configure_capability (Some d) = inr p → path_permission permission →
  let state := perm_state (evaluate p permission input) in
  (state = State_GRANTED ↔
   zlen input <= 4096 ∧ ∃ cs, names input cs
     ∧ covers p permission PERMISSION_ALLOW cs ∧ ¬ covers p permission PERMISSION_DENY cs)
  ∧ (state = State_GRANTED ∨ state = State_DENIED).
Proof.
  intros Hm Hr Hc Hp state. split; [by apply path_access, Hp; eapply configured_wf|].
  subst state. unfold evaluate. destruct (_ || _); [by right|]. destruct (normalize_query_resource _ _); [|by right].
  destruct (evaluate_loop _ _ _ _ _) as [[a|] [e|]]; cbn; auto.
Qed.

(** C33. The policy a descriptor compiles to is well formed: it is enabled, its
    modules are known, distinct and not forbidden, its rules have distinct
    non-zero identifiers and resources in canonical form, and its environment
    snapshot is within 48 KiB, has distinct names, is present only in version 2
    with the environment module granted, and holds only variables the same
    policy grants; what [env_value] hands out is therefore always granted. *)
Theorem configured_policy_typed d p :
  0 <= cap_module_count d → 0 <= cap_rule_count d →
  configure_capability (Some d) = inr p →
  policy_wf p ∧ ∀ name value, env_value p name = Some value →
    perm_state (evaluate p PERMISSION_ENV name) = State_GRANTED
    ∧ module_decision p (bs "capsid:env") = kModuleGranted ∧ zlen value <= 16384.
Proof.
  intros Hm Hr Hc. pose proof (configured_wf d p Hm Hr Hc) as Hwf. split; [done|].
  intros name value (e & Hf & ->)%fmap_Some. apply find_some in Hf as [Hin Hb].
  apply bool_decide_eq_true_1 in Hb as <-. apply list_elem_of_In in Hin.
  destruct (wf_env p Hwf) as (_ & Hall & _). rewrite Forall_forall in Hall.
  destruct (Hall e Hin) as (_ & Hv & Hg). split_and!; [done| |done].
  apply wf_env_module; [done|]. intros Hn. rewrite Hn in Hin. by apply not_elem_of_nil in Hin.
Qed.
End theorems.

(** ** Samples *)

Definition sample_rules : list capsid_permission_rule :=
  [mkPermissionRule 32 1 1 (Some (bs "/srv/app")) 1 0;
   mkPermissionRule 32 0 1 (Some (bs "/srv/app/private")) 2 0;
   mkPermissionRule 32 1 4 (Some (bs "APP_*")) 3 0].

Definition sample_policy : capsid_capability_policy :=
  mkCapabilityDescriptor 80 2 (Some (bs "app")) (Some [Some (bs "capsid:env"); Some (bs "capsid:fs")]) 2
    (Some sample_rules) 3 None 0
    (Some [mkEnvEntry 32 (Some (bs "APP_MODE")) (Some (bs "production")) 0]) 1 0.

Definition sample_compiled : CapabilityPolicy :=
  match configure_capability (Some sample_policy) with inr p => p | inl _ => new_CapabilityPolicy end.

Lemma path_access_exact_witness :
  configure_capability (Some sample_policy) = inr sample_compiled
  ∧ (∃ cs, names (bs "/srv/x/../app/./config") cs ∧ covers sample_compiled PERMISSION_READ PERMISSION_ALLOW cs)
  ∧ perm_state (evaluate sample_compiled PERMISSION_READ (bs "/srv/app/a/../private/key")) = State_DENIED.
Proof.
  assert (configure_capability (Some sample_policy) = inr sample_compiled) as Hc by (vm_compute; reflexivity).
  split; [exact Hc|]. split; [|vm_compute; reflexivity].
  destruct (path_access_exact sample_policy sample_compiled PERMISSION_READ (bs "/srv/x/../app/./config"))
    as [[Hg _] _]; [by vm_compute|by vm_compute|exact Hc|by left|].
  destruct Hg as (_ & cs & Hn & Ha & _); [vm_compute; reflexivity|]. exists cs. by split.
Defined.

Lemma configured_policy_typed_witness :
  configure_capability (Some sample_policy) = inr sample_compiled
  ∧ env_value sample_compiled (bs "APP_MODE") = Some (bs "production")
  ∧ perm_state (evaluate sample_compiled PERMISSION_ENV (bs "APP_MODE")) = State_GRANTED.
Proof.
  assert (configure_capability (Some sample_policy) = inr sample_compiled) as Hc by (vm_compute; reflexivity).
  assert (env_value sample_compiled (bs "APP_MODE") = Some (bs "production")) as Hv by (vm_compute; reflexivity).
  split; [exact Hc|]. split; [exact Hv|].
  destruct (configured_policy_typed sample_policy sample_compiled) as [_ Hall];
    [by vm_compute|by vm_compute|exact Hc|].
  by destruct (Hall _ _ Hv).
Defined.
