(* ===== verification/BindingPolicy.v ===== *)
(** * BindingPolicy: the policies of the bindings (src/capability_policy.cc)

    The second half of the policy source: the table of per-binding policies
    compiled from the LOAD_BINDING descriptors, the owner check of native
    handles, the split of a network target, the FNV-1a rule identifiers, and
    the SHA-256 digest of the sandbox profiles. Words are 32-bit integers with
    their wrap-around written out. *)
From Stdlib Require Import ZArith Lia Sorted.
From S2P Require Import Prelude Wire Jansson EgressPolicy CapabilityPolicy.
Local Open Scope Z_scope.

(** ** Data *)

(** A LOAD_BINDING descriptor as the wire decoder leaves it. *)
Record WorkerBindingDescriptor := mkBindingDescriptor {
  wb_name : bytes;
  wb_source : bytes;
  wb_config_json : bytes;
  wb_secrets : list (bytes * bytes);
  wb_profiles : list bytes;
  wb_modules : list bytes;
  wb_net_rules : list bytes;
  wb_fs_read : list bytes;
  wb_fs_write : list bytes;
  wb_env : list bytes;
  wb_stdio : list bytes
}.

Inductive RuntimeDomain := kUser | kBinding.

#[export] Instance RuntimeDomain_eq_dec : EqDecision RuntimeDomain.
Proof. solve_decision. Defined.

Record RuntimeOrigin := mkOrigin { domain : RuntimeDomain; origin_binding : bytes }.

Definition origin_valid (o : RuntimeOrigin) : bool :=
  match domain o with
  | kUser => true
  | kBinding => negb (bool_decide (origin_binding o = [])) && (zlen (origin_binding o) <=? 63)
  end.

Record NativeHandleOwner := mkOwner { owner_origin : RuntimeOrigin; open_mode : Z; recorded : bool }.

Definition owner_valid (o : NativeHandleOwner) : bool := recorded o && origin_valid (owner_origin o).

Definition handle_owner_matches (owner : NativeHandleOwner) (caller : RuntimeOrigin) : bool :=
  if negb (owner_valid owner) || negb (origin_valid caller) then false
  else if negb (bool_decide (domain (owner_origin owner) = domain caller)) then false
  else negb (bool_decide (domain (owner_origin owner) = kBinding))
       || bool_decide (origin_binding (owner_origin owner) = origin_binding caller).

Record BindingPolicy := mkBindingPolicy {
  binding_id : bytes;
  b_modules : list bytes;
  b_profiles : list bytes;
  b_env : list bytes;
  b_stdio : list bytes;
  b_capability : CapabilityPolicy;
  b_egress : EgressPolicy;
  b_has_net_policy : bool
}.

(** ** Names *)

Definition binding_rule_id (label : bytes) : Z :=
  let hash := fold_left (λ h c, u32 (Z.lxor h (u8 c) * 16777619)) label 2166136261 in
  if hash =? 0 then 1 else hash.

Definition kBindingModules : list bytes :=
  [bs "capsid:assert"; bs "capsid:getopts"; bs "capsid:hashing"; bs "capsid:internal/core";
   bs "capsid:internal/path"; bs "capsid:ipaddr"; bs "capsid:path"; bs "capsid:readline";
   bs "capsid:sqlite"; bs "capsid:utils"; bs "capsid:uuid"; bs "capsid:wasi"].

Definition kBindingProfiles : list bytes :=
  [bs "network-client"; bs "filesystem-read"; bs "filesystem-write"; bs "filesystem-watch";
   bs "sqlite"; bs "wasi"].

Definition binding_module_forbidden (name : bytes) : bool :=
  contains [bs "capsid:ffi"; bs "capsid:worker"; bs "capsid:http-server"; bs "capsid:process";
            bs "capsid:signals"; bs "capsid:internal/worker"; bs "capsid:posix-socket"] name.

Definition binding_module_known (name : bytes) : bool := contains kBindingModules name.
Definition binding_profile_known (name : bytes) : bool := contains kBindingProfiles name.

(** ** SHA-256 *)

(** The rows of the two tables are those of the source. *)
Definition sha256_k : list Z :=
      [0x428a2f98; 0x71374491; 0xb5c0fbcf; 0xe9b5dba5]
   ++ [0x3956c25b; 0x59f111f1; 0x923f82a4; 0xab1c5ed5]
   ++ [0xd807aa98; 0x12835b01; 0x243185be; 0x550c7dc3]
   ++ [0x72be5d74; 0x80deb1fe; 0x9bdc06a7; 0xc19bf174]
   ++ [0xe49b69c1; 0xefbe4786; 0x0fc19dc6; 0x240ca1cc]
   ++ [0x2de92c6f; 0x4a7484aa; 0x5cb0a9dc; 0x76f988da]
   ++ [0x983e5152; 0xa831c66d; 0xb00327c8; 0xbf597fc7]
   ++ [0xc6e00bf3; 0xd5a79147; 0x06ca6351; 0x14292967]
   ++ [0x27b70a85; 0x2e1b2138; 0x4d2c6dfc; 0x53380d13]
   ++ [0x650a7354; 0x766a0abb; 0x81c2c92e; 0x92722c85]
   ++ [0xa2bfe8a1; 0xa81a664b; 0xc24b8b70; 0xc76c51a3]
   ++ [0xd192e819; 0xd6990624; 0xf40e3585; 0x106aa070]
   ++ [0x19a4c116; 0x1e376c08; 0x2748774c; 0x34b0bcb5]
   ++ [0x391c0cb3; 0x4ed8aa4a; 0x5b9cca4f; 0x682e6ff3]
   ++ [0x748f82ee; 0x78a5636f; 0x84c87814; 0x8cc70208]
   ++ [0x90befffa; 0xa4506ceb; 0xbef9a3f7; 0xc67178f2].

Definition sha256_h0 : list Z :=
      [0x6a09e667; 0xbb67ae85; 0x3c6ef372; 0xa54ff53a]
   ++ [0x510e527f; 0x9b05688c; 0x1f83d9ab; 0x5be0cd19].

(** The zero bytes pushed until the length is 56 modulo 64; at most 63. *)
Fixpoint zero_fill (fuel : nat) (size : Z) : bytes :=
  match fuel with
  | O => []
  | S fuel => if size mod 64 =? 56 then [] else Byte.x00 :: zero_fill fuel (size + 1)
  end.

Definition sha256_message (data : bytes) : bytes :=
  let message := data ++ [Byte.x80] in
  let message := message ++ zero_fill 64 (zlen message) in
  let bit_length := u64 (zlen data * 8) in
  message ++ map (λ shift, to_u8 (Z.land (Z.shiftr bit_length shift) 0xff)) [56; 48; 40; 32; 24; 16; 8; 0].

(** [(x >> n) | (x << (32 - n))]. *)
Definition rotr (x n : Z) : Z := Z.lor (Z.shiftr x n) (u32 (Z.shiftl x (32 - n))).

Definition word_at (w : list Z) (i : nat) : Z := nth i w 0.

Fixpoint sha256_extend (count : nat) (w : list Z) : list Z :=
  match count with
  | O => w
  | S count =>
      let i := length w in
      let w15 := word_at w (i - 15) in
      let w2 := word_at w (i - 2) in
      let s0 := Z.lxor (Z.lxor (rotr w15 7) (rotr w15 18)) (Z.shiftr w15 3) in
      let s1 := Z.lxor (Z.lxor (rotr w2 17) (rotr w2 19)) (Z.shiftr w2 10) in
      sha256_extend count (w ++ [u32 (word_at w (i - 16) + s0 + word_at w (i - 7) + s1)])
  end.

Definition sha256_round (state : list Z) (kw : Z * Z) : list Z :=
  match state with
  | [a; b; c; d; e; f; g; hh] =>
      let S1 := Z.lxor (Z.lxor (rotr e 6) (rotr e 11)) (rotr e 25) in
      let ch := Z.lxor (Z.land e f) (Z.land (Z.lxor e u32_max) g) in
      let temp1 := u32 (hh + S1 + ch + kw.1 + kw.2) in
      let S0 := Z.lxor (Z.lxor (rotr a 2) (rotr a 13)) (rotr a 22) in
      let maj := Z.lxor (Z.lxor (Z.land a b) (Z.land a c)) (Z.land b c) in
      let temp2 := u32 (S0 + maj) in
      [u32 (temp1 + temp2); a; b; c; u32 (d + temp1); e; f; g]
  | _ => state
  end.

Definition sha256_block (h : list Z) (block : bytes) : list Z :=
  let w := sha256_extend 48 (map (λ i, be32 (drop (i * 4) block)) (seq 0 16)) in
  zip_with (λ x y, u32 (x + y)) h (fold_left sha256_round (zip sha256_k w) h).

Definition sha256_blocks (message : bytes) : list Z :=
  fold_left (λ h i, sha256_block h (take 64 (drop (i * 64) message)))
    (seq 0 (length message / 64)) sha256_h0.

Definition sha256_bytes (data : bytes) : bytes :=
  List.concat (map (λ x, map (λ shift, to_u8 (Z.shiftr x shift)) [24; 16; 8; 0])
    (sha256_blocks (sha256_message data))).

Lemma sha256_vectors :
  map u8 (sha256_bytes (bs "abc")) =
    [0xba; 0x78; 0x16; 0xbf; 0x8f; 0x01; 0xcf; 0xea; 0x41; 0x41; 0x40; 0xde; 0x5d; 0xae; 0x22; 0x23;
     0xb0; 0x03; 0x61; 0xa3; 0x96; 0x17; 0x7a; 0x9c; 0xb4; 0x10; 0xff; 0x61; 0xf2; 0x00; 0x15; 0xad]
  ∧ map u8 (sha256_bytes (bs "abcdbcdecdefdefgefghfghighijhijkijkljklmklmnlmnomnopnopq")) =
    [0x24; 0x8d; 0x6a; 0x61; 0xd2; 0x06; 0x38; 0xb8; 0xe5; 0xc0; 0x26; 0x93; 0x0c; 0x3e; 0x60; 0x39;
     0xa3; 0x3c; 0xe4; 0x59; 0x64; 0xff; 0x21; 0x67; 0xf6; 0xec; 0xed; 0xd4; 0x19; 0xdb; 0x06; 0xc1].
Proof. split; vm_compute; reflexivity. Qed.

(** Fuel 64 completes the padding: the message is a whole number of blocks. *)
Lemma zero_fill_spec size fuel : 0 <= size → (Z.to_nat ((56 - size) mod 64) < fuel)%nat →
  (size + zlen (zero_fill fuel size)) mod 64 = 56.
Proof.
  revert size. induction fuel as [|fuel IH]; intros size Hs Hf; [lia|]. cbn [zero_fill].
  destruct (Z.eqb_spec (size mod 64) 56) as [He|He].
  - rewrite zlen_nil, Z.add_0_r. done.
  - rewrite zlen_cons, Z.add_assoc. apply IH; [lia|]. Z.div_mod_to_equations. lia.
Qed.

Lemma sha256_message_blocks data : zlen (sha256_message data) mod 64 = 0.
Proof.
  unfold sha256_message. cbv zeta. rewrite zlen_app.
  set (m := data ++ [Byte.x80]). pose proof (zlen_nonneg m) as Hm.
  assert (zlen (m ++ zero_fill 64 (zlen m)) mod 64 = 56) as Hz.
  { rewrite zlen_app. apply zero_fill_spec; [done|]. Z.div_mod_to_equations. lia. }
  change (zlen (map _ _)) with 8. rewrite Z.add_mod, Hz by done. done.
Qed.

(** ** The profile digest *)

(** [std::string]'s order, on unsigned bytes. *)
Fixpoint bytes_lt (a b : bytes) : bool :=
  match a, b with
  | [], [] => false
  | [], _ :: _ => true
  | _ :: _, [] => false
  | x :: a, y :: b => if u8 x <? u8 y then true else if u8 y <? u8 x then false else bytes_lt a b
  end.

(** [std::set::insert], the set kept as its elements in order. *)
Fixpoint set_insert (x : bytes) (l : list bytes) : list bytes :=
  match l with
  | [] => [x]
  | y :: rest =>
      if bytes_lt x y then x :: l else if bytes_lt y x then y :: set_insert x rest else l
  end.

Definition hex_digit (v : Z) : byte := nth (Z.to_nat v) (bs "0123456789abcdef") Byte.x30.

Definition profile_set (bindings : list WorkerBindingDescriptor) : list bytes :=
  fold_left (λ profiles d, fold_left (λ s p, set_insert p s) (wb_profiles d) profiles) bindings [].

Definition compute_binding_profile_digest (bindings : list WorkerBindingDescriptor) : bytes :=
  if bool_decide (bindings = []) then []
  else
    let canonical := List.concat (map (λ p, p ++ [Byte.x0a]) (profile_set bindings)) in
    bs "sha256:" ++ List.concat (map (λ b, [hex_digit (Z.shiftr (u8 b) 4); hex_digit (Z.land (u8 b) 0x0f)])
                      (sha256_bytes canonical)).

(** ** Network targets *)

(** The digits of the port, in an [unsigned int]. *)
Fixpoint port_digits (text : bytes) (value : Z) : option Z :=
  match text with
  | [] => Some value
  | c :: text => if l_isdigit c then port_digits text (u32 (value * 10 + (u8 c - 48))) else None
  end.

Definition target_port (text : bytes) : option Z :=
  match port_digits text 0 with
  | Some value => if (value <? 1) || (65535 <? value) then None else Some value
  | None => None
  end.

Definition split_net_target (net_target : bytes) : option (bytes * Z) :=
  match net_target with
  | [] => None
  | c :: rest =>
      if bool_decide (c = Byte.x5b) then
        match split_at Byte.x5d rest with
        | Some (host, d :: port_text) =>
            if bool_decide (d = Byte.x3a) then pair host <$> target_port port_text else None
        | _ => None
        end
      else
        match split_at Byte.x3a net_target with
        | Some (host, port_text) =>
            if bool_decide (Byte.x3a ∈ port_text) then None else pair host <$> target_port port_text
        | None => None
        end
  end.

(** ** The policy table *)

Definition binding_module_decision (p : BindingPolicy) (name : bytes) : ModuleDecision :=
  if contains (b_modules p) name then kModuleGranted
  else if binding_module_forbidden name then kModuleForbidden else kModuleDenied.

Definition fs_rule (permission : Z) (label : bytes) (resource : bytes) : capsid_permission_rule :=
  mkPermissionRule sizeof_permission_rule 1 permission (Some resource) (binding_rule_id (label ++ resource)) 0.

(** The rules of the descriptor, the reads first. *)
Definition fs_rules (d : WorkerBindingDescriptor) : list capsid_permission_rule :=
  map (fs_rule 1 (bs "binding-fs-read:")) (wb_fs_read d)
  ++ map (fs_rule 2 (bs "binding-fs-write:")) (wb_fs_write d).

Definition fs_descriptor (d : WorkerBindingDescriptor) : capsid_capability_policy :=
  let rs := fs_rules d in
  mkCapabilityDescriptor sizeof_capability_policy 2 (Some (wb_name d)) None 0
    (if bool_decide (rs = []) then None else Some rs) (u32 (zlen rs)) None 0 None 0 0.

Definition net_rule (text : bytes) : option capsid_egress_rule :=
  match split_net_target text with
  | Some (host, port) =>
      Some (mkEgressRule sizeof_egress_rule 1 (Some host) port port
              (binding_rule_id (bs "binding-net:" ++ text)) 0)
  | None => None
  end.

Section bindings.
Context `{InetPton}.

(** The sandbox profiles the permissions of the descriptor ask for. *)
Definition profile_error (d : WorkerBindingDescriptor) : option string :=
  let has := contains (wb_profiles d) in
  let uses := contains (wb_modules d) in
  if negb (bool_decide (wb_net_rules d = [])) && negb (has (bs "network-client"))
  then Some "net rules require the network-client sandbox profile"%string
  else if negb (bool_decide (wb_fs_read d = [])) && negb (has (bs "filesystem-read"))
  then Some "fs read requires the filesystem-read sandbox profile"%string
  else if negb (bool_decide (wb_fs_write d = [])) && negb (has (bs "filesystem-write"))
  then Some "fs write requires the filesystem-write sandbox profile"%string
  else if uses (bs "capsid:sqlite") && negb (has (bs "sqlite"))
  then Some "capsid:sqlite requires the sqlite sandbox profile"%string
  else if uses (bs "capsid:wasi") && negb (has (bs "wasi"))
  then Some "capsid:wasi requires the wasi sandbox profile"%string
  else None.

Definition compile_net (texts : list bytes) : string + EgressPolicy :=
  match mapM net_rule texts with
  | None => inl "invalid binding net target"%string
  | Some rs =>
      match configure (Some (mkEgressDescriptor sizeof_egress_policy 0 (Some rs) (u32 (zlen rs)) 0)) with
      | inl _ => inl "invalid binding net policy"%string
      | inr e => inr e
      end
  end.

(** The body of the loop, after the duplicate check. *)
Definition compile_binding (d : WorkerBindingDescriptor) : string + BindingPolicy :=
  if negb (forallb binding_profile_known (wb_profiles d)) then inl "unknown binding sandbox profile"%string
  else if negb (forallb binding_module_known (wb_modules d)) then inl "binding module is not grantable"%string
  else match profile_error d with
  | Some error => inl error
  | None =>
      match configure_capability (Some (fs_descriptor d)) with
      | inl _ => inl "invalid binding permission rules"%string
      | inr capability =>
          let make := mkBindingPolicy (wb_name d) (wb_modules d) (wb_profiles d) (wb_env d) (wb_stdio d) capability in
          if bool_decide (wb_net_rules d = []) then inr (make new_EgressPolicy false)
          else match compile_net (wb_net_rules d) with
          | inl error => inl error
          | inr e => inr (make e true)
          end
      end
  end.

Fixpoint compile_bindings (ds : list WorkerBindingDescriptor) (seen : gset bytes)
    : string + list BindingPolicy :=
  match ds with
  | [] => inr []
  | d :: ds =>
      if bool_decide (wb_name d ∈ seen) then inl "duplicate binding id"%string
      else match compile_binding d with
      | inl error => inl error
      | inr p =>
          match compile_bindings ds (seen ∪ {[ wb_name d ]}) with
          | inl error => inl error
          | inr rest => inr (p :: rest)
          end
      end
  end.

(** On an error the table is left as it is. *)
Definition configure_bindings (ds : list WorkerBindingDescriptor) : string + list BindingPolicy :=
  compile_bindings ds ∅.
End bindings.

Definition binding_policy (policies : list BindingPolicy) (id : bytes) : option BindingPolicy :=
  List.find (λ p, bool_decide (binding_id p = id)) policies.

Definition binding_has (policies : list BindingPolicy) (id : bytes) : bool :=
  bool_decide (is_Some (binding_policy policies id)).

Definition binding_evaluate (policies : list BindingPolicy) (id : bytes)
    (permission : capsid_permission_name) (resource : bytes) : PermissionDecision :=
  match binding_policy policies id with
  | None => denied
  | Some p => evaluate (b_capability p) permission resource
  end.

Definition binding_ids (policies : list BindingPolicy) : list bytes := map binding_id policies.

(** ** The digest depends on the set of profiles only *)

Lemma bytes_lt_irrefl a : bytes_lt a a = false.
Proof. induction a as [|x a IH]; [done|]. cbn [bytes_lt]. by rewrite Z.ltb_irrefl. Qed.

Lemma bytes_lt_trans a b c : bytes_lt a b = true → bytes_lt b c = true → bytes_lt a c = true.
Proof.
  revert b c. induction a as [|x a IH]; intros [|y b] [|z c]; try done. cbn [bytes_lt].
  destruct (Z.ltb_spec (u8 x) (u8 y)), (Z.ltb_spec (u8 y) (u8 z)), (Z.ltb_spec (u8 y) (u8 x)),
    (Z.ltb_spec (u8 z) (u8 y)), (Z.ltb_spec (u8 x) (u8 z)), (Z.ltb_spec (u8 z) (u8 x)); try done; try lia.
  apply IH.
Qed.

Lemma bytes_lt_total a b : bytes_lt a b = false → bytes_lt b a = false → a = b.
Proof.
  revert b. induction a as [|x a IH]; intros [|y b]; try done. cbn [bytes_lt].
  destruct (Z.ltb_spec (u8 x) (u8 y)), (Z.ltb_spec (u8 y) (u8 x)); try done.
  intros H1 H2. f_equal; [apply u8_inj; lia|by apply IH].
Qed.

Definition ascending (l : list bytes) : Prop := StronglySorted (λ a b, bytes_lt a b = true) l.

Lemma ascending_unique l k : ascending l → ascending k → (∀ x, x ∈ l ↔ x ∈ k) → l = k.
Proof.
  intros Hl. revert k. induction Hl as [|x l Hl IH Hx]; intros k Hk Hiff.
  { destruct k as [|y k]; [done|]. destruct (not_elem_of_nil y). apply Hiff. by left. }
  destruct Hk as [|y k Hk Hy]; [destruct (not_elem_of_nil x); apply Hiff; by left|].
  rewrite Forall_forall in Hx, Hy.
  assert (x = y) as <-.
  { pose proof (proj1 (Hiff x) ltac:(by left)) as [->|Hxk]%elem_of_cons; [done|].
    pose proof (proj2 (Hiff y) ltac:(by left)) as [->|Hyl]%elem_of_cons; [done|].
    pose proof (bytes_lt_trans _ _ _ (Hx _ Hyl) (Hy _ Hxk)) as Hc. by rewrite bytes_lt_irrefl in Hc. }
  f_equal. apply IH; [done|]. intros z.
  assert (∀ u v, (∀ w, w ∈ v → bytes_lt x w = true) → z ∈ v → (z ∈ x :: v ↔ z ∈ x :: u) → z ∈ u) as Haux.
  { intros u v Hv Hz Hi. destruct (proj1 (elem_of_cons _ _ _) (proj1 Hi ltac:(by right))) as [->|Hu]; [|done].
    apply Hv in Hz. by rewrite bytes_lt_irrefl in Hz. }
  split; intros Hz; [by apply (Haux k l)|apply (Haux l k); [done..|by rewrite Hiff]].
Qed.

Lemma elem_of_set_insert x l y : y ∈ set_insert x l ↔ y = x ∨ y ∈ l.
Proof.
  induction l as [|z l IH]; cbn [set_insert]; [by rewrite elem_of_cons, elem_of_nil|].
  destruct (bytes_lt x z) eqn:E1; [by rewrite elem_of_cons|].
  destruct (bytes_lt z x) eqn:E2; [rewrite !elem_of_cons, IH; tauto|].
  pose proof (bytes_lt_total _ _ E1 E2) as ->. rewrite elem_of_cons. tauto.
Qed.

Lemma set_insert_ascending x l : ascending l → ascending (set_insert x l).
Proof.
  induction 1 as [|z l Hl IH Hz]; cbn [set_insert]; [by repeat constructor|].
  destruct (bytes_lt x z) eqn:E1.
  - constructor; [by constructor|]. constructor; [done|]. apply (Forall_impl _ _ _ Hz).
    intros w. by apply bytes_lt_trans.
  - destruct (bytes_lt z x) eqn:E2; [|by constructor]. constructor; [exact IH|].
    apply Forall_forall. intros w [->|Hw]%elem_of_set_insert; [done|]. rewrite Forall_forall in Hz. by apply Hz.
Qed.

Lemma insert_all_spec ps s : ascending s →
  let r := fold_left (λ s p, set_insert p s) ps s in ascending r ∧ ∀ x, x ∈ r ↔ x ∈ s ∨ x ∈ ps.
Proof.
  cbn zeta. revert s. induction ps as [|p ps IH]; intros s Hs; cbn [fold_left].
  { split; [done|]. intros x. rewrite elem_of_nil. tauto. }
  destruct (IH _ (set_insert_ascending p s Hs)) as [Ha He]. split; [done|]. intros x.
  rewrite He, elem_of_set_insert, elem_of_cons. tauto.
Qed.

Definition requires (ds : list WorkerBindingDescriptor) (profile : bytes) : Prop :=
  ∃ d, d ∈ ds ∧ profile ∈ wb_profiles d.

Lemma profile_set_spec ds : ascending (profile_set ds) ∧ ∀ x, x ∈ profile_set ds ↔ requires ds x.
Proof.
  unfold profile_set. assert (∀ s, ascending s →
    let r := fold_left (λ profiles d, fold_left (λ s p, set_insert p s) (wb_profiles d) profiles) ds s in
    ascending r ∧ ∀ x, x ∈ r ↔ x ∈ s ∨ requires ds x) as Hfold.
  { cbn zeta. induction ds as [|d ds IH]; intros s Hs; cbn [fold_left].
    { split; [done|]. intros x. split; [by left|]. by intros [?|(d & []%not_elem_of_nil & _)]. }
    destruct (insert_all_spec (wb_profiles d) s Hs) as [Ha He]. destruct (IH _ Ha) as [Ha' He'].
    split; [done|]. intros x. rewrite He', He. unfold requires. setoid_rewrite elem_of_cons. split.
    - intros [[?|?]|(e & ? & ?)]; [by left|right; exists d; auto|right; exists e; auto].
    - intros [?|(e & [->|?] & ?)]; [by auto|by auto|right; by exists e]. }
  destruct (Hfold [] (SSorted_nil _)) as [Ha He]. split; [done|]. intros x. rewrite He, elem_of_nil. tauto.
Qed.

(** The sandbox profile digest is a function of the set of profiles the
    bindings require: the order in which descriptors arrive, the order of the
    profiles in them and repetitions make no difference. *)
Theorem profile_digest_canonical ds es : ds ≠ [] → es ≠ [] →
  (∀ profile, requires ds profile ↔ requires es profile) →
  compute_binding_profile_digest ds = compute_binding_profile_digest es.
Proof.
  intros Hd He Hiff. unfold compute_binding_profile_digest. rewrite !bool_decide_eq_false_2 by done.
  destruct (profile_set_spec ds) as [Ha1 He1], (profile_set_spec es) as [Ha2 He2].
  rewrite (ascending_unique (profile_set ds) (profile_set es)); [done..|].
  intros x. rewrite He1, He2. apply Hiff.
Qed.

(** ** What a binding may do *)

(** The scopes of a permission in a descriptor, and the profile they need. *)
Definition binding_scopes (d : WorkerBindingDescriptor) (permission : capsid_permission_name) : list bytes :=
  match permission with
  | PERMISSION_READ => wb_fs_read d
  | PERMISSION_WRITE => wb_fs_write d
  | _ => []
  end.

Definition needed_profile (permission : capsid_permission_name) : bytes :=
  match permission with PERMISSION_WRITE => bs "filesystem-write" | _ => bs "filesystem-read" end.

(** The counts handed on are 32-bit. *)
Definition countable (d : WorkerBindingDescriptor) : Prop :=
  zlen (wb_fs_read d) + zlen (wb_fs_write d) < 2 ^ 32.

Lemma rule_resource_text permission text resource : permission ≠ PERMISSION_RAW_SOCKET →
  normalize_rule_resource permission (Some text) = Some resource → resource = cut_nul text.
Proof.
  intros Hp. unfold normalize_rule_resource, keep_if. rewrite bool_decide_eq_false_2 by done.
  destruct (_ || _); [done|]. destruct permission; try done; split_test; by intros [= <-].
Qed.

Section grants.
Context `{InetPton}.

Lemma fs_descriptor_rules d : countable d →
  ztake (cap_rule_count (fs_descriptor d)) (default [] (cap_rules (fs_descriptor d))) = fs_rules d.
Proof.
  intros Hc. unfold fs_descriptor. cbn [cap_rule_count cap_rules].
  assert (zlen (fs_rules d) = zlen (wb_fs_read d) + zlen (wb_fs_write d)) as Hl.
  { unfold fs_rules. rewrite zlen_app. unfold zlen. by rewrite !length_map. }
  unfold countable in Hc. pose proof (zlen_nonneg (fs_rules d)). rewrite u32_small by lia.
  case_bool_decide as Hn; cbn [default]; [by rewrite Hn|apply ztake_all].
Qed.

Lemma binding_rules d p r : countable d → configure_capability (Some (fs_descriptor d)) = inr p →
  r ∈ perm_rules p → r_action r = PERMISSION_ALLOW
    ∧ ∃ scope, scope ∈ binding_scopes d (r_permission r) ∧ r_resource r = cut_nul scope.
Proof.
  intros Hc Hp Hin. apply configured_rules in Hp. rewrite fs_descriptor_rules in Hp by done.
  apply list_elem_of_lookup in Hin as [i Hi]. eapply Forall2_lookup_r in Hp as (src & Hsrc & Hfrom); [|exact Hi].
  apply list_elem_of_lookup_2 in Hsrc. unfold fs_rules in Hsrc.
  destruct Hfrom as (Ha & Hperm & Hres & _).
  apply elem_of_app in Hsrc as [(scope & -> & Hs)%list_elem_of_fmap|(scope & -> & Hs)%list_elem_of_fmap];
    cbn in Ha, Hperm; (split; [done|]); exists scope; rewrite Hperm in *;
    (split; [done|]); by apply rule_resource_text in Hres.
Qed.

Lemma binding_rule_of d p permission scope : countable d →
  configure_capability (Some (fs_descriptor d)) = inr p → scope ∈ binding_scopes d permission →
  ∃ r, r ∈ perm_rules p ∧ r_permission r = permission ∧ r_resource r = cut_nul scope.
Proof.
  intros Hc Hp Hin. apply configured_rules in Hp. rewrite fs_descriptor_rules in Hp by done.
  assert (∃ value label, fs_rule value label scope ∈ fs_rules d ∧ permission_of value = permission
    ∧ permission ≠ PERMISSION_RAW_SOCKET) as (value & label & Hsrc & Hval & Hraw).
  { unfold fs_rules. destruct permission; try (by apply not_elem_of_nil in Hin).
    - exists 1, (bs "binding-fs-read:"). split_and!; [|done..]. apply elem_of_app. left. by apply list_elem_of_fmap_2.
    - exists 2, (bs "binding-fs-write:"). split_and!; [|done..]. apply elem_of_app. right. by apply list_elem_of_fmap_2. }
  apply list_elem_of_lookup in Hsrc as [i Hi]. eapply Forall2_lookup_l in Hp as (r & Hr & Hfrom); [|exact Hi].
  destruct Hfrom as (_ & Hperm & Hres & _). cbn [fs_rule prule_permission prule_resource] in Hperm, Hres.
  rewrite Hval in Hperm.
  exists r. split_and!; [by eapply list_elem_of_lookup_2|done|]. rewrite Hperm in Hres.
  by apply rule_resource_text in Hres.
Qed.

Lemma compile_binding_parts d p : compile_binding d = inr p →
  configure_capability (Some (fs_descriptor d)) = inr (b_capability p)
  ∧ binding_id p = wb_name d ∧ b_modules p = wb_modules d ∧ profile_error d = None
  ∧ forallb binding_module_known (wb_modules d) = true
  ∧ (if bool_decide (wb_net_rules d = []) then b_has_net_policy p = false
     else b_has_net_policy p = true ∧ compile_net (wb_net_rules d) = inr (b_egress p))
  ∧ b_profiles p = wb_profiles d ∧ b_stdio p = wb_stdio d.
Proof.
  unfold compile_binding. destruct (negb _); [done|]. destruct (forallb _ (wb_modules d)) eqn:Hm; [|done].
  cbn [negb]. destruct (profile_error d) eqn:He; [done|].
  destruct (configure_capability _) as [|c]; [done|]. cbv zeta.
  case_bool_decide; [by intros [= <-]|]. destruct (compile_net _); [done|]. by intros [= <-].
Qed.

Lemma compile_bindings_parts ds seen policies : compile_bindings ds seen = inr policies →
  Forall2 (λ d p, compile_binding d = inr p) ds policies ∧ NoDup (map wb_name ds)
  ∧ ∀ d, d ∈ ds → wb_name d ∉ seen.
Proof.
  revert seen policies. induction ds as [|d ds IH]; intros seen policies; cbn [compile_bindings].
  { intros [= <-]. split_and!; [constructor|constructor|]. intros d Hd. by apply not_elem_of_nil in Hd. }
  case_bool_decide as Hs; [done|]. destruct (compile_binding d) as [|p] eqn:Hp; [done|].
  destruct (compile_bindings ds _) as [|rest] eqn:Hr; [done|]. intros [= <-].
  destruct (IH _ _ Hr) as (Hf & Hnd & Hseen). split_and!; [by constructor| |].
  - cbn [map]. constructor; [|done]. intros (e & Heq & Hin)%list_elem_of_fmap. apply Hseen in Hin.
    rewrite <- Heq in Hin. by apply not_elem_of_union in Hin as [_ []%not_elem_of_singleton].
  - intros e [->|Hin]%elem_of_cons; [done|]. apply Hseen in Hin. by apply not_elem_of_union in Hin as [Hin _].
Qed.

(** The table holds one policy per descriptor, found by the name. *)
Lemma binding_policy_spec ds policies id p : configure_bindings ds = inr policies →
  binding_policy policies id = Some p ↔ ∃ d, d ∈ ds ∧ wb_name d = id ∧ compile_binding d = inr p.
Proof.
  intros Hc. apply compile_bindings_parts in Hc as (Hf & Hnd & _). unfold binding_policy.
  induction Hf as [|d q ds policies Hq Hf IH]; cbn [List.find].
  { split; [done|]. by intros (d & []%not_elem_of_nil & _). }
  pose proof (compile_binding_parts d q Hq) as (_ & Hid & _).
  cbn [map] in Hnd. apply NoDup_cons in Hnd as [Hfresh Hnd]. rewrite Hid.
  destruct (decide (wb_name d = id)) as [Hn|Hn].
  - rewrite bool_decide_eq_true_2 by done. split.
    + intros [= <-]. exists d. split; [by left|]. by split.
    + intros (e & [->|Hin]%elem_of_cons & Hname & He); [congruence|].
      destruct Hfresh. rewrite Hn, <- Hname. by apply list_elem_of_fmap_2.
  - rewrite bool_decide_eq_false_2 by done. rewrite (IH Hnd). split.
    + intros (e & Hin & Hrest). exists e. split; [by right|done].
    + intros (e & [->|Hin]%elem_of_cons & Hname & He); [done|]. by exists e.
Qed.

Lemma binding_unique ds policies d e : configure_bindings ds = inr policies →
  d ∈ ds → e ∈ ds → wb_name d = wb_name e → d = e.
Proof.
  intros (_ & Hnd & _)%compile_bindings_parts Hd He Heq.
  apply list_elem_of_lookup in Hd as [i Hi], He as [j Hj].
  assert (i = j) as -> by (eapply (NoDup_lookup (map wb_name ds)); [done|..];
    by rewrite list_lookup_fmap, ?Hi, ?Hj; cbn; rewrite ?Heq). congruence.
Qed.

Lemma binding_found ds policies d id : configure_bindings ds = inr policies →
  d ∈ ds → wb_name d = id → is_Some (binding_policy policies id).
Proof.
  intros Hc Hin Hname. pose proof Hc as (Hf & _)%compile_bindings_parts.
  apply list_elem_of_lookup in Hin as [i Hi]. pose proof Hi as Hi'.
  eapply Forall2_lookup_l in Hi' as (p & _ & Hp); [|exact Hf]. exists p.
  apply (binding_policy_spec ds policies id p Hc). exists d. split_and!; [by eapply list_elem_of_lookup_2|done..].
Qed.

(** A binding's own scope of the permission holds the path. *)
Definition binding_reaches (d : WorkerBindingDescriptor) (permission : capsid_permission_name)
    (resource : bytes) : Prop :=
  zlen resource <= 4096 ∧ ∃ cs scope sc, names resource cs ∧ scope ∈ binding_scopes d permission
    ∧ names (cut_nul scope) sc ∧ sc `prefix_of` cs.

Lemma binding_capability_exact d p permission resource : countable d →
  configure_capability (Some (fs_descriptor d)) = inr p →
  perm_state (evaluate p permission resource) = State_GRANTED ↔ binding_reaches d permission resource.
Proof.
  intros Hc Hp. unfold binding_reaches.
  assert (policy_wf p) as Hwf by (eapply configured_wf; [| |exact Hp]; cbn; pose proof (u32_range (zlen (fs_rules d))); lia).
  destruct (decide (permission = PERMISSION_READ ∨ permission = PERMISSION_WRITE)) as [Hrw|Hother].
  - rewrite path_access; [|done|destruct Hrw as [->| ->]; unfold path_permission; auto]. split.
    + intros (Hl & cs & Hn & (r & sc & Hin & Hperm & _ & Hsc & Hpre) & _). split; [done|].
      destruct (binding_rules d p r Hc Hp Hin) as (_ & scope & Hs & Hres). rewrite Hperm in Hs.
      rewrite Hres in Hsc. by exists cs, scope, sc.
    + intros (Hl & cs & scope & sc & Hn & Hs & Hsc & Hpre). split; [done|]. exists cs. split_and!; [done| |].
      * destruct (binding_rule_of d p permission scope Hc Hp Hs) as (r & Hin & Hperm & Hres).
        destruct (binding_rules d p r Hc Hp Hin) as (Ha & _). exists r, sc. by rewrite Hres.
      * intros (r & sc' & Hin & _ & Ha & _). destruct (binding_rules d p r Hc Hp Hin) as (Ha' & _). congruence.
  - split.
    + intros Hg. exfalso. destruct (generic_permission permission) eqn:Hgen.
      * apply evaluate_granted in Hg as (v & _ & (r & Hin & Hperm & _) & _); [|by apply wf_enabled|done].
        destruct (binding_rules d p r Hc Hp Hin) as (_ & scope & Hs & _). rewrite Hperm in Hs.
        destruct permission; try (by apply not_elem_of_nil in Hs); tauto.
      * unfold evaluate in Hg. rewrite Hgen in Hg. by rewrite orb_true_r in Hg.
    + intros (_ & cs & scope & sc & _ & Hs & _). exfalso.
      destruct permission; try (by apply not_elem_of_nil in Hs); tauto.
Qed.

Lemma profile_error_none d permission scope : profile_error d = None →
  scope ∈ binding_scopes d permission → needed_profile permission ∈ wb_profiles d.
Proof.
  unfold profile_error. cbv zeta. intros He Hin.
  assert (∀ l : list bytes, scope ∈ l → l ≠ []) as Hne by (intros l Hl ->; by apply not_elem_of_nil in Hl).
  repeat split_test; try done. bools.
  destruct permission; try (by apply not_elem_of_nil in Hin);
    cbn [binding_scopes needed_profile] in *; apply Hne in Hin.
  - andb_cases; try done; unfold contains in *; bools; done.
  - andb_cases; try done; unfold contains in *; bools; done.
Qed.

(** Bindings are confined to their own descriptors. An identifier no
    descriptor carries is denied everything; otherwise a path is granted exactly
    when a scope the descriptor lists under the same permission holds it, which
    also means the descriptor requires the sandbox profile for it; permissions
    other than read and write are never granted; and a module is granted only
    when the descriptor lists it and it may be granted to bindings. *)
Theorem binding_grants_exact ds policies id :
  configure_bindings ds = inr policies → Forall countable ds →
  (∀ permission resource,
     perm_state (binding_evaluate policies id permission resource) = State_GRANTED ↔
     ∃ d, d ∈ ds ∧ wb_name d = id ∧ binding_reaches d permission resource
          ∧ needed_profile permission ∈ wb_profiles d)
  ∧ (∀ p name, binding_policy policies id = Some p →
     binding_module_decision p name = kModuleGranted ↔
     ∃ d, d ∈ ds ∧ wb_name d = id ∧ name ∈ wb_modules d ∧ binding_module_known name = true)
  ∧ (binding_has policies id = true ↔ id ∈ map wb_name ds).
Proof.
  intros Hconf Hcount. rewrite Forall_forall in Hcount.
  pose proof (λ p, binding_policy_spec ds policies id p Hconf) as Hspec. split_and!.
  - intros permission resource. unfold binding_evaluate.
    destruct (binding_policy policies id) as [p|] eqn:Hp.
    + destruct (proj1 (Hspec p) eq_refl) as (d & Hin & Hname & Hcomp).
      destruct (compile_binding_parts d p Hcomp) as (Hcap & _ & _ & Herr & _).
      rewrite (binding_capability_exact d) by auto. split.
      * intros Hr. exists d. split_and!; try done.
        destruct Hr as (_ & cs & scope & sc & _ & Hs & _). by eapply profile_error_none.
      * intros (e & Hin' & Hname' & Hr & _).
        rewrite (binding_unique ds policies d e Hconf); [done..|congruence].
    + split; [done|]. intros (d & Hin & Hname & _). exfalso.
      by eapply binding_found in Hin as (p & Hq); [|exact Hconf|exact Hname]; rewrite Hp in Hq.
  - intros p name Hp. destruct (proj1 (Hspec p) Hp) as (d & Hin & Hname & Hcomp).
    destruct (compile_binding_parts d p Hcomp) as (_ & _ & Hm & _ & Hk & _). rewrite forallb_forall in Hk.
    unfold binding_module_decision. rewrite Hm. unfold contains. split.
    + case_bool_decide; [|by destruct (binding_module_forbidden name)]. exists d. split_and!; [done..|].
      by apply Hk, list_elem_of_In.
    + intros (e & Hin' & Hname' & He & _). rewrite bool_decide_eq_true_2; [done|].
      rewrite (binding_unique ds policies d e Hconf); [done..|congruence].
  - unfold binding_has. rewrite bool_decide_eq_true. split.
    + intros [p Hp]. apply Hspec in Hp as (d & Hin & <- & _). by apply list_elem_of_fmap_2.
    + intros (d & -> & Hin)%list_elem_of_fmap. by eapply binding_found.
Qed.

(** ** Hosts a binding may reach *)

(** The target is a name pattern for the host on this port. *)
Definition target_covers (text name : bytes) (port : Z) : Prop :=
  ∃ h pattern w, split_net_target text = Some (h, port)
    ∧ split_at Byte.x2f (cut_nul h) = None ∧ parse_numeric (cut_nul h) = None
    ∧ normalize_hostname (cut_nul h) true = Some (pattern, w)
    ∧ if w : bool then ∃ labels, labels ≠ [] ∧ name = labels ++ Byte.x2e :: pattern else name = pattern.

Lemma target_port_range text port : target_port text = Some port → 1 <= port <= 65535.
Proof.
  unfold target_port. destruct (port_digits text 0) as [v|]; [|done]. destruct (_ || _) eqn:E; [done|].
  bools. intros [= <-]. lia.
Qed.

Lemma split_net_target_port text h port : split_net_target text = Some (h, port) → 1 <= port <= 65535.
Proof.
  unfold split_net_target. intros Hs. repeat (case_match; try done);
    apply fmap_Some in Hs as (v & Hv & Heq); simplify_eq; by eapply target_port_range.
Qed.

Lemma net_rule_applies text source r name port : net_rule text = Some source → compiled_rule source r →
  action r = CAPSID_EGRESS_ALLOW ∧ (host_applies name port r ↔ target_covers text name port).
Proof.
  unfold net_rule. destruct (split_net_target text) as [[h q]|] eqn:Hs; [|done]. intros [= <-].
  apply split_net_target_port in Hs as Hq.
  intros (t & base & [= <-] & Hc & Ha & Hadr & Hps & Hpe). cbn in Ha, Hps, Hpe.
  destruct (compile_target_keeps _ _ _ Hc) as (Hra & Hrs & Hre).
  split; [by rewrite Hra, Ha|]. unfold host_applies, target_covers, covers_port.
  rewrite (compile_target_host _ _ _ Hc Hadr), Hrs, Hre, Hps, Hpe. split.
  - intros ((n & w & H1 & H2 & H3 & <- & <-) & Hport & Hn). assert (q = port) as <- by lia.
    exists h, (host r), (wildcard r). by split_and!.
  - intros (h' & pat & w & Heq & H1 & H2 & H3 & Hn). rewrite Hs in Heq. injection Heq as <- <-.
    assert (∃ n w', split_at Byte.x2f (cut_nul h) = None ∧ parse_numeric (cut_nul h) = None
      ∧ normalize_hostname (cut_nul h) true = Some (n, w') ∧ host r = n ∧ wildcard r = w') as Hex.
    { apply (compile_target_host _ _ _ Hc Hadr). unfold compile_target in Hc. rewrite H1, H2, H3 in Hc.
      injection Hc as <-. exact Hadr. }
    split; [exact Hex|]. split; [lia|]. destruct Hex as (n & w' & _ & _ & H3' & <- & <-).
    rewrite H3 in H3'. injection H3' as -> ->. exact Hn.
Qed.

Lemma compile_net_parts `{!InetPtonLaws H} texts e : zlen texts < 2 ^ 32 → compile_net texts = inr e →
  ∃ sources, Forall2 (λ text src, net_rule text = Some src) texts sources
    ∧ Forall2 compiled_rule sources (rules e) ∧ default_action e = CAPSID_EGRESS_DENY ∧ Forall rule_wf (rules e).
Proof.
  intros Hlen. unfold compile_net. destruct (mapM net_rule texts) as [sources|] eqn:Hm; [|done].
  apply mapM_Some in Hm. pose proof (Forall2_length _ _ _ Hm) as Hl.
  destruct (configure _) as [|e'] eqn:Hconf; [done|]. intros [= ->]. exists sources.
  pose proof (configure_wf _ _ Hconf) as Hwf. split; [done|].
  revert Hconf. cbn [configure policy_struct_size default_action_value policy_reserved rule_count policy_rules default].
  destruct (negb _); [done|]. destruct (_ || _); [done|].
  rewrite u32_small by (unfold zlen in *; lia). rewrite ztake_all.
  destruct (compile_rules _ _ _) as [|rs] eqn:Er; [done|]. intros [= <-].
  split_and!; [by eapply compile_rules_sources|done|done].
Qed.

(** The rules of a binding's network policy all allow. *)
Lemma compile_net_allows `{!InetPtonLaws H} texts e t : zlen texts < 2 ^ 32 → compile_net texts = inr e →
  t ∈ rules e → action t = CAPSID_EGRESS_ALLOW
    ∧ ∀ name port, ∃ text, text ∈ texts ∧ (host_applies name port t ↔ target_covers text name port).
Proof.
  intros Hlen Hc [i Hi]%list_elem_of_lookup.
  destruct (compile_net_parts texts e Hlen Hc) as (sources & Hm & Hrs & _).
  eapply Forall2_lookup_r in Hrs as (src & Hsrc & Hfrom); [|exact Hi].
  eapply Forall2_lookup_r in Hm as (text & Htext & Hnet); [|exact Hsrc].
  split; [by destruct (net_rule_applies _ _ _ [] 0 Hnet Hfrom)|]. intros name port. exists text.
  split; [by eapply list_elem_of_lookup_2|by apply (net_rule_applies _ _ _ name port Hnet Hfrom)].
Qed.

(** A binding reaches a host name exactly when one of its network targets
    covers it on that port; nothing is allowed by default. *)
Lemma binding_hosts_exact `{!InetPtonLaws H} texts e input port name w : zlen texts < 2 ^ 32 →
  compile_net texts = inr e → port ≠ 0 → parse_numeric input = None →
  normalize_hostname input false = Some (name, w) →
  allowed (decide_host e input port) = true ↔ ∃ text, text ∈ texts ∧ target_covers text name port.
Proof.
  intros Hlen Hc Hport Hnum Hname. pose proof (compile_net_allows texts e) as Hback.
  destruct (compile_net_parts texts e Hlen Hc) as (sources & Hm & Hrs & Hdef & Hwf).
  assert (∀ text, text ∈ texts → target_covers text name port → ∃ t, t ∈ rules e ∧ host_applies name port t) as Hforth.
  { intros text [i Hi]%list_elem_of_lookup Hcov. eapply Forall2_lookup_l in Hm as (src & Hsrc & Hnet); [|exact Hi].
    eapply Forall2_lookup_l in Hrs as (t & Ht & Hfrom); [|exact Hsrc].
    destruct (net_rule_applies _ _ _ name port Hnet Hfrom) as [_ Hiff]. exists t.
    split; [by eapply list_elem_of_lookup_2|by apply Hiff]. }
  destruct (host_decided e input port name w Hwf Hport Hnum Hname) as [l1 r l2 Heq Hap Hact _|l1 r l2 Heq Hap _ _|Hno].
  - destruct (Hback r Hlen Hc) as (Ha & _); [rewrite Heq; apply elem_of_app; right; by left|]. congruence.
  - destruct (Hback r Hlen Hc) as (_ & Hex); [rewrite Heq; apply elem_of_app; right; by left|].
    destruct (Hex name port) as (text & Hin & Hiff).
    split; [|done]. intros _. exists text. split; [done|by apply Hiff].
  - unfold default_decision. rewrite Hdef. split; [done|]. intros (text & Hin & Hcov).
    destruct (Hforth text Hin Hcov) as (t & Ht & Hap). by destruct (Hno t Ht).
Qed.
End grants.

(** ** Handles, ports, samples *)

(** A handle answers only to the origin recorded when it was made. *)
Lemma handle_owner_exact owner caller : handle_owner_matches owner caller = true ↔
  recorded owner = true ∧ origin_valid (owner_origin owner) = true ∧ origin_valid caller = true
  ∧ domain (owner_origin owner) = domain caller
  ∧ (domain caller = kBinding → origin_binding (owner_origin owner) = origin_binding caller).
Proof.
  unfold handle_owner_matches, owner_valid.
  destruct (recorded owner), (origin_valid (owner_origin owner)), (origin_valid caller); cbn [andb negb orb];
    try (split; [done|intros (? & ? & ? & _); done]).
  destruct (decide (domain (owner_origin owner) = domain caller)) as [Hd|Hd].
  - rewrite (bool_decide_eq_true_2 _ Hd). cbn [negb]. rewrite Hd. destruct (domain caller).
    + by rewrite bool_decide_eq_false_2.
    + rewrite (bool_decide_eq_true_2 (kBinding = kBinding)) by done. cbn [negb orb]. rewrite bool_decide_eq_true.
      tauto.
  - rewrite (bool_decide_eq_false_2 _ Hd). cbn [negb]. split; [done|]. tauto.
Qed.

(** The port accumulator wraps: a ten-digit port is accepted as a small one. *)
Lemma wrapped_port : split_net_target (bs "db.example.com:4294967376") = Some (bs "db.example.com", 80).
Proof. vm_compute. reflexivity. Qed.

Definition sample_binding : WorkerBindingDescriptor :=
  mkBindingDescriptor (bs "db") [] (bs "{}") [] [bs "network-client"; bs "filesystem-read"] [bs "capsid:hashing"]
    [bs "db.example.com:5432"] [bs "/var/lib/db"] [] [] [].
Definition sample_cache : WorkerBindingDescriptor :=
  mkBindingDescriptor (bs "cache") [] (bs "{}") [] [bs "filesystem-write"] [] [] [] [bs "/tmp/cache"] [] [].

Definition sample_table : list BindingPolicy :=
  match configure_bindings [sample_binding; sample_cache] with inr l => l | inl _ => [] end.

Lemma profile_digest_canonical_witness :
  compute_binding_profile_digest [sample_binding; sample_cache]
  = compute_binding_profile_digest [sample_cache; sample_binding; sample_cache].
Proof.
  apply (profile_digest_canonical [sample_binding; sample_cache] [sample_cache; sample_binding; sample_cache]);
    [discriminate|discriminate|].
  assert (∀ (a b c : WorkerBindingDescriptor), (c ∈ [a; b]) ↔ (c ∈ [b; a; b])) as Hperm.
  { intros a b c. rewrite !elem_of_cons, elem_of_nil. tauto. }
  intros x. split; intros (d & Hd & Hx); exists d; (split; [apply Hperm, Hd|exact Hx]).
Defined.

Lemma sample_bindings_confined :
  configure_bindings [sample_binding; sample_cache] = inr sample_table
  ∧ (∃ d, d ∈ [sample_binding; sample_cache] ∧ wb_name d = bs "db"
       ∧ binding_reaches d PERMISSION_READ (bs "/var/lib/db/../db/table"))
  ∧ perm_state (binding_evaluate sample_table (bs "db") PERMISSION_READ (bs "/tmp/cache/x")) = State_DENIED
  ∧ binding_has sample_table (bs "other") = false.
Proof.
  assert (configure_bindings [sample_binding; sample_cache] = inr sample_table) as Hc by (vm_compute; reflexivity).
  split; [exact Hc|]. split; [|split; vm_compute; reflexivity].
  destruct (binding_grants_exact [sample_binding; sample_cache] sample_table (bs "db") Hc) as [Hg _].
  { repeat constructor. }
  destruct (proj1 (Hg PERMISSION_READ (bs "/var/lib/db/../db/table"))) as (d & Hin & Hn & Hr & _);
    [vm_compute; reflexivity|]. exists d. exact (conj Hin (conj Hn Hr)).
Qed.
