(* ===== verification/AuditRecords.v ===== *)
(** * AuditRecords: audit records and their throttle (src/audit.cc, src/worker_runtime.cc)

    What the worker does to report a decision: [emit_audit] throttles repeated
    and excessive records, encodes the record and queues its frame; the Host
    decodes it with [capsid_audit_record_decode]. The clock, the process
    identifier and the manifest digest of the build are arguments. *)
From Stdlib Require Import ZArith Lia.
From S2P Require Import Prelude Wire Protocol OutboundBuffer Jansson WorkerExecutor EgressPolicy CapabilityPolicy.
Local Open Scope Z_scope.

(** ** Data *)

Inductive capsid_audit_stage := STAGE_BUILD | STAGE_MODULE | STAGE_OPERATION | STAGE_QUERY.
Inductive capsid_audit_decision := AUDIT_DENY | AUDIT_ALLOW | AUDIT_UNAVAILABLE | AUDIT_PARTIAL.

#[export] Instance audit_decision_eq_dec : EqDecision capsid_audit_decision.
Proof. solve_decision. Defined.

Definition stage_value (s : capsid_audit_stage) : Z :=
  match s with STAGE_BUILD => 1 | STAGE_MODULE => 2 | STAGE_OPERATION => 3 | STAGE_QUERY => 4 end.
Definition decision_value (d : capsid_audit_decision) : Z :=
  match d with AUDIT_DENY => 0 | AUDIT_ALLOW => 1 | AUDIT_UNAVAILABLE => 2 | AUDIT_PARTIAL => 3 end.

(** The arguments of [emit_audit]. *)
Record AuditCall := mkAudit {
  a_stage : capsid_audit_stage;
  a_decision : capsid_audit_decision;
  a_request_id : Z;                       (* uint64_t *)
  a_rule_id : Z;                          (* uint32_t *)
  a_module : bytes;
  a_capability : bytes;
  a_resource_kind : bytes;
  a_resource : bytes
}.

Record AuditState := mkAuditState {
  audit_window_started_ns : Z;            (* uint64_t *)
  audit_window_count : Z;                 (* uint32_t *)
  audit_repeat_key : bytes;
  audit_repeat_count : Z                  (* uint32_t *)
}.

Definition new_AuditState : AuditState := mkAuditState 0 0 [] 0.

(** The decoded record, with the enumerations at their wire values. *)
Record capsid_audit_record := mkAuditRecord {
  rec_stage : Z;
  rec_decision : Z;
  rec_worker_id : Z;
  rec_request_id : Z;
  rec_rule_id : Z;
  rec_policy_version : Z;
  rec_application_identity : bytes;
  rec_module : bytes;
  rec_capability : bytes;
  rec_resource_kind : bytes;
  rec_resource : bytes;
  rec_manifest_hash : bytes
}.

Definition sizeof_audit_record : Z := 136.

Definition audit_decision (state : capsid_permission_state) : capsid_audit_decision :=
  match state with
  | State_GRANTED => AUDIT_ALLOW
  | State_PARTIAL => AUDIT_PARTIAL
  | State_UNAVAILABLE => AUDIT_UNAVAILABLE
  | State_DENIED => AUDIT_DENY
  end.

(** ** The throttle *)

(** [std::to_string] of an unsigned integer; twenty digits hold 64 bits. *)
Fixpoint decimal_loop (fuel : nat) (n : Z) (acc : bytes) : bytes :=
  match fuel with
  | O => acc
  | S fuel =>
      let acc := to_u8 (48 + n mod 10) :: acc in
      if n / 10 =? 0 then acc else decimal_loop fuel (n / 10) acc
  end.
Definition decimal (n : Z) : bytes := decimal_loop 20 n [].

Definition repeat_key (c : AuditCall) : bytes :=
  decimal (a_request_id c) ++ bs ":" ++ decimal (stage_value (a_stage c)) ++ bs ":"
  ++ decimal (decision_value (a_decision c)) ++ bs ":" ++ decimal (a_rule_id c)
  ++ List.concat (map (cons Byte.x00) [a_module c; a_capability c; a_resource_kind c; a_resource c]).

(** The state after the window check at time [now]. *)
Definition audit_window (s : AuditState) (now : Z) : AuditState :=
  if (audit_window_started_ns s =? 0) || (1000000000 <=? u64 (now - audit_window_started_ns s))
  then mkAuditState now 0 [] 0 else s.

(** Whether a record is sent, up to the construction of the frame. *)
Definition audit_admit (s : AuditState) (now : Z) (c : AuditCall) : AuditState * bool :=
  let s := audit_window s now in
  let s :=
    if bool_decide (a_decision c = AUDIT_ALLOW) then s
    else if bool_decide (repeat_key c = audit_repeat_key s)
    then mkAuditState (audit_window_started_ns s) (audit_window_count s) (audit_repeat_key s)
           (u32 (audit_repeat_count s + 1))
    else mkAuditState (audit_window_started_ns s) (audit_window_count s) (repeat_key c) 1 in
  if negb (bool_decide (a_decision c = AUDIT_ALLOW)) && (8 <? audit_repeat_count s) then (s, false)
  else if 64 <=? audit_window_count s then (s, false)
  else (mkAuditState (audit_window_started_ns s) (u32 (audit_window_count s + 1)) (audit_repeat_key s)
          (audit_repeat_count s), true).

(** ** The record *)

Definition append_string16 (output data : bytes) : bytes :=
  append_u16 output (u16 (zlen data)) ++ data.

(** [policy] is the worker's capability policy, [pid] and [manifest] the
    process identifier and the build's manifest digest. *)
Definition audit_fields (policy : CapabilityPolicy) (manifest : bytes) (c : AuditCall) : list bytes :=
  [application_identity policy; a_module c; a_capability c; a_resource_kind c; a_resource c; manifest].

Definition audit_frame (policy : CapabilityPolicy) (pid : Z) (manifest : bytes) (c : AuditCall) : Frame :=
  let p := append_u32 [] 1 in
  let p := append_u32 p (stage_value (a_stage c)) in
  let p := append_u32 p (decision_value (a_decision c)) in
  let p := append_u64 p (u64 pid) in
  let p := append_u32 p (a_rule_id c) in
  let p := append_u32 p (if enabled policy then version policy else 0) in
  mkFrame kAudit 0 (a_request_id c) 0 (fold_left append_string16 (audit_fields policy manifest c) p).

(** [limit] and [protocol_version] are the worker's output limit and protocol
    version; [out] its output buffer. *)
Definition emit_audit (policy : CapabilityPolicy) (pid : Z) (manifest : bytes) (limit protocol_version : Z)
    (s : AuditState) (out : OutboundBuffer) (now : Z) (c : AuditCall) : AuditState * OutboundBuffer :=
  match audit_admit s now c with
  | (s, false) => (s, out)
  | (s, true) => (s, (queue_output limit protocol_version out (audit_frame policy pid manifest c)).2)
  end.

(** ** The Host's decoder *)

Fixpoint read_fields (n : nat) (cursor : bytes) : option (list bytes * bytes) :=
  match n with
  | O => Some ([], cursor)
  | S n =>
      match read_u16 cursor with
      | None => None
      | Some (size, cursor) =>
          if zlen cursor <? size then None
          else match read_fields n (zdrop size cursor) with
          | None => None
          | Some (fields, rest) => Some (ztake size cursor :: fields, rest)
          end
      end
  end.

(** The fixed part: stage, decision, worker, rule, policy version. *)
Definition read_audit_head (cursor : bytes) : option (Z * Z * Z * Z * Z * bytes) :=
  match read_u32 cursor with None => None | Some (version, cursor) =>
  if negb (version =? 1) then None else
  match read_u32 cursor with None => None | Some (stage, cursor) =>
  match read_u32 cursor with None => None | Some (decision, cursor) =>
  match read_u64 cursor with None => None | Some (worker, cursor) =>
  match read_u32 cursor with None => None | Some (rule, cursor) =>
  match read_u32 cursor with None => None | Some (policy_version, cursor) =>
  Some (stage, decision, worker, rule, policy_version, cursor) end end end end end end.

Definition capsid_audit_record_decode (event : option capsid_event) (out_struct_size : option Z)
    : capsid_result + capsid_audit_record :=
  match event, out_struct_size with
  | Some event, Some size =>
      if negb (bool_decide (type event = CAPSID_EVENT_AUDIT)) || (size <? sizeof_audit_record)
      then inl CAPSID_INVALID_ARGUMENT
      else match WorkerExecutor.payload event with
      | None => inl CAPSID_INVALID_ARGUMENT
      | Some data =>
          if kMaxPayloadSize <? zlen data then inl CAPSID_PROTOCOL_ERROR
          else match read_audit_head data with
          | None => inl CAPSID_PROTOCOL_ERROR
          | Some (stage, decision, worker, rule, policy_version, cursor) =>
              if (worker =? 0) || (stage <? 1) || (4 <? stage) || (3 <? decision) then inl CAPSID_PROTOCOL_ERROR
              else match read_fields 6 cursor with
              | Some ([application; module; capability; kind; resource; manifest], rest) =>
                  if negb (bool_decide (rest = [])) || negb (zlen manifest =? 64) then inl CAPSID_PROTOCOL_ERROR
                  else inr (mkAuditRecord stage decision worker (request_id event) rule policy_version
                              application module capability kind resource manifest)
              | _ => inl CAPSID_PROTOCOL_ERROR
              end
          end
      end
  | _, _ => inl CAPSID_INVALID_ARGUMENT
  end.

(** ** Round trip *)

Definition encode_fields (fields : list bytes) : bytes :=
  List.concat (map (λ f, le_bytes 2 (u16 (zlen f)) ++ f) fields).

Lemma append_fields fields p : fold_left append_string16 fields p = p ++ encode_fields fields.
Proof.
  revert p. induction fields as [|f fields IH]; intros p; cbn [fold_left].
  { by rewrite app_nil_r. }
  rewrite IH. unfold append_string16. rewrite append_u16_le. cbn [encode_fields map List.concat].
  by rewrite <- !app_assoc.
Qed.

Lemma zlen_encode_fields f fields : zlen (encode_fields (f :: fields)) = 2 + zlen f + zlen (encode_fields fields).
Proof.
  cbn [encode_fields map List.concat]. rewrite !zlen_app, zlen_le_bytes. fold (encode_fields fields). lia.
Qed.

Lemma read_encoded_fields fields rest : Forall (λ f, zlen f < 2 ^ 16) fields →
  read_fields (length fields) (encode_fields fields ++ rest) = Some (fields, rest).
Proof.
  induction 1 as [|f fields Hf Hall IH]; [done|]. cbn [length read_fields encode_fields map List.concat].
  fold (encode_fields fields). pose proof (zlen_nonneg f).
  rewrite <- !app_assoc, read_u16_le by (rewrite u16_small; lia).
  rewrite u16_small by lia. rewrite zlen_app, ltb_ge_false by (pose proof (zlen_nonneg (encode_fields fields ++ rest)); lia).
  by rewrite zdrop_app, ztake_app, IH by done.
Qed.

Lemma encoded_small fields n : zlen (encode_fields fields) <= n → Forall (λ f, zlen f <= n - 2) fields.
Proof.
  induction fields as [|f fields IH]; intros Hl; [constructor|]. rewrite zlen_encode_fields in Hl.
  pose proof (zlen_nonneg (encode_fields fields)). pose proof (zlen_nonneg f).
  constructor; [lia|]. apply IH. lia.
Qed.

Lemma queue_output_framed limit protocol_version out frame :
  (queue_output limit protocol_version out frame).1 = true → zlen (fpayload frame) <= kMaxPayloadSize.
Proof.
  unfold queue_output, queue_output_bytes. destruct (Z.ltb_spec kMaxPayloadSize (zlen (fpayload frame))); [done|].
  lia.
Qed.

(** The record a call describes. *)
Definition audit_record (policy : CapabilityPolicy) (pid : Z) (manifest : bytes) (c : AuditCall)
    : capsid_audit_record :=
  mkAuditRecord (stage_value (a_stage c)) (decision_value (a_decision c)) pid (a_request_id c) (a_rule_id c)
    (if enabled policy then version policy else 0) (application_identity policy)
    (a_module c) (a_capability c) (a_resource_kind c) (a_resource c) manifest.

(** C34. Audit records survive the wire. Whatever record the worker's output
    accepts (its payload is within the frame limit), the Host's decoder returns
    exactly that record; in particular the 16-bit field lengths never truncate
    a field of an accepted frame. *)
Theorem audit_roundtrip policy pid manifest c event size limit protocol_version out :
  0 <= version policy < 2 ^ 32 → 0 < pid < 2 ^ 64 → zlen manifest = 64 → 0 <= a_rule_id c < 2 ^ 32 →
  let frame := audit_frame policy pid manifest c in
  (queue_output limit protocol_version out frame).1 = true → sizeof_audit_record <= size →
  type event = CAPSID_EVENT_AUDIT → request_id event = frequest_id frame →
  WorkerExecutor.payload event = Some (fpayload frame) →
  capsid_audit_record_decode (Some event) (Some size) = inr (audit_record policy pid manifest c).
Proof.
  intros Hv Hpid Hman Hrule frame Hlen%queue_output_framed Hsize Ht Hid Hpay. subst frame.
  unfold audit_frame in *. cbn [fpayload frequest_id] in *. rewrite append_fields in *.
  set (fields := audit_fields policy manifest c) in *.
  unfold capsid_audit_record_decode. rewrite Ht, Hpay, bool_decide_eq_true_2, (ltb_ge_false size) by done.
  cbn [negb orb]. rewrite ltb_ge_false by done.
  assert (Forall (λ f, zlen f < 2 ^ 16) fields) as Hf.
  { rewrite zlen_app in Hlen. rewrite !append_u32_le, append_u64_le, !zlen_app, !zlen_le_bytes in Hlen.
    unfold kMaxPayloadSize in Hlen. change (zlen (@nil byte)) with 0 in Hlen.
    assert (zlen (encode_fields fields) <= 65535) as He by lia.
    apply encoded_small in He. apply (Forall_impl _ _ _ He). intros f. lia. }
  rewrite !append_u32_le, append_u64_le. cbn [app]. rewrite <- !app_assoc.
  unfold read_audit_head. rewrite read_u32_le by lia. cbn [Z.eqb Pos.eqb negb].
  rewrite read_u32_le by (destruct (a_stage c); cbn; lia).
  rewrite read_u32_le by (destruct (a_decision c); cbn; lia).
  rewrite (u64_small pid), read_u64_le by lia. rewrite read_u32_le by done.
  rewrite read_u32_le by (destruct (enabled policy); lia).
  rewrite (eqb_ne_false pid 0) by lia.
  replace (_ || _ || _ || _) with false by (destruct (a_stage c), (a_decision c); done).
  change 6%nat with (length fields). rewrite <- (app_nil_r (encode_fields fields)), read_encoded_fields by done.
  cbn [fields audit_fields]. rewrite bool_decide_eq_true_2 by done. rewrite Hman, Hid. done.
Qed.

(** ** The throttle bounds the output *)

(** The times at which records are sent. *)
Fixpoint sent_times (s : AuditState) (calls : list (Z * AuditCall)) : list Z :=
  match calls with
  | [] => []
  | (now, c) :: calls =>
      match audit_admit s now c with
      | (s, true) => now :: sent_times s calls
      | (s, false) => sent_times s calls
      end
  end.

Definition second : Z := 1000000000.

(** How many of the times lie in [lo, hi). *)
Definition count_in (lo hi : Z) (times : list Z) : Z :=
  zlen (filter (λ t, lo <= t < hi) times).

Lemma count_in_snoc lo hi times t :
  count_in lo hi (times ++ [t]) = count_in lo hi times + (if decide (lo <= t < hi) then 1 else 0).
Proof.
  unfold count_in. rewrite filter_app, zlen_app, filter_cons, filter_nil.
  by destruct (decide (lo <= t < hi)).
Qed.

Lemma count_in_split lo mid hi times : lo <= mid <= hi →
  count_in lo hi times = count_in lo mid times + count_in mid hi times.
Proof.
  intros Hm. unfold count_in. induction times as [|t times IH]; [done|].
  rewrite !filter_cons. repeat destruct (decide _); rewrite ?zlen_cons; lia.
Qed.

Lemma count_in_nonneg lo hi times : 0 <= count_in lo hi times.
Proof. apply zlen_nonneg. Qed.

Lemma count_in_mono lo hi lo' hi' times : lo' <= lo → hi <= hi' → count_in lo hi times <= count_in lo' hi' times.
Proof.
  intros H1 H2. unfold count_in. induction times as [|t times IH]; [done|].
  rewrite !filter_cons. repeat destruct (decide _); rewrite ?zlen_cons; lia.
Qed.

(** The invariant: the window holds as many records as it counts, the second
    before it at most 64, and every second at most 128. *)
Record throttled (s : AuditState) (last : Z) (times : list Z) : Prop := {
  th_start : 0 <= audit_window_started_ns s <= last;
  th_last : Forall (λ t, t <= last) times;
  th_fresh : audit_window_started_ns s = 0 → times = [];
  th_recent : audit_window_started_ns s = 0 ∨ last < audit_window_started_ns s + second;
  th_count : 0 <= audit_window_count s <= 64;
  th_window : count_in (audit_window_started_ns s) (last + 1) times <= audit_window_count s;
  th_before : count_in (audit_window_started_ns s - second) (audit_window_started_ns s) times <= 64;
  th_every : ∀ t, count_in t (t + second) times <= 128
}.

Lemma count_in_after lo hi times last : Forall (λ t, t <= last) times → last < lo → count_in lo hi times = 0.
Proof.
  intros Hall Hlo. unfold count_in. induction Hall as [|t times Ht Hall IH]; [done|].
  rewrite filter_cons. destruct (decide _); [lia|done].
Qed.

(** Only the upper bound on the times matters beyond the last one. *)
Lemma count_in_cap lo hi hi' times last : Forall (λ t, t <= last) times → last < hi → last < hi' →
  count_in lo hi times = count_in lo hi' times.
Proof.
  intros Hall H1 H2. unfold count_in. induction Hall as [|t times Ht Hall IH]; [done|].
  rewrite !filter_cons. repeat destruct (decide _); rewrite ?zlen_cons; lia.
Qed.

Lemma throttled_window s last times now : throttled s last times → last <= now → 0 < now < 2 ^ 64 →
  throttled (audit_window s now) now times ∧ 0 < audit_window_started_ns (audit_window s now).
Proof.
  intros [Hs Hl Hf Hrec Hc Hw Hb He] Hn Hr. unfold audit_window.
  assert (Forall (λ t, t <= now) times) as Hl' by (apply (Forall_impl _ _ _ Hl); intros t; lia).
  rewrite u64_small by lia. unfold second in *.
  destruct (Z.eqb_spec (audit_window_started_ns s) 0) as [Hz|Hz]; cbn [orb].
  { rewrite (Hf Hz). split; [|cbn; lia]. split; cbn [audit_window_started_ns audit_window_count];
      unfold second; try done; try lia; intros; cbn; lia. }
  destruct (Z.leb_spec 1000000000 (now - audit_window_started_ns s)) as [Hle|Hle]; cbn [orb].
  - split; [|cbn; lia]. split; cbn [audit_window_started_ns audit_window_count]; unfold second; try done; try lia.
    + rewrite (count_in_after _ _ times last) by (done || lia). done.
    + pose proof (count_in_mono (now - 1000000000) now (audit_window_started_ns s) now times ltac:(lia) ltac:(lia)).
      rewrite (count_in_cap (audit_window_started_ns s) now (last + 1) times last) in * by (done || lia). lia.
  - split; [|lia]. split; unfold second; try done; try lia.
    rewrite (count_in_cap _ (now + 1) (last + 1) times last) by (done || lia). done.
Qed.

Lemma throttled_send s last times now : throttled s now times → 0 < audit_window_started_ns s →
  audit_window_count s < 64 → last <= now →
  throttled (mkAuditState (audit_window_started_ns s) (u32 (audit_window_count s + 1)) (audit_repeat_key s)
    (audit_repeat_count s)) now (times ++ [now]).
Proof.
  intros [Hs Hl Hf Hrec Hc Hw Hb He] Hpos Hcount Hn. unfold second in *.
  rewrite u32_small by lia.
  split; cbn [audit_window_started_ns audit_window_count]; unfold second; try lia.
  - apply Forall_app. split; [done|]. apply Forall_singleton. lia.
  - rewrite count_in_snoc. destruct (decide _); lia.
  - rewrite count_in_snoc. destruct (decide _); lia.
  - intros t. specialize (He t). rewrite count_in_snoc. destruct (decide (t <= now < t + 1000000000)) as [Ht|Ht]; [|lia].
    set (start := audit_window_started_ns s) in *.
    destruct (Z.le_gt_cases t start) as [Hle|Hgt].
    + rewrite (count_in_split t start (t + 1000000000)) by lia.
      pose proof (count_in_mono t start (start - 1000000000) start times ltac:(lia) ltac:(lia)).
      rewrite (count_in_cap start (t + 1000000000) (now + 1) times now) by (done || lia). lia.
    + pose proof (count_in_mono t (t + 1000000000) start (t + 1000000000) times ltac:(lia) ltac:(lia)).
      rewrite (count_in_cap start (t + 1000000000) (now + 1) times now) in * by (done || lia). lia.
Qed.

(** The repeat counter plays no part in the invariant. *)
Lemma throttled_repeat s last times key n : throttled s last times →
  throttled (mkAuditState (audit_window_started_ns s) (audit_window_count s) key n) last times.
Proof. by intros []. Qed.

Lemma throttled_admit s last times now c : throttled s last times → last <= now → 0 < now < 2 ^ 64 →
  let '(s', sent) := audit_admit s now c in
  throttled s' now (if sent : bool then times ++ [now] else times).
Proof.
  intros Hth Hn Hr. destruct (throttled_window s last times now Hth Hn Hr) as [Hw Hpos].
  unfold audit_admit. cbv zeta. set (w := audit_window s now) in *.
  set (s' := if bool_decide (a_decision c = AUDIT_ALLOW) then w else _).
  assert (throttled s' now times ∧ 0 < audit_window_started_ns s') as [Hs Hp].
  { subst s'. destruct (bool_decide (a_decision c = AUDIT_ALLOW)); [by split|].
    destruct (bool_decide _); (split; [by apply throttled_repeat|done]). }
  clearbody s'. destruct (_ && _); [done|]. destruct (Z.leb_spec 64 (audit_window_count s')); [done|].
  by apply (throttled_send s' last).
Qed.

(** The clock: positive, below 2^64 and never going back. *)
Fixpoint monotone (last : Z) (calls : list (Z * AuditCall)) : Prop :=
  match calls with
  | [] => True
  | (now, _) :: calls => last <= now ∧ 0 < now < 2 ^ 64 ∧ monotone now calls
  end.

Lemma throttled_run s last times calls : throttled s last times → monotone last calls →
  ∀ t, count_in t (t + second) (times ++ sent_times s calls) <= 128.
Proof.
  revert s last times. induction calls as [|[now c] calls IH]; intros s last times Hth Hm t; cbn [sent_times].
  { rewrite app_nil_r. by apply th_every with s last. }
  destruct Hm as (Hn & Hr & Hm). pose proof (throttled_admit s last times now c Hth Hn Hr) as Hstep.
  destruct (audit_admit s now c) as [s' []]; [|by eapply IH].
  change (now :: sent_times s' calls) with ([now] ++ sent_times s' calls). rewrite app_assoc. by eapply IH.
Qed.

Lemma throttled_init : throttled new_AuditState 0 [].
Proof. split; cbn; try done; unfold second; try lia; auto. Qed.

(** Audit output is bounded whatever the application does: over any
    sequence of calls on a clock that does not go back, no interval of one
    second holds more than 128 records. The bound is twice the window's 64: a
    burst at the end of one window may be followed by one at the start of the
    next. *)
Theorem audit_rate_bounded calls t : monotone 0 calls →
  count_in t (t + second) (sent_times new_AuditState calls) <= 128.
Proof. intros Hm. apply (throttled_run new_AuditState 0 [] calls throttled_init Hm). Qed.

(** ** Samples *)

Definition sample_call (decision : capsid_audit_decision) : AuditCall :=
  mkAudit STAGE_OPERATION decision 7 2 (bs "capsid:fs") (bs "read") (bs "path") (bs "/srv/app/config").

(** One record opens the window; 70 come just before its end and 70 after. *)
Definition burst : list (Z * AuditCall) :=
  map (λ now, (now, sample_call AUDIT_ALLOW)) (1 :: replicate 70 second ++ replicate 70 (second + 1)).

Lemma audit_rate_bounded_witness :
  monotone 0 burst ∧ count_in 2 (2 + second) (sent_times new_AuditState burst) = 127
  ∧ count_in 2 (2 + second) (sent_times new_AuditState burst) <= 128.
Proof.
  assert (monotone 0 burst) as Hm.
  { unfold burst, second. cbn [map replicate app monotone]. repeat (split; [lia|]). exact I. }
  split; [exact Hm|]. split; [vm_compute; reflexivity|]. exact (audit_rate_bounded burst 2 Hm).
Defined.

Definition sample_manifest : bytes := replicate 64 Byte.x61.
Definition sample_frame : Frame := audit_frame sample_compiled 42 sample_manifest (sample_call AUDIT_DENY).

Lemma audit_roundtrip_witness :
  capsid_audit_record_decode
    (Some (mkCapsidEvent CAPSID_EVENT_AUDIT 7 0 0 0 (Some (fpayload sample_frame)))) (Some 136)
  = inr (audit_record sample_compiled 42 sample_manifest (sample_call AUDIT_DENY)).
Proof.
  apply (audit_roundtrip sample_compiled 42 sample_manifest (sample_call AUDIT_DENY) _ 136 1000000 3
    new_OutboundBuffer); try split; vm_compute; first [reflexivity|discriminate].
Defined.
