(* ===== verification/RuntimeGates.v ===== *)
(** * RuntimeGates: the checks before an operation (src/worker_runtime.cc)

    The native callbacks through which application and binding code reach the
    network, the file system, the environment and the module loader, and the
    permission query. A gate returns its answer and the calls to [emit_audit]
    it makes, in order; a diagnostic buffer of [reason_size] bytes is the text
    left in it (size 0 also stands for a null pointer). A JavaScript exception
    is its message. *)
From Stdlib Require Import ZArith Lia.
From S2P Require Import Prelude Wire Protocol Jansson EgressPolicy CapabilityPolicy BindingPolicy AuditRecords.
Local Open Scope Z_scope.

(** ** State *)

(** The fields of the worker the gates use. *)
Record WorkerGates := mkGates {
  capability_policy : CapabilityPolicy;
  egress_policy : EgressPolicy;
  legacy_egress_configured : bool;
  binding_policies : list BindingPolicy;
  current_binding_id : bytes;
  loading_binding_id : bytes;
  active_request_id : Z;
  fs_allow_audited : gset bytes
}.

Definition snprintf (reason_size : Z) (text : bytes) : bytes := ztake (reason_size - 1) (cut_nul text).

(** Writes a diagnostic when there is a buffer. *)
Definition diagnose (reason_size : Z) (text : bytes) : bytes :=
  if reason_size =? 0 then [] else snprintf reason_size text.

(** ** Network *)

Definition set_egress_deny_reason (reason_size : Z) (resource : bytes) (deny_reason : EgressDenyReason) : bytes :=
  let head := bs "Network request denied by egress policy: " in
  diagnose reason_size
    match deny_reason with
    | Deny_kProtected =>
        head ++ bs "address '" ++ cut_nul resource
        ++ bs "' is in a protected range and not explicitly authorized"
    | Deny_kExplicitDeny => head ++ bs "denied by an explicit egress rule"
    | Deny_kNoMatch | Deny_kNone => head ++ bs "'" ++ cut_nul resource ++ bs "' is not authorized"
    end.

Section gates.
Context `{InetPton}.

Definition net_audit (w : WorkerGates) (decision : capsid_audit_decision) (rule : Z) (kind resource : bytes)
    : AuditCall :=
  mkAudit STAGE_OPERATION decision (active_request_id w) rule [] (bs "net") kind resource.

Definition egress_check (w : WorkerGates) (host : option bytes) (port : Z) (addr : option sockaddr)
    (address_len reason_size : Z) : bool * bytes * list AuditCall :=
  match host with
  | None => (false, [], [])
  | Some host =>
      if port =? 0 then (false, [], [])
      else
        let host_text := cut_nul host in
        let resource := host_text ++ bs ":" ++ decimal port in
        let deny (d : EgressDecision) (kind : bytes) :=
          (false, set_egress_deny_reason reason_size resource (deny_reason d),
           [net_audit w AUDIT_DENY (decided_rule d) kind resource]) in
        let cap := enabled (capability_policy w) in
        let policy := if cap then net_policy (capability_policy w) else egress_policy w in
        let decision := decide_host policy host_text port in
        if negb (allowed decision) then deny decision (bs "host")
        else
          let both := cap && legacy_egress_configured w in
          let legacy := decide_host (egress_policy w) host_text port in
          if both && negb (allowed legacy) then deny legacy (bs "host")
          else match addr with
          | Some _ =>
              let decision := decide_resolved_address_authoritative policy addr address_len port in
              if negb (allowed decision) then deny decision (bs "address")
              else
                let legacy := decide_resolved_address_authoritative (egress_policy w) addr address_len port in
                if both && negb (allowed legacy) then deny legacy (bs "address")
                else (true, [], [])
          | None => (true, [], [net_audit w AUDIT_ALLOW (decided_rule decision) (bs "host") resource])
          end
  end.

Definition effective_query (w : WorkerGates) (permission : capsid_permission_name) (resource : bytes)
    (port : Z) : PermissionDecision :=
  let decision := query (capability_policy w) permission resource port in
  if negb (bool_decide (permission = PERMISSION_NET)) || negb (legacy_egress_configured w) then decision
  else if bool_decide (resource = []) || (port =? 0) then
    let legacy := query_state (egress_policy w) in
    let state :=
      if bool_decide (perm_state decision = State_DENIED) || bool_decide (legacy = State_DENIED)
      then State_DENIED
      else if bool_decide (perm_state decision = State_GRANTED) && bool_decide (legacy = State_GRANTED)
      then State_GRANTED
      else State_PARTIAL in
    mkPermission state 0 (perm_resource decision)
  else
    let legacy := decide_host (egress_policy w) resource port in
    if bool_decide (perm_state decision = State_GRANTED) && negb (allowed legacy)
    then mkPermission State_DENIED (decided_rule legacy) (perm_resource decision)
    else decision.

Definition sockaddr_port (addr : sockaddr) (address_len : Z) : Z :=
  if bool_decide (sa_family addr = AF_INET) && (sizeof_sockaddr_in <=? address_len) then sa_port addr
  else if bool_decide (sa_family addr = AF_INET6) && (sizeof_sockaddr_in6 <=? address_len) then sa_port addr
  else 0.

Definition binding_egress_check (w : WorkerGates) (host : option bytes) (port : Z) (addr : option sockaddr)
    (address_len reason_size : Z) : bool * bytes :=
  let host := cut_nul <$> host in
  let no text := (false, diagnose reason_size text) in
  if bool_decide (host = None) && negb (bool_decide (is_Some addr)) then (false, [])
  else
    let dns_request := bool_decide (is_Some host) && (port =? 0) && negb (bool_decide (is_Some addr)) in
    let dns_denied := bs "CAPSID_DNS_EGRESS_DENIED: " ++ default [] host in
    match binding_policy (binding_policies w) (current_binding_id w) with
    | None => no (if dns_request then dns_denied else bs "egress denied: no binding net policy")
    | Some policy =>
        if negb (b_has_net_policy policy) then
          no (if dns_request then dns_denied else bs "egress denied: no binding net policy")
        else if dns_request then
          if negb (allowed (decide_host_any_port (b_egress policy) (default [] host))) then no dns_denied
          else (true, [])
        else
          let effective_port :=
            match addr with
            | Some a => if port =? 0 then sockaddr_port a address_len else port
            | None => port
            end in
          if effective_port =? 0 then (false, [])
          else
            let host_ok :=
              match host with
              | Some text => allowed (decide_host (b_egress policy) text effective_port)
              | None => true
              end in
            if negb host_ok then
              no (bs "egress denied by binding policy: " ++ default [] host ++ bs ":" ++ decimal effective_port)
            else
              match addr with
              | Some _ =>
                  if negb (allowed (decide_resolved_address_authoritative (b_egress policy) addr address_len
                                      effective_port))
                  then no (bs "egress denied by binding policy: resolved address")
                  else (true, [])
              | None => (true, [])
              end
    end.
End gates.

(** ** Files and streams *)

(** [access_kind] is 0 for a read, 1 for a write and 2 for a watch. *)
Definition binding_fs_check (w : WorkerGates) (path : option bytes) (access_kind reason_size : Z) : bool * bytes :=
  match path with
  | None => (false, [])
  | Some path =>
      let path := cut_nul path in
      let no text := (false, diagnose reason_size text) in
      let is_watch := access_kind =? 2 in
      match binding_policy (binding_policies w) (current_binding_id w) with
      | None => no (bs "fs denied: no binding policy")
      | Some policy =>
          if is_watch && negb (contains (b_profiles policy) (bs "filesystem-watch"))
          then no (bs "CAPSID_FSWATCH_PROFILE_DENIED")
          else
            let decision :=
              evaluate (b_capability policy) (if access_kind =? 1 then PERMISSION_WRITE else PERMISSION_READ) path in
            if negb (bool_decide (perm_state decision = State_GRANTED))
            then no (bs "fs denied by binding policy: " ++ path)
            else (true, [])
      end
  end.

Definition binding_stdio_check (w : WorkerGates) (stream : option bytes) (reason_size : Z) : bool * bytes :=
  match stream with
  | None => (false, [])
  | Some stream =>
      let stream := cut_nul stream in
      let denied := (false, diagnose reason_size (bs "stdio denied by binding policy: " ++ stream)) in
      match binding_policy (binding_policies w) (current_binding_id w) with
      | None => denied
      | Some policy => if contains (b_stdio policy) stream then (true, []) else denied
      end
  end.

Section user_gates.
Context `{InetPton}.

(** The application's file gate: an exception, or the decision to open under. *)
Definition fs_path (w : WorkerGates) (path : bytes) : (bytes + PermissionDecision) * WorkerGates * list AuditCall :=
  let audit decision rule resource :=
    mkAudit STAGE_OPERATION decision (active_request_id w) rule (bs "capsid:fs") (bs "read") (bs "path") resource in
  let decision := query (capability_policy w) PERMISSION_READ path 0 in
  if negb (bool_decide (perm_resource decision = path)) then
    (inl (bs "invalid filesystem path"), w, [audit AUDIT_DENY 0 (bs "<invalid>")])
  else if negb (bool_decide (perm_state decision = State_GRANTED)) then
    (inl (bs "filesystem access denied: " ++ cut_nul path), w, [audit AUDIT_DENY (perm_rule decision) (perm_resource decision)])
  else if bool_decide (path ∈ fs_allow_audited w) then (inr decision, w, [])
  else
    (inr decision,
     mkGates (capability_policy w) (egress_policy w) (legacy_egress_configured w) (binding_policies w)
       (current_binding_id w) (loading_binding_id w) (active_request_id w) (fs_allow_audited w ∪ {[ path ]}),
     [audit AUDIT_ALLOW (perm_rule decision) (perm_resource decision)]).

Definition js_env_get (w : WorkerGates) (name : bytes) : (bytes + option bytes) * list AuditCall :=
  let decision := evaluate (capability_policy w) PERMISSION_ENV name in
  let audit d :=
    mkAudit STAGE_OPERATION d (active_request_id w) (perm_rule decision) (bs "capsid:env") (bs "env")
      (bs "variable") (perm_resource decision) in
  if negb (bool_decide (perm_resource decision = name)) || bool_decide (Byte.x2a ∈ name) then
    (inl (bs "invalid environment variable name"), [])
  else if negb (bool_decide (perm_state decision = State_GRANTED)) then
    (inl (bs "environment access denied: " ++ cut_nul name), [audit AUDIT_DENY])
  else (inr (env_value (capability_policy w) name), [audit AUDIT_ALLOW]).
End user_gates.

(** ** Modules *)

Definition module_audit (stage : capsid_audit_stage) (d : capsid_audit_decision) (module capability : bytes)
    : AuditCall := mkAudit stage d 0 0 module capability (bs "specifier") module.

(** [declared] are the identifiers of the loaded bindings; a refusal leaves
    [denied_module_] and [module_error_]. *)
Definition normalize_module (w : WorkerGates) (declared : gset bytes) (base_name name : option bytes)
    : (bytes * bytes + bytes) * list AuditCall :=
  let module := match name with Some n => cut_nul n | None => bs "<unknown>" end in
  let grant capability := (inr module, [module_audit STAGE_MODULE AUDIT_ALLOW module capability]) in
  if bool_decide (cut_nul <$> base_name = Some (bs "tjs:hashing")) && bool_decide (module = bs "tjs:internal/core")
  then grant (bs "trusted utility dependency")
  else if starts_with module (bs "capsid:binding/") then
    if negb (bool_decide (zdrop 15 module ∈ declared))
    then (inl (module, bs "binding is not declared: " ++ module),
          [module_audit STAGE_MODULE AUDIT_DENY module (bs "binding")])
    else grant (bs "binding")
  else match module_decision (capability_policy w) module with
  | kModuleGranted => grant (bs "module")
  | kModuleUnavailable =>
      (inl (module, bs "module is unavailable: " ++ module), [module_audit STAGE_BUILD AUDIT_UNAVAILABLE module (bs "module")])
  | kModuleForbidden =>
      (inl (module, bs "module is forbidden: " ++ module), [module_audit STAGE_MODULE AUDIT_DENY module (bs "module")])
  | kModuleDenied =>
      (inl (module, bs "module is not authorized: " ++ module), [module_audit STAGE_MODULE AUDIT_DENY module (bs "module")])
  end.

Definition binding_implementation_module (public_name : bytes) : option bytes :=
  if negb (binding_module_known public_name) || negb (starts_with public_name (bs "capsid:")) then None
  else Some (bs "tjs:" ++ zdrop 7 public_name).

(** Base, requested name and public alias of the internal imports. *)
Definition internal_dependencies : list (bytes * bytes * bytes) :=
  [(bs "tjs:hashing", bs "tjs:internal/core", bs "capsid:internal/core");
   (bs "tjs:path", bs "tjs:internal/path", bs "capsid:internal/path");
   (bs "tjs:sqlite", bs "tjs:internal/core", bs "capsid:internal/core");
   (bs "tjs:wasi", bs "tjs:internal/core", bs "capsid:internal/core")].

Definition binding_internal_dependency (base_name : option bytes) (requested : bytes) : option bytes :=
  match base_name with
  | None => None
  | Some base =>
      snd <$> List.find (λ t, bool_decide (t.1 = (cut_nul base, requested))) internal_dependencies
  end.

Definition binding_normalize_module (w : WorkerGates) (base_name name : option bytes) : bytes + bytes :=
  let module := match name with Some n => cut_nul n | None => [] end in
  let id := if bool_decide (loading_binding_id w = []) then current_binding_id w else loading_binding_id w in
  let target :=
    match binding_implementation_module module with
    | Some implementation => Some (module, implementation)
    | None => (λ public, (public, module)) <$> binding_internal_dependency base_name module
    end in
  match target, binding_policy (binding_policies w) id with
  | Some (public, implementation), Some policy =>
      if bool_decide (binding_module_decision policy public = kModuleGranted) then inr implementation
      else inl (bs "module is not authorized for this binding: " ++ module)
  | _, _ => inl (bs "module is not authorized for this binding: " ++ module)
  end.

(** ** The network gate and the query agree *)

Section theorems.
Context `{InetPton}.

(** The policies that must let a connection through. *)
Definition governing (w : WorkerGates) : list EgressPolicy :=
  if enabled (capability_policy w)
  then net_policy (capability_policy w) :: (if legacy_egress_configured w then [egress_policy w] else [])
  else [egress_policy w].

Definition host_decision (e : EgressPolicy) (host : bytes) (port : Z) (kind : bytes) (d : EgressDecision) : Prop :=
  kind = bs "host" ∧ d = decide_host e host port.
Definition address_decision (e : EgressPolicy) (addr : option sockaddr) (len port : Z) (kind : bytes)
    (d : EgressDecision) : Prop :=
  is_Some addr ∧ kind = bs "address" ∧ d = decide_resolved_address_authoritative e addr len port.

(** The policy lets the host through and, when there is one, the address. *)
Definition lets (host : bytes) (port : Z) (addr : option sockaddr) (len : Z) (e : EgressPolicy) : Prop :=
  allowed (decide_host e host port) = true
  ∧ (is_Some addr → allowed (decide_resolved_address_authoritative e addr len port) = true).

Lemma new_policy_denies host port : allowed (decide_host new_EgressPolicy host port) = false.
Proof.
  unfold decide_host. destruct (port =? 0); [done|]. destruct (parse_numeric host) as [[fam b]|].
  - unfold decide_address. cbn [scan rules new_EgressPolicy].
    destruct (_ && is_ipv4_mapped b); destruct (_ && _); done.
  - by destruct (normalize_hostname host false) as [[name w]|].
Qed.

Lemma configured_net d p : configure_capability (Some d) = inr p →
  enabled p = true ∧ (has_net_policy p = false → net_policy p = new_EgressPolicy).
Proof.
  unfold configure_capability. cbv zeta.
  destruct (_ || _ || _ || _ || _ || _ || _ || _ || _); [done|]. destruct (negb _); [done|].
  destruct (compile_modules _ _) as [|ms]; [done|].
  destruct (compile_permission_rules _ _) as [|rs]; [done|].
  destruct (match cap_net_policy d with None => _ | Some _ => _ end) as [|net]; [done|].
  destruct (_ && negb (bool_decide (module_decision _ _ = _))); [done|].
  destruct (compile_env _ _ _ _) as [|es]; [done|]. intros [= <-]. split; [done|].
  cbn [has_net_policy net_policy]. intros Hn. apply bool_decide_eq_false_1 in Hn.
  destruct net; [by destruct Hn|done].
Qed.

Lemma query_granted w d host port : configure_capability (Some d) = inr (capability_policy w) →
  host ≠ [] → port ≠ 0 →
  perm_state (effective_query w PERMISSION_NET host port) = State_GRANTED ↔
  Forall (λ e, allowed (decide_host e host port) = true) (governing w).
Proof.
  intros Hc Hh Hp. destruct (configured_net d _ Hc) as [He Hn]. unfold effective_query, query, governing.
  rewrite He. cbn [negb orb]. rewrite (bool_decide_eq_false_2 (host = [])), (eqb_ne_false port 0) by done. cbn [orb].
  rewrite bool_decide_eq_true_2 by done. cbn [negb orb].
  destruct (has_net_policy (capability_policy w)) eqn:Hnet; cbn [negb].
  - destruct (allowed (decide_host (net_policy (capability_policy w)) host port)) eqn:Ha,
      (legacy_egress_configured w), (allowed (decide_host (egress_policy w) host port)) eqn:Hl;
      cbn; rewrite ?Forall_cons, ?Forall_nil, ?Ha, ?Hl; split; try done; tauto || (intros; by destruct_and?).
  - rewrite (Hn eq_refl), Forall_cons, new_policy_denies. destruct (legacy_egress_configured w); cbn; split; done || (by intros []).
Qed.

(** Some policy refused the host or the address, and that one decision is what
    the audit reports. *)
Definition refused (es : list EgressPolicy) (w : WorkerGates) (host : bytes) (port : Z) (addr : option sockaddr)
    (len : Z) (audits : list AuditCall) : Prop :=
  ∃ e kind dec, e ∈ es ∧ allowed dec = false
    ∧ (host_decision e host port kind dec ∨ address_decision e addr len port kind dec)
    ∧ audits = [net_audit w AUDIT_DENY (decided_rule dec) kind (host ++ bs ":" ++ decimal port)].

(** The stages of the gate, whether or not a capability policy is enabled. *)
Lemma egress_check_spec w host port addr len size ok reason audits : port ≠ 0 →
  egress_check w (Some host) port addr len size = (ok, reason, audits) →
  (ok = true ↔ Forall (lets (cut_nul host) port addr len) (governing w))
  ∧ (ok = false → refused (governing w) w (cut_nul host) port addr len audits).
Proof.
  intros Hp. unfold egress_check, governing. rewrite (eqb_ne_false port 0) by done. cbv zeta.
  set (cap := enabled (capability_policy w)).
  set (first := if cap then net_policy (capability_policy w) else egress_policy w).
  set (both := cap && legacy_egress_configured w). set (h := cut_nul host).
  replace (if cap then _ else [egress_policy w]) with (first :: if both then [egress_policy w] else [])
    by (subst first both; destruct cap; done).
  clearbody first both h. set (es := first :: _).
  assert (∀ e kind dec, e ∈ es → allowed dec = false →
    host_decision e h port kind dec ∨ address_decision e addr len port kind dec → ¬ lets h port addr len e →
    (false, set_egress_deny_reason size (h ++ bs ":" ++ decimal port) (deny_reason dec),
     [net_audit w AUDIT_DENY (decided_rule dec) kind (h ++ bs ":" ++ decimal port)]) = (ok, reason, audits) →
    (ok = true ↔ Forall (lets h port addr len) es) ∧ (ok = false → refused es w h port addr len audits)) as Hdeny.
  { intros e kind dec Hin Ha Hd Hl [= <- _ <-]. split; [|intros _; by exists e, kind, dec].
    split; [done|]. rewrite Forall_forall. intros Hall. by destruct Hl; apply Hall. }
  assert (both = true → egress_policy w ∈ es) as Hlegacy by (intros ->; right; by left).
  unfold lets in *.
  destruct (allowed (decide_host first h port)) eqn:Hf; cbn [negb].
  2:{ apply (Hdeny first); [by left|done|by left|by intros [Hx _]; rewrite Hf in Hx]. }
  destruct (both && negb (allowed (decide_host (egress_policy w) h port))) eqn:Hl.
  { apply andb_true_iff in Hl as [Hb Hl%negb_true_iff].
    apply (Hdeny (egress_policy w)); [by apply Hlegacy|done|by left|by intros [Hx _]; rewrite Hl in Hx]. }
  destruct addr as [a|].
  2:{ intros [= <- _ <-]. split; [|done]. split; [|done]. intros _. subst es. apply Forall_cons. split.
      - split; [done|]. by intros [].
      - destruct both; [|constructor]. apply Forall_singleton. split; [|by intros []].
        by apply negb_false_iff in Hl. }
  destruct (allowed (decide_resolved_address_authoritative first (Some a) len port)) eqn:Hfa; cbn [negb].
  2:{ apply (Hdeny first); [by left|done|right; split; [by eexists|done]|].
      intros [_ Hx]. rewrite Hfa in Hx. by specialize (Hx (mk_is_Some _ _ eq_refl)). }
  destruct (both && negb (allowed (decide_resolved_address_authoritative (egress_policy w) (Some a) len port))) eqn:Hla.
  { apply andb_true_iff in Hla as [Hb Hla%negb_true_iff].
    apply (Hdeny (egress_policy w)); [by apply Hlegacy|done|right; split; [by eexists|done]|].
    intros [_ Hx]. rewrite Hla in Hx. by specialize (Hx (mk_is_Some _ _ eq_refl)). }
  intros [= <- _ <-]. split; [|done]. split; [|done]. intros _. subst es. apply Forall_cons. split; [by split|].
  destruct both; [|constructor]. apply Forall_singleton. apply negb_false_iff in Hl, Hla. by split.
Qed.


(** ** Bindings pass only their own gates *)

Definition net_countable (d : WorkerBindingDescriptor) : Prop := zlen (wb_net_rules d) < 2 ^ 32.

(** The descriptor of the running binding. *)
Definition current (ds : list WorkerBindingDescriptor) (w : WorkerGates) (d : WorkerBindingDescriptor) : Prop :=
  d ∈ ds ∧ wb_name d = current_binding_id w.

Lemma current_unique ds w d e : configure_bindings ds = inr (binding_policies w) →
  current ds w d → current ds w e → d = e.
Proof. intros Hc [Hd Hdn] [He Hen]. eapply binding_unique; [exact Hc|done|done|congruence]. Qed.

(** The policy a gate looks up is the one compiled from that descriptor. *)
Lemma current_policy ds w : configure_bindings ds = inr (binding_policies w) →
  match binding_policy (binding_policies w) (current_binding_id w) with
  | Some p => ∃ d, current ds w d ∧ compile_binding d = inr p
  | None => ∀ d, ¬ current ds w d
  end.
Proof.
  intros Hc. destruct (binding_policy _ _) as [p|] eqn:Hp.
  - apply (binding_policy_spec ds _ _ _ Hc) in Hp as (d & Hin & Hn & Hcomp). exists d. by repeat split.
  - intros d [Hin Hn]. eapply binding_found in Hin as [p Hq]; [|exact Hc|exact Hn]. by rewrite Hp in Hq.
Qed.

Section confined.
Context `{!InetPtonLaws H} (ds : list WorkerBindingDescriptor) (w : WorkerGates) (size : Z).
Hypothesis Hconf : configure_bindings ds = inr (binding_policies w).
Hypothesis Hcount : Forall countable ds.
Hypothesis Hnet : Forall net_countable ds.

Lemma current_exists d (P : WorkerBindingDescriptor → Prop) : current ds w d →
  (∃ e, current ds w e ∧ P e) ↔ P d.
Proof.
  intros Hd. split; [|by exists d]. intros (e & He & HP). by rewrite (current_unique ds w d e Hconf Hd He).
Qed.

Lemma fs_gate_confined path kind : (binding_fs_check w (Some path) kind size).1 = true ↔
  ∃ d, current ds w d ∧ (kind = 2 → bs "filesystem-watch" ∈ wb_profiles d)
    ∧ binding_reaches d (if kind =? 1 then PERMISSION_WRITE else PERMISSION_READ) (cut_nul path).
Proof.
  pose proof (current_policy ds w Hconf) as Hcur. unfold binding_fs_check. cbv zeta.
  destruct (binding_policy _ _) as [p|]; [|split; [done|]; intros (d & Hd & _); by destruct (Hcur d)].
  destruct Hcur as (d & Hd & Hcomp).
  destruct (compile_binding_parts d p Hcomp) as (Hcap & _ & _ & _ & _ & _ & Hpr & _).
  rewrite (current_exists d) by done. rewrite Forall_forall in Hcount.
  rewrite <- (binding_capability_exact d (b_capability p)) by (done || apply Hcount, Hd).
  rewrite Hpr. unfold contains. destruct (Z.eqb_spec kind 2) as [->|Hk]; cbn [andb Z.eqb Pos.eqb].
  - case_bool_decide as Hw; cbn [negb]; [case_bool_decide; cbn; split; tauto || (by intros []) || done|].
    split; [done|]. intros [Hx _]. by destruct Hw; apply Hx.
  - case_bool_decide as Hg; cbn; split; try done; by intros [_ ?].
Qed.

Lemma stdio_gate_confined stream : (binding_stdio_check w (Some stream) size).1 = true ↔
  ∃ d, current ds w d ∧ cut_nul stream ∈ wb_stdio d.
Proof.
  pose proof (current_policy ds w Hconf) as Hcur. unfold binding_stdio_check. cbv zeta.
  destruct (binding_policy _ _) as [p|]; [|split; [done|]; intros (d & Hd & _); by destruct (Hcur d)].
  destruct Hcur as (d & Hd & Hcomp). rewrite (current_exists d) by done.
  destruct (compile_binding_parts d p Hcomp) as (_ & _ & _ & _ & _ & _ & _ & Hst). rewrite Hst. unfold contains.
  by case_bool_decide.
Qed.

Lemma net_gate_confined host port name wild : port ≠ 0 → parse_numeric (cut_nul host) = None →
  normalize_hostname (cut_nul host) false = Some (name, wild) →
  (binding_egress_check w (Some host) port None 0 size).1 = true ↔
  ∃ d, current ds w d ∧ ∃ text, text ∈ wb_net_rules d ∧ target_covers text name port.
Proof.
  intros Hp Hnum Hname. pose proof (current_policy ds w Hconf) as Hcur. unfold binding_egress_check. cbv zeta.
  cbn [fmap option_fmap option_map]. rewrite (bool_decide_eq_false_2 (Some _ = None)) by done. cbn [andb].
  rewrite (eqb_ne_false port 0) by done. rewrite andb_false_r. cbn [andb].
  destruct (binding_policy _ _) as [p|]; [|split; [done|]; intros (d & Hd & _); by destruct (Hcur d)].
  destruct Hcur as (d & Hd & Hcomp). destruct (compile_binding_parts d p Hcomp) as (_ & _ & _ & _ & _ & Hn & _).
  rewrite (current_exists d) by done. rewrite Forall_forall in Hnet. case_bool_decide as He.
  - rewrite Hn, He. cbn. split; [done|]. by intros (t & []%not_elem_of_nil & _).
  - destruct Hn as [-> Hcn]. cbn [negb].
    rewrite <- (binding_hosts_exact _ (b_egress p) (cut_nul host) port name wild (Hnet d (proj1 Hd)) Hcn Hp Hnum Hname).
    by destruct (allowed (decide_host (b_egress p) (cut_nul host) port)).
Qed.
End confined.

(** C31. Binding code is confined to its descriptor. Under a compiled table,
    the file gate lets the running binding through exactly for the paths its
    own scopes hold (a watch also needs the watch profile), the stream gate
    exactly for the streams it lists, and the network gate lets it reach a host
    name exactly when one of its targets covers the name on that port; without
    a declared binding all three refuse. No other policy is consulted. *)
Theorem binding_gates_confined `{!InetPtonLaws H} ds w size :
  configure_bindings ds = inr (binding_policies w) → Forall countable ds → Forall net_countable ds →
  (∀ path kind, (binding_fs_check w (Some path) kind size).1 = true ↔
     ∃ d, current ds w d ∧ (kind = 2 → bs "filesystem-watch" ∈ wb_profiles d)
       ∧ binding_reaches d (if kind =? 1 then PERMISSION_WRITE else PERMISSION_READ) (cut_nul path))
  ∧ (∀ stream, (binding_stdio_check w (Some stream) size).1 = true ↔
       ∃ d, current ds w d ∧ cut_nul stream ∈ wb_stdio d)
  ∧ (∀ host port name wild, port ≠ 0 → parse_numeric (cut_nul host) = None →
       normalize_hostname (cut_nul host) false = Some (name, wild) →
       (binding_egress_check w (Some host) port None 0 size).1 = true ↔
       ∃ d, current ds w d ∧ ∃ text, text ∈ wb_net_rules d ∧ target_covers text name port).
Proof.
  intros Hc Hcount Hnet.
  split_and!; [by apply fs_gate_confined|by apply stdio_gate_confined|by apply net_gate_confined].
Qed.

Lemma scan_allow m rs found id : Forall (λ r, action r = CAPSID_EGRESS_ALLOW) rs →
  ∃ result, scan m rs found id = inr result.
Proof.
  intros Hall. revert found id. induction Hall as [|r rs Hr Hall IH]; intros found id; cbn [scan]; [by eexists|].
  destruct (negb (m r)); [apply IH|]. rewrite Hr. apply IH.
Qed.

(** The address stage of the binding gate refuses nothing on its own: given only
    a socket address, any IPv4 address with a port passes once the binding has a
    network policy, since the compiled rules are all allow rules. *)
Lemma address_stage_open `{!InetPtonLaws H} ds w d port a len size :
  configure_bindings ds = inr (binding_policies w) → current ds w d → net_countable d →
  wb_net_rules d ≠ [] → zlen a = 4 → port ≠ 0 → sizeof_sockaddr_in <= len →
  (binding_egress_check w None 0 (Some (mkSockaddr AF_INET port a)) len size).1 = true.
Proof.
  intros Hc Hd Hcn Hne Ha Hp Hlen. unfold binding_egress_check. cbv zeta. cbn [fmap option_fmap option_map].
  rewrite (bool_decide_eq_true_2 (is_Some (Some _))) by by eexists. rewrite andb_false_r.
  pose proof (current_policy ds w Hc) as Hcur. destruct (binding_policy _ _) as [p|]; [|by destruct (Hcur d)].
  destruct Hcur as (e & He & Hcomp). rewrite <- (current_unique ds w d e Hc Hd He) in Hcomp.
  destruct (compile_binding_parts d p Hcomp) as (_ & _ & _ & _ & _ & Hn & _).
  rewrite bool_decide_eq_false_2 in Hn by done. destruct Hn as [-> Hcn'].
  assert (sockaddr_port (mkSockaddr AF_INET port a) len = port) as Hport.
  { unfold sockaddr_port. cbn [sa_family sa_port]. rewrite bool_decide_eq_true_2 by done.
    by rewrite (proj2 (Z.leb_le _ len)). }
  cbn [negb Z.eqb andb]. rewrite andb_false_r, Hport, (eqb_ne_false port 0) by done.
  unfold decide_resolved_address_authoritative, decide_resolved_address_impl.
  rewrite (eqb_ne_false port 0) by done. cbn [sa_family sa_port sa_bytes].
  rewrite bool_decide_eq_true_2, (proj2 (Z.leb_le _ len)), Z.eqb_refl by done. cbn [andb negb].
  unfold decide_address. destruct (scan_allow (address_rule a AF_INET port) (rules (b_egress p)) false 0) as [[f id] ->].
  { apply Forall_forall. intros t Ht. by destruct (compile_net_allows _ _ t Hcn Hcn' Ht). }
  by destruct f.
Qed.

(** ** Files, environment and modules *)

(** The file gate hands on only canonical paths inside an allowed scope: the
    path opened is spelled with the components the decision was made on. *)
Lemma fs_path_canonical w d path decision w' audits :
  0 <= cap_module_count d → 0 <= cap_rule_count d →
  configure_capability (Some d) = inr (capability_policy w) →
  fs_path w path = (inr decision, w', audits) →
  ∃ cs, path = text_of cs ∧ names path cs ∧ covers (capability_policy w) PERMISSION_READ PERMISSION_ALLOW cs
    ∧ ¬ covers (capability_policy w) PERMISSION_READ PERMISSION_DENY cs.
Proof.
  intros Hm Hr Hc. pose proof (configured_wf d _ Hm Hr Hc) as Hwf. unfold fs_path. cbv zeta. cbn [query].
  set (dec := evaluate (capability_policy w) PERMISSION_READ path).
  case_bool_decide as Hres; cbn [negb]; [|done]. case_bool_decide as Hg; cbn [negb]; [|done]. intros _.
  apply path_access in Hg as (Hl & cs & Hn & Ha & Hd); [|done|by left].
  exists cs. split; [|done]. rewrite <- Hres.
  assert (normalize_query_resource PERMISSION_READ path = Some (text_of cs)) as Hq
    by (apply normalize_path_spec; eauto).
  destruct (evaluate_spec (capability_policy w) PERMISSION_READ path _ (wf_enabled _ Hwf) eq_refl Hq)
    as (allow & deny & _ & _ & Heq). subst dec. rewrite Heq. by destruct deny, allow.
Qed.

(** A variable is handed out only when granted, and only from the snapshot. *)
Lemma env_get_granted w name value audits : js_env_get w name = (inr (Some value), audits) →
  perm_state (evaluate (capability_policy w) PERMISSION_ENV name) = State_GRANTED
  ∧ env_value (capability_policy w) name = Some value.
Proof.
  unfold js_env_get. cbv zeta. destruct (_ || _); [done|]. case_bool_decide as Hg; cbn [negb]; [|done].
  by intros [= -> _].
Qed.

(** A binding loads a module only when its own descriptor lists the public name
    of that module. *)
Lemma binding_module_listed ds w base name implementation :
  configure_bindings ds = inr (binding_policies w) →
  binding_normalize_module w base name = inr implementation →
  ∃ d public, d ∈ ds ∧ public ∈ wb_modules d
    ∧ (binding_implementation_module public = Some implementation
       ∨ binding_internal_dependency base implementation = Some public).
Proof.
  intros Hc. unfold binding_normalize_module. cbv zeta.
  set (module := match name with Some n => cut_nul n | None => [] end).
  set (id := if bool_decide (loading_binding_id w = []) then _ else _).
  assert (∀ public impl, (match binding_policy (binding_policies w) id with
      | Some policy => if bool_decide (binding_module_decision policy public = kModuleGranted) then inr impl
                       else inl (bs "module is not authorized for this binding: " ++ module)
      | None => inl (bs "module is not authorized for this binding: " ++ module) end = inr implementation) →
    impl = implementation ∧ ∃ d, d ∈ ds ∧ public ∈ wb_modules d) as Hpol.
  { intros public impl. destruct (binding_policy _ _) as [p|] eqn:Hp; [|done].
    case_bool_decide as Hm; [|done]. intros [= ->]. split; [done|].
    apply (binding_policy_spec ds _ _ _ Hc) in Hp as (d & Hin & _ & Hcomp). exists d. split; [done|].
    destruct (compile_binding_parts d p Hcomp) as (_ & _ & Hmod & _). rewrite <- Hmod.
    revert Hm. unfold binding_module_decision, contains. case_bool_decide; [done|].
    by destruct (binding_module_forbidden public). }
  destruct (binding_implementation_module module) as [impl|] eqn:Hi.
  - intros [-> (d & Hin & Hmod)]%Hpol. exists d, module. auto.
  - destruct (binding_internal_dependency base module) as [public|] eqn:Hb; cbn [fmap option_fmap option_map]; [|done].
    intros [<- (d & Hin & Hmod)]%Hpol. exists d, public. auto.
Qed.

(** Without a capability policy the gate follows the worker's own policy, while
    the query reports the network as denied. *)
Lemma query_without_policy w host port : enabled (capability_policy w) = false → cut_nul host ≠ [] → port ≠ 0 →
  allowed (decide_host (egress_policy w) (cut_nul host) port) = true →
  (egress_check w (Some host) port None 0 0).1.1 = true
  ∧ perm_state (effective_query w PERMISSION_NET (cut_nul host) port) = State_DENIED.
Proof.
  intros He Hh Hp Ha. split.
  - destruct (egress_check w (Some host) port None 0 0) as [[ok reason] audits] eqn:E.
    apply egress_check_spec in E as [Hok _]; [|done]. cbn. apply Hok. unfold governing. rewrite He.
    apply Forall_singleton. split; [done|]. by intros [].
  - unfold effective_query, query. rewrite He. cbn [negb orb].
    rewrite (bool_decide_eq_false_2 (cut_nul host = [])), (eqb_ne_false port 0) by done. cbn [orb].
    destruct (_ || _); [done|]. done.
Qed.

End theorems.

(** ** Samples *)

(** Hosts under example.com on port 443, one block excepted. *)
Definition sample_net : capsid_egress_policy :=
  mkEgressDescriptor sizeof_egress_policy 0
    (Some [mkEgressRule sizeof_egress_rule 1 (Some (bs "*.example.com")) 443 443 10 0;
           mkEgressRule sizeof_egress_rule 0 (Some (bs "203.0.113.0/24")) 0 0 11 0]) 2 0.

Definition sample_capability : capsid_capability_policy :=
  mkCapabilityDescriptor 80 2 (Some (bs "app")) None 0 None 0 (Some sample_net) 0 None 0 0.

Definition sample_gates : WorkerGates :=
  mkGates (match configure_capability (Some sample_capability) with inr p => p | inl _ => new_CapabilityPolicy end)
    new_EgressPolicy false sample_table (bs "db") [] 7 ∅.

Definition sample_address : option sockaddr :=
  Some (mkSockaddr AF_INET 443 [Byte.xcb; Byte.x00; Byte.x71; Byte.x05]).


Lemma binding_gates_confined_witness :
  configure_bindings [sample_binding; sample_cache] = inr (binding_policies sample_gates)
  ∧ (∃ d, current [sample_binding; sample_cache] sample_gates d
       ∧ ∃ text, text ∈ wb_net_rules d ∧ target_covers text (bs "db.example.com") 5432)
  ∧ (binding_fs_check sample_gates (Some (bs "/tmp/cache/x")) 1 64).1 = false.
Proof.
  assert (configure_bindings [sample_binding; sample_cache] = inr (binding_policies sample_gates)) as Hc
    by (vm_compute; reflexivity).
  split; [exact Hc|]. split; [|vm_compute; reflexivity].
  destruct (binding_gates_confined [sample_binding; sample_cache] sample_gates 64 Hc) as (_ & _ & Hnet);
    [repeat constructor..|].
  apply (Hnet (bs "DB.example.com.") 5432 (bs "db.example.com") false); vm_compute; try reflexivity. discriminate.
Defined.
