(* ===== verification/IpcValidation.v ===== *)
(** * IpcValidation: what the worker accepts at startup (src/ipc_validation.cc)

    The worker's decoders of the frames the Host sends before the first event:
    HELLO with its limits and policies, LOAD_BINDING, LOAD_BUNDLE, and the head
    of a request; and the startup state machine that consumes them. A decoder
    returns the rest of its cursor, or its error text. The READY proof of the
    same source is in [ReadyProof]. *)
From Stdlib Require Import ZArith Lia.
From S2P Require Import Prelude Wire Protocol Jansson EgressPolicy CapabilityPolicy BindingPolicy.
Local Open Scope Z_scope.

(** ** Grammars of a binding descriptor *)

Definition kMaxBindingDescriptorBytes : Z := 1024 * 1024.
Definition kMaxBindingSourceBytes : Z := 16 * 1024 * 1024.
Definition kMaxBindingConfigBytes : Z := 256 * 1024.
Definition kMaxBindingSecrets : Z := 64.
Definition kMaxBindingSecretValueBytes : Z := 256 * 1024.
Definition kMaxBindingRules : Z := 1024.
Definition kMaxBindingModules : Z := 64.
Definition kMaxBindingEnvEntries : Z := 256.
Definition kMaxBindingStdioEntries : Z := 3.
Definition kMaxBindingPathBytes : Z := 4096.

Definition contains_nul (value : bytes) : bool := bool_decide (Byte.x00 ∈ value).

Definition valid_binding_name (value : bytes) : bool :=
  match value with
  | [] => false
  | first :: _ =>
      negb (63 <? zlen value) && l_islower first
      && forallb (λ c, l_islower c || l_isdigit c || (u8 c =? 45)) value
  end.

(** [value.find("..")]. *)
Fixpoint has_dot_dot (value : bytes) : bool :=
  match value with
  | a :: (b :: _) as rest => ((u8 a =? 46) && (u8 b =? 46)) || has_dot_dot rest
  | _ => false
  end.

Definition valid_binding_secret_key (value : bytes) : bool :=
  negb (bool_decide (value = [])) && (zlen value <=? 256) && negb (has_dot_dot value)
  && forallb (λ c, is_alnum c || (u8 c =? 46) || (u8 c =? 95) || (u8 c =? 45)) value.

Definition valid_binding_path (value : bytes) : bool :=
  negb (bool_decide (value = [])) && (byte_at value 0 =? 47) && (zlen value <=? kMaxBindingPathBytes)
  && negb (contains_nul value).

Definition valid_binding_env_name (value : bytes) : bool :=
  match value with
  | [] => false
  | first :: _ =>
      negb (256 <? zlen value) && negb (bool_decide (Byte.x2a ∈ value))
      && (l_isalpha first || (u8 first =? 95)) && forallb env_char value
  end.

Definition valid_binding_stdio (value : bytes) : bool := contains stdio_values value.

Definition valid_binding_port (port : bytes) : bool :=
  if bool_decide (port = []) || (5 <? zlen port) then false
  else bool_decide (is_Some (target_port port)).

Definition label_ok (label : bytes) : bool :=
  negb (bool_decide (label = [])) && (zlen label <=? 63) && negb (starts_with label (bs "-"))
  && negb (last_is label Byte.x2d) && forallb (λ c, is_alnum c || (u8 c =? 45)) label.

Definition valid_binding_hostname (host : bytes) : bool :=
  let star := (2 <=? zlen host) && starts_with host (bs "*.") in
  if negb star && bool_decide (Byte.x2a ∈ host) then false
  else
    let rest := if star then zdrop 2 host else host in
    if bool_decide (rest = []) || (253 <? zlen host) then false
    else forallb label_ok (split_on Byte.x2e rest []).

(** The digits of a prefix length no larger than [limit]. *)
Fixpoint prefix_digits (text : bytes) (limit value : Z) : bool :=
  match text with
  | [] => true
  | c :: text =>
      if l_isdigit c then
        let value := value * 10 + (u8 c - 48) in
        if limit <? value then false else prefix_digits text limit value
      else false
  end.

Section grammar.
Context `{InetPton}.

Definition valid_binding_numeric_host (host : bytes) : bool :=
  match split_at Byte.x2f host with
  | None => bool_decide (is_Some (pton4 (cut_nul host)))
  | Some (address, prefix_text) =>
      negb (bool_decide (prefix_text = [])) && prefix_digits prefix_text 32 0
      && bool_decide (is_Some (pton4 (cut_nul address)))
  end.

Definition valid_binding_host (host : bytes) : bool :=
  if bool_decide (host = []) then false
  else if bool_decide (host = bs "*") then true
  else if forallb (λ c, l_isdigit c || (u8 c =? 46) || (u8 c =? 47)) host then valid_binding_numeric_host host
  else valid_binding_hostname host.

Definition valid_binding_net_target (target : bytes) : bool :=
  match target with
  | [] => false
  | c :: rest =>
      if bool_decide (c = Byte.x5b) then
        match split_at Byte.x5d rest with
        | Some (inner, d :: port) =>
            bool_decide (d = Byte.x3a)
            && match split_at Byte.x2f inner with
               | None => bool_decide (is_Some (pton6 (cut_nul inner)))
               | Some (address, prefix_text) =>
                   bool_decide (is_Some (pton6 (cut_nul address))) && prefix_digits prefix_text 128 0
               end
            && valid_binding_port port
        | _ => false
        end
      else
        match split_at Byte.x3a target with
        | Some (host, port) =>
            negb (bool_decide (Byte.x3a ∈ port)) && valid_binding_host host && valid_binding_port port
        | None => false
        end
  end.
End grammar.

(** ** Reading *)

Definition read_string16 (cursor : bytes) : option (bytes * bytes) :=
  match read_u16 cursor with
  | None => None
  | Some (size, cursor) =>
      if zlen cursor <? size then None else Some (ztake size cursor, zdrop size cursor)
  end.

Definition read_string32 (cursor : bytes) : option (bytes * bytes) :=
  match read_u32 cursor with
  | None => None
  | Some (size, cursor) =>
      if zlen cursor <? size then None else Some (ztake size cursor, zdrop size cursor)
  end.

(** [count] rounds of the same decoder. *)
Fixpoint read_many {A} (read : bytes → option (A * bytes)) (count : nat) (cursor : bytes)
    : option (list A * bytes) :=
  match count with
  | O => Some ([], cursor)
  | S count =>
      match read cursor with
      | None => None
      | Some (x, cursor) =>
          match read_many read count cursor with
          | None => None
          | Some (rest, cursor) => Some (x :: rest, cursor)
          end
      end
  end.

(** ** The binding descriptor *)

(** [out] holds the items read so far. *)
Fixpoint read_binding_items (check : bytes → bool) (count : nat) (cursor : bytes) (out : list bytes)
    : option (list bytes * bytes) :=
  match count with
  | O => Some (out, cursor)
  | S count =>
      match read_string16 cursor with
      | None => None
      | Some (item, cursor) =>
          if contains_nul item || negb (check item) || contains out item then None
          else read_binding_items check count cursor (out ++ [item])
      end
  end.

Definition read_binding_list (max_items : Z) (check : bytes → bool) (label : string) (cursor : bytes)
    : string + list bytes * bytes :=
  match read_u32 cursor with
  | None => inl "invalid binding list count"%string
  | Some (count, cursor) =>
      if max_items <? count then inl "invalid binding list count"%string
      else match read_binding_items check (Z.to_nat count) cursor [] with
      | None => inl ("invalid binding " +:+ label)%string
      | Some result => inr result
      end
  end.

Fixpoint read_secrets (count : nat) (cursor : bytes) (secrets : list (bytes * bytes))
    : string + list (bytes * bytes) * bytes :=
  match count with
  | O => inr (secrets, cursor)
  | S count =>
      match read_string16 cursor with
      | None => inl "invalid binding secret key"%string
      | Some (key, cursor) =>
          if contains_nul key || negb (valid_binding_secret_key key) || contains (map fst secrets) key
          then inl "invalid binding secret key"%string
          else match read_u32 cursor with
          | None => inl "invalid binding secret value"%string
          | Some (value_size, cursor) =>
              if (kMaxBindingSecretValueBytes <? value_size) || (zlen cursor <? value_size)
              then inl "invalid binding secret value"%string
              else read_secrets count (zdrop value_size cursor) (secrets ++ [(key, ztake value_size cursor)])
          end
      end
  end.

(** Binding in the error sum, with the error passed on. *)
Definition bind_error {A B : Type} (m : string + A) (f : A → string + B) : string + B :=
  match m with inl error => inl error | inr x => f x end.

Notation "' p <~ m ; k" := (bind_error m (λ x, let p := x in k))
  (at level 20, p pattern, m at level 100, k at level 200, right associativity).

Section blob.
Context `{InetPton}.

(** The descriptor's sections, to its end. *)
Definition parse_binding_sections (cursor : bytes) (source : bytes) : string + WorkerBindingDescriptor :=
  match read_string16 cursor with
  | None => inl "invalid binding name"%string
  | Some (name, cursor) =>
      if contains_nul name || negb (valid_binding_name name) then inl "invalid binding name"%string
      else match read_string32 cursor with
      | None => inl "invalid binding config"%string
      | Some (config_json, cursor) =>
          if contains_nul config_json || (kMaxBindingConfigBytes <? zlen config_json)
          then inl "invalid binding config"%string
          else match read_u32 cursor with
          | None => inl "invalid binding secret count"%string
          | Some (secret_count, cursor) =>
              if kMaxBindingSecrets <? secret_count then inl "invalid binding secret count"%string
              else
                '(secrets, cursor) <~ read_secrets (Z.to_nat secret_count) cursor [];
                '(profiles, cursor) <~ read_binding_list 6 binding_profile_known "sandbox profile" cursor;
                '(modules, cursor) <~ read_binding_list kMaxBindingModules binding_module_known "module" cursor;
                '(net_rules, cursor) <~ read_binding_list kMaxBindingRules valid_binding_net_target "net target" cursor;
                '(fs_read, cursor) <~ read_binding_list kMaxBindingRules valid_binding_path "fs read path" cursor;
                '(fs_write, cursor) <~ read_binding_list kMaxBindingRules valid_binding_path "fs write path" cursor;
                '(env, cursor) <~ read_binding_list kMaxBindingEnvEntries valid_binding_env_name "environment name" cursor;
                '(stdio, cursor) <~ read_binding_list kMaxBindingStdioEntries valid_binding_stdio "stdio stream" cursor;
                if negb (bool_decide (cursor = [])) then inl "binding descriptor has trailing bytes"%string
                else if kMaxBindingSourceBytes <? zlen source then inl "binding source exceeds the size limit"%string
                else inr (mkBindingDescriptor name source config_json secrets profiles modules net_rules fs_read
                            fs_write env stdio)
          end
      end
  end.

Definition parse_binding_blob (blob : bytes) : string + WorkerBindingDescriptor :=
  match read_u32 blob with
  | None => inl "invalid binding descriptor length"%string
  | Some (descriptor_size, cursor) =>
      if (descriptor_size =? 0) || (kMaxBindingDescriptorBytes <? descriptor_size) || (zlen cursor <? descriptor_size)
      then inl "invalid binding descriptor length"%string
      else parse_binding_sections (ztake descriptor_size cursor) (zdrop descriptor_size cursor)
  end.
End blob.

(** ** HELLO *)

Record WireEgressPolicy := mkWireEgress {
  wire_default_action : Z;
  wire_rules : list capsid_egress_rule
}.

Definition read_egress_rule (cursor : bytes) : option (capsid_egress_rule * bytes) :=
  match read_u32 cursor with None => None | Some (action, cursor) =>
  match read_u16 cursor with None => None | Some (port_start, cursor) =>
  match read_u16 cursor with None => None | Some (port_end, cursor) =>
  match read_u32 cursor with None => None | Some (rule_id, cursor) =>
  match read_string16 cursor with None => None | Some (target, cursor) =>
  if (1 <? action) || contains_nul target then None
  else Some (mkEgressRule sizeof_egress_rule action (Some target) port_start port_end rule_id 0, cursor)
  end end end end end.

Definition decode_wire_egress (cursor : bytes) : string + WireEgressPolicy * bytes :=
  match read_u32 cursor with
  | None => inl "invalid HELLO egress header"%string
  | Some (default_action, cursor) =>
      match read_u32 cursor with
      | None => inl "invalid HELLO egress header"%string
      | Some (rule_count, cursor) =>
          if (1 <? default_action) || (256 <? rule_count) then inl "invalid HELLO egress header"%string
          else match read_many read_egress_rule (Z.to_nat rule_count) cursor with
          | None => inl "invalid HELLO egress rule"%string
          | Some (rules, cursor) => inr (mkWireEgress default_action rules, cursor)
          end
      end
  end.

(** The descriptor both policies are configured from. *)
Definition wire_descriptor (wire : WireEgressPolicy) : capsid_egress_policy :=
  mkEgressDescriptor sizeof_egress_policy (wire_default_action wire)
    (if bool_decide (wire_rules wire = []) then None else Some (wire_rules wire))
    (u32 (zlen (wire_rules wire))) 0.

Definition read_permission_rule (cursor : bytes) : option (capsid_permission_rule * bytes) :=
  match read_u32 cursor with None => None | Some (action, cursor) =>
  match read_u32 cursor with None => None | Some (permission, cursor) =>
  match read_u32 cursor with None => None | Some (rule_id, cursor) =>
  match read_string16 cursor with None => None | Some (resource, cursor) =>
  if (1 <? action) || (permission <? 1) || (10 <? permission) || (permission =? 3) || contains_nul resource then None
  else Some (mkPermissionRule sizeof_permission_rule action permission
               (if bool_decide (resource = []) then None else Some resource) rule_id 0, cursor)
  end end end end.

Definition read_module (cursor : bytes) : option (option bytes * bytes) :=
  match read_string16 cursor with
  | None => None
  | Some (name, cursor) => if contains_nul name then None else Some (Some name, cursor)
  end.

Definition read_env_entry (cursor : bytes) : option (capsid_env_entry * bytes) :=
  match read_string16 cursor with None => None | Some (name, cursor) =>
  match read_string16 cursor with None => None | Some (value, cursor) =>
  if contains_nul name || contains_nul value then None
  else Some (mkEnvEntry sizeof_env_entry (Some name) (Some value) 0, cursor)
  end end.

(** The fields of the capability section as they are on the wire. *)
Record WireCapability := mkWireCapability {
  wc_version : Z;
  wc_identity : bytes;
  wc_modules : list (option bytes);
  wc_rules : list capsid_permission_rule;
  wc_net : WireEgressPolicy;
  wc_has_environment : bool;
  wc_env : list capsid_env_entry
}.

Definition read_wire_capability (cursor : bytes) : string + WireCapability * bytes :=
  match read_u32 cursor with None => inl "invalid HELLO capability header"%string | Some (version, cursor) =>
  match read_string16 cursor with None => inl "invalid HELLO capability header"%string | Some (app, cursor) =>
  if contains_nul app then inl "invalid HELLO capability header"%string else
  match read_u16 cursor with None => inl "invalid HELLO capability header"%string | Some (module_count, cursor) =>
  if 64 <? module_count then inl "invalid HELLO capability header"%string else
  match read_many read_module (Z.to_nat module_count) cursor with
  | None => inl "invalid HELLO allowed module"%string
  | Some (modules, cursor) =>
  match read_u16 cursor with None => inl "invalid HELLO permission header"%string | Some (rule_count, cursor) =>
  if 256 <? rule_count then inl "invalid HELLO permission header"%string else
  match read_many read_permission_rule (Z.to_nat rule_count) cursor with
  | None => inl "invalid HELLO permission rule"%string
  | Some (rules, cursor) =>
  '(net, cursor) <~ decode_wire_egress cursor;
  if bool_decide (cursor = []) then inr (mkWireCapability version app modules rules net false [], cursor)
  else match read_u16 cursor with
  | None => inl "invalid HELLO environment snapshot header"%string
  | Some (env_count, cursor) =>
      if 256 <? env_count then inl "invalid HELLO environment snapshot header"%string
      else match read_many read_env_entry (Z.to_nat env_count) cursor with
      | None => inl "invalid HELLO environment snapshot entry"%string
      | Some (entries, cursor) => inr (mkWireCapability version app modules rules net true entries, cursor)
      end
  end end end end end end end.

Definition none_if_nil {A} (l : list A) : option (list A) :=
  match l with [] => None | _ => Some l end.

Definition capability_descriptor (wc : WireCapability) : capsid_capability_policy :=
  mkCapabilityDescriptor
    (if wc_version wc =? 1 then offsetof_env_entries else sizeof_capability_policy) (wc_version wc)
    (if bool_decide (wc_identity wc = []) then None else Some (wc_identity wc))
    (none_if_nil (wc_modules wc)) (zlen (wc_modules wc)) (none_if_nil (wc_rules wc)) (zlen (wc_rules wc))
    (Some (wire_descriptor (wc_net wc))) 0 (none_if_nil (wc_env wc)) (zlen (wc_env wc)) 0.

Section hello.
Context `{InetPton}.

Definition configure_wire_egress (wire : WireEgressPolicy) : string + EgressPolicy :=
  match configure (Some (wire_descriptor wire)) with
  | inl _ => inl "invalid HELLO egress policy"%string
  | inr policy => inr policy
  end.

Definition configure_wire_capability (wc : WireCapability) : string + CapabilityPolicy :=
  if wc_version wc =? 0 then
    if negb (bool_decide (wc_identity wc = [])) || negb (bool_decide (wc_modules wc = []))
       || negb (bool_decide (wc_rules wc = [])) || negb (wire_default_action (wc_net wc) =? 0)
       || negb (bool_decide (wire_rules (wc_net wc) = [])) || negb (bool_decide (wc_env wc = []))
    then inl "disabled HELLO capability policy has data"%string
    else inr new_CapabilityPolicy
  else if negb (wc_version wc =? 1) && negb (wc_version wc =? 2)
  then inl "unknown HELLO capability policy version"%string
  else if (wc_version wc =? 2) && negb (wc_has_environment wc)
  then inl "version 2 capability policy lacks environment section"%string
  else if (wc_version wc =? 1) && negb (bool_decide (wc_env wc = []))
  then inl "version 1 capability policy has environment data"%string
  else match configure_capability (Some (capability_descriptor wc)) with
  | inl _ => inl "invalid HELLO capability policy"%string
  | inr policy => inr policy
  end.

Definition decode_wire_capability (cursor : bytes) : string + CapabilityPolicy * bytes :=
  '(wc, cursor) <~ read_wire_capability cursor;
  'policy <~ configure_wire_capability wc;
  inr (policy, cursor).
End hello.

Record WorkerStartupConfig := mkStartupConfig {
  protocol_version : Z;
  host_capabilities : Z;
  js_stack_size : Z;
  max_inflight : Z;
  initial_window : Z;
  max_header_bytes : Z;
  max_queued_bytes : Z;
  file_descriptor_limit : Z;
  timeout_ms : Z;
  strict_sandbox : bool;
  sandbox_required_features : Z;
  preinstalled_sandbox_features : Z;
  js_heap_limit : Z;
  process_memory_limit : Z;
  max_fetch_request_body_bytes : Z;
  max_fetch_response_body_bytes : Z;
  tls_ca_bundle_path : bytes;
  config_legacy_egress : bool;
  config_egress : EgressPolicy;
  config_capability : CapabilityPolicy
}.

Definition new_WorkerStartupConfig : WorkerStartupConfig :=
  mkStartupConfig 3 0 (1024 * 1024) 128 (256 * 1024) (64 * 1024) (4 * 1024 * 1024) 64 30000 false 0 0
    (64 * 1024 * 1024) (256 * 1024 * 1024) 0 0 [] false new_EgressPolicy new_CapabilityPolicy.

Definition CAPSID_ABI_VERSION : Z := 7.
Definition SANDBOX_FEATURE_STRICT_BASE : Z := 15.
Definition SANDBOX_FEATURE_CGROUP_V2 : Z := 256.
Definition SANDBOX_FEATURE_ALL : Z := 1023.

(** The fixed fields up to the strictness byte. *)
Record HelloLimits := mkHelloLimits {
  h_js_heap_limit : Z;
  h_process_memory_limit : Z;
  h_file_descriptor_limit : Z;
  h_timeout_ms : Z;
  h_js_stack_size : Z;
  h_max_inflight : Z;
  h_initial_window : Z;
  h_max_header_bytes : Z;
  h_max_queued_bytes : Z;
  h_strict : Z
}.

Definition read_hello_limits (cursor : bytes) : option (HelloLimits * bytes) :=
  match read_u32 cursor with None => None | Some (abi, cursor) =>
  if negb (abi =? CAPSID_ABI_VERSION) then None else
  match read_u64 cursor with None => None | Some (heap, cursor) =>
  match read_u64 cursor with None => None | Some (memory, cursor) =>
  match read_u32 cursor with None => None | Some (fds, cursor) =>
  match read_u64 cursor with None => None | Some (timeout, cursor) =>
  match read_u32 cursor with None => None | Some (stack, cursor) =>
  match read_u32 cursor with None => None | Some (inflight, cursor) =>
  match read_u32 cursor with None => None | Some (window, cursor) =>
  match read_u32 cursor with None => None | Some (headers, cursor) =>
  match read_u32 cursor with None => None | Some (queued, cursor) =>
  match cursor with
  | [] => None
  | strict :: cursor =>
      Some (mkHelloLimits heap memory fds timeout stack inflight window headers queued (u8 strict), cursor)
  end end end end end end end end end end end.

(** [payload_size] is the size of the whole payload. *)
Definition hello_valid (payload_size : Z) (l : HelloLimits) (required preinstalled request response : Z) : bool :=
  let max_safe_js_integer := 9007199254740991 in
  let strict := negb (h_strict l =? 0) in
  (h_strict l <=? 1) && (h_js_heap_limit l <=? 2 ^ 31 - 1) && negb (h_timeout_ms l =? 0)
  && negb (h_js_stack_size l =? 0) && negb (h_max_inflight l =? 0) && negb (h_initial_window l =? 0)
  && (8 <=? h_max_header_bytes l) && (h_max_header_bytes l <=? kMaxPayloadSize)
  && (kHeaderSize + kHelloLegacyFixedPayloadSize <=? h_max_queued_bytes l)
  && (h_max_queued_bytes l <=? kMaxBufferedBytes) && (payload_size <=? u64 (h_max_queued_bytes l - kHeaderSize))
  && (4 <=? h_file_descriptor_limit l) && (request <=? max_safe_js_integer) && (response <=? max_safe_js_integer)
  && flags_within required SANDBOX_FEATURE_ALL && flags_within preinstalled SANDBOX_FEATURE_CGROUP_V2
  && flags_within preinstalled required
  && (strict || ((required =? 0) && (preinstalled =? 0)))
  && (negb strict || (Z.land required SANDBOX_FEATURE_STRICT_BASE =? SANDBOX_FEATURE_STRICT_BASE))
  && ((h_process_memory_limit l =? 0) || (h_js_heap_limit l <=? h_process_memory_limit l)).

Section decode_hello.
Context `{InetPton}.

(** The sandbox fields, the CA path and the Fetch limits. *)
Definition read_hello_controls (cursor : bytes) : string + (Z * Z * bytes * Z * Z) * bytes :=
  match read_u32 cursor with None => inl "truncated HELLO sandbox fields"%string | Some (required, cursor) =>
  match read_u32 cursor with None => inl "truncated HELLO sandbox fields"%string | Some (preinstalled, cursor) =>
  match read_u16 cursor with None => inl "invalid HELLO CA path"%string | Some (ca_size, cursor) =>
  if (4096 <? ca_size) || (zlen cursor <? ca_size + 43) then inl "invalid HELLO CA path"%string else
  let path := ztake ca_size cursor in
  let cursor := zdrop ca_size cursor in
  if contains_nul path then inl "invalid HELLO Fetch controls"%string else
  match read_u64 cursor with None => inl "invalid HELLO Fetch controls"%string | Some (request, cursor) =>
  match read_u64 cursor with None => inl "invalid HELLO Fetch controls"%string | Some (response, cursor) =>
  inr ((required, preinstalled, path, request, response), cursor)
  end end end end end.

(** The egress policy of the worker and whether it was configured. *)
Definition read_hello_egress (cursor : bytes) : string + (EgressPolicy * bool) * bytes :=
  match decode_wire_egress cursor with
  | inl _ | inr (_, []) => inl "invalid HELLO legacy egress state"%string
  | inr (legacy, flag :: cursor) =>
      if (1 <? u8 flag)
         || ((u8 flag =? 0) && (negb (wire_default_action legacy =? 0) || negb (bool_decide (wire_rules legacy = []))))
      then inl EmptyString
      else
        'policy <~ configure_wire_egress legacy;
        inr ((policy, negb (u8 flag =? 0)), cursor)
  end.

(** The capability bits of a version 4 frame. *)
Definition read_hello_tail (wire_version : Z) (cursor : bytes) : string + Z * bytes :=
  if wire_version =? kVersionV4 then
    match read_u32 cursor with None => inl "invalid HELLO capabilities"%string | Some (capabilities, cursor) =>
    match read_u32 cursor with None => inl "invalid HELLO capabilities"%string | Some (reserved, cursor) =>
    if negb (reserved =? 0) || negb (flags_within capabilities kCapabilitiesKnownMask)
    then inl "invalid HELLO capabilities"%string else inr (capabilities, cursor)
    end end
  else inr (0, cursor).

Definition decode_hello (frame : Frame) : string + WorkerStartupConfig :=
  if negb (ftype frame =? kHello)
     || (negb (fversion frame =? kVersion) && negb (fversion frame =? kVersionV4))
     || negb (fflags frame =? 0) || negb (frequest_id frame =? 0)
     || (zlen (fpayload frame) <? kHelloLegacyFixedPayloadSize) || (kMaxPayloadSize <? zlen (fpayload frame))
  then inl "invalid HELLO frame"%string
  else match read_hello_limits (fpayload frame) with
  | None => inl "truncated HELLO fixed fields"%string
  | Some (l, cursor) =>
      '((required, preinstalled, path, request, response), cursor) <~ read_hello_controls cursor;
      '((egress, legacy), cursor) <~ read_hello_egress cursor;
      '(capability, cursor) <~ decode_wire_capability cursor;
      '(capabilities, cursor) <~ read_hello_tail (fversion frame) cursor;
      if negb (bool_decide (cursor = [])) then inl "trailing HELLO payload"%string
      else if negb (hello_valid (zlen (fpayload frame)) l required preinstalled request response)
      then inl "invalid HELLO configuration"%string
      else inr (mkStartupConfig (if fversion frame =? kVersionV4 then kVersionV4 else 3) capabilities
                  (h_js_stack_size l) (h_max_inflight l) (h_initial_window l) (h_max_header_bytes l)
                  (h_max_queued_bytes l) (h_file_descriptor_limit l) (h_timeout_ms l) (negb (h_strict l =? 0))
                  required preinstalled (h_js_heap_limit l) (h_process_memory_limit l) request response path
                  legacy egress capability)
  end.
End decode_hello.

(** ** The startup state machine *)

Record WorkerStartupState := mkStartupState {
  config : WorkerStartupConfig;
  hello_received : bool;
  bundle_started : bool;
  bundle_complete : bool;
  bundle_is_trusted_bytecode : bool;
  bundle : bytes;
  bundle_name : bytes;
  bindings : list WorkerBindingDescriptor;
  binding_blob : bytes;
  binding_inflight : bool
}.

Definition new_WorkerStartupState : WorkerStartupState :=
  mkStartupState new_WorkerStartupConfig false false false false [] (bs "capsid:app/main") [] [] false.

Definition flag_set (flags bit : Z) : bool := negb (flag_clear flags bit).

(** The name in front of the first chunk of a named bundle, and the rest. *)
Definition read_bundle_name (payload : bytes) : string + bytes * bytes :=
  match read_u16 payload with
  | None => inl "truncated bundle name"%string
  | Some (name_size, cursor) =>
      if (name_size =? 0) || (4096 <? name_size) || (zlen cursor <? name_size) then inl "invalid bundle name"%string
      else if contains_nul (ztake name_size cursor) then inl "NUL in bundle name"%string
      else inr (ztake name_size cursor, zdrop name_size cursor)
  end.

Definition consume_bundle (s : WorkerStartupState) (frame : Frame) : string + WorkerStartupState :=
  let flags := fflags frame in
  let starts := flag_set flags kFlagStart in
  if negb (ftype frame =? kLoadBundle) || negb (frequest_id frame =? 0)
     || negb (flags_within flags (Z.lor (Z.lor (Z.lor kFlagStart kFlagEnd) kFlagBundleName) kFlagTrustedBytecode))
     || (flag_set flags kFlagBundleName && negb starts) || (flag_set flags kFlagTrustedBytecode && negb starts)
     || bundle_complete s || binding_inflight s
  then inl "invalid startup frame sequence"%string
  else if (starts && bundle_started s) || (negb starts && negb (bundle_started s))
  then inl "invalid bundle start sequence"%string
  else
    '(new_name, rest) <~ (if flag_set flags kFlagBundleName then read_bundle_name (fpayload frame)
                          else inr (bundle_name s, fpayload frame));
    let limit := max_queued_bytes (config s) in
    if (limit <? zlen (bundle s)) || (u64 (limit - zlen (bundle s)) <? zlen rest)
    then inl "bundle buffer limit exceeded"%string
    else inr (mkStartupState (config s) (hello_received s) (starts || bundle_started s)
                (flag_set flags kFlagEnd || bundle_complete s)
                (if starts then flag_set flags kFlagTrustedBytecode else bundle_is_trusted_bytecode s)
                (bundle s ++ rest) (if starts then new_name else bundle_name s) (bindings s) (binding_blob s)
                (binding_inflight s)).

Section startup.
Context `{InetPton}.

Definition with_binding (s : WorkerStartupState) (bs : list WorkerBindingDescriptor) (blob : bytes)
    (inflight : bool) : WorkerStartupState :=
  mkStartupState (config s) (hello_received s) (bundle_started s) (bundle_complete s)
    (bundle_is_trusted_bytecode s) (bundle s) (bundle_name s) bs blob inflight.

(** A refused descriptor still ends the sequence in flight. *)
Definition consume_load_binding (s : WorkerStartupState) (frame : Frame) : option string * WorkerStartupState :=
  let starts := flag_set (fflags frame) kFlagStart in
  if negb (frequest_id frame =? 0) || negb (flags_within (fflags frame) (Z.lor kFlagStart kFlagEnd))
  then (Some "invalid binding frame flags"%string, s)
  else if starts && (bundle_started s || binding_inflight s) then (Some "invalid binding start sequence"%string, s)
  else if negb starts && negb (binding_inflight s) then (Some "invalid binding continuation sequence"%string, s)
  else
    let limit := max_queued_bytes (config s) in
    if (limit <? zlen (binding_blob s)) || (u64 (limit - zlen (binding_blob s)) <? zlen (fpayload frame))
    then (Some "binding buffer limit exceeded"%string, s)
    else
      let blob := binding_blob s ++ fpayload frame in
      if flag_set (fflags frame) kFlagEnd then
        match parse_binding_blob blob with
        | inl error => (Some error, with_binding s (bindings s) [] false)
        | inr descriptor => (None, with_binding s (bindings s ++ [descriptor]) [] false)
        end
      else (None, with_binding s (bindings s) blob true).

(** The error, if any, and the state after the frame. *)
Definition consume (s : WorkerStartupState) (frame : Frame) : option string * WorkerStartupState :=
  if negb (hello_received s) then
    match decode_hello frame with
    | inl error => (Some error, s)
    | inr decoded =>
        (None, mkStartupState decoded true (bundle_started s) (bundle_complete s) (bundle_is_trusted_bytecode s)
                 (bundle s) (bundle_name s) (bindings s) (binding_blob s) (binding_inflight s))
    end
  else if ftype frame =? kLoadBinding then consume_load_binding s frame
  else match consume_bundle s frame with
  | inl error => (Some error, s)
  | inr s => (None, s)
  end.
End startup.

(** ** The head of a request *)

Record WorkerRequestHead := mkRequestHead {
  method : bytes;
  url : bytes;
  headers : list (bytes * bytes);
  bodyless : bool
}.

Definition read_header (cursor : bytes) : option ((bytes * bytes) * bytes) :=
  match read_string16 cursor with None => None | Some (name, cursor) =>
  match read_string32 cursor with None => None | Some (value, cursor) =>
  if bool_decide (name = []) then None else Some ((name, value), cursor)
  end end.

Definition decode_worker_request_head (frame : Frame) (max_header_bytes : Z) : string + WorkerRequestHead :=
  if negb (ftype frame =? kRequestHead) || negb (flags_within (fflags frame) kFlagRequestEnd)
     || (frequest_id frame =? 0) || (zlen (fpayload frame) <? 8) || (max_header_bytes <? zlen (fpayload frame))
     || (kMaxPayloadSize <? zlen (fpayload frame))
  then inl "invalid request head frame"%string
  else match read_string16 (fpayload frame) with
  | None => inl "invalid request head fields"%string
  | Some (m, cursor) =>
      match read_string32 cursor with
      | None => inl "invalid request head fields"%string
      | Some (u, cursor) =>
          if bool_decide (m = []) || bool_decide (u = []) then inl "invalid request head fields"%string
          else match read_u16 cursor with
          | None => inl "invalid request head fields"%string
          | Some (count, cursor) =>
              match read_many read_header (Z.to_nat count) cursor with
              | None => inl "invalid request header"%string
              | Some (hs, cursor) =>
                  if negb (bool_decide (cursor = [])) then inl "trailing request head payload"%string
                  else inr (mkRequestHead m u hs (flag_set (fflags frame) kFlagRequestEnd))
              end
          end
      end
  end.

(** ** Laws of the readers

    [wire16] and [wire32] are the encodings the readers accept; a reader that
    reads back [enc a] in front of any tail [reads] the values that are [ok]. *)

Definition wire16 (s : bytes) : bytes := le_bytes 2 (zlen s) ++ s.
Definition wire32 (s : bytes) : bytes := le_bytes 4 (zlen s) ++ s.

Definition reads {A} (read : bytes → option (A * bytes)) (enc : A → bytes) (ok : A → Prop) : Prop :=
  ∀ a rest, ok a → read (enc a ++ rest) = Some (a, rest).

Definition recovers {A} (read : bytes → option (A * bytes)) (enc : A → bytes) (ok : A → Prop) : Prop :=
  ∀ c a rest, read c = Some (a, rest) → c = enc a ++ rest ∧ ok a.

Definition short16 (s : bytes) : Prop := zlen s < 2 ^ 16.
Definition short32 (s : bytes) : Prop := zlen s < 2 ^ 32.

Lemma contains_nul_false s : contains_nul s = false ↔ Byte.x00 ∉ s.
Proof. unfold contains_nul. by rewrite bool_decide_eq_false. Qed.

Lemma to_nat_zlen {A} (l : list A) : Z.to_nat (zlen l) = length l.
Proof. unfold zlen. lia. Qed.

Lemma zlen_wire16 s : zlen (wire16 s) = 2 + zlen s.
Proof. unfold wire16. by rewrite zlen_app, zlen_le_bytes. Qed.

Lemma zlen_wire32 s : zlen (wire32 s) = 4 + zlen s.
Proof. unfold wire32. by rewrite zlen_app, zlen_le_bytes. Qed.

#[export] Hint Rewrite zlen_wire16 zlen_wire32 : zlist.

Lemma read_string16_reads : reads read_string16 wire16 short16.
Proof.
  intros s rest Hs. unfold read_string16, wire16. pose proof (zlen_nonneg s).
  rewrite <- app_assoc, read_u16_le by done. rewrite ltb_ge_false by zlen_lia.
  by rewrite ztake_app, zdrop_app.
Qed.

Lemma read_string32_reads : reads read_string32 wire32 short32.
Proof.
  intros s rest Hs. unfold read_string32, wire32. pose proof (zlen_nonneg s).
  rewrite <- app_assoc, read_u32_le by done. rewrite ltb_ge_false by zlen_lia.
  by rewrite ztake_app, zdrop_app.
Qed.

Lemma read_string16_recovers : recovers read_string16 wire16 short16.
Proof.
  intros c s rest. unfold read_string16. destruct (read_u16 c) as [[n c']|] eqn:Hc; [|done].
  apply read_u16_inv in Hc as [-> Hn]. destruct (zlen c' <? n) eqn:Hlt; [done|]. apply Z.ltb_ge in Hlt.
  intros [= <- <-]. unfold wire16, short16. rewrite zlen_ztake by lia. split; [|lia].
  by rewrite <- app_assoc, ztake_zdrop.
Qed.

Lemma read_string32_recovers : recovers read_string32 wire32 short32.
Proof.
  intros c s rest. unfold read_string32. destruct (read_u32 c) as [[n c']|] eqn:Hc; [|done].
  apply read_u32_inv in Hc as [-> Hn]. destruct (zlen c' <? n) eqn:Hlt; [done|]. apply Z.ltb_ge in Hlt.
  intros [= <- <-]. unfold wire32, short32. rewrite zlen_ztake by lia. split; [|lia].
  by rewrite <- app_assoc, ztake_zdrop.
Qed.

Lemma read_many_reads {A} read enc (ok : A → Prop) l rest : reads read enc ok → Forall ok l →
  read_many read (length l) (concat (map enc l) ++ rest) = Some (l, rest).
Proof.
  intros Hread. induction 1 as [|a l Ha Hl IH]; [done|]. cbn [map concat length read_many].
  by rewrite <- app_assoc, Hread, IH.
Qed.

Lemma read_many_recovers {A} read enc (ok : A → Prop) n c l rest : recovers read enc ok →
  read_many read n c = Some (l, rest) → c = concat (map enc l) ++ rest ∧ Forall ok l ∧ length l = n.
Proof.
  intros Hread. revert c l. induction n as [|n IH]; intros c l; cbn [read_many]; [by intros [= <- <-]|].
  destruct (read c) as [[a c']|] eqn:Hc; [|done]. destruct (read_many read n c') as [[l' c'']|] eqn:Hl; [|done].
  intros [= <- <-]. apply Hread in Hc as [-> Ha]. apply IH in Hl as (-> & Hl & <-). cbn [map concat length].
  rewrite <- app_assoc. by repeat constructor.
Qed.

(** ** The head of a request: the accepted payloads *)

Definition header_bytes (h : bytes * bytes) : bytes := wire16 h.1 ++ wire32 h.2.

Definition header_ok (h : bytes * bytes) : Prop := short16 h.1 ∧ short32 h.2 ∧ h.1 ≠ [].

Definition head_payload (h : WorkerRequestHead) : bytes :=
  wire16 (method h) ++ wire32 (url h) ++ le_bytes 2 (zlen (headers h)) ++ concat (map header_bytes (headers h)).

Definition head_ok (h : WorkerRequestHead) : Prop :=
  short16 (method h) ∧ short32 (url h) ∧ method h ≠ [] ∧ url h ≠ [] ∧ zlen (headers h) < 2 ^ 16
  ∧ Forall header_ok (headers h).

Lemma read_header_reads : reads read_header header_bytes header_ok.
Proof.
  intros [n v] rest (Hn & Hv & Hne). unfold read_header, header_bytes. cbn [fst snd] in *.
  rewrite <- app_assoc, read_string16_reads, read_string32_reads by done. by rewrite bool_decide_eq_false_2.
Qed.

Lemma read_header_recovers : recovers read_header header_bytes header_ok.
Proof.
  intros c h rest. unfold read_header. destruct (read_string16 c) as [[n c1]|] eqn:Hn; [|done].
  destruct (read_string32 c1) as [[v c2]|] eqn:Hv; [|done]. case_bool_decide as Hne; [done|]. intros [= <- <-].
  apply read_string16_recovers in Hn as [-> Hn]. apply read_string32_recovers in Hv as [-> Hv].
  unfold header_bytes. by rewrite <- app_assoc.
Qed.

Lemma zlen_head_payload h : head_ok h → 8 <= zlen (head_payload h).
Proof.
  intros _. unfold head_payload. autorewrite with zlist. rewrite zlen_le_bytes.
  pose proof (zlen_nonneg (method h)). pose proof (zlen_nonneg (url h)).
  pose proof (zlen_nonneg (concat (map header_bytes (headers h)))). lia.
Qed.

Lemma read_head_payload h : head_ok h →
  read_string16 (head_payload h)
  = Some (method h, wire32 (url h) ++ le_bytes 2 (zlen (headers h)) ++ concat (map header_bytes (headers h)))
  ∧ read_string32 (wire32 (url h) ++ le_bytes 2 (zlen (headers h)) ++ concat (map header_bytes (headers h)))
    = Some (url h, le_bytes 2 (zlen (headers h)) ++ concat (map header_bytes (headers h)))
  ∧ read_u16 (le_bytes 2 (zlen (headers h)) ++ concat (map header_bytes (headers h)))
    = Some (zlen (headers h), concat (map header_bytes (headers h)))
  ∧ read_many read_header (Z.to_nat (zlen (headers h))) (concat (map header_bytes (headers h)))
    = Some (headers h, []).
Proof.
  intros (Hm & Hu & _ & _ & Hc & Hh). unfold head_payload. rewrite read_string16_reads, read_string32_reads by done.
  rewrite read_u16_le by (pose proof (zlen_nonneg (headers h)); lia). rewrite to_nat_zlen.
  pose proof (read_many_reads _ _ _ _ [] read_header_reads Hh) as Hread. by rewrite app_nil_r in Hread.
Qed.

Definition head_frame_ok (frame : Frame) (max_header_bytes : Z) : Prop :=
  ftype frame = kRequestHead ∧ flags_within (fflags frame) kFlagRequestEnd = true ∧ frequest_id frame ≠ 0
  ∧ zlen (fpayload frame) <= max_header_bytes ∧ zlen (fpayload frame) <= kMaxPayloadSize.

Lemma decode_head_inv frame max h : decode_worker_request_head frame max = inr h →
  head_frame_ok frame max ∧ fpayload frame = head_payload h ∧ head_ok h
  ∧ bodyless h = flag_set (fflags frame) kFlagRequestEnd.
Proof.
  unfold decode_worker_request_head. destruct (_ || _) eqn:Hg; [done|]. bools.
  destruct (read_string16 _) as [[m c1]|] eqn:Hm; [|done]. destruct (read_string32 c1) as [[u c2]|] eqn:Hu; [|done].
  destruct (_ || _) eqn:He; [done|]. bools. destruct (read_u16 c2) as [[n c3]|] eqn:Hn; [|done].
  destruct (read_many _ _ c3) as [[hs c4]|] eqn:Hh; [|done]. case_bool_decide as Hc4; [|done]. intros [= <-].
  apply read_string16_recovers in Hm as [Hp Hm]. apply read_string32_recovers in Hu as [-> Hu].
  apply read_u16_inv in Hn as [-> Hn]. apply (read_many_recovers _ _ _ _ _ _ _ read_header_recovers) in Hh as (-> & Hh & Hlen).
  assert (zlen hs = n) as Hz by (unfold zlen; rewrite Hlen; lia). subst.
  unfold head_frame_ok, head_payload, head_ok. cbn [method url headers bodyless]. rewrite app_nil_r in Hp.
  repeat split; try done; lia.
Qed.

Lemma decode_head_ok frame max_header_bytes h : head_frame_ok frame max_header_bytes → fpayload frame = head_payload h →
  head_ok h → bodyless h = flag_set (fflags frame) kFlagRequestEnd →
  decode_worker_request_head frame max_header_bytes = inr h.
Proof.
  intros (Ht & Hf & Hid & Hmax & Hsz) Hp Hok Hb.
  pose proof (zlen_head_payload h Hok) as H8. rewrite <- Hp in H8.
  unfold decode_worker_request_head. rewrite Ht, Z.eqb_refl, Hf, (eqb_ne_false _ _ Hid), !ltb_ge_false by lia.
  cbn [negb orb]. rewrite Hp. destruct (read_head_payload h Hok) as (-> & -> & -> & ->).
  destruct Hok as (_ & _ & Hm & Hu & _). rewrite !bool_decide_eq_false_2 by done. cbn [orb].
  rewrite bool_decide_eq_true_2 by done. cbn [negb]. rewrite <- Hb. by destruct h.
Qed.

(** The request heads the worker accepts, and what it reads from them: exactly
    the frames whose payload is the encoding of a head with a method, a URL and
    named headers, within both size limits. *)
Theorem request_head_exact frame max_header_bytes h :
  decode_worker_request_head frame max_header_bytes = inr h
  ↔ head_frame_ok frame max_header_bytes ∧ fpayload frame = head_payload h ∧ head_ok h
    ∧ bodyless h = flag_set (fflags frame) kFlagRequestEnd.
Proof. split; [apply decode_head_inv|]. intros (Hf & Hp & Hok & Hb). by apply decode_head_ok. Qed.

(** ** The binding descriptor: the accepted blobs *)

Definition item_ok (check : bytes → bool) (item : bytes) : Prop :=
  short16 item ∧ ¬ (Byte.x00 ∈ item) ∧ check item = true.

Definition list_ok (max_items : Z) (check : bytes → bool) (items : list bytes) : Prop :=
  zlen items <= max_items ∧ Forall (item_ok check) items ∧ NoDup items.

Definition list_bytes (items : list bytes) : bytes := le_bytes 4 (zlen items) ++ concat (map wire16 items).

Definition secret_ok (s : bytes * bytes) : Prop :=
  item_ok valid_binding_secret_key s.1 ∧ zlen s.2 <= kMaxBindingSecretValueBytes.

Definition secret_bytes (s : bytes * bytes) : bytes := wire16 s.1 ++ wire32 s.2.

Definition secrets_ok (secrets : list (bytes * bytes)) : Prop :=
  zlen secrets <= kMaxBindingSecrets ∧ Forall secret_ok secrets ∧ NoDup (map fst secrets).

Definition secrets_bytes (secrets : list (bytes * bytes)) : bytes :=
  le_bytes 4 (zlen secrets) ++ concat (map secret_bytes secrets).

Definition descriptor_bytes (d : WorkerBindingDescriptor) : bytes :=
  wire16 (wb_name d) ++ wire32 (wb_config_json d) ++ secrets_bytes (wb_secrets d) ++ list_bytes (wb_profiles d)
  ++ list_bytes (wb_modules d) ++ list_bytes (wb_net_rules d) ++ list_bytes (wb_fs_read d)
  ++ list_bytes (wb_fs_write d) ++ list_bytes (wb_env d) ++ list_bytes (wb_stdio d).

Definition blob_bytes (d : WorkerBindingDescriptor) : bytes :=
  le_bytes 4 (zlen (descriptor_bytes d)) ++ descriptor_bytes d ++ wb_source d.

Section binding_ok.
Context `{InetPton}.

Record binding_ok (d : WorkerBindingDescriptor) : Prop := {
  ok_name : item_ok valid_binding_name (wb_name d);
  ok_config : zlen (wb_config_json d) <= kMaxBindingConfigBytes;
  ok_config_nul : Byte.x00 ∉ wb_config_json d;
  ok_secrets : secrets_ok (wb_secrets d);
  ok_profiles : list_ok 6 binding_profile_known (wb_profiles d);
  ok_modules : list_ok kMaxBindingModules binding_module_known (wb_modules d);
  ok_net : list_ok kMaxBindingRules valid_binding_net_target (wb_net_rules d);
  ok_fs_read : list_ok kMaxBindingRules valid_binding_path (wb_fs_read d);
  ok_fs_write : list_ok kMaxBindingRules valid_binding_path (wb_fs_write d);
  ok_env : list_ok kMaxBindingEnvEntries valid_binding_env_name (wb_env d);
  ok_stdio : list_ok kMaxBindingStdioEntries valid_binding_stdio (wb_stdio d);
  ok_descriptor : zlen (descriptor_bytes d) <= kMaxBindingDescriptorBytes;
  ok_source : zlen (wb_source d) <= kMaxBindingSourceBytes
}.
End binding_ok.

Lemma read_binding_items_reads check items rest out : Forall (item_ok check) items → NoDup (out ++ items) →
  read_binding_items check (length items) (concat (map wire16 items) ++ rest) out = Some (out ++ items, rest).
Proof.
  intros Hall. revert out. induction Hall as [|i items (Hs & Hz & Hc) _ IH]; intros out Hnd;
    cbn [map concat length read_binding_items]; [by rewrite app_nil_r|].
  rewrite <- app_assoc, read_string16_reads by done. rewrite (proj2 (contains_nul_false i) Hz), Hc.
  assert (i ∉ out) as Hi. { apply NoDup_app in Hnd as (_ & Hnd & _). intros Hin. apply (Hnd i Hin). left. }
  unfold contains. rewrite bool_decide_eq_false_2 by done. cbn [negb orb].
  rewrite IH; rewrite <- app_assoc; done.
Qed.

Lemma read_binding_items_recovers check n c out items rest : NoDup out →
  read_binding_items check n c out = Some (items, rest) →
  ∃ more, items = out ++ more ∧ c = concat (map wire16 more) ++ rest ∧ Forall (item_ok check) more
          ∧ NoDup items ∧ length more = n.
Proof.
  revert c out. induction n as [|n IH]; intros c out Hnd; cbn [read_binding_items].
  { intros [= <- <-]. exists []. rewrite app_nil_r. by repeat constructor. }
  destruct (read_string16 c) as [[i c']|] eqn:Hc; [|done]. apply read_string16_recovers in Hc as [-> Hs].
  destruct (_ || _) eqn:Hg; [done|]. bools. intros Hrest.
  match goal with H : contains_nul i = false |- _ => apply contains_nul_false in H end.
  match goal with H : contains out i = false |- _ => apply bool_decide_eq_false in H end.
  apply IH in Hrest as (more & -> & -> & Hall & Hnd' & Hlen).
  2: { apply NoDup_app. split; [done|]. split; [|apply NoDup_singleton].
       intros x Hx Hi. apply list_elem_of_singleton in Hi as ->. done. }
  exists (i :: more). rewrite <- app_assoc in *. cbn [map concat length]. rewrite <- app_assoc.
  split; [done|]. split; [done|]. split; [by constructor|]. split; [done|]. by rewrite Hlen.
Qed.

Lemma read_binding_list_reads max check label items rest : max < 2 ^ 32 → list_ok max check items →
  read_binding_list max check label (list_bytes items ++ rest) = inr (items, rest).
Proof.
  intros Hmax (Hlen & Hall & Hnd). unfold read_binding_list, list_bytes. pose proof (zlen_nonneg items).
  rewrite <- app_assoc, read_u32_le by lia. rewrite ltb_ge_false by lia.
  by rewrite to_nat_zlen, read_binding_items_reads.
Qed.

Lemma read_binding_list_recovers max check label c items rest :
  read_binding_list max check label c = inr (items, rest) → c = list_bytes items ++ rest ∧ list_ok max check items.
Proof.
  unfold read_binding_list. destruct (read_u32 c) as [[n c']|] eqn:Hc; [|done]. apply read_u32_inv in Hc as [-> Hn].
  destruct (max <? n) eqn:Hm; [done|]. apply Z.ltb_ge in Hm. destruct (read_binding_items _ _ _ _) as [[l c]|] eqn:Hl; [|done].
  intros [= <- <-]. apply read_binding_items_recovers in Hl as (more & -> & -> & Hall & Hnd & Hlen); [|constructor].
  cbn [app] in *. assert (zlen more = n) as <- by (unfold zlen; lia).
  unfold list_bytes. by rewrite <- app_assoc.
Qed.

Lemma read_secrets_reads secrets rest out : Forall secret_ok secrets → NoDup (map fst (out ++ secrets)) →
  read_secrets (length secrets) (concat (map secret_bytes secrets) ++ rest) out = inr (out ++ secrets, rest).
Proof.
  intros Hall. revert out. induction Hall as [|[k v] secrets ((Hs & Hz & Hc) & Hv) _ IH]; intros out Hnd;
    cbn [map concat length read_secrets]; [by rewrite app_nil_r|]. cbn [fst snd] in *.
  unfold secret_bytes at 1. cbn [fst snd]. rewrite <- !app_assoc, read_string16_reads by done.
  rewrite (proj2 (contains_nul_false k) Hz), Hc.
  assert (k ∉ map fst out) as Hk.
  { rewrite map_app in Hnd. apply NoDup_app in Hnd as (_ & Hnd & _). intros Hin. apply (Hnd k Hin). left. }
  unfold contains. rewrite bool_decide_eq_false_2 by done. cbn [negb orb].
  unfold wire32. pose proof (zlen_nonneg v). unfold kMaxBindingSecretValueBytes in *.
  rewrite <- app_assoc, read_u32_le by lia.
  rewrite !ltb_ge_false by zlen_lia. cbn [orb]. rewrite ztake_app, zdrop_app by done.
  rewrite IH; rewrite <- app_assoc; done.
Qed.

Lemma read_secrets_recovers n c out secrets rest : NoDup (map fst out) →
  read_secrets n c out = inr (secrets, rest) →
  ∃ more, secrets = out ++ more ∧ c = concat (map secret_bytes more) ++ rest ∧ Forall secret_ok more
          ∧ NoDup (map fst secrets) ∧ length more = n.
Proof.
  revert c out. induction n as [|n IH]; intros c out Hnd; cbn [read_secrets].
  { intros [= <- <-]. exists []. rewrite app_nil_r. by repeat constructor. }
  destruct (read_string16 c) as [[k c']|] eqn:Hc; [|done]. apply read_string16_recovers in Hc as [-> Hs].
  destruct (_ || _) eqn:Hg; [done|]. bools. destruct (read_u32 c') as [[size c'']|] eqn:Hv; [|done].
  apply read_u32_inv in Hv as [-> Hsize]. destruct (_ || _) eqn:Hg2; [done|]. bools. intros Hrest.
  match goal with H : contains_nul k = false |- _ => apply contains_nul_false in H end.
  match goal with H : contains _ k = false |- _ => apply bool_decide_eq_false in H end.
  apply IH in Hrest as (more & -> & Hrest & Hall & Hnd' & Hlen).
  2: { rewrite map_app. apply NoDup_app. split; [done|]. split; [|apply NoDup_singleton].
       intros x Hx Hi. apply list_elem_of_singleton in Hi as ->. done. }
  exists ((k, ztake size c'') :: more). rewrite <- app_assoc in *. cbn [map concat length].
  split; [done|]. split.
  { unfold secret_bytes at 1, wire32. cbn [fst snd]. rewrite zlen_ztake by lia.
    rewrite <- !app_assoc, <- Hrest, ztake_zdrop. done. }
  split; [|by rewrite Hlen]. constructor; [|done]. split; [done|]. cbn [snd]. rewrite zlen_ztake by lia. lia.
Qed.

Section blob_exact.
Context `{InetPton}.

Lemma parse_sections_reads d : binding_ok d →
  parse_binding_sections (descriptor_bytes d) (wb_source d) = inr d.
Proof.
  intros [Hn Hc Hcn (Hsl & Hs & Hsn) Hp Hm Hnet Hr Hw He Hio Hd Hsrc].
  destruct Hn as (Hn16 & Hnz & Hn). pose proof (zlen_nonneg (wb_config_json d)).
  pose proof (zlen_nonneg (wb_secrets d)). unfold kMaxBindingConfigBytes, kMaxBindingSecrets in *.
  unfold parse_binding_sections, descriptor_bytes. rewrite read_string16_reads by done.
  rewrite (proj2 (contains_nul_false _) Hnz), Hn. cbn [negb orb].
  rewrite read_string32_reads by (unfold short32; lia). rewrite (proj2 (contains_nul_false _) Hcn). cbn [orb].
  rewrite ltb_ge_false by (unfold kMaxBindingConfigBytes; lia).
  unfold secrets_bytes. rewrite <- app_assoc, read_u32_le by lia.
  rewrite ltb_ge_false by (unfold kMaxBindingSecrets; lia).
  rewrite to_nat_zlen, read_secrets_reads by done. cbn [bind_error app].
  do 6 (rewrite read_binding_list_reads by done; cbn [bind_error]).
  pose proof (read_binding_list_reads kMaxBindingStdioEntries valid_binding_stdio "stdio stream" (wb_stdio d) []
    ltac:(done) Hio) as Hlast. rewrite app_nil_r in Hlast. rewrite Hlast. cbn [bind_error].
  rewrite bool_decide_eq_true_2, ltb_ge_false by (done || lia). cbn [negb]. by destruct d.
Qed.

Lemma parse_sections_recovers c source d : zlen c <= kMaxBindingDescriptorBytes →
  parse_binding_sections c source = inr d → c = descriptor_bytes d ∧ source = wb_source d ∧ binding_ok d.
Proof.
  intros Hmax. unfold parse_binding_sections. destruct (read_string16 c) as [[n c1]|] eqn:Hn; [|done].
  destruct (_ || _) eqn:Hg; [done|]. bools. destruct (read_string32 c1) as [[j c2]|] eqn:Hj; [|done].
  destruct (_ || _) eqn:Hg2; [done|]. bools. destruct (read_u32 c2) as [[count c3]|] eqn:Hc; [|done].
  split_test; [done|]. bools. destruct (read_secrets _ _ _) as [|[ss c4]] eqn:Hs; [done|]. cbn [bind_error].
  repeat match goal with
  | |- context [bind_error (read_binding_list ?m ?k ?l ?c) _] =>
      let H := fresh "Hlist" in destruct (read_binding_list m k l c) as [|[? ?]] eqn:H; [done|];
      cbn [bind_error]; apply read_binding_list_recovers in H as [-> ?]
  end.
  case_bool_decide as Hend; [|done]. cbn [negb]. subst. split_test; [done|]. bools. intros [= <-].
  apply read_string16_recovers in Hn as [-> Hn]. apply read_string32_recovers in Hj as [-> Hj].
  apply read_u32_inv in Hc as [-> Hc].
  apply read_secrets_recovers in Hs as (more & -> & -> & Hall & Hnd & Hlen); [|constructor]. cbn [app] in *.
  repeat match goal with H : contains_nul _ = false |- _ => apply contains_nul_false in H end.
  assert (zlen more = count) as <- by (unfold zlen; lia).
  match goal with |- ?c = descriptor_bytes ?d ∧ _ => assert (c = descriptor_bytes d) as Heq end.
  { unfold descriptor_bytes, secrets_bytes. cbn [wb_name wb_config_json wb_secrets wb_profiles wb_modules wb_net_rules
      wb_fs_read wb_fs_write wb_env wb_stdio]. by rewrite app_nil_r, <- app_assoc. }
  rewrite Heq in Hmax. split; [done|]. split; [done|]. by constructor.
Qed.

Lemma parse_blob_iff blob d : parse_binding_blob blob = inr d ↔ blob = blob_bytes d ∧ binding_ok d.
Proof.
  unfold parse_binding_blob, blob_bytes. split.
  - destruct (read_u32 blob) as [[size c]|] eqn:Hb; [|done]. apply read_u32_inv in Hb as [-> Hsize].
    destruct (_ || _) eqn:Hg; [done|]. bools. intros Hp.
    apply parse_sections_recovers in Hp as (Hd & Hs & Hok); [|rewrite zlen_ztake; lia].
    split; [|done]. rewrite <- Hd, <- Hs, zlen_ztake, ztake_zdrop by lia. done.
  - intros [-> Hok]. pose proof (ok_descriptor d Hok) as Hmax. unfold kMaxBindingDescriptorBytes in Hmax.
    pose proof (zlen_nonneg (descriptor_bytes d)). rewrite read_u32_le by lia.
    assert (2 <= zlen (descriptor_bytes d)) as Hmin.
    { unfold descriptor_bytes. rewrite zlen_app, zlen_wire16. pose proof (zlen_nonneg (wb_name d)). zlen_pose. lia. }
    rewrite eqb_ne_false, !ltb_ge_false by (unfold kMaxBindingDescriptorBytes; zlen_lia). cbn [orb].
    rewrite ztake_app, zdrop_app by done. by apply parse_sections_reads.
Qed.

(** The LOAD_BINDING blobs the worker accepts, and the descriptor it reads from
    them: exactly the encodings of the descriptors within the grammars and
    limits, each list without a duplicate and nothing left over. *)
Theorem binding_blob_exact blob d : parse_binding_blob blob = inr d ↔ blob = blob_bytes d ∧ binding_ok d.
Proof. apply parse_blob_iff. Qed.
End blob_exact.

(** ** The startup sequence *)

(** The frames in order, up to the first one that is refused. *)
Fixpoint consume_all `{InetPton} (s : WorkerStartupState) (frames : list Frame)
    : option string * WorkerStartupState :=
  match frames with
  | [] => (None, s)
  | frame :: frames =>
      match consume s frame with
      | (None, s) => consume_all s frames
      | refused => refused
      end
  end.

(** What HELLO promises the worker about its limits. *)
Record startup_config_ok (c : WorkerStartupConfig) : Prop := {
  sc_version : protocol_version c = kVersion ∨ protocol_version c = kVersionV4;
  sc_capabilities : flags_within (host_capabilities c) kCapabilitiesKnownMask = true;
  sc_heap : 0 <= js_heap_limit c <= 2 ^ 31 - 1;
  sc_memory : process_memory_limit c = 0 ∨ js_heap_limit c <= process_memory_limit c;
  sc_nonzero : timeout_ms c ≠ 0 ∧ js_stack_size c ≠ 0 ∧ max_inflight c ≠ 0 ∧ initial_window c ≠ 0;
  sc_header : 8 <= max_header_bytes c <= kMaxPayloadSize;
  sc_queued : kHeaderSize + kHelloLegacyFixedPayloadSize <= max_queued_bytes c <= kMaxBufferedBytes;
  sc_fds : 4 <= file_descriptor_limit c;
  sc_loose : strict_sandbox c = false → sandbox_required_features c = 0 ∧ preinstalled_sandbox_features c = 0;
  sc_strict : strict_sandbox c = true →
    Z.land (sandbox_required_features c) SANDBOX_FEATURE_STRICT_BASE = SANDBOX_FEATURE_STRICT_BASE;
  sc_preinstalled : flags_within (preinstalled_sandbox_features c) (sandbox_required_features c) = true;
  sc_ca_path : ¬ (Byte.x00 ∈ tls_ca_bundle_path c) ∧ zlen (tls_ca_bundle_path c) <= 4096
}.

Record startup_inv `{InetPton} (s : WorkerStartupState) : Prop := {
  si_fresh : hello_received s = false → s = new_WorkerStartupState;
  si_config : hello_received s = true → startup_config_ok (config s);
  si_bundle : zlen (bundle s) <= max_queued_bytes (config s);
  si_blob : zlen (binding_blob s) <= max_queued_bytes (config s);
  si_idle : binding_inflight s = false → binding_blob s = [];
  si_sealed : bundle_started s = true → binding_inflight s = false;
  si_started : bundle_started s = false → bundle s = [] ∧ bundle_complete s = false;
  si_bindings : Forall binding_ok (bindings s)
}.

Section startup_invariant.
Context `{InetPton}.

Lemma read_limits_range c l rest : read_hello_limits c = Some (l, rest) →
  0 <= h_js_heap_limit l ∧ 0 <= h_strict l.
Proof.
  unfold read_hello_limits. intros Hr.
  repeat match type of Hr with
  | context [read_u32 ?c] => destruct (read_u32 c) as [[? ?]|] eqn:?; [|done]
  | context [read_u64 ?c] => let E := fresh "E" in destruct (read_u64 c) as [[? ?]|] eqn:E; [apply read_u64_inv in E as [_ ?]|done]
  | context [if ?b then _ else _] => destruct b; [done|]
  | context [match ?c with [] => _ | _ => _ end] => destruct c as [|b ?]; [done|]
  end.
  injection Hr as <- <-. cbn [h_js_heap_limit h_strict]. pose proof (u8_range b). lia.
Qed.

Lemma hello_valid_config size l required preinstalled request response v caps path legacy egress capability :
  hello_valid size l required preinstalled request response = true → 0 <= h_js_heap_limit l →
  v = kVersion ∨ v = kVersionV4 → flags_within caps kCapabilitiesKnownMask = true →
  ¬ (Byte.x00 ∈ path) → zlen path <= 4096 →
  startup_config_ok
    (mkStartupConfig v caps (h_js_stack_size l) (h_max_inflight l) (h_initial_window l) (h_max_header_bytes l)
       (h_max_queued_bytes l) (h_file_descriptor_limit l) (h_timeout_ms l) (negb (h_strict l =? 0)) required
       preinstalled (h_js_heap_limit l) (h_process_memory_limit l) request response path legacy egress capability).
Proof.
  intros Hv Hheap Hver Hcaps Hpath Hsize. unfold hello_valid in Hv. bools.
  constructor; cbn [protocol_version host_capabilities js_heap_limit process_memory_limit timeout_ms js_stack_size
    max_inflight initial_window max_header_bytes max_queued_bytes file_descriptor_limit strict_sandbox
    sandbox_required_features preinstalled_sandbox_features tls_ca_bundle_path]; try done; try lia.
Qed.

Lemma read_controls_path c required preinstalled path request response rest :
  read_hello_controls c = inr ((required, preinstalled, path, request, response), rest) →
  ¬ (Byte.x00 ∈ path) ∧ zlen path <= 4096.
Proof.
  unfold read_hello_controls. do 2 (destruct (read_u32 _) as [[? ?]|]; [|done]).
  destruct (read_u16 _) as [[n c']|] eqn:Hn; [|done]. apply read_u16_inv in Hn as [_ Hn].
  destruct (_ || _) eqn:Hg; [done|]. bools. destruct (contains_nul _) eqn:Hz; [done|]. apply contains_nul_false in Hz.
  do 2 (destruct (read_u64 _) as [[? ?]|]; [|done]). intros [= _ _ <- _ _ _]. split; [done|].
  rewrite zlen_ztake; lia.
Qed.

Lemma read_tail_known version c caps rest : read_hello_tail version c = inr (caps, rest) →
  flags_within caps kCapabilitiesKnownMask = true.
Proof.
  unfold read_hello_tail. destruct (_ =? _); [|by intros [= <- <-]].
  do 2 (destruct (read_u32 _) as [[? ?]|]; [|done]). destruct (_ || _) eqn:Hg; [done|]. bools. by intros [= <- <-].
Qed.

Lemma decode_hello_ok frame c : decode_hello frame = inr c → startup_config_ok c.
Proof.
  unfold decode_hello. destruct (_ || _) eqn:Hg; [done|]. bools.
  destruct (read_hello_limits _) as [[l c1]|] eqn:Hl; [|done]. apply read_limits_range in Hl as [Hheap _].
  destruct (read_hello_controls _) as [|[[[[[required preinstalled] path] request] response] c2]] eqn:Hc; [done|].
  apply read_controls_path in Hc as [Hnul Hsize]. cbn [bind_error].
  destruct (read_hello_egress _) as [|[[egress legacy] c3]]; [done|]. cbn [bind_error].
  destruct (decode_wire_capability _) as [|[capability c4]]; [done|]. cbn [bind_error].
  destruct (read_hello_tail _ _) as [|[caps c5]] eqn:Ht; [done|]. apply read_tail_known in Ht. cbn [bind_error].
  destruct (negb (bool_decide _)); [done|]. destruct (negb (hello_valid _ _ _ _ _ _)) eqn:Hv; [done|]. bools. intros [= <-].
  eapply hello_valid_config; try done. destruct (fversion frame =? kVersionV4); [by right|by left].
Qed.

Lemma new_state_inv : startup_inv new_WorkerStartupState.
Proof. by constructor. Qed.

Lemma sub_fits limit size more : (limit <? size) || (u64 (limit - size) <? more) = false → 0 <= size →
  limit <= kMaxBufferedBytes → size + more <= limit.
Proof.
  intros Hg Hs Hl. bools. unfold kMaxBufferedBytes in Hl. rewrite u64_small in * by lia. lia.
Qed.

Lemma queued_limit s : startup_inv s → max_queued_bytes (config s) <= kMaxBufferedBytes.
Proof.
  intros Hs. destruct (hello_received s) eqn:Hh; [apply (sc_queued _ (si_config s Hs Hh))|].
  by rewrite (si_fresh s Hs Hh).
Qed.

Lemma read_bundle_name_app payload name rest : read_bundle_name payload = inr (name, rest) →
  payload = wire16 name ++ rest ∧ ¬ (Byte.x00 ∈ name) ∧ 0 < zlen name <= 4096.
Proof.
  unfold read_bundle_name. destruct (read_u16 payload) as [[n c]|] eqn:Hn; [|done]. apply read_u16_inv in Hn as [-> Hn].
  destruct (_ || _) eqn:Hg; [done|]. bools. destruct (contains_nul _) eqn:Hz; [done|]. apply contains_nul_false in Hz.
  intros [= <- <-]. unfold wire16. rewrite zlen_ztake by lia. rewrite <- app_assoc, ztake_zdrop.
  split; [done|]. split; [done|]. lia.
Qed.

Lemma consume_bundle_inv s frame s' : startup_inv s → hello_received s = true →
  consume_bundle s frame = inr s' → startup_inv s'.
Proof.
  intros Hs Hh. unfold consume_bundle. destruct (_ || _) eqn:Hg; [done|]. bools. destruct (_ || _) eqn:Hg2; [done|].
  destruct (if flag_set _ kFlagBundleName then _ else _) as [|[name rest]]; [done|]. cbn [bind_error].
  destruct ((_ <? _) || _) eqn:Hfit; [done|]. pose proof (zlen_nonneg (bundle s)).
  apply sub_fits in Hfit; [|lia|by apply queued_limit]. intros [= <-].
  destruct Hs as [Hf Hc Hb Hbl Hidle Hsealed Hst Hbind]. constructor;
    cbn [hello_received config bundle binding_blob binding_inflight bundle_started bundle_complete bindings]; try done.
  - congruence.
  - rewrite zlen_app. lia.
  - intros Hno. apply orb_false_iff in Hno as [Hno Hns]. rewrite Hno, Hns in Hg2. done.
Qed.

Lemma consume_binding_inv s frame : startup_inv s → hello_received s = true →
  startup_inv (consume_load_binding s frame).2.
Proof.
  intros Hs Hh. unfold consume_load_binding. destruct (_ || _); [done|]. destruct (_ && _) eqn:Hg; [done|].
  destruct (negb (flag_set (fflags frame) kFlagStart) && _) eqn:Hg2; [done|]. destruct ((_ <? _) || _) eqn:Hfit; [done|].
  pose proof (zlen_nonneg (binding_blob s)). apply sub_fits in Hfit; [|lia|by apply queued_limit].
  assert (bundle_started s = false) as Hns.
  { pose proof (si_sealed s Hs) as Hsealed. destruct (bundle_started s); [|done]. rewrite Hsealed in * by done.
    by destruct (flag_set (fflags frame) kFlagStart). }
  assert (0 <= max_queued_bytes (config s)) as Hpos
    by (pose proof (si_bundle s Hs); pose proof (zlen_nonneg (bundle s)); lia).
  destruct Hs as [Hf Hc Hb Hbl Hidle Hsealed Hst Hbind].
  destruct (flag_set (fflags frame) kFlagEnd); [destruct (parse_binding_blob _) as [e|d] eqn:Hp|]; cbn [snd];
    constructor; unfold with_binding; cbn [hello_received config bundle binding_blob binding_inflight bundle_started
      bundle_complete bindings]; try done; try congruence.
  - apply parse_blob_iff in Hp as [_ Hok]. apply Forall_app. split; [done|]. by apply Forall_singleton.
  - rewrite zlen_app. lia.
Qed.

Lemma consume_inv s frame : startup_inv s → startup_inv (consume s frame).2.
Proof.
  intros Hs. unfold consume. destruct (hello_received s) eqn:Hh; cbn [negb].
  - destruct (_ =? _); [by apply consume_binding_inv|].
    destruct (consume_bundle s frame) as [|s'] eqn:Hc; [done|]. by eapply consume_bundle_inv.
  - destruct (decode_hello frame) as [|c] eqn:Hd; [done|]. apply decode_hello_ok in Hd.
    pose proof (sc_queued c Hd). unfold kHeaderSize, kHelloLegacyFixedPayloadSize in *.
    rewrite (si_fresh s Hs Hh). cbn [snd].
    constructor; cbn [hello_received config bundle binding_blob binding_inflight bundle_started bundle_complete
      bindings new_WorkerStartupState]; rewrite ?zlen_nil; done || lia.
Qed.

(** C18. Whatever frames reach a starting worker, and whichever of them it refuses:
    the bundle and the binding in flight stay within the queue limit HELLO set
    (4 MiB before HELLO), no binding is in flight once the bundle has started,
    every registered binding is within the grammars, and nothing is loaded
    before a HELLO whose limits are in range. *)
Theorem startup_sequence_safe frames : startup_inv (fold_left (λ s f, (consume s f).2) frames new_WorkerStartupState).
Proof.
  pose proof new_state_inv as Hs. revert Hs. generalize new_WorkerStartupState.
  induction frames as [|f frames IH]; intros s Hs; [done|]. cbn [fold_left]. apply IH. by apply consume_inv.
Qed.
End startup_invariant.

(** The wire grammar admits targets the policy compiler does not: the worker
    reads such a descriptor and fails when it compiles the binding. *)
Lemma net_targets_refused_later :
  Forall (λ target, valid_binding_net_target target = true ∧ ∃ error, compile_net [target] = inl error)
    [bs "*:443"; bs "10.0.0.1/8:443"; bs "[::1/]:443"].
Proof. repeat constructor; eexists; vm_compute; reflexivity. Qed.
