(* ===== verification/HostClient.v ===== *)
(** * HostClient: the Host's side of a worker's channel (src/client.cc)

    The state of a [capsid_worker] and the C API that changes it: the write
    queue, the loading calls, the request calls with their credit and cancel
    bookkeeping, [capsid_worker_flush], [capsid_worker_next_event] and the
    response header accessors (src/response_headers.cc). A worker handle is not
    null; a call returns its result and the worker after it. The kernel's
    answers to read and write are lists the loops consume. The IPC counters
    and the exceptions the ABI guard maps are left out. *)
From Stdlib Require Import ZArith Lia.
From stdpp Require Import sorting.
From S2P Require Import Prelude Wire Protocol Jansson ReadyProof WorkerExecutor WorkerRecovery EgressPolicy.
From S2P Require Import CapabilityPolicy BindingPolicy IpcValidation.
Local Open Scope Z_scope.

(** The text of a C string, empty for a null pointer. *)
Definition c_text (s : option bytes) : bytes := match s with Some s => cut_nul s | None => [] end.

(** ** State *)

Record RequestState := mkRequestState {
  rs_credit : Z;                          (* uint64_t *)
  rs_ended : bool;
  rs_deadline : Z                         (* ns of the steady clock *)
}.

(** What spawning fixes for the life of the worker. *)
Record WorkerLimits := mkLimits {
  w_request_timeout_ms : Z;               (* uint64_t *)
  w_max_inflight : Z;                     (* uint32_t *)
  w_max_header : Z;                       (* uint32_t *)
  w_max_queued : Z;                       (* uint32_t *)
  w_version : Z;                          (* uint16_t *)
  w_capabilities : Z                      (* uint32_t *)
}.

Record capsid_worker := mkWorker {
  w_fd : Z;
  w_pid : Z;
  w_limits : WorkerLimits;
  closed : bool;
  bundle_loaded : bool;
  write_offset : Z;
  write_buffer : bytes;
  worker_capabilities : Z;
  parser : Parser;
  requests : gmap Z RequestState;
  canceled_requests : gset Z;
  canceled_request_order : list Z;
  pending_timeouts : list Z
}.

Definition with_write (w : capsid_worker) (offset : Z) (buffer : bytes) : capsid_worker :=
  mkWorker (w_fd w) (w_pid w) (w_limits w) (closed w) (bundle_loaded w) offset buffer (worker_capabilities w)
    (parser w) (requests w) (canceled_requests w) (canceled_request_order w) (pending_timeouts w).

Definition with_bundle_loaded (w : capsid_worker) : capsid_worker :=
  mkWorker (w_fd w) (w_pid w) (w_limits w) (closed w) true (write_offset w) (write_buffer w)
    (worker_capabilities w) (parser w) (requests w) (canceled_requests w) (canceled_request_order w)
    (pending_timeouts w).

Definition with_parser (w : capsid_worker) (p : Parser) : capsid_worker :=
  mkWorker (w_fd w) (w_pid w) (w_limits w) (closed w) (bundle_loaded w) (write_offset w) (write_buffer w)
    (worker_capabilities w) p (requests w) (canceled_requests w) (canceled_request_order w) (pending_timeouts w).

Definition with_worker_capabilities (w : capsid_worker) (capabilities : Z) : capsid_worker :=
  mkWorker (w_fd w) (w_pid w) (w_limits w) (closed w) (bundle_loaded w) (write_offset w) (write_buffer w)
    capabilities (parser w) (requests w) (canceled_requests w) (canceled_request_order w) (pending_timeouts w).

Definition with_requests (w : capsid_worker) (rs : gmap Z RequestState) : capsid_worker :=
  mkWorker (w_fd w) (w_pid w) (w_limits w) (closed w) (bundle_loaded w) (write_offset w) (write_buffer w)
    (worker_capabilities w) (parser w) rs (canceled_requests w) (canceled_request_order w) (pending_timeouts w).

Definition with_canceled (w : capsid_worker) (ids : gset Z) (order : list Z) : capsid_worker :=
  mkWorker (w_fd w) (w_pid w) (w_limits w) (closed w) (bundle_loaded w) (write_offset w) (write_buffer w)
    (worker_capabilities w) (parser w) (requests w) ids order (pending_timeouts w).

(** The descriptor closed; [keep] keeps the request tables. *)
Definition with_closed (w : capsid_worker) (keep : bool) (timeouts : list Z) : capsid_worker :=
  mkWorker (-1) (w_pid w) (w_limits w) true (bundle_loaded w) (write_offset w) (write_buffer w)
    (worker_capabilities w) (parser w) (if keep then requests w else ∅)
    (if keep then canceled_requests w else ∅) (if keep then canceled_request_order w else []) timeouts.

Definition with_pending_timeouts (w : capsid_worker) (timeouts : list Z) : capsid_worker :=
  mkWorker (w_fd w) (w_pid w) (w_limits w) (closed w) (bundle_loaded w) (write_offset w) (write_buffer w)
    (worker_capabilities w) (parser w) (requests w) (canceled_requests w) (canceled_request_order w) timeouts.

Definition capsid_worker_fd (w : capsid_worker) : Z := if closed w then -1 else w_fd w.

(** ** The write queue *)

Definition queued (w : capsid_worker) : Z := u64 (zlen (write_buffer w) - write_offset w).

Definition queue_wire (w : capsid_worker) (wire : bytes) : capsid_result * capsid_worker :=
  if closed w then (CAPSID_CLOSED, w)
  else if (w_max_queued (w_limits w) <? zlen wire) || (u64 (w_max_queued (w_limits w) - zlen wire) <? queued w)
  then (CAPSID_WOULD_BLOCK, w)
  else
    let w := if negb (write_offset w =? 0) && (write_offset w =? zlen (write_buffer w)) then with_write w 0 [] else w in
    (CAPSID_OK, with_write w (write_offset w) (write_buffer w ++ wire)).

Definition queue_frame (w : capsid_worker) (frame : Frame) : capsid_result * capsid_worker :=
  match encode_versioned (w_version (w_limits w)) frame with
  | None => (CAPSID_INVALID_ARGUMENT, w)
  | Some wire => queue_wire w wire
  end.

(** The frames of [data], from [offset] on. The loop ends before [fuel] does
    for the frame count of [queue_chunked]; CAPSID_INTERNAL_ERROR stands for
    running out. *)
Fixpoint chunk_loop (fuel : nat) (version type id : Z) (data : bytes) (mark_start mark_end : bool)
    (first_flags offset : Z) (first : bool) (batch : bytes) : capsid_result + bytes :=
  match fuel with
  | O => inl CAPSID_INTERNAL_ERROR
  | S fuel =>
      let size := zlen data in
      let chunk_size := Z.min (size - offset) kMaxPayloadSize in
      let flags := if first then first_flags else 0 in
      let flags := if first && mark_start then Z.lor flags kFlagStart else flags in
      let flags := if (offset + chunk_size =? size) && mark_end then Z.lor flags kFlagEnd else flags in
      match encode_versioned version (mkFrame type flags id 0 (ztake chunk_size (zdrop offset data))) with
      | None => inl CAPSID_INVALID_ARGUMENT
      | Some wire =>
          let batch := batch ++ wire in
          let offset := offset + chunk_size in
          if offset <? size
          then chunk_loop fuel version type id data mark_start mark_end first_flags offset false batch
          else inr batch
      end
  end.

Definition frame_count (size : Z) : Z :=
  if size =? 0 then 1
  else size / kMaxPayloadSize + (if negb (size mod kMaxPayloadSize =? 0) then 1 else 0).

(** [data] is the bytes of the call, [None] a null pointer with a size. *)
Definition queue_chunked (w : capsid_worker) (type id : Z) (data : option bytes) (mark_start mark_end : bool)
    (first_flags : Z) : capsid_result * capsid_worker :=
  match data with None => (CAPSID_INVALID_ARGUMENT, w) | Some data =>
  let size := zlen data in
  if closed w then (CAPSID_CLOSED, w)
  else
    let count := frame_count size in
    if (u64_max - size) / kHeaderSize <? count then (CAPSID_INVALID_ARGUMENT, w)
    else
      let wire_size := size + count * kHeaderSize in
      if (w_max_queued (w_limits w) <? wire_size) || (u64 (w_max_queued (w_limits w) - wire_size) <? queued w)
      then (CAPSID_WOULD_BLOCK, w)
      else match chunk_loop (Z.to_nat count) (w_version (w_limits w)) type id data mark_start mark_end first_flags 0
                   true [] with
      | inl result => (result, w)
      | inr batch => queue_wire w batch
      end
  end.

Definition append_string16 (output data : bytes) : option bytes :=
  if u16_max <? zlen data then None else Some (append_u16 output (zlen data) ++ data).

Definition append_string32 (output data : bytes) : option bytes :=
  if u32_max <? zlen data then None else Some (append_u32 output (zlen data) ++ data).

(** ** Loading *)

Definition and_bundle_loaded (r : capsid_result * capsid_worker) : capsid_result * capsid_worker :=
  let '(result, w) := r in
  (result, if bool_decide (result = CAPSID_OK) then with_bundle_loaded w else w).

Definition capsid_worker_load_bundle (w : capsid_worker) (bundle : option bytes) : capsid_result * capsid_worker :=
  and_bundle_loaded (queue_chunked w kLoadBundle 0 bundle true true 0).

(** The prefix and the bytes of a named bundle, with its two checks. *)
Definition named_bundle (source_name bundle : option bytes) : option bytes :=
  match source_name, bundle with
  | Some name, Some bundle =>
      let name := cut_nul name in
      let name_size := zlen name in
      if (name_size =? 0) || (4096 <? name_size) || (u64_max - name_size - 2 <? zlen bundle) then None
      else Some ([to_u8 name_size; to_u8 (Z.shiftr name_size 8)] ++ name ++ bundle)
  | _, _ => None
  end.

Definition capsid_worker_load_bundle_named (w : capsid_worker) (bundle source_name : option bytes)
    : capsid_result * capsid_worker :=
  match named_bundle source_name bundle with
  | None => (CAPSID_INVALID_ARGUMENT, w)
  | Some named => and_bundle_loaded (queue_chunked w kLoadBundle 0 (Some named) true true kFlagBundleName)
  end.

(** Empty bytecode is refused. *)
Definition capsid_worker_load_trusted_bytecode_named (w : capsid_worker) (bytecode source_name : option bytes)
    : capsid_result * capsid_worker :=
  if bool_decide (bytecode = Some []) then (CAPSID_INVALID_ARGUMENT, w)
  else match named_bundle source_name bytecode with
  | None => (CAPSID_INVALID_ARGUMENT, w)
  | Some named =>
      and_bundle_loaded
        (queue_chunked w kLoadBundle 0 (Some named) true true (Z.lor kFlagBundleName kFlagTrustedBytecode))
  end.

(** An array of C strings and its count; the array, when not null, has at
    least that many entries. *)
Record ApiList := mkApiList {
  items : option (list (option bytes));
  item_count : Z                          (* uint32_t *)
}.

Record capsid_binding_policy := mkApiPolicy {
  api_modules : ApiList;
  api_net_rules : ApiList;
  api_fs_read : ApiList;
  api_fs_write : ApiList;
  api_env : ApiList;
  api_stdio : ApiList
}.

(** A byte range is [None] for a null pointer with a size. *)
Record capsid_binding_descriptor := mkApiBinding {
  api_struct_size : Z;
  api_version : Z;
  api_name : option bytes;
  api_source : option bytes;
  api_config : option bytes;
  api_secrets : option (list (option bytes * option bytes));
  api_secret_count : Z;                   (* uint32_t *)
  api_policy : option capsid_binding_policy;
  api_profiles : option ApiList
}.

Definition sizeof_binding_descriptor : Z := 80.
Definition kApiMaxBindingSecrets : Z := 64.
Definition kApiMaxBindingSecretValueBytes : Z := 256 * 1024.
Definition kApiMaxBindingRules : Z := 1024.
Definition kApiMaxBindingEnvEntries : Z := 256.
Definition kApiMaxBindingPathBytes : Z := 4096.

Definition valid_api_binding_name (name : bytes) : bool :=
  match name with
  | [] => false
  | first :: _ =>
      negb (63 <? zlen name) && l_islower first
      && forallb (λ c, l_islower c || l_isdigit c || (u8 c =? 45)) name
  end.

Definition valid_api_secret_key (key : bytes) : bool :=
  negb (bool_decide (key = [])) && (zlen key <=? 256) && negb (has_dot_dot key)
  && forallb (λ c, is_alnum c || (u8 c =? 46) || (u8 c =? 95) || (u8 c =? 45)) key.

Definition api_items (l : ApiList) : list (option bytes) := ztake (item_count l) (default [] (items l)).

Definition api_texts (l : ApiList) : list bytes := map c_text (api_items l).

(** [check] is null in every call. *)
Definition valid_api_list (l : ApiList) (max_count max_item_bytes : Z) : bool :=
  (item_count l <=? max_count) && ((item_count l =? 0) || bool_decide (is_Some (items l)))
  && forallb (λ item, match item with
       | None => false
       | Some item => negb (bool_decide (cut_nul item = [])) && (zlen (cut_nul item) <=? max_item_bytes)
       end) (api_items l).

Definition api_secret_items (b : capsid_binding_descriptor) : list (option bytes * option bytes) :=
  ztake (api_secret_count b) (default [] (api_secrets b)).

Definition valid_api_secret (s : option bytes * option bytes) : bool :=
  match s with
  | (Some key, Some value) =>
      valid_api_secret_key (cut_nul key) && (zlen value <=? kApiMaxBindingSecretValueBytes)
  | _ => false
  end.

Definition append_api_string16 (output value : bytes) : bytes := append_u16 output (u16 (zlen value)) ++ value.

Definition append_secret (output : bytes) (s : option bytes * option bytes) : bytes :=
  let value := default [] s.2 in
  append_u32 (append_api_string16 output (c_text s.1)) (u32 (zlen value)) ++ value.

Definition append_list (output : bytes) (l : ApiList) : bytes :=
  fold_left append_api_string16 (api_texts l) (append_u32 output (item_count l)).

Definition valid_api_policy (p : capsid_binding_policy) (profiles : ApiList) : bool :=
  valid_api_list (api_modules p) 64 64 && valid_api_list (api_net_rules p) kApiMaxBindingRules 1024
  && valid_api_list (api_fs_read p) kApiMaxBindingRules kApiMaxBindingPathBytes
  && valid_api_list (api_fs_write p) kApiMaxBindingRules kApiMaxBindingPathBytes
  && valid_api_list (api_env p) kApiMaxBindingEnvEntries 256 && valid_api_list (api_stdio p) 3 16
  && valid_api_list profiles 6 64.

(** The name, the source and the config of a descriptor the API accepts. *)
Definition valid_api_binding (b : capsid_binding_descriptor) : option (bytes * bytes * bytes) :=
  match api_name b, api_source b, api_config b with
  | Some name, Some source, Some config =>
      let name := cut_nul name in
      if negb (api_version b =? 1) || (api_struct_size b <? sizeof_binding_descriptor)
         || negb (valid_api_binding_name name) || (16 * 1024 * 1024 <? zlen source)
         || (256 * 1024 <? zlen config) || (kApiMaxBindingSecrets <? api_secret_count b)
         || (negb (api_secret_count b =? 0) && bool_decide (api_secrets b = None))
         || negb (forallb valid_api_secret (api_secret_items b))
      then None else Some (name, source, config)
  | _, _, _ => None
  end.

Definition api_descriptor_bytes (b : capsid_binding_descriptor) (p : capsid_binding_policy) (profiles : ApiList)
    (name config : bytes) : bytes :=
  let descriptor := append_api_string16 [] name in
  let descriptor := append_u32 descriptor (u32 (zlen config)) ++ config in
  let descriptor := append_u32 descriptor (api_secret_count b) in
  let descriptor := fold_left append_secret (api_secret_items b) descriptor in
  fold_left append_list
    [profiles; api_modules p; api_net_rules p; api_fs_read p; api_fs_write p; api_env p; api_stdio p] descriptor.

Definition capsid_worker_load_binding (w : capsid_worker) (binding : option capsid_binding_descriptor)
    : capsid_result * capsid_worker :=
  match binding with
  | None => (CAPSID_INVALID_ARGUMENT, w)
  | Some b =>
      if bundle_loaded w then (CAPSID_INVALID_ARGUMENT, w)
      else match valid_api_binding b, api_policy b, api_profiles b with
      | Some (name, source, config), Some p, Some profiles =>
          if negb (valid_api_policy p profiles) then (CAPSID_INVALID_ARGUMENT, w)
          else
            let descriptor := api_descriptor_bytes b p profiles name config in
            let blob := append_u32 [] (u32 (zlen descriptor)) ++ descriptor ++ source in
            queue_chunked w kLoadBinding 0 (Some blob) true true 0
      | _, _, _ => (CAPSID_INVALID_ARGUMENT, w)
      end
  end.

(** ** Requests *)

Definition kWorkerTimeoutGraceMs : Z := 250.

Definition forget_canceled_request (w : capsid_worker) (id : Z) : capsid_worker :=
  with_canceled w (canceled_requests w ∖ {[ id ]}) (filter (λ i, i ≠ id) (canceled_request_order w)).

(** The [while] of [remember_canceled_request]: the oldest go first. *)
Fixpoint evict_canceled (limit : Z) (ids : gset Z) (order : list Z) : gset Z * list Z :=
  match order with
  | [] => (ids, [])
  | oldest :: rest =>
      if limit <? Z.of_nat (size ids) then evict_canceled limit (ids ∖ {[ oldest ]}) rest else (ids, order)
  end.

Definition canceled_limit (w : capsid_worker) : Z :=
  let configured_limit := w_max_inflight (w_limits w) in
  let doubled_limit := if u64_max / 2 <? configured_limit then u64_max else configured_limit * 2 in
  Z.max 64 doubled_limit.

Definition remember_canceled_request (w : capsid_worker) (id : Z) : capsid_worker :=
  if bool_decide (id ∈ canceled_requests w) then w
  else
    let '(ids, order) := evict_canceled (canceled_limit w) (canceled_requests w ∪ {[ id ]})
                           (canceled_request_order w ++ [id]) in
    with_canceled w ids order.

(** [now + milliseconds(request_timeout_ms + grace)], in the 64-bit signed
    nanoseconds of the clock. *)
Definition hard_deadline (w : capsid_worker) (now : Z) : Z :=
  let timeout := w_request_timeout_ms (w_limits w) in
  let hard_timeout_ms :=
    if u64_max - kWorkerTimeoutGraceMs <? timeout then u64_max else timeout + kWorkerTimeoutGraceMs in
  s64 (now + s64 (s64 hard_timeout_ms * 1000000)).

(** The payload size after the headers, if each one fits. A byte range is
    [None] for a null pointer with a size; a name is never null. *)
Fixpoint request_payload_size (max_header : Z) (headers : list (option bytes * option bytes)) (payload_size : Z)
    : option Z :=
  match headers with
  | [] => Some payload_size
  | (Some name, Some value) :: headers =>
      if (zlen name =? 0) || (u16_max <? zlen name) || (u32_max <? zlen value)
         || (u64 (max_header - payload_size) <? zlen name)
         || (u64 (max_header - payload_size - zlen name) <? 6)
         || (u64 (max_header - payload_size - zlen name - 6) <? zlen value)
      then None
      else request_payload_size max_header headers (payload_size + 6 + zlen name + zlen value)
  | _ => None
  end.

Fixpoint append_headers (output : bytes) (headers : list (option bytes * option bytes)) : option bytes :=
  match headers with
  | [] => Some output
  | (name, value) :: headers =>
      match append_string16 output (default [] name) with
      | None => None
      | Some output =>
          match append_string32 output (default [] value) with
          | None => None
          | Some output => append_headers output headers
          end
      end
  end.

Definition request_head_payload (max_header : Z) (method url : option bytes)
    (headers : option (list (option bytes * option bytes))) : option bytes :=
  match method, url, headers with
  | Some method, Some url, Some headers =>
      let method := cut_nul method in
      let url := cut_nul url in
      let payload_size := 2 + zlen method + 4 + zlen url + 2 in
      if (u16_max <? zlen headers) || (zlen method =? 0) || (zlen url =? 0) || (u16_max <? zlen method)
         || (u32_max <? zlen url) || (max_header <? payload_size)
         || negb (bool_decide (is_Some (request_payload_size max_header headers payload_size)))
      then None
      else match append_string16 [] method with
      | None => None
      | Some output =>
          match append_string32 output url with
          | None => None
          | Some output => append_headers (append_u16 output (zlen headers)) headers
          end
      end
  | _, _, _ => None
  end.

Definition begin_request_impl (w : capsid_worker) (now request_id : Z) (method url : option bytes)
    (headers : option (list (option bytes * option bytes))) (flags : Z) : capsid_result * capsid_worker :=
  if request_id =? 0 then (CAPSID_INVALID_ARGUMENT, w)
  else match request_head_payload (w_max_header (w_limits w)) method url headers with
  | None => (CAPSID_INVALID_ARGUMENT, w)
  | Some payload =>
      if bool_decide (is_Some (requests w !! request_id)) then (CAPSID_INVALID_ARGUMENT, w)
      else if w_max_inflight (w_limits w) <=? Z.of_nat (size (requests w)) then (CAPSID_WOULD_BLOCK, w)
      else
        let '(result, w) := queue_frame w (mkFrame kRequestHead flags request_id 0 payload) in
        if bool_decide (result = CAPSID_OK) then
          let w := forget_canceled_request w request_id in
          let state := mkRequestState 0 (flag_set flags kFlagRequestEnd) (hard_deadline w now) in
          (CAPSID_OK, with_requests w (<[request_id := state]> (requests w)))
        else (result, w)
  end.

Definition capsid_worker_begin_bodyless_request w now request_id method url headers :=
  begin_request_impl w now request_id method url headers kFlagRequestEnd.

Definition capsid_worker_begin_request w now request_id method url headers :=
  begin_request_impl w now request_id method url headers 0.

Definition capsid_worker_write_request (w : capsid_worker) (request_id : Z) (data : option bytes)
    : capsid_result * capsid_worker :=
  match data with
  | None => (CAPSID_INVALID_ARGUMENT, w)
  | Some body =>
      if request_id =? 0 then (CAPSID_INVALID_ARGUMENT, w)
      else match requests w !! request_id with
      | None => (CAPSID_INVALID_ARGUMENT, w)
      | Some state =>
          if rs_ended state then (CAPSID_INVALID_ARGUMENT, w)
          else if rs_credit state <? zlen body then (CAPSID_WOULD_BLOCK, w)
          else
            let '(result, w) := queue_chunked w kRequestBody request_id data false false 0 in
            (result,
             if bool_decide (result = CAPSID_OK) then
               with_requests w
                 (<[request_id := mkRequestState (u64 (rs_credit state - zlen body)) (rs_ended state)
                                    (rs_deadline state)]> (requests w))
             else w)
      end
  end.

Definition capsid_worker_end_request (w : capsid_worker) (request_id : Z) : capsid_result * capsid_worker :=
  if request_id =? 0 then (CAPSID_INVALID_ARGUMENT, w)
  else match requests w !! request_id with
  | None => (CAPSID_INVALID_ARGUMENT, w)
  | Some state =>
      if rs_ended state then (CAPSID_INVALID_ARGUMENT, w)
      else
        let '(result, w) := queue_frame w (mkFrame kRequestEnd 0 request_id 0 []) in
        (result,
         if bool_decide (result = CAPSID_OK) then
           with_requests w
             (<[request_id := mkRequestState (rs_credit state) true (rs_deadline state)]> (requests w))
         else w)
  end.

Definition capsid_worker_grant_response_credit (w : capsid_worker) (request_id amount : Z)
    : capsid_result * capsid_worker :=
  if (request_id =? 0) || (amount =? 0) then (CAPSID_INVALID_ARGUMENT, w)
  else if bool_decide (requests w !! request_id = None) then (CAPSID_INVALID_ARGUMENT, w)
  else queue_frame w (mkFrame kWindowUpdate 0 request_id 0 (append_u32 [] amount)).

Definition capsid_worker_cancel (w : capsid_worker) (request_id : Z) : capsid_result * capsid_worker :=
  if request_id =? 0 then (CAPSID_INVALID_ARGUMENT, w)
  else match requests w !! request_id with
  | None => (CAPSID_OK, w)
  | Some _ =>
      let '(result, w) := queue_frame w (mkFrame kCancel 0 request_id 0 []) in
      (result,
       if bool_decide (result = CAPSID_OK) then
         let w := remember_canceled_request w request_id in
         with_requests w (delete request_id (requests w))
       else w)
  end.

Definition capsid_worker_request_memory_metrics (w : capsid_worker) : capsid_result * capsid_worker :=
  queue_frame w (mkFrame kMemoryMetricsRequest 0 0 0 []).

Definition capsid_worker_shutdown (w : capsid_worker) : capsid_result * capsid_worker :=
  queue_frame w (mkFrame kShutdown 0 0 0 []).

(** ** Writing to the socket *)

(** What one round of the loop sees: [write] took some bytes, at most those
    it was given, was interrupted,
    or found the socket full, and then whether the poll found it writable
    within the window; or it failed. *)
Inductive WriteAnswer :=
| Write_some (count : Z)
| Write_eintr
| Write_eagain (writable : bool)
| Write_error.

(** The result, the bytes the socket took, the worker, and the answers left;
    [None] while the call waits for an answer. *)
Fixpoint flush_loop (w : capsid_worker) (answers : list WriteAnswer) (sent : bytes)
    : option (capsid_result * bytes * capsid_worker * list WriteAnswer) :=
  if write_offset w <? zlen (write_buffer w) then
    match answers with
    | [] => None
    | Write_some count :: answers =>
        if 0 <? count then
          let written := Z.min count (zlen (write_buffer w) - write_offset w) in
          flush_loop (with_write w (write_offset w + written) (write_buffer w)) answers
            (sent ++ ztake written (zdrop (write_offset w) (write_buffer w)))
        else Some (CAPSID_CLOSED, sent, with_closed w false (pending_timeouts w), answers)
    | Write_eintr :: answers => flush_loop w answers sent
    | Write_eagain true :: answers => flush_loop w answers sent
    | Write_eagain false :: answers => Some (CAPSID_WOULD_BLOCK, sent, w, answers)
    | Write_error :: answers => Some (CAPSID_CLOSED, sent, with_closed w false (pending_timeouts w), answers)
    end
  else Some (CAPSID_OK, sent, with_write w 0 [], answers).

Definition capsid_worker_flush (w : capsid_worker) (answers : list WriteAnswer)
    : option (capsid_result * bytes * capsid_worker * list WriteAnswer) :=
  if closed w then Some (CAPSID_CLOSED, [], w, answers) else flush_loop w answers [].

(** ** Response headers *)

(** [out_header], when wanted, is the header at [wanted_index]. *)
Definition decode_response_headers (data : bytes) (wanted_index : Z) (want_header : bool)
    : option (Z * option (bytes * bytes)) :=
  if (zlen data <? 2) || (kMaxPayloadSize <? zlen data) then None
  else match read_u16 data with
  | None => None
  | Some (count, cursor) =>
      match read_many (λ cursor,
              match read_string16 cursor with
              | None => None
              | Some (name, cursor) =>
                  match read_string32 cursor with
                  | None => None
                  | Some (value, cursor) => Some ((name, value), cursor)
                  end
              end) (Z.to_nat count) cursor with
      | None => None
      | Some (headers, cursor) =>
          if negb (bool_decide (cursor = [])) || (want_header && (count <=? wanted_index)) then None
          else Some (count, if want_header then headers !! Z.to_nat wanted_index else None)
      end
  end.

Definition decode_header_at (event : capsid_event) (wanted_index : Z) (want_header : bool)
    : option (Z * option (bytes * bytes)) :=
  match WorkerExecutor.payload event with
  | None => None
  | Some data =>
      if negb (bool_decide (type event = CAPSID_EVENT_RESPONSE_HEAD)) || (zlen data <? 4) then None
      else match read_u16 data with
      | None => None
      | Some (status_text_size, cursor) =>
          if zlen cursor <? status_text_size then None
          else decode_response_headers (zdrop status_text_size cursor) wanted_index want_header
      end
  end.

Definition capsid_response_header_count (event : capsid_event) : capsid_result + Z :=
  match decode_header_at event 0 false with
  | Some (count, _) => inr count
  | None => inl CAPSID_PROTOCOL_ERROR
  end.

Definition capsid_response_header_at (event : capsid_event) (index : Z) : capsid_result + option (bytes * bytes) :=
  match decode_header_at event index true with
  | Some (_, header) => inr header
  | None => inl CAPSID_PROTOCOL_ERROR
  end.

Definition capsid_response_status_text (event : capsid_event) : capsid_result + bytes :=
  match WorkerExecutor.payload event with
  | None => inl CAPSID_PROTOCOL_ERROR
  | Some data =>
      if negb (bool_decide (type event = CAPSID_EVENT_RESPONSE_HEAD)) || (zlen data <? 4) then inl CAPSID_PROTOCOL_ERROR
      else match read_u16 data with
      | None => inl CAPSID_PROTOCOL_ERROR
      | Some (size, cursor) => if zlen cursor <? size then inl CAPSID_PROTOCOL_ERROR else inr (ztake size cursor)
      end
  end.

(** ** Events *)

Definition is_canceled_request_frame (frame : Frame) : bool :=
  let t := ftype frame in
  ((t =? kWindowUpdate) || (t =? kResponseHead) || (t =? kResponseBody) || (t =? kResponseEnd) || (t =? kError))
  && negb (frequest_id frame =? 0).

(** The capability tail of a version 4 READY. *)
Definition read_ready_tail (payload : bytes) : option Z :=
  if zlen payload <? kHelloV4TailSize then None
  else match read_u32 (zdrop (zlen payload - kHelloV4TailSize) payload) with
  | None => None
  | Some (caps, cursor) =>
      match read_u32 cursor with
      | None => None
      | Some (reserved, _) =>
          if negb (reserved =? 0) || negb (flags_within caps kCapabilitiesKnownMask) then None else Some caps
      end
  end.

(** The status, the fixed body size and the rest of a response head. *)
Definition read_response_head (flags : Z) (payload : bytes) : option (Z * Z * bytes) :=
  match read_u16 payload with
  | None => None
  | Some (status, cursor) =>
      if flag_set flags kFlagResponseFixedBody then
        match read_u32 cursor with
        | None => None
        | Some (fixed_size, cursor) => if kMaxFixedBodySize <? fixed_size then None else Some (status, fixed_size, cursor)
        end
      else Some (status, 0, cursor)
  end.

(** [frame]'s payload is the worker's [event_payload]. *)
Definition map_frame_to_event (w : capsid_worker) (frame : Frame) : (capsid_result + capsid_event) * capsid_worker :=
  let id := frequest_id frame in
  let event t := mkCapsidEvent t id (fflags frame) 0 0 (Some (fpayload frame)) in
  let t := ftype frame in
  if t =? kReady then
    if w_version (w_limits w) =? kVersionV4 then
      match read_ready_tail (fpayload frame) with
      | None => (inl CAPSID_PROTOCOL_ERROR, w)
      | Some caps => (inr (event CAPSID_EVENT_READY), with_worker_capabilities w caps)
      end
    else (inr (event CAPSID_EVENT_READY), w)
  else if t =? kWindowUpdate then
    match read_u32 (fpayload frame) with
    | Some (amount, []) =>
        match requests w !! id with
        | None => (inl CAPSID_PROTOCOL_ERROR, w)
        | Some state =>
            if u64_max - amount <? rs_credit state then (inl CAPSID_PROTOCOL_ERROR, w)
            else (inr (mkCapsidEvent CAPSID_EVENT_REQUEST_CREDIT id (fflags frame) 0 amount (Some (fpayload frame))),
                  with_requests w
                    (<[id := mkRequestState (u64 (rs_credit state + amount)) (rs_ended state) (rs_deadline state)]>
                       (requests w)))
        end
    | _ => (inl CAPSID_PROTOCOL_ERROR, w)
    end
  else if t =? kResponseHead then
    match read_response_head (fflags frame) (fpayload frame) with
    | None => (inl CAPSID_PROTOCOL_ERROR, w)
    | Some (status, fixed_size, rest) =>
        let event := mkCapsidEvent CAPSID_EVENT_RESPONSE_HEAD id (fflags frame) status fixed_size (Some rest) in
        if bool_decide (is_Some (decode_header_at event 0 false)) then (inr event, w)
        else (inl CAPSID_PROTOCOL_ERROR, w)
    end
  else if t =? kResponseBody then (inr (event CAPSID_EVENT_RESPONSE_BODY), w)
  else if t =? kResponseEnd then (inr (event CAPSID_EVENT_RESPONSE_END), with_requests w (delete id (requests w)))
  else if t =? kLog then (inr (event CAPSID_EVENT_LOG), w)
  else if t =? kAudit then (inr (event CAPSID_EVENT_AUDIT), w)
  else if t =? kMemoryMetricsResponse then
    if negb (id =? 0) then (inl CAPSID_PROTOCOL_ERROR, w) else (inr (event CAPSID_EVENT_MEMORY_METRICS), w)
  else if t =? kError then
    (inr (event (if flag_set (fflags frame) kErrorFlagTimeout then CAPSID_EVENT_REQUEST_TIMEOUT else CAPSID_EVENT_ERROR)),
     if negb (id =? 0) then with_requests w (delete id (requests w)) else w)
  else (inl CAPSID_PROTOCOL_ERROR, w).

(** [std::map] iterates in ascending order. *)
Definition request_ids (w : capsid_worker) : list Z := merge_sort Z.le (elements (dom (requests w))).

Definition timed_out (w : capsid_worker) (now id : Z) : bool :=
  match requests w !! id with Some state => rs_deadline state <=? now | None => false end.

Definition timeout_event (id : Z) : capsid_event :=
  mkCapsidEvent CAPSID_EVENT_REQUEST_TIMEOUT id kErrorFlagTimeout 0 0 (Some []).

Definition exit_event : capsid_event := mkCapsidEvent CAPSID_EVENT_EXIT 0 0 0 0 (Some []).

(** [read] returned bytes (none at the end of the stream), was interrupted,
    found nothing at time [now], or failed. *)
Inductive ReadAnswer :=
| Read_bytes (data : bytes)
| Read_eintr
| Read_eagain (now : Z)
| Read_error.

(** A call of [capsid_worker_next_event]: it returned, it waits for an answer
    of the kernel, or the bound on its rounds was too small. *)
Inductive NextEvent :=
| Next_return (result : capsid_result) (event : option capsid_event) (w : capsid_worker) (answers : list ReadAnswer)
| Next_waits (w : capsid_worker)
| Next_fuel.

(** The read loop: the parser with more bytes, or the end of the call. *)
Fixpoint read_more (w : capsid_worker) (answers : list ReadAnswer) : capsid_worker * list ReadAnswer + NextEvent :=
  match answers with
  | [] => inr (Next_waits w)
  | Read_bytes [] :: answers =>
      inr (Next_return CAPSID_OK (Some exit_event) (with_closed w false (pending_timeouts w)) answers)
  | Read_bytes data :: answers =>
      match Parser_append (parser w) (Some data) (zlen data) with
      | (true, p) => inl (with_parser w p, answers)
      | (false, p) => inr (Next_return CAPSID_PROTOCOL_ERROR None (with_parser w p) answers)
      end
  | Read_eintr :: answers => read_more w answers
  | Read_eagain now :: answers =>
      inr (match List.find (timed_out w now) (request_ids w) with
           | Some id =>
               Next_return CAPSID_OK (Some (timeout_event id))
                 (with_closed w false (filter (λ i, i ≠ id) (request_ids w))) answers
           | None => Next_return CAPSID_WOULD_BLOCK None w answers
           end)
  | Read_error :: answers => inr (Next_return CAPSID_CLOSED None (with_closed w true (pending_timeouts w)) answers)
  end.

(** A parsed frame: skipped, or the event of the call. *)
Definition deliver_frame (w : capsid_worker) (frame : Frame) (answers : list ReadAnswer) : capsid_worker + NextEvent :=
  if bool_decide (frequest_id frame ∈ canceled_requests w) && is_canceled_request_frame frame then
    inl (if (ftype frame =? kResponseEnd) || (ftype frame =? kError)
         then forget_canceled_request w (frequest_id frame) else w)
  else
    inr (match map_frame_to_event w frame with
         | (inl result, w) => Next_return result None w answers
         | (inr event, w) => Next_return CAPSID_OK (Some event) w answers
         end).

Fixpoint next_event_loop (fuel : nat) (w : capsid_worker) (answers : list ReadAnswer) : NextEvent :=
  match fuel with
  | O => Next_fuel
  | S fuel =>
      if closed w then Next_return CAPSID_CLOSED None w answers
      else
        let handle w answers (parsed : ParseResult * Parser) (need_more : capsid_worker → NextEvent) :=
          let '(result, p) := parsed in
          let w := with_parser w p in
          match result with
          | kParseError => Next_return CAPSID_PROTOCOL_ERROR None w answers
          | kParseNeedMore => need_more w
          | kParseFrame frame =>
              match deliver_frame w frame answers with
              | inl w => next_event_loop fuel w answers
              | inr done => done
              end
          end in
        handle w answers (Parser_next (parser w)) (λ w,
          match read_more w answers with
          | inr done => done
          | inl (w, answers) =>
              handle w answers (Parser_next (parser w)) (λ w, Next_return CAPSID_WOULD_BLOCK None w answers)
          end)
  end.

(** [event] is not null and has the size of this version. *)
Definition capsid_worker_next_event (fuel : nat) (w : capsid_worker) (answers : list ReadAnswer) : NextEvent :=
  match pending_timeouts w with
  | id :: rest =>
      if closed w then Next_return CAPSID_OK (Some (timeout_event id)) (with_pending_timeouts w rest) answers
      else next_event_loop fuel w answers
  | [] => next_event_loop fuel w answers
  end.

(** ** The write queue keeps the frames in order *)

(** The bytes not yet taken by the socket. *)
Definition unsent (w : capsid_worker) : bytes := zdrop (write_offset w) (write_buffer w).

Record queue_wf (w : capsid_worker) : Prop := {
  qw_offset : 0 <= write_offset w <= zlen (write_buffer w);
  qw_limit : zlen (unsent w) <= w_max_queued (w_limits w) < 2 ^ 32
}.

Lemma zlen_unsent_bytes w : 0 <= write_offset w <= zlen (write_buffer w) →
  zlen (unsent w) = zlen (write_buffer w) - write_offset w.
Proof. intros Hw. unfold unsent. by rewrite zlen_zdrop. Qed.

Lemma queued_unsent w : queue_wf w → queued w = zlen (unsent w).
Proof.
  intros [Ho Hl]. pose proof (zlen_unsent_bytes w Ho) as Hz. unfold queued. pose proof (zlen_nonneg (unsent w)).
  rewrite u64_small; lia.
Qed.

(** A call that only appends [wire] to the queue. *)
Definition queues (w : capsid_worker) (wire : bytes) (w' : capsid_worker) : Prop :=
  ∃ offset buffer, w' = with_write w offset buffer ∧ queue_wf w' ∧ unsent w' = unsent w ++ wire.

Lemma with_write_same w : with_write w (write_offset w) (write_buffer w) = w.
Proof. by destruct w. Qed.

Lemma queue_wire_ok w wire : queue_wf w → closed w = false →
  zlen (unsent w) + zlen wire <= w_max_queued (w_limits w) →
  ∃ w', queue_wire w wire = (CAPSID_OK, w') ∧ queues w wire w'.
Proof.
  intros Hw Hc Hfit. pose proof Hw as [Ho Hl]. unfold queue_wire. rewrite Hc, queued_unsent by done.
  pose proof (zlen_nonneg wire). pose proof (zlen_nonneg (unsent w)).
  rewrite u64_small, !ltb_ge_false by lia. cbn [orb]. eexists. split; [done|].
  pose proof (zlen_unsent_bytes w Ho) as Hz. unfold queues.
  destruct (_ && _) eqn:Hreset; cbn [write_offset write_buffer with_write].
  - bools. assert (unsent w = []) as Hnil by (apply zlen_zero; lia). rewrite Hnil, app_nil_l in *. autorewrite with zlist in *.
    exists 0, wire. split; [done|]. split; [|done]. constructor; unfold unsent; cbn; rewrite ?zdrop_0; lia.
  - exists (write_offset w), (write_buffer w ++ wire). split; [done|].
    assert (unsent (with_write w (write_offset w) (write_buffer w ++ wire)) = unsent w ++ wire) as Hu
      by (unfold unsent; cbn [write_offset write_buffer with_write]; by rewrite zdrop_app_l).
    split; [|done]. constructor; [|rewrite Hu]; cbn [write_offset write_buffer with_write w_limits]; rewrite zlen_app; lia.
Qed.

Lemma queue_wire_cases w wire : queue_wf w →
  (closed w = true ∧ queue_wire w wire = (CAPSID_CLOSED, w))
  ∨ (closed w = false ∧ w_max_queued (w_limits w) < zlen (unsent w) + zlen wire
     ∧ queue_wire w wire = (CAPSID_WOULD_BLOCK, w))
  ∨ (closed w = false ∧ ∃ w', queue_wire w wire = (CAPSID_OK, w') ∧ queues w wire w').
Proof.
  intros Hw. destruct (closed w) eqn:Hc; [left; split; [done|]; unfold queue_wire; by rewrite Hc|].
  destruct (decide (zlen (unsent w) + zlen wire <= w_max_queued (w_limits w))) as [Hfit|Hno].
  { right. right. split; [done|]. by apply queue_wire_ok. }
  right. left. split; [done|]. split; [lia|]. pose proof Hw as [Ho Hl]. unfold queue_wire.
  rewrite Hc, queued_unsent by done. pose proof (zlen_nonneg wire). pose proof (zlen_nonneg (unsent w)).
  destruct (_ <? zlen wire) eqn:Hbig; [done|]. apply Z.ltb_ge in Hbig. rewrite u64_small by lia.
  by rewrite ltb_lt_true by lia.
Qed.

(** ** Chunking *)

Definition chunk_flags (mark_start mark_end : bool) (first_flags : Z) (first last : bool) : Z :=
  let flags := if first then first_flags else 0 in
  let flags := if first && mark_start then Z.lor flags kFlagStart else flags in
  if last && mark_end then Z.lor flags kFlagEnd else flags.

(** The frames a body of [data] is sent as: frames of [limit] bytes, then the rest. *)
Fixpoint chunk_frames (limit : Z) (fuel : nat) (version type id : Z) (flags : bool → bool → Z) (first : bool)
    (data : bytes) : list Frame :=
  match fuel with
  | O => []
  | S fuel =>
      let rest := zdrop limit data in
      mkFrame type (flags first (bool_decide (rest = []))) id version (ztake limit data)
      :: (if bool_decide (rest = []) then [] else chunk_frames limit fuel version type id flags false rest)
  end.

(** [fuel] is the number of frames of [data]. *)
Definition chunk_fuel (limit : Z) (fuel : nat) (data : bytes) : Prop :=
  (1 <= fuel)%nat ∧ zlen data <= Z.of_nat fuel * limit
  ∧ (fuel = 1%nat ∨ (Z.of_nat fuel - 1) * limit < zlen data).

Lemma ztake_ge {A} n (l : list A) : zlen l <= n → ztake n l = l.
Proof. intros Hn. unfold ztake. apply take_ge. unfold zlen in Hn. lia. Qed.

Lemma ztake_min {A} n (l : list A) : 0 <= n → ztake (Z.min (zlen l) n) l = ztake n l.
Proof.
  intros Hn. destruct (Z.min_spec (zlen l) n) as [[Hlt ->]|[Hle ->]]; [|done].
  by rewrite ztake_all, ztake_ge by lia.
Qed.

Lemma zdrop_nil_iff {A} n (l : list A) : 0 <= n → zdrop n l = [] ↔ zlen l <= n.
Proof.
  intros Hn. split; [|apply zdrop_none]. intros Hd. destruct (Z.le_gt_cases (zlen l) n) as [|Hgt]; [done|].
  assert (zlen (zdrop n l) = zlen l - n) as Hz by (apply zlen_zdrop; lia). rewrite Hd, zlen_nil in Hz. lia.
Qed.

Section chunk_frames.
Context (limit : Z) (Hlimit : 0 < limit).

Lemma zdrop_rest (data : bytes) : zdrop limit data ≠ [] → limit < zlen data.
Proof.
  intros Hr. destruct (Z.le_gt_cases (zlen data) limit) as [Hle|]; [|lia].
  by apply zdrop_nil_iff in Hle; [|lia].
Qed.

Lemma chunk_fuel_step fuel data : chunk_fuel limit (S fuel) data → limit < zlen data →
  chunk_fuel limit fuel (zdrop limit data).
Proof.
  unfold chunk_fuel. intros (_ & Hle & Hlt) Hbig. rewrite zlen_zdrop by lia.
  destruct fuel as [|fuel]; [lia|]. split; [lia|]. split; [lia|].
  destruct fuel as [|fuel]; [by left|]. right. destruct Hlt as [Hlt|Hlt]; lia.
Qed.

Lemma chunk_frames_size fuel v t id flags first data : chunk_fuel limit fuel data →
  length (chunk_frames limit fuel v t id flags first data) = fuel
  ∧ concat (map fpayload (chunk_frames limit fuel v t id flags first data)) = data
  ∧ Forall (λ f, zlen (fpayload f) <= limit) (chunk_frames limit fuel v t id flags first data).
Proof.
  revert first data. induction fuel as [|fuel IH]; intros first data Hf; [destruct Hf; lia|].
  cbn [chunk_frames length map concat fpayload].
  pose proof (zlen_ztake_le limit data ltac:(lia)) as Hz. case_bool_decide as Hr.
  - apply zdrop_nil_iff in Hr; [|lia]. rewrite (ztake_ge _ _ Hr). cbn [length map concat]. rewrite app_nil_r.
    split; [|split; [done|]; by apply Forall_singleton]. destruct Hf as (_ & _ & [Hone|Hlt]); [lia|nia].
  - destruct (IH false (zdrop limit data)) as (Hl & Hc & Hall);
      [apply chunk_fuel_step; [done|by apply zdrop_rest]|].
    rewrite Hl, Hc, ztake_zdrop. split; [done|]. split; [done|]. by constructor.
Qed.
End chunk_frames.

Lemma frame_count_fuel data : chunk_fuel kMaxPayloadSize (Z.to_nat (frame_count (zlen data))) data.
Proof.
  pose proof (zlen_nonneg data). unfold chunk_fuel, frame_count, kMaxPayloadSize.
  destruct (zlen data =? 0) eqn:Hz; bools; [split; [lia|]; split; [lia|by left]|].
  pose proof (Z.div_mod (zlen data) (64 * 1024) ltac:(lia)) as Hdiv.
  pose proof (Z.mod_pos_bound (zlen data) (64 * 1024) ltac:(lia)) as Hmod.
  pose proof (Z.div_pos (zlen data) (64 * 1024) ltac:(lia) ltac:(lia)) as Hpos.
  destruct (zlen data mod (64 * 1024) =? 0) eqn:Hm; bools; cbn [negb]; rewrite Z2Nat.id by lia;
    (split; [lia|]; split; [lia|]; right; lia).
Qed.

Lemma zlen_frame_stream fs : zlen (frame_stream fs) = zlen (concat (map fpayload fs)) + kHeaderSize * zlen fs.
Proof.
  induction fs as [|f fs IH]; [done|]. rewrite frame_stream_cons, zlen_app, IH, zlen_frame_bytes.
  cbn [map concat]. rewrite zlen_app, zlen_cons. unfold kHeaderSize. lia.
Qed.

(** The flags of every chunk are valid for its type. *)
Definition chunks_encodable (v type : Z) (flags : bool → bool → Z) : Prop :=
  (v = kVersion ∨ v = kVersionV4) ∧ valid_type_versioned type v = true
  ∧ ∀ first last, valid_flags_versioned type (flags first last) v = true.

Section chunk_loop.
#[local] Opaque kMaxPayloadSize.

Lemma chunk_loop_frames fuel v t id data ms me ff offset first batch :
  chunks_encodable v t (chunk_flags ms me ff) → 0 <= offset <= zlen data →
  chunk_fuel kMaxPayloadSize fuel (zdrop offset data) →
  chunk_loop fuel v t id data ms me ff offset first batch
  = inr (batch ++ frame_stream (chunk_frames kMaxPayloadSize fuel v t id (chunk_flags ms me ff) first (zdrop offset data))).
Proof.
  intros (Hv & Ht & Hf). revert offset first batch. assert (0 < kMaxPayloadSize) as Hk by reflexivity.
  induction fuel as [|fuel IH]; intros offset first batch Ho Hfuel; [destruct Hfuel; lia|].
  cbn [chunk_loop chunk_frames]. rewrite frame_stream_cons.
  assert (zlen (zdrop offset data) = zlen data - offset) as Hz by (by apply zlen_zdrop).
  rewrite <- Hz, ztake_min by lia.
  pose proof (zlen_ztake_le kMaxPayloadSize (zdrop offset data) ltac:(lia)) as Hle.
  assert ((offset + Z.min (zlen (zdrop offset data)) kMaxPayloadSize =? zlen data)
          = bool_decide (zdrop kMaxPayloadSize (zdrop offset data) = [])) as Hlast.
  { case_bool_decide as Hr; [apply zdrop_nil_iff in Hr; [|lia]|apply (zdrop_rest _ Hk) in Hr];
      [apply Z.eqb_eq|apply Z.eqb_neq]; lia. }
  rewrite Hlast. fold (chunk_flags ms me ff first (bool_decide (zdrop kMaxPayloadSize (zdrop offset data) = []))).
  rewrite encode_versioned_spec, bool_decide_eq_true_2 by (split; [exact Hv|]; split; [exact Ht|]; split; [apply Hf|exact Hle]).
  unfold set_version at 1. cbn [ftype fflags frequest_id fpayload].
  case_bool_decide as Hr.
  - apply Z.eqb_eq in Hlast. rewrite ltb_ge_false by lia. by rewrite app_nil_r.
  - pose proof (zdrop_rest _ Hk _ Hr) as Hbig. rewrite ltb_lt_true by lia.
    rewrite Z.min_r by lia. rewrite IH; [|lia|].
    + rewrite zdrop_zdrop by lia. by rewrite <- app_assoc.
    + rewrite <- zdrop_zdrop by lia. by apply chunk_fuel_step.
Qed.
End chunk_loop.

Definition sent_chunks (v type id : Z) (mark_start mark_end : bool) (first_flags : Z) (data : bytes) : list Frame :=
  chunk_frames kMaxPayloadSize (Z.to_nat (frame_count (zlen data))) v type id
    (chunk_flags mark_start mark_end first_flags) true data.

Lemma zlen_sent_chunks v t id ms me ff data :
  zlen (frame_stream (sent_chunks v t id ms me ff data)) = zlen data + frame_count (zlen data) * kHeaderSize.
Proof.
  destruct (chunk_frames_size kMaxPayloadSize eq_refl (Z.to_nat (frame_count (zlen data))) v t id
    (chunk_flags ms me ff) true data (frame_count_fuel data)) as (Hl & Hc & _).
  unfold sent_chunks. rewrite zlen_frame_stream, Hc. unfold zlen at 2. rewrite Hl.
  destruct (frame_count_fuel data) as (H1 & _). lia.
Qed.

(** The call returned an error and changed nothing. *)
Ltac refused := left; eexists; split; [|reflexivity]; discriminate.

Lemma queue_frame_cases w f : queue_wf w →
  (∃ r, r ≠ CAPSID_OK ∧ queue_frame w f = (r, w))
  ∨ (closed w = false ∧ encodable (w_version (w_limits w)) f
     ∧ ∃ w', queue_frame w f = (CAPSID_OK, w') ∧ queues w (frame_bytes (set_version (w_version (w_limits w)) f)) w').
Proof.
  intros Hw. unfold queue_frame. rewrite encode_versioned_spec. case_bool_decide as Henc; [|refused].
  destruct (queue_wire_cases w (frame_bytes (set_version (w_version (w_limits w)) f)) Hw)
    as [(_ & ->)|[(_ & _ & ->)|(Hc & w' & -> & Hq)]].
  - refused.
  - refused.
  - right. split; [done|]. split; [done|]. by exists w'.
Qed.

Lemma queue_chunked_cases w t id data ms me ff : queue_wf w →
  chunks_encodable (w_version (w_limits w)) t (chunk_flags ms me ff) →
  (∃ r, r ≠ CAPSID_OK ∧ queue_chunked w t id data ms me ff = (r, w))
  ∨ (closed w = false ∧ ∃ body w', data = Some body ∧ queue_chunked w t id data ms me ff = (CAPSID_OK, w')
     ∧ queues w (frame_stream (sent_chunks (w_version (w_limits w)) t id ms me ff body)) w').
Proof.
  intros Hw Henc. unfold queue_chunked. destruct data as [data|]; [|refused].
  destruct (closed w) eqn:Hc; [refused|]. destruct (_ <? frame_count _); [refused|].
  destruct (_ || _); [refused|].
  rewrite chunk_loop_frames; [|done|pose proof (zlen_nonneg data); lia|rewrite zdrop_0; apply frame_count_fuel].
  rewrite zdrop_0, app_nil_l. fold (sent_chunks (w_version (w_limits w)) t id ms me ff data).
  destruct (queue_wire_cases w (frame_stream (sent_chunks (w_version (w_limits w)) t id ms me ff data)) Hw)
    as [(_ & ->)|[(_ & _ & ->)|(_ & w' & -> & Hq)]].
  - refused.
  - refused.
  - right. split; [done|]. by exists data, w'.
Qed.

(** What fits the free space of an open queue is queued. *)
Lemma queue_chunked_fits w t id data ms me ff : queue_wf w → closed w = false →
  chunks_encodable (w_version (w_limits w)) t (chunk_flags ms me ff) →
  zlen (unsent w) + zlen data + frame_count (zlen data) * kHeaderSize <= w_max_queued (w_limits w) →
  ∃ w', queue_chunked w t id (Some data) ms me ff = (CAPSID_OK, w')
        ∧ queues w (frame_stream (sent_chunks (w_version (w_limits w)) t id ms me ff data)) w'.
Proof.
  intros Hw Hc Henc Hfit. pose proof Hw as [_ Hl]. pose proof (zlen_nonneg data). pose proof (zlen_nonneg (unsent w)).
  destruct (frame_count_fuel data) as (H1 & _). unfold queue_chunked. rewrite Hc.
  assert (0 <= frame_count (zlen data) * kHeaderSize) as Hpos by (unfold kHeaderSize; lia).
  rewrite (ltb_ge_false ((u64_max - zlen data) / kHeaderSize)).
  2: { unfold u64_max, kHeaderSize in *. apply Z.div_le_lower_bound; lia. }
  rewrite queued_unsent by done. rewrite u64_small, !ltb_ge_false by lia. cbn [orb].
  rewrite chunk_loop_frames; [|done|lia|rewrite zdrop_0; apply frame_count_fuel].
  rewrite zdrop_0, app_nil_l. apply queue_wire_ok; [done|done|]. fold (sent_chunks (w_version (w_limits w)) t id ms me ff data).
  rewrite zlen_sent_chunks. lia.
Qed.

(** What does not fit an empty queue is refused as retryable, however often
    the call is repeated. *)
Lemma oversized_never_fits w t id data ms me ff : queue_wf w → closed w = false → zlen data < 2 ^ 63 →
  w_max_queued (w_limits w) < zlen data + frame_count (zlen data) * kHeaderSize →
  queue_chunked w t id (Some data) ms me ff = (CAPSID_WOULD_BLOCK, w).
Proof.
  intros Hw Hc Hsz Hbig. pose proof (zlen_nonneg data). destruct (frame_count_fuel data) as (H1 & H2 & H3).
  unfold queue_chunked. rewrite Hc.
  assert (frame_count (zlen data) <= (u64_max - zlen data) / kHeaderSize) as Hcount.
  { unfold u64_max, kHeaderSize. apply Z.div_le_lower_bound; [lia|]. unfold kMaxPayloadSize in *.
    destruct H3 as [H3|H3]; lia. }
  rewrite ltb_ge_false by done. by rewrite (ltb_lt_true _ _ Hbig).
Qed.

Lemma bundle_chunks_encodable v ff : v = kVersion ∨ v = kVersionV4 →
  ff = 0 ∨ ff = kFlagBundleName ∨ ff = Z.lor kFlagBundleName kFlagTrustedBytecode →
  chunks_encodable v kLoadBundle (chunk_flags true true ff).
Proof.
  intros Hv Hff. split; [done|].
  destruct Hv as [->| ->]; (split; [done|]); destruct Hff as [->|[->| ->]]; intros [] []; done.
Qed.

Lemma binding_chunks_encodable v : v = kVersion ∨ v = kVersionV4 →
  chunks_encodable v kLoadBinding (chunk_flags true true 0).
Proof. intros Hv. split; [done|]. destruct Hv as [->| ->]; (split; [done|]); intros [] []; done. Qed.

Lemma body_chunks_encodable v : v = kVersion ∨ v = kVersionV4 →
  chunks_encodable v kRequestBody (chunk_flags false false 0).
Proof. intros Hv. split; [done|]. destruct Hv as [->| ->]; (split; [done|]); intros [] []; done. Qed.

(** ** The contract of the channel

    What the worker's peer observes: frames sent, events delivered, and the
    channel being dropped with everything in flight. The contract keeps the
    credit of every live request and whether its body has ended, and whether
    the bundle has sealed the bindings; a step it does not allow has no
    successor. *)

Inductive Obs :=
| Sent (f : Frame)
| Got (e : capsid_event)
| Dropped.

Record Contract := mkContract {
  live : gmap Z (Z * bool);
  sealed : bool
}.

Definition with_live (c : Contract) (l : gmap Z (Z * bool)) : Contract := mkContract l (sealed c).

Definition sent_step (max_inflight : Z) (c : Contract) (f : Frame) : option Contract :=
  let id := frequest_id f in
  let t := ftype f in
  if t =? kRequestHead then
    if negb (id =? 0) && bool_decide (live c !! id = None) && (Z.of_nat (size (live c)) <? max_inflight)
    then Some (with_live c (<[id := (0, flag_set (fflags f) kFlagRequestEnd)]> (live c))) else None
  else if t =? kRequestBody then
    match live c !! id with
    | Some (credit, false) =>
        if zlen (fpayload f) <=? credit then Some (with_live c (<[id := (credit - zlen (fpayload f), false)]> (live c)))
        else None
    | _ => None
    end
  else if t =? kRequestEnd then
    match live c !! id with
    | Some (credit, false) => Some (with_live c (<[id := (credit, true)]> (live c)))
    | _ => None
    end
  else if t =? kWindowUpdate then if bool_decide (is_Some (live c !! id)) then Some c else None
  else if t =? kCancel then
    if bool_decide (is_Some (live c !! id)) then Some (with_live c (delete id (live c))) else None
  else if t =? kLoadBinding then if sealed c then None else Some c
  else if t =? kLoadBundle then Some (mkContract (live c) true)
  else if (t =? kMemoryMetricsRequest) || (t =? kShutdown) then Some c
  else None.

Definition got_step (c : Contract) (e : capsid_event) : option Contract :=
  let id := request_id e in
  match type e with
  | CAPSID_EVENT_REQUEST_CREDIT =>
      match live c !! id with
      | Some (credit, ended) =>
          if (0 <=? WorkerExecutor.credit e) && (credit + WorkerExecutor.credit e <=? u64_max)
          then Some (with_live c (<[id := (credit + WorkerExecutor.credit e, ended)]> (live c))) else None
      | None => None
      end
  | CAPSID_EVENT_RESPONSE_END | CAPSID_EVENT_ERROR | CAPSID_EVENT_REQUEST_TIMEOUT =>
      Some (with_live c (delete id (live c)))
  | CAPSID_EVENT_EXIT => Some (with_live c ∅)
  | CAPSID_EVENT_NONE => None
  | _ => Some c
  end.

Definition obs_step (max_inflight : Z) (c : Contract) (o : Obs) : option Contract :=
  match o with
  | Sent f => sent_step max_inflight c f
  | Got e => got_step c e
  | Dropped => Some (with_live c ∅)
  end.

Fixpoint obs_run (max_inflight : Z) (c : Contract) (os : list Obs) : option Contract :=
  match os with
  | [] => Some c
  | o :: os => match obs_step max_inflight c o with Some c => obs_run max_inflight c os | None => None end
  end.

Definition sent_frames (os : list Obs) : list Frame := omap (λ o, match o with Sent f => Some f | _ => None end) os.
Definition got_events (os : list Obs) : list capsid_event := omap (λ o, match o with Got e => Some e | _ => None end) os.

(** The contract's view of a worker. *)
Definition view (w : capsid_worker) : Contract :=
  mkContract ((λ st, (rs_credit st, rs_ended st)) <$> requests w) (bundle_loaded w).

(** ** The calls *)

Inductive ClientCall :=
| Do_load_bundle (bundle : option bytes)
| Do_load_bundle_named (bundle source_name : option bytes)
| Do_load_bytecode (bytecode source_name : option bytes)
| Do_load_binding (binding : option capsid_binding_descriptor)
| Do_begin (bodyless : bool) (now id : Z) (method url : option bytes) (headers : option (list (option bytes * option bytes)))
| Do_write (id : Z) (data : option bytes)
| Do_end (id : Z)
| Do_grant (id amount : Z)
| Do_cancel (id : Z)
| Do_metrics
| Do_shutdown
| Do_flush (answers : list WriteAnswer)
| Do_next_event (fuel : nat) (answers : list ReadAnswer).

Record CallDone := mkDone {
  d_result : capsid_result;
  d_event : option capsid_event;
  d_written : bytes;                      (* taken by the socket *)
  d_worker : capsid_worker
}.

Definition done_of (r : capsid_result * capsid_worker) : option CallDone := Some (mkDone r.1 None [] r.2).

(** A call that returned. *)
Definition run_call (w : capsid_worker) (call : ClientCall) : option CallDone :=
  match call with
  | Do_load_bundle b => done_of (capsid_worker_load_bundle w b)
  | Do_load_bundle_named b n => done_of (capsid_worker_load_bundle_named w b n)
  | Do_load_bytecode b n => done_of (capsid_worker_load_trusted_bytecode_named w b n)
  | Do_load_binding b => done_of (capsid_worker_load_binding w b)
  | Do_begin true now id m u hs => done_of (capsid_worker_begin_bodyless_request w now id m u hs)
  | Do_begin false now id m u hs => done_of (capsid_worker_begin_request w now id m u hs)
  | Do_write id d => done_of (capsid_worker_write_request w id d)
  | Do_end id => done_of (capsid_worker_end_request w id)
  | Do_grant id amount => done_of (capsid_worker_grant_response_credit w id amount)
  | Do_cancel id => done_of (capsid_worker_cancel w id)
  | Do_metrics => done_of (capsid_worker_request_memory_metrics w)
  | Do_shutdown => done_of (capsid_worker_shutdown w)
  | Do_flush answers =>
      match capsid_worker_flush w answers with
      | Some (r, written, w, _) => Some (mkDone r None written w)
      | None => None
      end
  | Do_next_event fuel answers =>
      match capsid_worker_next_event fuel w answers with
      | Next_return r e w _ => Some (mkDone r e [] w)
      | _ => None
      end
  end.

(** The events, the bytes the socket took, and the worker after some calls. *)
Fixpoint run_calls (w : capsid_worker) (calls : list ClientCall) : option (list capsid_event * bytes * capsid_worker) :=
  match calls with
  | [] => Some ([], [], w)
  | call :: calls =>
      match run_call w call with
      | None => None
      | Some d =>
          match run_calls (d_worker d) calls with
          | None => None
          | Some (events, written, w) => Some (option_list (d_event d) ++ events, d_written d ++ written, w)
          end
      end
  end.

(** ** The calls keep the contract *)

Record client_wf (w : capsid_worker) : Prop := {
  cw_queue : queue_wf w;
  cw_version : w_version (w_limits w) = kVersion ∨ w_version (w_limits w) = kVersionV4;
  cw_zero : requests w !! 0 = None;
  cw_credit : ∀ id st, requests w !! id = Some st → 0 <= rs_credit st <= u64_max;
  cw_pending : pending_timeouts w = [] ∨ closed w = true ∧ requests w = ∅
}.

(** The observations of one returned call: they lead the contract from the
    view before to the view after it, their frames are what the call appended
    to the stream of the socket, and their events what it returned. *)
Definition refines (w : capsid_worker) (d : CallDone) : Prop :=
  ∃ os, obs_run (w_max_inflight (w_limits w)) (view w) os = Some (view (d_worker d))
        ∧ d_written d ++ unsent (d_worker d) = unsent w ++ frame_stream (sent_frames os)
        ∧ got_events os = option_list (d_event d)
        ∧ client_wf (d_worker d) ∧ w_limits (d_worker d) = w_limits w.

Lemma sent_frames_map fs : sent_frames (map Sent fs) = fs.
Proof. induction fs as [|f fs IH]; [done|]. cbn. by f_equal. Qed.

Lemma got_events_map fs : got_events (map Sent fs) = [].
Proof. by induction fs. Qed.

Lemma obs_run_app m c os1 os2 : obs_run m c (os1 ++ os2)
  = match obs_run m c os1 with Some c => obs_run m c os2 | None => None end.
Proof.
  revert c. induction os1 as [|o os1 IH]; intros c; [done|]. cbn [app obs_run].
  destruct (obs_step m c o); [apply IH|done].
Qed.

Lemma refines_same w r : client_wf w → refines w (mkDone r None [] w).
Proof. intros Hw. exists []. cbn. by rewrite app_nil_r. Qed.

Lemma refines_sent w r w' fs : client_wf w' → w_limits w' = w_limits w →
  obs_run (w_max_inflight (w_limits w)) (view w) (map Sent fs) = Some (view w') →
  unsent w' = unsent w ++ frame_stream fs → refines w (mkDone r None [] w').
Proof.
  intros Hw Hl Hrun Hu. exists (map Sent fs). cbn [d_worker d_written d_event].
  rewrite sent_frames_map, got_events_map. done.
Qed.

Lemma queues_fields w wire w' : queues w wire w' →
  queue_wf w' ∧ unsent w' = unsent w ++ wire ∧ w_limits w' = w_limits w ∧ requests w' = requests w
  ∧ bundle_loaded w' = bundle_loaded w ∧ closed w' = closed w ∧ canceled_requests w' = canceled_requests w
  ∧ canceled_request_order w' = canceled_request_order w ∧ view w' = view w
  ∧ pending_timeouts w' = pending_timeouts w.
Proof. by intros (o & b & -> & Hw & Hu). Qed.

Lemma queues_wf w wire w' : client_wf w → queues w wire w' → client_wf w'.
Proof.
  intros [Hq Hv Hz Hc Hp] Hw. destruct (queues_fields _ _ _ Hw) as (Hq' & _ & Hl & Hr & _ & Hcl & _ & _ & _ & Hpe).
  constructor; [done|by rewrite Hl|by rewrite Hr|by rewrite Hr|by rewrite Hpe, Hcl, Hr].
Qed.

Lemma frame_stream_one f : frame_stream [f] = frame_bytes f.
Proof. unfold frame_stream. cbn. by rewrite app_nil_r. Qed.

(** Queueing one frame the contract admits without a change of the tables. *)
Lemma refines_frame w f : client_wf w →
  sent_step (w_max_inflight (w_limits w)) (view w) (set_version (w_version (w_limits w)) f) = Some (view w) →
  refines w (mkDone (queue_frame w f).1 None [] (queue_frame w f).2).
Proof.
  intros Hw Hstep. destruct (queue_frame_cases w f (cw_queue w Hw)) as [(r & _ & ->)|(_ & _ & w' & -> & Hq)].
  { by apply refines_same. }
  destruct (queues_fields _ _ _ Hq) as (_ & Hu & Hl & _ & _ & _ & _ & _ & Hview & _).
  eapply (refines_sent _ _ _ [set_version (w_version (w_limits w)) f]);
    [by eapply queues_wf|done| |by rewrite frame_stream_one].
  cbn [map obs_run obs_step snd]. by rewrite Hstep, Hview.
Qed.

Lemma view_lookup w id : live (view w) !! id = (λ st, (rs_credit st, rs_ended st)) <$> requests w !! id.
Proof. unfold view. cbn [live]. by rewrite lookup_fmap. Qed.

(** Runs of frames of one type. *)
Lemma chunk_frames_types limit fuel v t id flags first data :
  Forall (λ f, ftype f = t ∧ frequest_id f = id ∧ fversion f = v) (chunk_frames limit fuel v t id flags first data).
Proof.
  revert first data. induction fuel as [|fuel IH]; intros first data; cbn [chunk_frames]; [constructor|].
  constructor; [done|]. case_bool_decide; [constructor|apply IH].
Qed.

Lemma sent_chunks_facts v t id ms me ff data :
  Forall (λ f, ftype f = t ∧ frequest_id f = id ∧ fversion f = v) (sent_chunks v t id ms me ff data)
  ∧ concat (map fpayload (sent_chunks v t id ms me ff data)) = data
  ∧ sent_chunks v t id ms me ff data ≠ [].
Proof.
  unfold sent_chunks. split; [apply chunk_frames_types|].
  destruct (chunk_frames_size kMaxPayloadSize eq_refl (Z.to_nat (frame_count (zlen data))) v t id
    (chunk_flags ms me ff) true data (frame_count_fuel data)) as (Hl & Hc & _). split; [done|].
  destruct (frame_count_fuel data) as (H1 & _). intros Hnil. rewrite Hnil in Hl. cbn in Hl. lia.
Qed.

Lemma body_run m c fs id credit : Forall (λ f, ftype f = kRequestBody ∧ frequest_id f = id) fs →
  live c !! id = Some (credit, false) → zlen (concat (map fpayload fs)) <= credit →
  obs_run m c (map Sent fs) = Some (with_live c (<[id := (credit - zlen (concat (map fpayload fs)), false)]> (live c))).
Proof.
  intros Hall. revert c credit. induction Hall as [|f fs [Ht Hid] _ IH]; intros c credit Hc Hle; cbn [map concat obs_run].
  - rewrite zlen_nil, Z.sub_0_r, insert_id by done. by destruct c.
  - cbn [map concat] in Hle. rewrite zlen_app in *. pose proof (zlen_nonneg (concat (map fpayload fs))).
    cbn [obs_step]. unfold sent_step. rewrite Ht, Hid. cbn [Z.eqb kRequestBody kRequestHead Pos.eqb].
    rewrite Hc. rewrite (proj2 (Z.leb_le _ _)) by lia.
    rewrite (IH _ (credit - zlen (fpayload f))); [|by unfold with_live; cbn [live]; rewrite lookup_insert_eq|lia].
    unfold with_live. cbn [live sealed]. rewrite insert_insert_eq. by do 4 f_equal; lia.
Qed.

Lemma bundle_run m c fs : Forall (λ f, ftype f = kLoadBundle) fs → fs ≠ [] →
  obs_run m c (map Sent fs) = Some (mkContract (live c) true).
Proof.
  intros Hall Hne. destruct Hall as [|f fs Ht Hall]; [done|]. cbn [map obs_run obs_step]. unfold sent_step at 1. rewrite Ht.
  cbn [Z.eqb kLoadBundle kRequestBody kRequestHead kRequestEnd kWindowUpdate kCancel kLoadBinding Pos.eqb].
  clear Hne Ht f. induction Hall as [|f fs Ht _ IH]; [done|]. cbn [map obs_run obs_step]. unfold sent_step at 1. rewrite Ht.
  cbn [Z.eqb kLoadBundle kRequestBody kRequestHead kRequestEnd kWindowUpdate kCancel kLoadBinding Pos.eqb live]. apply IH.
Qed.

Lemma binding_run m c fs : Forall (λ f, ftype f = kLoadBinding) fs → sealed c = false →
  obs_run m c (map Sent fs) = Some c.
Proof.
  intros Hall Hs. induction Hall as [|f fs Ht _ IH]; [done|]. cbn [map obs_run obs_step]. unfold sent_step at 1. rewrite Ht.
  cbn [Z.eqb kLoadBundle kRequestBody kRequestHead kRequestEnd kWindowUpdate kCancel kLoadBinding Pos.eqb].
  by rewrite Hs.
Qed.

Lemma load_refines w data ff : client_wf w →
  ff = 0 ∨ ff = kFlagBundleName ∨ ff = Z.lor kFlagBundleName kFlagTrustedBytecode →
  refines w (mkDone (and_bundle_loaded (queue_chunked w kLoadBundle 0 data true true ff)).1 None []
               (and_bundle_loaded (queue_chunked w kLoadBundle 0 data true true ff)).2).
Proof.
  intros Hw Hff.
  destruct (queue_chunked_cases w kLoadBundle 0 data true true ff (cw_queue w Hw)
    (bundle_chunks_encodable _ _ (cw_version w Hw) Hff)) as [(r & Hr & ->)|(_ & body & w' & -> & -> & Hq)].
  { cbn [and_bundle_loaded]. rewrite bool_decide_eq_false_2 by done. by apply refines_same. }
  cbn [and_bundle_loaded]. rewrite bool_decide_eq_true_2 by done.
  pose proof (queues_wf _ _ _ Hw Hq) as [Hq' Hv' Hz' Hc' Hp'].
  destruct (queues_fields _ _ _ Hq) as (_ & Hu & Hl & Hr & _).
  destruct (sent_chunks_facts (w_version (w_limits w)) kLoadBundle 0 true true ff body) as (Hall & _ & Hne).
  eapply refines_sent; [constructor; destruct Hq'; done|done| |done].
  rewrite bundle_run; [|eapply Forall_impl; [done|by intros f (-> & _)]|done].
  unfold view. cbn [snd with_bundle_loaded requests bundle_loaded live]. by rewrite Hr.
Qed.

Lemma binding_refines w b : client_wf w →
  refines w (mkDone (capsid_worker_load_binding w b).1 None [] (capsid_worker_load_binding w b).2).
Proof.
  intros Hw. unfold capsid_worker_load_binding. destruct b as [b|]; [|by apply refines_same].
  destruct (bundle_loaded w) eqn:Hs; [by apply refines_same|].
  destruct (valid_api_binding b) as [[[name source] config]|]; [|by apply refines_same].
  destruct (api_policy b) as [p|]; [|by apply refines_same].
  destruct (api_profiles b) as [profiles|]; [|by apply refines_same]. destruct (negb _); [by apply refines_same|].
  destruct (queue_chunked_cases w kLoadBinding 0
    (Some (append_u32 [] (u32 (zlen (api_descriptor_bytes b p profiles name config)))
           ++ api_descriptor_bytes b p profiles name config ++ source)) true true 0 (cw_queue w Hw)
    (binding_chunks_encodable _ (cw_version w Hw))) as [(r & Hr & ->)|(_ & body & w' & _ & -> & Hq)].
  { by apply refines_same. }
  destruct (queues_fields _ _ _ Hq) as (_ & Hu & Hl & _ & _ & _ & _ & _ & Hview & _).
  destruct (sent_chunks_facts (w_version (w_limits w)) kLoadBinding 0 true true 0 body) as (Hall & _ & _).
  eapply refines_sent; [by eapply queues_wf|done| |done].
  rewrite binding_run; [by cbn [snd]; rewrite Hview|eapply Forall_impl; [done|by intros f (-> & _)]|done].
Qed.

(** A queued frame followed by a change of the request table. *)
Lemma refines_frame_then w f w' r rs : client_wf w → closed w = false → queues w (frame_bytes (set_version (w_version (w_limits w)) f)) w' →
  rs !! 0 = None → (∀ id st, rs !! id = Some st → 0 <= rs_credit st <= u64_max) →
  sent_step (w_max_inflight (w_limits w)) (view w) (set_version (w_version (w_limits w)) f)
  = Some (with_live (view w) ((λ st, (rs_credit st, rs_ended st)) <$> rs)) →
  ∀ w'', requests w'' = rs → w_limits w'' = w_limits w' → write_offset w'' = write_offset w' →
    write_buffer w'' = write_buffer w' → bundle_loaded w'' = bundle_loaded w' →
    pending_timeouts w'' = pending_timeouts w' →
  refines w (mkDone r None [] w'').
Proof.
  intros Hw Hcl Hq Hzero Hrs Hstep w'' Hr Hl Ho Hb Hbl Hpe.
  destruct (queues_fields _ _ _ Hq) as ([Ho' Hl'] & Hu & Hlim & _ & Hbl' & _ & _ & _ & _ & Hpe').
  assert (unsent w'' = unsent w') as Hu' by (unfold unsent; by rewrite Ho, Hb).
  eapply (refines_sent _ _ _ [set_version (w_version (w_limits w)) f]).
  - constructor; [constructor; rewrite ?Hu', ?Ho, ?Hb, ?Hl; done| |by rewrite Hr|by rewrite Hr|].
    + rewrite Hl, Hlim. apply (cw_version w Hw).
    + left. rewrite Hpe, Hpe'. destruct (cw_pending w Hw) as [?|[? _]]; congruence.
  - by rewrite Hl.
  - cbn [map obs_run obs_step]. rewrite Hstep. unfold view, with_live. cbn [sealed]. by rewrite Hr, Hbl, Hbl'.
  - by rewrite frame_stream_one, Hu'.
Qed.

Lemma insert_credit_range (rs : gmap Z RequestState) id credit ended deadline :
  (∀ i st, rs !! i = Some st → 0 <= rs_credit st <= u64_max) → 0 <= credit <= u64_max →
  ∀ i st, <[id := mkRequestState credit ended deadline]> rs !! i = Some st → 0 <= rs_credit st <= u64_max.
Proof.
  intros Hrs Hc i st. destruct (decide (i = id)) as [->|Hne].
  - rewrite lookup_insert_eq. by intros [= <-].
  - rewrite lookup_insert_ne by done. apply Hrs.
Qed.

Lemma begin_refines w now id m u hs flags : client_wf w →
  refines w (mkDone (begin_request_impl w now id m u hs flags).1 None [] (begin_request_impl w now id m u hs flags).2).
Proof.
  intros Hw. unfold begin_request_impl. destruct (id =? 0) eqn:Hid; [by apply refines_same|].
  destruct (request_head_payload _ _ _ _) as [payload|]; [|by apply refines_same].
  case_bool_decide as Hsome; [by apply refines_same|]. destruct (_ <=? _) eqn:Hroom; [by apply refines_same|].
  destruct (queue_frame_cases w (mkFrame kRequestHead flags id 0 payload) (cw_queue w Hw))
    as [(r & Hr & ->)|(Hopen & _ & w' & -> & Hq)].
  { rewrite bool_decide_eq_false_2 by done. by apply refines_same. }
  rewrite bool_decide_eq_true_2 by done. destruct (queues_fields _ _ _ Hq) as (_ & _ & _ & Hreq & _).
  cbn [fst snd]. eapply refines_frame_then; [done|done|done| | | |reflexivity|done|done|done|done|done].
  - cbn. bools. rewrite lookup_insert_ne, Hreq by done. apply (cw_zero w Hw).
  - apply insert_credit_range; [|unfold u64_max; lia]. cbn. rewrite Hreq. apply (cw_credit w Hw).
  - unfold sent_step. cbn [set_version ftype frequest_id fflags Z.eqb kRequestHead Pos.eqb]. rewrite Hid.
    assert (requests w !! id = None) as Hnone by (by destruct (requests w !! id); [destruct Hsome|]).
    rewrite view_lookup, Hnone. cbn [fmap option_fmap option_map negb andb]. rewrite bool_decide_eq_true_2 by done.
    unfold view. cbn [live]. rewrite map_size_fmap. rewrite Z.leb_antisym in Hroom. apply negb_false_iff in Hroom.
    rewrite Hroom. cbn [andb forget_canceled_request with_canceled with_requests requests]. rewrite fmap_insert, Hreq. done.
Qed.

Lemma write_refines w id data : client_wf w →
  refines w (mkDone (capsid_worker_write_request w id data).1 None [] (capsid_worker_write_request w id data).2).
Proof.
  intros Hw. unfold capsid_worker_write_request. destruct data as [body|]; [|by apply refines_same].
  destruct (id =? 0) eqn:Hid; [by apply refines_same|]. apply Z.eqb_neq in Hid.
  destruct (requests w !! id) as [st|] eqn:Hst; [|by apply refines_same].
  destruct (rs_ended st) eqn:He; [by apply refines_same|]. destruct (_ <? _) eqn:Hcr; [by apply refines_same|]. bools.
  destruct (queue_chunked_cases w kRequestBody id (Some body) false false 0 (cw_queue w Hw)
    (body_chunks_encodable _ (cw_version w Hw))) as [(r & Hr & ->)|(Hopen & body' & w' & [= <-] & -> & Hq)].
  { rewrite bool_decide_eq_false_2 by done. by apply refines_same. }
  rewrite bool_decide_eq_true_2 by done. destruct (queues_fields _ _ _ Hq) as (Hq' & Hu & Hl & Hreq & Hbl & _ & _ & _ & _ & Hpe).
  pose proof (cw_credit w Hw id st Hst) as Hrange. pose proof (zlen_nonneg body). unfold u64_max in *.
  rewrite u64_small by lia. cbn [fst snd].
  destruct (sent_chunks_facts (w_version (w_limits w)) kRequestBody id false false 0 body) as (Hall & Hcat & _).
  eapply (refines_sent _ _ _ (sent_chunks (w_version (w_limits w)) kRequestBody id false false 0 body)); [|done| |done].
  - destruct Hq' as [Ho Hlim]. constructor; [by constructor| | | |].
    + cbn [with_requests w_limits]. rewrite Hl. apply (cw_version w Hw).
    + cbn [with_requests requests]. rewrite lookup_insert_ne, Hreq by done. apply (cw_zero w Hw).
    + apply insert_credit_range; [rewrite Hreq; apply (cw_credit w Hw)|unfold u64_max; lia].
    + left. cbn [with_requests pending_timeouts]. rewrite Hpe. destruct (cw_pending w Hw) as [?|[? _]]; congruence.
  - rewrite (body_run _ _ _ id (rs_credit st)); rewrite ?Hcat; [|eapply Forall_impl; [done|by intros f (-> & -> & _)]| |lia].
    + unfold view, with_live. cbn [live sealed with_requests requests bundle_loaded].
      by rewrite fmap_insert, Hreq, Hbl.
    + rewrite view_lookup, Hst. cbn. by rewrite He.
Qed.

Lemma end_refines w id : client_wf w →
  refines w (mkDone (capsid_worker_end_request w id).1 None [] (capsid_worker_end_request w id).2).
Proof.
  intros Hw. unfold capsid_worker_end_request.
  destruct (id =? 0) eqn:Hid; [by apply refines_same|]. apply Z.eqb_neq in Hid.
  destruct (requests w !! id) as [st|] eqn:Hst; [|by apply refines_same].
  destruct (rs_ended st) eqn:He; [by apply refines_same|].
  destruct (queue_frame_cases w (mkFrame kRequestEnd 0 id 0 []) (cw_queue w Hw)) as [(r & Hr & ->)|(Hopen & _ & w' & -> & Hq)].
  { rewrite bool_decide_eq_false_2 by done. by apply refines_same. }
  rewrite bool_decide_eq_true_2 by done. destruct (queues_fields _ _ _ Hq) as (_ & _ & _ & Hreq & _).
  cbn [fst snd]. eapply refines_frame_then; [done|done|done| | | |reflexivity|done|done|done|done|done].
  - cbn [with_requests requests]. rewrite lookup_insert_ne, Hreq by done. apply (cw_zero w Hw).
  - cbn [with_requests requests]. rewrite Hreq.
    apply insert_credit_range; [apply (cw_credit w Hw)|by eapply (cw_credit w Hw)].
  - unfold sent_step. cbn [set_version ftype frequest_id Z.eqb kRequestHead kRequestBody kRequestEnd Pos.eqb].
    rewrite view_lookup, Hst. cbn [fmap option_fmap option_map]. rewrite He. cbn [with_requests requests].
    rewrite Hreq, fmap_insert. done.
Qed.

Lemma grant_refines w id amount : client_wf w →
  refines w (mkDone (capsid_worker_grant_response_credit w id amount).1 None []
               (capsid_worker_grant_response_credit w id amount).2).
Proof.
  intros Hw. unfold capsid_worker_grant_response_credit. destruct (_ || _); [by apply refines_same|].
  case_bool_decide as Hst; [by apply refines_same|]. apply refines_frame; [done|].
  unfold sent_step. cbn [set_version ftype frequest_id Z.eqb kRequestHead kRequestBody kRequestEnd kWindowUpdate Pos.eqb].
  rewrite view_lookup. destruct (requests w !! id); [done|congruence].
Qed.

Lemma cancel_refines w id : client_wf w →
  refines w (mkDone (capsid_worker_cancel w id).1 None [] (capsid_worker_cancel w id).2).
Proof.
  intros Hw. unfold capsid_worker_cancel.
  destruct (id =? 0) eqn:Hid; [by apply refines_same|]. apply Z.eqb_neq in Hid.
  destruct (requests w !! id) as [st|] eqn:Hst; [|by apply refines_same].
  destruct (queue_frame_cases w (mkFrame kCancel 0 id 0 []) (cw_queue w Hw)) as [(r & Hr & ->)|(Hopen & _ & w' & -> & Hq)].
  { rewrite bool_decide_eq_false_2 by done. by apply refines_same. }
  rewrite bool_decide_eq_true_2 by done. destruct (queues_fields _ _ _ Hq) as (_ & _ & _ & Hreq & _).
  assert (∃ ids order, remember_canceled_request w' id = with_canceled w' ids order) as (ids & order & ->).
  { unfold remember_canceled_request. case_bool_decide; [exists (canceled_requests w'), (canceled_request_order w'); by destruct w'|].
    destruct (evict_canceled _ _ _) as [ids order]. by exists ids, order. }
  cbn [fst snd]. eapply refines_frame_then; [done|done|done| | | |reflexivity|done|done|done|done|done]; cbn [with_canceled with_requests requests];
    rewrite Hreq.
  - rewrite lookup_delete_ne by done. apply (cw_zero w Hw).
  - intros i s. rewrite lookup_delete_Some. intros [_ Hs]. by eapply (cw_credit w Hw).
  - unfold sent_step.
    cbn [set_version ftype frequest_id Z.eqb kRequestHead kRequestBody kRequestEnd kWindowUpdate kCancel Pos.eqb].
    rewrite view_lookup, Hst. cbn [fmap option_fmap option_map]. rewrite fmap_delete. done.
Qed.

Lemma unsent_advance w n : 0 <= write_offset w <= zlen (write_buffer w) → 0 <= n <= zlen (unsent w) →
  ztake n (unsent w) ++ unsent (with_write w (write_offset w + n) (write_buffer w)) = unsent w.
Proof.
  intros Ho Hn. unfold unsent at 2. cbn [with_write write_offset write_buffer].
  rewrite <- zdrop_zdrop by lia. fold (unsent w). apply ztake_zdrop.
Qed.

Lemma client_flush_spec w answers sent r sent' w' rest : queue_wf w →
  flush_loop w answers sent = Some (r, sent', w', rest) →
  ∃ more, sent' = sent ++ more ∧ more ++ unsent w' = unsent w ∧ queue_wf w' ∧ w_limits w' = w_limits w
    ∧ bundle_loaded w' = bundle_loaded w
    ∧ pending_timeouts w' = pending_timeouts w
    ∧ (r = CAPSID_CLOSED ∧ requests w' = ∅ ∧ closed w' = true
       ∨ r ≠ CAPSID_CLOSED ∧ requests w' = requests w ∧ closed w' = closed w)
    ∧ (r = CAPSID_OK → unsent w' = []).
Proof.
  revert w sent. induction answers as [|a answers IH]; intros w sent Hw; pose proof Hw as [Ho Hl];
    cbn [flush_loop]; destruct (write_offset w <? zlen (write_buffer w)) eqn:Hmore; bools; try done.
  - intros [= <- <- <- <-]. exists []. rewrite app_nil_r.
    assert (unsent w = []) as -> by (unfold unsent; by apply zdrop_none).
    split_and!; try done; [|by right]. constructor; [done|]. pose proof (zlen_nonneg (unsent w)).
    change (zlen (unsent (with_write w 0 []))) with 0. cbn [with_write w_limits]. lia.
  - pose proof (zlen_unsent_bytes w Ho) as Hz. destruct a as [n| |[]|].
    + destruct (0 <? n) eqn:Hn; bools.
      * cbn zeta. set (k := Z.min n (zlen (write_buffer w) - write_offset w)). fold (unsent w).
        assert (ztake k (unsent w) ++ unsent (with_write w (write_offset w + k) (write_buffer w)) = unsent w) as Hadv
          by (apply unsent_advance; lia).
        assert (queue_wf (with_write w (write_offset w + k) (write_buffer w))) as Hw'.
        { constructor; [cbn; lia|]. rewrite <- Hadv, zlen_app in Hl. cbn [with_write w_limits].
          pose proof (zlen_nonneg (ztake k (unsent w))). lia. }
        intros Hrun. apply IH in Hrun as (more & -> & Hm & Hq & Hlim & Hb & Hp & Hr & Hok); [|done].
        exists (ztake k (unsent w) ++ more). rewrite <- !app_assoc. split; [done|]. rewrite Hm.
        split_and!; done.
      * intros [= <- <- <- <-]. exists []. rewrite app_nil_r. split_and!; try done. by left.
    + apply IH. done.
    + apply IH. done.
    + intros [= <- <- <- <-]. exists []. rewrite app_nil_r. split_and!; try done. by right.
    + intros [= <- <- <- <-]. exists []. rewrite app_nil_r. split_and!; try done. by left.
  - intros [= <- <- <- <-]. exists []. rewrite app_nil_r.
    assert (unsent w = []) as -> by (unfold unsent; by apply zdrop_none).
    split_and!; try done; [|by right]. constructor; [done|]. pose proof (zlen_nonneg (unsent w)).
    change (zlen (unsent (with_write w 0 []))) with 0. cbn [with_write w_limits]. lia.
Qed.

Lemma flush_refines w answers r written w' rest : client_wf w →
  capsid_worker_flush w answers = Some (r, written, w', rest) → refines w (mkDone r None written w').
Proof.
  intros Hw. unfold capsid_worker_flush. destruct (closed w); [intros [= <- <- <- <-]; by apply refines_same|].
  intros Hrun. apply client_flush_spec in Hrun as (more & -> & Hm & Hq & Hl & Hb & Hp & Hr & _); [|apply Hw].
  cbn [app]. destruct Hr as [(_ & Hr & Hcl)|(_ & Hr & Hcl)].
  - exists [Dropped]. cbn [obs_run obs_step sent_frames got_events omap list_omap d_worker d_written d_event].
    split; [unfold view, with_live; cbn [sealed]; by rewrite Hr, Hb, fmap_empty|].
    rewrite app_nil_r. split; [done|]. split; [done|]. split; [|done].
    constructor; [done|rewrite Hl; apply Hw|by rewrite Hr|rewrite Hr; intros i st; by rewrite lookup_empty|by right].
  - exists []. cbn [obs_run sent_frames got_events omap list_omap d_worker d_written d_event].
    split; [unfold view; by rewrite Hr, Hb|]. rewrite app_nil_r. split; [done|]. split; [done|]. split; [|done].
    constructor; [done|rewrite Hl; apply Hw|rewrite Hr; apply Hw|rewrite Hr; apply Hw|].
    rewrite Hp, Hr, Hcl. apply Hw.
Qed.

(** The parts of a worker the read side leaves alone. *)
Definition same_channel (w w' : capsid_worker) : Prop :=
  write_offset w' = write_offset w ∧ write_buffer w' = write_buffer w ∧ w_limits w' = w_limits w
  ∧ bundle_loaded w' = bundle_loaded w.

(** The request table of a worker that is still well formed. *)
Definition table_wf (w : capsid_worker) : Prop :=
  requests w !! 0 = None ∧ (∀ id st, requests w !! id = Some st → 0 <= rs_credit st <= u64_max)
  ∧ (pending_timeouts w = [] ∨ closed w = true ∧ requests w = ∅).

Lemma same_channel_wf w w' : client_wf w → same_channel w w' → table_wf w' → client_wf w' ∧ unsent w' = unsent w.
Proof.
  intros [[Ho Hl] Hv _ _ _] (So & Sb & Sl & _) (Hz & Hc & Hp). assert (unsent w' = unsent w) as Hu by (unfold unsent; by rewrite So, Sb).
  split; [|done]. constructor; [constructor; rewrite ?Hu, ?So, ?Sb, ?Sl; done|by rewrite Sl|done|done|done].
Qed.

(** A call of the read side, by the observations it makes. *)
Lemma refines_read w r e w' os : client_wf w → same_channel w w' → table_wf w' →
  obs_run (w_max_inflight (w_limits w)) (view w) os = Some (view w') →
  sent_frames os = [] → got_events os = option_list e → refines w (mkDone r e [] w').
Proof.
  intros Hw Hs Ht Hrun Hsent Hgot. destruct (same_channel_wf w w' Hw Hs Ht) as [Hw' Hu].
  exists os. cbn [d_worker d_written d_event]. rewrite Hsent, Hu. cbn [app]. rewrite app_nil_r.
  split_and!; try done. apply Hs.
Qed.

Lemma client_table w : client_wf w → table_wf w.
Proof. intros [_ _ Hz Hc Hp]. done. Qed.

(** The same tables, with the channel as open as before. *)
Definition same_tables (w w' : capsid_worker) : Prop :=
  requests w' = requests w ∧ pending_timeouts w' = pending_timeouts w ∧ (closed w = true → closed w' = true).

Lemma same_tables_wf w w' : client_wf w → same_tables w w' → table_wf w'.
Proof.
  intros Hw (Hr & Hp & Hc). unfold table_wf. rewrite Hr, Hp. split; [apply Hw|]. split; [apply Hw|].
  destruct (cw_pending w Hw) as [?|[? ?]]; [by left|]. right. by split; [apply Hc|].
Qed.

Lemma refines_keep w r w' : client_wf w → same_channel w w' → same_tables w w' →
  refines w (mkDone r None [] w').
Proof.
  intros Hw Hs Ht. eapply (refines_read _ _ _ _ []); try done; [by eapply same_tables_wf|].
  cbn. destruct Hs as (_ & _ & _ & Hb), Ht as (Hr & _). unfold view. by rewrite Hr, Hb.
Qed.

Lemma refines_got w e w' : client_wf w → same_channel w w' → table_wf w' →
  got_step (view w) e = Some (view w') → refines w (mkDone CAPSID_OK (Some e) [] w').
Proof.
  intros Hw Hs Ht Hg. eapply (refines_read _ _ _ _ [Got e]); try done. cbn [obs_run obs_step]. by rewrite Hg.
Qed.

(** An event the contract does not track. *)
Lemma refines_other w e w' : client_wf w → same_channel w w' → same_tables w w' →
  type e = CAPSID_EVENT_READY ∨ type e = CAPSID_EVENT_RESPONSE_HEAD ∨ type e = CAPSID_EVENT_RESPONSE_BODY
  ∨ type e = CAPSID_EVENT_LOG ∨ type e = CAPSID_EVENT_AUDIT ∨ type e = CAPSID_EVENT_MEMORY_METRICS →
  refines w (mkDone CAPSID_OK (Some e) [] w').
Proof.
  intros Hw Hs Ht He. apply refines_got; [done|done|by eapply same_tables_wf|].
  destruct Hs as (_ & _ & _ & Hb), Ht as (Hr & _). unfold got_step, view. rewrite Hr, Hb.
  by destruct He as [->|[->|[->|[->|[->| ->]]]]].
Qed.

(** An event that ends its request. *)
Lemma refines_ended w e : client_wf w →
  type e = CAPSID_EVENT_RESPONSE_END ∨ type e = CAPSID_EVENT_ERROR ∨ type e = CAPSID_EVENT_REQUEST_TIMEOUT →
  refines w (mkDone CAPSID_OK (Some e) [] (with_requests w (delete (request_id e) (requests w)))).
Proof.
  intros Hw Ht. apply refines_got; [done|done| |].
  - split; cbn [with_requests requests]; [apply lookup_delete_None; right; apply Hw|]. split.
    + intros i st. rewrite lookup_delete_Some. intros [_ Hs]. by eapply (cw_credit w Hw).
    + cbn [pending_timeouts closed]. destruct (cw_pending w Hw) as [?|[? ->]]; [by left|]. right. by rewrite delete_empty.
  - unfold got_step, view, with_live. cbn [with_requests requests live sealed bundle_loaded]. rewrite fmap_delete.
    by destruct Ht as [->|[->| ->]].
Qed.

Definition next_refines (w : capsid_worker) (n : NextEvent) : Prop :=
  match n with Next_return r e w' _ => refines w (mkDone r e [] w') | _ => True end.

Lemma delete_zero w : client_wf w → with_requests w (delete 0 (requests w)) = w.
Proof. intros Hw. rewrite delete_id by apply Hw. by destruct w. Qed.

Lemma map_frame_refines w f answers : client_wf w →
  next_refines w (match map_frame_to_event w f with
                  | (inl r, w) => Next_return r None w answers
                  | (inr e, w) => Next_return CAPSID_OK (Some e) w answers
                  end).
Proof.
  intros Hw. unfold map_frame_to_event.
  destruct (ftype f =? kReady). { destruct (_ =? kVersionV4); [destruct (read_ready_tail _)|];
    first [by apply refines_same|apply refines_other; [done|done|done|by left]]. }
  destruct (ftype f =? kWindowUpdate).
  { destruct (read_u32 (fpayload f)) as [[amount [|b rest]]|] eqn:Hr; [|by apply refines_same..].
    apply read_u32_inv in Hr as [_ Ham]. destruct (requests w !! frequest_id f) as [st|] eqn:Hst; [|by apply refines_same].
    destruct (_ <? _) eqn:Hfit; [by apply refines_same|]. bools. pose proof (cw_credit w Hw _ _ Hst). unfold u64_max in *.
    assert (frequest_id f ≠ 0) as Hne by (intros Hz; rewrite Hz, (cw_zero w Hw) in Hst; done).
    rewrite u64_small by lia. apply refines_got; [done|done| |].
    - split; [cbn [with_requests requests]; rewrite lookup_insert_ne by done; apply Hw|].
      split; [apply insert_credit_range; [apply Hw|unfold u64_max; lia]|]. left.
      destruct (cw_pending w Hw) as [?|[_ He]]; [done|]. by rewrite He in Hst.
    - unfold got_step. cbn [type request_id]. rewrite view_lookup, Hst. cbn [fmap option_fmap option_map WorkerExecutor.credit].
      rewrite !(proj2 (Z.leb_le _ _)) by (unfold u64_max; lia). unfold view, with_live. cbn [sealed with_requests requests live].
      by rewrite fmap_insert. }
  destruct (ftype f =? kResponseHead).
  { destruct (read_response_head _ _) as [[[status fixed] rest]|]; [|by apply refines_same].
    case_bool_decide; [|by apply refines_same]. apply refines_other; [done|done|done|by right; left]. }
  destruct (ftype f =? kResponseBody). { apply refines_other; [done|done|done|by right; right; left]. }
  destruct (ftype f =? kResponseEnd). { eapply (refines_ended w (mkCapsidEvent _ _ _ _ _ _)); [done|by left]. }
  destruct (ftype f =? kLog). { apply refines_other; [done|done|done|by do 3 right; left]. }
  destruct (ftype f =? kAudit). { apply refines_other; [done|done|done|by do 4 right; left]. }
  destruct (ftype f =? kMemoryMetricsResponse).
  { destruct (negb _); [by apply refines_same|apply refines_other; [done|done|done|by do 5 right]]. }
  destruct (ftype f =? kError); [|by apply refines_same]. cbn [next_refines].
  match goal with |- refines w (mkDone _ (Some ?e) _ _) => pose proof (refines_ended w e Hw) as Hend end.
  cbn [request_id type] in Hend.
  destruct (frequest_id f =? 0) eqn:Hz; cbn [negb].
  - apply Z.eqb_eq in Hz. rewrite Hz in Hend |- *. rewrite delete_zero in Hend by done.
    apply Hend. destruct (flag_set _ _); [by right; right|by right; left].
  - apply Hend. destruct (flag_set _ _); [by right; right|by right; left].
Qed.

(** A worker that differs in its parser and its canceled ids only. *)
Definition read_step (w w' : capsid_worker) : Prop :=
  same_channel w w' ∧ requests w' = requests w ∧ closed w' = closed w ∧ pending_timeouts w' = pending_timeouts w.

Lemma read_step_wf w w' : read_step w w' → client_wf w → client_wf w'.
Proof.
  intros (Hs & Hr & Hc & Hp) Hw. destruct (same_channel_wf w w' Hw Hs) as [Hw' _]; [|done].
  eapply same_tables_wf; [done|]. split_and!; [done|done|by rewrite Hc].
Qed.

Lemma next_refines_from w w' n : read_step w w' → next_refines w' n → next_refines w n.
Proof.
  intros ((So & Sb & Sl & Sbl) & Hr & _). destruct n as [r e w'' answers| |]; [|done..]. cbn [next_refines].
  intros (os & Hrun & Hu & Hrest). exists os.
  assert (view w' = view w) as Hv by (unfold view; by rewrite Hr, Sbl).
  assert (unsent w' = unsent w) as Hun by (unfold unsent; by rewrite So, Sb).
  rewrite Hv, Sl in Hrun. rewrite Hun in Hu. rewrite Sl in Hrest. done.
Qed.

Lemma closed_refines w timeouts e : client_wf w →
  type e = CAPSID_EVENT_EXIT ∨ type e = CAPSID_EVENT_REQUEST_TIMEOUT →
  refines w (mkDone CAPSID_OK (Some e) [] (with_closed w false timeouts)).
Proof.
  intros Hw Ht. eapply (refines_read _ _ _ _ [Dropped; Got e]); [done|done| | |done|done].
  - split; [done|]. split; [|by right]. intros i st. cbn. by rewrite lookup_empty.
  - cbn [obs_run obs_step]. unfold got_step, with_live, view. cbn [live sealed with_closed requests bundle_loaded].
    rewrite fmap_empty. by destruct Ht as [->| ->]; rewrite ?delete_empty.
Qed.

Lemma read_more_refines w answers : client_wf w →
  match read_more w answers with
  | inl (w', _) => read_step w w'
  | inr n => next_refines w n
  end.
Proof.
  intros Hw. induction answers as [|a answers IH]; cbn [read_more]; [done|]. destruct a as [data| |now|].
  - destruct data as [|b data]; [apply closed_refines; [done|by left]|].
    destruct (Parser_append _ _ _) as [[] p]; [done|]. by apply refines_keep.
  - apply IH.
  - cbn [next_refines]. destruct (List.find _ _) as [id|]; [apply closed_refines; [done|by right]|by apply refines_same].
  - by apply refines_keep.
Qed.

Lemma deliver_refines w f answers : client_wf w →
  match deliver_frame w f answers with
  | inl w' => read_step w w'
  | inr n => next_refines w n
  end.
Proof.
  intros Hw. unfold deliver_frame. destruct (_ && _); [|by apply map_frame_refines].
  destruct (_ || _); done.
Qed.

Lemma loop_refines fuel w answers : client_wf w → next_refines w (next_event_loop fuel w answers).
Proof.
  revert w answers. induction fuel as [|fuel IH]; intros w answers Hw; [done|]. cbn [next_event_loop].
  destruct (closed w) eqn:Hc; [by apply refines_same|]. destruct (Parser_next (parser w)) as [res p].
  assert (read_step w (with_parser w p)) as Hs1 by done. apply (next_refines_from _ _ _ Hs1).
  assert (client_wf (with_parser w p)) as Hw1 by (by eapply read_step_wf).
  assert (∀ w answers f, client_wf w →
    next_refines w (match deliver_frame w f answers with
                    | inl w => next_event_loop fuel w answers | inr done => done end)) as Hdel.
  { intros w2 answers2 f Hw2. pose proof (deliver_refines w2 f answers2 Hw2) as Hd.
    destruct (deliver_frame w2 f answers2) as [w3|]; [|done]. apply (next_refines_from _ _ _ Hd). apply IH.
    by eapply read_step_wf. }
  destruct res as [|f|]; [|by apply Hdel|by apply refines_same].
  pose proof (read_more_refines (with_parser w p) answers Hw1) as Hr.
  destruct (read_more (with_parser w p) answers) as [[w2 answers2]|]; [|done].
  apply (next_refines_from _ _ _ Hr). assert (client_wf w2) as Hw2 by (by eapply read_step_wf).
  destruct (Parser_next (parser w2)) as [res2 p2].
  assert (read_step w2 (with_parser w2 p2)) as Hs3 by done. apply (next_refines_from _ _ _ Hs3).
  assert (client_wf (with_parser w2 p2)) as Hw3 by (by eapply read_step_wf).
  destruct res2 as [|f|]; [by apply refines_same|by apply Hdel|by apply refines_same].
Qed.

Lemma next_event_refines fuel w answers : client_wf w → next_refines w (capsid_worker_next_event fuel w answers).
Proof.
  intros Hw. unfold capsid_worker_next_event. destruct (pending_timeouts w) as [|id rest] eqn:Hp; [by apply loop_refines|].
  destruct (closed w) eqn:Hc; [|by apply loop_refines]. cbn [next_refines].
  destruct (cw_pending w Hw) as [Hnil|[_ Hempty]]; [congruence|].
  apply refines_got; [done|done|split; [|split]; cbn [with_pending_timeouts requests]|].
  - apply Hw.
  - apply Hw.
  - by right.
  - unfold got_step, view, with_live. cbn. by rewrite Hempty, fmap_empty, delete_empty.
Qed.

Lemma call_refines w call d : client_wf w → run_call w call = Some d → refines w d.
Proof.
  intros Hw. destruct call as [b|b n|b n|b|[] now id m u hs|id b|id|id amount|id| | |answers|fuel answers];
    cbn [run_call]; unfold done_of; try (intros [= <-]).
  - apply load_refines; [done|by left].
  - unfold capsid_worker_load_bundle_named. destruct (named_bundle n b); [|by apply refines_same].
    apply load_refines; [done|by right; left].
  - unfold capsid_worker_load_trusted_bytecode_named. case_bool_decide; [by apply refines_same|].
    destruct (named_bundle n b); [|by apply refines_same]. apply load_refines; [done|by right; right].
  - by apply binding_refines.
  - by apply begin_refines.
  - by apply begin_refines.
  - by apply write_refines.
  - by apply end_refines.
  - by apply grant_refines.
  - by apply cancel_refines.
  - by apply refines_frame.
  - by apply refines_frame.
  - destruct (capsid_worker_flush w answers) as [[[[r written] w'] rest]|] eqn:Hf; [|done].
    intros [= <-]. by eapply flush_refines.
  - pose proof (next_event_refines fuel w answers Hw) as Hn. destruct (capsid_worker_next_event fuel w answers); [|done..].
    by intros [= <-].
Qed.

Lemma sent_frames_app a b : sent_frames (a ++ b) = sent_frames a ++ sent_frames b.
Proof. apply omap_app. Qed.

Lemma got_events_app a b : got_events (a ++ b) = got_events a ++ got_events b.
Proof. apply omap_app. Qed.

(** The same for a whole run of calls. *)
Lemma run_refines w calls events written w' : client_wf w → run_calls w calls = Some (events, written, w') →
  ∃ os, obs_run (w_max_inflight (w_limits w)) (view w) os = Some (view w')
        ∧ written ++ unsent w' = unsent w ++ frame_stream (sent_frames os)
        ∧ got_events os = events ∧ client_wf w' ∧ w_limits w' = w_limits w.
Proof.
  revert w events written. induction calls as [|call calls IH]; intros w events written Hw; cbn [run_calls].
  { intros [= <- <- <-]. exists []. cbn. by rewrite app_nil_r. }
  destruct (run_call w call) as [d|] eqn:Hd; [|done]. apply call_refines in Hd as (os & Hrun & Hu & Hg & Hw' & Hl); [|done].
  destruct (run_calls (d_worker d) calls) as [[[es ws] w'']|] eqn:Hrest; [|done]. intros [= <- <- ->].
  apply IH in Hrest as (os' & Hrun' & Hu' & Hg' & Hw'' & Hl'); [|done]. rewrite Hl in *.
  exists (os ++ os'). rewrite obs_run_app, sent_frames_app, got_events_app, frame_stream_app, Hrun, Hrun', Hg, Hg'.
  split; [done|]. split; [|done]. by rewrite <- app_assoc, Hu', !app_assoc, <- Hu.
Qed.

(** ** Theorems *)

(** C7. Whatever calls the Host makes on a worker, and however reads and writes are
    interrupted, split or fail: the frames and events are a run of the
    channel's contract (request heads only for new ids within the inflight
    limit, body bytes only within the credit received and before the end of
    the body, cancels and credit only for live requests, bindings only before
    the bundle), and the bytes the socket took, followed by those still
    queued, are exactly these frames in order. *)
Theorem client_refines_contract w calls events written w' : client_wf w →
  run_calls w calls = Some (events, written, w') →
  ∃ os, obs_run (w_max_inflight (w_limits w)) (view w) os = Some (view w')
        ∧ written ++ unsent w' = unsent w ++ frame_stream (sent_frames os)
        ∧ got_events os = events ∧ zlen (unsent w') <= w_max_queued (w_limits w).
Proof.
  intros Hw Hrun. destruct (run_refines w calls events written w' Hw Hrun) as (os & Hr & Hu & Hg & [[_ Hq] _ _ _ _] & Hl).
  exists os. rewrite Hl in Hq. split_and!; try done. apply Hq.
Qed.

(** A worker as [capsid_worker_spawn] leaves it, its queue aside. *)
Definition fresh_worker (limits : WorkerLimits) : capsid_worker :=
  mkWorker 5 100 limits false false 0 [] 0 (new_Parser (w_version limits)) ∅ ∅ [] [].

Lemma fresh_worker_wf limits : 0 <= w_max_queued limits < 2 ^ 32 → w_version limits = kVersion ∨ w_version limits = kVersionV4 →
  client_wf (fresh_worker limits).
Proof.
  intros Hq Hv. constructor; [constructor; [done|]|done|done| |by left].
  - change (zlen (unsent (fresh_worker limits))) with 0. cbn. lia.
  - intros i st. cbn. by rewrite lookup_empty.
Qed.

Definition sample_limits : WorkerLimits := mkLimits 30000 2 4096 4096 kVersion 0.

(** WINDOW_UPDATE of 5 bytes for request 1. *)
Definition sample_credit : bytes := frame_bytes (mkFrame kWindowUpdate 0 1 kVersion (append_u32 [] 5)).

Definition sample_calls : list ClientCall :=
  [Do_load_bundle (Some (bs "x")); Do_begin false 0 1 (Some (bs "POST")) (Some (bs "/a")) (Some []);
   Do_flush [Write_some 20; Write_eintr; Write_some 500]; Do_next_event 3 [Read_eintr; Read_bytes sample_credit];
   Do_write 1 (Some (bs "abcde")); Do_write 1 (Some (bs "f")); Do_end 1; Do_cancel 1].

Lemma client_refines_contract_witness :
  ∃ es ws w' os, run_calls (fresh_worker sample_limits) sample_calls = Some (es, ws, w')
    ∧ got_events os = es ∧ length es = 1%nat ∧ zlen ws = 63.
Proof.
  destruct (run_calls (fresh_worker sample_limits) sample_calls) as [[[es ws] w']|] eqn:Hrun;
    [|vm_compute in Hrun; discriminate].
  destruct (client_refines_contract (fresh_worker sample_limits) sample_calls es ws w'
    (fresh_worker_wf sample_limits ltac:(cbn; lia) (or_introl eq_refl)) Hrun) as (os & _ & _ & Hg & _).
  exists es, ws, w', os. vm_compute in Hrun. injection Hrun as <- <- <-.
  exact (conj eq_refl (conj Hg (conj eq_refl eq_refl))).
Defined.

(** *** Flow control *)

Definition body_bytes (id : Z) (frames : list Frame) : Z :=
  foldr (λ f total, (if bool_decide (ftype f = kRequestBody ∧ frequest_id f = id) then zlen (fpayload f) else 0) + total)
    0 frames.

Definition credit_received (id : Z) (events : list capsid_event) : Z :=
  foldr (λ e total,
    (if bool_decide (type e = CAPSID_EVENT_REQUEST_CREDIT ∧ request_id e = id) then WorkerExecutor.credit e else 0) + total)
    0 events.

Definition credit_of (c : Contract) (id : Z) : Z := match live c !! id with Some (credit, _) => credit | None => 0 end.

Definition credits_positive (c : Contract) : Prop := ∀ id, 0 <= credit_of c id.

Lemma credit_of_insert c id k b i :
  credit_of (with_live c (<[id := (k, b)]> (live c))) i = if decide (i = id) then k else credit_of c i.
Proof.
  unfold credit_of, with_live. cbn [live]. destruct (decide (i = id)) as [->|Hne];
    [by rewrite lookup_insert_eq|by rewrite lookup_insert_ne].
Qed.

Lemma credit_of_delete c id i :
  credit_of (with_live c (delete id (live c))) i = if decide (i = id) then 0 else credit_of c i.
Proof.
  unfold credit_of, with_live. cbn [live]. destruct (decide (i = id)) as [->|Hne];
    [by rewrite lookup_delete_eq|by rewrite lookup_delete_ne].
Qed.

Lemma sent_step_credit m c f c' i : credits_positive c → sent_step m c f = Some c' →
  0 <= credit_of c' i ∧ credit_of c' i + body_bytes i [f] <= credit_of c i.
Proof.
  intros Hpos. pose proof (Hpos i) as Hi. pose proof (Hpos (frequest_id f)) as Hid. unfold body_bytes. cbn [foldr]. unfold sent_step.
  destruct (ftype f =? kRequestHead) eqn:H1; bools.
  { rewrite (bool_decide_eq_false_2 (ftype f = kRequestBody ∧ _)) by (intros [H _]; rewrite H in H1; discriminate).
    destruct (_ && _); [|done]. intros [= <-]. rewrite credit_of_insert. destruct (decide _); lia. }
  destruct (ftype f =? kRequestBody) eqn:H2; bools.
  { unfold credit_of at 1 in Hid. destruct (live c !! frequest_id f) as [[k []]|] eqn:Hk; [done| |done].
    destruct (_ <=? k) eqn:Hle; [|done]. bools. intros [= <-]. rewrite credit_of_insert. rewrite Z.add_0_r.
    destruct (decide (i = frequest_id f)) as [->|Hne].
    - rewrite (bool_decide_eq_true_2 (ftype f = kRequestBody ∧ _)) by done. unfold credit_of. rewrite Hk. lia.
    - rewrite (bool_decide_eq_false_2 (ftype f = kRequestBody ∧ _)) by (intros [_ ?]; congruence). lia. }
  rewrite (bool_decide_eq_false_2 (ftype f = kRequestBody ∧ _)) by tauto.
  destruct (ftype f =? kRequestEnd).
  { destruct (live c !! frequest_id f) as [[k []]|] eqn:Hk; [done| |done]. intros [= <-]. rewrite credit_of_insert.
    destruct (decide (i = frequest_id f)) as [->|Hne]; [|lia]. unfold credit_of in *. rewrite Hk in *. lia. }
  destruct (ftype f =? kWindowUpdate); [case_bool_decide; [|done]; intros [= <-]; lia|].
  destruct (ftype f =? kCancel).
  { case_bool_decide; [|done]. intros [= <-]. rewrite credit_of_delete. destruct (decide _); lia. }
  destruct (ftype f =? kLoadBinding); [destruct (sealed c); [done|]; intros [= <-]; lia|].
  destruct (ftype f =? kLoadBundle); [intros [= <-]; change (credit_of (mkContract (live c) true) i) with (credit_of c i); lia|].
  destruct (_ || _); [|done]. intros [= <-]. lia.
Qed.

Lemma got_step_credit c e c' i : credits_positive c → got_step c e = Some c' →
  0 <= credit_of c' i ∧ credit_of c' i <= credit_of c i + credit_received i [e].
Proof.
  intros Hpos. pose proof (Hpos i) as Hi. unfold got_step, credit_received. cbn [foldr].
  destruct (type e) eqn:Ht; try (intros [= <-]); try done;
    try (rewrite bool_decide_eq_false_2 by (by intros [? _])); rewrite ?credit_of_delete;
    try (destruct (decide _); lia); try lia.
  - destruct (live c !! request_id e) as [[k b]|] eqn:Hk; [|done]. destruct (_ && _) eqn:Hg; [|done]. bools.
    intros [= <-]. rewrite credit_of_insert. destruct (decide (i = request_id e)) as [->|Hne].
    + rewrite bool_decide_eq_true_2 by done. pose proof (Hpos (request_id e)). unfold credit_of in *. rewrite Hk in *. lia.
    + rewrite bool_decide_eq_false_2 by (intros [_ ?]; congruence). lia.
  - change (credit_of (with_live c ∅) i) with 0. lia.
Qed.

Lemma body_bytes_app id a b : body_bytes id (a ++ b) = body_bytes id a + body_bytes id b.
Proof. induction a as [|f a IH]; [done|]. cbn [app body_bytes foldr] in *. unfold body_bytes in *. cbn. rewrite IH. lia. Qed.

Lemma credit_received_app id a b : credit_received id (a ++ b) = credit_received id a + credit_received id b.
Proof. induction a as [|f a IH]; [done|]. unfold credit_received in *. cbn. rewrite IH. lia. Qed.

Lemma obs_run_credit m c os c' i : credits_positive c → obs_run m c os = Some c' →
  credit_of c' i + body_bytes i (sent_frames os) <= credit_of c i + credit_received i (got_events os)
  ∧ credits_positive c'.
Proof.
  revert c. induction os as [|o os IH]; intros c Hpos; cbn [obs_run]; [intros [= <-]; cbn; split; [lia|done]|].
  destruct (obs_step m c o) as [c1|] eqn:Hstep; [|done]. intros Hrun.
  assert (credits_positive c1 ∧ credit_of c1 i + body_bytes i (sent_frames [o])
          <= credit_of c i + credit_received i (got_events [o])) as [Hpos1 Hle].
  { destruct o as [f|e|]; cbn [obs_step] in Hstep.
    - split; [intros j; by eapply sent_step_credit|].
      destruct (sent_step_credit m c f c1 i Hpos Hstep). cbn [sent_frames got_events omap list_omap]. cbn [credit_received foldr]. lia.
    - split; [intros j; by eapply got_step_credit|].
      destruct (got_step_credit c e c1 i Hpos Hstep). cbn [sent_frames got_events omap list_omap]. cbn [body_bytes foldr]. lia.
    - injection Hstep as <-. split; [done|]. change (credit_of (with_live c ∅) i) with 0. cbn. pose proof (Hpos i). lia. }
  destruct (IH c1 Hpos1 Hrun) as [IH1 IH2]. split; [|done].
  change (o :: os) with ([o] ++ os). rewrite sent_frames_app, got_events_app, body_bytes_app, credit_received_app. lia.
Qed.

(** C13. The Host never sends more body than the worker asked for: over any run of
    calls from a worker without requests, and for every request id, the body
    bytes of the frames put on the stream are at most the credit the worker
    granted in the events read so far. *)
Theorem flow_control_respected w calls events written w' : client_wf w → requests w = ∅ →
  run_calls w calls = Some (events, written, w') →
  ∃ frames, written ++ unsent w' = unsent w ++ frame_stream frames
            ∧ ∀ id, body_bytes id frames <= credit_received id events.
Proof.
  intros Hw Hr Hrun. destruct (run_refines w calls events written w' Hw Hrun) as (os & Ho & Hu & <- & _).
  exists (sent_frames os). split; [done|]. intros id.
  assert (∀ i, credit_of (view w) i = 0) as Hzero.
  { intros i. unfold credit_of, view. cbn [live]. by rewrite Hr, fmap_empty, lookup_empty. }
  destruct (obs_run_credit _ _ os _ id (λ i, ltac:(rewrite Hzero; lia)) Ho) as [Hle Hpos].
  rewrite Hzero in Hle. pose proof (Hpos id). lia.
Qed.

Lemma flow_control_respected_witness :
  ∃ es ws w' frames, run_calls (fresh_worker sample_limits) sample_calls = Some (es, ws, w')
    ∧ ws ++ unsent w' = frame_stream frames ∧ body_bytes 1 frames <= 5.
Proof.
  destruct (run_calls (fresh_worker sample_limits) sample_calls) as [[[es ws] w']|] eqn:Hrun;
    [|vm_compute in Hrun; discriminate].
  destruct (flow_control_respected (fresh_worker sample_limits) sample_calls es ws w'
    (fresh_worker_wf sample_limits ltac:(cbn; lia) (or_introl eq_refl)) eq_refl Hrun) as (frames & Hu & Hle).
  exists es, ws, w', frames. specialize (Hle 1). cbn [app] in Hu.
  replace (credit_received 1 es) with 5 in Hle by (vm_compute in Hrun; injection Hrun as <- _ _; reflexivity).
  exact (conj eq_refl (conj Hu Hle)).
Defined.

(** *** Reading returns *)

Definition answer_bytes (answers : list ReadAnswer) : Z :=
  foldr (λ a total, (match a with Read_bytes data => zlen data | _ => 0 end) + total) 0 answers.

(** The bytes a call can still look at. *)
Definition unread (w : capsid_worker) (answers : list ReadAnswer) : Z := zlen (pending (parser w)) + answer_bytes answers.

Definition parser_ok (p : Parser) : Prop := parser_wf p ∧ supported_version (expected_version_ p).

Lemma answer_bytes_nonneg answers : 0 <= answer_bytes answers.
Proof.
  induction answers as [|[d| | |] answers IH]; [done|..]; cbn [answer_bytes foldr]; fold (answer_bytes answers); try lia.
  pose proof (zlen_nonneg d). lia.
Qed.

Lemma next_shrinks p r p' : parser_ok p → Parser_next p = (r, p') →
  parser_ok p' ∧ match r with
                 | kParseFrame _ => zlen (pending p') + kHeaderSize <= zlen (pending p)
                 | _ => zlen (pending p') <= zlen (pending p)
                 end.
Proof.
  intros [Hwf Hsup] Hn. destruct (has_error p) eqn:He.
  { unfold Parser_next in Hn. rewrite He in Hn. injection Hn as <- <-. done. }
  apply has_error_inv in He. destruct (next_sound p r p' Hwf Hsup He Hn) as (v & Hv & Hwf' & Hout).
  pose proof (version_step_supported _ _ Hsup Hv) as Hsup'. change (pending p) with (pending (with_version p v)).
  destruct r as [|f|]; [subst p'; done| |].
  - destruct Hout as (_ & Hev & _ & _ & ->). rewrite zlen_app, zlen_frame_bytes. pose proof (zlen_nonneg (fpayload f)).
    split; [split; [done|by rewrite Hev]|unfold kHeaderSize; lia].
  - destruct Hout as (_ & Hev & Hb & Ho). split; [split; [done|by rewrite Hev]|]. unfold pending. by rewrite Hb, Ho.
Qed.

Lemma read_more_shrinks w answers w' answers' : parser_ok (parser w) → read_more w answers = inl (w', answers') →
  parser_ok (parser w') ∧ unread w' answers' <= unread w answers.
Proof.
  intros Hp. induction answers as [|a answers IH]; cbn [read_more]; [done|]. destruct a as [data| |now|].
  - destruct data as [|b data]; [done|]. destruct (Parser_append _ _ _) as [[] p] eqn:Ha; [|done]. intros [= <- <-].
    assert (∀ d, Some (b :: data) = Some d → zlen (b :: data) <= zlen d) as Hd by (intros d Hd; injection Hd as <-; lia).
    destruct (append_spec _ _ _ _ _ (proj1 Hp) (zlen_nonneg _) Hd Ha) as (Hwf & Hv & _ & Hpend).
    unfold parser_ok, unread. cbn [with_parser parser answer_bytes foldr]. rewrite Hv. split; [split; [done|apply Hp]|].
    rewrite Hpend. cbn [payload_range]. rewrite ztake_all, zlen_app. fold (answer_bytes answers). lia.
  - intros Hr. destruct (IH Hr) as [Hp' Hle]. split; [done|]. unfold unread in *. cbn [answer_bytes foldr].
    fold (answer_bytes answers). lia.
  - done.
  - done.
Qed.

Lemma loop_returns fuel w answers : parser_ok (parser w) → unread w answers < Z.of_nat fuel →
  next_event_loop fuel w answers ≠ Next_fuel.
Proof.
  revert w answers. induction fuel as [|fuel IH]; intros w answers Hp Hfuel.
  { unfold unread in Hfuel. pose proof (zlen_nonneg (pending (parser w))). pose proof (answer_bytes_nonneg answers). lia. }
  cbn [next_event_loop]. destruct (closed w); [done|].
  assert (∀ w answers f p, parser_ok p → zlen (pending p) + kHeaderSize + answer_bytes answers <= Z.of_nat (S fuel) →
    match deliver_frame (with_parser w p) f answers with
    | inl w => next_event_loop fuel w answers | inr done => done end ≠ Next_fuel) as Hdel.
  { intros w2 answers2 f p Hp2 Hle. unfold deliver_frame. destruct (_ && _).
    - apply IH; destruct (_ || _); try done; unfold unread, kHeaderSize in *; cbn [forget_canceled_request with_canceled
        with_parser parser]; lia.
    - by destruct (map_frame_to_event _ f) as [[] ?]. }
  destruct (Parser_next (parser w)) as [res p] eqn:Hn. destruct (next_shrinks _ _ _ Hp Hn) as [Hp1 Hle1].
  unfold unread in Hfuel. destruct res as [|f|]; [|apply Hdel; [done|lia]|done].
  destruct (read_more (with_parser w p) answers) as [[w2 answers2]|n] eqn:Hr.
  - destruct (read_more_shrinks (with_parser w p) _ _ _ Hp1 Hr) as [Hp2 Hle2]. unfold unread in Hle2.
    cbn [with_parser parser] in Hle2. destruct (Parser_next (parser w2)) as [res2 p2] eqn:Hn2.
    destruct (next_shrinks _ _ _ Hp2 Hn2) as [Hp3 Hle3]. destruct res2 as [|f|]; [done| |done].
    apply Hdel; [done|lia].
  - clear -Hr. revert Hr. generalize (with_parser w p) as w1. clear. intros w1. induction answers as [|a answers IH]; cbn [read_more].
    { by intros [= <-]. }
    destruct a as [[|b data]| |now|]; try (by intros [= <-]); try apply IH.
    + by destruct (Parser_append _ _ _) as [[] ?]; [|intros [= <-]].
    + destruct (List.find _ _); by intros [= <-].
Qed.

(** A call of [capsid_worker_next_event] never runs away: one round more than
    the bytes it can look at is enough for it to return or to wait for the
    kernel, however many frames of canceled requests it skips. *)
Theorem next_event_returns fuel w answers : parser_ok (parser w) → unread w answers < Z.of_nat fuel →
  capsid_worker_next_event fuel w answers ≠ Next_fuel.
Proof.
  intros Hp Hf. unfold capsid_worker_next_event. destruct (pending_timeouts w); [by apply loop_returns|].
  destruct (closed w); [done|by apply loop_returns].
Qed.

Lemma next_event_returns_witness :
  capsid_worker_next_event 29 (fresh_worker sample_limits) [Read_eintr; Read_bytes sample_credit] ≠ Next_fuel.
Proof.
  apply (next_event_returns 29 (fresh_worker sample_limits) [Read_eintr; Read_bytes sample_credit]).
  - split; [apply new_Parser_wf|right; left; reflexivity].
  - vm_compute. reflexivity.
Defined.

(** *** A hard timeout reaches every request *)

(** The calls after a hard timeout: one timeout event per id, then closed. *)
Fixpoint drains (w : capsid_worker) (ids : list Z) : Prop :=
  match ids with
  | [] => ∀ fuel answers, capsid_worker_next_event (S fuel) w answers = Next_return CAPSID_CLOSED None w answers
  | id :: ids =>
      ∃ w', (∀ fuel answers, capsid_worker_next_event fuel w answers
                             = Next_return CAPSID_OK (Some (timeout_event id)) w' answers) ∧ drains w' ids
  end.

Lemma closed_drains w ids : closed w = true → pending_timeouts w = ids → drains w ids.
Proof.
  revert w. induction ids as [|id ids IH]; intros w Hc Hp; cbn [drains].
  - intros fuel answers. unfold capsid_worker_next_event. rewrite Hp. cbn [next_event_loop]. by rewrite Hc.
  - exists (with_pending_timeouts w ids). split; [|by apply IH]. intros fuel answers. unfold capsid_worker_next_event.
    by rewrite Hp, Hc.
Qed.

Lemma request_ids_perm w : request_ids w ≡ₚ elements (dom (requests w)).
Proof. apply merge_sort_Permutation. Qed.

Lemma first_out_perm (ids : list Z) id : NoDup ids → id ∈ ids → id :: filter (λ i, i ≠ id) ids ≡ₚ ids.
Proof.
  intros Hnd Hin. apply NoDup_Permutation; [|done|].
  - constructor; [|by apply NoDup_filter]. intros Hf. apply list_elem_of_filter in Hf as [Hf _]. done.
  - intros i. rewrite elem_of_cons, list_elem_of_filter. destruct (decide (i = id)) as [->|Hne]; [tauto|].
    split; [intros [?|[_ ?]]; done|]. intros Hi. right. done.
Qed.

(** When the read side finds a request past its hard deadline, the worker is
    killed and every live request ends with exactly one timeout event: the
    late one at once, the others by the following calls in ascending order;
    after them the channel is closed. *)
Theorem timeout_reaches_every_request w fuel now answers id :
  closed w = false → pending_timeouts w = [] → Parser_next (parser w) = (kParseNeedMore, parser w) →
  List.find (timed_out w now) (request_ids w) = Some id →
  ∃ w' rest, capsid_worker_next_event (S fuel) w (Read_eagain now :: answers)
             = Next_return CAPSID_OK (Some (timeout_event id)) w' answers
    ∧ drains w' rest ∧ id :: rest ≡ₚ elements (dom (requests w)) ∧ NoDup (id :: rest) ∧ Sorted Z.le rest
    ∧ requests w' = ∅.
Proof.
  intros Hc Hp Hn Hf. exists (with_closed w false (filter (λ i, i ≠ id) (request_ids w))), (filter (λ i, i ≠ id) (request_ids w)).
  assert (with_parser w (parser w) = w) as Hsame by (by destruct w).
  split. { unfold capsid_worker_next_event. rewrite Hp. cbn [next_event_loop]. rewrite Hc, Hn, Hsame. cbn [read_more]. by rewrite Hf. }
  split; [by apply closed_drains|].
  assert (NoDup (request_ids w)) as Hnd by (rewrite request_ids_perm; apply NoDup_elements).
  assert (id ∈ request_ids w) as Hin by (apply find_some in Hf as [Hf _]; by apply list_elem_of_In).
  pose proof (first_out_perm _ _ Hnd Hin) as Hperm. split; [by rewrite Hperm, request_ids_perm|].
  split; [by rewrite Hperm|]. split; [|done].
  apply StronglySorted_Sorted. pose proof (StronglySorted_merge_sort Z.le (elements (dom (requests w)))) as Hs.
  fold (request_ids w) in Hs. clear -Hs. induction Hs as [|x l Hs IH Hall]; [constructor|]. rewrite filter_cons.
  destruct (decide _); [|done]. constructor; [done|]. rewrite Forall_forall in *. intros y Hy.
  apply list_elem_of_filter in Hy as [_ Hy]. by apply Hall.
Qed.

Definition sample_busy : capsid_worker :=
  with_requests (fresh_worker sample_limits)
    (<[7 := mkRequestState 0 true 100]> (<[3 := mkRequestState 0 false 900]> ∅)).

Lemma timeout_reaches_every_request_witness :
  ∃ w' rest, capsid_worker_next_event 1 sample_busy [Read_eagain 100] = Next_return CAPSID_OK (Some (timeout_event 7)) w' []
    ∧ drains w' rest ∧ 7 :: rest ≡ₚ elements (dom (requests sample_busy)).
Proof.
  destruct (timeout_reaches_every_request sample_busy 0 100 [] 7 eq_refl eq_refl) as (w' & rest & Hn & Hd & Hp & _).
  - vm_compute. reflexivity.
  - vm_compute. reflexivity.
  - exists w', rest. exact (conj Hn (conj Hd Hp)).
Defined.

(** *** The canceled ids *)

Record canceled_wf (w : capsid_worker) : Prop := {
  cf_nodup : NoDup (canceled_request_order w);
  cf_same : ∀ i, i ∈ canceled_requests w ↔ i ∈ canceled_request_order w;
  cf_bound : Z.of_nat (size (canceled_requests w)) <= canceled_limit w;
  cf_dead : ∀ i, i ∈ canceled_requests w → requests w !! i = None
}.

Lemma evict_spec limit ids order : 0 <= limit → NoDup order → (∀ i : Z, i ∈ ids ↔ i ∈ order) →
  ∀ ids' order', evict_canceled limit ids order = (ids', order') →
  NoDup order' ∧ (∀ i, i ∈ ids' ↔ i ∈ order') ∧ Z.of_nat (size ids') <= limit ∧ (∀ i, i ∈ ids' → i ∈ ids).
Proof.
  intros Hlim Hnd. revert ids. induction Hnd as [|o order Ho Hnd IH]; intros ids Hsame ids' order'; cbn [evict_canceled].
  - intros [= <- <-]. split_and!; try done; [constructor|].
    assert (ids ≡ ∅) as He by (intros i; rewrite Hsame; split; intros Hi; inversion Hi).
    apply leibniz_equiv in He. rewrite He, size_empty. lia.
  - destruct (_ <? _) eqn:Hbig; bools; [|intros [= <- <-]; split_and!; try done; by constructor].
    intros Hrun. apply IH in Hrun as (H1 & H2 & H3 & H4).
    + split_and!; try done. intros i Hi. apply H4, elem_of_difference in Hi as [Hi _]. done.
    + intros i. rewrite elem_of_difference, Hsame, elem_of_cons, not_elem_of_singleton.
      split; [intros [[?|?] ?]; done|]. intros Hi. split; [by right|]. intros ->. done.
Qed.

Lemma canceled_limit_pos w : 64 <= canceled_limit w.
Proof. unfold canceled_limit. lia. Qed.

(** Calls that leave the canceled ids alone and revive none of them. *)
Lemma canceled_keep w w' : canceled_wf w → canceled_requests w' = canceled_requests w →
  canceled_request_order w' = canceled_request_order w → w_limits w' = w_limits w →
  (∀ i, requests w !! i = None → requests w' !! i = None) → canceled_wf w'.
Proof.
  intros [Hn Hs Hb Hd] Hc Ho Hl Hr. unfold canceled_limit in *. constructor; unfold canceled_limit; rewrite ?Hc, ?Ho, ?Hl; try done.
  intros i Hi. by apply Hr, Hd.
Qed.

Lemma canceled_closed w timeouts : canceled_wf (with_closed w false timeouts).
Proof.
  constructor; cbn; [constructor| | |done].
  - intros i. rewrite elem_of_empty, elem_of_nil. done.
  - rewrite size_empty. pose proof (canceled_limit_pos (with_closed w false timeouts)). lia.
Qed.

Lemma forget_canceled_wf w id rs : canceled_wf w → (∀ i, i ≠ id → requests w !! i = None → rs !! i = None) →
  canceled_wf (with_requests (forget_canceled_request w id) rs).
Proof.
  intros [Hn Hs Hb Hd] Hr. constructor; cbn [forget_canceled_request with_canceled with_requests canceled_requests
    canceled_request_order requests].
  - by apply NoDup_filter.
  - intros i. rewrite elem_of_difference, list_elem_of_filter, Hs, not_elem_of_singleton. tauto.
  - change (canceled_limit (with_requests _ rs)) with (canceled_limit w).
    assert (size (canceled_requests w ∖ {[id]}) ≤ size (canceled_requests w))%nat as Hle
      by (apply subseteq_size; intros i Hi; by apply elem_of_difference in Hi as [Hi _]). lia.
  - intros i Hi. apply elem_of_difference in Hi as [Hi Hne]. rewrite not_elem_of_singleton in Hne. apply Hr; [done|]. by apply Hd.
Qed.

Lemma remember_canceled_wf w id : canceled_wf w →
  canceled_wf (with_requests (remember_canceled_request w id) (delete id (requests (remember_canceled_request w id)))).
Proof.
  intros [Hn Hs Hb Hd]. unfold remember_canceled_request. case_bool_decide as Hin.
  { constructor; try done. intros i Hi. apply lookup_delete_None. right. by apply Hd. }
  destruct (evict_canceled _ _ _) as [ids order] eqn:He. pose proof (canceled_limit_pos w).
  apply evict_spec in He as (H1 & H2 & H3 & H4); [|lia| |].
  - constructor; [done|done|done|]. intros i Hi. apply lookup_delete_None.
    apply H4, elem_of_union in Hi as [Hi|Hi]; [right; by apply Hd|left; by apply elem_of_singleton in Hi].
  - apply NoDup_app. split; [done|]. split; [|apply NoDup_singleton].
    intros i Hi Hx. apply list_elem_of_singleton in Hx as ->. by apply Hin, Hs.
  - intros i. rewrite elem_of_union, elem_of_app, Hs, elem_of_singleton, list_elem_of_singleton. done.
Qed.

Lemma queued_canceled w wire w' rs : canceled_wf w → queues w wire w' → (∀ i, requests w !! i = None → rs !! i = None) →
  canceled_wf (with_requests w' rs).
Proof.
  intros Hc Hq Hr. destruct (queues_fields _ _ _ Hq) as (_ & _ & Hl & Hreq & _ & _ & Hcr & Ho & _). by eapply canceled_keep.
Qed.

Lemma with_requests_same w : with_requests w (requests w) = w.
Proof. by destruct w. Qed.

Lemma queue_frame_canceled w f : client_wf w → canceled_wf w → canceled_wf (queue_frame w f).2.
Proof.
  intros Hw Hc. destruct (queue_frame_cases w f (cw_queue w Hw)) as [(r & _ & ->)|(_ & _ & w' & -> & Hq)]; [done|].
  cbn [snd]. rewrite <- (with_requests_same w'). eapply queued_canceled; [done|done|].
  destruct (queues_fields _ _ _ Hq) as (_ & _ & _ & -> & _). done.
Qed.

Lemma queue_chunked_canceled w t id data ms me ff :
  client_wf w → chunks_encodable (w_version (w_limits w)) t (chunk_flags ms me ff) → canceled_wf w →
  canceled_wf (queue_chunked w t id data ms me ff).2.
Proof.
  intros Hw He Hc. destruct (queue_chunked_cases w t id data ms me ff (cw_queue w Hw) He)
    as [(r & _ & ->)|(_ & body & w' & _ & -> & Hq)]; [done|].
  cbn [snd]. rewrite <- (with_requests_same w'). eapply queued_canceled; [done|done|].
  destruct (queues_fields _ _ _ Hq) as (_ & _ & _ & -> & _). done.
Qed.

Lemma load_canceled w data ff : client_wf w → canceled_wf w →
  ff = 0 ∨ ff = kFlagBundleName ∨ ff = Z.lor kFlagBundleName kFlagTrustedBytecode →
  canceled_wf (and_bundle_loaded (queue_chunked w kLoadBundle 0 data true true ff)).2.
Proof.
  intros Hw Hc Hff. pose proof (queue_chunked_canceled w kLoadBundle 0 data true true ff Hw
    (bundle_chunks_encodable _ _ (cw_version w Hw) Hff) Hc) as Hq.
  destruct (queue_chunked _ _ _ _ _ _ _) as [r w']. cbn [and_bundle_loaded snd] in *. case_bool_decide; [|done].
  by destruct Hq.
Qed.

Lemma binding_canceled w b : client_wf w → canceled_wf w → canceled_wf (capsid_worker_load_binding w b).2.
Proof.
  intros Hw Hc. unfold capsid_worker_load_binding. destruct b as [b|]; [|done]. destruct (bundle_loaded w); [done|].
  destruct (valid_api_binding b) as [[[? ?] ?]|], (api_policy b), (api_profiles b); try done. destruct (negb _); [done|].
  apply queue_chunked_canceled; [done|apply binding_chunks_encodable, Hw|done].
Qed.

Lemma begin_canceled w now id m u hs flags : client_wf w → canceled_wf w →
  canceled_wf (begin_request_impl w now id m u hs flags).2.
Proof.
  intros Hw Hc. unfold begin_request_impl. destruct (id =? 0); [done|].
  destruct (request_head_payload _ _ _ _) as [p|]; [|done]. case_bool_decide; [done|]. destruct (_ <=? _); [done|].
  pose proof (queue_frame_canceled w (mkFrame kRequestHead flags id 0 p) Hw Hc) as Hq.
  destruct (queue_frame _ _) as [r w']. cbn [snd] in Hq. case_bool_decide; [|done]. cbn [snd].
  apply forget_canceled_wf; [done|]. intros i Hne Hi. cbn. by rewrite lookup_insert_ne.
Qed.

Lemma insert_live_none (rs : gmap Z RequestState) id st st' i : rs !! id = Some st → rs !! i = None →
  <[id := st']> rs !! i = None.
Proof. intros Hid Hi. rewrite lookup_insert_ne; [done|congruence]. Qed.

Lemma write_canceled w id data : client_wf w → canceled_wf w → canceled_wf (capsid_worker_write_request w id data).2.
Proof.
  intros Hw Hc. unfold capsid_worker_write_request. destruct data as [body|]; [|done]. destruct (id =? 0); [done|].
  destruct (requests w !! id) as [st|] eqn:Hst; [|done]. destruct (rs_ended st); [done|]. destruct (_ <? _); [done|].
  destruct (queue_chunked_cases w kRequestBody id (Some body) false false 0 (cw_queue w Hw)
    (body_chunks_encodable _ (cw_version w Hw))) as [(r & Hr & ->)|(_ & body' & w' & _ & -> & Hq)].
  { by rewrite bool_decide_eq_false_2. }
  rewrite bool_decide_eq_true_2 by done. cbn [snd]. eapply queued_canceled; [done|done|].
  destruct (queues_fields _ _ _ Hq) as (_ & _ & _ & -> & _). intros i. by eapply insert_live_none.
Qed.

Lemma end_canceled w id : client_wf w → canceled_wf w → canceled_wf (capsid_worker_end_request w id).2.
Proof.
  intros Hw Hc. unfold capsid_worker_end_request. destruct (id =? 0); [done|].
  destruct (requests w !! id) as [st|] eqn:Hst; [|done]. destruct (rs_ended st); [done|].
  destruct (queue_frame_cases w (mkFrame kRequestEnd 0 id 0 []) (cw_queue w Hw)) as [(r & Hr & ->)|(_ & _ & w' & -> & Hq)].
  { by rewrite bool_decide_eq_false_2. }
  rewrite bool_decide_eq_true_2 by done. cbn [snd]. eapply queued_canceled; [done|done|].
  destruct (queues_fields _ _ _ Hq) as (_ & _ & _ & -> & _). intros i. by eapply insert_live_none.
Qed.

Lemma cancel_canceled w id : client_wf w → canceled_wf w → canceled_wf (capsid_worker_cancel w id).2.
Proof.
  intros Hw Hc. unfold capsid_worker_cancel. destruct (id =? 0); [done|]. destruct (requests w !! id); [|done].
  pose proof (queue_frame_canceled w (mkFrame kCancel 0 id 0 []) Hw Hc) as Hq.
  destruct (queue_frame _ _) as [r' w']. cbn [snd] in *. case_bool_decide; [|done]. by apply remember_canceled_wf.
Qed.

Lemma flush_canceled w answers sent r sent' w' rest : canceled_wf w →
  flush_loop w answers sent = Some (r, sent', w', rest) → canceled_wf w'.
Proof.
  revert w sent. induction answers as [|a answers IH]; intros w sent Hc; cbn [flush_loop];
    destruct (_ <? zlen _); try done; try (by intros [= <- <- <- <-]; destruct Hc).
  destruct a as [n| |[]|].
  - destruct (0 <? n); [apply IH; by destruct Hc|intros [= <- <- <- <-]; apply canceled_closed].
  - by apply IH.
  - by apply IH.
  - by intros [= <- <- <- <-].
  - intros [= <- <- <- <-]. apply canceled_closed.
Qed.

Definition next_canceled (n : NextEvent) : Prop :=
  match n with Next_return _ _ w _ => canceled_wf w | _ => True end.

Lemma map_frame_canceled w f : canceled_wf w → canceled_wf (map_frame_to_event w f).2.
Proof.
  intros Hc. unfold map_frame_to_event.
  assert (∀ id, canceled_wf (with_requests w (delete id (requests w)))) as Hdel.
  { intros id. eapply canceled_keep; [done|done|done|done|]. intros i Hi. apply lookup_delete_None. by right. }
  repeat match goal with
  | |- canceled_wf (if ?b then _ else _).2 => destruct b
  | |- canceled_wf (match ?x with _ => _ end).2 => destruct x eqn:?
  | |- canceled_wf (_, _).2 => cbn [snd]
  end; try done; try apply Hdel; try (by destruct Hc).
  - eapply canceled_keep; [done|done|done|done|]. intros i. by eapply insert_live_none.
  - destruct (negb _); [apply Hdel|done].
Qed.

Lemma deliver_canceled w f answers : canceled_wf w →
  match deliver_frame w f answers with inl w' => canceled_wf w' | inr n => next_canceled n end.
Proof.
  intros Hc. unfold deliver_frame. destruct (_ && _).
  - destruct (_ || _); [|done]. rewrite <- (with_requests_same (forget_canceled_request w _)). by apply forget_canceled_wf.
  - pose proof (map_frame_canceled w f Hc) as Hm. by destruct (map_frame_to_event w f) as [[] ?].
Qed.

Lemma read_more_canceled w answers : canceled_wf w →
  match read_more w answers with inl (w', _) => canceled_wf w' | inr n => next_canceled n end.
Proof.
  intros Hc. induction answers as [|a answers IH]; cbn [read_more]; [done|]. destruct a as [[|b data]| |now|].
  - apply canceled_closed.
  - by destruct (Parser_append _ _ _) as [[] p]; destruct Hc.
  - apply IH.
  - destruct (List.find _ _); [apply canceled_closed|done].
  - by destruct Hc.
Qed.

Lemma loop_canceled fuel w answers : canceled_wf w → next_canceled (next_event_loop fuel w answers).
Proof.
  revert w answers. induction fuel as [|fuel IH]; intros w answers Hc; [done|]. cbn [next_event_loop].
  destruct (closed w); [done|]. assert (∀ w p, canceled_wf w → canceled_wf (with_parser w p)) as Hp by (by intros ? ? []).
  assert (∀ w answers f, canceled_wf w →
    next_canceled (match deliver_frame w f answers with
                   | inl w => next_event_loop fuel w answers | inr done => done end)) as Hdel.
  { intros w2 answers2 f Hc2. pose proof (deliver_canceled w2 f answers2 Hc2) as Hd.
    destruct (deliver_frame w2 f answers2); [by apply IH|done]. }
  destruct (Parser_next (parser w)) as [[|f|] p]; [|by apply Hdel, Hp|by apply Hp].
  pose proof (read_more_canceled (with_parser w p) answers (Hp _ _ Hc)) as Hr.
  destruct (read_more (with_parser w p) answers) as [[w2 answers2]|]; [|done].
  destruct (Parser_next (parser w2)) as [[|f|] p2]; [by apply Hp|by apply Hdel, Hp|by apply Hp].
Qed.

Lemma call_canceled w call d : client_wf w → canceled_wf w → run_call w call = Some d → canceled_wf (d_worker d).
Proof.
  intros Hw Hc. destruct call as [b|b n|b n|b|[] now id m u hs|id b|id|id amount|id| | |answers|fuel answers];
    cbn [run_call]; unfold done_of; try (intros [= <-]; cbn [d_worker]).
  - apply load_canceled; [done|done|by left].
  - unfold capsid_worker_load_bundle_named. destruct (named_bundle n b); [|done]. apply load_canceled; [done|done|by right; left].
  - unfold capsid_worker_load_trusted_bytecode_named. case_bool_decide; [done|]. destruct (named_bundle n b); [|done].
    apply load_canceled; [done|done|by right; right].
  - by apply binding_canceled.
  - by apply begin_canceled.
  - by apply begin_canceled.
  - by apply write_canceled.
  - by apply end_canceled.
  - unfold capsid_worker_grant_response_credit. destruct (_ || _); [done|]. case_bool_decide; [done|].
    by apply queue_frame_canceled.
  - by apply cancel_canceled.
  - by apply queue_frame_canceled.
  - by apply queue_frame_canceled.
  - unfold capsid_worker_flush. destruct (closed w); [by intros [= <-]|].
    destruct (flush_loop w answers []) as [[[[r written] w'] rest]|] eqn:Hf; [|done]. intros [= <-]. by eapply flush_canceled.
  - assert (next_canceled (capsid_worker_next_event fuel w answers)) as Hn.
    { unfold capsid_worker_next_event. destruct (pending_timeouts w); [by apply loop_canceled|].
      destruct (closed w); [by destruct Hc|by apply loop_canceled]. }
    destruct (capsid_worker_next_event fuel w answers); [|done..]. by intros [= <-].
Qed.

(** The table of canceled ids over any run of calls: at most twice the inflight
    limit (64 at least), its order list has each id once, and no id in it is a
    live request. *)
Theorem canceled_ids_bounded w calls events written w' : client_wf w → canceled_wf w →
  run_calls w calls = Some (events, written, w') → canceled_wf w'.
Proof.
  revert w events written. induction calls as [|call calls IH]; intros w events written Hw Hc; cbn [run_calls].
  { by intros [= <- <- <-]. }
  destruct (run_call w call) as [d|] eqn:Hd; [|done]. pose proof (call_canceled w call d Hw Hc Hd) as Hc'.
  apply call_refines in Hd as (_ & _ & _ & _ & Hw' & _); [|done].
  destruct (run_calls (d_worker d) calls) as [[[es ws] w'']|] eqn:Hrest; [|done]. intros [= <- <- ->].
  by eapply IH.
Qed.

Lemma fresh_canceled limits : canceled_wf (fresh_worker limits).
Proof.
  constructor; cbn; [constructor| | |done].
  - intros i. rewrite elem_of_empty, elem_of_nil. done.
  - rewrite size_empty. pose proof (canceled_limit_pos (fresh_worker limits)). lia.
Qed.

Lemma canceled_ids_bounded_witness :
  ∃ es ws w', run_calls (fresh_worker sample_limits) sample_calls = Some (es, ws, w') ∧ canceled_wf w'
    ∧ canceled_request_order w' = [1].
Proof.
  destruct (run_calls (fresh_worker sample_limits) sample_calls) as [[[es ws] w']|] eqn:Hrun;
    [|vm_compute in Hrun; discriminate].
  pose proof (canceled_ids_bounded (fresh_worker sample_limits) sample_calls es ws w'
    (fresh_worker_wf sample_limits ltac:(cbn; lia) (or_introl eq_refl)) (fresh_canceled sample_limits) Hrun) as Hc.
  exists es, ws, w'. split; [reflexivity|]. split; [exact Hc|]. vm_compute in Hrun. injection Hrun as _ _ <-. reflexivity.
Defined.

(** *** Where the code falls short *)

(** Requests begun and canceled without reading the events in between. *)
Definition cancel_burst (n : nat) : list ClientCall :=
  concat (map (λ i, [Do_begin false 0 (Z.of_nat i) (Some (bs "GET")) (Some (bs "/")) (Some []); Do_cancel (Z.of_nat i);
                     Do_flush [Write_some 4096]]) (seq 1 n)).

(** The worker answers every new request with credit. Sixty-five canceled
    requests push the first one out of the table, and its late credit is then
    a protocol error that ends the channel, though both sides kept to the
    protocol. *)
Lemma late_credit_after_eviction :
  match run_calls (fresh_worker sample_limits) (cancel_burst 65) with
  | Some (_, _, w) =>
      match capsid_worker_next_event 3 w [Read_bytes sample_credit] with
      | Next_return r _ _ _ => r = CAPSID_PROTOCOL_ERROR
      | _ => False
      end
  | None => False
  end.
Proof. vm_compute. reflexivity. Qed.

(** With 64 of them the same frame is skipped. *)
Lemma late_credit_skipped :
  match run_calls (fresh_worker sample_limits) (cancel_burst 64) with
  | Some (_, _, w) =>
      match capsid_worker_next_event 3 w [Read_bytes sample_credit] with Next_waits _ => True | _ => False end
  | None => False
  end.
Proof. vm_compute. exact I. Qed.

(** The deadline of a request whose timeout is in the range of the clock. *)
Lemma hard_deadline_exact w now : 0 <= w_request_timeout_ms (w_limits w) <= 9223372036000 → 0 <= now < 2 ^ 62 →
  now + (w_request_timeout_ms (w_limits w) + kWorkerTimeoutGraceMs) * 1000000 < 2 ^ 63 →
  hard_deadline w now = now + (w_request_timeout_ms (w_limits w) + kWorkerTimeoutGraceMs) * 1000000.
Proof.
  intros Ht Hn Hfit. unfold hard_deadline, kWorkerTimeoutGraceMs, u64_max in *. rewrite ltb_ge_false by lia.
  rewrite (s64_small (_ + 250)), (s64_small (_ * 1000000)), s64_small by lia. done.
Qed.

(** [capsid_worker_spawn] admits timeouts up to INT64_MAX; the largest wraps to
    a deadline a quarter of a second away, after which the worker is killed. *)
Lemma longest_timeout_is_short now : 0 <= now < 2 ^ 62 →
  hard_deadline (fresh_worker (mkLimits (2 ^ 63 - 1) 1 4096 4096 kVersion 0)) now = now + 249000000.
Proof.
  intros Hn. unfold hard_deadline, kWorkerTimeoutGraceMs. cbn [fresh_worker w_limits w_request_timeout_ms].
  rewrite ltb_ge_false by (unfold u64_max; lia).
  replace (s64 (s64 (2 ^ 63 - 1 + 250) * 1000000)) with 249000000 by (vm_compute; reflexivity).
  apply s64_small. lia.
Qed.

(** One frame queued and one frame taken by the socket, which is then full. *)
Definition busy_round : list ClientCall := [Do_metrics; Do_flush [Write_some 24; Write_eagain false]].

Lemma busy_round_grows w : closed w = false → w_version (w_limits w) = kVersion → w_max_queued (w_limits w) = 4096 →
  0 <= write_offset w → zlen (write_buffer w) = write_offset w + 24 →
  ∃ ws w', run_calls w busy_round = Some ([], ws, w') ∧ w_limits w' = w_limits w ∧ closed w' = false
    ∧ write_offset w' = write_offset w + 24 ∧ zlen (write_buffer w') = write_offset w' + 24.
Proof.
  intros Hc Hv Hq Ho Hz. set (frame := frame_bytes (mkFrame kMemoryMetricsRequest 0 0 kVersion [])).
  assert (queue_frame w (mkFrame kMemoryMetricsRequest 0 0 0 [])
          = (CAPSID_OK, with_write w (write_offset w) (write_buffer w ++ frame))) as Hm.
  { unfold queue_frame. rewrite Hv, encode_versioned_spec, bool_decide_eq_true_2 by (split; [by left|done]).
    unfold queue_wire, queued. rewrite Hc, Hq. change (zlen (frame_bytes _)) with 24.
    rewrite (u64_small (zlen (write_buffer w) - write_offset w)), (u64_small (4096 - 24)), !ltb_ge_false by lia. cbn [orb].
    rewrite (eqb_ne_false (write_offset w) (zlen _)), andb_false_r by lia. done. }
  eexists _, _. cbn [run_calls busy_round run_call]. unfold capsid_worker_request_memory_metrics, done_of.
  rewrite Hm. cbn [d_worker fst snd d_event d_written]. unfold capsid_worker_flush.
  cbn [closed with_write flush_loop write_offset write_buffer]. rewrite Hc, zlen_app. change (zlen frame) with 24.
  rewrite ltb_lt_true by lia. cbn [Z.ltb Z.compare]. rewrite Z.min_l by lia.
  rewrite ltb_lt_true by lia. split; [reflexivity|]. split; [done|]. split; [done|].
  cbn [d_worker with_write write_offset write_buffer]. split; [done|]. rewrite zlen_app. change (zlen frame) with 24. lia.
Qed.

Lemma run_calls_app w a b es ws w1 : run_calls w a = Some (es, ws, w1) →
  run_calls w (a ++ b)
  = match run_calls w1 b with Some (es', ws', w') => Some (es ++ es', ws ++ ws', w') | None => None end.
Proof.
  revert w es ws. induction a as [|c a IH]; intros w es ws; cbn [app run_calls].
  { intros [= <- <- <-]. by destruct (run_calls w b) as [[[? ?] ?]|]. }
  destruct (run_call w c) as [d|]; [|done]. destruct (run_calls (d_worker d) a) as [[[es1 ws1] w2]|] eqn:Ha; [|done].
  intros [= <- <- ->]. rewrite (IH _ _ _ Ha). destruct (run_calls w1 b) as [[[? ?] ?]|]; [|done]. by rewrite !app_assoc.
Qed.

Lemma busy_rounds_grow n w : closed w = false → w_limits w = sample_limits → 0 <= write_offset w →
  zlen (write_buffer w) = write_offset w + 24 →
  ∃ es ws w', run_calls w (concat (replicate n busy_round)) = Some (es, ws, w')
    ∧ write_offset w' = write_offset w + 24 * Z.of_nat n ∧ zlen (write_buffer w') = write_offset w' + 24.
Proof.
  revert w. induction n as [|n IH]; intros w Hc Hl Ho Hz; [exists [], [], w; cbn; split_and!; try done; lia|].
  destruct (busy_round_grows w Hc) as (ws & w1 & Hrun & Hl1 & Hc1 & Ho1 & Hz1); rewrite ?Hl; try done.
  destruct (IH w1) as (es & ws' & w' & Hrun' & Ho' & Hz'); [done|congruence|lia|done|].
  exists es, (ws ++ ws'), w'. split; [|lia]. cbn [replicate concat]. by rewrite (run_calls_app _ _ _ _ _ _ Hrun), Hrun'.
Qed.

(** [max_queued_bytes] bounds the unsent bytes, not the buffer: while the
    socket never drains completely the sent prefix is kept, and the buffer
    grows without bound. *)
Lemma write_buffer_unbounded (n : nat) : ∃ calls es ws w', run_calls (fresh_worker sample_limits) calls = Some (es, ws, w')
  ∧ zlen (unsent w') = 24 ∧ zlen (write_buffer w') = 24 * Z.of_nat (S n).
Proof.
  set (w1 := with_write (fresh_worker sample_limits) 0 (frame_bytes (mkFrame kMemoryMetricsRequest 0 0 kVersion []))).
  assert (run_calls (fresh_worker sample_limits) [Do_metrics] = Some ([], [], w1)) as H1 by (vm_compute; reflexivity).
  destruct (busy_rounds_grow n w1) as (es & ws & w' & Hrun & Ho & Hz); [done|done|done|done|].
  exists ([Do_metrics] ++ concat (replicate n busy_round)), es, ws, w'. rewrite (run_calls_app _ _ _ _ _ _ H1), Hrun.
  split; [done|]. change (write_offset w1) with 0 in Ho. rewrite zlen_unsent_bytes by lia. lia.
Qed.
