(* ===== verification/HostSpawn.v ===== *)
(** * HostSpawn: starting a worker (src/client.cc)

    [capsid_worker_spawn] on Linux: the validation of the configuration, the
    HELLO message, the process and descriptors it creates and what it releases
    when it fails, the cgroup it attaches the child to, and
    [capsid_worker_destroy]. The kernel's answers are a record of the call.
    The last part composes the Host's side with the worker's startup
    ([IpcValidation]): what the Host sends is what the worker starts with.
    Failed allocations are left out. *)
From Stdlib Require Import ZArith Lia.
From S2P Require Import Prelude Wire Protocol Jansson ReadyProof WorkerExecutor WorkerRecovery EgressPolicy.
From S2P Require Import CapabilityPolicy BindingPolicy AuditRecords IpcValidation HostClient.
Local Open Scope Z_scope.

(** ** Configuration *)

Record capsid_resource_limits := mkResourceLimits {
  rl_struct_size : Z;
  enabled_fields : Z;                     (* uint32_t *)
  file_descriptors : Z;                   (* uint32_t *)
  cgroup_cpu_weight : Z;                  (* uint32_t *)
  cgroup_cpu_quota_us : Z;                (* uint64_t *)
  cgroup_cpu_period_us : Z;               (* uint64_t *)
  cgroup_memory_high_bytes : Z;           (* uint64_t *)
  cgroup_memory_max_bytes : Z;            (* uint64_t *)
  cgroup_memory_swap_max_bytes : Z;       (* uint64_t *)
  cgroup_pids_max : Z;                    (* uint32_t *)
  rl_reserved : Z                         (* uint32_t *)
}.

Definition sizeof_resource_limits : Z := 64.
Definition RESOURCE_LIMIT_FILE_DESCRIPTORS : Z := 1.
Definition RESOURCE_LIMIT_CGROUP_CPU_MAX : Z := 2.
Definition RESOURCE_LIMIT_CGROUP_CPU_WEIGHT : Z := 4.
Definition RESOURCE_LIMIT_CGROUP_MEMORY_HIGH : Z := 8.
Definition RESOURCE_LIMIT_CGROUP_MEMORY_MAX : Z := 16.
Definition RESOURCE_LIMIT_CGROUP_MEMORY_SWAP_MAX : Z := 32.
Definition RESOURCE_LIMIT_CGROUP_PIDS_MAX : Z := 64.
Definition RESOURCE_LIMIT_ALL : Z := 127.
Definition RESOURCE_UNLIMITED : Z := u64_max.
Definition RESOURCE_PIDS_UNLIMITED : Z := u32_max.
Definition kCgroupResourceLimitFields : Z := 126.

Definition capsid_resource_limits_init : capsid_resource_limits :=
  mkResourceLimits sizeof_resource_limits 0 0 0 0 0 0 0 0 0 0.

Record capsid_worker_config := mkConfig {
  c_struct_size : Z;
  c_abi_version : Z;
  c_js_heap_limit : Z;                    (* uint64_t *)
  c_process_memory_limit : Z;             (* uint64_t *)
  c_request_timeout_ms : Z;               (* uint64_t *)
  c_js_stack_size : Z;                    (* uint32_t *)
  c_max_inflight : Z;                     (* uint32_t *)
  c_max_header : Z;                       (* uint32_t *)
  c_max_queued : Z;                       (* uint32_t *)
  c_initial_window : Z;                   (* uint32_t *)
  c_strict : Z;                           (* uint8_t *)
  c_ca_path : option bytes;
  c_max_fetch_request : Z;                (* uint64_t *)
  c_max_fetch_response : Z;               (* uint64_t *)
  c_required_features : Z;                (* uint32_t *)
  c_sandbox_reserved : Z;                 (* uint32_t *)
  c_cgroup_path : option bytes;
  c_resource_limits : option capsid_resource_limits;
  c_egress : option capsid_egress_policy;
  c_capability : option capsid_capability_policy;
  c_namespace_fd : Z;                     (* int32_t *)
  c_egress_reserved : Z;                  (* uint32_t *)
  c_protocol_version : Z;                 (* uint16_t *)
  c_protocol_reserved : Z;                (* uint16_t *)
  c_protocol_capabilities : Z             (* uint32_t *)
}.

(** On LP64. *)
Definition sizeof_worker_config : Z := 152.
Definition offset_after_protocol_reserved : Z := 148.
Definition offset_after_protocol_capabilities : Z := 152.

Definition capsid_worker_config_init : capsid_worker_config :=
  mkConfig sizeof_worker_config CAPSID_ABI_VERSION (64 * 1024 * 1024) (256 * 1024 * 1024) 30000 (1024 * 1024) 128
    (64 * 1024) (4 * 1024 * 1024) (256 * 1024) 0 None 0 0 0 0 None None None None (-1) 0 kVersion 0 0.

Definition default_of (value fallback : Z) : Z := if value =? 0 then fallback else value.

Definition config_protocol_version (c : capsid_worker_config) : Z :=
  if offset_after_protocol_reserved <=? c_struct_size c
  then (if c_protocol_version c =? 0 then kVersion else c_protocol_version c) else kVersion.

Definition config_protocol_capabilities (c : capsid_worker_config) : Z :=
  if offset_after_protocol_capabilities <=? c_struct_size c then c_protocol_capabilities c else 0.

(** ** Sizes *)

Definition checked_add (a b : Z) : option Z := if u64_max - b <? a then None else Some (a + b).

(** [total] and one entry of [base] bytes and a text after each other. *)
Definition add_entry (base : Z) (total : option Z) (size : Z) : option Z :=
  match total with
  | None => None
  | Some total =>
      match checked_add base size with
      | None => None
      | Some entry => checked_add total entry
      end
  end.

Definition policy_entries (p : capsid_egress_policy) : list capsid_egress_rule :=
  ztake (rule_count p) (default [] (policy_rules p)).

Definition capability_modules (c : capsid_capability_policy) : list (option bytes) :=
  ztake (cap_module_count c) (default [] (cap_modules c)).

Definition capability_rules (c : capsid_capability_policy) : list capsid_permission_rule :=
  ztake (cap_rule_count c) (default [] (cap_rules c)).

Definition rule_sizes (p : capsid_egress_policy) : list Z := map (λ r, zlen (c_text (target r))) (policy_entries p).

Definition egress_payload_size (policy : option capsid_egress_policy) : option Z :=
  match policy with
  | None => Some 0
  | Some p => fold_left (add_entry 14) (rule_sizes p) (Some 0)
  end.

Definition capability_payload_size (policy : option capsid_capability_policy) (environment : list (bytes * bytes))
    : option Z :=
  let total :=
    match policy with
    | None => Some 0
    | Some c =>
        let total := checked_add 0 (zlen (c_text (cap_identity c))) in
        let total := fold_left (add_entry 2) (map (λ m, zlen (c_text m)) (capability_modules c)) total in
        let total := fold_left (add_entry 14) (map (λ r, zlen (c_text (prule_resource r))) (capability_rules c)) total in
        match cap_net_policy c with
        | None => total
        | Some net => fold_left (add_entry 14) (rule_sizes net) total
        end
    end in
  let total := match total with None => None | Some total => checked_add total 2 end in
  fold_left (λ total e,
    match checked_add 4 (zlen e.1) with
    | None => None
    | Some entry => add_entry entry total (zlen e.2)
    end) environment total.

(** ** Validation *)

(** What the child is started and configured with. *)
Record SpawnPlan := mkPlan {
  plan_config : capsid_worker_config;     (* defaults and features filled in *)
  plan_egress : EgressPolicy;
  plan_capability : CapabilityPolicy;
  plan_limits : capsid_resource_limits;
  plan_descriptors : Z;
  plan_cgroup : bool
}.

Definition with_defaults (c : capsid_worker_config) : capsid_worker_config :=
  mkConfig (c_struct_size c) (c_abi_version c) (default_of (c_js_heap_limit c) (64 * 1024 * 1024))
    (c_process_memory_limit c) (default_of (c_request_timeout_ms c) 30000) (default_of (c_js_stack_size c) (1024 * 1024))
    (default_of (c_max_inflight c) 128) (default_of (c_max_header c) (64 * 1024))
    (default_of (c_max_queued c) (4 * 1024 * 1024)) (default_of (c_initial_window c) (256 * 1024)) (c_strict c) (c_ca_path c)
    (c_max_fetch_request c) (c_max_fetch_response c) (c_required_features c) (c_sandbox_reserved c) (c_cgroup_path c)
    (c_resource_limits c) (c_egress c) (c_capability c) (c_namespace_fd c) (c_egress_reserved c) (c_protocol_version c)
    (c_protocol_reserved c) (c_protocol_capabilities c).

Definition with_features (c : capsid_worker_config) (features : Z) : capsid_worker_config :=
  mkConfig (c_struct_size c) (c_abi_version c) (c_js_heap_limit c) (c_process_memory_limit c) (c_request_timeout_ms c)
    (c_js_stack_size c) (c_max_inflight c) (c_max_header c) (c_max_queued c) (c_initial_window c) (c_strict c) (c_ca_path c)
    (c_max_fetch_request c) (c_max_fetch_response c) features (c_sandbox_reserved c) (c_cgroup_path c)
    (c_resource_limits c) (c_egress c) (c_capability c) (c_namespace_fd c) (c_egress_reserved c) (c_protocol_version c)
    (c_protocol_reserved c) (c_protocol_capabilities c).

Definition limits_invalid (rl : capsid_resource_limits) (descriptors : Z) : bool :=
  negb (rl_reserved rl =? 0) || negb (flags_within (enabled_fields rl) RESOURCE_LIMIT_ALL)
  || (flag_set (enabled_fields rl) RESOURCE_LIMIT_FILE_DESCRIPTORS && (descriptors <? 4))
  || (flag_set (enabled_fields rl) RESOURCE_LIMIT_CGROUP_CPU_WEIGHT
      && ((cgroup_cpu_weight rl <? 1) || (10000 <? cgroup_cpu_weight rl)))
  || (flag_set (enabled_fields rl) RESOURCE_LIMIT_CGROUP_CPU_MAX
      && ((cgroup_cpu_period_us rl <? 1000) || (1000000 <? cgroup_cpu_period_us rl) || (cgroup_cpu_quota_us rl =? 0)
          || (negb (cgroup_cpu_quota_us rl =? RESOURCE_UNLIMITED) && (cgroup_cpu_quota_us rl <? 1000)))).

(** [c] has its defaults; the sizes are those of the egress rules and of the
    capability policy. *)
Definition config_invalid (c : capsid_worker_config) (egress_size capability_size : Z) : bool :=
  let max_safe_js_integer := 9007199254740991 in
  let ca_size := zlen (c_text (c_ca_path c)) in
  let cgroup_path := c_text (c_cgroup_path c) in
  let payload := kHelloFixedPayloadSize + ca_size + egress_size + capability_size in
  (2 ^ 31 - 1 <? c_js_heap_limit c)
  || (negb (c_process_memory_limit c =? 0) && (c_process_memory_limit c <? c_js_heap_limit c))
  || (2 ^ 63 - 1 <? c_request_timeout_ms c) || (c_max_header c <? 8) || (kMaxPayloadSize <? c_max_header c)
  || (c_max_queued c <? kHeaderSize + kHelloFixedPayloadSize) || (kMaxBufferedBytes <? c_max_queued c)
  || (4096 <? ca_size) || (kMaxPayloadSize <? u64 payload) || (c_max_queued c <? u64 (kHeaderSize + payload))
  || (max_safe_js_integer <? c_max_fetch_request c) || (max_safe_js_integer <? c_max_fetch_response c)
  || (1 <? c_strict c) || negb (c_sandbox_reserved c =? 0) || negb (c_egress_reserved c =? 0) || (c_namespace_fd c <? -1)
  || negb (flags_within (c_required_features c) SANDBOX_FEATURE_ALL)
  || ((c_strict c =? 0) && negb (c_required_features c =? 0)) || (4096 <? zlen cgroup_path)
  || (negb (bool_decide (cgroup_path = [])) && negb (byte_at cgroup_path 0 =? 47)).

Definition SANDBOX_FEATURE_NETWORK_NAMESPACE : Z := 512.

(** The required features after the namespace, strict mode and the cgroup;
    [is_net] is whether the descriptor is a network namespace. *)
Definition required_features (c : capsid_worker_config) (is_net : bool) (rl : capsid_resource_limits) : option Z :=
  let strict := negb (c_strict c =? 0) in
  let has_cgroup := negb (bool_decide (c_text (c_cgroup_path c) = [])) in
  let features := c_required_features c in
  let features :=
    if 0 <=? c_namespace_fd c then
      if negb strict || negb is_net then None else Some (Z.lor features SANDBOX_FEATURE_NETWORK_NAMESPACE)
    else if flag_set features SANDBOX_FEATURE_NETWORK_NAMESPACE then None else Some features in
  match features with
  | None => None
  | Some features =>
      let features := if strict then Z.lor features SANDBOX_FEATURE_STRICT_BASE else features in
      if has_cgroup && negb strict then None
      else
        let features := if has_cgroup then Z.lor features SANDBOX_FEATURE_CGROUP_V2 else features in
        if (flag_set features SANDBOX_FEATURE_CGROUP_V2 && negb has_cgroup)
           || (flag_set (enabled_fields rl) kCgroupResourceLimitFields && (negb strict || negb has_cgroup))
        then None else Some features
  end.

(** ** The cgroup *)

(** The files of one cgroup directory: what reading a file gives ([None] when
    it cannot be opened or read) and the answer to a write. *)
Class CgroupKernel (K : Type) := {
  is_cgroup2 : K -> bytes -> bool;        (* open and fstatfs of the path *)
  file_text : K -> bytes -> option bytes;
  file_write : K -> bytes -> bytes -> bool * K
}.

Section cgroup.
Context `{CgroupKernel K}.

Definition is_blank (x : byte) : bool :=
  (u8 x =? 32) || (u8 x =? 9) || (u8 x =? 13) || (u8 x =? 10).

Fixpoint trim_front (text : bytes) : bytes :=
  match text with
  | x :: rest => if is_blank x then trim_front rest else text
  | [] => []
  end.

Definition trim (text : bytes) : bytes := rev (trim_front (rev (trim_front text))).

Definition cgroup_read_at (k : K) (name : bytes) : option bytes :=
  match file_text k name with
  | None => None
  | Some text => if 256 <=? zlen text then None else Some (trim text)
  end.

Definition cgroup_write_at (k : K) (name value : bytes) : bool * K := file_write k name value.

Definition cgroup_limit_value (value : Z) : bytes :=
  if value =? RESOURCE_UNLIMITED then bs "max" else decimal value.

(** The lines of [text]; one empty line when there is none. *)
Fixpoint split_lines (text : bytes) : list bytes :=
  match text with
  | [] => [[]]
  | x :: rest =>
      if u8 x =? 10 then [] :: split_lines rest
      else match split_lines rest with
           | line :: lines => (x :: line) :: lines
           | [] => [[x]]
           end
  end.

Definition cgroup_pid_list_contains (members pid : bytes) : bool :=
  bool_decide (pid ∈ split_lines members).

Record CgroupSetting := mkSetting {
  setting_name : bytes;
  desired : bytes;
  original : bytes
}.

(** The settings applied so far, the last first, get their original values. *)
Fixpoint rollback_cgroup_settings (k : K) (applied : list CgroupSetting) : K :=
  match applied with
  | [] => k
  | s :: applied => rollback_cgroup_settings (cgroup_write_at k (setting_name s) (original s)).2 applied
  end.

Definition cgroup_settings (rl : capsid_resource_limits) : list (bytes * bytes) :=
  let has flag := flag_set (enabled_fields rl) flag in
  (if has RESOURCE_LIMIT_CGROUP_CPU_MAX
   then [(bs "cpu.max", cgroup_limit_value (cgroup_cpu_quota_us rl) ++ bs " " ++ decimal (cgroup_cpu_period_us rl))] else [])
  ++ (if has RESOURCE_LIMIT_CGROUP_CPU_WEIGHT then [(bs "cpu.weight", decimal (cgroup_cpu_weight rl))] else [])
  ++ (if has RESOURCE_LIMIT_CGROUP_MEMORY_HIGH
      then [(bs "memory.high", cgroup_limit_value (cgroup_memory_high_bytes rl))] else [])
  ++ (if has RESOURCE_LIMIT_CGROUP_MEMORY_MAX
      then [(bs "memory.max", cgroup_limit_value (cgroup_memory_max_bytes rl))] else [])
  ++ (if has RESOURCE_LIMIT_CGROUP_MEMORY_SWAP_MAX
      then [(bs "memory.swap.max", cgroup_limit_value (cgroup_memory_swap_max_bytes rl))] else [])
  ++ (if has RESOURCE_LIMIT_CGROUP_PIDS_MAX
      then [(bs "pids.max", if cgroup_pids_max rl =? RESOURCE_PIDS_UNLIMITED then bs "max" else decimal (cgroup_pids_max rl))]
      else []).

(** The original value of every setting, or none when one cannot be read. *)
Fixpoint read_originals (k : K) (settings : list (bytes * bytes)) : option (list CgroupSetting) :=
  match settings with
  | [] => Some []
  | (name, value) :: settings =>
      match cgroup_read_at k name with
      | None => None
      | Some old =>
          match read_originals k settings with
          | None => None
          | Some rest => Some (mkSetting name value old :: rest)
          end
      end
  end.

(** Writes and reads back each setting; [applied] holds those already marked,
    the last first. *)
Fixpoint apply_settings (k : K) (applied settings : list CgroupSetting) : bool * list CgroupSetting * K :=
  match settings with
  | [] => (true, applied, k)
  | s :: settings =>
      let applied := s :: applied in
      match cgroup_write_at k (setting_name s) (desired s) with
      | (false, k) => (false, applied, k)
      | (true, k) =>
          match cgroup_read_at k (setting_name s) with
          | Some actual =>
              if bool_decide (actual = desired s) then apply_settings k applied settings else (false, applied, k)
          | None => (false, applied, k)
          end
      end
  end.

Definition configure_and_attach_cgroup_v2 (k : K) (pid : Z) (path : bytes) (rl : capsid_resource_limits) : bool * K :=
  if negb (is_cgroup2 k path) then (false, k)
  else match read_originals k (cgroup_settings rl) with
  | None => (false, k)
  | Some settings =>
      match apply_settings k [] settings with
      | (false, applied, k) => (false, rollback_cgroup_settings k applied)
      | (true, applied, k) =>
          match cgroup_write_at k (bs "cgroup.procs") (decimal pid) with
          | (false, k) => (false, rollback_cgroup_settings k applied)
          | (true, k) =>
              match cgroup_read_at k (bs "cgroup.procs") with
              | Some members =>
                  if cgroup_pid_list_contains members (decimal pid) then (true, k)
                  else (false, rollback_cgroup_settings k applied)
              | None => (false, rollback_cgroup_settings k applied)
              end
          end
      end
  end.
End cgroup.

Section spawn.
Context `{InetPton} `{CgroupKernel K}.

(** [None] is CAPSID_INVALID_ARGUMENT. *)
Definition spawn_plan (input : capsid_worker_config) (is_net : bool) : option SpawnPlan :=
  if (c_struct_size input <? sizeof_worker_config) || negb (c_abi_version input =? CAPSID_ABI_VERSION) then None
  else match configure (c_egress input), configure_capability (c_capability input) with
  | inr egress, inr capability =>
      match egress_payload_size (c_egress input),
            capability_payload_size (c_capability input) (env_entries capability) with
      | Some egress_size, Some capability_size =>
          let rl := default capsid_resource_limits_init (c_resource_limits input) in
          if negb (rl_struct_size rl =? sizeof_resource_limits) then None
          else
            let descriptors :=
              if flag_set (enabled_fields rl) RESOURCE_LIMIT_FILE_DESCRIPTORS then file_descriptors rl else 64 in
            let config := with_defaults input in
            if config_invalid config egress_size capability_size || limits_invalid rl descriptors then None
            else match required_features config is_net rl with
            | None => None
            | Some features =>
                Some (mkPlan (with_features config features) egress capability rl descriptors
                        (negb (bool_decide (c_text (c_cgroup_path config) = []))))
            end
      | _, _ => None
      end
  | _, _ => None
  end.

(** ** HELLO *)

Fixpoint append_egress_rules (output : bytes) (rules : list capsid_egress_rule) : option bytes :=
  match rules with
  | [] => Some output
  | r :: rules =>
      let output := append_u32 output (rule_action_value r) in
      let output := append_u16 output (source_port_start r) in
      let output := append_u16 output (source_port_end r) in
      let output := append_u32 output (source_rule_id r) in
      match append_string16 output (c_text (target r)) with
      | None => None
      | Some output => append_egress_rules output rules
      end
  end.

(** The default action, the count and the rules of a policy, if there is one. *)
Definition append_egress (output : bytes) (policy : option capsid_egress_policy) : option bytes :=
  match policy with
  | None => Some (append_u32 (append_u32 output 0) 0)
  | Some p => append_egress_rules (append_u32 (append_u32 output (default_action_value p)) (rule_count p)) (policy_entries p)
  end.

Fixpoint append_modules (output : bytes) (modules : list (option bytes)) : option bytes :=
  match modules with
  | [] => Some output
  | m :: modules =>
      match append_string16 output (c_text m) with
      | None => None
      | Some output => append_modules output modules
      end
  end.

Fixpoint append_permission_rules (output : bytes) (rules : list capsid_permission_rule) : option bytes :=
  match rules with
  | [] => Some output
  | r :: rules =>
      let output := append_u32 output (prule_action r) in
      let output := append_u32 output (prule_permission r) in
      let output := append_u32 output (prule_id r) in
      match append_string16 output (c_text (prule_resource r)) with
      | None => None
      | Some output => append_permission_rules output rules
      end
  end.

Fixpoint append_environment (output : bytes) (environment : list (bytes * bytes)) : option bytes :=
  match environment with
  | [] => Some output
  | (name, value) :: environment =>
      match append_string16 output name with
      | None => None
      | Some output =>
          match append_string16 output value with
          | None => None
          | Some output => append_environment output environment
          end
      end
  end.

Definition append_capability (output : bytes) (capability : option capsid_capability_policy)
    (environment : list (bytes * bytes)) : option bytes :=
  let modules := match capability with Some c => capability_modules c | None => [] end in
  let rules := match capability with Some c => capability_rules c | None => [] end in
  let output := append_u32 output (match capability with Some c => cap_version c | None => 0 end) in
  match append_string16 output (match capability with Some c => c_text (cap_identity c) | None => [] end) with
  | None => None
  | Some output =>
      let output := append_u16 output (u16 (match capability with Some c => cap_module_count c | None => 0 end)) in
      match append_modules output modules with
      | None => None
      | Some output =>
          let output := append_u16 output (u16 (match capability with Some c => cap_rule_count c | None => 0 end)) in
          match append_permission_rules output rules with
          | None => None
          | Some output =>
              match append_egress output (match capability with Some c => cap_net_policy c | None => None end) with
              | None => None
              | Some output => append_environment (append_u16 output (u16 (zlen environment))) environment
              end
          end
      end
  end.

Definition hello_fixed (c : capsid_worker_config) (descriptors preinstalled : Z) : bytes :=
  let p := append_u32 [] CAPSID_ABI_VERSION in
  let p := append_u64 p (c_js_heap_limit c) in
  let p := append_u64 p (c_process_memory_limit c) in
  let p := append_u32 p descriptors in
  let p := append_u64 p (c_request_timeout_ms c) in
  let p := append_u32 p (c_js_stack_size c) in
  let p := append_u32 p (c_max_inflight c) in
  let p := append_u32 p (c_initial_window c) in
  let p := append_u32 p (c_max_header c) in
  let p := append_u32 p (c_max_queued c) in
  let p := p ++ [to_u8 (c_strict c)] in
  let p := append_u32 p (c_required_features c) in
  append_u32 p preinstalled.

Definition hello_payload (w : capsid_worker) (c : capsid_worker_config) (capability : CapabilityPolicy)
    (descriptors preinstalled : Z) : option bytes :=
  match append_string16 (hello_fixed c descriptors preinstalled) (c_text (c_ca_path c)) with
  | None => None
  | Some p =>
      let p := append_u64 p (c_max_fetch_request c) in
      let p := append_u64 p (c_max_fetch_response c) in
      match append_egress p (c_egress c) with
      | None => None
      | Some p =>
          let p := p ++ [to_u8 (match c_egress c with Some _ => 1 | None => 0 end)] in
          match append_capability p (c_capability c) (env_entries capability) with
          | None => None
          | Some p =>
              Some (if w_version (w_limits w) =? kVersionV4
                    then append_u32 (append_u32 p (w_capabilities (w_limits w))) 0 else p)
          end
      end
  end.

Definition send_hello (w : capsid_worker) (c : capsid_worker_config) (capability : CapabilityPolicy)
    (descriptors preinstalled : Z) : capsid_result * capsid_worker :=
  match hello_payload w c capability descriptors preinstalled with
  | None => (CAPSID_INVALID_ARGUMENT, w)
  | Some payload => queue_frame w (mkFrame kHello 0 0 0 payload)
  end.

(** ** The process *)

(** The descriptors and unreaped children of the Host process. *)
Record Resources := mkResources {
  open_fds : gset Z;
  children : gset Z
}.

Definition open_fd (r : Resources) (fd : Z) : Resources := mkResources (open_fds r ∪ {[ fd ]}) (children r).
Definition close_fd (r : Resources) (fd : Z) : Resources := mkResources (open_fds r ∖ {[ fd ]}) (children r).
Definition fork_child (r : Resources) (pid : Z) : Resources := mkResources (open_fds r) (children r ∪ {[ pid ]}).
Definition reap (r : Resources) (pid : Z) : Resources := mkResources (open_fds r) (children r ∖ {[ pid ]}).

(** The kernel's answers to one spawn. *)
Record SpawnOs := mkSpawnOs {
  os_is_net : bool;                       (* NS_GET_NSTYPE says CLONE_NEWNET *)
  os_sockets : option (Z * Z);            (* the Host's and the child's end *)
  os_nonblocking : bool;
  os_actions : bool;
  os_dup : option Z;                      (* F_DUPFD_CLOEXEC of the namespace *)
  os_child : option Z;                    (* posix_spawn *)
  os_exits : bool                         (* the waits of the call see the killed child's exit *)
}.

Definition capsid_worker_destroy (w : capsid_worker) (exits : bool) (r : Resources) : Resources :=
  let r := if 0 <=? w_fd w then close_fd r (w_fd w) else r in
  if (0 <? w_pid w) && exits then reap r (w_pid w) else r.

(** The worker [new] returns: every field zero, [pid] included. *)
Definition blank_worker (fd : Z) (limits : WorkerLimits) : capsid_worker :=
  mkWorker fd 0 limits false false 0 [] 0 (new_Parser kVersion) ∅ ∅ [] [].

Definition protocol_refused (limits : WorkerLimits) : bool :=
  (negb (w_version limits =? kVersion) && negb (w_version limits =? kVersionV4))
  || negb (flags_within (w_capabilities limits) kCapabilitiesKnownMask).

(** [kill_and_reap] waits once. *)
Definition kill_and_reap (os : SpawnOs) (pid : Z) (r : Resources) : Resources := if os_exits os then reap r pid else r.

(** The child of the plan attached to its cgroup. *)
Definition attach_child (k : K) (plan : SpawnPlan) (pid : Z) : bool * K :=
  if plan_cgroup plan
  then configure_and_attach_cgroup_v2 k pid (c_text (c_cgroup_path (plan_config plan))) (plan_limits plan)
  else (true, k).

Definition plan_worker_limits (plan : SpawnPlan) : WorkerLimits :=
  let c := plan_config plan in
  mkLimits (c_request_timeout_ms c) (c_max_inflight c) (c_max_header c) (c_max_queued c)
    (config_protocol_version c) (config_protocol_capabilities c).

Definition preinstalled_features (plan : SpawnPlan) : Z := if plan_cgroup plan then SANDBOX_FEATURE_CGROUP_V2 else 0.

(** The worker from the HELLO on. *)
Definition started_worker (plan : SpawnPlan) (fd pid : Z) : capsid_worker :=
  let limits := plan_worker_limits plan in
  mkWorker fd pid limits false false 0 [] 0 (new_Parser (w_version limits)) ∅ ∅ [] [].

(** From the child on. *)
Definition finish_spawn (os : SpawnOs) (k : K) (plan : SpawnPlan) (fd pid : Z) (r : Resources)
    : capsid_result * option capsid_worker * Resources * K :=
  match attach_child k plan pid with
  | (false, k) => (CAPSID_SYSTEM_ERROR, None, kill_and_reap os pid (close_fd r fd), k)
  | (true, k) =>
      let limits := plan_worker_limits plan in
      if protocol_refused limits
      then (CAPSID_INVALID_ARGUMENT, None, capsid_worker_destroy (blank_worker fd limits) (os_exits os) r, k)
      else
        match send_hello (started_worker plan fd pid) (plan_config plan) (plan_capability plan) (plan_descriptors plan)
                (preinstalled_features plan) with
        | (CAPSID_OK, w) => (CAPSID_OK, Some w, r, k)
        | (result, w) => (result, None, capsid_worker_destroy w (os_exits os) r, k)
        end
  end.

Definition capsid_worker_spawn (os : SpawnOs) (k : K) (input : capsid_worker_config) (r : Resources)
    : capsid_result * option capsid_worker * Resources * K :=
  match spawn_plan input (os_is_net os) with
  | None => (CAPSID_INVALID_ARGUMENT, None, r, k)
  | Some plan =>
      match os_sockets os with
      | None => (CAPSID_SYSTEM_ERROR, None, r, k)
      | Some (fd, child_fd) =>
          let r := open_fd (open_fd r fd) child_fd in
          let close_both r := close_fd (close_fd r fd) child_fd in
          if negb (os_nonblocking os) || negb (os_actions os) then (CAPSID_SYSTEM_ERROR, None, close_both r, k)
          else
            let dup := if 0 <=? c_namespace_fd (plan_config plan) then os_dup os else None in
            if (0 <=? c_namespace_fd (plan_config plan)) && bool_decide (dup = None)
            then (CAPSID_SYSTEM_ERROR, None, close_both r, k)
            else
              let r := match dup with Some copy => open_fd r copy | None => r end in
              let r := match os_child os with Some pid => fork_child r pid | None => r end in
              let r := match dup with Some copy => close_fd r copy | None => r end in
              let r := close_fd r child_fd in
              match os_child os with
              | None => (CAPSID_CHILD_ERROR, None, close_fd r fd, k)
              | Some pid => finish_spawn os k plan fd pid r
              end
      end
  end.
End spawn.

(** ** What a spawn leaves behind *)

(** The kernel hands out descriptors and process ids that are not in use. *)
Record fresh_answers (os : SpawnOs) (r : Resources) : Prop := {
  fresh_sockets fd child_fd : os_sockets os = Some (fd, child_fd) →
    0 <= fd ∧ fd ≠ child_fd ∧ ¬ (fd ∈ open_fds r) ∧ ¬ (child_fd ∈ open_fds r);
  fresh_dup fd child_fd copy : os_sockets os = Some (fd, child_fd) → os_dup os = Some copy →
    copy ≠ fd ∧ copy ≠ child_fd ∧ ¬ (copy ∈ open_fds r);
  fresh_child pid : os_child os = Some pid → 0 < pid ∧ ¬ (pid ∈ children r)
}.

Lemma resources_eq r s : open_fds r ≡ open_fds s → children r ≡ children s → r = s.
Proof. intros ?%leibniz_equiv ?%leibniz_equiv. destruct r, s. cbn in *. by subst. Qed.

Ltac same_resources :=
  apply resources_eq; intros ?; cbn; rewrite ?elem_of_difference, ?elem_of_union, ?elem_of_singleton;
  intuition (subst; congruence || tauto).

Section release.
Context `{InetPton} `{CgroupKernel K}.

Lemma send_hello_keeps w c capability descriptors preinstalled h w' :
  send_hello w c capability descriptors preinstalled = (h, w') → w_fd w' = w_fd w ∧ w_pid w' = w_pid w.
Proof.
  unfold send_hello, queue_frame, queue_wire. repeat (case_match; try (intros [= <- <-]; done)).
Qed.

(** What the child leaves in the table of the process. *)
Definition with_worker (r : Resources) (fd pid : Z) : Resources := fork_child (open_fd r fd) pid.

Lemma finish_spawn_resources os (k : K) plan fd pid r result w r' k' :
  0 <= fd → 0 < pid → ¬ (fd ∈ open_fds r) → ¬ (pid ∈ children r) → os_exits os = true →
  finish_spawn os k plan fd pid (with_worker r fd pid) = (result, w, r', k') →
  match w with
  | Some w => result = CAPSID_OK ∧ w_fd w = fd ∧ w_pid w = pid ∧ r' = with_worker r fd pid
  | None => result ≠ CAPSID_OK
      ∧ (r' = r ∨ protocol_refused (plan_worker_limits plan) = true ∧ r' = fork_child r pid)
  end.
Proof.
  intros Hfd Hpid Hnew Hchild Hexits. unfold finish_spawn.
  destruct (attach_child k plan pid) as [[] k1].
  2:{ intros [= <- <- <- <-]. split; [done|left]. unfold kill_and_reap. rewrite Hexits. same_resources. }
  destruct (protocol_refused _) eqn:Hrefused.
  { intros [= <- <- <- <-]. split; [done|right; split; [done|]]. unfold capsid_worker_destroy, blank_worker.
    cbn [w_fd w_pid]. rewrite (proj2 (Z.leb_le 0 fd) Hfd). cbn [Z.ltb Z.compare andb]. same_resources. }
  destruct (send_hello _ _ _ _ _) as [h w1] eqn:Hhello.
  destruct (send_hello_keeps _ _ _ _ _ _ _ Hhello) as [Hf Hp]. cbn in Hf, Hp.
  assert (capsid_worker_destroy w1 (os_exits os) (with_worker r fd pid) = r) as Hdestroy.
  { unfold capsid_worker_destroy. rewrite Hf, Hp, Hexits, (proj2 (Z.leb_le 0 fd) Hfd), (proj2 (Z.ltb_lt 0 pid) Hpid).
    cbn [andb]. same_resources. }
  destruct h; intros [= <- <- <- <-]; rewrite ?Hdestroy; (split_and!; first [done|by left]).
Qed.

End release.

(** ** The cgroup is changed as a whole or not at all *)

Definition procs_file : bytes := bs "cgroup.procs".

Definition controller_files : list bytes :=
  [bs "cpu.max"; bs "cpu.weight"; bs "memory.high"; bs "memory.max"; bs "memory.swap.max"; bs "pids.max"].

(** The cgroup v2 interface files: a file prints values in a form it accepts
    and then prints again, an accepted or refused write keeps it readable, and
    a write concerns one file. *)
Class CgroupLaws (K : Type) `{CgroupKernel K} := {
  write_back (k0 k : K) name value : name ∈ controller_files → cgroup_read_at k0 name = Some value →
    is_Some (file_text k name) → cgroup_read_at (file_write k name value).2 name = Some value;
  write_readable (k : K) name value : name ∈ controller_files → is_Some (file_text k name) →
    is_Some (file_text (file_write k name value).2 name);
  write_elsewhere (k : K) name value other : other ∈ controller_files → other ≠ name →
    file_text (file_write k name value).2 other = file_text k other
}.

Section cgroup_laws.
Context `{CgroupLaws K}.
Implicit Types (k : K) (s : CgroupSetting) (name : bytes).

(** Every file of the controllers [k] can read, [k'] can read. *)
Definition stays_readable (k k' : K) : Prop :=
  ∀ name, name ∈ controller_files → is_Some (file_text k name) → is_Some (file_text k' name).

Lemma write_stays_readable k name value : stays_readable k (cgroup_write_at k name value).2.
Proof.
  intros other Ho Hs. unfold cgroup_write_at. destruct (decide (other = name)) as [->|Hne].
  - by apply write_readable.
  - by rewrite write_elsewhere.
Qed.

Lemma write_read_other k name value other : other ∈ controller_files → other ≠ name →
  cgroup_read_at (cgroup_write_at k name value).2 other = cgroup_read_at k other.
Proof. intros. unfold cgroup_read_at, cgroup_write_at. by rewrite write_elsewhere. Qed.

Lemma read_readable k name value : cgroup_read_at k name = Some value → is_Some (file_text k name).
Proof. unfold cgroup_read_at. destruct (file_text k name); [by eexists|done]. Qed.

(** [k] differs from [k0] in the settings [applied] at most, whose original
    values are those of [k0]. *)
Record changed (k0 : K) (applied : list CgroupSetting) (k : K) : Prop := {
  ch_read : Forall (λ s, setting_name s ∈ controller_files ∧ cgroup_read_at k0 (setting_name s) = Some (original s)) applied;
  ch_names : NoDup (map setting_name applied);
  ch_readable : stays_readable k0 k;
  ch_rest name : name ∈ controller_files → ¬ (name ∈ map setting_name applied) →
    cgroup_read_at k name = cgroup_read_at k0 name
}.

Lemma changed_nil k : changed k [] k.
Proof. split; [done|constructor|intros ? ? ?; done|done]. Qed.

Lemma changed_write k0 applied k s value : changed k0 applied k → setting_name s ∈ controller_files →
  cgroup_read_at k0 (setting_name s) = Some (original s) → ¬ (setting_name s ∈ map setting_name applied) →
  changed k0 (s :: applied) (cgroup_write_at k (setting_name s) value).2.
Proof.
  intros [Hr Hn Hs Hk] Hc Ho Hfresh. split.
  - by constructor.
  - by apply NoDup_cons.
  - intros name Hname H1. apply write_stays_readable; auto.
  - intros name Hname [Hne Hout]%not_elem_of_cons. rewrite write_read_other by done. auto.
Qed.

(** A write outside the controllers, such as the one to cgroup.procs. *)
Lemma changed_other k0 applied k name value : changed k0 applied k → ¬ (name ∈ controller_files) →
  changed k0 applied (cgroup_write_at k name value).2.
Proof.
  intros [Hr Hn Hs Hk] Hc. split; [done|done| |].
  - intros other Ho H1. apply write_stays_readable; auto.
  - intros other Ho Hout. rewrite write_read_other by (congruence || done). auto.
Qed.

Lemma rollback_restores k0 applied k name : changed k0 applied k → name ∈ controller_files →
  cgroup_read_at (rollback_cgroup_settings k applied) name = cgroup_read_at k0 name.
Proof.
  revert k. induction applied as [|s applied IH]; intros k [Hread Hnd Hok Hrest] Hname; cbn.
  - apply Hrest; [done|apply not_elem_of_nil].
  - apply Forall_cons in Hread as [[Hs Hold] Hread]. cbn in Hnd. apply NoDup_cons in Hnd as [Hfresh Hnd].
    apply IH; [|done]. split; [done|done| |].
    + intros other Ho Hr. apply write_stays_readable; auto.
    + intros other Ho Hout. destruct (decide (other = setting_name s)) as [->|Hne].
      * rewrite Hold. unfold cgroup_write_at. apply (write_back k0); [done..|]. apply Hok; [done|]. by eapply read_readable.
      * rewrite write_read_other by done. apply Hrest; [done|]. cbn. by apply not_elem_of_cons.
Qed.

Lemma apply_settings_changed k0 settings applied k ok applied' k' :
  changed k0 applied k → NoDup (map setting_name (rev settings ++ applied)) →
  Forall (λ s, setting_name s ∈ controller_files ∧ cgroup_read_at k0 (setting_name s) = Some (original s)) settings →
  apply_settings k applied settings = (ok, applied', k') →
  changed k0 applied' k'
  ∧ (ok = true → (∀ s, s ∈ settings → cgroup_read_at k' (setting_name s) = Some (desired s))
                 ∧ ∀ name, name ∈ controller_files → ¬ (name ∈ map setting_name settings) →
                     cgroup_read_at k' name = cgroup_read_at k name).
Proof.
  intros Hch Hnd Hread. revert applied k Hch Hnd. induction Hread as [|s settings [Hc Ho] _ IH]; cbn [apply_settings rev];
    intros applied k Hch Hnd.
  { intros [= <- <- <-]. split; [done|]. intros _. split; [|done]. intros s Hs%elem_of_nil. done. }
  rewrite <- app_assoc in Hnd. cbn in Hnd.
  assert (¬ (setting_name s ∈ map setting_name applied)) as Hfresh.
  { rewrite map_app in Hnd. apply NoDup_app in Hnd as (_ & _ & Hnd). by apply NoDup_cons in Hnd as [? _]. }
  assert (¬ (setting_name s ∈ map setting_name settings)) as Hlater.
  { rewrite map_app in Hnd. apply NoDup_app in Hnd as (_ & Hd & _). intros Hin. apply (Hd (setting_name s)); [|left].
    rewrite map_rev. apply list_elem_of_In. rewrite <- in_rev. by apply list_elem_of_In. }
  pose proof (changed_write k0 applied k s (desired s) Hch Hc Ho Hfresh) as Hch'.
  pose proof (write_read_other k (setting_name s) (desired s)) as Hother.
  destruct (cgroup_write_at k (setting_name s) (desired s)) as [[] k1]; cbn [snd] in Hch', Hother; [|by intros [= <- <- <-]].
  destruct (cgroup_read_at k1 (setting_name s)) as [actual|] eqn:Hactual; [|by intros [= <- <- <-]].
  case_bool_decide as Heq; [|by intros [= <- <- <-]]. intros Hrun.
  destruct (IH _ _ Hch' Hnd Hrun) as [Hend Hall]. split; [done|]. intros Hok. destruct (Hall Hok) as [Hset Hkeep]. split.
  - intros s' [->|Hin]%elem_of_cons; [|by apply Hset]. rewrite Hkeep, Hactual by done. by rewrite Heq.
  - intros name Hn [Hne Hout]%not_elem_of_cons. rewrite Hkeep by done. by apply Hother.
Qed.
Lemma read_originals_ok k settings originals : read_originals k settings = Some originals →
  map (λ s, (setting_name s, desired s)) originals = settings
  ∧ Forall (λ s, cgroup_read_at k (setting_name s) = Some (original s)) originals.
Proof.
  revert originals. induction settings as [|[name value] settings IH]; cbn; intros originals.
  - intros [= <-]. by split.
  - destruct (cgroup_read_at k name) as [old|] eqn:Hold; [|done].
    destruct (read_originals k settings) as [rest|]; [|done]. intros [= <-].
    destruct (IH rest eq_refl) as [<- Hall]. split; [done|]. by constructor.
Qed.

Lemma cgroup_settings_names rl :
  sublist (map fst (cgroup_settings rl)) controller_files.
Proof.
  unfold cgroup_settings. rewrite !map_app.
  change controller_files with ([bs "cpu.max"] ++ [bs "cpu.weight"] ++ [bs "memory.high"] ++ [bs "memory.max"]
    ++ [bs "memory.swap.max"] ++ [bs "pids.max"]).
  repeat apply sublist_app; (destruct (flag_set _ _); [reflexivity|apply sublist_nil_l]).
Qed.

Lemma settings_distinct rl originals : map (λ s, (setting_name s, desired s)) originals = cgroup_settings rl →
  NoDup (map setting_name originals) ∧ ∀ s, s ∈ originals → setting_name s ∈ controller_files.
Proof.
  intros Heq. pose proof (cgroup_settings_names rl) as Hsub. rewrite <- Heq, map_map in Hsub. cbn in Hsub. split.
  - eapply sublist_NoDup; [|exact Hsub]. apply (bool_decide_unpack _). by vm_compute.
  - intros s Hs. eapply elem_of_submseteq; [|by apply sublist_submseteq].
    apply list_elem_of_fmap. by exists s.
Qed.

(** Attaching a worker to a cgroup changes the whole configuration or none of
    it: on success every requested setting reads as requested, the other
    controller files read as before and the worker is a member; on failure,
    at whichever read or write, every controller file reads as before. *)
Theorem cgroup_all_or_nothing k pid path rl ok k' : configure_and_attach_cgroup_v2 k pid path rl = (ok, k') →
  if ok then
    (∀ name value, (name, value) ∈ cgroup_settings rl → cgroup_read_at k' name = Some value)
    ∧ (∀ name, name ∈ controller_files → ¬ (name ∈ map fst (cgroup_settings rl)) →
         cgroup_read_at k' name = cgroup_read_at k name)
    ∧ ∃ members, cgroup_read_at k' procs_file = Some members ∧ cgroup_pid_list_contains members (decimal pid) = true
  else ∀ name, name ∈ controller_files → cgroup_read_at k' name = cgroup_read_at k name.
Proof.
  unfold configure_and_attach_cgroup_v2. destruct (is_cgroup2 k path); cbn [negb]; [|by intros [= <- <-]].
  destruct (read_originals k (cgroup_settings rl)) as [settings|] eqn:Hread; [|by intros [= <- <-]].
  apply read_originals_ok in Hread as [Heq Hall]. destruct (settings_distinct rl settings Heq) as [Hnd Hfiles].
  destruct (apply_settings k [] settings) as [[ok1 applied] k1] eqn:Hrun.
  destruct (apply_settings_changed k settings [] k ok1 applied k1) as [Hch Hok]; [apply changed_nil| | |done|].
  { rewrite app_nil_r, map_rev. by rewrite <- Permutation_rev. }
  { apply Forall_forall. intros s Hs. split; [auto|]. by eapply Forall_forall in Hall. }
  destruct ok1; [|intros [= <- <-]; intros name Hn; by apply rollback_restores].
  destruct (Hok eq_refl) as [Hset Hkeep]. fold procs_file.
  assert (¬ (procs_file ∈ controller_files)) as Hprocs by (apply (bool_decide_unpack _); by vm_compute).
  pose proof (changed_other _ _ _ procs_file (decimal pid) Hch Hprocs) as Hch'.
  pose proof (write_read_other k1 procs_file (decimal pid)) as Hother.
  destruct (cgroup_write_at k1 procs_file (decimal pid)) as [[] k2]; cbn [snd] in Hch', Hother.
  2:{ intros [= <- <-] name Hn. by apply rollback_restores. }
  destruct (cgroup_read_at k2 procs_file) as [members|] eqn:Hmembers.
  2:{ intros [= <- <-] name Hn. by apply rollback_restores. }
  destruct (cgroup_pid_list_contains members (decimal pid)) eqn:Hin.
  2:{ intros [= <- <-] name Hn. by apply rollback_restores. }
  intros [= <- <-]. split_and!.
  - rewrite <- Heq. intros name value (s & [= -> ->] & Hs)%list_elem_of_fmap.
    pose proof (Hfiles s Hs). rewrite Hother by (done || congruence). auto.
  - intros name Hn Hout. rewrite <- Heq, map_map in Hout. rewrite Hother by (done || congruence). by apply Hkeep.
  - by exists members.
Qed.
End cgroup_laws.

(** A cgroup directory that stores what is written, a line per member, and may
    refuse members. *)
Record ToyCgroup := mkToy {
  toy_files : gmap bytes bytes;
  toy_refuses : bool
}.

#[export] Instance toy_kernel : CgroupKernel ToyCgroup := {
  is_cgroup2 _ _ := true;
  file_text k name := toy_files k !! name;
  file_write k name value :=
    match toy_files k !! name with
    | None => (false, k)
    | Some old =>
        if bool_decide (name = procs_file) then
          if toy_refuses k then (false, k)
          else (true, mkToy (<[name := old ++ value ++ [Byte.x0a]]> (toy_files k)) (toy_refuses k))
        else (true, mkToy (<[name := value]> (toy_files k)) (toy_refuses k))
    end
}.

Definition no_lead (text : bytes) : Prop := trim_front text = text.

Lemma trim_front_lead text : no_lead (trim_front text).
Proof. unfold no_lead. induction text as [|x text IH]; [done|]. cbn. destruct (is_blank x) eqn:Hx; [done|]. cbn. by rewrite Hx. Qed.

Lemma trim_front_suffix text : ∃ blanks, text = blanks ++ trim_front text.
Proof.
  induction text as [|x text [blanks IH]]; [by exists []|]. cbn. destruct (is_blank x).
  - exists (x :: blanks). cbn. by rewrite <- IH.
  - by exists [].
Qed.

Lemma no_lead_prefix text rest : no_lead (text ++ rest) → no_lead text.
Proof.
  unfold no_lead. destruct text as [|x text]; [done|]. cbn. destruct (is_blank x); [|done].
  intros Heq. destruct (trim_front_suffix (text ++ rest)) as [blanks Hs]. rewrite Heq in Hs.
  apply (f_equal length) in Hs. rewrite !length_app in Hs. cbn [length] in Hs. rewrite ?length_app in Hs. lia.
Qed.

Lemma trim_trim text : trim (trim text) = trim text.
Proof.
  unfold trim. set (y := trim_front text). assert (no_lead (rev (trim_front (rev y)))) as Hlead.
  { destruct (trim_front_suffix (rev y)) as [blanks Hs]. apply (no_lead_prefix _ (rev blanks)).
    rewrite <- rev_app_distr, <- Hs, rev_involutive. apply trim_front_lead. }
  rewrite Hlead, rev_involutive. by rewrite (trim_front_lead (rev y)).
Qed.

Lemma trim_length text : zlen (trim text) <= zlen text.
Proof.
  unfold trim. destruct (trim_front_suffix text) as [b1 H1]. destruct (trim_front_suffix (rev (trim_front text))) as [b2 H2].
  unfold zlen. rewrite length_rev. apply (f_equal length) in H1, H2. rewrite length_rev, !length_app in *. lia.
Qed.

#[export] Instance toy_laws : CgroupLaws ToyCgroup.
Proof.
  assert (∀ name, name ∈ controller_files → name ≠ procs_file) as Hdiff.
  { intros name Hn ->. revert Hn. apply (bool_decide_unpack (¬ _)). by vm_compute. }
  split; cbn [file_text file_write toy_kernel].
  - intros k0 k name value Hc Hread [old Hold]. rewrite Hold. rewrite bool_decide_false by auto. cbn [snd].
    unfold cgroup_read_at in *. cbn [file_text toy_kernel toy_files] in *. rewrite lookup_insert_eq.
    destruct (toy_files k0 !! name) as [text|]; [|done]. destruct (256 <=? zlen text) eqn:Hlen; [done|].
    injection Hread as <-. pose proof (trim_length text). destruct (256 <=? zlen (trim text)) eqn:Htrim; [lia|]. by rewrite trim_trim.
  - intros k name value Hc [old Hold]. rewrite Hold. rewrite bool_decide_false by auto. cbn. rewrite lookup_insert_eq. by eexists.
  - intros k name value other Hc Hne. destruct (toy_files k !! name); [|done].
    case_bool_decide; [destruct (toy_refuses k); [done|]|]; cbn; by rewrite lookup_insert_ne.
Qed.

Definition sample_limits_block (flags : Z) : capsid_resource_limits :=
  mkResourceLimits sizeof_resource_limits flags 0 200 50000 100000 0 1048576 0 8 0.

Definition sample_cgroup (members : bytes) (refuses : bool) : ToyCgroup :=
  mkToy (list_to_map ((procs_file, members) :: map (λ name, (name, bs "max")) controller_files)) refuses.

Lemma cgroup_all_or_nothing_witness :
  ∃ k', configure_and_attach_cgroup_v2 (sample_cgroup [] true) 321 (bs "/sys/fs/cgroup/w") (sample_limits_block 86) = (false, k')
  ∧ cgroup_read_at k' (bs "cpu.max") = Some (bs "max") ∧ cgroup_read_at k' (bs "pids.max") = Some (bs "max").
Proof.
  destruct (configure_and_attach_cgroup_v2 (sample_cgroup [] true) 321 (bs "/sys/fs/cgroup/w") (sample_limits_block 86))
    as [ok k'] eqn:Hrun.
  pose proof (cgroup_all_or_nothing _ _ _ _ _ _ Hrun) as Hall.
  assert (ok = false) as -> by (apply (f_equal fst) in Hrun; vm_compute in Hrun; by rewrite <- Hrun).
  exists k'. split_and!; [done| |]; rewrite Hall; try (vm_compute; reflexivity); apply (bool_decide_unpack _); by vm_compute.
Defined.

(** Membership is read back into 256 bytes: a cgroup that already holds a few
    dozen processes refuses a worker it has just accepted as a member. *)
Lemma busy_cgroup_refuses :
  let members := mjoin (replicate 40 (bs "123456" ++ [Byte.x0a])) in
  let '(ok, k') := configure_and_attach_cgroup_v2 (sample_cgroup members false) 321 (bs "/w") (sample_limits_block 0) in
  ok = false ∧ file_text k' procs_file = Some (members ++ bs "321" ++ [Byte.x0a]).
Proof. vm_compute. by split. Qed.

Definition sample_os : SpawnOs := mkSpawnOs false (Some (10, 11)) true true None (Some 321) true.
Definition sample_resources : Resources := mkResources {[ 0; 1; 2 ]} ∅.

Lemma sample_answers_fresh : fresh_answers sample_os sample_resources.
Proof.
  split; cbn; intros *; [intros [= <- <-]|done|intros [= <-]]; split_and!; try lia; apply (bool_decide_unpack _); by vm_compute.
Qed.

Definition sample_spawn : capsid_result * option capsid_worker * Resources * ToyCgroup :=
  capsid_worker_spawn sample_os (sample_cgroup [] true) capsid_worker_config_init sample_resources.


(** A configuration that asks for an unknown protocol capability: the call
    fails after the child was started and never waits for it. *)
Lemma spawn_leaks_child :
  let input := mkConfig sizeof_worker_config CAPSID_ABI_VERSION 0 0 0 0 0 0 0 0 0 None 0 0 0 0 None None None None (-1) 0
                 kVersionV4 0 (2 ^ 31) in
  capsid_worker_spawn sample_os (sample_cgroup [] true) input sample_resources
  = (CAPSID_INVALID_ARGUMENT, None, fork_child sample_resources 321, sample_cgroup [] true).
Proof. vm_compute. reflexivity. Qed.
