(* ===== verification/HostStartup.v ===== *)
(** * HostStartup: what the Host sends is what the worker starts with

    The Host's half of the startup ([HostClient], [HostSpawn]: src/client.cc)
    composed with the worker's half ([IpcValidation]: src/ipc_validation.cc)
    through the wire ([Protocol]). The policies the Host validated survive the
    HELLO message, a binding and a bundle survive their frames, and so does
    the head of a request. No code is modelled here. *)
From Stdlib Require Import ZArith Lia.
From S2P Require Import Prelude Wire Protocol Jansson ReadyProof WorkerExecutor WorkerRecovery EgressPolicy.
From S2P Require Import CapabilityPolicy BindingPolicy AuditRecords IpcValidation HostClient HostSpawn.
Local Open Scope Z_scope.

(** ** Egress rules on the wire *)

(** A descriptor as the worker rebuilds it. *)
Definition wire_rule (r : capsid_egress_rule) : capsid_egress_rule :=
  mkEgressRule sizeof_egress_rule (rule_action_value r) (Some (c_text (target r))) (source_port_start r)
    (source_port_end r) (source_rule_id r) 0.

Definition egress_rule_bytes (r : capsid_egress_rule) : bytes :=
  le_bytes 4 (rule_action_value r) ++ le_bytes 2 (source_port_start r) ++ le_bytes 2 (source_port_end r)
  ++ le_bytes 4 (source_rule_id r) ++ wire16 (c_text (target r)).

Definition egress_wire (p : option capsid_egress_policy) : WireEgressPolicy :=
  match p with
  | None => mkWireEgress 0 []
  | Some p => mkWireEgress (default_action_value p) (map wire_rule (policy_entries p))
  end.

Definition egress_bytes (wire : WireEgressPolicy) : bytes :=
  le_bytes 4 (wire_default_action wire) ++ le_bytes 4 (zlen (wire_rules wire))
  ++ concat (map egress_rule_bytes (wire_rules wire)).

(** The fields have the values of their C types, and the array its count. *)
Definition rule_typed (r : capsid_egress_rule) : Prop :=
  0 <= rule_action_value r ∧ 0 <= source_port_start r < 2 ^ 16 ∧ 0 <= source_port_end r < 2 ^ 16
  ∧ 0 <= source_rule_id r < 2 ^ 32.

Definition policy_typed (p : capsid_egress_policy) : Prop :=
  0 <= default_action_value p ∧ rule_count p = zlen (policy_entries p) ∧ Forall rule_typed (policy_entries p).

Definition wire_rule_ok (r : capsid_egress_rule) : Prop :=
  rule_typed r ∧ rule_action_value r <= 1 ∧ short16 (c_text (target r)) ∧ r = wire_rule r.

Lemma zlen_map {A B} (f : A → B) l : zlen (map f l) = zlen l.
Proof. unfold zlen. by rewrite length_map. Qed.

Lemma c_text_no_nul s : contains_nul (c_text s) = false.
Proof.
  apply contains_nul_false. destruct s as [s|]; cbn; [|apply not_elem_of_nil].
  induction s as [|c s IH]; cbn; [apply not_elem_of_nil|]. case_bool_decide; [apply not_elem_of_nil|].
  by apply not_elem_of_cons.
Qed.

Lemma cut_nul_plain s : contains_nul s = false → cut_nul s = s.
Proof.
  rewrite contains_nul_false. induction s as [|c s IH]; [done|]. intros [Hc Hs]%not_elem_of_cons. cbn.
  rewrite bool_decide_eq_false_2 by congruence. by rewrite IH.
Qed.

Lemma c_text_idem s : c_text (Some (c_text s)) = c_text s.
Proof. destruct s as [s|]; [|done]. cbn. apply cut_nul_idem. Qed.

Lemma wire_rule_idem r : wire_rule (wire_rule r) = wire_rule r.
Proof. unfold wire_rule at 1. cbn [rule_action_value target source_port_start source_port_end source_rule_id wire_rule].
  by rewrite c_text_idem. Qed.

Lemma wire_rule_bytes r : egress_rule_bytes (wire_rule r) = egress_rule_bytes r.
Proof. unfold egress_rule_bytes, wire_rule. cbn [rule_action_value target source_port_start source_port_end source_rule_id].
  by rewrite c_text_idem. Qed.

Lemma read_egress_rule_reads : reads read_egress_rule egress_rule_bytes wire_rule_ok.
Proof.
  intros r rest ((Ha0 & Hs & He & Hid) & Ha & Ht & Hr). unfold read_egress_rule, egress_rule_bytes.
  rewrite <- !app_assoc, read_u32_le, read_u16_le, read_u16_le, read_u32_le by lia.
  rewrite read_string16_reads by done. rewrite ltb_ge_false, c_text_no_nul by lia. cbn [orb].
  fold (wire_rule r). by rewrite <- Hr.
Qed.

Lemma append_egress_rules_bytes out rules out' : append_egress_rules out rules = Some out' →
  out' = out ++ concat (map egress_rule_bytes rules) ∧ Forall (λ r, short16 (c_text (target r))) rules.
Proof.
  revert out. induction rules as [|r rules IH]; cbn [append_egress_rules map concat]; intros out.
  - intros [= ->]. by rewrite app_nil_r.
  - unfold append_string16. destruct (u16_max <? zlen (c_text (target r))) eqn:Hlen; [done|]. intros H.
    apply IH in H as [-> Hall]. autorewrite with wire. unfold egress_rule_bytes at 2, wire16.
    rewrite <- !app_assoc. split; [done|]. constructor; [|done]. unfold short16, u16_max in *. lia.
Qed.

Section egress.
Context `{InetPton}.

(** The policy the worker compiles. *)
Definition compiled_egress (p : option capsid_egress_policy) (e : EgressPolicy) : Prop :=
  configure p = inr e ∧ ∀ p', p = Some p' → policy_typed p'.

Lemma compile_rule_wire index ids r result : compile_rule index ids r = inr result →
  compile_rule index ids (wire_rule r) = inr result ∧ rule_action_value r <= 1.
Proof.
  unfold compile_rule, wire_rule. cbn [target rule_struct_size rule_action_value rule_reserved source_port_start
    source_port_end source_rule_id]. destruct (target r) as [text|]; [|done]. cbn [c_text].
  destruct (_ || _) eqn:Hg; [done|]. rewrite cut_nul_idem. intros Hrest. bools.
  rewrite (ltb_ge_false 1 (rule_action_value r)) by lia. split; [|lia].
  match goal with H : valid_port_range _ _ = true |- _ => rewrite H end. exact Hrest.
Qed.

Lemma compile_rules_wire index ids rules compiled : compile_rules index ids rules = inr compiled →
  compile_rules index ids (map wire_rule rules) = inr compiled ∧ Forall (λ r, rule_action_value r <= 1) rules.
Proof.
  revert index ids compiled. induction rules as [|r rules IH]; cbn [compile_rules map]; intros index ids compiled; [done|].
  destruct (compile_rule index ids r) as [|[ids' rule]] eqn:Hr; [done|].
  destruct (compile_rules (index + 1) ids' rules) as [|rest] eqn:Hrest; [done|].
  apply compile_rule_wire in Hr as [-> ?]. apply IH in Hrest as [-> ?]. intros H'. split; [done|by constructor].
Qed.

(** What [decode_wire_egress] accepts. *)
Definition egress_ok (wire : WireEgressPolicy) : Prop :=
  0 <= wire_default_action wire <= 1 ∧ zlen (wire_rules wire) <= 256 ∧ Forall wire_rule_ok (wire_rules wire).

Lemma decode_wire_egress_reads wire rest : egress_ok wire →
  decode_wire_egress (egress_bytes wire ++ rest) = inr (wire, rest).
Proof.
  intros (Hd & Hn & Hall). unfold decode_wire_egress, egress_bytes. pose proof (zlen_nonneg (wire_rules wire)).
  rewrite <- !app_assoc, !read_u32_le by lia. rewrite !ltb_ge_false by lia. cbn [orb].
  rewrite to_nat_zlen, (read_many_reads _ _ _ _ _ read_egress_rule_reads Hall). by destruct wire.
Qed.

Lemma append_egress_bytes out p out' e : compiled_egress p e → append_egress out p = Some out' →
  out' = out ++ egress_bytes (egress_wire p) ∧ egress_ok (egress_wire p).
Proof.
  intros [Hc Ht]. unfold append_egress. destruct p as [p|]; autorewrite with wire.
  2:{ intros [= <-]. split; [by rewrite <- !app_assoc|]. by repeat constructor. }
  destruct (Ht p eq_refl) as (Hd0 & Hcount & Htyped). intros Happ.
  apply append_egress_rules_bytes in Happ as [-> Hshort].
  unfold configure in Hc. split_test; [done|]. destruct ((1 <? _) || _ || _ || _) eqn:Hg; [done|]. bools.
  fold (policy_entries p) in Hc. destruct (compile_rules _ _ _) as [|compiled] eqn:Hcomp; [done|].
  apply compile_rules_wire in Hcomp as [_ Hact]. unfold egress_bytes, egress_wire. cbn [wire_default_action wire_rules].
  rewrite map_map, (map_ext _ _ wire_rule_bytes), <- !app_assoc, zlen_map, <- Hcount.
  split; [done|]. split; [cbn; lia|]. cbn [wire_rules]. split; [rewrite zlen_map; lia|].
  apply Forall_map. apply Forall_forall. intros r Hr. rewrite Forall_forall in Htyped, Hact, Hshort.
  split; [exact (Htyped r Hr)|]. split; [exact (Hact r Hr)|]. split; [|symmetry; apply wire_rule_idem].
  cbn [wire_rule target]. rewrite c_text_idem. exact (Hshort r Hr).
Qed.

Lemma configure_wire_same p e : compiled_egress p e → configure (Some (wire_descriptor (egress_wire p))) = inr e.
Proof.
  intros [Hc Ht]. destruct p as [p|]; [|exact Hc]. destruct (Ht p eq_refl) as (_ & Hcount & _).
  unfold configure, wire_descriptor, egress_wire in *. cbn [policy_struct_size default_action_value policy_reserved rule_count
    policy_rules wire_default_action wire_rules]. rewrite Z.eqb_refl. cbn [negb].
  destruct (negb (policy_struct_size p =? _)); [done|].
  destruct ((1 <? default_action_value p) || _ || (256 <? rule_count p) || _) eqn:Hg in Hc; [done|]. bools.
  fold (policy_entries p) in Hc. destruct (compile_rules _ _ _) as [|compiled] eqn:Hcomp; [done|].
  apply compile_rules_wire in Hcomp as [Hcomp _]. set (rs := map wire_rule (policy_entries p)) in *.
  assert (zlen rs = rule_count p) as Hrs by (unfold rs; by rewrite zlen_map).
  rewrite u32_small by (pose proof (zlen_nonneg rs); lia). rewrite !ltb_ge_false by lia. cbn [orb].
  clearbody rs. destruct rs as [|r rs]; cbn [default].
  - cbn in Hcomp |- *. by injection Hcomp as <-.
  - rewrite bool_decide_eq_false_2 by done. rewrite bool_decide_eq_false_2, andb_false_r by done.
    change (default [] (Some (r :: rs))) with (r :: rs). rewrite ztake_all, Hcomp. exact Hc.
Qed.
End egress.

(** ** Capabilities on the wire *)

Definition wire_permission (r : capsid_permission_rule) : capsid_permission_rule :=
  let resource := c_text (prule_resource r) in
  mkPermissionRule sizeof_permission_rule (prule_action r) (prule_permission r)
    (if bool_decide (resource = []) then None else Some resource) (prule_id r) 0.

Definition permission_bytes (r : capsid_permission_rule) : bytes :=
  le_bytes 4 (prule_action r) ++ le_bytes 4 (prule_permission r) ++ le_bytes 4 (prule_id r)
  ++ wire16 (c_text (prule_resource r)).

Definition env_bytes (e : capsid_env_entry) : bytes := wire16 (c_text (env_name e)) ++ wire16 (c_text (env_text e)).
Definition env_of (e : bytes * bytes) : capsid_env_entry := mkEnvEntry sizeof_env_entry (Some e.1) (Some e.2) 0.

Definition capability_wire (c : option capsid_capability_policy) (environment : list (bytes * bytes)) : WireCapability :=
  match c with
  | None => mkWireCapability 0 [] [] [] (egress_wire None) true (map env_of environment)
  | Some c => mkWireCapability (cap_version c) (c_text (cap_identity c)) (map (λ m, Some (c_text m)) (capability_modules c))
                (map wire_permission (capability_rules c)) (egress_wire (cap_net_policy c)) true (map env_of environment)
  end.

Definition capability_bytes (wc : WireCapability) : bytes :=
  le_bytes 4 (wc_version wc) ++ wire16 (wc_identity wc)
  ++ le_bytes 2 (zlen (wc_modules wc)) ++ concat (map (λ m, wire16 (c_text m)) (wc_modules wc))
  ++ le_bytes 2 (zlen (wc_rules wc)) ++ concat (map permission_bytes (wc_rules wc))
  ++ egress_bytes (wc_net wc)
  ++ le_bytes 2 (zlen (wc_env wc)) ++ concat (map env_bytes (wc_env wc)).

Definition permission_ok (r : capsid_permission_rule) : Prop :=
  0 <= prule_action r <= 1 ∧ 1 <= prule_permission r <= 10 ∧ prule_permission r ≠ 3 ∧ 0 <= prule_id r < 2 ^ 32
  ∧ short16 (c_text (prule_resource r)) ∧ r = wire_permission r.

Definition module_wire_ok (m : option bytes) : Prop := short16 (c_text m) ∧ m = Some (c_text m).

Definition env_wire_ok (e : capsid_env_entry) : Prop :=
  short16 (c_text (env_name e)) ∧ short16 (c_text (env_text e)) ∧ e = env_of (c_text (env_name e), c_text (env_text e)).

Record capability_ok (wc : WireCapability) : Prop := {
  co_version : 0 <= wc_version wc < 2 ^ 32;
  co_identity : short16 (wc_identity wc) ∧ contains_nul (wc_identity wc) = false;
  co_modules : zlen (wc_modules wc) <= 64 ∧ Forall module_wire_ok (wc_modules wc);
  co_rules : zlen (wc_rules wc) <= 256 ∧ Forall permission_ok (wc_rules wc);
  co_net : egress_ok (wc_net wc);
  co_env : wc_has_environment wc = true ∧ zlen (wc_env wc) <= 256 ∧ Forall env_wire_ok (wc_env wc)
}.

Lemma read_module_reads : reads read_module (λ m, wire16 (c_text m)) module_wire_ok.
Proof. intros m rest [Hs Hm]. unfold read_module. rewrite read_string16_reads, c_text_no_nul by done. by rewrite <- Hm. Qed.

Lemma read_permission_reads : reads read_permission_rule permission_bytes permission_ok.
Proof.
  intros r rest (Ha & Hp & Hp3 & Hid & Hs & Hr). unfold read_permission_rule, permission_bytes.
  rewrite <- !app_assoc, !read_u32_le, read_string16_reads by (done || lia). rewrite c_text_no_nul, !ltb_ge_false by lia.
  rewrite (proj2 (Z.eqb_neq _ 3) Hp3). cbn [orb]. fold (wire_permission r). by rewrite <- Hr.
Qed.

Lemma read_env_reads : reads read_env_entry env_bytes env_wire_ok.
Proof.
  intros e rest (Hn & Hv & He). unfold read_env_entry, env_bytes.
  rewrite <- !app_assoc, !read_string16_reads, !c_text_no_nul by done. cbn [orb].
  change (mkEnvEntry _ (Some ?n) (Some ?v) 0) with (env_of (n, v)). by rewrite <- He.
Qed.

Lemma read_wire_capability_reads wc rest : capability_ok wc →
  read_wire_capability (capability_bytes wc ++ rest) = inr (wc, rest).
Proof.
  intros [Hv [Hi Hin] [Hm Hms] [Hr Hrs] Hnet (Hhas & He & Hes)]. unfold read_wire_capability, capability_bytes.
  pose proof (zlen_nonneg (wc_modules wc)). pose proof (zlen_nonneg (wc_rules wc)). pose proof (zlen_nonneg (wc_env wc)).
  rewrite <- !app_assoc, read_u32_le, read_string16_reads by done. rewrite Hin, read_u16_le, ltb_ge_false by lia.
  rewrite to_nat_zlen, (read_many_reads _ _ _ _ _ read_module_reads Hms), read_u16_le, ltb_ge_false by lia.
  rewrite to_nat_zlen, (read_many_reads _ _ _ _ _ read_permission_reads Hrs).
  rewrite decode_wire_egress_reads by done. cbn [bind_error]. rewrite bool_decide_eq_false_2 by done.
  rewrite read_u16_le, ltb_ge_false, to_nat_zlen, (read_many_reads _ _ _ _ _ read_env_reads Hes) by lia.
  rewrite <- Hhas. by destruct wc.
Qed.

Lemma append_string16_some out s out' : append_string16 out s = Some out' → out' = out ++ wire16 s ∧ short16 s.
Proof.
  unfold append_string16, wire16, short16, u16_max. destruct (_ <? _) eqn:Hlen; [done|]. intros [= <-].
  rewrite append_u16_le, <- app_assoc. split; [done|lia].
Qed.

Lemma append_modules_bytes out modules out' : append_modules out modules = Some out' →
  out' = out ++ concat (map (λ m, wire16 (c_text m)) modules) ∧ Forall (λ m, short16 (c_text m)) modules.
Proof.
  revert out. induction modules as [|m modules IH]; cbn [append_modules map concat]; intros out.
  - intros [= ->]. by rewrite app_nil_r.
  - destruct (append_string16 _ _) as [o|] eqn:Ho; [|done]. apply append_string16_some in Ho as [-> ?]. intros Hrest.
    apply IH in Hrest as [-> ?]. rewrite <- app_assoc. split; [done|by constructor].
Qed.

Lemma append_permission_bytes out rules out' : append_permission_rules out rules = Some out' →
  out' = out ++ concat (map permission_bytes rules) ∧ Forall (λ r, short16 (c_text (prule_resource r))) rules.
Proof.
  revert out. induction rules as [|r rules IH]; cbn [append_permission_rules map concat]; intros out.
  - intros [= ->]. by rewrite app_nil_r.
  - destruct (append_string16 _ _) as [o|] eqn:Ho; [|done]. apply append_string16_some in Ho as [-> ?]. intros Hrest.
    apply IH in Hrest as [-> ?]. autorewrite with wire. unfold permission_bytes at 2. rewrite <- !app_assoc.
    split; [done|by constructor].
Qed.

Lemma append_environment_bytes out environment out' : append_environment out environment = Some out' →
  Forall (λ e, contains_nul e.1 = false ∧ contains_nul e.2 = false) environment →
  out' = out ++ concat (map env_bytes (map env_of environment)) ∧ Forall env_wire_ok (map env_of environment).
Proof.
  intros Happ Hall. revert out Happ. induction Hall as [|[n v] environment [Hn Hv] _ IH]; cbn [append_environment map concat];
    intros out.
  - intros [= ->]. by rewrite app_nil_r.
  - destruct (append_string16 out n) as [o|] eqn:Ho; [|done]. apply append_string16_some in Ho as [-> ?].
    destruct (append_string16 _ v) as [o|] eqn:Ho; [|done]. apply append_string16_some in Ho as [-> ?]. intros Hrest.
    apply IH in Hrest as [-> ?]. cbn [fst snd] in *. unfold env_bytes at 2. cbn [env_of env_name env_text fst snd c_text].
    rewrite (cut_nul_plain n), (cut_nul_plain v), <- !app_assoc by done. split; [done|]. constructor; [|done].
    unfold env_wire_ok. cbn [env_of env_name env_text fst snd c_text]. by rewrite (cut_nul_plain n), (cut_nul_plain v).
Qed.

Section capability.
Context `{InetPton}.

Definition capability_typed (c : capsid_capability_policy) : Prop :=
  cap_module_count c = zlen (capability_modules c) ∧ cap_rule_count c = zlen (capability_rules c)
  ∧ Forall (λ r, 0 <= prule_action r ∧ 0 <= prule_id r < 2 ^ 32) (capability_rules c)
  ∧ 0 <= cap_env_count c ∧ (∀ net, cap_net_policy c = Some net → policy_typed net).

Definition compiled_capability (c : option capsid_capability_policy) (p : CapabilityPolicy) : Prop :=
  configure_capability c = inr p ∧ ∀ c', c = Some c' → capability_typed c'.

(** The worker's policy: without a network policy it has the empty one. *)
Definition worker_capability (p : CapabilityPolicy) : CapabilityPolicy :=
  mkCapabilityPolicy (enabled p) (version p) (application_identity p) (allowed_modules p) (perm_rules p) (env_entries p)
    (enabled p) (net_policy p).

Lemma compile_modules_wire modules seen ms : compile_modules modules seen = inr ms →
  compile_modules (map (λ m, Some (c_text m)) modules) seen = inr ms.
Proof.
  revert seen ms. induction modules as [|[m|] modules IH]; intros seen ms; cbn [compile_modules map]; [done| |done].
  cbn [c_text]. rewrite cut_nul_idem. destruct (_ || _); [done|].
  destruct (compile_modules modules _) as [|rest] eqn:Hrest; [done|]. by rewrite (IH _ _ Hrest).
Qed.

Lemma normalize_rule_wire permission r resource : normalize_rule_resource permission (prule_resource r) = Some resource →
  normalize_rule_resource permission (prule_resource (wire_permission r)) = Some resource.
Proof.
  unfold wire_permission. cbn [prule_resource]. destruct (prule_resource r) as [text|]; cbn [c_text]; [|done].
  unfold normalize_rule_resource. case_bool_decide.
  - unfold keep_if. case_bool_decide as Hnil; [|done]. intros [= <-]. done.
  - case_bool_decide as Hnil; [done|]. rewrite !cut_nul_idem. by rewrite (bool_decide_eq_false_2 _ Hnil).
Qed.

Lemma compile_permissions_wire rules ids rs : compile_permission_rules rules ids = inr rs →
  compile_permission_rules (map wire_permission rules) ids = inr rs
  ∧ Forall (λ r, prule_action r <= 1 ∧ 1 <= prule_permission r <= 10 ∧ prule_permission r ≠ 3) rules.
Proof.
  revert ids rs. induction rules as [|r rules IH]; intros ids rs; cbn [compile_permission_rules map]; [done|].
  destruct (_ || _) eqn:Hg in |- *; [done|]. destruct (normalize_rule_resource _ _) as [resource|] eqn:Hn; [|done].
  destruct (compile_permission_rules rules _) as [|rest] eqn:Hrest; [done|]. apply IH in Hrest as [Hrest Hall].
  intros Heq. apply (normalize_rule_wire _ r) in Hn. bools.
  split; [|constructor; [lia|done]].
  change (prule_struct_size (wire_permission r)) with sizeof_permission_rule.
  change (prule_reserved (wire_permission r)) with 0. change (prule_action (wire_permission r)) with (prule_action r).
  change (prule_permission (wire_permission r)) with (prule_permission r).
  change (prule_id (wire_permission r)) with (prule_id r).
  rewrite !ltb_ge_false, !Z.eqb_refl, bool_decide_eq_false_2 by (done || lia).
  rewrite !(proj2 (Z.eqb_neq _ _)) by done. cbn [negb orb]. by rewrite Hn, Hrest.
Qed.

Lemma compile_env_wire p p' sources names size es : (∀ name, evaluate p' PERMISSION_ENV name = evaluate p PERMISSION_ENV name) →
  compile_env p sources names size = inr es →
  compile_env p' (map env_of es) names size = inr es
  ∧ Forall (λ e, contains_nul e.1 = false ∧ contains_nul e.2 = false) es ∧ zlen es = zlen sources.
Proof.
  intros Heval. revert names size es. induction sources as [|src sources IH]; intros names size es; cbn [compile_env].
  { intros [= <-]. done. }
  destruct (env_name src) as [name|]; [|done]. destruct (env_text src) as [value|]; [|done].
  destruct (negb (env_struct_size src =? _) || _); [done|]. cbv zeta. destruct (_ || _ || _ || _) eqn:Hg; [done|].
  destruct (48 * 1024 <? _) eqn:Hsize; [done|].
  destruct (compile_env p sources _ _) as [|rest] eqn:Hrest; [done|]. intros [= <-].
  apply IH in Hrest as (Hrest & Hall & Hlen). cbn [map compile_env]. change (env_of (?n, ?v)) with (mkEnvEntry sizeof_env_entry (Some n) (Some v) 0).
  cbn [env_name env_text env_struct_size env_entry_reserved]. rewrite !Z.eqb_refl. cbn [negb orb]. rewrite !cut_nul_idem, Heval, Hg, Hsize, Hrest.
  split; [done|]. split; [|rewrite !zlen_cons; lia]. constructor; [|done]. cbn [fst snd].
  exact (conj (c_text_no_nul (Some name)) (c_text_no_nul (Some value))).
Qed.
(** The policy before its environment. *)
Definition bare_policy (d : capsid_capability_policy) modules rs (has_net : bool) net : CapabilityPolicy :=
  mkCapabilityPolicy true (cap_version d) (c_text (cap_identity d)) modules rs [] has_net net.

(** What a descriptor that configures is made of. *)
Record configured (d : capsid_capability_policy) (p : CapabilityPolicy) modules rs net sources : Prop := {
  cf_version : cap_version d = 1 ∧ sources = [] ∨ cap_version d = 2;
  cf_counts : cap_module_count d <= 64 ∧ cap_rule_count d <= 256 ∧ zlen sources <= 256;
  cf_identity : valid_identity (c_text (cap_identity d)) = true;
  cf_modules : compile_modules (capability_modules d) ∅ = inr modules;
  cf_rules : compile_permission_rules (capability_rules d) ∅ = inr rs;
  cf_net : configure (cap_net_policy d) = inr net;
  cf_policy : p = mkCapabilityPolicy true (cap_version d) (c_text (cap_identity d)) modules rs (env_entries p)
                    (bool_decide (is_Some (cap_net_policy d))) net;
  cf_module : sources ≠ [] →
    module_decision (bare_policy d modules rs (bool_decide (is_Some (cap_net_policy d))) net) (bs "capsid:env") = kModuleGranted;
  cf_env : compile_env (bare_policy d modules rs (bool_decide (is_Some (cap_net_policy d))) net) sources ∅ 0
           = inr (env_entries p)
}.

Lemma configure_capability_inv d p : 0 <= cap_env_count d → configure_capability (Some d) = inr p →
  ∃ modules rs net sources, configured d p modules rs net sources.
Proof.
  intros Hcount. unfold configure_capability. cbv zeta.
  set (v1 := (cap_version d =? 1) && _). set (v2 := (cap_version d =? 2) && _).
  destruct (_ || (v2 && negb (cap_env_count d =? 0) && _)) eqn:Hg; [done|].
  fold (capability_modules d) (capability_rules d). fold (c_text (cap_identity d)).
  destruct (negb (valid_identity _)) eqn:Hid; [done|]. apply negb_false_iff in Hid.
  destruct (compile_modules _ _) as [|modules] eqn:Hm; [done|].
  destruct (compile_permission_rules _ _) as [|rs] eqn:Hr; [done|].
  match goal with |- match ?m with _ => _ end = _ → _ => assert (m = inl tt ∨ ∃ o net, m = inr o
    ∧ configure (cap_net_policy d) = inr net ∧ default new_EgressPolicy o = net
    ∧ bool_decide (is_Some o) = bool_decide (is_Some (cap_net_policy d))) as [->|(o & net & -> & Hnet & Hdef & Hsome)] end.
  { destruct (cap_net_policy d) as [n|]; [destruct (configure (Some n)) as [|e]|].
    - by left.
    - right. by exists (Some e), e.
    - right. by exists None, new_EgressPolicy. }
  { done. }
  rewrite Hdef, Hsome. cbn [has_net_policy net_policy].
  fold (bare_policy d modules rs (bool_decide (is_Some (cap_net_policy d))) net).
  set (count := if v2 then cap_env_count d else 0). set (sources := ztake count _).
  destruct (negb (count =? 0) && _) eqn:Hmod; [done|].
  destruct (compile_env _ _ _ _) as [|entries] eqn:Henv; [done|]. intros [= <-].
  exists modules, rs, net, sources. cbn [env_entries].
  assert (cap_version d = 1 ∨ cap_version d = 2) as Hver by (unfold v1, v2 in Hg; lia).
  assert (count = 0 ∨ cap_version d = 2 ∧ 0 < count <= 256) as Hcnt.
  { unfold count. destruct v2 eqn:Hv2; [|by left]. unfold v2 in Hv2. lia. }
  assert (count = 0 → sources = []) as Hnone by (unfold sources; intros ->; apply ztake_0).
  split; try done.
  - destruct Hver as [Hv|]; [left|by right]. split; [done|]. apply Hnone. lia.
  - split_and!; [lia..|]. unfold sources. destruct Hcnt as [->|[_ Hc]]; [by rewrite ztake_0|].
    pose proof (zlen_ztake_le count (default [] (cap_env_entries d))). lia.
  - intros Hs. apply andb_false_iff in Hmod as [Hz|Hok].
    + exfalso. apply Hs, Hnone. lia.
    + apply negb_false_iff in Hok. by apply bool_decide_eq_true in Hok.
Qed.
Lemma bare_evaluate d modules rs has_net net has_net' net' name :
  evaluate (bare_policy d modules rs has_net net) PERMISSION_ENV name
  = evaluate (bare_policy d modules rs has_net' net') PERMISSION_ENV name.
Proof. done. Qed.

Lemma wire_permission_text r : c_text (prule_resource (wire_permission r)) = c_text (prule_resource r).
Proof. unfold wire_permission. cbn [prule_resource]. case_bool_decide as Hnil; [by rewrite Hnil|apply c_text_idem]. Qed.

Lemma wire_permission_bytes r : permission_bytes (wire_permission r) = permission_bytes r.
Proof. unfold permission_bytes. by rewrite wire_permission_text. Qed.

Lemma capability_wire_ok c p : compiled_capability c p →
  (∀ s, s ∈ match c with Some c => c_text (cap_identity c) :: map c_text (capability_modules c)
              ++ map (λ r, c_text (prule_resource r)) (capability_rules c) | None => [] end → short16 s) →
  egress_ok (egress_wire (match c with Some c => cap_net_policy c | None => None end)) →
  Forall env_wire_ok (map env_of (env_entries p)) →
  capability_ok (capability_wire c (env_entries p)).
Proof.
  intros [Hc Ht] Hshort Hnet Henv. destruct c as [c|]; cbn [capability_wire].
  2:{ injection Hc as <-. by repeat constructor. }
  destruct (Ht c eq_refl) as (Hm & Hr & Hrs & Hcount & _).
  destruct (configure_capability_inv c p Hcount Hc) as (modules & rs & net & sources & [Hv (Hm64 & Hr256 & Hs256) _ _ Hcr _ _ _ Hce]).
  apply compile_permissions_wire in Hcr as [_ Hperm].
  apply (compile_env_wire _ _ _ _ _ _ (λ _, eq_refl)) in Hce as (_ & _ & Hlen).
  split; cbn [wc_version wc_identity wc_modules wc_rules wc_net wc_has_environment wc_env]; [lia| | | |done|].
  - split; [apply Hshort; left|apply c_text_no_nul].
  - rewrite zlen_map. split; [lia|]. apply Forall_map, Forall_forall. intros m Hin. unfold module_wire_ok. rewrite c_text_idem.
    split; [|done]. apply Hshort. right. apply elem_of_app. left. by apply list_elem_of_fmap_2.
  - rewrite zlen_map. split; [lia|]. apply Forall_map, Forall_forall. intros r Hin.
    rewrite Forall_forall in Hrs, Hperm. destruct (Hrs r Hin), (Hperm r Hin) as (? & ? & ?).
    pose proof (wire_permission_text r) as Htext.
    unfold permission_ok. rewrite Htext. cbn [wire_permission prule_action prule_permission prule_id].
    split_and!; try done; try lia.
    + apply Hshort. right. apply elem_of_app. right. by apply (list_elem_of_fmap_2 (λ r, c_text (prule_resource r))).
    + unfold wire_permission at 2. by rewrite Htext.
  - rewrite zlen_map. split_and!; [done|lia|done].
Qed.

Lemma append_capability_bytes out c p out' : compiled_capability c p →
  append_capability out c (env_entries p) = Some out' →
  out' = out ++ capability_bytes (capability_wire c (env_entries p)) ∧ capability_ok (capability_wire c (env_entries p)).
Proof.
  intros Hcomp Happ. destruct Hcomp as [Hc Ht] eqn:Heq. clear Heq. unfold append_capability in Happ.
  destruct (append_string16 _ _) as [o1|] eqn:H1 in Happ; [|done]. apply append_string16_some in H1 as [-> Hid].
  destruct (append_modules _ _) as [o2|] eqn:H2 in Happ; [|done]. apply append_modules_bytes in H2 as [-> Hms].
  destruct (append_permission_rules _ _) as [o3|] eqn:H3 in Happ; [|done]. apply append_permission_bytes in H3 as [-> Hrs].
  destruct (append_egress _ _) as [o4|] eqn:H4 in Happ; [|done].
  assert (∃ net, compiled_egress (match c with Some c => cap_net_policy c | None => None end) net
    ∧ Forall (λ e, contains_nul e.1 = false ∧ contains_nul e.2 = false) (env_entries p) ∧ zlen (env_entries p) <= 256)
    as (net & Hnet & Hnul & Hcount).
  { destruct c as [c|]; [|injection Hc as <-; by exists new_EgressPolicy].
    destruct (Ht c eq_refl) as (_ & _ & _ & Hcnt & Hnet).
    destruct (configure_capability_inv c p Hcnt Hc) as (modules & rs & net & sources & [_ (_ & _ & Hs) _ _ _ Hcn _ _ Hce]).
    exists net. apply (compile_env_wire _ _ _ _ _ _ (λ _, eq_refl)) in Hce as (_ & Hnul & Hlen). split_and!; [by split|done|lia]. }
  apply (append_egress_bytes _ _ _ net) in H4 as [-> Hegress]; [|done].
  apply append_environment_bytes in Happ as [-> Henv]; [|done]. split.
  - autorewrite with wire. rewrite (u16_small (zlen (env_entries p))) by (pose proof (zlen_nonneg (env_entries p)); lia).
    unfold capability_bytes. destruct c as [c|]; cbn [capability_wire wc_version wc_identity wc_modules wc_rules wc_net wc_env];
      rewrite <- !app_assoc, ?zlen_map; [|done].
    destruct (Ht c eq_refl) as (Hm & Hr & _ & Hcnt & _). rewrite Hm, Hr.
    destruct (configure_capability_inv c p Hcnt Hc) as (? & ? & ? & ? & [_ (? & ? & _) _ _ _ _ _ _ _]).
    pose proof (zlen_nonneg (capability_modules c)). pose proof (zlen_nonneg (capability_rules c)).
    rewrite !u16_small by lia. rewrite !map_map. f_equal.
    rewrite (map_ext (λ m, wire16 (c_text (Some (c_text m)))) (λ m, wire16 (c_text m))) by (intros; by rewrite c_text_idem).
    rewrite (map_ext (λ r, permission_bytes (wire_permission r)) permission_bytes); [done|apply wire_permission_bytes].
  - apply capability_wire_ok; [done| |done|done]. intros s Hs. destruct c as [c|]; [|by apply elem_of_nil in Hs].
    apply elem_of_cons in Hs as [->|Hs]; [done|]. apply elem_of_app in Hs as [Hs|Hs].
    + apply list_elem_of_fmap in Hs as (m & -> & Hs). by eapply Forall_forall in Hms.
    + apply list_elem_of_fmap in Hs as (r & -> & Hs). by apply (proj1 (Forall_forall _ _) Hrs r).
Qed.

Lemma take_none_if_nil {A} (l : list A) : ztake (zlen l) (default [] (none_if_nil l)) = l.
Proof. destruct l as [|a l]; [done|]. apply ztake_all. Qed.

Lemma none_if_nil_guard {A} (l : list A) : negb (zlen l =? 0) && bool_decide (none_if_nil l = None) = false.
Proof. destruct l; [done|]. by rewrite bool_decide_eq_false_2, andb_false_r. Qed.

Lemma wire_configures wc modules rs net entries :
  let p := mkCapabilityPolicy true (wc_version wc) (wc_identity wc) modules rs [] true net in
  wc_version wc = 1 ∧ wc_env wc = [] ∨ wc_version wc = 2 → wc_has_environment wc = true →
  zlen (wc_modules wc) <= 64 → zlen (wc_rules wc) <= 256 → zlen (wc_env wc) <= 256 →
  valid_identity (wc_identity wc) = true → contains_nul (wc_identity wc) = false →
  compile_modules (wc_modules wc) ∅ = inr modules → compile_permission_rules (wc_rules wc) ∅ = inr rs →
  configure (Some (wire_descriptor (wc_net wc))) = inr net →
  (wc_env wc ≠ [] → module_decision p (bs "capsid:env") = kModuleGranted) →
  compile_env p (wc_env wc) ∅ 0 = inr entries →
  configure_wire_capability wc
  = inr (mkCapabilityPolicy true (wc_version wc) (wc_identity wc) modules rs entries true net).
Proof.
  intros p Hv Hhas Hm Hr He Hid Hnul Hcm Hcr Hnet Hmod Henv. unfold configure_wire_capability. rewrite Hhas.
  replace (wc_version wc =? 0) with false by lia.
  replace (negb (wc_version wc =? 1) && negb (wc_version wc =? 2)) with false by lia. cbn [negb]. rewrite andb_false_r.
  assert ((wc_version wc =? 1) && negb (bool_decide (wc_env wc = [])) = false) as ->.
  { destruct Hv as [[-> ->]| ->]; [by rewrite bool_decide_eq_true_2|done]. }
  unfold configure_capability, capability_descriptor. cbn [cap_version cap_struct_size cap_identity cap_modules cap_module_count
    cap_rules cap_rule_count cap_net_policy cap_reserved cap_env_entries cap_env_count cap_env_reserved]. cbv zeta.
  rewrite !take_none_if_nil, !none_if_nil_guard. rewrite !ltb_ge_false by lia. rewrite !andb_false_r, Z.eqb_refl. cbn [negb orb].
  rewrite <- andb_assoc, none_if_nil_guard, andb_false_r, !orb_false_r.
  replace (match (if bool_decide (wc_identity wc = []) then None else Some (wc_identity wc)) with
    | Some text => cut_nul text | None => [] end) with (wc_identity wc)
    by (case_bool_decide; [done|symmetry; by apply cut_nul_plain]).
  set (count := if (wc_version wc =? 2) && _ then zlen (wc_env wc) else 0).
  assert (count = zlen (wc_env wc)) as -> by (unfold count; by destruct Hv as [[-> ->]| ->]).
  replace (negb (_ && _) && negb (_ && _)) with false by (by destruct Hv as [[-> _]| ->]).
  rewrite Hid, Hcm, Hcr, Hnet, take_none_if_nil. cbn [negb default has_net_policy net_policy].
  change (bool_decide (is_Some (Some net))) with true. change (id net) with net. fold p.
  assert (negb (zlen (wc_env wc) =? 0) && negb (bool_decide (module_decision p (bs "capsid:env") = kModuleGranted)) = false) as ->.
  { destruct (wc_env wc); [done|]. by rewrite bool_decide_eq_true_2, andb_false_r by auto. }
  by rewrite Henv.
Qed.

Lemma configure_capability_wire c p : compiled_capability c p →
  configure_wire_capability (capability_wire c (env_entries p)) = inr (worker_capability p).
Proof.
  intros [Hc Ht]. destruct c as [c|]; [|by injection Hc as <-].
  destruct (Ht c eq_refl) as (Hm & Hr & _ & Hcnt & Hnet).
  destruct (configure_capability_inv c p Hcnt Hc) as (modules & rs & net & sources & [Hv (Hn1 & Hn2 & Hn3) Hid Hcm Hcr Hcn Hp Hmod Hce]).
  apply compile_modules_wire in Hcm. apply compile_permissions_wire in Hcr as [Hcr _].
  assert (sources = [] → env_entries p = []) as Hnone by (intros ->; by injection Hce).
  apply (compile_env_wire _ (bare_policy c modules rs true net) _ _ _ _ (bare_evaluate c modules rs _ _ _ _))
    in Hce as (Hce & _ & Hlen).
  rewrite (wire_configures _ modules rs net (env_entries p)); cbn [capability_wire wc_version wc_identity wc_modules wc_rules
    wc_net wc_has_environment wc_env]; rewrite ?zlen_map; try done; try lia.
  - rewrite Hp. done.
  - destruct Hv as [[Hv Hs]|Hv]; [left|by right]. by rewrite (Hnone Hs).
  - apply c_text_no_nul.
  - by apply configure_wire_same.
  - intros He. apply Hmod. intros ->. by rewrite Hnone in He.
Qed.
End capability.

(** ** HELLO *)

Definition limit_bytes (c : capsid_worker_config) (descriptors : Z) : bytes :=
  le_bytes 4 CAPSID_ABI_VERSION ++ le_bytes 8 (c_js_heap_limit c) ++ le_bytes 8 (c_process_memory_limit c)
  ++ le_bytes 4 descriptors ++ le_bytes 8 (c_request_timeout_ms c) ++ le_bytes 4 (c_js_stack_size c)
  ++ le_bytes 4 (c_max_inflight c) ++ le_bytes 4 (c_initial_window c) ++ le_bytes 4 (c_max_header c)
  ++ le_bytes 4 (c_max_queued c) ++ [to_u8 (c_strict c)].

Definition control_bytes (c : capsid_worker_config) (preinstalled : Z) : bytes :=
  le_bytes 4 (c_required_features c) ++ le_bytes 4 preinstalled ++ wire16 (c_text (c_ca_path c))
  ++ le_bytes 8 (c_max_fetch_request c) ++ le_bytes 8 (c_max_fetch_response c).

Definition tail_bytes (limits : WorkerLimits) : bytes :=
  if w_version limits =? kVersionV4 then le_bytes 4 (w_capabilities limits) ++ le_bytes 4 0 else [].

Definition egress_flag (c : capsid_worker_config) : byte := to_u8 (match c_egress c with Some _ => 1 | None => 0 end).

(** The scalar fields have the values of their C types. *)
Record scalars_typed (c : capsid_worker_config) (descriptors : Z) : Prop := {
  st_64 : Forall (λ v, 0 <= v < 2 ^ 64) [c_js_heap_limit c; c_process_memory_limit c; c_request_timeout_ms c;
                                         c_max_fetch_request c; c_max_fetch_response c];
  st_32 : Forall (λ v, 0 <= v < 2 ^ 32) [descriptors; c_js_stack_size c; c_max_inflight c; c_max_header c; c_max_queued c;
                                         c_initial_window c; c_required_features c];
  st_strict : 0 <= c_strict c <= 1
}.

Definition hello_limits (c : capsid_worker_config) (descriptors : Z) : HelloLimits :=
  mkHelloLimits (c_js_heap_limit c) (c_process_memory_limit c) descriptors (c_request_timeout_ms c) (c_js_stack_size c)
    (c_max_inflight c) (c_initial_window c) (c_max_header c) (c_max_queued c) (c_strict c).

Lemma read_hello_limits_reads c descriptors rest : scalars_typed c descriptors →
  read_hello_limits (limit_bytes c descriptors ++ rest) = Some (hello_limits c descriptors, rest).
Proof.
  intros [H64 H32 Hs]. repeat match goal with H : Forall _ _ |- _ => apply Forall_cons in H as [? H] end.
  unfold read_hello_limits, limit_bytes. rewrite <- !app_assoc.
  rewrite read_u32_le, Z.eqb_refl by done. cbn [negb]. rewrite !read_u64_le by done.
  rewrite read_u32_le, read_u64_le, !read_u32_le by done. cbn [app]. rewrite u8_to_u8, Z.mod_small by lia. done.
Qed.

Lemma read_hello_controls_reads c descriptors preinstalled rest : scalars_typed c descriptors → 0 <= preinstalled < 2 ^ 32 →
  zlen (c_text (c_ca_path c)) <= 4096 → 27 <= zlen rest →
  read_hello_controls (control_bytes c preinstalled ++ rest)
  = inr ((c_required_features c, preinstalled, c_text (c_ca_path c), c_max_fetch_request c, c_max_fetch_response c), rest).
Proof.
  intros [H64 H32 Hs] Hpre Hca Hrest. repeat match goal with H : Forall _ _ |- _ => apply Forall_cons in H as [? H] end.
  pose proof (zlen_nonneg (c_text (c_ca_path c))).
  unfold read_hello_controls, control_bytes. rewrite <- !app_assoc. rewrite !read_u32_le by done.
  unfold wire16. rewrite <- app_assoc, read_u16_le by lia. rewrite ltb_ge_false by lia.
  rewrite ltb_ge_false by (rewrite !zlen_app, !zlen_le_bytes; lia). cbn [orb].
  rewrite ztake_app, zdrop_app, c_text_no_nul by done. by rewrite !read_u64_le.
Qed.

Lemma read_hello_tail_reads limits : 0 <= w_capabilities limits < 2 ^ 32 → protocol_refused limits = false →
  read_hello_tail (w_version limits) (tail_bytes limits)
  = inr (if w_version limits =? kVersionV4 then w_capabilities limits else 0, []).
Proof.
  intros Hc Hr. unfold read_hello_tail, tail_bytes, protocol_refused in *. destruct (w_version limits =? kVersionV4); [|done].
  rewrite <- (app_nil_r (le_bytes 4 0)), !read_u32_le by done. apply orb_false_iff in Hr as [_ Hr]. by rewrite Hr.
Qed.

Section hello_payload.
Context `{InetPton}.

Lemma read_hello_egress_reads c e rest : compiled_egress (c_egress c) e → egress_ok (egress_wire (c_egress c)) →
  read_hello_egress (egress_bytes (egress_wire (c_egress c)) ++ [egress_flag c] ++ rest)
  = inr ((e, bool_decide (is_Some (c_egress c))), rest).
Proof.
  intros He Hok. unfold read_hello_egress. rewrite decode_wire_egress_reads by done. cbn [app].
  unfold configure_wire_egress. rewrite (configure_wire_same _ _ He).
  unfold egress_flag. destruct (c_egress c); done.
Qed.

(** The payload up to the tail of version 4. *)
Definition hello_front (c : capsid_worker_config) (p : CapabilityPolicy) (descriptors preinstalled : Z) : bytes :=
  limit_bytes c descriptors ++ control_bytes c preinstalled ++ egress_bytes (egress_wire (c_egress c))
  ++ [egress_flag c] ++ capability_bytes (capability_wire (c_capability c) (env_entries p)).

Lemma hello_payload_bytes w c p descriptors preinstalled payload e :
  compiled_egress (c_egress c) e → compiled_capability (c_capability c) p →
  hello_payload w c p descriptors preinstalled = Some payload →
  payload = hello_front c p descriptors preinstalled ++ tail_bytes (w_limits w)
  ∧ egress_ok (egress_wire (c_egress c)) ∧ capability_ok (capability_wire (c_capability c) (env_entries p)).
Proof.
  intros He Hp. unfold hello_payload. destruct (append_string16 _ _) as [o1|] eqn:H1; [|done].
  apply append_string16_some in H1 as [-> _]. destruct (append_egress _ _) as [o2|] eqn:H2; [|done].
  apply (append_egress_bytes _ _ _ e) in H2 as [-> Heok]; [|done].
  destruct (append_capability _ _ _) as [o3|] eqn:H3; [|done]. apply append_capability_bytes in H3 as [-> Hcok]; [|done].
  intros Heq. apply (inj Some) in Heq. subst payload. split; [|done]. unfold hello_fixed, hello_front, limit_bytes, control_bytes, tail_bytes, egress_flag.
  destruct (_ =? kVersionV4); autorewrite with wire; rewrite <- ?app_assoc, ?app_nil_r; done.
Qed.

Lemma zlen_egress_bytes wire : 8 <= zlen (egress_bytes wire).
Proof. unfold egress_bytes. rewrite !zlen_app, !zlen_le_bytes. zlen_pose. lia. Qed.

Lemma zlen_capability_bytes wc : 20 <= zlen (capability_bytes wc).
Proof.
  pose proof (zlen_egress_bytes (wc_net wc)). unfold capability_bytes.
  rewrite !zlen_app, !zlen_le_bytes, zlen_wire16. zlen_pose. lia.
Qed.

Lemma zlen_hello_front c p descriptors preinstalled : 108 <= zlen (hello_front c p descriptors preinstalled).
Proof.
  pose proof (zlen_egress_bytes (egress_wire (c_egress c))).
  pose proof (zlen_capability_bytes (capability_wire (c_capability c) (env_entries p))).
  unfold hello_front, limit_bytes, control_bytes. rewrite !zlen_app, !zlen_le_bytes, zlen_wire16, !zlen_cons. zlen_pose. lia.
Qed.

Lemma hello_tail_valid front limits : 108 <= zlen front → w_version limits = kVersionV4 → 0 <= w_capabilities limits < 2 ^ 32 →
  protocol_refused limits = false → valid_hello_v4_payload (front ++ tail_bytes limits) = true.
Proof.
  intros Hf Hv Hc Hr. unfold valid_hello_v4_payload, tail_bytes. rewrite Hv, Z.eqb_refl, !zlen_app, !zlen_le_bytes.
  unfold kHelloFixedPayloadSize, kHelloV4TailSize. rewrite ltb_ge_false by lia. rewrite zdrop_app by lia.
  rewrite <- (app_nil_r (le_bytes 4 0)), !read_u32_le by done. apply orb_false_iff in Hr as [_ Hr].
  apply negb_false_iff in Hr. by rewrite Hr.
Qed.
End hello_payload.

(** *** The sandbox features *)

Lemma flags_within_lor a b mask : flags_within a mask = true → flags_within b mask = true →
  flags_within (Z.lor a b) mask = true.
Proof. unfold flags_within. rewrite !Z.eqb_eq, Z.land_lor_distr_l. by intros -> ->. Qed.

Lemma flags_within_member a b : flags_within b (Z.lor a b) = true.
Proof.
  unfold flags_within, u32. rewrite <- Z.land_ones by lia. apply Z.eqb_eq, Z.bits_inj'. intros n Hn.
  rewrite !Z.land_spec, Z.lnot_spec, Z.lor_spec, Z.bits_0 by done. by destruct (Z.testbit a n), (Z.testbit b n).
Qed.

Lemma lor_has a b : Z.land (Z.lor a b) b = b.
Proof.
  apply Z.bits_inj'. intros n Hn. rewrite Z.land_spec, Z.lor_spec. by destruct (Z.testbit b n), (Z.testbit a n).
Qed.

Lemma lor_keeps a b mask : Z.land a mask = mask → Z.land (Z.lor a b) mask = mask.
Proof.
  intros Ha. apply Z.bits_inj'. intros n Hn. apply (f_equal (λ z, Z.testbit z n)) in Ha. revert Ha.
  rewrite !Z.land_spec, Z.lor_spec. by destruct (Z.testbit a n), (Z.testbit b n), (Z.testbit mask n).
Qed.

Lemma lor_u32 a b : 0 <= a < 2 ^ 32 → 0 <= b < 2 ^ 32 → 0 <= Z.lor a b < 2 ^ 32.
Proof.
  intros Ha Hb. assert (0 <= Z.lor a b) as Hpos by (apply Z.lor_nonneg; lia). split; [done|].
  destruct (decide (Z.lor a b = 0)) as [->|Hne]; [lia|]. apply Z.log2_lt_pow2; [lia|]. rewrite Z.log2_lor by lia.
  apply Z.max_lub_lt; destruct (decide (a = 0)) as [->|], (decide (b = 0)) as [->|]; try done; apply Z.log2_lt_pow2; lia.
Qed.

Lemma required_features_spec c is_net rl features :
  0 <= c_required_features c < 2 ^ 32 →
  flags_within (c_required_features c) SANDBOX_FEATURE_ALL = true →
  (c_strict c = 0 → c_required_features c = 0) → required_features c is_net rl = Some features →
  let cgroup := negb (bool_decide (c_text (c_cgroup_path c) = [])) in
  0 <= features < 2 ^ 32 ∧ flags_within features SANDBOX_FEATURE_ALL = true
  ∧ (c_strict c = 0 → features = 0 ∧ cgroup = false)
  ∧ (c_strict c ≠ 0 → Z.land features SANDBOX_FEATURE_STRICT_BASE = SANDBOX_FEATURE_STRICT_BASE)
  ∧ (cgroup = true → flags_within SANDBOX_FEATURE_CGROUP_V2 features = true).
Proof.
  intros Hrange Hall Hzero. unfold required_features. set (cgroup := negb (bool_decide _)). cbv zeta.
  match goal with |- match ?m with _ => _ end = _ → _ => destruct m as [f|] eqn:Hns; [|done] end.
  assert (0 <= f < 2 ^ 32 ∧ flags_within f SANDBOX_FEATURE_ALL = true ∧ (c_strict c = 0 → f = 0)) as (Hfr & Hf & Hf0).
  { destruct (0 <=? c_namespace_fd c).
    - destruct (c_strict c =? 0) eqn:Hs; [done|]. destruct is_net; [|done]. injection Hns as <-.
      split; [by apply lor_u32|]. split; [by apply flags_within_lor|lia].
    - destruct (flag_set _ _); [done|]. by injection Hns as <-. }
  clear Hns. destruct (c_strict c =? 0) eqn:Hs; cbn [negb andb orb].
  - destruct cgroup; [done|]. cbn [andb]. case_match; [done|]. intros [= <-]. split; [done|]. split_and!; [done| |lia|done].
    intros. split; [apply Hf0|]; lia.
  - rewrite andb_false_r. case_match; [done|]. intros [= <-].
    assert (flags_within (Z.lor f SANDBOX_FEATURE_STRICT_BASE) SANDBOX_FEATURE_ALL = true) by by apply flags_within_lor.
    assert (0 <= Z.lor f SANDBOX_FEATURE_STRICT_BASE < 2 ^ 32) by by apply lor_u32.
    destruct cgroup; (split; [|split_and!; [|lia|intros _|]]); try done.
    + by apply lor_u32.
    + by apply flags_within_lor.
    + apply lor_keeps, lor_has.
    + intros _. apply flags_within_member.
    + apply lor_has.
Qed.

(** *** The plan *)

(** A configuration as a C caller can pass it. *)
Record config_typed (c : capsid_worker_config) : Prop := {
  ct_64 : Forall (λ v, 0 <= v < 2 ^ 64) [c_js_heap_limit c; c_process_memory_limit c; c_request_timeout_ms c;
                                         c_max_fetch_request c; c_max_fetch_response c];
  ct_32 : Forall (λ v, 0 <= v < 2 ^ 32) [c_js_stack_size c; c_max_inflight c; c_max_header c; c_max_queued c;
                                         c_initial_window c; c_required_features c; c_protocol_capabilities c];
  ct_strict : 0 <= c_strict c < 2 ^ 8;
  ct_limits rl : c_resource_limits c = Some rl → 0 <= file_descriptors rl < 2 ^ 32;
  ct_egress p : c_egress c = Some p → policy_typed p;
  ct_capability p : c_capability c = Some p → capability_typed p
}.

(** What the worker is to start with. *)
Definition expected_config (plan : SpawnPlan) : WorkerStartupConfig :=
  let c := plan_config plan in
  let limits := plan_worker_limits plan in
  mkStartupConfig (w_version limits) (if w_version limits =? kVersionV4 then w_capabilities limits else 0)
    (c_js_stack_size c) (c_max_inflight c) (c_initial_window c) (c_max_header c) (c_max_queued c) (plan_descriptors plan)
    (c_request_timeout_ms c) (negb (c_strict c =? 0)) (c_required_features c) (preinstalled_features plan)
    (c_js_heap_limit c) (c_process_memory_limit c) (c_max_fetch_request c) (c_max_fetch_response c) (c_text (c_ca_path c))
    (bool_decide (is_Some (c_egress c))) (plan_egress plan) (worker_capability (plan_capability plan)).

Section plan.
Context `{InetPton}.

Record plan_ok (plan : SpawnPlan) : Prop := {
  po_typed : scalars_typed (plan_config plan) (plan_descriptors plan);
  po_capabilities : 0 <= w_capabilities (plan_worker_limits plan) < 2 ^ 32;
  po_egress : compiled_egress (c_egress (plan_config plan)) (plan_egress plan);
  po_capability : compiled_capability (c_capability (plan_config plan)) (plan_capability plan);
  po_ca : zlen (c_text (c_ca_path (plan_config plan))) <= 4096;
  po_queue : c_max_queued (plan_config plan) <= kMaxBufferedBytes;
  po_valid size : kHeaderSize + size <= c_max_queued (plan_config plan) →
    hello_valid size (hello_limits (plan_config plan) (plan_descriptors plan)) (c_required_features (plan_config plan))
      (preinstalled_features plan) (c_max_fetch_request (plan_config plan)) (c_max_fetch_response (plan_config plan)) = true
}.

Lemma default_of_range value fallback bound : 0 <= value < bound → 0 < fallback < bound →
  0 < default_of value fallback < bound.
Proof. unfold default_of. destruct (value =? 0) eqn:?; lia. Qed.

(** What the validation of [capsid_worker_spawn] establishes. *)
Record config_valid (c : capsid_worker_config) : Prop := {
  cv_heap : c_js_heap_limit c <= 2 ^ 31 - 1;
  cv_memory : c_process_memory_limit c = 0 ∨ c_js_heap_limit c <= c_process_memory_limit c;
  cv_header : 8 <= c_max_header c <= kMaxPayloadSize;
  cv_queue : kHeaderSize + kHelloFixedPayloadSize <= c_max_queued c <= kMaxBufferedBytes;
  cv_ca : zlen (c_text (c_ca_path c)) <= 4096;
  cv_fetch : c_max_fetch_request c <= 9007199254740991 ∧ c_max_fetch_response c <= 9007199254740991;
  cv_strict : c_strict c <= 1;
  cv_features : flags_within (c_required_features c) SANDBOX_FEATURE_ALL = true;
  cv_relaxed : c_strict c = 0 → c_required_features c = 0
}.

Lemma config_invalid_false c es cs : config_invalid c es cs = false → config_valid c.
Proof.
  unfold config_invalid. cbv zeta. intros Hbad. repeat (apply orb_false_iff in Hbad as [Hbad ?]).
  split; try lia. by apply negb_false_iff.
Qed.

Lemma with_defaults_typed input : config_typed input →
  let c := with_defaults input in
  0 < c_js_heap_limit c < 2 ^ 64 ∧ 0 < c_request_timeout_ms c < 2 ^ 64 ∧ 0 < c_js_stack_size c < 2 ^ 32
  ∧ 0 < c_max_inflight c < 2 ^ 32 ∧ 0 < c_max_header c < 2 ^ 32 ∧ 0 < c_max_queued c < 2 ^ 32
  ∧ 0 < c_initial_window c < 2 ^ 32.
Proof.
  intros [H64 H32 _ _ _ _]. repeat match goal with H : Forall _ _ |- _ => apply Forall_cons in H as [? H] end.
  cbn zeta. split_and?; cbn [with_defaults c_js_heap_limit c_request_timeout_ms c_js_stack_size c_max_inflight c_max_header
    c_max_queued c_initial_window]; pose proof default_of_range as Hd; repeat split; by eapply Hd.
Qed.

Lemma limits_descriptors rl : (0 <= file_descriptors rl < 2 ^ 32) →
  let descriptors := if flag_set (enabled_fields rl) RESOURCE_LIMIT_FILE_DESCRIPTORS then file_descriptors rl else 64 in
  limits_invalid rl descriptors = false → 4 <= descriptors < 2 ^ 32.
Proof. intros Hr. cbv zeta. unfold limits_invalid. intros Hbad.
  repeat (apply orb_false_iff in Hbad as [Hbad ?]). destruct (flag_set _ RESOURCE_LIMIT_FILE_DESCRIPTORS); lia.
Qed.

Lemma hello_valid_ok c features descriptors (cgroup : bool) size : config_valid c →
  0 < c_request_timeout_ms c → 0 < c_js_stack_size c → 0 < c_max_inflight c → 0 < c_initial_window c → 0 <= c_strict c →
  4 <= descriptors →
  flags_within features SANDBOX_FEATURE_ALL = true → (c_strict c = 0 → features = 0 ∧ cgroup = false) →
  (c_strict c ≠ 0 → Z.land features SANDBOX_FEATURE_STRICT_BASE = SANDBOX_FEATURE_STRICT_BASE) →
  (cgroup = true → flags_within SANDBOX_FEATURE_CGROUP_V2 features = true) → kHeaderSize + size <= c_max_queued c →
  hello_valid size (hello_limits c descriptors) features (if cgroup then SANDBOX_FEATURE_CGROUP_V2 else 0)
    (c_max_fetch_request c) (c_max_fetch_response c) = true.
Proof.
  intros [Hheap Hmem Hheader Hqueue Hca Hfetch Hstrict Hall Hrelaxed] Ht Hst Hi Hw Hs Hd Hfall Hf0 Hfs Hfc Hsize.
  unfold hello_valid, hello_limits, kMaxBufferedBytes, kMaxPayloadSize, kHeaderSize, kHelloFixedPayloadSize,
    kHelloLegacyFixedPayloadSize in *.
  cbn [h_js_heap_limit h_process_memory_limit h_file_descriptor_limit h_timeout_ms h_js_stack_size h_max_inflight
    h_initial_window h_max_header_bytes h_max_queued_bytes h_strict].
  rewrite u64_small by lia. rewrite Hfall. 
  assert (flags_within (if cgroup then SANDBOX_FEATURE_CGROUP_V2 else 0) SANDBOX_FEATURE_CGROUP_V2 = true) as -> by (by destruct cgroup).
  assert (flags_within (if cgroup then SANDBOX_FEATURE_CGROUP_V2 else 0) features = true) as ->.
  { destruct cgroup; [by apply Hfc|done]. }
  destruct (c_strict c =? 0) eqn:Hz.
  - destruct Hf0 as [-> ->]; [lia|]. cbn [negb orb]. lia.
  - rewrite Hfs by lia. cbn [negb orb]. lia.
Qed.

Lemma spawn_plan_ok input is_net plan : config_typed input → spawn_plan input is_net = Some plan → plan_ok plan.
Proof.
  intros [H64 H32 Hs Hrl He Hc]. unfold spawn_plan. destruct ((_ <? sizeof_worker_config) || _); [done|].
  destruct (configure (c_egress input)) as [|e] eqn:Hce; [done|].
  destruct (configure_capability (c_capability input)) as [|p] eqn:Hcp; [done|].
  destruct (egress_payload_size _) as [es|]; [|done]. destruct (capability_payload_size _ _) as [cs|]; [|done].
  set (rl := default capsid_resource_limits_init (c_resource_limits input)). destruct (negb (rl_struct_size rl =? _)); [done|].
  cbv zeta. set (descriptors := if flag_set _ _ then _ else _).
  destruct (config_invalid _ _ _ || limits_invalid _ _) eqn:Hbad; [done|]. apply orb_false_iff in Hbad as [Hbad Hlim].
  destruct (required_features _ _ _) as [features|] eqn:Hf; [|done]. intros [= <-].
  apply config_invalid_false in Hbad as Hvalid. pose proof Hvalid as [Hheap Hmem Hheader Hqueue Hca Hfetch Hstrict Hall Hrelaxed].
  destruct (with_defaults_typed input) as (Hh & Ht & Hst & Hi & Hhd & Hq & Hw); [by split|].
  assert (0 <= file_descriptors rl < 2 ^ 32) as Hfd.
  { unfold rl. destruct (c_resource_limits input) as [r|] eqn:Hr; [by apply Hrl|done]. }
  pose proof (limits_descriptors rl Hfd Hlim) as Hd. fold descriptors in Hd.
  repeat match goal with H : Forall _ _ |- _ => apply Forall_cons in H as [? H] end.
  destruct (required_features_spec (with_defaults input) is_net rl features) as (Hfr & Hfall & Hf0 & Hfs & Hfc); [done..|].
  set (c := with_defaults input) in *.
  split; cbn [plan_config plan_descriptors plan_egress plan_capability].
  - split; cbn [with_features c_js_heap_limit c_process_memory_limit c_request_timeout_ms c_max_fetch_request
      c_max_fetch_response c_js_stack_size c_max_inflight c_max_header c_max_queued c_initial_window c_required_features c_strict].
    + repeat (apply Forall_cons; split; [first [lia|done]|]). constructor.
    + repeat (apply Forall_cons; split; [first [lia|done]|]). constructor.
    + change (c_strict input) with (c_strict c) in Hs. lia.
  - cbn. unfold config_protocol_capabilities. case_match; done.
  - by split.
  - by split.
  - exact Hca.
  - apply Hqueue.
  - intros size Hsize.
    exact (hello_valid_ok c features descriptors _ size Hvalid ltac:(lia) ltac:(lia) ltac:(lia) ltac:(lia) (proj1 Hs)
      ltac:(lia) Hfall Hf0 Hfs Hfc Hsize).
Qed.
Lemma preinstalled_range plan : 0 <= preinstalled_features plan < 2 ^ 32.
Proof. unfold preinstalled_features. by destruct (plan_cgroup plan). Qed.

Lemma hello_decodes plan fd pid payload : plan_ok plan → protocol_refused (plan_worker_limits plan) = false →
  hello_payload (started_worker plan fd pid) (plan_config plan) (plan_capability plan) (plan_descriptors plan)
    (preinstalled_features plan) = Some payload →
  kHeaderSize + zlen payload <= c_max_queued (plan_config plan) → zlen payload <= kMaxPayloadSize →
  decode_hello (mkFrame kHello 0 0 (w_version (plan_worker_limits plan)) payload) = inr (expected_config plan).
Proof.
  intros [Ht Hcaps He Hc Hca Hqueue Hvalid] Hr Hpay Hfit Hmax. pose proof (preinstalled_range plan) as Hpre.
  destruct (hello_payload_bytes _ _ _ _ _ _ _ He Hc Hpay) as (Hbytes & Heok & Hcok).
  cbn [started_worker w_limits] in Hbytes.
  unfold decode_hello. cbn [ftype fversion fflags frequest_id fpayload].
  pose proof (zlen_hello_front (plan_config plan) (plan_capability plan) (plan_descriptors plan) (preinstalled_features plan)).
  pose proof (zlen_capability_bytes (capability_wire (c_capability (plan_config plan)) (env_entries (plan_capability plan)))).
  pose proof (zlen_egress_bytes (egress_wire (c_egress (plan_config plan)))).
  pose proof (zlen_nonneg (tail_bytes (plan_worker_limits plan))).
  assert (106 <= zlen payload) as Hmin by (rewrite Hbytes, zlen_app; lia).
  assert (negb (w_version (plan_worker_limits plan) =? kVersion) && negb (w_version (plan_worker_limits plan) =? kVersionV4) = false)
    as -> by (by apply orb_false_iff in Hr as [Hr _]).
  rewrite !ltb_ge_false by (done || (unfold kHelloLegacyFixedPayloadSize; lia)).
  rewrite Z.eqb_refl. cbn [negb orb Z.eqb]. rewrite Hbytes at 1. unfold hello_front.
  rewrite <- !app_assoc, read_hello_limits_reads by done.
  rewrite (read_hello_controls_reads _ _ _ _ Ht Hpre Hca) by (rewrite !zlen_app, zlen_cons, zlen_nil; lia). cbn [bind_error].
  rewrite (read_hello_egress_reads _ _ _ He Heok). cbn [bind_error]. unfold decode_wire_capability.
  rewrite read_wire_capability_reads by done. cbn [bind_error]. rewrite (configure_capability_wire _ _ Hc). cbn [bind_error].
  rewrite read_hello_tail_reads by done. cbn [bind_error]. rewrite bool_decide_eq_true_2 by done. rewrite (Hvalid _ Hfit). cbn [negb].
  assert ((if w_version (plan_worker_limits plan) =? kVersionV4 then kVersionV4 else 3) = w_version (plan_worker_limits plan)) as ->;
    [|done].
  apply orb_false_iff in Hr as [Hr _]. change 3 with kVersion.
  destruct (w_version (plan_worker_limits plan) =? kVersionV4) eqn:?; lia.
Qed.
End plan.

(** ** Chunked messages *)

Section chunks.
Context `{InetPton} (limit v : Z).
Context (limit_pos : 0 < limit).
Implicit Types (s : WorkerStartupState) (data : bytes).

Definition binding_chunks fuel first data : list Frame :=
  chunk_frames limit fuel v kLoadBinding 0 (chunk_flags true true 0) first data.

(** The worker between two chunks of a binding. *)
Definition awaits_binding (first : bool) (s : WorkerStartupState) : Prop :=
  hello_received s = true ∧ bundle_started s = false ∧ binding_inflight s = negb first
  ∧ max_queued_bytes (config s) <= kMaxBufferedBytes.

Lemma fits limit' size more : limit' <= kMaxBufferedBytes → 0 <= size → 0 <= more → size + more <= limit' →
  (limit' <? size) || (u64 (limit' - size) <? more) = false.
Proof. unfold kMaxBufferedBytes. intros. rewrite u64_small, !ltb_ge_false by lia. done. Qed.

Lemma consume_binding_chunk s first last chunk : awaits_binding first s →
  zlen (binding_blob s) + zlen chunk <= max_queued_bytes (config s) →
  consume s (mkFrame kLoadBinding (chunk_flags true true 0 first last) 0 v chunk)
  = if last then
      match parse_binding_blob (binding_blob s ++ chunk) with
      | inl error => (Some error, with_binding s (bindings s) [] false)
      | inr d => (None, with_binding s (bindings s ++ [d]) [] false)
      end
    else (None, with_binding s (bindings s) (binding_blob s ++ chunk) true).
Proof.
  intros (Hh & Hs & Hi & Hmax) Hfit. unfold consume. rewrite Hh. cbn [negb ftype]. rewrite Z.eqb_refl.
  unfold consume_load_binding. cbn [frequest_id fflags fpayload]. rewrite Hs, Hi.
  rewrite (fits _ _ _ Hmax) by (done || apply zlen_nonneg). by destruct first, last.
Qed.

Lemma consume_binding_chunks fuel s first data d : chunk_fuel limit fuel data → awaits_binding first s →
  zlen (binding_blob s) + zlen data <= max_queued_bytes (config s) →
  parse_binding_blob (binding_blob s ++ data) = inr d →
  consume_all s (binding_chunks fuel first data) = (None, with_binding s (bindings s ++ [d]) [] false).
Proof.
  revert s first data. induction fuel as [|fuel IH]; intros s first data Hf Hs Hfit Hd; [destruct Hf; lia|].
  unfold binding_chunks. cbn [chunk_frames consume_all]. pose proof (zlen_nonneg data). pose proof (zlen_ztake_le limit data ltac:(lia)).
  pose proof (ztake_zdrop limit data) as Hsplit. pose proof (f_equal zlen Hsplit) as Hlen. rewrite zlen_app in Hlen.
  pose proof (zlen_nonneg (zdrop limit data)).
  rewrite consume_binding_chunk by (done || lia). case_bool_decide as Hr.
  - rewrite Hr, app_nil_r in Hsplit. rewrite Hsplit, Hd. done.
  - fold (binding_chunks fuel false (zdrop limit data)). destruct Hs as (Hh & Hb & Hi & Hmax).
    rewrite IH; cbn [with_binding binding_blob config bindings].
    + done.
    + apply chunk_fuel_step; [done|done|]. by apply zdrop_rest.
    + done.
    + rewrite zlen_app. lia.
    + by rewrite <- app_assoc, Hsplit.
Qed.
Definition bundle_chunks fuel ff first data : list Frame :=
  chunk_frames limit fuel v kLoadBundle 0 (chunk_flags true true ff) first data.

(** The flags of the three ways to load code. *)
Definition code_flags (ff : Z) : Prop := ff = 0 ∨ ff = kFlagBundleName ∨ ff = Z.lor kFlagBundleName kFlagTrustedBytecode.

(** The worker between two chunks of a bundle. *)
Definition awaits_bundle (first : bool) (s : WorkerStartupState) : Prop :=
  hello_received s = true ∧ bundle_started s = negb first ∧ bundle_complete s = false ∧ binding_inflight s = false
  ∧ max_queued_bytes (config s) <= kMaxBufferedBytes.

Definition with_code (s : WorkerStartupState) (complete trusted : bool) (code name : bytes) : WorkerStartupState :=
  mkStartupState (config s) (hello_received s) true complete trusted code name (bindings s) (binding_blob s) (binding_inflight s).

Lemma chunk_flags_facts ff first last : code_flags ff →
  let flags := chunk_flags true true ff first last in
  flag_set flags kFlagStart = first ∧ flag_set flags kFlagEnd = last
  ∧ flag_set flags kFlagBundleName = first && negb (bool_decide (ff = 0))
  ∧ flag_set flags kFlagTrustedBytecode = first && bool_decide (ff = Z.lor kFlagBundleName kFlagTrustedBytecode)
  ∧ flags_within flags (Z.lor (Z.lor (Z.lor kFlagStart kFlagEnd) kFlagBundleName) kFlagTrustedBytecode) = true.
Proof. intros [->|[->| ->]]; destruct first, last; vm_compute; by repeat split. Qed.

(** The first chunk carries the name. *)
Lemma consume_first_chunk s ff last chunk name rest : code_flags ff → awaits_bundle true s → bundle s = [] →
  (if bool_decide (ff = 0) then name = bundle_name s ∧ chunk = rest else read_bundle_name chunk = inr (name, rest)) →
  zlen rest <= max_queued_bytes (config s) →
  consume s (mkFrame kLoadBundle (chunk_flags true true ff true last) 0 v chunk)
  = (None, with_code s last (bool_decide (ff = Z.lor kFlagBundleName kFlagTrustedBytecode)) rest name).
Proof.
  intros Hff (Hh & Hs & Hc & Hi & Hmax) Hb Hname Hfit.
  destruct (chunk_flags_facts ff true last Hff) as (F1 & F2 & F3 & F4 & F5).
  unfold consume. rewrite Hh. cbn [negb ftype]. change (?a =? kLoadBinding) with false. cbn iota.
  unfold consume_bundle. cbn [ftype frequest_id fflags fpayload]. rewrite F1, F2, F3, F4, F5, Hs, Hc, Hi, Hb.
  rewrite Z.eqb_refl. cbn [negb andb orb Z.eqb]. rewrite !andb_false_r. cbn [orb].
  assert ((if negb (bool_decide (ff = 0)) then read_bundle_name chunk else inr (bundle_name s, chunk)) = inr (name, rest)) as ->.
  { destruct (bool_decide (ff = 0)); [by destruct Hname as [-> ->]|done]. }
  cbn [bind_error]. rewrite (fits _ (zlen []) (zlen rest) Hmax) by (apply zlen_nonneg || (change (zlen (@nil byte)) with 0; lia)).
  unfold with_code. by rewrite Hh, Hi, orb_false_r.
Qed.

Lemma consume_later_chunk s last ff chunk : code_flags ff → awaits_bundle false s →
  zlen (bundle s) + zlen chunk <= max_queued_bytes (config s) →
  consume s (mkFrame kLoadBundle (chunk_flags true true ff false last) 0 v chunk)
  = (None, with_code s last (bundle_is_trusted_bytecode s) (bundle s ++ chunk) (bundle_name s)).
Proof.
  intros Hff (Hh & Hs & Hc & Hi & Hmax) Hfit.
  destruct (chunk_flags_facts ff false last Hff) as (F1 & F2 & F3 & F4 & F5).
  unfold consume. rewrite Hh. cbn [negb ftype]. change (?a =? kLoadBinding) with false. cbn iota.
  unfold consume_bundle. cbn [ftype frequest_id fflags fpayload]. rewrite F1, F2, F3, F4, F5, Hs, Hc, Hi.
  rewrite Z.eqb_refl. cbn [negb andb orb Z.eqb bind_error]. rewrite (fits _ _ _ Hmax) by (done || apply zlen_nonneg).
  unfold with_code. by rewrite Hh, Hi, orb_false_r.
Qed.

Lemma consume_later_chunks fuel s ff data : code_flags ff → chunk_fuel limit fuel data → awaits_bundle false s →
  zlen (bundle s) + zlen data <= max_queued_bytes (config s) →
  consume_all s (bundle_chunks fuel ff false data)
  = (None, with_code s true (bundle_is_trusted_bytecode s) (bundle s ++ data) (bundle_name s)).
Proof.
  intros Hff. revert s data. induction fuel as [|fuel IH]; intros s data Hf Hs Hfit; [destruct Hf; lia|].
  unfold bundle_chunks. cbn [chunk_frames consume_all]. pose proof (zlen_nonneg data). pose proof (zlen_ztake_le limit data ltac:(lia)).
  pose proof (ztake_zdrop limit data) as Hsplit. pose proof (f_equal zlen Hsplit) as Hlen. rewrite zlen_app in Hlen.
  pose proof (zlen_nonneg (zdrop limit data)).
  rewrite consume_later_chunk by (done || lia). case_bool_decide as Hr.
  - rewrite Hr, app_nil_r in Hsplit. by rewrite Hsplit.
  - fold (bundle_chunks fuel ff false (zdrop limit data)). destruct Hs as (Hh & Hb & Hc & Hi & Hmax).
    rewrite IH; cbn [with_code bundle config bundle_is_trusted_bytecode bundle_name].
    + unfold with_code. cbn [hello_received config bindings binding_blob binding_inflight]. by rewrite <- app_assoc, Hsplit.
    + apply chunk_fuel_step; [done|done|]. by apply zdrop_rest.
    + done.
    + rewrite zlen_app. lia.
Qed.

(** [prefix] is the encoded name, empty for code without one; it fits a chunk. *)
Lemma consume_bundle_chunks fuel s ff prefix code name : code_flags ff → chunk_fuel limit fuel (prefix ++ code) →
  awaits_bundle true s → bundle s = [] → zlen prefix <= limit →
  (if bool_decide (ff = 0) then name = bundle_name s ∧ prefix = []
   else ∀ rest, read_bundle_name (prefix ++ rest) = inr (name, rest)) →
  zlen code <= max_queued_bytes (config s) →
  consume_all s (bundle_chunks fuel ff true (prefix ++ code))
  = (None, with_code s true (bool_decide (ff = Z.lor kFlagBundleName kFlagTrustedBytecode)) code name).
Proof.
  intros Hff Hf Hs Hb Hpre Hname Hfit. destruct fuel as [|fuel]; [destruct Hf; lia|].
  unfold bundle_chunks. cbn [chunk_frames consume_all].
  pose proof (zlen_nonneg prefix). pose proof (zlen_nonneg code).
  rewrite ztake_app_split, zdrop_app_r by lia. set (first := ztake (limit - zlen prefix) code).
  set (rest := zdrop (limit - zlen prefix) code).
  assert (first ++ rest = code) as Hsplit by apply ztake_zdrop. pose proof (f_equal zlen Hsplit) as Hlen. rewrite zlen_app in Hlen.
  pose proof (zlen_nonneg first). pose proof (zlen_nonneg rest).
  rewrite (consume_first_chunk s ff _ (prefix ++ first) name first); [|done|done|done| |lia].
  2:{ destruct (bool_decide (ff = 0)); [|done]. by destruct Hname as [-> ->]. }
  destruct (decide (rest = [])) as [Hr|Hr]; [rewrite (bool_decide_eq_true_2 _ Hr)|rewrite (bool_decide_eq_false_2 _ Hr)].
  - rewrite Hr, app_nil_r in Hsplit. by rewrite Hsplit.
  - fold (bundle_chunks fuel ff false rest). destruct Hs as (Hh & _ & Hc & Hi & Hmax).
    rewrite consume_later_chunks; cbn [with_code bundle config bundle_is_trusted_bytecode bundle_name]; [|done| |done|lia].
    + unfold with_code. cbn [hello_received config bindings binding_blob binding_inflight]. by rewrite Hsplit.
    + assert (rest = zdrop limit (prefix ++ code)) as -> by (symmetry; apply zdrop_app_r; lia).
      apply chunk_fuel_step; [done|done|]. by apply zdrop_rest.
Qed.
End chunks.

(** ** Bindings *)

(** The descriptor the worker is to register for an API descriptor. *)
Definition wire_binding (b : capsid_binding_descriptor) (p : capsid_binding_policy) (profiles : ApiList)
    : WorkerBindingDescriptor :=
  mkBindingDescriptor (c_text (api_name b)) (default [] (api_source b)) (default [] (api_config b))
    (map (λ s, (c_text s.1, default [] s.2)) (api_secret_items b)) (api_texts profiles) (api_texts (api_modules p))
    (api_texts (api_net_rules p)) (api_texts (api_fs_read p)) (api_texts (api_fs_write p)) (api_texts (api_env p))
    (api_texts (api_stdio p)).

Definition api_list_typed (l : ApiList) : Prop := item_count l = zlen (api_items l).

(** The counts are those of the arrays. *)
Definition binding_typed (b : capsid_binding_descriptor) (p : capsid_binding_policy) (profiles : ApiList) : Prop :=
  api_secret_count b = zlen (api_secret_items b)
  ∧ Forall api_list_typed [profiles; api_modules p; api_net_rules p; api_fs_read p; api_fs_write p; api_env p; api_stdio p].

Lemma append_api_string16_wire out s : short16 s → append_api_string16 out s = out ++ wire16 s.
Proof.
  unfold append_api_string16, wire16, short16. pose proof (zlen_nonneg s). intros Hs.
  by rewrite u16_small, append_u16_le, <- app_assoc by lia.
Qed.

Lemma append_strings_wire items out : Forall short16 items →
  fold_left append_api_string16 items out = out ++ concat (map wire16 items).
Proof.
  intros Hall. revert out. induction Hall as [|i items Hi _ IH]; intros out; cbn [fold_left map concat]; [by rewrite app_nil_r|].
  by rewrite IH, append_api_string16_wire, <- app_assoc.
Qed.

Lemma append_list_wire l out : api_list_typed l → Forall short16 (api_texts l) →
  append_list out l = out ++ list_bytes (api_texts l).
Proof.
  intros Hl Hs. unfold append_list, list_bytes, api_texts. rewrite append_strings_wire by done.
  by rewrite append_u32_le, zlen_map, Hl, <- app_assoc.
Qed.

Lemma append_secrets_wire secrets out : Forall (λ s, short16 (c_text s.1) ∧ short32 (default [] s.2)) secrets →
  fold_left append_secret secrets out = out ++ concat (map secret_bytes (map (λ s, (c_text s.1, default [] s.2)) secrets)).
Proof.
  intros Hall. revert out. induction Hall as [|s secrets [Hk Hv] _ IH]; intros out; cbn [fold_left map concat]; [by rewrite app_nil_r|].
  rewrite IH. unfold append_secret, secret_bytes at 2, wire32. cbn [fst snd]. pose proof (zlen_nonneg (default [] s.2)).
  unfold short32 in Hv. rewrite append_api_string16_wire, append_u32_le, u32_small, <- !app_assoc by (done || lia). done.
Qed.

Lemma list_ok_short max check items : list_ok max check items → Forall short16 items.
Proof. intros (_ & Hall & _). eapply Forall_impl; [exact Hall|]. by intros i [Hi _]. Qed.

Section load_binding.
Context `{InetPton}.

(** The frames a binding is sent in. *)
Definition binding_frames (v : Z) (d : WorkerBindingDescriptor) : list Frame :=
  sent_chunks v kLoadBinding 0 true true 0 (blob_bytes d).

(** A binding an API caller may pass and the worker's grammars accept. *)
Definition binding_accepted (b : capsid_binding_descriptor) (d : WorkerBindingDescriptor) : Prop :=
  ∃ p profiles, api_policy b = Some p ∧ api_profiles b = Some profiles ∧ binding_typed b p profiles
  ∧ d = wire_binding b p profiles ∧ binding_ok d.

Lemma api_blob b p profiles name source config : binding_typed b p profiles → binding_ok (wire_binding b p profiles) →
  valid_api_binding b = Some (name, source, config) → valid_api_policy p profiles = true →
  append_u32 [] (u32 (zlen (api_descriptor_bytes b p profiles name config))) ++ api_descriptor_bytes b p profiles name config ++ source
  = blob_bytes (wire_binding b p profiles).
Proof.
  intros [Hcount Hlists] Hok Hv Hp. repeat match goal with H : Forall _ _ |- _ => apply Forall_cons in H as [? H] end.
  assert (api_descriptor_bytes b p profiles name config = descriptor_bytes (wire_binding b p profiles)
          ∧ source = wb_source (wire_binding b p profiles)) as [-> ->].
  2:{ pose proof (ok_descriptor _ Hok) as Hd. unfold kMaxBindingDescriptorBytes in Hd.
      pose proof (zlen_nonneg (descriptor_bytes (wire_binding b p profiles))).
      rewrite append_u32_le, u32_small by lia. done. }
  unfold valid_api_binding in Hv. destruct (api_name b) as [n|] eqn:Hn; [|done]. destruct (api_source b) as [so|] eqn:Hs; [|done].
  destruct (api_config b) as [co|] eqn:Hc; [|done]. destruct (_ || _) eqn:Hg; [done|]. injection Hv as <- <- <-.
  split; [|cbn [wire_binding wb_source]; by rewrite Hs]. clear Hg Hp. destruct Hok as [Hname Hcfg _ (_ & Hsec & _) L1 L2 L3 L4 L5 L6 L7 _ _].
  cbn [wire_binding wb_name wb_config_json wb_secrets wb_profiles wb_modules wb_net_rules wb_fs_read wb_fs_write wb_env
    wb_stdio] in *.
  unfold api_descriptor_bytes, descriptor_bytes, secrets_bytes. cbn [fold_left].
  rewrite !append_list_wire by (done || by eapply list_ok_short). rewrite append_secrets_wire.
  2:{ apply (Forall_map (λ s, (c_text s.1, default [] s.2)) secret_ok) in Hsec. eapply Forall_impl; [exact Hsec|].
      intros sec [[Hk _] Hval]. split; [done|].
      unfold short32, kMaxBindingSecretValueBytes in *. cbn [snd] in Hval. lia. }
  destruct Hname as [Hname _]. rewrite Hn in Hname. rewrite Hc in Hcfg. change (zlen co <= 256 * 1024) in Hcfg.
  cbn [c_text] in Hname. pose proof (zlen_nonneg co).
  cbn [wire_binding wb_name wb_config_json wb_secrets wb_profiles wb_modules wb_net_rules wb_fs_read wb_fs_write wb_env wb_stdio].
  rewrite append_api_string16_wire, !append_u32_le, u32_small, zlen_map, Hcount by (done || lia).
  unfold wire32. rewrite Hn, Hc. cbn [c_text]. change (default [] (Some co)) with co. by rewrite <- !app_assoc.
Qed.
Lemma load_binding_sends w b d w' : queue_wf w → w_version (w_limits w) = kVersion ∨ w_version (w_limits w) = kVersionV4 →
  binding_accepted b d → capsid_worker_load_binding w (Some b) = (CAPSID_OK, w') →
  queues w (frame_stream (binding_frames (w_version (w_limits w)) d)) w'.
Proof.
  intros Hw Hv (p & profiles & Hp & Hprof & Ht & -> & Hok). unfold capsid_worker_load_binding.
  destruct (bundle_loaded w); [done|]. destruct (valid_api_binding b) as [[[name source] cfg]|] eqn:Hb; [|done].
  rewrite Hp, Hprof. destruct (negb (valid_api_policy p profiles)) eqn:Hpol; [done|]. apply negb_false_iff in Hpol.
  cbv zeta. rewrite (api_blob _ _ _ _ _ _ Ht Hok Hb Hpol).
  destruct (queue_chunked_cases w kLoadBinding 0 (Some (blob_bytes (wire_binding b p profiles))) true true 0 Hw
    (binding_chunks_encodable _ Hv)) as [(r & Hr & ->)|(_ & body & w1 & [= <-] & -> & Hq)].
  - intros [= ->]. done.
  - intros [= <-]. exact Hq.
Qed.
End load_binding.

(** *** The chunks on the wire *)

Section sent.
#[local] Opaque kMaxPayloadSize.

Lemma chunk_frames_flags limit fuel v t id flags first data :
  Forall (λ f, ∃ a b, fflags f = flags a b) (chunk_frames limit fuel v t id flags first data).
Proof.
  revert first data. induction fuel as [|fuel IH]; intros first data; cbn [chunk_frames]; [constructor|].
  constructor; [by do 2 eexists|]. case_bool_decide; [constructor|apply IH].
Qed.

Lemma sent_chunks_admissible v t ms me ff data : chunks_encodable v t (chunk_flags ms me ff) → code_flags ff →
  0 <= t < 2 ^ 16 → t ≠ kHello → admissible v (sent_chunks v t 0 ms me ff data).
Proof.
  intros (Hv & Htype & Hflags) Hff Ht Hne. apply Forall_forall. intros f Hf.
  destruct (sent_chunks_facts v t 0 ms me ff data) as [Hall _].
  pose proof (chunk_frames_flags kMaxPayloadSize (Z.to_nat (frame_count (zlen data))) v t 0 (chunk_flags ms me ff) true data) as Hfl.
  destruct (chunk_frames_size kMaxPayloadSize eq_refl (Z.to_nat (frame_count (zlen data))) v t 0
    (chunk_flags ms me ff) true data (frame_count_fuel data)) as (_ & _ & Hsize).
  fold (sent_chunks v t 0 ms me ff data) in Hfl, Hsize. rewrite Forall_forall in Hall, Hfl, Hsize.
  destruct (Hall f Hf) as (Ht' & Hid & Hv'). destruct (Hfl f Hf) as (a & b & Hab). specialize (Hsize f Hf).
  split; [|done]. split; rewrite ?Hv', ?Ht', ?Hid, ?Hab; try done.
  - destruct Hff as [->|[->| ->]]; destruct a, b, ms, me; by vm_compute.
  - by rewrite (eqb_ne_false _ _ Hne), andb_false_r.
Qed.

(** What a queued stream leaves room for. *)
Lemma queued_fits w v t id ms me ff data w' : queue_wf w →
  queues w (frame_stream (sent_chunks v t id ms me ff data)) w' → zlen data <= w_max_queued (w_limits w).
Proof.
  intros Hw (offset & buffer & -> & [_ [Hl _]] & Hu). rewrite Hu, zlen_app, zlen_sent_chunks in Hl.
  pose proof (zlen_nonneg (unsent w)). destruct (frame_count_fuel data) as (H1 & _).
  cbn [with_write w_limits] in Hl. unfold kHeaderSize in Hl. lia.
Qed.
End sent.

(** ** The startup *)

(** What the Host does between [capsid_worker_spawn] and the bundle. *)
Inductive StartupStep :=
| Step_binding (b : capsid_binding_descriptor)
| Step_flush (answers : list WriteAnswer).

(** The bytes the socket took and the worker afterwards; none when a call did
    not succeed. *)
Fixpoint run_startup (w : capsid_worker) (steps : list StartupStep) : option (bytes * capsid_worker) :=
  match steps with
  | [] => Some ([], w)
  | Step_binding b :: steps =>
      match capsid_worker_load_binding w (Some b) with
      | (CAPSID_OK, w) => run_startup w steps
      | _ => None
      end
  | Step_flush answers :: steps =>
      match capsid_worker_flush w answers with
      | Some (_, written, w, _) =>
          match run_startup w steps with
          | Some (more, w) => Some (written ++ more, w)
          | None => None
          end
      | None => None
      end
  end.

Definition step_bindings (steps : list StartupStep) : list capsid_binding_descriptor :=
  omap (λ step, match step with Step_binding b => Some b | Step_flush _ => None end) steps.

(** The three ways to load code. *)
Inductive Code :=
| Plain_code (bundle : bytes)
| Named_code (bundle name : bytes)
| Trusted_code (bytecode name : bytes).

Definition load_code (w : capsid_worker) (code : Code) : capsid_result * capsid_worker :=
  match code with
  | Plain_code bundle => capsid_worker_load_bundle w (Some bundle)
  | Named_code bundle name => capsid_worker_load_bundle_named w (Some bundle) (Some name)
  | Trusted_code bytecode name => capsid_worker_load_trusted_bytecode_named w (Some bytecode) (Some name)
  end.

Definition code_text (code : Code) : bytes :=
  match code with Plain_code text | Named_code text _ | Trusted_code text _ => text end.

Definition code_name (code : Code) : bytes :=
  match code with Plain_code _ => bs "capsid:app/main" | Named_code _ name | Trusted_code _ name => cut_nul name end.

Definition code_trusted (code : Code) : bool := match code with Trusted_code _ _ => true | _ => false end.

Section startup.
Context `{InetPton}.

Lemma run_startup_sends w steps written w' ds : queue_wf w →
  w_version (w_limits w) = kVersion ∨ w_version (w_limits w) = kVersionV4 →
  Forall2 binding_accepted (step_bindings steps) ds → run_startup w steps = Some (written, w') →
  queue_wf w' ∧ w_limits w' = w_limits w
  ∧ written ++ unsent w' = unsent w ++ frame_stream (concat (map (binding_frames (w_version (w_limits w))) ds))
  ∧ Forall (λ d, zlen (blob_bytes d) <= w_max_queued (w_limits w)) ds.
Proof.
  revert w written ds. induction steps as [|[b|answers] steps IH]; intros w written ds Hw Hv Hacc; cbn [run_startup].
  - apply Forall2_nil_inv_l in Hacc as ->. intros [= <- <-]. cbn. by rewrite app_nil_r.
  - apply Forall2_cons_inv_l in Hacc as (d & ds' & Hd & Hds & ->).
    destruct (capsid_worker_load_binding w (Some b)) as [[] w1] eqn:Hb; try done. intros Hrun.
    pose proof (load_binding_sends _ _ _ _ Hw Hv Hd Hb) as Hq. pose proof (queued_fits _ _ _ _ _ _ _ _ _ Hw Hq) as Hfit.
    destruct Hq as (offset & buffer & -> & Hw1 & Hu).
    destruct (IH _ _ ds' Hw1 Hv Hds Hrun) as (Hw' & Hl & Heq & Hall). split_and!; [done|done| |by constructor].
    rewrite Heq, Hu. cbn [map concat]. rewrite frame_stream_app, <- app_assoc. done.
  - destruct (capsid_worker_flush w answers) as [[[[r out] w1] rest]|] eqn:Hf; [|done].
    destruct (run_startup w1 steps) as [[more w2]|] eqn:Hrun; [|done]. intros [= <- <-].
    assert (out ++ unsent w1 = unsent w ∧ queue_wf w1 ∧ w_limits w1 = w_limits w) as (Hu & Hw1 & Hl1).
    { unfold capsid_worker_flush in Hf. destruct (closed w); [by injection Hf as <- <- <- <-|].
      apply client_flush_spec in Hf as (m & -> & Hm & Hq & Hl & _); [|done]. done. }
    destruct (IH w1 more ds Hw1 ltac:(by rewrite Hl1) Hacc Hrun) as (Hw' & Hl & Heq & Hall).
    rewrite Hl1 in *. split_and!; [done|done| |done]. by rewrite <- app_assoc, Heq, app_assoc, Hu.
Qed.

(** The name in front of the code, and the flags of its first chunk. *)
Definition code_prefix (code : Code) : bytes :=
  match code with Plain_code _ => [] | Named_code _ name | Trusted_code _ name => wire16 (cut_nul name) end.

Definition code_first_flags (code : Code) : Z :=
  match code with
  | Plain_code _ => 0
  | Named_code _ _ => kFlagBundleName
  | Trusted_code _ _ => Z.lor kFlagBundleName kFlagTrustedBytecode
  end.

Definition code_frames (v : Z) (code : Code) : list Frame :=
  sent_chunks v kLoadBundle 0 true true (code_first_flags code) (code_prefix code ++ code_text code).

Lemma code_flags_ok code : code_flags (code_first_flags code).
Proof. destruct code; [by left|by right; left|by right; right]. Qed.

Lemma load_bundle_sends w data ff w' : queue_wf w →
  w_version (w_limits w) = kVersion ∨ w_version (w_limits w) = kVersionV4 → code_flags ff →
  and_bundle_loaded (queue_chunked w kLoadBundle 0 (Some data) true true ff) = (CAPSID_OK, w') →
  unsent w' = unsent w ++ frame_stream (sent_chunks (w_version (w_limits w)) kLoadBundle 0 true true ff data)
  ∧ zlen data <= w_max_queued (w_limits w).
Proof.
  intros Hw Hv Hff. destruct (queue_chunked_cases w kLoadBundle 0 (Some data) true true ff Hw
    (bundle_chunks_encodable _ _ Hv Hff)) as [(r & Hr & ->)|(_ & body & w1 & [= <-] & -> & Hq)].
  - intros [= -> _]. done.
  - pose proof (queued_fits _ _ _ _ _ _ _ _ _ Hw Hq) as Hfit. destruct Hq as (offset & buffer & -> & _ & Hu).
    unfold and_bundle_loaded. rewrite bool_decide_eq_true_2 by done. intros [= <-]. split; [exact Hu|done].
Qed.

Lemma named_bundle_bytes name bundle named : named_bundle (Some name) (Some bundle) = Some named →
  named = wire16 (cut_nul name) ++ bundle ∧ 0 < zlen (cut_nul name) <= 4096.
Proof.
  unfold named_bundle. destruct (_ || _) eqn:Hg; [done|]. intros [= <-]. pose proof (zlen_nonneg (cut_nul name)). bools.
  split; [|lia]. unfold wire16. pose proof (append_u16_le [] (zlen (cut_nul name))) as Hle. cbn [app] in Hle. by rewrite <- Hle, <- app_assoc.
Qed.

Lemma load_code_sends w code w' : queue_wf w →
  w_version (w_limits w) = kVersion ∨ w_version (w_limits w) = kVersionV4 → load_code w code = (CAPSID_OK, w') →
  unsent w' = unsent w ++ frame_stream (code_frames (w_version (w_limits w)) code)
  ∧ zlen (code_prefix code ++ code_text code) <= w_max_queued (w_limits w)
  ∧ (code_first_flags code = 0 ∨ 0 < zlen (code_name code) <= 4096).
Proof.
  intros Hw Hv. unfold code_frames. pose proof (code_flags_ok code) as Hff. destruct code as [text|text name|text name];
    cbn [load_code code_prefix code_text code_first_flags code_name].
  - intros Hl. cbn [app]. destruct (load_bundle_sends _ _ _ _ Hw Hv Hff Hl). by auto.
  - unfold capsid_worker_load_bundle_named. destruct (named_bundle _ _) as [named|] eqn:Hn; [|done].
    apply named_bundle_bytes in Hn as [-> Hn]. intros Hl. destruct (load_bundle_sends _ _ _ _ Hw Hv Hff Hl). by auto.
  - unfold capsid_worker_load_trusted_bytecode_named. case_bool_decide; [done|].
    destruct (named_bundle _ _) as [named|] eqn:Hn; [|done].
    apply named_bundle_bytes in Hn as [-> Hn]. intros Hl. destruct (load_bundle_sends _ _ _ _ Hw Hv Hff Hl). by auto.
Qed.
End startup.

Section worker.
Context `{InetPton}.

Lemma consume_all_app s a b : consume_all s (a ++ b) =
  match consume_all s a with (None, s') => consume_all s' b | refused => refused end.
Proof.
  revert s. induction a as [|f a IH]; intros s; [done|]. cbn [app consume_all].
  destruct (consume s f) as [[e|] s']; [done|apply IH].
Qed.

(** The worker after HELLO and any bindings. *)
Definition between_bindings (s : WorkerStartupState) : Prop := awaits_binding true s ∧ binding_blob s = [].

Lemma consume_bindings v ds s : between_bindings s → Forall binding_ok ds →
  Forall (λ d, zlen (blob_bytes d) <= max_queued_bytes (config s)) ds →
  consume_all s (concat (map (binding_frames v) ds)) = (None, with_binding s (bindings s ++ ds) [] false).
Proof.
  intros Hs Hok Hfit. revert s Hs Hfit. induction Hok as [|d ds Hd _ IH]; intros s [(Hh & Hst & Hi & Hmax) Hb] Hfit.
  - cbn. rewrite app_nil_r. unfold with_binding. cbn [negb] in Hi. rewrite <- Hi, <- Hb. by destruct s.
  - apply Forall_cons in Hfit as [Hf Hfit]. cbn [map concat]. rewrite consume_all_app.
    unfold binding_frames at 1, sent_chunks. fold (binding_chunks kMaxPayloadSize v (Z.to_nat (frame_count (zlen (blob_bytes d)))) true (blob_bytes d)).
    rewrite (consume_binding_chunks kMaxPayloadSize v eq_refl _ s true (blob_bytes d) d); [|apply frame_count_fuel|done| |].
    + rewrite IH; [|done|done]. unfold with_binding. cbn [config hello_received bundle_started bundle_complete
        bundle_is_trusted_bytecode bundle bundle_name bindings]. by rewrite <- app_assoc.
    + rewrite Hb, zlen_nil. lia.
    + rewrite Hb. by apply parse_blob_iff.
Qed.
Lemma version_cases limits : protocol_refused limits = false → w_version limits = kVersion ∨ w_version limits = kVersionV4.
Proof. unfold protocol_refused. intros [Hr _]%orb_false_iff. lia. Qed.

Lemma spawn_ok_inv `{CgroupKernel K} os (k : K) input r w r' k' :
  capsid_worker_spawn os k input r = (CAPSID_OK, Some w, r', k') →
  ∃ plan fd pid, spawn_plan input (os_is_net os) = Some plan ∧ protocol_refused (plan_worker_limits plan) = false
  ∧ send_hello (started_worker plan fd pid) (plan_config plan) (plan_capability plan) (plan_descriptors plan)
      (preinstalled_features plan) = (CAPSID_OK, w).
Proof.
  unfold capsid_worker_spawn. destruct (spawn_plan input (os_is_net os)) as [plan|]; [|done].
  destruct (os_sockets os) as [[fd child_fd]|]; [|done]. case_match; [done|]. case_match; [done|].
  destruct (os_child os) as [pid|]; [|done]. unfold finish_spawn. destruct (attach_child k plan pid) as [[] k1]; [|done].
  destruct (protocol_refused _) eqn:Hr; [done|]. destruct (send_hello _ _ _ _ _) as [h w1] eqn:Hh.
  intros Heq. exists plan, fd, pid. split; [done|]. split; [done|]. rewrite Hh. destruct h; try done. by injection Heq as ->.
Qed.

(** The HELLO frame of a started worker. *)
Lemma hello_sent input is_net plan fd pid w : config_typed input → spawn_plan input is_net = Some plan →
  protocol_refused (plan_worker_limits plan) = false →
  send_hello (started_worker plan fd pid) (plan_config plan) (plan_capability plan) (plan_descriptors plan)
    (preinstalled_features plan) = (CAPSID_OK, w) →
  ∃ frame, unsent w = frame_bytes frame ∧ queue_wf w ∧ w_limits w = plan_worker_limits plan
  ∧ frame_ok frame ∧ fversion frame = w_version (plan_worker_limits plan) ∧ decode_hello frame = inr (expected_config plan).
Proof.
  intros Hinput Hplan Hr. pose proof (spawn_plan_ok _ _ _ Hinput Hplan) as Hok. pose proof (version_cases _ Hr) as Hv.
  unfold send_hello. destruct (hello_payload _ _ _ _ _) as [payload|] eqn:Hpay; [|done].
  assert (queue_wf (started_worker plan fd pid)) as Hw.
  { pose proof (po_queue _ Hok) as Hq. destruct (po_typed _ Hok) as [_ H32 _].
    repeat match goal with H : Forall _ _ |- _ => apply Forall_cons in H as [? H] end.
    split; [done|]. unfold kMaxBufferedBytes in Hq. cbn. change (zlen (unsent _)) with 0. lia. }
  destruct (queue_frame_cases _ (mkFrame kHello 0 0 0 payload) Hw) as [(res & Hres & ->)|(_ & Henc & w1 & -> & Hq)];
    [by intros [= -> _]|]. intros [= <-].
  destruct Hq as (offset & buffer & -> & Hw1 & Hu). eexists. split; [exact Hu|]. split; [exact Hw1|]. split; [done|].
  cbn [started_worker w_limits] in *. assert (kHeaderSize + zlen payload <= c_max_queued (plan_config plan)) as Hfit.
  { destruct Hw1 as [_ [Hl _]]. rewrite Hu, zlen_app, zlen_frame_bytes in Hl. cbn in Hl. exact Hl. }
  pose proof Henc as (_ & _ & _ & Hmax). cbn [fpayload] in Hmax.
  split; [|split; [done|by eapply hello_decodes]]. apply encodable_ok; [done|]. split_and!; [done..|]. intros Hv4 _. cbn [fpayload].
  destruct (hello_payload_bytes _ _ _ _ _ _ _ (po_egress _ Hok) (po_capability _ Hok) Hpay) as (Hbytes & _ & _).
  rewrite Hbytes. apply hello_tail_valid; [apply zlen_hello_front|done|apply Hok|done].
Qed.
End worker.

Section startup_delivers.
Context `{InetPton} `{CgroupKernel K}.

Lemma consume_code v code s : awaits_bundle true s → bundle s = [] → bundle_name s = bs "capsid:app/main" →
  zlen (code_prefix code ++ code_text code) <= max_queued_bytes (config s) →
  code_first_flags code = 0 ∨ 0 < zlen (code_name code) <= 4096 →
  consume_all s (code_frames v code) = (None, with_code s true (code_trusted code) (code_text code) (code_name code)).
Proof.
  intros Hs Hb Hn Hfit Hname. unfold code_frames, sent_chunks.
  fold (bundle_chunks kMaxPayloadSize v (Z.to_nat (frame_count (zlen (code_prefix code ++ code_text code))))
    (code_first_flags code) true (code_prefix code ++ code_text code)).
  pose proof (zlen_nonneg (code_prefix code)). rewrite zlen_app in Hfit.
  rewrite (consume_bundle_chunks kMaxPayloadSize v eq_refl _ s _ (code_prefix code) (code_text code) (code_name code));
    [by destruct code|apply code_flags_ok|apply frame_count_fuel|done|done| | |lia].
  - unfold kMaxPayloadSize. destruct code as [|? name|? name]; cbn [code_prefix code_first_flags code_name] in *;
      rewrite ?zlen_wire16; [done|destruct Hname as [Hname|]; [done|lia]..].
  - assert (∀ name rest, 0 < zlen (cut_nul name) <= 4096 →
      read_bundle_name (wire16 (cut_nul name) ++ rest) = inr (cut_nul name, rest)) as Hread.
    { intros name rest Hlen. unfold read_bundle_name, wire16. rewrite <- app_assoc, read_u16_le by lia.
      rewrite eqb_ne_false, !ltb_ge_false by (rewrite ?zlen_app; pose proof (zlen_nonneg rest); lia). cbn [orb].
      rewrite ztake_app, zdrop_app by done. pose proof (c_text_no_nul (Some name)) as Hnul. cbn [c_text] in Hnul. by rewrite Hnul. }
    destruct code as [|? name|? name]; cbn [code_first_flags code_prefix code_name] in *.
    + by rewrite bool_decide_eq_true_2.
    + rewrite bool_decide_eq_false_2 by done. intros rest. apply Hread. by destruct Hname.
    + rewrite bool_decide_eq_false_2 by done. intros rest. apply Hread. by destruct Hname.
Qed.

Lemma binding_frames_admissible v ds : v = kVersion ∨ v = kVersionV4 → admissible v (concat (map (binding_frames v) ds)).
Proof.
  intros Hv. apply Forall_concat, Forall_map, Forall_forall. intros d _.
  apply sent_chunks_admissible; [by apply binding_chunks_encodable|by left|done|done].
Qed.

(** C6. What the Host starts a worker with is what the worker starts with. The
    Host spawns a worker, registers bindings the worker's grammars admit,
    flushing as it likes, and loads code; every call succeeds. Cut the bytes
    into pieces in any way: the worker's parser and startup state take them
    without an error and end with the limits, features and policies the Host
    validated, those bindings in that order, and that code under its name. *)
Theorem startup_delivers os (k : K) input r w r' k' steps ds written w1 code w2 chunks :
  config_typed input → capsid_worker_spawn os k input r = (CAPSID_OK, Some w, r', k') →
  Forall2 binding_accepted (step_bindings steps) ds → run_startup w steps = Some (written, w1) →
  load_code w1 code = (CAPSID_OK, w2) → concat chunks = written ++ unsent w2 →
  Forall (λ c, zlen c <= kMaxBufferedBytes - (kHeaderSize + kMaxPayloadSize)) chunks →
  ∃ plan frames p s, spawn_plan input (os_is_net os) = Some plan
  ∧ feed (new_Parser kVersionNegotiate) chunks = (frames, p) ∧ pending p = []
  ∧ consume_all new_WorkerStartupState frames = (None, s)
  ∧ config s = expected_config plan ∧ bindings s = ds ∧ bundle_complete s = true
  ∧ bundle s = code_text code ∧ bundle_name s = code_name code ∧ bundle_is_trusted_bytecode s = code_trusted code.
Proof.
  intros Hinput Hspawn Hacc Hrun Hload Hchunks Hsmall. apply spawn_ok_inv in Hspawn as (plan & fd & pid & Hplan & Hr & Hhello).
  destruct (hello_sent _ _ _ _ _ _ Hinput Hplan Hr Hhello) as (hello & Hu & Hw & Hl & Hok & Hver & Hdec).
  pose proof (version_cases _ Hr) as Hv. set (v := w_version (plan_worker_limits plan)) in *.
  destruct (run_startup_sends _ _ _ _ ds Hw ltac:(by rewrite Hl) Hacc Hrun) as (Hw1 & Hl1 & Hsent & Hblobs).
  destruct (load_code_sends _ _ _ Hw1 ltac:(by rewrite Hl1, Hl) Hload) as (Hu2 & Hfit & Hname).
  rewrite Hl1 in *. rewrite Hl in *. fold v in Hu2, Hsent.
  exists plan. set (frames := hello :: concat (map (binding_frames v) ds) ++ code_frames v code). exists frames.
  assert (concat chunks = frame_stream frames) as Hstream.
  { rewrite Hchunks, Hu2, app_assoc, Hsent, Hu. unfold frames. by rewrite frame_stream_cons, frame_stream_app, app_assoc. }
  assert (admissible v frames) as Hadm.
  { unfold frames. constructor; [done|]. apply Forall_app. split; [by apply binding_frames_admissible|].
    apply sent_chunks_admissible; [apply bundle_chunks_encodable; [done|]| |done|done]; apply code_flags_ok. }
  destruct (feed_complete v frames chunks (new_Parser kVersionNegotiate)) as (p & Hfeed & _ & Hpend);
    [apply healthy_new; by right|done|apply drained_new|done|done|].
  pose proof (decode_hello_ok _ _ Hdec) as Hcfg. pose proof (sc_queued _ Hcfg) as Hq.
  assert (max_queued_bytes (expected_config plan) = w_max_queued (plan_worker_limits plan)) as Hmq by done.
  exists p. eexists. split; [done|]. split; [exact Hfeed|]. split; [done|]. unfold frames. cbn [consume_all].
  unfold consume at 1. cbn [new_WorkerStartupState hello_received negb]. rewrite Hdec.
  rewrite consume_all_app, consume_bindings; [|split; [split_and!; [done|done|done|cbn [config]; lia]|done]| |cbn [config]; by rewrite Hmq].
  2:{ clear -Hacc. induction Hacc as [|b d bs ds (? & ? & ? & ? & ? & ? & Hd) _ IH]; by constructor. }
  rewrite consume_code; [split; [done|]; by split_and!| |done|done|cbn [with_binding config]; by rewrite Hmq|done].
  split_and!; [done|done|done|done|]. cbn [with_binding config]. lia.
Qed.
End startup_delivers.

Definition no_items : ApiList := mkApiList None 0.

Definition sample_api_binding : capsid_binding_descriptor :=
  mkApiBinding sizeof_binding_descriptor 1 (Some (bs "db")) (Some (bs "export default 1")) (Some (bs "{}"))
    (Some [(Some (bs "token"), Some (bs "s3cret"))]) 1
    (Some (mkApiPolicy no_items no_items (mkApiList (Some [Some (bs "/data")]) 1) no_items no_items no_items)) (Some no_items).

Definition sample_wire_binding : WorkerBindingDescriptor :=
  mkBindingDescriptor (bs "db") (bs "export default 1") (bs "{}") [(bs "token", bs "s3cret")] [] [] [] [bs "/data"] [] [] [].

Definition sample_worker : capsid_worker := default (fresh_worker sample_limits) sample_spawn.1.1.2.
Definition sample_steps : list StartupStep := [Step_flush [Write_some 7; Write_eagain false]; Step_binding sample_api_binding].
Definition sample_code : Code := Named_code (bs "export default {}") (bs "app.js").
Definition sample_ran : bytes * capsid_worker := default ([], sample_worker) (run_startup sample_worker sample_steps).
Definition sample_loaded : capsid_worker := (load_code sample_ran.2 sample_code).2.

Lemma sample_config_typed : config_typed capsid_worker_config_init.
Proof. split; try done; by repeat (apply Forall_cons; split; [done|]). Qed.

Lemma sample_binding_accepted : binding_accepted sample_api_binding sample_wire_binding.
Proof.
  do 2 eexists. split; [reflexivity|]. split; [reflexivity|]. split; [split; [reflexivity|]; by repeat constructor|].
  split; [reflexivity|]. apply (parse_blob_iff (blob_bytes sample_wire_binding)). vm_compute. reflexivity.
Qed.

Lemma startup_delivers_witness :
  ∃ frames p s, feed (new_Parser kVersionNegotiate) [sample_ran.1; unsent sample_loaded] = (frames, p)
  ∧ consume_all new_WorkerStartupState frames = (None, s) ∧ bindings s = [sample_wire_binding] ∧ bundle_complete s = true
  ∧ bundle s = bs "export default {}" ∧ bundle_name s = bs "app.js" ∧ bundle_is_trusted_bytecode s = false.
Proof.
  destruct (startup_delivers sample_os (sample_cgroup [] true) capsid_worker_config_init sample_resources sample_worker
    sample_spawn.1.2 sample_spawn.2 sample_steps [sample_wire_binding] sample_ran.1 sample_ran.2 sample_code sample_loaded
    [sample_ran.1; unsent sample_loaded]) as (plan & frames & p & s & _ & Hfeed & _ & Hall & _ & Hb & Hc & Ht & Hn & Htr).
  - exact sample_config_typed.
  - vm_compute. reflexivity.
  - constructor; [exact sample_binding_accepted|constructor].
  - vm_compute. reflexivity.
  - vm_compute. reflexivity.
  - cbn [concat]. by rewrite app_nil_r.
  - apply (bool_decide_unpack _). vm_compute. exact I.
  - exists frames, p, s. exact (conj Hfeed (conj Hall (conj Hb (conj Hc (conj Ht (conj Hn Htr)))))).
Defined.

(** ** The head of a request *)

Definition header_texts (headers : list (option bytes * option bytes)) : list (bytes * bytes) :=
  map (λ h, (default [] h.1, default [] h.2)) headers.

Lemma payload_size_ok max_header headers size : 0 <= size <= max_header → max_header < 2 ^ 32 →
  is_Some (request_payload_size max_header headers size) →
  Forall header_ok (header_texts headers) ∧ size + zlen (concat (map header_bytes (header_texts headers))) <= max_header.
Proof.
  intros Hsize Hmax. revert size Hsize. induction headers as [|[[n|] [v|]] headers IH]; intros size Hsize; cbn [request_payload_size];
    try (by intros [? [=]]).
  - intros _. cbn. split; [constructor|]. change (zlen (@nil byte)) with 0. lia.
  - pose proof (zlen_nonneg n). pose proof (zlen_nonneg v). destruct (_ || _) eqn:Hg; [by intros [? [=]]|].
    repeat (apply orb_false_iff in Hg as [Hg ?]). unfold u16_max, u32_max in *.
    rewrite (u64_small (max_header - size)) in * by lia.
    rewrite (u64_small (max_header - size - zlen n)) in * by lia.
    rewrite (u64_small (max_header - size - zlen n - 6)) in * by lia.
    intros Hrest. apply IH in Hrest as [Hall Hle]; [|lia]. cbn [header_texts map concat] in *. fold (header_texts headers).
    split.
    + constructor; [|done]. split_and!; cbn; [unfold short16; lia|unfold short32; lia|]. intros Hz. by rewrite Hz in Hg.
    + unfold header_bytes at 1. cbn [fst snd]. rewrite !zlen_app, zlen_wire16, zlen_wire32.
      change (default [] (Some n)) with n. change (default [] (Some v)) with v.
      change (map header_bytes (map _ headers)) with (map header_bytes (header_texts headers)). lia.
Qed.

Lemma append_headers_bytes out headers out' : append_headers out headers = Some out' →
  out' = out ++ concat (map header_bytes (header_texts headers)).
Proof.
  revert out. induction headers as [|[n v] headers IH]; intros out; cbn [append_headers header_texts map concat];
    [by intros [= ->]; rewrite app_nil_r|].
  destruct (append_string16 out _) as [o|] eqn:Ho; [|done]. apply append_string16_some in Ho as [-> _].
  unfold append_string32. destruct (_ <? _) eqn:Hlen; [done|]. intros Hrest. apply IH in Hrest as ->.
  unfold header_bytes at 2, wire32. cbn [fst snd]. rewrite append_u32_le, <- !app_assoc. done.
Qed.

Lemma request_head_bytes max_header method url headers payload : 0 <= max_header < 2 ^ 32 →
  request_head_payload max_header method url headers = Some payload →
  ∃ hs, headers = Some hs ∧ let h := mkRequestHead (c_text method) (c_text url) (header_texts hs) false in
  payload = head_payload h ∧ head_ok h ∧ zlen payload <= max_header.
Proof.
  intros Hmax. unfold request_head_payload. destruct method as [m|]; [|done]. destruct url as [u|]; [|done].
  destruct headers as [hs|]; [|done]. cbv zeta. cbn [c_text]. set (size := 2 + zlen (cut_nul m) + 4 + zlen (cut_nul u) + 2).
  pose proof (zlen_nonneg (cut_nul m)). pose proof (zlen_nonneg (cut_nul u)). pose proof (zlen_nonneg hs).
  destruct (_ || _) eqn:Hg; [done|]. repeat (apply orb_false_iff in Hg as [Hg ?]). unfold u16_max, u32_max in *.
  match goal with H : negb (bool_decide _) = false |- _ => apply negb_false_iff, bool_decide_eq_true in H as Hsize end.
  apply payload_size_ok in Hsize as [Hall Hle]; [|lia|lia].
  destruct (append_string16 [] _) as [o|] eqn:Ho; [|done]. apply append_string16_some in Ho as [-> _].
  unfold append_string32. destruct (_ <? zlen (cut_nul u)) eqn:Hlen; [done|]. intros Happ. apply append_headers_bytes in Happ as ->.
  exists hs. split; [done|]. rewrite append_u32_le, append_u16_le. unfold head_payload. cbn [IpcValidation.method IpcValidation.url
    IpcValidation.headers]. unfold header_texts at 2. rewrite zlen_map. unfold wire32. rewrite <- !app_assoc. cbn [app].
  split; [done|]. split.
  - split_and!; cbn [IpcValidation.method IpcValidation.url IpcValidation.headers]; try done.
    + unfold short16. lia.
    + unfold short32. lia.
    + intros Heq. rewrite Heq in *. done.
    + intros Heq. rewrite Heq in *. done.
    + unfold header_texts. rewrite zlen_map. lia.
  - rewrite !zlen_app, zlen_wire16, !zlen_le_bytes. lia.
Qed.

(** C19. The head of a request the Host begins is the head the worker reads: the
    frame the call queued decodes, within the worker's header limit, to the
    method, the URL, the headers in order and whether a body follows. *)
Theorem request_head_delivered w now id method url headers flags w' :
  queue_wf w → w_version (w_limits w) = kVersion ∨ w_version (w_limits w) = kVersionV4 →
  0 <= w_max_header (w_limits w) < 2 ^ 32 → flags = 0 ∨ flags = kFlagRequestEnd →
  begin_request_impl w now id method url headers flags = (CAPSID_OK, w') →
  ∃ frame hs, unsent w' = unsent w ++ frame_bytes frame ∧ headers = Some hs ∧ frequest_id frame = id
  ∧ decode_worker_request_head frame (w_max_header (w_limits w))
    = inr (mkRequestHead (c_text method) (c_text url) (header_texts hs) (bool_decide (flags = kFlagRequestEnd))).
Proof.
  intros Hw Hv Hmax Hflags. unfold begin_request_impl. destruct (id =? 0) eqn:Hid; [done|]. apply Z.eqb_neq in Hid.
  destruct (request_head_payload _ _ _ _) as [payload|] eqn:Hp; [|done].
  apply request_head_bytes in Hp as (hs & -> & -> & Hok & Hsize); [|done]. case_bool_decide; [done|]. split_test; [done|].
  destruct (queue_frame_cases w (mkFrame kRequestHead flags id 0 (head_payload
    (mkRequestHead (c_text method) (c_text url) (header_texts hs) false))) Hw) as [(res & Hres & ->)|(_ & Henc & w1 & -> & Hq)].
  { rewrite bool_decide_eq_false_2 by done. by intros [= ->]. }
  rewrite bool_decide_eq_true_2 by done. intros [= <-]. destruct Hq as (offset & buffer & -> & _ & Hu).
  destruct Henc as (_ & _ & _ & Hpay). eexists _, hs. split; [exact Hu|]. split; [done|]. split; [done|].
  apply decode_head_ok; [|done|done|by destruct Hflags as [->| ->]].
  split_and!; [done|by destruct Hflags as [->| ->]|done|done|done].
Qed.

Lemma request_head_delivered_witness :
  ∃ frame, unsent (capsid_worker_begin_request (fresh_worker sample_limits) 0 7 (Some (bs "GET")) (Some (bs "/a"))
                     (Some [(Some (bs "host"), Some (bs "x"))])).2 = frame_bytes frame
  ∧ decode_worker_request_head frame 4096 = inr (mkRequestHead (bs "GET") (bs "/a") [(bs "host", bs "x")] false).
Proof.
  destruct (request_head_delivered (fresh_worker sample_limits) 0 7 (Some (bs "GET")) (Some (bs "/a"))
    (Some [(Some (bs "host"), Some (bs "x"))]) 0
    (capsid_worker_begin_request (fresh_worker sample_limits) 0 7 (Some (bs "GET")) (Some (bs "/a"))
       (Some [(Some (bs "host"), Some (bs "x"))])).2) as (frame & hs & Hu & Hhs & _ & Hdec).
  - by apply fresh_worker_wf; [|left].
  - by left.
  - done.
  - by left.
  - vm_compute. reflexivity.
  - injection Hhs as <-. exists frame. exact (conj Hu Hdec).
Defined.
