(* ===== verification/RequestNormalization.v ===== *)
(** * RequestNormalization: the public request boundary (src/host/request_normalization.cc)

    What the listener turns a parsed HTTP/1 request into before a worker sees
    it: the checks of the listener policy, of the request target and of the
    header fields, the choice of the App by subdomain, path or header, the
    URL, the removal of the fields that must not travel, and the gate of the
    WebSocket handshake. A string view is a byte list; the routing mode is an
    integer, so that the values outside the enumeration, which the source
    guards against, are there too. The theorems: the URL is an origin the
    listener controls followed by a target whose decoded path has no dot
    segment; the emitted fields are exactly the end-to-end fields of the
    request; outside subdomain routing the answer does not depend on what Host
    says; an authority that is printed parses again; and the handshake
    gate. *)
From Stdlib Require Import ZArith Lia.
From S2P Require Import Prelude Jansson EgressPolicy AuditRecords WsCodec.
Local Open Scope Z_scope.

(** ** Data *)

Definition kMaxPublicRequestTargetBytes : Z := 16 * 1024.
Definition kMaxPublicRequestHeaderFields : Z := 128.
Definition kMaxPublicRequestHeaderBytes : Z := 64 * 1024.
Definition kMaxPublicAuthorityBytes : Z := 259.

(** [RequestRoutingMode], an [int] underneath. *)
Definition kSubdomain : Z := 0.
Definition kPath : Z := 1.
Definition kHeader : Z := 2.

Record RequestRoutingPolicy := mkRoutingPolicy {
  mode : Z;
  public_scheme : bytes;
  subdomain_suffix : bytes;
  public_authority : bytes;
  trusted_header_routing : bool
}.

Record PublicRequestHeaderView := mkHeaderView { name : bytes; value : bytes }.

Inductive WebSocketUpgradeCheck :=
| Upgrade_kNone | Upgrade_kValid | Upgrade_kBadKey | Upgrade_kUnsupportedVersion.

Record NormalizedPublicRequest := mkNormalized {
  application : bytes;
  url : bytes;
  headers : list PublicRequestHeaderView
}.

Inductive RequestNormalizationErrorCode :=
| Request_kNone | Request_kInvalidListenerPolicy | Request_kInvalidTarget | Request_kInvalidAuthority
| Request_kInvalidHeader | Request_kResourceLimit | Request_kRouteNotFound | Request_kUntrustedHeaderRouting.

Record RequestNormalizationError := mkRequestError {
  error_code : RequestNormalizationErrorCode;
  error_path : bytes;
  error_message : string
}.

(** [ok] with the request, or the error. *)
Definition RequestNormalizationResult : Type := NormalizedPublicRequest + RequestNormalizationError.

(** ** Character classes *)

Definition ascii_digit : byte → bool := in_range 48 57.
Definition ascii_lower : byte → bool := in_range 97 122.
Definition ascii_upper : byte → bool := in_range 65 90.
Definition ascii_hex (c : byte) : bool := ascii_digit c || in_range 97 102 c || in_range 65 70 c.
Definition ascii_lower_char (c : byte) : byte := if ascii_upper c then to_u8 (u8 c - 65 + 97) else c.
Definition lowered (s : bytes) : bytes := map ascii_lower_char s.

Definition token_char (c : byte) : bool :=
  if ascii_digit c || ascii_lower c || ascii_upper c then true
  else bool_decide (c ∈ bs "!#$%&'*+-.^_`|~").

Definition valid_application_id (s : bytes) : bool :=
  match s with
  | [] => false
  | first :: _ =>
      if 63 <? zlen s then false
      else if negb (ascii_lower first || ascii_digit first) then false
      else forallb (λ c, ascii_lower c || ascii_digit c || is_char 46 c || is_char 95 c || is_char 45 c) s
  end.

Definition valid_label (label : bytes) : bool :=
  match label with
  | [] => false
  | first :: _ =>
      if (63 <? zlen label) || is_char 45 first || last_is label Byte.x2d then false
      else forallb (λ c, ascii_lower c || ascii_digit c || is_char 45 c) label
  end.

(** ** Authorities *)

Definition ParsedAuthority : Type := bytes * option Z.

Fixpoint authority_host (host_part : bytes) : option bytes :=
  match host_part with
  | [] => Some []
  | c :: rest =>
      let lowered := ascii_lower_char c in
      if ascii_lower lowered || ascii_digit lowered || is_char 45 lowered || is_char 46 lowered
      then cons lowered <$> authority_host rest else None
  end.

(** The digits of the port, in a [uint32_t]. *)
Fixpoint port_loop (port_part : bytes) (port : Z) : option Z :=
  match port_part with
  | [] => Some port
  | c :: rest => if ascii_digit c then port_loop rest (u32 (port * 10 + (u8 c - 48))) else None
  end.

Definition authority_port (port_part : bytes) : option Z :=
  if bool_decide (port_part = []) || (5 <? zlen port_part) then None
  else match port_loop port_part 0 with
       | Some port => if (port =? 0) || (65535 <? port) then None else Some (u16 port)
       | None => None
       end.

(** The labels of a domain, the text between its dots. *)
Definition valid_domain (host : bytes) : bool := forallb valid_label (split_on Byte.x2e host []).

Definition parse_authority (value : bytes) : option ParsedAuthority :=
  if bool_decide (value = []) || (kMaxPublicAuthorityBytes <? zlen value) then None
  else
    let '(host_part, port_part) :=
      match split_at Byte.x3a value with Some (h, p) => (h, Some p) | None => (value, None) end in
    match authority_host host_part with
    | None => None
    | Some host =>
        if 253 <? zlen host then None
        else if negb (valid_domain host) then None
        else match port_part with
             | None => Some (host, None)
             | Some p => match authority_port p with Some port => Some (host, Some port) | None => None end
             end
    end.

Definition is_valid_public_authority (value : bytes) : bool :=
  match parse_authority value with Some _ => true | None => false end.

(** ** The listener policy *)

Definition policy_error (code : RequestNormalizationErrorCode) (path message : string) : option RequestNormalizationError :=
  Some (mkRequestError code (bs path) message).

(** [None] when the policy is valid. *)
Definition validate_policy (p : RequestRoutingPolicy) : option RequestNormalizationError :=
  if negb (bool_decide (public_scheme p = bs "http")) && negb (bool_decide (public_scheme p = bs "https"))
  then policy_error Request_kInvalidListenerPolicy "/listener/publicScheme"
         "public scheme must be exactly http or https"
  else if mode p =? kSubdomain then
    if negb (bool_decide (head (subdomain_suffix p) = Some Byte.x2e))
    then policy_error Request_kInvalidListenerPolicy "/listener/routing/suffix"
           "subdomain suffix must start with a dot"
    else if bool_decide (Byte.x3a ∈ subdomain_suffix p)
    then policy_error Request_kInvalidListenerPolicy "/listener/routing/suffix"
           "subdomain suffix must not contain a port"
    else if negb (valid_domain (lowered (zdrop 1 (subdomain_suffix p))))
    then policy_error Request_kInvalidListenerPolicy "/listener/routing/suffix"
           "subdomain suffix is not a valid domain"
    else None
  else if (mode p =? kPath) || (mode p =? kHeader) then
    if bool_decide (public_authority p = []) || negb (is_valid_public_authority (public_authority p))
    then policy_error Request_kInvalidListenerPolicy "/listener/publicAuthority"
           "public authority must be host[:port]"
    else if (mode p =? kHeader) && negb (trusted_header_routing p)
    then policy_error Request_kUntrustedHeaderRouting "/listener/routing/mode"
           "header routing requires a trusted listener"
    else None
  else policy_error Request_kInvalidListenerPolicy "/listener/routing/mode" "unknown routing mode".

(** The answer and the error slot, when the caller passed one. *)
Definition is_valid_routing_policy (p : RequestRoutingPolicy) (error : option RequestNormalizationError) :
    bool * option RequestNormalizationError :=
  match validate_policy p with
  | None => (true, error)
  | Some e => (false, match error with Some _ => Some e | None => None end)
  end.

(** ** The request target *)

Fixpoint target_bytes (target : bytes) : option RequestNormalizationError :=
  match target with
  | [] => None
  | c :: rest =>
      if (128 <=? u8 c) || (u8 c <? 33) || (u8 c =? 127)
      then policy_error Request_kInvalidTarget "/target"
             "request target contains a space, control or non-ASCII byte"
      else if is_char 92 c || is_char 35 c
      then policy_error Request_kInvalidTarget "/target" "request target contains a forbidden byte"
      else target_bytes rest
  end.

Fixpoint escapes_ok (target : bytes) : bool :=
  match target with
  | [] => true
  | c :: rest =>
      (if is_char 37 c
       then match rest with a :: b :: _ => ascii_hex a && ascii_hex b | _ => false end
       else true) && escapes_ok rest
  end.

Definition hex_value (c : byte) : Z :=
  if ascii_digit c then u8 c - 48 else if in_range 97 102 c then u8 c - 97 + 10 else u8 c - 65 + 10.

Definition escaped_byte (a b : byte) : byte := to_u8 (Z.lor (Z.shiftl (hex_value a) 4) (hex_value b)).

Fixpoint encoded_slash (path : bytes) : bool :=
  match path with
  | c :: (a :: b :: _) as rest =>
      (is_char 37 c && (is_char 47 (escaped_byte a b) || is_char 92 (escaped_byte a b))) || encoded_slash rest
  | _ => false
  end.

Fixpoint decode_segment (segment : bytes) : bytes :=
  match segment with
  | [] => []
  | c :: rest =>
      match rest with
      | a :: b :: rest' => if is_char 37 c then escaped_byte a b :: decode_segment rest' else c :: decode_segment rest
      | _ => c :: decode_segment rest
      end
  end.

Definition is_dot_segment (segment : bytes) : bool := bool_decide (segment = bs ".") || bool_decide (segment = bs "..").

Fixpoint dot_segments (segments : list bytes) : option RequestNormalizationError :=
  match segments with
  | [] => None
  | segment :: rest =>
      if is_dot_segment segment
      then policy_error Request_kInvalidTarget "/target" "request path contains a dot segment"
      else if is_dot_segment (decode_segment segment)
      then policy_error Request_kInvalidTarget "/target" "request path contains an encoded dot segment"
      else dot_segments rest
  end.

(** The target up to its first question mark. *)
Definition path_of (target : bytes) : bytes :=
  match split_at Byte.x3f target with Some (path, _) => path | None => target end.

Definition validate_target (target : bytes) : option RequestNormalizationError :=
  if kMaxPublicRequestTargetBytes <? zlen target
  then policy_error Request_kResourceLimit "/target" "request target exceeds the size limit"
  else if negb (bool_decide (head target = Some Byte.x2f))
  then policy_error Request_kInvalidTarget "/target" "only origin-form request targets are accepted"
  else match target_bytes target with
       | Some e => Some e
       | None =>
           if negb (escapes_ok target)
           then policy_error Request_kInvalidTarget "/target" "request target has a malformed percent escape"
           else if encoded_slash (path_of target)
           then policy_error Request_kInvalidTarget "/target" "request path contains an encoded slash"
           else dot_segments (split_on Byte.x2f (path_of target) [])
       end.

(** ** Header fields *)

Definition is_hop_by_hop (n : bytes) : bool :=
  bool_decide (n = bs "connection") || bool_decide (n = bs "keep-alive")
  || bool_decide (n = bs "proxy-connection") || bool_decide (n = bs "te") || bool_decide (n = bs "trailer")
  || bool_decide (n = bs "transfer-encoding") || bool_decide (n = bs "upgrade").

Definition is_forwarding (n : bytes) : bool :=
  bool_decide (n = bs "forwarded") || bool_decide (n = bs "x-real-ip") || starts_with n (bs "x-forwarded-").

Definition is_ows (c : byte) : bool := is_char 32 c || is_char 9 c.

Fixpoint skip_ows (s : bytes) : bytes :=
  match s with
  | c :: rest => if is_ows c then skip_ows rest else s
  | [] => []
  end.

(** The text between its leading and its trailing blanks. *)
Definition trim_ows (s : bytes) : bytes := rev (skip_ows (rev (skip_ows s))).

Definition header_error (index : Z) (message : string) : RequestNormalizationError :=
  mkRequestError Request_kInvalidHeader (bs "/headers/" ++ decimal index) message.

(** The tokens of a Connection field, one for each text between commas. *)
Fixpoint connection_tokens (index : Z) (items : list bytes) : list bytes + RequestNormalizationError :=
  match items with
  | [] => inl []
  | item :: rest =>
      let token := trim_ows item in
      if bool_decide (token = []) then inr (header_error index "Connection header contains an empty token")
      else if negb (forallb token_char token)
      then inr (header_error index "Connection header contains an invalid token")
      else match connection_tokens index rest with
           | inl tokens => inl (lowered token :: tokens)
           | inr e => inr e
           end
  end.

(** The locals of the collecting loop. *)
Record Collected := mkCollected {
  lowered_names : list bytes;
  host_index : option Z;
  capsid_app_index : option Z;
  capsid_app_count : Z;
  connection_nominated : list bytes
}.

Definition new_Collected : Collected := mkCollected [] None None 0 [].

Definition value_byte (c : byte) : bool := is_char 9 c || in_range 32 126 c.

(** One turn of the loop, for the field at [index]. *)
Definition collect_header (s : Collected) (index : Z) (h : PublicRequestHeaderView) :
    Collected + RequestNormalizationError :=
  if bool_decide (name h = []) then inr (header_error index "header name must not be empty")
  else if negb (forallb token_char (name h)) then inr (header_error index "header name is not a valid token")
  else if negb (forallb value_byte (value h)) then inr (header_error index "header value contains a forbidden byte")
  else
    let n := lowered (name h) in
    let names := lowered_names s ++ [n] in
    if bool_decide (n = bs "host") then
      match host_index s with
      | Some _ => inr (mkRequestError Request_kInvalidHeader (bs "/headers/host") "duplicate Host header")
      | None => inl (mkCollected names (Some index) (capsid_app_index s) (capsid_app_count s) (connection_nominated s))
      end
    else if bool_decide (n = bs "capsid-app") then
      inl (mkCollected names (host_index s)
             (match capsid_app_index s with Some i => Some i | None => Some index end)
             (u64 (capsid_app_count s + 1)) (connection_nominated s))
    else if bool_decide (n = bs "connection") then
      match connection_tokens index (split_on Byte.x2c (value h) []) with
      | inl tokens => inl (mkCollected names (host_index s) (capsid_app_index s) (capsid_app_count s)
                             (connection_nominated s ++ tokens))
      | inr e => inr e
      end
    else inl (mkCollected names (host_index s) (capsid_app_index s) (capsid_app_count s) (connection_nominated s)).

Fixpoint collect_headers (s : Collected) (index : Z) (hs : list PublicRequestHeaderView) :
    Collected + RequestNormalizationError :=
  match hs with
  | [] => inl s
  | h :: rest =>
      match collect_header s index h with
      | inl s => collect_headers s (index + 1) rest
      | inr e => inr e
      end
  end.

(** [headers[index].value]. *)
Definition value_at (hs : list PublicRequestHeaderView) (index : Z) : bytes :=
  match hs !! Z.to_nat index with Some h => value h | None => [] end.

(** ** Routes *)

Definition host_error (index : Z) (message : string) : RequestNormalizationError :=
  mkRequestError Request_kInvalidAuthority (bs "/headers/" ++ decimal index) message.

Definition append_port (text : bytes) (port : option Z) : bytes :=
  match port with Some p => text ++ bs ":" ++ decimal p | None => text end.

(** The application and the URL of a subdomain route. *)
Definition route_subdomain (p : RequestRoutingPolicy) (target : bytes) (index : Z) (a : ParsedAuthority) :
    (bytes * bytes) + RequestNormalizationError :=
  let suffix := lowered (subdomain_suffix p) in
  let suffix_domain := zdrop 1 suffix in
  let host := a.1 in
  let cut := zlen host - zlen suffix_domain in
  if (zlen host <=? zlen suffix_domain) || negb (bool_decide (zdrop cut host = suffix_domain))
     || negb (byte_at host (cut - 1) =? 46)
  then inr (host_error index "Host does not match the subdomain suffix")
  else
    let prefix := ztake (cut - 1) host in
    if bool_decide (prefix = []) || bool_decide (Byte.x2e ∈ prefix)
    then inr (host_error index "Host carries an ambiguous App label")
    else if negb (valid_application_id prefix)
    then inr (host_error index "Host App label exceeds the App ID limits")
    else inl (prefix, append_port (public_scheme p ++ bs "://" ++ prefix ++ suffix) a.2 ++ target).

Definition kPathPrefix : bytes := bs "/@capsid/".

(** [target.find_first_of("/?", start)]: the text before and from there. *)
Fixpoint until_delimiter (s : bytes) : bytes * bytes :=
  match s with
  | [] => ([], [])
  | c :: rest =>
      if is_char 47 c || is_char 63 c then ([], s)
      else let '(a, b) := until_delimiter rest in (c :: a, b)
  end.

Definition rewritten_target (rest : bytes) : bytes :=
  match rest with
  | [] => bs "/"
  | c :: _ => if is_char 47 c then rest else bs "/" ++ rest
  end.

Definition route_error (path : bytes) (message : string) : RequestNormalizationError :=
  mkRequestError Request_kRouteNotFound path message.

Definition route_path (p : RequestRoutingPolicy) (target authority : bytes) :
    (bytes * bytes) + RequestNormalizationError :=
  if negb (starts_with target kPathPrefix)
  then inr (route_error (bs "/target") "path routing requires the /@capsid/{app} prefix")
  else
    let '(app, rest) := until_delimiter (zdrop (zlen kPathPrefix) target) in
    if bool_decide (app = []) || negb (valid_application_id app)
    then inr (route_error (bs "/target") "path routing requires a valid App segment")
    else inl (app, public_scheme p ++ bs "://" ++ authority ++ rewritten_target rest).

Definition route_header (p : RequestRoutingPolicy) (target authority : bytes) (s : Collected)
    (hs : list PublicRequestHeaderView) : (bytes * bytes) + RequestNormalizationError :=
  if capsid_app_count s =? 0
  then inr (route_error (bs "/headers/capsid-app") "header routing requires a Capsid-App header")
  else if 1 <? capsid_app_count s
  then inr (mkRequestError Request_kInvalidHeader (bs "/headers/capsid-app") "duplicate Capsid-App header")
  else
    let index := default 0 (capsid_app_index s) in
    let app_value := value_at hs index in
    if negb (valid_application_id app_value)
    then inr (route_error (bs "/headers/" ++ decimal index) "Capsid-App is not a valid App ID")
    else inl (app_value, public_scheme p ++ bs "://" ++ authority ++ target).

Definition route (p : RequestRoutingPolicy) (target : bytes) (s : Collected)
    (hs : list PublicRequestHeaderView) (index : Z) (a : ParsedAuthority) :
    (bytes * bytes) + RequestNormalizationError :=
  if mode p =? kSubdomain then route_subdomain p target index a
  else match parse_authority (public_authority p) with
       | None => inr (mkRequestError Request_kInvalidListenerPolicy (bs "/listener/publicAuthority")
                        "public authority must be host[:port]")
       | Some parsed =>
           let authority := append_port parsed.1 parsed.2 in
           if mode p =? kPath then route_path p target authority else route_header p target authority s hs
       end.

(** ** The request *)

(** A field of this lowercase name is not passed on. *)
Definition removed (nominated : list bytes) (n : bytes) : bool :=
  bool_decide (n = bs "host") || bool_decide (n = bs "capsid-app") || is_hop_by_hop n || is_forwarding n
  || bool_decide (n ∈ nominated).

Fixpoint output_headers (nominated names : list bytes) (hs : list PublicRequestHeaderView) :
    list PublicRequestHeaderView :=
  match names, hs with
  | n :: names, h :: hs =>
      if removed nominated n then output_headers nominated names hs
      else mkHeaderView n (value h) :: output_headers nominated names hs
  | _, _ => []
  end.

Definition total_header_bytes (hs : list PublicRequestHeaderView) : Z :=
  fold_left (λ total h, u64 (total + (zlen (name h) + zlen (value h)))) hs 0.

Definition normalize_public_request (p : RequestRoutingPolicy) (target : bytes)
    (hs : list PublicRequestHeaderView) : RequestNormalizationResult :=
  if kMaxPublicRequestHeaderFields <? zlen hs
  then inr (mkRequestError Request_kResourceLimit (bs "/headers") "too many request header fields")
  else if kMaxPublicRequestHeaderBytes <? total_header_bytes hs
  then inr (mkRequestError Request_kResourceLimit (bs "/headers") "request header bytes exceed the limit")
  else match validate_policy p with
  | Some e => inr e
  | None =>
  match validate_target target with
  | Some e => inr e
  | None =>
  match collect_headers new_Collected 0 hs with
  | inr e => inr e
  | inl s =>
  match host_index s with
  | None => inr (mkRequestError Request_kInvalidHeader (bs "/headers/host") "Host header is required")
  | Some index =>
  match parse_authority (value_at hs index) with
  | None => inr (host_error index "Host header is not a valid authority")
  | Some a =>
  match route p target s hs index a with
  | inr e => inr e
  | inl (app, u) => inl (mkNormalized app u (output_headers (connection_nominated s) (lowered_names s) hs))
  end end end end end end.

(** ** The WebSocket handshake *)

Definition name_iequals (n lower : bytes) : bool := bool_decide (lowered n = lower).
Definition header_equals_token (v token : bytes) : bool := bool_decide (lowered v = lowered token).
Definition header_value_has_token (v token : bytes) : bool :=
  existsb (λ item, header_equals_token (trim_ows item) token) (split_on Byte.x2c v []).

(** The four field pointers of the scan. *)
Record Handshake := mkHandshake {
  connection : option bytes;
  upgrade : option bytes;
  key : option bytes;
  version : option bytes
}.

Definition new_Handshake : Handshake := mkHandshake None None None None.

(** The scan, with its early answers on a repeated field. *)
Fixpoint scan_handshake (s : Handshake) (views : list PublicRequestHeaderView) : Handshake + WebSocketUpgradeCheck :=
  match views with
  | [] => inl s
  | v :: rest =>
      if name_iequals (name v) (bs "connection") then
        match connection s with
        | Some _ => inr Upgrade_kNone
        | None => scan_handshake (mkHandshake (Some (value v)) (upgrade s) (key s) (version s)) rest
        end
      else if name_iequals (name v) (bs "upgrade") then
        match upgrade s with
        | Some _ => inr Upgrade_kNone
        | None => scan_handshake (mkHandshake (connection s) (Some (value v)) (key s) (version s)) rest
        end
      else if name_iequals (name v) (bs "sec-websocket-key") then
        match key s with
        | Some _ => inr Upgrade_kBadKey
        | None => scan_handshake (mkHandshake (connection s) (upgrade s) (Some (value v)) (version s)) rest
        end
      else if name_iequals (name v) (bs "sec-websocket-version") then
        match version s with
        | Some _ => inr Upgrade_kUnsupportedVersion
        | None => scan_handshake (mkHandshake (connection s) (upgrade s) (key s) (Some (value v))) rest
        end
      else scan_handshake s rest
  end.

Definition check_websocket_upgrade (views : list PublicRequestHeaderView) : WebSocketUpgradeCheck :=
  match scan_handshake new_Handshake views with
  | inr answer => answer
  | inl s =>
      match connection s, upgrade s with
      | Some c, Some u =>
          if negb (header_value_has_token c (bs "upgrade")) || negb (header_equals_token u (bs "websocket"))
          then Upgrade_kNone
          else if negb (match version s with Some v => header_equals_token v (bs "13") | None => false end)
          then Upgrade_kUnsupportedVersion
          else if negb (match key s with Some k => validate_client_key k | None => false end)
          then Upgrade_kBadKey
          else Upgrade_kValid
      | _, _ => Upgrade_kNone
      end
  end.

(** ** Lowercase text *)

Lemma ascii_lower_char_idem c : ascii_lower_char (ascii_lower_char c) = ascii_lower_char c.
Proof. destruct c; reflexivity. Qed.

Lemma lowered_idem s : lowered (lowered s) = lowered s.
Proof. unfold lowered. rewrite map_map. apply map_ext, ascii_lower_char_idem. Qed.

Lemma zlen_lowered s : zlen (lowered s) = zlen s.
Proof. unfold zlen, lowered. by rewrite length_map. Qed.

(** ** The pieces of a split *)

(** The first piece with [p] in front of it. *)
Definition on_first (p : bytes) (pieces : list bytes) : list bytes :=
  match pieces with [] => [] | q :: rest => (p ++ q) :: rest end.

Lemma split_on_acc c s acc : split_on c s acc = on_first acc (split_on c s []).
Proof.
  revert acc. induction s as [|d s IH]; intros acc; cbn [split_on on_first].
  { by rewrite app_nil_r. }
  destruct (bool_decide (d = c)); cbn [on_first]; [by rewrite app_nil_r|].
  rewrite IH, (IH ([] ++ [d])). destruct (split_on c s []); cbn [on_first]; [done|].
  by rewrite <- app_assoc.
Qed.

Lemma split_on_ne c s acc : split_on c s acc ≠ [].
Proof. revert acc. induction s as [|d s IH]; intros acc; cbn [split_on]; [done|]. by destruct (bool_decide _). Qed.

Lemma split_on_cons c d s : d ≠ c → split_on c (d :: s) [] = on_first [d] (split_on c s []).
Proof. intros H. cbn [split_on]. rewrite bool_decide_false by done. apply split_on_acc. Qed.

Lemma split_on_sep c s : split_on c (c :: s) [] = [] :: split_on c s [].
Proof. cbn [split_on]. by rewrite bool_decide_true. Qed.

Lemma split_on_app c s t : split_on c (s ++ c :: t) [] = split_on c s [] ++ split_on c t [].
Proof.
  induction s as [|d s IH]; cbn [app]; [by rewrite split_on_sep|].
  destruct (decide (d = c)) as [->|Hd].
  - rewrite !split_on_sep, IH. done.
  - rewrite !split_on_cons, IH by done. pose proof (split_on_ne c s []).
    by destruct (split_on c s []).
Qed.

(** ** Percent escapes *)

Lemma is_char_iff k c : is_char k c = true ↔ u8 c = k.
Proof. apply Z.eqb_eq. Qed.

Lemma hex_not c : ascii_hex c = true → c ≠ Byte.x2f ∧ c ≠ Byte.x3f ∧ c ≠ Byte.x25 ∧ c ≠ Byte.x5c.
Proof. intros H. repeat split; intros ->; discriminate. Qed.

(** A byte that is not an escape, or an escape of two digits. *)
Lemma escapes_case s : escapes_ok s = true →
  s = [] ∨ (∃ c r, s = c :: r ∧ c ≠ Byte.x25 ∧ escapes_ok r = true)
  ∨ (∃ a b r, s = Byte.x25 :: a :: b :: r ∧ ascii_hex a = true ∧ ascii_hex b = true ∧ escapes_ok r = true).
Proof.
  destruct s as [|c r]; [by left|]. intros H. right. cbn [escapes_ok] in H.
  apply andb_true_iff in H as [H Hr]. destruct (decide (c = Byte.x25)) as [->|Hc].
  - right. destruct r as [|a [|b r]]; [done..|]. cbn in H. apply andb_true_iff in H as [Ha Hb].
    exists a, b, r. repeat split; [done..|].
    destruct (hex_not a Ha) as (_ & _ & Ha' & _), (hex_not b Hb) as (_ & _ & Hb' & _).
    cbn [escapes_ok] in Hr. apply andb_true_iff in Hr as [_ Hr]. by apply andb_true_iff in Hr as [_ Hr].
  - left. exists c, r. repeat split; done.
Qed.

Lemma decode_segment_plain c r : c ≠ Byte.x25 → decode_segment (c :: r) = c :: decode_segment r.
Proof.
  intros Hc. cbn [decode_segment]. destruct r as [|a [|b r]]; [done..|].
  destruct (is_char 37 c) eqn:E; [|done]. apply is_char_iff in E. by destruct c.
Qed.

Lemma decode_escape a b r : decode_segment (Byte.x25 :: a :: b :: r) = escaped_byte a b :: decode_segment r.
Proof. done. Qed.

Lemma encoded_slash_tail c r : encoded_slash (c :: r) = false → encoded_slash r = false.
Proof.
  destruct r as [|a [|b r]]; [done..|]. intros H. cbn [encoded_slash] in H.
  by apply orb_false_iff in H as [_ H].
Qed.

Lemma encoded_slash_head a b r : encoded_slash (Byte.x25 :: a :: b :: r) = false →
  escaped_byte a b ≠ Byte.x2f ∧ escaped_byte a b ≠ Byte.x5c.
Proof.
  intros H. cbn [encoded_slash] in H. apply orb_false_iff in H as [H _].
  change (is_char 37 Byte.x25) with true in H. cbn [andb] in H. apply orb_false_iff in H as [H1 H2].
  split; intros E; rewrite E in *; discriminate.
Qed.

(** Induction along the escapes of a text. *)
Lemma escapes_ind (P : bytes → Prop) :
  P [] → (∀ c r, c ≠ Byte.x25 → escapes_ok r = true → P r → P (c :: r)) →
  (∀ a b r, ascii_hex a = true → ascii_hex b = true → escapes_ok r = true → P r → P (Byte.x25 :: a :: b :: r)) →
  ∀ s, escapes_ok s = true → P s.
Proof.
  intros H0 H1 H2 s. remember (length s) as n eqn:En. revert s En.
  induction n as [n IH] using (well_founded_induction Nat.lt_wf_0). intros s -> H.
  destruct (escapes_case s H) as [->|[(c & r & -> & Hc & Hr)|(a & b & r & -> & Ha & Hb & Hr)]]; [done| |].
  - apply H1; [done..|]. apply (IH (length r)); [cbn; lia|done..].
  - apply H2; [done..|]. apply (IH (length r)); [cbn; lia|done..].
Qed.

(** Decoding commutes with splitting into segments when no slash is encoded. *)
Lemma split_decode s : escapes_ok s = true → encoded_slash s = false →
  split_on Byte.x2f (decode_segment s) [] = map decode_segment (split_on Byte.x2f s []).
Proof.
  revert s. apply (escapes_ind (λ s, encoded_slash s = false → _)).
  - done.
  - intros c r Hc Hr IH Hs. rewrite decode_segment_plain by done. apply encoded_slash_tail in Hs.
    destruct (decide (c = Byte.x2f)) as [->|Hc'].
    + rewrite !split_on_sep, IH by done. done.
    + rewrite !split_on_cons, IH by done. pose proof (split_on_ne Byte.x2f r []).
      destruct (split_on Byte.x2f r []) as [|q l]; [done|]. cbn [map on_first app].
      by rewrite decode_segment_plain.
  - intros a b r Ha Hb Hr IH Hs. rewrite decode_escape.
    destruct (encoded_slash_head _ _ _ Hs) as [He _].
    do 3 apply encoded_slash_tail in Hs.
    destruct (hex_not a Ha) as (Ha' & _), (hex_not b Hb) as (Hb' & _).
    rewrite !split_on_cons, IH by done. pose proof (split_on_ne Byte.x2f r []).
    by destruct (split_on Byte.x2f r []) as [|q l].
Qed.

(** ** Confined paths *)

(** No segment of the decoded path is a dot segment, and it has no backslash. *)
Definition confined (path : bytes) : Prop :=
  Forall (λ segment, is_dot_segment segment = false) (split_on Byte.x2f (decode_segment path) [])
  ∧ Byte.x5c ∉ decode_segment path.

(** What the target checks establish of the path. *)
Definition clean (path : bytes) : Prop :=
  escapes_ok path = true ∧ encoded_slash path = false ∧ (Byte.x5c ∉ path)
  ∧ Forall (λ segment, is_dot_segment (decode_segment segment) = false) (split_on Byte.x2f path []).

Lemma decode_backslash s : escapes_ok s = true → encoded_slash s = false → Byte.x5c ∉ s →
  Byte.x5c ∉ decode_segment s.
Proof.
  revert s. apply (escapes_ind (λ s, encoded_slash s = false → Byte.x5c ∉ s → _)).
  - intros _ _. apply not_elem_of_nil.
  - intros c r Hc _ IH Hs [Hn1 Hn2]%not_elem_of_cons. rewrite decode_segment_plain by done.
    apply not_elem_of_cons; split; [done|]. apply IH; [by eapply encoded_slash_tail|done].
  - intros a b r _ _ _ IH Hs Hn. rewrite decode_escape.
    destruct (encoded_slash_head _ _ _ Hs) as [_ He]. do 3 apply encoded_slash_tail in Hs.
    rewrite !not_elem_of_cons in Hn. destruct Hn as (_ & _ & _ & Hn).
    apply not_elem_of_cons; split; [done|]. by apply IH.
Qed.

Lemma clean_confined path : clean path → confined path.
Proof.
  intros (He & Hs & Hb & Hd). split; [|by apply decode_backslash].
  rewrite split_decode by done. by apply Forall_map.
Qed.

Lemma escapes_ok_suffix a b : escapes_ok (a ++ b) = true → escapes_ok b = true.
Proof. induction a as [|c a IH]; cbn [app escapes_ok]; [done|]. intros [_ H]%andb_true_iff. by apply IH. Qed.

Lemma encoded_slash_suffix a b : encoded_slash (a ++ b) = false → encoded_slash b = false.
Proof. induction a as [|c a IH]; [done|]. intros H. apply IH. by eapply encoded_slash_tail. Qed.

Lemma clean_suffix a b : clean (a ++ Byte.x2f :: b) → clean (Byte.x2f :: b).
Proof.
  intros (He & Hs & Hb & Hd). repeat split.
  - by eapply escapes_ok_suffix.
  - by eapply encoded_slash_suffix.
  - intros H. apply Hb, elem_of_app. by right.
  - rewrite split_on_app in Hd. apply Forall_app in Hd as [_ Hd].
    rewrite split_on_sep. by constructor.
Qed.

(** ** The path of a target *)

Lemma path_of_app a s : Byte.x3f ∉ a → path_of (a ++ s) = a ++ path_of s.
Proof. intros H. unfold path_of. rewrite split_at_app by done. by destruct (split_at _ s) as [[]|]. Qed.

Lemma path_of_prefix t : ∃ q, t = path_of t ++ q ∧ (q = [] ∨ head q = Some Byte.x3f).
Proof.
  unfold path_of. destruct (split_at Byte.x3f t) as [[a b]|] eqn:E.
  - apply split_at_some in E as [-> _]. eauto.
  - exists []. rewrite app_nil_r. eauto.
Qed.

(** An escape does not run over the end of the path. *)
Lemma escapes_ok_prefix a q : escapes_ok (a ++ q) = true → (q = [] ∨ head q = Some Byte.x3f) → escapes_ok a = true.
Proof.
  intros H Hq. induction a as [|c a IH]; [done|]. cbn [app escapes_ok] in *.
  apply andb_true_iff in H as [H Ha]. rewrite IH by done. rewrite andb_true_r.
  destruct (is_char 37 c); [|done]. destruct a as [|x [|y a]]; cbn [app] in H; [| |done].
  - destruct Hq as [->|Hq]; [done|]. destruct q as [|z q]; [done|]. injection Hq as ->. by destruct q.
  - destruct Hq as [->|Hq]; [done|]. destruct q as [|z q]; [done|]. injection Hq as ->.
    by apply andb_true_iff in H as [_ H].
Qed.

Lemma target_bytes_none t c : target_bytes t = None → c ∈ t → in_range 33 126 c = true ∧ c ≠ Byte.x5c ∧ c ≠ Byte.x23.
Proof.
  induction t as [|d t IH]; cbn [target_bytes]; [by intros _ ?%not_elem_of_nil|].
  destruct ((128 <=? u8 d) || (u8 d <? 33) || (u8 d =? 127)) eqn:E1; [done|].
  destruct (is_char 92 d || is_char 35 d) eqn:E2; [done|]. intros H [->|Hc]%elem_of_cons; [|by apply IH].
  repeat (apply orb_false_iff in E1 as [E1 ?]). bools. repeat split.
  - unfold in_range. apply andb_true_iff. split; apply Z.leb_le; lia.
  - intros ->. done.
  - intros ->. done.
Qed.

Lemma dot_segments_none l : dot_segments l = None → Forall (λ segment, is_dot_segment (decode_segment segment) = false) l.
Proof.
  induction l as [|x l IH]; cbn [dot_segments]; [constructor|].
  destruct (is_dot_segment x); [done|]. destruct (is_dot_segment (decode_segment x)) eqn:E; [done|].
  intros H. constructor; [done|]. by apply IH.
Qed.

Lemma validate_target_clean t : validate_target t = None → head t = Some Byte.x2f ∧ clean (path_of t).
Proof.
  unfold validate_target. destruct (_ <? zlen t); [done|].
  destruct (bool_decide (head t = Some Byte.x2f)) eqn:Eh; [|done]. cbn [negb].
  destruct (target_bytes t) eqn:Et; [done|]. destruct (escapes_ok t) eqn:Ee; [|done]. cbn [negb].
  destruct (encoded_slash (path_of t)) eqn:Es; [done|]. intros Hd. apply bool_decide_eq_true in Eh.
  destruct (path_of_prefix t) as (q & Hq & Hcase). split; [done|]. repeat split.
  - apply (escapes_ok_prefix _ q); [|done]. by rewrite <- Hq.
  - done.
  - intros Hin. assert (Byte.x5c ∈ t) as Hin' by (rewrite Hq; apply elem_of_app; by left).
    by destruct (target_bytes_none t _ Et Hin') as (_ & ? & _).
  - by apply dot_segments_none.
Qed.

(** ** The fields of a request *)

(** The fields of a lowercase name, in order. *)
Definition fields (n : bytes) (hs : list PublicRequestHeaderView) : list PublicRequestHeaderView :=
  List.filter (λ h, bool_decide (lowered (name h) = n)) hs.

(** The names the Connection fields nominate. *)
Definition nominated_by (hs : list PublicRequestHeaderView) : list bytes :=
  flat_map (λ h, map (λ item, lowered (trim_ows item)) (split_on Byte.x2c (value h) []))
    (fields (bs "connection") hs).

(** A name of token characters and a value of visible bytes and blanks. *)
Definition field_ok (h : PublicRequestHeaderView) : Prop :=
  name h ≠ [] ∧ forallb token_char (name h) = true ∧ forallb value_byte (value h) = true.

Lemma fields_snoc n hs h :
  fields n (hs ++ [h]) = fields n hs ++ (if bool_decide (lowered (name h) = n) then [h] else []).
Proof. unfold fields. rewrite List.filter_app. cbn [List.filter]. by destruct (bool_decide _). Qed.

Lemma nominated_by_snoc hs h :
  nominated_by (hs ++ [h]) = nominated_by hs
    ++ (if bool_decide (lowered (name h) = bs "connection")
        then map (λ item, lowered (trim_ows item)) (split_on Byte.x2c (value h) []) else []).
Proof.
  unfold nominated_by. rewrite fields_snoc, flat_map_app.
  destruct (bool_decide _); cbn [flat_map]; by rewrite ?app_nil_r.
Qed.

Lemma connection_tokens_ok index items tokens : connection_tokens index items = inl tokens →
  tokens = map (λ item, lowered (trim_ows item)) items.
Proof.
  revert tokens. induction items as [|item items IH]; cbn [connection_tokens map]; intros tokens.
  { by intros [= <-]. }
  destruct (bool_decide (trim_ows item = [])); [done|]. destruct (forallb token_char (trim_ows item)); [|done].
  cbn [negb]. destruct (connection_tokens index items) as [l|] eqn:E; [|done].
  intros [= <-]. f_equal. by apply IH.
Qed.

(** What the loop has collected from the fields [pre]. *)
Definition collected (pre : list PublicRequestHeaderView) (s : Collected) : Prop :=
  lowered_names s = map (λ h, lowered (name h)) pre
  ∧ connection_nominated s = nominated_by pre
  ∧ (match host_index s with
     | None => fields (bs "host") pre = []
     | Some k => 0 <= k ∧ ∃ h, pre !! Z.to_nat k = Some h ∧ fields (bs "host") pre = [h]
     end)
  ∧ capsid_app_count s = zlen (fields (bs "capsid-app") pre)
  ∧ (match capsid_app_index s with
     | None => fields (bs "capsid-app") pre = []
     | Some k => 0 <= k ∧ ∃ h l, pre !! Z.to_nat k = Some h ∧ fields (bs "capsid-app") pre = h :: l
     end)
  ∧ Forall field_ok pre.

(** The stored positions stay good as fields follow. *)
Lemma lookup_last {A} (pre : list A) h : (pre ++ [h]) !! Z.to_nat (zlen pre) = Some h.
Proof.
  unfold zlen. rewrite Nat2Z.id, lookup_app_r by lia. by rewrite Nat.sub_diag.
Qed.

Lemma zlen_fields_le n hs : zlen (fields n hs) <= zlen hs.
Proof.
  unfold zlen, fields. induction hs as [|h hs IH]; cbn [List.filter length]; [lia|].
  destruct (bool_decide _); cbn [length]; lia.
Qed.

(** One turn of the loop, by the name of the field. *)
Lemma collect_header_effect s i h s' : collect_header s i h = inl s' →
  let n := lowered (name h) in
  field_ok h
  ∧ lowered_names s' = lowered_names s ++ [n]
  ∧ connection_nominated s' = connection_nominated s
      ++ (if bool_decide (n = bs "connection")
          then map (λ item, lowered (trim_ows item)) (split_on Byte.x2c (value h) []) else [])
  ∧ (n = bs "host" → host_index s = None)
  ∧ host_index s' = (if bool_decide (n = bs "host") then Some i else host_index s)
  ∧ capsid_app_count s' = (if bool_decide (n = bs "capsid-app") then u64 (capsid_app_count s + 1) else capsid_app_count s)
  ∧ capsid_app_index s' = (if bool_decide (n = bs "capsid-app")
                           then match capsid_app_index s with Some k => Some k | None => Some i end
                           else capsid_app_index s).
Proof.
  unfold collect_header.
  destruct (bool_decide (name h = [])) eqn:E1; [done|]. apply bool_decide_eq_false in E1.
  destruct (forallb token_char (name h)) eqn:E2; [|done].
  destruct (forallb value_byte (value h)) eqn:E3; [|done]. cbn [negb].
  assert (field_ok h) as Hf by done. revert Hf. clear E1 E2 E3. generalize (lowered (name h)). intros n Hf.
  destruct (decide (n = bs "host")) as [->|N1].
  { rewrite bool_decide_true by done. destruct (host_index s); [done|]. intros [= <-].
    split_and!; try done. symmetry. apply app_nil_r. }
  rewrite (bool_decide_false (n = bs "host")) by done.
  destruct (decide (n = bs "capsid-app")) as [->|N2].
  { rewrite bool_decide_true by done. intros [= <-]. split_and!; try done. symmetry. apply app_nil_r. }
  rewrite (bool_decide_false (n = bs "capsid-app")) by done.
  destruct (decide (n = bs "connection")) as [->|N3].
  { rewrite bool_decide_true by done. destruct (connection_tokens i _) as [tokens|] eqn:Et; [|done].
    apply connection_tokens_ok in Et as <-. intros [= <-]. done. }
  rewrite (bool_decide_false (n = bs "connection")) by done. intros [= <-]. split_and!; try done.
  symmetry. apply app_nil_r.
Qed.

Lemma collect_header_ok pre s h s' : zlen pre < 2 ^ 63 → collected pre s →
  collect_header s (zlen pre) h = inl s' → collected (pre ++ [h]) s'.
Proof.
  intros Hlen (Hn & Hc & Hh & Hk & Ha & Hf) (Hf' & Hn' & Hc' & Hu & Hh' & Hk' & Ha')%collect_header_effect.
  unfold collected. rewrite map_app, !fields_snoc, nominated_by_snoc.
  pose proof (zlen_fields_le (bs "capsid-app") pre). pose proof (zlen_nonneg (fields (bs "capsid-app") pre)).
  repeat split.
  - by rewrite Hn', Hn.
  - by rewrite Hc', Hc.
  - rewrite Hh'. destruct (decide (lowered (name h) = bs "host")) as [E|E].
    + rewrite bool_decide_true by done. rewrite (Hu E) in Hh. rewrite Hh. split; [apply zlen_nonneg|].
      exists h. split; [apply lookup_last|done].
    + rewrite bool_decide_false by done. rewrite app_nil_r. destruct (host_index s) as [k|]; [|done].
      destruct Hh as (? & x & Hx & ?). split; [done|]. exists x. split; [|done]. by apply lookup_app_l_Some.
  - rewrite Hk', Hk. destruct (bool_decide (lowered (name h) = bs "capsid-app")); [|by rewrite app_nil_r].
    rewrite zlen_app. change (zlen [h]) with 1. apply u64_small. lia.
  - rewrite Ha'. destruct (bool_decide (lowered (name h) = bs "capsid-app")); rewrite ?app_nil_r;
      destruct (capsid_app_index s) as [k|]; try done.
    + destruct Ha as (? & x & l & Hx & ->). split; [done|]. exists x, (l ++ [h]). split; [|done].
      by apply lookup_app_l_Some.
    + rewrite Ha. split; [apply zlen_nonneg|]. exists h, []. split; [apply lookup_last|done].
    + destruct Ha as (? & x & l & Hx & ?). split; [done|]. exists x, l. split; [|done].
      by apply lookup_app_l_Some.
  - apply Forall_app. split; [done|]. by constructor.
Qed.

Lemma collect_headers_ok pre s hs s' : zlen pre + zlen hs < 2 ^ 63 → collected pre s →
  collect_headers s (zlen pre) hs = inl s' → collected (pre ++ hs) s'.
Proof.
  revert pre s. induction hs as [|h hs IH]; cbn [collect_headers]; intros pre s Hlen Hc.
  { intros [= <-]. by rewrite app_nil_r. }
  rewrite zlen_cons in Hlen. pose proof (zlen_nonneg hs).
  destruct (collect_header s (zlen pre) h) as [s1|] eqn:E; [|done].
  apply collect_header_ok in E; [|lia|done]. intros Hrest.
  replace (pre ++ h :: hs) with ((pre ++ [h]) ++ hs) by (by rewrite <- app_assoc).
  apply (IH _ s1); [zlen_lia|done|]. rewrite <- Hrest. f_equal. zlen_lia.
Qed.

Lemma collected_new : collected [] new_Collected.
Proof. unfold collected. split_and!; done || constructor. Qed.

(** ** What a normalized request went through *)

Lemma normalize_inv p t hs r : normalize_public_request p t hs = inl r →
  ∃ s index a, total_header_bytes hs <= kMaxPublicRequestHeaderBytes ∧ zlen hs <= kMaxPublicRequestHeaderFields
    ∧ validate_policy p = None ∧ validate_target t = None
    ∧ collect_headers new_Collected 0 hs = inl s ∧ host_index s = Some index
    ∧ parse_authority (value_at hs index) = Some a
    ∧ route p t s hs index a = inl (application r, url r)
    ∧ headers r = output_headers (connection_nominated s) (lowered_names s) hs.
Proof.
  unfold normalize_public_request.
  destruct (_ <? zlen hs) eqn:E1; [done|]. destruct (_ <? total_header_bytes hs) eqn:E2; [done|].
  destruct (validate_policy p) eqn:E3; [done|]. destruct (validate_target t) eqn:E4; [done|].
  destruct (collect_headers new_Collected 0 hs) as [s|] eqn:E5; [|done].
  destruct (host_index s) as [index|] eqn:E6; [|done].
  destruct (parse_authority (value_at hs index)) as [a|] eqn:E7; [|done].
  destruct (route p t s hs index a) as [[app u]|] eqn:E8; [|done]. intros [= <-].
  apply Z.ltb_ge in E1, E2. by exists s, index, a.
Qed.

Lemma collect_all hs s : zlen hs <= kMaxPublicRequestHeaderFields →
  collect_headers new_Collected 0 hs = inl s → collected hs s.
Proof.
  intros Hlen. apply (collect_headers_ok []); [|apply collected_new].
  unfold kMaxPublicRequestHeaderFields in Hlen. cbn [app]. rewrite zlen_nil. lia.
Qed.

(** The field the Host checks looked at is the only one. *)
Lemma host_field hs s index : collected hs s → host_index s = Some index →
  ∃ h, fields (bs "host") hs = [h] ∧ value_at hs index = value h.
Proof.
  intros (_ & _ & Hh & _) E. rewrite E in Hh. destruct Hh as (_ & h & Hl & Hf).
  exists h. split; [done|]. unfold value_at. by rewrite Hl.
Qed.

(** The origin of the URL: of the policy, and in a subdomain route of the App
    and of the port Host names. *)
Definition public_origin (p : RequestRoutingPolicy) (app : bytes) (a : ParsedAuthority) : bytes :=
  public_scheme p ++ bs "://"
  ++ (if mode p =? kSubdomain then append_port (app ++ lowered (subdomain_suffix p)) a.2
      else match parse_authority (public_authority p) with Some b => append_port b.1 b.2 | None => [] end).

(** How the App and the target of the URL come from the request. *)
Definition routed (p : RequestRoutingPolicy) (t : bytes) (hs : list PublicRequestHeaderView) (a : ParsedAuthority)
    (app rest : bytes) : Prop :=
  (mode p = kSubdomain ∧ a.1 = app ++ lowered (subdomain_suffix p) ∧ (Byte.x2e ∉ app) ∧ rest = t)
  ∨ (mode p = kPath ∧ ∃ tail, t = kPathPrefix ++ app ++ tail ∧ rest = rewritten_target tail
       ∧ (tail = [] ∨ head tail = Some Byte.x2f ∨ head tail = Some Byte.x3f))
  ∨ (mode p = kHeader ∧ trusted_header_routing p = true
       ∧ (∃ h, fields (bs "capsid-app") hs = [h] ∧ value h = app) ∧ rest = t).

Lemma append_port_app a b port : append_port (a ++ b) port = a ++ append_port b port.
Proof. destruct port; cbn [append_port]; by rewrite <- ?app_assoc. Qed.

Lemma append_port_split text port : append_port text port = text ++ append_port [] port.
Proof. rewrite <- append_port_app. by rewrite app_nil_r. Qed.

Lemma byte_at_u8 l i b : 0 <= i → byte_at l i = u8 b → i < zlen l → l !! Z.to_nat i = Some b.
Proof.
  intros Hi. unfold byte_at. intros H Hlt. destruct (l !! Z.to_nat i) as [c|] eqn:E.
  - f_equal. apply u8_inj. by rewrite <- H.
  - apply lookup_ge_None in E. unfold zlen in Hlt. lia.
Qed.

Lemma zdrop_step {A} (l : list A) i b : 0 <= i → l !! Z.to_nat i = Some b → zdrop i l = b :: zdrop (i + 1) l.
Proof.
  intros Hi H. unfold zdrop. rewrite (drop_S l b (Z.to_nat i)) by done. f_equal. f_equal. lia.
Qed.

(** The suffix of a valid subdomain policy starts with a dot. *)
Lemma policy_suffix p : validate_policy p = None → mode p = kSubdomain →
  ∃ domain, lowered (subdomain_suffix p) = Byte.x2e :: domain.
Proof.
  unfold validate_policy. intros H Hm. destruct (_ && _); [done|]. rewrite Hm in H. cbn [Z.eqb kSubdomain] in H.
  destruct (subdomain_suffix p) as [|c domain]; [done|]. cbn [head] in H.
  destruct (bool_decide (Some c = Some Byte.x2e)) eqn:E; [|done]. apply bool_decide_eq_true in E as [= ->].
  by exists (lowered domain).
Qed.

Lemma policy_authority p : validate_policy p = None → mode p ≠ kSubdomain →
  (mode p = kPath ∨ mode p = kHeader ∧ trusted_header_routing p = true)
  ∧ ∃ b, parse_authority (public_authority p) = Some b.
Proof.
  unfold validate_policy. intros H Hm. destruct (negb _ && _); [done|].
  destruct (mode p =? kSubdomain) eqn:E; [by apply Z.eqb_eq in E|].
  destruct ((mode p =? kPath) || (mode p =? kHeader)) eqn:Em; [|done].
  destruct (_ || negb (is_valid_public_authority (public_authority p))) eqn:Ea; [done|].
  apply orb_false_iff in Ea as [_ Ea]. unfold is_valid_public_authority in Ea.
  destruct (parse_authority (public_authority p)) as [b|]; [|done]. split; [|by exists b].
  destruct ((mode p =? kHeader) && negb (trusted_header_routing p)) eqn:Et; [done|].
  apply orb_true_iff in Em as [Em|Em]; [left; by apply Z.eqb_eq|right]. rewrite Em in Et.
  split; [by apply Z.eqb_eq|]. by destruct (trusted_header_routing p).
Qed.

Lemma route_subdomain_ok p t index a app u : validate_policy p = None → mode p = kSubdomain →
  route_subdomain p t index a = inl (app, u) →
  valid_application_id app = true ∧ a.1 = app ++ lowered (subdomain_suffix p) ∧ (Byte.x2e ∉ app)
  ∧ u = public_origin p app a ++ t.
Proof.
  intros Hp Hm. destruct (policy_suffix p Hp Hm) as [domain Hs].
  unfold route_subdomain, public_origin. rewrite Hm, Hs. change (zdrop 1 (Byte.x2e :: domain)) with domain.
  change (kSubdomain =? kSubdomain) with true. cbn iota.
  set (cut := zlen a.1 - zlen domain).
  destruct ((zlen a.1 <=? zlen domain) || _ || _) eqn:E1; [done|].
  apply orb_false_iff in E1 as [E1 E3]. apply orb_false_iff in E1 as [E1 E2]. bools.
  destruct (bool_decide (ztake (cut - 1) a.1 = []) || _) eqn:E4; [done|].
  apply orb_false_iff in E4 as [_ E4]. apply bool_decide_eq_false in E4.
  destruct (valid_application_id (ztake (cut - 1) a.1)) eqn:E5; [|done]. cbn [negb].
  pose proof (zlen_nonneg domain). intros [= <- <-]. split_and!; [done| |done|].
  - rewrite <- (ztake_zdrop (cut - 1) a.1) at 1. f_equal.
    rewrite (zdrop_step a.1 (cut - 1) Byte.x2e); [|lia|apply byte_at_u8; [lia|done|lia]].
    f_equal. by replace (cut - 1 + 1) with cut by lia.
  - rewrite (append_port_split (public_scheme p ++ _)), (append_port_split (_ ++ Byte.x2e :: domain)).
    by rewrite <- !app_assoc; cbn; rewrite <- ?app_assoc.
Qed.

Lemma until_delimiter_ok s app rest : until_delimiter s = (app, rest) →
  s = app ++ rest ∧ (Byte.x3f ∉ app) ∧ (rest = [] ∨ head rest = Some Byte.x2f ∨ head rest = Some Byte.x3f).
Proof.
  revert app. induction s as [|c s IH]; cbn [until_delimiter]; intros app.
  { intros [= <- <-]. split_and!; [done|apply not_elem_of_nil|by left]. }
  destruct (is_char 47 c || is_char 63 c) eqn:E.
  - intros [= <- <-]. split_and!; [done|apply not_elem_of_nil|]. right. cbn [head].
    apply orb_true_iff in E as [E|E]; apply is_char_iff in E; [left|right]; by destruct c.
  - destruct (until_delimiter s) as [x y]. intros [= <- ->]. destruct (IH x eq_refl) as (-> & Hx & Hy).
    split_and!; [done| |done]. apply not_elem_of_cons. split; [|done]. intros <-. discriminate.
Qed.

Lemma starts_with_iff s q : starts_with s q = true ↔ ∃ rest, s = q ++ rest.
Proof.
  unfold starts_with. rewrite bool_decide_eq_true. split.
  - intros H. exists (drop (length q) s). rewrite <- H at 1. by rewrite take_drop.
  - intros [rest ->]. by rewrite take_app_length.
Qed.

Lemma route_path_ok p t authority app u : route_path p t authority = inl (app, u) →
  valid_application_id app = true ∧ (Byte.x3f ∉ app)
  ∧ ∃ tail, t = kPathPrefix ++ app ++ tail ∧ u = public_scheme p ++ bs "://" ++ authority ++ rewritten_target tail
      ∧ (tail = [] ∨ head tail = Some Byte.x2f ∨ head tail = Some Byte.x3f).
Proof.
  unfold route_path. destruct (starts_with t kPathPrefix) eqn:E; [|done]. cbn [negb].
  apply starts_with_iff in E as [rest ->]. rewrite zdrop_app by done.
  destruct (until_delimiter rest) as [x y] eqn:Eu. apply until_delimiter_ok in Eu as (-> & Hx & Hy).
  destruct (bool_decide (x = []) || negb (valid_application_id x)) eqn:Ev; [done|].
  apply orb_false_iff in Ev as [_ Ev]. bools. intros [= <- <-]. split_and!; [done..|]. by exists y.
Qed.

Lemma route_header_ok p t authority s hs app u : collected hs s → route_header p t authority s hs = inl (app, u) →
  valid_application_id app = true ∧ (∃ h, fields (bs "capsid-app") hs = [h] ∧ value h = app)
  ∧ u = public_scheme p ++ bs "://" ++ authority ++ t.
Proof.
  intros (_ & _ & _ & Hk & Ha & _). unfold route_header. rewrite Hk.
  destruct (zlen _ =? 0) eqn:E1; [done|]. destruct (1 <? zlen _) eqn:E2; [done|].
  destruct (capsid_app_index s) as [k|]; [|by rewrite Ha in E1]. destruct Ha as (_ & h & l & Hl & Hf).
  rewrite Hf in *. bools. rewrite zlen_cons in *. pose proof (zlen_nonneg l).
  assert (l = []) as -> by (apply zlen_zero; lia).
  change (default 0 (Some k)) with k. unfold value_at. rewrite Hl.
  destruct (valid_application_id (value h)) eqn:Ev; [|done]. intros [= <- <-]. split_and!; [done| |done].
  by exists h.
Qed.

Lemma route_ok p t s hs index a app u : validate_policy p = None → collected hs s →
  route p t s hs index a = inl (app, u) →
  valid_application_id app = true ∧ ∃ rest, routed p t hs a app rest ∧ u = public_origin p app a ++ rest.
Proof.
  intros Hp Hc. unfold route. destruct (decide (mode p = kSubdomain)) as [Hm|Hm].
  - rewrite (proj2 (Z.eqb_eq _ _) Hm). intros (Hv & Ha & Hd & Hu)%route_subdomain_ok; [|done..].
    split; [done|]. exists t. split; [|done]. by left.
  - rewrite (proj2 (Z.eqb_neq _ _) Hm). destruct (policy_authority p Hp Hm) as [Hmode [b Hb]].
    unfold public_origin. rewrite (proj2 (Z.eqb_neq _ _) Hm), Hb.
    destruct (mode p =? kPath) eqn:E.
    + intros (Hv & _ & tail & Ht & Hu & Htail)%route_path_ok. split; [done|]. bools.
      exists (rewritten_target tail). split; [right; left; by eauto|]. by rewrite <- !app_assoc.
    + intros (Hv & Hh & Hu)%route_header_ok; [|done]. split; [done|]. bools.
      exists t. split; [right; right; split_and!; [by destruct Hmode as [?|[? ?]]..|done|done]|].
      by rewrite <- !app_assoc.
Qed.

(** Rewriting a path route leaves a confined path. *)
Lemma rewritten_clean q tail : (Byte.x3f ∉ q) → (tail = [] ∨ head tail = Some Byte.x2f ∨ head tail = Some Byte.x3f) →
  clean (path_of (q ++ tail)) →
  head (rewritten_target tail) = Some Byte.x2f ∧ clean (path_of (rewritten_target tail)).
Proof.
  assert (clean (bs "/")) as Hroot.
  { repeat split; [|by repeat constructor]. intros [H|H]%elem_of_cons; [done|]. by apply not_elem_of_nil in H. }
  intros Hq Htail Hc. rewrite path_of_app in Hc by done. destruct tail as [|c tail]; [done|].
  destruct Htail as [?|[E|E]]; [done|injection E as ->..]; cbn [rewritten_target is_char]; split; try done.
  change (Byte.x2f :: tail) with ([Byte.x2f] ++ tail) in *. change (path_of _) with (path_of ([Byte.x2f] ++ tail)).
  rewrite path_of_app in *; [by eapply clean_suffix| |].
  all: intros [H|H]%elem_of_cons; [done|]; by apply not_elem_of_nil in H.
Qed.

Lemma app_id_no_query app : valid_application_id app = true → Byte.x3f ∉ app.
Proof.
  unfold valid_application_id. destruct app as [|c app]; [done|].
  destruct (63 <? _); [done|]. destruct (negb _); [done|]. intros H Hin.
  rewrite forallb_forall in H. apply list_elem_of_In, H in Hin. discriminate.
Qed.

Lemma routed_confined p t hs a app rest : validate_target t = None → valid_application_id app = true →
  routed p t hs a app rest → head rest = Some Byte.x2f ∧ confined (path_of rest).
Proof.
  intros [Hh Hc]%validate_target_clean Hv [(_ & _ & _ & ->)|[(_ & tail & Ht & -> & Htail)|(_ & _ & _ & ->)]];
    [by eauto using clean_confined| |by eauto using clean_confined].
  destruct (rewritten_clean (kPathPrefix ++ app) tail) as [? ?]; [|done| |by eauto using clean_confined].
  - rewrite elem_of_app. intros [H|H]; [|by apply app_id_no_query in H].
    by apply (bool_decide_eq_true_2 _) in H.
  - by rewrite <- app_assoc, <- Ht.
Qed.


(** ** The fields that travel *)

Lemma output_headers_filter nominated hs :
  output_headers nominated (map (λ h, lowered (name h)) hs) hs
  = map (λ h, mkHeaderView (lowered (name h)) (value h))
      (List.filter (λ h, negb (removed nominated (lowered (name h)))) hs).
Proof.
  induction hs as [|h hs IH]; [done|]. cbn [map output_headers List.filter].
  destruct (removed nominated (lowered (name h))); cbn [negb map]; by rewrite IH.
Qed.

(** The fields of a normalized request are exactly the end-to-end fields
    of the request, in order, with lowercase names and unchanged values: none
    of them is Host, Capsid-App, a hop-by-hop or a forwarding field, or a
    field any Connection field nominates, in whatever case either spells it. *)
Theorem end_to_end_fields p t hs r : normalize_public_request p t hs = inl r →
  headers r = map (λ h, mkHeaderView (lowered (name h)) (value h))
                (List.filter (λ h, negb (removed (nominated_by hs) (lowered (name h)))) hs)
  ∧ Forall field_ok hs.
Proof.
  intros (s & index & a & _ & Hlen & _ & _ & Hcol & _ & _ & _ & Hh)%normalize_inv.
  apply collect_all in Hcol; [|done]. destruct Hcol as (Hn & Hc & _ & _ & _ & Hf).
  by rewrite Hh, Hn, Hc, output_headers_filter.
Qed.

(** ** Authorities as text *)

Lemma authority_host_ok s host : authority_host s = Some host →
  host = lowered s ∧ forallb value_byte s = true ∧ Byte.x3a ∉ host.
Proof.
  revert host. induction s as [|c s IH]; cbn [authority_host]; intros host.
  { intros [= <-]. split_and!; [done..|apply not_elem_of_nil]. }
  destruct (_ || _) eqn:E; [|done]. destruct (authority_host s) as [rest|]; [|done].
  intros [= <-]. destruct (IH rest eq_refl) as (-> & Hv & Hn). cbn [lowered map forallb].
  split_and!; [done| |].
  - rewrite Hv, andb_true_r. clear -E. by destruct c.
  - apply not_elem_of_cons. split; [|done]. intros Hc. rewrite <- Hc in E. discriminate.
Qed.

Lemma authority_host_lower host : authority_host host = Some (lowered host) → authority_host (lowered host) = Some (lowered host).
Proof.
  induction host as [|c s IH]; [done|]. cbn [lowered map authority_host]. rewrite ascii_lower_char_idem.
  destruct (_ || _); [|done]. destruct (authority_host s) as [rest|]; [|done]. intros [= ->].
  fold (lowered s). by rewrite IH.
Qed.

Lemma port_loop_bytes s v p : port_loop s v = Some p → forallb value_byte s = true.
Proof.
  revert v. induction s as [|c s IH]; cbn [port_loop forallb]; intros v; [done|].
  destruct (ascii_digit c) eqn:E; [|done]. intros H. rewrite (IH _ H), andb_true_r.
  clear -E. by destruct c.
Qed.

Lemma port_loop_nonneg s v p : 0 <= v → port_loop s v = Some p → 0 <= p.
Proof.
  revert v. induction s as [|c s IH]; cbn [port_loop]; intros v Hv; [by intros [= <-]|].
  destruct (ascii_digit c); [|done]. apply IH, u32_range.
Qed.

Lemma authority_port_ok s port : authority_port s = Some port → 1 <= port <= 65535 ∧ forallb value_byte s = true.
Proof.
  unfold authority_port. destruct (_ || _); [done|]. destruct (port_loop s 0) as [v|] eqn:E; [|done].
  destruct ((v =? 0) || (65535 <? v)) eqn:Ev; [done|]. intros [= <-].
  apply orb_false_iff in Ev as [E1 E2]. bools. split; [|by eapply port_loop_bytes].
  apply port_loop_nonneg in E; [|lia]. rewrite u16_small; lia.
Qed.

(** An accepted text, as a host and a port. *)
Lemma parse_authority_ok s a : parse_authority s = Some a →
  ∃ text, authority_host text = Some a.1 ∧ valid_domain a.1 = true ∧ zlen a.1 <= 253
    ∧ match a.2 with
      | None => s = text
      | Some port => ∃ digits, s = text ++ Byte.x3a :: digits ∧ authority_port digits = Some port
      end.
Proof.
  unfold parse_authority. destruct (_ || _); [done|].
  destruct (split_at Byte.x3a s) as [[text digits]|] eqn:Es.
  - apply split_at_some in Es as [-> _]. destruct (authority_host text) as [host|] eqn:Eh; [|done].
    destruct (253 <? zlen host) eqn:El; [done|]. destruct (valid_domain host) eqn:Ed; [|done]. cbn [negb].
    destruct (authority_port digits) as [port|] eqn:Ep; [|done]. intros [= <-]. bools.
    exists text. split_and!; [done..|]. by exists digits.
  - destruct (authority_host s) as [host|] eqn:Eh; [|done].
    destruct (253 <? zlen host) eqn:El; [done|]. destruct (valid_domain host) eqn:Ed; [|done]. cbn [negb].
    intros [= <-]. bools. by exists s.
Qed.

Lemma authority_value_bytes s a : parse_authority s = Some a → forallb value_byte s = true.
Proof.
  intros (text & Hh & _ & _ & Hp)%parse_authority_ok. apply authority_host_ok in Hh as (_ & Hv & _).
  destruct a.2 as [port|]; [|by subst].
  destruct Hp as (digits & -> & Hp). apply authority_port_ok in Hp as [_ Hd].
  rewrite forallb_app, Hv. cbn [forallb]. by rewrite Hd.
Qed.

Lemma port_loop_decimal fuel n rest : 0 <= n < 2 ^ 32 → n < 10 ^ Z.of_nat fuel →
  port_loop (decimal_loop fuel n rest) 0 = port_loop rest n.
Proof.
  revert n rest. induction fuel as [|fuel IH]; intros n rest Hn Hlt.
  { cbn in Hlt. assert (n = 0) as -> by lia. done. }
  cbn [decimal_loop]. set (d := to_u8 (48 + n mod 10)).
  assert (0 <= n mod 10 < 10) by (apply Z.mod_pos_bound; lia).
  assert (u8 d = 48 + n mod 10) as Hd by (unfold d; rewrite u8_to_u8; apply Z.mod_small; lia).
  assert (ascii_digit d = true) as Hdig by (unfold ascii_digit, in_range; rewrite Hd; lia).
  pose proof (Z.div_mod n 10 ltac:(lia)) as Hdm.
  assert (∀ v, v * 10 + n mod 10 = n → port_loop (d :: rest) v = port_loop rest n) as Hstep.
  { intros v Hv. cbn [port_loop]. rewrite Hdig, Hd. f_equal. rewrite u32_small; lia. }
  destruct (n / 10 =? 0) eqn:E; bools; [apply Hstep; lia|].
  rewrite IH; [apply Hstep; lia| |].
  - assert (0 <= n / 10) by (apply Z.div_pos; lia). lia.
  - apply Z.div_lt_upper_bound; [lia|]. rewrite Nat2Z.inj_succ, Z.pow_succ_r in Hlt by lia. lia.
Qed.

Lemma zlen_decimal_loop fuel n k rest : (k <= fuel)%nat → 0 <= n < 10 ^ Z.of_nat k → (0 < k)%nat →
  zlen (decimal_loop fuel n rest) <= Z.of_nat k + zlen rest.
Proof.
  revert fuel n rest. induction k as [|k IH]; intros fuel n rest Hk Hn Hpos; [lia|].
  destruct fuel as [|fuel]; [lia|]. cbn [decimal_loop].
  destruct (n / 10 =? 0) eqn:E; [rewrite zlen_cons; lia|]. bools.
  rewrite Nat2Z.inj_succ, Z.pow_succ_r in Hn by lia.
  assert (0 <= n / 10 < 10 ^ Z.of_nat k).
  { split; [apply Z.div_pos; lia|]. apply Z.div_lt_upper_bound; lia. }
  etrans; [apply IH; [lia|done|]|rewrite zlen_cons; lia].
  destruct k; [cbn in *; lia|lia].
Qed.

Lemma decimal_ne n : decimal n ≠ [].
Proof.
  assert (∀ fuel m rest, rest ≠ [] → decimal_loop fuel m rest ≠ []) as H.
  { induction fuel as [|fuel IH]; intros m rest Hr; cbn [decimal_loop]; [done|].
    destruct (_ =? 0); [done|]. by apply IH. }
  unfold decimal. cbn [decimal_loop]. destruct (_ =? 0); [done|]. by apply (H 19%nat).
Qed.

Lemma authority_port_decimal port : 1 <= port <= 65535 → authority_port (decimal port) = Some port.
Proof.
  intros H. unfold authority_port. rewrite bool_decide_false by apply decimal_ne. cbn [orb].
  assert (zlen (decimal port) <= 5) as Hl.
  { etrans; [apply (zlen_decimal_loop 20 port 5 []); cbn; lia|done]. }
  rewrite (ltb_ge_false 5) by done. unfold decimal. rewrite port_loop_decimal by (cbn; lia). cbn [port_loop].
  rewrite eqb_ne_false, ltb_ge_false by lia. cbn [orb]. f_equal. apply u16_small. lia.
Qed.

(** An authority the parser accepts is canonical once printed: host and
    port, the port in decimal, parse to the same host and port again, so the
    authority in a URL denotes what was validated. *)
Theorem authority_roundtrip s a : parse_authority s = Some a → parse_authority (append_port a.1 a.2) = Some a.
Proof.
  intros (text & Hh & Hd & Hl & Hp)%parse_authority_ok. destruct a as [host port]; cbn [fst snd] in *.
  pose proof (authority_host_ok _ _ Hh) as (-> & _ & Hn). apply authority_host_lower in Hh.
  set (host := lowered text) in *.
  assert (host ≠ []) as Hne by (intros E; by rewrite E in Hd).
  unfold parse_authority. destruct port as [port|]; cbn [append_port].
  - destruct Hp as (digits & _ & Hp). apply authority_port_ok in Hp as [Hport _].
    assert (zlen (decimal port) <= 5) by (etrans; [apply (zlen_decimal_loop 20 port 5 []); cbn; lia|done]).
    rewrite bool_decide_false by (by destruct host). rewrite ltb_ge_false
      by (unfold kMaxPublicAuthorityBytes; change (bs ":") with [Byte.x3a]; zlen_lia). cbn [orb].
    rewrite split_at_app by done. change (split_at Byte.x3a (bs ":" ++ decimal port)) with (Some ([] : bytes, decimal port)).
    cbv beta iota zeta. rewrite app_nil_r, Hh, ltb_ge_false, Hd by lia. cbn [negb]. by rewrite authority_port_decimal.
  - rewrite bool_decide_false by done. rewrite ltb_ge_false by (unfold kMaxPublicAuthorityBytes; lia). cbn [orb].
    rewrite (proj2 (split_at_none _ _) Hn), Hh, ltb_ge_false, Hd by lia. done.
Qed.

Lemma authority_roundtrip_witness :
  parse_authority (bs "Api.Example.com:0443") = Some (bs "api.example.com", Some 443)
  ∧ parse_authority (append_port (bs "api.example.com") (Some 443)) = Some (bs "api.example.com", Some 443).
Proof.
  assert (parse_authority (bs "Api.Example.com:0443") = Some (bs "api.example.com", Some 443)) as H
    by (vm_compute; reflexivity).
  split; [exact H|]. exact (authority_roundtrip _ _ H).
Defined.

(** ** What Host cannot decide *)

(** The request with another value in its Host field. *)
Definition with_host (v : bytes) (h : PublicRequestHeaderView) : PublicRequestHeaderView :=
  if bool_decide (lowered (name h) = bs "host") then mkHeaderView (name h) v else h.

Section with_host.
Context (v : bytes) (b : ParsedAuthority) (Hv : parse_authority v = Some b).

Lemma collect_header_with_host s i h s' : collect_header s i h = inl s' → collect_header s i (with_host v h) = inl s'.
Proof using Hv.
  unfold with_host. destruct (bool_decide (lowered (name h) = bs "host")) eqn:E; [|done].
  unfold collect_header. cbn [name value]. destruct (bool_decide (name h = [])); [done|].
  destruct (forallb token_char (name h)); [|done]. destruct (forallb value_byte (value h)); [|done].
  rewrite (authority_value_bytes _ _ Hv). by rewrite E.
Qed.

Lemma collect_headers_with_host s i hs s' : collect_headers s i hs = inl s' →
  collect_headers s i (map (with_host v) hs) = inl s'.
Proof using Hv.
  revert s i. induction hs as [|h hs IH]; intros s i; [done|]. cbn [map collect_headers].
  destruct (collect_header s i h) as [s1|] eqn:E; [|done].
  rewrite (collect_header_with_host _ _ _ _ E). apply IH.
Qed.

Lemma with_host_other h : lowered (name h) ≠ bs "host" → with_host v h = h.
Proof using. intros H. unfold with_host. by rewrite bool_decide_false. Qed.

Lemma field_name n hs h l : fields n hs = h :: l → lowered (name h) = n.
Proof using.
  intros H. assert (In h (fields n hs)) as Hin by (rewrite H; by left).
  apply filter_In in Hin as [_ Hin]. by apply bool_decide_eq_true in Hin.
Qed.

Lemma output_with_host nominated names hs :
  names = map (λ h, lowered (name h)) hs →
  output_headers nominated names (map (with_host v) hs) = output_headers nominated names hs.
Proof using.
  intros ->. induction hs as [|h hs IH]; [done|]. cbn [map output_headers]. rewrite IH.
  destruct (decide (lowered (name h) = bs "host")) as [E|E]; [|by rewrite with_host_other].
  by rewrite E.
Qed.

Lemma route_header_with_host p t authority s hs x : collected hs s → route_header p t authority s hs = inl x →
  route_header p t authority s (map (with_host v) hs) = inl x.
Proof using.
  intros (_ & _ & _ & Hk & Ha & _). unfold route_header.
  destruct (capsid_app_count s =? 0) eqn:E; [done|]. destruct (1 <? _); [done|].
  destruct (capsid_app_index s) as [k|]; [|bools; rewrite Ha in Hk; done].
  destruct Ha as (_ & h & l & Hl & Hf). change (default 0 (Some k)) with k.
  unfold value_at. rewrite list_lookup_fmap, Hl. cbn [fmap option_fmap option_map].
  rewrite with_host_other; [done|]. by rewrite (field_name _ _ _ _ Hf).
Qed.
End with_host.

(** Outside subdomain routing what Host says decides nothing: with any
    other valid authority in its place the request is normalized to the same
    App, the same URL and the same fields, so a client cannot steer a route
    or the origin a worker sees through Host. *)
Theorem host_does_not_route p t hs r v b : mode p ≠ kSubdomain → normalize_public_request p t hs = inl r →
  parse_authority v = Some b → total_header_bytes (map (with_host v) hs) <= kMaxPublicRequestHeaderBytes →
  normalize_public_request p t (map (with_host v) hs) = inl r.
Proof.
  intros Hm (s & index & a & _ & Hlen & Hp & Ht & Hcol & Hi & Ha & Hr & Hh)%normalize_inv Hv Hbytes.
  pose proof (collect_all _ _ Hlen Hcol) as Hc.
  unfold normalize_public_request. rewrite (ltb_ge_false _ (zlen _)), (ltb_ge_false _ (total_header_bytes _)), Hp, Ht;
    [|done|by unfold zlen in *; rewrite length_map].
  rewrite (collect_headers_with_host v b Hv _ _ _ _ Hcol), Hi.
  assert (value_at (map (with_host v) hs) index = v) as ->.
  { destruct Hc as (_ & _ & Hhost & _). rewrite Hi in Hhost. destruct Hhost as (_ & h & Hl & Hf).
    unfold value_at. rewrite list_lookup_fmap, Hl. cbn [fmap option_fmap option_map]. unfold with_host.
    by rewrite (field_name _ _ _ _ Hf). }
  rewrite Hv. revert Hr. unfold route. rewrite (proj2 (Z.eqb_neq _ _) Hm).
  destruct (parse_authority (public_authority p)) as [c|]; [|done].
  rewrite output_with_host, <- Hh by apply Hc. destruct r; cbn [application url headers].
  destruct (mode p =? kPath); [by intros ->|]. intros Hr. by rewrite (route_header_with_host v _ _ _ _ _ _ Hc Hr).
Qed.

(** ** A request of each kind *)

Definition sample_path_policy : RequestRoutingPolicy :=
  mkRoutingPolicy kPath (bs "https") [] (bs "Edge.example.com:8443") false.
Definition sample_subdomain_policy : RequestRoutingPolicy :=
  mkRoutingPolicy kSubdomain (bs "https") (bs ".Apps.example.com") [] false.

Definition sample_fields : list PublicRequestHeaderView :=
  [mkHeaderView (bs "Host") (bs "shop.apps.example.com:81"); mkHeaderView (bs "Connection") (bs "Keep-Alive , X-Hop");
   mkHeaderView (bs "X-HOP") (bs "1"); mkHeaderView (bs "X-Forwarded-For") (bs "10.0.0.1");
   mkHeaderView (bs "Accept") (bs "*/*"); mkHeaderView (bs "capsid-app") (bs "other")].

Lemma sample_path_route :
  normalize_public_request sample_path_policy (bs "/@capsid/shop/a%20b/?q=../%2f") sample_fields
  = inl (mkNormalized (bs "shop") (bs "https://edge.example.com:8443/a%20b/?q=../%2f") [mkHeaderView (bs "accept") (bs "*/*")]).
Proof. vm_compute. reflexivity. Qed.

Lemma sample_subdomain_route :
  normalize_public_request sample_subdomain_policy (bs "/a?b") sample_fields
  = inl (mkNormalized (bs "shop") (bs "https://shop.apps.example.com:81/a?b") [mkHeaderView (bs "accept") (bs "*/*")]).
Proof. vm_compute. reflexivity. Qed.

(** Dot segments are refused however they are spelled. *)
Lemma dot_segment_spellings :
  Forall (λ t, ∃ e, normalize_public_request sample_path_policy t sample_fields = inr e
                    ∧ error_code e = Request_kInvalidTarget)
    [bs "/@capsid/shop/.."; bs "/@capsid/shop/../admin"; bs "/@capsid/shop/%2e%2E/admin"; bs "/@capsid/shop/.%2e";
     bs "/@capsid/shop/%2fadmin"; bs "/@capsid/shop/%5cadmin"; bs "/@capsid/shop/%2"].
Proof. repeat constructor; eexists; split; vm_compute; reflexivity. Qed.


Lemma end_to_end_fields_witness :
  ∃ r, normalize_public_request sample_subdomain_policy (bs "/a?b") sample_fields = inl r ∧ Forall field_ok sample_fields.
Proof.
  eexists. split; [exact sample_subdomain_route|].
  exact (proj2 (end_to_end_fields _ _ _ _ sample_subdomain_route)).
Defined.

Lemma host_does_not_route_witness :
  ∃ r, normalize_public_request sample_path_policy (bs "/@capsid/shop/a%20b/?q=../%2f")
         (map (with_host (bs "evil.example.org")) sample_fields) = inl r.
Proof.
  eexists.
  apply (host_does_not_route sample_path_policy _ _ _ (bs "evil.example.org") (bs "evil.example.org", None));
    [discriminate|exact sample_path_route|vm_compute; reflexivity|vm_compute; discriminate].
Defined.

(** ** The handshake gate *)

(** The scan of fields that repeat none of the four. *)
Definition scanned (pre : list PublicRequestHeaderView) (s : Handshake) : Prop :=
  let one n slot := match slot with None => fields (bs n) pre = [] | Some v => ∃ h, fields (bs n) pre = [h] ∧ value h = v end in
  one "connection" (connection s) ∧ one "upgrade" (upgrade s)
  ∧ one "sec-websocket-key" (key s) ∧ one "sec-websocket-version" (version s).

(** A field of another name leaves the fields of this one. *)
Lemma fields_other n pre v : lowered (name v) ≠ n → fields n (pre ++ [v]) = fields n pre.
Proof. intros H. rewrite fields_snoc, bool_decide_false by done. apply app_nil_r. Qed.

Lemma fields_one n pre v : lowered (name v) = n → fields n pre = [] → fields n (pre ++ [v]) = [v].
Proof. intros H Hn. by rewrite fields_snoc, bool_decide_true, Hn by done. Qed.

Lemma fields_again n pre v h : lowered (name v) = n → fields n pre = [h] → ∀ views, 1 < zlen (fields n ((pre ++ [v]) ++ views)).
Proof.
  intros H Hn views. unfold fields. rewrite List.filter_app. fold (fields n (pre ++ [v])) (fields n views).
  rewrite fields_snoc, bool_decide_true, Hn by done. cbn [app]. zlen_lia.
Qed.

Definition handshake_names : list bytes :=
  [bs "connection"; bs "upgrade"; bs "sec-websocket-key"; bs "sec-websocket-version"].

(** A turn that meets the field named by [E], whose slot is [slot]. *)
Ltac take_field E slot Hslot IH :=
  apply bool_decide_eq_true in E; destruct slot;
  [destruct Hslot as (? & Hslot & _); split; [done|]; eexists; split; [|by eapply fields_again]; rewrite <- E; cbn; set_unfold; by auto
  |apply IH; split_and!; cbn [connection upgrade key version];
   rewrite ?(fields_other (bs _)) by (by rewrite E); try done;
   eexists; split; [by apply fields_one|done]].

Lemma scan_handshake_spec pre s views : scanned pre s →
  match scan_handshake s views with
  | inl s' => scanned (pre ++ views) s'
  | inr x => x ≠ Upgrade_kValid ∧ ∃ n, n ∈ handshake_names ∧ 1 < zlen (fields n (pre ++ views))
  end.
Proof.
  revert pre s. induction views as [|v views IH]; intros pre s Hs; cbn [scan_handshake].
  { by rewrite app_nil_r. }
  replace (pre ++ v :: views) with ((pre ++ [v]) ++ views) by (by rewrite <- app_assoc).
  unfold name_iequals. destruct Hs as (H1 & H2 & H3 & H4).
  destruct (bool_decide (lowered (name v) = bs "connection")) eqn:E1; [take_field E1 (connection s) H1 IH|].
  destruct (bool_decide (lowered (name v) = bs "upgrade")) eqn:E2; [take_field E2 (upgrade s) H2 IH|].
  destruct (bool_decide (lowered (name v) = bs "sec-websocket-key")) eqn:E3; [take_field E3 (key s) H3 IH|].
  destruct (bool_decide (lowered (name v) = bs "sec-websocket-version")) eqn:E4; [take_field E4 (version s) H4 IH|].
  apply bool_decide_eq_false in E1, E2, E3, E4. apply IH.
  split_and!; by rewrite fields_other.
Qed.

(** The gate lets a WebSocket handshake through exactly when the request
    has one Connection field with the upgrade token, one Upgrade field that
    is websocket, one version that is 13 and one well-formed key. *)
Theorem upgrade_valid_exact views :
  check_websocket_upgrade views = Upgrade_kValid ↔
  ∃ c u k v, fields (bs "connection") views = [c] ∧ fields (bs "upgrade") views = [u]
    ∧ fields (bs "sec-websocket-key") views = [k] ∧ fields (bs "sec-websocket-version") views = [v]
    ∧ header_value_has_token (value c) (bs "upgrade") = true
    ∧ header_equals_token (value u) (bs "websocket") = true
    ∧ header_equals_token (value v) (bs "13") = true ∧ validate_client_key (value k) = true.
Proof.
  unfold check_websocket_upgrade.
  pose proof (scan_handshake_spec [] new_Handshake views) as H. cbn [app] in H.
  specialize (H ltac:(by repeat split)). destruct (scan_handshake new_Handshake views) as [s|x]; split.
  - destruct H as (H1 & H2 & H3 & H4).
    destruct (connection s) as [c|], (upgrade s) as [u|]; try done.
    destruct (header_value_has_token c _) eqn:T1, (header_equals_token u _) eqn:T2; try done. cbn [negb orb].
    destruct (version s) as [v|]; [|done]. destruct (header_equals_token v _) eqn:T3; [|done]. cbn [negb].
    destruct (key s) as [k|]; [|done]. destruct (validate_client_key k) eqn:T4; [|done]. intros _.
    destruct H1 as (? & ? & <-), H2 as (? & ? & <-), H3 as (? & ? & <-), H4 as (? & ? & <-). by eauto 15.
  - destruct H as (H1 & H2 & H3 & H4). intros (c & u & k & v & E1 & E2 & E3 & E4 & T1 & T2 & T3 & T4).
    rewrite E1 in H1. rewrite E2 in H2. rewrite E3 in H3. rewrite E4 in H4.
    destruct (connection s), (upgrade s), (key s), (version s); try done.
    destruct H1 as (? & [= <-] & <-), H2 as (? & [= <-] & <-), H3 as (? & [= <-] & <-), H4 as (? & [= <-] & <-).
    by rewrite T1, T2, T3, T4.
  - by destruct H as [H _].
  - destruct H as (_ & n & Hn & Hlen). intros (c & u & k & v & E1 & E2 & E3 & E4 & _). exfalso.
    unfold handshake_names in Hn. rewrite !elem_of_cons in Hn.
    destruct Hn as [->|[->|[->|[->|Hn]]]]; [rewrite ?E1, ?E2, ?E3, ?E4 in Hlen; by cbn in Hlen..|].
    by apply not_elem_of_nil in Hn.
Qed.

(** A repeated key is answered as a bad handshake on a request that asks for
    no upgrade at all. *)
Lemma repeated_key_without_upgrade :
  check_websocket_upgrade
    [mkHeaderView (bs "Host") (bs "a.example.com"); mkHeaderView (bs "Sec-WebSocket-Key") (bs "x");
     mkHeaderView (bs "Sec-WebSocket-Key") (bs "y")] = Upgrade_kBadKey.
Proof. vm_compute. reflexivity. Qed.
