(* ===== verification/ListenerCors.v ===== *)
(** * ListenerCors: CORS at the edge (src/host/listener_cors.cc)

    The decision engine both listeners share: the grammar of the configured
    values, the classification of a request, the answer to a preflight, the
    stamp on the Host's own responses and the filter over a worker's response
    fields. The field container of the HTTP library is a class whose laws are
    the documented ones (lookup finds the first field of a name, [set] leaves
    one field of it); a list of pairs is an instance. The theorems: an allowed
    preflight is exactly one the configuration permits; after the filter the
    response carries the Host's allow-origin and nothing else of that name,
    credentials only for a listed origin, and one Vary field with the origin
    token; a rejected preflight carries no allow field. *)
From Stdlib Require Import ZArith Lia.
From S2P Require Import Prelude Jansson EgressPolicy AuditRecords RequestNormalization.
Local Open Scope Z_scope.

(** ** The HTTP library's field container *)

(** Names are given in lower case, as the library's field constants compare. *)
Class BeastFields (F : Type) := {
  all_fields : F → list (bytes * bytes);
  field_at : F → bytes → bytes;
  field_set : F → bytes → bytes → F
}.

Definition named (n : bytes) (l : list (bytes * bytes)) : list (bytes * bytes) :=
  List.filter (λ f, bool_decide (lowered f.1 = n)) l.

Class BeastLaws (F : Type) `{BeastFields F} : Prop := {
  field_at_first f n : field_at f n = match named n (all_fields f) with x :: _ => x.2 | [] => [] end;
  field_set_one f n v : lowered n = n → map snd (named n (all_fields (field_set f n v))) = [v];
  field_set_other f n v m : lowered n = n → m ≠ n → named m (all_fields (field_set f n v)) = named m (all_fields f)
}.

(** ** Data *)

Record ListenerCorsConfig := mkCorsConfig {
  configured : bool;
  allowed_origins : list bytes;
  allowed_methods : list bytes;
  allowed_headers : list bytes;
  max_age_ms : Z
}.

Inductive CorsDecision := kProceed | kBadRequest | kPreflightAllowed | kPreflightRejected.

Record ListenerCors := mkCors {
  config_ : ListenerCorsConfig;
  origin_seen_ : bool;
  wildcard_ : bool;
  origin_allowed_ : bool;
  origin_ : bytes;
  decision_ : CorsDecision
}.

(** A parsed request: whether its method is OPTIONS, and its fields. *)
Record Request (F : Type) := mkCorsRequest { is_options : bool; request_fields : F }.
Arguments mkCorsRequest {F} _ _.
Arguments is_options {F} _.
Arguments request_fields {F} _.

Record Response (F : Type) := mkCorsResponse { status : Z; response_fields : F; response_body : bytes }.
Arguments mkCorsResponse {F} _ _ _.
Arguments status {F} _.
Arguments response_fields {F} _.
Arguments response_body {F} _.

(** ** Text *)

Definition ascii_case_equal (left right : bytes) : bool := bool_decide (lowered left = lowered right).

Definition is_http_tchar (c : byte) : bool :=
  in_range 97 122 c || in_range 65 90 c || in_range 48 57 c || bool_decide (c ∈ bs "!#$%&'*+-.^_`|~").

(** [value.find(sep)] for a separator of several bytes. *)
Fixpoint split_at_text (sep s : bytes) : option (bytes * bytes) :=
  if starts_with s sep then Some ([], drop (length sep) s)
  else match s with
       | [] => None
       | c :: rest => match split_at_text sep rest with Some (a, b) => Some (c :: a, b) | None => None end
       end.

Definition valid_cors_origin (value : bytes) : bool :=
  if bool_decide (value = bs "*") then true
  else match split_at_text (bs "://") value with
       | None => false
       | Some (scheme, authority) =>
           let scheme := lowered scheme in
           if negb (bool_decide (scheme = bs "http")) && negb (bool_decide (scheme = bs "https")) then false
           else is_valid_public_authority authority
       end.

Definition valid_cors_method_token (value : bytes) : bool :=
  if bool_decide (value = []) then false else forallb is_http_tchar value.

Definition valid_cors_header_token (value : bytes) : bool :=
  if bool_decide (value = []) then false else forallb is_http_tchar value.

Definition ascii_upper_char (c : byte) : byte := if in_range 97 122 c then to_u8 (u8 c - 97 + 65) else c.

(** The texts with a comma and a blank between them. *)
Definition join_comma (l : list bytes) : bytes :=
  fold_left (λ joined x, (if bool_decide (joined = []) then joined else joined ++ bs ", ") ++ x) l [].

(** The non-empty tokens of a Vary value, in lower case. *)
Definition vary_tokens (value : bytes) : list bytes :=
  map lowered (List.filter (λ item, negb (bool_decide (item = []))) (map trim_ows (split_on Byte.x2c value []))).

Definition merge_vary_origin (headers : list (bytes * bytes)) : list (bytes * bytes) :=
  let tokens := flat_map (λ h, vary_tokens h.2) (named (bs "vary") headers) in
  let filtered := List.filter (λ h, negb (bool_decide (lowered h.1 = bs "vary"))) headers in
  let tokens := if bool_decide (bs "origin" ∈ tokens) then tokens else tokens ++ [bs "origin"] in
  filtered ++ [(bs "Vary", join_comma tokens)].

(** ** The engine *)

Definition new_ListenerCors (config : ListenerCorsConfig) : ListenerCors :=
  mkCors config false (bool_decide (allowed_origins config = [bs "*"])) false [] kProceed.

(** The loop over the requested header names. *)
Definition requested_header_ok (allowed : list bytes) (item : bytes) : bool :=
  let n := lowered (trim_ows item) in
  negb (bool_decide (n = []) || negb (valid_cors_header_token n) || negb (bool_decide (n ∈ allowed))).

Section engine.
Context {F : Type} `{BeastFields F}.

Definition stamp_vary_origin (r : Response F) : Response F :=
  let existing := field_at (response_fields r) (bs "vary") in
  if existsb (λ item, ascii_case_equal (trim_ows item) (bs "origin")) (split_on Byte.x2c existing []) then r
  else mkCorsResponse (status r)
         (field_set (response_fields r) (bs "vary")
            (if bool_decide (existing = []) then bs "Origin" else existing ++ bs ", Origin"))
         (response_body r).

(** The value kept by the loop over the Origin fields: the first that is not
    empty. *)
Fixpoint first_nonempty (l : list (bytes * bytes)) (origin : bytes) : bytes :=
  match l with
  | [] => origin
  | f :: rest => first_nonempty rest (if bool_decide (origin = []) then f.2 else origin)
  end.

Definition prepare (c : ListenerCors) (request : Request F) : ListenerCors :=
  let origins := named (bs "origin") (all_fields (request_fields request)) in
  let origin := first_nonempty origins [] in
  if 1 <? zlen origins then mkCors (config_ c) false (wildcard_ c) false [] kBadRequest
  else
    let seen := negb (bool_decide (origin = [])) in
    let allowed := seen && (wildcard_ c || existsb (λ o, ascii_case_equal o origin) (allowed_origins (config_ c))) in
    let kept := if allowed then origin else [] in
    let requested_method := field_at (request_fields request) (bs "access-control-request-method") in
    if is_options request && seen && negb (bool_decide (requested_method = [])) then
      let ok :=
        allowed
        && bool_decide (map ascii_upper_char requested_method ∈ allowed_methods (config_ c))
        && (let requested := field_at (request_fields request) (bs "access-control-request-headers") in
            bool_decide (requested = [])
            || forallb (requested_header_ok (allowed_headers (config_ c))) (split_on Byte.x2c requested [])) in
      mkCors (config_ c) seen (wildcard_ c) allowed kept (if ok then kPreflightAllowed else kPreflightRejected)
    else mkCors (config_ c) seen (wildcard_ c) allowed kept kProceed.

Definition build_preflight (c : ListenerCors) (r : Response F) : Response F :=
  match decision_ c with
  | kPreflightAllowed =>
      let f := field_set (response_fields r) (bs "access-control-allow-origin") (origin_ c) in
      let f := field_set f (bs "vary") (bs "Origin") in
      let f := field_set f (bs "access-control-allow-methods") (join_comma (allowed_methods (config_ c))) in
      let f := field_set f (bs "access-control-allow-headers") (join_comma (allowed_headers (config_ c))) in
      let f := if 0 <? max_age_ms (config_ c)
               then field_set f (bs "access-control-max-age") (decimal (max_age_ms (config_ c) / 1000)) else f in
      mkCorsResponse 204 f []
  | _ =>
      let r := mkCorsResponse 403 (field_set (response_fields r) (bs "content-type") (bs "text/plain"))
                 (response_body r) in
      let r := if origin_seen_ c then stamp_vary_origin r else r in
      mkCorsResponse (status r) (response_fields r) (bs "CORS preflight rejected")
  end.

Definition stamp (c : ListenerCors) (r : Response F) : Response F :=
  let r := if origin_allowed_ c
           then mkCorsResponse (status r)
                  (field_set (response_fields r) (bs "access-control-allow-origin") (origin_ c)) (response_body r)
           else r in
  if origin_seen_ c then stamp_vary_origin r else r.
End engine.

Definition filter_headers (c : ListenerCors) (headers : list (bytes * bytes)) : list (bytes * bytes) :=
  let exact_origin := origin_allowed_ c && origin_seen_ c && negb (wildcard_ c) in
  let cors_filtered :=
    List.filter (λ h, negb (bool_decide (lowered h.1 = bs "access-control-allow-origin"))
                      && negb (bool_decide (lowered h.1 = bs "access-control-allow-credentials") && negb exact_origin))
      headers in
  let cors_filtered :=
    if origin_allowed_ c then cors_filtered ++ [(bs "access-control-allow-origin", origin_ c)] else cors_filtered in
  merge_vary_origin cors_filtered.

(** ** Blanks *)

Lemma skip_ows_idem s : skip_ows (skip_ows s) = skip_ows s.
Proof. induction s as [|c s IH]; cbn [skip_ows]; [done|]. destruct (is_ows c) eqn:E; [done|]. cbn [skip_ows]. by rewrite E. Qed.

Lemma skip_ows_suffix s : ∃ p, s = p ++ skip_ows s.
Proof.
  induction s as [|c s [p IH]]; [by exists []|]. cbn [skip_ows]. destruct (is_ows c); [|by exists []].
  exists (c :: p). cbn [app]. by rewrite <- IH.
Qed.

(** A text that starts with no blank. *)
Definition unpadded (s : bytes) : Prop := skip_ows s = s.

Lemma unpadded_prefix a b : unpadded (a ++ b) → unpadded a.
Proof.
  unfold unpadded. destruct a as [|c a]; [done|]. cbn [app skip_ows]. destruct (is_ows c); [|done].
  intros H. exfalso. destruct (skip_ows_suffix (a ++ b)) as [p Hp]. rewrite H in Hp.
  apply (f_equal length) in Hp. cbn in Hp. rewrite !length_app in Hp. cbn [length] in Hp. rewrite length_app in Hp. lia.
Qed.

Lemma trim_idem s : trim_ows (trim_ows s) = trim_ows s.
Proof.
  unfold trim_ows. set (a := skip_ows s). destruct (skip_ows_suffix (rev a)) as [p Hp].
  assert (unpadded (rev (skip_ows (rev a)))) as Hu.
  { apply (unpadded_prefix _ (rev p)). rewrite <- rev_app_distr, <- Hp, rev_involutive. apply skip_ows_idem. }
  rewrite Hu, rev_involutive, skip_ows_idem. done.
Qed.

Lemma trim_elem c s : c ∈ trim_ows s → c ∈ s.
Proof.
  unfold trim_ows. intros Hin. destruct (skip_ows_suffix s) as [p Hp], (skip_ows_suffix (rev (skip_ows s))) as [q Hq].
  rewrite Hp. apply elem_of_app. right.
  rewrite list_elem_of_In, <- in_rev, <- list_elem_of_In in Hin.
  rewrite list_elem_of_In, in_rev, Hq, in_app_iff. right. by apply list_elem_of_In.
Qed.

Lemma is_ows_lower c : is_ows (ascii_lower_char c) = is_ows c.
Proof. by destruct c. Qed.

Lemma skip_ows_lowered s : skip_ows (lowered s) = lowered (skip_ows s).
Proof.
  induction s as [|c s IH]; [done|]. cbn [lowered map skip_ows]. rewrite is_ows_lower.
  destruct (is_ows c); [apply IH|done].
Qed.

Lemma trim_lowered s : trim_ows (lowered s) = lowered (trim_ows s).
Proof.
  assert (∀ l, rev (lowered l) = lowered (rev l)) as Hr by (intros l; symmetry; apply map_rev).
  unfold trim_ows. by rewrite skip_ows_lowered, Hr, skip_ows_lowered, Hr.
Qed.

(** ** Token lists *)

Definition list_token (t : bytes) : Prop := t ≠ [] ∧ (Byte.x2c ∉ t) ∧ trim_ows t = t ∧ lowered t = t.

Lemma split_on_none c s : c ∉ s → split_on c s [] = [s].
Proof.
  induction s as [|d s IH]; [done|]. intros [Hd Hs]%not_elem_of_cons. by rewrite split_on_cons, IH.
Qed.

Lemma split_on_pieces c s item : item ∈ split_on c s [] → c ∉ item.
Proof.
  revert item. induction s as [|d s IH]; intros item.
  { intros [->|H]%elem_of_cons; [apply not_elem_of_nil|by apply not_elem_of_nil in H]. }
  destruct (decide (d = c)) as [->|Hd].
  - rewrite split_on_sep. intros [->|H]%elem_of_cons; [apply not_elem_of_nil|by apply IH].
  - rewrite split_on_cons by done. destruct (split_on c s []) as [|q l]; [by intros ?%not_elem_of_nil|].
    cbn [on_first app]. intros [->|H]%elem_of_cons; [|apply IH; by right].
    apply not_elem_of_cons. split; [done|]. apply IH. by left.
Qed.

Lemma lower_comma s : Byte.x2c ∈ lowered s → Byte.x2c ∈ s.
Proof.
  unfold lowered. rewrite !list_elem_of_In, in_map_iff. intros (c & Hc & Hin).
  replace Byte.x2c with c; [done|]. by destruct c.
Qed.

Lemma vary_tokens_ok v : Forall list_token (vary_tokens v).
Proof.
  unfold vary_tokens. apply Forall_forall. intros t Hin.
  rewrite list_elem_of_In, in_map_iff in Hin. destruct Hin as (item & <- & Hin).
  apply filter_In in Hin as [Hin Hne]. apply in_map_iff in Hin as (piece & <- & Hin).
  apply negb_true_iff, bool_decide_eq_false in Hne. apply list_elem_of_In, split_on_pieces in Hin.
  split_and!.
  - intros E. apply Hne. unfold lowered in E. by apply map_eq_nil in E.
  - intros Hc. by apply Hin, trim_elem, lower_comma.
  - by rewrite trim_lowered, trim_idem.
  - apply lowered_idem.
Qed.

Lemma join_from acc l : acc ≠ [] →
  fold_left (λ joined x, (if bool_decide (joined = []) then joined else joined ++ bs ", ") ++ x) l acc
  = acc ++ flat_map (λ x, bs ", " ++ x) l.
Proof.
  revert acc. induction l as [|x l IH]; intros acc Hacc; cbn [fold_left flat_map]; [by rewrite app_nil_r|].
  rewrite bool_decide_false by done. rewrite IH.
  - by rewrite <- !app_assoc.
  - by destruct acc.
Qed.

Lemma split_joined t l : (Byte.x2c ∉ t) → Forall list_token l →
  map trim_ows (split_on Byte.x2c (t ++ flat_map (λ x, bs ", " ++ x) l) []) = trim_ows t :: l.
Proof.
  revert t. induction l as [|x l IH]; intros t Ht Hl; cbn [flat_map].
  { rewrite app_nil_r, split_on_none by done. done. }
  apply Forall_cons in Hl as [(_ & Hx & Htr & _) Hl].
  change ((bs ", " ++ x) ++ flat_map (λ x, bs ", " ++ x) l)
    with (Byte.x2c :: (Byte.x20 :: x) ++ flat_map (λ x, bs ", " ++ x) l).
  rewrite split_on_app, split_on_none by done. cbn [app map].
  change (Byte.x20 :: x ++ ?r) with ((Byte.x20 :: x) ++ r). rewrite IH; [|by apply not_elem_of_cons|done].
  change (trim_ows (Byte.x20 :: x)) with (trim_ows x). by rewrite Htr.
Qed.

(** Joining and parsing again gives the tokens back. *)
Lemma vary_tokens_join l : l ≠ [] → Forall list_token l → vary_tokens (join_comma l) = l.
Proof.
  destruct l as [|t l]; [done|]. intros _ [(Hne & Hc & Htr & Hlow) Hl]%Forall_cons. unfold join_comma.
  cbn [fold_left]. rewrite bool_decide_true by done. cbn [app]. rewrite join_from by done.
  unfold vary_tokens. rewrite split_joined, Htr by done.
  assert (∀ k, Forall list_token k → map lowered (List.filter (λ item, negb (bool_decide (item = []))) k) = k) as Hk.
  { induction k as [|x k IH]; [done|]. intros [(Hx & _ & _ & Hxl) Hk]%Forall_cons. cbn [List.filter].
    rewrite bool_decide_false by done. cbn [negb map]. by rewrite Hxl, IH. }
  apply Hk. by constructor.
Qed.

(** ** The response fields *)

Lemma named_app n a b : named n (a ++ b) = named n a ++ named n b.
Proof. apply List.filter_app. Qed.

Lemma named_filter_out n (keep : bytes * bytes → bool) l :
  (∀ f, lowered f.1 = n → keep f = false) → named n (List.filter keep l) = [].
Proof.
  intros Hk. induction l as [|f l IH]; [done|]. cbn [List.filter]. destruct (keep f) eqn:E; [|done].
  cbn [named List.filter]. rewrite bool_decide_false; [done|]. intros H. by rewrite Hk in E.
Qed.

Lemma named_filter_in n (keep : bytes * bytes → bool) l :
  (∀ f, lowered f.1 = n → keep f = true) → named n (List.filter keep l) = named n l.
Proof.
  intros Hk. induction l as [|f l IH]; [done|]. cbn [List.filter named].
  destruct (bool_decide (lowered f.1 = n)) eqn:E.
  - apply bool_decide_eq_true in E. rewrite Hk by done. cbn [named List.filter].
    rewrite bool_decide_true by done. f_equal. apply IH.
  - destruct (keep f); cbn [named List.filter]; rewrite ?E; apply IH.
Qed.

Lemma all_vary_tokens_ok l : Forall list_token (flat_map (λ h : bytes * bytes, vary_tokens h.2) l).
Proof. induction l as [|h l IH]; cbn [flat_map]; [constructor|]. apply Forall_app. split; [apply vary_tokens_ok|done]. Qed.

(** Merging Vary leaves one Vary field, with the tokens there were and the
    origin token, and leaves the other fields. *)
Lemma merge_vary_spec l :
  (∃ v, named (bs "vary") (merge_vary_origin l) = [(bs "Vary", v)] ∧ bs "origin" ∈ vary_tokens v
        ∧ ∀ h t, h ∈ named (bs "vary") l → t ∈ vary_tokens h.2 → t ∈ vary_tokens v)
  ∧ ∀ n, n ≠ bs "vary" → named n (merge_vary_origin l) = named n l.
Proof.
  unfold merge_vary_origin. set (tokens := flat_map (λ h, vary_tokens h.2) (named (bs "vary") l)).
  set (final := if bool_decide (bs "origin" ∈ tokens) then tokens else tokens ++ [bs "origin"]).
  assert (bs "origin" ∈ final ∧ (∀ t, t ∈ tokens → t ∈ final)) as [Ho Ht].
  { unfold final. destruct (bool_decide _) eqn:E; [by apply bool_decide_eq_true in E|].
    split; [|intros t Hin]; apply elem_of_app; [right; by left|by left]. }
  assert (Forall list_token tokens) as Htok by apply all_vary_tokens_ok.
  assert (Forall list_token final) as Hfinal.
  { unfold final. destruct (bool_decide _); [done|]. apply Forall_app. split; [done|]. constructor; [|constructor].
    split_and!; try done. apply (bool_decide_eq_false_1 _). reflexivity. }
  split.
  - exists (join_comma final). rewrite vary_tokens_join; [|intros E; rewrite E in Ho; by apply not_elem_of_nil in Ho|done].
    split_and!; [|done|].
    + rewrite named_app, named_filter_out; [done|]. intros f ->. done.
    + intros h t Hh Hin. apply Ht. unfold tokens. rewrite list_elem_of_In, in_flat_map.
      exists h. split; by apply list_elem_of_In.
  - intros n Hn. rewrite named_app, named_filter_in.
    + cbn [named List.filter]. rewrite bool_decide_false by done. apply app_nil_r.
    + intros f ->. by rewrite bool_decide_false.
Qed.

Section responses.
Context {F : Type} `{BeastLaws F}.

(** What [prepare] recorded of an allowed origin. *)
Lemma prepare_allowed cfg (request : Request F) :
  let c := prepare (new_ListenerCors cfg) request in
  config_ c = cfg ∧ wildcard_ c = bool_decide (allowed_origins cfg = [bs "*"])
  ∧ (origin_allowed_ c = true →
     origin_ c ≠ [] ∧ (∃ f, named (bs "origin") (all_fields (request_fields request)) = [f] ∧ f.2 = origin_ c)
     ∧ (wildcard_ c = true ∨ ∃ o, o ∈ allowed_origins cfg ∧ lowered o = lowered (origin_ c))).
Proof using.
  unfold prepare. cbn [config_ wildcard_ new_ListenerCors].
  destruct (named (bs "origin") (all_fields (request_fields request))) as [|f [|g l]] eqn:En.
  - change (1 <? zlen (@nil (bytes * bytes))) with false. cbn [first_nonempty]. rewrite (bool_decide_true ([] = [])) by done.
    cbn [negb andb]. by destruct (is_options request).
  - change (1 <? zlen [f]) with false. change (first_nonempty [f] []) with f.2. cbv iota zeta. set (wild := bool_decide (allowed_origins cfg = [bs "*"])).
    set (allowed := negb (bool_decide (f.2 = [])) && _).
    assert (allowed = true → f.2 ≠ [] ∧ (wild = true ∨ ∃ o, o ∈ allowed_origins cfg ∧ lowered o = lowered f.2)) as Ha.
    { unfold allowed. intros [H1 H2]%andb_true_iff. apply negb_true_iff, bool_decide_eq_false in H1. split; [done|].
      apply orb_true_iff in H2 as [H2|H2]; [by left|right]. apply existsb_exists in H2 as (o & Ho & E).
      exists o. split; [by apply list_elem_of_In|]. by apply bool_decide_eq_true in E. }
    destruct (_ && _ && _); cbn [config_ wildcard_ origin_allowed_ origin_]; (split_and!; [done..|]);
      intros E; rewrite E in *; destruct (Ha eq_refl); by eauto.
  - assert (1 < zlen (f :: g :: l)) as Hlen by zlen_lia. rewrite ltb_lt_true by done. done.
Qed.

(** On a response the Host's answer stands whatever the App sent: the
    allow-origin field is the one the configuration grants the request's
    single Origin, or there is none; credentials stay only for an origin the
    configuration lists, never under the wildcard; one Vary field is left,
    with the origin token and every token the App had; every other field is
    as the App sent it. *)
Theorem cors_response_safe cfg (request : Request F) headers :
  let c := prepare (new_ListenerCors cfg) request in
  let out := filter_headers c headers in
  named (bs "access-control-allow-origin") out
    = (if origin_allowed_ c then [(bs "access-control-allow-origin", origin_ c)] else [])
  ∧ (origin_allowed_ c = true →
     (∃ f, named (bs "origin") (all_fields (request_fields request)) = [f] ∧ f.2 = origin_ c ∧ f.2 ≠ [])
     ∧ (allowed_origins cfg = [bs "*"] ∨ ∃ o, o ∈ allowed_origins cfg ∧ lowered o = lowered (origin_ c)))
  ∧ (named (bs "access-control-allow-credentials") out ≠ [] →
     allowed_origins cfg ≠ [bs "*"] ∧ ∃ o, o ∈ allowed_origins cfg ∧ lowered o = lowered (origin_ c))
  ∧ (∃ v, named (bs "vary") out = [(bs "Vary", v)] ∧ bs "origin" ∈ vary_tokens v
          ∧ ∀ h t, h ∈ named (bs "vary") headers → t ∈ vary_tokens h.2 → t ∈ vary_tokens v)
  ∧ ∀ n, n ∉ [bs "access-control-allow-origin"; bs "access-control-allow-credentials"; bs "vary"] →
      named n out = named n headers.
Proof.
  intros c out. destruct (prepare_allowed cfg request) as (_ & Hw & Hallow). fold c in Hw, Hallow.
  unfold out, filter_headers. set (exact := origin_allowed_ c && origin_seen_ c && negb (wildcard_ c)).
  set (kept := List.filter _ headers).
  set (stamped := if origin_allowed_ c then kept ++ [_] else kept).
  destruct (merge_vary_spec stamped) as [(v & Hv & Hvo & Hvt) Hother].
  assert (∀ n, n ≠ bs "access-control-allow-origin" → named n stamped = named n kept) as Hst.
  { intros n Hn. unfold stamped. destruct (origin_allowed_ c); [|done]. rewrite named_app. cbn [named List.filter].
    rewrite (bool_decide_false (_ = n)) by done. apply app_nil_r. }
  assert (∀ n, n ≠ bs "access-control-allow-origin" → n ≠ bs "access-control-allow-credentials" →
    named n kept = named n headers) as Hk.
  { intros n H1 H2. apply named_filter_in. intros f ->. by rewrite !bool_decide_false. }
  split_and!.
  - rewrite Hother by done. unfold stamped. assert (named (bs "access-control-allow-origin") kept = []) as E
      by (apply named_filter_out; intros f ->; done).
    destruct (origin_allowed_ c); [by rewrite named_app, E|done].
  - intros E. destruct (Hallow E) as (Hne & (f & Hf & Hfv) & Hcase). split; [exists f; by rewrite Hfv|].
    destruct Hcase as [Hwild|Ho]; [left|by right]. rewrite Hw in Hwild. by apply bool_decide_eq_true in Hwild.
  - rewrite Hother, Hst by done. destruct exact eqn:Ex.
    + intros _. unfold exact in Ex. apply andb_true_iff in Ex as [[Ea _]%andb_true_iff Ew].
      apply negb_true_iff in Ew. destruct (Hallow Ea) as (_ & _ & [Hc|Ho]); [by rewrite Hc in Ew|].
      split; [|done]. rewrite Hw in Ew. by apply bool_decide_eq_false in Ew.
    + intros Hc. exfalso. apply Hc, named_filter_out. intros f ->. done.
  - exists v. split_and!; [done..|]. intros h t Hh. apply Hvt. by rewrite Hst, Hk.
  - intros n Hn. rewrite !not_elem_of_cons in Hn. destruct Hn as (H1 & H2 & H3 & _).
    by rewrite Hother, Hst, Hk.
Qed.

(** The origins the configuration grants. *)
Definition origin_granted (cfg : ListenerCorsConfig) (origin : bytes) : Prop :=
  origin ≠ [] ∧ (allowed_origins cfg = [bs "*"] ∨ ∃ o, o ∈ allowed_origins cfg ∧ lowered o = lowered origin).

Lemma origin_granted_iff cfg origin :
  origin_granted cfg origin ↔
  negb (bool_decide (origin = []))
  && (bool_decide (allowed_origins cfg = [bs "*"])
      || existsb (λ o, ascii_case_equal o origin) (allowed_origins cfg)) = true.
Proof using.
  unfold origin_granted. rewrite andb_true_iff, negb_true_iff, bool_decide_eq_false, orb_true_iff, bool_decide_eq_true.
  rewrite existsb_exists. split; (intros [Hne [Hw|(o & Ho & E)]]; split; [done| |done|]); [by left|right|by left|right];
    exists o; (split; [by apply list_elem_of_In|]); by apply bool_decide_eq_true in E || by apply bool_decide_eq_true.
Qed.

Definition header_granted (cfg : ListenerCorsConfig) (item : bytes) : Prop :=
  valid_cors_header_token (lowered (trim_ows item)) = true ∧ lowered (trim_ows item) ∈ allowed_headers cfg.

Lemma header_granted_iff cfg item :
  requested_header_ok (allowed_headers cfg) item = true ↔ header_granted cfg item.
Proof using.
  unfold requested_header_ok, header_granted. rewrite negb_true_iff, !orb_false_iff, !negb_false_iff, bool_decide_eq_true.
  rewrite bool_decide_eq_false. split; [by intros [[_ ?] ?]|]. intros [Hv ?]. split_and!; [|done..].
  intros E. by rewrite E in Hv.
Qed.

(** A preflight is answered as allowed exactly when the request is an
    OPTIONS with one Origin the configuration grants, names a method the
    configuration lists, and every header it asks for is listed. *)
Theorem preflight_exact cfg (request : Request F) :
  decision_ (prepare (new_ListenerCors cfg) request) = kPreflightAllowed ↔
  let at_ n := field_at (request_fields request) (bs n) in
  is_options request = true
  ∧ (∃ f, named (bs "origin") (all_fields (request_fields request)) = [f] ∧ origin_granted cfg f.2)
  ∧ at_ "access-control-request-method" ≠ []
  ∧ map ascii_upper_char (at_ "access-control-request-method") ∈ allowed_methods cfg
  ∧ (at_ "access-control-request-headers" = []
     ∨ Forall (header_granted cfg) (split_on Byte.x2c (at_ "access-control-request-headers") [])).
Proof using.
  cbv zeta. unfold prepare. cbn [config_ wildcard_ new_ListenerCors].
  set (m := field_at _ (bs "access-control-request-method")).
  set (hs := field_at _ (bs "access-control-request-headers")).
  destruct (named (bs "origin") _) as [|f [|g l]].
  - change (1 <? zlen (@nil (bytes * bytes))) with false. cbn [first_nonempty]. rewrite (bool_decide_true ([] = [])) by done.
    cbn [negb andb]. rewrite andb_false_r. cbn [andb decision_]. split; [done|]. by intros (_ & (f & ? & _) & _).
  - change (1 <? zlen [f]) with false. change (first_nonempty [f] []) with f.2. cbv iota zeta.
    assert ((∃ g, [f] = [g] ∧ origin_granted cfg g.2) ↔ origin_granted cfg f.2) as ->.
    { split; [by intros (g & [= <-] & ?)|by exists f]. }
    rewrite origin_granted_iff. set (granted := negb (bool_decide (f.2 = [])) && _).
    assert (granted = true → bool_decide (f.2 = []) = false) as Hseen.
    { unfold granted. by intros [?%negb_true_iff _]%andb_true_iff. }
    assert (forallb (requested_header_ok (allowed_headers cfg)) (split_on Byte.x2c hs []) = true
            ↔ Forall (header_granted cfg) (split_on Byte.x2c hs [])) as Hall.
    { rewrite forallb_forall, Forall_forall. setoid_rewrite list_elem_of_In.
      split; intros Ha x Hx; by apply header_granted_iff, Ha. }
    rewrite <- Hall. destruct (is_options request); cbn [andb]; [|by split; [|intros [? _]]].
    destruct (bool_decide (m = [])) eqn:Em; bools.
    { rewrite andb_false_r. cbn [decision_]. split; [done|]. by intros (_ & _ & ? & _). }
    cbn [negb]. rewrite andb_true_r. destruct granted; cbn [andb].
    + rewrite Hseen by done. cbn [negb decision_]. destruct (bool_decide (map ascii_upper_char m ∈ _)) eqn:E1; cbn [andb]; bools.
      * destruct (bool_decide (hs = []) || forallb _ _) eqn:E2.
        -- split; [|done]. intros _. split_and!; try done. by apply orb_true_iff in E2 as [?%bool_decide_eq_true|?]; [left|right].
        -- apply orb_false_iff in E2 as [E2 E3]. apply bool_decide_eq_false in E2. split; [done|].
           intros (_ & _ & _ & _ & [?|?]); congruence.
      * split; [done|]. by intros (_ & _ & _ & ? & _).
    + split; [|by intros (_ & ? & _)]. by destruct (bool_decide (f.2 = [])).
  - rewrite ltb_lt_true by zlen_lia. split; [done|]. by intros (_ & (x & ? & _) & _).
Qed.

Lemma stamp_vary_other (r : Response F) n : n ≠ bs "vary" →
  named n (all_fields (response_fields (stamp_vary_origin r))) = named n (all_fields (response_fields r)).
Proof.
  intros Hn. unfold stamp_vary_origin. destruct (existsb _ _); [done|]. cbn [response_fields].
  by apply field_set_other.
Qed.

Lemma stamp_status (r : Response F) : status (stamp_vary_origin r) = status r.
Proof using. unfold stamp_vary_origin. by destruct (existsb _ _). Qed.

(** The answer to a preflight: an allowed one is a 204 that names the
    origin it was granted to, the configured methods and headers, and varies
    by origin; any other is a 403 that leaves every access-control field as
    it was, so a refused browser learns nothing of the configuration. *)
Theorem preflight_answer c (r : Response F) :
  let out := build_preflight c r in
  let at_ n := map snd (named (bs n) (all_fields (response_fields out))) in
  match decision_ c with
  | kPreflightAllowed =>
      status out = 204 ∧ response_body out = [] ∧ at_ "access-control-allow-origin"%string = [origin_ c] ∧ at_ "vary"%string = [bs "Origin"]
      ∧ at_ "access-control-allow-methods"%string = [join_comma (allowed_methods (config_ c))]
      ∧ at_ "access-control-allow-headers"%string = [join_comma (allowed_headers (config_ c))]
  | _ =>
      status out = 403 ∧
      ∀ n, starts_with n (bs "access-control-") = true →
        named n (all_fields (response_fields out)) = named n (all_fields (response_fields r))
  end.
Proof.
  cbv zeta. unfold build_preflight.
  assert (∀ n, starts_with n (bs "access-control-") = true → n ≠ bs "vary" ∧ n ≠ bs "content-type") as Hn.
  { intros n Hs. split; intros ->; discriminate. }
  destruct (decision_ c).
  3: { destruct (0 <? max_age_ms (config_ c)); cbn [status response_fields response_body]; split_and!; try done;
       repeat (rewrite field_set_other by done); by apply field_set_one. }
  all: split; [by destruct (origin_seen_ c); cbn [status]; rewrite ?stamp_status|]; intros n Hs;
    destruct (Hn n Hs) as [H1 H2]; cbn [response_fields]; destruct (origin_seen_ c);
    rewrite ?stamp_vary_other by done; cbn [response_fields]; by apply field_set_other.
Qed.
End responses.

(** ** The container as a list of pairs *)

#[export] Instance list_fields : BeastFields (list (bytes * bytes)) := {
  all_fields l := l;
  field_at l n := match named n l with x :: _ => x.2 | [] => [] end;
  field_set l n v := List.filter (λ f, negb (bool_decide (lowered f.1 = lowered n))) l ++ [(n, v)]
}.

#[export] Instance list_fields_laws : BeastLaws (list (bytes * bytes)).
Proof.
  split; [done| |]; intros f n v.
  - intros Hn. cbn [all_fields field_set list_fields]. rewrite named_app, named_filter_out.
    + cbn [named List.filter fst]. by rewrite bool_decide_true.
    + intros x ->. by rewrite bool_decide_true.
  - intros m Hn Hm. cbn [all_fields field_set list_fields]. rewrite named_app, named_filter_in.
    + cbn [named List.filter fst]. rewrite bool_decide_false by congruence. apply app_nil_r.
    + intros x ->. by rewrite bool_decide_false by congruence.
Qed.

Definition sample_cors : ListenerCorsConfig :=
  mkCorsConfig true [bs "https://app.example.com"] [bs "GET"; bs "PUT"] [bs "x-token"] 600000.

Definition sample_preflight : Request (list (bytes * bytes)) :=
  mkCorsRequest true [(bs "Origin", bs "https://APP.example.com"); (bs "Access-Control-Request-Method", bs "put");
                      (bs "Access-Control-Request-Headers", bs "X-Token")].

Lemma preflight_answer_witness :
  let c := prepare (new_ListenerCors sample_cors) sample_preflight in
  decision_ c = kPreflightAllowed
  ∧ map snd (named (bs "access-control-allow-origin") (all_fields (response_fields (build_preflight c (mkCorsResponse 200 [] [])))))
    = [bs "https://APP.example.com"].
Proof.
  cbv zeta. pose proof (preflight_answer (prepare (new_ListenerCors sample_cors) sample_preflight) (mkCorsResponse 200 [] [])) as H.
  assert (decision_ (prepare (new_ListenerCors sample_cors) sample_preflight) = kPreflightAllowed) as E
    by (vm_compute; reflexivity).
  cbv zeta in H. rewrite E in H. destruct H as (_ & _ & H & _). split; [exact E|]. rewrite H. vm_compute. reflexivity.
Defined.

(** The filter leaves the App's other access-control fields. *)
Lemma app_allow_methods_kept :
  filter_headers (prepare (new_ListenerCors sample_cors) sample_preflight)
    [(bs "Access-Control-Allow-Methods", bs "DELETE"); (bs "access-control-allow-ORIGIN", bs "*")]
  = [(bs "Access-Control-Allow-Methods", bs "DELETE");
     (bs "access-control-allow-origin", bs "https://APP.example.com"); (bs "Vary", bs "origin")].
Proof. vm_compute. reflexivity. Qed.
