(* ===== verification/ResponseStream.v ===== *)
(** * ResponseStream: one request of the data plane (src/host/single_worker_server.cc)

    What the listener's io thread does for one request between the worker and
    the client: the request body sent as the worker grants credit, the
    worker's response head checked and filtered, its body written in the order
    it came, the credit returned to the worker, and the end. The members of
    [PendingRequest] are a record of records; a handler maps it to a [Turn]:
    the request afterwards, the effects in order (commands to the executor and
    writes on the client's stream), and what the caller does next.

    [Drive] runs the handlers of one request along an arbitrary sequence of
    worker events and write completions. The theorems: the stream carries one
    head, then the body as the worker produced it, nothing lost, repeated or
    reordered, then the end; a declared length is met or the connection fails;
    there is never a second write while one is pending; and credit is
    conserved, so a slow client neither starves the worker nor makes the
    listener buffer more than a window. *)
From Stdlib Require Import ZArith Lia.
From S2P Require Import Prelude Jansson EgressPolicy WorkerExecutor RequestNormalization ListenerCors.
Local Open Scope Z_scope.

(** ** Configuration and data *)

Definition kEarlyCreditWindow : Z := 64 * 1024.
Definition kResponseBodyWriteBatchLimit : Z := 64 * 1024.

(** The limits of the server a request is subject to. *)
Record StreamLimits := mkStreamLimits {
  max_streaming_inflight : Z;
  stream_idle_timeout_ms : Z;
  write_timeout_ms : Z;
  credit_grant_threshold : Z
}.

(** The aggregation threshold for a response window. *)
Definition clamp_credit_grant_threshold (requested window : Z) : Z :=
  if requested =? 0 then 0 else u32 (Z.min requested (window / 4)).

Record QueuedResponseBody := mkQueuedBody { queued_bytes : bytes; credit_returned_early : bool }.

(** A streamed response: its head, and the [more] flag of its body. *)
Record StreamResponse := mkStreamResponse {
  stream_status : Z;
  stream_fields : list (bytes * bytes);
  stream_chunked : bool;
  stream_more : bool
}.

Record FixedResponse := mkFixedResponse {
  fixed_status : Z;
  fixed_fields : list (bytes * bytes);
  fixed_content : bytes
}.

Record Line := mkLine { session : Z; method : bytes; keep_alive : bool; http_version : Z }.

Record Upload := mkUpload {
  request_body : bytes;
  request_body_offset : Z;
  request_credit : Z;
  request_ended : bool
}.

Record FixedPart := mkFixedPart {
  fixed_response : option FixedResponse;
  fixed_body_expected : Z;
  fixed_body_received : Z
}.

Record StreamPart := mkStreamPart {
  response : option StreamResponse;
  outgoing : bytes;
  body_queue : list QueuedResponseBody;
  body_queue_bytes : Z;
  outgoing_credit_returned_early : bool;
  cl_known : bool;
  cl_remaining : Z;
  pending_response_credit : Z
}.

Record Flags := mkFlags { head_sent : bool; head_only : bool; writing : bool; end_seen : bool }.

(** The permit, and whether the two timers are armed. *)
Record Timers := mkTimers { holds_streaming_permit : bool; idle_timer : bool; write_timer : bool }.

Record PendingRequest := mkPending {
  line : Line;
  upload : Upload;
  fixed : FixedPart;
  stream : StreamPart;
  flags : Flags;
  timers : Timers
}.

Definition new_PendingRequest (l : Line) (body : bytes) : PendingRequest :=
  mkPending l (mkUpload body 0 0 false) (mkFixedPart None 0 0)
    (mkStreamPart None [] [] 0 false false 0 0) (mkFlags false false false false) (mkTimers false false false).

Definition set_upload (p : PendingRequest) (u : Upload) : PendingRequest :=
  mkPending (line p) u (fixed p) (stream p) (flags p) (timers p).
Definition set_fixed (p : PendingRequest) (f : FixedPart) : PendingRequest :=
  mkPending (line p) (upload p) f (stream p) (flags p) (timers p).
Definition set_stream (p : PendingRequest) (s : StreamPart) : PendingRequest :=
  mkPending (line p) (upload p) (fixed p) s (flags p) (timers p).
Definition set_flags (p : PendingRequest) (f : Flags) : PendingRequest :=
  mkPending (line p) (upload p) (fixed p) (stream p) f (timers p).
Definition set_timers (p : PendingRequest) (t : Timers) : PendingRequest :=
  mkPending (line p) (upload p) (fixed p) (stream p) (flags p) t.

Definition set_writing (p : PendingRequest) (w : bool) : PendingRequest :=
  set_flags p (mkFlags (head_sent (flags p)) (head_only (flags p)) w (end_seen (flags p))).
Definition set_head_sent (p : PendingRequest) : PendingRequest :=
  set_flags p (mkFlags true (head_only (flags p)) (writing (flags p)) (end_seen (flags p))).
Definition set_end_seen (p : PendingRequest) : PendingRequest :=
  set_flags p (mkFlags (head_sent (flags p)) (head_only (flags p)) (writing (flags p)) true).
Definition set_head_only (p : PendingRequest) (h : bool) : PendingRequest :=
  set_flags p (mkFlags (head_sent (flags p)) h (writing (flags p)) (end_seen (flags p))).
Definition set_credit (p : PendingRequest) (c : Z) : PendingRequest :=
  let s := stream p in
  set_stream p (mkStreamPart (response s) (outgoing s) (body_queue s) (body_queue_bytes s)
                  (outgoing_credit_returned_early s) (cl_known s) (cl_remaining s) c).

(** What is handed to the client's stream. A fixed response of a HEAD request
    is written without its body. *)
Inductive Send :=
| Send_head (status : Z) (fields : list (bytes * bytes)) (chunked : bool)
| Send_block (body : bytes)
| Send_end
| Send_fixed (status : Z) (fields : list (bytes * bytes)) (length : Z) (body : option bytes).

Inductive Effect := Submit (c : Command) | Retire (id : Z) | Write (w : Send).

(** What the handler's caller does with the request. *)
Inductive Action :=
| Continue
| Reject (reason : string)                (* [reject_response_head] *)
| Fail                                    (* [fail_request] *)
| Finalize                                (* [finalize_request] *)
| Ended                                   (* the end block is out *)
| Fault.                                  (* a null response is dereferenced *)

Record Turn := mkTurn { after : PendingRequest; effects : list Effect; action : Action }.

(** The result of an asynchronous write. *)
Inductive WriteResult := Write_ok | Write_need_buffer | Write_error.

(** A handler after the effects of an earlier part of it. *)
Definition prepend (es : list Effect) (t : Turn) : Turn := mkTurn (after t) (es ++ effects t) (action t).

(** ** Response fields *)

Definition is_token_char (c : byte) : bool :=
  if in_range 97 122 c || in_range 65 90 c || in_range 48 57 c then true
  else bool_decide (c ∈ bs "!#$%&'*+-.^_`|~").

Definition valid_field_value_byte (c : byte) : bool := is_char 9 c || in_range 32 126 c || (128 <=? u8 c).

Definition kEventStream : bytes := bs "text/event-stream".

Definition is_event_stream_content_type (v : bytes) : bool :=
  let v := skip_ows v in
  if (zlen v <? zlen kEventStream) || negb (bool_decide (lowered (ztake (zlen kEventStream) v) = kEventStream))
  then false
  else match skip_ows (zdrop (zlen kEventStream) v) with [] => true | c :: _ => is_char 59 c end.

(** The nominated names, or [None] for an empty or invalid one. *)
Fixpoint nominations (items : list bytes) : option (list bytes) :=
  match items with
  | [] => Some []
  | item :: rest =>
      let token := trim_ows item in
      if bool_decide (token = []) || negb (forallb is_token_char token) then None
      else match nominations rest with Some l => Some (lowered token :: l) | None => None end
  end.

Definition collect_connection_nominations (v : bytes) : option (list bytes) :=
  nominations (split_on Byte.x2c v []).

(** A decimal number that fits 64 bits. *)
Fixpoint decimal_u64 (text : bytes) (v : Z) : option Z :=
  match text with
  | [] => Some v
  | c :: rest =>
      if negb (in_range 48 57 c) then None
      else
        let digit := u8 c - 48 in
        if (u64_max - digit) / 10 <? v then None else decimal_u64 rest (v * 10 + digit)
  end.

Definition content_length_value (text : bytes) : option Z :=
  if bool_decide (text = []) then None else decimal_u64 text 0.

(** The first pass: the names nominated so far and the number of
    Content-Length fields, or [None] for a field that fails the response. *)
Fixpoint check_response_headers (hs : list (bytes * bytes)) (nominated : list bytes) (content_length_count : Z) :
    option (list bytes) :=
  match hs with
  | [] => Some nominated
  | (n, v) :: rest =>
      if bool_decide (n = []) then None
      else if negb (forallb is_token_char n) then None
      else if negb (forallb valid_field_value_byte v) then None
      else
        let lower := lowered n in
        if bool_decide (lower = bs "connection") then
          match collect_connection_nominations v with
          | Some l => check_response_headers rest (nominated ++ l) content_length_count
          | None => None
          end
        else if bool_decide (lower = bs "content-length") then
          if 1 <? content_length_count + 1 then None
          else match content_length_value v with
               | Some _ => check_response_headers rest nominated (content_length_count + 1)
               | None => None
               end
        else check_response_headers rest nominated content_length_count
  end.

Definition response_hop_by_hop (lower : bytes) : bool :=
  bool_decide (lower ∈ [bs "connection"; bs "keep-alive"; bs "proxy-connection"; bs "transfer-encoding"; bs "te";
                        bs "trailer"; bs "upgrade"; bs "proxy-authenticate"; bs "proxy-authorization"]).

Definition sanitize_response_headers (hs : list (bytes * bytes)) : option (list (bytes * bytes)) :=
  match check_response_headers hs [] 0 with
  | None => None
  | Some nominated =>
      Some (List.filter (λ h, negb (response_hop_by_hop (lowered h.1) || bool_decide (lowered h.1 ∈ nominated))) hs)
  end.

(** ** Timers, permits and credit *)

Section handlers.
Context (limits : StreamLimits) (id : Z).

Definition arm_write_timer (p : PendingRequest) : PendingRequest :=
  if write_timeout_ms limits =? 0 then p
  else set_timers p (mkTimers (holds_streaming_permit (timers p)) (idle_timer (timers p)) true).

Definition disarm_write_timer (p : PendingRequest) : PendingRequest :=
  set_timers p (mkTimers (holds_streaming_permit (timers p)) (idle_timer (timers p)) false).

Definition arm_stream_idle_timer (p : PendingRequest) : PendingRequest :=
  if stream_idle_timeout_ms limits =? 0 then p
  else set_timers p (mkTimers (holds_streaming_permit (timers p)) true (write_timer (timers p))).

(** The request and the number of slots in use, or [None] when all are. *)
Definition acquire_streaming_permit (streaming_inflight : Z) (p : PendingRequest) : option (PendingRequest * Z) :=
  if max_streaming_inflight limits =? 0 then Some (p, streaming_inflight)
  else if max_streaming_inflight limits <=? streaming_inflight then None
  else Some (set_timers p (mkTimers true (idle_timer (timers p)) (write_timer (timers p))), u64 (streaming_inflight + 1)).

Definition release_streaming_permit (streaming_inflight : Z) (p : PendingRequest) : PendingRequest * Z :=
  if negb (holds_streaming_permit (timers p)) then (p, streaming_inflight)
  else (set_timers p (mkTimers false false (write_timer (timers p))), u64 (streaming_inflight - 1)).

Definition grant_command (credit : Z) : Command :=
  mkCommand Command_kGrantResponseCredit id [] [] [] [] credit false 0.

Definition flush_pending_credit (p : PendingRequest) (force : bool) : PendingRequest * list Effect :=
  let c := pending_response_credit (stream p) in
  if c =? 0 then (p, [])
  else if (0 <? credit_grant_threshold limits) && negb force && (c <? credit_grant_threshold limits) then (p, [])
  else (set_credit p 0, [Submit (grant_command c)]).

(** [pending_response_credit += n], a [uint32_t], and the flush. *)
Definition return_credit (p : PendingRequest) (n : Z) : PendingRequest * list Effect :=
  flush_pending_credit (set_credit p (u32 (pending_response_credit (stream p) + u32 n))) false.

(** ** The request body *)

Definition advance_request_body (p : PendingRequest) : Turn :=
  let u := upload p in
  let '(u, es) :=
    if (0 <? request_credit u) && (request_body_offset u <? zlen (request_body u)) then
      let remaining := zlen (request_body u) - request_body_offset u in
      let chunk := Z.min (request_credit u) remaining in
      (mkUpload (request_body u) (request_body_offset u + chunk) (u64 (request_credit u - chunk)) (request_ended u),
       [Submit (mkCommand Command_kWriteRequest id [] [] []
                  (ztake chunk (zdrop (request_body_offset u) (request_body u))) 0 false 0)])
    else (u, []) in
  if (request_body_offset u =? zlen (request_body u)) && negb (request_ended u) then
    mkTurn (set_upload p (mkUpload (request_body u) (request_body_offset u) (request_credit u) true))
      (es ++ if end_seen (flags p) then [] else [Submit (new_Command Command_kEndRequest id)]) Continue
  else mkTurn (set_upload p u) es Continue.

Definition on_request_credit (credit : Z) (p : PendingRequest) : Turn :=
  let u := upload p in
  advance_request_body
    (set_upload p (mkUpload (request_body u) (request_body_offset u) (u64 (request_credit u + credit)) (request_ended u))).

(** ** The write queue *)

(** How many of the queued blocks join one of [size] bytes. *)
Fixpoint combine_count (early : bool) (combined_size limit : Z) (queue : list QueuedResponseBody) : nat :=
  match queue with
  | [] => 0
  | b :: rest =>
      if negb (Bool.eqb (credit_returned_early b) early) || (limit <? combined_size)
         || (limit - combined_size <? zlen (queued_bytes b))
      then 0
      else S (combine_count early (combined_size + zlen (queued_bytes b)) limit rest)
  end.

(** The block to write next, the queue and the byte count after it. *)
Definition take_coalesced_response_body (queue : list QueuedResponseBody) (count limit : Z) :
    QueuedResponseBody * list QueuedResponseBody * Z :=
  match queue with
  | [] => (mkQueuedBody [] false, [], count)
  | first :: rest =>
      let n := combine_count (credit_returned_early first) (zlen (queued_bytes first)) limit rest in
      let joined := List.concat (map queued_bytes (take n rest)) in
      (mkQueuedBody (queued_bytes first ++ joined) (credit_returned_early first), drop n rest,
       u64 (count - zlen (queued_bytes first) - zlen joined))
  end.

(** ** Writes *)

Definition write_body_block (p : PendingRequest) (block : bytes) (early : bool) : Turn :=
  let s := stream p in
  if cl_known s && (cl_remaining s <? zlen block) then mkTurn p [] Fail
  else
    let remaining := if cl_known s then cl_remaining s - zlen block else cl_remaining s in
    match response s with
    | None => mkTurn p [] Fault
    | Some r =>
        let r := mkStreamResponse (stream_status r) (stream_fields r) (stream_chunked r) true in
        let p := set_stream p (mkStreamPart (Some r) block (body_queue s) (body_queue_bytes s) early (cl_known s)
                                 remaining (pending_response_credit s)) in
        mkTurn (arm_write_timer (set_writing p true)) [Write (Send_block block)] Continue
    end.

Definition write_end_block (p : PendingRequest) : Turn :=
  let s := stream p in
  if cl_known s && (0 <? cl_remaining s) then mkTurn p [] Fail
  else
    match response s with
    | None => mkTurn p [] Fault
    | Some r =>
        let r := mkStreamResponse (stream_status r) (stream_fields r) (stream_chunked r) false in
        let p := set_stream p (mkStreamPart (Some r) (outgoing s) (body_queue s) (body_queue_bytes s)
                                 (outgoing_credit_returned_early s) (cl_known s) (cl_remaining s)
                                 (pending_response_credit s)) in
        mkTurn (arm_write_timer (set_writing p true)) [Write Send_end] Continue
    end.

Definition write_fixed_response (p : PendingRequest) : Turn :=
  match fixed_response (fixed p) with
  | None => mkTurn p [] Fault
  | Some r =>
      mkTurn (arm_write_timer (set_writing p true))
        [Write (Send_fixed (fixed_status r) (fixed_fields r) (fixed_body_expected (fixed p))
                  (if head_only (flags p) then None else Some (fixed_content r)))] Continue
  end.

(** The next queued block is written. *)
Definition write_next_block (p : PendingRequest) : Turn :=
  let s := stream p in
  let '(b, queue, count) := take_coalesced_response_body (body_queue s) (body_queue_bytes s) kResponseBodyWriteBatchLimit in
  let p := set_stream p (mkStreamPart (response s) (outgoing s) queue count (outgoing_credit_returned_early s)
                           (cl_known s) (cl_remaining s) (pending_response_credit s)) in
  write_body_block p (queued_bytes b) (credit_returned_early b).

(** ** Worker events *)

Definition first_field (n : bytes) (hs : list (bytes * bytes)) : option bytes :=
  match named n hs with f :: _ => Some f.2 | [] => None end.

(** The first Content-Type decides whether the response is an event stream. *)
Definition is_sse (hs : list (bytes * bytes)) : bool :=
  match first_field (bs "content-type") hs with Some v => is_event_stream_content_type v | None => false end.

(** [kResponseHead] for a fixed body, after the common checks. *)
Definition fixed_response_head (event : WorkerEvent) (hs : list (bytes * bytes)) (p : PendingRequest) : Turn :=
  let f := fixed p in
  let p := set_fixed p (mkFixedPart (Some (mkFixedResponse (event_status event) hs [])) (fixed_body_expected f)
                          (fixed_body_received f)) in
  match first_field (bs "content-length") hs with
  | Some text =>
      match content_length_value text with
      | Some v =>
          if v =? fixed_body_size event
          then mkTurn (set_fixed p (mkFixedPart (fixed_response (fixed p)) (fixed_body_size event) 0)) [] Continue
          else mkTurn p [] (Reject "fixed response Content-Length mismatch")
      | None => mkTurn p [] (Reject "fixed response Content-Length mismatch")
      end
  | None => mkTurn (set_fixed p (mkFixedPart (fixed_response (fixed p)) (fixed_body_size event) 0)) [] Continue
  end.

(** [kResponseHead] for a streamed body: the head is written. *)
Definition stream_response_head (event : WorkerEvent) (hs : list (bytes * bytes)) (p : PendingRequest) : Turn :=
  let s := stream p in
  let declared := first_field (bs "content-length") hs in
  let chunked := match declared with Some _ => false | None => true end in
  let r := mkStreamResponse (event_status event) hs chunked true in
  let with_length known remaining :=
    set_stream p (mkStreamPart (Some r) (outgoing s) (body_queue s) (body_queue_bytes s)
                    (outgoing_credit_returned_early s) known remaining (pending_response_credit s)) in
  match declared with
  | Some text =>
      match content_length_value text with
      | None => mkTurn (with_length (cl_known s) (cl_remaining s)) [] (Reject "invalid worker Content-Length")
      | Some v => mkTurn (arm_write_timer (set_writing (with_length true v) true))
                    [Write (Send_head (event_status event) hs chunked)] Continue
      end
  | None => mkTurn (arm_write_timer (set_writing (with_length (cl_known s) (cl_remaining s)) true))
              [Write (Send_head (event_status event) hs chunked)] Continue
  end.

(** The turn and the streaming slots in use after it. *)
Definition on_response_head (cors : option ListenerCors) (streaming_inflight : Z) (event : WorkerEvent)
    (p : PendingRequest) : Turn * Z :=
  if (event_status event <? 200) || (599 <? event_status event)
  then (mkTurn p [] (Reject "invalid worker response status"), streaming_inflight)
  else
    let hs := match cors with Some c => filter_headers c (event_headers event) | None => event_headers event end in
    match sanitize_response_headers hs with
    | None => (mkTurn p [] (Reject "invalid worker response headers"), streaming_inflight)
    | Some hs =>
        let permit := if is_sse hs then acquire_streaming_permit streaming_inflight p else Some (p, streaming_inflight) in
        match permit with
        | None => (mkTurn p [] (Reject "streaming capacity exhausted"), streaming_inflight)
        | Some (p, streaming_inflight) =>
            let p := set_head_only p (bool_decide (method (line p) = bs "HEAD")) in
            (if fixed_body event then fixed_response_head event hs p else stream_response_head event hs p,
             streaming_inflight)
        end
    end.

Definition on_response_body (body : bytes) (p : PendingRequest) : Turn :=
  let p := if holds_streaming_permit (timers p) then arm_stream_idle_timer p else p in
  let f := fixed p in
  match fixed_response f with
  | Some r =>
      if (fixed_body_expected f <? fixed_body_received f)
         || (fixed_body_expected f - fixed_body_received f <? zlen body)
      then mkTurn p [] Fail
      else
        let r := if head_only (flags p) then r
                 else mkFixedResponse (fixed_status r) (fixed_fields r) (fixed_content r ++ body) in
        mkTurn (set_fixed p (mkFixedPart (Some r) (fixed_body_expected f) (fixed_body_received f + zlen body))) []
          Continue
  | None =>
      let early := body_queue_bytes (stream p) <? kEarlyCreditWindow in
      let '(p, es) := if early then return_credit p (zlen body) else (p, []) in
      if head_only (flags p) then mkTurn p es Continue
      else if writing (flags p) then
        let s := stream p in
        mkTurn (set_stream p (mkStreamPart (response s) (outgoing s) (body_queue s ++ [mkQueuedBody body early])
                                (u64 (body_queue_bytes s + zlen body)) (outgoing_credit_returned_early s) (cl_known s)
                                (cl_remaining s) (pending_response_credit s))) es Continue
      else prepend es (write_body_block p body early)
  end.

Definition on_response_end (p : PendingRequest) : Turn :=
  let '(p, es) := flush_pending_credit (set_end_seen p) true in
  prepend (es ++ [Retire id])
    (match fixed_response (fixed p) with
     | Some _ =>
         if negb (fixed_body_received (fixed p) =? fixed_body_expected (fixed p)) then mkTurn p [] Fail
         else write_fixed_response p
     | None =>
         if head_only (flags p) then mkTurn p [] (if writing (flags p) then Continue else Finalize)
         else if writing (flags p) then mkTurn p [] Continue
         else write_end_block p
     end).

(** ** Write completions *)

Definition write_failed (ec : WriteResult) : bool :=
  match ec with Write_ok => false | _ => true end.

Definition on_head_written (ec : WriteResult) (p : PendingRequest) : Turn :=
  let p := disarm_write_timer (set_writing p false) in
  if write_failed ec then mkTurn p [] Fail
  else
    let p := set_head_sent p in
    let p := if holds_streaming_permit (timers p) then arm_stream_idle_timer p else p in
    match body_queue (stream p) with
    | _ :: _ => write_next_block p
    | [] =>
        if end_seen (flags p) then if head_only (flags p) then mkTurn p [] Finalize else write_end_block p
        else mkTurn p [] Continue
    end.

Definition on_block_written (ec : WriteResult) (p : PendingRequest) : Turn :=
  let p := disarm_write_timer (set_writing p false) in
  if match ec with Write_error => true | _ => false end then mkTurn p [] Fail
  else
    let s := stream p in
    let '(p, es) :=
      if negb (end_seen (flags p)) && negb (outgoing_credit_returned_early s)
      then return_credit p (zlen (outgoing s)) else (p, []) in
    let s := stream p in
    let p := set_stream p (mkStreamPart (response s) [] (body_queue s) (body_queue_bytes s) false (cl_known s)
                             (cl_remaining s) (pending_response_credit s)) in
    prepend es
      (match body_queue (stream p) with
       | _ :: _ => write_next_block p
       | [] => if end_seen (flags p) then write_end_block p else mkTurn p [] Continue
       end).

Definition on_fixed_written (ec : WriteResult) (p : PendingRequest) : Turn :=
  let p := disarm_write_timer (set_writing p false) in
  if write_failed ec then mkTurn p [] Fail else mkTurn (set_head_sent p) [] Finalize.

Definition on_end_written (ec : WriteResult) (p : PendingRequest) : Turn :=
  let p := disarm_write_timer (set_writing p false) in
  if write_failed ec then mkTurn p [] Fail else mkTurn p [] Ended.

(** Whether a keep-alive client may already send its next request. *)
Definition response_may_complete_early (p : PendingRequest) : bool :=
  let f := fixed p in
  match fixed_response f with
  | Some _ => end_seen (flags p) && (fixed_body_received f =? fixed_body_expected f)
  | None =>
      if head_only (flags p) then writing (flags p) || head_sent (flags p)
      else if cl_known (stream p) then cl_remaining (stream p) =? 0
      else if negb (end_seen (flags p)) then false
      else match response (stream p) with Some r => negb (stream_more r) | None => false end
  end.
End handlers.

(** ** A request driven by the worker and the client *)

Inductive OpKind := Op_head | Op_block | Op_end | Op_fixed.

Definition op_of (w : Send) : OpKind :=
  match w with
  | Send_head _ _ _ => Op_head
  | Send_block _ => Op_block
  | Send_end => Op_end
  | Send_fixed _ _ _ _ => Op_fixed
  end.

Definition writes (es : list Effect) : list Send :=
  omap (λ e, match e with Write w => Some w | _ => None end) es.

(** The credit the commands grant. *)
Definition grants (es : list Effect) : Z :=
  fold_right (λ e n, match e with
                     | Submit c => if bool_decide (command_type c = Command_kGrantResponseCredit)
                                   then command_credit c + n else n
                     | _ => n
                     end) 0 es.

Inductive Input :=
| In_credit (credit : Z)
| In_head (cors : option ListenerCors) (streaming_inflight : Z) (event : WorkerEvent)
| In_body (body : bytes)
| In_end
| In_written (ec : WriteResult).

(** The request, the pending writes, the effects so far, the body bytes the
    worker has sent, and how the request left, if it did. *)
Record Drive := mkDrive {
  dr_request : PendingRequest;
  dr_ops : list OpKind;
  dr_effects : list Effect;
  dr_received : bytes;
  dr_done : option Action
}.

Definition new_Drive (l : Line) (body : bytes) : Drive := mkDrive (new_PendingRequest l body) [] [] [] None.

Definition apply_turn (d : Drive) (ops : list OpKind) (received : bytes) (t : Turn) : Drive :=
  mkDrive (after t) (ops ++ map op_of (writes (effects t))) (dr_effects d ++ effects t) (dr_received d ++ received)
    (match action t with Continue => None | a => Some a end).

Section drive.
Context (limits : StreamLimits) (id : Z).

(** The handler of the oldest pending write. *)
Definition on_written (op : OpKind) (ec : WriteResult) (p : PendingRequest) : Turn :=
  match op with
  | Op_head => on_head_written limits ec p
  | Op_block => on_block_written limits id ec p
  | Op_end => on_end_written ec p
  | Op_fixed => on_fixed_written ec p
  end.

Definition drive_step (d : Drive) (i : Input) : Drive :=
  match dr_done d with
  | Some _ => d
  | None =>
      let p := dr_request d in
      match i with
      | In_credit credit => apply_turn d (dr_ops d) [] (on_request_credit id credit p)
      | In_head cors streaming event => apply_turn d (dr_ops d) [] (on_response_head limits cors streaming event p).1
      | In_body body => apply_turn d (dr_ops d) body (on_response_body limits id body p)
      | In_end => apply_turn d (dr_ops d) [] (on_response_end limits id p)
      | In_written ec =>
          match dr_ops d with
          | [] => d
          | op :: ops => apply_turn d ops [] (on_written op ec p)
          end
      end
  end.

Definition drive (inputs : list Input) (d : Drive) : Drive := fold_left drive_step inputs d.
End drive.

(** The order of a worker's events for one request: a head, the body, the
    end, and credit for the request body only before the end. *)
Inductive Phase := Phase_open | Phase_head | Phase_end.

Definition next_phase (ph : Phase) (i : Input) : option Phase :=
  match i, ph with
  | In_written _, _ => Some ph
  | In_credit _, (Phase_open | Phase_head) => Some ph
  | In_head _ _ _, Phase_open => Some Phase_head
  | In_body _, Phase_head => Some Phase_head
  | In_end, Phase_head => Some Phase_end
  | _, _ => None
  end.

Fixpoint phase_after (ph : Phase) (inputs : list Input) : option Phase :=
  match inputs with
  | [] => Some ph
  | i :: rest => match next_phase ph i with Some ph => phase_after ph rest | None => None end
  end.

(** ** What is on the stream *)

(** The length a head declares. *)
Definition declared_length (fields : list (bytes * bytes)) : option Z :=
  match first_field (bs "content-length") fields with Some text => content_length_value text | None => None end.

(** What may be on the stream of a request whose worker has sent [received]:
    nothing; a head and blocks that are the start of the body, within the
    declared length; those with the end after the whole body; or one fixed
    response with all of it. *)
Inductive on_wire (received : bytes) : list Send → Prop :=
| wire_none : on_wire received []
| wire_stream status fields chunked blocks :
    List.concat blocks `prefix_of` received →
    (∀ n, declared_length fields = Some n → zlen (List.concat blocks) <= n) →
    on_wire received (Send_head status fields chunked :: map Send_block blocks)
| wire_ended status fields chunked blocks :
    List.concat blocks = received →
    (∀ n, declared_length fields = Some n → zlen received = n) →
    on_wire received (Send_head status fields chunked :: map Send_block blocks ++ [Send_end])
| wire_fixed status fields body :
    (∀ b, body = Some b → b = received) →
    on_wire received [Send_fixed status fields (zlen received) body].

(** The bytes of a queue. *)
Definition queue_text (q : list QueuedResponseBody) : bytes := List.concat (map queued_bytes q).

(** The bytes of a queue whose credit is still to be returned. *)
Definition queue_owed (q : list QueuedResponseBody) : Z :=
  fold_right (λ b n, (if credit_returned_early b then 0 else zlen (queued_bytes b)) + n) 0 q.

(** The bytes of a queue whose credit was returned on receipt. *)
Definition queue_early (q : list QueuedResponseBody) : Z :=
  fold_right (λ b n, (if credit_returned_early b then zlen (queued_bytes b) else 0) + n) 0 q.

(** ** Queues *)

Lemma queue_text_app a b : queue_text (a ++ b) = queue_text a ++ queue_text b.
Proof. unfold queue_text. by rewrite map_app, concat_app. Qed.

Lemma queue_owed_cons b q : queue_owed (b :: q) = (if credit_returned_early b then 0 else zlen (queued_bytes b)) + queue_owed q.
Proof. done. Qed.

Lemma queue_early_cons b q : queue_early (b :: q) = (if credit_returned_early b then zlen (queued_bytes b) else 0) + queue_early q.
Proof. done. Qed.

Lemma queue_text_cons b q : queue_text (b :: q) = queued_bytes b ++ queue_text q.
Proof. done. Qed.

Lemma queue_split q : zlen (queue_text q) = queue_owed q + queue_early q.
Proof.
  induction q as [|b q IH]; [done|]. rewrite queue_text_cons, queue_owed_cons, queue_early_cons, zlen_app, IH.
  destruct (credit_returned_early b); lia.
Qed.

Lemma queue_parts_nonneg q : 0 <= queue_owed q ∧ 0 <= queue_early q.
Proof.
  induction q as [|b q IH]; [done|]. rewrite queue_owed_cons, queue_early_cons.
  pose proof (zlen_nonneg (queued_bytes b)). destruct (credit_returned_early b); lia.
Qed.

Lemma queue_owed_app a b : queue_owed (a ++ b) = queue_owed a + queue_owed b.
Proof. induction a as [|x a IH]; cbn [app]; [done|]. rewrite !queue_owed_cons. lia. Qed.

Lemma queue_early_app a b : queue_early (a ++ b) = queue_early a + queue_early b.
Proof. induction a as [|x a IH]; cbn [app]; [done|]. rewrite !queue_early_cons. lia. Qed.

(** The blocks that are joined have the flag of the first. *)
Lemma combined_flag early size limit q : let l := take (combine_count early size limit q) q in
  queue_owed l = (if early then 0 else zlen (queue_text l)) ∧ queue_early l = (if early then zlen (queue_text l) else 0).
Proof.
  revert size. induction q as [|b q IH]; intros size; cbn [combine_count take]; [by destruct early|].
  destruct (_ || _ || _) eqn:E; cbn [take]; [by destruct early|].
  repeat (apply orb_false_iff in E as [E ?]). apply negb_false_iff, eqb_prop in E.
  destruct (IH (size + zlen (queued_bytes b))) as [H1 H2]. rewrite queue_owed_cons, queue_early_cons, queue_text_cons, zlen_app, H1, H2, E. by destruct early.
Qed.

(** Taking the next block splits the queue. *)
Lemma take_coalesced_split q count limit b rest n : q ≠ [] → count = zlen (queue_text q) → count < 2 ^ 64 →
  take_coalesced_response_body q count limit = (b, rest, n) →
  queue_text q = queued_bytes b ++ queue_text rest ∧ n = zlen (queue_text rest)
  ∧ queue_owed q = (if credit_returned_early b then 0 else zlen (queued_bytes b)) + queue_owed rest
  ∧ queue_early q = (if credit_returned_early b then zlen (queued_bytes b) else 0) + queue_early rest.
Proof.
  destruct q as [|x q]; [done|]. intros _ Hcount Hlt. cbn [take_coalesced_response_body].
  set (k := combine_count _ _ _ q). destruct (combined_flag (credit_returned_early x) (zlen (queued_bytes x)) limit q) as [H1 H2].
  fold k in H1, H2. change (List.concat (map queued_bytes (take k q))) with (queue_text (take k q)).
  intros E. apply (f_equal fst) in E as E1. apply (f_equal snd) in E as E2. cbn [fst snd] in E1, E2.
  injection E1 as <- <-. subst n. cbn [queued_bytes credit_returned_early].
  assert (queue_text (x :: q) = (queued_bytes x ++ queue_text (take k q)) ++ queue_text (drop k q)) as Htext.
  { rewrite <- app_assoc, <- queue_text_app, take_drop. done. }
  pose proof (zlen_nonneg (queue_text (drop k q))). pose proof (zlen_nonneg (queued_bytes x)).
  pose proof (zlen_nonneg (queue_text (take k q))). rewrite Htext, !zlen_app in Hcount.
  split_and!; [done| | |].
  - rewrite u64_small; lia.
  - rewrite queue_owed_cons. rewrite <- (take_drop k q) at 1.
    rewrite queue_owed_app, H1, zlen_app. destruct (credit_returned_early x); lia.
  - rewrite queue_early_cons. rewrite <- (take_drop k q) at 1.
    rewrite queue_early_app, H2, zlen_app. destruct (credit_returned_early x); lia.
Qed.

Lemma combined_size early size limit q : let l := take (combine_count early size limit q) q in
  size + zlen (queue_text l) <= Z.max size limit.
Proof.
  revert size. induction q as [|b q IH]; intros size; cbn [combine_count take]; [change (zlen (queue_text [])) with 0; lia|].
  destruct (_ || _ || _) eqn:E; cbn [take]; [change (zlen (queue_text [])) with 0; lia|].
  repeat (apply orb_false_iff in E as [E ?]). bools. specialize (IH (size + zlen (queued_bytes b))). cbn zeta in IH.
  rewrite queue_text_cons, zlen_app. lia.
Qed.

(** The next block is a frame or within the limit, and the rest are frames. *)
Lemma take_coalesced_sizes q count limit b rest n F : Forall (λ x, zlen (queued_bytes x) <= F) q → q ≠ [] →
  take_coalesced_response_body q count limit = (b, rest, n) →
  zlen (queued_bytes b) <= Z.max F limit ∧ Forall (λ x, zlen (queued_bytes x) <= F) rest.
Proof.
  destruct q as [|x q]; [done|]. intros [Hx Hq]%Forall_cons _. cbn [take_coalesced_response_body].
  pose proof (combined_size (credit_returned_early x) (zlen (queued_bytes x)) limit q) as Hs. cbn zeta in Hs.
  intros E. apply (f_equal fst) in E. cbn [fst] in E. injection E as <- <-. cbn [queued_bytes]. split.
  - rewrite zlen_app. fold (queue_text (take (combine_count (credit_returned_early x) (zlen (queued_bytes x)) limit q) q)). lia.
  - by apply Forall_drop.
Qed.

Lemma writes_app a b : writes (a ++ b) = writes a ++ writes b.
Proof. apply omap_app. Qed.

Lemma grants_app a b : grants (a ++ b) = grants a + grants b.
Proof.
  induction a as [|e a IH]; [done|]. cbn [app grants fold_right]. fold (grants (a ++ b)) (grants a).
  destruct e as [c| |]; [destruct (bool_decide _)|..]; lia.
Qed.

(** ** The states of a live request *)

#[export] Instance Phase_eq_dec : EqDecision Phase.
Proof. solve_decision. Defined.

(** Projections of a request after an update. *)
Ltac project :=
  cbn [line upload fixed stream flags timers set_upload set_fixed set_stream set_flags set_timers set_writing set_head_sent
       set_end_seen set_head_only set_credit response outgoing body_queue body_queue_bytes outgoing_credit_returned_early
       cl_known cl_remaining pending_response_credit head_sent head_only writing end_seen holds_streaming_permit
       idle_timer write_timer fixed_response fixed_body_expected fixed_body_received after effects action] in *.

Section live.
Context (limits : StreamLimits) (frame : Z).

(** Credit withheld below the threshold. *)
Definition credit_small (c : Z) : Prop := 0 <= c ∧ (c = 0 ∨ c < credit_grant_threshold limits).

(** A block is a frame, or frames joined up to the limit. *)
Definition block_limit : Z := Z.max frame kResponseBodyWriteBatchLimit.

(** A streamed response of which [blocks] are written, [extra] is about to be,
    and the queue is the rest of what was received; [owed] is the credit to be
    returned for what is being written. *)
Record core (ph : Phase) (p : PendingRequest) (ws : list Send) (received : bytes) (granted : Z)
    (status : Z) (fields : list (bytes * bytes)) (chunked : bool) (blocks : list bytes) (extra : bytes) (owed : Z) : Prop := {
  c_writes : ws = Send_head status fields chunked :: map Send_block blocks;
  c_response : response (stream p) ≠ None;
  c_fixed : fixed_response (fixed p) = None;
  c_end : end_seen (flags p) = bool_decide (ph = Phase_end);
  c_phase : ph ≠ Phase_open;
  c_head_only : head_only (flags p) = false;
  c_text : List.concat blocks ++ extra ++ queue_text (body_queue (stream p)) = received;
  c_count : body_queue_bytes (stream p) = zlen (queue_text (body_queue (stream p)));
  c_length :
    match declared_length fields with
    | Some n => cl_known (stream p) = true ∧ cl_remaining (stream p) = n - zlen (List.concat blocks)
                ∧ 0 <= cl_remaining (stream p)
    | None => cl_known (stream p) = false
    end;
  c_credit : ph = Phase_head →
    granted + pending_response_credit (stream p) + queue_owed (body_queue (stream p)) + owed = zlen received;
  c_bound : granted + pending_response_credit (stream p) <= zlen received;
  c_pending : credit_small (pending_response_credit (stream p));
  c_early : queue_early (body_queue (stream p)) <= kEarlyCreditWindow + frame;
  c_frames : Forall (λ b, zlen (queued_bytes b) <= frame) (body_queue (stream p));
  c_extra : zlen extra <= block_limit
}.

(** Between events: no write pending, the head being written, a block being
    written, or the end being written. *)
Inductive streaming (ph : Phase) (p : PendingRequest) (received : bytes) (granted : Z) : list OpKind → list Send → Prop :=
| s_idle ws status fields chunked blocks :
    core ph p ws received granted status fields chunked blocks [] 0 →
    writing (flags p) = false → body_queue (stream p) = [] → ph = Phase_head →
    streaming ph p received granted [] ws
| s_head ws status fields chunked :
    core ph p ws received granted status fields chunked [] [] 0 →
    writing (flags p) = true → streaming ph p received granted [Op_head] ws
| s_block ws status fields chunked blocks :
    core ph p ws received granted status fields chunked blocks []
      (if outgoing_credit_returned_early (stream p) then 0 else zlen (outgoing (stream p))) →
    writing (flags p) = true → zlen (outgoing (stream p)) <= block_limit → streaming ph p received granted [Op_block] ws
| s_end ws status fields chunked blocks :
    core ph p ws received granted status fields chunked blocks [] 0 →
    writing (flags p) = true → body_queue (stream p) = [] → ph = Phase_end →
    (∀ n, declared_length fields = Some n → zlen received = n) →
    streaming ph p received granted [Op_end] (ws ++ [Send_end]).

(** A HEAD request's streamed response: the body is consumed and not written. *)
Record heading (ph : Phase) (p : PendingRequest) (received : bytes) (granted : Z) (ops : list OpKind) (ws : list Send) : Prop := {
  h_writes : ∃ status fields chunked, ws = [Send_head status fields chunked];
  h_response : response (stream p) ≠ None;
  h_fixed : fixed_response (fixed p) = None;
  h_end : end_seen (flags p) = bool_decide (ph = Phase_end);
  h_phase : ph ≠ Phase_open;
  h_head_only : head_only (flags p) = true;
  h_queue : body_queue (stream p) = [] ∧ body_queue_bytes (stream p) = 0;
  h_op : (ops = [] ∧ writing (flags p) = false ∧ ph = Phase_head) ∨ (ops = [Op_head] ∧ writing (flags p) = true);
  h_credit : ph = Phase_head → granted + pending_response_credit (stream p) = zlen received;
  h_bound : granted + pending_response_credit (stream p) <= zlen received;
  h_pending : credit_small (pending_response_credit (stream p))
}.

(** A response of known size, held until its end. *)
Record holding (ph : Phase) (p : PendingRequest) (received : bytes) (granted : Z) (ops : list OpKind) (ws : list Send) : Prop := {
  f_response : ∃ r, fixed_response (fixed p) = Some r
    ∧ (if head_only (flags p) then True else fixed_content r = received)
    ∧ (if bool_decide (ph = Phase_end)
       then ops = [Op_fixed] ∧ ws = [Send_fixed (fixed_status r) (fixed_fields r) (zlen received)
                                       (if head_only (flags p) then None else Some received)]
       else ops = [] ∧ ws = []);
  f_writing : writing (flags p) = bool_decide (ph = Phase_end);
  f_end : end_seen (flags p) = bool_decide (ph = Phase_end);
  f_phase : ph ≠ Phase_open;
  f_received : fixed_body_received (fixed p) = zlen received ∧ zlen received <= fixed_body_expected (fixed p);
  f_credit : granted = 0 ∧ pending_response_credit (stream p) = 0
}.

(** A request whose worker has not answered. *)
Record waiting (ph : Phase) (p : PendingRequest) (received : bytes) (granted : Z) (ops : list OpKind) (ws : list Send) : Prop := {
  w_phase : ph = Phase_open;
  w_nothing : ops = [] ∧ ws = [] ∧ received = [] ∧ granted = 0;
  w_request : response (stream p) = None ∧ fixed_response (fixed p) = None;
  w_flags : writing (flags p) = false ∧ end_seen (flags p) = false;
  w_stream : body_queue (stream p) = [] ∧ body_queue_bytes (stream p) = 0 ∧ cl_known (stream p) = false
             ∧ pending_response_credit (stream p) = 0
}.

Definition live (ph : Phase) (p : PendingRequest) (received : bytes) (granted : Z) (ops : list OpKind) (ws : list Send) : Prop :=
  waiting ph p received granted ops ws ∨ holding ph p received granted ops ws
  ∨ heading ph p received granted ops ws ∨ streaming ph p received granted ops ws.

(** A response that needs no further write. *)
Inductive complete_writes : list Send → Prop :=
| complete_head status fields chunked : complete_writes [Send_head status fields chunked]
| complete_stream status fields chunked blocks :
    complete_writes (Send_head status fields chunked :: map Send_block blocks ++ [Send_end])
| complete_fixed status fields n content : complete_writes [Send_fixed status fields n content].

(** The phase a live request is in. *)
Definition phase_of (p : PendingRequest) : Phase :=
  if end_seen (flags p) then Phase_end
  else match response (stream p), fixed_response (fixed p) with None, None => Phase_open | _, _ => Phase_head end.

(** How a request may leave: only a failure leaves a write pending, and what
    is on the stream is complete when the request is finished. *)
Definition left_ok (a : Action) (received : bytes) (granted : Z) (ops : list OpKind) (ws : list Send) : Prop :=
  on_wire received ws ∧ (length ops <= 1)%nat ∧ granted <= zlen received ∧ a ≠ Fault
  ∧ (a = Ended → ∃ status fields chunked blocks, ws = Send_head status fields chunked :: map Send_block blocks ++ [Send_end])
  ∧ (∀ reason, a = Reject reason → ws = [])
  ∧ (a = Finalize → complete_writes ws) ∧ (a = Fail ∨ ops = []).

Definition turn_ok (ph : Phase) (received : bytes) (granted : Z) (ops : list OpKind) (ws : list Send) (t : Turn) : Prop :=
  let granted := granted + grants (effects t) in
  let ops := ops ++ map op_of (writes (effects t)) in
  let ws := ws ++ writes (effects t) in
  match action t with
  | Continue => live ph (after t) received granted ops ws
  | a => left_ok a received granted ops ws
  end.
Context (id : Z).
Hypothesis threshold_ok : 0 <= credit_grant_threshold limits < 2 ^ 31.
Hypothesis frame_ok : 0 <= frame < 2 ^ 31.

Lemma block_limit_nil : zlen (@nil byte) <= block_limit.
Proof using. unfold block_limit, kResponseBodyWriteBatchLimit. change (zlen []) with 0. lia. Qed.

Lemma credit_small_0 : credit_small 0.
Proof using. split; [done|by left]. Qed.

Lemma core_on_wire ph p ws received granted st fs ch blocks extra owed :
  core ph p ws received granted st fs ch blocks extra owed → on_wire received ws ∧ granted <= zlen received.
Proof using.
  intros [-> _ _ _ _ _ Ht _ Hl _ Hb [Hp _] _ _ _]. split; [|lia]. apply wire_stream.
  - rewrite <- Ht. by eexists.
  - intros n Hn. rewrite Hn in Hl. lia.
Qed.

Lemma fail_ok ph p received granted ops ws : on_wire received ws → granted <= zlen received → (length ops <= 1)%nat →
  turn_ok ph received granted ops ws (mkTurn p [] Fail).
Proof using.
  intros Hw Hg Ho. unfold turn_ok, left_ok. cbn [action effects writes grants fold_right omap map].
  rewrite !app_nil_r, Z.add_0_r. split_and!; try done. by left.
Qed.

Lemma finalize_ok ph p received granted ws : on_wire received ws → granted <= zlen received → complete_writes ws →
  turn_ok ph received granted [] ws (mkTurn p [] Finalize).
Proof using.
  intros Hw Hg Hc. unfold turn_ok, left_ok. cbn [action effects writes grants fold_right omap map app].
  rewrite !app_nil_r, Z.add_0_r. split_and!; try done; [cbn; lia|by right].
Qed.

(** Flushing moves credit from the request to a command. *)
Lemma flush_credit_spec p force p' es : flush_pending_credit limits id p force = (p', es) → 0 <= pending_response_credit (stream p) →
  let c := pending_response_credit (stream p') in
  p' = set_credit p c ∧ writes es = [] ∧ grants es + c = pending_response_credit (stream p)
  ∧ credit_small c ∧ (force = true → c = 0) ∧ 0 <= grants es.
Proof using threshold_ok.
  unfold flush_pending_credit. intros E Hc. destruct (pending_response_credit (stream p) =? 0) eqn:E0.
  { injection E as <- <-. apply Z.eqb_eq in E0. cbn zeta. rewrite E0.
    split_and!; try done; [destruct p as [? ? ? [] ? ?]; cbn in *; by subst|apply credit_small_0]. }
  destruct (_ && _ && _) eqn:E1; injection E as <- <-; cbn zeta.
  - apply andb_true_iff in E1 as [E1 E2]. apply andb_true_iff in E1 as [_ E1]. bools. cbn [grants fold_right].
    split_and!; try done; [destruct p as [? ? ? [] ? ?]; done|split; [done|by right]|congruence].
  - cbn [set_credit set_stream stream pending_response_credit writes grants fold_right command_type grant_command command_credit].
    rewrite bool_decide_true by done. split_and!; try done; [lia|apply credit_small_0|lia].
Qed.

Lemma return_credit_spec p n p' es : return_credit limits id p n = (p', es) → 0 <= n <= block_limit →
  credit_small (pending_response_credit (stream p)) →
  let c := pending_response_credit (stream p') in
  p' = set_credit p c ∧ writes es = [] ∧ grants es + c = pending_response_credit (stream p) + n
  ∧ credit_small c ∧ 0 <= grants es.
Proof using threshold_ok frame_ok.
  unfold return_credit, block_limit, kResponseBodyWriteBatchLimit. intros E Hn [Hc Hc'].
  rewrite (u32_small n), u32_small in E by lia.
  apply flush_credit_spec in E; [|cbn; lia]. cbn zeta in *. cbn [set_credit set_stream stream pending_response_credit] in E.
  by destruct E as (E1 & E2 & E3 & E4 & _ & E5).
Qed.

(** The core does not see the timers, the upload or the write flags. *)
Lemma core_same ph p q ws received granted st fs ch blocks extra owed :
  core ph p ws received granted st fs ch blocks extra owed → stream q = stream p → fixed q = fixed p →
  end_seen (flags q) = end_seen (flags p) → head_only (flags q) = head_only (flags p) →
  core ph q ws received granted st fs ch blocks extra owed.
Proof using. intros [] E1 E2 E3 E4. split; by rewrite ?E1, ?E2, ?E3, ?E4. Qed.

Lemma arm_write_stream p : stream (arm_write_timer limits p) = stream p.
Proof using. unfold arm_write_timer. by destruct (_ =? 0). Qed.

(** Writing a block the core set apart. *)
Lemma write_body_block_ok ph p ws received granted st fs ch blocks (block : bytes) (early : bool) :
  core ph p ws received granted st fs ch blocks block (if early then 0 else zlen block) →
  turn_ok ph received granted [] ws (write_body_block limits p block early).
Proof using.
  intros Hc. pose proof (core_on_wire _ _ _ _ _ _ _ _ _ _ _ Hc) as [Hw Hg].
  destruct Hc as [-> Hr Hf He Hph Hh Ht Hn Hl Hcr Hb Hp Hea Hfs Hex]. unfold write_body_block.
  destruct (cl_known (stream p) && (cl_remaining (stream p) <? zlen block)) eqn:E.
  { apply fail_ok; [done|done|cbn; lia]. }
  destruct (response (stream p)) as [r|] eqn:Er; [|done]. unfold turn_ok. cbn [action effects after writes grants fold_right omap].
  right. right. right. cbn [map op_of app]. apply s_block with st fs ch (blocks ++ [block]).
  - rewrite arm_write_stream. project.
    apply core_same with (set_stream p (mkStreamPart (Some (mkStreamResponse (stream_status r) (stream_fields r) (stream_chunked r) true))
      block (body_queue (stream p)) (body_queue_bytes (stream p)) early (cl_known (stream p))
      (if cl_known (stream p) then cl_remaining (stream p) - zlen block else cl_remaining (stream p))
      (pending_response_credit (stream p)))); [|unfold arm_write_timer; by destruct (_ =? 0)..].
    split; project; rewrite ?map_app, ?concat_app, ?Z.add_0_r; cbn [map List.concat app]; rewrite ?app_nil_r, <- ?app_assoc; try done.
    + destruct (declared_length fs) as [n|]; [|by rewrite Hl]. destruct Hl as (Hk & Hrem & Hpos). rewrite Hk in *.
      cbn [andb] in E. bools. rewrite zlen_app. split_and!; [done|lia..].
    + apply block_limit_nil.
  - unfold arm_write_timer. by destruct (_ =? 0).
  - unfold arm_write_timer. by destruct (_ =? 0).
Qed.

Lemma write_end_block_ok ph p ws received granted st fs ch blocks :
  core ph p ws received granted st fs ch blocks [] 0 → body_queue (stream p) = [] → ph = Phase_end →
  turn_ok ph received granted [] ws (write_end_block limits p).
Proof using.
  intros Hc Hq Hend. pose proof (core_on_wire _ _ _ _ _ _ _ _ _ _ _ Hc) as [Hw Hg].
  destruct Hc as [-> Hr Hf He Hph Hh Ht Hn Hl Hcr Hb Hp Hea Hfs Hex]. unfold write_end_block.
  destruct (cl_known (stream p) && (0 <? cl_remaining (stream p))) eqn:E.
  { apply fail_ok; [done|done|cbn; lia]. }
  destruct (response (stream p)) as [r|] eqn:Er; [|done]. unfold turn_ok. cbn [action effects after writes grants fold_right omap].
  right. right. right. cbn [map op_of]. rewrite Z.add_0_r. apply s_end with st fs ch blocks.
  - unfold arm_write_timer. destruct (write_timeout_ms limits =? 0); by split.
  - unfold arm_write_timer. by destruct (_ =? 0).
  - unfold arm_write_timer. by destruct (_ =? 0).
  - done.
  - intros n Hdecl. rewrite Hdecl in Hl. destruct Hl as (Hk & Hrem & Hpos). rewrite Hk in E. cbn [andb] in E. bools.
    rewrite Hq, !app_nil_r in Ht. rewrite <- Ht. lia.
Qed.

Lemma write_next_block_ok ph p ws received granted st fs ch blocks :
  core ph p ws received granted st fs ch blocks [] 0 → body_queue (stream p) ≠ [] → zlen received < 2 ^ 64 →
  turn_ok ph received granted [] ws (write_next_block limits p).
Proof using.
  intros [-> Hr Hf He Hph Hh Ht Hn Hl Hcr Hb Hp Hea Hfs Hex] Hq Hlt. unfold write_next_block.
  destruct (take_coalesced_response_body _ _ _) as [[b rest] n] eqn:E.
  destruct (take_coalesced_sizes _ _ _ _ _ _ _ Hfs Hq E) as [Hsz Hfs'].
  apply take_coalesced_split in E; [|done..|].
  2: { rewrite Hn. rewrite <- Ht, !zlen_app in Hlt. pose proof (zlen_nonneg (List.concat blocks)). rewrite zlen_nil in Hlt. lia. }
  destruct E as (Htext & -> & Howed & Hearly).
  apply (write_body_block_ok _ _ _ _ _ st fs ch blocks). split; project; try done.
  - by rewrite <- Ht, Htext.
  - intros Hhead. specialize (Hcr Hhead). rewrite Howed in Hcr. lia.
  - rewrite Hearly in Hea. pose proof (zlen_nonneg (queued_bytes b)). destruct (credit_returned_early b); lia.
Qed.

(** ** Events *)

Lemma writes_submit c es : writes (Submit c :: es) = writes es.
Proof using. done. Qed.

(** The upload has no part in the response. *)
Lemma live_set_upload ph p u received granted ops ws :
  live ph p received granted ops ws → live ph (set_upload p u) received granted ops ws.
Proof using.
  intros [[]|[[]|[[]|H]]]; [left|right; left|right; right; left|right; right; right]; [by split..|].
  destruct H as [? ? ? ? ? [] | ? ? ? ? [] | ? ? ? ? ? [] | ? ? ? ? ? []];
    [eapply s_idle|eapply s_head|eapply s_block|eapply s_end]; try done; by split.
Qed.

Lemma on_request_credit_ok ph p credit received granted ops ws : live ph p received granted ops ws →
  turn_ok ph received granted ops ws (on_request_credit id credit p).
Proof using.
  intros H. unfold on_request_credit, advance_request_body. cbn [upload set_upload request_body request_body_offset request_credit request_ended].
  set (p' := set_upload p _). assert (∀ u, live ph (set_upload p' u) received granted ops ws) as Hl.
  { intros u. by do 2 apply live_set_upload. }
  destruct (_ && _); cbn iota beta; destruct (_ && _); unfold turn_ok; cbn [action effects after];
    rewrite ?writes_app, ?grants_app; try destruct (end_seen _);
    cbn [writes omap grants fold_right map app command_type new_Command]; rewrite ?app_nil_r, ?Z.add_0_r;
    repeat (rewrite bool_decide_false by done); rewrite ?Z.add_0_r; apply Hl.
Qed.

Lemma decimal_u64_nonneg text v n : 0 <= v → decimal_u64 text v = Some n → 0 <= n.
Proof using.
  revert v. induction text as [|c text IH]; intros v Hv; cbn [decimal_u64]; [by intros [= <-]|].
  destruct (in_range 48 57 c) eqn:E; [|done]. cbn [negb]. destruct (_ <? v); [done|]. apply IH.
  unfold in_range in E. apply andb_true_iff in E as [E _]. bools. lia.
Qed.

Lemma content_length_nonneg text n : content_length_value text = Some n → 0 <= n.
Proof using. unfold content_length_value. destruct (bool_decide _); [done|]. by apply decimal_u64_nonneg. Qed.

Lemma waiting_set_timers ph p t received granted ops ws :
  waiting ph p received granted ops ws → waiting ph (set_timers p t) received granted ops ws.
Proof using. intros []; by split. Qed.

Lemma reject_ok ph q reason : turn_ok ph [] 0 [] [] (mkTurn q [] (Reject reason)).
Proof using. unfold turn_ok, left_ok. cbn. split_and!; try done; [constructor|lia|by right]. Qed.

Lemma fixed_response_head_ok p event hs received granted ops ws : waiting Phase_open p received granted ops ws →
  0 <= fixed_body_size event → turn_ok Phase_head received granted ops ws (fixed_response_head event hs p).
Proof using.
  intros [_ (-> & -> & -> & ->) (Hr & Hf) (Hw & He) (Hq & Hn & Hk & Hc)] Hsize. unfold fixed_response_head.
  assert (turn_ok Phase_head [] 0 [] []
            (mkTurn (set_fixed p (mkFixedPart (Some (mkFixedResponse (event_status event) hs [])) (fixed_body_size event) 0))
               [] Continue)) as Hok.
  { right. left. split; project; try done. eexists. split; [done|]. split; [by destruct (head_only (flags p))|done]. }
  destruct (first_field _ hs) as [text|]; [|done]. destruct (content_length_value text) as [v|]; [|apply reject_ok].
  destruct (v =? fixed_body_size event); [done|apply reject_ok].
Qed.

Lemma stream_response_head_ok p event hs received granted ops ws : waiting Phase_open p received granted ops ws →
  turn_ok Phase_head received granted ops ws (stream_response_head limits event hs p).
Proof using frame_ok.
  intros [_ (-> & -> & -> & ->) (Hr & Hf) (Hw & He) (Hq & Hn & Hk & Hc)].
  unfold stream_response_head.
  assert (∀ chunked known remaining,
    match declared_length hs with Some n => known = true ∧ remaining = n ∧ 0 <= n | None => known = false end →
    let p' := set_stream p (mkStreamPart (Some (mkStreamResponse (event_status event) hs chunked true)) (outgoing (stream p))
                 (body_queue (stream p)) (body_queue_bytes (stream p)) (outgoing_credit_returned_early (stream p)) known
                 remaining (pending_response_credit (stream p))) in
    turn_ok Phase_head [] 0 [] []
      (mkTurn (arm_write_timer limits (set_writing p' true)) [Write (Send_head (event_status event) hs chunked)] Continue)) as Hok.
  { intros chunked known remaining Hdecl. cbn zeta. unfold turn_ok. project.
    cbn [writes omap grants fold_right map op_of app]. right. right.
    destruct (bool_dec (head_only (flags p)) true) as [Hh|Hh%not_true_is_false].
    - left. unfold arm_write_timer. destruct (_ =? 0); split; project; rewrite ?Hc;
        first [done|apply credit_small_0|by right|by eauto].
    - right. apply s_head with (event_status event) hs chunked; unfold arm_write_timer; destruct (_ =? 0); try done.
      all: split; project; try done; rewrite ?Hq, ?Hc; try done; try apply credit_small_0.
      all: try apply block_limit_nil; try apply Forall_nil_2.
      all: try (change (queue_early []) with 0; unfold kEarlyCreditWindow; lia).
      all: destruct (declared_length hs); [|done]; destruct Hdecl as (-> & -> & ?).
      all: change (zlen (List.concat (@nil bytes))) with 0; split_and!; [done|lia|done]. }
  unfold declared_length in Hok. destruct (first_field _ hs) as [text|]; [|by apply Hok].
  destruct (content_length_value text) as [v|] eqn:Ev; [|apply reject_ok]. apply Hok. split_and!; [done..|]. by eapply content_length_nonneg.
Qed.

Lemma on_response_head_ok p cors streaming event received granted ops ws : waiting Phase_open p received granted ops ws →
  0 <= fixed_body_size event →
  turn_ok Phase_head received granted ops ws (on_response_head limits cors streaming event p).1.
Proof using frame_ok.
  intros Hw Hsize. assert (∀ q reason, turn_ok Phase_head received granted ops ws (mkTurn q [] (Reject reason))) as Hrej.
  { intros q reason. destruct Hw as [_ (-> & -> & -> & ->) _ _ _]. apply reject_ok. }
  unfold on_response_head. destruct (_ || _); [apply Hrej|].
  destruct (sanitize_response_headers _) as [hs|]; [|apply Hrej].
  assert (∀ q n, (if is_sse hs then acquire_streaming_permit limits streaming p else Some (p, streaming)) = Some (q, n) →
    waiting Phase_open q received granted ops ws) as Hq.
  { intros q n. unfold acquire_streaming_permit. destruct (is_sse hs); [|by intros [= <- <-]].
    destruct (_ =? 0); [by intros [= <- <-]|]. destruct (_ <=? _); [done|]. intros [= <- <-]. by apply waiting_set_timers. }
  destruct (if is_sse hs then _ else _) as [[q n]|]; [|apply Hrej]. specialize (Hq q n eq_refl).
  assert (waiting Phase_open (set_head_only q (bool_decide (method (line q) = bs "HEAD"))) received granted ops ws) as Hq'.
  { destruct Hq; by split. }
  cbn [fst]. destruct (fixed_body event); [by apply fixed_response_head_ok|by apply stream_response_head_ok].
Qed.

Lemma live_set_timers ph p t received granted ops ws :
  live ph p received granted ops ws → live ph (set_timers p t) received granted ops ws.
Proof using.
  intros [[]|[[]|[[]|H]]]; [left|right; left|right; right; left|right; right; right]; [by split..|].
  destruct H as [? ? ? ? ? [] | ? ? ? ? [] | ? ? ? ? ? [] | ? ? ? ? ? []];
    [eapply s_idle|eapply s_head|eapply s_block|eapply s_end]; try done; by split.
Qed.

Lemma turn_ok_prepend ph received granted ops ws es t : writes es = [] →
  turn_ok ph received (granted + grants es) ops ws t → turn_ok ph received granted ops ws (prepend es t).
Proof using.
  intros He. unfold turn_ok, prepend. project. by rewrite writes_app, He, grants_app, Z.add_assoc.
Qed.

(** The credit a body event returns at once, if any. *)
Lemma early_credit p (body : bytes) (early : bool) p' es :
  (if early then return_credit limits id p (zlen body) else (p, [])) = (p', es) → zlen body <= frame →
  credit_small (pending_response_credit (stream p)) →
  let c := pending_response_credit (stream p') in
  p' = set_credit p c ∧ writes es = [] ∧ credit_small c ∧ 0 <= grants es
  ∧ grants es + c = pending_response_credit (stream p) + (if early then zlen body else 0).
Proof using threshold_ok frame_ok.
  intros E Hb Hs. pose proof (zlen_nonneg body). destruct early.
  - apply return_credit_spec in E; [|unfold block_limit; lia|done]. cbn zeta in *. by destruct E as (? & ? & ? & ? & ?).
  - injection E as <- <-. cbn zeta. split_and!; try done; [|cbn; lia]. by destruct p as [? ? ? [] ? ?].
Qed.

(** A body event on a core whose queue grows by it, or which is set to write it. *)
Lemma core_push p ws received granted st fs ch blocks owed (body : bytes) es c :
  core Phase_head p ws received granted st fs ch blocks [] owed → zlen body <= frame →
  zlen (received ++ body) < 2 ^ 64 →
  let early := body_queue_bytes (stream p) <? kEarlyCreditWindow in
  credit_small c → 0 <= owed →
  grants es + c = pending_response_credit (stream p) + (if early then zlen body else 0) →
  let s := stream p in
  core Phase_head
    (set_stream (set_credit p c) (mkStreamPart (response s) (outgoing s) (body_queue s ++ [mkQueuedBody body early])
       (u64 (body_queue_bytes s + zlen body)) (outgoing_credit_returned_early s) (cl_known s) (cl_remaining s) c))
    ws (received ++ body) (granted + grants es) st fs ch blocks [] owed.
Proof using.
  intros [-> Hr Hf He Hph Hh Ht Hn Hl Hcr Hb Hp Hea Hfs Hex] Hfr Hlt early Hc Howed Hg s. pose proof (zlen_nonneg body).
  specialize (Hcr eq_refl). rewrite zlen_app in Hlt. destruct (queue_parts_nonneg (body_queue (stream p))) as [Hq1 Hq2].
  pose proof (queue_split (body_queue (stream p))) as Hsplit.
  assert (zlen (queue_text (body_queue (stream p))) <= zlen received).
  { rewrite <- Ht, !zlen_app, zlen_nil. pose proof (zlen_nonneg (List.concat blocks)). lia. }
  split; project; subst s; try done; rewrite ?zlen_app.
  - rewrite queue_text_app, <- Ht, <- !app_assoc. cbn [queue_text map List.concat queued_bytes]. by rewrite app_nil_r.
  - rewrite queue_text_app, zlen_app, Hn. cbn [queue_text map List.concat queued_bytes]. rewrite app_nil_r. apply u64_small.
    zlen_pose. lia.
  - intros _. rewrite queue_owed_app. cbn [queue_owed fold_right credit_returned_early queued_bytes]. destruct early; lia.
  - destruct early; lia.
  - rewrite queue_early_app. cbn [queue_early fold_right credit_returned_early queued_bytes].
    destruct early eqn:E; [|lia]. unfold early in E. bools. rewrite Hn in E. lia.
  - apply Forall_app. split; [done|]. by repeat constructor.
Qed.

(** The same, for a body that is written at once. *)
Lemma core_extra p ws received granted st fs ch blocks (body : bytes) es c :
  core Phase_head p ws received granted st fs ch blocks [] 0 → body_queue (stream p) = [] → zlen body <= frame →
  let early := body_queue_bytes (stream p) <? kEarlyCreditWindow in
  credit_small c → grants es + c = pending_response_credit (stream p) + (if early then zlen body else 0) →
  core Phase_head (set_credit p c) ws (received ++ body) (granted + grants es) st fs ch blocks body
    (if early then 0 else zlen body).
Proof using.
  intros [-> Hr Hf He Hph Hh Ht Hn Hl Hcr Hb Hp Hea Hfs Hex] Hq Hfr early Hc Hg. pose proof (zlen_nonneg body).
  specialize (Hcr eq_refl). rewrite Hq in *. change (queue_owed []) with 0 in *.
  split; project; try done; rewrite ?zlen_app, ?Hq.
  - rewrite <- Ht. cbn [queue_text map List.concat app]. by rewrite !app_nil_r.
  - done.
  - intros _. change (queue_owed []) with 0. destruct early; lia.
  - destruct early; lia.
  - done.
  - done.
  - unfold block_limit. lia.
Qed.

Lemma streaming_body_ok p (body : bytes) received granted ops ws : streaming Phase_head p received granted ops ws →
  zlen body <= frame → zlen (received ++ body) < 2 ^ 64 → fixed_response (fixed p) = None ∧
  let early := body_queue_bytes (stream p) <? kEarlyCreditWindow in
  let '(p', es) := if early then return_credit limits id p (zlen body) else (p, []) in
  head_only (flags p') = false ∧
  turn_ok Phase_head (received ++ body) granted ops ws
    (if writing (flags p') then
       let s := stream p' in
       mkTurn (set_stream p' (mkStreamPart (response s) (outgoing s) (body_queue s ++ [mkQueuedBody body early])
                                (u64 (body_queue_bytes s + zlen body)) (outgoing_credit_returned_early s) (cl_known s)
                                (cl_remaining s) (pending_response_credit s))) es Continue
     else prepend es (write_body_block limits p' body early)).
Proof using threshold_ok frame_ok.
  intros H Hfr Hlt.
  assert (fixed_response (fixed p) = None ∧ credit_small (pending_response_credit (stream p)) ∧ head_only (flags p) = false)
    as (Hfix & Hs & Hh) by (by destruct H as [? ? ? ? ? [] | ? ? ? ? [] | ? ? ? ? ? [] | ? ? ? ? ? []]).
  split; [done|]. cbn zeta. set (early := body_queue_bytes (stream p) <? kEarlyCreditWindow).
  destruct (if early then _ else _) as [p' es] eqn:E. apply early_credit in E; [|done..].
  cbn zeta in E. destruct E as (Ep & Hw & Hc & _ & Hg). generalize dependent (pending_response_credit (stream p')).
  intros c -> Hc Hg. project. split; [done|].
  assert (∀ q, streaming Phase_head q (received ++ body) (granted + grants es) ops ws →
    turn_ok Phase_head (received ++ body) granted ops ws (mkTurn q es Continue)) as Hgo.
  { intros q Hq. unfold turn_ok. project. rewrite Hw. cbn [map]. rewrite !app_nil_r. by right; right; right. }
  destruct H as [ws st fs ch blocks Hcore Hwr Hq Hph | ws st fs ch Hcore Hwr | ws st fs ch blocks Hcore Hwr | ?]; [| | |done].
  - rewrite Hwr. apply turn_ok_prepend; [done|]. eapply write_body_block_ok, core_extra; done.
  - rewrite Hwr. apply Hgo. eapply s_head; [|done]. eapply (core_push _ _ _ _ _ _ _ _ 0); done.
  - rewrite Hwr. apply Hgo. eapply s_block; [|done..]. eapply core_push; try done.
    destruct (outgoing_credit_returned_early (stream p)); [done|apply zlen_nonneg].
Qed.

Lemma holding_body_ok p (body : bytes) received granted ops ws : holding Phase_head p received granted ops ws →
  turn_ok Phase_head (received ++ body) granted ops ws (on_response_body limits id body p).
Proof using.
  intros H. assert (holding Phase_head (if holds_streaming_permit (timers p) then arm_stream_idle_timer limits p else p)
                      received granted ops ws) as H'.
  { destruct H. unfold arm_stream_idle_timer. destruct (holds_streaming_permit _); [destruct (_ =? 0)|]; by split. }
  unfold on_response_body. cbn zeta. revert H'. generalize (if holds_streaming_permit (timers p) then arm_stream_idle_timer limits p else p).
  clear p H. intros p [(r & Hr & Hcont & -> & ->) Hw He Hph (Hrec & Hle) (-> & Hc)]. rewrite Hr. pose proof (zlen_nonneg body).
  destruct (_ || _) eqn:E.
  - apply fail_ok; [constructor|rewrite zlen_app; zlen_pose; lia|cbn; lia].
  - apply orb_false_iff in E as [E1 E2]. bools. right. left. split; project; try done.
    + eexists. split; [done|]. split; [|done]. destruct (head_only (flags p)); [done|]. cbn [fixed_content]. by rewrite Hcont.
    + rewrite zlen_app. lia.
Qed.

Lemma on_response_body_ok p (body : bytes) received granted ops ws : live Phase_head p received granted ops ws →
  zlen body <= frame → zlen (received ++ body) < 2 ^ 64 →
  turn_ok Phase_head (received ++ body) granted ops ws (on_response_body limits id body p).
Proof using threshold_ok frame_ok.
  intros H Hfr Hlt. destruct H as [[]|[H|H]]; [done|by apply holding_body_ok|].
  assert (live Phase_head (if holds_streaming_permit (timers p) then arm_stream_idle_timer limits p else p)
            received granted ops ws) as H'.
  { unfold arm_stream_idle_timer. destruct (holds_streaming_permit _); [destruct (_ =? 0)|]; try (by right; right);
      apply live_set_timers; by right; right. }
  unfold on_response_body. cbn zeta. revert H'.
  assert (fixed_response (fixed (if holds_streaming_permit (timers p) then arm_stream_idle_timer limits p else p)) = None) as Hfix.
  { assert (fixed_response (fixed p) = None) by (by destruct H as [[]|[? ? ? ? ? [] | ? ? ? ? [] | ? ? ? ? ? [] | ? ? ? ? ? []]]).
    unfold arm_stream_idle_timer. by destruct (holds_streaming_permit _); [destruct (_ =? 0)|]. }
  revert Hfix. generalize (if holds_streaming_permit (timers p) then arm_stream_idle_timer limits p else p). clear p H.
  intros p Hfix [[]|[[(r & Hr & _) _ _ _ _ _]|[H|H]]]; [done|congruence| |]; rewrite Hfix.
  - destruct H as [Hws Hr _ He Hph Hh [Hq Hn] Hop Hcr Hb Hs]. rewrite Hn. change (0 <? kEarlyCreditWindow) with true. cbn iota.
    destruct (return_credit _ _ _ _) as [p' es] eqn:E. apply (early_credit p body true) in E; [|done..]. cbn zeta in E.
    destruct E as (Ep & Hw & Hc & _ & Hg). generalize dependent (pending_response_credit (stream p')). intros c -> Hc Hg.
    project. rewrite Hh. unfold turn_ok. project. rewrite Hw. cbn [map]. rewrite !app_nil_r. right. right. left.
    specialize (Hcr eq_refl). split; project; try done; rewrite ?zlen_app; lia.
  - destruct (streaming_body_ok p body received granted ops ws H Hfr Hlt) as [_ Hok]. cbn zeta in Hok.
    destruct (if body_queue_bytes (stream p) <? kEarlyCreditWindow then return_credit limits id p (zlen body) else (p, [])) as [p' es].
    destruct Hok as [Hh Hok]. by rewrite Hh.
Qed.

Lemma head_on_wire received st fs ch : on_wire received [Send_head st fs ch].
Proof using.
  apply (wire_stream received st fs ch []); [by exists received|]. intros n Hn. change (zlen (List.concat [])) with 0.
  unfold declared_length in Hn. destruct (first_field _ fs); [|done]. by eapply content_length_nonneg.
Qed.

(** The end event: the pending credit is given up, the request retired. *)
Lemma core_end p ws received granted st fs ch blocks owed es :
  core Phase_head p ws received granted st fs ch blocks [] owed →
  grants es + 0 = pending_response_credit (stream p) →
  core Phase_end (set_credit (set_end_seen p) 0) ws received (granted + grants es) st fs ch blocks [] owed.
Proof using.
  intros [-> Hr Hf He Hph Hh Ht Hn Hl Hcr Hb Hp Hea Hfs Hex] Hg. split; project; try done; [lia|apply credit_small_0].
Qed.

Lemma on_response_end_ok p received granted ops ws : live Phase_head p received granted ops ws →
  turn_ok Phase_end received granted ops ws (on_response_end limits id p).
Proof using threshold_ok.
  intros H. assert (0 <= pending_response_credit (stream p)) as Hpos.
  { destruct H as [[]|[[]|[[]|[? ? ? ? ? [] | ? ? ? ? [] | ? ? ? ? ? [] | ? ? ? ? ? []]]]]; unfold credit_small in *; lia. }
  unfold on_response_end. destruct (flush_pending_credit _ _ _ _) as [p' es] eqn:E.
  apply flush_credit_spec in E; [|done]. cbn zeta in E. destruct E as (Ep & Hw & Hg & _ & Hforce & _).
  rewrite Hforce in * by done. subst p'. project.
  assert (∀ t, turn_ok Phase_end received (granted + grants es) ops ws t →
    turn_ok Phase_end received granted ops ws (prepend (es ++ [Retire id]) t)) as Hpre.
  { intros t Ht. apply turn_ok_prepend; [by rewrite writes_app, Hw|]. by rewrite grants_app, Z.add_0_r. }
  apply Hpre. clear Hpre. destruct H as [[]|[H|[H|H]]]; [done|..].
  - destruct H as [(r & Hr & Hcont & -> & ->) Hwr He Hph (Hrec & Hle) (-> & Hc)]. rewrite Hr, Hrec.
    assert (grants es = 0) as -> by lia. destruct (_ =? _) eqn:Eq; cbn [negb]; bools.
    + unfold write_fixed_response, turn_ok. project. rewrite Hr. project. cbn [writes omap map op_of app grants fold_right].
      right. left. unfold arm_write_timer. destruct (_ =? 0); split; project; try done; exists r; rewrite <- Eq;
        (split; [done|]; split; [done|]; destruct (head_only (flags p)); [done|by rewrite Hcont]).
    + apply fail_ok; [constructor|apply zlen_nonneg|cbn; lia].
  - destruct H as [(st & fs & ch & ->) Hr Hf He Hph Hh [Hq Hn] Hop Hcr Hb Hs]. rewrite Hf, Hh.
    destruct Hop as [(-> & Hwr & _)|(-> & Hwr)]; rewrite Hwr.
    + apply finalize_ok; [apply head_on_wire|lia|constructor].
    + unfold turn_ok. project. cbn [writes omap map grants fold_right app]. rewrite Z.add_0_r. right. right. left.
      split; project; try done; [by eauto|by right|lia|apply credit_small_0].
  - assert (fixed_response (fixed p) = None ∧ head_only (flags p) = false) as [-> ->]
      by (by destruct H as [? ? ? ? ? [] | ? ? ? ? [] | ? ? ? ? ? [] | ? ? ? ? ? []]).
    assert (∀ q, streaming Phase_end q received (granted + grants es) ops ws →
      turn_ok Phase_end received (granted + grants es) ops ws (mkTurn q [] Continue)) as Hgo.
    { intros q Hq. unfold turn_ok. project. cbn [writes omap map grants fold_right]. rewrite !app_nil_r, Z.add_0_r. by right; right; right. }
    destruct H as [ws st fs ch blocks Hcore Hwr Hq Hph | ws st fs ch Hcore Hwr | ws st fs ch blocks Hcore Hwr | ?]; [..|done];
      rewrite Hwr.
    + eapply write_end_block_ok; [by apply core_end|done..].
    + apply Hgo. eapply s_head; [by apply core_end|done].
    + apply Hgo. eapply s_block; [by apply core_end|done..].
Qed.

(** ** Completions *)

(** After a write, the queue is written on, then the end. *)
Lemma resume_writes_ok ph p ws received granted st fs ch blocks : core ph p ws received granted st fs ch blocks [] 0 →
  writing (flags p) = false → zlen received < 2 ^ 64 →
  turn_ok ph received granted [] ws
    (match body_queue (stream p) with
     | _ :: _ => write_next_block limits p
     | [] => if end_seen (flags p) then write_end_block limits p else mkTurn p [] Continue
     end).
Proof using.
  intros Hc Hw Hlt. pose proof (c_end _ _ _ _ _ _ _ _ _ _ _ Hc) as He.
  pose proof (c_phase _ _ _ _ _ _ _ _ _ _ _ Hc) as Hph. destruct (body_queue (stream p)) as [|b q] eqn:Eq.
  - rewrite He. destruct ph; [done| |].
    + rewrite bool_decide_false by done. unfold turn_ok. project. cbn [writes omap map grants fold_right].
      rewrite !app_nil_r, Z.add_0_r. right. right. right. by eapply s_idle.
    + rewrite bool_decide_true by done. by eapply write_end_block_ok.
  - eapply write_next_block_ok; [done|by rewrite Eq|done].
Qed.

Lemma on_head_written_ok ph p ec received granted ops ws : live ph p received granted (Op_head :: ops) ws →
  zlen received < 2 ^ 64 → turn_ok ph received granted ops ws (on_head_written limits ec p).
Proof using.
  intros H Hlt. unfold on_head_written, disarm_write_timer. destruct H as [H|[H|[H|H]]].
  { by destruct (w_nothing _ _ _ _ _ _ H). }
  { destruct (f_response _ _ _ _ _ _ H) as (r & _ & _ & Hops). by destruct (bool_decide _); destruct Hops. }
  - destruct H as [(st & fs & ch & ->) Hr Hf He Hph Hh [Hq Hn] [(? & _)|(Hop & Hw)] Hcr Hb Hs]; [done|]. injection Hop as ->.
    destruct (write_failed ec); [apply fail_ok; [apply head_on_wire|unfold credit_small in Hs; lia|cbn; lia]|].
    project.
    destruct (holds_streaming_permit (timers p)); unfold arm_stream_idle_timer; [destruct (_ =? 0)|]; project; rewrite Hq, He, Hh.
    all: destruct ph; [done| |]; [rewrite bool_decide_false by done|rewrite bool_decide_true by done];
      [|apply finalize_ok; [apply head_on_wire|unfold credit_small in Hs; lia|constructor]].
    all: unfold turn_ok; project; cbn [writes omap map grants fold_right]; rewrite !app_nil_r, Z.add_0_r; right; right; left.
    all: split; project; try done; [by eauto|by left].
  - inversion H as [|ws' st fs ch Hcore Hw| |]; subst.
    destruct (write_failed ec).
    { apply core_on_wire in Hcore as [? ?]. apply fail_ok; [done|done|cbn; lia]. }
    set (q := set_head_sent _). set (q' := if holds_streaming_permit (timers q) then _ else _).
    assert (core ph q' ws received granted st fs ch [] [] 0 ∧ writing (flags q') = false) as [Hc' Hw'].
    { unfold q', arm_stream_idle_timer. destruct (holds_streaming_permit _); [destruct (_ =? 0)|];
        (split; [by eapply core_same|done]). }
    clearbody q'. pose proof (c_head_only _ _ _ _ _ _ _ _ _ _ _ Hc') as Hh. rewrite Hh.
    by eapply resume_writes_ok.
Qed.

(** A written block: its credit is returned now if it was not on receipt. *)
Lemma block_credit ph p ws received granted st fs ch blocks p' es :
  core ph p ws received granted st fs ch blocks []
    (if outgoing_credit_returned_early (stream p) then 0 else zlen (outgoing (stream p))) →
  zlen (outgoing (stream p)) <= block_limit →
  (if negb (end_seen (flags p)) && negb (outgoing_credit_returned_early (stream p))
   then return_credit limits id p (zlen (outgoing (stream p))) else (p, [])) = (p', es) →
  let s := stream p' in
  writes es = [] ∧ flags p' = flags p ∧
  core ph (set_stream p' (mkStreamPart (response s) [] (body_queue s) (body_queue_bytes s) false (cl_known s)
                            (cl_remaining s) (pending_response_credit s)))
    ws received (granted + grants es) st fs ch blocks [] 0.
Proof using threshold_ok frame_ok.
  intros [-> Hr Hf He Hph Hh Ht Hn Hl Hcr Hb Hp Hea Hfs Hex] Hout E. cbn zeta.
  destruct (queue_parts_nonneg (body_queue (stream p))) as [Hq _]. pose proof (zlen_nonneg (outgoing (stream p))).
  destruct (negb (end_seen (flags p)) && negb (outgoing_credit_returned_early (stream p))) eqn:Ec.
  - apply andb_true_iff in Ec as [E1 E2]. apply negb_true_iff in E1, E2. rewrite E2 in Hcr.
    apply return_credit_spec in E; [|done..]. cbn zeta in E. destruct E as (Ep & Hw & Hg & Hc & _).
    generalize dependent (pending_response_credit (stream p')). intros c -> Hg Hc. project.
    split_and!; [done..|]. rewrite E1 in He. symmetry in He. apply bool_decide_eq_false in He.
    assert (ph = Phase_head) as -> by (by destruct ph). specialize (Hcr eq_refl).
    split; project; try done; lia.
  - injection E as <- <-. split_and!; [done..|]. change (grants []) with 0. rewrite Z.add_0_r. split; project; try done.
    intros Hhead. specialize (Hcr Hhead). rewrite He in Ec. rewrite Hhead in Ec. rewrite bool_decide_false in Ec by done.
    cbn [negb andb] in Ec. apply negb_false_iff in Ec. rewrite Ec in Hcr. done.
Qed.

Lemma on_block_written_ok ph p ec received granted ops ws : live ph p received granted (Op_block :: ops) ws →
  zlen received < 2 ^ 64 → turn_ok ph received granted ops ws (on_block_written limits id ec p).
Proof using threshold_ok frame_ok.
  intros H Hlt. unfold on_block_written, disarm_write_timer. destruct H as [H|[H|[H|H]]].
  { by destruct (w_nothing _ _ _ _ _ _ H). }
  { destruct (f_response _ _ _ _ _ _ H) as (r & _ & _ & Hops). by destruct (bool_decide _); destruct Hops. }
  { by destruct (h_op _ _ _ _ _ _ H) as [(? & _)|(? & _)]. }
  inversion H as [| |ws' st fs ch blocks Hcore Hw Hout|]; subst. pose proof (core_on_wire _ _ _ _ _ _ _ _ _ _ _ Hcore) as [Hwire Hg].
  destruct (match ec with Write_error => true | _ => false end); [apply fail_ok; [done|done|cbn; lia]|].
  set (q := set_timers _ _).
  assert (core ph q ws received granted st fs ch blocks []
            (if outgoing_credit_returned_early (stream q) then 0 else zlen (outgoing (stream q)))) as Hc by (by eapply core_same).
  cbv zeta. destruct (if negb (end_seen (flags q)) && _ then _ else _) as [p' es] eqn:E.
  destruct (block_credit _ _ _ _ _ _ _ _ _ _ _ Hc Hout E) as (Hes & Hfl & Hc').
  apply turn_ok_prepend; [done|]. eapply resume_writes_ok; [done|by project; rewrite Hfl|done].
Qed.

Lemma on_end_written_ok ph p ec received granted ops ws : live ph p received granted (Op_end :: ops) ws →
  turn_ok ph received granted ops ws (on_end_written ec p).
Proof using.
  intros H. unfold on_end_written. destruct H as [H|[H|[H|H]]].
  { by destruct (w_nothing _ _ _ _ _ _ H). }
  { destruct (f_response _ _ _ _ _ _ H) as (r & _ & _ & Hops). by destruct (bool_decide _); destruct Hops. }
  { by destruct (h_op _ _ _ _ _ _ H) as [(? & _)|(? & _)]. }
  inversion H as [| | |ws' st fs ch blocks Hcore Hw Hq Hph Hn]; subst.
  pose proof (core_on_wire _ _ _ _ _ _ _ _ _ _ _ Hcore) as [_ Hg].
  assert (on_wire received (ws' ++ [Send_end]) ∧ ∃ s f c b, ws' ++ [Send_end] = Send_head s f c :: map Send_block b ++ [Send_end]) as [Hwire Hex].
  { destruct Hcore as [-> _ _ _ _ _ Ht _ _ _ _ _ _ _ _]. cbn [app]. split; [|by eauto 6]. apply wire_ended; [|done].
    rewrite Hq in Ht. by rewrite !app_nil_r in Ht. }
  destruct (write_failed ec); [apply fail_ok; [done|done|cbn; lia]|].
  unfold turn_ok, left_ok. project. cbn [writes omap map grants fold_right]. rewrite !app_nil_r, Z.add_0_r.
  split_and!; try done; [cbn; lia|by right].
Qed.

Lemma on_fixed_written_ok ph p ec received granted ops ws : live ph p received granted (Op_fixed :: ops) ws →
  turn_ok ph received granted ops ws (on_fixed_written ec p).
Proof using.
  intros H. unfold on_fixed_written. destruct H as [H|[H|[H|H]]].
  { by destruct (w_nothing _ _ _ _ _ _ H). }
  2: { by destruct (h_op _ _ _ _ _ _ H) as [(? & _)|(? & _)]. }
  2: { by inversion H. }
  destruct H as [(r & Hr & Hcont & Hops) Hw He Hph (Hrec & Hle) (-> & Hc)].
  destruct (bool_decide (ph = Phase_end)); [|by destruct Hops]. destruct Hops as [[= ->] ->].
  assert (on_wire received [Send_fixed (fixed_status r) (fixed_fields r) (zlen received)
                              (if head_only (flags p) then None else Some received)]) as Hwire.
  { apply wire_fixed. by destruct (head_only (flags p)); intros b [= <-]. }
  destruct (write_failed ec); [apply fail_ok; [done|apply zlen_nonneg|cbn; lia]|].
  apply finalize_ok; [done|apply zlen_nonneg|constructor].
Qed.

(** ** A whole request *)

(** The frames the worker's channel carries. *)
Definition input_ok (i : Input) : Prop :=
  match i with In_body body => zlen body <= frame | In_head _ _ event => 0 <= fixed_body_size event | _ => True end.

Definition drive_ok (ph : Phase) (d : Drive) : Prop :=
  match dr_done d with
  | None => live ph (dr_request d) (dr_received d) (grants (dr_effects d)) (dr_ops d) (writes (dr_effects d))
  | Some a => left_ok a (dr_received d) (grants (dr_effects d)) (dr_ops d) (writes (dr_effects d))
  end.

Lemma apply_turn_ok ph d ops received t :
  turn_ok ph (dr_received d ++ received) (grants (dr_effects d)) ops (writes (dr_effects d)) t →
  drive_ok ph (apply_turn d ops received t).
Proof using.
  unfold turn_ok, drive_ok, apply_turn. cbn [dr_done dr_request dr_received dr_effects dr_ops].
  rewrite writes_app, grants_app. by destruct (action t).
Qed.

Lemma live_waiting p received granted ops ws : live Phase_open p received granted ops ws →
  waiting Phase_open p received granted ops ws.
Proof using.
  intros [H|[[]|[[]|H]]]; [done..|]. by destruct H as [? ? ? ? ? [] | ? ? ? ? [] | ? ? ? ? ? [] | ? ? ? ? ? []].
Qed.

Lemma drive_step_ok ph ph' d i : drive_ok ph d → next_phase ph i = Some ph' → input_ok i →
  zlen (dr_received (drive_step limits id d i)) < 2 ^ 64 → drive_ok ph' (drive_step limits id d i).
Proof using threshold_ok frame_ok.
  intros H Hph Hi Hlt. unfold drive_step in *. pose proof H as H'. unfold drive_ok in H'.
  destruct (dr_done d) as [a|] eqn:Ed; [by unfold drive_ok; rewrite Ed|].
  destruct i as [credit|cors streaming event|body| |ec].
  - assert (ph' = ph) as -> by (by destruct ph; simplify_eq/=).
    apply apply_turn_ok. rewrite app_nil_r. by apply on_request_credit_ok.
  - destruct ph; simplify_eq/=. apply apply_turn_ok. rewrite app_nil_r. apply on_response_head_ok; [by apply live_waiting|done].
  - destruct ph; simplify_eq/=. apply apply_turn_ok. by apply on_response_body_ok.
  - destruct ph; simplify_eq/=. apply apply_turn_ok. rewrite app_nil_r. by apply on_response_end_ok.
  - injection Hph as <-. destruct (dr_ops d) as [|op ops] eqn:Eo; [unfold drive_ok; by rewrite Ed, Eo|].
    cbn [apply_turn dr_received] in Hlt. rewrite app_nil_r in Hlt.
    apply apply_turn_ok. rewrite app_nil_r. destruct op; cbn [on_written].
    + by apply on_head_written_ok.
    + by apply on_block_written_ok.
    + by apply on_end_written_ok.
    + by apply on_fixed_written_ok.
Qed.

Lemma drive_received_grows d i : ∃ more, dr_received (drive_step limits id d i) = dr_received d ++ more.
Proof using.
  unfold drive_step. destruct (dr_done d); [exists []; by rewrite app_nil_r|].
  destruct i; try destruct (dr_ops d); cbn [apply_turn dr_received]; try (by eexists). exists []. by rewrite app_nil_r.
Qed.

Lemma drive_run_ok inputs : ∀ ph ph' d, drive_ok ph d → phase_after ph inputs = Some ph' → Forall input_ok inputs →
  zlen (dr_received (drive limits id inputs d)) < 2 ^ 64 → drive_ok ph' (drive limits id inputs d).
Proof using threshold_ok frame_ok.
  induction inputs as [|i inputs IH]; intros ph ph' d H Hph Hi Hlt; [by injection Hph as <-|].
  cbn [phase_after] in Hph. destruct (next_phase ph i) as [ph1|] eqn:E; [|done]. apply Forall_cons in Hi as [Hi Hrest].
  cbn [drive fold_left] in *. apply (IH ph1); [|done..]. apply (drive_step_ok ph); [done..|].
  eapply Z.le_lt_trans; [|exact Hlt]. clear. revert d. generalize i.
  induction inputs as [|j inputs IH]; intros k d; [done|]. cbn [drive fold_left].
  destruct (drive_received_grows (drive_step limits id d k) j) as [more Hm].
  etrans; [|apply IH]. rewrite Hm, zlen_app. zlen_pose. lia.
Qed.

Lemma live_phase ph p received granted ops ws : live ph p received granted ops ws → phase_of p = ph.
Proof using.
  assert (∀ b, ph ≠ Phase_open → b = bool_decide (ph = Phase_end) → (if b then Phase_end else Phase_head) = ph) as Hb.
  { intros b Hne ->. destruct ph; by cbn. }
  unfold phase_of. intros [H|[H|[H|H]]].
  - destruct H as [-> _ [-> ->] [_ ->] _]. done.
  - destruct H as [(r & -> & _) _ He Hne _ _]. rewrite <- (Hb _ Hne He). by destruct (end_seen (flags p)), (response (stream p)).
  - destruct H as [_ Hr _ He Hne _ _ _ _ _ _]. rewrite <- (Hb _ Hne He). by destruct (end_seen (flags p)), (response (stream p)).
  - destruct H as [? ? ? ? ? [? ? ? He Hne] | ? ? ? ? [? ? ? He Hne] | ? ? ? ? ? [? ? ? He Hne] | ? ? ? ? ? [? ? ? He Hne]];
      rewrite <- (Hb _ Hne He); by destruct (end_seen (flags p)), (response (stream p)).
Qed.

Lemma new_drive_ok l body : drive_ok Phase_open (new_Drive l body).
Proof using. left. by split. Qed.
End live.

(** ** The theorems *)

Section theorems.
Context (limits : StreamLimits) (id frame : Z) (l : Line) (body : bytes) (inputs : list Input) (ph : Phase).

(** The worker's events in order, in frames of a bounded size. *)
Record worker_inputs : Prop := {
  wi_threshold : 0 <= credit_grant_threshold limits < 2 ^ 31;
  wi_frame : 0 <= frame < 2 ^ 31;
  wi_phase : phase_after Phase_open inputs = Some ph;
  wi_inputs : Forall (input_ok frame) inputs;
  wi_size : zlen (dr_received (drive limits id inputs (new_Drive l body))) < 2 ^ 64
}.

Lemma driven : worker_inputs → drive_ok limits frame ph (drive limits id inputs (new_Drive l body)).
Proof. intros []. eapply drive_run_ok; try done. apply new_drive_ok. Qed.

Lemma live_on_wire p received granted ops ws : live limits frame ph p received granted ops ws →
  on_wire received ws ∧ (length ops <= 1)%nat ∧ granted <= zlen received.
Proof.
  intros [H|[H|[H|H]]].
  - destruct H as [_ (-> & -> & -> & ->) _ _ _]. split_and!; [constructor|cbn; lia|done].
  - destruct H as [(r & _ & _ & Hops) _ _ _ _ (-> & _)]. destruct (bool_decide (ph = Phase_end)); destruct Hops as [-> ->].
    + split_and!; [|cbn; lia|apply zlen_nonneg]. apply wire_fixed. by destruct (head_only (flags p)); intros b [= <-].
    + split_and!; [constructor|cbn; lia|apply zlen_nonneg].
  - destruct H as [(st & fs & ch & ->) _ _ _ _ _ _ Hop _ Hb [? _]]. split_and!; [apply head_on_wire| |lia].
    destruct Hop as [(-> & _)|(-> & _)]; cbn; lia.
  - destruct H as [ws st fs ch blocks Hc | ws st fs ch Hc | ws st fs ch blocks Hc | ws st fs ch blocks Hc Hw Hq Hend Hn];
      destruct (core_on_wire _ _ _ _ _ _ _ _ _ _ _ _ _ Hc) as [? ?]; split_and!; try done; try (cbn; lia).
    destruct Hc as [-> _ _ _ _ _ Ht _ _ _ _ _ _ _ _]. cbn [app]. apply wire_ended; [|done].
    rewrite Hq in Ht. by rewrite !app_nil_r in Ht.
Qed.



(** C36. The aggregation never starves the worker: with the threshold clamped
    to the response window, whenever the listener has nothing left to write
    the worker may still send at least three quarters of its window. *)
Theorem worker_not_starved requested window : worker_inputs → 0 < window < 2 ^ 32 → 0 <= requested →
  credit_grant_threshold limits = clamp_credit_grant_threshold requested window →
  let d := drive limits id inputs (new_Drive l body) in
  dr_done d = None → ph = Phase_head → fixed_response (fixed (dr_request d)) = None → dr_ops d = [] →
  zlen (dr_received d) - grants (dr_effects d) <= window / 4 ∧ window / 4 < window.
Proof.
  intros Hin%driven Hw Hreq Hthr. cbn zeta. intros Hd Hph Hf Hops. unfold drive_ok in Hin. rewrite Hd in Hin.
  split; [|apply Z.div_lt; lia]. assert (0 <= window / 4 < 2 ^ 32) as Hq.
  { split; [apply Z.div_pos; lia|]. apply Z.div_lt_upper_bound; lia. }
  assert (∀ c, credit_small limits c → c <= window / 4) as Hc.
  { intros c [Hc [->|Hlt]]; [lia|]. rewrite Hthr in Hlt. unfold clamp_credit_grant_threshold in Hlt.
    destruct (requested =? 0); [lia|]. rewrite u32_small in Hlt; lia. }
  set (d := drive limits id inputs (new_Drive l body)) in *. rewrite Hops in Hin.
  destruct Hin as [[]|[[(r & Hr & _) _ _ _ _ _]|[H|H]]]; [congruence..| |].
  - destruct H as [_ _ _ _ _ _ _ _ Hcr _ Hs]. specialize (Hcr Hph). apply Hc in Hs. lia.
  - inversion H as [ws st fs ch blocks Hcore Hwr Hqe Hphe| | |]. destruct Hcore as [_ _ _ _ _ _ _ _ _ Hcr _ Hs _ _ _].
    specialize (Hcr Hph). rewrite Hqe in Hcr. change (queue_owed []) with 0 in Hcr. apply Hc in Hs. lia.
Qed.
End theorems.

(** ** A response in pieces *)

Definition sample_limits : StreamLimits := mkStreamLimits 2 60000 60000 (clamp_credit_grant_threshold 16384 65536).
Definition sample_line : Line := mkLine 1 (bs "GET") true 11.
Definition sample_head : WorkerEvent :=
  mkWorkerEvent Event_kResponseHead 7 0 200 false 0
    [(bs "Content-Type", bs "text/plain"); (bs "Content-Length", bs "11"); (bs "Connection", bs "X-Drop"); (bs "x-drop", bs "1")]
    [] [] false [] [] [] [] [].

(** Two body frames arrive while the head is written. *)
Definition sample_inputs : list Input :=
  [In_head None 0 sample_head; In_body (bs "hello"); In_body (bs " "); In_written Write_ok; In_body (bs "world")].

Lemma sample_worker_inputs ins ph : phase_after Phase_open ins = Some ph →
  forallb (λ i, match i with In_body b => zlen b <=? 4096 | In_head _ _ ev => 0 <=? fixed_body_size ev | _ => true end) ins = true →
  (zlen (dr_received (drive sample_limits 7 ins (new_Drive sample_line []))) <? 2 ^ 64) = true →
  worker_inputs sample_limits 7 4096 sample_line [] ins ph.
Proof.
  intros H1 H2 H3. split; [split; [discriminate|reflexivity]|lia|done| |by apply Z.ltb_lt].
  apply Forall_forall. intros i Hi%list_elem_of_In. rewrite forallb_forall in H2. specialize (H2 i Hi).
  destruct i; cbn [input_ok]; try done; by apply Z.leb_le.
Qed.



Lemma worker_not_starved_witness :
  let d := drive sample_limits 7 (sample_inputs ++ [In_written Write_need_buffer; In_written Write_need_buffer]) (new_Drive sample_line []) in
  zlen (dr_received d) - grants (dr_effects d) <= 65536 / 4.
Proof.
  cbv zeta. refine (proj1 (worker_not_starved sample_limits 7 4096 sample_line [] _ Phase_head 16384 65536 _ _ _ _ _ _ _ _));
    [apply sample_worker_inputs|lia|lia|..]; vm_compute; reflexivity.
Defined.

(** ** Response fields *)

(** What a field that passes the first pass is. *)
Definition response_field_ok (h : bytes * bytes) : Prop :=
  h.1 ≠ [] ∧ forallb is_token_char h.1 = true ∧ forallb valid_field_value_byte h.2 = true
  ∧ (lowered h.1 = bs "content-length" → ∃ n, content_length_value h.2 = Some n).

(** The names the Connection fields of a response nominate. *)
Definition response_nominated (hs : list (bytes * bytes)) : list bytes :=
  flat_map (λ h, default [] (collect_connection_nominations h.2)) (named (bs "connection") hs).

Lemma check_response_headers_ok hs : ∀ nominated count out, 0 <= count →
  check_response_headers hs nominated count = Some out →
  Forall response_field_ok hs ∧ out = nominated ++ response_nominated hs
  ∧ (hs = [] ∨ named (bs "content-length") hs = [] ∨ count + zlen (named (bs "content-length") hs) <= 1).
Proof.
  induction hs as [|[n v] hs IH]; cbn [check_response_headers]; intros nominated count out Hcount.
  { intros [= <-]. unfold response_nominated. cbn. rewrite app_nil_r. split_and!; [constructor|done|by left]. }
  destruct (bool_decide (n = [])) eqn:E1; [done|]. apply bool_decide_eq_false in E1.
  destruct (forallb is_token_char n) eqn:E2; [|done]. destruct (forallb valid_field_value_byte v) eqn:E3; [|done]. cbn [negb].
  unfold response_nominated, named. cbn [List.filter fst].
  destruct (decide (lowered n = bs "connection")) as [C|C].
  { rewrite (bool_decide_true _ C). rewrite (bool_decide_false (lowered n = bs "content-length")) by (by rewrite C).
    destruct (collect_connection_nominations v) as [l|] eqn:El; [|done]. intros (Hf & -> & Hcl)%IH; [|done].
    cbn [flat_map snd]. rewrite El, <- app_assoc. split_and!; [|done|].
    - constructor; [|done]. split_and!; try done. cbn [fst]. by rewrite C.
    - destruct Hcl as [->|Hcl]; [right; left; done|by right]. }
  rewrite (bool_decide_false _ C). destruct (decide (lowered n = bs "content-length")) as [D|D].
  - rewrite (bool_decide_true _ D). destruct (1 <? count + 1) eqn:E4; [done|]. bools.
    destruct (content_length_value v) as [x|] eqn:Ex; [|done]. intros (Hf & -> & Hcl)%IH; [|lia]. split_and!; [|done|].
    + constructor; [|done]. split_and!; try done. by exists x.
    + right. right. rewrite zlen_cons. unfold named in Hcl.
      destruct Hcl as [->|[->|Hcl]]; [cbn [List.filter]; rewrite zlen_nil; lia|rewrite zlen_nil; lia|lia].
  - rewrite (bool_decide_false _ D). intros (Hf & -> & Hcl)%IH; [|done]. split_and!; [|done|].
    + constructor; [|done]. by split_and!.
    + destruct Hcl as [->|Hcl]; [right; left; done|by right].
Qed.

(** The response fields that reach the client are exactly the worker's
    end-to-end fields: none is hop-by-hop or nominated by a Connection field;
    every name is a token and no value has a control byte, so no field can
    split the response; and there is at most one Content-Length, a number of
    64 bits. *)
Theorem response_fields_safe hs out : sanitize_response_headers hs = Some out →
  out = List.filter (λ h, negb (response_hop_by_hop (lowered h.1) || bool_decide (lowered h.1 ∈ response_nominated hs))) hs
  ∧ Forall response_field_ok out ∧ (∀ h, h ∈ out → (Byte.x0d ∉ h.2) ∧ (Byte.x0a ∉ h.2) ∧ (Byte.x00 ∉ h.2))
  ∧ zlen (named (bs "content-length") out) <= 1.
Proof.
  unfold sanitize_response_headers. destruct (check_response_headers hs [] 0) as [nominated|] eqn:E; [|done].
  apply check_response_headers_ok in E as (Hf & -> & Hcl); [|done]. cbn [app]. intros [= <-].
  assert (∀ h, h ∈ List.filter (λ h, negb (response_hop_by_hop (lowered h.1) || bool_decide (lowered h.1 ∈ response_nominated hs))) hs
    → response_field_ok h) as Hok.
  { intros h Hin%list_elem_of_In. apply filter_In in Hin as [Hin _]. rewrite Forall_forall in Hf. by apply Hf, list_elem_of_In. }
  split_and!; [done|by apply Forall_forall| |].
  - intros h Hin. destruct (Hok h Hin) as (_ & _ & Hv & _). rewrite forallb_forall in Hv.
    split_and!; intros Hc%list_elem_of_In%Hv; discriminate.
  - assert (∀ keep : bytes * bytes → bool, zlen (named (bs "content-length") (List.filter keep hs)) <= zlen (named (bs "content-length") hs)) as Hle.
    { intros keep. clear. unfold named, zlen. induction hs as [|h hs IH]; cbn [List.filter]; [done|].
      destruct (keep h); cbn [List.filter]; destruct (bool_decide _); cbn [length]; lia. }
    etrans; [apply Hle|]. destruct Hcl as [->|[->|Hcl]]; [done..|lia].
Qed.

Lemma response_fields_safe_witness :
  ∃ out, sanitize_response_headers (event_headers sample_head) = Some out ∧ zlen (named (bs "content-length") out) <= 1.
Proof.
  eexists. assert (sanitize_response_headers (event_headers sample_head) = Some _) as E by (vm_compute; reflexivity).
  split; [exact E|]. exact (proj2 (proj2 (proj2 (response_fields_safe _ _ E)))).
Defined.
