(* ===== verification/WorkerServer.v ===== *)
(** * WorkerServer: the data plane of one worker (src/host/single_worker_server.cc)

    The io thread of the listener: sessions read requests, an admission gate
    gives a request one of the worker's inflight slots or parks it in a bounded
    queue, the worker's events drive the responses (ResponseStream), timers and
    disconnects cancel requests, and a drain or a stop closes everything. The
    state is the server's tables and the asynchronous operations pending on the
    sessions' streams; a handler is a function on it, and [server_step] runs
    the handler of a label, which stands for whatever completes or fires next.

    The worker behind it is the executor of WorkerExecutor: the server's calls
    on it are recorded in order. What is handed to a stream that is still open
    is recorded too. A timer may fire for any request at any time, as a handler
    that was already queued does. *)
From Stdlib Require Import ZArith Lia.
From stdpp Require Import sorting.
From S2P Require Import Prelude Jansson EgressPolicy WorkerExecutor RequestNormalization ListenerCors ResponseStream.
Local Open Scope Z_scope.

(** ** Options and data *)

Record ServerOptions := mkServerOptions {
  application_name : bytes;
  routing : RequestRoutingPolicy;
  cors_config : ListenerCorsConfig;
  max_inflight : Z;
  max_queue_requests : Z;
  max_queue_header_bytes : Z;
  queue_timeout_ms : Z;
  stream_limits : StreamLimits;
  bodyless_enabled : bool
}.

(** A request the HTTP library has parsed. *)
Record HttpRequest := mkHttpRequest {
  rq_method : bytes;
  rq_target : bytes;
  rq_fields : list (bytes * bytes);
  rq_body : bytes;
  rq_keep_alive : bool;
  rq_version : Z
}.

Record QueuedRequest := mkQueuedRequest {
  q_session : Z;
  q_request : HttpRequest;
  q_normalized : NormalizedPublicRequest;
  q_bytes : Z;
  q_deadline : option Z
}.

Record Session := mkSession {
  closed : bool;
  probe_active : bool;
  current_id : option Z;
  session_cors : option ListenerCors
}.

(** An operation pending on a session's stream. *)
Inductive StreamOp := Reading | Sending (keep_alive : bool) | Writing (id : Z) (k : OpKind).

(** A whole response of the listener's own, or a part of a request's. *)
Inductive Sent := Sent_own (r : Response (list (bytes * bytes))) | Sent_part (id : Z) (w : Send).

Inductive AdmissionResult := kAccepted | kQueued | kQueueFull.

(** The requests in flight and the streaming slots they hold. *)
Record Inflight := mkInflightTable { requests : gmap Z PendingRequest; streaming_inflight : Z; next_request_id : Z }.

(** [queue_bytes] sums objects in memory, so it does not wrap. *)
Record Parked := mkParked { queue : list QueuedRequest; queue_bytes : Z; queue_timer : option Z }.

(** The registered sessions, and every session object. *)
Record Sessions := mkSessions { sessions : gset Z; heap : gmap Z Session; next_session_id : Z }.

Record ServerLife := mkServerLife {
  shutting_down : bool;
  worker_dead : bool;
  worker_available : bool;
  accepting : bool;
  stop_requested : bool;
  draining : bool;
  drain_finished : bool;
  drain_started_ms : Z;
  drain_total_ms : Z;
  forced_cancellations : Z;
  drain_timer : bool;
  clock : Z;                              (* the steady clock, in milliseconds *)
  faulted : bool                          (* a null response was dereferenced *)
}.

Record Outside := mkOutside {
  ops : list (Z * StreamOp);
  wire : list (Z * Sent);
  made_calls : list OwnerOp
}.

Record Impl := mkImpl {
  table : Inflight;
  parked : Parked;
  people : Sessions;
  server_life : ServerLife;
  outside : Outside
}.

Definition new_Impl : Impl :=
  mkImpl (mkInflightTable ∅ 0 1) (mkParked [] 0 None) (mkSessions ∅ ∅ 1)
    (mkServerLife false false true true false false false 0 0 0 false 0 false) (mkOutside [] [] []).

Definition set_table (s : Impl) (t : Inflight) : Impl := mkImpl t (parked s) (people s) (server_life s) (outside s).
Definition set_parked (s : Impl) (p : Parked) : Impl := mkImpl (table s) p (people s) (server_life s) (outside s).
Definition set_people (s : Impl) (p : Sessions) : Impl := mkImpl (table s) (parked s) p (server_life s) (outside s).
Definition set_server_life (s : Impl) (l : ServerLife) : Impl := mkImpl (table s) (parked s) (people s) l (outside s).
Definition set_outside (s : Impl) (o : Outside) : Impl := mkImpl (table s) (parked s) (people s) (server_life s) o.

Definition put_request (s : Impl) (id : Z) (p : PendingRequest) : Impl :=
  set_table s (mkInflightTable (<[id := p]> (requests (table s))) (streaming_inflight (table s)) (next_request_id (table s))).
Definition set_streaming (s : Impl) (n : Z) : Impl :=
  set_table s (mkInflightTable (requests (table s)) n (next_request_id (table s))).

(** A session that was never created reads as a closed one. *)
Definition session_at (s : Impl) (sid : Z) : Session :=
  default (mkSession true false None None) (heap (people s) !! sid).
Definition put_session (s : Impl) (sid : Z) (x : Session) : Impl :=
  set_people s (mkSessions (sessions (people s)) (<[sid := x]> (heap (people s))) (next_session_id (people s))).

Definition set_current (s : Impl) (sid : Z) (id : option Z) : Impl :=
  let x := session_at s sid in put_session s sid (mkSession (closed x) (probe_active x) id (session_cors x)).

(** ** Calls and writes *)

Definition call (s : Impl) (op : OwnerOp) : Impl :=
  set_outside s (mkOutside (ops (outside s)) (wire (outside s)) (made_calls (outside s) ++ [op])).

Definition push_op (s : Impl) (sid : Z) (op : StreamOp) : Impl :=
  set_outside s (mkOutside (ops (outside s) ++ [(sid, op)]) (wire (outside s)) (made_calls (outside s))).

(** Bytes handed to a closed stream go nowhere. *)
Definition put_wire (s : Impl) (sid : Z) (x : Sent) : Impl :=
  if closed (session_at s sid) then s
  else set_outside s (mkOutside (ops (outside s)) (wire (outside s) ++ [(sid, x)]) (made_calls (outside s))).

(** [Session::send_simple]. *)
Definition send_simple (s : Impl) (sid status : Z) (body : bytes) (keep_alive : bool) : Impl :=
  let r := mkCorsResponse status [(bs "content-type", bs "text/plain")] body in
  let r := match session_cors (session_at s sid) with Some c => stamp c r | None => r end in
  push_op (put_wire s sid (Sent_own r)) sid (Sending keep_alive).

Definition send_cors_preflight (s : Impl) (sid : Z) (c : ListenerCors) (keep_alive : bool) : Impl :=
  push_op (put_wire s sid (Sent_own (build_preflight c (mkCorsResponse 200 [] [])))) sid (Sending keep_alive).

Definition read_request (s : Impl) (sid : Z) : Impl := push_op (set_current s sid None) sid Reading.

(** The effects of a turn of request [id] on the session's stream and the
    executor. *)
Definition apply_effect (id sid : Z) (s : Impl) (e : Effect) : Impl :=
  match e with
  | Submit c => call s (Op_submit c)
  | Retire r => call s (Op_retire_terminal_request r)
  | Write w => push_op (put_wire s sid (Sent_part id w)) sid (Writing id (op_of w))
  end.

Definition drop_session (s : Impl) (sid : Z) : Impl :=
  set_people s (mkSessions (sessions (people s) ∖ {[sid]}) (heap (people s)) (next_session_id (people s))).

(** ** Admission *)

Definition estimate_request_bytes (rq : HttpRequest) : Z :=
  fold_left (λ n f, n + zlen f.1 + zlen f.2 + 4) (rq_fields rq)
    (zlen (rq_method rq) + zlen (rq_target rq) + zlen (rq_body rq) + 8).

Fixpoint remove_session (sid : Z) (q : list QueuedRequest) (n : Z) : list QueuedRequest * Z :=
  match q with
  | [] => ([], n)
  | e :: rest =>
      if q_session e =? sid then (rest, n - q_bytes e)
      else let '(rest, n) := remove_session sid rest n in (e :: rest, n)
  end.

Definition cancel_queued (s : Impl) (sid : Z) : Impl :=
  let '(q, n) := remove_session sid (queue (parked s)) (queue_bytes (parked s)) in
  set_parked s (mkParked q n (queue_timer (parked s))).

Definition start_disconnect_probe (s : Impl) (sid : Z) : Impl :=
  let x := session_at s sid in
  if probe_active x || closed x then s
  else put_session s sid (mkSession (closed x) true (current_id x) (session_cors x)).

(** The loop of [allocate_request_id]: the id and the next one. *)
Fixpoint next_free (fuel : nat) (next : Z) (used : gmap Z PendingRequest) : Z * Z :=
  let '(candidate, next) :=
    if next =? 0 then (u64 (next + 1), u64 (u64 (next + 1) + 1)) else (next, u64 (next + 1)) in
  match fuel with
  | O => (candidate, next)
  | S fuel => match used !! candidate with Some _ => next_free fuel next used | None => (candidate, next) end
  end.

Section server.
Context (o : ServerOptions).

(** A free inflight slot. *)
Definition slot_free (s : Impl) : bool :=
  (max_inflight o =? 0) || (Z.of_nat (size (requests (table s))) <? max_inflight o).

Definition arm_queue_timer (s : Impl) : Impl :=
  let k := parked s in
  let timer :=
    if queue_timeout_ms o =? 0 then None
    else match queue k with [] => None | e :: _ => q_deadline e end in
  set_parked s (mkParked (queue k) (queue_bytes k) timer).

Definition admit_request (s : Impl) (sid : Z) (rq : HttpRequest) (normalized : NormalizedPublicRequest) :
    AdmissionResult * Impl :=
  let k := parked s in
  if bool_decide (queue k = []) && slot_free s then (kAccepted, s)
  else if max_queue_requests o =? 0 then (kQueueFull, s)
  else
    let n := estimate_request_bytes rq in
    if (max_queue_requests o <=? zlen (queue k))
       || (negb (max_queue_header_bytes o =? 0) && (max_queue_header_bytes o <? queue_bytes k + n))
    then (kQueueFull, s)
    else
      let deadline := if queue_timeout_ms o =? 0 then None else Some (clock (server_life s) + queue_timeout_ms o) in
      let entry := mkQueuedRequest sid rq normalized n deadline in
      (kQueued, arm_queue_timer (set_parked s (mkParked (queue k ++ [entry]) (queue_bytes k + n) (queue_timer k)))).

Definition allocate_request_id (s : Impl) : Z * Impl :=
  if negb (slot_free s) then (0, s)
  else
    let t := table s in
    let '(candidate, next) := next_free (size (requests t)) (next_request_id t) (requests t) in
    (candidate, set_table s (mkInflightTable (requests t) (streaming_inflight t) next)).

Definition begin_request (s : Impl) (id sid : Z) (rq : HttpRequest) (normalized : NormalizedPublicRequest) : Impl :=
  let has_body := negb (bool_decide (rq_body rq = [])) in
  let fused := bodyless_enabled o && negb has_body in
  let p := new_PendingRequest (mkLine sid (rq_method rq) (rq_keep_alive rq) (rq_version rq)) (rq_body rq) in
  let s := put_request s id p in
  let s := call s (Op_submit (mkCommand Command_kBeginRequest id (rq_method rq) (url normalized)
                                (map (λ h, (name h, value h)) (headers normalized)) [] 0 fused 0)) in
  if fused then put_request s id (set_upload p (mkUpload (rq_body rq) 0 0 true)) else s.

(** ** Handlers that may complete a drain *)

Section reentrant.
Context (complete : Impl → Impl).

Definition maybe_complete_drain (s : Impl) : Impl :=
  let l := server_life s in
  if negb (draining l) || shutting_down l then s
  else if negb (bool_decide (requests (table s) = ∅)) || negb (bool_decide (queue (parked s) = [])) then s
  else complete s.

(** A parked request leaves the queue: expired, or into an inflight slot. *)
Definition pump_entry (s : Impl) (e : QueuedRequest) : Impl :=
  let sid := q_session e in
  let expired := match q_deadline e with Some d => d <=? clock (server_life s) | None => false end in
  if expired then
    if closed (session_at s sid) then s
    else send_simple s sid 504 (bs "queued request timeout") (rq_keep_alive (q_request e))
  else
    let '(id, s) := allocate_request_id s in
    if id =? 0 then
      if closed (session_at s sid) then s
      else send_simple s sid 503 (bs "no worker request slots available") (rq_keep_alive (q_request e))
    else start_disconnect_probe (begin_request (set_current s sid (Some id)) id sid (q_request e) (q_normalized e)) sid.

Fixpoint pump_loop (fuel : nat) (s : Impl) : Impl :=
  match fuel with
  | O => s
  | S fuel =>
      match queue (parked s) with
      | [] => s
      | e :: rest =>
          if slot_free s
          then pump_loop fuel
                 (pump_entry (set_parked s (mkParked rest (queue_bytes (parked s) - q_bytes e) (queue_timer (parked s)))) e)
          else s
      end
  end.

Definition pump_queue (s : Impl) : Impl :=
  maybe_complete_drain (arm_queue_timer (pump_loop (length (queue (parked s))) s)).

(** The request leaves the table, and its streaming permit with it. *)
Definition erase_request (s : Impl) (id : Z) (p : PendingRequest) : Impl :=
  let n := (release_streaming_permit (streaming_inflight (table s)) p).2 in
  set_table s (mkInflightTable (delete id (requests (table s))) n (next_request_id (table s))).

Definition cancel_request (s : Impl) (id : Z) : Impl :=
  match requests (table s) !! id with
  | None => s
  | Some p =>
      let s := erase_request s id p in
      let s := call s (Op_mark_canceled id) in
      let s := call s (Op_submit (new_Command Command_kCancel id)) in
      maybe_complete_drain (pump_queue s)
  end.

(** [Session::close]. *)
Definition close_session (s : Impl) (sid : Z) : Impl :=
  let x := session_at s sid in
  if closed x then s
  else
    let s := put_session s sid (mkSession true (probe_active x) (current_id x) (session_cors x)) in
    let s := cancel_queued s sid in
    let s := match current_id x with
             | Some id => set_current (cancel_request s id) sid None
             | None => s
             end in
    drop_session s sid.

Definition fail_request (s : Impl) (id sid : Z) : Impl :=
  let s := cancel_request s id in
  if closed (session_at s sid) then s else close_session s sid.

(** The session reads its next request, or closes. *)
Definition resume_session (s : Impl) (sid : Z) (keep_alive : bool) : Impl :=
  if closed (session_at s sid) then s
  else if keep_alive then read_request s sid else close_session s sid.

Definition finalize_request (s : Impl) (id sid : Z) : Impl :=
  match requests (table s) !! id with
  | None => s
  | Some p => maybe_complete_drain (resume_session (pump_queue (erase_request s id p)) sid (keep_alive (line p)))
  end.

(** The end block of a streamed response is out. *)
Definition end_request_done (s : Impl) (id sid : Z) (p : PendingRequest) : Impl :=
  resume_session (pump_queue (erase_request s id p)) sid (keep_alive (line p)).

Definition reject_response_head (s : Impl) (id : Z) (reason : bytes) : Impl :=
  match requests (table s) !! id with
  | None => s
  | Some p =>
      let sid := session (line p) in
      let s := cancel_request s id in
      if closed (session_at s sid) then s else send_simple s sid 503 reason (keep_alive (line p))
  end.

(** A turn of request [id]: the request is stored, the effects happen, and
    the request goes on or leaves. *)
Definition run_turn (s : Impl) (id : Z) (t : Turn) : Impl :=
  let sid := session (line (after t)) in
  let s := put_request s id (after t) in
  let s := fold_left (apply_effect id sid) (effects t) s in
  match action t with
  | Continue => s
  | Reject reason => reject_response_head s id (bs reason)
  | Fail => fail_request s id sid
  | Finalize => finalize_request s id sid
  | Ended => end_request_done s id sid (after t)
  | Fault =>
      let l := server_life s in
      set_server_life s (mkServerLife (shutting_down l) (worker_dead l) (worker_available l) (accepting l) (stop_requested l)
                           (draining l) (drain_finished l) (drain_started_ms l) (drain_total_ms l)
                           (forced_cancellations l) (drain_timer l) (clock l) true)
  end.

(** ** Worker events *)

(** The request is over without a response of the worker's: an answer of the
    listener's own if no response byte can be on the stream, else a close. *)
Definition abort_request (s : Impl) (id status : Z) (reason : bytes) : Impl :=
  match requests (table s) !! id with
  | None => s
  | Some p =>
      let sid := session (line p) in
      let s := cancel_request s id in
      if closed (session_at s sid) then s
      else if head_sent (flags p) || writing (flags p) then close_session s sid
      else send_simple s sid status reason (keep_alive (line p))
  end.

(** The queue of a dead worker, one entry after the other. *)
Definition abandon (s : Impl) (e : QueuedRequest) : Impl :=
  let k := parked s in
  let s := set_parked s (mkParked (tail (queue k)) (queue_bytes k - q_bytes e) (queue_timer k)) in
  if closed (session_at s (q_session e)) then s
  else send_simple s (q_session e) 503 (bs "worker exited") (rq_keep_alive (q_request e)).

(** The ids of the table in order. *)
Definition request_ids (s : Impl) : list Z := merge_sort Z.le (map fst (map_to_list (requests (table s)))).
Definition session_ids (s : Impl) : list Z := merge_sort Z.le (elements (sessions (people s))).

Definition on_worker_exit (s : Impl) : Impl :=
  let l := server_life s in
  let s := set_server_life s (mkServerLife (shutting_down l) true false (accepting l) (stop_requested l) (draining l)
                                (drain_finished l) (drain_started_ms l) (drain_total_ms l) (forced_cancellations l)
                                (drain_timer l) (clock l) (faulted l)) in
  let s := fold_left abandon (queue (parked s)) s in
  let s := set_parked s (mkParked (queue (parked s)) (queue_bytes (parked s)) None) in
  let l := server_life s in
  let s := set_server_life s (mkServerLife (shutting_down l) (worker_dead l) (worker_available l) false (stop_requested l)
                                (draining l) (drain_finished l) (drain_started_ms l) (drain_total_ms l)
                                (forced_cancellations l) (drain_timer l) (clock l) (faulted l)) in
  fold_left (λ s id, abort_request s id 503 (bs "worker exited")) (request_ids s) s.

Definition handle_worker_event (s : Impl) (event : WorkerEvent) : Impl :=
  let id := event_id event in
  match event_type event with
  | Event_kRequestCredit =>
      match requests (table s) !! id with
      | Some p => run_turn s id (on_request_credit id (event_credit event) p)
      | None => s
      end
  | Event_kResponseHead =>
      match requests (table s) !! id with
      | Some p =>
          let '(t, n) := on_response_head (stream_limits o) (session_cors (session_at s (session (line p))))
                           (streaming_inflight (table s)) event p in
          run_turn (set_streaming s n) id t
      | None => s
      end
  | Event_kResponseBody =>
      match requests (table s) !! id with
      | Some p => run_turn s id (on_response_body (stream_limits o) id (event_body event) p)
      | None => s
      end
  | Event_kResponseEnd =>
      match requests (table s) !! id with
      | Some p => run_turn s id (on_response_end (stream_limits o) id p)
      | None => s
      end
  | Event_kLog | Event_kError => s        (* log lines *)
  | Event_kRequestTimeout => abort_request s id 504 (bs "worker request timeout")
  | Event_kRequestFailure => abort_request s id 503 (bs "worker request failed")
  | Event_kExit => on_worker_exit s
  end.

(** ** Requests *)

(** [Session::handle_request]. *)
Definition handle_request (s : Impl) (sid : Z) (rq : HttpRequest) : Impl :=
  let x := session_at s sid in
  let ka := rq_keep_alive rq in
  let engine :=
    if configured (cors_config o)
    then Some (prepare (new_ListenerCors (cors_config o))
                 (mkCorsRequest (bool_decide (rq_method rq = bs "OPTIONS")) (rq_fields rq)))
    else session_cors x in
  let s := put_session s sid (mkSession (closed x) (probe_active x) (current_id x) engine) in
  let proceed :=
    if worker_dead (server_life s) then send_simple s sid 503 (bs "worker unavailable") false
    else
      let views := map (λ f, mkHeaderView f.1 f.2) (rq_fields rq) in
      match normalize_public_request (routing o) (rq_target rq) views with
      | inr e =>
          let status := match error_code e with Request_kRouteNotFound => 404 | _ => 400 end in
          send_simple s sid status (bs (error_message e)) ka
      | inl normalized =>
          if negb (bool_decide (application normalized = application_name o))
          then send_simple s sid 404 (bs "app not found") ka
          else match check_websocket_upgrade views with
          | Upgrade_kBadKey => send_simple s sid 400 (bs "invalid Sec-WebSocket-Key") false
          | Upgrade_kUnsupportedVersion =>
              let r := mkCorsResponse 426 [(bs "sec-websocket-version", bs "13"); (bs "content-type", bs "text/plain")] [] in
              let r := match session_cors (session_at s sid) with Some c => stamp c r | None => r end in
              push_op (put_wire s sid (Sent_own (mkCorsResponse (ListenerCors.status r) (response_fields r)
                                                   (bs "unsupported Sec-WebSocket-Version")))) sid (Sending false)
          | Upgrade_kValid | Upgrade_kNone =>
              match admit_request s sid rq normalized with
              | (kAccepted, s) =>
                  let '(id, s) := allocate_request_id s in
                  if id =? 0 then send_simple s sid 503 (bs "no worker request slots available") ka
                  else start_disconnect_probe (begin_request (set_current s sid (Some id)) id sid rq normalized) sid
              | (kQueued, s) => s
              | (kQueueFull, s) => send_simple s sid 429 (bs "app queue full") ka
              end
          end
      end in
  match engine with
  | Some c =>
      if configured (cors_config o) then
        match decision_ c with
        | kBadRequest => send_simple s sid 400 (bs "duplicate Origin header") ka
        | kPreflightAllowed | kPreflightRejected => send_cors_preflight s sid c ka
        | kProceed => proceed
        end
      else proceed
  | None => proceed
  end.

(** ** Completions *)

Inductive Completion := Read_request (rq : HttpRequest) | Read_failed | Wrote (ec : WriteResult).

(** The handler of a pending operation that has completed. *)
Definition on_complete (s : Impl) (sid : Z) (op : StreamOp) (r : Completion) : Impl :=
  match op, r with
  | Reading, Read_request rq => handle_request s sid rq
  | Reading, _ => close_session s sid
  | Sending keep, Wrote Write_ok =>
      if keep && negb (closed (session_at s sid)) then read_request s sid else close_session s sid
  | Sending _, _ => close_session s sid
  | Writing id k, r =>
      let ec := match r with Wrote ec => ec | _ => Write_error end in
      match requests (table s) !! id with
      | None => s
      | Some p => run_turn s id (on_written (stream_limits o) id k ec p)
      end
  end.

(** ** Timers and disconnects *)

Definition on_request_timer (s : Impl) (id : Z) : Impl :=
  match requests (table s) !! id with
  | None => s
  | Some p =>
      let sid := session (line p) in
      let s := cancel_request s id in
      if closed (session_at s sid) then s else close_session s sid
  end.

Definition on_stream_idle_timer (s : Impl) (id : Z) : Impl := on_request_timer s id.
Definition on_write_timer (s : Impl) (id : Z) : Impl := on_request_timer s id.

(** The parked requests whose deadline has passed. *)
Fixpoint expire_loop (fuel : nat) (s : Impl) : Impl :=
  match fuel with
  | O => s
  | S fuel =>
      match queue (parked s) with
      | [] => s
      | e :: rest =>
          match q_deadline e with
          | Some d =>
              if d <=? clock (server_life s) then
                let s := set_parked s (mkParked rest (queue_bytes (parked s) - q_bytes e) (queue_timer (parked s))) in
                expire_loop fuel
                  (if closed (session_at s (q_session e)) then s
                   else send_simple s (q_session e) 504 (bs "queued request timeout") (rq_keep_alive (q_request e)))
              else s
          | None => s
          end
      end
  end.

Definition on_queue_timer (s : Impl) : Impl :=
  if shutting_down (server_life s) then s else arm_queue_timer (expire_loop (length (queue (parked s))) s).

(** What the probe finds on the socket. *)
Inductive Peek := Peek_error | Peek_eof | Peek_data.

Definition on_probe (s : Impl) (sid : Z) (found : Peek) : Impl :=
  let x := session_at s sid in
  if negb (probe_active x) then s
  else
    let s := put_session s sid (mkSession (closed x) false (current_id x) (session_cors x)) in
    if closed x then s
    else match current_id x with
         | None => s
         | Some id =>
             match found with
             | Peek_error => close_session s sid
             | Peek_eof => s
             | Peek_data =>
                 let early := match requests (table s) !! id with Some p => response_may_complete_early p | None => false end in
                 if early then s else close_session s sid
             end
         end.

Definition close_all (s : Impl) : Impl :=
  fold_left (λ s sid, if bool_decide (sid ∈ sessions (people s)) then close_session s sid else s) (session_ids s) s.
End reentrant.

(** ** Drain and stop *)

(** [complete_drain]; a session it closes cannot start a second completion,
    since the server is shutting down then. *)
Fixpoint complete_drain_at (fuel : nat) (s : Impl) : Impl :=
  match fuel with
  | O => s
  | S fuel =>
      let l := server_life s in
      if shutting_down l then s
      else
        let total := if drain_started_ms l =? 0 then drain_total_ms l else u64 (clock l - drain_started_ms l) in
        let s := set_server_life s (mkServerLife true (worker_dead l) false (accepting l) (stop_requested l) (draining l) true
                                      (drain_started_ms l) total (forced_cancellations l) false (clock l) (faulted l)) in
        call (close_all (complete_drain_at fuel) s) Op_request_shutdown
  end.

Definition complete_drain : Impl → Impl := complete_drain_at 1.

Definition set_accepting (s : Impl) (b : bool) : Impl :=
  let l := server_life s in
  set_server_life s (mkServerLife (shutting_down l) (worker_dead l) (worker_available l) b (stop_requested l) (draining l)
                       (drain_finished l) (drain_started_ms l) (drain_total_ms l) (forced_cancellations l)
                       (drain_timer l) (clock l) (faulted l)).

(** [begin_drain], on any thread. *)
Definition begin_drain (s : Impl) : Impl :=
  let l := server_life s in
  if draining l then s
  else set_server_life s (mkServerLife (shutting_down l) (worker_dead l) (worker_available l) (accepting l) (stop_requested l)
                            true (drain_finished l) (clock l) (drain_total_ms l) (forced_cancellations l) (drain_timer l)
                            (clock l) (faulted l)).

Definition start_drain_on_io (s : Impl) (deadline_ms : Z) : Impl :=
  if shutting_down (server_life s) then s
  else
    let s := set_accepting s false in
    let l := server_life s in
    let s := if deadline_ms =? 0 then s
             else set_server_life s (mkServerLife (shutting_down l) (worker_dead l) (worker_available l) (accepting l)
                                       (stop_requested l) (draining l) (drain_finished l) (drain_started_ms l)
                                       (drain_total_ms l) (forced_cancellations l) true (clock l) (faulted l)) in
    maybe_complete_drain complete_drain s.

Definition on_drain_deadline (s : Impl) : Impl :=
  let l := server_life s in
  if shutting_down l then s
  else
    let busy := List.filter (λ sid, match current_id (session_at s sid) with Some _ => true | None => false end) (session_ids s) in
    let forced := u64 (forced_cancellations l + zlen busy + zlen (queue (parked s))) in
    let s := set_server_life s (mkServerLife (shutting_down l) (worker_dead l) (worker_available l) (accepting l)
                                  (stop_requested l) (draining l) (drain_finished l) (drain_started_ms l)
                                  (drain_total_ms l) forced (drain_timer l) (clock l) (faulted l)) in
    complete_drain (close_all complete_drain s).

Definition on_signal (s : Impl) : Impl :=
  let l := server_life s in
  if shutting_down l then s
  else
    let s := set_server_life s (mkServerLife true (worker_dead l) false false (stop_requested l) (draining l)
                                  (drain_finished l) (drain_started_ms l) (drain_total_ms l) (forced_cancellations l)
                                  (drain_timer l) (clock l) (faulted l)) in
    call (close_all complete_drain s) Op_request_shutdown.

(** The caller's part of [request_stop]; the io thread's is [on_signal]. *)
Definition request_stop (s : Impl) : Impl :=
  let l := server_life s in
  if stop_requested l then s
  else call (set_server_life s (mkServerLife (shutting_down l) (worker_dead l) (worker_available l) (accepting l) true
                                  (draining l) (drain_finished l) (drain_started_ms l) (drain_total_ms l)
                                  (forced_cancellations l) (drain_timer l) (clock l) (faulted l))) Op_request_shutdown.

(** ** The server *)

(** A connection of the listener's own acceptor or handed in. *)
Definition on_accept (s : Impl) : Impl :=
  if shutting_down (server_life s) then s
  else
    let m := people s in
    let sid := next_session_id m in
    let s := set_people s (mkSessions ({[sid]} ∪ sessions m) (<[sid := mkSession false false None None]> (heap m)) (u64 (sid + 1))) in
    read_request s sid.

Inductive ServerLabel :=
| Accepted
| Completed (n : nat) (r : Completion)
| Event (e : WorkerEvent)
| Idle_fired (id : Z)
| Write_fired (id : Z)
| Queue_fired
| Drain_fired
| Probed (sid : Z) (found : Peek)
| Drain_begun
| Drain_posted (deadline_ms : Z)
| Stop_called
| Signalled
| Ticked (ms : Z).

(** The pending operation number [n] completes. *)
Definition complete_op (s : Impl) (n : nat) (r : Completion) : Impl :=
  match ops (outside s) !! n with
  | None => s
  | Some (sid, op) =>
      let w := outside s in
      on_complete complete_drain
        (set_outside s (mkOutside (delete n (ops w)) (wire w) (made_calls w))) sid op r
  end.

Definition tick (s : Impl) (ms : Z) : Impl :=
  let l := server_life s in
  set_server_life s (mkServerLife (shutting_down l) (worker_dead l) (worker_available l) (accepting l) (stop_requested l)
                       (draining l) (drain_finished l) (drain_started_ms l) (drain_total_ms l) (forced_cancellations l)
                       (drain_timer l) (clock l + Z.max 0 ms) (faulted l)).

Definition server_step (s : Impl) (l : ServerLabel) : Impl :=
  match l with
  | Accepted => on_accept s
  | Completed n r => complete_op s n r
  | Event e => handle_worker_event complete_drain s e
  | Idle_fired id => on_stream_idle_timer complete_drain s id
  | Write_fired id => on_write_timer complete_drain s id
  | Queue_fired => on_queue_timer s
  | Drain_fired => on_drain_deadline s
  | Probed sid found => on_probe complete_drain s sid found
  | Drain_begun => begin_drain s
  | Drain_posted deadline_ms => start_drain_on_io s deadline_ms
  | Stop_called => request_stop s
  | Signalled => on_signal s
  | Ticked ms => tick s ms
  end.

Definition server_run (labels : list ServerLabel) (s : Impl) : Impl := fold_left server_step labels s.
End server.
