(* ===== verification/ServerInvariants.v ===== *)
(** * ServerInvariants: the sessions and requests of the data plane

    The invariant of WorkerServer. A session is, at every moment between two
    handlers, in one mode: reading its next request, parked in the queue,
    served by the one request it owns, sending a response of the listener's
    own, or closed. At most one operation is pending on its stream, and what
    was handed to the stream is a sequence of complete responses followed by
    at most one that is under way. Every handler keeps this, whatever
    completes, fires or arrives next, as long as the worker's events for a
    request come in order. *)
From Stdlib Require Import ZArith Lia.
From stdpp Require Import sorting.
From S2P Require Import Prelude WorkerExecutor RequestNormalization ListenerCors ResponseStream WorkerServer.
Local Open Scope Z_scope.

(** ** One session's part of the state *)

Definition of_session {A} (sid : Z) (l : list (Z * A)) : list A :=
  omap (λ x, if x.1 =? sid then Some x.2 else None) l.

Definition ops_of (s : Impl) (sid : Z) : list StreamOp := of_session sid (ops (outside s)).
Definition wire_of (s : Impl) (sid : Z) : list Sent := of_session sid (wire (outside s)).
Definition queued_of (s : Impl) (sid : Z) : list QueuedRequest :=
  List.filter (λ e, q_session e =? sid) (queue (parked s)).

(** No request belongs to the session. *)
Definition unserved (s : Impl) (sid : Z) : Prop :=
  ∀ id p, requests (table s) !! id = Some p → session (line p) ≠ sid.

(** ** Responses on a stream *)

Inductive complete_chunk : list Sent → Prop :=
| chunk_own r : complete_chunk [Sent_own r]
| chunk_parts id ws : complete_writes ws → complete_chunk (map (Sent_part id) ws).

Inductive partial_chunk : list Sent → Prop :=
| partial_own r : partial_chunk [Sent_own r]
| partial_parts id ws received : on_wire received ws → partial_chunk (map (Sent_part id) ws).

(** Complete responses, then [last]. *)
Definition wire_split (w last : list Sent) : Prop :=
  ∃ chunks, w = List.concat chunks ++ last ∧ Forall complete_chunk chunks.

(** ** What a turn keeps *)

(** A request stays on its connection, a head that was written stays written,
    a request that was answered stays answered, and only the head handler takes
    a streaming slot. *)
Record keeps (p q : PendingRequest) : Prop := {
  k_line : line q = line p;
  k_permit : holds_streaming_permit (timers q) = holds_streaming_permit (timers p);
  k_head : head_sent (flags p) = true → head_sent (flags q) = true;
  k_phase : phase_of q = Phase_open → phase_of p = Phase_open
}.

Lemma turn_keeps_refl p : keeps p p.
Proof. by split. Qed.

Lemma turn_keeps_trans p q r : keeps p q → keeps q r → keeps p r.
Proof. intros [H1 H2 H3 H4] [H5 H6 H7 H8]. split; [by rewrite H5|by rewrite H6|auto..]. Qed.

Create HintDb keeps.
#[export] Hint Resolve turn_keeps_refl : keeps.

Ltac keeps_one := split; [done|done|done|unfold phase_of, disarm_write_timer; project; repeat case_match; congruence].

(** Every update of a handler is one of the setters. *)
Ltac keeps_steps :=
  repeat first [progress project | progress cbn [fst snd prepend after] | progress case_match]; try keeps_one; eauto with keeps.

Ltac keeps_via H := eapply turn_keeps_trans; [|apply H]; keeps_one.

Section keeps.
Context (limits : StreamLimits) (id : Z).

Lemma arm_write_keeps p : keeps p (arm_write_timer limits p).
Proof. unfold arm_write_timer. keeps_steps. Qed.

Lemma arm_idle_keeps p : keeps p (arm_stream_idle_timer limits p).
Proof. unfold arm_stream_idle_timer. keeps_steps. Qed.

Lemma flush_keeps p force : keeps p (flush_pending_credit limits id p force).1.
Proof. unfold flush_pending_credit. keeps_steps. Qed.

Lemma return_credit_keeps p n : keeps p (return_credit limits id p n).1.
Proof. unfold return_credit. eapply turn_keeps_trans; [|apply flush_keeps]. keeps_one. Qed.

Lemma write_body_block_keeps p block early : keeps p (after (write_body_block limits p block early)).
Proof. unfold write_body_block. keeps_steps; keeps_via arm_write_keeps. Qed.

Lemma write_end_block_keeps p : keeps p (after (write_end_block limits p)).
Proof. unfold write_end_block. keeps_steps; keeps_via arm_write_keeps. Qed.

Lemma write_fixed_keeps p : keeps p (after (write_fixed_response limits p)).
Proof. unfold write_fixed_response. keeps_steps; keeps_via arm_write_keeps. Qed.

Lemma write_next_keeps p : keeps p (after (write_next_block limits p)).
Proof. unfold write_next_block. keeps_steps; keeps_via write_body_block_keeps. Qed.

Lemma on_request_credit_keeps credit p : keeps p (after (on_request_credit id credit p)).
Proof. unfold on_request_credit, advance_request_body. keeps_steps. Qed.

Lemma on_response_body_keeps body p : keeps p (after (on_response_body limits id body p)).
Proof.
  unfold on_response_body. set (q := if holds_streaming_permit (timers p) then _ else p).
  assert (keeps p q) as Hq by (subst q; case_match; eauto using arm_idle_keeps with keeps).
  eapply turn_keeps_trans; [exact Hq|]. clearbody q. case_match; [keeps_steps|].
  set (e := if _ <? kEarlyCreditWindow then _ else _).
  assert (keeps q e.1) as He by (subst e; case_match; [apply return_credit_keeps|apply turn_keeps_refl]).
  destruct e as [r es]. cbn [fst] in He. eapply turn_keeps_trans; [exact He|]. keeps_steps. apply write_body_block_keeps.
Qed.

Lemma on_response_end_keeps p : keeps p (after (on_response_end limits id p)).
Proof.
  unfold on_response_end. pose proof (flush_keeps (set_end_seen p) true) as Hf. destruct (flush_pending_credit _ _ _ _) as [q es].
  eapply turn_keeps_trans; [|eapply turn_keeps_trans; [exact Hf|]]; [keeps_one|].
  keeps_steps; first [apply write_fixed_keeps | apply write_end_block_keeps].
Qed.

Lemma on_head_written_keeps ec p : keeps p (after (on_head_written limits ec p))
  ∧ (action (on_head_written limits ec p) = Fail ∨ head_sent (flags (after (on_head_written limits ec p))) = true).
Proof.
  unfold on_head_written. destruct (write_failed ec); [split; [keeps_one|by left]|].
  set (h := set_head_sent _). set (q := if holds_streaming_permit (timers h) then _ else h).
  assert (keeps h q) as Hq by (subst q; case_match; eauto using arm_idle_keeps with keeps).
  set (t := match body_queue (stream q) with [] => _ | _ => _ end).
  assert (keeps q (after t)) as Ht.
  { subst t. keeps_steps; first [apply write_end_block_keeps | apply write_next_keeps]. }
  pose proof (turn_keeps_trans _ _ _ Hq Ht) as [H1 H2 H3 H4]. split; [|right; by apply H3].
  split; [by rewrite H1|by rewrite H2|intros _; by apply H3|exact H4].
Qed.

Lemma on_block_written_keeps ec p : keeps p (after (on_block_written limits id ec p)).
Proof.
  unfold on_block_written. set (d := disarm_write_timer _). assert (keeps p d) as Hd by (subst d; keeps_one).
  eapply turn_keeps_trans; [exact Hd|]. clearbody d. case_match; [apply turn_keeps_refl|].
  set (e := if _ && _ then _ else _).
  assert (keeps d e.1) as He by (subst e; destruct (_ && _); [apply return_credit_keeps|apply turn_keeps_refl]).
  destruct e as [r es]. cbn [fst] in He. eapply turn_keeps_trans; [exact He|]. cbn [prepend after].
  set (r' := set_stream r _). assert (keeps r r') as Hr by (subst r'; keeps_one). eapply turn_keeps_trans; [exact Hr|]. clearbody r'.
  keeps_steps; first [apply write_end_block_keeps | apply write_next_keeps].
Qed.

Lemma on_written_keeps k ec p : keeps p (after (on_written limits id k ec p)).
Proof.
  destruct k; cbn [on_written]; [apply on_head_written_keeps|apply on_block_written_keeps|..].
  - unfold on_end_written. keeps_steps.
  - unfold on_fixed_written. keeps_steps.
Qed.

(** A head handler keeps the connection, and what it does to the number of
    slots it does to the request. *)
Lemma on_response_head_keeps cors n event p : let tn := on_response_head limits cors n event p in
  line (after tn.1) = line p ∧ (head_sent (flags p) = true → head_sent (flags (after tn.1)) = true)
  ∧ (tn.2 = n ∧ holds_streaming_permit (timers (after tn.1)) = holds_streaming_permit (timers p)
       ∧ (phase_of (after tn.1) = Phase_open → phase_of p = Phase_open)
     ∨ max_streaming_inflight limits ≠ 0 ∧ n < max_streaming_inflight limits ∧ tn.2 = u64 (n + 1)
       ∧ holds_streaming_permit (timers (after tn.1)) = true ∧ phase_of (after tn.1) ≠ Phase_open).
Proof.
  cbn zeta. unfold on_response_head. destruct (_ || _); [by split_and!; [..|left]|].
  destruct (sanitize_response_headers _) as [hs|]; [|by split_and!; [..|left]].
  set (permit := if is_sse hs then _ else _).
  assert (match permit with
          | Some (q, m) => line q = line p ∧ flags q = flags p ∧ phase_of q = phase_of p
              ∧ (m = n ∧ timers q = timers p ∨ max_streaming_inflight limits ≠ 0 ∧ n < max_streaming_inflight limits
                 ∧ m = u64 (n + 1) ∧ holds_streaming_permit (timers q) = true)
          | None => True end) as Hp.
  { subst permit. unfold acquire_streaming_permit. repeat case_match; simplify_eq; bools; try done; split_and!; auto. }
  destruct permit as [[q m]|]; [|by split_and!; [..|left]]. destruct Hp as (H1 & H2 & H3 & Hm). cbn [fst snd].
  set (r := set_head_only q _). set (t := if fixed_body event then _ else _).
  assert (line (after t) = line q ∧ head_sent (flags (after t)) = head_sent (flags q)
          ∧ holds_streaming_permit (timers (after t)) = holds_streaming_permit (timers q) ∧ phase_of (after t) ≠ Phase_open) as (T1 & T2 & T3 & T4).
  { subst t r. unfold fixed_response_head, stream_response_head, arm_write_timer, phase_of.
    destruct (fixed_body event); repeat case_match; project; try done; split_and!; repeat case_match; done. }
  rewrite T1, T2, T3, H1, H2. split_and!; [done..|]. destruct Hm as [[-> Ht]|(? & ? & ? & ?)].
  - left. rewrite Ht. by split_and!.
  - right. by split_and!.
Qed.
End keeps.

(** Bytes of a response are on the stream only if the head is known to be, or
    is being written. *)
Definition head_known (p : PendingRequest) (ks : list OpKind) (ws : list Send) : Prop :=
  head_sent (flags p) = true ∨ ks = [Op_head] ∨ ks = [Op_fixed] ∨ ws = [].

(** ** Modes *)

Section modes.
Context (o : ServerOptions) (frame : Z).

Inductive mode (s : Impl) (M sid : Z) (x : Session) (last : list Sent) : Prop :=
| m_serving id p received granted ks ws :
    requests (table s) !! id = Some p → session (line p) = sid →
    (∀ id' p', requests (table s) !! id' = Some p' → session (line p') = sid → id' = id) →
    current_id x = Some id → live (stream_limits o) frame (phase_of p) p received granted ks ws → head_known p ks ws → zlen received <= M →
    ops_of s sid = map (Writing id) ks → queued_of s sid = [] →
    (closed x = false → last = map (Sent_part id) ws) → mode s M sid x last
| m_reading :
    unserved s sid → ops_of s sid = [Reading] → queued_of s sid = [] → (closed x = false → last = []) →
    mode s M sid x last
| m_parked e :
    unserved s sid → ops_of s sid = [] → queued_of s sid = [e] → (closed x = false → last = []) → mode s M sid x last
| m_sending keep r :
    unserved s sid → ops_of s sid = [Sending keep] → queued_of s sid = [] → (closed x = false → last = [Sent_own r]) →
    mode s M sid x last
| m_closed :
    closed x = true → unserved s sid → queued_of s sid = [] → (length (ops_of s sid) <= 1)%nat → mode s M sid x last.

(** A session whose request has just left: what is pending on its stream and
    what was last put there, until the handler closes it or goes on. *)
Definition Limbo : Type := Z → option (list StreamOp * list Sent).
Definition no_limbo : Limbo := λ _, None.
Definition in_limbo (sid : Z) (po : list StreamOp) (last : list Sent) : Limbo :=
  λ sid', if sid' =? sid then Some (po, last) else None.

Definition session_ok (s : Impl) (M : Z) (L : Limbo) (sid : Z) : Prop :=
  match heap (people s) !! sid with
  | None => L sid = None ∧ unserved s sid ∧ ops_of s sid = [] ∧ queued_of s sid = [] ∧ wire_of s sid = []
  | Some x =>
      ∃ last, wire_split (wire_of s sid) last ∧ partial_chunk last ∧
        match L sid with
        | None => mode s M sid x last
        | Some (po, lw) =>
            unserved s sid ∧ queued_of s sid = [] ∧ (length (ops_of s sid) <= 1)%nat
            ∧ (closed x = true ∨ closed x = false ∧ ops_of s sid = po ∧ last = lw)
        end
  end.

(** The ids in use are below the next ones, no counter has wrapped, and no
    response that is not there was used. *)
Record numbered (N : Z) (s : Impl) : Prop := {
  n_next : 0 < next_request_id (table s);
  n_bound : next_request_id (table s) + zlen (queue (parked s)) <= N + 1;
  n_sessions : 0 < next_session_id (people s) <= N + 1;
  n_requests : ∀ id p, requests (table s) !! id = Some p → 0 < id < next_request_id (table s);
  n_heap : ∀ sid x, heap (people s) !! sid = Some x → 0 < sid < next_session_id (people s);
  n_fault : faulted (server_life s) = false
}.

(** An id is the session's own or no longer in use. *)
Definition tied (s : Impl) (sid id : Z) : Prop :=
  id < next_request_id (table s) ∧ ∀ p, requests (table s) !! id = Some p → session (line p) = sid.

(** The session or a write pending on its stream carries the id. *)
Definition remembers (s : Impl) (sid id : Z) : Prop :=
  (∃ x, heap (people s) !! sid = Some x ∧ current_id x = Some id) ∨ (∃ k, Writing id k ∈ ops_of s sid).

Definition current_ok (s : Impl) : Prop := ∀ sid id, remembers s sid id → tied s sid id.

Record inv (N M : Z) (L : Limbo) (s : Impl) : Prop := {
  i_numbered : numbered N s;
  i_current : current_ok s;
  i_sessions : ∀ sid, session_ok s M L sid
}.

(** ** Frames *)

(** The two states agree on the session. *)
Record same_for (s s' : Impl) (sid : Z) : Prop := {
  sf_heap : heap (people s') !! sid = heap (people s) !! sid;
  sf_ops : ops_of s' sid = ops_of s sid;
  sf_queued : queued_of s' sid = queued_of s sid;
  sf_wire : wire_of s' sid = wire_of s sid;
  sf_requests : ∀ id p, session (line p) = sid →
    requests (table s') !! id = Some p ↔ requests (table s) !! id = Some p
}.

Definition others (sid : Z) (s s' : Impl) : Prop := ∀ sid', sid' ≠ sid → same_for s s' sid'.

#[local] Instance same_for_refl sid : Reflexive (λ s s', same_for s s' sid).
Proof. by split. Qed.

Lemma same_for_trans s1 s2 s3 sid : same_for s1 s2 sid → same_for s2 s3 sid → same_for s1 s3 sid.
Proof. intros [] []. split; try congruence. intros id p Hp. rewrite sf_requests1, sf_requests0; done. Qed.

Lemma others_refl sid s : others sid s s.
Proof. by intros sid' _. Qed.

Lemma others_trans sid s1 s2 s3 : others sid s1 s2 → others sid s2 s3 → others sid s1 s3.
Proof. intros H1 H2 sid' Hne. eapply same_for_trans; [by apply H1|by apply H2]. Qed.

Lemma unserved_same s s' sid : same_for s s' sid → unserved s sid → unserved s' sid.
Proof. intros H Hu id p Hp Hsid. apply (sf_requests _ _ _ H) in Hp; [|done]. by eapply Hu. Qed.

Lemma session_ok_same s s' M L sid : same_for s s' sid → session_ok s M L sid → session_ok s' M L sid.
Proof.
  intros H. unfold session_ok. destruct H as [Hh Ho Hq Hw Hr] eqn:E. clear E. rewrite Hh.
  assert (unserved s sid → unserved s' sid) as Hu by (apply unserved_same; by split).
  destruct (heap (people s) !! sid) as [x|].
  - intros (last & Hs & Hp & Hm). exists last. rewrite Hw. split_and!; [done..|].
    destruct (L sid) as [[po lw]|].
    + destruct Hm as (? & ? & ? & ?). rewrite Ho, Hq. auto.
    + destruct Hm as [id p received granted ks ws H1 H2 H3 H4 H5 H6 H7 H8 H9 H10|H1 H2 H3 H4|e H1 H2 H3 H4|keep r H1 H2 H3 H4|H1 H2 H3 H4].
      * eapply (m_serving _ _ _ _ _ id p); try done; [by apply Hr| |by rewrite Ho|by rewrite Hq].
        intros id' p' Hid' Hsid'. apply Hr in Hid'; [|done]. by eapply H3.
      * apply m_reading; [by apply Hu|by rewrite Ho|by rewrite Hq|done].
      * eapply m_parked; [by apply Hu|by rewrite Ho|by rewrite Hq|done].
      * eapply m_sending; [by apply Hu|by rewrite Ho|by rewrite Hq|done].
      * apply m_closed; [done|by apply Hu|by rewrite Hq|by rewrite Ho].
  - intros (? & ? & ? & ? & ?). rewrite Ho, Hq, Hw. auto 10.
Qed.

(** A change of one session's part. *)
Lemma inv_local N N' M L L' s s' sid : inv N M L s → others sid s s' → (∀ sid', sid' ≠ sid → L' sid' = L sid') →
  numbered N' s' → current_ok s' → session_ok s' M L' sid → inv N' M L' s'.
Proof.
  intros [_ _ Hok] Ho HL Hn Hc Hs. split; [done..|]. intros sid'. destruct (decide (sid' = sid)) as [->|Hne]; [done|].
  specialize (session_ok_same s s' M L sid' (Ho sid' Hne) (Hok sid')) as H. unfold session_ok in *. by rewrite (HL sid' Hne).
Qed.
End modes.

(** ** Primitive changes *)

Lemma of_session_app {A} sid (l k : list (Z * A)) : of_session sid (l ++ k) = of_session sid l ++ of_session sid k.
Proof. apply omap_app. Qed.

Lemma of_session_one {A} sid (x : A) : of_session sid [(sid, x)] = [x].
Proof. unfold of_session. cbn. by rewrite Z.eqb_refl. Qed.

Lemma of_session_other {A} sid sid' (x : A) : sid' ≠ sid → of_session sid' [(sid, x)] = [].
Proof. intros H. unfold of_session. cbn. by rewrite (proj2 (Z.eqb_neq sid sid')). Qed.

(** Projections of a state after an update. *)
Ltac project_state :=
  cbn [table parked people server_life outside set_table set_parked set_people set_server_life set_outside put_request
       set_streaming put_session call push_op requests streaming_inflight next_request_id queue queue_bytes queue_timer
       sessions heap next_session_id ops wire made_calls] in *.

Lemma ops_of_push s sid op sid' : ops_of (push_op s sid op) sid' = ops_of s sid' ++ (if sid' =? sid then [op] else []).
Proof.
  unfold ops_of. project_state. rewrite of_session_app. f_equal. destruct (sid' =? sid) eqn:E; bools.
  - subst. apply of_session_one.
  - by apply of_session_other.
Qed.

Lemma others_push s sid op : others sid s (push_op s sid op).
Proof.
  intros sid' Hne. split; try done. rewrite ops_of_push, (proj2 (Z.eqb_neq sid' sid)) by done. apply app_nil_r.
Qed.

Lemma same_for_call s op sid : same_for s (call s op) sid.
Proof. by split. Qed.

Lemma wire_of_put s sid x sid' :
  wire_of (put_wire s sid x) sid' = wire_of s sid' ++ (if (sid' =? sid) && negb (closed (session_at s sid)) then [x] else []).
Proof.
  unfold wire_of, put_wire. destruct (closed (session_at s sid)); cbn [negb]; [by rewrite andb_false_r, app_nil_r|].
  project_state. rewrite of_session_app, andb_true_r. f_equal. destruct (sid' =? sid) eqn:E; bools.
  - subst. apply of_session_one.
  - by apply of_session_other.
Qed.

Lemma put_wire_frame s sid x : table (put_wire s sid x) = table s ∧ parked (put_wire s sid x) = parked s
  ∧ people (put_wire s sid x) = people s ∧ server_life (put_wire s sid x) = server_life s
  ∧ ops (outside (put_wire s sid x)) = ops (outside s) ∧ made_calls (outside (put_wire s sid x)) = made_calls (outside s).
Proof. unfold put_wire. by destruct (closed _). Qed.

Lemma others_put_wire s sid x : others sid s (put_wire s sid x).
Proof.
  intros sid' Hne. destruct (put_wire_frame s sid x) as (Ht & Hp & Hm & _ & Ho & _). split.
  - by rewrite Hm.
  - unfold ops_of. by rewrite Ho.
  - unfold queued_of. by rewrite Hp.
  - rewrite wire_of_put, (proj2 (Z.eqb_neq sid' sid)) by done. apply app_nil_r.
  - by rewrite Ht.
Qed.

Lemma others_put_session s sid x : others sid s (put_session s sid x).
Proof. intros sid' Hne. split; try done. project_state. by rewrite lookup_insert_ne. Qed.

Lemma others_put_request s id p : (∀ q, requests (table s) !! id = Some q → session (line q) = session (line p)) →
  others (session (line p)) s (put_request s id p).
Proof.
  intros Hq sid' Hne. split; try done. project_state. intros id' p' Hp'. destruct (decide (id' = id)) as [->|Hid].
  - rewrite lookup_insert_eq. split; [by intros [= ->]|]. intros E. exfalso. apply Hne. rewrite <- Hp'. by apply Hq.
  - by rewrite lookup_insert_ne.
Qed.

Lemma others_erase s id p : requests (table s) !! id = Some p → others (session (line p)) s (erase_request s id p).
Proof.
  intros Hp sid' Hne. split; try done. unfold erase_request. project_state. intros id' p' Hp'.
  destruct (decide (id' = id)) as [->|Hid].
  - rewrite lookup_delete_eq. split; [done|]. intros E. rewrite Hp in E. injection E as <-. done.
  - by rewrite lookup_delete_ne.
Qed.

Lemma session_at_put s sid x sid' : session_at (put_session s sid x) sid' = if sid' =? sid then x else session_at s sid'.
Proof.
  unfold session_at. project_state. destruct (sid' =? sid) eqn:E; bools.
  - subst. by rewrite lookup_insert_eq.
  - by rewrite lookup_insert_ne.
Qed.

(** A session that is not closed exists. *)
Lemma session_at_open s sid : closed (session_at s sid) = false → heap (people s) !! sid = Some (session_at s sid).
Proof. unfold session_at. by destruct (heap (people s) !! sid). Qed.

Lemma session_at_some s sid x : heap (people s) !! sid = Some x → session_at s sid = x.
Proof. unfold session_at. by intros ->. Qed.

Section head.
Context (limits : StreamLimits) (frame : Z).

Lemma live_quiet ph p received granted ks ws : live limits frame ph p received granted ks ws → head_known p ks ws →
  head_sent (flags p) = false → writing (flags p) = false → ks = [] ∧ ws = [].
Proof.
  intros H Hk Hh Hw. destruct Hk as [Hk|Hk]; [congruence|]. destruct H as [H|[H|[H|H]]].
  - by destruct (w_nothing _ _ _ _ _ _ H) as (-> & -> & _).
  - destruct (f_response _ _ _ _ _ _ H) as (r & _ & _ & Ho). pose proof (f_writing _ _ _ _ _ _ H) as Hb.
    rewrite Hw in Hb. by rewrite <- Hb in Ho.
  - destruct (h_writes _ _ _ _ _ _ _ H) as (? & ? & ? & ->).
    destruct (h_op _ _ _ _ _ _ _ H) as [(-> & _)|(_ & ?)]; [|congruence]. by destruct Hk as [|[|]].
  - destruct H as [ws ? ? ? ? [-> ]|? ? ? ? ? E|? ? ? ? ? ? E|? ? ? ? ? ? E]; try congruence. by destruct Hk as [|[|]].
Qed.

Lemma live_nothing ph p received granted ks ws : live limits frame ph p received granted ks ws → ws = [] → ks = [].
Proof.
  intros H ->. destruct H as [H|[H|[H|H]]].
  - by destruct (w_nothing _ _ _ _ _ _ H) as (-> & _).
  - destruct (f_response _ _ _ _ _ _ H) as (r & _ & _ & Ho). by destruct (bool_decide _), Ho as [? ?].
  - by destruct (h_writes _ _ _ _ _ _ _ H) as (? & ? & ? & ?).
  - remember [] as w eqn:E in H. destruct H as [? ? ? ? ? []|? ? ? ? []|? ? ? ? ? []|ws ? ? ? ? []]; [congruence..|].
    by apply app_nil in E as [_ ?].
Qed.

(** The first thing a request writes is a head or a whole response. *)
Lemma first_write received ws : on_wire received ws → (length ws <= 1)%nat →
  map op_of ws = [Op_head] ∨ map op_of ws = [Op_fixed] ∨ ws = [].
Proof. intros [|? ? ? [|? ?] ? ?|? ? ? [|? ?] ? ?|]; cbn; try lia; auto. Qed.

(** A turn that goes on keeps it, with [ks] what was pending before it. *)
Lemma head_known_turn p q ks ks' ws ph received granted es :
  live limits frame ph q received granted (ks' ++ map op_of (writes es)) (ws ++ writes es) →
  (ws = [] → ks' = []) → head_known p ks ws →
  (head_sent (flags p) = true → head_sent (flags q) = true) → (ks' = ks ∨ head_sent (flags q) = true) →
  head_known q (ks' ++ map op_of (writes es)) (ws ++ writes es).
Proof.
  intros Hl Hn Hk Hh Hs. destruct (live_on_wire _ _ _ _ _ _ _ _ Hl) as (Hw & Hlen & _). unfold head_known.
  rewrite length_app, length_map in Hlen.
  destruct Hs as [->|?]; [|by left]. destruct Hk as [Hk|[-> | [-> | -> ]]]; [by left; apply Hh|..].
  - assert (writes es = []) as -> by (apply nil_length_inv; cbn in Hlen; lia). auto.
  - assert (writes es = []) as -> by (apply nil_length_inv; cbn in Hlen; lia). auto.
  - rewrite (Hn eq_refl) in *. cbn [app length] in *. apply first_write in Hw; [|lia]. tauto.
Qed.
End head.
