(* ===== verification/ServerSteps.v ===== *)
(** * ServerSteps: the handlers of the data plane keep the sessions in order

    The invariant of ServerInvariants through every handler of WorkerServer,
    and what it gives for every run of the server: the responses on a
    connection never interleave, and no handler touches a response that is not
    there. *)
From Stdlib Require Import ZArith Lia.
From stdpp Require Import sorting.
From S2P Require Import Prelude WorkerExecutor RequestNormalization ListenerCors ResponseStream WorkerServer ServerInvariants.
Local Open Scope Z_scope.

(** A later bound does. *)
Lemma inv_mono o frame N N' M M' L s : inv o frame N M L s → N <= N' → M <= M' → inv o frame N' M' L s.
Proof.
  intros [[] Hc Hs] HN HM. split; [split; try done; lia|done|]. intros sid. specialize (Hs sid). unfold session_ok in *.
  destruct (heap (people s) !! sid); [|done]. destruct Hs as (last & ? & ? & Hm). exists last. split_and!; [done..|].
  destruct (L sid); [done|]. destruct Hm as [id p received granted ks ws ? ? ? ? ? ? Hle|?|?|?|?];
    [eapply m_serving|apply m_reading|eapply m_parked|eapply m_sending|apply m_closed]; try done. lia.
Qed.

Lemma set_streaming_ok o frame N M L s n : inv o frame N M L s → inv o frame N M L (set_streaming s n).
Proof. intros [[] Hc Hs]. split; [by split|done|]. intros sid. eapply session_ok_same, Hs. by split. Qed.

Section steps.
Context (o : ServerOptions) (frame N M : Z).
Hypothesis threshold_ok : 0 <= credit_grant_threshold (stream_limits o) < 2 ^ 31.
Hypothesis frame_ok : 0 <= frame < 2 ^ 31.
Hypothesis count_ok : N + 2 < 2 ^ 64.

(** All sessions but one. *)
Record hole (L : Limbo) (s : Impl) (sid : Z) : Prop := {
  ho_numbered : numbered N s;
  ho_current : current_ok s;
  ho_sessions : ∀ sid', sid' ≠ sid → session_ok o frame s M L sid'
}.

Lemma inv_hole L s sid : inv o frame N M L s → hole L s sid.
Proof using. intros []. by split. Qed.

Lemma hole_inv L L' s sid : hole L s sid → (∀ sid', sid' ≠ sid → L' sid' = L sid') → session_ok o frame s M L' sid →
  inv o frame N M L' s.
Proof using.
  intros [Hn Hc Ho] HL Hs. split; [done..|]. intros sid'. destruct (decide (sid' = sid)) as [->|Hne]; [done|].
  specialize (Ho sid' Hne). unfold session_ok in *. by rewrite (HL sid' Hne).
Qed.

Lemma remembers_fields s s' sid id : heap (people s') !! sid = heap (people s) !! sid → ops_of s' sid = ops_of s sid →
  remembers s' sid id → remembers s sid id.
Proof using. intros Hh Ho [(x & Hx & Hid)|(k & Hk)]; [left; exists x|right; exists k]; by rewrite <- ?Hh, <- ?Ho. Qed.

Lemma remembers_same s s' sid id : same_for s s' sid → remembers s' sid id → remembers s sid id.
Proof using. intros [Hh Ho _ _ _]. by apply remembers_fields. Qed.

(** A session that has been replaced remembers its own id and its writes. *)
Lemma remembers_put s sid x id : remembers (put_session s sid x) sid id → current_id x = Some id ∨ ∃ k, Writing id k ∈ ops_of s sid.
Proof using. intros [(y & Hy & Hid)|(k & Hk)]; [left|right; by exists k]. project_state. rewrite lookup_insert_eq in Hy. by injection Hy as ->. Qed.

Lemma hole_move L s s' sid : hole L s sid → others sid s s' → numbered N s' →
  (∀ sid' id, tied s sid' id → tied s' sid' id) → (∀ id, remembers s' sid id → remembers s sid id ∨ tied s' sid id) → hole L s' sid.
Proof using.
  intros [_ Hc Hs] Ho Hn Ht Hr. split; [done|..].
  - intros sid' id Hid. destruct (decide (sid' = sid)) as [->|Hne]; [destruct (Hr id Hid); auto|].
    apply Ht, Hc. eapply remembers_same; [by apply Ho|done].
  - intros sid' Hne. eapply session_ok_same; [by apply Ho|by apply Hs].
Qed.

Lemma remembers_push s sid op id : remembers (push_op s sid op) sid id → remembers s sid id ∨ ∃ k, op = Writing id k.
Proof using.
  intros [H|(k & Hk)]; [by left; left|]. rewrite ops_of_push, Z.eqb_refl in Hk.
  apply elem_of_app in Hk as [Hk|Hk]; [by left; right; exists k|]. apply list_elem_of_singleton in Hk. eauto.
Qed.

(** States with the same tables. *)
Definition same_tables (s s' : Impl) : Prop :=
  table s' = table s ∧ queue (parked s') = queue (parked s)
  ∧ heap (people s') = heap (people s) ∧ next_session_id (people s') = next_session_id (people s)
  ∧ faulted (server_life s') = faulted (server_life s).

Lemma numbered_tables s s' : same_tables s s' → numbered N s → numbered N s'.
Proof using. intros (Ht & Hq & Hp & Hn & Hf) []. split; by rewrite ?Ht, ?Hq, ?Hp, ?Hn, ?Hf. Qed.

Lemma tied_tables s s' sid id : same_tables s s' → tied s sid id → tied s' sid id.
Proof using. intros (Ht & _). unfold tied. by rewrite Ht. Qed.

Lemma hole_tables L s s' sid : hole L s sid → others sid s s' → same_tables s s' →
  (∀ id, remembers s' sid id → remembers s sid id) → hole L s' sid.
Proof using.
  intros H Ho Ht Hr. eapply hole_move; [done..|eapply numbered_tables, H; done|intros sid' id; by apply tied_tables|].
  intros id Hid. left. by apply Hr.
Qed.

(** A session with nothing to do. *)
Record ready (s : Impl) (sid : Z) (x : Session) : Prop := {
  r_heap : heap (people s) !! sid = Some x;
  r_unserved : unserved s sid;
  r_ops : ops_of s sid = [];
  r_queued : queued_of s sid = [];
  r_wire : ∃ last, wire_split (wire_of s sid) last ∧ partial_chunk last ∧ (closed x = false → last = [])
}.

Lemma wire_split_add w x : wire_split w [] → wire_split (w ++ [x]) [x].
Proof using. intros (chunks & -> & H). exists chunks. by rewrite app_nil_r. Qed.

Lemma wire_split_done w last : wire_split w last → complete_chunk last → wire_split w [].
Proof using.
  intros (chunks & -> & H) Hc. exists (chunks ++ [last]). rewrite concat_app. cbn [List.concat]. rewrite !app_nil_r.
  split; [done|]. apply Forall_app. split; [done|]. by constructor.
Qed.

(** The wire after a write on a stream whose last part is known when open. *)
Lemma put_wire_split s sid x y last : heap (people s) !! sid = Some x → wire_split (wire_of s sid) last → partial_chunk last →
  (closed x = false → partial_chunk (last ++ [y])) →
  ∃ last', wire_split (wire_of (put_wire s sid y) sid) last' ∧ partial_chunk last' ∧ (closed x = false → last' = last ++ [y]).
Proof using.
  intros Hx (chunks & Hw & Hc) Hp Hy. rewrite wire_of_put, Z.eqb_refl, (session_at_some _ _ _ Hx). cbn [andb].
  destruct (closed x); cbn [negb].
  - exists last. rewrite app_nil_r. split_and!; [by exists chunks|done|done].
  - exists (last ++ [y]). split_and!; [|by apply Hy|done]. exists chunks. by rewrite Hw, <- app_assoc.
Qed.

Lemma send_tables s sid y op : same_tables s (push_op (put_wire s sid y) sid op).
Proof using. destruct (put_wire_frame s sid y) as (Ht & Hp & Hm & Hl & _). split_and!; project_state; [done|by rewrite Hp|by rewrite Hm..|by rewrite Hl]. Qed.

Lemma send_others s sid y op : others sid s (push_op (put_wire s sid y) sid op).
Proof using. eapply others_trans; [apply others_put_wire|apply others_push]. Qed.

(** A response of the listener's own on a ready session. *)
Lemma send_own_ok L s sid x r keep : hole L s sid → ready s sid x → L sid = None →
  inv o frame N M L (push_op (put_wire s sid (Sent_own r)) sid (Sending keep)).
Proof using.
  intros Hh [Hx Hu Ho Hq (last & Hs & Hp & Hl)] HL. eapply (hole_inv L L _ sid); [|done|].
  - eapply hole_tables; [done|apply send_others|apply send_tables|].
    intros id [H|(k & ?)]%remembers_push; [|done]. destruct (put_wire_frame s sid (Sent_own r)) as (_ & _ & H1 & _ & H2 & _).
    eapply remembers_fields; [| |exact H]; [by rewrite H1|unfold ops_of; by rewrite H2].
  - destruct (send_tables s sid (Sent_own r) (Sending keep)) as (Ht & Hpk & Hpe & _).
    unfold session_ok. rewrite Hpe, Hx, HL.
    destruct (put_wire_split s sid x (Sent_own r) last Hx Hs Hp) as (last' & Hs' & Hp' & Hl').
    { intros Hcl. rewrite (Hl Hcl). constructor. }
    exists last'. split_and!; [exact Hs'|done|].
    apply (m_sending _ _ _ _ _ _ _ keep r).
    + intros id p. rewrite Ht. apply Hu.
    + rewrite ops_of_push, Z.eqb_refl. unfold ops_of in *. destruct (put_wire_frame s sid (Sent_own r)) as (_ & _ & _ & _ & -> & _).
      by rewrite Ho.
    + unfold queued_of in *. by rewrite Hpk.
    + intros Hcl. by rewrite (Hl' Hcl), (Hl Hcl).
Qed.

Lemma send_simple_ok L s sid x st body keep : hole L s sid → ready s sid x → L sid = None →
  inv o frame N M L (send_simple s sid st body keep).
Proof using. intros. by eapply send_own_ok. Qed.

(** The next read of a ready session. *)
Lemma read_request_ok L s sid x : hole L s sid → ready s sid x → L sid = None → inv o frame N M L (read_request s sid).
Proof using.
  intros Hh [Hx Hu Ho Hq (last & Hs & Hp & Hl)] HL. unfold read_request, set_current.
  rewrite (session_at_some _ _ _ Hx). set (x' := mkSession _ _ _ _).
  eapply (hole_inv L L _ sid); [|done|].
  - eapply hole_move; [done|eapply others_trans; [apply others_put_session|apply others_push]|..].
    + destruct Hh as [[? ? ? ? Hheap Hfault] _ _]. split; project_state; try done. intros sid' y.
      destruct (decide (sid' = sid)) as [->|Hne].
      * intros _. by eapply Hheap.
      * rewrite lookup_insert_ne by done. apply Hheap.
    + done.
    + intros id [[?|(k & Hk)]%remembers_put|(k & ?)]%remembers_push; [done| |done]. left. right. by exists k.
  - unfold session_ok. project_state. rewrite lookup_insert_eq, HL. exists last. split_and!; [exact Hs|done|].
    apply m_reading; [exact Hu| |exact Hq|done]. rewrite ops_of_push, Z.eqb_refl. unfold ops_of in *. project_state. by rewrite Ho.
Qed.

(** ** A request begins *)

Lemma new_live l body u : live (stream_limits o) frame Phase_open (set_upload (new_PendingRequest l body) u) [] 0 [] [].
Proof using. left. split; try done; by split_and!. Qed.

(** The state after the next request, of session [sid], has begun. *)
Record begun (s s' : Impl) (sid : Z) (x x' : Session) (p : PendingRequest) : Prop := {
  b_table : table s' = mkInflightTable (<[next_request_id (table s) := p]> (requests (table s)))
                         (streaming_inflight (table s)) (next_request_id (table s) + 1);
  b_parked : parked s' = parked s;
  b_heap : heap (people s') = <[sid := x']> (heap (people s)) ∧ next_session_id (people s') = next_session_id (people s);
  b_ops : ops (outside s') = ops (outside s);
  b_wire : wire (outside s') = wire (outside s);
  b_session : closed x' = closed x ∧ current_id x' = Some (next_request_id (table s));
  b_request : session (line p) = sid ∧ live (stream_limits o) frame Phase_open p [] 0 [] []
              ∧ holds_streaming_permit (timers p) = false;
  b_life : server_life s' = server_life s ∧ sessions (people s') = sessions (people s)
}.

(** The first candidate is free while the counter has not wrapped. *)
Lemma allocate_spec s : slot_free o s = true → numbered N s → next_request_id (table s) + 1 <= N + 1 →
  allocate_request_id o s =
    (next_request_id (table s),
     set_table s (mkInflightTable (requests (table s)) (streaming_inflight (table s)) (next_request_id (table s) + 1))).
Proof using count_ok.
  intros Hf [H1 H2 _ H4 _ _] Hb. unfold allocate_request_id. rewrite Hf. cbn [negb].
  assert (requests (table s) !! next_request_id (table s) = None) as Hn.
  { destruct (_ !! _) eqn:E; [|done]. apply H4 in E. lia. }
  destruct (size _); unfold next_free; fold next_free;
    rewrite (proj2 (Z.eqb_neq _ _)), (u64_small (_ + 1)) by lia; [done|]. by rewrite Hn.
Qed.

(** The two places where a request begins: the handler of a request that is
    admitted at once, and the pump. *)
Definition start_request (s : Impl) (sid : Z) (rq : HttpRequest) (nz : NormalizedPublicRequest) : Impl :=
  let '(id, s1) := allocate_request_id o s in
  start_disconnect_probe (begin_request o (set_current s1 sid (Some id)) id sid rq nz) sid.

Lemma start_request_spec s sid x rq nz : heap (people s) !! sid = Some x → slot_free o s = true → numbered N s →
  next_request_id (table s) + 1 <= N + 1 → ∃ x' p, begun s (start_request s sid rq nz) sid x x' p.
Proof using count_ok.
  intros Hx Hf Hn Hb. unfold start_request. rewrite (allocate_spec s Hf Hn Hb). set (id := next_request_id (table s)).
  set (s1 := set_table s _). assert (heap (people s1) !! sid = Some x) as Hx1 by done.
  unfold begin_request, set_current. rewrite (session_at_some _ _ _ Hx1).
  set (l := mkLine sid _ _ _). set (q := new_PendingRequest l _).
  assert (∀ u, session (line (set_upload q u)) = sid ∧ live (stream_limits o) frame Phase_open (set_upload q u) [] 0 [] []
               ∧ holds_streaming_permit (timers (set_upload q u)) = false) as Hq.
  { intros u. split_and!; [done|apply new_live|done]. }
  assert (q = set_upload q (upload q)) as Eq by done.
  set (x1 := mkSession _ _ _ _). unfold start_disconnect_probe.
  rewrite (session_at_some _ _ x1) by (by destruct (bodyless_enabled o && _); project_state; rewrite lookup_insert_eq).
  subst x1. cbn [probe_active closed current_id session_cors].
  destruct (bodyless_enabled o && _), (probe_active x || closed x) eqn:E.
  all: eexists _, _; split; project_state; rewrite ?insert_insert_eq; try reflexivity; try done.
  all: try (rewrite Eq; apply Hq).
  all: apply Hq.
Qed.

Lemma begun_others L s s' sid x x' p : hole L s sid → begun s s' sid x x' p → others sid s s'.
Proof using.
  intros [[_ _ _ N4 _ _] _ _] [Ht Hpk [Hhp Hn] Hop Hw _ (Hsid & _) _] sid' Hne.
  split; [by rewrite Hhp, lookup_insert_ne|by unfold ops_of; rewrite Hop|by unfold queued_of; rewrite Hpk
         |by unfold wire_of; rewrite Hw|].
  intros id' p' Hp'. rewrite Ht. cbn [requests]. destruct (decide (id' = next_request_id (table s))) as [->|Hne'].
  - rewrite lookup_insert_eq. split; [intros [= <-]; congruence|]. intros Hr. apply N4 in Hr. lia.
  - by rewrite lookup_insert_ne.
Qed.

Lemma begun_hole L s s' sid x x' p : hole L s sid → heap (people s) !! sid = Some x → begun s s' sid x x' p →
  next_request_id (table s) + 1 + zlen (queue (parked s)) <= N + 1 → hole L s' sid.
Proof using.
  intros Hh Hx Hb HN. pose proof (begun_others _ _ _ _ _ _ _ Hh Hb) as Hoth. eapply hole_move; [done..| | |].
  - destruct Hh as [[N1 N2 N3 N4 N5 N6] _ _], Hb as [Ht Hpk [Hhp Hn] _ _ _ _ [Hlife _]].
    split; rewrite ?Ht, ?Hpk, ?Hhp, ?Hn, ?Hlife; cbn [requests next_request_id]; try done; [lia|..].
    + intros id' p'. destruct (decide (id' = next_request_id (table s))) as [->|Hne]; [lia|].
      rewrite lookup_insert_ne by done. intros Hr. apply N4 in Hr. lia.
    + intros sid' y. destruct (decide (sid' = sid)) as [->|Hne]; [intros _; by eapply N5|].
      rewrite lookup_insert_ne by done. apply N5.
  - destruct Hb as [Ht _ _ _ _ _ _ _]. intros sid' id [H1 H2]. unfold tied. rewrite Ht. cbn [requests next_request_id].
    split; [lia|]. intros q. rewrite lookup_insert_ne by lia. apply H2.
  - destruct Hb as [Ht Hpk [Hhp Hn] Hop _ [_ Hcur] (Hsid & _) _]. intros id [(y & Hy & Hid)|(k & Hk)].
    + right. rewrite Hhp, lookup_insert_eq in Hy. injection Hy as <-. rewrite Hcur in Hid. injection Hid as <-.
      unfold tied. rewrite Ht. cbn [requests next_request_id]. split; [lia|]. intros q. rewrite lookup_insert_eq. by intros [= <-].
    + left. right. exists k. unfold ops_of in *. by rewrite Hop in Hk.
Qed.

Lemma begun_ok L s s' sid x x' p : hole L s sid → ready s sid x → L sid = None → 0 <= M →
  next_request_id (table s) + 1 + zlen (queue (parked s)) <= N + 1 → begun s s' sid x x' p → inv o frame N M L s'.
Proof using.
  intros Hh Hr HL HM HN Hb. eapply (hole_inv L L _ sid); [by eapply begun_hole; [|apply Hr|..]|done|].
  destruct Hr as [Hx Hu Ho Hq (last & Hs & Hp & Hl)], Hb as [Ht Hpk [Hhp Hn] Hop Hw [Hc Hcur] (Hsid & Hlive & _) _].
  unfold session_ok. rewrite Hhp, lookup_insert_eq, HL. exists last. split_and!; [unfold wire_of; by rewrite Hw|done|].
  eapply (m_serving _ _ _ _ _ _ _ (next_request_id (table s)) p [] 0 [] []); try done.
  - by rewrite Ht; cbn; rewrite lookup_insert_eq.
  - intros id' p'. rewrite Ht. cbn. destruct (decide (id' = next_request_id (table s))) as [->|Hne]; [done|].
    rewrite lookup_insert_ne by done. intros Hr Hs'. exfalso. by eapply Hu.
  - by rewrite (live_phase _ _ _ _ _ _ _ _ Hlive).
  - by right; right; right.
  - unfold ops_of. by rewrite Hop.
  - unfold queued_of. by rewrite Hpk.
  - rewrite Hc. done.
Qed.
(** ** The queue *)

(** A ready session that is closed is in order. *)
Lemma ready_closed L s sid x : hole L s sid → ready s sid x → L sid = None → closed x = true → inv o frame N M L s.
Proof using.
  intros Hh [Hx Hu Ho Hq (last & Hs & Hp & _)] HL Hc. eapply (hole_inv L L _ sid); [done..|].
  unfold session_ok. rewrite Hx, HL. exists last. split_and!; [done..|]. apply m_closed; [done..|]. rewrite Ho. cbn. lia.
Qed.

(** An answer of the listener's own, unless the session is closed. *)
Lemma answer_ok L s sid x st body keep : hole L s sid → ready s sid x → L sid = None →
  inv o frame N M L (if closed (session_at s sid) then s else send_simple s sid st body keep).
Proof using.
  intros Hh Hr HL. rewrite (session_at_some _ _ _ (r_heap _ _ _ Hr)). destruct (closed x) eqn:E.
  - by eapply ready_closed.
  - by eapply send_simple_ok.
Qed.

(** The state without the first parked request. *)
Definition popped (s s' : Impl) (rest : list QueuedRequest) : Prop :=
  table s' = table s ∧ people s' = people s ∧ outside s' = outside s ∧ server_life s' = server_life s ∧ queue (parked s') = rest.

Lemma popped_ready L s s' e rest : inv o frame N M L s → queue (parked s) = e :: rest → popped s s' rest →
  L (q_session e) = None ∧ hole L s' (q_session e) ∧ ∃ x, ready s' (q_session e) x.
Proof using.
  intros [[N1 N2 N3 N4 N5 N6] Hc Hs] Hq (Ht & Hm & Ho & Hf & Hk). set (sid := q_session e).
  assert (queued_of s sid = e :: queued_of s' sid) as Hqs.
  { unfold queued_of. rewrite Hq, Hk. cbn [List.filter]. by rewrite Z.eqb_refl. }
  assert (hole L s' sid) as Hh.
  { split.
    - split; rewrite ?Ht, ?Hm, ?Hk, ?Hf; try done. rewrite Hq in N2. unfold zlen in *. cbn [length] in N2. lia.
    - intros sid' id Hid. unfold tied. rewrite Ht. apply Hc. eapply remembers_fields, Hid; [by rewrite Hm|unfold ops_of; by rewrite Ho].
    - intros sid' Hne. eapply session_ok_same, Hs. split; [by rewrite Hm|by unfold ops_of; rewrite Ho| |by unfold wire_of; rewrite Ho|by rewrite Ht].
      unfold queued_of. rewrite Hq, Hk. cbn [List.filter]. by rewrite (proj2 (Z.eqb_neq _ _)). }
  specialize (Hs sid). unfold session_ok in Hs. destruct (heap (people s) !! sid) as [x|] eqn:Hx.
  2: { destruct Hs as (_ & _ & _ & E & _). congruence. }
  destruct Hs as (last & Hw & Hp & Hmode). destruct (L sid) as [[po lw]|] eqn:HL.
  { destruct Hmode as (_ & E & _). congruence. }
  split_and!; [done..|]. exists x.
  destruct Hmode as [? ? ? ? ? ? ? ? ? ? ? ? ? ? E|? ? E|e' Hu Hop E Hl|? ? ? ? E|? ? E]; try congruence.
  split; [by rewrite Hm|by unfold unserved; rewrite Ht|by unfold ops_of; rewrite Ho|congruence|].
  exists last. unfold wire_of. by rewrite Ho.
Qed.

(** Calls, timers, counters and the server's life do not touch the sessions. *)
Lemma inv_aside L s s' : inv o frame N M L s → same_tables s s' → ops (outside s') = ops (outside s) →
  wire (outside s') = wire (outside s) → inv o frame N M L s'.
Proof using.
  intros [Hn Hc Hs] Hst Ho Hw. split; [by eapply numbered_tables| |].
  { intros sid id Hid. eapply tied_tables, Hc; [done|]. destruct Hst as (_ & _ & Hp & _).
    eapply remembers_fields, Hid; [by rewrite Hp|unfold ops_of; by rewrite Ho]. }
  destruct Hst as (Ht & Hq & Hp & _).
  intros sid. eapply session_ok_same, Hs. split; [by rewrite Hp|by unfold ops_of; rewrite Ho|by unfold queued_of; rewrite Hq
    |by unfold wire_of; rewrite Hw|by rewrite Ht].
Qed.

Lemma arm_queue_timer_ok L s : inv o frame N M L s → inv o frame N M L (arm_queue_timer o s).
Proof using. intros H. by eapply inv_aside. Qed.

Lemma call_ok L s op : inv o frame N M L s → inv o frame N M L (call s op).
Proof using. intros H. by eapply inv_aside. Qed.

Lemma set_life_ok L s l : faulted l = faulted (server_life s) → inv o frame N M L s → inv o frame N M L (set_server_life s l).
Proof using. intros Hf H. by eapply inv_aside. Qed.

Section queue.
Hypothesis total_ok : 0 <= M.

Lemma pump_entry_ok L s s' e rest : inv o frame N M L s → queue (parked s) = e :: rest → popped s s' rest →
  slot_free o s = true → inv o frame N M L (pump_entry o s' e).
Proof using count_ok total_ok.
  intros Hi Hq Hpop Hf. destruct (popped_ready _ _ _ _ _ Hi Hq Hpop) as (HL & Hh & x & Hr).
  assert (slot_free o s' = true) as Hf' by (destruct Hpop as (Ht & _); unfold slot_free; by rewrite Ht).
  unfold pump_entry. destruct (match q_deadline e with Some d => _ | None => _ end); [by eapply answer_ok|].
  assert (next_request_id (table s') + 1 + zlen (queue (parked s')) <= N + 1) as Hb.
  { destruct Hi as [[_ Hb _ _ _ _] _ _], Hpop as (-> & _ & _ & _ & ->). rewrite Hq in Hb. unfold zlen in *. cbn [length] in Hb. lia. }
  assert (0 < next_request_id (table s')) as Hpos by apply Hh. pose proof (zlen_nonneg (queue (parked s'))).
  destruct (start_request_spec s' (q_session e) x (q_request e) (q_normalized e)) as (x' & p & Hbegun);
    [apply Hr|done|apply Hh|lia|].
  pose proof (begun_ok _ _ _ _ _ _ _ Hh Hr HL total_ok Hb Hbegun) as Hok.
  unfold start_request in Hok. rewrite (allocate_spec s' Hf' (ho_numbered _ _ _ Hh)) in * by lia.
  by rewrite (proj2 (Z.eqb_neq _ _)) by lia.
Qed.

Lemma pump_loop_ok L fuel : ∀ s, inv o frame N M L s → inv o frame N M L (pump_loop o fuel s).
Proof using count_ok total_ok.
  induction fuel as [|fuel IH]; intros s Hi; [done|]. cbn [pump_loop]. destruct (queue (parked s)) as [|e rest] eqn:Hq; [done|].
  destruct (slot_free o s) eqn:Hf; [|done]. apply IH. by eapply pump_entry_ok.
Qed.

Lemma expire_loop_ok L fuel : ∀ s, inv o frame N M L s → inv o frame N M L (expire_loop fuel s).
Proof using.
  induction fuel as [|fuel IH]; intros s Hi; [done|]. cbn [expire_loop]. destruct (queue (parked s)) as [|e rest] eqn:Hq; [done|].
  destruct (q_deadline e); [|done]. case_match; [|done]. apply IH.
  set (s' := set_parked s _). destruct (popped_ready L s s' e rest) as (HL & Hh & x & Hr); [done..|]. by eapply answer_ok.
Qed.

Lemma abandon_all_ok L : ∀ q s, inv o frame N M L s → queue (parked s) = q → inv o frame N M L (fold_left abandon q s).
Proof using.
  induction q as [|e rest IH]; intros s Hi Hq; [done|]. cbn [fold_left]. unfold abandon at 2. rewrite Hq. cbn [tail].
  set (s' := set_parked s _). destruct (popped_ready L s s' e rest) as (HL & Hh & x & Hr); [done..|].
  apply IH; [by eapply answer_ok|]. destruct (closed _); [done|].
  unfold send_simple. set (r := match session_cors _ with Some _ => _ | None => _ end).
  by destruct (send_tables s' (q_session e) (Sent_own r) (Sending (rq_keep_alive (q_request e)))) as (_ & -> & _).
Qed.
End queue.

(** ** A request leaves *)

Definition set_limbo (L : Limbo) (sid : Z) (v : option (list StreamOp * list Sent)) : Limbo :=
  λ sid', if sid' =? sid then v else L sid'.

Lemma set_limbo_eq L sid v : set_limbo L sid v sid = v.
Proof using. unfold set_limbo. by rewrite Z.eqb_refl. Qed.

Lemma set_limbo_ne L sid v sid' : sid' ≠ sid → set_limbo L sid v sid' = L sid'.
Proof using. unfold set_limbo. intros H. by rewrite (proj2 (Z.eqb_neq _ _)). Qed.

(** What only a closed session can be: two operations pending. *)
Definition closing : option (list StreamOp * list Sent) := Some ([Reading; Reading], []).

Lemma inv_limbo_none L s sid : inv o frame N M L s → L sid = None → inv o frame N M (set_limbo L sid None) s.
Proof using.
  intros Hi HL. eapply (hole_inv L _ _ sid); [by apply inv_hole|intros; by apply set_limbo_ne|].
  destruct Hi as [_ _ Hs]. specialize (Hs sid). unfold session_ok in *. by rewrite set_limbo_eq, HL in *.
Qed.

Lemma hole_limbo L s sid v : hole (set_limbo L sid v) s sid ↔ hole L s sid.
Proof using.
  split; intros [H1 H2 H3]; (split; [done..|]); intros sid' Hne; specialize (H3 sid' Hne); unfold session_ok in *;
    by rewrite set_limbo_ne in *.
Qed.

(** A closed session needs nothing. *)
Lemma limbo_closed L s sid : inv o frame N M L s → closed (session_at s sid) = true →
  inv o frame N M (set_limbo L sid None) s.
Proof using.
  intros Hi Hc. destruct (L sid) as [[po lw]|] eqn:HL; [|by apply inv_limbo_none].
  eapply (hole_inv L _ _ sid); [by apply inv_hole|intros; by apply set_limbo_ne|].
  destruct Hi as [_ _ Hs]. specialize (Hs sid). unfold session_ok, session_at in *. rewrite set_limbo_eq, HL in *.
  destruct (heap (people s) !! sid) as [x|]; [|by destruct Hs]. destruct Hs as (last & Hw & Hp & Hu & Hq & Hl & _).
  exists last. split_and!; [done..|]. by apply m_closed.
Qed.

(** A session in limbo with nothing pending, after a complete response. *)
Lemma limbo_ready L s sid lw : inv o frame N M (set_limbo L sid (Some ([], lw))) s → closed (session_at s sid) = false →
  lw = [] ∨ complete_chunk lw → hole L s sid ∧ ready s sid (session_at s sid).
Proof using.
  intros Hi Hc Hl. pose proof (session_at_open _ _ Hc) as Hx. split; [by eapply hole_limbo, inv_hole|].
  destruct Hi as [_ _ Hs]. specialize (Hs sid). unfold session_ok in Hs. rewrite Hx, set_limbo_eq in Hs.
  destruct Hs as (last & Hw & Hp & Hu & Hq & _ & [?|(_ & Ho & ->)]); [congruence|].
  split; try done. exists []. split_and!; [|by apply (partial_parts 0 [] []); constructor|done].
  destruct Hl as [->|Hl]; [done|by eapply wire_split_done].
Qed.

(** A request and its session between two handlers. *)
Record owned (s : Impl) (sid id : Z) (p : PendingRequest) (x : Session) (po : list StreamOp) (last : list Sent) : Prop := {
  ow_request : requests (table s) !! id = Some p;
  ow_session : session (line p) = sid;
  ow_unique : ∀ id' p', requests (table s) !! id' = Some p' → session (line p') = sid → id' = id;
  ow_heap : heap (people s) !! sid = Some x;
  ow_queued : queued_of s sid = [];
  ow_ops : ops_of s sid = po;
  ow_pending : (length po <= 1)%nat;
  ow_wire : ∃ w, wire_split (wire_of s sid) w ∧ partial_chunk w ∧ (closed x = false → w = last)
}.

Lemma erase_ok L s sid id p x po last po' last' : hole L s sid → owned s sid id p x po last →
  (closed x = false → po' = po ∧ last' = last) → inv o frame N M (set_limbo L sid (Some (po', last'))) (erase_request s id p).
Proof using.
  intros Hh [H1 H2 H3 H4 H5 H6 H7 (w & Hw & Hp & Hl)] Hopen. eapply (hole_inv L _ _ sid); [|intros; by apply set_limbo_ne|].
  - eapply hole_move; [done|rewrite <- H2; by apply others_erase|..].
    + destruct Hh as [[] _ _]. split; unfold erase_request; project_state; try done.
      intros id' p' Hr. apply lookup_delete_Some in Hr as [_ Hr]. eauto.
    + intros sid' id' [? Hr]. split; [done|]. unfold erase_request. project_state. intros q [_ Hq]%lookup_delete_Some. by apply Hr.
    + intros id' Hid. by left.
  - unfold session_ok. unfold erase_request. project_state. rewrite H4, set_limbo_eq. exists w. split_and!; try done.
    + intros id' p'. project_state. intros [Hne Hr]%lookup_delete_Some Hs. apply Hne. symmetry. by eapply H3.
    + unfold ops_of in *. project_state. by rewrite H6.
    + destruct (closed x) eqn:Ec; [by left|right]. destruct (Hopen eq_refl) as [-> ->]. split_and!; [done|done|by apply Hl].
Qed.

(** A parked request of the session leaves the queue. *)
Lemma remove_session_spec sid q : ∀ n, let '(q', _) := remove_session sid q n in zlen q' <= zlen q
  ∧ ∀ sid', List.filter (λ e, q_session e =? sid') q'
            = if sid' =? sid then tail (List.filter (λ e, q_session e =? sid') q) else List.filter (λ e, q_session e =? sid') q.
Proof using.
  induction q as [|e q IH]; intros n; cbn [remove_session].
  - split; [done|]. intros sid'. by case_match.
  - destruct (q_session e =? sid) eqn:E; bools.
    + split; [unfold zlen; cbn; lia|]. intros sid'. cbn [List.filter]. subst sid. destruct (sid' =? q_session e) eqn:E; bools.
      * subst. by rewrite Z.eqb_refl.
      * by rewrite (proj2 (Z.eqb_neq (q_session e) sid')).
    + specialize (IH n). destruct (remove_session sid q n) as [q' m]. destruct IH as [Hl Hf].
      split; [unfold zlen in *; cbn; lia|]. intros sid'. cbn [List.filter]. rewrite Hf.
      destruct (sid' =? sid) eqn:E'; bools; [|done]. subst. by rewrite (proj2 (Z.eqb_neq (q_session e) sid)).
Qed.

Lemma cancel_queued_spec s sid : others sid s (cancel_queued s sid) ∧ queued_of (cancel_queued s sid) sid = tail (queued_of s sid)
  ∧ zlen (queue (parked (cancel_queued s sid))) <= zlen (queue (parked s)) ∧ table (cancel_queued s sid) = table s
  ∧ people (cancel_queued s sid) = people s ∧ outside (cancel_queued s sid) = outside s
  ∧ server_life (cancel_queued s sid) = server_life s.
Proof using.
  unfold cancel_queued. pose proof (remove_session_spec sid (queue (parked s)) (queue_bytes (parked s))) as H.
  destruct (remove_session _ _ _) as [q n]. destruct H as [Hl Hf]. split_and!; try done.
  - intros sid' Hne. split; try done. unfold queued_of. project_state. by rewrite Hf, (proj2 (Z.eqb_neq sid' sid)).
  - unfold queued_of. project_state. by rewrite Hf, Z.eqb_refl.
Qed.

(** The state in which a session has just been marked closed and has left the
    queue. *)
Definition marked (s : Impl) (sid : Z) : Impl :=
  let x := session_at s sid in
  cancel_queued (put_session s sid (mkSession true (probe_active x) (current_id x) (session_cors x))) sid.

Lemma marked_hole L s sid x : inv o frame N M L s → heap (people s) !! sid = Some x → hole L (marked s sid) sid.
Proof using.
  intros Hi Hx. unfold marked. rewrite (session_at_some _ _ _ Hx). set (s1 := put_session s sid _).
  destruct (cancel_queued_spec s1 sid) as (Ho & _ & Hl & Ht & Hp & _ & Hf).
  eapply (hole_move L s); [by apply inv_hole|eapply others_trans; [apply others_put_session|done]|..]; destruct Hi as [Hn Hc _].
  - destruct Hn as [N1 N2 N3 N4 N5 N6]. split; rewrite ?Ht, ?Hp, ?Hf; subst s1; project_state; try done; [lia|].
    intros sid' y. destruct (decide (sid' = sid)) as [->|Hne]; [intros _; by eapply N5|]. rewrite lookup_insert_ne by done. apply N5.
  - intros sid' id. unfold tied. by rewrite Ht.
  - destruct (cancel_queued_spec s1 sid) as (_ & _ & _ & _ & _ & Hout & _). intros id Hid.
    assert (remembers s1 sid id) as [Hcur|(k & Hk)]%remembers_put.
    { eapply remembers_fields, Hid; [by rewrite Hp|unfold ops_of; by rewrite Hout]. }
    + left. left. by exists x.
    + left. right. by exists k.
Qed.

Lemma tail_short {A} (l : list A) : (length l <= 1)%nat → tail l = [].
Proof using. destruct l as [|? [|? ?]]; cbn; [done..|lia]. Qed.

(** Either the session's request is still there, or the session is done. *)
Lemma marked_cases L s sid x : inv o frame N M L s → heap (people s) !! sid = Some x →
  let x' := mkSession true (probe_active x) (current_id x) (session_cors x) in
  (∃ id p po last, current_id x = Some id ∧ owned (marked s sid) sid id p x' po last)
  ∨ unserved s sid ∧ inv o frame N M (set_limbo L sid closing) (marked s sid).
Proof using.
  intros Hi Hx x'. pose proof (marked_hole L s sid x Hi Hx) as Hh.
  assert (marked s sid = cancel_queued (put_session s sid x') sid) as E by (unfold marked; by rewrite (session_at_some _ _ _ Hx)).
  rewrite E in *. clear E. set (s' := cancel_queued _ sid) in *.
  destruct (cancel_queued_spec (put_session s sid x') sid) as (_ & Hq & _ & Ht & Hp & Ho & _).
  assert (heap (people s') !! sid = Some x') as Hx' by (unfold s'; rewrite Hp; project_state; apply lookup_insert_eq).
  assert (ops_of s' sid = ops_of s sid) as Hops by (unfold ops_of, s'; by rewrite Ho).
  assert (wire_of s' sid = wire_of s sid) as Hwire by (unfold wire_of, s'; by rewrite Ho).
  assert (requests (table s') = requests (table s)) as Hr by (unfold s'; by rewrite Ht).
  destruct Hi as [_ _ Hs]. specialize (Hs sid). unfold session_ok in Hs. rewrite Hx in Hs. destruct Hs as (last & Hw & Hpc & Hm).
  assert ((∃ id p received granted ks ws, current_id x = Some id ∧ requests (table s) !! id = Some p ∧ session (line p) = sid
             ∧ (∀ id' p', requests (table s) !! id' = Some p' → session (line p') = sid → id' = id)
             ∧ live (stream_limits o) frame (phase_of p) p received granted ks ws ∧ ops_of s sid = map (Writing id) ks
             ∧ queued_of s sid = [])
          ∨ unserved s sid ∧ (length (queued_of s sid) <= 1)%nat ∧ (length (ops_of s sid) <= 1)%nat) as Hcase.
  { destruct (L sid) as [[po lw]|].
    - destruct Hm as (Hu & -> & Hl & _). right. split_and!; [done|cbn; lia|done].
    - destruct Hm as [id p received granted ks ws H1 H2 H3 H4 H5 H6 H7 H8 H9 H10|H1 -> -> H4|e H1 -> -> H4|keep r H1 -> -> H4|H1 H2 -> H4].
      + left. by exists id, p, received, granted, ks, ws.
      + right. split_and!; [done|cbn; lia..].
      + right. split_and!; [done|cbn; lia..].
      + right. split_and!; [done|cbn; lia..].
      + right. split_and!; [done|cbn; lia|done]. }
  destruct Hcase as [(id & p & received & granted & ks & ws & H1 & H2 & H3 & H4 & H5 & H6 & H7)|(Hu & Hlq & Hlo)].
  - left. exists id, p, (map (Writing id) ks), last. split; [done|]. split; try done.
    + by rewrite Hr.
    + intros id' p'. rewrite Hr. apply H4.
    + change (queued_of s' sid = []). unfold s'. rewrite Hq. change (tail (queued_of s sid) = []). by rewrite H7.
    + by rewrite Hops.
    + rewrite length_map. by destruct (live_on_wire _ _ _ _ _ _ _ _ H5) as (_ & ? & _).
    + rewrite Hwire. eauto.
  - right. split; [done|]. eapply (hole_inv L _ _ sid); [done|intros; by apply set_limbo_ne|].
    unfold session_ok. rewrite Hx', set_limbo_eq, Hwire, Hops. exists last. unfold closing. split_and!; try done; [..|by left].
    + intros id' p'. rewrite Hr. apply Hu.
    + unfold s'. rewrite Hq. change (tail (queued_of s sid) = []). by apply tail_short.
Qed.

(** ** A request arrives *)

Lemma touch_ready L s sid x y : hole L s sid → ready s sid x → closed y = closed x → current_id y = current_id x →
  hole L (put_session s sid y) sid ∧ ready (put_session s sid y) sid y.
Proof using.
  intros Hh [Hx Hu Ho Hq Hw] Hc Hid. split.
  - eapply hole_move; [done|apply others_put_session|..]; destruct Hh as [[? ? ? ? N5 N6] _ _].
    + split; project_state; try done. intros sid' z. destruct (decide (sid' = sid)) as [->|Hne]; [intros _; by eapply N5|].
      rewrite lookup_insert_ne by done. apply N5.
    + done.
    + intros id [E|(k & Hk)]%remembers_put; left; [left; exists x; by rewrite <- Hid|right; by exists k].
  - split; project_state; try done; [by rewrite lookup_insert_eq|by rewrite Hc].
Qed.

(** A parked request. *)
Lemma park_ok L s sid x e n t : hole L s sid → ready s sid x → L sid = None → q_session e = sid →
  next_request_id (table s) + zlen (queue (parked s)) <= N →
  inv o frame N M L (set_parked s (mkParked (queue (parked s) ++ [e]) n t)).
Proof using.
  intros Hh [Hx Hu Ho Hq (last & Hw & Hp & Hl)] HL He Hb. set (s' := set_parked s _).
  assert (∀ sid', queued_of s' sid' = queued_of s sid' ++ (if sid' =? sid then [e] else [])) as Hqs.
  { intros sid'. unfold queued_of, s'. project_state. rewrite List.filter_app. cbn [List.filter]. rewrite He, Z.eqb_sym. by case_match. }
  eapply (hole_inv L L _ sid); [|done|].
  - destruct Hh as [[N1 N2 N3 N4 N5 N6] Hc Hs]. split.
    + split; try done. unfold s'. project_state. rewrite zlen_app. change (zlen [e]) with 1. lia.
    + done.
    + intros sid' Hne. eapply session_ok_same; [|by apply Hs]. split; try done.
      rewrite Hqs, (proj2 (Z.eqb_neq _ _)) by done. apply app_nil_r.
  - unfold session_ok. change (heap (people s')) with (heap (people s)). rewrite Hx, HL. exists last. split_and!; [done..|].
    apply (m_parked _ _ _ _ _ _ _ e); try done. by rewrite Hqs, Hq, Z.eqb_refl.
Qed.

Lemma arrive_ok L s sid x rq nz : hole L s sid → ready s sid x → L sid = None → 0 <= M →
  next_request_id (table s) + zlen (queue (parked s)) <= N →
  inv o frame N M L
    (match admit_request o s sid rq nz with
     | (kAccepted, s) =>
         let '(id, s) := allocate_request_id o s in
         if id =? 0 then send_simple s sid 503 (bs "no worker request slots available") (rq_keep_alive rq)
         else start_disconnect_probe (begin_request o (set_current s sid (Some id)) id sid rq nz) sid
     | (kQueued, s) => s
     | (kQueueFull, s) => send_simple s sid 429 (bs "app queue full") (rq_keep_alive rq)
     end).
Proof using count_ok.
  intros Hh Hr HL HM Hb. unfold admit_request. destruct (_ && slot_free o s) eqn:Hf.
  - apply andb_true_iff in Hf as [_ Hf]. pose proof (n_next _ _ (ho_numbered _ _ _ Hh)). pose proof (zlen_nonneg (queue (parked s))).
    destruct (start_request_spec s sid x rq nz) as (x' & p & Hbegun); [apply Hr|done|apply Hh|lia|].
    eapply begun_ok in Hbegun; [|done..|lia]. unfold start_request in Hbegun.
    rewrite (allocate_spec s Hf (ho_numbered _ _ _ Hh)) in * by lia. by rewrite (proj2 (Z.eqb_neq _ _)) by lia.
  - destruct (max_queue_requests o =? 0); [by eapply send_simple_ok|].
    destruct (_ || _); [by eapply send_simple_ok|]. apply arm_queue_timer_ok. by eapply park_ok.
Qed.

Lemma handle_request_ok L s sid x rq : hole L s sid → ready s sid x → L sid = None → 0 <= M →
  next_request_id (table s) + zlen (queue (parked s)) <= N → inv o frame N M L (handle_request o s sid rq).
Proof using count_ok.
  intros Hh Hr HL HM Hb. unfold handle_request. rewrite (session_at_some _ _ _ (r_heap _ _ _ Hr)).
  set (engine := if configured (cors_config o) then _ else _). set (y := mkSession _ _ _ engine).
  destruct (touch_ready L s sid x y Hh Hr eq_refl eq_refl) as [Hh1 Hr1].
  set (s1 := put_session s sid y) in *.
  assert (next_request_id (table s1) + zlen (queue (parked s1)) <= N) as Hb1 by done. clearbody s1.
  set (proceed := if worker_dead _ then _ else _).
  assert (inv o frame N M L proceed) as Hp.
  { unfold proceed. destruct (worker_dead _); [by eapply send_simple_ok|].
    destruct (normalize_public_request _ _ _) as [nz|e]; [|by eapply send_simple_ok].
    destruct (negb _); [by eapply send_simple_ok|].
    destruct (check_websocket_upgrade _);
      first [by eapply arrive_ok | by eapply send_simple_ok | by eapply send_own_ok]. }
  clearbody proceed. repeat case_match; try done; by first [eapply send_simple_ok | eapply send_own_ok].
Qed.

(** A request of the table is served. *)
Lemma inv_serving K L s id p : inv o frame N K L s → K <= M → requests (table s) !! id = Some p → let sid := session (line p) in
  L sid = None ∧ hole L s sid ∧ ∃ x received granted ks ws,
    owned s sid id p x (map (Writing id) ks) (map (Sent_part id) ws) ∧ current_id x = Some id
    ∧ live (stream_limits o) frame (phase_of p) p received granted ks ws ∧ head_known p ks ws ∧ zlen received <= K.
Proof using.
  intros Hi HK Hp sid. pose proof (inv_hole _ _ sid (inv_mono _ _ _ _ _ _ _ _ Hi (Z.le_refl N) HK)) as Hh. destruct Hi as [_ _ Hs]. specialize (Hs sid). unfold session_ok in Hs.
  assert (¬ unserved s sid) as Hu by (intros Hu; by eapply Hu).
  destruct (heap (people s) !! sid) as [x|] eqn:Hx; [|by destruct Hs as (_ & ? & _)].
  destruct Hs as (last & Hw & Hpc & Hm). destruct (L sid) as [[po lw]|]; [by destruct Hm|].
  destruct Hm as [id' p' received granted ks ws H1 H2 H3 H4 H5 H6 H7 H8 H9 H10| | | |]; try done.
  assert (id = id') as <- by (by eapply H3). assert (p' = p) as -> by congruence.
  split_and!; [done..|]. exists x, received, granted, ks, ws. split_and!; try done.
  split; try done; [|by exists last]. rewrite length_map. by destruct (live_on_wire _ _ _ _ _ _ _ _ H5) as (_ & ? & _).
Qed.

(** A session that stays open or closed and keeps its request. *)
Lemma touch_ok L s sid x y : inv o frame N M L s → heap (people s) !! sid = Some x → closed y = closed x →
  current_id y = current_id x → inv o frame N M L (put_session s sid y).
Proof using.
  intros Hi Hx Hc Hid. eapply (hole_inv L L _ sid); [|done|].
  - eapply hole_move; [by apply inv_hole|apply others_put_session|..]; destruct Hi as [[? ? ? ? N5 N6] _ _].
    + split; project_state; try done. intros sid' z. destruct (decide (sid' = sid)) as [->|Hne]; [intros _; by eapply N5|].
      rewrite lookup_insert_ne by done. apply N5.
    + done.
    + intros id [E|(k & Hk)]%remembers_put; left; [left; exists x; by rewrite <- Hid|right; by exists k].
  - destruct Hi as [_ _ Hs]. specialize (Hs sid). unfold session_ok in *. rewrite Hx in Hs. project_state.
    rewrite lookup_insert_eq. destruct Hs as (last & Hw & Hp & Hm). exists last. split_and!; [done..|].
    destruct (L sid) as [[po lw]|]; [by rewrite Hc|].
    destruct Hm; [eapply m_serving|apply m_reading|eapply m_parked|eapply m_sending|apply m_closed]; rewrite ?Hc, ?Hid; done.
Qed.

(** ** An operation completes *)

Lemma of_session_delete {A} (l : list (Z * A)) n sid x : l !! n = Some (sid, x) →
  (∀ sid', sid' ≠ sid → of_session sid' (delete n l) = of_session sid' l)
  ∧ ((length (of_session sid l) <= 1)%nat → of_session sid l = [x] ∧ of_session sid (delete n l) = []).
Proof using.
  intros H. assert (∀ sid', of_session sid' l = of_session sid' (take n l) ++ (if sid' =? sid then [x] else [])
                              ++ of_session sid' (drop (S n) l)) as Hl.
  { intros sid'. rewrite <- (take_drop_middle l n _ H) at 1. rewrite of_session_app. f_equal.
    unfold of_session. cbn. rewrite Z.eqb_sym. by destruct (sid' =? sid). }
  split.
  - intros sid' Hne. by rewrite (Hl sid'), (proj2 (Z.eqb_neq sid' sid)), delete_take_drop, of_session_app.
  - intros Hlen. rewrite delete_take_drop, of_session_app. rewrite (Hl sid), Z.eqb_refl, !length_app in *. cbn [length] in Hlen.
    by rewrite (nil_length_inv (of_session sid (take n l))), (nil_length_inv (of_session sid (drop (S n) l))) by lia.
Qed.

(** The state without the operation. *)
Definition completed (s : Impl) (n : nat) : Impl :=
  set_outside s (mkOutside (delete n (ops (outside s))) (wire (outside s)) (made_calls (outside s))).

Lemma completed_hole L s n sid op : inv o frame N M L s → ops (outside s) !! n = Some (sid, op) → hole L (completed s n) sid.
Proof using.
  intros Hi Hn. destruct (of_session_delete _ _ _ _ Hn) as [Hoth _]. eapply hole_move; [by apply inv_hole| | |done|].
  - intros sid' Hne. split; try done. by apply Hoth.
  - destruct Hi as [[] _ _]. by split.
  - intros id [H|(k & Hk)]; left; [by left|right]. exists k. unfold ops_of, of_session, completed in *. project_state.
    apply list_elem_of_omap in Hk as (y & Hy & Hk). apply list_elem_of_omap. exists y. by eapply list_elem_of_delete_inv in Hy.
Qed.

(** What a session is when its operation has completed. *)
Lemma completed_cases L s n sid op : inv o frame N M L s → L sid = None → ops (outside s) !! n = Some (sid, op) →
  ∃ x, heap (people s) !! sid = Some x ∧
   (ready (completed s n) sid x ∧ (∀ id k, op = Writing id k → requests (table s) !! id = None ∧ closed x = true)
    ∨ ∃ id k p received granted ws, op = Writing id k ∧ owned (completed s n) sid id p x [] (map (Sent_part id) ws)
        ∧ current_id x = Some id ∧ live (stream_limits o) frame (phase_of p) p received granted [k] ws
        ∧ head_known p [k] ws ∧ zlen received <= M).
Proof using.
  intros Hi HL Hn. pose proof (i_current _ _ _ _ _ _ Hi) as Hc. destruct Hi as [_ _ Hs]. specialize (Hs sid).
  unfold session_ok in Hs. rewrite HL in Hs. destruct (of_session_delete _ _ _ _ Hn) as [_ Hdel].
  change (of_session sid (ops (outside s))) with (ops_of s sid) in Hdel.
  assert (op ∈ ops_of s sid) as Hin.
  { apply list_elem_of_omap. exists (sid, op). split; [by eapply list_elem_of_lookup_2|]. cbn. by rewrite Z.eqb_refl. }
  destruct (heap (people s) !! sid) as [x|] eqn:Hx.
  2: { destruct Hs as (_ & _ & E & _). rewrite E in Hin. by apply not_elem_of_nil in Hin. }
  exists x. split; [done|]. destruct Hs as (last & Hw & Hp & Hm).
  assert (unserved s sid → queued_of s sid = [] → (length (ops_of s sid) <= 1)%nat →
          (∃ last', wire_split (wire_of s sid) last' ∧ partial_chunk last' ∧ (closed x = false → last' = [])) →
          ready (completed s n) sid x) as Hready.
  { intros Hu Hq Hl Hwire. split; try done. by apply Hdel. }
  assert (∀ k, ops_of s sid = [k] → op = k) as Hone.
  { intros k Hk. rewrite Hk in Hin. by apply list_elem_of_singleton in Hin. }
  destruct Hm as [id p received granted ks ws H1 H2 H3 H4 H5 H6 H7 H8 H9 H10|H1 H2 H3 H4|e H1 H2 H3 H4|keep r H1 H2 H3 H4|H1 H2 H3 H4].
  - right. destruct (live_on_wire _ _ _ _ _ _ _ _ H5) as (_ & Hl & _). destruct Hdel as [Ho Hd]; [by rewrite H8, length_map|].
    rewrite H8 in Ho. destruct ks as [|k [|]]; [done| |done]. cbn in Ho. injection Ho as <-.
    exists id, k, p, received, granted, ws. split_and!; try done. split; try done; [cbn; lia|by exists last].
  - left. split; [apply Hready; [done..|rewrite H2; cbn; lia|by exists last]|]. intros id k ->. by apply Hone in H2.
  - rewrite H2 in Hin. by apply not_elem_of_nil in Hin.
  - left. split; [|intros id k ->; by apply Hone in H2]. apply Hready; [done..|rewrite H2; cbn; lia|].
    destruct (closed x); [by exists last|]. exists []. rewrite (H4 eq_refl) in Hw.
    split_and!; [by eapply wire_split_done, chunk_own|by apply (partial_parts 0 [] []); constructor|done].
  - left. split; [apply Hready; [done..|exists last; by rewrite H1]|]. intros id k ->. split; [|done].
    destruct (requests (table s) !! id) as [p|] eqn:E; [|done]. exfalso.
    destruct (Hc sid id) as [_ Hs]; [right; by exists k|]. by eapply H2, Hs.
Qed.

(** A session with nothing to do, about to be closed. *)
Lemma ready_limbo L s sid x : hole L s sid → ready s sid x → inv o frame N M (set_limbo L sid (Some ([], []))) s.
Proof using.
  intros Hh [Hx Hu Ho Hq (last & Hw & Hp & Hl)]. eapply (hole_inv L _ _ sid); [done|intros; by apply set_limbo_ne|].
  unfold session_ok. rewrite Hx, set_limbo_eq. exists last. rewrite Ho. split_and!; try done; [cbn; lia|].
  destruct (closed x); [by left|right]. by rewrite Hl.
Qed.

(** ** Handlers that may complete a drain *)

Section reentrant.
Context (complete : Impl → Impl).
Hypothesis total_ok : 0 <= M.
Hypothesis complete_ok : ∀ L s, inv o frame N M L s → inv o frame N M L (complete s).

Lemma maybe_complete_ok L s : inv o frame N M L s → inv o frame N M L (maybe_complete_drain complete s).
Proof using complete_ok. intros Hi. unfold maybe_complete_drain. do 2 (case_match; [done|]). by apply complete_ok. Qed.

Lemma pump_queue_ok L s : inv o frame N M L s → inv o frame N M L (pump_queue o complete s).
Proof using complete_ok total_ok count_ok. intros Hi. by apply maybe_complete_ok, arm_queue_timer_ok, pump_loop_ok. Qed.

Lemma cancel_request_ok L s sid id p x po last po' last' : hole L s sid → owned s sid id p x po last →
  (closed x = false → po' = po ∧ last' = last) →
  inv o frame N M (set_limbo L sid (Some (po', last'))) (cancel_request o complete s id).
Proof using complete_ok total_ok count_ok.
  intros Hh Ho Hc. unfold cancel_request. rewrite (ow_request _ _ _ _ _ _ _ Ho).
  apply maybe_complete_ok, pump_queue_ok, call_ok, call_ok. by eapply erase_ok.
Qed.

(** A session that is closed for good fits whatever is expected of it. *)
Lemma closing_ok L s sid v : inv o frame N M (set_limbo L sid closing) s →
  closed (session_at s sid) = true ∧ heap (people s) !! sid = Some (session_at s sid) ∧ inv o frame N M (set_limbo L sid v) s.
Proof using.
  intros Hi. pose proof (proj1 (hole_limbo L s sid closing) (inv_hole _ _ sid Hi)) as Hh. destruct Hi as [_ _ Hs].
  specialize (Hs sid). unfold session_ok, session_at in *. destruct (heap (people s) !! sid) as [x|] eqn:Hx.
  2: { destruct Hs as [E _]. by rewrite set_limbo_eq in E. }
  rewrite set_limbo_eq in Hs. cbn [closing] in Hs. destruct Hs as (last & Hw & Hp & Hu & Hq & Hl & Hcl).
  assert (closed x = true) as Hc. { destruct Hcl as [?|(_ & E & _)]; [done|]. rewrite E in Hl. cbn in Hl. lia. }
  split_and!; [done..|]. eapply (hole_inv L _ _ sid); [done|intros; by apply set_limbo_ne|].
  unfold session_ok. rewrite Hx, set_limbo_eq. exists last. split_and!; [done..|].
  destruct v as [[po lw]|]; [|by apply m_closed]. split_and!; try done. by left.
Qed.

(** It forgets its request. *)
Lemma forget_ok L s sid v : inv o frame N M (set_limbo L sid closing) s → inv o frame N M (set_limbo L sid v) (set_current s sid None).
Proof using.
  intros Hi. assert (inv o frame N M (set_limbo L sid closing) (set_current s sid None)) as H; [|by apply closing_ok].
  destruct (closing_ok L s sid None Hi) as (Hc & Hx & _). unfold set_current. set (y := mkSession _ _ _ _).
  eapply (hole_inv _ _ _ sid); [eapply hole_move; [by apply inv_hole|apply others_put_session|..]|done|].
  - destruct Hi as [[? ? ? ? N5 N6] _ _]. split; project_state; try done. intros sid' z.
    destruct (decide (sid' = sid)) as [->|Hne]; [intros _; by eapply N5|]. rewrite lookup_insert_ne by done. apply N5.
  - done.
  - intros id [?|(k & Hk)]%remembers_put; [done|]. left. right. by exists k.
  - destruct Hi as [_ _ Hs]. specialize (Hs sid). unfold session_ok in *. rewrite Hx in Hs. project_state. rewrite lookup_insert_eq.
    destruct Hs as (last & Hw & Hp & Hm). exists last. split_and!; [done..|]. rewrite set_limbo_eq in *. cbn [closing] in *.
    destruct Hm as (? & ? & ? & _). split_and!; try done. by left.
Qed.

Lemma drop_session_ok L s sid : inv o frame N M L s → inv o frame N M L (drop_session s sid).
Proof using. intros Hi. by eapply inv_aside. Qed.

Lemma cancel_absent s id : requests (table s) !! id = None → cancel_request o complete s id = s.
Proof using. unfold cancel_request. by intros ->. Qed.

Lemma inv_ext L L' s : (∀ sid, L sid = L' sid) → inv o frame N M L s → inv o frame N M L' s.
Proof using. intros HL [? ? Hs]. split; [done..|]. intros sid. specialize (Hs sid). unfold session_ok in *. by rewrite <- HL. Qed.

(** Closing a session puts it in order, whatever it was about to do. *)
Lemma close_open_ok L s sid v : inv o frame N M L s → closed (session_at s sid) = false →
  inv o frame N M (set_limbo L sid v) (close_session o complete s sid).
Proof using complete_ok total_ok count_ok.
  intros Hi Hc. unfold close_session. rewrite Hc.
  pose proof (session_at_open _ _ Hc) as Hx. apply drop_session_ok. fold (marked s sid).
  pose proof (marked_hole _ _ _ _ Hi Hx) as Hh.
  destruct (marked_cases _ _ _ _ Hi Hx) as [(id & p & po & last & Hid & Ho)|[Hu Hm]].
  - rewrite Hid. apply forget_ok. by eapply cancel_request_ok.
  - destruct (current_id (session_at s sid)) as [id|] eqn:Hid; [|by apply closing_ok].
    apply forget_ok. rewrite cancel_absent; [done|]. unfold marked. set (s1 := put_session s sid _).
    destruct (cancel_queued_spec s1 sid) as (_ & _ & _ & -> & _). subst s1. project_state.
    destruct (requests (table s) !! id) as [p|] eqn:E; [|done]. exfalso.
    destruct (i_current _ _ _ _ _ _ Hi sid id) as [_ Hs]; [left; by exists (session_at s sid)|]. by eapply Hu, Hs.
Qed.

Lemma close_session_ok L s sid : inv o frame N M L s → inv o frame N M (set_limbo L sid None) (close_session o complete s sid).
Proof using complete_ok total_ok count_ok.
  intros Hi. destruct (closed (session_at s sid)) eqn:Hc; [|by apply close_open_ok].
  unfold close_session. rewrite Hc. by apply limbo_closed.
Qed.

Lemma close_ok L s sid : inv o frame N M L s → inv o frame N M L (close_session o complete s sid).
Proof using complete_ok total_ok count_ok.
  intros Hi. destruct (closed (session_at s sid)) eqn:Hc; [unfold close_session; by rewrite Hc|].
  eapply inv_ext; [|by apply (close_open_ok L s sid (L sid))].
  intros sid'. unfold set_limbo. destruct (sid' =? sid) eqn:E; bools; [by subst|done].
Qed.

(** Leaving limbo, by closing or by going on. *)
Lemma close_limbo_ok L s sid v : inv o frame N M (set_limbo L sid v) s → L sid = None →
  inv o frame N M L (if closed (session_at s sid) then s else close_session o complete s sid).
Proof using complete_ok total_ok count_ok.
  intros Hi HL. assert (∀ s', inv o frame N M (set_limbo (set_limbo L sid v) sid None) s' → inv o frame N M L s') as Hext.
  { intros s'. apply inv_ext. intros sid'. unfold set_limbo. destruct (sid' =? sid) eqn:E; bools; [by subst|done]. }
  destruct (closed _) eqn:Hc; apply Hext; [by apply limbo_closed|by apply close_session_ok].
Qed.

Lemma answer_limbo_ok L s sid st body keep : inv o frame N M (set_limbo L sid (Some ([], []))) s → L sid = None →
  inv o frame N M L (if closed (session_at s sid) then s else send_simple s sid st body keep).
Proof using complete_ok total_ok count_ok.
  intros Hi HL. destruct (closed _) eqn:Hc.
  - pose proof (close_limbo_ok _ _ _ _ Hi HL) as H. by rewrite Hc in H.
  - destruct (limbo_ready _ _ _ _ Hi Hc) as [Hh Hr]; [by left|]. by eapply send_simple_ok.
Qed.

Lemma resume_session_ok L s sid lw keep : inv o frame N M (set_limbo L sid (Some ([], lw))) s → L sid = None → complete_chunk lw →
  inv o frame N M L (resume_session o complete s sid keep).
Proof using complete_ok total_ok count_ok.
  intros Hi HL Hl. unfold resume_session. pose proof (close_limbo_ok _ _ _ _ Hi HL) as Hcl.
  destruct (closed _) eqn:Hc; [done|]. destruct keep; [|done].
  destruct (limbo_ready _ _ _ _ Hi Hc) as [Hh Hr]; [by right|]. by eapply read_request_ok.
Qed.

(** ** Turns *)

Lemma effects_spec id sid x es : ∀ s, heap (people s) !! sid = Some x →
  let s' := fold_left (apply_effect id sid) es s in
  table s' = table s ∧ parked s' = parked s ∧ people s' = people s ∧ server_life s' = server_life s ∧ others sid s s'
  ∧ ops_of s' sid = ops_of s sid ++ map (Writing id) (map op_of (writes es))
  ∧ wire_of s' sid = wire_of s sid ++ (if closed x then [] else map (Sent_part id) (writes es)).
Proof using.
  induction es as [|e es IH]; intros s Hx; cbn [fold_left].
  { cbn [writes omap list_omap map]. rewrite app_nil_r. destruct (closed x); rewrite app_nil_r; split_and!; try done; apply others_refl. }
  assert (heap (people (apply_effect id sid s e)) !! sid = Some x) as Hx1.
  { destruct e as [| |w]; try done. cbn [apply_effect]. project_state. by destruct (put_wire_frame s sid (Sent_part id w)) as (_ & _ & -> & _). }
  destruct (IH _ Hx1) as (H1 & H2 & H3 & H4 & H5 & H6 & H7). destruct e as [c|r|w].
  1, 2: by split_and!; try done; eapply others_trans; [|exact H5]; by intros sid' _.
  cbn [apply_effect] in *. destruct (put_wire_frame s sid (Sent_part id w)) as (P1 & P2 & P3 & P4 & P5 & P6).
  split_and!; [by rewrite H1|by rewrite H2|by rewrite H3|by rewrite H4| | |].
  - eapply others_trans; [|exact H5]. eapply others_trans; [apply others_put_wire|apply others_push].
  - rewrite H6, ops_of_push, Z.eqb_refl. unfold ops_of. rewrite P5. cbn [writes omap list_omap map]. by rewrite <- app_assoc.
  - rewrite H7. change (wire_of (push_op ?a sid ?b) sid) with (wire_of a sid).
    rewrite wire_of_put, Z.eqb_refl, (session_at_some _ _ _ Hx). destruct (closed x); cbn [andb negb].
    + by rewrite app_nil_r.
    + cbn [writes omap list_omap map]. by rewrite <- app_assoc.
Qed.

(** The request and its session after the effects of a turn. *)
Lemma turn_owned L s sid id p q x ks ws es received : hole L s sid →
  owned s sid id p x (map (Writing id) ks) (map (Sent_part id) ws) → line q = line p →
  (length (ks ++ map op_of (writes es)) <= 1)%nat → on_wire received (ws ++ writes es) →
  let s' := fold_left (apply_effect id sid) es (put_request s id q) in
  hole L s' sid ∧ owned s' sid id q x (map (Writing id) (ks ++ map op_of (writes es))) (map (Sent_part id) (ws ++ writes es)).
Proof using.
  intros Hh [H1 H2 H3 H4 H5 H6 H7 (w & Hw & Hp & Hl)] Hline Hlen Hwire s'.
  assert (heap (people (put_request s id q)) !! sid = Some x) as Hx by done.
  destruct (effects_spec id sid x es _ Hx) as (E1 & E2 & E3 & E4 & E5 & E6 & E7). fold s' in E1, E2, E3, E4, E5, E6, E7.
  assert (session (line q) = sid) as Hsid by (by rewrite Hline).
  assert (others sid s s') as Ho.
  { eapply others_trans; [|exact E5]. rewrite <- Hsid. apply others_put_request. intros q'. rewrite H1. intros [= <-]. by rewrite Hline. }
  split.
  - eapply hole_move; [done..| | |]; destruct Hh as [[N1 N2 N3 N4 N5 N6] Hc _].
    + split; rewrite ?E1, ?E2, ?E3, ?E4; project_state; try done. intros id' p'. destruct (decide (id' = id)) as [->|Hne].
      * intros _. by eapply N4.
      * rewrite lookup_insert_ne by done. apply N4.
    + intros sid' id' [Hlt Hr]. unfold tied. rewrite E1. project_state. split; [done|]. intros p'.
      destruct (decide (id' = id)) as [->|Hne].
      * rewrite lookup_insert_eq. intros [= <-]. rewrite Hline. by apply Hr.
      * rewrite lookup_insert_ne by done. apply Hr.
    + intros id' [(y & Hy & Hid)|(k & Hk)]; [left; left; exists y; by rewrite E3 in Hy|]. rewrite E6 in Hk.
      apply elem_of_app in Hk as [Hk|Hk]; [left; right; by exists k|]. apply list_elem_of_fmap in Hk as (k' & [= -> _] & _).
      right. unfold tied. rewrite E1. project_state. split; [by eapply N4|]. rewrite lookup_insert_eq. by intros p' [= <-].
  - split; rewrite ?E1, ?E3; project_state; try done.
    + by rewrite lookup_insert_eq.
    + intros id' p'. destruct (decide (id' = id)) as [->|Hne]; [done|]. rewrite lookup_insert_ne by done. apply H3.
    + unfold queued_of. by rewrite E2.
    + rewrite E6. change (ops_of (put_request s id q) sid) with (ops_of s sid). by rewrite H6, map_app.
    + by rewrite length_map.
    + rewrite E7. change (wire_of (put_request s id q) sid) with (wire_of s sid). destruct (closed x).
      * rewrite app_nil_r. by exists w.
      * destruct Hw as (chunks & -> & Hch). rewrite (Hl eq_refl).
        exists (map (Sent_part id) (ws ++ writes es)). split_and!; [|by eapply partial_parts|done].
        exists chunks. by rewrite map_app, <- app_assoc.
Qed.

(** A request that goes on is served. *)
Lemma serving_ok L s sid id p x received granted ks ws : hole L s sid → L sid = None →
  owned s sid id p x (map (Writing id) ks) (map (Sent_part id) ws) → current_id x = Some id →
  live (stream_limits o) frame (phase_of p) p received granted ks ws → head_known p ks ws → zlen received <= M →
  inv o frame N M L s.
Proof using.
  intros Hh HL [H1 H2 H3 H4 H5 H6 H7 (w & Hw & Hp & Hl)] Hcur Hlive Hk HM. eapply (hole_inv L _ _ sid); [done..|].
  unfold session_ok. rewrite H4, HL. exists w. split_and!; [done..|]. by eapply m_serving.
Qed.

Lemma fail_request_ok L s sid id p x po last : hole L s sid → owned s sid id p x po last → L sid = None →
  inv o frame N M L (fail_request o complete s id sid).
Proof using complete_ok total_ok count_ok.
  intros Hh Ho HL. unfold fail_request. eapply close_limbo_ok; [|done]. by eapply cancel_request_ok.
Qed.

(** The request is done and its response complete. *)
Lemma leave_ok L s sid id p x ws keep : hole L s sid → owned s sid id p x [] (map (Sent_part id) ws) → L sid = None →
  complete_writes ws → inv o frame N M L (resume_session o complete (pump_queue o complete (erase_request s id p)) sid keep).
Proof using complete_ok total_ok count_ok.
  intros Hh Ho HL Hc. eapply resume_session_ok; [|done|by apply chunk_parts]. apply pump_queue_ok. by eapply erase_ok.
Qed.

Lemma run_turn_ok L s sid id p x ph received granted ks ws t : hole L s sid → L sid = None →
  owned s sid id p x (map (Writing id) ks) (map (Sent_part id) ws) → current_id x = Some id → line (after t) = line p →
  turn_ok (stream_limits o) frame ph received granted ks ws t → zlen received <= M →
  (action t = Continue → head_known (after t) (ks ++ map op_of (writes (effects t))) (ws ++ writes (effects t))) →
  inv o frame N M L (run_turn o complete s id t).
Proof using complete_ok total_ok count_ok.
  intros Hh HL Ho Hcur Hline Hok HM Hk. unfold run_turn.
  assert (session (line (after t)) = sid) as -> by (rewrite Hline; apply Ho).
  assert (∃ r, (length (ks ++ map op_of (writes (effects t))) <= 1)%nat ∧ on_wire r (ws ++ writes (effects t))) as (r & Hlen & Hwire).
  { unfold turn_ok in Hok. exists received. destruct (action t); try (by destruct Hok as (? & ? & _)).
    by destruct (live_on_wire _ _ _ _ _ _ _ _ Hok) as (? & ? & _). }
  destruct (turn_owned L s sid id p (after t) x ks ws (effects t) r Hh Ho Hline Hlen Hwire) as [Hh' Ho'].
  set (s' := fold_left _ _ _) in *. unfold turn_ok in Hok. destruct (action t) as [|reason| | | |] eqn:Ha.
  - eapply serving_ok; [done..| |by apply Hk|done]. by rewrite (live_phase _ _ _ _ _ _ _ _ Hok).
  - destruct Hok as (_ & _ & _ & _ & _ & Hr & _ & [?|E]); [done|]. rewrite E, (Hr reason eq_refl) in Ho'.
    unfold reject_response_head. rewrite (ow_request _ _ _ _ _ _ _ Ho'), (ow_session _ _ _ _ _ _ _ Ho').
    eapply answer_limbo_ok; [|done]. by eapply cancel_request_ok.
  - by eapply fail_request_ok.
  - destruct Hok as (_ & _ & _ & _ & _ & _ & Hc & [?|E]); [done|]. rewrite E in Ho'.
    unfold finalize_request. rewrite (ow_request _ _ _ _ _ _ _ Ho'). apply maybe_complete_ok. eapply leave_ok; [done..|by apply Hc].
  - destruct Hok as (_ & _ & _ & _ & He & _ & _ & [?|E]); [done|]. rewrite E in Ho'. unfold end_request_done.
    eapply leave_ok; [done..|]. destruct (He eq_refl) as (? & ? & ? & ? & ->). constructor.
  - by destruct Hok as (_ & _ & _ & ? & _).
Qed.

(** ** Worker events *)

(** What the worker may send next for a request. *)
Definition event_ok (s : Impl) (e : WorkerEvent) : Prop :=
  ∀ p, requests (table s) !! event_id e = Some p →
    match event_type e with
    | Event_kResponseHead => phase_of p = Phase_open ∧ 0 <= fixed_body_size e
    | Event_kResponseBody => phase_of p = Phase_head ∧ zlen (event_body e) <= frame
    | Event_kResponseEnd => phase_of p = Phase_head
    | _ => True
    end.

(** The turn of an event that writes after what is there, with [n] bytes of
    the body. *)
Lemma event_turn_ok L s id p n t : inv o frame N (M - n) L s → 0 <= n → requests (table s) !! id = Some p →
  line (after t) = line p → (head_sent (flags p) = true → head_sent (flags (after t)) = true) →
  (∀ received granted ks ws, live (stream_limits o) frame (phase_of p) p received granted ks ws → zlen received <= M - n →
     ∃ ph received', zlen received' <= zlen received + n ∧ turn_ok (stream_limits o) frame ph received' granted ks ws t) →
  inv o frame N M L (run_turn o complete s id t).
Proof using complete_ok total_ok count_ok.
  intros Hi Hn Hp Hline Hhead Ht.
  destruct (inv_serving (M - n) L s id p Hi) as (HL & Hh & x & received & granted & ks & ws & Ho & Hcur & Hlive & Hk & HM); [lia|done|].
  destruct (Ht _ _ _ _ Hlive HM) as (ph & received' & Hr & Hok). eapply run_turn_ok; [done..|lia|].
  intros Ha. unfold turn_ok in Hok. rewrite Ha in Hok.
  eapply head_known_turn; [done|by eapply live_nothing|done|done|by left].
Qed.

(** The bytes of the response body an event carries. *)
Definition event_bytes (e : WorkerEvent) : Z :=
  match event_type e with Event_kResponseBody => zlen (event_body e) | _ => 0 end.

Lemma response_event_ok L s e : inv o frame N (M - event_bytes e) L s → event_ok s e → M < 2 ^ 64 →
  match event_type e with
  | Event_kRequestCredit | Event_kResponseHead | Event_kResponseBody | Event_kResponseEnd =>
      inv o frame N M L (handle_worker_event o complete s e)
  | _ => True
  end.
Proof using complete_ok total_ok count_ok frame_ok threshold_ok.
  unfold event_ok, event_bytes, handle_worker_event. intros Hi He HM.
  assert (0 <= match event_type e with Event_kResponseBody => zlen (event_body e) | _ => 0 end) as Hn.
  { destruct (event_type e); try done. apply zlen_nonneg. }
  destruct (event_type e); try done; (destruct (requests (table s) !! event_id e) as [p|] eqn:Hp;
    [|eapply inv_mono; [exact Hi|lia..]]); specialize (He p eq_refl).
  - destruct (on_request_credit_keeps (event_id e) (event_credit e) p). eapply event_turn_ok; [done..|].
    intros received granted ks ws Hlive _. eexists _, received. split; [lia|]. by apply on_request_credit_ok.
  - destruct He as [Hph Hsize]. set (cors := session_cors _). set (n := streaming_inflight _).
    destruct (on_response_head_keeps (stream_limits o) cors n e p) as (H1 & H2 & _).
    destruct (on_response_head _ _ _ _ _) as [t m] eqn:E. cbn [fst] in *.
    eapply event_turn_ok; [by apply set_streaming_ok|done..|].
    intros received granted ks ws Hlive _. rewrite Hph in Hlive. eexists _, received. split; [lia|].
    replace t with (on_response_head (stream_limits o) cors n e p).1 by (by rewrite E).
    apply on_response_head_ok; [done|by eapply live_waiting|done].
  - destruct He as [Hph Hfr]. destruct (on_response_body_keeps (stream_limits o) (event_id e) (event_body e) p).
    eapply event_turn_ok; [done..|]. intros received granted ks ws Hlive Hr. rewrite Hph in Hlive.
    eexists _, (received ++ event_body e). rewrite zlen_app. split; [lia|]. apply on_response_body_ok; try done. rewrite zlen_app. lia.
  - destruct (on_response_end_keeps (stream_limits o) (event_id e) p). eapply event_turn_ok; [done..|].
    intros received granted ks ws Hlive _. rewrite He in Hlive. eexists _, received. split; [lia|]. by apply on_response_end_ok.
Qed.

Lemma abort_request_ok L s id st reason : inv o frame N M L s → inv o frame N M L (abort_request o complete s id st reason).
Proof using complete_ok total_ok count_ok.
  intros Hi. unfold abort_request. destruct (requests (table s) !! id) as [p|] eqn:Hp; [|done].
  destruct (inv_serving M L s id p Hi) as (HL & Hh & x & received & granted & ks & ws & Ho & Hcur & Hlive & Hk & HM); [done..|].
  pose proof (cancel_request_ok _ _ _ _ _ _ _ _ _ _ Hh Ho (λ _, conj eq_refl eq_refl)) as Hc.
  pose proof (close_limbo_ok _ _ _ _ Hc HL) as Hcl.
  destruct (head_sent (flags p) || writing (flags p)) eqn:E; [done|].
  apply orb_false_iff in E as [E1 E2]. destruct (live_quiet _ _ _ _ _ _ _ _ Hlive Hk E1 E2) as [-> ->].
  by apply answer_limbo_ok.
Qed.

Lemma on_request_timer_ok L s id : inv o frame N M L s → inv o frame N M L (on_request_timer o complete s id).
Proof using complete_ok total_ok count_ok.
  intros Hi. unfold on_request_timer. destruct (requests (table s) !! id) as [p|] eqn:Hp; [|done].
  destruct (inv_serving M L s id p Hi) as (HL & Hh & x & received & granted & ks & ws & Ho & _); [done..|].
  eapply close_limbo_ok; [|done]. by eapply cancel_request_ok.
Qed.

Lemma on_worker_exit_ok L s : inv o frame N M L s → inv o frame N M L (on_worker_exit o complete s).
Proof using complete_ok total_ok count_ok.
  intros Hi. unfold on_worker_exit. set (s1 := set_server_life s _).
  assert (inv o frame N M L s1) as H1 by (by apply set_life_ok).
  pose proof (abandon_all_ok L _ s1 H1 eq_refl) as H2. set (s2 := fold_left abandon _ _) in *.
  set (s3 := set_server_life _ _). assert (inv o frame N M L s3) as H3 by (eapply inv_aside; [exact H2|done..]).
  generalize (request_ids s3). clearbody s3. clear - H3 complete_ok total_ok count_ok. intros ids. revert s3 H3.
  induction ids as [|id ids IH]; intros s3 H3; [done|]. cbn [fold_left]. by apply IH, abort_request_ok.
Qed.

Lemma handle_worker_event_ok L s e : inv o frame N (M - event_bytes e) L s → event_ok s e → M < 2 ^ 64 →
  inv o frame N M L (handle_worker_event o complete s e).
Proof using complete_ok total_ok count_ok frame_ok threshold_ok.
  intros Hi He HM. pose proof (response_event_ok L s e Hi He HM) as H. unfold event_bytes in Hi.
  destruct (event_type e) eqn:E; try done; rewrite Z.sub_0_r in Hi; unfold handle_worker_event; rewrite E; try done;
    first [by apply abort_request_ok | by apply on_worker_exit_ok].
Qed.

Lemma on_probe_ok L s sid found : inv o frame N M L s → inv o frame N M L (on_probe o complete s sid found).
Proof using complete_ok total_ok count_ok.
  intros Hi. unfold on_probe. destruct (probe_active (session_at s sid)) eqn:Hp; [|done]. cbn [negb].
  destruct (heap (people s) !! sid) as [x|] eqn:Hx; [|by unfold session_at in Hp; rewrite Hx in Hp].
  rewrite (session_at_some _ _ _ Hx) in *. set (s1 := put_session s sid _).
  assert (inv o frame N M L s1) as H1 by (by eapply touch_ok).
  repeat case_match; try done; by apply close_ok.
Qed.

(** ** Completions *)

Lemma written_ok L s sid id k ec p x received granted ws : hole L s sid → L sid = None → M < 2 ^ 64 →
  owned s sid id p x [] (map (Sent_part id) ws) → current_id x = Some id →
  live (stream_limits o) frame (phase_of p) p received granted [k] ws → head_known p [k] ws → zlen received <= M →
  inv o frame N M L (run_turn o complete s id (on_written (stream_limits o) id k ec p)).
Proof using complete_ok total_ok count_ok frame_ok threshold_ok.
  intros Hh HL HM64 Ho Hcur Hlive Hk HM. set (t := on_written _ _ _ _ _).
  assert (turn_ok (stream_limits o) frame (phase_of p) received granted [] ws t) as Hok.
  { unfold t. destruct k; cbn [on_written].
    - apply on_head_written_ok; [done|lia].
    - apply on_block_written_ok; [done|done|done|lia].
    - by apply on_end_written_ok.
    - by apply on_fixed_written_ok. }
  destruct (on_written_keeps (stream_limits o) id k ec p) as [Hline _ Hhead]. fold t in Hline, Hhead.
  assert (ws ≠ []) as Hne by (intros ->; by apply live_nothing in Hlive).
  eapply (run_turn_ok L s sid id p x _ received granted [] ws t); try done. intros Ha. unfold turn_ok in Hok. rewrite Ha in Hok.
  eapply (head_known_turn _ _ p (after t) [k] []); [done|done|done|done|]. right.
  destruct Hk as [Hk|[[= ->]|[[= ->]|?]]]; [by apply Hhead| | |done].
  - unfold t in *. cbn [on_written] in *. destruct (on_head_written_keeps (stream_limits o) ec p) as [_ [?|?]]; congruence.
  - unfold t in Ha. cbn [on_written] in Ha. unfold on_fixed_written in Ha. by destruct (write_failed ec).
Qed.

Lemma complete_handler_ok L s n sid op r : inv o frame (N - 1) M L s → L sid = None → M < 2 ^ 64 →
  ops (outside s) !! n = Some (sid, op) → inv o frame N M L (on_complete o complete (completed s n) sid op r).
Proof using complete_ok total_ok count_ok frame_ok threshold_ok.
  intros Hi0 HL HM Hn. assert (inv o frame N M L s) as Hi by (eapply inv_mono; [exact Hi0|lia..]).
  pose proof (completed_hole _ _ _ _ _ Hi Hn) as Hh.
  assert (next_request_id (table (completed s n)) + zlen (queue (parked (completed s n))) <= N) as Hb.
  { destruct Hi0 as [[_ H _ _ _ _] _ _]. unfold completed. project_state. lia. }
  destruct (completed_cases _ _ _ _ _ Hi HL Hn) as (x & Hx & [[Hr Hnone]|(id & k & p & received & granted & ws & -> & Ho & Hcur & Hlive & Hk & Hrec)]).
  - pose proof (ready_limbo _ _ _ _ Hh Hr) as Hl.
    assert (inv o frame N M L (close_session o complete (completed s n) sid)) as Hclose.
    { eapply inv_ext, close_session_ok, Hl. intros sid'. unfold set_limbo. destruct (sid' =? sid) eqn:E; bools; [by subst|done]. }
    destruct op as [|keep|id k]; cbn [on_complete].
    + destruct r; [by eapply handle_request_ok|done..].
    + destruct r as [rq| |[]]; try done. destruct (_ && _); [by eapply read_request_ok|done].
    + destruct (Hnone id k eq_refl) as [E Hcl]. change (requests (table (completed s n))) with (requests (table s)). rewrite E.
      by eapply ready_closed.
  - cbn [on_complete]. rewrite (ow_request _ _ _ _ _ _ _ Ho). by eapply written_ok.
Qed.

(** ** Closing everything *)

Lemma close_all_ok L s : inv o frame N M L s → inv o frame N M L (close_all o complete s).
Proof using complete_ok total_ok count_ok.
  unfold close_all. generalize (session_ids s). intros ids. revert s.
  induction ids as [|sid ids IH]; intros s Hi; [done|]. cbn [fold_left]. apply IH. case_match; [by apply close_ok|done].
Qed.
End reentrant.

(** ** Drain and stop *)

Section drain.
Hypothesis total_ok : 0 <= M.

Lemma complete_drain_at_ok n : ∀ L s, inv o frame N M L s → inv o frame N M L (complete_drain_at o n s).
Proof using total_ok count_ok.
  induction n as [|n IH]; intros L s Hi; [done|]. cbn [complete_drain_at]. case_match; [done|].
  by apply call_ok, close_all_ok, set_life_ok.
Qed.

Lemma complete_drain_ok L s : inv o frame N M L s → inv o frame N M L (complete_drain o s).
Proof using total_ok count_ok. apply complete_drain_at_ok. Qed.

Lemma start_drain_ok L s ms : inv o frame N M L s → inv o frame N M L (start_drain_on_io o s ms).
Proof using total_ok count_ok.
  intros Hi. unfold start_drain_on_io. case_match; [done|]. apply maybe_complete_ok; [apply complete_drain_ok|].
  case_match; by repeat apply set_life_ok.
Qed.

Lemma on_drain_deadline_ok L s : inv o frame N M L s → inv o frame N M L (on_drain_deadline o s).
Proof using total_ok count_ok.
  intros Hi. unfold on_drain_deadline. case_match; [done|]. apply complete_drain_ok.
  apply close_all_ok; [done|apply complete_drain_ok|]. by apply set_life_ok.
Qed.

Lemma on_signal_ok L s : inv o frame N M L s → inv o frame N M L (on_signal o s).
Proof using total_ok count_ok.
  intros Hi. unfold on_signal. case_match; [done|]. apply call_ok.
  apply close_all_ok; [done|apply complete_drain_ok|]. by apply set_life_ok.
Qed.

(** A new connection. *)
Lemma on_accept_ok L s : inv o frame (N - 1) M L s → inv o frame N M L (on_accept s).
Proof using total_ok count_ok.
  intros Hi0. assert (inv o frame N M L s) as Hi by (eapply inv_mono; [exact Hi0|lia..]).
  unfold on_accept. case_match; [done|]. set (sid := next_session_id (people s)).
  destruct (i_numbered _ _ _ _ _ _ Hi0) as [N1 N2 N3 N4 N5 N6]. fold sid in N3, N5.
  assert (heap (people s) !! sid = None) as Hfresh.
  { destruct (heap (people s) !! sid) as [x|] eqn:E; [|done]. apply N5 in E. lia. }
  set (x := mkSession false false None None). set (s' := set_people s _).
  pose proof (i_sessions _ _ _ _ _ _ Hi sid) as Hs. unfold session_ok in Hs. rewrite Hfresh in Hs.
  destruct Hs as (HL & Hu & Ho & Hq & Hw).
  eapply (read_request_ok L s' sid x); [|split; try done; [unfold s'; project_state; by rewrite lookup_insert_eq|]|done].
  - eapply (hole_move L s); [by apply inv_hole| | |done|].
    + intros sid' Hne. split; try done. unfold s'. project_state. by rewrite lookup_insert_ne.
    + split; unfold s'; project_state; try done; [lia|rewrite u64_small; lia|]. intros sid' y. rewrite u64_small by lia.
      destruct (decide (sid' = sid)) as [->|Hne]; [lia|]. rewrite lookup_insert_ne by done. intros Hy. apply N5 in Hy. lia.
    + intros id [(y & Hy & Hid)|(k & Hk)]; [|left; right; by exists k]. unfold s' in Hy. project_state.
      rewrite lookup_insert_eq in Hy. by injection Hy as <-.
  - exists []. split_and!; [|by apply (partial_parts 0 [] []); constructor|done]. exists []. by split.
Qed.
End drain.
End steps.

(** What the invariant says of a session between two handlers. *)
Lemma session_ok_summary o frame M s sid : session_ok o frame s M no_limbo sid →
  (length (ops_of s sid) <= 1)%nat
  ∧ (∀ id id' p p', requests (table s) !! id = Some p → requests (table s) !! id' = Some p' →
       session (line p) = sid → session (line p') = sid → id = id')
  ∧ ∃ chunks last, wire_of s sid = List.concat chunks ++ last ∧ Forall complete_chunk chunks ∧ partial_chunk last
      ∧ (Reading ∈ ops_of s sid → closed (session_at s sid) = false → last = []).
Proof.
  unfold session_ok, session_at. destruct (heap (people s) !! sid) as [x|]; cbn [no_limbo].
  2: { intros (_ & Hu & -> & _ & ->). split_and!; [cbn; lia|intros id id' p p' Hp _ Hsid _; exfalso; by eapply Hu|].
       exists [], []. split_and!; try done. by apply (partial_parts 0 [] []); constructor. }
  intros (last & (chunks & Hw & Hch) & Hp & Hm).
  assert (unserved s sid → ∀ id id' p p', requests (table s) !! id = Some p → requests (table s) !! id' = Some p' →
            session (line p) = sid → session (line p') = sid → id = id') as Hu.
  { intros Hu id id' p p' Hr _ Hsid _. exfalso. by eapply Hu. }
  assert ((length (ops_of s sid) <= 1)%nat ∧ (∀ id id' p p', requests (table s) !! id = Some p → requests (table s) !! id' = Some p' →
            session (line p) = sid → session (line p') = sid → id = id') ∧ (Reading ∈ ops_of s sid → closed x = false → last = [])) as (H1 & H2 & H3).
  { destruct Hm as [id p received granted ks ws H1 H2 H3 H4 H5 H6 H7 H8 H9 H10|H1 -> H3 H4|e H1 -> H3 H4|keep r H1 -> H3 H4|H1 H2 H3 H4].
    - split_and!.
      + rewrite H8, length_map. by destruct (live_on_wire _ _ _ _ _ _ _ _ H5) as (_ & ? & _).
      + intros id1 id2 p1 p2 ? ? ? ?. transitivity id; [|symmetry]; by eapply H3.
      + rewrite H8. intros Hk%list_elem_of_fmap. by destruct Hk as (k & ? & _).
    - split_and!; [cbn; lia|by apply Hu|done].
    - split_and!; [cbn; lia|by apply Hu|by intros ?%not_elem_of_nil].
    - split_and!; [cbn; lia|by apply Hu|by intros ?%list_elem_of_singleton].
    - split_and!; [done|by apply Hu|congruence]. }
  split_and!; [done..|]. by exists chunks, last.
Qed.

(** ** Runs of the server *)

Section run.
Context (o : ServerOptions) (frame : Z).
Hypothesis threshold_ok : 0 <= credit_grant_threshold (stream_limits o) < 2 ^ 31.
Hypothesis frame_ok : 0 <= frame < 2 ^ 31.

(** The worker's events come in the order of the protocol, whatever else
    happens. *)
Definition label_ok (s : Impl) (l : ServerLabel) : Prop :=
  match l with Event e => event_ok frame s e | _ => True end.

Fixpoint run_ok (labels : list ServerLabel) (s : Impl) : Prop :=
  match labels with
  | [] => True
  | l :: rest => label_ok s l ∧ run_ok rest (server_step o s l)
  end.

Definition label_bytes (l : ServerLabel) : Z := match l with Event e => event_bytes e | _ => 0 end.
Definition run_bytes (labels : list ServerLabel) : Z := fold_right (λ l n, label_bytes l + n) 0 labels.

Lemma label_bytes_nonneg l : 0 <= label_bytes l.
Proof using. destruct l; try done. cbn. unfold event_bytes. case_match; try done. apply zlen_nonneg. Qed.

Lemma server_step_ok N M s l : inv o frame N M no_limbo s → label_ok s l → N + 3 < 2 ^ 64 → M + label_bytes l < 2 ^ 64 → 0 <= M →
  inv o frame (N + 1) (M + label_bytes l) no_limbo (server_step o s l).
Proof using threshold_ok frame_ok.
  intros Hi Hl HN HM Hpos. pose proof (label_bytes_nonneg l) as Hb. set (M' := M + label_bytes l) in *.
  assert (inv o frame (N + 1) M' no_limbo s) as Hi' by (eapply inv_mono; [exact Hi|lia..]).
  assert (∀ L s, inv o frame (N + 1) M' L s → inv o frame (N + 1) M' L (complete_drain o s)) as Hcd.
  { intros L s'. apply complete_drain_ok; lia. }
  destruct l; cbn [server_step].
  - apply on_accept_ok; [lia|lia|]. replace (N + 1 - 1) with N by lia. eapply inv_mono; [exact Hi|lia..].
  - unfold complete_op. destruct (ops (outside s) !! n) as [[sid op]|] eqn:E; [|done].
    apply (complete_handler_ok o frame (N + 1) M'); try done; try lia.
    replace (N + 1 - 1) with N by lia. eapply inv_mono; [exact Hi|lia..].
  - apply handle_worker_event_ok; try done; try lia. eapply inv_mono; [exact Hi|lia|]. cbn [label_bytes] in M'. lia.
  - by apply on_request_timer_ok; try done; lia.
  - by apply on_request_timer_ok; try done; lia.
  - unfold on_queue_timer. case_match; [done|]. by apply arm_queue_timer_ok, expire_loop_ok.
  - by apply on_drain_deadline_ok; try done; lia.
  - by apply on_probe_ok; try done; lia.
  - unfold begin_drain. case_match; [done|]. by apply set_life_ok.
  - by apply start_drain_ok; try done; lia.
  - unfold request_stop. case_match; [done|]. by apply call_ok, set_life_ok.
  - by apply on_signal_ok; try done; lia.
  - by apply set_life_ok.
Qed.

Lemma new_Impl_ok : inv o frame 0 0 no_limbo new_Impl.
Proof using.
  split.
  - by split.
  - intros sid id [(x & Hx & _)|(k & Hk)]; [cbn in Hx; by rewrite lookup_empty in Hx|]. by apply not_elem_of_nil in Hk.
  - intros sid. unfold session_ok. cbn. by rewrite lookup_empty.
Qed.

Lemma server_run_ok labels : ∀ N M s, inv o frame N M no_limbo s → run_ok labels s → 0 <= M →
  N + zlen labels + 2 < 2 ^ 64 → M + run_bytes labels < 2 ^ 64 →
  inv o frame (N + zlen labels) (M + run_bytes labels) no_limbo (server_run o labels s).
Proof using threshold_ok frame_ok.
  induction labels as [|l labels IH]; intros N M s Hi Hr HM HN Hb.
  { cbn. by rewrite !Z.add_0_r. }
  destruct Hr as [Hl Hr]. cbn [run_bytes fold_right] in *. fold (run_bytes labels) in *. rewrite zlen_cons in *.
  pose proof (label_bytes_nonneg l). pose proof (zlen_nonneg labels).
  assert (0 <= run_bytes labels) as Hrb.
  { clear. unfold run_bytes. induction labels as [|l labels IH]; cbn [fold_right]; [done|]. pose proof (label_bytes_nonneg l). lia. }
  replace (N + (1 + zlen labels)) with (N + 1 + zlen labels) by lia. rewrite Z.add_assoc. cbn [server_run fold_left].
  apply IH; [apply server_step_ok; try done; lia|done|lia..].
Qed.

(** The order of the worker's events, decided. *)
Definition event_okb (s : Impl) (e : WorkerEvent) : bool :=
  match requests (table s) !! event_id e with
  | None => true
  | Some p =>
      match event_type e with
      | Event_kResponseHead => bool_decide (phase_of p = Phase_open) && (0 <=? fixed_body_size e)
      | Event_kResponseBody => bool_decide (phase_of p = Phase_head) && (zlen (event_body e) <=? frame)
      | Event_kResponseEnd => bool_decide (phase_of p = Phase_head)
      | _ => true
      end
  end.

Fixpoint run_okb (labels : list ServerLabel) (s : Impl) : bool :=
  match labels with
  | [] => true
  | l :: rest => match l with Event e => event_okb s e | _ => true end && run_okb rest (server_step o s l)
  end.

Lemma event_okb_ok s e : event_okb s e = true → event_ok frame s e.
Proof using.
  unfold event_okb, event_ok. intros H p Hp. rewrite Hp in H. destruct (event_type e); try done.
  all: repeat match goal with
    | H : _ && _ = true |- _ => apply andb_true_iff in H as [? ?]
    | H : bool_decide _ = true |- _ => apply bool_decide_eq_true in H
    | H : (_ <=? _) = true |- _ => apply Z.leb_le in H
    end; by try split.
Qed.

Lemma run_okb_ok labels : ∀ s, run_okb labels s = true → run_ok labels s.
Proof using.
  induction labels as [|l labels IH]; intros s H; [done|]. cbn [run_okb] in H. apply andb_true_iff in H as [H1 H2].
  split; [|by apply IH]. destruct l; try done. by apply event_okb_ok.
Qed.
End run.


(** ** A run *)

Definition sample_server : ServerOptions :=
  mkServerOptions (bs "shop") sample_path_policy (mkCorsConfig false [] [] [] 0) 1 1 4096 1000 sample_limits true.

Definition sample_request : HttpRequest := mkHttpRequest (bs "GET") (bs "/@capsid/shop/a") [(bs "Host", bs "edge.example.com:8443")] [] true 11.

Definition sample_event (t : EventType) (id : Z) (status : Z) (hs : list (bytes * bytes)) (body : bytes) : ServerLabel :=
  Event (mkWorkerEvent t id 0 status false 0 hs body [] false [] [] [] [] []).

(** Two connections; the second request waits for the first one's slot, and
    the worker's end of the first response arrives while a block is written. *)
Definition sample_labels : list ServerLabel :=
  [Accepted; Accepted; Completed 0 (Read_request sample_request); Completed 0 (Read_request sample_request);
   sample_event Event_kResponseHead 1 200 [(bs "x-kind", bs "a")] []; sample_event Event_kResponseBody 1 0 [] (bs "hello");
   Completed 0 (Wrote Write_ok); sample_event Event_kResponseEnd 1 0 [] []; Completed 0 (Wrote Write_need_buffer);
   Completed 0 (Wrote Write_ok); sample_event Event_kResponseHead 2 200 [] []].


(** The last request of a drain times out before its answer began: the drain
    completes inside the cancellation and closes the connection, so the 504 the
    handler is about to send is lost. *)
Lemma drain_loses_last_answer :
  let labels := [Accepted; Completed 0 (Read_request sample_request); Drain_begun; Drain_posted 0;
                 sample_event Event_kRequestTimeout 1 0 [] []] in
  let s := server_run sample_server labels new_Impl in
  wire (outside s) = [] ∧ closed (session_at s 1) = true ∧ drain_finished (server_life s) = true
  ∧ map snd (wire (outside (server_run sample_server [Accepted; Completed 0 (Read_request sample_request);
       sample_event Event_kRequestTimeout 1 0 [] []] new_Impl)))
    = [Sent_own (mkCorsResponse 504 [(bs "content-type", bs "text/plain")] (bs "worker request timeout"))].
Proof. vm_compute. by split_and!. Qed.
