(* ===== verification/ServerAdmission.v ===== *)
(** * ServerAdmission: slots, queue and permits of the data plane

    What the admission gate of WorkerServer promises, in every state a run can
    reach: the table never holds more requests than there are inflight slots,
    the queue stays within its two bounds and its byte count is exact, no
    request waits while a slot is free, and the streaming permits in use are
    those the requests of the table hold. *)
From Stdlib Require Import ZArith Lia.
From stdpp Require Import sorting.
From S2P Require Import Prelude WorkerExecutor RequestNormalization ListenerCors ResponseStream WorkerServer ServerInvariants ServerSteps.
Local Open Scope Z_scope.

(** ** Fresh request ids *)

(** The candidates of the search, one after the other. *)
Definition skip_zero (n : Z) : Z := if n =? 0 then 1 else n.
Fixpoint candidate (k : nat) (next : Z) : Z :=
  match k with O => skip_zero next | S k => skip_zero (u64 (candidate k next + 1)) end.

Lemma candidate_pos k : ∀ next, 0 <= next < 2 ^ 64 →
  candidate k next = (skip_zero next - 1 + Z.of_nat k) mod (2 ^ 64 - 1) + 1.
Proof.
  induction k as [|k IH]; intros next Hn; cbn [candidate].
  - unfold skip_zero. destruct (next =? 0) eqn:E; bools; rewrite Z.add_0_r, Z.mod_small; lia.
  - rewrite (IH next Hn). set (c := skip_zero next - 1 + Z.of_nat k).
    replace (skip_zero next - 1 + Z.of_nat (S k)) with (c + 1) by lia.
    pose proof (Z.mod_pos_bound c (2 ^ 64 - 1) ltac:(lia)) as Hb.
    rewrite <- (Z.add_mod_idemp_l c) by lia. set (d := c mod (2 ^ 64 - 1)) in *.
    destruct (decide (d = 2 ^ 64 - 2)) as [->|Hne].
    + reflexivity.
    + rewrite u64_small by lia. rewrite (Z.mod_small (d + 1)) by lia. unfold skip_zero. by rewrite (proj2 (Z.eqb_neq _ _)) by lia.
Qed.

Lemma candidate_range k next : 0 <= next < 2 ^ 64 → 0 < candidate k next < 2 ^ 64.
Proof. intros Hn. rewrite candidate_pos by done. pose proof (Z.mod_pos_bound (skip_zero next - 1 + Z.of_nat k) (2 ^ 64 - 1) ltac:(lia)). lia. Qed.

Lemma candidate_inj i j next : 0 <= next < 2 ^ 64 → Z.of_nat i < 2 ^ 64 - 1 → Z.of_nat j < 2 ^ 64 - 1 →
  candidate i next = candidate j next → i = j.
Proof.
  intros Hn Hi Hj. rewrite !candidate_pos by done. intros H.
  assert ((skip_zero next - 1 + Z.of_nat i) mod (2 ^ 64 - 1) = (skip_zero next - 1 + Z.of_nat j) mod (2 ^ 64 - 1)) as E by lia.
  set (c := skip_zero next - 1) in *.
  assert ((c + Z.of_nat i - (c + Z.of_nat j)) mod (2 ^ 64 - 1) = 0) as Hd.
  { rewrite Zminus_mod, E, Z.sub_diag. done. }
  apply Z.mod_divide in Hd as [q Hq]; [|lia]. assert (q = 0) by nia. lia.
Qed.

Lemma candidate_shift k next : candidate k (u64 (skip_zero next + 1)) = candidate (S k) next.
Proof. induction k as [|k IH]; [done|]. cbn [candidate] in *. by rewrite IH. Qed.

Lemma next_free_first fuel next used :
  next_free fuel next used =
    match fuel with
    | O => (skip_zero next, u64 (skip_zero next + 1))
    | S fuel => match used !! skip_zero next with
                | Some _ => next_free fuel (u64 (skip_zero next + 1)) used
                | None => (skip_zero next, u64 (skip_zero next + 1))
                end
    end.
Proof. destruct fuel; cbn [next_free]; unfold skip_zero; by destruct (next =? 0) eqn:E; bools; [subst|]. Qed.

(** The search stops at the first candidate that is free, or has passed as
    many as there are requests. *)
Lemma next_free_spec fuel : ∀ next used, ∃ k, (k <= fuel)%nat ∧ (next_free fuel next used).1 = candidate k next
  ∧ (∀ i, (i < k)%nat → is_Some (used !! candidate i next)) ∧ ((k < fuel)%nat → used !! candidate k next = None).
Proof.
  induction fuel as [|fuel IH]; intros next used; rewrite next_free_first.
  { exists 0%nat. split_and!; [lia|done|intros; lia|lia]. }
  destruct (used !! skip_zero next) as [p|] eqn:E.
  - destruct (IH (u64 (skip_zero next + 1)) used) as (k & Hk & H1 & H2 & H3). exists (S k). rewrite candidate_shift in *.
    split_and!; [lia|done| |intros; apply H3; lia]. intros [|i] Hi; [by exists p|]. rewrite <- candidate_shift. apply H2. lia.
  - exists 0%nat. split_and!; [lia|done|intros; lia|done].
Qed.

(** A new id is free: the candidates passed are distinct, so one more than
    there are requests cannot all be taken. *)
Lemma next_free_fresh next (used : gmap Z PendingRequest) : 0 <= next < 2 ^ 64 → Z.of_nat (size used) < 2 ^ 64 - 1 →
  let id := (next_free (size used) next used).1 in used !! id = None ∧ 0 < id < 2 ^ 64.
Proof.
  intros Hn Hs. destruct (next_free_spec (size used) next used) as (k & Hk & H1 & H2 & H3). cbn zeta. rewrite H1.
  split; [|by apply candidate_range]. destruct (decide (k < size used)%nat) as [Hlt|Hge]; [by apply H3|].
  assert (k = size used) as Ek by lia. rewrite Ek in *. clear H1 H3 Hk Hge k Ek.
  destruct (used !! candidate (size used) next) as [p|] eqn:E; [|done]. exfalso.
  set (cs := list_to_set (map (λ i, candidate i next) (seq 0 (S (size used)))) : gset Z).
  assert (cs ⊆ dom used) as Hsub.
  { intros c Hc. apply elem_of_list_to_set, list_elem_of_fmap in Hc as (i & -> & Hi). apply elem_of_seq in Hi.
    apply elem_of_dom. destruct (decide (i = size used)) as [->|Hne]; [by exists p|]. apply H2. lia. }
  apply subseteq_size in Hsub. rewrite size_dom in Hsub. unfold cs in Hsub.
  rewrite size_list_to_set in Hsub; [rewrite length_map, length_seq in Hsub; lia|].
  apply NoDup_fmap_2_strong; [|apply NoDup_seq]. intros i j Hi%elem_of_seq Hj%elem_of_seq. apply candidate_inj; lia.
Qed.

(** ** Permits *)

Definition holder (kv : Z * PendingRequest) : Prop := holds_streaming_permit (timers kv.2) = true.
#[export] Instance holder_dec kv : Decision (holder kv).
Proof. unfold holder. apply _. Defined.

Definition held (m : gmap Z PendingRequest) : Z := Z.of_nat (size (filter holder m)).

Definition permit (p : PendingRequest) : Z := if holds_streaming_permit (timers p) then 1 else 0.

Lemma held_insert m id p : m !! id = None → held (<[id := p]> m) = held m + permit p.
Proof.
  intros H. unfold held, permit. destruct (holds_streaming_permit (timers p)) eqn:E.
  - rewrite map_filter_insert_True by done. rewrite map_size_insert_None; [lia|]. by apply map_lookup_filter_None; left.
  - rewrite map_filter_insert_False by (unfold holder; cbn; congruence). rewrite delete_id by done. lia.
Qed.

Lemma held_delete m id p : m !! id = Some p → held m = held (delete id m) + permit p.
Proof. intros H. rewrite <- (insert_delete_id m id p H) at 1. by apply held_insert, lookup_delete_eq. Qed.

Lemma held_update m id p q : m !! id = Some p → held (<[id := q]> m) = held m - permit p + permit q.
Proof.
  intros H. rewrite (held_delete m id p H), <- insert_delete_eq. rewrite held_insert by apply lookup_delete_eq. lia.
Qed.

Lemma held_nonneg m : 0 <= held m.
Proof. unfold held. lia. Qed.

(** ** Accounts *)

Definition parked_bytes (q : list QueuedRequest) : Z := fold_right (λ e n, q_bytes e + n) 0 q.

Lemma parked_bytes_app q k : parked_bytes (q ++ k) = parked_bytes q + parked_bytes k.
Proof. unfold parked_bytes. induction q as [|e q IH]; cbn [app fold_right]; lia. Qed.

Section accounts.
Context (o : ServerOptions) (N : Z).
Hypothesis count_ok : N < 2 ^ 64 - 1.
Hypothesis queue_ok : 0 <= max_queue_requests o.
Hypothesis streaming_ok : 0 <= max_streaming_inflight (stream_limits o) < 2 ^ 64.

Record acct (s : Impl) : Prop := {
  a_next : 0 <= next_request_id (table s) < 2 ^ 64;
  a_count : Z.of_nat (size (requests (table s))) + zlen (queue (parked s)) <= N;
  a_inflight : max_inflight o ≠ 0 → Z.of_nat (size (requests (table s))) <= max_inflight o;
  a_queue : zlen (queue (parked s)) <= max_queue_requests o;
  a_bytes : queue_bytes (parked s) = parked_bytes (queue (parked s));
  a_cap : max_queue_header_bytes o ≠ 0 → queue_bytes (parked s) <= max_queue_header_bytes o;
  a_each : Forall (λ e, 0 <= q_bytes e) (queue (parked s));
  a_permits : streaming_inflight (table s) = held (requests (table s));
  a_streams : streaming_inflight (table s) <= max_streaming_inflight (stream_limits o);
  a_open : ∀ id p, requests (table s) !! id = Some p → phase_of p = Phase_open → holds_streaming_permit (timers p) = false
}.

(** No request waits while a slot is free. *)
Definition busy (s : Impl) : Prop := queue (parked s) = [] ∨ slot_free o s = false.

Definition good (s : Impl) : Prop := acct s ∧ busy s.

(** The accounts are those of the table and the queue. *)
Lemma acct_same s s' : acct s → table s' = table s → queue (parked s') = queue (parked s) →
  queue_bytes (parked s') = queue_bytes (parked s) → acct s'.
Proof using. intros [] Ht Hq Hb. by split; rewrite ?Ht, ?Hq, ?Hb. Qed.

Lemma good_same s s' : good s → table s' = table s → queue (parked s') = queue (parked s) →
  queue_bytes (parked s') = queue_bytes (parked s) → good s'.
Proof using.
  intros [Ha Hb] Ht Hq Hn. split; [by eapply acct_same|]. unfold busy, slot_free in *. by rewrite Ht, Hq.
Qed.

Lemma send_simple_good s sid st body keep : good s → good (send_simple s sid st body keep).
Proof using.
  intros H. unfold send_simple. set (r := match session_cors _ with Some _ => _ | None => _ end).
  destruct (put_wire_frame s sid (Sent_own r)) as (Ht & Hp & _). eapply good_same; [exact H|..]; project_state; by rewrite ?Ht, ?Hp.
Qed.

Lemma send_simple_acct s sid st body keep : acct s → acct (send_simple s sid st body keep).
Proof using.
  intros H. unfold send_simple. set (r := match session_cors _ with Some _ => _ | None => _ end).
  destruct (put_wire_frame s sid (Sent_own r)) as (Ht & Hp & _). eapply acct_same; [exact H|..]; project_state; by rewrite ?Ht, ?Hp.
Qed.

(** A request leaves the table. *)
Lemma erase_acct s id p : acct s → requests (table s) !! id = Some p → acct (erase_request s id p).
Proof using streaming_ok.
  intros [H1 H2 H3 H4 H5 H6 H7 H8 H9 H10] Hp. assert (size (delete id (requests (table s))) = pred (size (requests (table s)))) as Hs.
  { by rewrite map_size_delete, Hp. }
  assert ((release_streaming_permit (streaming_inflight (table s)) p).2 = held (delete id (requests (table s)))) as Hr.
  { unfold release_streaming_permit. pose proof (held_delete _ _ _ Hp) as Hd. pose proof (held_nonneg (delete id (requests (table s)))).
    unfold permit in Hd. destruct (holds_streaming_permit (timers p)); cbn [negb snd]; [|lia]. rewrite u64_small; lia. }
  pose proof (held_delete _ _ _ Hp) as Hd. unfold permit in Hd.
  split; unfold erase_request; project_state; rewrite ?Hs, ?Hr; try done; [lia|intros; specialize (H3 ltac:(done)); lia| |].
  - destruct (holds_streaming_permit _); lia.
  - intros id' p' [_ Hr']%lookup_delete_Some. by apply (H10 id' p').
Qed.

(** The queue gets shorter. *)
Lemma shorter_acct s q n t : acct s → zlen q <= zlen (queue (parked s)) → n = parked_bytes q → n <= queue_bytes (parked s) →
  Forall (λ e, 0 <= q_bytes e) q → acct (set_parked s (mkParked q n t)).
Proof using. intros [? ? ? ? ? Hcap ? ? ? ?] Hq Hn Hle He. split; project_state; try done; [lia..|]. intros Hc. specialize (Hcap Hc). lia. Qed.

(** ** A request enters the table *)

Lemma next_free_range fuel : ∀ next used, 0 <= (next_free fuel next used).2 < 2 ^ 64.
Proof using.
  assert (∀ n, 0 <= u64 n < 2 ^ 64) as Hu by (intros n; apply u64_range).
  induction fuel as [|fuel IH]; intros next used; rewrite next_free_first; [apply Hu|]. case_match; [apply IH|apply Hu].
Qed.

Lemma begin_table s id sid rq nz : ∃ p, holds_streaming_permit (timers p) = false
  ∧ table (start_disconnect_probe (begin_request o (set_current s sid (Some id)) id sid rq nz) sid)
    = mkInflightTable (<[id := p]> (requests (table s))) (streaming_inflight (table s)) (next_request_id (table s))
  ∧ parked (start_disconnect_probe (begin_request o (set_current s sid (Some id)) id sid rq nz) sid) = parked s.
Proof using.
  unfold begin_request, start_disconnect_probe, set_current. set (x := session_at s sid). clearbody x.
  destruct (bodyless_enabled o && _); case_match; eexists; split_and!; project_state; rewrite ?insert_insert_eq; try reflexivity; done.
Qed.

(** A parked or arriving request takes a free slot. *)
Lemma start_acct s sid rq nz : acct s → slot_free o s = true → Z.of_nat (size (requests (table s))) + 1 + zlen (queue (parked s)) <= N →
  let '(id, s1) := allocate_request_id o s in
  id ≠ 0 ∧ let s' := start_disconnect_probe (begin_request o (set_current s1 sid (Some id)) id sid rq nz) sid in
           acct s' ∧ parked s' = parked s.
Proof using count_ok.
  intros [H1 H2 H3 H4 H5 H6 H7 H8 H9 H10] Hf Hc. unfold allocate_request_id. rewrite Hf. cbn [negb].
  destruct (next_free_fresh (next_request_id (table s)) (requests (table s))) as [Hn Hr]; [done|pose proof (zlen_nonneg (queue (parked s))); lia|].
  pose proof (next_free_range (size (requests (table s))) (next_request_id (table s)) (requests (table s))) as Hx.
  destruct (next_free _ _ _) as [id next]. cbn [fst snd] in *. split; [lia|]. set (s1 := set_table s _).
  destruct (begin_table s1 id sid rq nz) as (p & Hp & Ht & Hk). split; [|by rewrite Hk].
  assert (size (<[id := p]> (requests (table s))) = S (size (requests (table s)))) as Hs by (by apply map_size_insert_None).
  split; rewrite ?Ht, ?Hk; subst s1; project_state; rewrite ?Hs; try done; [lia|..].
  - intros Hm. unfold slot_free in Hf. rewrite (proj2 (Z.eqb_neq _ _) Hm) in Hf. bools. lia.
  - rewrite held_insert by done. unfold permit. rewrite Hp. lia.
  - intros id' p'. destruct (decide (id' = id)) as [->|Hne]; [rewrite lookup_insert_eq; by intros [= <-]|].
    rewrite lookup_insert_ne by done. apply H10.
Qed.

(** ** The queue *)

Lemma pop_acct s e rest t : acct s → queue (parked s) = e :: rest →
  acct (set_parked s (mkParked rest (queue_bytes (parked s) - q_bytes e) t)).
Proof using.
  intros Ha Hq. destruct (Ha) as [_ _ _ _ Hb _ He _ _ _]. rewrite Hq in Hb, He. apply Forall_cons in He as [He1 He2].
  unfold parked_bytes in Hb. cbn [fold_right] in Hb. fold (parked_bytes rest) in Hb.
  apply shorter_acct; [done|rewrite Hq, zlen_cons; lia|lia|lia|done].
Qed.

Lemma pump_entry_acct s e rest t : acct s → queue (parked s) = e :: rest → slot_free o s = true →
  let s' := pump_entry o (set_parked s (mkParked rest (queue_bytes (parked s) - q_bytes e) t)) e in
  acct s' ∧ queue (parked s') = rest.
Proof using count_ok.
  intros Ha Hq Hf. pose proof (pop_acct s e rest t Ha Hq) as Hp. pose proof (a_count _ Ha) as Hcount. rewrite Hq, zlen_cons in Hcount.
  set (s1 := set_parked s _) in *. assert (slot_free o s1 = true) as Hf1 by done. assert (queue (parked s1) = rest) as Hq1 by done.
  assert (Z.of_nat (size (requests (table s1))) + 1 + zlen (queue (parked s1)) <= N) as Hc1 by (rewrite Hq1; unfold s1; project_state; lia).
  clearbody s1. unfold pump_entry.
  assert (∀ st body keep, let s' := if closed (session_at s1 (q_session e)) then s1 else send_simple s1 (q_session e) st body keep in
            acct s' ∧ queue (parked s') = rest) as Hans.
  { intros st body keep. case_match; [done|]. split; [by apply send_simple_acct|].
    unfold send_simple. set (r := match session_cors _ with Some _ => _ | None => _ end).
    destruct (put_wire_frame s1 (q_session e) (Sent_own r)) as (_ & Hpk & _). project_state. by rewrite Hpk. }
  destruct (match q_deadline e with Some d => _ | None => _ end); [apply Hans|].
  pose proof (start_acct s1 (q_session e) (q_request e) (q_normalized e) Hp Hf1 Hc1) as Hst.
  destruct (allocate_request_id o s1) as [id s2]. destruct Hst as (Hid & Hs & Hk). rewrite (proj2 (Z.eqb_neq _ _) Hid).
  split; [done|]. by rewrite Hk.
Qed.

(** After the pump no request waits while a slot is free. *)
Lemma pump_loop_good fuel : ∀ s, acct s → (length (queue (parked s)) <= fuel)%nat → good (pump_loop o fuel s).
Proof using count_ok.
  induction fuel as [|fuel IH]; intros s Ha Hf; cbn [pump_loop].
  { split; [done|]. left. apply nil_length_inv. lia. }
  destruct (queue (parked s)) as [|e rest] eqn:Hq; [split; [done|by left]|].
  destruct (slot_free o s) eqn:Hs; [|split; [done|by right]].
  destruct (pump_entry_acct s e rest (queue_timer (parked s)) Ha Hq Hs) as [Ha' Hq'].
  apply IH; [done|]. rewrite Hq'. cbn [length] in Hf. lia.
Qed.

Lemma remove_session_acct sid q : ∀ n, n = parked_bytes q → Forall (λ e, 0 <= q_bytes e) q →
  let '(q', n') := remove_session sid q n in
  zlen q' <= zlen q ∧ n' = parked_bytes q' ∧ n' <= n ∧ Forall (λ e, 0 <= q_bytes e) q' ∧ (q = [] → q' = []).
Proof using.
  induction q as [|e q IH]; intros n Hn He; cbn [remove_session]; [done|]. apply Forall_cons in He as [He1 He2].
  unfold parked_bytes in Hn. cbn [fold_right] in Hn. fold (parked_bytes q) in Hn. destruct (q_session e =? sid).
  - split_and!; [rewrite zlen_cons; lia|lia|lia|done|done].
  - assert (∀ m, let '(q1, n1) := remove_session sid q m in let '(q2, n2) := remove_session sid q (m - q_bytes e) in
              q1 = q2 ∧ n1 = n2 + q_bytes e) as Hshift.
    { clear. induction q as [|e' q IH]; intros m; cbn [remove_session]; [split; [done|lia]|]. destruct (q_session e' =? sid); [split; [done|lia]|].
      specialize (IH m). destruct (remove_session sid q m) as [q1 n1], (remove_session sid q (m - q_bytes e)) as [q2 n2].
      destruct IH as [-> ->]. done. }
    specialize (Hshift n). specialize (IH (n - q_bytes e) ltac:(lia) He2).
    destruct (remove_session sid q n) as [q1 n1], (remove_session sid q (n - q_bytes e)) as [q2 n2].
    destruct Hshift as [-> ->], IH as (I1 & I2 & I3 & I4 & _). split_and!; [rewrite !zlen_cons; lia| |lia|by constructor|done].
    unfold parked_bytes. cbn [fold_right]. fold (parked_bytes q2). lia.
Qed.

Lemma cancel_queued_good s sid : good s → good (cancel_queued s sid).
Proof using.
  intros [Ha Hb]. unfold cancel_queued. destruct (Ha) as [_ _ _ _ Hby _ He _ _ _].
  pose proof (remove_session_acct sid _ _ Hby He) as Hr. destruct (remove_session _ _ _) as [q n].
  destruct Hr as (R1 & R2 & R3 & R4 & R5). split; [by apply shorter_acct|].
  destruct Hb as [Hb|Hb]; [left; by apply R5|by right].
Qed.

(** ** Handlers that may complete a drain *)

Lemma call_good s op : good s → good (call s op).
Proof using. intros H. by eapply good_same. Qed.

Lemma read_request_good s sid : good s → good (read_request s sid).
Proof using. intros H. by eapply good_same. Qed.

Lemma put_session_good s sid x : good s → good (put_session s sid x).
Proof using. intros H. by eapply good_same. Qed.

Lemma drop_good s sid : good s → good (drop_session s sid).
Proof using. intros H. by eapply good_same. Qed.

Lemma life_good s l : good s → good (set_server_life s l).
Proof using. intros H. by eapply good_same. Qed.

Lemma arm_queue_timer_good s : good s → good (arm_queue_timer o s).
Proof using. intros H. by eapply good_same. Qed.

(** A request of the table goes on. *)
Lemma effects_good id sid es : ∀ s, good s → good (fold_left (apply_effect id sid) es s).
Proof using.
  induction es as [|e es IH]; intros s H; [done|]. cbn [fold_left]. apply IH. destruct e as [c|r|w]; cbn [apply_effect]; [by apply call_good..|].
  destruct (put_wire_frame s sid (Sent_part id w)) as (Ht & Hp & _). eapply good_same; [exact H|..]; project_state; by rewrite ?Ht, ?Hp.
Qed.

Lemma put_request_good s id p q n : good s → requests (table s) !! id = Some p → (phase_of q = Phase_open → holds_streaming_permit (timers q) = false) → n = streaming_inflight (table s) - permit p + permit q →
  n <= max_streaming_inflight (stream_limits o) → good (put_request (set_streaming s n) id q).
Proof using.
  intros [[H1 H2 H3 H4 H5 H6 H7 H8 H9 H10] Hb] Hp Hopen Hn Hle.
  assert (size (<[id := q]> (requests (table s))) = size (requests (table s))) as Hs by (rewrite map_size_insert, Hp; done).
  split.
  - split; project_state; rewrite ?Hs; try done; [rewrite (held_update _ _ _ _ Hp); lia|].
    intros id' p'. destruct (decide (id' = id)) as [->|Hne]; [rewrite lookup_insert_eq; by intros [= <-]|].
    rewrite lookup_insert_ne by done. apply H10.
  - unfold busy, slot_free in *. project_state. by rewrite Hs.
Qed.

Lemma set_streaming_same s : set_streaming s (streaming_inflight (table s)) = s.
Proof using. by destruct s as [[] ? ? ? ?]. Qed.

Section reentrant.
Context (complete : Impl → Impl).
Hypothesis complete_good : ∀ s, good s → good (complete s).

Lemma maybe_complete_good s : good s → good (maybe_complete_drain complete s).
Proof using complete_good. intros H. unfold maybe_complete_drain. do 2 (case_match; [done|]). by apply complete_good. Qed.

Lemma pump_queue_good s : acct s → good (pump_queue o complete s).
Proof using complete_good count_ok. intros H. by apply maybe_complete_good, arm_queue_timer_good, pump_loop_good. Qed.

Lemma cancel_request_good s id : good s → good (cancel_request o complete s id).
Proof using complete_good count_ok streaming_ok.
  intros [Ha Hb]. unfold cancel_request. destruct (requests (table s) !! id) as [p|] eqn:E; [|done].
  apply maybe_complete_good, pump_queue_good. eapply acct_same; [by eapply erase_acct|done..].
Qed.

Lemma close_session_good s sid : good s → good (close_session o complete s sid).
Proof using complete_good count_ok streaming_ok.
  intros H. unfold close_session. case_match; [done|]. apply drop_good.
  set (s1 := cancel_queued _ sid). assert (good s1) as H1 by (by apply cancel_queued_good, put_session_good).
  case_match; [|done]. by apply put_session_good, cancel_request_good.
Qed.

Lemma resume_good s sid keep : good s → good (resume_session o complete s sid keep).
Proof using complete_good count_ok streaming_ok.
  intros H. unfold resume_session. case_match; [done|]. case_match; [by apply read_request_good|by apply close_session_good].
Qed.

Lemma end_request_good s id sid p : good s → requests (table s) !! id = Some p → good (end_request_done o complete s id sid p).
Proof using complete_good count_ok streaming_ok. intros [Ha _] Hp. by apply resume_good, pump_queue_good, erase_acct. Qed.

(** A turn of a request, from the state in which its request is stored. *)
Lemma run_turn_good s id t : good (put_request s id (after t)) → good (run_turn o complete s id t).
Proof using complete_good count_ok streaming_ok.
  intros H. unfold run_turn. set (sid := session _). pose proof (effects_good id sid (effects t) _ H) as He.
  assert (requests (table (fold_left (apply_effect id sid) (effects t) (put_request s id (after t)))) !! id = Some (after t)) as Hr.
  { assert (∀ es s', table (fold_left (apply_effect id sid) es s') = table s') as Ht.
    { induction es as [|e es IH]; intros s'; [done|]. cbn [fold_left]. rewrite IH. destruct e as [| |w]; try done. cbn [apply_effect].
      project_state. by destruct (put_wire_frame s' sid (Sent_part id w)) as (-> & _). }
    rewrite Ht. project_state. by rewrite lookup_insert_eq. }
  set (s' := fold_left _ _ _) in *. clearbody s'. destruct (action t) as [|reason| | | |].
  - done.
  - unfold reject_response_head. rewrite Hr. case_match; [by apply cancel_request_good|]. by apply send_simple_good, cancel_request_good.
  - unfold fail_request. case_match; [by apply cancel_request_good|]. by apply close_session_good, cancel_request_good.
  - unfold finalize_request. rewrite Hr. by apply maybe_complete_good, end_request_good.
  - by apply end_request_good.
  - by apply life_good.
Qed.

(** A turn that keeps the permit. *)
Lemma keeping_turn_good s id p t : good s → requests (table s) !! id = Some p → keeps p (after t) → good (run_turn o complete s id t).
Proof using complete_good count_ok streaming_ok.
  intros H Hp [_ Hk _ Hph]. apply run_turn_good. rewrite <- (set_streaming_same s). eapply put_request_good; [done..| | |].
  - intros Ho. rewrite Hk. eapply (a_open _ (proj1 H)); [done|]. by apply Hph.
  - unfold permit. rewrite Hk. lia.
  - apply (a_streams _ (proj1 H)).
Qed.

Lemma head_turn_good s e p : good s → requests (table s) !! event_id e = Some p → phase_of p = Phase_open →
  let '(t, n) := on_response_head (stream_limits o) (session_cors (session_at s (session (line p)))) (streaming_inflight (table s)) e p in
  good (run_turn o complete (set_streaming s n) (event_id e) t).
Proof using complete_good count_ok streaming_ok.
  intros H Hp Hph. set (cors := session_cors _). set (m := streaming_inflight _).
  destruct (on_response_head_keeps (stream_limits o) cors m e p) as (_ & _ & Hk).
  destruct (on_response_head _ _ _ _ _) as [t n]. cbn [fst snd] in Hk. apply run_turn_good.
  pose proof (a_open _ (proj1 H) _ _ Hp Hph) as Hno. pose proof (a_streams _ (proj1 H)) as Hle.
  eapply put_request_good; [done..| | |]; destruct Hk as [(-> & Hk & _)|(Hmax & Hlt & -> & Hk & Hne)]; try done.
  - by rewrite Hk.
  - unfold permit. rewrite Hk. lia.
  - unfold permit. rewrite Hk, Hno. pose proof (held_nonneg (requests (table s))). rewrite <- (a_permits _ (proj1 H)) in *.
    rewrite u64_small; unfold m in *; lia.
  - pose proof (held_nonneg (requests (table s))). rewrite <- (a_permits _ (proj1 H)) in *. rewrite u64_small; unfold m in *; lia.
Qed.

Lemma abort_good s id st reason : good s → good (abort_request o complete s id st reason).
Proof using complete_good count_ok streaming_ok.
  intros H. unfold abort_request. case_match; [|done]. repeat case_match;
    first [by apply cancel_request_good | by apply close_session_good, cancel_request_good | by apply send_simple_good, cancel_request_good].
Qed.

Lemma abandon_good q : ∀ s, good s → queue (parked s) = q → good (fold_left abandon q s).
Proof using.
  induction q as [|e rest IH]; intros s H Hq; [done|]. cbn [fold_left]. apply IH; unfold abandon; rewrite Hq; cbn [tail].
  - set (s1 := set_parked s _). assert (good s1) as H1.
    { destruct H as [Ha Hb]. split; [by apply pop_acct|]. destruct Hb as [Hb|Hb]; [by rewrite Hb in Hq|by right]. }
    case_match; [done|]. by apply send_simple_good.
  - case_match; [done|]. unfold send_simple. set (r := match session_cors _ with Some _ => _ | None => _ end).
    set (s1 := set_parked s _). destruct (put_wire_frame s1 (q_session e) (Sent_own r)) as (_ & Hp & _). project_state. by rewrite Hp.
Qed.

Lemma worker_exit_good s : good s → good (on_worker_exit o complete s).
Proof using complete_good count_ok streaming_ok.
  intros H. unfold on_worker_exit. set (s1 := set_server_life s _). assert (good s1) as H1 by (by apply life_good).
  pose proof (abandon_good _ s1 H1 eq_refl) as H2. set (s2 := fold_left abandon _ _) in *. set (s3 := set_server_life _ _).
  assert (good s3) as H3 by (eapply good_same; [exact H2|done..]). generalize (request_ids s3). intros ids. clearbody s3. clear -H3 complete_good count_ok streaming_ok.
  revert s3 H3. induction ids as [|id ids IH]; intros s3 H3; [done|]. cbn [fold_left]. by apply IH, abort_good.
Qed.

Lemma worker_event_good frame s e : good s → event_ok frame s e → good (handle_worker_event o complete s e).
Proof using complete_good count_ok streaming_ok.
  intros H He. unfold event_ok, handle_worker_event in *. destruct (event_type e); try done;
    try (destruct (requests (table s) !! event_id e) as [p|] eqn:Hp; [|done]).
  - eapply keeping_turn_good; [done..|apply on_request_credit_keeps].
  - destruct (He p eq_refl) as [Hph _]. pose proof (head_turn_good s e p H Hp Hph) as Hh. by destruct (on_response_head _ _ _ _ _).
  - eapply keeping_turn_good; [done..|apply on_response_body_keeps].
  - eapply keeping_turn_good; [done..|apply on_response_end_keeps].
  - by apply worker_exit_good || by apply abort_good.
  - by apply worker_exit_good || by apply abort_good.
  - by apply worker_exit_good || by apply abort_good.
Qed.

Lemma on_probe_good s sid found : good s → good (on_probe o complete s sid found).
Proof using complete_good count_ok streaming_ok.
  intros H. unfold on_probe. case_match; [done|]. set (s1 := put_session s sid _). assert (good s1) as H1 by (by apply put_session_good).
  repeat case_match; try done; by apply close_session_good.
Qed.

Lemma close_all_good s : good s → good (close_all o complete s).
Proof using complete_good count_ok streaming_ok.
  unfold close_all. generalize (session_ids s). intros ids. revert s. induction ids as [|sid ids IH]; intros s H; [done|].
  cbn [fold_left]. apply IH. case_match; [by apply close_session_good|done].
Qed.
End reentrant.

(** ** Drain and stop *)

Lemma complete_drain_at_good n : ∀ s, good s → good (complete_drain_at o n s).
Proof using count_ok streaming_ok.
  induction n as [|n IH]; intros s H; [done|]. cbn [complete_drain_at]. case_match; [done|].
  by apply call_good, close_all_good, life_good.
Qed.

Lemma complete_drain_good s : good s → good (complete_drain o s).
Proof using count_ok streaming_ok. apply complete_drain_at_good. Qed.

Lemma expire_loop_good fuel : ∀ s, good s → good (expire_loop fuel s).
Proof using.
  induction fuel as [|fuel IH]; intros s H; [done|]. cbn [expire_loop]. destruct (queue (parked s)) as [|e rest] eqn:Hq; [done|].
  destruct (q_deadline e); [|done]. case_match; [|done]. apply IH. set (s1 := set_parked s _).
  assert (good s1) as H1. { destruct H as [Ha Hb]. split; [by apply pop_acct|]. destruct Hb as [Hb|Hb]; [congruence|by right]. }
  case_match; [done|]. by apply send_simple_good.
Qed.
End accounts.

(** ** A request arrives *)

Section arrive.
Context (o : ServerOptions) (N : Z).
Hypothesis count_ok : N + 1 < 2 ^ 64 - 1.
Hypothesis queue_ok : 0 <= max_queue_requests o.

Lemma good_mono N' s : good o N s → N <= N' → good o N' s.
Proof using. intros [[] Hb] HN. split; [split; try done; lia|done]. Qed.

Lemma estimate_nonneg rq : 0 <= estimate_request_bytes rq.
Proof using.
  unfold estimate_request_bytes. assert (∀ (fs : list (bytes * bytes)) n, 0 <= n → 0 <= fold_left (λ n f, n + zlen f.1 + zlen f.2 + 4) fs n) as H.
  { induction fs as [|f fs IH]; intros n Hn; [done|]. cbn [fold_left]. apply IH. pose proof (zlen_nonneg f.1). pose proof (zlen_nonneg f.2). lia. }
  apply H. pose proof (zlen_nonneg (rq_method rq)). pose proof (zlen_nonneg (rq_target rq)). pose proof (zlen_nonneg (rq_body rq)). lia.
Qed.

Lemma arrive_good s sid rq nz : good o N s →
  good o (N + 1)
    (match admit_request o s sid rq nz with
     | (kAccepted, s) =>
         let '(id, s) := allocate_request_id o s in
         if id =? 0 then send_simple s sid 503 (bs "no worker request slots available") (rq_keep_alive rq)
         else start_disconnect_probe (begin_request o (set_current s sid (Some id)) id sid rq nz) sid
     | (kQueued, s) => s
     | (kQueueFull, s) => send_simple s sid 429 (bs "app queue full") (rq_keep_alive rq)
     end).
Proof using count_ok queue_ok.
  intros Hg. assert (good o (N + 1) s) as Hg' by (eapply good_mono; [exact Hg|lia]). unfold admit_request.
  destruct (bool_decide (queue (parked s) = []) && slot_free o s) eqn:E.
  - apply andb_true_iff in E as [Hq Hf]. apply bool_decide_eq_true in Hq. pose proof (a_count _ _ _ (proj1 Hg)) as Hc.
    pose proof (start_acct o (N + 1) count_ok s sid rq nz (proj1 Hg') Hf ltac:(lia)) as Hst.
    destruct (allocate_request_id o s) as [id s1]. destruct Hst as (Hid & Ha & Hk). rewrite (proj2 (Z.eqb_neq _ _) Hid).
    split; [done|]. left. by rewrite Hk.
  - destruct (max_queue_requests o =? 0) eqn:E0; [by apply send_simple_good|].
    destruct ((max_queue_requests o <=? _) || _) eqn:E1; [by apply send_simple_good|]. apply orb_false_iff in E1 as [E1 E2]. bools.
    set (e := mkQueuedRequest _ _ _ _ _). apply arm_queue_timer_good.
    destruct Hg as [[H1 H2 H3 H4 H5 H6 H7 H8 H9 H10] Hb]. pose proof (estimate_nonneg rq) as Hn. split.
    + split; project_state; try done.
      * rewrite zlen_app. change (zlen [e]) with 1. lia.
      * rewrite zlen_app. change (zlen [e]) with 1. lia.
      * rewrite parked_bytes_app, H5. unfold parked_bytes. cbn. lia.
      * intros Hc. rewrite (proj2 (Z.eqb_neq _ _) Hc) in E2. cbn [negb andb] in E2. bools. lia.
      * apply Forall_app. split; [done|]. by repeat constructor.
    + right. destruct Hb as [Hb|Hb]; [|done]. rewrite bool_decide_eq_true_2 in E by done. exact E.
Qed.

Lemma handle_request_good s sid rq : good o N s → good o (N + 1) (handle_request o s sid rq).
Proof using count_ok queue_ok.
  intros H. unfold handle_request. set (engine := if configured (cors_config o) then _ else _). set (s1 := put_session s sid _).
  assert (good o N s1) as H1 by (by apply put_session_good). assert (good o (N + 1) s1) as H2 by (eapply good_mono; [exact H1|lia]).
  assert (∀ r keep, good o (N + 1) (push_op (put_wire s1 sid (Sent_own r)) sid (Sending keep))) as Hsend.
  { intros r keep. destruct (put_wire_frame s1 sid (Sent_own r)) as (Ht & Hp & _). eapply good_same; [exact H2|..]; project_state; by rewrite ?Ht, ?Hp. }
  clearbody s1. set (proceed := if worker_dead _ then _ else _).
  assert (good o (N + 1) proceed) as Hp.
  { unfold proceed. destruct (worker_dead _); [by apply send_simple_good|].
    destruct (normalize_public_request _ _ _) as [nz|e]; [|by apply send_simple_good].
    destruct (negb _); [by apply send_simple_good|].
    destruct (check_websocket_upgrade _); first [by apply arrive_good | by apply send_simple_good | apply Hsend]. }
  clearbody proceed. repeat case_match; try done; first [by apply send_simple_good | apply Hsend].
Qed.
End arrive.

(** ** Runs *)

Section run.
Context (o : ServerOptions) (frame : Z).
Hypothesis queue_ok : 0 <= max_queue_requests o.
Hypothesis inflight_ok : 0 <= max_inflight o.
Hypothesis bytes_ok : 0 <= max_queue_header_bytes o.
Hypothesis streaming_ok : 0 <= max_streaming_inflight (stream_limits o) < 2 ^ 64.

Lemma server_step_good N s l : good o N s → label_ok frame s l → N + 1 < 2 ^ 64 - 1 → good o (N + 1) (server_step o s l).
Proof using streaming_ok queue_ok.
  intros Hg Hl HN. assert (good o (N + 1) s) as H by (eapply good_mono; [exact Hg|lia]).
  assert (∀ s, good o (N + 1) s → good o (N + 1) (complete_drain o s)) as Hcd by (intros s'; by apply complete_drain_good).
  destruct l; cbn [server_step].
  - unfold on_accept. case_match; [done|]. apply read_request_good. by eapply good_same; [exact H|..].
  - unfold complete_op. destruct (ops (outside s) !! n) as [[sid op]|] eqn:E; [|done].
    set (s1 := set_outside s _). assert (good o N s1) as H0 by (by eapply good_same; [exact Hg|..]).
    assert (good o (N + 1) s1) as H1 by (eapply good_mono; [exact H0|lia]). clearbody s1.
    destruct op as [|keep|id k]; cbn [on_complete].
    + destruct r; [by apply handle_request_good|by apply close_session_good..].
    + destruct r as [rq| |[]]; try (by apply close_session_good). case_match; [by apply read_request_good|by apply close_session_good].
    + case_match; [|done]. eapply keeping_turn_good; [done..|apply on_written_keeps].
  - by eapply worker_event_good.
  - unfold on_stream_idle_timer, on_request_timer. repeat case_match; try done;
      [by apply cancel_request_good|by apply close_session_good, cancel_request_good].
  - unfold on_write_timer, on_request_timer. repeat case_match; try done;
      [by apply cancel_request_good|by apply close_session_good, cancel_request_good].
  - unfold on_queue_timer. case_match; [done|]. by apply arm_queue_timer_good, expire_loop_good.
  - unfold on_drain_deadline. case_match; [done|]. by apply Hcd, close_all_good, life_good.
  - by apply on_probe_good.
  - unfold begin_drain. case_match; [done|]. by apply life_good.
  - unfold start_drain_on_io. case_match; [done|]. apply maybe_complete_good; [done|]. case_match; by repeat apply life_good.
  - unfold request_stop. case_match; [done|]. by apply call_good, life_good.
  - unfold on_signal. case_match; [done|]. by apply call_good, close_all_good, life_good.
  - by apply life_good.
Qed.

Lemma new_Impl_good : good o 0 new_Impl.
Proof using queue_ok inflight_ok bytes_ok streaming_ok.
  split; [|by left]. split; cbn; try done; intros; lia.
Qed.

Lemma server_run_good labels : ∀ N s, good o N s → run_ok o frame labels s → N + zlen labels < 2 ^ 64 - 1 →
  good o (N + zlen labels) (server_run o labels s).
Proof using streaming_ok queue_ok.
  induction labels as [|l labels IH]; intros N s Hg Hr HN; [by rewrite Z.add_0_r|]. destruct Hr as [Hl Hr]. rewrite zlen_cons in *.
  pose proof (zlen_nonneg labels). replace (N + (1 + zlen labels)) with (N + 1 + zlen labels) by lia.
  apply (IH (N + 1) (server_step o s l)); [apply server_step_good; [done..|lia]|done|lia].
Qed.
End run.


(** The second request is parked while the first one streams events. *)
Definition event_stream_labels : list ServerLabel :=
  [Accepted; Accepted; Completed 0 (Read_request sample_request); Completed 0 (Read_request sample_request);
   sample_event Event_kResponseHead 1 200 [(bs "content-type", bs "text/event-stream")] []].

