(* ===== verification/BindingRpc.v ===== *)
(** * BindingRpc: the structured clone between two runtimes (src/binding_rpc.cc)

    Plain data crosses from the User runtime to a Binding runtime and back as a
    [NeutralValue]. The clone reads a value of the JavaScript engine without
    running any code of the caller's: own property descriptors, internal slots
    and class predicates. The engine is a third-party library: its calls are the
    class [QuickJS]. [reads] is an independent reading of a value as a finite
    tree of plain data, and the lemmas relate the clone to it in both
    directions; BindingRoundtrip has the theorems and a concrete engine. *)
From Stdlib Require Import ZArith Lia.
From S2P Require Import Prelude.
Local Open Scope Z_scope.

(** ** Values *)

Definition kMaxBindingCloneDepth : Z := 64.
Definition kMaxBindingCloneNodes : Z := 10000.
Definition kMaxBindingCloneBytes : Z := 1024 * 1024.

#[local] Set Warnings "-register-all".

(** [real] is the type of a double. *)
Inductive NeutralValue (real : Type) :=
| kUndefined
| kNull
| kBool (b : bool)
| kNumber (number : real)
| kBigInt (bigint : bytes)
| kString (s : bytes)
| kDate (date_ms : real)
| kBytes (b : bytes)
| kArray (a : list (NeutralValue real))
| kObject (o : list (bytes * NeutralValue real)).
#[global] Arguments kUndefined {_}.
#[global] Arguments kNull {_}.
#[global] Arguments kBool {_} _.
#[global] Arguments kNumber {_} _.
#[global] Arguments kBigInt {_} _.
#[global] Arguments kString {_} _.
#[global] Arguments kDate {_} _.
#[global] Arguments kBytes {_} _.
#[global] Arguments kArray {_} _.
#[global] Arguments kObject {_} _.

(** ** The engine *)

(** The predicates the clone asks, in no particular order. *)
Inductive JsTest :=
| Is_undefined | Is_null | Is_bool | Is_number | Is_bigint | Is_string | Is_symbol | Is_date | Is_error | Is_regexp
| Is_promise | Is_function | Is_object | Is_array_buffer | Is_uint8array | Is_proxy | Is_map | Is_set | Is_weakmap
| Is_weakset | Is_array.
#[export] Instance JsTest_eq_dec : EqDecision JsTest.
Proof. solve_decision. Defined.

(** A property key: an index or a name. *)
Inductive JSAtom := Atom_index (n : Z) | Atom_name (text : bytes).

(** What [JS_GetOwnProperty] fills in; an accessor has a getter or a setter. *)
Record JSPropertyDescriptor (V : Type) := mkDescriptor { descriptor_value : V; has_getter : bool; has_setter : bool }.
#[global] Arguments mkDescriptor {_} _ _ _.
#[global] Arguments descriptor_value {_} _.
#[global] Arguments has_getter {_} _.
#[global] Arguments has_setter {_} _.

(** [JS_GetOwnProperty] fails, finds nothing or finds a descriptor. *)
Inductive OwnProperty (V : Type) := Own_error | Own_absent | Own_present (d : JSPropertyDescriptor V).
#[global] Arguments Own_error {_}.
#[global] Arguments Own_absent {_}.
#[global] Arguments Own_present {_} _.

(** The engine's calls on a heap. [None] is an exception or a null. A text is
    the bytes the engine's string has, of which the C string ends at the first
    NUL. *)
Class QuickJS (heap V real : Type) := {
  js_undefined : V;
  js_null : V;
  js_bool : bool → V;
  JS_Is : JsTest → heap → V → bool;
  JS_ToBool : heap → V → bool;
  JS_ToFloat64 : heap → V → option real;
  JS_ToText : heap → V → option bytes;
  JS_GetDateValue : heap → V → option real;
  JS_GetArrayBuffer : heap → V → option bytes;
  JS_GetUint8Array : heap → V → option bytes;
  JS_CountEnumerableSymbols : heap → V → option Z;
  JS_GetPrototype : heap → V → option V;
  JS_VALUE_GET_PTR : V → Z;
  JS_GetLength : heap → V → option Z;
  JS_GetOwnProperty : heap → V → JSAtom → OwnProperty V;
  JS_GetOwnPropertyNames : heap → V → option (list JSAtom);
  JS_AtomToText : heap → JSAtom → option bytes;
  JS_NewFloat64 : real → heap → option V * heap;
  JS_EvalText : bytes → heap → option V * heap;
  JS_NewStringLen : bytes → heap → option V * heap;
  JS_NewDate : real → heap → option V * heap;
  JS_NewUint8ArrayCopy : bytes → heap → option V * heap;
  JS_NewArray : heap → option V * heap;
  JS_NewObjectProtoNull : heap → option V * heap;
  JS_SetPropertyUint32 : V → Z → V → heap → bool * heap;
  JS_SetPropertyText : V → bytes → V → heap → bool * heap;
  JS_NewBigUint64 : Z → heap → option V * heap;
  JS_ToBigUint64 : heap → V → option Z
}.

(** The C string of a text. *)
Fixpoint c_string (text : bytes) : bytes :=
  match text with
  | [] => []
  | c :: rest => if bool_decide (c = Byte.x00) then [] else c :: c_string rest
  end.

(** ** The clone *)

Section clone.
Context {heap V real : Type} `{QuickJS heap V real}.
Context (h : heap).

(** [CloneContext]: the counters and the objects on the current path. *)
Record CloneContext := mkCloneContext { depth : Z; nodes : Z; clone_bytes : Z; ancestors : gset Z }.

Definition CloneResult : Type := (NeutralValue real * CloneContext) + string.

Definition add_bytes (c : CloneContext) (n : Z) : CloneContext := mkCloneContext (depth c) (nodes c) (clone_bytes c + n) (ancestors c).

Definition clone_string (v : V) (c : CloneContext) : (bytes * CloneContext) + string :=
  match JS_ToText h v with
  | None => inr "unprintable string"%string
  | Some text =>
      let text := c_string text in
      if kMaxBindingCloneBytes - clone_bytes c <? zlen text then inr "clone byte limit exceeded"%string
      else inl (text, add_bytes c (zlen text))
  end.

Definition reject_enumerable_symbol_keys (v : V) : option string :=
  match JS_CountEnumerableSymbols h v with
  | None => Some "object properties are unreadable"%string
  | Some n => if n =? 0 then None else Some "symbol property keys are not cloneable"%string
  end.

Definition clone_buffer (read : option bytes) (message : string) (c : CloneContext) : CloneResult :=
  match read with
  | None => inr message
  | Some b =>
      if kMaxBindingCloneBytes - clone_bytes c <? zlen b then inr "clone byte limit exceeded"%string
      else inl (kBytes b, add_bytes c (zlen b))
  end.

Definition set_depth (c : CloneContext) (n : Z) : CloneContext := mkCloneContext n (nodes c) (clone_bytes c) (ancestors c).
Definition set_ancestors (c : CloneContext) (a : gset Z) : CloneContext := mkCloneContext (depth c) (nodes c) (clone_bytes c) a.

Definition is_accessor (d : JSPropertyDescriptor V) : bool := has_getter d || has_setter d.

(** The elements [index] to [length - 1]. Every element is a node, so the
    rounds are at most the node limit and one. *)
Fixpoint clone_elements (clone : V → CloneContext → CloneResult) (v : V) (rounds : nat) (index length : Z)
    (out : list (NeutralValue real)) (c : CloneContext) : (list (NeutralValue real) * CloneContext) + string :=
  if length <=? index then inl (out, c)
  else
    match rounds with
    | O => inr "clone node limit exceeded"%string
    | S rounds =>
        match JS_GetOwnProperty h v (Atom_index index) with
        | Own_error => inr "array element is unreadable"%string
        | Own_present d =>
            if is_accessor d then inr "accessor properties are not cloneable"%string
            else match clone (descriptor_value d) c with
                 | inl (child, c) => clone_elements clone v rounds (index + 1) length (out ++ [child]) c
                 | inr e => inr e
                 end
        | Own_absent =>
            match clone js_undefined c with
            | inl (child, c) => clone_elements clone v rounds (index + 1) length (out ++ [child]) c
            | inr e => inr e
            end
        end
    end.

(** The named properties, in the engine's order. *)
Fixpoint clone_members (clone : V → CloneContext → CloneResult) (v : V) (names : list JSAtom)
    (out : list (bytes * NeutralValue real)) (c : CloneContext) : (list (bytes * NeutralValue real) * CloneContext) + string :=
  match names with
  | [] => inl (out, c)
  | atom :: rest =>
      match JS_AtomToText h atom with
      | None => clone_members clone v rest out c
      | Some text =>
          let key := c_string text in
          if bool_decide (key = []) then clone_members clone v rest out c
          else if kMaxBindingCloneBytes - clone_bytes c <? zlen key then inr "clone byte limit exceeded"%string
          else
            let c := add_bytes c (zlen key) in
            match JS_GetOwnProperty h v atom with
            | Own_error => inr "object property is unreadable"%string
            | Own_absent => inr "uninitialized descriptor"%string   (* the names are those of the object *)
            | Own_present d =>
                if is_accessor d then inr "accessor properties are not cloneable"%string
                else match clone (descriptor_value d) c with
                     | inl (child, c) => clone_members clone v rest (out ++ [(key, child)]) c
                     | inr e => inr e
                     end
            end
      end
  end.

(** The class predicates in the source's order, up to the plain objects and
    arrays: a leaf, a refusal, or [None] for a container. *)
Definition clone_leaf (object_proto : V) (v : V) (c : CloneContext) : option CloneResult :=
  let test t := JS_Is t h v in
  if test Is_undefined then Some (inl (kUndefined, c))
  else if test Is_null then Some (inl (kNull, c))
  else if test Is_bool then Some (inl (kBool (JS_ToBool h v), c))
  else if test Is_number then
    Some match JS_ToFloat64 h v with Some d => inl (kNumber d, c) | None => inr "unrepresentable number"%string end
  else if test Is_bigint then
    Some match clone_string v c with inl (s, c) => inl (kBigInt s, c) | inr e => inr e end
  else if test Is_string then
    Some match clone_string v c with inl (s, c) => inl (kString s, c) | inr e => inr e end
  else if test Is_symbol then Some (inr "symbol values are not cloneable"%string)
  else if test Is_date then
    Some match JS_GetDateValue h v with Some d => inl (kDate d, c) | None => inr "date value is unreadable"%string end
  else if test Is_error then Some (inr "Error values are not cloneable"%string)
  else if test Is_regexp then Some (inr "RegExp values are not cloneable"%string)
  else if test Is_promise then Some (inr "promise values are not cloneable"%string)
  else if test Is_function then Some (inr "function values are not cloneable"%string)
  else if negb (test Is_object) then Some (inr "value kind is not cloneable"%string)
  else if test Is_array_buffer then Some (clone_buffer (JS_GetArrayBuffer h v) "array buffer is unreadable" c)
  else if test Is_uint8array then Some (clone_buffer (JS_GetUint8Array h v) "byte array is unreadable" c)
  else if test Is_proxy then Some (inr "Proxy values are not cloneable"%string)
  else if test Is_map then Some (inr "Map values are not cloneable"%string)
  else if test Is_set then Some (inr "Set values are not cloneable"%string)
  else if test Is_weakmap then Some (inr "WeakMap values are not cloneable"%string)
  else if test Is_weakset then Some (inr "WeakSet values are not cloneable"%string)
  else match reject_enumerable_symbol_keys v with
  | Some e => Some (inr e)
  | None =>
      if test Is_array then None
      else
        let plain := match JS_GetPrototype h v with
                     | None => false
                     | Some proto => JS_Is Is_null h proto || (JS_VALUE_GET_PTR proto =? JS_VALUE_GET_PTR object_proto)
                     end in
        if plain then None else Some (inr "class instance values are not cloneable"%string)
  end.

(** Leaving a container. *)
Definition leave (c : CloneContext) (identity : Z) : CloneContext :=
  set_ancestors (set_depth c (depth c - 1)) (ancestors c ∖ {[identity]}).

Definition clone_rounds : nat := S (Z.to_nat kMaxBindingCloneNodes).

Definition clone_container (rounds : nat) (clone : V → CloneContext → CloneResult) (v : V) (c : CloneContext) : CloneResult :=
  let identity := JS_VALUE_GET_PTR v in
  if bool_decide (identity ∈ ancestors c) then inr "cyclic values are not cloneable"%string
  else
    let c := set_ancestors c ({[identity]} ∪ ancestors c) in
    if JS_Is Is_array h v then
      match JS_GetLength h v with
      | None => inr "array length is unreadable"%string
      | Some length =>
          match clone_elements clone v rounds 0 length [] (set_depth c (depth c + 1)) with
          | inl (a, c) => inl (kArray a, leave c identity)
          | inr e => inr e
          end
      end
    else
      match JS_GetOwnPropertyNames h v with
      | None => inr "object properties are unreadable"%string
      | Some names =>
          match clone_members clone v names [] (set_depth c (depth c + 1)) with
          | inl (o, c) => inl (kObject o, leave c identity)
          | inr e => inr e
          end
      end.

(** The fuel is the levels left: one more than the depth limit allows. *)
Fixpoint clone_value (rounds fuel : nat) (object_proto : V) (v : V) (c : CloneContext) : CloneResult :=
  if kMaxBindingCloneDepth <? depth c then inr "clone depth limit exceeded"%string
  else
    let c := mkCloneContext (depth c) (nodes c + 1) (clone_bytes c) (ancestors c) in
    if kMaxBindingCloneNodes <? nodes c then inr "clone node limit exceeded"%string
    else match clone_leaf object_proto v c with
    | Some r => r
    | None =>
        match fuel with
        | O => inr "clone depth limit exceeded"%string
        | S fuel => clone_container rounds (clone_value rounds fuel object_proto) v c
        end
    end.

Definition new_CloneContext : CloneContext := mkCloneContext 0 0 0 ∅.

Definition clone_fuel : nat := S (Z.to_nat kMaxBindingCloneDepth).
End clone.

(** [learn_class_ids]: the prototype of a fresh object literal. *)
Definition learn_class_ids {heap V real} `{QuickJS heap V real} (h : heap) : option V * heap :=
  match JS_EvalText (bs "({})") h with
  | (None, h) => (None, h)
  | (Some plain, h) => (JS_GetPrototype h plain, h)
  end.

Definition neutral_from_js {heap V real} `{QuickJS heap V real} (v : V) (h : heap) : (NeutralValue real + string) * heap :=
  match learn_class_ids h with
  | (None, h) => (inr "clone class probe failed"%string, h)
  | (Some proto, h) =>
      (match clone_value h clone_rounds clone_fuel proto v new_CloneContext with inl (n, _) => inl n | inr e => inr e end, h)
  end.

(** Call identifiers cross as unsigned bigints; zero is none. *)
Definition binding_call_id_to_js {heap V real} `{QuickJS heap V real} (call_id : Z) (h : heap) : option V * heap :=
  if call_id =? 0 then (None, h) else JS_NewBigUint64 call_id h.

Definition binding_call_id_from_js {heap V real} `{QuickJS heap V real} (h : heap) (v : V) : option Z :=
  if JS_Is Is_bigint h v then
    match JS_ToBigUint64 h v with
    | Some decoded => if decoded =? 0 then None else Some decoded
    | None => None
    end
  else None.

(** ** Into a runtime *)

Section into.
Context {heap V real : Type} `{QuickJS heap V real}.

Definition is_digit (c : byte) : bool := (48 <=? u8 c) && (u8 c <=? 57).

(** The decimal digits of a neutral bigint, after an optional sign. *)
Definition bigint_digits (text : bytes) : bytes :=
  match text with
  | c :: rest => if bool_decide (c = Byte.x2d) || bool_decide (c = Byte.x2b) then rest else text
  | [] => []
  end.

Definition bigint_ok (text : bytes) : bool :=
  negb (bool_decide (bigint_digits text = [])) && forallb is_digit (bigint_digits text).

Fixpoint set_elements (set : NeutralValue real → heap → option V * heap) (array : V) (index : Z)
    (values : list (NeutralValue real)) (h : heap) : option V * heap :=
  match values with
  | [] => (Some array, h)
  | value :: rest =>
      match set value h with
      | (None, h) => (None, h)
      | (Some child, h) =>
          match JS_SetPropertyUint32 array index child h with
          | (false, h) => (None, h)
          | (true, h) => set_elements set array (index + 1) rest h
          end
      end
  end.

Fixpoint set_members (set : NeutralValue real → heap → option V * heap) (object : V)
    (entries : list (bytes * NeutralValue real)) (h : heap) : option V * heap :=
  match entries with
  | [] => (Some object, h)
  | (key, value) :: rest =>
      match set value h with
      | (None, h) => (None, h)
      | (Some child, h) =>
          match JS_SetPropertyText object (c_string key) child h with
          | (false, h) => (None, h)
          | (true, h) => set_members set object rest h
          end
      end
  end.

Fixpoint neutral_to_js (value : NeutralValue real) (h : heap) : option V * heap :=
  match value with
  | kUndefined => (Some js_undefined, h)
  | kNull => (Some js_null, h)
  | kBool b => (Some (js_bool b), h)
  | kNumber d => JS_NewFloat64 d h
  | kBigInt text => if bigint_ok text then JS_EvalText (bs "(" ++ text ++ bs "n)") h else (None, h)
  | kString s => JS_NewStringLen s h
  | kDate d => JS_NewDate d h
  | kBytes b => JS_NewUint8ArrayCopy b h
  | kArray a =>
      match JS_NewArray h with
      | (None, h) => (None, h)
      | (Some array, h) => set_elements neutral_to_js array 0 a h
      end
  | kObject o =>
      match JS_NewObjectProtoNull h with
      | (None, h) => (None, h)
      | (Some object, h) => set_members neutral_to_js object o h
      end
  end.
End into.

(** ** Plain data *)

(** The size of a neutral value: its nodes, its bytes, its levels. *)
Section sizes.
Context {real : Type}.

Fixpoint neutral_nodes (n : NeutralValue real) : Z :=
  match n with
  | kArray a => 1 + fold_right (λ x k, neutral_nodes x + k) 0 a
  | kObject o => 1 + fold_right (λ x k, neutral_nodes x.2 + k) 0 o
  | _ => 1
  end.

Fixpoint neutral_bytes (n : NeutralValue real) : Z :=
  match n with
  | kBigInt b | kString b | kBytes b => zlen b
  | kArray a => fold_right (λ x k, neutral_bytes x + k) 0 a
  | kObject o => fold_right (λ x k, zlen x.1 + neutral_bytes x.2 + k) 0 o
  | _ => 0
  end.

Fixpoint neutral_depth (n : NeutralValue real) : Z :=
  match n with
  | kArray a => 1 + fold_right (λ x k, Z.max (neutral_depth x) k) 0 a
  | kObject o => 1 + fold_right (λ x k, Z.max (neutral_depth x.2) k) 0 o
  | _ => 1
  end.

Definition nodes_of (a : list (NeutralValue real)) : Z := fold_right (λ x k, neutral_nodes x + k) 0 a.
Definition bytes_of (a : list (NeutralValue real)) : Z := fold_right (λ x k, neutral_bytes x + k) 0 a.
Definition depth_of (a : list (NeutralValue real)) : Z := fold_right (λ x k, Z.max (neutral_depth x) k) 0 a.
Definition keys_of (o : list (bytes * NeutralValue real)) : Z := fold_right (λ x k, zlen x.1 + k) 0 o.

Lemma object_nodes o : neutral_nodes (kObject o) = 1 + nodes_of (map snd o).
Proof. cbn. f_equal. unfold nodes_of. induction o as [|[k x] o IH]; cbn; [done|]. by rewrite IH. Qed.

Lemma object_bytes o : neutral_bytes (kObject o) = keys_of o + bytes_of (map snd o).
Proof. cbn. unfold bytes_of, keys_of. induction o as [|[k x] o IH]; cbn in *; [done|]. rewrite IH. lia. Qed.

Lemma object_depth o : neutral_depth (kObject o) = 1 + depth_of (map snd o).
Proof. cbn. f_equal. unfold depth_of. induction o as [|[k x] o IH]; cbn; [done|]. by rewrite IH. Qed.

(** Induction through the containers. *)
Lemma neutral_induction (P : NeutralValue real → Prop) :
  (∀ n, (∀ a, n ≠ kArray a) → (∀ o, n ≠ kObject o) → P n) → (∀ a, Forall P a → P (kArray a)) →
  (∀ o, Forall P (map snd o) → P (kObject o)) → ∀ n, P n.
Proof.
  intros Hleaf Ha Ho. fix IH 1. intros [| | | | | | | |a|o]; try (by apply Hleaf).
  - apply Ha. induction a as [|x a IHa]; [by constructor|]. constructor; [apply IH|exact IHa].
  - apply Ho. induction o as [|[k x] o IHo]; [by constructor|]. constructor; [apply IH|exact IHo].
Qed.

Lemma sums_nonneg a : Forall (λ n, 1 <= neutral_nodes n ∧ 0 <= neutral_bytes n ∧ 1 <= neutral_depth n) a →
  0 <= nodes_of a ∧ 0 <= bytes_of a ∧ 0 <= depth_of a.
Proof.
  intros H. unfold nodes_of, bytes_of, depth_of. induction H as [|x a Hx Ha IH]; cbn [fold_right]; [done|]. lia.
Qed.

Lemma keys_nonneg o : 0 <= keys_of o.
Proof. unfold keys_of. induction o as [|x o IH]; cbn [fold_right]; [done|]. pose proof (zlen_nonneg x.1). lia. Qed.

Lemma neutral_sizes n : 1 <= neutral_nodes n ∧ 0 <= neutral_bytes n ∧ 1 <= neutral_depth n.
Proof.
  induction n as [n Ha Ho|a IH|o IH] using neutral_induction.
  - destruct n; cbn; try lia; try (pose proof (zlen_nonneg bigint); lia); try (pose proof (zlen_nonneg s); lia);
      try (pose proof (zlen_nonneg b); lia); [by destruct (Ha a)|by destruct (Ho o)].
  - destruct (sums_nonneg a IH) as (H1 & H2 & H3). cbn. fold (nodes_of a) (bytes_of a) (depth_of a). lia.
  - destruct (sums_nonneg _ IH) as (H1 & H2 & H3). rewrite object_nodes, object_bytes, object_depth. pose proof (keys_nonneg o). lia.
Qed.

Lemma all_sizes a : 0 <= nodes_of a ∧ 0 <= bytes_of a ∧ 0 <= depth_of a.
Proof. apply sums_nonneg, Forall_forall. intros n _. apply neutral_sizes. Qed.

Lemma nodes_of_app a b : nodes_of (a ++ b) = nodes_of a + nodes_of b.
Proof. unfold nodes_of. induction a as [|x a IH]; cbn [app fold_right]; [done|]. lia. Qed.
Lemma bytes_of_app a b : bytes_of (a ++ b) = bytes_of a + bytes_of b.
Proof. unfold bytes_of. induction a as [|x a IH]; cbn [app fold_right]; [done|]. lia. Qed.
Lemma depth_of_app a b : depth_of (a ++ b) = Z.max (depth_of a) (depth_of b).
Proof.
  induction a as [|x a IH]; [pose proof (all_sizes b); unfold depth_of at 2; cbn [app fold_right]; lia|].
  unfold depth_of in *. cbn [app fold_right]. lia.
Qed.
Lemma keys_of_app a b : keys_of (a ++ b) = keys_of a + keys_of b.
Proof. unfold keys_of. induction a as [|x a IH]; cbn [app fold_right]; [done|]. lia. Qed.
End sizes.

(** What an engine's value is, when it is a finite tree of plain data: an
    independent reading, without limits. *)
Section reads.
Context {heap V real : Type} `{QuickJS heap V real}.
Context (h : heap) (object_proto : V).

(** The first of the classes that holds. *)
Definition primitive (v : V) : option JsTest :=
  find (λ t, JS_Is t h v)
    [Is_undefined; Is_null; Is_bool; Is_number; Is_bigint; Is_string; Is_symbol; Is_date; Is_error; Is_regexp; Is_promise;
     Is_function].

Definition exotic (v : V) : option JsTest :=
  find (λ t, JS_Is t h v) [Is_array_buffer; Is_uint8array; Is_proxy; Is_map; Is_set; Is_weakmap; Is_weakset].

(** An object of no special class, without enumerable symbol keys. *)
Definition ordinary (v : V) : Prop :=
  primitive v = None ∧ JS_Is Is_object h v = true ∧ exotic v = None ∧ JS_CountEnumerableSymbols h v = Some 0.

Definition plain_proto (v : V) : Prop :=
  ∃ proto, JS_GetPrototype h v = Some proto ∧ (JS_Is Is_null h proto = true ∨ JS_VALUE_GET_PTR proto = JS_VALUE_GET_PTR object_proto).

Inductive reads : V → NeutralValue real → Prop :=
| reads_undefined v : primitive v = Some Is_undefined → reads v kUndefined
| reads_null v : primitive v = Some Is_null → reads v kNull
| reads_bool v : primitive v = Some Is_bool → reads v (kBool (JS_ToBool h v))
| reads_number v d : primitive v = Some Is_number → JS_ToFloat64 h v = Some d → reads v (kNumber d)
| reads_bigint v text : primitive v = Some Is_bigint → JS_ToText h v = Some text → reads v (kBigInt (c_string text))
| reads_string v text : primitive v = Some Is_string → JS_ToText h v = Some text → reads v (kString (c_string text))
| reads_date v d : primitive v = Some Is_date → JS_GetDateValue h v = Some d → reads v (kDate d)
| reads_buffer v b : primitive v = None → JS_Is Is_object h v = true → exotic v = Some Is_array_buffer →
    JS_GetArrayBuffer h v = Some b → reads v (kBytes b)
| reads_uint8array v b : primitive v = None → JS_Is Is_object h v = true → exotic v = Some Is_uint8array →
    JS_GetUint8Array h v = Some b → reads v (kBytes b)
| reads_array v length a : ordinary v → JS_Is Is_array h v = true → JS_GetLength h v = Some length →
    reads_elements v 0 length a → reads v (kArray a)
| reads_object v names o : ordinary v → JS_Is Is_array h v = false → plain_proto v →
    JS_GetOwnPropertyNames h v = Some names → reads_members v names o → reads v (kObject o)
with reads_elements : V → Z → Z → list (NeutralValue real) → Prop :=
| reads_no_element v index length : length <= index → reads_elements v index length []
| reads_element v index length d n a : index < length → JS_GetOwnProperty h v (Atom_index index) = Own_present d →
    is_accessor d = false → reads (descriptor_value d) n → reads_elements v (index + 1) length a →
    reads_elements v index length (n :: a)
| reads_hole v index length n a : index < length → JS_GetOwnProperty h v (Atom_index index) = Own_absent →
    reads js_undefined n → reads_elements v (index + 1) length a → reads_elements v index length (n :: a)
with reads_members : V → list JSAtom → list (bytes * NeutralValue real) → Prop :=
| reads_no_member v : reads_members v [] []
| reads_skipped v atom names o : (JS_AtomToText h atom = None ∨ ∃ text, JS_AtomToText h atom = Some text ∧ c_string text = []) →
    reads_members v names o → reads_members v (atom :: names) o
| reads_member v atom text d n names o : JS_AtomToText h atom = Some text → c_string text ≠ [] →
    JS_GetOwnProperty h v atom = Own_present d → is_accessor d = false → reads (descriptor_value d) n →
    reads_members v names o → reads_members v (atom :: names) ((c_string text, n) :: o).

Scheme reads_mind := Minimality for reads Sort Prop
with reads_elements_mind := Minimality for reads_elements Sort Prop
with reads_members_mind := Minimality for reads_members Sort Prop.
Combined Scheme reads_mutind from reads_mind, reads_elements_mind, reads_members_mind.

(** The children a container is read through. *)
Inductive child (v : V) : V → Prop :=
| child_element length i d : ordinary v → JS_Is Is_array h v = true → JS_GetLength h v = Some length → 0 <= i < length →
    JS_GetOwnProperty h v (Atom_index i) = Own_present d → child v (descriptor_value d)
| child_member names atom text d : ordinary v → JS_Is Is_array h v = false → JS_GetOwnPropertyNames h v = Some names →
    atom ∈ names → JS_AtomToText h atom = Some text → c_string text ≠ [] →
    JS_GetOwnProperty h v atom = Own_present d → child v (descriptor_value d).

Definition grounded (v : V) : Prop := Acc (λ u v, child v u) v.

(** A primitive or exotic value has no children. *)
Lemma leaf_grounded v : ¬ ordinary v → grounded v.
Proof. intros Hv. constructor. intros u Hu. exfalso. apply Hv. by destruct Hu. Qed.

(** What reads as a tree is one: no object is below itself. *)
Lemma reads_grounded :
  (∀ v n, reads v n → grounded v)
  ∧ (∀ v i l a, reads_elements v i l a → ∀ k d, i <= k < l → JS_GetOwnProperty h v (Atom_index k) = Own_present d →
       grounded (descriptor_value d))
  ∧ (∀ v names o, reads_members v names o → ∀ atom text d, atom ∈ names → JS_AtomToText h atom = Some text →
       c_string text ≠ [] → JS_GetOwnProperty h v atom = Own_present d → grounded (descriptor_value d)).
Proof.
  apply reads_mutind.
  1-7: intros; apply leaf_grounded; intros (E & _); congruence.
  1-2: intros; apply leaf_grounded; intros (_ & _ & E & _); congruence.
  - intros v length a Ho Harr Hl _ IH. constructor. intros u Hu. destruct Hu as [length' i d _ _ Hl' Hi Hd|]; [|congruence].
    apply (IH i d); [|done]. assert (length' = length) by congruence. lia.
  - intros v names o Ho Harr _ Hn _ IH. constructor. intros u Hu. destruct Hu as [|names' atom text d _ _ Hn' Hin Ht Hne Hd]; [congruence|].
    rewrite Hn in Hn'. injection Hn' as <-. by eapply IH.
  - intros. lia.
  - intros v index length d n a Hlt Hd _ _ IHd _ IH k d' Hk Hd'. destruct (decide (k = index)) as [->|Hne].
    + assert (d' = d) as -> by congruence. done.
    + apply (IH k); [lia|done].
  - intros v index length n a Hlt Hd _ _ _ IH k d' Hk Hd'. destruct (decide (k = index)) as [->|Hne]; [congruence|]. apply (IH k); [lia|done].
  - intros v atom text d Hin. by apply not_elem_of_nil in Hin.
  - intros v atom names o Hskip _ IH atom' text d Hin Ht Hne Hd. apply elem_of_cons in Hin as [->|Hin]; [|by eapply IH].
    destruct Hskip as [?|(text' & Ht' & E)]; congruence.
  - intros v atom text d n names o Ht Hne Hd _ _ IHd _ IH atom' text' d' Hin Ht' Hne' Hd'.
    apply elem_of_cons in Hin as [->|Hin]; [|by eapply IH]. assert (d' = d) as -> by congruence. done.
Qed.

Lemma grounded_acyclic v : grounded v → ∀ u, child v u → ¬ rtc child u v.
Proof.
  intros Hv. induction Hv as [v _ IH]. intros u Hu Hreach. apply rtc_inv in Hreach as [->|(w & Hw & Hreach)].
  - by apply (IH v Hu v Hu).
  - apply (IH u Hu w Hw). eapply rtc_r; [exact Hreach|done].
Qed.

(** ** The clone reads exactly that *)

Lemma clone_string_spec v (c c' : CloneContext) (b : bytes) : clone_string h v c = inl (b, c') →
  (∃ text, JS_ToText h v = Some text ∧ b = c_string text) ∧ c' = add_bytes c (zlen b)
  ∧ clone_bytes c + zlen b <= kMaxBindingCloneBytes.
Proof.
  unfold clone_string. destruct (JS_ToText h v) as [text|]; [|done]. case_match; [done|]. intros [= <- <-]. bools.
  split_and!; [by exists text|done|lia].
Qed.

(** The clone's tests are the two searches. *)
Lemma clone_leaf_eq v c : clone_leaf h object_proto v c =
  match primitive v with
  | Some Is_undefined => Some (inl (kUndefined, c))
  | Some Is_null => Some (inl (kNull, c))
  | Some Is_bool => Some (inl (kBool (JS_ToBool h v), c))
  | Some Is_number => Some match JS_ToFloat64 h v with Some d => inl (kNumber d, c) | None => inr "unrepresentable number"%string end
  | Some Is_bigint => Some match clone_string h v c with inl (s, c) => inl (kBigInt s, c) | inr e => inr e end
  | Some Is_string => Some match clone_string h v c with inl (s, c) => inl (kString s, c) | inr e => inr e end
  | Some Is_symbol => Some (inr "symbol values are not cloneable"%string)
  | Some Is_date => Some match JS_GetDateValue h v with Some d => inl (kDate d, c) | None => inr "date value is unreadable"%string end
  | Some Is_error => Some (inr "Error values are not cloneable"%string)
  | Some Is_regexp => Some (inr "RegExp values are not cloneable"%string)
  | Some Is_promise => Some (inr "promise values are not cloneable"%string)
  | Some _ => Some (inr "function values are not cloneable"%string)
  | None =>
      if negb (JS_Is Is_object h v) then Some (inr "value kind is not cloneable"%string)
      else match exotic v with
      | Some Is_array_buffer => Some (clone_buffer (JS_GetArrayBuffer h v) "array buffer is unreadable" c)
      | Some Is_uint8array => Some (clone_buffer (JS_GetUint8Array h v) "byte array is unreadable" c)
      | Some Is_proxy => Some (inr "Proxy values are not cloneable"%string)
      | Some Is_map => Some (inr "Map values are not cloneable"%string)
      | Some Is_set => Some (inr "Set values are not cloneable"%string)
      | Some Is_weakmap => Some (inr "WeakMap values are not cloneable"%string)
      | Some _ => Some (inr "WeakSet values are not cloneable"%string)
      | None =>
          match reject_enumerable_symbol_keys h v with
          | Some e => Some (inr e)
          | None =>
              if JS_Is Is_array h v then None
              else if match JS_GetPrototype h v with
                      | None => false
                      | Some proto => JS_Is Is_null h proto || (JS_VALUE_GET_PTR proto =? JS_VALUE_GET_PTR object_proto)
                      end
              then None else Some (inr "class instance values are not cloneable"%string)
          end
      end
  end.
Proof.
  unfold clone_leaf, primitive, exotic. cbn [find].
  destruct (JS_Is Is_undefined h v); [reflexivity|]. destruct (JS_Is Is_null h v); [reflexivity|].
  destruct (JS_Is Is_bool h v); [reflexivity|]. destruct (JS_Is Is_number h v); [reflexivity|].
  destruct (JS_Is Is_bigint h v); [reflexivity|]. destruct (JS_Is Is_string h v); [reflexivity|].
  destruct (JS_Is Is_symbol h v); [reflexivity|]. destruct (JS_Is Is_date h v); [reflexivity|].
  destruct (JS_Is Is_error h v); [reflexivity|]. destruct (JS_Is Is_regexp h v); [reflexivity|].
  destruct (JS_Is Is_promise h v); [reflexivity|]. destruct (JS_Is Is_function h v); [reflexivity|].
  destruct (JS_Is Is_object h v); [|reflexivity]. cbn [negb].
  destruct (JS_Is Is_array_buffer h v); [reflexivity|]. destruct (JS_Is Is_uint8array h v); [reflexivity|].
  destruct (JS_Is Is_proxy h v); [reflexivity|]. destruct (JS_Is Is_map h v); [reflexivity|].
  destruct (JS_Is Is_set h v); [reflexivity|]. destruct (JS_Is Is_weakmap h v); [reflexivity|].
  destruct (JS_Is Is_weakset h v); reflexivity.
Qed.

Lemma clone_buffer_sound b message c (n : NeutralValue real) c' : clone_buffer b message c = inl (n, c') →
  ∃ x, b = Some x ∧ n = kBytes x ∧ c' = add_bytes c (zlen x) ∧ clone_bytes c + zlen x <= kMaxBindingCloneBytes.
Proof. unfold clone_buffer. destruct b as [x|]; [|done]. case_match; [done|]. intros [= <- <-]. bools. exists x. split_and!; try done. lia. Qed.

Lemma clone_leaf_sound v c n c' : clone_leaf h object_proto v c = Some (inl (n, c')) →
  reads v n ∧ c' = add_bytes c (neutral_bytes n) ∧ neutral_nodes n = 1 ∧ neutral_depth n = 1
  ∧ (clone_bytes c <= kMaxBindingCloneBytes → clone_bytes c' <= kMaxBindingCloneBytes).
Proof.
  assert (c = add_bytes c 0) as H0 by (destruct c; unfold add_bytes; cbn; by rewrite Z.add_0_r).
  assert (∀ b c', clone_string h v c = inl (b, c') → c' = add_bytes c (zlen b) ∧ clone_bytes c' <= kMaxBindingCloneBytes) as Hs.
  { intros b c1 (_ & -> & Hb)%clone_string_spec. by split. }
  rewrite clone_leaf_eq. destruct (primitive v) as [t|] eqn:Hp.
  - destruct t; try done.
    + intros [= <- <-]. split_and!; try done. by apply reads_undefined.
    + intros [= <- <-]. split_and!; try done. by apply reads_null.
    + intros [= <- <-]. split_and!; try done. by apply reads_bool.
    + destruct (JS_ToFloat64 h v) eqn:E; [|done]. intros [= <- <-]. split_and!; try done. by apply reads_number.
    + destruct (clone_string h v c) as [[b c1]|] eqn:E; [|done]. intros [= <- <-]. destruct (Hs _ _ eq_refl) as [-> ?].
      apply clone_string_spec in E as ((text & Ht & ->) & _). split_and!; try done. by apply reads_bigint.
    + destruct (clone_string h v c) as [[b c1]|] eqn:E; [|done]. intros [= <- <-]. destruct (Hs _ _ eq_refl) as [-> ?].
      apply clone_string_spec in E as ((text & Ht & ->) & _). split_and!; try done. by apply reads_string.
    + destruct (JS_GetDateValue h v) eqn:E; [|done]. intros [= <- <-]. split_and!; try done. by apply reads_date.
  - destruct (JS_Is Is_object h v) eqn:Hob; [|done]. cbn [negb]. destruct (exotic v) as [t|] eqn:He.
    + destruct t; try done.
      * intros [= (x & E & -> & -> & Hb)%clone_buffer_sound]. split_and!; try done. by apply reads_buffer.
      * intros [= (x & E & -> & -> & Hb)%clone_buffer_sound]. split_and!; try done. by apply reads_uint8array.
    + repeat case_match; done.
Qed.

Lemma clone_leaf_container v c : clone_leaf h object_proto v c = None →
  ordinary v ∧ (JS_Is Is_array h v = true ∨ JS_Is Is_array h v = false ∧ plain_proto v).
Proof.
  rewrite clone_leaf_eq. unfold ordinary, reject_enumerable_symbol_keys, plain_proto.
  destruct (primitive v) as [t|]; [by destruct t|]. destruct (JS_Is Is_object h v); [|done]. cbn [negb].
  destruct (exotic v) as [t|]; [by destruct t|]. destruct (JS_CountEnumerableSymbols h v) as [k|]; [|done].
  destruct (k =? 0) eqn:E; [|done]. bools. subst k. destruct (JS_Is Is_array h v); [intros _; split; [done|by left]|].
  destruct (JS_GetPrototype h v) as [proto|]; [|done]. destruct (_ || _) eqn:Eo; [|done]. intros _. split; [done|right].
  split; [done|]. exists proto. split; [done|]. apply orb_true_iff in Eo as [?|?]; bools; auto.
Qed.

(** Conversely. *)
Lemma clone_leaf_complete v n c : reads v n → (∀ a, n ≠ kArray a) → (∀ o, n ≠ kObject o) →
  clone_bytes c + neutral_bytes n <= kMaxBindingCloneBytes →
  clone_leaf h object_proto v c = Some (inl (n, add_bytes c (neutral_bytes n))).
Proof.
  assert (c = add_bytes c 0) as H0 by (destruct c; unfold add_bytes; cbn; by rewrite Z.add_0_r).
  intros Hr Ha Ho Hb. rewrite clone_leaf_eq.
  destruct Hr as [v E|v E|v E|v d E E1|v text E E1|v text E E1|v d E E1|v b E E1 E2 E3|v b E E1 E2 E3|v l a|v names o];
    try (by destruct (Ha a)); try (by destruct (Ho o)); rewrite E; cbn [neutral_bytes] in *; rewrite ?E1, <- ?H0; try done.
  - unfold clone_string. rewrite E1. by rewrite (proj2 (Z.ltb_ge _ _)) by lia.
  - unfold clone_string. rewrite E1. by rewrite (proj2 (Z.ltb_ge _ _)) by lia.
  - cbn [negb]. rewrite E2, E3. unfold clone_buffer. by rewrite (proj2 (Z.ltb_ge _ _)) by lia.
  - cbn [negb]. rewrite E2, E3. unfold clone_buffer. by rewrite (proj2 (Z.ltb_ge _ _)) by lia.
Qed.

Lemma container_leaf v c : ordinary v → JS_Is Is_array h v = true ∨ plain_proto v → clone_leaf h object_proto v c = None.
Proof.
  intros (E1 & E2 & E3 & E4) Hp. rewrite clone_leaf_eq, E1, E2, E3. cbn [negb]. unfold reject_enumerable_symbol_keys. rewrite E4. cbn.
  destruct (JS_Is Is_array h v) eqn:Ea; [done|]. destruct Hp as [?|(proto & -> & Hp)]; [done|].
  destruct Hp as [-> | ->]; [done|]. by rewrite Z.eqb_refl, orb_true_r.
Qed.

(** ** Limits and results *)

(** A clone that succeeded from [c] and left [c']: the counters are exact and
    within the limits, and the path is restored. *)
Record cloned (c c' : CloneContext) (n b d : Z) : Prop := {
  cl_nodes : nodes c' = nodes c + n;
  cl_limit : nodes c' <= kMaxBindingCloneNodes;
  cl_bytes : clone_bytes c' = clone_bytes c + b;
  cl_cap : clone_bytes c <= kMaxBindingCloneBytes → clone_bytes c' <= kMaxBindingCloneBytes;
  cl_depth : depth c' = depth c;
  cl_levels : depth c + d <= kMaxBindingCloneDepth + 1;
  cl_path : ancestors c' = ancestors c
}.

Definition clone_sound (clone : V → CloneContext → CloneResult) : Prop :=
  ∀ v c n c', clone v c = inl (n, c') → nodes c <= kMaxBindingCloneNodes →
    reads v n ∧ cloned c c' (neutral_nodes n) (neutral_bytes n) (neutral_depth n).

Lemma clone_elements_sound clone v rounds : clone_sound clone → ∀ index length out c a c',
  clone_elements h clone v rounds index length out c = inl (a, c') → nodes c <= kMaxBindingCloneNodes →
  depth c <= kMaxBindingCloneDepth + 1 →
  ∃ more, a = out ++ more ∧ reads_elements v index length more ∧ cloned c c' (nodes_of more) (bytes_of more) (depth_of more).
Proof.
  intros Hclone. induction rounds as [|rounds IH]; intros index length out c a c' E Hn Hd; cbn [clone_elements] in E.
  - destruct (length <=? index) eqn:El; [|done]. injection E as <- <-. bools. exists [].
    rewrite app_nil_r. split_and!; [done|by constructor|]. split; cbn; lia || done.
  - destruct (length <=? index) eqn:El.
    { injection E as <- <-. bools. exists []. rewrite app_nil_r. split_and!; [done|by constructor|]. split; cbn; lia || done. }
    bools. assert (∀ u c1 child, clone u c = inl (child, c1) → clone_elements h clone v rounds (index + 1) length (out ++ [child]) c1 = inl (a, c') →
      ∃ more, a = out ++ child :: more ∧ reads u child ∧ reads_elements v (index + 1) length more
        ∧ cloned c c' (nodes_of (child :: more)) (bytes_of (child :: more)) (depth_of (child :: more))) as Hstep.
    { intros u c1 child E1 E2. destruct (Hclone _ _ _ _ E1 Hn) as [Hr [C1 C2 C3 C4 C5 C6 C7]].
      destruct (IH _ _ _ _ _ _ E2) as (more & -> & Hm & [D1 D2 D3 D4 D5 D6 D7]); [done|by rewrite C5|].
      exists more. rewrite <- app_assoc. split_and!; [done..|]. unfold nodes_of, bytes_of, depth_of in *. cbn [fold_right].
      split; [lia|done|lia|intros; apply D4, C4; lia|congruence| |congruence]. rewrite C5 in D6. lia. }
    destruct (JS_GetOwnProperty h v (Atom_index index)) as [| |d] eqn:Ep; [done|..].
    + destruct (clone js_undefined c) as [[child c1]|] eqn:E1; [|done]. destruct (Hstep _ _ _ E1 E) as (more & -> & H1 & H2 & H3).
      exists (child :: more). split_and!; [done| |done]. by eapply reads_hole.
    + destruct (is_accessor d) eqn:Ea; [done|]. destruct (clone (descriptor_value d) c) as [[child c1]|] eqn:E1; [|done].
      destruct (Hstep _ _ _ E1 E) as (more & -> & H1 & H2 & H3). exists (child :: more). split_and!; [done| |done]. by eapply reads_element.
Qed.

Lemma clone_members_sound clone v : clone_sound clone → ∀ names out c o c',
  clone_members h clone v names out c = inl (o, c') → nodes c <= kMaxBindingCloneNodes → depth c <= kMaxBindingCloneDepth + 1 →
  ∃ more, o = out ++ more ∧ reads_members v names more
    ∧ cloned c c' (nodes_of (map snd more)) (keys_of more + bytes_of (map snd more)) (depth_of (map snd more)).
Proof.
  intros Hclone. induction names as [|atom names IH]; intros out c o c' E Hn Hd; cbn [clone_members] in E.
  { injection E as <- <-. exists []. rewrite app_nil_r. split_and!; [done|by constructor|]. split; cbn; lia || done. }
  destruct (JS_AtomToText h atom) as [text|] eqn:Et.
  2: { destruct (IH _ _ _ _ E Hn Hd) as (more & -> & Hm & Hc). exists more. split_and!; [done| |done]. apply reads_skipped; [by left|done]. }
  case_bool_decide as Ek.
  { destruct (IH _ _ _ _ E Hn Hd) as (more & -> & Hm & Hc). exists more. split_and!; [done| |done]. apply reads_skipped; [right; by exists text|done]. }
  destruct (_ <? _) eqn:El; [done|]. bools. destruct (JS_GetOwnProperty h v atom) as [| |d] eqn:Ep; [done..|].
  destruct (is_accessor d) eqn:Ea; [done|]. destruct (clone (descriptor_value d) _) as [[child c1]|] eqn:E1; [|done].
  destruct (Hclone _ _ _ _ E1 Hn) as [Hr [C1 C2 C3 C4 C5 C6 C7]].
  destruct (IH _ _ _ _ E) as (more & -> & Hm & [D1 D2 D3 D4 D5 D6 D7]); [done|by rewrite C5|].
  exists ((c_string text, child) :: more). rewrite <- app_assoc. split_and!; [done|by eapply reads_member|].
  unfold nodes_of, bytes_of, depth_of, keys_of in *. cbn [map fold_right fst snd]. cbn [add_bytes nodes clone_bytes depth ancestors] in *.
  split; [lia|done|lia|intros; apply D4, C4; lia|congruence| |congruence]. rewrite C5 in D6. lia.
Qed.

Lemma clone_value_sound rounds fuel : clone_sound (clone_value h rounds fuel object_proto).
Proof.
  induction fuel as [|fuel IH]; intros v c n c' E Hn; cbn [clone_value] in E.
  all: destruct (kMaxBindingCloneDepth <? depth c) eqn:Ed; [done|].
  all: set (c1 := mkCloneContext (depth c) (nodes c + 1) (clone_bytes c) (ancestors c)) in *.
  all: destruct (kMaxBindingCloneNodes <? nodes c1) eqn:En; [done|]. all: bools.
  all: destruct (clone_leaf h object_proto v c1) as [r|] eqn:El.
  1, 3: subst r; destruct (clone_leaf_sound _ _ _ _ El) as (Hr & -> & H1 & H2 & H3); split; [done|].
  1, 2: rewrite H1, H2; split; cbn [add_bytes nodes clone_bytes depth ancestors c1] in *; lia || done.
  { done. }
  destruct (clone_leaf_container _ _ El) as [Hord Hkind]. unfold clone_container in E. case_bool_decide as Ea; [done|].
  set (c2 := set_ancestors c1 _) in *. set (c3 := set_depth c2 _) in *.
  assert (depth c3 <= kMaxBindingCloneDepth + 1) as Hd3 by (unfold c3; cbn; unfold c1; cbn; lia).
  assert (nodes c3 <= kMaxBindingCloneNodes) as Hn3 by done.
  assert (∀ n' b' d' cc, cloned c3 cc n' b' d' → cloned c (leave cc (JS_VALUE_GET_PTR v)) (1 + n') b' (1 + d')) as Hleave.
  { intros n' b' d' cc [C1 C2 C3 C4 C5 C6 C7]. unfold c3, c2, c1 in *. cbn in *. unfold leave. split; cbn; try lia.
    rewrite C7. apply set_eq. intros y. rewrite elem_of_difference, elem_of_union, elem_of_singleton.
    split; [by intros [[->|?] ?]|]. intros Hy. split; [by right|]. by intros ->. }
  destruct (JS_Is Is_array h v) eqn:Earr.
  - destruct (JS_GetLength h v) as [length|] eqn:Elen; [|done].
    destruct (clone_elements _ _ _ _ _ _ _ _) as [[a cc]|] eqn:Ee; [|done]. injection E as <- <-.
    destruct (clone_elements_sound _ _ _ IH _ _ _ _ _ _ Ee Hn3 Hd3) as (more & -> & Hm & Hc). split; [by eapply reads_array|].
    by apply Hleave in Hc.
  - destruct Hkind as [?|[_ Hp]]; [done|]. destruct (JS_GetOwnPropertyNames h v) as [names|] eqn:Enames; [|done].
    destruct (clone_members _ _ _ _ _ _) as [[o cc]|] eqn:Ee; [|done]. injection E as <- <-.
    destruct (clone_members_sound _ _ IH _ _ _ _ _ Ee Hn3 Hd3) as (more & -> & Hm & Hc). split; [by eapply reads_object|].
    rewrite app_nil_l, object_nodes, object_bytes, object_depth. by apply Hleave in Hc.
Qed.

(** What the clone relies on of the engine: an object is known by its address,
    and undefined is undefined. *)
Class ReadLaws : Prop := {
  ptr_identity v w : ordinary v → ordinary w → JS_VALUE_GET_PTR v = JS_VALUE_GET_PTR w → v = w;
  undefined_is : JS_Is Is_undefined h js_undefined = true
}.

Section complete.
Context `{ReadLaws}.
Context (rounds : nat).
Hypothesis rounds_ok : kMaxBindingCloneNodes < Z.of_nat rounds.

(** Room for [n] nodes, [b] bytes and [d] levels. *)
Definition fits (c : CloneContext) (n b d : Z) : Prop :=
  0 <= nodes c ∧ nodes c + n <= kMaxBindingCloneNodes ∧ clone_bytes c + b <= kMaxBindingCloneBytes ∧ depth c + d <= kMaxBindingCloneDepth + 1.

(** No object below the value is on the path. *)
Definition off_path (v : V) (c : CloneContext) : Prop :=
  ∀ w, rtc child v w → ordinary w → JS_VALUE_GET_PTR w ∉ ancestors c.

Lemma undefined_off_path c : off_path js_undefined c.
Proof.
  assert (¬ ordinary js_undefined) as Hu.
  { intros (E & _). unfold primitive in E. cbn [find] in E. by rewrite undefined_is in E. }
  intros w Hw Ho. apply rtc_inv in Hw as [<-|(u & Hu' & _)]; [done|]. exfalso. apply Hu. by destruct Hu'.
Qed.

Lemma zlen_nodes (a : list (NeutralValue real)) : zlen a <= nodes_of a.
Proof.
  unfold nodes_of. induction a as [|x a IH]; cbn [fold_right]; [done|]. rewrite zlen_cons. pose proof (neutral_sizes x). lia.
Qed.

(** A leaf is cloned wherever it fits. *)
Lemma leaf_clones v n fuel c : reads v n → (∀ a, n ≠ kArray a) → (∀ o, n ≠ kObject o) →
  fits c (neutral_nodes n) (neutral_bytes n) (neutral_depth n) → ∃ c', clone_value h rounds fuel object_proto v c = inl (n, c').
Proof.
  intros Hr Ha Ho (F0 & F1 & F2 & F3). pose proof (neutral_sizes n) as (S1 & S2 & S3).
  set (c1 := mkCloneContext (depth c) (nodes c + 1) (clone_bytes c) (ancestors c)).
  pose proof (clone_leaf_complete v n c1 Hr Ha Ho F2) as El. exists (add_bytes c1 (neutral_bytes n)).
  destruct fuel; cbn [clone_value]; fold c1; rewrite (proj2 (Z.ltb_ge _ _)) by lia;
    rewrite (proj2 (Z.ltb_ge kMaxBindingCloneNodes _)) by (unfold c1; cbn; lia); by rewrite El.
Qed.

(** A container is entered when its object is not on the path. *)
Lemma container_enters v fuel c : ordinary v → JS_Is Is_array h v = true ∨ plain_proto v → grounded v → off_path v c →
  nodes c + 1 <= kMaxBindingCloneNodes → depth c <= kMaxBindingCloneDepth →
  let c1 := mkCloneContext (depth c + 1) (nodes c + 1) (clone_bytes c) ({[JS_VALUE_GET_PTR v]} ∪ ancestors c) in
  clone_value h rounds (S fuel) object_proto v c =
    (if JS_Is Is_array h v then
       match JS_GetLength h v with
       | None => inr "array length is unreadable"%string
       | Some length =>
           match clone_elements h (clone_value h rounds fuel object_proto) v rounds 0 length [] c1 with
           | inl (a, c) => inl (kArray a, leave c (JS_VALUE_GET_PTR v))
           | inr e => inr e
           end
       end
     else
       match JS_GetOwnPropertyNames h v with
       | None => inr "object properties are unreadable"%string
       | Some names =>
           match clone_members h (clone_value h rounds fuel object_proto) v names [] c1 with
           | inl (o, c) => inl (kObject o, leave c (JS_VALUE_GET_PTR v))
           | inr e => inr e
           end
       end)
  ∧ (∀ u, child v u → off_path u c1).
Proof.
  intros Hv Hk Hg Hoff Hn Hd c1. split.
  - cbn [clone_value]. rewrite (proj2 (Z.ltb_ge _ _)) by lia. rewrite (proj2 (Z.ltb_ge kMaxBindingCloneNodes _)) by (cbn; lia).
    rewrite container_leaf by done. unfold clone_container. rewrite bool_decide_eq_false_2; [done|]. by apply Hoff.
  - intros u Hu w Hw Ho. cbn [ancestors c1]. rewrite elem_of_union, elem_of_singleton. intros [E|Hin].
    + apply (ptr_identity w v Ho Hv) in E as ->. by eapply grounded_acyclic.
    + by eapply Hoff; [eapply rtc_l|..].
Qed.

Lemma clone_complete :
  (∀ v n, reads v n → ∀ fuel c, fits c (neutral_nodes n) (neutral_bytes n) (neutral_depth n) → neutral_depth n <= Z.of_nat fuel →
     off_path v c → ∃ c', clone_value h rounds fuel object_proto v c = inl (n, c'))
  ∧ (∀ v i l a, reads_elements v i l a → ∀ fuel k out c, fits c (nodes_of a) (bytes_of a) (depth_of a) → depth_of a <= Z.of_nat fuel →
       zlen a < Z.of_nat k →
       (∀ j d, i <= j < l → JS_GetOwnProperty h v (Atom_index j) = Own_present d → off_path (descriptor_value d) c) →
       ∃ c', clone_elements h (clone_value h rounds fuel object_proto) v k i l out c = inl (out ++ a, c'))
  ∧ (∀ v names o, reads_members v names o → ∀ fuel out c,
       fits c (nodes_of (map snd o)) (keys_of o + bytes_of (map snd o)) (depth_of (map snd o)) → depth_of (map snd o) <= Z.of_nat fuel →
       (∀ atom text d, atom ∈ names → JS_AtomToText h atom = Some text → c_string text ≠ [] →
          JS_GetOwnProperty h v atom = Own_present d → off_path (descriptor_value d) c) →
       ∃ c', clone_members h (clone_value h rounds fuel object_proto) v names out c = inl (out ++ o, c')).
Proof.
  (* after a child, the rest still fits *)
  assert (∀ fuel u c n c1 m b d, clone_value h rounds fuel object_proto u c = inl (n, c1) →
            fits c (neutral_nodes n + m) (neutral_bytes n + b) (Z.max (neutral_depth n) d) → 0 <= m → fits c1 m b d ∧ ancestors c1 = ancestors c) as Hnext.
  { intros fuel u c n c1 m b d E (F0 & F1 & F2 & F3) Hm. pose proof (neutral_sizes n) as (S1 & _).
    destruct (clone_value_sound _ _ _ _ _ _ E) as [_ [C1 C2 C3 C4 C5 C6 C7]]; [lia|]. unfold fits. split_and!; lia || done. }
  apply reads_mutind.
  1-9: intros; eapply leaf_clones; try done; by econstructor.
  - intros v length a Ho Harr Hl He IH fuel c (F0 & F1 & F2 & F3) Hf Hoff. change (neutral_nodes (kArray a)) with (1 + nodes_of a) in *.
    change (neutral_bytes (kArray a)) with (bytes_of a) in *. change (neutral_depth (kArray a)) with (1 + depth_of a) in *.
    pose proof (all_sizes a) as (S1 & S2 & S3). destruct fuel as [|fuel]; [lia|]. assert (reads v (kArray a)) as Hr by (by eapply reads_array).
    destruct (container_enters v fuel c) as [-> Hch]; [done|by left|by eapply (proj1 reads_grounded)|done|lia..|]. rewrite Harr, Hl.
    destruct (IH fuel rounds [] (mkCloneContext (depth c + 1) (nodes c + 1) (clone_bytes c) ({[JS_VALUE_GET_PTR v]} ∪ ancestors c)))
      as (c' & ->); [unfold fits; split_and!; cbn [nodes clone_bytes depth]; lia|lia|pose proof (zlen_nodes a); lia| |by eexists].
    intros j d Hj Hd. apply Hch. by eapply child_element.
  - intros v names o Ho Harr Hp Hn Hm IH fuel c (F0 & F1 & F2 & F3) Hf Hoff. rewrite object_nodes, object_bytes, object_depth in *.
    pose proof (all_sizes (map snd o)) as (S1 & S2 & S3).
    destruct fuel as [|fuel]; [lia|]. assert (reads v (kObject o)) as Hr by (by eapply reads_object).
    destruct (container_enters v fuel c) as [-> Hch]; [done|by right|by eapply (proj1 reads_grounded)|done|lia..|]. rewrite Harr, Hn.
    destruct (IH fuel [] (mkCloneContext (depth c + 1) (nodes c + 1) (clone_bytes c) ({[JS_VALUE_GET_PTR v]} ∪ ancestors c)))
      as (c' & ->); [unfold fits; split_and!; cbn [nodes clone_bytes depth]; lia|lia| |by eexists].
    intros atom text d Hin Ht Hne Hd. apply Hch. by eapply child_member.
  - intros v index length Hle fuel k out c _ _ _ _. exists c. rewrite app_nil_r. destruct k; cbn [clone_elements]; by rewrite (proj2 (Z.leb_le _ _)).
  - intros v index length d n a Hlt Hd Ha Hr IHn Hrest IHa fuel k out c Hfit Hf Hk Hoff.
    unfold nodes_of, bytes_of, depth_of in Hfit, Hf. cbn [fold_right] in Hfit, Hf. fold (nodes_of a) (bytes_of a) (depth_of a) in *.
    pose proof (all_sizes a) as (S1 & S2 & S3). rewrite zlen_cons in Hk. destruct k as [|k]; [pose proof (zlen_nonneg a); lia|].
    destruct (IHn fuel c) as (c1 & E); [destruct Hfit as (? & ? & ? & ?); split_and!; lia|lia|by apply (Hoff index); [lia|]|].
    destruct (Hnext _ _ _ _ _ _ _ _ E Hfit S1) as [Hfit1 Hanc].
    destruct (IHa fuel k (out ++ [n]) c1 Hfit1) as (c' & E'); [lia|lia| |].
    { intros j d' Hj Hd' w Hw Ho. rewrite Hanc. eapply Hoff; [|done..]. lia. }
    exists c'. cbn [clone_elements]. rewrite (proj2 (Z.leb_gt _ _)) by done. rewrite Hd, Ha, E, E'. by rewrite <- app_assoc.
  - intros v index length n a Hlt Hd Hr IHn Hrest IHa fuel k out c Hfit Hf Hk Hoff.
    unfold nodes_of, bytes_of, depth_of in Hfit, Hf. cbn [fold_right] in Hfit, Hf. fold (nodes_of a) (bytes_of a) (depth_of a) in *.
    pose proof (all_sizes a) as (S1 & S2 & S3). rewrite zlen_cons in Hk. destruct k as [|k]; [pose proof (zlen_nonneg a); lia|].
    destruct (IHn fuel c) as (c1 & E); [destruct Hfit as (? & ? & ? & ?); split_and!; lia|lia|apply undefined_off_path|].
    destruct (Hnext _ _ _ _ _ _ _ _ E Hfit S1) as [Hfit1 Hanc].
    destruct (IHa fuel k (out ++ [n]) c1 Hfit1) as (c' & E'); [lia|lia| |].
    { intros j d' Hj Hd' w Hw Ho. rewrite Hanc. eapply Hoff; [|done..]. lia. }
    exists c'. cbn [clone_elements]. rewrite (proj2 (Z.leb_gt _ _)) by done. rewrite Hd, E, E'. by rewrite <- app_assoc.
  - intros v fuel out c _ _ _. exists c. cbn. by rewrite app_nil_r.
  - intros v atom names o Hskip Hm IH fuel out c Hfit Hf Hoff. destruct (IH fuel out c Hfit Hf) as (c' & E).
    { intros atom' text d Hin. apply Hoff. by right. }
    exists c'. cbn [clone_members]. destruct Hskip as [->|(text & -> & Et)]; [done|]. by rewrite bool_decide_eq_true_2.
  - intros v atom text d n names o Ht Hne Hd Ha Hr IHn Hm IH fuel out c Hfit Hf Hoff.
    unfold nodes_of, bytes_of, depth_of, keys_of in Hfit, Hf. cbn [map fold_right fst snd] in Hfit, Hf.
    fold (nodes_of (map snd o)) (bytes_of (map snd o)) (depth_of (map snd o)) (keys_of o) in *.
    pose proof (all_sizes (map snd o)) as (S1 & S2 & S3). pose proof (keys_nonneg o). pose proof (neutral_sizes n) as (S4 & S5 & S6).
    set (c0 := add_bytes c (zlen (c_string text))). destruct Hfit as (F0 & F1 & F2 & F3).
    destruct (IHn fuel c0) as (c1 & E); [split_and!; cbn; lia|lia|by eapply Hoff; [left|..]|].
    destruct (Hnext _ _ _ _ _ (nodes_of (map snd o)) (keys_of o + bytes_of (map snd o)) (depth_of (map snd o)) E) as [Hfit1 Hanc];
      [split_and!; cbn; lia|lia|].
    destruct (IH fuel (out ++ [(c_string text, n)]) c1 Hfit1) as (c' & E'); [lia| |].
    { intros atom' text' d' Hin Ht' Hne' Hd' w Hw Ho. rewrite Hanc. by eapply Hoff; [right|..]. }
    exists c'. cbn [clone_members]. rewrite Ht, bool_decide_eq_false_2 by done. rewrite (proj2 (Z.ltb_ge _ _)) by lia.
    fold c0. rewrite Hd, Ha, E, E'. by rewrite <- app_assoc.
Qed.
End complete.
End reads.
