(* ===== verification/BindingRoundtrip.v ===== *)
(** * BindingRoundtrip: what crosses between two runtimes, and back

    [JsEngine] is a small engine that runs the operations of BindingRpc, for
    concrete runs. [clone_exact] says which values a clone accepts, and
    [neutral_roundtrip] that a neutral value written into a runtime is read back
    as itself, against [QuickJSLaws]: what the source relies on of the values
    the engine creates. *)
From Stdlib Require Import ZArith Lia.
From S2P Require Import Prelude Jansson AuditRecords BindingRpc.
Local Open Scope Z_scope.

(** ** A small engine *)

Inductive JsValue :=
| Js_undefined | Js_null | Js_bool (b : bool) | Js_number (n : Z) | Js_bigint (text : bytes) | Js_string (s : bytes)
| Js_object (p : Z).
#[export] Instance JsValue_eq_dec : EqDecision JsValue.
Proof. solve_decision. Defined.

Inductive JsClass := Class_object | Class_array | Class_date (ms : Z) | Class_uint8array (b : bytes) | Class_map.

#[export] Instance JSAtom_eq_dec : EqDecision JSAtom.
Proof. solve_decision. Defined.

Record JsObject := mkJsObject {
  js_class : JsClass;
  js_proto : JsValue;
  js_length : Z;
  js_properties : list (JSAtom * JSPropertyDescriptor JsValue)
}.

(** An address is the position of the object. *)
Abbreviation JsHeap := (list JsObject).

Definition js_lookup (h : JsHeap) (v : JsValue) : option JsObject :=
  match v with Js_object p => if 0 <=? p then h !! Z.to_nat p else None | _ => None end.

Definition js_is_class (c : JsClass) (t : JsTest) : bool :=
  match t, c with
  | Is_object, _ => true
  | Is_array, Class_array | Is_date, Class_date _ | Is_uint8array, Class_uint8array _ | Is_map, Class_map => true
  | _, _ => false
  end.

Definition js_is (t : JsTest) (h : JsHeap) (v : JsValue) : bool :=
  match v, t with
  | Js_undefined, Is_undefined | Js_null, Is_null | Js_bool _, Is_bool | Js_number _, Is_number | Js_bigint _, Is_bigint
  | Js_string _, Is_string => true
  | Js_object _, _ => match js_lookup h v with Some o => js_is_class (js_class o) t | None => false end
  | _, _ => false
  end.

Definition js_own (h : JsHeap) (v : JsValue) (a : JSAtom) : OwnProperty JsValue :=
  match js_lookup h v with
  | None => Own_error
  | Some o => match find (λ p, bool_decide (p.1 = a)) (js_properties o) with Some p => Own_present p.2 | None => Own_absent end
  end.

(** Indices come first, in order; names in the order they were set. *)
Fixpoint insert_index (n : Z) (l : list Z) : list Z :=
  match l with [] => [n] | m :: l' => if n <=? m then n :: l else m :: insert_index n l' end.

Definition js_names (o : JsObject) : list JSAtom :=
  let atoms := (js_properties o).*1 in
  map Atom_index (fold_right insert_index [] (omap (λ a, match a with Atom_index n => Some n | Atom_name _ => None end) atoms))
  ++ List.filter (λ a, match a with Atom_name _ => true | Atom_index _ => false end) atoms.

Definition js_alloc (o : JsObject) (h : JsHeap) : option JsValue * JsHeap := (Some (Js_object (zlen h)), h ++ [o]).

Fixpoint js_set_property (a : JSAtom) (v : JsValue) (l : list (JSAtom * JSPropertyDescriptor JsValue))
    : list (JSAtom * JSPropertyDescriptor JsValue) :=
  match l with
  | [] => [(a, mkDescriptor v false false)]
  | (b, d) :: l => if bool_decide (b = a) then (a, mkDescriptor v false false) :: l else (b, d) :: js_set_property a v l
  end.

Definition js_set (v : JsValue) (a : JSAtom) (w : JsValue) (h : JsHeap) : bool * JsHeap :=
  match v, js_lookup h v with
  | Js_object p, Some o =>
      let length := match a, js_class o with Atom_index n, Class_array => Z.max (js_length o) (n + 1) | _, _ => js_length o end in
      (true, <[Z.to_nat p := mkJsObject (js_class o) (js_proto o) length (js_set_property a w (js_properties o))]> h)
  | _, _ => (false, h)
  end.

(** A decimal index below [2^32 - 1], as an index key. *)
Definition index_key (key : bytes) : option Z :=
  if bool_decide (key = []) || negb (forallb is_digit key) || (10 <? zlen key) then None
  else
    let n := fold_left (λ k c, 10 * k + (u8 c - 48)) key 0 in
    if bool_decide (decimal n = key) && (n <? 2 ^ 32 - 1) then Some n else None.

Definition js_atom (key : bytes) : JSAtom := match index_key key with Some n => Atom_index n | None => Atom_name key end.

(** A bigint literal as it is printed. *)
Fixpoint strip_zeros (digits : bytes) : bytes :=
  match digits with
  | c :: rest => if bool_decide (c = Byte.x30) && negb (bool_decide (rest = [])) then strip_zeros rest else digits
  | [] => []
  end.

Definition bigint_text (literal : bytes) : bytes :=
  let digits := strip_zeros (bigint_digits literal) in
  if bool_decide (head literal = Some Byte.x2d) && negb (bool_decide (digits = [Byte.x30])) then Byte.x2d :: digits else digits.

Definition js_eval (text : bytes) (h : JsHeap) : option JsValue * JsHeap :=
  if bool_decide (text = bs "({})") then js_alloc (mkJsObject Class_object (Js_object 0) 0 []) h
  else
    let literal := ztake (zlen text - 3) (zdrop 1 text) in
    if bool_decide (text = bs "(" ++ literal ++ bs "n)") && bigint_ok literal then (Some (Js_bigint (bigint_text literal)), h) else (None, h).

Definition js_biguint (text : bytes) : Z :=
  let z := fold_left (λ k c, 10 * k + (u8 c - 48)) (bigint_digits text) 0 in
  u64 (if bool_decide (head text = Some Byte.x2d) then - z else z).

#[export] Instance JsEngine : QuickJS JsHeap JsValue Z := {
  js_undefined := Js_undefined;
  js_null := Js_null;
  js_bool := Js_bool;
  JS_Is := js_is;
  JS_ToBool h v := match v with Js_bool b => b | _ => false end;
  JS_ToFloat64 h v := match v with Js_number n => Some n | _ => None end;
  JS_ToText h v := match v with Js_string s => Some s | Js_bigint s => Some s | _ => None end;
  JS_GetDateValue h v := match js_lookup h v with Some o => match js_class o with Class_date d => Some d | _ => None end | None => None end;
  JS_GetArrayBuffer h v := None;
  JS_GetUint8Array h v := match js_lookup h v with Some o => match js_class o with Class_uint8array b => Some b | _ => None end | None => None end;
  JS_CountEnumerableSymbols h v := match js_lookup h v with Some _ => Some 0 | None => None end;
  JS_GetPrototype h v := js_proto <$> js_lookup h v;
  JS_VALUE_GET_PTR v := match v with Js_object p => p | _ => -1 end;
  JS_GetLength h v := js_length <$> js_lookup h v;
  JS_GetOwnProperty := js_own;
  JS_GetOwnPropertyNames h v := js_names <$> js_lookup h v;
  JS_AtomToText h a := Some match a with Atom_index n => decimal n | Atom_name t => t end;
  JS_NewFloat64 d h := (Some (Js_number d), h);
  JS_EvalText := js_eval;
  JS_NewStringLen s h := (Some (Js_string s), h);
  JS_NewDate d := js_alloc (mkJsObject (Class_date d) Js_null 0 []);
  JS_NewUint8ArrayCopy b := js_alloc (mkJsObject (Class_uint8array b) Js_null 0 []);
  JS_NewArray := js_alloc (mkJsObject Class_array (Js_object 1) 0 []);
  JS_NewObjectProtoNull := js_alloc (mkJsObject Class_object Js_null 0 []);
  JS_SetPropertyUint32 v i w := js_set v (Atom_index i) w;
  JS_SetPropertyText v key w := js_set v (js_atom key) w;
  JS_NewBigUint64 n h := (Some (Js_bigint (decimal n)), h);
  JS_ToBigUint64 h v := match v with Js_bigint t => Some (js_biguint t) | _ => None end
}.

(** The intrinsic prototypes. *)
Definition new_JsHeap : JsHeap := [mkJsObject Class_object Js_null 0 []; mkJsObject Class_array (Js_object 0) 0 []].


#[export] Instance JsEngine_reads h : ReadLaws h.
Proof.
  split; [|done]. intros v w (_ & Hv & _) (_ & Hw & _) E. destruct v, w; try done. cbn in E. by subst.
Qed.

(** A value with every kind of plain data in it. *)
Definition sample_neutral : NeutralValue Z :=
  kObject [(bs "list", kArray [kNumber 1; kUndefined; kNull; kBool true; kArray []]); (bs "big", kBigInt (bs "-18446744073709551616"));
           (bs "text", kString (bs "hello")); (bs "when", kDate 1700000000000); (bs "data", kBytes [Byte.x00; Byte.xff]); (bs "o", kObject [])].

Definition sample_heap : JsHeap := (neutral_to_js sample_neutral new_JsHeap).2.


(** ** What the engine's constructors promise *)

Section laws.
Context {heap V real : Type} `{QuickJS heap V real}.

(** Everything the clone can ask about [v] has the same answer. *)
Record same_on (h h' : heap) (v : V) : Prop := {
  so_is t : JS_Is t h' v = JS_Is t h v;
  so_bool : JS_ToBool h' v = JS_ToBool h v;
  so_float : JS_ToFloat64 h' v = JS_ToFloat64 h v;
  so_text : JS_ToText h' v = JS_ToText h v;
  so_date : JS_GetDateValue h' v = JS_GetDateValue h v;
  so_buffer : JS_GetArrayBuffer h' v = JS_GetArrayBuffer h v;
  so_uint8array : JS_GetUint8Array h' v = JS_GetUint8Array h v;
  so_symbols : JS_CountEnumerableSymbols h' v = JS_CountEnumerableSymbols h v;
  so_prototype : JS_GetPrototype h' v = JS_GetPrototype h v;
  so_prototype_null p : JS_GetPrototype h v = Some p → JS_Is Is_null h' p = JS_Is Is_null h p;
  so_length : JS_GetLength h' v = JS_GetLength h v;
  so_own a : JS_GetOwnProperty h' v a = JS_GetOwnProperty h v a;
  so_names : JS_GetOwnPropertyNames h' v = JS_GetOwnPropertyNames h v
}.

(** An array with these elements, and an object without a prototype with these
    members. *)
Record is_array (h : heap) (v : V) (elements : list V) : Prop := {
  ia_ordinary : ordinary h v;
  ia_array : JS_Is Is_array h v = true;
  ia_length : JS_GetLength h v = Some (zlen elements);
  ia_own k u : elements !! k = Some u → JS_GetOwnProperty h v (Atom_index (Z.of_nat k)) = Own_present (mkDescriptor u false false)
}.

Record is_object (h : heap) (v : V) (members : list (bytes * V)) : Prop := {
  io_ordinary : ordinary h v;
  io_array : JS_Is Is_array h v = false;
  io_prototype : JS_GetPrototype h v = Some js_null;
  io_names : JS_GetOwnPropertyNames h v = Some (map Atom_name members.*1);
  io_own key u : (key, u) ∈ members → JS_GetOwnProperty h v (Atom_name key) = Own_present (mkDescriptor u false false)
}.
End laws.

(** A bigint as the engine prints it. *)
Definition canonical_bigint (text : bytes) : bool :=
  bigint_ok text && negb (bool_decide (head text = Some Byte.x2b))
  && (bool_decide (text = [Byte.x30]) || negb (bool_decide (head (bigint_digits text) = Some Byte.x30))).

(** A text that is a C string of valid UTF-8, and a key that is one, is not
    empty and is not an array index. *)
Definition plain_text (s : bytes) : bool := utf8_check_string s && bool_decide (c_string s = s).
Definition plain_key (key : bytes) : bool :=
  plain_text key && negb (bool_decide (key = [])) && bool_decide (index_key key = None).

(** The engine's documented behaviour: [valid] is a live value, creation leaves
    live values as they are, and setting a property changes one object. *)
Class QuickJSLaws (heap V real : Type) `{QuickJS heap V real} := {
  valid : heap → V → Prop;
  time_value : real → Prop;
  valid_undefined h : valid h js_undefined ∧ primitive h js_undefined = Some Is_undefined;
  valid_null h : valid h js_null ∧ primitive h js_null = Some Is_null;
  valid_bool h b : valid h (js_bool b) ∧ primitive h (js_bool b) = Some Is_bool ∧ JS_ToBool h (js_bool b) = b;
  object_address h v w : ordinary h v → ordinary h w → JS_VALUE_GET_PTR v = JS_VALUE_GET_PTR w → v = w;
  atom_text h key : JS_AtomToText h (Atom_name key) = Some key;
  atom_stable h h' a : JS_AtomToText h' a = JS_AtomToText h a;
  extends h h' := ∀ v, valid h v → valid h' v ∧ same_on h h' v;
  only a h h' := ∀ v, valid h v → valid h' v ∧ (v ≠ a → same_on h h' v);
  new_number d h v h' : JS_NewFloat64 d h = (Some v, h') →
    extends h h' ∧ valid h' v ∧ primitive h' v = Some Is_number ∧ JS_ToFloat64 h' v = Some d;
  new_string s h v h' : utf8_check_string s = true → JS_NewStringLen s h = (Some v, h') →
    extends h h' ∧ valid h' v ∧ primitive h' v = Some Is_string ∧ JS_ToText h' v = Some s;
  new_bigint t h v h' : canonical_bigint t = true → JS_EvalText (bs "(" ++ t ++ bs "n)") h = (Some v, h') →
    extends h h' ∧ valid h' v ∧ primitive h' v = Some Is_bigint ∧ JS_ToText h' v = Some t;
  new_date d h v h' : time_value d → JS_NewDate d h = (Some v, h') →
    extends h h' ∧ valid h' v ∧ primitive h' v = Some Is_date ∧ JS_GetDateValue h' v = Some d;
  new_bytes b h v h' : JS_NewUint8ArrayCopy b h = (Some v, h') →
    extends h h' ∧ valid h' v ∧ primitive h' v = None ∧ JS_Is Is_object h' v = true ∧ exotic h' v = Some Is_uint8array
    ∧ JS_GetUint8Array h' v = Some b;
  new_array h v h' : JS_NewArray h = (Some v, h') → extends h h' ∧ valid h' v ∧ ¬ valid h v ∧ is_array h' v [];
  new_object h v h' : JS_NewObjectProtoNull h = (Some v, h') → extends h h' ∧ valid h' v ∧ ¬ valid h v ∧ is_object h' v [];
  new_probe h v h' : JS_EvalText (bs "({})") h = (Some v, h') → extends h h';
  set_element h a us u h' : valid h a → valid h u → is_array h a us → zlen us < 2 ^ 32 - 1 →
    JS_SetPropertyUint32 a (zlen us) u h = (true, h') →
    only a h h' ∧ is_array h' a (us ++ [u]);
  set_member h o us key u h' : valid h o → valid h u → is_object h o us → plain_key key = true → key ∉ us.*1 →
    JS_SetPropertyText o key u h = (true, h') →
    only o h h' ∧ is_object h' o (us ++ [(key, u)]);
  biguint_roundtrip n h v h' : 0 <= n < 2 ^ 64 → JS_NewBigUint64 n h = (Some v, h') →
    JS_Is Is_bigint h' v = true ∧ JS_ToBigUint64 h' v = Some n
}.

(** ** There and back *)

Section roundtrip.
Context {heap V real : Type} `{QuickJSLaws heap V real}.

(** The neutral values that are read back as they were written. *)
Fixpoint crosses (n : NeutralValue real) : Prop :=
  match n with
  | kBigInt t => canonical_bigint t = true
  | kString s => plain_text s = true
  | kDate d => time_value d
  | kArray a => fold_right (λ x P, crosses x ∧ P) True a
  | kObject o => NoDup o.*1 ∧ fold_right (λ x P, plain_key x.1 = true ∧ crosses x.2 ∧ P) True o
  | _ => True
  end.

Lemma primitive_same h h' v : same_on h h' v → primitive h' v = primitive h v.
Proof. intros S. unfold primitive. cbn [find]. by rewrite !(so_is _ _ _ S). Qed.

Lemma exotic_same h h' v : same_on h h' v → exotic h' v = exotic h v.
Proof. intros S. unfold exotic. cbn [find]. by rewrite !(so_is _ _ _ S). Qed.

Lemma ordinary_same h h' v : same_on h h' v → ordinary h' v ↔ ordinary h v.
Proof. intros S. unfold ordinary. by rewrite (primitive_same _ _ _ S), (exotic_same _ _ _ S), (so_is _ _ _ S), (so_symbols _ _ _ S). Qed.

Lemma child_same h h' v u : same_on h h' v → child h' v u ↔ child h v u.
Proof.
  intros S. split; intros Hc.
  - destruct Hc as [l i d Ho Ha Hl Hi Hd|names atom text d Ho Ha Hn Hin Ht Hne Hd];
      rewrite (ordinary_same _ _ _ S), (so_is _ _ _ S), ?(so_length _ _ _ S), ?(so_names _ _ _ S), ?(so_own _ _ _ S) in *;
      [by eapply child_element|rewrite (atom_stable h h') in Ht; by eapply child_member].
  - destruct Hc as [l i d Ho Ha Hl Hi Hd|names atom text d Ho Ha Hn Hin Ht Hne Hd];
      rewrite <- (ordinary_same _ _ _ S), <- (so_is _ _ _ S) in *; rewrite <- (so_own _ _ _ S) in Hd;
      [rewrite <- (so_length _ _ _ S) in Hl; by eapply child_element|].
    rewrite <- (so_names _ _ _ S) in Hn. rewrite <- (atom_stable h h') in Ht. by eapply child_member.
Qed.

(** A tree reads the same in two heaps that agree on a set of values that has
    the tree's children. *)
Lemma reads_same h h' p p' (S : V → Prop) : (∀ w, S w → same_on h h' w) → (∀ w u, S w → child h w u → S u) →
  S js_undefined → JS_VALUE_GET_PTR p' = JS_VALUE_GET_PTR p →
  (∀ v n, reads h p v n → S v → reads h' p' v n)
  ∧ (∀ v i l a, reads_elements h p v i l a → same_on h h' v →
       (∀ j d, i <= j < l → JS_GetOwnProperty h v (Atom_index j) = Own_present d → S (descriptor_value d)) → reads_elements h' p' v i l a)
  ∧ (∀ v names o, reads_members h p v names o → same_on h h' v →
       (∀ atom text d, atom ∈ names → JS_AtomToText h atom = Some text → c_string text ≠ [] →
          JS_GetOwnProperty h v atom = Own_present d → S (descriptor_value d)) → reads_members h' p' v names o).
Proof.
  intros Hs Hc Hu Hp. apply reads_mutind.
  1-2: intros v E Sv; constructor; by rewrite (primitive_same _ _ _ (Hs _ Sv)).
  - intros v E Sv. rewrite <- (so_bool _ _ _ (Hs _ Sv)). constructor. by rewrite (primitive_same _ _ _ (Hs _ Sv)).
  - intros v d E E1 Sv. constructor; [by rewrite (primitive_same _ _ _ (Hs _ Sv))|by rewrite (so_float _ _ _ (Hs _ Sv))].
  - intros v d E E1 Sv. constructor; [by rewrite (primitive_same _ _ _ (Hs _ Sv))|by rewrite (so_text _ _ _ (Hs _ Sv))].
  - intros v d E E1 Sv. constructor; [by rewrite (primitive_same _ _ _ (Hs _ Sv))|by rewrite (so_text _ _ _ (Hs _ Sv))].
  - intros v d E E1 Sv. constructor; [by rewrite (primitive_same _ _ _ (Hs _ Sv))|by rewrite (so_date _ _ _ (Hs _ Sv))].
  - intros v b E E1 E2 E3 Sv. apply reads_buffer; by rewrite ?(primitive_same _ _ _ (Hs _ Sv)), ?(so_is _ _ _ (Hs _ Sv)), ?(exotic_same _ _ _ (Hs _ Sv)), ?(so_buffer _ _ _ (Hs _ Sv)).
  - intros v b E E1 E2 E3 Sv. apply reads_uint8array; by rewrite ?(primitive_same _ _ _ (Hs _ Sv)), ?(so_is _ _ _ (Hs _ Sv)), ?(exotic_same _ _ _ (Hs _ Sv)), ?(so_uint8array _ _ _ (Hs _ Sv)).
  - intros v l a Ho Ha Hl _ IH Sv. pose proof (Hs _ Sv) as S1. eapply reads_array; [by rewrite (ordinary_same _ _ _ S1)|by rewrite (so_is _ _ _ S1)|by rewrite (so_length _ _ _ S1)|].
    apply IH; [done|]. intros j d Hj Hd. eapply Hc; [exact Sv|]. by eapply child_element.
  - intros v names o Ho Ha (q & Hq & Hqp) Hn _ IH Sv. pose proof (Hs _ Sv) as S1.
    eapply reads_object; [by rewrite (ordinary_same _ _ _ S1)|by rewrite (so_is _ _ _ S1)| |by rewrite (so_names _ _ _ S1)|].
    + exists q. rewrite (so_prototype _ _ _ S1), Hp, (so_prototype_null _ _ _ S1 q Hq). done.
    + apply IH; [done|]. intros atom text d Hin Ht Hne Hd. eapply Hc; [exact Sv|]. by eapply child_member.
  - intros v i l Hl _ _. by constructor.
  - intros v i l d n a Hlt Hd Hacc _ IHn _ IH S1 Hch. eapply reads_element; [done|by rewrite (so_own _ _ _ S1)|done|..].
    + apply IHn, (Hch i); [lia|done].
    + apply IH; [done|]. intros j d' Hj. apply Hch. lia.
  - intros v i l n a Hlt Hd _ IHn _ IH S1 Hch. eapply reads_hole; [done|by rewrite (so_own _ _ _ S1)|by apply IHn|].
    apply IH; [done|]. intros j d' Hj. apply Hch. lia.
  - intros v _ _. by constructor.
  - intros v atom names o Hskip _ IH S1 Hch. apply reads_skipped; [by rewrite (atom_stable h h')|]. apply IH; [done|].
    intros atom' text d Hin. apply Hch. by right.
  - intros v atom text d n names o Ht Hne Hd Hacc _ IHn _ IH S1 Hch.
    eapply reads_member; [by rewrite (atom_stable h h')|done|by rewrite (so_own _ _ _ S1)|done|..].
    + apply IHn. by eapply Hch; [left|..].
    + apply IH; [done|]. intros atom' text' d' Hin. apply Hch. by right.
Qed.

(** [v] is the tree [n] in [h], and its containers are newer than [h0]. *)
Definition builds (p : V) (h0 h : heap) (v : V) (n : NeutralValue real) : Prop :=
  reads h p v n ∧ ∀ w, rtc (child h) v w → valid h w ∧ (ordinary h w → ¬ valid h0 w).

Lemma undefined_same h h' : extends h h' → same_on h h' js_undefined.
Proof. intros He. apply He, valid_undefined. Qed.

Lemma undefined_child h u : ¬ child h js_undefined u.
Proof.
  intros Hc. destruct (valid_undefined h) as [_ E].
  assert (ordinary h js_undefined) as (E' & _) by (by destruct Hc). congruence.
Qed.

Lemma leaf_child h v u : primitive h v ≠ None ∨ exotic h v ≠ None → ¬ child h v u.
Proof. intros Hv Hc. assert (ordinary h v) as (E1 & _ & E2 & _) by (by destruct Hc). by destruct Hv. Qed.

Lemma builds_leaf p h0 h v n : reads h p v n → valid h v → primitive h v ≠ None ∨ exotic h v ≠ None → builds p h0 h v n.
Proof.
  intros Hr Hv Hl. split; [done|]. intros w Hw. apply rtc_inv in Hw as [<-|(u & Hu & _)]; [|by apply leaf_child in Hu].
  split; [done|]. intros (E1 & _ & E2 & _). by destruct Hl.
Qed.

(** Reachability where the heaps agree. *)
Lemma reach_same h h' v w : (∀ w, rtc (child h) v w → same_on h h' w) → rtc (child h') v w → rtc (child h) v w.
Proof.
  intros Hs Hw. induction Hw as [w|v u w Hu Hw IH]; [done|]. apply (child_same h h' v u ltac:(by apply Hs)) in Hu.
  eapply rtc_l; [exact Hu|]. apply IH. intros x Hx. apply Hs. by eapply rtc_l.
Qed.

Lemma builds_same p h0 h h' v n : builds p h0 h v n → valid h js_undefined → same_on h h' js_undefined →
  (∀ w, valid h w → (ordinary h w → ¬ valid h0 w) → valid h' w ∧ same_on h h' w) → builds p h0 h' v n.
Proof.
  intros [Hr Hv] Hu Hus Hs. assert (∀ w, rtc (child h) v w → valid h' w ∧ same_on h h' w) as Hall by (intros w Hw; by apply Hs; apply Hv).
  split.
  - apply (proj1 (reads_same h h' p p (λ w, rtc (child h) v w ∨ w = js_undefined) ltac:(intros w [Hw| ->]; [by apply Hall|done])
      ltac:(intros w u [Hw| ->] Hc; [left; by eapply rtc_r|by apply undefined_child in Hc]) ltac:(by right) eq_refl)); [done|by left].
  - intros w Hw. apply (reach_same h h' v w ltac:(intros x Hx; by apply Hall)) in Hw. split; [by apply Hall|].
    rewrite (ordinary_same h h' w) by (by apply Hall). by apply Hv.
Qed.

Lemma builds_older p h0 h1 h v n : builds p h0 h v n → (∀ w, valid h1 w → valid h0 w) → builds p h1 h v n.
Proof. intros [Hr Hv] Hle. split; [done|]. intros w Hw. destruct (Hv w Hw) as [Hw1 Hw2]. split; [done|]. intros Ho Hval. by apply Hw2; [|apply Hle]. Qed.

Lemma same_refl h v : same_on h h v.
Proof. by split. Qed.

Lemma same_trans h1 h2 h3 v : same_on h1 h2 v → same_on h2 h3 v → same_on h1 h3 v.
Proof.
  intros [] []. split; intros; try congruence. rewrite so_prototype_null1 by congruence. by apply so_prototype_null0.
Qed.

Lemma only_trans a h1 h2 h3 : only a h1 h2 → only a h2 h3 → only a h1 h3.
Proof.
  intros H12 H23 w Hw. destruct (H12 w Hw) as [V2 S2]. destruct (H23 w V2) as [V3 S3]. split; [done|].
  intros Hne. eapply same_trans; [by apply S2|by apply S3].
Qed.

Lemma extends_only a h h' : extends h h' → only a h h'.
Proof. intros He w Hw. destruct (He w Hw). by split. Qed.

Lemma builds_only p a h0 h h' v n : builds p h0 h v n → valid h0 a → ordinary h a → only a h h' → builds p h0 h' v n.
Proof.
  intros Hb Ha Ho Hon. assert (∀ w, valid h w → (ordinary h w → ¬ valid h0 w) → w ≠ a) as Hne by (intros w _ Hw ->; by apply Hw).
  destruct (valid_undefined h) as [Hu Eu]. assert (js_undefined ≠ a) as Hua.
  { intros <-. destruct Ho as (E & _). congruence. }
  eapply builds_same; [exact Hb|done|by apply Hon|]. intros w Hw Hw'. destruct (Hon w Hw) as [? Hs]. split; [done|]. by apply Hs, Hne.
Qed.

(** The extension of a heap builds nothing less. *)
Lemma builds_extends p h0 h h' v n : builds p h0 h v n → extends h h' → builds p h0 h' v n.
Proof. intros Hb He. eapply builds_same; [exact Hb|apply valid_undefined|by apply undefined_same|]. intros w Hw _. by apply He. Qed.

Lemma zlen_snoc {A} (l : list A) x : zlen (l ++ [x]) = zlen l + 1.
Proof. by rewrite zlen_app. Qed.

(** What writing a neutral value achieves. *)
Definition writes (n : NeutralValue real) : Prop :=
  ∀ p h v h', crosses n → neutral_nodes n < 2 ^ 32 - 1 → neutral_to_js n h = (Some v, h') →
    extends h h' ∧ valid h' v ∧ builds p h h' v n.

(** One step of either loop: a child is written, then set on the container. *)
Lemma child_written p a h1 h n u h2 : writes n → crosses n → neutral_nodes n < 2 ^ 32 - 1 → only a h1 h →
  neutral_to_js n h = (Some u, h2) → extends h h2 ∧ only a h1 h2 ∧ valid h2 u ∧ builds p h1 h2 u n.
Proof.
  intros Hw Hc Hn Hon E. destruct (Hw p _ _ _ Hc Hn E) as (He & Hu & Hb). split_and!; [done| |done|].
  - eapply only_trans; [exact Hon|by apply extends_only].
  - eapply builds_older; [exact Hb|]. intros w Hv. by apply Hon.
Qed.

Lemma is_array_same h h' a us : same_on h h' a → is_array h a us → is_array h' a us.
Proof.
  intros S [I1 I2 I3 I4]. split; [by apply (ordinary_same h h')|by rewrite (so_is _ _ _ S)|by rewrite (so_length _ _ _ S)|].
  intros k u Hk. rewrite (so_own _ _ _ S). by apply I4.
Qed.

Lemma is_object_same h h' o us : same_on h h' o → is_object h o us → is_object h' o us.
Proof.
  intros S [I1 I2 I3 I4 I5].
  split; [by apply (ordinary_same h h')|by rewrite (so_is _ _ _ S)|by rewrite (so_prototype _ _ _ S)|by rewrite (so_names _ _ _ S)|].
  intros k u Hk. rewrite (so_own _ _ _ S). by apply I5.
Qed.

Lemma set_elements_builds p a h1 ns : Forall writes ns → valid h1 a → ∀ h us ms v h', only a h1 h → is_array h a us →
  Forall2 (builds p h1 h) us ms → Forall crosses ns → zlen us + nodes_of ns < 2 ^ 32 - 1 →
  set_elements neutral_to_js a (zlen us) ns h = (Some v, h') →
  v = a ∧ only a h1 h' ∧ ∃ us', is_array h' a us' ∧ Forall2 (builds p h1 h') us' (ms ++ ns).
Proof.
  intros Hws Ha. induction Hws as [|n ns Hw Hws IH]; intros h us ms v h' Hon Hi Hb Hc Hn E; cbn [set_elements] in E.
  - injection E as <- <-. rewrite app_nil_r. split_and!; [done..|by exists us].
  - apply Forall_cons in Hc as [Hc Hcs]. unfold nodes_of in Hn. cbn [fold_right] in Hn. fold (nodes_of ns) in Hn.
    pose proof (all_sizes ns) as (S1 & _). pose proof (neutral_sizes n) as (S2 & _). pose proof (zlen_nonneg us).
    destruct (neutral_to_js n h) as [[u|] h2] eqn:E1; [|done].
    destruct (child_written p a h1 h n u h2 Hw Hc ltac:(lia) Hon E1) as (He & Hon2 & Hu & Hbu).
    destruct (JS_SetPropertyUint32 a (zlen us) u h2) as [[] h3] eqn:E2; [|done].
    assert (valid h a) as Hva by (by apply Hon). destruct (He a Hva) as [Hva2 Hs2].
    pose proof (is_array_same _ _ _ _ Hs2 Hi) as Hi2.
    destruct (set_element _ _ _ _ _ Hva2 Hu Hi2 ltac:(lia) E2) as [Hon3 Hi3].
    rewrite <- (zlen_snoc us u) in E. rewrite (app_assoc ms [n] ns : ms ++ n :: ns = _).
    apply (IH h3 (us ++ [u]) (ms ++ [n]) v h'); [by eapply only_trans|done| |done|rewrite zlen_snoc; lia|done].
    apply Forall2_app; [|by constructor; [eapply builds_only; [exact Hbu|done|apply Hi2|done]|constructor]].
    eapply Forall2_impl; [exact Hb|]. intros w m Hwm. eapply builds_only; [by eapply builds_extends|done|apply Hi2|done].
Qed.

Lemma set_members_builds p a h1 o : Forall writes (map snd o) → valid h1 a → ∀ h us ms v h', only a h1 h → is_object h a us →
  Forall2 (λ u m, u.1 = m.1 ∧ builds p h1 h u.2 m.2) us ms → Forall crosses (map snd o) → Forall (λ m, plain_key m.1 = true) o →
  NoDup (ms.*1 ++ o.*1) → nodes_of (map snd o) < 2 ^ 32 - 1 →
  set_members neutral_to_js a o h = (Some v, h') →
  v = a ∧ only a h1 h' ∧ ∃ us', is_object h' a us' ∧ Forall2 (λ u m, u.1 = m.1 ∧ builds p h1 h' u.2 m.2) us' (ms ++ o).
Proof.
  intros Hws Ha. induction o as [|[key n] o IH]; intros h us ms v h' Hon Hi Hb Hc Hk Hnd Hn E; cbn [set_members] in E.
  - injection E as <- <-. rewrite app_nil_r. split_and!; [done..|by exists us].
  - apply Forall_cons in Hc as [Hc Hcs]. apply Forall_cons in Hk as [Hk Hks]. apply Forall_cons in Hws as [Hw Hws]. cbn in Hc, Hk, Hw.
    unfold nodes_of in Hn. cbn [map fold_right snd] in Hn. fold (nodes_of (map snd o)) in Hn.
    pose proof (all_sizes (map snd o)) as (S1 & _). pose proof (neutral_sizes n) as (S2 & _).
    destruct (neutral_to_js n h) as [[u|] h2] eqn:E1; [|done].
    destruct (child_written p a h1 h n u h2 Hw Hc ltac:(lia) Hon E1) as (He & Hon2 & Hu & Hbu).
    assert (c_string key = key) as Hkey by (unfold plain_key, plain_text in Hk; bools; done). rewrite Hkey in E.
    destruct (JS_SetPropertyText a key u h2) as [[] h3] eqn:E2; [|done].
    assert (valid h a) as Hva by (by apply Hon). destruct (He a Hva) as [Hva2 Hs2].
    pose proof (is_object_same _ _ _ _ Hs2 Hi) as Hi2. assert (us.*1 = ms.*1) as Hus.
    { clear -Hb. induction Hb as [|x y us ms [E _] _ IH]; cbn; [done|]. by rewrite E, IH. }
    assert (key ∉ us.*1) as Hnew.
    { rewrite Hus. intros Hin. apply NoDup_app in Hnd as (_ & Hd & _). apply (Hd key Hin). by left. }
    destruct (set_member _ _ _ _ _ _ Hva2 Hu Hi2 Hk Hnew E2) as [Hon3 Hi3].
    rewrite (app_assoc ms [(key, n)] o : ms ++ (key, n) :: o = _).
    apply (IH Hws h3 (us ++ [(key, u)]) (ms ++ [(key, n)]) v h'); [by eapply only_trans|done| |done..| |lia|done].
    + apply Forall2_app; [|by constructor; [split; [done|eapply builds_only; [exact Hbu|done|apply Hi2|done]]|constructor]].
      eapply Forall2_impl; [exact Hb|]. intros w m [Ew Hwm]. split; [done|]. eapply builds_only; [by eapply builds_extends|done|apply Hi2|done].
    + rewrite fmap_app, <- app_assoc. done.
Qed.

Lemma array_reads p h a us ns : is_array h a us → Forall2 (reads h p) us ns → reads h p a (kArray ns).
Proof.
  intros [I1 I2 I3 I4] Hr. eapply reads_array; [done..|].
  assert (∀ pre us' ns', us = pre ++ us' → Forall2 (reads h p) us' ns' → reads_elements h p a (zlen pre) (zlen us) ns') as Hgen; [|by apply (Hgen [] us)].
  clear Hr. intros pre us' ns' -> Hr'. revert pre I4 I3. induction Hr' as [|u n us' ns' Hu Hr' IH]; intros pre I4 I3.
  - constructor. by rewrite app_nil_r.
  - rewrite zlen_app, zlen_cons. pose proof (zlen_nonneg us'). eapply reads_element; [lia|apply (I4 (length pre)); by rewrite list_lookup_middle|done..|].
    specialize (IH (pre ++ [u])). rewrite <- app_assoc in IH. cbn [app] in IH. rewrite zlen_snoc in IH.
    rewrite zlen_app, zlen_cons in IH. apply IH; [done|]. by rewrite I3, zlen_app, zlen_cons.
Qed.

Lemma object_reads p h o us ms : is_object h o us → Forall (λ m, plain_key m.1 = true) ms →
  Forall2 (λ u m, u.1 = m.1 ∧ reads h p u.2 m.2) us ms → reads h p o (kObject ms).
Proof.
  intros [I1 I2 I3 I4 I5] Hk Hr. destruct (valid_null h) as [_ Enull].
  assert (JS_Is Is_null h js_null = true) as Hnull by (by apply (find_some (λ t, JS_Is t h js_null)) in Enull as [_ ?]).
  eapply reads_object; [done..|by exists js_null; split; [|left]|exact I4|]. clear I4. revert Hk I5.
  induction Hr as [|[key u] [key' n] us ms [Ek Hu] Hr IH]; intros Hk I5; [constructor|]. cbn in Ek, Hu. subst key'.
  apply Forall_cons in Hk as [Hk Hks]. cbn in Hk. unfold plain_key, plain_text in Hk. bools.
  assert (c_string key = key) as Ec by done.
  rewrite <- Ec at 2. cbn [map fmap list_fmap fst]. eapply reads_member; [apply atom_text|by rewrite Ec|apply I5; by left|done..|].
  apply IH; [done|]. intros key' u' Hin. apply I5. by right.
Qed.

Lemma array_child h a us u : is_array h a us → child h a u → u ∈ us.
Proof.
  intros [I1 I2 I3 I4] Hc. destruct Hc as [l i d _ _ Hl Hi Hd|]; [|congruence]. rewrite I3 in Hl. injection Hl as <-.
  unfold zlen in Hi. destruct (lookup_lt_is_Some_2 us (Z.to_nat i) ltac:(lia)) as [w Hw]. pose proof (I4 _ _ Hw) as Hd'.
  rewrite Z2Nat.id in Hd' by lia. rewrite Hd in Hd'. injection Hd' as ->. by eapply list_elem_of_lookup_2.
Qed.

Lemma object_child h o us u : is_object h o us → child h o u → u ∈ us.*2.
Proof.
  intros [I1 I2 I3 I4 I5] Hc. destruct Hc as [|names atom text d _ _ Hn Hin _ _ Hd]; [congruence|]. rewrite I4 in Hn. injection Hn as <-.
  apply list_elem_of_fmap in Hin as (key & -> & Hin). apply list_elem_of_fmap in Hin as ([key' w] & -> & Hin). cbn in Hd.
  rewrite (I5 _ _ Hin) in Hd. injection Hd as <-. cbn. apply list_elem_of_fmap. by exists (key', w).
Qed.

(** A container whose children are built is built. *)
Lemma container_builds p h0 h1 h a n (us : list V) : extends h0 h1 → valid h a → ¬ valid h0 a → reads h p a n →
  (∀ u, child h a u → u ∈ us) → (∀ u, u ∈ us → ∃ m, builds p h1 h u m) → builds p h0 h a n.
Proof.
  intros He Hv Hnew Hr Hch Hb. split; [done|]. intros w Hw. apply rtc_inv in Hw as [<-|(u & Hu & Hw)]; [done|].
  destruct (Hb u (Hch u Hu)) as (m & _ & Hm). destruct (Hm w Hw) as [V1 V2]. split; [done|]. intros Ho Hold. by apply V2; [|apply He].
Qed.

Lemma only_extends a h0 h1 h : extends h0 h1 → only a h1 h → ¬ valid h0 a → extends h0 h.
Proof.
  intros He Hon Hnew w Hw. destruct (He w Hw) as [V1 S1]. destruct (Hon w V1) as [V2 S2]. split; [done|].
  eapply same_trans; [exact S1|]. apply S2. by intros ->.
Qed.

Lemma only_refl a h : only a h h.
Proof. intros w Hw. split; [done|]. intros _. apply same_refl. Qed.

Lemma writes_array a : Forall writes a → writes (kArray a).
Proof.
  intros IH p h v h' Hc Hn E. cbn [neutral_to_js] in E. destruct (JS_NewArray h) as [[arr|] h1] eqn:E0; [|done].
  destruct (new_array _ _ _ E0) as (He & Hv & Hnew & Hi).
  assert (Forall crosses a) as Hcs by (clear -Hc; induction a as [|x a IH]; [by constructor|]; destruct Hc as [? ?]; constructor; [done|by apply IH]).
  change (neutral_nodes (kArray a)) with (1 + nodes_of a) in Hn.
  destruct (set_elements_builds p arr h1 a IH Hv h1 [] [] v h' (only_refl _ _) Hi ltac:(by constructor) Hcs ltac:(change (zlen (@nil V)) with 0; lia) E)
    as (-> & Hon & us & Hi' & Hb). cbn [app] in Hb. split_and!; [by eapply only_extends|by apply Hon|].
  eapply (container_builds _ _ h1 _ _ _ us); [done|by apply Hon|done| |by intros u; apply array_child|].
  - eapply array_reads; [done|]. eapply Forall2_impl; [exact Hb|]. by intros u m [? _].
  - intros u Hu. apply list_elem_of_lookup in Hu as [k Hk]. destruct (Forall2_lookup_l _ _ _ _ _ Hb Hk) as (m & _ & Hm). by exists m.
Qed.

Lemma writes_object o : Forall writes (map snd o) → writes (kObject o).
Proof.
  intros IH p h v h' Hc Hn E. cbn [neutral_to_js] in E. destruct (JS_NewObjectProtoNull h) as [[obj|] h1] eqn:E0; [|done].
  destruct (new_object _ _ _ E0) as (He & Hv & Hnew & Hi). destruct Hc as [Hnd Hc].
  assert (Forall crosses (map snd o) ∧ Forall (λ m, plain_key m.1 = true) o) as [Hcs Hks].
  { clear -Hc. induction o as [|x o IH]; [by split; constructor|]. destruct Hc as (? & ? & ?). destruct IH; [done|].
    split; by constructor. }
  rewrite object_nodes in Hn.
  destruct (set_members_builds p obj h1 o IH Hv h1 [] [] v h' (only_refl _ _) Hi ltac:(by constructor) Hcs Hks Hnd ltac:(lia) E)
    as (-> & Hon & us & Hi' & Hb). cbn [app] in Hb. split_and!; [by eapply only_extends|by apply Hon|].
  eapply (container_builds _ _ h1 _ _ _ us.*2); [done|by apply Hon|done| |by intros u; apply object_child|].
  - eapply object_reads; [done..|]. eapply Forall2_impl; [exact Hb|]. by intros u m [? [? _]].
  - intros u Hu. apply list_elem_of_fmap in Hu as (x & -> & Hu). apply list_elem_of_lookup in Hu as [k Hk].
    destruct (Forall2_lookup_l _ _ _ _ _ Hb Hk) as (m & _ & _ & Hm). by exists m.2.
Qed.

Lemma canonical_c_string t : canonical_bigint t = true → c_string t = t ∧ bigint_ok t = true.
Proof.
  unfold canonical_bigint. intros Hc. bools. split; [|done].
  assert (∀ d, forallb is_digit d = true → c_string d = d) as Hd.
  { induction d as [|c d IH]; [done|]. cbn. intros Hd. apply andb_true_iff in Hd as [Hc1 Hd].
    rewrite bool_decide_eq_false_2 by (by intros ->). by rewrite IH. }
  assert (forallb is_digit (bigint_digits t) = true) as Hdig by (unfold bigint_ok in *; bools; done).
  destruct t as [|c t]; [done|]. cbn [bigint_digits] in Hdig. destruct (_ || _) eqn:Es in Hdig; [|by apply Hd].
  cbn. rewrite Hd by done. apply orb_true_iff in Es as [Es|Es]; bools; subst c; done.
Qed.

Lemma neutral_writes n : writes n.
Proof.
  induction n as [n Ha Ho|a IH|o IH] using neutral_induction; [|by apply writes_array|by apply writes_object].
  intros p h v h' Hc _ E. assert (extends h h) as Hrefl by (intros w Hw; split; [done|apply same_refl]).
  destruct n as [| |b|d|t|s|d|b|a|o]; try (by destruct (Ha a)); try (by destruct (Ho o)); cbn [neutral_to_js crosses] in E, Hc.
  - injection E as <- <-. destruct (valid_undefined h). split_and!; [done..|]. apply builds_leaf; [by constructor|done|left; congruence].
  - injection E as <- <-. destruct (valid_null h). split_and!; [done..|]. apply builds_leaf; [by constructor|done|left; congruence].
  - injection E as <- <-. destruct (valid_bool h b) as (? & ? & Eb). split_and!; [done..|].
    apply builds_leaf; [rewrite <- Eb at 2; by constructor|done|left; congruence].
  - destruct (new_number _ _ _ _ E) as (? & ? & ? & ?). split_and!; [done..|]. apply builds_leaf; [by constructor|done|left; congruence].
  - destruct (canonical_c_string t Hc) as [Et Eok]. rewrite Eok in E. destruct (new_bigint _ _ _ _ Hc E) as (? & ? & ? & ?). split_and!; [done..|].
    apply builds_leaf; [rewrite <- Et; by constructor|done|left; congruence].
  - unfold plain_text in Hc. bools. assert (c_string s = s) as Es by done.
    destruct (new_string _ _ _ _ ltac:(eassumption) E) as (? & ? & ? & ?). split_and!; [done..|].
    apply builds_leaf; [rewrite <- Es; by constructor|done|left; congruence].
  - destruct (new_date _ _ _ _ Hc E) as (? & ? & ? & ?). split_and!; [done..|]. apply builds_leaf; [by constructor|done|left; congruence].
  - destruct (new_bytes _ _ _ _ E) as (? & ? & ? & ? & ? & ?). split_and!; [done..|].
    apply builds_leaf; [by apply reads_uint8array|done|right; congruence].
Qed.
End roundtrip.


(** ** The small engine has the laws *)

Definition js_valid (h : JsHeap) (v : JsValue) : Prop := match v with Js_object p => 0 <= p < zlen h | _ => True end.

(** Every answer depends on the object alone. *)
Lemma js_same h h' v : js_lookup h' v = js_lookup h v → same_on h h' v.
Proof.
  intros E. split; intros; cbn [JS_Is JS_ToBool JS_ToFloat64 JS_ToText JS_GetDateValue JS_GetArrayBuffer JS_GetUint8Array
    JS_CountEnumerableSymbols JS_GetPrototype JS_GetLength JS_GetOwnProperty JS_GetOwnPropertyNames JsEngine];
    unfold js_own; rewrite ?E; try done.
  - unfold js_is. destruct v; try done. by rewrite E.
  - unfold js_is. destruct p; try done. repeat case_match; try done; by destruct (js_class _).
Qed.

Lemma js_alloc_law o h v h' : js_alloc o h = (Some v, h') →
  (∀ w, js_valid h w → js_valid h' w ∧ same_on h h' w) ∧ js_valid h' v ∧ ¬ js_valid h v ∧ js_lookup h' v = Some o ∧ v = Js_object (zlen h).
Proof.
  unfold js_alloc. intros [= <- <-]. pose proof (zlen_nonneg h). unfold js_valid, js_lookup.
  rewrite (proj2 (Z.leb_le _ _)) by done. split_and!; [|done|rewrite zlen_snoc; lia|lia| |done].
  - intros [] Hw; split; try done; try (by apply js_same); [rewrite zlen_snoc; lia|].
    apply js_same. unfold js_lookup. rewrite (proj2 (Z.leb_le _ _)) by lia. apply lookup_app_l. unfold zlen in *. lia.
  - unfold zlen. rewrite Nat2Z.id. by rewrite (lookup_app_r h [o]), Nat.sub_diag by lia.
Qed.

Lemma js_class_reads h v o : js_lookup h v = Some o → ∀ t, JS_Is t h v = js_is_class (js_class o) t.
Proof. intros E t. destruct v; try done. cbn [JS_Is JsEngine js_is]. by rewrite E. Qed.

Lemma js_ordinary h v o : js_lookup h v = Some o → js_class o = Class_object ∨ js_class o = Class_array → ordinary h v.
Proof.
  intros E Hc. pose proof (js_class_reads _ _ _ E) as Ht. unfold ordinary, primitive, exotic. cbn [find]. rewrite !Ht.
  cbn [JS_CountEnumerableSymbols JsEngine]. rewrite E. by destruct Hc as [-> | ->].
Qed.

Lemma js_set_law h p o a w h' : js_lookup h (Js_object p) = Some o → js_set (Js_object p) a w h = (true, h') →
  (∀ u, js_valid h u → js_valid h' u ∧ (u ≠ Js_object p → same_on h h' u))
  ∧ js_lookup h' (Js_object p) = Some (mkJsObject (js_class o) (js_proto o)
      match a, js_class o with Atom_index n, Class_array => Z.max (js_length o) (n + 1) | _, _ => js_length o end
      (js_set_property a w (js_properties o))).
Proof.
  intros E. unfold js_set. rewrite E. intros [= <-]. unfold js_lookup in E |- *. destruct (0 <=? p) eqn:Ep; [|done]. bools. split.
  - intros [| | | | | |q] Hu; try (split; [done|intros _; by apply js_same]). unfold js_valid in *.
    split; [unfold zlen in *; by rewrite length_insert|]. intros Hne. apply js_same. unfold js_lookup.
    destruct (0 <=? q) eqn:Eq; [|done]. bools. apply list_lookup_insert_ne. intros Epq. apply Hne. f_equal. lia.
  - apply list_lookup_insert_eq. by eapply lookup_lt_Some.
Qed.

Lemma js_set_property_new a w l : a ∉ l.*1 → js_set_property a w l = l ++ [(a, mkDescriptor w false false)].
Proof.
  induction l as [|[b d] l IH]; cbn; [done|]. rewrite not_elem_of_cons. intros [Hne Hl].
  rewrite bool_decide_eq_false_2 by done. by rewrite IH.
Qed.

Lemma js_find_set a b w l : find (λ p, bool_decide (p.1 = b)) (js_set_property a w l) =
  if bool_decide (a = b) then Some (a, mkDescriptor w false false) else find (λ p, bool_decide (p.1 = b)) l.
Proof.
  induction l as [|[c d] l IH]; cbn; [by case_bool_decide|]. destruct (bool_decide_reflect (c = a)) as [->|Hca]; cbn.
  - by case_bool_decide.
  - rewrite IH. destruct (bool_decide_reflect (c = b)) as [->|]; [|done]. by rewrite bool_decide_eq_false_2.
Qed.

Lemma js_set_element h a us u h' : js_valid h a → is_array h a us → js_set a (Atom_index (zlen us)) u h = (true, h') →
  (∀ w, js_valid h w → js_valid h' w ∧ (w ≠ a → same_on h h' w)) ∧ is_array h' a (us ++ [u]).
Proof.
  intros Hv [I1 I2 I3 I4] E. cbn [JS_GetLength JsEngine] in I3. destruct (js_lookup h a) as [o|] eqn:El; [|done]. injection I3 as Hlen.
  destruct a as [| | | | | |p]; try done. destruct (js_set_law _ _ _ _ _ _ El E) as [Hon El'].
  rewrite (js_class_reads _ _ _ El) in I2. assert (js_class o = Class_array) as Hc by (by destruct (js_class o)). rewrite Hc in El'.
  split; [done|]. split; [by eapply js_ordinary; [|right]|by rewrite (js_class_reads _ _ _ El')| |].
  - cbn [JS_GetLength JsEngine]. rewrite El', zlen_snoc. cbn. f_equal. lia.
  - intros k w Hk. cbn [JS_GetOwnProperty JsEngine]. unfold js_own. rewrite El'. cbn [js_properties]. rewrite js_find_set.
    apply lookup_app_Some in Hk as [Hk|[Hge Hk]].
    + rewrite bool_decide_eq_false_2; [|apply lookup_lt_Some in Hk; unfold zlen; intros [= ?]; lia].
      specialize (I4 k w Hk). cbn [JS_GetOwnProperty JsEngine] in I4. unfold js_own in I4. by rewrite El in I4.
    + apply list_lookup_singleton_Some in Hk as [Hz ->]. rewrite bool_decide_eq_true_2; [done|]. f_equal. unfold zlen. lia.
Qed.

Lemma js_names_snoc c q l props key d :
  js_names (mkJsObject c q l (props ++ [(Atom_name key, d)])) = js_names (mkJsObject c q l props) ++ [Atom_name key].
Proof.
  unfold js_names. cbn [js_properties]. rewrite fmap_app, omap_app, List.filter_app. cbn. by rewrite app_nil_r, app_assoc.
Qed.

Lemma js_names_in o key : Atom_name key ∈ (js_properties o).*1 → Atom_name key ∈ js_names o.
Proof. intros Hin. unfold js_names. apply elem_of_app. right. apply list_elem_of_In, filter_In. split; [by apply list_elem_of_In|done]. Qed.

Lemma js_set_member h o us key u h' : js_valid h o → is_object h o us → plain_key key = true → key ∉ us.*1 →
  js_set o (js_atom key) u h = (true, h') →
  (∀ w, js_valid h w → js_valid h' w ∧ (w ≠ o → same_on h h' w)) ∧ is_object h' o (us ++ [(key, u)]).
Proof.
  intros Hv [I1 I2 I3 I4 I5] Hk Hnew E. cbn [JS_GetPrototype JS_GetOwnPropertyNames JsEngine] in I3, I4.
  destruct (js_lookup h o) as [ob|] eqn:El; [|done]. injection I3 as Hproto. injection I4 as Hnames.
  assert (js_atom key = Atom_name key) as Ha by (unfold plain_key in Hk; bools; unfold js_atom; by case_match). rewrite Ha in E.
  destruct o as [| | | | | |p]; try done. destruct (js_set_law _ _ _ _ _ _ El E) as [Hon El'].
  assert (Atom_name key ∉ (js_properties ob).*1) as Hfresh.
  { intros Hin%js_names_in. rewrite Hnames in Hin. apply list_elem_of_fmap in Hin as (k & [= ->] & Hin). done. }
  rewrite (js_class_reads _ _ _ El) in I2.
  assert (js_class ob = Class_object) as Hc.
  { pose proof I1 as (Q1 & _ & Q3 & _).
    pose proof (find_none _ _ Q1 Is_date ltac:(cbn; tauto)) as T1.
    pose proof (find_none _ _ Q3 Is_uint8array ltac:(cbn; tauto)) as T2.
    pose proof (find_none _ _ Q3 Is_map ltac:(cbn; tauto)) as T3.
    cbn beta in T1, T2, T3. rewrite (js_class_reads _ _ _ El) in T1, T2, T3. by destruct (js_class ob). }
  split; [done|]. split; [by eapply js_ordinary; [|left]|by rewrite (js_class_reads _ _ _ El'); cbn; rewrite Hc| | |].
  - cbn [JS_GetPrototype JsEngine]. rewrite El'. cbn. by rewrite Hproto.
  - cbn [JS_GetOwnPropertyNames JsEngine]. rewrite El'. cbn [fmap option_fmap option_map]. f_equal.
    rewrite js_set_property_new by done. rewrite js_names_snoc, fmap_app, map_app. cbn. f_equal. by rewrite <- Hnames.
  - intros k w Hin. cbn [JS_GetOwnProperty JsEngine]. unfold js_own. rewrite El'. cbn [js_properties]. rewrite js_find_set.
    apply elem_of_app in Hin as [Hin|Hin].
    + rewrite bool_decide_eq_false_2; [|intros [= <-]; apply Hnew, list_elem_of_fmap; by exists (key, w)].
      specialize (I5 k w Hin). cbn [JS_GetOwnProperty JsEngine] in I5. unfold js_own in I5. by rewrite El in I5.
    + apply list_elem_of_singleton in Hin as [= -> ->]. by rewrite bool_decide_eq_true_2.
Qed.

Lemma fold_decimal fuel n rest : 0 <= n < 10 ^ Z.of_nat fuel →
  fold_left (λ k c, 10 * k + (u8 c - 48)) (decimal_loop fuel n rest) 0 = fold_left (λ k c, 10 * k + (u8 c - 48)) rest n.
Proof.
  revert n rest. induction fuel as [|fuel IH]; intros n rest Hn; cbn [decimal_loop].
  { cbn in Hn. by assert (n = 0) as -> by lia. }
  assert (0 <= n mod 10 < 10) by (apply Z.mod_pos_bound; lia). pose proof (Z.div_mod n 10 ltac:(lia)) as Hdm.
  assert (u8 (to_u8 (48 + n mod 10)) = 48 + n mod 10) as Hd by (rewrite u8_to_u8; apply Z.mod_small; lia).
  destruct (n / 10 =? 0) eqn:E; bools; [cbn [fold_left]; f_equal; lia|].
  rewrite Nat2Z.inj_succ, Z.pow_succ_r in Hn by lia. rewrite IH.
  - cbn [fold_left]. f_equal. lia.
  - split; [apply Z.div_pos; lia|apply Z.div_lt_upper_bound; lia].
Qed.

Lemma decimal_digits n : Forall (λ c, is_digit c = true) (decimal n).
Proof.
  assert (∀ fuel m rest, Forall (λ c, is_digit c = true) rest → Forall (λ c, is_digit c = true) (decimal_loop fuel m rest)) as Hl; [|by apply Hl].
  induction fuel as [|fuel IH]; intros m rest Hr; cbn [decimal_loop]; [done|].
  assert (is_digit (to_u8 (48 + m mod 10)) = true) as Hd.
  { pose proof (Z.mod_pos_bound m 10 ltac:(lia)). unfold is_digit. rewrite u8_to_u8, Z.mod_small by lia. lia. }
  destruct (_ =? 0); [|apply IH]; by constructor.
Qed.

Lemma js_biguint_decimal n : 0 <= n < 2 ^ 64 → js_biguint (decimal n) = n.
Proof.
  intros Hn. pose proof (decimal_digits n) as Hd. unfold js_biguint. assert (bigint_digits (decimal n) = decimal n ∧ head (decimal n) ≠ Some Byte.x2d) as [-> Hh].
  { destruct Hd as [|c l Hc _]; [done|]. unfold bigint_digits.
    rewrite !bool_decide_eq_false_2 by (by intros ->). split; [done|]. cbn. by intros [= ->]. }
  rewrite bool_decide_eq_false_2 by done. unfold decimal. rewrite fold_decimal by (cbn; lia). cbn. unfold u64. apply Z.mod_small. lia.
Qed.

Lemma strip_zeros_canonical d : head d ≠ Some Byte.x30 ∨ d = [Byte.x30] → strip_zeros d = d.
Proof.
  intros Hd. destruct d as [|c d]; [done|]. cbn [strip_zeros]. destruct (bool_decide_reflect (c = Byte.x30)) as [->|]; [|done].
  destruct Hd as [Hd|[= ->]]; done.
Qed.

Lemma bigint_text_canonical t : canonical_bigint t = true → bigint_text t = t.
Proof.
  unfold canonical_bigint. intros Hc. apply andb_true_iff in Hc as [Hc Hz]. apply andb_true_iff in Hc as [Hok Hp]. bools.
  destruct t as [|c t]; [done|]. unfold bigint_text.
  assert (c ≠ Byte.x2b) as Hplus by (intros ->; done).
  destruct (decide (c = Byte.x2d)) as [->|Hm].
  - change (bigint_digits (Byte.x2d :: t)) with t in *. apply orb_true_iff in Hz as [Hz|Hz]; bools; [done|].
    rewrite strip_zeros_canonical by (by left). cbn [head].
    rewrite (bool_decide_eq_true_2 (Some _ = _)) by done. by rewrite bool_decide_eq_false_2 by (by intros ->).
  - assert (bigint_digits (c :: t) = c :: t) as Hd by (cbn; by rewrite !bool_decide_eq_false_2).
    rewrite Hd in *. rewrite bool_decide_eq_false_2 by (cbn; by intros [= ->]). cbn [andb]. apply strip_zeros_canonical.
    apply orb_true_iff in Hz as [Hz|Hz]; bools; auto.
Qed.

Lemma js_eval_bigint t h v h' : canonical_bigint t = true → js_eval (bs "(" ++ t ++ bs "n)") h = (Some v, h') →
  v = Js_bigint t ∧ h' = h.
Proof.
  intros Hc. destruct (canonical_c_string t Hc) as [_ Hok]. unfold js_eval.
  assert (ztake (zlen (bs "(" ++ t ++ bs "n)") - 3) (zdrop 1 (bs "(" ++ t ++ bs "n)")) = t) as El.
  { change (bs "(" ++ t ++ bs "n)") with (Byte.x28 :: t ++ bs "n)"). rewrite zlen_cons, zlen_app. change (zlen (bs "n)")) with 2.
    unfold zdrop, ztake. cbn [Z.to_nat Pos.to_nat Pos.iter_op drop].
    replace (Z.to_nat (1 + (zlen t + 2) - 3)) with (length t) by (unfold zlen; lia). apply take_app_length. }
  rewrite El. case_bool_decide as E0.
  - exfalso. cbn in E0. destruct t as [|c t]; [done|]. injection E0 as -> _. by vm_compute in Hok.
  - rewrite bool_decide_eq_true_2, Hok by done. cbn [andb]. rewrite bigint_text_canonical by done. by intros [= <- <-].
Qed.

#[export] Program Instance JsEngine_laws : QuickJSLaws JsHeap JsValue Z := {
  valid := js_valid;
  time_value ms := -8640000000000000 <= ms <= 8640000000000000
}.
Next Obligation. done. Qed.
Next Obligation. done. Qed.
Next Obligation. done. Qed.
Next Obligation. intros h v w Hv Hw E. by apply (ptr_identity h v w). Qed.
Next Obligation. done. Qed.
Next Obligation. done. Qed.
Next Obligation. intros d h v h' [= <- <-]. split_and!; done. Qed.
Next Obligation. intros d h v h' _ [= <- <-]. split_and!; done. Qed.
Next Obligation.
  intros t h v h' Hc E. apply (js_eval_bigint t h v h' Hc) in E as [-> ->]. split_and!; done.
Qed.
Next Obligation.
  intros d h v h' _ (He & Hv & _ & El & ->)%js_alloc_law. split_and!; [done|done|..].
  - unfold primitive. cbn [find]. pose proof (js_class_reads _ _ _ El) as Ht.
    rewrite (Ht Is_date). cbn [js_is_class js_class JS_Is JsEngine js_is]. by rewrite El.
  - cbn [JS_GetDateValue JsEngine]. by rewrite El.
Qed.
Next Obligation.
  intros b h v h' (He & Hv & _ & El & ->)%js_alloc_law. split_and!; [done|done|..].
  - unfold primitive. cbn [find JS_Is JsEngine js_is]. by rewrite El.
  - cbn [JS_Is JsEngine js_is]. by rewrite El.
  - unfold exotic. cbn [find JS_Is JsEngine js_is]. by rewrite El.
  - cbn [JS_GetUint8Array JsEngine]. by rewrite El.
Qed.
Next Obligation.
  intros h v h' (He & Hv & Hnew & El & ->)%js_alloc_law. split_and!; [done..|].
  split; [by eapply js_ordinary; [|right]|by rewrite (js_class_reads _ _ _ El)|cbn [JS_GetLength JsEngine]; by rewrite El|done].
Qed.
Next Obligation.
  intros h v h' (He & Hv & Hnew & El & ->)%js_alloc_law. split_and!; [done..|].
  split; [by eapply js_ordinary; [|left]|by rewrite (js_class_reads _ _ _ El)|cbn [JS_GetPrototype JsEngine]; by rewrite El| |].
  - cbn [JS_GetOwnPropertyNames JsEngine]. by rewrite El.
  - intros key u Hin. by apply not_elem_of_nil in Hin.
Qed.
Next Obligation. intros h v h' (He & _)%js_alloc_law. exact He. Qed.
Next Obligation. intros h a us u h' Hv _ Hi _ E. by eapply js_set_element. Qed.
Next Obligation. intros h o us key u h' Hv _ Hi Hk Hn E. by eapply js_set_member. Qed.
Next Obligation. intros n h v h' Hn [= <- <-]. split; [done|]. cbn [JS_ToBigUint64 JsEngine]. by rewrite js_biguint_decimal. Qed.


(** Call identifiers cross exactly, in all 64 bits; zero never does. *)
Lemma call_id_roundtrip {heap V real} `{QuickJSLaws heap V real} (id : Z) (h h' : heap) (v : V) :
  0 <= id < 2 ^ 64 → binding_call_id_to_js id h = (Some v, h') → binding_call_id_from_js h' v = Some id.
Proof.
  intros Hid. unfold binding_call_id_to_js, binding_call_id_from_js. destruct (id =? 0) eqn:E0; [done|].
  intros (-> & ->)%biguint_roundtrip; [|done]. by rewrite E0.
Qed.

(** What the conditions of the round trip exclude: a text or key ends at its
    first NUL, so that two keys can become one, and an empty key is dropped. *)
Lemma keys_merge_at_nul :
  let h := new_JsHeap ++ [mkJsObject Class_object (Js_object 0) 0
    [(Atom_name [Byte.x61; Byte.x00; Byte.x62], mkDescriptor (Js_number 1) false false);
     (Atom_name [Byte.x61; Byte.x00; Byte.x63], mkDescriptor (Js_string [Byte.x64; Byte.x00; Byte.x65]) false false);
     (Atom_name [], mkDescriptor (Js_number 3) false false)]] in
  (neutral_from_js (Js_object 2) h).1 = inl (kObject [(bs "a", kNumber 1); (bs "a", kString (bs "d"))]).
Proof. vm_compute. reflexivity. Qed.
