(* ===== verification/PolicyCompiler.v ===== *)
(** * PolicyCompiler: what an App may do (src/host/policy_compiler.cc)

    [compile_policy] intersects the request of an App with the policy of the
    Host, and refuses the deployment when the request reaches further;
    [build_runtime_policy] turns the effective configuration into the capability
    and egress descriptors that the worker compiles (CapabilityPolicy and
    EgressPolicy). The digest is OpenSSL's and a parameter. The POSIX variant of
    [normalize_path] is modelled. An error is its message. *)
From Stdlib Require Import ZArith Lia Sorted.
From stdpp Require Import sorting.
From S2P Require Import Prelude Wire Jansson EgressPolicy CapabilityPolicy BindingPolicy AuditRecords HostSpawn.
Local Open Scope Z_scope.

(** ** Data *)

(** No ports: any port on the host. *)
Record FetchTarget := mkFetchTarget { ft_host : bytes; ft_ports : list Z }.
#[export] Instance FetchTarget_eq_dec : EqDecision FetchTarget.
Proof. solve_decision. Defined.

Record HostPolicy := mkHostPolicy {
  module_allowlist : list bytes;
  env_patterns : list bytes;
  env_deny_patterns : list bytes;
  fs_read_roots : list bytes;
  fetch_targets : list FetchTarget;
  storage_allowed : bool;
  host_storage_namespaces : list bytes;
  host_stdio_streams : list bytes;
  stdio_allowed : bool;
  max_workers : Z;
  host_min_ready : Z;
  max_requests_per_worker : Z;                 (* 0: no maximum, here and below *)
  max_worker_memory_bytes : Z;
  max_queue_requests : Z;
  max_queue_header_bytes : Z;
  max_queue_timeout_ms : Z;
  host_max_streaming_inflight : Z;
  max_stream_idle_timeout_ms : Z;
  max_write_timeout_ms : Z;
  host_strict_sandbox : bool
}.

Record HealthCheckConfig := mkHealthCheck { hc_configured : bool; hc_path : bytes; hc_timeout_ms : Z }.

Record EnvRequest := mkEnvRequest {
  er_name : bytes;
  er_from_secret : bool;
  er_secret_key_id : bytes;
  er_literal : bytes
}.

Record AppRequest := mkAppRequest {
  app_modules : list bytes;
  app_env : list EnvRequest;
  app_fs_read : list bytes;
  app_fs_read_deny : list bytes;
  app_fetch : list FetchTarget;
  app_storage : bool;
  app_storage_namespaces : list bytes;
  app_stdio : bool;
  app_stdio_streams : list bytes;
  app_requests_per_worker : Z;
  app_queue_requests : Z;
  app_queue_header_bytes : Z;
  app_queue_timeout_ms : Z;
  app_max_streaming_inflight : Z;
  app_stream_idle_timeout_ms : Z;
  app_write_timeout_ms : Z;
  app_health_check : HealthCheckConfig;
  app_memory_bytes : Z;
  app_js_heap_bytes : Z;
  app_process_address_bytes : Z;
  app_file_descriptors : Z;
  app_workers : Z;
  app_min_ready : Z
}.

Record EffectiveEnvEntry := mkEffectiveEnv {
  ee_name : bytes;
  ee_from_secret : bool;
  ee_secret_key_id : bytes;
  ee_secret_revision : bytes;
  ee_literal : bytes;
  ee_rule_id : Z
}.

Record EffectiveConfig := mkEffective {
  ef_modules : list bytes;
  ef_env : list EffectiveEnvEntry;
  ef_fs_read : list bytes;
  ef_fs_read_deny : list bytes;
  ef_fs_rule_ids : list Z;
  ef_fs_deny_rule_ids : list Z;
  ef_fetch : list FetchTarget;
  ef_fetch_rule_ids : list Z;
  ef_storage : bool;
  ef_storage_namespaces : list bytes;
  ef_storage_rule_ids : list Z;
  ef_stdio : bool;
  ef_stdio_streams : list bytes;
  ef_stdio_rule_ids : list Z;
  ef_requests_per_worker : Z;
  ef_queue_requests : Z;
  ef_queue_header_bytes : Z;
  ef_queue_timeout_ms : Z;
  ef_max_streaming_inflight : Z;
  ef_stream_idle_timeout_ms : Z;
  ef_write_timeout_ms : Z;
  ef_memory_bytes : Z;
  ef_js_heap_bytes : Z;
  ef_process_address_bytes : Z;
  ef_file_descriptors : Z;
  ef_workers : Z;
  ef_min_ready : Z;
  ef_strict_sandbox : bool;
  effective_json : bytes;
  app_config_digest : bytes;
  effective_digest : bytes;
  ef_rule_ids : list (Z * bytes)
}.

(** ** Helpers *)

(** FNV-1a in 32 bits, with 0 mapped to 1. *)
Definition fnv_step (hash : Z) (c : byte) : Z := u32 (Z.lxor hash (u8 c) * 16777619).
Definition rule_id (label : bytes) : Z :=
  let hash := fold_left fnv_step label 2166136261 in if hash =? 0 then 1 else hash.

(** The components in order; the stack is kept with its top first. *)
Fixpoint normalize_loop (components : list bytes) (stack : list bytes) : option (list bytes) :=
  match components with
  | [] => Some (rev stack)
  | c :: components =>
      if bool_decide (c = bs "..") then
        match stack with [] => None | _ :: stack => normalize_loop components stack end
      else if negb (bool_decide (c = [])) && negb (bool_decide (c = bs ".")) then normalize_loop components (c :: stack)
      else normalize_loop components stack
  end.

Definition normalize_join (components : list bytes) : bytes :=
  let out := fold_left (λ out c, (if negb (bool_decide (out = [])) && negb (last_is out Byte.x2f) then out ++ [Byte.x2f] else out) ++ c)
               components (bs "/") in
  if (1 <? zlen out) && last_is out Byte.x2f then ztake (zlen out - 1) out else out.

Definition normalize_path (path : bytes) : option bytes :=
  if bool_decide (path = []) || (4096 <? zlen path) then None
  else if negb (byte_at path 0 =? 47) then None
  else normalize_join <$> normalize_loop (split_on Byte.x2f (zdrop 1 path) []) [].

Definition path_within (path root : bytes) : bool :=
  bool_decide (path = root)
  || ((zlen root <? zlen path) && bool_decide (ztake (zlen root) path = root) && (byte_at path (zlen root) =? 47)).

Definition env_pattern_matches (pattern name : bytes) : bool :=
  if bool_decide (pattern = bs "*") then true
  else match split_at Byte.x2a pattern with
  | Some (before, after) =>
      if negb (bool_decide (after = [])) then false
      else bool_decide (ztake (zlen before) name = before)
  | None => bool_decide (name = pattern)
  end.

Definition valid_env_pattern (pattern : bytes) : bool :=
  if bool_decide (pattern = bs "*") then true
  else match split_at Byte.x2a pattern with
  | None => negb (bool_decide (pattern = []))
  | Some (_, after) => bool_decide (after = [])
  end.

Definition json_escape_char (c : byte) : bytes :=
  if u8 c =? 34 then [Byte.x5c; Byte.x22]
  else if u8 c =? 92 then [Byte.x5c; Byte.x5c]
  else if u8 c =? 10 then bs "\n"
  else if u8 c =? 13 then bs "\r"
  else if u8 c =? 9 then bs "\t"
  else if u8 c <? 0x20 then bs "\u00" ++ [hex_digit (Z.shiftr (u8 c) 4); hex_digit (Z.land (u8 c) 0x0f)]
  else [c].
Definition json_escape (value : bytes) : bytes := List.concat (map json_escape_char value).

(** ** Sorting *)

Section sort.
Context {A : Type} (lt : A → A → bool).

(** [std::sort]: any order of equal elements is allowed; this one keeps them. *)
Fixpoint sort_insert (x : A) (l : list A) : list A :=
  match l with
  | [] => [x]
  | y :: rest => if lt x y then x :: l else y :: sort_insert x rest
  end.
Definition sort (l : list A) : list A := fold_left (λ s x, sort_insert x s) l [].
End sort.

(** ** Compilation *)

Section compile.
(** [EVP_Digest] with [EVP_sha256]. *)
Context (EVP_sha256 : bytes → option bytes).

Definition sha256_hex (data : bytes) : bytes :=
  match EVP_sha256 data with
  | Some digest =>
      if zlen digest =? 32
      then List.concat (map (λ b, [hex_digit (Z.shiftr (u8 b) 4); hex_digit (Z.land (u8 b) 0x0f)]) digest) else []
  | None => []
  end.

(** The pool: a fixed size within the Host's ceiling. *)
Definition check_pool (host : HostPolicy) (app : AppRequest) : option bytes :=
  if (app_workers app =? 0) || (app_min_ready app =? 0) then Some (bs "pool must be positive")
  else if negb (app_min_ready app =? app_workers app) then Some (bs "static pool requires minReady == maxWorkers")
  else if (max_workers host =? 0) || (max_workers host <? app_workers app) then Some (bs "pool exceeds the Host worker ceiling")
  else None.

Fixpoint check_modules (allowed modules : list bytes) (requested : list bytes) : bytes + list bytes :=
  match modules with
  | [] => inr requested
  | m :: modules =>
      if bool_decide (m ∈ requested) then inl (bs "duplicate module request")
      else if negb (bool_decide (m ∈ allowed)) then inl (bs "module not allowed by the Host: " ++ m)
      else check_modules allowed modules (set_insert m requested)
  end.

(** The resolved entries name exactly the requested variables. *)
Fixpoint check_resolved (requested : list bytes) (entries : list EffectiveEnvEntry) (resolved : list bytes) : option bytes :=
  match entries with
  | [] => if bool_decide (list_to_set (C := gset bytes) resolved = list_to_set requested) then None
          else Some (bs "resolved secret set is incomplete")
  | e :: entries =>
      if bool_decide (ee_name e ∈ resolved) then Some (bs "duplicate resolved secret")
      else if negb (bool_decide (ee_name e ∈ requested)) then Some (bs "resolved secret not requested")
      else check_resolved requested entries (ee_name e :: resolved)
  end.

Definition check_env_names (app : AppRequest) (resolved_secrets : list EffectiveEnvEntry) : option bytes :=
  let names := map er_name (app_env app) in
  if negb (bool_decide (NoDup names)) then Some (bs "duplicate environment request")
  else if negb (zlen (app_env app) =? zlen resolved_secrets) then Some (bs "resolved secret set does not match the request")
  else check_resolved names resolved_secrets [].

(** A pattern of the Host covers the name and no denial does. *)
Definition env_covered (host : HostPolicy) (name : bytes) : bool :=
  existsb (λ p, env_pattern_matches p name) (env_patterns host)
  && negb (existsb (λ p, env_pattern_matches p name) (env_deny_patterns host)).

Fixpoint normalize_roots (roots : list bytes) : option (list bytes) :=
  match roots with
  | [] => Some []
  | r :: roots =>
      match normalize_path r, normalize_roots roots with Some n, Some ns => Some (n :: ns) | _, _ => None end
  end.

Fixpoint check_paths (duplicate invalid outside : bytes) (roots raws requested : list bytes) : bytes + list bytes :=
  match raws with
  | [] => inr []
  | raw :: raws =>
      if bool_decide (raw ∈ requested) then inl duplicate
      else match normalize_path raw with
      | None => inl invalid
      | Some normalized =>
          if negb (existsb (path_within normalized) roots) then inl outside
          else match check_paths duplicate invalid outside roots raws (raw :: requested) with
          | inl e => inl e
          | inr rest => inr (normalized :: rest)
          end
      end
  end.

Fixpoint fetch_covered (targets : list FetchTarget) (t : FetchTarget) : bool :=
  match targets with
  | [] => false
  | a :: targets =>
      if negb (bool_decide (ft_host a = ft_host t)) then fetch_covered targets t
      else if bool_decide (ft_ports a = []) then true
      else if bool_decide (ft_ports t = []) then false
      else if forallb (λ p, bool_decide (p ∈ ft_ports a)) (ft_ports t) then true
      else fetch_covered targets t
  end.

(** Storage and stdio: a subset of the Host's set, in order. *)
Definition check_resources (wanted : bool) (duplicate outside : bytes) (allowed requested : list bytes) : bytes + list bytes :=
  if negb wanted then inr []
  else
    let set := fold_left (λ s x, set_insert x s) requested [] in
    if negb (zlen set =? zlen requested) then inl duplicate
    else if negb (forallb (λ r, bool_decide (r ∈ allowed)) set) then inl outside
    else inr set.

Definition exceeds (maximum value : Z) : bool := negb (maximum =? 0) && (maximum <? value).

Definition effective_memory (app : AppRequest) : Z :=
  Z.max (app_memory_bytes app) (Z.max (app_js_heap_bytes app) (app_process_address_bytes app)).

Definition check_limits (host : HostPolicy) (app : AppRequest) : option bytes :=
  if exceeds (max_requests_per_worker host) (app_requests_per_worker app) then Some (bs "request rate exceeds the Host maximum")
  else if 2 ^ 32 - 1 <? app_requests_per_worker app then Some (bs "request rate exceeds the worker limit")
  else if exceeds (max_queue_requests host) (app_queue_requests app) then Some (bs "queue depth exceeds the Host maximum")
  else if exceeds (max_queue_header_bytes host) (app_queue_header_bytes app)
  then Some (bs "queue header bytes exceed the Host maximum")
  else if exceeds (max_queue_timeout_ms host) (app_queue_timeout_ms app) then Some (bs "queue timeout exceeds the Host maximum")
  else if exceeds (host_max_streaming_inflight host) (app_max_streaming_inflight app)
  then Some (bs "streaming permit exceeds the Host maximum")
  else if exceeds (max_stream_idle_timeout_ms host) (app_stream_idle_timeout_ms app)
  then Some (bs "stream idle timeout exceeds the Host maximum")
  else if exceeds (max_write_timeout_ms host) (app_write_timeout_ms app) then Some (bs "write timeout exceeds the Host maximum")
  else if exceeds (max_worker_memory_bytes host) (effective_memory app) then Some (bs "worker memory exceeds the Host maximum")
  else
    let process_ceiling := Z.min (app_process_address_bytes app) (effective_memory app) in
    if (0 <? app_js_heap_bytes app) && (0 <? process_ceiling) && (process_ceiling <? app_js_heap_bytes app)
    then Some (bs "process memory ceiling below the JS heap limit") else None.

(** The entries of the environment, without any value of a secret. *)
Fixpoint env_entries_of (resolved_secrets : list EffectiveEnvEntry) (requests : list EnvRequest) : bytes + list EffectiveEnvEntry :=
  match requests with
  | [] => inr []
  | r :: requests =>
      let rest := env_entries_of resolved_secrets requests in
      let push e := match rest with inl error => inl error | inr es => inr (e :: es) end in
      if er_from_secret r then
        match List.find (λ e, bool_decide (ee_name e = er_name r)) resolved_secrets with
        | None => inl (bs "secret not resolved for the requested name")
        | Some found => push (mkEffectiveEnv (er_name r) true (er_secret_key_id r) (ee_secret_revision found) [] 0)
        end
      else push (mkEffectiveEnv (er_name r) false [] [] (er_literal r) 0)
  end.

(** ** Rule identifiers *)

Definition env_label (e : EffectiveEnvEntry) : bytes :=
  bs "env:" ++ ee_name e ++ bs ":" ++ (if ee_from_secret e then bs "secret:" ++ ee_secret_key_id e else bs "literal").

Definition rule_labels (modules : list bytes) (env : list EffectiveEnvEntry) (fs deny : list bytes) (fetch : list FetchTarget)
    (namespaces streams : list bytes) : list bytes :=
  map (app (bs "module:")) modules ++ map env_label env ++ map (app (bs "fs:")) fs ++ map (app (bs "fs-deny:")) deny
  ++ map (λ t, bs "fetch:" ++ ft_host t) fetch ++ map (app (bs "storage:")) namespaces ++ map (app (bs "stdio:")) streams
  ++ [bs "worker"; bs "isolation"].

(** Each label gets its own identifier. *)
Fixpoint add_rules (labels : list bytes) (seen : gset Z) : option (list (Z * bytes)) :=
  match labels with
  | [] => Some []
  | label :: labels =>
      let id := rule_id label in
      if bool_decide (id ∈ seen) then None
      else match add_rules labels (seen ∪ {[ id ]}) with
      | None => None
      | Some rest => Some ((id, label) :: rest)
      end
  end.

Definition with_rule_id (e : EffectiveEnvEntry) : EffectiveEnvEntry :=
  mkEffectiveEnv (ee_name e) (ee_from_secret e) (ee_secret_key_id e) (ee_secret_revision e) (ee_literal e) (rule_id (env_label e)).

(** ** The documents *)

(** The elements of a JSON array, and a quoted text. *)
Fixpoint commas (items : list bytes) : bytes :=
  match items with
  | [] => []
  | [x] => x
  | x :: rest => x ++ bs "," ++ commas rest
  end.
Definition quote : bytes := [Byte.x22].
Definition quoted (text : bytes) : bytes := quote ++ json_escape text ++ quote.
(** A field name with its colon, and what goes before it. *)
Definition field (before name : string) : bytes := bs before ++ quote ++ bs name ++ quote ++ bs ":".

Definition env_json (e : EffectiveEnvEntry) : bytes :=
  field "{" "name" ++ quoted (ee_name e) ++ field "," "source"
  ++ (if ee_from_secret e
      then quoted (bs "secret") ++ field "," "secretKeyId" ++ quoted (ee_secret_key_id e)
           ++ field "," "revision" ++ quoted (ee_secret_revision e)
      else quoted (bs "literal"))
  ++ field "," "ruleId" ++ decimal (ee_rule_id e) ++ bs "}".

(** [id_by_label.find]: the later of two equal labels. *)
Definition id_by_label (ids : list (Z * bytes)) (label : bytes) : option Z :=
  fst <$> List.find (λ p, bool_decide (p.2 = label)) (rev ids).

Definition path_json (ids : list (Z * bytes)) (prefix : bytes) (path : bytes) : option bytes :=
  match id_by_label ids (prefix ++ path) with
  | None => None
  | Some id => Some (field "{" "path" ++ quoted path ++ field "," "ruleId" ++ decimal id ++ bs "}")
  end.

Definition fetch_json (ids : list (Z * bytes)) (t : FetchTarget) : option bytes :=
  match id_by_label ids (bs "fetch:" ++ ft_host t) with
  | None => None
  | Some id => Some (field "{" "host" ++ quoted (ft_host t) ++ field "," "ports" ++ bs "[" ++ commas (map decimal (ft_ports t))
                     ++ bs "]" ++ field "," "ruleId" ++ decimal id ++ bs "}")
  end.

Definition bool_json (b : bool) : bytes := if b then bs "true" else bs "false".

Definition number_fields (host : HostPolicy) (app : AppRequest) : bytes :=
  field "," "requestsPerWorker" ++ decimal (app_requests_per_worker app)
  ++ field "," "queueRequests" ++ decimal (app_queue_requests app)
  ++ field "," "queueHeaderBytes" ++ decimal (app_queue_header_bytes app)
  ++ field "," "queueTimeoutMs" ++ decimal (app_queue_timeout_ms app)
  ++ field "," "maxStreamingInflightPerWorker" ++ decimal (app_max_streaming_inflight app)
  ++ field "," "streamIdleTimeoutMs" ++ decimal (app_stream_idle_timeout_ms app)
  ++ field "," "writeTimeoutMs" ++ decimal (app_write_timeout_ms app)
  ++ field "," "memoryBytes" ++ decimal (effective_memory app)
  ++ field "," "jsHeapBytes" ++ decimal (app_js_heap_bytes app)
  ++ field "," "processAddressBytes" ++ decimal (app_process_address_bytes app)
  ++ field "," "fileDescriptors" ++ decimal (app_file_descriptors app)
  ++ field "," "workers" ++ decimal (app_workers app)
  ++ field "," "minReady" ++ decimal (app_min_ready app)
  ++ field "," "strictSandbox" ++ bool_json (host_strict_sandbox host).

Fixpoint all_some {A} (l : list (option A)) : option (list A) :=
  match l with
  | [] => Some []
  | Some x :: l => match all_some l with Some r => Some (x :: r) | None => None end
  | None :: _ => None
  end.

Definition effective_json_of (host : HostPolicy) (app : AppRequest) (ids : list (Z * bytes)) (modules : list bytes)
    (env : list EffectiveEnvEntry) (fs deny : list bytes) (fetch : list FetchTarget) (namespaces streams : list bytes) : bytes + bytes :=
  match all_some (map (path_json ids (bs "fs:")) fs) with
  | None => inl (bs "missing fs rule id")
  | Some fs_json =>
      match all_some (map (path_json ids (bs "fs-deny:")) deny) with
      | None => inl (bs "missing fs deny rule id")
      | Some deny_json =>
          match all_some (map (fetch_json ids) fetch) with
          | None => inl (bs "missing fetch rule id")
          | Some fetch_texts =>
              inr (field "{" "modules" ++ bs "[" ++ commas (map quoted modules)
                   ++ field "]," "env" ++ bs "[" ++ commas (map env_json env)
                   ++ field "]," "fsRead" ++ bs "[" ++ commas fs_json
                   ++ field "]," "fsDeny" ++ bs "[" ++ commas deny_json
                   ++ field "]," "fetch" ++ bs "[" ++ commas fetch_texts
                   ++ field "]," "storage" ++ bool_json (app_storage app)
                   ++ field "," "storageNamespaces" ++ bs "[" ++ commas (map quoted namespaces)
                   ++ field "]," "stdio" ++ bool_json (app_stdio app)
                   ++ field "," "stdioStreams" ++ bs "[" ++ commas (map quoted streams) ++ bs "]"
                   ++ number_fields host app ++ bs "}")
          end
      end
  end.

(** The request the operator approved, in the order it was made. *)
Definition app_stream (app : AppRequest) : bytes :=
  List.concat (map (λ m, bs "m:" ++ m ++ bs ";") (app_modules app))
  ++ List.concat (map (λ e, bs "e:" ++ er_name e ++ bs ":"
       ++ (if er_from_secret e then bs "s:" ++ er_secret_key_id e else bs "l:" ++ er_literal e) ++ bs ";") (app_env app))
  ++ List.concat (map (λ p, bs "f:" ++ p ++ bs ";") (app_fs_read app))
  ++ List.concat (map (λ p, bs "fd:" ++ p ++ bs ";") (app_fs_read_deny app))
  ++ List.concat (map (λ t, bs "t:" ++ ft_host t ++ bs ":" ++ List.concat (map (λ p, decimal p ++ bs ",") (ft_ports t)) ++ bs ";")
       (app_fetch app))
  ++ bs "storage:" ++ (if app_storage app then bs "1" else bs "0") ++ bs ":"
  ++ List.concat (map (λ n, n ++ bs ",") (app_storage_namespaces app))
  ++ bs ";stdio:" ++ (if app_stdio app then bs "1" else bs "0") ++ bs ":"
  ++ List.concat (map (λ n, n ++ bs ",") (app_stdio_streams app))
  ++ bs ";rps:" ++ decimal (app_requests_per_worker app) ++ bs ";qreq:" ++ decimal (app_queue_requests app)
  ++ bs ";qbytes:" ++ decimal (app_queue_header_bytes app) ++ bs ";qtimeout:" ++ decimal (app_queue_timeout_ms app)
  ++ bs ";streaming:" ++ decimal (app_max_streaming_inflight app) ++ bs ";idle:" ++ decimal (app_stream_idle_timeout_ms app)
  ++ bs ";wtimeout:" ++ decimal (app_write_timeout_ms app) ++ bs ";mem:" ++ decimal (app_memory_bytes app)
  ++ bs ";heap:" ++ decimal (app_js_heap_bytes app) ++ bs ";addr:" ++ decimal (app_process_address_bytes app)
  ++ bs ";fds:" ++ decimal (app_file_descriptors app).

(** ** The compiler *)

(** What the checks establish, before identifiers and documents. *)
Record Checked := mkChecked {
  ck_modules : list bytes;
  ck_fs : list bytes;
  ck_deny : list bytes;
  ck_namespaces : list bytes;
  ck_streams : list bytes
}.

Definition check_request (host : HostPolicy) (app : AppRequest) (resolved_secrets : list EffectiveEnvEntry) : bytes + Checked :=
  match check_pool host app with Some e => inl e | None =>
  match check_modules (module_allowlist host) (app_modules app) [] with inl e => inl e | inr modules =>
  if negb (forallb valid_env_pattern (env_patterns host)) then inl (bs "invalid Host env pattern") else
  match check_env_names app resolved_secrets with Some e => inl e | None =>
  if negb (forallb (λ r, env_covered host (er_name r)) (app_env app)) then inl (bs "environment variable not covered by the Host") else
  match normalize_roots (fs_read_roots host) with None => inl (bs "invalid Host filesystem root") | Some roots =>
  match check_paths (bs "duplicate filesystem request") (bs "invalid filesystem read path")
          (bs "filesystem path outside the Host roots") roots (app_fs_read app) [] with inl e => inl e | inr fs =>
  match check_paths (bs "duplicate filesystem denial") (bs "invalid filesystem deny path")
          (bs "filesystem deny path outside the Host roots") roots (app_fs_read_deny app) [] with inl e => inl e | inr deny =>
  if negb (forallb (fetch_covered (fetch_targets host)) (app_fetch app)) then inl (bs "fetch target not covered by the Host") else
  if app_storage app && negb (storage_allowed host) then inl (bs "storage not allowed by the Host") else
  if app_stdio app && negb (stdio_allowed host) then inl (bs "stdio not allowed by the Host") else
  match check_resources (app_storage app) (bs "duplicate storage namespace") (bs "storage namespace not allowed by the Host")
          (host_storage_namespaces host) (app_storage_namespaces app) with inl e => inl e | inr namespaces =>
  match check_resources (app_stdio app) (bs "duplicate stdio stream") (bs "stdio stream not allowed by the Host")
          (host_stdio_streams host) (app_stdio_streams app) with inl e => inl e | inr streams =>
  match check_limits host app with Some e => inl e | None =>
  inr (mkChecked modules fs deny namespaces streams)
  end end end end end end end end end.

Definition compile_policy (host : HostPolicy) (app : AppRequest) (resolved_secrets : list EffectiveEnvEntry)
    : bytes + EffectiveConfig :=
  match check_request host app resolved_secrets with
  | inl e => inl e
  | inr c =>
      let fetch := sort (λ a b, bytes_lt (ft_host a) (ft_host b)) (app_fetch app) in
      let fs := sort bytes_lt (ck_fs c) in
      let deny := sort bytes_lt (ck_deny c) in
      match env_entries_of resolved_secrets (sort (λ a b, bytes_lt (er_name a) (er_name b)) (app_env app)) with
      | inl e => inl e
      | inr entries =>
          match add_rules (rule_labels (ck_modules c) entries fs deny fetch (ck_namespaces c) (ck_streams c)) ∅ with
          | None => inl (bs "rule id collision")
          | Some ids =>
              let env := map with_rule_id entries in
              let ids := sort (λ a b, a.1 <? b.1) ids in
              match effective_json_of host app ids (ck_modules c) env fs deny fetch (ck_namespaces c) (ck_streams c) with
              | inl e => inl e
              | inr json =>
                  inr (mkEffective (ck_modules c) env fs deny (map (λ p, rule_id (bs "fs:" ++ p)) fs)
                         (map (λ p, rule_id (bs "fs-deny:" ++ p)) deny) fetch (map (λ t, rule_id (bs "fetch:" ++ ft_host t)) fetch)
                         (app_storage app) (ck_namespaces c) (map (λ n, rule_id (bs "storage:" ++ n)) (ck_namespaces c))
                         (app_stdio app) (ck_streams c) (map (λ n, rule_id (bs "stdio:" ++ n)) (ck_streams c))
                         (app_requests_per_worker app) (app_queue_requests app) (app_queue_header_bytes app)
                         (app_queue_timeout_ms app) (app_max_streaming_inflight app) (app_stream_idle_timeout_ms app)
                         (app_write_timeout_ms app) (effective_memory app) (app_js_heap_bytes app)
                         (app_process_address_bytes app) (app_file_descriptors app) (app_workers app) (app_min_ready app)
                         (host_strict_sandbox host) json (sha256_hex (app_stream app)) (sha256_hex json) ids)
              end
          end
      end
  end.
End compile.

(** ** Runtime descriptors *)

Record RuntimePolicy := mkRuntimePolicy {
  module_names : list bytes;
  rule_resources : list bytes;
  rp_rules : list capsid_permission_rule;
  egress_targets : list bytes;
  egress_rules : list capsid_egress_rule;
  env_values : list (bytes * bytes);
  rp_env_entries : list capsid_env_entry;
  capability : capsid_capability_policy;
  egress : capsid_egress_policy;
  has_egress : bool
}.

Definition capsid_env_entry_init : capsid_env_entry := mkEnvEntry sizeof_env_entry None None 0.

(** The value of a permission and of an action in the ABI. *)
Definition CAPSID_PERMISSION_READ : Z := 1.
Definition CAPSID_PERMISSION_ENV : Z := 4.
Definition CAPSID_PERMISSION_STDIO : Z := 8.
Definition CAPSID_PERMISSION_STORAGE : Z := 9.
Definition CAPSID_PERMISSION_DENY : Z := 0.
Definition CAPSID_PERMISSION_ALLOW : Z := 1.

Definition permission_rule (permission action : Z) (resource : bytes) (id : Z) : capsid_permission_rule :=
  mkPermissionRule (prule_struct_size capsid_permission_rule_init) action permission (Some resource) id
    (prule_reserved capsid_permission_rule_init).

(** The rules of one category; every one needs an identifier. *)
Fixpoint rules_of (permission action : Z) (missing : bytes) (resources : list bytes) (ids : list Z)
    : bytes + list capsid_permission_rule :=
  match resources with
  | [] => inr []
  | r :: resources =>
      let id := match ids with [] => 0 | id :: _ => id end in
      if id =? 0 then inl missing
      else match rules_of permission action missing resources (tail ids) with
      | inl e => inl e
      | inr rest => inr (permission_rule permission action r id :: rest)
      end
  end.

Definition egress_rule (host : bytes) (port : Z) : capsid_egress_rule :=
  mkEgressRule (rule_struct_size capsid_egress_rule_init) 1 (Some host) port port 0 (rule_reserved capsid_egress_rule_init).

(** No ports: one rule for any port. *)
Definition egress_rules_of (t : FetchTarget) : list capsid_egress_rule :=
  if bool_decide (ft_ports t = []) then [egress_rule (ft_host t) 0] else map (egress_rule (ft_host t)) (ft_ports t).

(** [nullptr] for an empty table. *)
Definition table {A} (l : list A) : option (list A) := match l with [] => None | _ => Some l end.

Definition build_runtime_policy (effective : EffectiveConfig) (values : list (bytes * bytes)) : bytes + RuntimePolicy :=
  match rules_of CAPSID_PERMISSION_ENV CAPSID_PERMISSION_ALLOW (bs "missing env rule id") (map ee_name (ef_env effective))
          (map ee_rule_id (ef_env effective)) with inl e => inl e | inr env_rules =>
  match rules_of CAPSID_PERMISSION_READ CAPSID_PERMISSION_ALLOW (bs "missing fs rule id") (ef_fs_read effective)
          (ef_fs_rule_ids effective) with inl e => inl e | inr fs_rules =>
  match rules_of CAPSID_PERMISSION_READ CAPSID_PERMISSION_DENY (bs "missing fs deny rule id") (ef_fs_read_deny effective)
          (ef_fs_deny_rule_ids effective) with inl e => inl e | inr deny_rules =>
  match rules_of CAPSID_PERMISSION_STORAGE CAPSID_PERMISSION_ALLOW (bs "missing storage rule id")
          (ef_storage_namespaces effective) (ef_storage_rule_ids effective) with inl e => inl e | inr storage_rules =>
  match rules_of CAPSID_PERMISSION_STDIO CAPSID_PERMISSION_ALLOW (bs "missing stdio rule id")
          (ef_stdio_streams effective) (ef_stdio_rule_ids effective) with inl e => inl e | inr stdio_rules =>
    let rules := env_rules ++ fs_rules ++ deny_rules ++ storage_rules ++ stdio_rules in
    let resources := map ee_name (ef_env effective) ++ ef_fs_read effective ++ ef_fs_read_deny effective
                     ++ ef_storage_namespaces effective ++ ef_stdio_streams effective in
    let has := negb (bool_decide (ef_fetch effective = [])) in
    let targets := List.concat (map egress_rules_of (ef_fetch effective)) in
    let egress := mkEgressDescriptor (policy_struct_size capsid_egress_policy_init) 0 (table targets) (u32 (zlen targets))
                    (policy_reserved capsid_egress_policy_init) in
    let entries := map (λ v, mkEnvEntry (env_struct_size capsid_env_entry_init) (Some v.1) (Some v.2)
                              (env_entry_reserved capsid_env_entry_init)) values in
    let init := capsid_capability_policy_init in
    let cap := mkCapabilityDescriptor (cap_struct_size init) (cap_version init) (cap_identity init)
                 (table (map Some (ef_modules effective))) (u32 (zlen (ef_modules effective)))
                 (table rules) (u32 (zlen rules)) (if has then Some egress else None) (cap_reserved init)
                 (table entries) (u32 (zlen entries)) (cap_env_reserved init) in
    inr (mkRuntimePolicy (ef_modules effective) resources rules (map ft_host (ef_fetch effective)) targets values entries cap egress has)
  end end end end end.

(** [RuntimePolicy::apply]: no egress policy keeps the worker's default of
    denying every destination. *)
Definition apply (p : RuntimePolicy) (c : capsid_worker_config) : capsid_worker_config :=
  mkConfig (c_struct_size c) (c_abi_version c) (c_js_heap_limit c) (c_process_memory_limit c) (c_request_timeout_ms c)
    (c_js_stack_size c) (c_max_inflight c) (c_max_header c) (c_max_queued c) (c_initial_window c) (c_strict c) (c_ca_path c)
    (c_max_fetch_request c) (c_max_fetch_response c) (c_required_features c) (c_sandbox_reserved c) (c_cgroup_path c)
    (c_resource_limits c) (if has_egress p then Some (egress p) else None) (Some (capability p)) (c_namespace_fd c)
    (c_egress_reserved c) (c_protocol_version c) (c_protocol_reserved c) (c_protocol_capabilities c).

(** ** Paths *)

Lemma normalize_loop_eq components stack : normalize_loop components stack = path_loop components stack.
Proof.
  revert stack. induction components as [|c components IH]; intros stack; [done|]. cbn [normalize_loop path_loop].
  destruct (decide (c = bs "..")) as [->|Hdd].
  - rewrite bool_decide_eq_true_2 by done. rewrite !bool_decide_eq_false_2 by done. destruct stack; [done|apply IH].
  - rewrite (bool_decide_eq_false_2 (c = bs "..")) by done.
    destruct (bool_decide (c = [])), (bool_decide (c = bs ".")); cbn [negb andb orb]; apply IH.
Qed.

Lemma normalize_join_eq components : normalize_join components = path_join components.
Proof.
  unfold normalize_join, path_join. assert (∀ out, out ≠ [] →
    fold_left (λ out c, (if negb (bool_decide (out = [])) && negb (last_is out Byte.x2f) then out ++ [Byte.x2f] else out) ++ c) components out
    = fold_left (λ out c, (if negb (last_is out Byte.x2f) then out ++ [Byte.x2f] else out) ++ c) components out) as Hf.
  { induction components as [|c components IH]; intros out Hout; [done|]. cbn [fold_left].
    rewrite bool_decide_eq_false_2 by done. cbn [negb andb]. apply IH. destruct (negb _), out; done. }
  by rewrite Hf.
Qed.

(** The compiler and the worker normalize alike. *)
Lemma normalize_path_eq path : normalize_path path = CapabilityPolicy.normalize_path path.
Proof.
  unfold normalize_path, CapabilityPolicy.normalize_path. do 2 (destruct (_ : bool); [done|]).
  rewrite normalize_loop_eq. destruct (path_loop _ _) as [cs|]; [|done]. cbn. by rewrite normalize_join_eq.
Qed.

Lemma path_within_matches path root : path_within path root = true → path_matches path root = true.
Proof.
  unfold path_within, path_matches. intros [->|Hw]%orb_true_iff; [by rewrite orb_true_r|].
  apply andb_true_iff in Hw as [Hw ->]. apply andb_true_iff in Hw as [-> ->]. by rewrite orb_true_r.
Qed.

(** A root of the Host that is the root directory holds only itself. *)
Lemma slash_root_holds_nothing path cs : normalize_path path = Some (text_of cs) → Forall CapabilityPolicy.ordinary cs →
  path_within (text_of cs) (bs "/") = true → cs = [].
Proof.
  intros _ Hcs. destruct cs as [|c cs]; [done|]. apply Forall_cons in Hcs as [(Hp & Hne & _) _]. rewrite text_of_cons, body_cons.
  unfold path_within. intros Hw. apply orb_true_iff in Hw as [Hw|Hw]; bools.
  - injection Hw as Hw. by destruct c.
  - destruct c as [|d c]; [done|]. exfalso. apply Hp. assert (u8 d = 47) as Hd by done.
    assert (d = Byte.x2f) as -> by (by apply u8_inj). by left.
Qed.

(** ** Sorting *)

Section sorted.
Context {A : Type} (lt : A → A → bool).
Hypothesis lt_asym : ∀ x y, lt x y = true → lt y x = false.
Hypothesis le_trans : ∀ x y z, lt y x = false → lt z y = false → lt z x = false.

Lemma sort_insert_perm x l : sort_insert lt x l ≡ₚ x :: l.
Proof. induction l as [|y l IH]; [done|]. cbn [sort_insert]. destruct (lt x y); [done|]. rewrite IH. apply Permutation_swap. Qed.

Lemma sort_perm l : sort lt l ≡ₚ l.
Proof.
  unfold sort. assert (∀ s, fold_left (λ s x, sort_insert lt x s) l s ≡ₚ s ++ l) as Hf; [|apply Hf].
  induction l as [|x l IH]; intros s; cbn [fold_left]; [by rewrite app_nil_r|]. rewrite IH, sort_insert_perm. cbn. apply Permutation_middle.
Qed.

Lemma sort_insert_sorted x l : StronglySorted (λ a b, lt b a = false) l → StronglySorted (λ a b, lt b a = false) (sort_insert lt x l).
Proof.
  induction 1 as [|y l Hl IH Hy]; cbn [sort_insert]; [by repeat constructor|]. destruct (lt x y) eqn:E.
  - constructor; [by constructor|]. constructor; [by apply lt_asym|]. eapply Forall_impl; [exact Hy|]. intros z Hz.
    eapply le_trans; [by apply lt_asym|done].
  - constructor; [done|]. rewrite sort_insert_perm. by constructor.
Qed.

Lemma sort_sorted l : StronglySorted (λ a b, lt b a = false) (sort lt l).
Proof.
  unfold sort. assert (∀ s, StronglySorted (λ a b, lt b a = false) s →
    StronglySorted (λ a b, lt b a = false) (fold_left (λ s x, sort_insert lt x s) l s)) as Hf; [|apply Hf; constructor].
  induction l as [|x l IH]; intros s Hs; [done|]. by apply IH, sort_insert_sorted.
Qed.

(** The order of the input does not matter where equal keys mean equal elements. *)
Lemma sort_canonical l k : l ≡ₚ k → (∀ x y, x ∈ l → y ∈ l → lt x y = false → lt y x = false → x = y) → sort lt l = sort lt k.
Proof.
  intros Hp Hinj. eapply StronglySorted_unique_strong; [|apply sort_sorted..|by rewrite !sort_perm].
  intros x y Hx Hy. rewrite sort_perm in Hx, Hy. rewrite <- Hp in Hy. intros H1 H2. by apply Hinj.
Qed.
End sorted.

Lemma bytes_lt_asym a b : bytes_lt a b = true → bytes_lt b a = false.
Proof.
  intros H1. destruct (bytes_lt b a) eqn:H2; [|done]. pose proof (bytes_lt_trans _ _ _ H1 H2) as H3. by rewrite bytes_lt_irrefl in H3.
Qed.

Lemma bytes_le_trans a b c : bytes_lt b a = false → bytes_lt c b = false → bytes_lt c a = false.
Proof.
  intros H1 H2. destruct (bytes_lt c a) eqn:H3; [|done]. destruct (bytes_lt a b) eqn:H4.
  - by rewrite (bytes_lt_trans _ _ _ H3 H4) in H2.
  - pose proof (bytes_lt_total _ _ H4 H1) as ->. congruence.
Qed.

(** ** What the checks establish *)

Definition set_of (l : list bytes) : list bytes := fold_left (λ s x, set_insert x s) l [].

Lemma elem_of_fold_insert l s x : x ∈ fold_left (λ s x, set_insert x s) l s ↔ x ∈ s ∨ x ∈ l.
Proof.
  revert s. induction l as [|y l IH]; intros s; cbn [fold_left]; [rewrite elem_of_nil; tauto|].
  rewrite IH, elem_of_set_insert, elem_of_cons. tauto.
Qed.

Lemma elem_of_set_of l x : x ∈ set_of l ↔ x ∈ l.
Proof. unfold set_of. rewrite elem_of_fold_insert, elem_of_nil. tauto. Qed.

Lemma fold_insert_ascending l s : ascending s → ascending (fold_left (λ s x, set_insert x s) l s).
Proof. revert s. induction l as [|y l IH]; intros s Hs; [done|]. by apply IH, set_insert_ascending. Qed.

(** A set does not depend on the order of its insertions. *)
Lemma set_of_perm l k : l ≡ₚ k → set_of l = set_of k.
Proof.
  intros Hp. apply ascending_unique; [apply fold_insert_ascending; constructor..|].
  intros x. by rewrite !elem_of_set_of, Hp.
Qed.

(** What a pattern stands for: a name, or every name with a prefix. *)
Definition pattern_holds (pattern name : bytes) : Prop :=
  ((Byte.x2a ∉ pattern) ∧ name = pattern)
  ∨ ∃ before, (Byte.x2a ∉ before) ∧ pattern = before ++ [Byte.x2a] ∧ before `prefix_of` name.

Lemma env_pattern_matches_spec pattern name : env_pattern_matches pattern name = true ↔ pattern_holds pattern name.
Proof.
  unfold env_pattern_matches, pattern_holds. destruct (bool_decide_reflect (pattern = bs "*")) as [->|_].
  { split; [|done]. intros _. right. exists []. split_and!; [apply not_elem_of_nil|done|apply prefix_nil]. }
  destruct (split_at Byte.x2a pattern) as [[before after]|] eqn:Es.
  - apply split_at_some in Es as [-> Hb]. destruct (bool_decide_reflect (after = [])) as [->|Ha]; cbn [negb].
    + rewrite bool_decide_eq_true. split.
      * intros Ht. right. exists before. split_and!; [done..|]. exists (zdrop (zlen before) name). by rewrite <- Ht at 1; rewrite ztake_zdrop.
      * intros [[Hn _]|(b & Hb' & E & k & ->)]; [exfalso; apply Hn, elem_of_app; right; apply list_elem_of_here|].
        apply app_inj_tail in E as [-> _]. by apply ztake_app.
    + split; [done|]. intros [[Hn _]|(b & Hb' & E & _)]; [exfalso; apply Hn, elem_of_app; right; apply list_elem_of_here|].
      pose proof (split_at_app Byte.x2a before (Byte.x2a :: after) Hb) as E1. rewrite E, split_at_app in E1 by done.
      cbn [split_at] in E1. rewrite !bool_decide_true in E1 by done. congruence.
  - apply split_at_none in Es. rewrite bool_decide_eq_true. split; [by left|].
    intros [[_ ->]|(b & _ & -> & _)]; [done|]. exfalso. apply Es, elem_of_app. right. apply list_elem_of_here.
Qed.

(** A pattern of the Host holds the name and no denial does. *)
Lemma env_covered_spec host name : env_covered host name = true ↔
  (∃ p, p ∈ env_patterns host ∧ pattern_holds p name) ∧ ∀ p, p ∈ env_deny_patterns host → ¬ pattern_holds p name.
Proof.
  unfold env_covered. rewrite andb_true_iff, negb_true_iff, <- not_true_iff_false, !existsb_exists. split.
  - intros [(p & Hp & Hm) Hno]. split.
    + exists p. by rewrite list_elem_of_In, <- env_pattern_matches_spec.
    + intros q Hq Hh. apply Hno. exists q. by rewrite <- list_elem_of_In, env_pattern_matches_spec.
  - intros [(p & Hp & Hm) Hno]. split.
    + exists p. by rewrite <- list_elem_of_In, env_pattern_matches_spec.
    + intros (q & Hq & Hh). apply (Hno q); [by apply list_elem_of_In|by apply env_pattern_matches_spec].
Qed.

Lemma check_modules_spec allowed modules requested out : check_modules allowed modules requested = inr out ↔
  NoDup modules ∧ (∀ m, m ∈ modules → (m ∉ requested) ∧ m ∈ allowed) ∧ out = fold_left (λ s x, set_insert x s) modules requested.
Proof.
  revert requested. induction modules as [|m modules IH]; intros requested; cbn [check_modules fold_left].
  { split; [intros [= <-]; split_and!; [constructor|by intros ? ?%elem_of_nil|done]|]. by intros (_ & _ & ->). }
  case_bool_decide as Hr; [split; [done|]; intros (_ & Hm & _); by destruct (Hm m ltac:(by left))|].
  case_bool_decide as Ha; cbn [negb]; [|split; [done|]; intros (_ & Hm & _); by destruct (Hm m ltac:(by left))].
  rewrite IH, NoDup_cons. split.
  - intros (Hnd & Hm & ->). split_and!; [|done| |done].
    + intros Hin. destruct (Hm _ Hin) as [Hno _]. apply Hno, elem_of_set_insert. by left.
    + intros x [->|Hx]%elem_of_cons; [done|]. destruct (Hm _ Hx) as [Hno ?]. split; [|done].
      intros Hin. apply Hno, elem_of_set_insert. by right.
  - intros ((Hni & Hnd) & Hm & ->). split_and!; [done| |done]. intros x Hx. destruct (Hm x ltac:(by right)) as [Hno ?].
    split; [|done]. rewrite elem_of_set_insert. intros [->|?]; done.
Qed.

Lemma check_resolved_spec requested entries resolved : check_resolved requested entries resolved = None ↔
  NoDup (map ee_name entries) ∧ (∀ e, e ∈ entries → (ee_name e ∉ resolved) ∧ ee_name e ∈ requested)
  ∧ ∀ n, n ∈ requested ↔ n ∈ resolved ∨ n ∈ map ee_name entries.
Proof.
  revert resolved. induction entries as [|e entries IH]; intros resolved; cbn [check_resolved map].
  - case_bool_decide as Hs; (split; [|try done]).
    + intros _. split_and!; [constructor|by intros ? ?%elem_of_nil|]. intros n. rewrite elem_of_nil.
      assert (n ∈ list_to_set (C := gset bytes) resolved ↔ n ∈ list_to_set (C := gset bytes) requested) as Hn by (by rewrite Hs).
      rewrite !elem_of_list_to_set in Hn. tauto.
    + done.
    + intros (_ & _ & Hn). destruct Hs. apply set_eq. intros n. rewrite !elem_of_list_to_set, Hn, elem_of_nil. tauto.
  - case_bool_decide as Hr; [split; [done|]; intros (_ & Hm & _); by destruct (Hm e ltac:(by left))|].
    case_bool_decide as Ha; cbn [negb]; [|split; [done|]; intros (_ & Hm & _); by destruct (Hm e ltac:(by left))].
    rewrite IH, NoDup_cons. split.
    + intros (Hnd & Hm & Hn). split_and!; [|done| |].
      * intros (x & Hx & Hin)%list_elem_of_fmap. destruct (Hm _ Hin) as [Hno _]. apply Hno. rewrite <- Hx. by left.
      * intros x [->|Hx]%elem_of_cons; [done|]. destruct (Hm _ Hx) as [Hno ?]. split; [|done]. intros Hin. apply Hno. by right.
      * intros n. rewrite Hn, !elem_of_cons. tauto.
    + intros ((Hni & Hnd) & Hm & Hn). split_and!; [done| |].
      * intros x Hx. destruct (Hm x ltac:(by right)) as [Hno ?]. split; [|done]. intros [Heq|?]%elem_of_cons; [|done].
        apply Hni. rewrite <- Heq. apply list_elem_of_fmap. by exists x.
      * intros n. rewrite Hn, !elem_of_cons. tauto.
Qed.

Lemma forall2_functional {A B} (R : A → B → Prop) l a b : (∀ x y z, R x y → R x z → y = z) → Forall2 R l a → Forall2 R l b → a = b.
Proof.
  intros HR Ha. revert b. induction Ha as [|x y l a Hxy _ IH]; intros b Hb; [by inversion Hb|].
  destruct b as [|z b]; [by inversion Hb|]. apply Forall2_cons in Hb as [Hz Hb]. f_equal; [by eapply HR|by apply IH].
Qed.

Lemma check_paths_spec duplicate invalid outside roots raws requested out :
  check_paths duplicate invalid outside roots raws requested = inr out ↔
  NoDup raws ∧ (∀ r, r ∈ raws → r ∉ requested)
  ∧ Forall2 (λ raw n, normalize_path raw = Some n ∧ existsb (path_within n) roots = true) raws out.
Proof.
  revert requested out. induction raws as [|raw raws IH]; intros requested out; cbn [check_paths].
  { split; [intros [= <-]; split_and!; [constructor|by intros ? ?%elem_of_nil|constructor]|]. intros (_ & _ & Hf). by inversion Hf. }
  case_bool_decide as Hr; [split; [done|]; intros (_ & Hm & _); by destruct (Hm raw ltac:(by left))|].
  destruct (normalize_path raw) as [n|] eqn:En; [|split; [done|]; intros (_ & _ & Hf); inversion Hf as [|???? [? _]]; congruence].
  destruct (existsb (path_within n) roots) eqn:Ew; cbn [negb]; [|split; [done|]; intros (_ & _ & Hf); inversion Hf as [|???? [? ?]]; congruence].
  destruct (check_paths _ _ _ _ raws _) as [e|rest] eqn:Er.
  - split; [done|]. intros (Hnd & Hm & Hf). exfalso. inversion Hf as [|? n' ? out' [Hn' _] Hf']; subst.
    apply NoDup_cons in Hnd as [Hni Hnd]. assert (inl e = inr out' :> bytes + list bytes) as Hc; [|done]. rewrite <- Er. apply IH.
    split_and!; [done| |done]. intros r Hr'. rewrite elem_of_cons. intros [->|Hin]; [done|]. by apply (Hm r); [right|].
  - apply IH in Er as (Hnd & Hm & Hf). split.
    + intros [= <-]. split_and!; [constructor; [|done]|..].
      * intros Hin. apply (Hm _ Hin). by left.
      * intros r [->|Hin]%elem_of_cons; [done|]. intros Hin'. apply (Hm r Hin). by right.
      * by constructor.
    + intros (_ & _ & Hf'). inversion Hf' as [|? n' ? out' [Hn' _] Hf'']; subst. rewrite En in Hn'. injection Hn' as <-. do 2 f_equal.
      eapply forall2_functional; [|exact Hf|exact Hf'']. intros x y z [? _] [? _]. congruence.
Qed.

Lemma ascending_nodup l : ascending l → NoDup l.
Proof.
  induction 1 as [|x l Hl IH Hx]; [constructor|]. constructor; [|done]. intros Hin. rewrite Forall_forall in Hx.
  apply Hx in Hin. by rewrite bytes_lt_irrefl in Hin.
Qed.

Lemma set_of_nodup l : NoDup (set_of l).
Proof. apply ascending_nodup, fold_insert_ascending. constructor. Qed.

Lemma set_of_length l : zlen (set_of l) = zlen l ↔ NoDup l.
Proof.
  unfold zlen. split.
  - intros Hl. apply NoDup_ListNoDup. apply (NoDup_incl_NoDup (l := set_of l)); [apply NoDup_ListNoDup, set_of_nodup|lia|].
    intros x Hx. apply list_elem_of_In in Hx. by apply list_elem_of_In, elem_of_set_of.
  - intros Hnd. f_equal. apply Permutation_length, NoDup_Permutation; [apply set_of_nodup|done|apply elem_of_set_of].
Qed.

Lemma check_resources_spec wanted duplicate outside allowed requested out :
  check_resources wanted duplicate outside allowed requested = inr out ↔
  (wanted = true → NoDup requested ∧ ∀ r, r ∈ requested → r ∈ allowed) ∧ out = if wanted then set_of requested else [].
Proof.
  unfold check_resources. fold (set_of requested). destruct wanted; cbn [negb]; [|split; [by intros [= <-]|by intros [_ ->]]].
  destruct (Z.eqb_spec (zlen (set_of requested)) (zlen requested)) as [Hl|Hl]; cbn [negb].
  - apply set_of_length in Hl. destruct (forallb _ _) eqn:Ef; cbn [negb].
    + split; [|by intros [_ ->]]. intros [= <-]. split; [|done]. intros _. split; [done|]. intros r Hr.
      rewrite forallb_forall in Ef. apply elem_of_set_of, list_elem_of_In, Ef in Hr. by apply bool_decide_eq_true_1 in Hr.
    + split; [done|]. intros [Hall _]. destruct (Hall eq_refl) as [_ Hin]. exfalso. apply not_true_iff_false in Ef. apply Ef, forallb_forall.
      intros r Hr. apply bool_decide_eq_true_2, Hin, elem_of_set_of. by apply list_elem_of_In.
  - split; [done|]. intros [Hall _]. destruct (Hall eq_refl) as [Hnd _]. by apply set_of_length in Hnd.
Qed.

(** The Host permits the request; none of it depends on an order. *)
Record permitted (host : HostPolicy) (app : AppRequest) (resolved : list EffectiveEnvEntry) (roots : list bytes) : Prop := {
  pm_pool : check_pool host app = None;
  pm_modules : NoDup (app_modules app) ∧ ∀ m, m ∈ app_modules app → m ∈ module_allowlist host;
  pm_patterns : forallb valid_env_pattern (env_patterns host) = true;
  pm_names : NoDup (map er_name (app_env app)) ∧ NoDup (map ee_name resolved) ∧ zlen (app_env app) = zlen resolved
             ∧ ∀ n, n ∈ map er_name (app_env app) ↔ n ∈ map ee_name resolved;
  pm_env : ∀ r, r ∈ app_env app → env_covered host (er_name r) = true;
  pm_roots : normalize_roots (fs_read_roots host) = Some roots;
  pm_fs : NoDup (app_fs_read app)
          ∧ ∀ raw, raw ∈ app_fs_read app → ∃ n, normalize_path raw = Some n ∧ existsb (path_within n) roots = true;
  pm_deny : NoDup (app_fs_read_deny app)
            ∧ ∀ raw, raw ∈ app_fs_read_deny app → ∃ n, normalize_path raw = Some n ∧ existsb (path_within n) roots = true;
  pm_fetch : ∀ t, t ∈ app_fetch app → fetch_covered (fetch_targets host) t = true;
  pm_storage : app_storage app = true → storage_allowed host = true ∧ NoDup (app_storage_namespaces app)
               ∧ ∀ n, n ∈ app_storage_namespaces app → n ∈ host_storage_namespaces host;
  pm_stdio : app_stdio app = true → stdio_allowed host = true ∧ NoDup (app_stdio_streams app)
             ∧ ∀ n, n ∈ app_stdio_streams app → n ∈ host_stdio_streams host;
  pm_limits : check_limits host app = None
}.

Definition checked_of (app : AppRequest) : Checked :=
  mkChecked (set_of (app_modules app)) (omap normalize_path (app_fs_read app)) (omap normalize_path (app_fs_read_deny app))
    (if app_storage app then set_of (app_storage_namespaces app) else []) (if app_stdio app then set_of (app_stdio_streams app) else []).

Lemma forall2_omap {A B} (f : A → option B) (P : B → bool) l out :
  Forall2 (λ x y, f x = Some y ∧ P y = true) l out ↔ (∀ x, x ∈ l → ∃ y, f x = Some y ∧ P y = true) ∧ out = omap f l.
Proof.
  split.
  - induction 1 as [|x y l out [Hf HP] _ [IH1 IH2]]; [split; [by intros ? ?%elem_of_nil|done]|]. cbn. rewrite Hf, <- IH2.
    split; [|done]. intros z [->|Hz]%elem_of_cons; eauto.
  - intros [Hall ->]. induction l as [|x l IH]; cbn; [constructor|]. destruct (Hall x ltac:(by left)) as (y & Hy & HP). rewrite Hy.
    constructor; [done|]. apply IH. intros z Hz. apply Hall. by right.
Qed.

Lemma forallb_elem {A} (f : A → bool) l : forallb f l = true ↔ ∀ x, x ∈ l → f x = true.
Proof. rewrite forallb_forall. split; intros H x Hx; apply H; by apply list_elem_of_In. Qed.

Lemma check_env_names_spec app resolved : check_env_names app resolved = None ↔
  NoDup (map er_name (app_env app)) ∧ NoDup (map ee_name resolved) ∧ zlen (app_env app) = zlen resolved
  ∧ ∀ n, n ∈ map er_name (app_env app) ↔ n ∈ map ee_name resolved.
Proof.
  unfold check_env_names. case_bool_decide as Hnd; cbn [negb]; [|split; [done|by intros [? _]]].
  destruct (Z.eqb_spec (zlen (app_env app)) (zlen resolved)) as [Hl|Hl]; cbn [negb]; [|split; [done|by intros (_ & _ & ? & _)]].
  rewrite check_resolved_spec. split.
  - intros (H1 & H2 & H3). split_and!; [done..|]. intros n. rewrite H3, elem_of_nil. tauto.
  - intros (_ & H1 & _ & H2). split_and!; [done| |intros n; rewrite H2, elem_of_nil; tauto].
    intros e He. rewrite elem_of_nil, H2. split; [tauto|]. apply list_elem_of_fmap. by exists e.
Qed.

Lemma check_request_spec host app resolved c : check_request host app resolved = inr c ↔
  (∃ roots, permitted host app resolved roots) ∧ c = checked_of app.
Proof.
  unfold check_request. split.
  - destruct (check_pool host app) eqn:E1; [done|]. destruct (check_modules _ _ _) as [|ms] eqn:E2; [done|].
    destruct (forallb valid_env_pattern _) eqn:E3; [|done]. cbn [negb]. destruct (check_env_names _ _) eqn:E4; [done|].
    destruct (forallb (λ r, env_covered host (er_name r)) _) eqn:E5; [|done]. cbn [negb]. destruct (normalize_roots _) as [roots|] eqn:E6; [|done].
    destruct (check_paths _ _ _ _ (app_fs_read app) _) as [|fs] eqn:E7; [done|].
    destruct (check_paths _ _ _ _ (app_fs_read_deny app) _) as [|deny] eqn:E8; [done|].
    destruct (forallb (fetch_covered _) _) eqn:E9; [|done]. cbn [negb].
    destruct (app_storage app && negb (storage_allowed host)) eqn:E10; [done|].
    destruct (app_stdio app && negb (stdio_allowed host)) eqn:E11; [done|].
    destruct (check_resources (app_storage app) _ _ _ _) as [|ns] eqn:E12; [done|].
    destruct (check_resources (app_stdio app) _ _ _ _) as [|ss] eqn:E13; [done|].
    destruct (check_limits host app) eqn:E14; [done|]. intros [= <-].
    apply check_modules_spec in E2 as (M1 & M2 & ->). apply check_env_names_spec in E4. apply check_resources_spec in E12 as [R1 ->], E13 as [R2 ->].
    apply check_paths_spec in E7 as (F1 & _ & F2), E8 as (D1 & _ & D2). apply forall2_omap in F2 as [F2 ->], D2 as [D2 ->].
    pose proof (proj1 (forallb_elem _ _) E5). pose proof (proj1 (forallb_elem _ _) E9). split; [|done]. exists roots. split; try done.
    + split; [done|]. intros m Hm. by apply M2.
    + intros Hs. rewrite Hs in E10. cbn in E10. apply negb_false_iff in E10. destruct (R1 Hs). done.
    + intros Hs. rewrite Hs in E11. cbn in E11. apply negb_false_iff in E11. destruct (R2 Hs). done.
  - intros ((roots & [P1 [P2 P2'] P3 P4 P5 P6 [P7 P7'] [P8 P8'] P9 P10 P11 P12]) & ->). rewrite P1.
    rewrite (proj2 (check_modules_spec _ _ [] _)) by (split_and!; [done|intros m Hm; split; [apply not_elem_of_nil|by apply P2']|reflexivity]).
    rewrite P3. cbn [negb]. rewrite (proj2 (check_env_names_spec _ _)) by done.
    rewrite (proj2 (forallb_elem _ (app_env app))) by done. cbn [negb]. rewrite P6.
    rewrite (proj2 (check_paths_spec _ _ _ _ (app_fs_read app) [] _))
      by (split_and!; [done|intros; apply not_elem_of_nil|by apply forall2_omap]).
    rewrite (proj2 (check_paths_spec _ _ _ _ (app_fs_read_deny app) [] _))
      by (split_and!; [done|intros; apply not_elem_of_nil|by apply forall2_omap]).
    rewrite (proj2 (forallb_elem _ (app_fetch app))) by done. cbn [negb].
    replace (app_storage app && negb (storage_allowed host)) with false by (destruct (app_storage app); [by destruct P10 as [-> _]|done]).
    replace (app_stdio app && negb (stdio_allowed host)) with false by (destruct (app_stdio app); [by destruct P11 as [-> _]|done]).
    rewrite (proj2 (check_resources_spec (app_storage app) _ _ _ _ _)) by (split; [intros Hs; by destruct (P10 Hs)|reflexivity]).
    rewrite (proj2 (check_resources_spec (app_stdio app) _ _ _ _ _)) by (split; [intros Hs; by destruct (P11 Hs)|reflexivity]).
    by rewrite P12.
Qed.

(** ** The result does not depend on the order of the request *)

Record same_request (a b : AppRequest) : Prop := {
  sr_modules : app_modules a ≡ₚ app_modules b;
  sr_env : app_env a ≡ₚ app_env b;
  sr_fs : app_fs_read a ≡ₚ app_fs_read b;
  sr_deny : app_fs_read_deny a ≡ₚ app_fs_read_deny b;
  sr_fetch : app_fetch a ≡ₚ app_fetch b;
  sr_namespaces : app_storage_namespaces a ≡ₚ app_storage_namespaces b;
  sr_streams : app_stdio_streams a ≡ₚ app_stdio_streams b;
  sr_flags : app_storage a = app_storage b ∧ app_stdio a = app_stdio b;
  sr_pool : app_requests_per_worker a = app_requests_per_worker b ∧ app_queue_requests a = app_queue_requests b
            ∧ app_queue_header_bytes a = app_queue_header_bytes b ∧ app_queue_timeout_ms a = app_queue_timeout_ms b
            ∧ app_workers a = app_workers b ∧ app_min_ready a = app_min_ready b;
  sr_request : app_max_streaming_inflight a = app_max_streaming_inflight b
               ∧ app_stream_idle_timeout_ms a = app_stream_idle_timeout_ms b ∧ app_write_timeout_ms a = app_write_timeout_ms b;
  sr_worker : app_memory_bytes a = app_memory_bytes b ∧ app_js_heap_bytes a = app_js_heap_bytes b
              ∧ app_process_address_bytes a = app_process_address_bytes b ∧ app_file_descriptors a = app_file_descriptors b
}.

Lemma same_request_sym a b : same_request a b → same_request b a.
Proof. intros []. split; try done; intuition congruence. Qed.

(** The parts that read only numbers and flags. *)
Lemma same_numbers host a b : same_request a b →
  check_pool host b = check_pool host a ∧ check_limits host b = check_limits host a ∧ number_fields host b = number_fields host a
  ∧ effective_memory b = effective_memory a.
Proof.
  intros [_ _ _ _ _ _ _ _ (P1 & P2 & P3 & P4 & P5 & P6) (R1 & R2 & R3) (W1 & W2 & W3 & W4)].
  unfold check_pool, check_limits, number_fields, effective_memory. rewrite P1, P2, P3, P4, P5, P6, R1, R2, R3, W1, W2, W3, W4. done.
Qed.

Lemma permitted_same host a b resolved resolved' roots : same_request a b → resolved ≡ₚ resolved' →
  permitted host a resolved roots → permitted host b resolved' roots.
Proof.
  intros Hs Hr [P1 P2 P3 P4 P5 P6 P7 P8 P9 P10 P11 P12]. destruct (same_numbers host a b Hs) as (N1 & N2 & _ & _).
  destruct Hs as [S1 S2 S3 S4 S5 S6 S7 [S8 S8'] _ _ _]. assert (map er_name (app_env a) ≡ₚ map er_name (app_env b)) as Hn by (by apply Permutation_map).
  assert (map ee_name resolved ≡ₚ map ee_name resolved') as Hm by (by apply Permutation_map).
  split; try done; try congruence.
  - rewrite <- S1. split; [apply P2|]. intros m Hm'. rewrite <- S1 in Hm'. by apply P2.
  - rewrite <- Hn, <- Hm. destruct P4 as (Q1 & Q2 & Q3 & Q4). split_and!; [done|done| |intros n; by rewrite <- Hn, <- Hm].
    unfold zlen in *. by rewrite <- S2, <- Hr.
  - intros r. rewrite <- S2. apply P5.
  - rewrite <- S3. split; [apply P7|]. intros r. rewrite <- S3. apply P7.
  - rewrite <- S4. split; [apply P8|]. intros r. rewrite <- S4. apply P8.
  - intros t. rewrite <- S5. apply P9.
  - rewrite <- S8, <- S6. intros Hst. destruct (P10 Hst) as (Q1 & Q2 & Q3). split_and!; [done..|]. intros n. rewrite <- S6. apply Q3.
  - rewrite <- S8', <- S7. intros Hst. destruct (P11 Hst) as (Q1 & Q2 & Q3). split_and!; [done..|]. intros n. rewrite <- S7. apply Q3.
Qed.

(** The entry of one variable. *)
Definition entry_of (resolved : list EffectiveEnvEntry) (r : EnvRequest) : EffectiveEnvEntry :=
  if er_from_secret r then
    mkEffectiveEnv (er_name r) true (er_secret_key_id r)
      (match List.find (λ e, bool_decide (ee_name e = er_name r)) resolved with Some e => ee_secret_revision e | None => [] end) [] 0
  else mkEffectiveEnv (er_name r) false [] [] (er_literal r) 0.

Lemma env_entries_total resolved requests : (∀ r, r ∈ requests → er_name r ∈ map ee_name resolved) →
  env_entries_of resolved requests = inr (map (entry_of resolved) requests).
Proof.
  induction requests as [|r requests IH]; intros Hall; [done|]. cbn [env_entries_of map].
  rewrite IH by (intros x Hx; apply Hall; by right). set (rest := map (entry_of resolved) requests). unfold entry_of. destruct (er_from_secret r); [|done].
  destruct (List.find _ resolved) as [e|] eqn:E; [done|]. exfalso.
  destruct (proj1 (list_elem_of_fmap _ _ _) (Hall r ltac:(by left))) as (e & He & Hin).
  apply list_elem_of_In, (find_none _ _ E e) in Hin. by apply bool_decide_eq_false_1 in Hin.
Qed.

Lemma find_perm l k name : l ≡ₚ k → NoDup (map ee_name l) →
  List.find (λ e, bool_decide (ee_name e = name)) l = List.find (λ e, bool_decide (ee_name e = name)) k.
Proof.
  intros Hp. induction Hp as [|x l k _ IH|x y l|l k m Hlk IH1 Hkm IH2]; cbn [List.find map]; intros Hnd; [done|..].
  - apply NoDup_cons in Hnd as [_ Hnd]. by rewrite IH.
  - apply NoDup_cons in Hnd as [Hni _]. destruct (bool_decide_reflect (ee_name x = name)) as [Hx|]; [|done].
    rewrite bool_decide_eq_false_2; [done|]. intros Hy. apply Hni, elem_of_cons. left. congruence.
  - rewrite IH1 by done. apply IH2. by rewrite <- (Permutation_map ee_name Hlk).
Qed.

Definition by_host (a b : FetchTarget) : bool := bytes_lt (ft_host a) (ft_host b).
Definition by_name (a b : EnvRequest) : bool := bytes_lt (er_name a) (er_name b).

(** The canonical parts of the result. *)
Definition entries_in (app : AppRequest) (resolved : list EffectiveEnvEntry) : list EffectiveEnvEntry :=
  map (entry_of resolved) (sort by_name (app_env app)).
Definition labels_in (app : AppRequest) (resolved : list EffectiveEnvEntry) : list bytes :=
  let c := checked_of app in
  rule_labels (ck_modules c) (entries_in app resolved) (sort bytes_lt (ck_fs c)) (sort bytes_lt (ck_deny c))
    (sort by_host (app_fetch app)) (ck_namespaces c) (ck_streams c).

Lemma add_rules_spec labels seen ids : add_rules labels seen = Some ids ↔
  NoDup (map rule_id labels) ∧ (∀ l, l ∈ labels → rule_id l ∉ seen) ∧ ids = map (λ l, (rule_id l, l)) labels.
Proof.
  revert seen ids. induction labels as [|l labels IH]; intros seen ids; cbn [add_rules map].
  { split; [intros [= <-]; split_and!; [constructor|by intros ? ?%elem_of_nil|done]|]. by intros (_ & _ & ->). }
  case_bool_decide as Hl; [split; [done|]; intros (_ & Hm & _); by destruct (Hm l ltac:(by left))|].
  destruct (add_rules labels _) as [rest|] eqn:Er.
  - apply IH in Er as (Hnd & Hm & ->). split; [|by intros (_ & _ & ->)]. intros [= <-]. split_and!; [constructor; [|done]| |done].
    + intros (x & Hx & Hin)%list_elem_of_fmap. apply (Hm x Hin), elem_of_union. right. by apply elem_of_singleton.
    + intros x [->|Hx]%elem_of_cons; [done|]. intros Hin. apply (Hm x Hx), elem_of_union. by left.
  - split; [done|]. intros (Hnd & Hm & ->). apply NoDup_cons in Hnd as [Hni Hnd]. exfalso.
    assert (None = Some (map (λ l, (rule_id l, l)) labels)) as Hc; [|done]. rewrite <- Er. apply IH. split_and!; [done| |done].
    intros x Hx. rewrite elem_of_union, elem_of_singleton. intros [Hin|Heq]; [by apply (Hm x); [right|]|].
    apply Hni. rewrite <- Heq. apply list_elem_of_fmap. by exists x.
Qed.

Lemma nodup_map_inj {A B} (f : A → B) l x y : NoDup (map f l) → x ∈ l → y ∈ l → f x = f y → x = y.
Proof.
  induction l as [|z l IH]; cbn [map]; [by intros _ ?%elem_of_nil|]. rewrite NoDup_cons, !elem_of_cons. intros [Hni Hnd] Hx Hy Hf.
  destruct Hx as [->|Hx], Hy as [->|Hy]; [done|..|by apply IH]; exfalso; apply Hni, list_elem_of_fmap; eauto.
Qed.

Section order.
Context (EVP_sha256 : bytes → option bytes).

(** A permitted request compiles, unless two of its rules collide. *)
Lemma compile_permitted host app resolved roots : permitted host app resolved roots →
  compile_policy EVP_sha256 host app resolved =
    let c := checked_of app in
    let fs := sort bytes_lt (ck_fs c) in
    let deny := sort bytes_lt (ck_deny c) in
    let fetch := sort by_host (app_fetch app) in
    if bool_decide (NoDup (map rule_id (labels_in app resolved))) then
      let ids := sort (λ a b, a.1 <? b.1) (map (λ l, (rule_id l, l)) (labels_in app resolved)) in
      let env := map with_rule_id (entries_in app resolved) in
      match effective_json_of host app ids (ck_modules c) env fs deny fetch (ck_namespaces c) (ck_streams c) with
      | inl e => inl e
      | inr json =>
          inr (mkEffective (ck_modules c) env fs deny (map (λ p, rule_id (bs "fs:" ++ p)) fs)
                 (map (λ p, rule_id (bs "fs-deny:" ++ p)) deny) fetch (map (λ t, rule_id (bs "fetch:" ++ ft_host t)) fetch)
                 (app_storage app) (ck_namespaces c) (map (λ n, rule_id (bs "storage:" ++ n)) (ck_namespaces c))
                 (app_stdio app) (ck_streams c) (map (λ n, rule_id (bs "stdio:" ++ n)) (ck_streams c))
                 (app_requests_per_worker app) (app_queue_requests app) (app_queue_header_bytes app)
                 (app_queue_timeout_ms app) (app_max_streaming_inflight app) (app_stream_idle_timeout_ms app)
                 (app_write_timeout_ms app) (effective_memory app) (app_js_heap_bytes app)
                 (app_process_address_bytes app) (app_file_descriptors app) (app_workers app) (app_min_ready app)
                 (host_strict_sandbox host) json (sha256_hex EVP_sha256 (app_stream app)) (sha256_hex EVP_sha256 json) ids)
      end
    else inl (bs "rule id collision").
Proof.
  intros Hp. unfold compile_policy.
  rewrite (proj2 (check_request_spec host app resolved (checked_of app))) by (split; [by exists roots|done]).
  destruct (pm_names _ _ _ _ Hp) as (_ & _ & _ & Hnames).
  rewrite env_entries_total by (intros r Hr; rewrite sort_perm in Hr; apply Hnames, list_elem_of_fmap; by exists r).
  fold by_name by_host. fold (entries_in app resolved). cbv zeta. fold (labels_in app resolved).
  destruct (add_rules (labels_in app resolved) ∅) as [ids|] eqn:Ea.
  - apply add_rules_spec in Ea as (Hnd & _ & ->). by rewrite bool_decide_eq_true_2.
  - rewrite bool_decide_eq_false_2; [done|]. intros Hnd.
    assert (add_rules (labels_in app resolved) ∅ = Some (map (λ l, (rule_id l, l)) (labels_in app resolved))) as Hc; [|congruence].
    apply add_rules_spec. split_and!; [done|intros l _; apply not_elem_of_empty|done].
Qed.

Lemma entries_same a b resolved resolved' roots host : same_request a b → resolved ≡ₚ resolved' → permitted host a resolved roots →
  entries_in a resolved = entries_in b resolved'.
Proof.
  intros Hs Hr Hp. destruct (pm_names _ _ _ _ Hp) as (N1 & N2 & _ & _). unfold entries_in.
  assert (sort by_name (app_env a) = sort by_name (app_env b)) as ->.
  { apply sort_canonical; [intros x y; apply bytes_lt_asym|intros x y z; apply bytes_le_trans|apply sr_env; done|].
    intros x y Hx Hy H1 H2. pose proof (bytes_lt_total _ _ H1 H2) as Hxy. by eapply nodup_map_inj. }
  apply map_ext. intros r. unfold entry_of. by rewrite (find_perm resolved resolved').
Qed.

(** Distinct identifiers have distinct hosts. *)
Lemma hosts_distinct app resolved : NoDup (map rule_id (labels_in app resolved)) → NoDup (map ft_host (app_fetch app)).
Proof.
  unfold labels_in, rule_labels. cbv zeta. rewrite !map_app. intros Hnd. do 4 (apply NoDup_app in Hnd as (_ & _ & Hnd)).
  apply NoDup_app in Hnd as (Hnd & _ & _). rewrite map_map in Hnd.
  rewrite <- (sort_perm by_host (app_fetch app)). induction (sort by_host (app_fetch app)) as [|t l IH]; cbn [map] in *; [constructor|].
  apply NoDup_cons in Hnd as [Hni Hnd]. constructor; [|by apply IH]. intros (u & Hu & Hin)%list_elem_of_fmap.
  apply Hni, list_elem_of_fmap. exists u. by rewrite Hu.
Qed.

Lemma labels_same a b resolved resolved' roots host : same_request a b → resolved ≡ₚ resolved' → permitted host a resolved roots →
  NoDup (map rule_id (labels_in a resolved)) →
  labels_in b resolved' = labels_in a resolved ∧ sort by_host (app_fetch b) = sort by_host (app_fetch a)
  ∧ sort bytes_lt (ck_fs (checked_of b)) = sort bytes_lt (ck_fs (checked_of a))
  ∧ sort bytes_lt (ck_deny (checked_of b)) = sort bytes_lt (ck_deny (checked_of a)).
Proof.
  intros Hs Hr Hp Hnd. pose proof (hosts_distinct _ _ Hnd) as Hh.
  assert (∀ l k, l ≡ₚ k → sort bytes_lt (omap normalize_path l) = sort bytes_lt (omap normalize_path k)) as Hpaths.
  { intros l k Hlk. apply sort_canonical; [apply bytes_lt_asym|apply bytes_le_trans|by rewrite Hlk|]. intros x y _ _. apply bytes_lt_total. }
  assert (sort by_host (app_fetch b) = sort by_host (app_fetch a)) as Hf.
  { symmetry. apply sort_canonical; [intros x y; apply bytes_lt_asym|intros x y z; apply bytes_le_trans|by apply sr_fetch|].
    intros x y Hx Hy H1 H2. pose proof (bytes_lt_total _ _ H1 H2). by eapply nodup_map_inj. }
  unfold labels_in. cbv zeta. rewrite Hf, <- (entries_same a b resolved resolved' roots host) by done.
  destruct Hs as [S1 _ S3 S4 _ S6 S7 [S8 S9] _ _ _]. cbn [checked_of ck_modules ck_fs ck_deny ck_namespaces ck_streams].
  rewrite <- S8, <- S9, (Hpaths _ _ S3), (Hpaths _ _ S4), (set_of_perm _ _ S1), (set_of_perm _ _ S6), (set_of_perm _ _ S7). done.
Qed.
End order.

Lemma json_same host a b ids modules env fs deny fetch namespaces streams : same_request a b →
  effective_json_of host b ids modules env fs deny fetch namespaces streams
  = effective_json_of host a ids modules env fs deny fetch namespaces streams.
Proof.
  intros Hs. destruct (same_numbers host a b Hs) as (_ & _ & N3 & _). destruct (sr_flags _ _ Hs) as [F1 F2].
  unfold effective_json_of. by rewrite N3, F1, F2.
Qed.

(** What compiled was permitted, with distinct identifiers. *)
Lemma compiled_permitted EVP_sha256 host app resolved e : compile_policy EVP_sha256 host app resolved = inr e →
  ∃ roots, permitted host app resolved roots ∧ NoDup (map rule_id (labels_in app resolved)).
Proof.
  intros E. destruct (check_request host app resolved) as [|c] eqn:Ec; [unfold compile_policy in E; by rewrite Ec in E|].
  apply check_request_spec in Ec as ((roots & Hp) & ->). exists roots. split; [done|].
  rewrite (compile_permitted _ _ _ _ _ Hp) in E. cbv zeta in E. by case_bool_decide.
Qed.

Definition with_app_digest (e : EffectiveConfig) (digest : bytes) : EffectiveConfig :=
  mkEffective (ef_modules e) (ef_env e) (ef_fs_read e) (ef_fs_read_deny e) (ef_fs_rule_ids e) (ef_fs_deny_rule_ids e) (ef_fetch e)
    (ef_fetch_rule_ids e) (ef_storage e) (ef_storage_namespaces e) (ef_storage_rule_ids e) (ef_stdio e) (ef_stdio_streams e)
    (ef_stdio_rule_ids e) (ef_requests_per_worker e) (ef_queue_requests e) (ef_queue_header_bytes e) (ef_queue_timeout_ms e)
    (ef_max_streaming_inflight e) (ef_stream_idle_timeout_ms e) (ef_write_timeout_ms e) (ef_memory_bytes e) (ef_js_heap_bytes e)
    (ef_process_address_bytes e) (ef_file_descriptors e) (ef_workers e) (ef_min_ready e) (ef_strict_sandbox e) (effective_json e)
    digest (effective_digest e) (ef_rule_ids e).

(** C37. The effective configuration depends on what is requested, not on the
    order in which it is: for two requests with the same modules, variables,
    paths, targets, namespaces and streams in any order, and the resolved
    secrets in any order, either both are refused or both compile, to the same
    configuration, document and effective digest. The one exception is
    [app_config_digest], which hashes the request as it was written. *)
Theorem effective_order_independent (EVP_sha256 : bytes → option bytes) host a b resolved resolved' :
  same_request a b → resolved ≡ₚ resolved' →
  match compile_policy EVP_sha256 host a resolved, compile_policy EVP_sha256 host b resolved' with
  | inr e, inr e' => e' = with_app_digest e (app_config_digest e')
  | inl _, inl _ => True
  | _, _ => False
  end.
Proof.
  intros Hs Hr. assert (∀ a b resolved resolved' roots, same_request a b → resolved ≡ₚ resolved' → permitted host a resolved roots →
    NoDup (map rule_id (labels_in a resolved)) →
    match compile_policy EVP_sha256 host a resolved, compile_policy EVP_sha256 host b resolved' with
    | inr e, inr e' => e' = with_app_digest e (app_config_digest e')
    | inl _, inl _ => True
    | _, _ => False
    end) as Hgo.
  { clear. intros a b resolved resolved' roots Hs Hr Hp Hnd. pose proof (permitted_same _ _ _ _ _ _ Hs Hr Hp) as Hp'.
    rewrite (compile_permitted _ _ _ _ _ Hp), (compile_permitted _ _ _ _ _ Hp'). cbv zeta.
    destruct (labels_same _ _ _ _ _ _ Hs Hr Hp Hnd) as (El & Ef & Efs & Ed). rewrite El, Ef, Efs, Ed, bool_decide_eq_true_2 by done.
    rewrite <- (entries_same a b resolved resolved' roots host) by done. destruct (same_numbers host a b Hs) as (_ & _ & N3 & N4).
    pose proof Hs as [S1 _ _ _ _ S6 S7 [S8 S9] (Q1 & Q2 & Q3 & Q4 & Q5 & Q6) (R1 & R2 & R3) (W1 & W2 & W3 & W4)].
    cbn [checked_of ck_modules ck_namespaces ck_streams].
    rewrite <- (set_of_perm _ _ S1), <- (set_of_perm _ _ S6), <- (set_of_perm _ _ S7), <- S8, <- S9, (json_same host a b) by done.
    destruct (effective_json_of host a _ _ _ _ _ _ _ _) as [|json]; [done|].
    rewrite N4, <- Q1, <- Q2, <- Q3, <- Q4, <- Q5, <- Q6, <- R1, <- R2, <- R3, <- W2, <- W3, <- W4. reflexivity. }
  assert (∀ a b resolved resolved' e, same_request a b → resolved ≡ₚ resolved' → compile_policy EVP_sha256 host a resolved = inr e →
    ∃ e', compile_policy EVP_sha256 host b resolved' = inr e' ∧ e' = with_app_digest e (app_config_digest e')) as Hok.
  { clear Hs Hr a b resolved resolved'. intros a b resolved resolved' e Hs Hr Ea.
    destruct (compiled_permitted _ _ _ _ _ Ea) as (roots & Hp & Hnd). pose proof (Hgo a b resolved resolved' roots Hs Hr Hp Hnd) as Hm.
    rewrite Ea in Hm. destruct (compile_policy EVP_sha256 host b resolved') as [|e']; [done|]. by exists e'. }
  destruct (compile_policy EVP_sha256 host a resolved) as [e|e] eqn:Ea.
  - destruct (compile_policy EVP_sha256 host b resolved') as [e'|e'] eqn:Eb; [done|].
    destruct (Hok b a resolved' resolved e') as (e'' & E & _); [by apply same_request_sym|done|done|]. congruence.
  - destruct (Hok a b resolved resolved' e Hs Hr Ea) as (e' & -> & He). exact He.
Qed.

(** ** The documents carry no values *)

(** The same request with other values. *)
Definition other_value (f : bytes → bytes) (r : EnvRequest) : EnvRequest :=
  mkEnvRequest (er_name r) (er_from_secret r) (er_secret_key_id r) (f (er_literal r)).
Definition other_resolved (f : bytes → bytes) (e : EffectiveEnvEntry) : EffectiveEnvEntry :=
  mkEffectiveEnv (ee_name e) (ee_from_secret e) (ee_secret_key_id e) (ee_secret_revision e) (f (ee_literal e)) (ee_rule_id e).
Definition with_values (f : bytes → bytes) (a : AppRequest) : AppRequest :=
  mkAppRequest (app_modules a) (map (other_value f) (app_env a)) (app_fs_read a) (app_fs_read_deny a) (app_fetch a) (app_storage a)
    (app_storage_namespaces a) (app_stdio a) (app_stdio_streams a) (app_requests_per_worker a) (app_queue_requests a)
    (app_queue_header_bytes a) (app_queue_timeout_ms a) (app_max_streaming_inflight a) (app_stream_idle_timeout_ms a)
    (app_write_timeout_ms a) (app_health_check a) (app_memory_bytes a) (app_js_heap_bytes a) (app_process_address_bytes a)
    (app_file_descriptors a) (app_workers a) (app_min_ready a).

(** What is stored and shown of a compilation: the error, or the effective
    document with its digest and the rule table. *)
Definition documents (r : bytes + EffectiveConfig) : bytes + (bytes * bytes * list (Z * bytes)) :=
  match r with inl e => inl e | inr e => inr (effective_json e, effective_digest e, ef_rule_ids e) end.

Lemma sort_map {A B} (lt : B → B → bool) (f : A → B) l : sort lt (map f l) = map f (sort (λ x y, lt (f x) (f y)) l).
Proof.
  assert (∀ x s, sort_insert lt (f x) (map f s) = map f (sort_insert (λ x y, lt (f x) (f y)) x s)) as Hi.
  { intros x s. induction s as [|y s IH]; cbn [sort_insert map]; [done|]. destruct (lt (f x) (f y)); [done|]. cbn. by rewrite IH. }
  unfold sort. assert (∀ s, fold_left (λ s x, sort_insert lt x s) (map f l) (map f s)
    = map f (fold_left (λ s x, sort_insert (λ x y, lt (f x) (f y)) x s) l s)) as Hf; [|by apply (Hf [])].
  induction l as [|x l IH]; intros s; cbn [fold_left map]; [done|]. by rewrite Hi, IH.
Qed.

Lemma check_resolved_values f requested entries resolved :
  check_resolved requested (map (other_resolved f) entries) resolved = check_resolved requested entries resolved.
Proof.
  revert resolved. induction entries as [|e entries IH]; intros resolved; cbn [check_resolved map]; [done|].
  change (ee_name (other_resolved f e)) with (ee_name e). by rewrite IH.
Qed.

Lemma check_request_values f g host app resolved :
  check_request host (with_values f app) (map (other_resolved g) resolved) = check_request host app resolved.
Proof.
  assert (check_env_names (with_values f app) (map (other_resolved g) resolved) = check_env_names app resolved) as E1.
  { unfold check_env_names. cbn [app_env with_values]. rewrite map_map. cbn [er_name other_value].
    unfold zlen. rewrite !length_map. by rewrite check_resolved_values. }
  assert (forallb (λ r, env_covered host (er_name r)) (app_env (with_values f app)) = forallb (λ r, env_covered host (er_name r)) (app_env app)) as E2.
  { cbn [app_env with_values]. induction (app_env app) as [|r l IH]; cbn [map forallb]; [done|]. by rewrite IH. }
  unfold check_request. rewrite E1, E2. reflexivity.
Qed.

(** Entries up to their values. *)
Definition other_entry (f : bytes → bytes) (e : EffectiveEnvEntry) : EffectiveEnvEntry :=
  if ee_from_secret e then e else other_resolved f e.

Lemma entry_of_with_values f g resolved r :
  entry_of (map (other_resolved g) resolved) (other_value f r) = other_entry f (entry_of resolved r).
Proof.
  unfold entry_of. cbn [er_from_secret other_value er_name er_secret_key_id er_literal]. destruct (er_from_secret r); [|done].
  unfold other_entry. cbn [ee_from_secret]. f_equal.
  induction resolved as [|e resolved IH]; cbn [map List.find]; [done|]. change (ee_name (other_resolved g e)) with (ee_name e).
  by destruct (bool_decide _).
Qed.

Lemma entries_in_values f g app resolved :
  entries_in (with_values f app) (map (other_resolved g) resolved) = map (other_entry f) (entries_in app resolved).
Proof.
  unfold entries_in. cbn [app_env with_values]. rewrite sort_map, !map_map. apply map_ext. intros r. apply entry_of_with_values.
Qed.

Lemma env_label_values f e : env_label (other_entry f e) = env_label e.
Proof. unfold env_label, other_entry. destruct (ee_from_secret e) eqn:E; [by rewrite E|]. cbn. by rewrite E. Qed.

Lemma env_json_values f e : env_json (with_rule_id (other_entry f e)) = env_json (with_rule_id e).
Proof.
  assert (rule_id (env_label (other_entry f e)) = rule_id (env_label e)) as Hid by (by rewrite env_label_values).
  unfold with_rule_id. rewrite Hid. unfold env_json, other_entry. cbn [ee_name ee_from_secret ee_secret_key_id ee_secret_revision ee_rule_id].
  destruct (ee_from_secret e) eqn:E; unfold other_resolved; cbn [ee_name ee_from_secret ee_secret_key_id ee_secret_revision ee_rule_id];
    by rewrite E.
Qed.

Lemma labels_in_values f g app resolved : labels_in (with_values f app) (map (other_resolved g) resolved) = labels_in app resolved.
Proof.
  unfold labels_in. cbv zeta. rewrite entries_in_values. unfold rule_labels. rewrite map_map.
  rewrite (map_ext _ env_label) by (intros e; apply env_label_values). reflexivity.
Qed.

(** C38. The documents of a deployment carry no value of any environment
    variable: whatever literals the request has and whatever values the secrets
    resolve to, the outcome, the effective document, its digest and the rule
    table are the same. *)
Theorem documents_hide_values (EVP_sha256 : bytes → option bytes) host app resolved (f g : bytes → bytes) :
  documents (compile_policy EVP_sha256 host (with_values f app) (map (other_resolved g) resolved))
  = documents (compile_policy EVP_sha256 host app resolved).
Proof.
  destruct (check_request host app resolved) as [e|c] eqn:Ec.
  { unfold compile_policy. by rewrite check_request_values, Ec. }
  pose proof Ec as Ec'. rewrite <- (check_request_values f g) in Ec'.
  apply check_request_spec in Ec as ((roots & Hp) & _), Ec' as ((roots' & Hp') & _).
  rewrite (compile_permitted _ _ _ _ _ Hp), (compile_permitted _ _ _ _ _ Hp'). cbv zeta.
  rewrite labels_in_values, entries_in_values. destruct (bool_decide _); [|done].
  unfold effective_json_of. rewrite !map_map, (map_ext _ (λ e, env_json (with_rule_id e))) by (intros e; apply env_json_values).
  cbn [app_fetch with_values checked_of ck_fs ck_deny app_fs_read app_fs_read_deny].
  do 3 (destruct (all_some _); [|done]). reflexivity.
Qed.

(** ** Samples *)

Definition sample_host : HostPolicy :=
  mkHostPolicy [bs "capsid:env"; bs "capsid:fs"; bs "capsid:storage"] [bs "APP_*"; bs "MODE"] [bs "APP_ROOT*"] [bs "/srv/./app/"]
    [mkFetchTarget (bs "api.example.com") [443; 8443]; mkFetchTarget (bs "10.0.0.0/8") []] true [bs "cache"; bs "users"] [] false 4 1
    0 0 0 0 0 0 0 0 true.

Definition sample_app : AppRequest :=
  mkAppRequest [bs "capsid:fs"; bs "capsid:env"]
    [mkEnvRequest (bs "MODE") false [] (bs "production"); mkEnvRequest (bs "APP_KEY") true (bs "key.1") []]
    [bs "/srv/app/data"; bs "/srv/app/conf/../www"] [bs "/srv/app/data/private"]
    [mkFetchTarget (bs "api.example.com") [443]] true [bs "cache"] false [] 0 0 0 0 0 0 0 (mkHealthCheck false [] 5000) 0 0 0 0 2 2.

Definition sample_resolved : list EffectiveEnvEntry :=
  [mkEffectiveEnv (bs "APP_KEY") true (bs "key.1") (bs "rev-7") (bs "hunter2") 0; mkEffectiveEnv (bs "MODE") false [] [] (bs "production") 0].

Definition sample_sha256 (data : bytes) : option bytes := Some (replicate 32 (to_u8 (zlen data))).

(** The same request the other way round. *)
Definition sample_reordered : AppRequest :=
  mkAppRequest (rev (app_modules sample_app)) (rev (app_env sample_app)) (rev (app_fs_read sample_app)) (app_fs_read_deny sample_app)
    (app_fetch sample_app) true [bs "cache"] false [] 0 0 0 0 0 0 0 (mkHealthCheck false [] 5000) 0 0 0 0 2 2.

Lemma effective_order_independent_witness :
  same_request sample_app sample_reordered
  ∧ match compile_policy sample_sha256 sample_host sample_app sample_resolved,
          compile_policy sample_sha256 sample_host sample_reordered (rev sample_resolved) with
    | inr e, inr e' => e' = with_app_digest e (app_config_digest e')
    | inl _, inl _ => True
    | _, _ => False
    end.
Proof.
  assert (same_request sample_app sample_reordered) as Hs.
  { split; [apply Permutation_rev|apply Permutation_rev|apply Permutation_rev|reflexivity|reflexivity|reflexivity|reflexivity|..];
      repeat split. }
  split; [exact Hs|]. apply (effective_order_independent sample_sha256 sample_host sample_app sample_reordered); [exact Hs|apply Permutation_rev].
Defined.
