(* ===== verification/PolicyConfinement.v ===== *)
(** * PolicyConfinement: the worker enforces what the Host permitted

    The compiler of the Host (PolicyCompiler) and the evaluator of the worker
    (CapabilityPolicy, EgressPolicy) composed: a request is compiled, its
    effective configuration becomes the descriptors, and the worker's policy
    compiled from them grants nothing that the request did not ask for and
    nothing that the Host does not allow. *)
From Stdlib Require Import ZArith Lia.
From S2P Require Import Prelude Wire Jansson EgressPolicy CapabilityPolicy BindingPolicy AuditRecords HostSpawn PolicyCompiler.
Local Open Scope Z_scope.

(** ** The rules of a descriptor *)

Lemma rules_of_spec permission action missing resources ids out :
  rules_of permission action missing resources ids = inr out →
  Forall2 (λ r s, ∃ id, id ≠ 0 ∧ s = permission_rule permission action r id) resources out.
Proof.
  revert ids out. induction resources as [|r resources IH]; intros ids out; cbn [rules_of]; [intros [= <-]; constructor|].
  destruct (_ =? 0) eqn:Eid; [done|]. destruct (rules_of _ _ _ resources _) as [|rest] eqn:Er; [done|]. intros [= <-].
  constructor; [|by eapply IH]. bools. by eexists.
Qed.

(** The rules in order: permission, action and resource. *)
Definition specs (e : EffectiveConfig) : list (Z * Z * bytes) :=
  map (pair (CAPSID_PERMISSION_ENV, CAPSID_PERMISSION_ALLOW)) (map ee_name (ef_env e))
  ++ map (pair (CAPSID_PERMISSION_READ, CAPSID_PERMISSION_ALLOW)) (ef_fs_read e)
  ++ map (pair (CAPSID_PERMISSION_READ, CAPSID_PERMISSION_DENY)) (ef_fs_read_deny e)
  ++ map (pair (CAPSID_PERMISSION_STORAGE, CAPSID_PERMISSION_ALLOW)) (ef_storage_namespaces e)
  ++ map (pair (CAPSID_PERMISSION_STDIO, CAPSID_PERMISSION_ALLOW)) (ef_stdio_streams e).

Lemma rules_of_specs permission action missing resources ids out : rules_of permission action missing resources ids = inr out →
  Forall2 (λ c s, ∃ id, id ≠ 0 ∧ s = permission_rule c.1.1 c.1.2 c.2 id) (map (pair (permission, action)) resources) out.
Proof. intros Hr%rules_of_spec. apply Forall2_fmap_l. eapply Forall2_impl; [exact Hr|]. done. Qed.

(** What a descriptor has of an effective configuration. *)
Record built (e : EffectiveConfig) (values : list (bytes * bytes)) (rp : RuntimePolicy) : Prop := {
  bt_rules : Forall2 (λ c s, ∃ id, id ≠ 0 ∧ s = permission_rule c.1.1 c.1.2 c.2 id) (specs e) (rp_rules rp);
  bt_modules : module_names rp = ef_modules e;
  bt_egress : egress_rules rp = List.concat (map egress_rules_of (ef_fetch e));
  bt_values : env_values rp = values;
  bt_capability : capability rp =
    mkCapabilityDescriptor 80 2 None (table (map Some (ef_modules e))) (u32 (zlen (ef_modules e))) (table (rp_rules rp))
      (u32 (zlen (rp_rules rp))) (if bool_decide (ef_fetch e = []) then None else Some (egress rp)) 0
      (table (map (λ v, mkEnvEntry 32 (Some v.1) (Some v.2) 0) values)) (u32 (zlen values)) 0;
  bt_net : egress rp = mkEgressDescriptor 24 0 (table (egress_rules rp)) (u32 (zlen (egress_rules rp))) 0
}.

Lemma build_built e values rp : build_runtime_policy e values = inr rp → built e values rp.
Proof.
  unfold build_runtime_policy. destruct (rules_of CAPSID_PERMISSION_ENV _ _ _ _) as [|r1] eqn:E1; [done|].
  destruct (rules_of CAPSID_PERMISSION_READ CAPSID_PERMISSION_ALLOW _ _ _) as [|r2] eqn:E2; [done|].
  destruct (rules_of CAPSID_PERMISSION_READ CAPSID_PERMISSION_DENY _ _ _) as [|r3] eqn:E3; [done|].
  destruct (rules_of CAPSID_PERMISSION_STORAGE _ _ _ _) as [|r4] eqn:E4; [done|].
  destruct (rules_of CAPSID_PERMISSION_STDIO _ _ _ _) as [|r5] eqn:E5; [done|]. intros [= <-].
  apply rules_of_specs in E1, E2, E3, E4, E5. split; try done.
  - cbn [rp_rules]. unfold specs. repeat apply Forall2_app; done.
  - cbn [capability rp_rules egress]. unfold zlen. rewrite !length_map. by destruct (bool_decide _).
Qed.

(** A table is read whole when its count fits. *)
Lemma table_whole {A} (l : list A) n : n = u32 (zlen l) → zlen l < 2 ^ 32 → ztake n (default [] (table l)) = l.
Proof.
  intros -> Hl. rewrite u32_small by (pose proof (zlen_nonneg l); lia). unfold ztake, zlen. rewrite Nat2Z.id. by destruct l; [|apply firstn_all].
Qed.

(** ** The rules of the compiled policy *)

Definition rule_in (p : CapabilityPolicy) (permission : capsid_permission_name) (action : capsid_permission_action) (x : bytes) : Prop :=
  ∃ r, r ∈ perm_rules p ∧ r_permission r = permission ∧ r_action r = action ∧ r_resource r = x.

Lemma cut_resource permission text resource : permission ≠ PERMISSION_RAW_SOCKET →
  normalize_rule_resource permission (Some text) = Some resource → resource = cut_nul text.
Proof.
  intros Hp. unfold normalize_rule_resource. rewrite bool_decide_eq_false_2 by done. destruct (_ || _); [done|].
  unfold keep_if. destruct permission; try done; case_match; by intros [= <-].
Qed.

(** The resources of a permission and an action. *)
Definition resources (e : EffectiveConfig) (permission : capsid_permission_name) (action : capsid_permission_action) : list bytes :=
  match permission, action with
  | PERMISSION_ENV, PERMISSION_ALLOW => map ee_name (ef_env e)
  | PERMISSION_READ, PERMISSION_ALLOW => ef_fs_read e
  | PERMISSION_READ, PERMISSION_DENY => ef_fs_read_deny e
  | PERMISSION_STORAGE, PERMISSION_ALLOW => ef_storage_namespaces e
  | PERMISSION_STDIO, PERMISSION_ALLOW => ef_stdio_streams e
  | _, _ => []
  end.

Lemma elem_of_pairs {A B} (k : A) (l : list B) c : c ∈ map (pair k) l ↔ c.1 = k ∧ c.2 ∈ l.
Proof.
  rewrite (list_elem_of_fmap _ l). split; [by intros (x & -> & ?)|]. intros [<- Hin]. exists c.2. by destruct c.
Qed.

Lemma specs_resources e permission action x :
  (∃ c, c ∈ specs e ∧ permission_of c.1.1 = permission ∧ permission_action_of c.1.2 = action ∧ cut_nul c.2 = x)
  ↔ x ∈ map cut_nul (resources e permission action).
Proof.
  rewrite (list_elem_of_fmap _ (resources e permission action)). unfold specs. split.
  - intros (c & Hin & <- & <- & <-). exists c.2. split; [done|]. rewrite !elem_of_app, !elem_of_pairs in Hin.
    destruct Hin as [[-> ?]|[[-> ?]|[[-> ?]|[[-> ?]|[-> ?]]]]]; done.
  - intros (y & -> & Hin). assert (∀ k, permission_of k.1 = permission → permission_action_of k.2 = action → (k, y) ∈ specs e →
      ∃ c, c ∈ specs e ∧ permission_of c.1.1 = permission ∧ permission_action_of c.1.2 = action ∧ cut_nul c.2 = cut_nul y) as Hk.
    { intros k H1 H2 H3. by exists (k, y). }
    unfold specs in Hk. destruct permission, action; try (by apply not_elem_of_nil in Hin).
    + apply (Hk (CAPSID_PERMISSION_READ, CAPSID_PERMISSION_DENY)); [done..|]. rewrite !elem_of_app, !elem_of_pairs. auto.
    + apply (Hk (CAPSID_PERMISSION_READ, CAPSID_PERMISSION_ALLOW)); [done..|]. rewrite !elem_of_app, !elem_of_pairs. auto.
    + apply (Hk (CAPSID_PERMISSION_ENV, CAPSID_PERMISSION_ALLOW)); [done..|]. rewrite !elem_of_app, !elem_of_pairs. auto.
    + apply (Hk (CAPSID_PERMISSION_STDIO, CAPSID_PERMISSION_ALLOW)); [done..|]. rewrite !elem_of_app, !elem_of_pairs. auto 6.
    + apply (Hk (CAPSID_PERMISSION_STORAGE, CAPSID_PERMISSION_ALLOW)); [done..|]. rewrite !elem_of_app, !elem_of_pairs. auto 6.
Qed.

(** ** Texts without NUL *)

Definition nul_free (s : bytes) : Prop := Byte.x00 ∉ s.

Lemma cut_nul_free s : nul_free s → cut_nul s = s.
Proof.
  unfold nul_free. induction s as [|c s IH]; [done|]. rewrite not_elem_of_cons. intros [Hc Hs]. cbn.
  rewrite bool_decide_eq_false_2 by done. by rewrite IH.
Qed.

Lemma cut_nul_map l : Forall nul_free l → map cut_nul l = l.
Proof. induction 1 as [|s l Hs _ IH]; cbn; [done|]. by rewrite cut_nul_free, IH. Qed.

Lemma body_nul_free segs : nul_free (body segs) ↔ Forall nul_free segs.
Proof.
  unfold nul_free. induction segs as [|s segs IH]; [split; [constructor|intros _; apply not_elem_of_nil]|].
  rewrite body_cons, Forall_cons, <- IH, not_elem_of_cons, not_elem_of_app. split; [tauto|]. by intros [? ?].
Qed.

Lemma resolves_nul_free segs cs : resolves segs cs → Forall nul_free segs → Forall nul_free cs.
Proof.
  induction 1 as [|segs cs c _ IH _|segs cs d _ IH|segs cs c _ IH _]; [done|..]; rewrite !Forall_app.
  - intros [? _]. by apply IH.
  - intros [Hs _]. by apply IH, Forall_app in Hs as [? _].
  - intros [? ?]. split; [by apply IH|done].
Qed.

Lemma normalize_nul_free raw n : nul_free raw → PolicyCompiler.normalize_path raw = Some n → nul_free n ∧ ∃ cs, names raw cs ∧ n = text_of cs.
Proof.
  intros Hraw. rewrite normalize_path_eq. intros (_ & cs & Hn & ->)%normalize_path_spec. split; [|by exists cs].
  destruct Hn as (segs & -> & _ & _ & Hr). apply body_nul_free in Hraw. apply (resolves_nul_free _ _ Hr) in Hraw.
  destruct cs; [by apply (bool_decide_unpack _)|]. by apply body_nul_free.
Qed.

(** ** The effective configuration of a permitted request *)

Record compiled (host : HostPolicy) (app : AppRequest) (resolved : list EffectiveEnvEntry) (e : EffectiveConfig) (roots : list bytes) : Prop := {
  cp_permitted : permitted host app resolved roots;
  cp_modules : ef_modules e = set_of (app_modules app);
  cp_env : map ee_name (ef_env e) = map er_name (sort by_name (app_env app));
  cp_fs : ef_fs_read e = sort bytes_lt (omap PolicyCompiler.normalize_path (app_fs_read app));
  cp_deny : ef_fs_read_deny e = sort bytes_lt (omap PolicyCompiler.normalize_path (app_fs_read_deny app));
  cp_fetch : ef_fetch e = sort by_host (app_fetch app);
  cp_storage : ef_storage_namespaces e = if app_storage app then set_of (app_storage_namespaces app) else [];
  cp_stdio : ef_stdio_streams e = if app_stdio app then set_of (app_stdio_streams app) else []
}.

Lemma compile_compiled EVP_sha256 host app resolved e : compile_policy EVP_sha256 host app resolved = inr e →
  ∃ roots, compiled host app resolved e roots.
Proof.
  intros E. destruct (compiled_permitted _ _ _ _ _ E) as (roots & Hp & Hnd). exists roots.
  rewrite (compile_permitted _ _ _ _ _ Hp) in E. cbv zeta in E. rewrite bool_decide_eq_true_2 in E by done.
  destruct (effective_json_of _ _ _ _ _ _ _ _ _ _) as [|json]; [done|]. injection E as <-. split; try done.
  cbn [ef_env]. unfold entries_in. rewrite !map_map. apply map_ext. intros r. unfold entry_of. by destruct (er_from_secret r).
Qed.

Section confined.
Context `{InetPton}.

Lemma configured_specs e values rp p : built e values rp → zlen (rp_rules rp) < 2 ^ 32 →
  configure_capability (Some (capability rp)) = inr p →
  Forall2 (λ c r, r_permission r = permission_of c.1.1 ∧ r_action r = permission_action_of c.1.2 ∧ r_resource r = cut_nul c.2)
    (specs e) (perm_rules p).
Proof.
  intros Hb Hl Hc. apply configured_rules in Hc. rewrite (bt_capability _ _ _ Hb) in Hc. cbn [cap_rules cap_rule_count] in Hc.
  rewrite (table_whole (rp_rules rp)) in Hc by done. pose proof (bt_rules _ _ _ Hb) as Hr.
  assert (Forall (λ c : Z * Z * bytes, permission_of c.1.1 ≠ PERMISSION_RAW_SOCKET) (specs e)) as Hraw.
  { unfold specs. rewrite !Forall_app, !Forall_fmap. split_and!; by apply Forall_true. }
  revert Hc. generalize (perm_rules p) as out. clear Hl Hb. induction Hr as [|c s cs ss (id & Hid & ->) Hr IH]; intros out Hc.
  { by apply Forall2_nil_inv_l in Hc as ->. }
  apply Forall2_cons_inv_l in Hc as (r & out' & (Q1 & Q2 & Q3 & Q4) & Hc & ->). apply Forall_cons in Hraw as [Hr0 Hraw].
  constructor; [|by apply IH]. split_and!; [done|done|]. apply (cut_resource (r_permission r)); [by rewrite Q2|exact Q3].
Qed.

(** Each category has exactly its resources. *)
Lemma rule_in_specs e values rp p permission action x : built e values rp → zlen (rp_rules rp) < 2 ^ 32 →
  configure_capability (Some (capability rp)) = inr p →
  rule_in p permission action x ↔
    ∃ c, c ∈ specs e ∧ permission_of c.1.1 = permission ∧ permission_action_of c.1.2 = action ∧ cut_nul c.2 = x.
Proof.
  intros Hb Hl Hc. pose proof (configured_specs _ _ _ _ Hb Hl Hc) as Hf. split.
  - intros (r & Hin & <- & <- & <-). apply list_elem_of_lookup in Hin as [k Hk].
    destruct (Forall2_lookup_r _ _ _ _ _ Hf Hk) as (c & Hck & Q1 & Q2 & Q3). exists c. split_and!; [by eapply list_elem_of_lookup_2|done..].
  - intros (c & Hin & <- & <- & <-). apply list_elem_of_lookup in Hin as [k Hk].
    destruct (Forall2_lookup_l _ _ _ _ _ Hf Hk) as (r & Hrk & Q1 & Q2 & Q3). exists r. split_and!; [by eapply list_elem_of_lookup_2|done..].
Qed.

(** The parts of a compiled policy. *)
Lemma configured_parts d p : configure_capability (Some d) = inr p → cap_version d = 2 → cap_struct_size d = 80 →
  compile_modules (ztake (cap_module_count d) (default [] (cap_modules d))) ∅ = inr (allowed_modules p)
  ∧ match cap_net_policy d with
    | None => net_policy p = new_EgressPolicy ∧ has_net_policy p = false
    | Some n => configure (Some n) = inr (net_policy p) ∧ has_net_policy p = true
    end
  ∧ ∃ q, compile_env q (ztake (cap_env_count d) (default [] (cap_env_entries d))) ∅ 0 = inr (env_entries p).
Proof.
  intros Hc Hv Hs. unfold configure_capability in Hc. rewrite Hv, Hs in Hc. cbv zeta in Hc.
  destruct (_ || _ || _ || _ || _ || _ || _ || _ || _) in Hc; [done|]. destruct (negb _) in Hc; [done|].
  destruct (compile_modules _ _) as [|ms]; [done|]. destruct (compile_permission_rules _ _) as [|rs]; [done|].
  change ((2 =? 2) && (80 =? sizeof_capability_policy)) with true in Hc. cbv iota in Hc.
  destruct (cap_net_policy d) as [n|].
  - destruct (configure (Some n)) as [|net]; [done|]. destruct (_ && _) in Hc; [done|].
    destruct (compile_env _ _ _ _) as [|es] eqn:Ee; [done|]. injection Hc as <-. split_and!; [done..|by eexists].
  - destruct (_ && _) in Hc; [done|]. destruct (compile_env _ _ _ _) as [|es] eqn:Ee; [done|]. injection Hc as <-. split_and!; [done..|by eexists].
Qed.

Lemma compile_modules_names l seen ms : compile_modules (map Some l) seen = inr ms → ms = map cut_nul l.
Proof.
  revert seen ms. induction l as [|m l IH]; intros seen ms; cbn [compile_modules map]; [by intros [= <-]|].
  destruct (_ || _ || _ || _); [done|]. destruct (compile_modules _ _) as [|rest] eqn:Er; [done|]. intros [= <-]. f_equal. by eapply IH.
Qed.

Lemma compile_env_values q (values : list (bytes * bytes)) names size es :
  compile_env q (map (λ v, mkEnvEntry 32 (Some v.1) (Some v.2) 0) values) names size = inr es →
  es = map (λ v, (cut_nul v.1, cut_nul v.2)) values.
Proof.
  revert names size es. induction values as [|v values IH]; intros nm size es; cbn [compile_env map env_name env_text]; [by intros [= <-]|].
  destruct (_ || _); [done|]. cbv zeta. destruct (_ || _ || _ || _); [done|]. destruct (48 * 1024 <? _); [done|].
  destruct (compile_env _ _ _ _) as [|rest] eqn:Er; [done|]. intros [= <-]. f_equal. by eapply IH.
Qed.

Lemma configured_built e values rp p : built e values rp → zlen (ef_modules e) < 2 ^ 32 → zlen values < 2 ^ 32 →
  configure_capability (Some (capability rp)) = inr p →
  policy_wf p ∧ allowed_modules p = map cut_nul (ef_modules e) ∧ env_entries p = map (λ v, (cut_nul v.1, cut_nul v.2)) values
  ∧ match ef_fetch e with
    | [] => net_policy p = new_EgressPolicy
    | _ => configure (Some (egress rp)) = inr (net_policy p)
    end.
Proof.
  intros Hb Hm Hv Hc. assert (policy_wf p) as Hwf.
  { eapply configured_wf; [..|exact Hc]; rewrite (bt_capability _ _ _ Hb); cbn; apply Z.mod_pos_bound; lia. }
  rewrite (bt_capability _ _ _ Hb) in Hc. destruct (configured_parts _ _ Hc eq_refl eq_refl) as (E1 & E2 & q & E3).
  cbn [cap_module_count cap_modules cap_net_policy cap_env_count cap_env_entries] in E1, E2, E3.
  rewrite table_whole in E1 by (unfold zlen in *; by rewrite length_map). rewrite table_whole in E3 by (unfold zlen in *; by rewrite length_map).
  apply compile_modules_names in E1. apply compile_env_values in E3. split_and!; [done..|].
  destruct (ef_fetch e) as [|t l]; [by destruct E2|]. by destruct E2.
Qed.

(** ** Reading *)

Lemma normalize_roots_in raws roots root : normalize_roots raws = Some roots → root ∈ roots →
  ∃ raw, raw ∈ raws ∧ PolicyCompiler.normalize_path raw = Some root.
Proof.
  revert roots. induction raws as [|raw raws IH]; intros roots; cbn [normalize_roots]; [intros [= <-] Hin; by apply not_elem_of_nil in Hin|].
  destruct (PolicyCompiler.normalize_path raw) as [n|] eqn:En; [|done]. destruct (normalize_roots raws) as [ns|]; [|done].
  intros [= <-] [->|Hin]%elem_of_cons; [exists raw; split; [by left|done]|].
  destruct (IH _ eq_refl Hin) as (r & Hr & Er). exists r. split; [by right|done].
Qed.

(** A requested path, resolved, holds the components. *)
Definition under (paths : list bytes) (cs : list bytes) : Prop := ∃ raw scope, raw ∈ paths ∧ names raw scope ∧ scope `prefix_of` cs.

Lemma covers_under e values rp p raws action cs : built e values rp → zlen (rp_rules rp) < 2 ^ 32 →
  configure_capability (Some (capability rp)) = inr p → Forall nul_free raws →
  (∀ raw, raw ∈ raws → ∃ n, PolicyCompiler.normalize_path raw = Some n) →
  resources e PERMISSION_READ action = sort bytes_lt (omap PolicyCompiler.normalize_path raws) →
  covers p PERMISSION_READ action cs ↔ under raws cs.
Proof.
  intros Hb Hl Hc Hnul Hall Hres.
  assert (∀ x, rule_in p PERMISSION_READ action x ↔ ∃ raw, raw ∈ raws ∧ PolicyCompiler.normalize_path raw = Some x) as Hrule.
  { intros x. rewrite (rule_in_specs e values rp p) by done. rewrite specs_resources, Hres, cut_nul_map.
    - rewrite sort_perm, list_elem_of_omap. done.
    - rewrite sort_perm. apply Forall_forall. intros n (raw & Hin & Hn)%list_elem_of_omap. rewrite Forall_forall in Hnul.
      by eapply normalize_nul_free; [apply Hnul|]. }
  unfold covers, under. split.
  - intros (r & scope & Hin & Hp & Ha & Hn & Hpre).
    destruct (proj1 (Hrule (r_resource r)) ltac:(by exists r)) as (raw & Hraw & En). rewrite Forall_forall in Hnul.
    destruct (normalize_nul_free _ _ (Hnul _ Hraw) En) as (_ & acs & Hacs & Ex). exists raw, acs. split_and!; [done..|].
    rewrite Ex in Hn. by rewrite (names_unique _ _ _ (names_text _ (names_ordinary _ _ Hacs)) Hn).
  - intros (raw & scope & Hraw & Hn & Hpre). destruct (Hall raw Hraw) as (x & En). rewrite Forall_forall in Hnul.
    destruct (normalize_nul_free _ _ (Hnul _ Hraw) En) as (_ & acs & Hacs & Ex). rewrite (names_unique _ _ _ Hn Hacs) in Hpre.
    destruct (proj2 (Hrule x) ltac:(by exists raw)) as (r & Hin & Hp & Ha & Er). exists r, acs. split_and!; [done..| |done].
    rewrite Er, Ex. by eapply names_text, names_ordinary.
Qed.

(** What is under a permitted path is under a root of the Host. *)
Lemma under_roots host app resolved roots cs : permitted host app resolved roots →
  under (app_fs_read app) cs → under (fs_read_roots host) cs.
Proof.
  intros Hp (raw & scope & Hraw & Hn & Hpre). destruct (pm_fs _ _ _ _ Hp) as [_ Hall]. destruct (Hall raw Hraw) as (n & En & Hw).
  apply existsb_exists in Hw as (root & Hroot & Hw). apply list_elem_of_In in Hroot.
  destruct (normalize_roots_in _ _ _ (pm_roots _ _ _ _ Hp) Hroot) as (raw' & Hraw' & En').
  rewrite normalize_path_eq in En, En'. apply normalize_path_spec in En as (_ & acs & Hacs & ->), En' as (_ & rcs & Hrcs & ->).
  exists raw', rcs. split_and!; [done..|]. rewrite (names_unique _ _ _ Hn Hacs) in Hpre.
  apply path_within_matches, path_matches_spec in Hw; [|by eapply names_ordinary..]. by etrans.
Qed.

(** ** Exact resources *)

(** The permissions whose rules name one resource each. *)
Lemma exact_granted p permission n : policy_wf p → permission = PERMISSION_STORAGE ∨ permission = PERMISSION_STDIO →
  (∀ x, ¬ rule_in p permission PERMISSION_DENY x) →
  perm_state (evaluate p permission n) = State_GRANTED ↔ rule_in p permission PERMISSION_ALLOW n.
Proof.
  intros Hwf Hp Hno. rewrite evaluate_granted; [|by apply wf_enabled|by destruct Hp as [-> | ->]].
  assert (∀ r x, r_permission r = permission → rule_matches r x = true ↔ x = r_resource r) as Hm.
  { intros r x Hr. unfold rule_matches. rewrite Hr. destruct Hp as [-> | ->]; apply bool_decide_eq_true. }
  split.
  - intros (x & Hx & (r & Hin & Hr & Hmr & Ha) & _). apply Hm in Hmr; [|done]. subst x. exists r. split_and!; [done..|].
    destruct Hp as [-> | ->]; unfold normalize_query_resource, keep_if in Hx; destruct (_ : bool) in Hx; congruence.
  - intros (r & Hin & Hr & Ha & Hres). exists n. split_and!.
    + destruct (wf_rules p Hwf) as (_ & Hok & _). rewrite Forall_forall in Hok. destruct (Hok r Hin) as (_ & _ & Hs).
      rewrite Hr, Hres in Hs. unfold scope_ok, normalize_rule_resource in Hs. rewrite bool_decide_eq_false_2 in Hs by (destruct Hp as [-> | ->]; done).
      destruct (bool_decide (cut_nul n = []) || (4096 <? zlen (cut_nul n))) eqn:E; [done|].
      assert (cut_nul n = n) as Hcut.
      { destruct Hp as [-> | ->]; unfold keep_if in Hs; destruct (_ : bool) in Hs; congruence. }
      rewrite Hcut in Hs, E. destruct Hp as [-> | ->]; unfold normalize_query_resource; [exact Hs|]. by rewrite E.
    + exists r. split_and!; [done..| |done]. by apply Hm.
    + intros r' (Hin' & Hr' & _ & Ha'). apply (Hno (r_resource r')). by exists r'.
Qed.

(** A permission without rules is never granted. *)
Lemma ungranted p permission input : policy_wf p → (∀ x, ¬ rule_in p permission PERMISSION_ALLOW x) →
  perm_state (evaluate p permission input) ≠ State_GRANTED.
Proof.
  intros Hwf Hno Hg. destruct (generic_permission permission) eqn:Eg.
  - apply evaluate_granted in Hg as (x & _ & (r & Hin & Hr & _ & Ha) & _); [|by apply wf_enabled|done].
    apply (Hno (r_resource r)). by exists r.
  - unfold evaluate in Hg. rewrite Eg, orb_true_r in Hg. done.
Qed.

(** Environment rules without a wildcard name one variable each. *)
Lemma env_granted p n : policy_wf p → (∀ x, rule_in p PERMISSION_ENV PERMISSION_ALLOW x → valid_env_name x = true) →
  (∀ x, ¬ rule_in p PERMISSION_ENV PERMISSION_DENY x) →
  perm_state (evaluate p PERMISSION_ENV n) = State_GRANTED ↔ rule_in p PERMISSION_ENV PERMISSION_ALLOW n.
Proof.
  intros Hwf Hval Hno. rewrite evaluate_granted; [|by apply wf_enabled|done].
  assert (∀ r x, r ∈ perm_rules p → r_permission r = PERMISSION_ENV → r_action r = PERMISSION_ALLOW →
    rule_matches r x = true ↔ x = r_resource r) as Hm.
  { intros r x Hin Hr Ha. unfold rule_matches. rewrite Hr. pose proof (Hval (r_resource r) ltac:(by exists r)) as Hv.
    unfold valid_env_name in Hv. apply andb_true_iff in Hv as [Hv _]. apply negb_true_iff, bool_decide_eq_false_1 in Hv.
    rewrite bool_decide_eq_false_2 by (intros E; apply Hv; rewrite E; by left). cbn [orb].
    assert (last_is (r_resource r) Byte.x2a = false) as ->.
    { unfold last_is. apply bool_decide_eq_false_2. intros (l & E)%last_Some. apply Hv. rewrite E. apply elem_of_app. right. by left. }
    apply bool_decide_eq_true. }
  split.
  - intros (x & Hx & (r & Hin & Hr & Hmr & Ha) & _). apply Hm in Hmr; [|done..]. subst x. exists r. split_and!; [done..|].
    unfold normalize_query_resource, keep_if in Hx. destruct (_ : bool) in Hx; congruence.
  - intros (r & Hin & Hr & Ha & Hres). exists n. split_and!.
    + unfold normalize_query_resource. rewrite (Hval n) by (by exists r). done.
    + exists r. split_and!; [done..| |done]. by apply Hm.
    + intros r' (Hin' & Hr' & _ & Ha'). apply (Hno (r_resource r')). by exists r'.
Qed.

(** ** Fetching *)

Definition port_in (t : FetchTarget) (port : Z) : Prop := ft_ports t = [] ∨ port ∈ ft_ports t.

Lemma fetch_covered_spec targets t : fetch_covered targets t = true →
  ∃ a, a ∈ targets ∧ ft_host a = ft_host t ∧ ∀ port, port_in t port → port_in a port.
Proof.
  induction targets as [|a targets IH]; cbn [fetch_covered]; [done|].
  case_bool_decide as Hh; cbn [negb]; [|intros Hc; destruct (IH Hc) as (b & Hb & Q); exists b; split; [by right|done]].
  case_bool_decide as Hp; [intros _; exists a; split_and!; [by left|done|by left]|].
  case_bool_decide as Ht; [done|]. destruct (forallb _ _) eqn:Ef.
  - intros _. exists a. split_and!; [by left|done|]. intros port [?|Hin]; [done|]. right. rewrite forallb_forall in Ef.
    apply list_elem_of_In, Ef in Hin. by apply bool_decide_eq_true_1 in Hin.
  - intros Hc. destruct (IH Hc) as (b & Hb & Q). exists b. split; [by right|done].
Qed.

Lemma scan_found (m : Rule → bool) rs found id id' : scan m rs found id = inr (true, id') →
  found = true ∨ ∃ r, r ∈ rs ∧ m r = true ∧ action r = CAPSID_EGRESS_ALLOW.
Proof.
  revert found id. induction rs as [|r rs IH]; intros found id; cbn [scan]; [intros [= -> _]; by left|].
  destruct (m r) eqn:Em; cbn [negb].
  - case_bool_decide as Ha; [done|]. intros _. right. exists r. split_and!; [by left|done|by apply not_deny].
  - intros E. destruct (IH _ _ E) as [?|(r' & Hin & Q)]; [by left|]. right. exists r'. split; [by right|done].
Qed.

Lemma scan_denied (m : Rule → bool) rs found id d : scan m rs found id = inl d → allowed d = false.
Proof.
  revert found id. induction rs as [|r rs IH]; intros found id; cbn [scan]; [done|]. destruct (m r); cbn [negb]; [|apply IH].
  destruct (bool_decide _); [by intros [= <-]|apply IH].
Qed.

(** A rule of a target speaks about a host: it holds the address, or it is the
    name or a parent wildcard. *)
Definition speaks (t : FetchTarget) (input : bytes) (port : Z) : Prop :=
  ∃ base r, address base = false ∧ compile_target base (cut_nul (ft_host t)) = inr r
    ∧ ((∃ fam a, address_rule a fam port r = true) ∨ ∃ name w, normalize_hostname input false = Some (name, w) ∧ host_rule name port r = true).

Lemma allowed_rule p input port : default_action p = CAPSID_EGRESS_DENY → allowed (decide_host p input port) = true →
  ∃ r, r ∈ rules p ∧ action r = CAPSID_EGRESS_ALLOW ∧ port ≠ 0
    ∧ ((∃ fam a, address_rule a fam port r = true) ∨ ∃ name w, normalize_hostname input false = Some (name, w) ∧ host_rule name port r = true).
Proof.
  intros Hd. unfold decide_host. destruct (port =? 0) eqn:E0; [done|]. bools.
  assert (∀ addr fam, allowed (decide_address p addr fam port true true) = true →
    ∃ r, r ∈ rules p ∧ action r = CAPSID_EGRESS_ALLOW ∧ address_rule addr fam port r = true) as Haddr.
  { intros addr fam. unfold decide_address. destruct (scan _ _ _ _) as [d|[[] id]] eqn:Es.
    - apply scan_denied in Es. by rewrite Es.
    - intros _. apply scan_found in Es as [?|(r & Hin & Hm & Ha)]; [done|]. by exists r.
    - destruct (_ && _); [done|]. cbn. rewrite Hd. done. }
  destruct (parse_numeric input) as [[fam b]|].
  - intros Hal. assert (∃ fam' b', allowed (decide_address p b' fam' port true true) = true) as (fam' & b' & Hal')
      by (destruct (_ && _); eauto). destruct (Haddr _ _ Hal') as (r & Hin & Ha & Hm). exists r. split_and!; [done..|]. left. by exists fam', b'.
  - destruct (normalize_hostname input false) as [[name w]|]; [|done]. destruct (scan _ _ _ _) as [d|[[] id]] eqn:Es.
    + apply scan_denied in Es. by rewrite Es.
    + intros _. apply scan_found in Es as [?|(r & Hin & Hm & Ha)]; [done|]. exists r. split_and!; [done..|]. right. by exists name, w.
    + unfold default_decision. rewrite bool_decide_eq_false_2; [done|]. by rewrite Hd.
Qed.

Lemma egress_rule_source t s : s ∈ egress_rules_of t → ∃ q, s = egress_rule (ft_host t) q ∧ (ft_ports t = [] ∨ q ∈ ft_ports t).
Proof.
  unfold egress_rules_of. case_bool_decide as Hp; [intros ->%list_elem_of_singleton; exists 0; auto|].
  intros (q & -> & Hq)%list_elem_of_fmap. exists q. auto.
Qed.

Lemma net_confined e values rp net input port : built e values rp → zlen (egress_rules rp) < 2 ^ 32 →
  configure (Some (egress rp)) = inr net → (∀ t, t ∈ ef_fetch e → 0 ∉ ft_ports t) →
  allowed (decide_host net input port) = true → ∃ t, t ∈ ef_fetch e ∧ port_in t port ∧ speaks t input port.
Proof.
  intros Hb Hl Hc Hports Hal. rewrite (bt_net _ _ _ Hb) in Hc. cbn [configure] in Hc. destruct (negb _) in Hc; [done|].
  destruct (_ || _) in Hc; [done|]. cbn [rule_count policy_rules] in Hc. rewrite table_whole in Hc by done.
  destruct (compile_rules _ _ _) as [|rs] eqn:Er; [done|]. injection Hc as <-. apply compile_rules_sources in Er.
  apply allowed_rule in Hal as (r & Hin & _ & Hp0 & Hm); [|done]. apply list_elem_of_lookup in Hin as [k Hk].
  destruct (Forall2_lookup_r _ _ _ _ _ Er Hk) as (s & Hs & text & base & Ht & Hcomp & _ & Hbase & Hps & Hpe).
  apply list_elem_of_lookup_2 in Hs. rewrite (bt_egress _ _ _ Hb) in Hs.
  apply list_elem_of_In, in_concat in Hs as (l & Hl' & Hs). apply list_elem_of_In in Hl', Hs.
  apply list_elem_of_fmap in Hl' as (t & -> & Hin). destruct (egress_rule_source t s Hs) as (q & -> & Hq).
  cbn in Ht, Hps, Hpe. injection Ht as <-. destruct (compile_target_keeps _ _ _ Hcomp) as (_ & K1 & K2).
  assert (port_matches q q port = true) as Hpm.
  { rewrite <- Hps, <- K1 at 1. rewrite <- Hpe, <- K2. destruct Hm as [(fam & a & Hm)|(name & w & _ & Hm)].
    - unfold address_rule in Hm. apply andb_true_iff in Hm as [Hm _]. by apply andb_true_iff in Hm as [_ ?].
    - unfold host_rule in Hm. apply andb_true_iff in Hm as [Hm _]. by apply andb_true_iff in Hm as [_ ?]. }
  exists t. split_and!; [done| |by exists base, r].
  destruct Hq as [Hq|Hq]; [by left|]. right. unfold port_matches in Hpm. apply orb_true_iff in Hpm as [Hz|Hz]; bools.
  - rewrite Hz in Hq. exfalso. by apply (Hports t Hin).
  - assert (q = port) as <- by lia. done.
Qed.
End confined.

(** ** The composition *)

(** Texts without NUL and ports above zero, as the schema of an App has them. *)
Record plain_request (app : AppRequest) : Prop := {
  pr_modules : Forall nul_free (app_modules app);
  pr_env : Forall (λ r, nul_free (er_name r)) (app_env app);
  pr_fs : Forall nul_free (app_fs_read app);
  pr_deny : Forall nul_free (app_fs_read_deny app);
  pr_namespaces : Forall nul_free (app_storage_namespaces app);
  pr_streams : Forall nul_free (app_stdio_streams app);
  pr_ports : ∀ t, t ∈ app_fetch app → 0 ∉ ft_ports t
}.

(** Tables whose counts fit the descriptor. *)
Definition counts_fit (rp : RuntimePolicy) : Prop :=
  zlen (module_names rp) < 2 ^ 32 ∧ zlen (rp_rules rp) < 2 ^ 32 ∧ zlen (egress_rules rp) < 2 ^ 32 ∧ zlen (env_values rp) < 2 ^ 32.

(** The worker grants exactly the request, and nothing beyond the Host. *)
Record grants (host : HostPolicy) (app : AppRequest) `{InetPton} (p : CapabilityPolicy) : Prop := {
  gr_module m : module_decision p m = kModuleGranted → m ∈ app_modules app ∧ m ∈ module_allowlist host;
  gr_read path : perm_state (evaluate p PERMISSION_READ path) = State_GRANTED ↔
    zlen path <= 4096 ∧ ∃ cs, names path cs ∧ under (app_fs_read app) cs ∧ ¬ under (app_fs_read_deny app) cs;
  gr_roots path : perm_state (evaluate p PERMISSION_READ path) = State_GRANTED → ∃ cs, names path cs ∧ under (fs_read_roots host) cs;
  gr_env name : perm_state (evaluate p PERMISSION_ENV name) = State_GRANTED ↔ name ∈ map er_name (app_env app);
  gr_env_host name : perm_state (evaluate p PERMISSION_ENV name) = State_GRANTED →
    (∃ q, q ∈ env_patterns host ∧ pattern_holds q name) ∧ ∀ q, q ∈ env_deny_patterns host → ¬ pattern_holds q name;
  gr_storage n : perm_state (evaluate p PERMISSION_STORAGE n) = State_GRANTED ↔ app_storage app = true ∧ n ∈ app_storage_namespaces app;
  gr_storage_host n : perm_state (evaluate p PERMISSION_STORAGE n) = State_GRANTED → storage_allowed host = true ∧ n ∈ host_storage_namespaces host;
  gr_stdio n : perm_state (evaluate p PERMISSION_STDIO n) = State_GRANTED ↔ app_stdio app = true ∧ n ∈ app_stdio_streams app;
  gr_stdio_host n : perm_state (evaluate p PERMISSION_STDIO n) = State_GRANTED → stdio_allowed host = true ∧ n ∈ host_stdio_streams host;
  gr_others permission x : permission ∈ [PERMISSION_WRITE; PERMISSION_SYS; PERMISSION_FFI; PERMISSION_RAW_SOCKET; PERMISSION_ENGINE] →
    perm_state (evaluate p permission x) ≠ State_GRANTED;
  gr_net input port : allowed (decide_host (net_policy p) input port) = true →
    ∃ t a, t ∈ app_fetch app ∧ a ∈ fetch_targets host ∧ ft_host a = ft_host t ∧ port_in t port ∧ port_in a port ∧ speaks t input port
}.

(** The worker's policy against a compiled request. *)
Section composition.
Context `{InetPton} (host : HostPolicy) (app : AppRequest) (resolved : list EffectiveEnvEntry) (e : EffectiveConfig)
  (values : list (bytes * bytes)) (rp : RuntimePolicy) (p : CapabilityPolicy) (roots : list bytes).
Hypothesis Hcompiled : compiled host app resolved e roots.
Hypothesis Hbuilt : built e values rp.
Hypothesis Hconf : configure_capability (Some (capability rp)) = inr p.
Hypothesis Hvals : ∀ n, n ∈ map ee_name (ef_env e) → n ∈ map fst values.
Hypothesis Hplain : plain_request app.
Hypothesis Hfit : counts_fit rp.

Lemma policy_parts : policy_wf p ∧ allowed_modules p = map cut_nul (ef_modules e)
  ∧ env_entries p = map (λ v, (cut_nul v.1, cut_nul v.2)) values
  ∧ match ef_fetch e with [] => net_policy p = new_EgressPolicy | _ => configure (Some (egress rp)) = inr (net_policy p) end.
Proof using All.
  destruct Hfit as (L1 & _ & _ & L4). rewrite (bt_modules _ _ _ Hbuilt) in L1. rewrite (bt_values _ _ _ Hbuilt) in L4.
  by apply configured_built.
Qed.

Lemma rules_are P A x : rule_in p P A x ↔ x ∈ map cut_nul (resources e P A).
Proof using All. destruct Hfit as (_ & L2 & _). by rewrite (rule_in_specs e values rp p), specs_resources. Qed.

Lemma no_denials P x : P ≠ PERMISSION_READ → ¬ rule_in p P PERMISSION_DENY x.
Proof using All. intros HP Hx%rules_are. destruct P; try done; by apply not_elem_of_nil in Hx. Qed.

Lemma env_rules x : rule_in p PERMISSION_ENV PERMISSION_ALLOW x ↔ x ∈ map er_name (app_env app).
Proof using All.
  rewrite rules_are. cbn [resources]. rewrite (cp_env _ _ _ _ _ Hcompiled), cut_nul_map.
  - by rewrite (Permutation_map er_name (sort_perm by_name (app_env app))).
  - rewrite Forall_fmap, sort_perm. apply Hplain.
Qed.

(** The variables have values, so the worker has checked their names. *)
Lemma env_rules_valid x : rule_in p PERMISSION_ENV PERMISSION_ALLOW x → valid_env_name x = true.
Proof using All.
  intros Hx%env_rules. destruct policy_parts as (Hwf & _ & Henv & _). destruct (wf_env p Hwf) as (_ & Hent & _). rewrite Forall_forall in Hent.
  assert (nul_free x) as Hnul.
  { apply list_elem_of_fmap in Hx as (r & -> & Hr). pose proof (pr_env _ Hplain) as Hall. rewrite Forall_forall in Hall. by apply Hall. }
  rewrite <- (Permutation_map er_name (sort_perm by_name (app_env app))), <- (cp_env _ _ _ _ _ Hcompiled) in Hx.
  apply Hvals, list_elem_of_fmap in Hx as (v & -> & Hv).
  destruct (Hent (cut_nul v.1, cut_nul v.2)) as (Hval & _); [rewrite Henv; apply list_elem_of_fmap; by exists v|].
  cbn in Hval. by rewrite cut_nul_free in Hval.
Qed.

Lemma optional_set (wanted : bool) l n : Forall nul_free l → n ∈ map cut_nul (if wanted then set_of l else []) ↔ wanted = true ∧ n ∈ l.
Proof using.
  intros Hl. destruct wanted; cbn [map]; [|rewrite elem_of_nil; by split; [|intros [? _]]].
  rewrite cut_nul_map, elem_of_set_of; [split; [intros ?; by split|by intros [_ ?]]|].
  apply Forall_forall. intros y Hy. rewrite elem_of_set_of in Hy. rewrite Forall_forall in Hl. by apply Hl.
Qed.

Lemma read_exact path : perm_state (evaluate p PERMISSION_READ path) = State_GRANTED ↔
  zlen path <= 4096 ∧ ∃ cs, names path cs ∧ under (app_fs_read app) cs ∧ ¬ under (app_fs_read_deny app) cs.
Proof using All.
  destruct policy_parts as (Hwf & _). destruct Hfit as (_ & L2 & _). pose proof (cp_permitted _ _ _ _ _ Hcompiled) as Hp.
  assert (∀ cs, covers p PERMISSION_READ PERMISSION_ALLOW cs ↔ under (app_fs_read app) cs) as Hallow.
  { intros cs. apply (covers_under e values rp); try done; [apply Hplain| |apply Hcompiled].
    intros raw Hraw. destruct (proj2 (pm_fs _ _ _ _ Hp) raw Hraw) as (n & ? & _). by exists n. }
  assert (∀ cs, covers p PERMISSION_READ PERMISSION_DENY cs ↔ under (app_fs_read_deny app) cs) as Hdeny.
  { intros cs. apply (covers_under e values rp); try done; [apply Hplain| |apply Hcompiled].
    intros raw Hraw. destruct (proj2 (pm_deny _ _ _ _ Hp) raw Hraw) as (n & ? & _). by exists n. }
  rewrite path_access by (try done; by left). setoid_rewrite Hallow. setoid_rewrite Hdeny. done.
Qed.

Lemma storage_exact n : perm_state (evaluate p PERMISSION_STORAGE n) = State_GRANTED ↔
  app_storage app = true ∧ n ∈ app_storage_namespaces app.
Proof using All.
  destruct policy_parts as (Hwf & _). rewrite exact_granted; [|done|by left|by intros x; apply no_denials].
  rewrite rules_are. cbn [resources]. rewrite (cp_storage _ _ _ _ _ Hcompiled). apply optional_set, Hplain.
Qed.

Lemma stdio_exact n : perm_state (evaluate p PERMISSION_STDIO n) = State_GRANTED ↔ app_stdio app = true ∧ n ∈ app_stdio_streams app.
Proof using All.
  destruct policy_parts as (Hwf & _). rewrite exact_granted; [|done|by right|by intros x; apply no_denials].
  rewrite rules_are. cbn [resources]. rewrite (cp_stdio _ _ _ _ _ Hcompiled). apply optional_set, Hplain.
Qed.

Lemma env_exact n : perm_state (evaluate p PERMISSION_ENV n) = State_GRANTED ↔ n ∈ map er_name (app_env app).
Proof using All.
  destruct policy_parts as (Hwf & _). rewrite env_granted; [apply env_rules|done|apply env_rules_valid|by intros x; apply no_denials].
Qed.

Lemma module_confined m : module_decision p m = kModuleGranted → m ∈ app_modules app ∧ m ∈ module_allowlist host.
Proof using All.
  destruct policy_parts as (_ & Hmods & _). unfold module_decision. destruct (module_forbidden m); [done|].
  destruct (contains (allowed_modules p) m) eqn:Ec; cbn [negb]; [|by destruct (module_known m)]. intros _.
  unfold contains in Ec. apply bool_decide_eq_true_1 in Ec. rewrite Hmods, (cp_modules _ _ _ _ _ Hcompiled) in Ec.
  apply (optional_set true) in Ec as [_ Ec]; [|apply Hplain]. split; [done|].
  by apply (pm_modules _ _ _ _ (cp_permitted _ _ _ _ _ Hcompiled)).
Qed.

Lemma fetch_confined input port : allowed (decide_host (net_policy p) input port) = true →
  ∃ t a, t ∈ app_fetch app ∧ a ∈ fetch_targets host ∧ ft_host a = ft_host t ∧ port_in t port ∧ port_in a port ∧ speaks t input port.
Proof using All.
  intros Hal. destruct policy_parts as (_ & _ & _ & Hnet). destruct Hfit as (_ & _ & L3 & _).
  assert (∀ t, t ∈ ef_fetch e ↔ t ∈ app_fetch app) as Hin by (intros t; by rewrite (cp_fetch _ _ _ _ _ Hcompiled), sort_perm).
  assert (∃ t, t ∈ ef_fetch e ∧ port_in t port ∧ speaks t input port) as (t & Ht%Hin & Hport & Hsp).
  { assert (ef_fetch e = [] ∨ configure (Some (egress rp)) = inr (net_policy p)) as [E|Hc] by (destruct (ef_fetch e); auto).
    - rewrite E in Hnet. rewrite Hnet in Hal. apply allowed_rule in Hal as (r & Hr & _); [|done]. by apply not_elem_of_nil in Hr.
    - eapply net_confined; [done..| |done]. intros t Ht%Hin. by apply (pr_ports _ Hplain). }
  destruct (fetch_covered_spec _ _ (pm_fetch _ _ _ _ (cp_permitted _ _ _ _ _ Hcompiled) t Ht)) as (a & Ha & Hh & Hports).
  exists t, a. split_and!; [done..|by apply Hports|done].
Qed.
End composition.


(** ** Samples *)

Definition sample_values : list (bytes * bytes) := [(bs "APP_KEY", bs "hunter2"); (bs "MODE", bs "production")].

Definition sample_effective : EffectiveConfig :=
  match compile_policy sample_sha256 sample_host sample_app sample_resolved with
  | inr e => e
  | inl _ => mkEffective [] [] [] [] [] [] [] [] false [] [] false [] [] 0 0 0 0 0 0 0 0 0 0 0 0 0 false [] [] [] []
  end.

Definition sample_runtime : bytes + RuntimePolicy := build_runtime_policy sample_effective sample_values.

Definition sample_rp : RuntimePolicy :=
  match sample_runtime with inr rp => rp | inl _ => mkRuntimePolicy [] [] [] [] [] [] [] sample_policy sample_descriptor false end.

Definition sample_worker : CapabilityPolicy :=
  match configure_capability (Some (capability sample_rp)) with inr p => p | inl _ => new_CapabilityPolicy end.

